(* ===== verification/_CoqProject ===== *)
-Q . S2P
Prelude.v
Text.v
Digest.v
Model.v
CommandLine.v
Interaction.v
Event.v
Transcript.v
State.v
Tree.v
Recovery.v
Ears.v
Numbers.v
Utf8.v
Rooms.v
RoomVerbs.v
RoomLaws.v
Queue.v
PermPath.v
PermRule.v
PermDecide.v
Chain.v
Catalogue.v
Gate.v
Settings.v
SettingsLaws.v
Context.v
Commands.v
Store.v
Hub.v
Restart.v
Jsonl.v
Journal.v
Checkpoints.v
Asks.v
Stream.v
Round.v
Turn.v
Session.v
Actor.v
Tasks.v
TaskLaws.v
Schedule.v
ScheduleLaws.v
Files.v
FileLaws.v
AskUser.v
ShellWords.v
Shell.v
ShellLaws.v
Ledger.v
Closing.v
Sse.v
SseLaws.v
Kept.v
Provider.v
Anthropic.v
AnthropicLaws.v
RequestLaws.v
OpenAI.v
OpenAILaws.v
