(* ===== verification/Prelude.v ===== *)
(** * Bingo: a verification library

    Bingo is an agent kernel in Rust: sessions hold a conversation as a journal
    of events, turns stream a model's answer and run the tools it calls, a
    permission policy decides which calls run, and clients rebuild everything
    they show from the events.  This library models the kernel's own logic
    ([src/crates/bingo-sdk], [src/crates/bingo-core]), the permission plugin
    ([src/crates/bingo-permissions]), the journal on disk
    ([src/crates/bingo-store-jsonl]), the rooms agents talk in
    ([src/crates/bingo-collab], [src/crates/bingo-rooms]), the task lists
    ([src/crates/bingo-tasks]), what runs at a time of its own
    ([src/crates/bingo-schedule], [src/crates/bingo-alarm]), the two tools
    a model works with, files and the shell ([src/crates/bingo-tool-fs],
    [src/crates/bingo-tool-bash]), and what two providers' models are asked and
    what is heard of their answers ([src/crates/bingo-http],
    [src/crates/bingo-provider-anthropic], [src/crates/bingo-provider-openai]),
    and proves the properties those parts rely
    on each other for.

    ** The parts and the files that model them

    - [Prelude] (this file): machine integers, [result] with its [let*], list
      helpers named after the iterator methods they stand for, the [bingo] hint
      database, the tactics [case_all] and [bools], generic lemmas.
    - [Text]: strings as lists of code points, UTF-8 lengths, the string methods
      the sources use, printing of numbers.  [Numbers]: numbers printed and read
      back.  [Utf8]: decoding of bytes as the standard library does it, whole, in
      pieces, and with what is broken replaced.
    - [Model], [Interaction], [Event]: the wire vocabulary of the sdk ([model.rs],
      [tool.rs], [policy.rs], [event.rs], [event/interaction.rs], [asked.rs],
      [hunks.rs]), constructor for constructor.
    - [Transcript]: the item reducer ([transcript.rs], [transcript/checkpoint.rs]): items,
      their index, the model's order, compaction, rewinds, windows, checkpoints.
    - [State]: the session reducer ([state.rs]); [Tree]: a client's tree of
      sessions ([tree.rs]).
    - [Recovery]: what a restart publishes for a lost turn and what a rewind
      takes back ([session/recovery.rs], [rewind.rs]).
    - [Queue]: the input queue and the session's operations on it
      ([session/queue.rs], [session/inputs.rs]).
    - [PermPath], [PermRule], [PermDecide]: the permission plugin: paths and
      hosts, rules over parsed shell commands, the decision ladder, session
      answers and the [/permission] command.
    - [Chain]: the interception chain ([chain/]); [Gate]: the tool
      gate over it ([gate.rs], [gate/]).
    - [Context]: transcript to messages, with stale results and pictures elided
      ([context.rs], [context/elide.rs], [context/elide/images.rs]).
    - [Stream]: the response accumulator and the streaming leg
      ([accumulator.rs], [turn/stream.rs]).
    - [Round]: the schedule and the walk over a response's calls ([round.rs],
      [executor.rs], [turn/round.rs]).
    - [Turn]: the loop of round trips, its ruler and its budgets ([turn.rs],
      [turn/ruler.rs], [turn/config.rs], [turn/compact.rs], [context/budget.rs]).
    - [Catalogue]: the chain over JSON ([bingo-sdk/src/catalogue.rs],
      [catalogue/matcher.rs], [chain/json.rs], [person.rs], [config.rs],
      [registration.rs], [append.rs]): the table of points, pins, what a link may
      answer, a plugin's registration, the rows it appends.
    - [CommandLine], [Commands]: how a line names a command ([bingo-sdk/src/command.rs],
      [session/commands.rs]), its run through links ([chain/command.rs]), who drew
      a key ([session/drawn.rs]), submit hooks ([chain/submit.rs]) and what the
      input gate makes of an input ([session/gate.rs]).
    - [Store]: the store interface and the store in memory ([store.rs],
      [journal.rs]); [Hub]: publication, subscribers, checkpoints and the close at
      a journal failure ([session.rs], [session/subscribers.rs], [storage.rs],
      [checkpoint.rs], [past.rs]); [Restart]: spawning and resuming
      ([session/spawn.rs]).
    - [Digest]: SHA-256 ([bingo-digest/src/lib.rs]).
    - [Settings]: layers and their merge, what only the person may say and what
      waits for approval ([settings.rs], [settings/merge.rs], [settings/approval.rs],
      [approval.rs], [approval/digest.rs]); its theorems are in [SettingsLaws].
    - [Jsonl]: the store on disk, byte for byte ([bingo-store-jsonl]: [journal.rs],
      [journal/writer.rs], [journal/migrate.rs], [checkpoint.rs],
      [checkpoint/witness.rs], [lib.rs]).  A session's directory is the record
      [Dir]; a write that stops half-way is the argument [fault].  [Journal] proves
      what appends and replays do and that the store is an instance of the
      interface of [Store]; [Checkpoints] proves the search for a checkpoint's line.
    - [Ears], [Rooms]: a room as its journal says it ([bingo-collab]: [name.rs],
      [ear.rs]; [mentions.rs], [owed.rs], [cursor.rs], [seen.rs], [room.rs],
      [room/moves.rs], [room/readers.rs], [lifecycle.rs]).  [RoomVerbs]: what is
      done in one ([bingo-rooms]: [post.rs], [serial.rs], [service.rs], [seat.rs],
      [door.rs], [control.rs], [listen.rs], [reader.rs], [roster.rs], [chase.rs],
      [deadline.rs]), as lists of effects asked of a host; theorems in [RoomLaws].
    - [Tasks]: a session's task list and a room's board ([bingo-tasks]: the journal
      entry, the list's operations, the tools, the command, the reminder, the
      pane); theorems in [TaskLaws].
    - [Schedule]: when an entry is next due and how it is written, the runner that
      fires what is due, the tools and the command, the confirmation of a prompt,
      and the wakes a model sets itself ([bingo-schedule], the list it keeps on its
      shelf [bingo-shelf], the timer [bingo-alarm]); theorems in [ScheduleLaws].
    - [Files]: the calls that read, write and edit ([bingo-tool-fs]: [read.rs],
      [write.rs], [edit.rs] and what they share); theorems in [FileLaws].
      [AskUser]: the questions a model puts to the person ([ask.rs]), from its
      arguments through [Asks] to the text it reads back.
    - [ShellWords]: the words of a command line and the commands refused
      ([bingo-tool-bash]: [reject.rs], [endless.rs], [idle.rs]).  [Shell]: a
      command's output from its two pipes to the window that is shown and the log
      that is read later, the watches over a log, the jobs and the calls
      ([run.rs], [output.rs], [log.rs], [sink.rs], [tail.rs], [upshot.rs],
      [jobs.rs], [kill.rs], [read.rs], [notify.rs], [supervise.rs], [promote.rs],
      [shell.rs], [lib.rs]); theorems in [ShellLaws].
    - [Sse]: a response's bytes as frames, and a body read to its end over any
      decoder ([bingo-http]: [sse.rs], [stream.rs]; the class [Sse.Decode] is the
      trait [Decode]); theorems in [SseLaws].  [Provider]: a request, and what a
      refusal's body and headers say ([bingo-sdk/src/model.rs], [provider.rs],
      [provider/error.rs]).  [Anthropic]: the Messages API ([events.rs],
      [request.rs], [error.rs], [models.rs]); theorems of its stream in
      [AnthropicLaws], of its requests in [RequestLaws].  [OpenAI]: the Responses
      API ([events.rs], [input.rs], [request.rs], [effort.rs], [error.rs],
      [models.rs], [variant.rs]); theorems in [OpenAILaws].  [Kept] says what a turn
      keeps of a response of well-formed blocks, whoever streamed it.
    - [Asks]: the open interactions of a session and the receipts, records and
      signals its actor publishes ([session/interactions.rs],
      [interactions/receipt.rs], [signals.rs], [complete.rs]).
    - [Session]: the actor: every message it handles, one step each
      ([session.rs], [session/inputs.rs], [session/gate.rs], [session/running.rs],
      [session/catalogue.rs], [mailbox.rs]).  Its theorems are in [Actor] (turns),
      [Ledger] (inputs) and [Closing] (the end).

    ** How they fit together

    The actor ([Session]) takes a message at a time.  A submission goes through
    the input gate ([Commands]) and enters [Queue] or runs as a command; a turn ([Turn]) takes it and makes round trips.
    Each folds the transcript into messages ([Context]), folds the response into
    items ([Stream]), and walks its calls ([Round]) through the gate ([Gate]),
    which asks hooks, the chain of links ([Chain]), the policy ([PermDecide], as
    an instance of the class [PermissionPolicy]) and a person.  Everything a turn
    does is an event, mailed to the actor, which publishes it ([Hub]): numbered,
    journaled ([Store]), folded ([State]) and fanned out to subscribers.  What the
    turn asks a person goes through [Asks].  [Recovery] and [Restart] pick up what
    a crash left open.  The handlers of [Session] are written in the monad
    [Hub.Act] over the hub; [Actor] gives them a discipline (a record of what
    every publication must keep, with its laws), which [Actor] instantiates with
    turns and [Ledger] with inputs.  [Gate] is proved against the interface
    [PermissionPolicy] and instantiated with the plugin's policy.  [Hub] and
    [Restart] are proved against the interface [Store.StoreLaws], which the store
    in memory ([Store]) and the one on disk ([Journal]) both discharge, so what is
    proved of publication and restart holds over the journal file too.  A room is a
    session like any other: [RoomLaws] runs the verbs over the state of [State],
    whose extensions and transcript are all a room is made of.  A task list is an
    extension of a session or of a room, found by walking the rooms of [Rooms] and
    signed with the seats of [RoomVerbs].  Tools are asked for through [Gate] and
    [Round]: [Tasks] states which of its calls may overlap and [TaskLaws] proves
    the schedule of [Round] keeps the rest apart.  The shell decodes its pipes with
    [Utf8], which [Files] reads files with too.  A provider is an instance of the
    class [Sse.Decode]: the events it decodes are what [Stream] folds into items,
    and [Context] folds those items into the messages that its next request
    writes down again; [AnthropicLaws] and [OpenAILaws] prove the whole circle, from
    the bytes on the wire to what the next request says in the model's name.

    ** Modelling choices

    Strings are lists of Unicode scalar values.  Unsigned integers are in [N] and
    wrap or saturate where the code does.  Hash maps are [gmap]s; where the order
    of iteration shows, it is a parameter.  Fallible code returns [result] or
    [option].  Awaits are explicit inputs: the replies of a person, the arrivals
    of a stream, one [Trip] per round trip.  Concurrency inside a round is a step
    relation ([Round.walk_step]) whose interleavings are all considered.  Minted
    ids and clock readings are arguments or a supply, with freshness as a named
    hypothesis.  Code outside the repository is a parameter: the Bash grammar,
    shell words and globs (class [ShellTools] of [PermRule]), JSON text
    ([json_text], [parse_json]; for the store the class [Jsonl.JsonText]) and hash
    order ([hash_order], any permutation of the keys).  The line a frame or a
    checkpoint is written as ([record.rs], with pictures moved out of line) is the
    class [Jsonl.Records], with the laws [Journal.CodecLaws] and
    [Checkpoints.AnchorLaws] that a line reads back; [Journal.Example] is a codec
    that has them.  The tables of Unicode and the escapes of [Debug] are the class
    [Ears.Unicode]; how a moment is printed is [Rooms.Clock].  Time zones are the
    class [Schedule.Calendar], with the law that the civil date never goes back
    (true wherever clocks are not set back across midnight) in
    [ScheduleLaws.CalendarLaws]; the sessions a task call can reach are the
    parameter [Tasks.TaskHost].  Of the shell, the regular expressions, the word
    splitter and the pace of a watch (floating point) are parameters; spans are
    counted in nanoseconds.  Of the file tools, the diff, the pictures and the
    refusals of the platform are parameters, and the disk is what stands at each
    path: a write that stops half-way is not modelled.  Of the providers, JSON text
    and its parser, dates as mail writes them and the floats of a delay
    ([OpenAI.Floats]) are parameters; what the wire brings, and how long it waits
    for it, is a list of arrivals ([Sse.Wait]).

    The actor's own tasks (a turn, a command, the gate's evaluation) come back as
    messages in any order and number; what they decide is the content of the
    message, and what produces that content is modelled in [Turn] and [Commands].
    A subscriber's stream is polled in two phases, between which other steps may
    fall ([Hub.Poll]).  The world outside the actor (clock, minted ids, the
    policy's statement of the configuration, whether the host is there) is the
    record [Session.World], indexed by a count of publications.  The runner of
    schedules and the wakes are step relations over every interleaving of their
    tasks, edits and clock readings ([Schedule.loop_step], [Schedule.wakes_step]),
    and what arrives from a command's pipes, its log's other readers and the ticks
    of a watch are lists in any order.

    Fuel: [Gate.ask_loop] recurses on the list of replies and [Turn.respond] on
    the list of trips; both come with theorems that enough input always gives a
    result.  The merge of settings ([Settings.fold_value]) has as fuel the depth of
    the values it merges, and every step goes one level down; the search of a
    journal for a newline and for a line ([Jsonl.previous_newline], [Jsonl.locate])
    has the offset it starts from, and each step moves back by at least one byte;
    the blocks of a message ([Digest.chunks_of]) have its length; decoding
    ([Utf8], [Shell.decode_pending]) and splitting ([Files.split_str],
    [ShellWords]) have the length of what is left, and every step takes at least
    one byte or character ([Utf8.valid_fuel], [ShellLaws.decode_pending_fuel],
    [FileLaws.split_str_spec]); the cutting of frames ([Sse.frames_loop]) has the
    length of the buffer, and every frame takes at least one byte; the reading of a
    body ([Sse.model_stream]) is proved to come to its result with every fuel that
    is large enough.  Recursion over parse trees carries no fuel (they
    are inductive).

    ** What the theorems show

    - Safety of tool calls: nothing runs that the policy denied or nobody decided
      ([Gate]); an allowed call is unconstrained by every deny, ask, sensitive
      path or confirmation ([PermDecide]); allow rules cover every command of a
      Bash string and deny rules reach nested ones, because splitting finds every
      command ([PermRule]); links and unasked commands only tighten ([Chain],
      [PermDecide]); containment of paths is containment of components
      ([PermPath]).
    - State is what the journal says: durable frames rebuild the durable state,
      overlapping replays are harmless, interactions and accounting are exact
      ([State]); transcripts keep their invariant and survive checkpoints
      ([Transcript]); recovery settles and rewinds cut exactly ([Recovery]);
      clients fold each session on its own ([Tree]).
    - Input order: no line is lost, duplicated or reordered, and only its sender
      withdraws it ([Queue]).
    - Publication: nothing durable is heard that was not journaled first, a
      subscriber hears in order from where it asked and is told of a gap, a
      journal failure closes the session with everyone told ([Hub]); a successor
      resumes where the journal stops ([Restart]).
    - Asks: each is answered at most once, an answer is earned, and a login's text
      reaches only its asker ([Asks]).
    - The actor: turns never overlap ([Actor]), no input is lost ([Ledger]),
      closing settles everything ([Closing]).
    - Plugins: a registration only reduces the grant, rows stay their owner's
      ([Catalogue]), lines only the person may run run as typed, nothing passes
      the gate that was refused, a key is vouched for only by what shows it
      ([Commands]).
    - Turns: what is published is what the turn acts on and a failed attempt
      leaves no trace ([Stream]); calls are scheduled safely, every call comes to
      one outcome and rounds end ([Round]); turns terminate, spend within their
      budgets and never rewrite history ([Turn]); the model's view answers every
      call, alternates, only grows, and stays within its bounds ([Context]).
    - The journal on disk: what was appended replays, older versions go on in the
      current one, half a line at the end is dropped ([Journal]); a checkpoint is
      resumed at exactly its line, whatever was appended since ([Checkpoints]).
    - Settings: a plugin finds at its key what the layers say by the key's rule,
      trust and approvals come from the person alone, a repository adds nothing
      personal, and what it would run waits ([SettingsLaws]).  The padding of
      SHA-256 is the standard's ([Digest]).
    - Rooms: what is owed is exactly the calls nobody answered; the rooms a process
      folds are their journals'; a roster reads back; who is called is woken; a post
      that bounced lands when made again; who joins reads from there; a post is
      read once; timers are the standing debts ([RoomLaws]).
    - Task lists: calls that take turns lose nothing, ids count up, a change
      touches what it names, a claim is signed by its caller, a board is a room in
      reach, what changed is said, the pane keeps its pick ([TaskLaws]).
    - Schedules and wakes: a written schedule reads back, no occurrence fires twice
      and what is due is started, nothing but the person's own words speaks with
      their authority and a confirmation takes the words that were read; every wake
      has one fate, comes when it is due, and is held to its bounds
      ([ScheduleLaws]).
    - Files: an edit lands exactly what it showed, nothing that was not read is
      overwritten, reading on from where a window ends shows every line
      ([FileLaws]); a form is read back as it was answered ([AskUser]).
    - The shell: what a command wrote is what is read back, however it came through
      the pipes; a watch tells of every line that matched or says how many it did
      not show ([ShellLaws]).
    - Providers: a body is heard the same however its bytes were cut ([SseLaws]); a
      response becomes the message it streamed and goes back as it was said, signed
      and redacted thoughts included ([AnthropicLaws], [OpenAILaws]); cache
      breakpoints stay within what the API takes ([RequestLaws]); an effort is one
      the model takes ([OpenAILaws]).
    - Some statements record defects: a Bash command that begins with the word
      [prefix:] is offered a session scope that covers every Bash call
      ([PermRule.prefix_word_scope_widens]); a reader that lags when its session
      closes gets no marker, and a marker can start late ([Hub.lag_is_misreported]);
      inputs in the gate at a journal failure, and a command in flight at a close,
      are never acknowledged ([Closing.closing_strands_inputs]); a frame appended
      after half a line is acknowledged and lost ([Journal.torn_line_swallows_the_next]);
      a join cannot change an ear its seat retuned, though it answers that it did
      ([RoomLaws.join_leaves_a_retuned_ear]); a seat whose session is titled in
      another case is never woken
      ([RoomLaws.a_seat_in_another_case_is_never_woken]); two task calls that
      overlap lose the first one's change ([TaskLaws.a_race_loses_the_first_change]),
      and an empty owner is recorded as one
      ([TaskLaws.Demo.an_empty_owner_is_recorded]); a cancelled alarm delivers the
      wake set after it before its time
      ([ScheduleLaws.a_cancelled_alarm_delivers_the_next_wake_early]); an edit whose
      text overlaps itself is taken for unique
      ([FileLaws.Demo.an_overlap_is_edited]); a line longer than a window ends the
      reading there ([FileLaws.a_long_line_stops_the_reading]); a job whose shell
      did not start is listed as running for ever
      ([ShellLaws.a_job_whose_shell_did_not_start_stays_running]); a watch misses a
      line written in two pieces
      ([ShellLaws.Demo.a_line_split_between_looks_is_missed]); a log kept past its
      bound has lost its middle ([ShellLaws.Demo.a_moved_log_has_lost_the_middle]); an
      error whose code is null hides its type
      ([OpenAILaws.Demo.a_null_code_hides_the_type]); frames that came with the block
      that was too long are dropped ([SseLaws.an_overflow_drops_what_its_chunk_framed]).

    ** Not modelled

    I/O and rendering (surfaces, gateway, channels, MCP, plugin
    processes, mods), serde encodings of types that do not cross a modelled
    boundary (and, in the store, records written as JSON arrays, which serde reads
    and no build writes), token estimation.  Of the store: summaries, locks, the
    collection of old sessions and the pictures kept beside a journal.  Of
    settings: reading, migrating and writing the files, and the digest of a
    plugin's directory.  Of rooms: the tools and commands around the verbs, the
    team file, the card on a room's parent, and the alarms that run the timers.
    Of schedules: the lock that makes one process the runner, the JSON of an entry,
    cards, sheets and views, and the publishing of wakes.  Of the file tools:
    finding and searching ([glob.rs], [grep.rs]).  Of the shell: starting a
    process, the row of jobs a client shows, and the preview of what a command has
    at stake ([stakes.rs]).  Of providers: clients, logins and accounts, the agents
    spoken to over a pipe, and the scripted one of the tests.  Agents, and an endpoint that is itself one
    ([turn/agent.rs]).  Of the actor: observers of its events
    ([chain/observe.rs]), snapshots with a bounded window, reads of pages of
    history and of the past, and the checks before a call from outside a turn is
    served.  Next in line: agents, pictures in the journal, then
    history pages. *)

From stdpp Require Export base gmap fin_maps sorting strings numbers option list.

(** ** Machine integers

    The crates are built without overflow checks in release mode, so an
    unsigned [+] wraps at its width.  Unsigned integers are kept in [N]. *)

Definition wrap (w n : N) : N := (n `mod` 2 ^ w)%N.
Definition u32_add (a b : N) : N := wrap 32 (a + b).
Definition u64_add (a b : N) : N := wrap 64 (a + b).
Definition u64_max : N := (2 ^ 64 - 1)%N.
Definition u64_saturating_add (a b : N) : N := N.min (a + b) u64_max.
Definition in_u64 (n : N) : Prop := (n < 2 ^ 64)%N.

(** ** Association of a fallible step with the rest of a computation

    [Result<T, E>] is a sum; [let* x := e in k] is the [?] operator. *)

Inductive result (E A : Type) : Type :=
| Ok (a : A)
| Err (e : E).
Arguments Ok {E A} a.
Arguments Err {E A} e.

Definition rbind {E A B} (m : result E A) (k : A -> result E B) : result E B :=
  match m with
  | Ok a => k a
  | Err e => Err e
  end.

Definition is_ok {E A} (m : result E A) : bool :=
  match m with Ok _ => true | Err _ => false end.

Declare Scope bingo_scope.
Delimit Scope bingo_scope with bingo.
Notation "'let*' x := e 'in' k" := (rbind e (fun x => k))
  (at level 10, x pattern, e at level 100, k at level 200) : bingo_scope.
Notation "'let?' x := e 'in' k" := (mbind (M := option) (fun x => k) e)
  (at level 10, x pattern, e at level 100, k at level 200) : bingo_scope.
Open Scope bingo_scope.

(** ** Generic executable helpers on lists *)

(** [Iterator::find_map]. *)
Fixpoint find_map {A B} (f : A -> option B) (l : list A) : option B :=
  match l with
  | [] => None
  | x :: l' => match f x with Some y => Some y | None => find_map f l' end
  end.

(** [Iterator::find], on a boolean predicate. *)
Definition find_bool {A} (p : A -> bool) (l : list A) : option A :=
  find_map (fun x => if p x then Some x else None) l.

(** [Iterator::position]. *)
Fixpoint position {A} (p : A -> bool) (l : list A) : option nat :=
  match l with
  | [] => None
  | x :: l' => if p x then Some 0 else S <$> position p l'
  end.

(** [Iterator::rposition]: the last one. *)
Fixpoint rposition {A} (p : A -> bool) (l : list A) : option nat :=
  match l with
  | [] => None
  | x :: l' => match rposition p l' with Some i => Some (S i) | None => if p x then Some 0 else None end
  end.

(** [Iterator::any], [Iterator::all]. *)
Definition any {A} (p : A -> bool) (l : list A) : bool := existsb p l.
Definition all {A} (p : A -> bool) (l : list A) : bool := forallb p l.

(** [Vec::retain]. *)
Definition retain {A} (p : A -> bool) (l : list A) : list A := List.filter p l.

(** [Iterator::take_while]. *)
Fixpoint take_while {A} (p : A -> bool) (l : list A) : list A :=
  match l with
  | [] => []
  | x :: l' => if p x then x :: take_while p l' else []
  end.

Definition option_is_some {A} (o : option A) : bool :=
  match o with Some _ => true | None => false end.

(** [Option::or_else] on an already evaluated alternative. *)
Definition option_or {A} (o o' : option A) : option A :=
  match o with Some _ => o | None => o' end.

(** ** Automation *)

Create HintDb bingo discriminated.

(** Case analysis on the [if]s and [match]es of the goal, one at a time. *)
Ltac case_all :=
  repeat (case_match || case_decide || case_bool_decide); simplify_eq/=.

(** Turn boolean tests in hypotheses and goal into propositions. *)
Ltac bools :=
  repeat match goal with
  | H : _ && _ = true |- _ => apply andb_true_iff in H as [? ?]
  | H : _ || _ = false |- _ => apply orb_false_iff in H as [? ?]
  | H : negb _ = true |- _ => apply negb_true_iff in H
  | H : negb _ = false |- _ => apply negb_false_iff in H
  | H : bool_decide _ = true |- _ => apply bool_decide_eq_true_1 in H
  | H : bool_decide _ = false |- _ => apply bool_decide_eq_false_1 in H
  end.

(** ** Lemmas on the helpers *)

Lemma wrap_small w n : (n < 2 ^ w)%N → wrap w n = n.
Proof. intros H. unfold wrap. by apply N.mod_small. Qed.

Lemma wrap_lt w n : (wrap w n < 2 ^ w)%N.
Proof. unfold wrap. apply N.mod_lt. apply N.pow_nonzero. lia. Qed.

Lemma wrap_add_l w a b : wrap w (wrap w a + b) = wrap w (a + b).
Proof. unfold wrap. rewrite N.Div0.add_mod_idemp_l. done. Qed.

Lemma wrap_add_r w a b : wrap w (a + wrap w b) = wrap w (a + b).
Proof. unfold wrap. rewrite N.Div0.add_mod_idemp_r. done. Qed.

Lemma find_map_Some {A B} (f : A → option B) l y :
  find_map f l = Some y → ∃ x, x ∈ l ∧ f x = Some y.
Proof.
  induction l as [|x l IH]; simpl; [done|].
  destruct (f x) eqn:E; intros; simplify_eq.
  - exists x. split; [by left|done].
  - destruct IH as (x' & ? & ?); [done|]. exists x'. split; [by right|done].
Qed.

Lemma find_map_None {A B} (f : A → option B) l :
  find_map f l = None ↔ ∀ x, x ∈ l → f x = None.
Proof.
  induction l as [|x l IH]; simpl.
  - split; [by intros _ x []%elem_of_nil|done].
  - destruct (f x) eqn:E.
    + split; [done|]. intros H. specialize (H x). rewrite H in E; [done|by left].
    + rewrite IH. split.
      * intros H y [->|Hy]%elem_of_cons; auto.
      * intros H y Hy. apply H. by right.
Qed.

Lemma find_map_app {A B} (f : A → option B) l k :
  find_map f (l ++ k) = option_or (find_map f l) (find_map f k).
Proof. induction l as [|x l IH]; simpl; [done|]. by destruct (f x). Qed.

Lemma find_bool_Some {A} (p : A → bool) l x :
  find_bool p l = Some x → x ∈ l ∧ p x = true.
Proof.
  intros (y & Hy & E)%find_map_Some. destruct (p y) eqn:Ep; by simplify_eq.
Qed.

Lemma find_bool_None {A} (p : A → bool) l :
  find_bool p l = None ↔ ∀ x, x ∈ l → p x = false.
Proof.
  unfold find_bool. rewrite find_map_None.
  split; intros H x Hx; specialize (H x Hx); by destruct (p x).
Qed.

Lemma any_true {A} (p : A → bool) l : any p l = true ↔ ∃ x, x ∈ l ∧ p x = true.
Proof.
  unfold any. rewrite existsb_exists. by setoid_rewrite <- list_elem_of_In.
Qed.

Lemma any_false {A} (p : A → bool) l : any p l = false ↔ ∀ x, x ∈ l → p x = false.
Proof.
  rewrite <- not_true_iff_false, any_true. split.
  - intros H x Hx. apply not_true_iff_false. eauto.
  - intros H (x & Hx & Hp). by rewrite H in Hp.
Qed.

Lemma all_true {A} (p : A → bool) l : all p l = true ↔ ∀ x, x ∈ l → p x = true.
Proof.
  unfold all. rewrite forallb_forall. by setoid_rewrite <- list_elem_of_In.
Qed.

Lemma elem_of_retain {A} (p : A → bool) l x : x ∈ retain p l ↔ x ∈ l ∧ p x = true.
Proof. unfold retain. rewrite !list_elem_of_In. apply filter_In. Qed.

Lemma retain_app {A} (p : A → bool) l k : retain p (l ++ k) = retain p l ++ retain p k.
Proof. apply List.filter_app. Qed.

Lemma retain_all {A} (p : A → bool) l : (∀ x, x ∈ l → p x = true) → retain p l = l.
Proof.
  induction l as [|x l IH]; simpl; intros H; [done|].
  rewrite H; [|by left]. f_equal. apply IH. intros y Hy. apply H. by right.
Qed.

Lemma retain_none {A} (p : A → bool) l : (∀ x, x ∈ l → p x = false) → retain p l = [].
Proof.
  induction l as [|x l IH]; simpl; intros H; [done|].
  rewrite H; [|by left]. apply IH. intros y Hy. apply H. by right.
Qed.

Lemma NoDup_retain {A} (p : A → bool) (l : list A) : NoDup l → NoDup (retain p l).
Proof.
  induction 1 as [|x l Hx Hl IH]; simpl; [constructor|].
  destruct (p x); [|done]. constructor; [|done]. rewrite elem_of_retain. naive_solver.
Qed.

Lemma retain_map {A B} (f : A → B) (p : B → bool) l :
  f <$> retain (λ x, p (f x)) l = retain p (f <$> l).
Proof. induction l as [|x l IH]; csimpl; [done|]. destruct (p (f x)); csimpl; by rewrite IH. Qed.

Lemma retain_length {A} (p : A → bool) l : length (retain p l) ≤ length l.
Proof. induction l as [|x l IH]; simpl; [done|]. destruct (p x); simpl; lia. Qed.

Lemma take_while_split {A} (p : A → bool) l :
  l = take_while p l ++ drop (length (take_while p l)) l.
Proof. induction l as [|x l IH]; simpl; [done|]. destruct (p x); simpl; by rewrite <- ?IH. Qed.

Lemma take_while_all {A} (p : A → bool) l x : x ∈ take_while p l → p x = true.
Proof.
  induction l as [|y l IH]; simpl; [by intros []%elem_of_nil|].
  destruct (p y) eqn:E; [|by intros []%elem_of_nil].
  intros [->|?]%elem_of_cons; auto.
Qed.

Lemma position_Some {A} (p : A → bool) l i :
  position p l = Some i ↔
  ∃ x, l !! i = Some x ∧ p x = true ∧ ∀ j y, j < i → l !! j = Some y → p y = false.
Proof.
  revert i. induction l as [|x l IH]; simpl; intros i.
  { split; [done|]. intros (? & ? & _). by rewrite lookup_nil in *. }
  destruct (p x) eqn:E.
  - split.
    + intros [= <-]. exists x. repeat split; [done|]. lia.
    + intros (y & Hy & Hp & H). destruct i as [|i]; [done|].
      specialize (H 0 x). rewrite H in E; simpl; [done|lia|done].
  - rewrite fmap_Some. split.
    + intros (k & (y & Hy & Hp & H)%IH & ->). exists y. repeat split; [done..|].
      intros [|j] z ??; simplify_eq/=; [done|]. eapply H; [|done]. lia.
    + intros (y & Hy & Hp & H). destruct i as [|i]; simplify_eq/=; [congruence|].
      exists i. split; [|done]. apply IH. exists y. repeat split; [done..|].
      intros j z ??. apply (H (S j)); [lia|done].
Qed.

Lemma position_None {A} (p : A → bool) l :
  position p l = None ↔ ∀ x, x ∈ l → p x = false.
Proof.
  induction l as [|x l IH]; simpl.
  - split; [by intros _ x []%elem_of_nil|done].
  - destruct (p x) eqn:E.
    + split; [done|]. intros H. rewrite H in E; [done|by left].
    + rewrite fmap_None, IH. split.
      * intros H y [->|Hy]%elem_of_cons; auto.
      * intros H y Hy. apply H. by right.
Qed.

Lemma rposition_app {A} (p : A → bool) l k :
  rposition p (l ++ k) = match rposition p k with Some i => Some (length l + i) | None => rposition p l end.
Proof.
  induction l as [|x l IH]; simpl; [by destruct (rposition p k)|]. rewrite IH. by destruct (rposition p k).
Qed.

Lemma elem_of_take_in {A} n (l : list A) x : x ∈ take n l → x ∈ l.
Proof. intros H. rewrite <- (take_drop n l), elem_of_app. by left. Qed.

Lemma elem_of_drop_in {A} n (l : list A) x : x ∈ drop n l → x ∈ l.
Proof. intros H. rewrite <- (take_drop n l), elem_of_app. by right. Qed.

Lemma delete_middle {A} (l : list A) i x :
  l !! i = Some x → l = take i l ++ x :: drop (S i) l ∧ delete i l = take i l ++ drop (S i) l.
Proof. intros H. split; [by rewrite take_drop_middle|by apply delete_take_drop]. Qed.

#[export] Hint Resolve NoDup_retain elem_of_take_in elem_of_drop_in : bingo.
