(* ===== verification/Text.v ===== *)
(** * Text: the part of Rust's [str] the modelled crates use

    A [String] is the list of its Unicode scalar values.  Two strings are equal,
    or one a prefix of the other, exactly when their UTF-8 bytes are, so every
    operation below that Rust defines on bytes at character boundaries
    ([starts_with], [split_once], [strip_suffix], ...) is the same operation on
    scalar values.  [char::is_whitespace] is the Unicode [White_Space]
    property; [u32::from_str] reads an optional [+] and ASCII digits and
    refuses overflow. *)

From Stdlib Require Ascii String.
From S2P Require Import Prelude.

Abbreviation char := N (only parsing).
Abbreviation str := (list N).

(** A literal of the source. *)
Definition lit (s : String.string) : str := Ascii.N_of_ascii <$> String.list_ascii_of_string s.
Arguments lit s%_string.

(** One character of the source. *)
Definition chr (s : String.string) : char :=
  match s with String.String a _ => Ascii.N_of_ascii a | String.EmptyString => 0%N end.
Arguments chr s%_string.

(** ** Characters *)

Definition is_whitespace (c : char) : bool :=
  ((9 <=? c) && (c <=? 13) || (c =? 32) || (c =? 133) || (c =? 160) || (c =? 5760)
   || (8192 <=? c) && (c <=? 8202) || (c =? 8232) || (c =? 8233) || (c =? 8239)
   || (c =? 8287) || (c =? 12288))%N.

Definition is_ascii_digit (c : char) : bool := ((48 <=? c) && (c <=? 57))%N.
Definition is_ascii_alphabetic (c : char) : bool :=
  ((65 <=? c) && (c <=? 90) || (97 <=? c) && (c <=? 122))%N.
Definition is_ascii_alphanumeric (c : char) : bool :=
  is_ascii_digit c || is_ascii_alphabetic c.
Definition to_ascii_lowercase (c : char) : char :=
  if ((65 <=? c) && (c <=? 90))%N then (c + 32)%N else c.

(** ** Prefixes and suffixes *)

Fixpoint strip_prefix (p s : str) : option str :=
  match p, s with
  | [], _ => Some s
  | a :: p', b :: s' => if N.eqb a b then strip_prefix p' s' else None
  | _ :: _, [] => None
  end.

Definition starts_with (s p : str) : bool := option_is_some (strip_prefix p s).

Definition strip_suffix (p s : str) : option str :=
  reverse <$> strip_prefix (reverse p) (reverse s).

Definition ends_with (s p : str) : bool := option_is_some (strip_suffix p s).

(** ** Trimming *)

Fixpoint trim_start_by (p : char -> bool) (s : str) : str :=
  match s with
  | [] => []
  | c :: s' => if p c then trim_start_by p s' else s
  end.

Definition trim_end_by (p : char -> bool) (s : str) : str :=
  reverse (trim_start_by p (reverse s)).

Definition trim_by (p : char -> bool) (s : str) : str := trim_end_by p (trim_start_by p s).

Definition trim (s : str) : str := trim_by is_whitespace s.
Definition trim_end_matches (c : char) (s : str) : str := trim_end_by (N.eqb c) s.

(** ** Searching and splitting *)

Definition contains_char (c : char) (s : str) : bool := any (N.eqb c) s.

(** [str::split_once] with a string pattern: around the first occurrence. *)
Fixpoint split_once (pat s : str) : option (str * str) :=
  match strip_prefix pat s with
  | Some rest => Some ([], rest)
  | None =>
      match s with
      | [] => None
      | c :: s' => (fun ab => (c :: ab.1, ab.2)) <$> split_once pat s'
      end
  end.

(** [str::contains] with a string. *)
Definition contains_str (s pat : str) : bool := option_is_some (split_once pat s).

(** [str::rsplit_once] with a character: around the last occurrence. *)
Definition rsplit_once (c : char) (s : str) : option (str * str) :=
  (fun ab : str * str => (reverse ab.2, reverse ab.1)) <$> split_once [c] (reverse s).

(** [str::split] with a predicate on characters: always at least one piece. *)
Fixpoint split_by (p : char -> bool) (s : str) : list str :=
  match s with
  | [] => [[]]
  | c :: s' =>
      match split_by p s' with
      | [] => [[]]
      | w :: ws => if p c then [] :: w :: ws else (c :: w) :: ws
      end
  end.

(** [str::split_whitespace]: the non-empty pieces between whitespace. *)
Definition split_whitespace (s : str) : list str :=
  retain (fun w => negb (bool_decide (w = []))) (split_by is_whitespace s).

(** [s.split("__").count()], by fuel: the length of [s] bounds the occurrences
    of a non-empty pattern. *)
Fixpoint split_count_fuel (fuel : nat) (pat s : str) : nat :=
  match fuel with
  | 0 => 1
  | S fuel' =>
      match split_once pat s with
      | Some (_, rest) => S (split_count_fuel fuel' pat rest)
      | None => 1
      end
  end.
Definition split_count (pat s : str) : nat := split_count_fuel (S (length s)) pat s.

(** [str::lines]: pieces ended by [\n], a [\r] just before it dropped too; a
    final piece without [\n] keeps its [\r]. *)
Definition drop_cr (s : str) : str := default s (strip_suffix [13%N] s).

Fixpoint lines_from (acc s : str) : list str :=
  match s with
  | [] => match acc with [] => [] | _ => [reverse acc] end
  | c :: s' =>
      if N.eqb c 10 then drop_cr (reverse acc) :: lines_from [] s'
      else lines_from (c :: acc) s'
  end.
Definition lines (s : str) : list str := lines_from [] s.

Definition eq_ignore_ascii_case (a b : str) : bool :=
  bool_decide (map to_ascii_lowercase a = map to_ascii_lowercase b).

(** [s.chars().take(n).collect()]. *)
Definition chars_take (n : nat) (s : str) : str := take n s.

(** ** Numbers *)

(** Bytes of a string's UTF-8 encoding: [str::len]. *)
Definition utf8_width (c : char) : N :=
  if (c <? 128)%N then 1 else if (c <? 2048)%N then 2 else if (c <? 65536)%N then 3 else 4.
Definition utf8_len (s : str) : N := foldr (fun c n => utf8_width c + n)%N 0%N s.

(** [str::as_bytes]: UTF-8. *)
Definition utf8_char (c : char) : list N :=
  (if c <? 128 then [c]
   else if c <? 2048 then [192 + c / 64; 128 + c mod 64]
   else if c <? 65536 then [224 + c / 4096; 128 + c / 64 mod 64; 128 + c mod 64]
   else [240 + c / 262144; 128 + c / 4096 mod 64; 128 + c / 64 mod 64; 128 + c mod 64])%N.
Definition utf8 (s : str) : list N := s ≫= utf8_char.

Fixpoint parse_digits (acc : N) (s : str) : option N :=
  match s with
  | [] => Some acc
  | c :: s' =>
      if is_ascii_digit c then
        let n := (acc * 10 + (c - 48))%N in
        if (n <? 2 ^ 32)%N then parse_digits n s' else None
      else None
  end.

Definition parse_u32 (s : str) : option N :=
  match s with
  | [] => None
  | c :: s' =>
      if N.eqb c 43 then match s' with [] => None | _ => parse_digits 0 s' end
      else parse_digits 0 s
  end.

(** [u64::from_str] and, on the 64-bit machines bingo is built for, [usize::from_str]. *)
Fixpoint digits_below (bound acc : N) (s : str) : option N :=
  match s with
  | [] => Some acc
  | c :: s' =>
      if is_ascii_digit c then
        let n := (acc * 10 + (c - 48))%N in
        if (n <? bound)%N then digits_below bound n s' else None
      else None
  end.
Definition parse_u64 (s : str) : option N :=
  match s with
  | [] => None
  | c :: s' =>
      if N.eqb c 43 then match s' with [] => None | _ => digits_below (2 ^ 64) 0 s' end
      else digits_below (2 ^ 64) 0 s
  end.

(** ** Order on strings, as [Ord] for [String] (scalar order is byte order) *)

Fixpoint str_leb (a b : str) : bool :=
  match a, b with
  | [], _ => true
  | _ :: _, [] => false
  | x :: a', y :: b' => if N.eqb x y then str_leb a' b' else N.ltb x y
  end.
Definition str_le (a b : str) : Prop := str_leb a b = true.

#[export] Instance str_le_dec : RelDecision str_le.
Proof. intros a b. unfold str_le. apply _. Defined.

(** [[T]::join]. *)
Fixpoint join (sep : str) (l : list str) : str :=
  match l with [] => [] | [s] => s | s :: l => s ++ sep ++ join sep l end.

(** A map collected from pairs: the last one wins. *)
Definition collect_map {V} (kvs : list (str * V)) : gmap str V := foldl (fun m kv => <[kv.1 := kv.2]> m) ∅ kvs.

(** ** Lemmas *)

Lemma collect_map_app {V} (l k : list (str * V)) : collect_map (l ++ k) = foldl (fun m kv => <[kv.1 := kv.2]> m) (collect_map l) k.
Proof. unfold collect_map. by rewrite foldl_app. Qed.

Lemma collect_map_lookup {V} (l : list (str * V)) k v : NoDup l.*1 → (k, v) ∈ l → collect_map l !! k = Some v.
Proof.
  induction l as [|[k' v'] l IH] using rev_ind; [by intros _ ?%elem_of_nil|]. rewrite fmap_app, collect_map_app. simpl.
  intros (Hl & Hk' & _)%NoDup_app [Hin|[= -> ->]%list_elem_of_singleton]%elem_of_app; [|apply lookup_insert_eq].
  rewrite lookup_insert_ne; [by apply IH|]. intros ->. apply (Hk' k); [apply list_elem_of_fmap; by exists (k, v)|by left].
Qed.

Lemma strip_prefix_Some p s r : strip_prefix p s = Some r ↔ s = p ++ r.
Proof.
  revert s. induction p as [|a p IH]; intros s; simpl; [naive_solver|].
  destruct s as [|b s]; [naive_solver|].
  destruct (N.eqb_spec a b) as [->|]; [rewrite IH|]; naive_solver.
Qed.

Lemma strip_prefix_app p r : strip_prefix p (p ++ r) = Some r.
Proof. by apply strip_prefix_Some. Qed.

Lemma starts_with_spec s p : starts_with s p = true ↔ p `prefix_of` s.
Proof.
  unfold starts_with. destruct (strip_prefix p s) as [r|] eqn:E; simpl.
  - apply strip_prefix_Some in E as ->. split; [by exists r|done].
  - split; [done|]. intros [r ->]. by rewrite strip_prefix_app in E.
Qed.

Lemma starts_with_app p r : starts_with (p ++ r) p = true.
Proof. apply starts_with_spec. by exists r. Qed.

Lemma starts_with_trans a b c :
  starts_with a b = true → starts_with b c = true → starts_with a c = true.
Proof. rewrite !starts_with_spec. intros. by etrans. Qed.

Lemma strip_suffix_Some p s r : strip_suffix p s = Some r ↔ s = r ++ p.
Proof.
  unfold strip_suffix. rewrite fmap_Some. setoid_rewrite strip_prefix_Some. split.
  - intros (x & H & ->). apply (f_equal reverse) in H.
    rewrite reverse_involutive, reverse_app, reverse_involutive in H. done.
  - intros ->. exists (reverse r). by rewrite reverse_app, reverse_involutive.
Qed.

Lemma strip_suffix_app r p : strip_suffix p (r ++ p) = Some r.
Proof. by apply strip_suffix_Some. Qed.

Lemma ends_with_spec s p : ends_with s p = true ↔ p `suffix_of` s.
Proof.
  unfold ends_with. destruct (strip_suffix p s) as [r|] eqn:E; simpl.
  - apply strip_suffix_Some in E as ->. split; [by exists r|done].
  - split; [done|]. intros [r ->]. by rewrite strip_suffix_app in E.
Qed.

Lemma ends_with_snoc s c d : ends_with (s ++ [c]) [d] = N.eqb d c.
Proof.
  unfold ends_with, strip_suffix. rewrite reverse_app. simpl.
  by destruct (N.eqb d c).
Qed.

Lemma trim_start_by_head p s c r : trim_start_by p s = c :: r → p c = false.
Proof.
  induction s as [|a s IH]; simpl; [done|].
  destruct (p a) eqn:E; [done|]. by intros [= -> ->].
Qed.

Lemma trim_start_by_suffix p s : trim_start_by p s `suffix_of` s.
Proof.
  induction s as [|a s IH]; simpl; [done|].
  destruct (p a); [by apply suffix_cons_r|done].
Qed.

Lemma trim_start_by_id p s : (∀ c r, s = c :: r → p c = false) → trim_start_by p s = s.
Proof. destruct s as [|c s]; simpl; intros H; [done|]. by rewrite (H c s). Qed.

Lemma trim_start_by_idemp p s : trim_start_by p (trim_start_by p s) = trim_start_by p s.
Proof. apply trim_start_by_id. intros c r. apply trim_start_by_head. Qed.

Lemma trim_end_by_prefix p s : trim_end_by p s `prefix_of` s.
Proof.
  unfold trim_end_by. destruct (trim_start_by_suffix p (reverse s)) as [k Hk].
  exists (reverse k). rewrite <- reverse_app, <- Hk. by rewrite reverse_involutive.
Qed.

Lemma trim_end_by_last p s c r : trim_end_by p s = r ++ [c] → p c = false.
Proof.
  unfold trim_end_by. intros H. apply (f_equal reverse) in H.
  rewrite reverse_involutive, reverse_snoc in H. by eapply trim_start_by_head.
Qed.

Lemma trim_end_by_id p s : (∀ c r, s = r ++ [c] → p c = false) → trim_end_by p s = s.
Proof.
  intros H. unfold trim_end_by. rewrite trim_start_by_id; [by rewrite reverse_involutive|].
  intros c r E. apply (H c (reverse r)). apply (f_equal reverse) in E.
  by rewrite reverse_involutive, reverse_cons in E.
Qed.

(** Trimming leaves no whitespace at either end, and a second trim does nothing. *)
Lemma trim_by_id p s :
  (∀ c r, s = c :: r → p c = false) → (∀ c r, s = r ++ [c] → p c = false) →
  trim_by p s = s.
Proof.
  intros H1 H2. unfold trim_by. rewrite trim_start_by_id by done. by rewrite trim_end_by_id.
Qed.

Lemma trim_plain (s : str) : (∀ c, c ∈ s → is_whitespace c = false) → trim s = s.
Proof.
  intros H. apply trim_by_id; intros c r ->; apply H; [by left|].
  rewrite elem_of_app. right. by left.
Qed.

Lemma trim_by_idemp p s : trim_by p (trim_by p s) = trim_by p s.
Proof.
  apply trim_by_id.
  - intros c r E. unfold trim_by in E.
    destruct (trim_end_by_prefix p (trim_start_by p s)) as [k Hk]. rewrite E in Hk.
    by eapply (trim_start_by_head p s).
  - intros c r. apply trim_end_by_last.
Qed.

Lemma trim_idemp s : trim (trim s) = trim s.
Proof. apply trim_by_idemp. Qed.

Lemma split_once_Some pat s a b :
  split_once pat s = Some (a, b) → s = a ++ pat ++ b.
Proof.
  revert a. induction s as [|c s IH]; intros a; simpl.
  - destruct pat; simpl; naive_solver.
  - destruct (strip_prefix pat (c :: s)) as [r|] eqn:E.
    + apply strip_prefix_Some in E. intros [= <- <-]. done.
    + rewrite fmap_Some. intros ([x y] & H & [= -> ->]). simpl. by rewrite (IH x).
Qed.

(** On a one-character pattern the first piece does not hold the character. *)
Lemma split_once_char_Some c s a b :
  split_once [c] s = Some (a, b) ↔ s = a ++ c :: b ∧ c ∉ a.
Proof.
  revert a. induction s as [|d s IH]; intros a; simpl.
  { split; [done|]. intros [H _]. by destruct a. }
  destruct (N.eqb_spec c d) as [->|Hne]; simpl.
  - split.
    + intros [= <- <-]. split; [done|]. apply not_elem_of_nil.
    + intros [H Hn]. destruct a as [|x a]; [naive_solver|].
      injection H as -> ->. exfalso. apply Hn. by left.
  - rewrite fmap_Some. split.
    + intros ([x y] & E & [= -> ->]). apply IH in E as [-> Hx]. split; [done|]. set_solver.
    + intros [H Hn]. destruct a as [|x a]; [naive_solver|]. injection H as -> ->.
      exists (a, b). split; [|done]. apply IH. set_solver.
Qed.

Lemma split_once_char_None c s : split_once [c] s = None ↔ c ∉ s.
Proof.
  induction s as [|d s IH]; simpl.
  { split; [intros _; apply not_elem_of_nil|done]. }
  destruct (N.eqb_spec c d) as [->|Hne]; simpl; [set_solver|].
  rewrite fmap_None, IH. set_solver.
Qed.

Lemma contains_char_spec c s : contains_char c s = true ↔ c ∈ s.
Proof.
  unfold contains_char. rewrite any_true. split.
  - intros (x & Hx & ->%N.eqb_eq). done.
  - intros H. exists c. by rewrite N.eqb_refl.
Qed.

Lemma eq_ignore_ascii_case_refl s : eq_ignore_ascii_case s s = true.
Proof. by apply bool_decide_eq_true. Qed.

Lemma str_leb_refl a : str_leb a a = true.
Proof. induction a as [|x a IH]; simpl; [done|]. by rewrite N.eqb_refl. Qed.

#[export] Instance str_le_total : Total str_le.
Proof.
  intros a. unfold str_le. induction a as [|x a IH]; intros [|y b]; simpl; auto.
  destruct (N.eqb_spec x y) as [->|Hxy].
  - rewrite N.eqb_refl. apply IH.
  - destruct (N.eqb_spec y x); [done|]. rewrite !N.ltb_lt. lia.
Qed.

#[export] Instance str_le_trans : Transitive str_le.
Proof.
  intros a. unfold str_le. induction a as [|x a IH]; intros [|y b] [|z c]; simpl; try done.
  destruct (N.eqb_spec x y), (N.eqb_spec y z), (N.eqb_spec x z); subst;
    rewrite ?N.ltb_lt; try done; try lia. apply IH.
Qed.

#[export] Hint Resolve strip_prefix_app starts_with_app strip_suffix_app : bingo.

(** ** Sanity checks on concrete inputs *)

Example trim_ex : trim (lit "  a b  ") = lit "a b".
Proof. reflexivity. Qed.
Example lines_ex : lines (lit "a" ++ [13; 10]%N ++ lit "b") = [lit "a"; lit "b"].
Proof. reflexivity. Qed.
Example split_ws_ex : split_whitespace (lit " rm  -rf /") = [lit "rm"; lit "-rf"; lit "/"].
Proof. reflexivity. Qed.
Example split_count_ex : split_count (lit "__") (lit "mcp__a__b") = 3.
Proof. reflexivity. Qed.
Example parse_u32_ex : parse_u32 (lit "+042") = Some 42%N ∧ parse_u32 (lit "4294967296") = None.
Proof. split; reflexivity. Qed.

(** A pattern is found where its first character first stands. *)
Lemma split_once_first c pat a b : c ∉ a → split_once (c :: pat) (a ++ c :: pat ++ b) = Some (a, b).
Proof.
  induction a as [|d a IH]; intros Ha; cbn [app split_once].
  - change (c :: pat ++ b) with ((c :: pat) ++ b). by rewrite strip_prefix_app.
  - rewrite not_elem_of_cons in Ha. destruct Ha as [Hd Ha]. cbn [strip_prefix].
    destruct (N.eqb_spec c d); [done|]. by rewrite IH.
Qed.
Lemma split_once_absent c pat s : c ∉ s → split_once (c :: pat) s = None.
Proof.
  induction s as [|d s IH]; intros Hs; [done|]. rewrite not_elem_of_cons in Hs. destruct Hs as [Hd Hs].
  cbn [split_once strip_prefix]. destruct (N.eqb_spec c d); [done|]. by rewrite IH.
Qed.

(** The first line of a text. *)
Lemma lines_head a r : 10%N ∉ a → head (lines (a ++ 10%N :: r)) = Some (drop_cr a).
Proof.
  intros Ha. unfold lines. assert (∀ acc, head (lines_from acc (a ++ 10%N :: r)) = Some (drop_cr (reverse acc ++ a))) as H; [|by rewrite H].
  induction a as [|c a IH]; intros acc; cbn [app lines_from]; [by rewrite app_nil_r|].
  rewrite not_elem_of_cons in Ha. destruct Ha as [Hc Ha]. destruct (N.eqb_spec c 10); [done|].
  rewrite IH by done. by rewrite reverse_cons, <- (assoc_L (++)).
Qed.

Lemma collect_map_None {V} (l : list (str * V)) k : k ∉ l.*1 → collect_map l !! k = None.
Proof.
  induction l as [|[k' v] l IH] using rev_ind; [done|]. rewrite fmap_app, collect_map_app, not_elem_of_app. cbn.
  intros [Hl Hk]. rewrite lookup_insert_ne; [by apply IH|]. intros ->. apply Hk. by left.
Qed.
