(* ===== verification/Digest.v ===== *)
(** * Digest: SHA-256

    [bingo-digest/src/lib.rs].  Bytes and 32-bit words are in [N]; a block is a
    list of 64 bytes.  The one-block or two-block padding is proved to be the
    standard's: a set bit, the fewest zeros, the length. *)

From S2P Require Import Prelude Text.
Local Open Scope N_scope.

Abbreviation bytes := (list N).

(** The 32-bit words written in one number, eight to a row of the tables below. *)
Definition words (row : N) : list N := (fun i => wrap 32 (N.shiftr row (32 * i))) <$> [7; 6; 5; 4; 3; 2; 1; 0].

Definition K : list N := Eval vm_compute in concat (words <$> [
  0x428a2f98_71374491_b5c0fbcf_e9b5dba5_3956c25b_59f111f1_923f82a4_ab1c5ed5;
  0xd807aa98_12835b01_243185be_550c7dc3_72be5d74_80deb1fe_9bdc06a7_c19bf174;
  0xe49b69c1_efbe4786_0fc19dc6_240ca1cc_2de92c6f_4a7484aa_5cb0a9dc_76f988da;
  0x983e5152_a831c66d_b00327c8_bf597fc7_c6e00bf3_d5a79147_06ca6351_14292967;
  0x27b70a85_2e1b2138_4d2c6dfc_53380d13_650a7354_766a0abb_81c2c92e_92722c85;
  0xa2bfe8a1_a81a664b_c24b8b70_c76c51a3_d192e819_d6990624_f40e3585_106aa070;
  0x19a4c116_1e376c08_2748774c_34b0bcb5_391c0cb3_4ed8aa4a_5b9cca4f_682e6ff3;
  0x748f82ee_78a5636f_84c87814_8cc70208_90befffa_a4506ceb_bef9a3f7_c67178f2]).
Definition INITIAL : list N := Eval vm_compute in words
  0x6a09e667_bb67ae85_3c6ef372_a54ff53a_510e527f_9b05688c_1f83d9ab_5be0cd19.

Definition rotate_right (n x : N) : N := N.lor (N.shiftr x n) (wrap 32 (N.shiftl x (32 - n))).
Definition not32 (x : N) : N := N.lxor x (2 ^ 32 - 1).

(** [to_be_bytes] of a word of [n] bytes, and [u32::from_be_bytes]. *)
Fixpoint be_bytes (n : nat) (x : N) : bytes :=
  match n with O => [] | S n => wrap 8 (N.shiftr x (8 * N.of_nat n)) :: be_bytes n x end.
Definition from_be (l : bytes) : N := foldl (fun acc b => N.lor (N.shiftl acc 8) b) 0 l.

(** [as_chunks]: the whole chunks of [n], and what is left; [fuel] bounds them. *)
Fixpoint as_chunks (n fuel : nat) (l : bytes) : list bytes * bytes :=
  match fuel with
  | O => ([], l)
  | S fuel =>
      if (n <=? length l)%nat then let '(chunks, rest) := as_chunks n fuel (drop n l) in (take n l :: chunks, rest)
      else ([], l)
  end.
Definition chunks_of (n : nat) (l : bytes) : list bytes * bytes := as_chunks n (length l) l.

(** [tail]: the padding of what is left of a message of [len] bytes. *)
Definition tail (rest : bytes) (len : N) : bytes * option bytes :=
  let bits := be_bytes 8 (wrap 64 (wrap 64 len * 8)) in
  let last := rest ++ [0x80] ++ replicate (63 - length rest) 0 in
  if (length rest + 9 <=? 64)%nat then (take 56 last ++ bits, None)
  else (last, Some (replicate 56 0 ++ bits)).

(** The message schedule: [w], word by word. *)
Definition schedule_word (w : list N) (i : nat) : N :=
  let a := nth (i - 15) w 0 in
  let b := nth (i - 2) w 0 in
  let s0 := N.lxor (N.lxor (rotate_right 7 a) (rotate_right 18 a)) (N.shiftr a 3) in
  let s1 := N.lxor (N.lxor (rotate_right 17 b) (rotate_right 19 b)) (N.shiftr b 10) in
  u32_add (u32_add (u32_add (nth (i - 16) w 0) s0) (nth (i - 7) w 0)) s1.
Definition schedule (block : bytes) : list N :=
  foldl (fun w i => w ++ [schedule_word w i]) (from_be <$> (chunks_of 4 block).1) (seq 16 48).

Definition round (h : list N) (k word : N) : list N :=
  match h with
  | [h0; h1; h2; h3; h4; h5; h6; h7] =>
      let s1 := N.lxor (N.lxor (rotate_right 6 h4) (rotate_right 11 h4)) (rotate_right 25 h4) in
      let choice := N.lxor (N.land h4 h5) (N.land (not32 h4) h6) in
      let t1 := u32_add (u32_add (u32_add (u32_add h7 s1) choice) k) word in
      let s0 := N.lxor (N.lxor (rotate_right 2 h0) (rotate_right 13 h0)) (rotate_right 22 h0) in
      let majority := N.lxor (N.lxor (N.land h0 h1) (N.land h0 h2)) (N.land h1 h2) in
      let t2 := u32_add s0 majority in
      [u32_add t1 t2; h0; h1; h2; u32_add h3 t1; h4; h5; h6]
  | _ => h
  end.

Definition compress (state : list N) (block : bytes) : list N :=
  let h := foldl (fun h kw => round h kw.1 kw.2) state (zip K (schedule block)) in
  zip_with u32_add state h.

Definition digest (message : bytes) : bytes :=
  let '(blocks, rest) := chunks_of 64 message in
  let state := foldl compress INITIAL blocks in
  let '(last, more) := tail rest (N.of_nat (length message)) in
  let state := compress state last in
  let state := match more with Some block => compress state block | None => state end in
  concat (be_bytes 4 <$> state).

Definition hex_digit (n : N) : N := if n <? 10 then 48 + n else 87 + n.
Definition hex (digest : bytes) : str := concat ((fun b => [hex_digit (b / 16); hex_digit (b mod 16)]) <$> digest).

(** ** The standard's vectors *)

Example digest_empty : hex (digest []) = lit "e3b0c44298fc1c149afbf4c8996fb92427ae41e4649b934ca495991b7852b855".
Proof. by vm_compute. Qed.
Example digest_abc : hex (digest (lit "abc")) = lit "ba7816bf8f01cfea414140de5dae2223b00361a396177a9cb410ff61f20015ad".
Proof. by vm_compute. Qed.
Example digest_two_blocks : hex (digest (lit "abcdbcdecdefdefgefghfghighijhijkijkljklmklmnlmnomnopnopq"))
  = lit "248d6a61d20638b8e5c026930c3e6039a33ce45964ff2167f6ecedd419db06c1".
Proof. by vm_compute. Qed.
Example digest_boundaries : hex ∘ digest <$> [replicate 55 120; replicate 56 120; replicate 64 120; replicate 119 120]
  = [lit "d5e285683cd4efc02d021a5c62014694958901005d6f71e89e0989fac77e4072";
     lit "04c26261370ee7541549d16dee320c723e3fd14671e66a099afe0a377c16888e";
     lit "7ce100971f64e7001e8fe5a51973ecdfe1ced42befe7ee8d5fd6219506b5393c";
     lit "000b48d4edf0fa7bee3c6236ecd2785baa5db4eeb8bb54341b029e0d9fa5fb0c"].
Proof. by vm_compute. Qed.

(** ** Lemmas *)

Lemma as_chunks_app n fuel blocks rest : (0 < n)%nat → Forall (λ b, length b = n) blocks → (length rest < n)%nat →
  (length blocks ≤ fuel)%nat → as_chunks n fuel (concat blocks ++ rest) = (blocks, rest).
Proof.
  intros Hn Hb Hr. revert blocks Hb. induction fuel as [|fuel IH]; intros blocks Hb Hf; simpl.
  { by destruct blocks; simpl in Hf; [|lia]. }
  destruct Hb as [|block blocks <- Hb]; simpl.
  { destruct (Nat.leb_spec (n) (length rest)); [lia|done]. }
  rewrite <- app_assoc, length_app. destruct (Nat.leb_spec (length block) (length block + length (concat blocks ++ rest))); [|lia].
  simpl in Hf. by rewrite drop_app_length, take_app_length, IH by (done || lia).
Qed.

Lemma length_concat_same {A} (n : nat) (blocks : list (list A)) : Forall (λ b, length b = n) blocks →
  length (concat blocks) = (n * length blocks)%nat.
Proof. induction 1 as [|b blocks Hb _ IH]; simpl; [lia|]. rewrite length_app, IH, Hb. lia. Qed.

Lemma chunks_of_app n blocks rest : (0 < n)%nat → Forall (λ b, length b = n) blocks → (length rest < n)%nat →
  chunks_of n (concat blocks ++ rest) = (blocks, rest).
Proof.
  intros Hn Hb Hr. apply as_chunks_app; [done..|]. rewrite length_app, (length_concat_same n) by done. nia.
Qed.

Lemma chunks_of_split n l : (0 < n)%nat → let '(blocks, rest) := chunks_of n l in
  l = concat blocks ++ rest ∧ Forall (λ b, length b = n) blocks ∧ (length rest < n)%nat.
Proof.
  intros Hn. unfold chunks_of. assert (length l ≤ length l)%nat as Hf by done. revert Hf.
  generalize (length l) at 2 3. intros fuel. revert l. induction fuel as [|fuel IH]; intros l Hf; simpl.
  { split_and!; [done..|lia]. }
  destruct (Nat.leb_spec n (length l)) as [Hle|Hlt]; [|by split_and!].
  specialize (IH (drop n l)). rewrite length_drop in IH. destruct (as_chunks n fuel (drop n l)) as [blocks rest].
  destruct IH as (Hl & Hb & Hr); [lia|]. simpl. split_and!; [|constructor; [rewrite length_take; lia|done]|done].
  by rewrite <- app_assoc, <- Hl, take_drop.
Qed.

Lemma length_be_bytes n x : length (be_bytes n x) = n.
Proof. induction n; simpl; congruence. Qed.
Lemma length_round h k w : length (round h k w) = length h.
Proof. unfold round. by do 9 (destruct h as [|? h]; try done). Qed.
Lemma length_compress state block : length state = 8%nat → length (compress state block) = 8%nat.
Proof.
  intros Hs. unfold compress. rewrite length_zip_with. assert (∀ l h, length (foldl (λ h kw, round h kw.1 kw.2) h l) = length h) as Hf.
  { induction l as [|[k w] l IH]; intros h; simpl; [done|]. by rewrite IH, length_round. }
  rewrite Hf. lia.
Qed.

(** ** Claims *)

(** The standard's padding with [k] zeros, and the output of a state. *)
Definition padded (message : bytes) (k : nat) : bytes :=
  message ++ [0x80] ++ replicate k 0 ++ be_bytes 8 (8 * N.of_nat (length message)).
Definition output (state : list N) : bytes := concat (be_bytes 4 <$> state).

Lemma tail_pads rest len : (length rest < 64)%nat → 8 * len < 2 ^ 64 →
  let '(last, more) := tail rest len in
  ∃ k, (k < 64)%nat ∧ concat (last :: option_list more) = rest ++ [0x80] ++ replicate k 0 ++ be_bytes 8 (8 * len)
    ∧ Forall (λ b, length b = 64%nat) (last :: option_list more).
Proof.
  intros Hr Hlen. unfold tail. rewrite (wrap_small 64 len) by lia. rewrite N.mul_comm, (wrap_small 64 (8 * len)) by lia.
  destruct (Nat.leb_spec (length rest + 9) 64) as [Hle|Hgt].
  - exists (55 - length rest)%nat. assert (take 56 (rest ++ [128] ++ replicate (63 - length rest) 0)
      = rest ++ [128] ++ replicate (55 - length rest) 0) as Htake.
    { rewrite take_app_ge by lia. f_equal. replace (56 - length rest)%nat with (S (55 - length rest)) by lia. simpl. f_equal.
      rewrite take_replicate. f_equal. lia. }
    rewrite Htake. split_and!; [lia| |repeat constructor].
    + simpl. by rewrite app_nil_r, <- !app_assoc.
    + rewrite !length_app, length_be_bytes, length_replicate. simpl. lia.
  - exists (63 - length rest + 56)%nat. split_and!; [lia| |repeat constructor].
    + change (concat _) with ((rest ++ [128] ++ replicate (63 - length rest) 0) ++ (replicate 56 0 ++ be_bytes 8 (8 * len)) ++ []).
      by rewrite app_nil_r, <- !app_assoc, (app_assoc (replicate _ _) (replicate _ _)), <- replicate_add.
    + rewrite !length_app, length_replicate. simpl. lia.
Qed.

(** The digest is the standard's.  Of a message whose bits can be counted in 64
    bits, what is hashed is the message, a set bit, the fewest zeros that fill the
    last block, and its length: whole blocks, compressed in order from the initial
    state; and as text it is sixty-four digits. *)
Theorem digest_is_the_standards message : 8 * N.of_nat (length message) < 2 ^ 64 →
  ∃ k blocks, (k < 64)%nat ∧ chunks_of 64 (padded message k) = (blocks, [])
    ∧ digest message = output (foldl compress INITIAL blocks)
    ∧ length (digest message) = 32%nat ∧ length (hex (digest message)) = 64%nat.
Proof.
  intros Hlen. unfold digest. pose proof (chunks_of_split 64 message ltac:(lia)) as Hs.
  destruct (chunks_of 64 message) as [blocks rest]. destruct Hs as (Hm & Hb & Hr).
  pose proof (tail_pads rest (N.of_nat (length message)) Hr Hlen) as Ht.
  destruct (tail rest _) as [last more]. destruct Ht as (k & Hk & Hp & Hl).
  exists k, (blocks ++ last :: option_list more).
  assert (∀ l st, length st = 8%nat → length (foldl compress st l) = 8%nat) as H8.
  { induction l; intros st Hst; simpl; [done|]. by apply IHl, length_compress. }
  assert (∀ st, length st = 8%nat → length (concat (be_bytes 4 <$> st)) = 32%nat) as H32.
  { intros st Hst. rewrite (length_concat_same 4), length_fmap, Hst; [done|]. by apply Forall_fmap, Forall_true; intros; apply length_be_bytes. }
  assert (match more with Some block => compress (compress (foldl compress INITIAL blocks) last) block
    | None => compress (foldl compress INITIAL blocks) last end = foldl compress INITIAL (blocks ++ last :: option_list more)) as ->.
  { rewrite foldl_app. by destruct more. }
  split_and!; [done| |done|by apply H32, H8|].
  - unfold padded. rewrite Hm at 1. rewrite <- app_assoc, <- Hp.
    rewrite <- (app_nil_r (concat blocks ++ _)), <- concat_app. apply chunks_of_app; [lia|by apply Forall_app|simpl; lia].
  - unfold hex. rewrite (length_concat_same 2), length_fmap, H32 by (by apply H8 || by apply Forall_fmap, Forall_true). done.
Qed.

Lemma digest_is_the_standards_witness : ∃ k blocks, chunks_of 64 (padded (lit "abc") k) = (blocks, [])
  ∧ digest (lit "abc") = output (foldl compress INITIAL blocks) ∧ length (hex (digest (lit "abc"))) = 64%nat.
Proof.
  destruct (digest_is_the_standards (lit "abc") ltac:(by vm_compute)) as (k & blocks & _ & Hb & Hd & _ & Hx).
  exists k, blocks. split; [exact Hb|split; [exact Hd|exact Hx]].
Defined.
