(* ===== verification/Model.v ===== *)
(** * Model: the values every other part of the system carries

    [bingo-sdk]'s vocabulary below the event stream: JSON values
    ([serde_json::Value], built with [preserve_order], so an object keeps the
    order its keys were first inserted in), error codes ([error.rs]), message
    content and token usage ([model.rs]), the tool description a permission
    policy reads ([tool.rs]) and the policy's answers ([policy.rs]).  Ids
    ([ids.rs]) are opaque strings.  A [Timestamp] is its nanosecond count. *)

From Stdlib Require DecimalString.
From S2P Require Import Prelude Text.

(** ** Ids: prefixed ULIDs, compared as strings *)

Abbreviation SessionId := str (only parsing).
Abbreviation TurnId := str (only parsing).
Abbreviation ItemId := str (only parsing).
Abbreviation InteractionId := str (only parsing).
Abbreviation IntentId := str (only parsing).
Abbreviation Timestamp := Z (only parsing).
Abbreviation PathBuf := str (only parsing).

(** A [Seq] is a [u64]; [next] is the release-mode [+ 1]. *)
Abbreviation Seq := N (only parsing).
Definition seq_zero : Seq := 0%N.
Definition seq_next (s : Seq) : Seq := u64_add s 1.

(** ** JSON *)

Inductive Number :=
| PosInt (n : N)
| NegInt (z : Z)
| Float (bits : N).

Inductive Value :=
| VNull
| VBool (b : bool)
| VNumber (n : Number)
| VString (s : str)
| VArray (values : list Value)
| VObject (fields : list (str * Value)).

Definition is_null (v : Value) : bool := match v with VNull => true | _ => false end.
Definition is_string (v : Value) : bool := match v with VString _ => true | _ => false end.
Definition as_str (v : Value) : option str := match v with VString s => Some s | _ => None end.
Definition as_array (v : Value) : option (list Value) := match v with VArray l => Some l | _ => None end.
Definition as_u64 (v : Value) : option N := match v with VNumber (PosInt n) => Some n | _ => None end.
Definition as_bool (v : Value) : option bool := match v with VBool b => Some b | _ => None end.

(** [serde_json::Map] under [preserve_order]: an insertion-ordered association list. *)
Abbreviation JMap := (list (str * Value)) (only parsing).

Definition map_get (k : str) (m : list (str * Value)) : option Value :=
  find_map (fun kv => if bool_decide (kv.1 = k) then Some kv.2 else None) m.

Fixpoint map_insert (k : str) (v : Value) (m : list (str * Value)) : list (str * Value) :=
  match m with
  | [] => [(k, v)]
  | (k', v') :: m' => if bool_decide (k' = k) then (k, v) :: m' else (k', v') :: map_insert k v m'
  end.

(** [value[key] = x] on an object. *)
Definition set_field (key : str) (x : Value) (v : Value) : Value :=
  match v with VObject m => VObject (map_insert key x m) | _ => v end.

(** [value[key]] and [value.get(key)] on an object. *)
Definition value_get (k : str) (v : Value) : option Value :=
  match v with VObject m => map_get k m | _ => None end.

Definition show_Z (z : Z) : str := lit (DecimalString.NilZero.string_of_int (Z.to_int z)).

(** ** Errors *)

Inductive ErrorCode :=
| SessionNotFound | SessionLocked | SessionClosedCode | InteractionClosed | NotReady
| InterruptedCode | StaleGeneration | ProtocolLimit | NotInitialized | InvalidInput
| PermissionDenied | ToolNotFound | NotFound | ToolFailed | ProviderUnavailable
| AuthRequired | RateLimited | ContextOverflow | Timeout | Offline | ServerError
| TurnLost | TurnBudgetExhausted | Storage | Unsupported | Internal.

#[export] Instance ErrorCode_eq_dec : EqDecision ErrorCode.
Proof. solve_decision. Defined.

Definition code_as_str (c : ErrorCode) : str :=
  match c with
  | SessionNotFound => lit "SESSION_NOT_FOUND"
  | SessionLocked => lit "SESSION_LOCKED"
  | SessionClosedCode => lit "SESSION_CLOSED"
  | InteractionClosed => lit "INTERACTION_CLOSED"
  | NotReady => lit "NOT_READY"
  | InterruptedCode => lit "INTERRUPTED"
  | StaleGeneration => lit "STALE_GENERATION"
  | ProtocolLimit => lit "PROTOCOL_LIMIT"
  | NotInitialized => lit "NOT_INITIALIZED"
  | InvalidInput => lit "INVALID_INPUT"
  | PermissionDenied => lit "PERMISSION_DENIED"
  | ToolNotFound => lit "TOOL_NOT_FOUND"
  | NotFound => lit "NOT_FOUND"
  | ToolFailed => lit "TOOL_FAILED"
  | ProviderUnavailable => lit "PROVIDER_UNAVAILABLE"
  | AuthRequired => lit "AUTH_REQUIRED"
  | RateLimited => lit "RATE_LIMITED"
  | ContextOverflow => lit "CONTEXT_OVERFLOW"
  | Timeout => lit "TIMEOUT"
  | Offline => lit "OFFLINE"
  | ServerError => lit "SERVER_ERROR"
  | TurnLost => lit "TURN_LOST"
  | TurnBudgetExhausted => lit "TURN_BUDGET_EXHAUSTED"
  | Storage => lit "STORAGE"
  | Unsupported => lit "UNSUPPORTED"
  | Internal => lit "INTERNAL"
  end.

Record KernelError := mkKernelError { ke_code : ErrorCode; ke_message : str }.

#[export] Instance KernelError_eq_dec : EqDecision KernelError.
Proof. solve_decision. Defined.

(** ** Message content *)

(** Provider-private data: carried, never read. *)
Abbreviation ProviderMetadata := (list (str * list (str * Value))) (only parsing).

Record Image := mkImage {
  media_type : str;
  image_data : str;
  image_width : option N;
  image_height : option N;
  image_path : option PathBuf;
}.

Definition decoded_len (i : Image) : N :=
  let padding := N.of_nat (length (take_while (N.eqb 61) (reverse (image_data i)))) in
  (utf8_len (image_data i) / 4 * 3 - padding)%N.

Definition whereabouts (i : Image) : option str :=
  (fun path => lit "[picture: " ++ path ++ lit "]") <$> image_path i.

Inductive ContentPart :=
| PText (text : str)
| PImage (image : Image)
| PToolUse (id name : str) (input : Value)
| PToolResult (tool_use_id : str) (parts : list ContentPart) (is_error : bool)
| PReasoning (text : str) (provider_metadata : ProviderMetadata).

Definition part_as_text (p : ContentPart) : option str :=
  match p with PText text => Some text | _ => None end.

(** ** Messages *)

Inductive Role := RUser | RAssistant.
#[export] Instance Role_eq_dec : EqDecision Role.
Proof. solve_decision. Defined.

Record Message := mkMessage {
  msg_role : Role;
  msg_parts : list ContentPart;
  msg_options : ProviderMetadata;
}.

Definition message_user (parts : list ContentPart) : Message := mkMessage RUser parts [].
Definition message_assistant (parts : list ContentPart) : Message := mkMessage RAssistant parts [].
Definition message_text (r : Role) (text : str) : Message := mkMessage r [PText text] [].

(** ** Token usage: five [u64] counters *)

Record Usage := mkUsage {
  input_tokens : N;
  output_tokens : N;
  cache_read_tokens : N;
  cache_write_tokens : N;
  reasoning_tokens : N;
}.

#[export] Instance Usage_eq_dec : EqDecision Usage.
Proof. solve_decision. Defined.

Definition usage_default : Usage := mkUsage 0 0 0 0 0.

Definition input_total (u : Usage) : N :=
  u64_add (u64_add (input_tokens u) (cache_read_tokens u)) (cache_write_tokens u).

Definition usage_add (u other : Usage) : Usage :=
  mkUsage (u64_add (input_tokens u) (input_tokens other))
          (u64_add (output_tokens u) (output_tokens other))
          (u64_add (cache_read_tokens u) (cache_read_tokens other))
          (u64_add (cache_write_tokens u) (cache_write_tokens other))
          (u64_add (reasoning_tokens u) (reasoning_tokens other)).

Inductive Effort := Minimal | Low | Medium | High | XHigh | MaxEffort.

(** ** What a permission rule reads about a tool call *)

Inductive Subject :=
| SPath (path : PathBuf)
| SCommand (command : str)
| SUrl (url : str)
| SName (name : str).

Inductive ResultLimit := LimitGlobal | LimitSelfBounded.

Record ToolTraits := mkToolTraits {
  quiet : bool;
  concurrency_safe : bool;
  read_only : bool;
  destructive : bool;
  edit : bool;
  result_limit : ResultLimit;
  trusted : bool;
}.

Definition tool_traits_default : ToolTraits :=
  mkToolTraits false false false false false LimitGlobal false.
Definition tool_traits_read_only : ToolTraits :=
  mkToolTraits false true true false false LimitGlobal true.

Record ToolCall := mkToolCall { call_id : str; call_name : str; call_input : Value }.

(** ** The policy's answers *)

Inductive RuleSource := FromSettings | FromSession.

Inductive Reason :=
| RRule (rule : str) (source : option RuleSource)
| RMode (mode : str)
| RHook (hook : str)
| RSafety (detail : str)
| RReadOnly
| RConfirm (detail : str)
| RDefault.

Inductive Decision :=
| Allow (reason : Reason)
| Deny (reason : Reason)
| Ask (reason : Reason) (scope : option str).

Inductive Verdict :=
| VerdictAllow (scope : option str)
| VerdictDeny (feedback : option str).

Inductive Stance := StanceAllow | StanceAsk | StanceRefuse.

(** ** Lemmas *)

Lemma usage_add_comm u v : usage_add u v = usage_add v u.
Proof. unfold usage_add, u64_add. f_equal; f_equal; lia. Qed.

Lemma usage_add_assoc u v w : usage_add (usage_add u v) w = usage_add u (usage_add v w).
Proof.
  unfold usage_add, u64_add; simpl.
  f_equal; rewrite wrap_add_l, wrap_add_r, N.add_assoc; done.
Qed.

Lemma map_get_insert_eq k v m : map_get k (map_insert k v m) = Some v.
Proof.
  induction m as [|[k' v'] m IH]; unfold map_get; simpl.
  - by rewrite bool_decide_eq_true_2.
  - destruct (bool_decide (k' = k)) eqn:E; simpl.
    + by rewrite bool_decide_eq_true_2.
    + rewrite E. apply IH.
Qed.

Lemma map_get_insert_ne k k' v m : k ≠ k' → map_get k' (map_insert k v m) = map_get k' m.
Proof.
  intros Hne. induction m as [|[k2 v2] m IH]; unfold map_get in *; simpl.
  - by rewrite bool_decide_eq_false_2.
  - destruct (decide (k2 = k)) as [->|].
    + rewrite (bool_decide_eq_true_2 (k = k)) by done. simpl.
      by rewrite (bool_decide_eq_false_2 (k = k')).
    + rewrite (bool_decide_eq_false_2 (k2 = k)) by done. simpl.
      destruct (bool_decide (k2 = k')); [done|apply IH].
Qed.
