(* ===== verification/CommandLine.v ===== *)
(** * CommandLine: what a command is called, and how its line reads

    [bingo-sdk/src/command.rs]: specifications and the words only the person may
    run, key bindings, drawing handlers' names, and the reading of a typed line.
    The words a surface shows for values ([labels]) are a map kept as a list. *)

From S2P Require Import Prelude Text Model.

(** ** Specifications *)

Inductive ArgSpec :=
| ArgNone
| ArgOptions (args : ArgSpec) (flags : list str)
| ArgFree (hint : str)
| ArgCatalog (source : str)
| ArgWords (alone values : list str) (labels : list (str * str)) (person : list str) (next : option ArgSpec).

Inductive KeyBinding :=
| Chord (chord : str)
| WithArgs (chord args : str).

Definition kb_chord (k : KeyBinding) : str := match k with Chord c | WithArgs c _ => c end.
(** The line a binding submits for a command. *)
Definition kb_line (k : KeyBinding) (name : str) : str :=
  match k with Chord _ => lit "/" ++ name | WithArgs _ args => lit "/" ++ name ++ lit " " ++ args end.

Record CommandSpec := mkCommandSpec {
  cs_keys : list KeyBinding;
  cs_hidden : bool;
  cs_opens : bool;
  cs_name : str;
  cs_aliases : list str;
  cs_hint : str;
  cs_args : ArgSpec;
  cs_instant : bool;
  cs_family : str;
}.

Definition ui_suffix : str := lit ":ui".
Definition ui_name (plugin : str) : str := plugin ++ ui_suffix.
Definition ui_spec (plugin : str) : CommandSpec :=
  mkCommandSpec [] true false (ui_name plugin) [] [] ArgNone true (lit "ui").
Definition is_ui (name : str) : bool :=
  match strip_suffix ui_suffix name with Some plugin => negb (bool_decide (plugin = [])) | None => false end.
Definition foreign_handler (spec : CommandSpec) (owner : str) : option str :=
  find_bool (fun name => ends_with name ui_suffix && negb (bool_decide (name = ui_name owner))) (cs_name spec :: cs_aliases spec).

Fixpoint person_words (a : ArgSpec) : list str :=
  match a with ArgWords _ _ _ person _ => person | ArgOptions args _ => person_words args | _ => [] end.

(** The catalogue kinds a spec completes from. *)
Fixpoint sources (a : ArgSpec) : list str :=
  match a with
  | ArgCatalog source => [source]
  | ArgOptions args _ => sources args
  | ArgWords _ _ _ _ (Some next) => sources next
  | _ => []
  end.

(** ** Lines *)

Definition trim_start (s : str) : str := trim_start_by is_whitespace s.
Definition trim_end (s : str) : str := trim_end_by is_whitespace s.

(** Up to the first whitespace, and from it on. *)
Fixpoint break_word (s : str) : str * str :=
  match s with
  | [] => ([], [])
  | c :: r => if is_whitespace c then ([], s) else let '(a, b) := break_word r in (c :: a, b)
  end.

Definition split_verb (text : str) : str * str :=
  let '(verb, rest) := break_word (trim_start text) in (verb, trim rest).

Definition person_verb (spec : CommandSpec) (args : str) : option (str * str) :=
  let '(verb, rest) := split_verb args in
  if any (fun word => bool_decide (word = verb)) (person_words (cs_args spec)) then Some (verb, rest) else None.
Definition person_only (spec : CommandSpec) (args : str) : bool := option_is_some (person_verb spec args).

Definition shell : str := lit "!".

(** The command a line names and its argument text. *)
Definition command_line (text : str) : option (str * str) :=
  let line := trim_start text in
  match strip_prefix shell line with
  | Some rest => Some (shell, trim rest)
  | None =>
      let? rest := strip_prefix (lit "/") line in
      let '(name, args) := match break_word rest with
                           | (name, []) => (trim_end rest, [])
                           | (name, _ :: args) => (name, trim args)
                           end in
      if bool_decide (name = []) then None else Some (name, args)
  end.

(** ** Lemmas *)

Lemma break_word_app s : let '(a, b) := break_word s in s = a ++ b ∧ Forall (λ c, is_whitespace c = false) a
  ∧ ∀ c r, b = c :: r → is_whitespace c = true.
Proof.
  induction s as [|c s IH]; simpl; [by split_and!|]. destruct (is_whitespace c) eqn:E.
  - split_and!; [done|constructor|]. by intros c' r [= <- <-].
  - destruct (break_word s) as [a b]. destruct IH as (-> & Ha & Hb). split_and!; [done|by constructor|done].
Qed.

(** A word with no whitespace is broken off whole. *)
Lemma break_word_plain a b : Forall (λ c, is_whitespace c = false) a → (∀ c r, b = c :: r → is_whitespace c = true) →
  break_word (a ++ b) = (a, b).
Proof.
  induction 1 as [|c a Hc _ IH]; intros Hb; simpl.
  - destruct b as [|c b]; [done|]. simpl. by rewrite (Hb c b eq_refl).
  - by rewrite Hc, IH.
Qed.

Lemma trim_end_plain a : Forall (λ c, is_whitespace c = false) a → trim_end a = a.
Proof. intros Ha. apply trim_end_by_id. intros c r E. rewrite E in Ha. apply Forall_app in Ha as [_ Hc]. by apply (proj1 (Forall_singleton _ _)) in Hc. Qed.
