(* ===== verification/Interaction.v ===== *)
(** * Interaction: a question held open for a person

    [bingo-sdk/src/event/interaction.rs]: the interaction record, its kinds and
    answers, the rungs a surface may draw for it and the answer a door may give
    in nobody's name. *)

From S2P Require Import Prelude Text Model.

Inductive AnswerRole := Allowing | Refusing.

#[export] Instance AnswerRole_eq_dec : EqDecision AnswerRole.
Proof. solve_decision. Defined.

Inductive AnswerSpec :=
| SpecAllowChanged | SpecAllowOnce | SpecAllowSession | SpecDeny | SpecChoice
| SpecText | SpecConfirm | SpecCancel | SpecForm.

#[export] Instance AnswerSpec_eq_dec : EqDecision AnswerSpec.
Proof. solve_decision. Defined.

Inductive Answer :=
| AllowChanged (input : Value)
| AllowOnce
| AllowSession (scope : str)
| DenyAnswer (feedback : option str)
| Choice (ids : list str) (other : option str)
| TextAnswer (text : str)
| ConfirmAnswer
| CancelAnswer
| FormAnswer (answers : list Answer).

Definition answer_spec (a : Answer) : AnswerSpec :=
  match a with
  | AllowChanged _ => SpecAllowChanged
  | AllowOnce => SpecAllowOnce
  | AllowSession _ => SpecAllowSession
  | DenyAnswer _ => SpecDeny
  | Choice _ _ => SpecChoice
  | TextAnswer _ => SpecText
  | ConfirmAnswer => SpecConfirm
  | CancelAnswer => SpecCancel
  | FormAnswer _ => SpecForm
  end.

Record QuestionOption := mkQuestionOption {
  option_id : str;
  option_label : str;
  option_description : option str;
  option_role : option AnswerRole;
  option_preview : option str;
}.

Record Question := mkQuestion {
  question_text : str;
  question_header : option str;
  question_options : list QuestionOption;
  question_free_text : bool;
  question_multi : bool;
}.

Record Caution := mkCaution { caution_reason : str; caution_act : option str }.

Record Stakes := mkStakes { stakes_line : str; stakes_items : list str }.

Inductive Preview :=
| PreviewDiff (unified : str)
| PreviewCommand (command cwd : str) (description : option str) (stakes : option Stakes)
| PreviewUrl (url : str).

Inductive LoginFlow :=
| LoginBrowser (url : str)
| LoginDevice (url code : str)
| LoginPaste.

Inductive InteractionKind :=
| KPermission (tool : str) (input : Value) (summary : str) (preview : option Preview)
              (session_scope : option str) (caution : option Caution)
| KQuestion (q : Question)
| KForm (title : option str) (questions : list Question)
| KConfirm (title detail : str)
| KLogin (provider : str) (flow : LoginFlow).

Record Interaction := mkInteraction {
  int_id : InteractionId;
  int_session : SessionId;
  int_turn : option TurnId;
  int_item : option ItemId;
  int_opened_at : Timestamp;
  int_guard_until : option Timestamp;
  int_expires_at : option Timestamp;
  int_kind : InteractionKind;
  int_answers : list AnswerSpec;
}.

Inductive Activation := Keyboard | Pointer | Programmatic.

#[export] Instance Activation_eq_dec : EqDecision Activation.
Proof. solve_decision. Defined.

Inductive ResolvedBy :=
| ByClient (name surface : str)
| ByPlugin (name surface : str)
| ByKernel
| ByPolicy.

Inductive CancelReason :=
| CancelTurnEnded | CancelCommandEnded | CancelInterrupted | CancelSessionClosed
| CancelExpired | CancelSuperseded.

(** ** Rungs: the answers an interaction offers *)

Record Rung := mkRung {
  rung_answer : Answer;
  rung_label : str;
  rung_description : option str;
}.

Definition rung (i : Interaction) (answer : Answer) (label : str) : option Rung :=
  if bool_decide (answer_spec answer ∈ int_answers i)
  then Some (mkRung answer label None) else None.

Definition permission_rungs (i : Interaction) (session_scope : option str) : list Rung :=
  let session :=
    let? scope := session_scope in
    rung i (AllowSession scope) (lit "Allow " ++ scope ++ lit " for this session") in
  option_list (rung i AllowOnce (lit "Allow once"))
  ++ option_list session
  ++ option_list (rung i (DenyAnswer None) (lit "Deny")).

Definition question_rungs (i : Interaction) (q : Question) : list Rung :=
  omap (fun o : QuestionOption =>
          let? r := rung i (Choice [option_id o] None) (option_label o) in
          Some (mkRung (rung_answer r) (rung_label r) (option_description o)))
       (question_options q).

Definition rungs (i : Interaction) : list Rung :=
  match int_kind i with
  | KPermission _ _ _ _ session_scope caution =>
      permission_rungs i (match caution with None => session_scope | Some _ => None end)
  | KQuestion q => question_rungs i q
  | KConfirm _ _ =>
      option_list (rung i ConfirmAnswer (lit "Yes")) ++ option_list (rung i CancelAnswer (lit "No"))
  | KLogin _ _ => option_list (rung i CancelAnswer (lit "Cancel"))
  | KForm _ _ => []
  end.

(** ** The answer in a role *)

Definition question_answer_for (q : Question) (role : AnswerRole) : option Answer :=
  let? o := find_bool (fun o => bool_decide (option_role o = Some role)) (question_options q) in
  Some (Choice [option_id o] None).

Definition answer_for (k : InteractionKind) (role : AnswerRole) : option Answer :=
  match k with
  | KQuestion q => question_answer_for q role
  | KForm _ questions => FormAnswer <$> mapM (fun q => question_answer_for q role) questions
  | _ => None
  end.

(** ** Lemmas *)

Lemma rung_accepted i a label r :
  rung i a label = Some r → answer_spec (rung_answer r) ∈ int_answers i ∧ rung_answer r = a.
Proof. unfold rung. case_bool_decide; intros; by simplify_eq/=. Qed.

Lemma elem_of_option_list {A} (o : option A) x : x ∈ option_list o ↔ o = Some x.
Proof. destruct o; simpl; set_solver. Qed.

(** Every rung a surface may draw sends an answer the kernel accepts. *)
Lemma rungs_accepted i r : r ∈ rungs i → answer_spec (rung_answer r) ∈ int_answers i.
Proof.
  unfold rungs, permission_rungs, question_rungs. destruct (int_kind i).
  all: rewrite ?elem_of_app, ?elem_of_option_list.
  - intros [?%rung_accepted|[H|?%rung_accepted]]; [naive_solver| |naive_solver].
    apply bind_Some in H as (scope & _ & H%rung_accepted). naive_solver.
  - intros (o & _ & H)%list_elem_of_omap.
    apply bind_Some in H as (r' & H%rung_accepted & [= <-]). naive_solver.
  - set_solver.
  - intros [?%rung_accepted|?%rung_accepted]; naive_solver.
  - intros ?%rung_accepted. naive_solver.
Qed.

(** A caution removes the session rung, and so does the absence of a scope. *)
Lemma no_session_rung i r scope tool input summary preview session_scope caution :
  int_kind i = KPermission tool input summary preview session_scope caution →
  r ∈ rungs i → rung_answer r = AllowSession scope →
  caution = None ∧ session_scope = Some scope.
Proof.
  intros Hk. unfold rungs. rewrite Hk. unfold permission_rungs.
  rewrite !elem_of_app, !elem_of_option_list.
  intros [[_ ->]%rung_accepted|[H|[_ ->]%rung_accepted]]; [done| |done].
  apply bind_Some in H as (sc & Hsc & [_ ->]%rung_accepted). intros [= ->].
  by destruct caution.
Qed.
