(* ===== verification/Event.v ===== *)
(** * Event: the vocabulary that crosses from the kernel to a client

    [bingo-sdk/src/event.rs]: frames, events, items and the summaries they
    carry, with the predicates the kernel and every fold read off them
    ([is_durable], [completes_a_message], [external], ...);
    [event/hunks.rs]: the counts of a unified diff; [asked.rs]: what the person
    asked.  A [View] is a drawing: the only node any modelled code looks into is
    [View::Diff], every other one is carried in its wire form. *)

From S2P Require Import Prelude Text Model Interaction.

Inductive DeltaKind := DText | DReasoning | DTail.
Inductive Level := Info | Warn | Error.

Inductive CloseReason :=
| CloseClient | CloseShutdown | CloseDeleted | CloseError (message : str).

#[export] Instance CloseReason_eq_dec : EqDecision CloseReason.
Proof. solve_decision. Defined.

Inductive Voice := Said | Note | Quiet | Aside.
Inductive SurfaceName := Terminal | Desktop | TextSurface | Chat.
Inductive Tone := Neutral | Good | Bad | Attention.

#[export] Instance Voice_eq_dec : EqDecision Voice.
Proof. solve_decision. Defined.

Record Origin := mkOrigin {
  render_surface : option SurfaceName;
  voice : option Voice;
  surface : str;
  principal : option str;
  conversation : option str;
}.

Definition origin_surface (name : str) : Origin := mkOrigin None None name None None.
Definition origin_default : Origin := origin_surface [].

Definition contributor_prefix : str := lit "contributor:".
Definition is_context (o : Origin) : bool := starts_with (surface o) contributor_prefix.

Inductive TurnOrigin := OSubmit | OQueue | OPeer | OAuto.
Inductive InterruptReason := UserCancel | NewInput | Shutdown | Budget.

Inductive TurnStatus :=
| TurnDone
| TurnFailed (error : KernelError)
| TurnInterrupted (reason : InterruptReason).

Inductive ContextKind := System | Tools | ChatPart | Pictures.
Record ContextPart := mkContextPart { cp_name : ContextKind; cp_tokens : N }.

Record ContextUsage := mkContextUsage {
  cu_parts : option (ContextPart * ContextPart * ContextPart * ContextPart);
  cu_used : N;
  cu_window : N;
  cu_trigger : N;
}.

(** [(used * 100).checked_div(window).unwrap_or(0)]. *)
Definition percent (c : ContextUsage) : N :=
  if N.eqb (cu_window c) 0 then 0%N else (wrap 64 (cu_used c * 100) / cu_window c)%N.

Inductive ItemStatus := Pending | Running | Completed | Failed | Interrupted.

#[export] Instance ItemStatus_eq_dec : EqDecision ItemStatus.
Proof. solve_decision. Defined.

Definition status_is_terminal (s : ItemStatus) : bool :=
  match s with Completed | Failed | Interrupted => true | _ => false end.

Inductive View :=
| ViewDiff (unified : str)
| ViewOther (wire : Value).

Inductive Upshot :=
| UpshotDiff (added removed : N)
| UpshotWords (text : str) (tone : Tone).

Record ToolOutput := mkToolOutput {
  to_parts : list ContentPart;
  to_is_error : bool;
  to_display : option View;
  to_upshot : option Upshot;
}.

Definition output_text (text : str) : ToolOutput := mkToolOutput [PText text] false None None.
Definition output_error (text : str) : ToolOutput := mkToolOutput [PText text] true None None.

Definition status_failed (s : ItemStatus) (output : option ToolOutput) : bool :=
  bool_decide (s = Failed) || match output with Some o => to_is_error o | None => false end.

Inductive DecisionKind := DAllowChanged | DAllowChangedSession | DAllow | DAllowSession | DDeny.

Inductive ItemBody :=
| BUser (parts : list ContentPart) (origin : Origin)
| BAssistant (text : str)
| BReasoning (text : str) (provider_metadata : list (str * list (str * Value)))
| BToolCall (allowed_by : option Reason) (asked_at began_at : option Timestamp)
            (call_id name : str) (input : Value) (output : option ToolOutput)
            (progress : option str) (duration_ms : option N) (quiet : bool)
| BShell (command output : str) (exit : option Z) (cwd : PathBuf)
| BAction (name : str) (args : Value) (result : option Value)
| BCompaction (summary : str) (replaced before after duration_ms : N) (window : option N)
| BRewind (to_turn : TurnId) (dropped : N)
| BInterruption (marker : str) (asked_at : option Timestamp)
| BNotice (level : Level) (code text : str)
| BQuestionAnswer (asked_at : option Timestamp) (item : option ItemId)
                  (interaction : InteractionId) (question answer : str)
| BPermissionReceipt (asked_at : option Timestamp) (item : option ItemId)
                     (interaction : InteractionId) (tool : str) (decision : DecisionKind)
                     (feedback : option str)
| BAsset (asset : str) (label : option str)
| BUnknown (raw : str).

Record Item := mkItem {
  item_id : ItemId;
  item_turn : option TurnId;
  item_round : N;
  item_status : ItemStatus;
  item_started_at : Timestamp;
  item_completed_at : option Timestamp;
  item_intent : option IntentId;
  item_body : ItemBody;
  item_meta : list (str * Value);
}.

Definition is_terminal (i : Item) : bool := status_is_terminal (item_status i).
Definition with_body (i : Item) (b : ItemBody) : Item :=
  mkItem (item_id i) (item_turn i) (item_round i) (item_status i) (item_started_at i)
         (item_completed_at i) (item_intent i) b (item_meta i).

Definition external_key : str := lit "external".
Definition external (i : Item) : bool :=
  bool_decide ((map_get external_key (item_meta i) ≫= as_bool) = Some true).
Definition mark_external (i : Item) : Item :=
  mkItem (item_id i) (item_turn i) (item_round i) (item_status i) (item_started_at i)
         (item_completed_at i) (item_intent i) (item_body i)
         (map_insert external_key (VBool true) (item_meta i)).

Definition is_message (b : ItemBody) : bool :=
  match b with
  | BUser _ origin => negb (is_context origin)
  | BAssistant _ => true
  | _ => false
  end.

Definition receipt (b : ItemBody) : option str :=
  match b with BNotice Info _ text => Some text | _ => None end.

(** The words a shell line becomes for a model. *)
Definition fence : str := lit "```".
Definition newline : str := [10%N].
Definition shell_note (command output : str) (exit : option Z) : str :=
  let body := trim_end_matches 10 output in
  lit "$ " ++ command
  ++ (if bool_decide (body = []) then []
      else newline ++ fence ++ newline ++ body ++ newline ++ fence)
  ++ match exit with
     | Some code => if Z.eqb code 0 then [] else newline ++ lit "[exit " ++ show_Z code ++ lit "]"
     | None => []
     end.

Record QueueEntry := mkQueueEntry {
  qe_intent : IntentId;
  qe_position : N;
  qe_preview : str;
  qe_steerable : bool;
  qe_origin : Origin;
}.

Inductive IntentOutcome :=
| OutTurnStarted (turn : TurnId)
| OutQueued (position : N)
| OutApplied (result : Value)
| OutRejected (error : KernelError).

Record ParentLink := mkParentLink { pl_session : SessionId; pl_item : option ItemId }.
Inductive Driver := DriverModel | DriverLog.
Inductive ChoiceScope := ScopeSession | ScopeDefault.
Record SessionModel := mkSessionModel {
  sm_model : option str;
  sm_model_scope : option ChoiceScope;
  sm_effort : option Effort;
}.
Record ForkLink := mkForkLink { fl_session : SessionId; fl_turn : option TurnId }.
Record SessionHistory := mkSessionHistory {
  first_ask : option str;
  forked_from : option ForkLink;
  messages : option N;
}.

Record SessionSummary := mkSessionSummary {
  ss_id : SessionId;
  ss_key : option str;
  ss_title : option str;
  ss_cwd : str;
  ss_parent : option ParentLink;
  ss_driver : Driver;
  ss_choice : SessionModel;
  ss_system_extra : option str;
  ss_tools : option (list str);
  ss_provider : option str;
  ss_created_at : Timestamp;
  ss_updated_at : Timestamp;
  ss_usage : Usage;
  ss_busy : bool;
  ss_asking : bool;
  ss_history : SessionHistory;
}.

Record ConfigView := mkConfigView {
  cv_kernel : Value;
  cv_plugins : gmap str Value;
}.
Definition config_default : ConfigView := mkConfigView VNull ∅.

(** The session's policy and its own description, and no other plugin's slice. *)
Definition config_policy (c : ConfigView) : option (str * Value) :=
  let? v := value_get (lit "policy") (cv_kernel c) in
  let? id := as_str v in
  let? described := cv_plugins c !! id in
  Some (id, described).

Inductive Event :=
| SessionUpdated (summary : SessionSummary)
| SessionClosed (reason : CloseReason)
| TurnStarted (turn : TurnId) (inputs : list ItemId) (origin : TurnOrigin)
| TurnRetrying (turn : TurnId) (attempt max delay_ms : N) (dropped : list ItemId) (reason : str)
| TurnUsage (turn : TurnId) (usage : Usage) (context : ContextUsage)
| ContextChanged (context : option ContextUsage)
| UsageCharged (turn : option TurnId) (plugin : str) (usage : Usage)
| TurnCompleted (turn : TurnId) (status : TurnStatus) (usage : Usage)
| ItemStarted (item : Item)
| ItemDelta (item : ItemId) (n : N) (kind : DeltaKind) (data : str)
| ItemUpdated (item : Item)
| ItemCompleted (item : Item)
| QueueChanged (revision : N) (entries : list QueueEntry)
| InteractionOpened (interaction : Interaction)
| InteractionResolved (id : InteractionId) (answer : Answer) (by_ : ResolvedBy)
| InteractionCancelled (id : InteractionId) (reason : CancelReason)
| IntentAck (intent : IntentId) (outcome : IntentOutcome)
| Compacted (generation : N) (boundary summary : ItemId) (kept : list ItemId)
| Rewound (generation : N) (to_turn : TurnId) (dropped : list ItemId) (files_restored : list str)
| ConfigChanged (config : ConfigView)
| CatalogChanged (kind : str)
| Notice (level : Level) (code text : str)
| Extension (plugin kind : str) (payload : Value)
| Invalidated (requests : list str)
| Signal (generation : option ItemId) (plugin kind : str) (payload : Value)
| Lagged (from to : Seq)
| UnknownEvent (raw : str).

Record Frame := mkFrame {
  fr_seq : Seq;
  fr_ts : Timestamp;
  fr_session : SessionId;
  fr_cause : option IntentId;
  fr_event : Event;
}.

Definition is_durable (e : Event) : bool :=
  match e with
  | ItemDelta _ _ _ _ | Notice _ _ _ | Invalidated _ | Signal _ _ _ _ | Lagged _ _ => false
  | _ => true
  end.

Definition completes_a_message (e : Event) : bool :=
  match e with ItemCompleted item => is_message (item_body item) | _ => false end.

Definition is_internal_extension (plugin : str) : bool :=
  starts_with plugin (lit "_") || bool_decide (plugin = lit "bingo.context").

(** ** What the person asked ([asked.rs]) *)

Definition person_surfaces : list str :=
  [lit "tui"; lit "print"; lit "rpc"; lit "acp"; lit "channels"].

Definition effective_voice (o : Origin) : Voice :=
  match voice o with
  | Some v => v
  | None => if bool_decide (surface o ∈ person_surfaces) then Said else Quiet
  end.

Definition asked (i : Item) : option str :=
  match item_body i with
  | BUser parts origin =>
      if bool_decide (effective_voice origin = Said) then find_map part_as_text parts else None
  | _ => None
  end.

Definition first_line (text : str) : option str := head (lines text).
Definition first_ask_chars : nat := 200.

Definition first_ask_of (i : Item) : option str :=
  let? text := asked i in
  let line := default [] (first_line text) in
  Some (chars_take first_ask_chars (trim line)).

(** ** The lines a unified diff adds and removes ([event/hunks.rs]) *)

Record Hunk := mkHunk { hunk_old : N; hunk_new : N }.
Inductive Mark := MAdded | MRemoved | MKept.

Definition hunk_length (range : str) : option N :=
  match split_once [44%N] range with
  | Some (_, len) => parse_u32 len
  | None => (fun _ => 1%N) <$> parse_u32 range
  end.

Definition hunk_open (line : str) : option Hunk :=
  let? rest := strip_prefix (lit "@@ ") line in
  let? (ranges, _) := split_once (lit " @@") rest in
  let? (old, new) := split_once [32%N] ranges in
  let? old := strip_prefix [45%N] old in
  let? old := hunk_length old in
  let? new := strip_prefix [43%N] new in
  let? new := hunk_length new in
  Some (mkHunk old new).

Definition hunk_take (h : Hunk) (line : str) : Hunk * option Mark :=
  if (hunk_old h =? 0)%N && (hunk_new h =? 0)%N then (h, None)
  else
    let kept := (mkHunk (hunk_old h - 1) (hunk_new h - 1), Some MKept) in
    match line with
    | c :: _ =>
        if (c =? 43)%N && (0 <? hunk_new h)%N then
          (mkHunk (hunk_old h) (hunk_new h - 1), Some MAdded)
        else if (c =? 45)%N && (0 <? hunk_old h)%N then
          (mkHunk (hunk_old h - 1) (hunk_new h), Some MRemoved)
        else if (c =? 92)%N then (h, None)
        else kept
    | [] => kept
    end.

Definition counts_step (s : Hunk * (N * N)) (line : str) : Hunk * (N * N) :=
  let '(hunk, (added, removed)) := s in
  match hunk_open line with
  | Some opened => (opened, (added, removed))
  | None =>
      let '(hunk, mark) := hunk_take hunk line in
      match mark with
      | Some MAdded => (hunk, (u32_add added 1, removed))
      | Some MRemoved => (hunk, (added, u32_add removed 1))
      | Some MKept | None => (hunk, (added, removed))
      end
  end.

Definition hunk_counts (unified : str) : N * N :=
  (foldl counts_step (mkHunk 0 0, (0%N, 0%N)) (lines unified)).2.

Definition upshot_of_diff (unified : str) : Upshot :=
  let '(added, removed) := hunk_counts unified in UpshotDiff added removed.

Definition outcome (o : ToolOutput) : option Upshot :=
  match to_upshot o with
  | Some u => Some u
  | None => match to_display o with
            | Some (ViewDiff unified) => Some (upshot_of_diff unified)
            | _ => None
            end
  end.

(** ** Lemmas *)

Lemma external_mark i : external (mark_external i) = true.
Proof. unfold external, mark_external; simpl. by rewrite map_get_insert_eq. Qed.

Lemma completes_durable e : completes_a_message e = true → is_durable e = true.
Proof. by destruct e. Qed.

(** A capped first ask is at most [first_ask_chars] characters long. *)
Lemma first_ask_of_length i s : first_ask_of i = Some s → length s ≤ first_ask_chars.
Proof.
  unfold first_ask_of. intros (t & _ & H)%bind_Some. apply (inj Some) in H as <-.
  unfold chars_take. rewrite length_firstn. lia.
Qed.

(** A hunk never counts more lines than its header announced. *)
Lemma hunk_take_budget h line h' m :
  hunk_take h line = (h', m) →
  (hunk_old h' + (if m is Some MRemoved then 1 else 0) <= hunk_old h)%N ∧
  (hunk_new h' + (if m is Some MAdded then 1 else 0) <= hunk_new h)%N.
Proof.
  unfold hunk_take. intros H.
  repeat case_match; simplify_eq/=; bools; rewrite ?N.ltb_lt in *; lia.
Qed.

Example hunk_counts_ex :
  hunk_counts (lit "--- a" ++ newline ++ lit "+++ b" ++ newline ++ lit "@@ -1,2 +1,2 @@"
               ++ newline ++ lit " x" ++ newline ++ lit "-y" ++ newline ++ lit "+z" ++ newline
               ++ lit "--- c") = (1, 1)%N.
Proof. reflexivity. Qed.
