(* ===== verification/Transcript.v ===== *)
(** * Transcript: the client and model orders over shared items

    [bingo-sdk/src/transcript.rs] and [transcript/checkpoint.rs].  A transcript
    keeps every item in client order, an index from id to position, the order
    the model reads (which compaction cuts and splices), and how much of the
    front is kept for the model only ([hidden]).  A [Vec] index that the source
    would panic on is [None] here; [transcript_wf] rules those indices out and
    every operation keeps it. *)

From S2P Require Import Prelude Text Model Interaction Event.

(** ** State *)

Record Transcript := mkTranscript {
  t_generation : N;
  t_items : list Item;
  t_positions : gmap str nat;
  t_model_order : list ItemId;
  t_model_ids : gset str;
  t_hidden : nat;
  t_cut : option ItemId;
  t_has_more : bool;
  t_revision : N;
}.

Inductive Applied :=
| AStale | ANothing | ASession | AConfig | ATurn
| AItem (id : ItemId)
| AQueue
| AInteraction (id : InteractionId)
| AIntent (id : IntentId)
| AHistory | ANotice | AExtension | ASignal | ALagged.

#[export] Instance Applied_eq_dec : EqDecision Applied.
Proof. solve_decision. Defined.

(** ** Helpers of the source *)

(** [positions]: the index of each id, a later item winning over an earlier one. *)
Fixpoint positions_from (at_ : nat) (items : list Item) (m : gmap str nat) : gmap str nat :=
  match items with
  | [] => m
  | item :: items' => positions_from (S at_) items' (<[item_id item := at_]> m)
  end.
Definition positions (items : list Item) : gmap str nat := positions_from 0 items ∅.

(** [splice_compaction]: before the seam only kept ids survive; the summary
    precedes the untouched tail. *)
Definition splice_compaction (order : list ItemId) (cut : nat) (kept : list ItemId)
    (summary : ItemId) : list ItemId :=
  let at_ := position (fun id => bool_decide (id = summary)) order in
  let found := let? i := at_ in order !! i in
  let order := match at_ with Some i => delete i order | None => order end in
  let cut := min cut (length order) in
  retain (fun id => bool_decide (id ∈ kept)) (take cut order)
  ++ option_list found
  ++ drop cut order.

(** ** Queries *)

Definition transcript_new : Transcript := mkTranscript 0 [] ∅ [] ∅ 0 None false 0.

Definition items (t : Transcript) : list Item := drop (t_hidden t) (t_items t).

Definition get (t : Transcript) (id : ItemId) : option Item :=
  let? at_ := t_positions t !! id in t_items t !! at_.

Definition open_items (t : Transcript) (turn : TurnId) : list Item :=
  retain (fun i => bool_decide (item_turn i = Some turn) && negb (status_is_terminal (item_status i)))
         (t_items t).

Definition model_items (t : Transcript) : list Item := omap (get t) (t_model_order t).

Record OpenHistory := mkOpenHistory {
  oh_before : option ItemId;
  oh_has_more : bool;
  oh_generation : N;
}.

Definition history (t : Transcript) : OpenHistory :=
  mkOpenHistory (item_id <$> head (items t)) (t_has_more t) (t_generation t).

(** ** Updates *)

Definition upsert (t : Transcript) (item : Item) : Transcript * Applied :=
  let '(pos, its) :=
    match t_positions t !! item_id item with
    | Some at_ => (t_positions t, <[at_ := item]> (t_items t))
    | None => (<[item_id item := length (t_items t)]> (t_positions t), t_items t ++ [item])
    end in
  let '(order, ids) :=
    if bool_decide (item_id item ∈ t_model_ids t) then (t_model_order t, t_model_ids t)
    else (t_model_order t ++ [item_id item], {[item_id item]} ∪ t_model_ids t) in
  (mkTranscript (t_generation t) its pos order ids (t_hidden t) (t_cut t) (t_has_more t)
                (t_revision t),
   AItem (item_id item)).

Definition is_dropped (dropped : list ItemId) (id : ItemId) : bool := bool_decide (id ∈ dropped).

Definition remove (t : Transcript) (dropped : list ItemId) : Transcript :=
  let gone := length (retain (fun i => is_dropped dropped (item_id i))
                             (take (t_hidden t) (t_items t))) in
  let its := retain (fun i => negb (is_dropped dropped (item_id i))) (t_items t) in
  mkTranscript (t_generation t) its (positions its)
    (retain (fun id => negb (is_dropped dropped id)) (t_model_order t))
    (filter (fun id => id ∉ dropped) (t_model_ids t))
    (t_hidden t - gone) (t_cut t) (t_has_more t) (t_revision t).

Definition delta_body (b : ItemBody) (kind : DeltaKind) (data : str) : option ItemBody :=
  match b, kind with
  | BAssistant text, DText => Some (BAssistant (text ++ data))
  | BReasoning text meta, DReasoning => Some (BReasoning (text ++ data) meta)
  | BToolCall al asked began cid name input output _ dur q, DTail =>
      Some (BToolCall al asked began cid name input output (Some data) dur q)
  | _, _ => None
  end.

Definition set_items (t : Transcript) (its : list Item) : Transcript :=
  mkTranscript (t_generation t) its (t_positions t) (t_model_order t) (t_model_ids t)
               (t_hidden t) (t_cut t) (t_has_more t) (t_revision t).

Definition delta (t : Transcript) (id : ItemId) (kind : DeltaKind) (data : str)
    : Transcript * Applied :=
  match t_positions t !! id with
  | None => (t, ANothing)
  | Some at_ =>
      match t_items t !! at_ with
      | None => (t, ANothing)
      | Some target =>
          if is_terminal target then (t, ANothing)
          else match delta_body (item_body target) kind data with
               | None => (t, ANothing)
               | Some body => (set_items t (<[at_ := with_body target body]> (t_items t)), AItem id)
               end
      end
  end.

Definition set_generation (t : Transcript) (g : N) : Transcript :=
  mkTranscript g (t_items t) (t_positions t) (t_model_order t) (t_model_ids t)
               (t_hidden t) (t_cut t) (t_has_more t) (t_revision t).

Definition compacted (t : Transcript) (boundary summary : ItemId) (kept : list ItemId)
    : Transcript :=
  match position (fun id => bool_decide (id = boundary)) (t_model_order t) with
  | None => t
  | Some cut =>
      let order := splice_compaction (t_model_order t) cut kept summary in
      mkTranscript (t_generation t) (t_items t) (t_positions t) order (list_to_set order)
                   (t_hidden t) (Some boundary) (t_has_more t) (t_revision t)
  end.

Definition change (t : Transcript) (e : Event) : Transcript * Applied :=
  match e with
  | ItemStarted item | ItemUpdated item | ItemCompleted item => upsert t item
  | ItemDelta item _ kind data => delta t item kind data
  | TurnRetrying _ _ _ _ dropped _ => (remove t dropped, ATurn)
  | Rewound generation _ dropped _ => (remove (set_generation t generation) dropped, AHistory)
  | Compacted generation boundary summary kept =>
      (compacted (set_generation t generation) boundary summary kept, AHistory)
  | _ => (t, ANothing)
  end.

Definition bump (t : Transcript) : Transcript :=
  mkTranscript (t_generation t) (t_items t) (t_positions t) (t_model_order t) (t_model_ids t)
               (t_hidden t) (t_cut t) (t_has_more t) (u64_add (t_revision t) 1).

Definition transcript_apply (t : Transcript) (e : Event) : Transcript * Applied :=
  let '(t', applied) := change t e in
  (if bool_decide (applied = ANothing) then t' else bump t', applied).

(** The loop of [drop_before_cut]'s [retain], with its two counters. *)
Fixpoint retain_prefix (cut : nat) (ids : gset str) (at_ hidden : nat) (l : list Item)
    : list Item * nat :=
  match l with
  | [] => ([], hidden)
  | item :: l' =>
      let prefix := at_ <? cut in
      let keep := negb prefix || bool_decide (item_id item ∈ ids) in
      let hidden := if prefix && keep then S hidden else hidden in
      let '(kept, hidden) := retain_prefix cut ids (S at_) hidden l' in
      (if keep then item :: kept else kept, hidden)
  end.

Definition cut_position (t : Transcript) : nat :=
  max (default (t_hidden t) (let? id := t_cut t in t_positions t !! id)) (t_hidden t).

Definition drop_before_cut (t : Transcript) : Transcript :=
  let cut := cut_position t in
  let has_more := t_has_more t || (t_hidden t <? cut) in
  let '(its, hidden) := retain_prefix cut (t_model_ids t) 0 0 (t_items t) in
  mkTranscript (t_generation t) its (positions its) (t_model_order t) (t_model_ids t)
               hidden (t_cut t) has_more (t_revision t).

(** A bounded client snapshot. *)
Definition window (t : Transcript) (start : nat) : Transcript :=
  let its := drop start (items t) in
  let pos := positions its in
  let order := retain (fun id => bool_decide (is_Some (pos !! id))) (t_model_order t) in
  mkTranscript (t_generation t) its pos order (list_to_set order) 0 None
               (t_has_more t || (0 <? start)) (t_revision t).

(** Storage's full client order combined with the live window. *)
Definition with_history (t h : Transcript) : Transcript :=
  let live item := default item (let? at_ := t_positions t !! item_id item in t_items t !! at_) in
  mkTranscript (t_generation t) (live <$> t_items h) (t_positions h) (t_model_order t)
               (t_model_ids t) 0 (t_cut t) false (t_revision t).

Definition from_iter (l : list Item) : Transcript :=
  foldl (fun t item => (transcript_apply t (ItemCompleted item)).1) transcript_new l.

(** ** The checkpoint codec *)

Record Stored := mkStored {
  st_history_generation : N;
  st_items : list Item;
  st_model_order : list ItemId;
  st_hidden : nat;
  st_cut : option ItemId;
  st_has_more : bool;
}.

Definition stored_from (t : Transcript) : Stored :=
  mkStored (t_generation t) (t_items t) (t_model_order t) (t_hidden t) (t_cut t) (t_has_more t).

Definition restore (s : Stored) : result str Transcript :=
  let pos := positions (st_items s) in
  let ids : gset str := list_to_set (st_model_order s) in
  if (length (st_items s) <? st_hidden s)
     || negb (size pos =? length (st_items s))
     || negb (size ids =? length (st_model_order s))
     || any (fun id => negb (option_is_some (pos !! id))) (elements ids)
     || any (fun i => bool_decide (item_id i ∉ ids)) (take (st_hidden s) (st_items s))
     || ((0 <? st_hidden s) && negb (st_has_more s))
  then Err (lit "invalid checkpoint transcript")
  else Ok (mkTranscript (st_history_generation s) (st_items s) pos (st_model_order s) ids
                        (st_hidden s) (st_cut s) (st_has_more s) 0).

(** ** The index *)

Abbreviation ids_of l := (item_id <$> l) (only parsing).

Lemma positions_from_notin k l m id :
  id ∉ ids_of l → positions_from k l m !! id = m !! id.
Proof.
  revert k m. induction l as [|it l IH]; intros k m H; csimpl in *; [done|].
  rewrite IH by set_solver. rewrite lookup_insert_ne; set_solver.
Qed.

Lemma positions_from_in k l m i it :
  NoDup (ids_of l) → l !! i = Some it → positions_from k l m !! item_id it = Some (k + i).
Proof.
  revert k m i. induction l as [|x l IH]; intros k m i Hnd Hi; csimpl in *; [done|].
  apply NoDup_cons in Hnd as [Hx Hnd]. destruct i as [|i]; simplify_eq/=.
  - rewrite positions_from_notin, lookup_insert_eq by done. f_equal. lia.
  - rewrite (IH (S k) _ i) by done. f_equal. lia.
Qed.

Lemma positions_ids_from k l l' m :
  ids_of l = ids_of l' → positions_from k l m = positions_from k l' m.
Proof.
  revert k l' m. induction l as [|x l IH]; intros k [|y l'] m H; csimpl in *; simplify_eq/=; [done|].
  match goal with E : item_id x = item_id y |- _ => rewrite E end. auto.
Qed.

Lemma positions_ids l l' : ids_of l = ids_of l' → positions l = positions l'.
Proof. apply positions_ids_from. Qed.

Lemma positions_from_snoc k l m it :
  positions_from k (l ++ [it]) m = <[item_id it := k + length l]> (positions_from k l m).
Proof.
  revert k m. induction l as [|x l IH]; intros k m; simpl.
  - by rewrite Nat.add_0_r.
  - rewrite IH. f_equal. lia.
Qed.

Lemma positions_snoc l it :
  positions (l ++ [it]) = <[item_id it := length l]> (positions l).
Proof. apply positions_from_snoc. Qed.

Lemma positions_dom_from k l m :
  dom (positions_from k l m) = list_to_set (ids_of l) ∪ dom m.
Proof.
  revert k m. induction l as [|x l IH]; intros k m; csimpl; [set_solver|].
  rewrite IH, dom_insert_L. set_solver.
Qed.

Lemma positions_dom l : dom (positions l) = list_to_set (ids_of l).
Proof. unfold positions. rewrite positions_dom_from, dom_empty_L. set_solver. Qed.

Lemma positions_None l id : positions l !! id = None ↔ id ∉ ids_of l.
Proof. rewrite <- not_elem_of_dom, positions_dom, elem_of_list_to_set. done. Qed.

Lemma positions_Some l id i :
  NoDup (ids_of l) →
  positions l !! id = Some i ↔ ∃ it, l !! i = Some it ∧ item_id it = id.
Proof.
  intros Hnd. split.
  - intros H. destruct (decide (id ∈ ids_of l)) as [Hin|Hout].
    + apply list_elem_of_fmap in Hin as (it & -> & Hin).
      apply list_elem_of_lookup in Hin as [j Hj].
      unfold positions in H. rewrite (positions_from_in 0 l ∅ j) in H by done. naive_solver.
    + apply positions_None in Hout. congruence.
  - intros (it & Hi & <-). unfold positions. by rewrite (positions_from_in 0 l ∅ i).
Qed.

Lemma size_list_to_set_nodup (l : list str) :
  size (list_to_set l : gset str) = length l ↔ NoDup l.
Proof.
  induction l as [|x l IH]; simpl; [split; [constructor|done]|].
  assert (size (list_to_set l : gset str) ≤ length l) as Hle.
  { clear. induction l as [|y l IH]; simpl; [done|]. rewrite size_union_alt, size_singleton.
    pose proof (subseteq_size (list_to_set l ∖ {[y]} : gset str) (list_to_set l)).
    set_solver by lia. }
  rewrite NoDup_cons, <- IH. destruct (decide (x ∈ l)).
  - replace ({[x]} ∪ list_to_set l : gset str) with (list_to_set l : gset str) by set_solver.
    split; [lia|naive_solver].
  - rewrite size_union, size_singleton by set_solver. split; [|lia]. intros. split; [done|lia].
Qed.

Lemma size_positions l : size (positions l) = length l ↔ NoDup (ids_of l).
Proof.
  rewrite <- size_dom, positions_dom, <- (length_fmap item_id l). apply size_list_to_set_nodup.
Qed.

(** ** The invariant *)

Record transcript_wf (t : Transcript) : Prop := mk_transcript_wf {
  wf_nodup : NoDup (ids_of (t_items t));
  wf_positions : t_positions t = positions (t_items t);
  wf_order_nodup : NoDup (t_model_order t);
  wf_model_ids : t_model_ids t = list_to_set (t_model_order t);
  wf_order_known : ∀ id, id ∈ t_model_order t → id ∈ ids_of (t_items t);
  wf_hidden : t_hidden t ≤ length (t_items t);
  wf_has_more : 0 < t_hidden t → t_has_more t = true;
}.

Lemma wf_lookup t id i : transcript_wf t →
  t_positions t !! id = Some i ↔ ∃ it, t_items t !! i = Some it ∧ item_id it = id.
Proof. intros H. rewrite (wf_positions t H). apply positions_Some, H. Qed.

Lemma wf_lookup_None t id : transcript_wf t →
  t_positions t !! id = None ↔ id ∉ ids_of (t_items t).
Proof. intros H. rewrite (wf_positions t H). apply positions_None. Qed.

(** The index never points past the items: no lookup of the source panics. *)
Lemma get_spec t id it : transcript_wf t →
  get t id = Some it ↔ it ∈ t_items t ∧ item_id it = id.
Proof.
  intros H. unfold get. rewrite bind_Some. setoid_rewrite (wf_lookup t id _ H).
  rewrite list_elem_of_lookup. naive_solver.
Qed.

Lemma get_None t id : transcript_wf t → get t id = None ↔ id ∉ ids_of (t_items t).
Proof.
  intros H. rewrite eq_None_not_Some. split; intros Hn.
  - intros (it & -> & Hin)%list_elem_of_fmap. apply Hn. exists it. by apply get_spec.
  - intros [it [Hin <-]%get_spec]; [|done]. apply Hn. by apply list_elem_of_fmap_2.
Qed.

Lemma transcript_new_wf : transcript_wf transcript_new.
Proof. split; simpl; try done; try constructor; try set_solver. lia. Qed.

Lemma set_generation_wf t g : transcript_wf t → transcript_wf (set_generation t g).
Proof. intros []. by split. Qed.

Lemma bump_wf t : transcript_wf t → transcript_wf (bump t).
Proof. intros []. by split. Qed.

(** Replacing an item by one with the same id moves nothing. *)
Lemma ids_of_insert (l : list Item) i it old :
  l !! i = Some old → item_id it = item_id old → ids_of (<[i := it]> l) = ids_of l.
Proof.
  intros Hi Hid. rewrite list_fmap_insert. apply list_insert_id.
  rewrite list_lookup_fmap, Hi. simpl. by rewrite Hid.
Qed.

Lemma set_items_wf t its :
  transcript_wf t → ids_of its = ids_of (t_items t) → transcript_wf (set_items t its).
Proof.
  intros [] E. assert (length its = length (t_items t)) as El.
  { by rewrite <- (length_fmap item_id its), E, length_fmap. }
  split; simpl; rewrite ?E, ?El; try done.
  rewrite wf_positions0. by apply positions_ids.
Qed.

Lemma delta_body_id target body : item_id (with_body target body) = item_id target.
Proof. done. Qed.

Lemma delta_wf t id kind data : transcript_wf t → transcript_wf (delta t id kind data).1.
Proof.
  intros H. unfold delta. repeat case_match; simpl; try done.
  apply set_items_wf; [done|]. by eapply ids_of_insert.
Qed.

Lemma upsert_items_ids t item : transcript_wf t →
  ids_of (t_items (upsert t item).1) =
  ids_of (t_items t) ++ (if decide (item_id item ∈ ids_of (t_items t)) then [] else [item_id item]).
Proof.
  intros H. unfold upsert. destruct (t_positions t !! item_id item) as [i|] eqn:E.
  - destruct (proj1 (wf_lookup t _ i H) E) as (old & Hi & Hid).
    destruct (bool_decide _); simpl; erewrite ids_of_insert by done.
    all: rewrite decide_True, app_nil_r by (rewrite <- Hid; by eapply list_elem_of_fmap_2, list_elem_of_lookup_2).
    all: done.
  - apply wf_lookup_None in E; [|done].
    destruct (bool_decide _); simpl; rewrite fmap_app, decide_False; done.
Qed.

Lemma upsert_order t item : transcript_wf t →
  t_model_order (upsert t item).1 =
  t_model_order t ++ (if decide (item_id item ∈ t_model_order t) then [] else [item_id item]).
Proof.
  intros H. unfold upsert.
  assert (item_id item ∈ t_model_ids t ↔ item_id item ∈ t_model_order t) as Hm.
  { by rewrite (wf_model_ids t H), elem_of_list_to_set. }
  destruct (t_positions t !! item_id item); case_bool_decide as E; simpl.
  all: rewrite Hm in E; case_decide; try done; by rewrite app_nil_r.
Qed.

Lemma upsert_model_ids t item : transcript_wf t →
  t_model_ids (upsert t item).1 = list_to_set (t_model_order (upsert t item).1).
Proof.
  intros H. unfold upsert.
  destruct (t_positions t !! item_id item); case_bool_decide; simpl; try apply H.
  all: rewrite (wf_model_ids t H), list_to_set_app_L; simpl; set_solver.
Qed.

Lemma upsert_positions t item : transcript_wf t →
  t_positions (upsert t item).1 = positions (t_items (upsert t item).1).
Proof.
  intros H. unfold upsert. destruct (t_positions t !! item_id item) as [i|] eqn:E.
  - destruct (proj1 (wf_lookup t _ i H) E) as (old & Hi & Hid).
    destruct (bool_decide _); simpl; rewrite (wf_positions t H); symmetry;
      apply positions_ids; by eapply ids_of_insert.
  - destruct (bool_decide _); simpl; by rewrite positions_snoc, (wf_positions t H).
Qed.

Lemma upsert_frame t item :
  t_hidden (upsert t item).1 = t_hidden t ∧ t_has_more (upsert t item).1 = t_has_more t
  ∧ t_cut (upsert t item).1 = t_cut t ∧ t_generation (upsert t item).1 = t_generation t.
Proof. unfold upsert. by destruct (t_positions t !! item_id item), (bool_decide _). Qed.

Lemma NoDup_snoc_new {A} `{EqDecision A} (l : list A) x :
  NoDup l → NoDup (l ++ (if decide (x ∈ l) then [] else [x])).
Proof.
  intros H. case_decide; [by rewrite app_nil_r|].
  apply NoDup_app. split_and!; [done| |apply NoDup_singleton].
  by intros y Hy ->%list_elem_of_singleton.
Qed.

Lemma upsert_wf t item : transcript_wf t → transcript_wf (upsert t item).1.
Proof.
  intros H. pose proof (upsert_items_ids t item H) as Hids.
  pose proof (upsert_order t item H) as Hord.
  destruct (upsert_frame t item) as (Hh & Hm & _ & _).
  split.
  - rewrite Hids. apply NoDup_snoc_new, H.
  - by apply upsert_positions.
  - rewrite Hord. apply NoDup_snoc_new, H.
  - by apply upsert_model_ids.
  - intros id. rewrite Hord, Hids, !elem_of_app. intros [Hid|Hid].
    + left. by apply H.
    + case_decide; [by apply elem_of_nil in Hid|].
      apply list_elem_of_singleton in Hid as ->. case_decide; [by left|right; by left].
  - rewrite Hh. rewrite <- (length_fmap item_id), Hids, length_app, length_fmap.
    pose proof (wf_hidden t H). lia.
  - rewrite Hh, Hm. apply H.
Qed.

(** ** Removal *)

Lemma ids_of_remove t dropped :
  ids_of (t_items (remove t dropped)) =
  retain (λ id, negb (is_dropped dropped id)) (ids_of (t_items t)).
Proof. unfold remove; simpl. apply (retain_map item_id (λ id, negb (is_dropped dropped id))). Qed.

Lemma retain_split_length {A} (p : A → bool) l :
  length (retain p l) + length (retain (λ x, negb (p x)) l) = length l.
Proof. induction l as [|x l IH]; simpl; [done|]. destruct (p x); simpl; lia. Qed.

(** The hidden count after a removal is the number of hidden items that stay. *)
Lemma remove_hidden t dropped : t_hidden t ≤ length (t_items t) →
  t_hidden (remove t dropped) =
  length (retain (λ i, negb (is_dropped dropped (item_id i))) (take (t_hidden t) (t_items t))).
Proof.
  intros H. unfold remove; simpl.
  pose proof (retain_split_length (λ i, is_dropped dropped (item_id i))
                (take (t_hidden t) (t_items t))) as E.
  rewrite length_take in E. lia.
Qed.

Lemma remove_wf t dropped : transcript_wf t → transcript_wf (remove t dropped).
Proof.
  intros H. split.
  - rewrite ids_of_remove. apply NoDup_retain, H.
  - done.
  - simpl. apply NoDup_retain, H.
  - simpl. rewrite (wf_model_ids t H). apply set_eq. intros id.
    rewrite elem_of_filter, !elem_of_list_to_set, elem_of_retain.
    unfold is_dropped. rewrite negb_true_iff, bool_decide_eq_false. naive_solver.
  - intros id. rewrite ids_of_remove. simpl. rewrite !elem_of_retain.
    intros [? ?]. split; [by apply H|done].
  - rewrite remove_hidden by apply H. simpl.
    rewrite <- (take_drop (t_hidden t) (t_items t)) at 2.
    rewrite retain_app, length_app. lia.
  - simpl. intros Hpos. apply H. lia.
Qed.

(** Removal acts on the client's view as on the whole list. *)
Lemma remove_items t dropped : t_hidden t ≤ length (t_items t) →
  items (remove t dropped) =
  retain (λ i, negb (is_dropped dropped (item_id i))) (items t).
Proof.
  intros H. unfold items. rewrite remove_hidden by done. simpl.
  rewrite <- (take_drop (t_hidden t) (t_items t)) at 2.
  by rewrite retain_app, drop_app_length.
Qed.

(** ** Compaction *)

(** Taking an id out of a duplicate-free order, by position. *)
Lemma position_id_Some (l : list str) x i :
  position (λ y, bool_decide (y = x)) l = Some i → l !! i = Some x.
Proof.
  intros (y & Hy & ?%bool_decide_eq_true_1 & _)%position_Some. by subst.
Qed.

Lemma position_id_None (l : list str) x :
  position (λ y, bool_decide (y = x)) l = None ↔ x ∉ l.
Proof.
  rewrite position_None. split.
  - intros H Hx. specialize (H x Hx). by rewrite bool_decide_eq_true_2 in H.
  - intros H y Hy. apply bool_decide_eq_false_2. congruence.
Qed.

Lemma delete_id (l : list str) x i :
  NoDup l → l !! i = Some x →
  NoDup (delete i l) ∧ x ∉ delete i l ∧ ∀ y, y ∈ delete i l ↔ y ∈ l ∧ y ≠ x.
Proof.
  intros Hnd Hi. destruct (delete_middle l i x Hi) as [Hl Hd]. rewrite Hd.
  rewrite Hl in Hnd. apply NoDup_app in Hnd as (H1 & H2 & [H3 H4]%NoDup_cons).
  assert (NoDup (take i l ++ drop (S i) l)).
  { apply NoDup_app. set_solver. }
  assert (x ∉ take i l ++ drop (S i) l) by set_solver.
  split_and!; [done..|]. intros y. rewrite Hl at 3. set_solver.
Qed.

Definition splice_rest (order : list ItemId) (summary : ItemId) : list ItemId :=
  match position (λ id, bool_decide (id = summary)) order with
  | Some i => delete i order
  | None => order
  end.

Lemma splice_rest_spec order summary : NoDup order →
  NoDup (splice_rest order summary) ∧
  ∀ y, y ∈ splice_rest order summary ↔ y ∈ order ∧ y ≠ summary.
Proof.
  intros Hnd. unfold splice_rest. destruct (position _ order) as [i|] eqn:E.
  - apply position_id_Some in E. destruct (delete_id order summary i Hnd E) as (?&?&?). done.
  - apply position_id_None in E. split; [done|]. naive_solver.
Qed.

Lemma splice_rest_app head l summary : summary ∉ head → NoDup l →
  splice_rest (head ++ l) summary =
  head ++ retain (λ id, negb (bool_decide (id = summary))) l.
Proof.
  intros Hh Hl. unfold splice_rest. induction head as [|x head IH]; simpl.
  - clear Hh. induction Hl as [|x l Hx Hl IH]; simpl; [done|].
    case_bool_decide as E; simpl.
    + rewrite retain_all; [done|]. intros y Hy. apply negb_true_iff, bool_decide_eq_false_2.
      congruence.
    + destruct (position _ l); simpl; by f_equal.
  - rewrite bool_decide_eq_false_2 by set_solver.
    assert (summary ∉ head) as Hh' by set_solver.
    destruct (position _ (head ++ l)); simpl in *; f_equal; by apply IH.
Qed.

Lemma splice_compaction_eq order cut kept summary :
  splice_compaction order cut kept summary =
  retain (λ id, bool_decide (id ∈ kept)) (take cut (splice_rest order summary))
  ++ (if decide (summary ∈ order) then [summary] else [])
  ++ drop cut (splice_rest order summary).
Proof.
  unfold splice_compaction, splice_rest.
  destruct (position _ order) as [i|] eqn:E; simpl.
  - apply position_id_Some in E. rewrite E, decide_True by by eapply list_elem_of_lookup_2.
    destruct (Nat.min_spec cut (length (delete i order))) as [[? ->]|[? ->]]; [done|].
    by rewrite !take_ge, !drop_ge by lia.
  - apply position_id_None in E. rewrite decide_False by done.
    destruct (Nat.min_spec cut (length order)) as [[? ->]|[? ->]]; [done|].
    by rewrite !take_ge, !drop_ge by lia.
Qed.

Lemma elem_of_splice order cut kept summary id : NoDup order →
  id ∈ splice_compaction order cut kept summary → id ∈ order.
Proof.
  intros Hnd. destruct (splice_rest_spec order summary Hnd) as [_ Hrest].
  rewrite splice_compaction_eq, !elem_of_app, elem_of_retain.
  intros [[Hin%elem_of_take_in _]|[Hin|Hin%elem_of_drop_in]].
  - by apply Hrest in Hin as [? _].
  - case_decide; set_solver.
  - by apply Hrest in Hin as [? _].
Qed.

Lemma NoDup_splice order cut kept summary :
  NoDup order → NoDup (splice_compaction order cut kept summary).
Proof.
  intros Hnd. destruct (splice_rest_spec order summary Hnd) as [Hnd' Hrest].
  rewrite splice_compaction_eq.
  pose proof Hnd' as Hs. rewrite <- (take_drop cut (splice_rest order summary)) in Hs.
  apply NoDup_app in Hs as (H1 & H2 & H3).
  assert (summary ∉ splice_rest order summary) as Hns by (rewrite Hrest; naive_solver).
  apply NoDup_app. split_and!; [by apply NoDup_retain| |].
  - intros x [Hx _]%elem_of_retain. rewrite elem_of_app. intros [Hx'|?]; [|naive_solver].
    case_decide; [|set_solver]. apply list_elem_of_singleton in Hx' as ->.
    by apply elem_of_take_in in Hx.
  - apply NoDup_app. split_and!; [case_decide; [apply NoDup_singleton|constructor]| |done].
    intros x Hx ?%elem_of_drop_in. case_decide; set_solver.
Qed.

Lemma compacted_wf t boundary summary kept :
  transcript_wf t → transcript_wf (compacted t boundary summary kept).
Proof.
  intros H. unfold compacted. case_match; [|done].
  destruct H. split; simpl; try done.
  - by apply NoDup_splice.
  - intros id Hid%elem_of_splice; auto.
Qed.

(** Every event keeps the invariant. *)
Lemma change_wf t e : transcript_wf t → transcript_wf (change t e).1.
Proof.
  intros H. destruct e; simpl; try done;
    auto using upsert_wf, delta_wf, remove_wf, compacted_wf, set_generation_wf.
Qed.

Lemma transcript_apply_wf t e : transcript_wf t → transcript_wf (transcript_apply t e).1.
Proof.
  intros H. unfold transcript_apply. pose proof (change_wf t e H) as H'.
  destruct (change t e) as [t' a]. simpl in *. case_bool_decide; [done|by apply bump_wf].
Qed.

(** ** Releasing what no view needs *)

(** The counting loop keeps the model's part of the prefix and the whole tail. *)
Lemma retain_prefix_spec cut ids at_ hidden l :
  retain_prefix cut ids at_ hidden l =
  (retain (λ i, bool_decide (item_id i ∈ ids)) (take (cut - at_) l) ++ drop (cut - at_) l,
   hidden + length (retain (λ i, bool_decide (item_id i ∈ ids)) (take (cut - at_) l))).
Proof.
  revert at_ hidden. induction l as [|it l IH]; intros at_ hidden; simpl.
  { rewrite take_nil, drop_nil. simpl. f_equal. lia. }
  rewrite IH. destruct (Nat.ltb_spec at_ cut) as [Hlt|Hge].
  - replace (cut - at_) with (S (cut - S at_)) by lia. simpl.
    destruct (bool_decide (item_id it ∈ ids)); simpl; f_equal; lia.
  - replace (cut - at_) with 0 by lia. replace (cut - S at_) with 0 by lia. simpl. done.
Qed.

Definition model_prefix (t : Transcript) : list Item :=
  retain (λ i, bool_decide (item_id i ∈ t_model_ids t)) (take (cut_position t) (t_items t)).

Lemma drop_before_cut_items t :
  t_items (drop_before_cut t) = model_prefix t ++ drop (cut_position t) (t_items t)
  ∧ t_hidden (drop_before_cut t) = length (model_prefix t).
Proof.
  unfold drop_before_cut. rewrite retain_prefix_spec. simpl. rewrite Nat.sub_0_r. done.
Qed.

Lemma cut_position_bounds t : transcript_wf t →
  t_hidden t ≤ cut_position t ≤ length (t_items t).
Proof.
  intros H. unfold cut_position. split; [lia|].
  apply Nat.max_lub; [|apply H].
  destruct (t_cut t) as [id|]; simpl; [|apply H].
  destruct (t_positions t !! id) as [i|] eqn:E; simpl; [|apply H].
  apply wf_lookup in E as (it & Hi & _); [|done]. apply lookup_lt_Some in Hi. lia.
Qed.

(** The released transcript keeps the model's items, hides only those, and
    shows the client exactly what follows the cut. *)
Lemma drop_before_cut_sublist t :
  ids_of (t_items (drop_before_cut t)) `sublist_of` ids_of (t_items t).
Proof.
  apply fmap_sublist. rewrite (proj1 (drop_before_cut_items t)).
  trans (take (cut_position t) (t_items t) ++ drop (cut_position t) (t_items t));
    [|by rewrite take_drop].
  apply sublist_app; [|done]. unfold model_prefix, retain.
  induction (take _ _) as [|x l IH]; simpl; [done|].
  destruct (bool_decide _); by constructor.
Qed.

Lemma elem_of_model_prefix t it :
  it ∈ model_prefix t ↔ it ∈ take (cut_position t) (t_items t) ∧ item_id it ∈ t_model_ids t.
Proof. unfold model_prefix. by rewrite elem_of_retain, bool_decide_eq_true. Qed.

Lemma drop_before_cut_keeps_model t id : transcript_wf t →
  id ∈ t_model_order t → id ∈ ids_of (t_items (drop_before_cut t)).
Proof.
  intros H Hid. pose proof (wf_order_known t H id Hid) as Hin.
  rewrite (proj1 (drop_before_cut_items t)).
  apply list_elem_of_fmap in Hin as (it & -> & Hin). apply list_elem_of_fmap_2.
  rewrite <- (take_drop (cut_position t) (t_items t)), elem_of_app in Hin.
  rewrite elem_of_app. destruct Hin as [Hin|Hin]; [left|by right].
  apply elem_of_model_prefix. split; [done|].
  by rewrite (wf_model_ids t H), elem_of_list_to_set.
Qed.

Lemma drop_before_cut_frame t :
  t_positions (drop_before_cut t) = positions (t_items (drop_before_cut t))
  ∧ t_model_order (drop_before_cut t) = t_model_order t
  ∧ t_model_ids (drop_before_cut t) = t_model_ids t
  ∧ t_cut (drop_before_cut t) = t_cut t
  ∧ t_generation (drop_before_cut t) = t_generation t
  ∧ t_has_more (drop_before_cut t) = t_has_more t || (t_hidden t <? cut_position t).
Proof. unfold drop_before_cut. by rewrite retain_prefix_spec. Qed.

Lemma drop_before_cut_wf t : transcript_wf t → transcript_wf (drop_before_cut t).
Proof.
  intros H. destruct (drop_before_cut_frame t) as (Hp & Ho & Hi & _ & _ & Hm).
  destruct (drop_before_cut_items t) as [Hits Hhid]. split.
  - eapply sublist_NoDup; [apply H|apply drop_before_cut_sublist].
  - done.
  - rewrite Ho. apply H.
  - rewrite Hi, Ho. apply H.
  - intros id. rewrite Ho. by apply drop_before_cut_keeps_model.
  - rewrite Hits, Hhid, length_app. lia.
  - rewrite Hhid, Hm. intros Hpos. apply orb_true_iff.
    destruct (decide (0 < t_hidden t)) as [?|Hz]; [left; by apply H|right].
    apply Nat.ltb_lt. destruct (cut_position t) eqn:E; [|lia].
    unfold model_prefix in Hpos. rewrite E in Hpos. simpl in Hpos. lia.
Qed.

(** What the client sees after the release is what followed the cut. *)
Lemma drop_before_cut_view t :
  items (drop_before_cut t) = drop (cut_position t) (t_items t).
Proof.
  unfold items. destruct (drop_before_cut_items t) as [-> ->]. by rewrite drop_app_length.
Qed.

(** Reading the model's order is not disturbed by the release. *)
Lemma drop_before_cut_get t id : transcript_wf t → id ∈ t_model_order t →
  get (drop_before_cut t) id = get t id.
Proof.
  intros H Hid. pose proof (drop_before_cut_wf t H) as H'.
  pose proof (drop_before_cut_keeps_model t id H Hid) as Hk.
  apply list_elem_of_fmap in Hk as (it & Hit & Hin).
  rewrite (proj2 (get_spec _ id it H')) by done. symmetry. apply get_spec; [done|].
  split; [|done]. rewrite (proj1 (drop_before_cut_items t)), elem_of_app in Hin.
  destruct Hin as [[Hin%elem_of_take_in _]%elem_of_model_prefix|Hin%elem_of_drop_in]; done.
Qed.

Lemma drop_before_cut_model t : transcript_wf t →
  model_items (drop_before_cut t) = model_items t.
Proof.
  intros H. unfold model_items. destruct (drop_before_cut_frame t) as (_ & -> & _).
  assert (∀ l : list str, (∀ id, id ∈ l → id ∈ t_model_order t) →
            omap (get (drop_before_cut t)) l = omap (get t) l) as Hgen.
  { induction l as [|id l IH]; intros Hl; csimpl; [done|].
    rewrite drop_before_cut_get, IH; [done|set_solver|done|set_solver]. }
  by apply Hgen.
Qed.

(** ** Checkpoints *)

Lemma restore_Ok s t : restore s = Ok t →
  t = mkTranscript (st_history_generation s) (st_items s) (positions (st_items s))
        (st_model_order s) (list_to_set (st_model_order s)) (st_hidden s) (st_cut s)
        (st_has_more s) 0 ∧ transcript_wf t.
Proof.
  unfold restore. case_match eqn:E; [done|]. intros [= <-]. split; [done|].
  rewrite !orb_false_iff, !negb_false_iff, !any_false in E.
  destruct E as [[[[[E1 E2] E3] E4] E5] E6].
  apply Nat.ltb_ge in E1. apply Nat.eqb_eq in E2, E3. split; simpl; try done.
  - by apply size_positions.
  - by apply size_list_to_set_nodup.
  - intros id Hid. specialize (E4 id). rewrite elem_of_elements, elem_of_list_to_set in E4.
    specialize (E4 Hid). apply negb_false_iff in E4.
    destruct (decide (id ∈ ids_of (st_items s))) as [?|Hn]; [done|].
    apply positions_None in Hn. by rewrite Hn in E4.
  - intros Hh. apply andb_false_iff in E6 as [E6|E6]; [apply Nat.ltb_ge in E6; lia|].
    by apply negb_false_iff in E6.
Qed.

Lemma restore_stored t : transcript_wf t →
  (∀ it, it ∈ take (t_hidden t) (t_items t) → item_id it ∈ t_model_ids t) →
  restore (stored_from t) =
  Ok (mkTranscript (t_generation t) (t_items t) (t_positions t) (t_model_order t)
        (t_model_ids t) (t_hidden t) (t_cut t) (t_has_more t) 0).
Proof.
  intros H Hvis. unfold restore, stored_from; simpl.
  rewrite <- (wf_positions t H), <- (wf_model_ids t H).
  match goal with |- (if ?b then _ else _) = _ => assert (b = false) as -> end; [|done].
  rewrite !orb_false_iff, !negb_false_iff, !any_false. split_and!.
  - apply Nat.ltb_ge, H.
  - apply Nat.eqb_eq. rewrite (wf_positions t H). apply size_positions, H.
  - apply Nat.eqb_eq. rewrite (wf_model_ids t H). apply size_list_to_set_nodup, H.
  - intros id. rewrite elem_of_elements, (wf_model_ids t H), elem_of_list_to_set.
    intros Hid%(wf_order_known t H). apply negb_false_iff.
    destruct (t_positions t !! id) eqn:E; [done|]. by apply wf_lookup_None in E.
  - intros it Hit. apply bool_decide_eq_false_2. naive_solver.
  - apply andb_false_iff. destruct (Nat.ltb_spec 0 (t_hidden t)) as [?|?]; [right|by left].
    apply negb_false_iff. by apply H.
Qed.

(** ** Windows and history *)

Lemma items_sublist t : items t `sublist_of` t_items t.
Proof. apply sublist_drop. Qed.

Lemma window_wf t start : transcript_wf t → transcript_wf (window t start).
Proof.
  intros H. assert (NoDup (ids_of (drop start (items t)))) as Hnd.
  { eapply sublist_NoDup; [apply H|]. apply fmap_sublist.
    unfold items. rewrite drop_drop. apply sublist_drop. }
  split; simpl; try done.
  - apply NoDup_retain, H.
  - intros id [_ Hin%bool_decide_eq_true_1]%elem_of_retain.
    destruct (decide (id ∈ ids_of (drop start (items t)))) as [?|Hn]; [done|].
    apply positions_None in Hn. rewrite Hn in Hin. by destruct Hin.
  - lia.
  - lia.
Qed.

(** ** Rewinding by ids cuts the client's view at the first dropped item *)

Lemma retain_dropped_suffix (pre suf : list Item) :
  NoDup (ids_of (pre ++ suf)) →
  retain (λ i, negb (is_dropped (ids_of suf) (item_id i))) (pre ++ suf) = pre.
Proof.
  rewrite fmap_app. intros (_ & Hd & _)%NoDup_app. rewrite retain_app.
  rewrite retain_all, retain_none, app_nil_r; [done| |].
  - intros it Hit. apply negb_false_iff, bool_decide_eq_true_2. by apply list_elem_of_fmap_2.
  - intros it Hit. apply negb_true_iff, bool_decide_eq_false_2.
    apply Hd. by apply list_elem_of_fmap_2.
Qed.

#[export] Hint Resolve transcript_new_wf set_generation_wf bump_wf delta_wf upsert_wf remove_wf
  compacted_wf transcript_apply_wf drop_before_cut_wf window_wf : bingo.

(** ** Deltas are superseded by the item they belong to *)

Definition forget_revision (t : Transcript) : Transcript :=
  mkTranscript (t_generation t) (t_items t) (t_positions t) (t_model_order t) (t_model_ids t)
               (t_hidden t) (t_cut t) (t_has_more t) 0.

(** A delta rewrites at most the body of the one item it names. *)
Lemma delta_cases t id kind data :
  (delta t id kind data).1 = t ∨
  ∃ at_ it, t_positions t !! id = Some at_ ∧
            (delta t id kind data).1 = set_items t (<[at_ := it]> (t_items t)).
Proof. unfold delta. repeat case_match; simpl; eauto. Qed.

Lemma upsert_set_items t item at_ x :
  t_positions t !! item_id item = Some at_ →
  upsert (set_items t (<[at_ := x]> (t_items t))) item = upsert t item.
Proof. intros H. unfold upsert; simpl. by rewrite H, list_insert_insert_eq. Qed.

Lemma forget_transcript_apply t e :
  forget_revision (transcript_apply t e).1 = forget_revision (change t e).1.
Proof. unfold transcript_apply. destruct (change t e) as [t' a]; simpl. by case_bool_decide. Qed.

Lemma change_forget t e :
  forget_revision (change t e).1 = (change (forget_revision t) e).1
  ∧ (change t e).2 = (change (forget_revision t) e).2.
Proof.
  destruct e; simpl; try done.
  all: unfold upsert, delta, compacted; simpl; repeat case_match; simplify_eq/=; done.
Qed.

Lemma upsert_delta t item n kind data :
  forget_revision (upsert (transcript_apply t (ItemDelta (item_id item) n kind data)).1 item).1 =
  forget_revision (upsert t item).1.
Proof.
  change (forget_revision (change (transcript_apply t (ItemDelta (item_id item) n kind data)).1
                             (ItemCompleted item)).1 =
          forget_revision (change t (ItemCompleted item)).1).
  rewrite (proj1 (change_forget (transcript_apply _ _).1 _)), forget_transcript_apply.
  rewrite <- (proj1 (change_forget (change t _).1 _)). simpl.
  destruct (delta_cases t (item_id item) kind data) as [->|(at_ & it & Hat & ->)]; [done|].
  by rewrite upsert_set_items.
Qed.

(** ** Theorems *)

Definition transcript_fold (t : Transcript) (es : list Event) : Transcript :=
  foldl (fun t e => (transcript_apply t e).1) t es.

Lemma transcript_fold_app t es es' :
  transcript_fold t (es ++ es') = transcript_fold (transcript_fold t es) es'.
Proof. unfold transcript_fold. apply foldl_app. Qed.

Lemma transcript_fold_wf t es : transcript_wf t → transcript_wf (transcript_fold t es).
Proof.
  revert t. induction es as [|e es IH]; intros t H; simpl; [done|].
  apply IH. by apply transcript_apply_wf.
Qed.

(** folding any sequence of events from an empty transcript keeps the id
    index exact, every id unique in both orders, the model order within the
    items and the hidden prefix in range, so no indexing of the source panics. *)
Theorem transcript_invariant (es : list Event) :
  let t := transcript_fold transcript_new es in
  transcript_wf t ∧
  (∀ id i, t_positions t !! id = Some i ↔ ∃ it, t_items t !! i = Some it ∧ item_id it = id) ∧
  (∀ id, id ∈ t_model_order t → ∃ it, get t id = Some it ∧ item_id it = id) ∧
  t_hidden t ≤ length (t_items t).
Proof.
  intros t. assert (transcript_wf t) as H by apply transcript_fold_wf, transcript_new_wf.
  split_and!; [done| | |apply H].
  - intros id i. by apply wf_lookup.
  - intros id Hid%(wf_order_known t H).
    apply list_elem_of_fmap in Hid as (it & -> & Hin). exists it. by rewrite get_spec.
Qed.

(** a checkpoint of a transcript released with [drop_before_cut] always
    restores, to the same transcript but for the cache revision; the release
    keeps every item the model reads and shows the client what followed the
    cut. *)
Theorem checkpoint_roundtrip (t : Transcript) (H : transcript_wf t) :
  let released := drop_before_cut t in
  restore (stored_from released) = Ok (forget_revision released) ∧
  model_items released = model_items t ∧
  items released = drop (cut_position t) (t_items t).
Proof.
  intros r. split_and!; [|by apply drop_before_cut_model|apply drop_before_cut_view].
  unfold r. rewrite restore_stored; [done|by apply drop_before_cut_wf|].
  intros it. destruct (drop_before_cut_items t) as [-> ->].
  rewrite take_app_length. destruct (drop_before_cut_frame t) as (_ & _ & -> & _).
  by intros [_ ?]%elem_of_model_prefix.
Qed.

(** a checkpoint the codec accepts is a well-formed transcript, whatever
    bytes it was read from. *)
Theorem restore_sound (s : Stored) (t : Transcript) (H : restore s = Ok t) :
  transcript_wf t ∧ stored_from t = s.
Proof. apply restore_Ok in H as [-> Hwf]. split; [done|]. by destruct s. Qed.

(** a compaction whose summary is not older than its boundary leaves the
    model the kept part of what preceded the boundary, then the summary, then
    everything from the boundary on, and the client's items untouched. *)
Theorem compaction_model_order (t : Transcript) (g : N) (boundary summary : ItemId)
    (kept head tail : list ItemId)
    (H : transcript_wf t)
    (Horder : t_model_order t = head ++ boundary :: tail)
    (Hsummary : summary ∉ head) :
  let t' := (transcript_apply t (Compacted g boundary summary kept)).1 in
  t_model_order t' =
    retain (fun id => bool_decide (id ∈ kept)) head
    ++ (if decide (summary ∈ boundary :: tail) then [summary] else [])
    ++ retain (fun id => negb (bool_decide (id = summary))) (boundary :: tail)
  ∧ items t' = items t ∧ t_generation t' = g ∧ t_cut t' = Some boundary.
Proof.
  pose proof (wf_order_nodup t H) as Hnd. rewrite Horder in Hnd.
  apply NoDup_app in Hnd as (Hh & Hd & Ht).
  assert (position (λ id, bool_decide (id = boundary)) (t_model_order t) = Some (length head)) as Hpos.
  { apply position_Some. exists boundary. rewrite Horder.
    rewrite list_lookup_middle by done. rewrite bool_decide_eq_true_2 by done.
    split_and!; [done..|]. intros j y Hj Hy. rewrite lookup_app_l in Hy by done.
    apply list_elem_of_lookup_2 in Hy. apply bool_decide_eq_false_2. set_solver. }
  assert (splice_rest (t_model_order t) summary =
          head ++ retain (λ id, negb (bool_decide (id = summary))) (boundary :: tail)) as Hrest.
  { rewrite Horder. by apply splice_rest_app. }
  unfold transcript_apply, change, compacted. simpl t_model_order. rewrite Hpos.
  rewrite splice_compaction_eq, Hrest. simpl. split_and!; [|done..].
  rewrite take_app_length, drop_app_length. f_equal. f_equal.
  rewrite Horder. destruct (decide (summary ∈ boundary :: tail)) as [?|?].
  - rewrite decide_True; [done|]. rewrite elem_of_app. by right.
  - rewrite decide_False; [done|]. rewrite elem_of_app. naive_solver.
Qed.

(** an item frame is authoritative over every delta before it: applying any
    run of deltas to an item and then its completion gives the transcript the
    completion alone gives (but for the cache revision), so deltas need not be
    journaled. *)
Theorem deltas_superseded (t : Transcript) (item : Item) (ds : list (N * DeltaKind * str)) :
  let deltas := (fun d : N * DeltaKind * str => ItemDelta (item_id item) d.1.1 d.1.2 d.2) <$> ds in
  forget_revision (transcript_fold t (deltas ++ [ItemCompleted item])) =
  forget_revision (transcript_fold t [ItemCompleted item]).
Proof.
  simpl. rewrite transcript_fold_app. simpl. rewrite !forget_transcript_apply. simpl.
  revert t. induction ds as [|[[n k] d] ds IH]; intros t; csimpl; [done|].
  rewrite IH. apply upsert_delta.
Qed.

(** ** Witnesses *)

Definition demo_item (id : str) (turn : option TurnId) (status : ItemStatus) (text : str) : Item :=
  mkItem id turn 0 status 0 None None (BAssistant text) [].

(** Three messages and a summary, compacted at the third message. *)
Definition demo_transcript : Transcript :=
  transcript_fold transcript_new
    [ItemCompleted (demo_item (lit "i1") (Some (lit "t1")) Completed (lit "a"));
     ItemCompleted (demo_item (lit "i2") (Some (lit "t1")) Completed (lit "b"));
     ItemCompleted (demo_item (lit "i3") (Some (lit "t2")) Completed (lit "c"));
     ItemCompleted (demo_item (lit "sum") None Completed (lit "s"));
     Compacted 1 (lit "i3") (lit "sum") [lit "i2"]].

Lemma demo_transcript_wf : transcript_wf demo_transcript.
Proof. apply transcript_fold_wf, transcript_new_wf. Qed.

Lemma checkpoint_roundtrip_witness :
  transcript_wf demo_transcript ∧
  ids_of (items (drop_before_cut demo_transcript)) = [lit "i3"; lit "sum"] ∧
  restore (stored_from (drop_before_cut demo_transcript)) =
    Ok (forget_revision (drop_before_cut demo_transcript)).
Proof.
  split; [apply demo_transcript_wf|]. split; [by vm_compute|].
  apply (checkpoint_roundtrip demo_transcript demo_transcript_wf).
Defined.

Lemma restore_sound_witness :
  ∃ t, restore (stored_from transcript_new) = Ok t ∧ transcript_wf t.
Proof.
  exists transcript_new. split; [by vm_compute|].
  apply (restore_sound (stored_from transcript_new) transcript_new). by vm_compute.
Defined.

Definition demo_before : Transcript :=
  transcript_fold transcript_new
    [ItemCompleted (demo_item (lit "i1") None Completed (lit "a"));
     ItemCompleted (demo_item (lit "i2") None Completed (lit "b"));
     ItemCompleted (demo_item (lit "sum") None Completed (lit "s"))].

Lemma demo_before_wf : transcript_wf demo_before.
Proof. apply transcript_fold_wf, transcript_new_wf. Qed.

Lemma compaction_model_order_witness :
  t_model_order (transcript_apply demo_before (Compacted 1 (lit "i2") (lit "sum") [])).1 =
  [lit "sum"; lit "i2"].
Proof.
  destruct (compaction_model_order demo_before 1 (lit "i2") (lit "sum") [] [lit "i1"] [lit "sum"]
              demo_before_wf) as [-> _].
  - by vm_compute.
  - apply (bool_decide_unpack _). by vm_compute.
  - by vm_compute.
Defined.
