(* ===== verification/State.v ===== *)
(** * State: the one reducer

    [bingo-sdk/src/state.rs].  The kernel keeps its snapshot with
    [SessionState::apply] and every client folds frames with it.  [apply]
    returns the next state and what changed.  Besides the handlers the file
    proves what the journal relies on: folding only the durable frames
    rebuilds everything but live-only state, and frames delivered twice change
    nothing. *)

From S2P Require Import Prelude Text Model Interaction Event Transcript.

(** ** Data *)

Record Retry := mkRetry {
  retry_attempt : N;
  retry_max : N;
  retry_delay_ms : N;
  retry_reason : str;
  retry_started_at : Timestamp;
}.

Record LiveTurn := mkLiveTurn {
  lt_id : TurnId;
  lt_started_at : Timestamp;
  lt_origin : TurnOrigin;
  lt_round : N;
  lt_usage : Usage;
  lt_retrying : option Retry;
}.

Record LastTurn := mkLastTurn {
  la_id : TurnId;
  la_status : TurnStatus;
  la_started_at : Timestamp;
  la_ended_at : Timestamp;
  la_usage : Usage;
}.

Record LiveSignal := mkLiveSignal {
  ls_generation : option ItemId;
  ls_payload : Value;
}.

Record SessionState := mkSessionState {
  st_seq : Seq;
  st_summary : SessionSummary;
  st_config : ConfigView;
  st_transcript : Transcript;
  st_turn : option LiveTurn;
  st_queue : list QueueEntry;
  st_interactions : list Interaction;
  st_context : option ContextUsage;
  st_last_turn : option LastTurn;
  st_unread : bool;
  st_closed : bool;
  st_extensions : gmap str (gmap str Value);
  st_invalidated : gmap str N;
  st_signals : gmap str (gmap str LiveSignal);
}.

Definition state_new (summary : SessionSummary) : SessionState :=
  mkSessionState seq_zero summary config_default transcript_new None [] [] None None
                 false false ∅ ∅ ∅.

Definition attention (s : SessionState) : bool :=
  match st_interactions s with
  | _ :: _ => true
  | [] => negb (option_is_some (st_turn s)) && st_unread s
  end.

Definition busy (s : SessionState) : bool := option_is_some (st_turn s).
Definition last_status (s : SessionState) : option TurnStatus := la_status <$> st_last_turn s.

(** ** Field updates *)

Definition set_seq (q : Seq) (s : SessionState) : SessionState :=
  let '(mkSessionState _ b c d e f g h i j k l m n) := s in
  mkSessionState q b c d e f g h i j k l m n.
Definition set_summary (x : SessionSummary) (s : SessionState) : SessionState :=
  let '(mkSessionState a _ c d e f g h i j k l m n) := s in
  mkSessionState a x c d e f g h i j k l m n.
Definition set_config (x : ConfigView) (s : SessionState) : SessionState :=
  let '(mkSessionState a b _ d e f g h i j k l m n) := s in
  mkSessionState a b x d e f g h i j k l m n.
Definition set_transcript (x : Transcript) (s : SessionState) : SessionState :=
  let '(mkSessionState a b c _ e f g h i j k l m n) := s in
  mkSessionState a b c x e f g h i j k l m n.
Definition set_turn (x : option LiveTurn) (s : SessionState) : SessionState :=
  let '(mkSessionState a b c d _ f g h i j k l m n) := s in
  mkSessionState a b c d x f g h i j k l m n.
Definition set_queue (x : list QueueEntry) (s : SessionState) : SessionState :=
  let '(mkSessionState a b c d e _ g h i j k l m n) := s in
  mkSessionState a b c d e x g h i j k l m n.
Definition set_interactions (x : list Interaction) (s : SessionState) : SessionState :=
  let '(mkSessionState a b c d e f _ h i j k l m n) := s in
  mkSessionState a b c d e f x h i j k l m n.
Definition set_context (x : option ContextUsage) (s : SessionState) : SessionState :=
  let '(mkSessionState a b c d e f g _ i j k l m n) := s in
  mkSessionState a b c d e f g x i j k l m n.
Definition set_last_turn (x : option LastTurn) (s : SessionState) : SessionState :=
  let '(mkSessionState a b c d e f g h _ j k l m n) := s in
  mkSessionState a b c d e f g h x j k l m n.
Definition set_unread (x : bool) (s : SessionState) : SessionState :=
  let '(mkSessionState a b c d e f g h i _ k l m n) := s in
  mkSessionState a b c d e f g h i x k l m n.
Definition set_closed (x : bool) (s : SessionState) : SessionState :=
  let '(mkSessionState a b c d e f g h i j _ l m n) := s in
  mkSessionState a b c d e f g h i j x l m n.
Definition set_extensions (x : gmap str (gmap str Value)) (s : SessionState) : SessionState :=
  let '(mkSessionState a b c d e f g h i j k _ m n) := s in
  mkSessionState a b c d e f g h i j k x m n.
Definition set_invalidated (x : gmap str N) (s : SessionState) : SessionState :=
  let '(mkSessionState a b c d e f g h i j k l _ n) := s in
  mkSessionState a b c d e f g h i j k l x n.
Definition set_signals (x : gmap str (gmap str LiveSignal)) (s : SessionState) : SessionState :=
  let '(mkSessionState a b c d e f g h i j k l m _) := s in
  mkSessionState a b c d e f g h i j k l m x.

Definition with_history_of (h : SessionHistory) (x : SessionSummary) : SessionSummary :=
  mkSessionSummary (ss_id x) (ss_key x) (ss_title x) (ss_cwd x) (ss_parent x) (ss_driver x)
    (ss_choice x) (ss_system_extra x) (ss_tools x) (ss_provider x) (ss_created_at x)
    (ss_updated_at x) (ss_usage x) (ss_busy x) (ss_asking x) h.
Definition with_usage (u : Usage) (x : SessionSummary) : SessionSummary :=
  mkSessionSummary (ss_id x) (ss_key x) (ss_title x) (ss_cwd x) (ss_parent x) (ss_driver x)
    (ss_choice x) (ss_system_extra x) (ss_tools x) (ss_provider x) (ss_created_at x)
    (ss_updated_at x) u (ss_busy x) (ss_asking x) (ss_history x).
Definition with_retrying (r : option Retry) (t : LiveTurn) : LiveTurn :=
  mkLiveTurn (lt_id t) (lt_started_at t) (lt_origin t) (lt_round t) (lt_usage t) r.

(** ** Handlers, one per event *)

Definition mark_read (s : SessionState) : SessionState := set_unread false s.

Definition invalidate_one (m : gmap str N) (request : str) : gmap str N :=
  <[request := u64_saturating_add (default 0%N (m !! request)) 1]> m.
Definition invalidate (requests : list str) (s : SessionState) : SessionState * Applied :=
  (set_invalidated (foldl invalidate_one (st_invalidated s) requests) s, ASignal).

(** Remove one kind of a plugin's slice, and the slice with its last kind. *)
Definition remove_kind {V} (plugin kind : str) (m : gmap str (gmap str V)) : gmap str (gmap str V) :=
  match m !! plugin with
  | None => m
  | Some kinds =>
      let kinds := delete kind kinds in
      if bool_decide (kinds = ∅) then delete plugin m else <[plugin := kinds]> m
  end.
Definition insert_kind {V} (plugin kind : str) (v : V) (m : gmap str (gmap str V))
    : gmap str (gmap str V) :=
  <[plugin := <[kind := v]> (default ∅ (m !! plugin))]> m.

Definition extended (plugin kind : str) (payload : Value) (s : SessionState)
    : SessionState * Applied :=
  let ext := st_extensions s in
  (set_extensions (if is_null payload then remove_kind plugin kind ext
                   else insert_kind plugin kind payload ext) s, AExtension).

Definition signalled (plugin kind : str) (payload : Value) (generation : option ItemId)
    (s : SessionState) : SessionState * Applied :=
  if is_null payload then
    match st_signals s !! plugin with
    | Some kinds =>
        let owner := kinds !! kind ≫= ls_generation in
        if match generation with
           | Some id => negb (bool_decide (owner = Some id))
           | None => false
           end
        then (s, ANothing)
        else (set_signals (remove_kind plugin kind (st_signals s)) s, ASignal)
    | None => (s, ASignal)
    end
  else
    (set_signals (insert_kind plugin kind (mkLiveSignal generation payload) (st_signals s)) s,
     ASignal).

Definition count_a_message (e : Event) (s : SessionState) : SessionState :=
  let h := ss_history (st_summary s) in
  let ask := match first_ask h, e with
             | None, ItemCompleted item => first_ask_of item
             | a, _ => a
             end in
  set_summary (with_history_of
    (mkSessionHistory ask (forked_from h) (Some (u64_add (default 0%N (messages h)) 1)))
    (st_summary s)) s.

Definition session_updated (summary : SessionSummary) (s : SessionState) : SessionState * Applied :=
  let ask := option_or (first_ask (ss_history (st_summary s))) (first_ask (ss_history summary)) in
  let h := ss_history summary in
  (set_closed false
     (set_summary (with_history_of (mkSessionHistory ask (forked_from h) (messages h)) summary) s),
   ASession).

Definition session_closed (s : SessionState) : SessionState * Applied :=
  (set_interactions [] (set_turn None (set_closed true s)), ASession).

Definition turn_started (turn : TurnId) (origin : TurnOrigin) (started_at : Timestamp)
    (s : SessionState) : SessionState * Applied :=
  (set_turn (Some (mkLiveTurn turn started_at origin 0 usage_default None)) s, ATurn).

Definition answers_again (b : ItemBody) : bool :=
  match b with
  | BAssistant _ | BReasoning _ _ | BToolCall _ _ _ _ _ _ _ _ _ _ => true
  | _ => false
  end.
Definition item_started (item : Item) (applied : Applied) (s : SessionState)
    : SessionState * Applied :=
  (match st_turn s with
   | Some turn =>
       if answers_again (item_body item) && bool_decide (item_turn item = Some (lt_id turn))
       then set_turn (Some (with_retrying None turn)) s
       else s
   | None => s
   end, applied).

Definition turn_retrying (attempt max delay_ms : N) (reason : str) (ts : Timestamp)
    (s : SessionState) : SessionState * Applied :=
  (match st_turn s with
   | Some turn =>
       set_turn (Some (with_retrying (Some (mkRetry attempt max delay_ms reason ts)) turn)) s
   | None => s
   end, ATurn).

Definition usage_charged (turn : option TurnId) (usage : Usage) (s : SessionState)
    : SessionState * Applied :=
  let s' := match st_turn s with
            | Some live =>
                if bool_decide (Some (lt_id live) = turn)
                then set_turn (Some (mkLiveTurn (lt_id live) (lt_started_at live) (lt_origin live)
                       (lt_round live) (usage_add (lt_usage live) usage) (lt_retrying live))) s
                else s
            | None => s
            end in
  (set_summary (with_usage (usage_add (ss_usage (st_summary s)) usage) (st_summary s)) s', ATurn).

Definition turn_usage (usage : Usage) (context : ContextUsage) (s : SessionState)
    : SessionState * Applied :=
  let s' := match st_turn s with
            | Some live =>
                set_turn (Some (mkLiveTurn (lt_id live) (lt_started_at live) (lt_origin live)
                  (u32_add (lt_round live) 1) (usage_add (lt_usage live) usage) None)) s
            | None => s
            end in
  (set_context (Some context)
     (set_summary (with_usage (usage_add (ss_usage (st_summary s)) usage) (st_summary s)) s'),
   ATurn).

Definition context_changed (context : option ContextUsage) (s : SessionState)
    : SessionState * Applied := (set_context context s, ASession).

Definition turn_completed (turn : TurnId) (status : TurnStatus) (usage : Usage)
    (ended_at : Timestamp) (s : SessionState) : SessionState * Applied :=
  let started_at := match st_turn s with
                    | Some live => if bool_decide (lt_id live = turn) then lt_started_at live
                                   else ended_at
                    | None => ended_at
                    end in
  (set_unread true
     (set_last_turn (Some (mkLastTurn turn status started_at ended_at usage))
        (set_turn None s)), ATurn).

Definition rewound (applied : Applied) (s : SessionState) : SessionState * Applied :=
  let kept turn := any (fun i => bool_decide (item_turn i = Some (la_id turn)))
                       (items (st_transcript s)) in
  (match st_last_turn s with
   | Some turn => if kept turn then s else set_last_turn None s
   | None => s
   end, applied).

Definition queue_changed (entries : list QueueEntry) (s : SessionState) : SessionState * Applied :=
  (set_queue entries s, AQueue).

Definition interaction_opened (i : Interaction) (s : SessionState) : SessionState * Applied :=
  (set_interactions
     (retain (fun o => negb (bool_decide (int_id o = int_id i))) (st_interactions s) ++ [i]) s,
   AInteraction (int_id i)).

Definition interaction_closed (id : InteractionId) (s : SessionState) : SessionState * Applied :=
  (set_interactions (retain (fun o => negb (bool_decide (int_id o = id))) (st_interactions s)) s,
   AInteraction id).

Definition config_changed (config : ConfigView) (s : SessionState) : SessionState * Applied :=
  (set_config config s, AConfig).

(** ** The reducer *)

(** What an admitted event does, past the sequence check. *)
Definition apply_event (e : Event) (ts : Timestamp) (s0 : SessionState) : SessionState * Applied :=
  let s1 := if completes_a_message e then count_a_message e s0 else s0 in
  let '(t, applied) := transcript_apply (st_transcript s1) e in
  let s := set_transcript t s1 in
  match e with
  | SessionUpdated summary => session_updated summary s
  | SessionClosed _ => session_closed s
  | TurnStarted turn _ origin => turn_started turn origin ts s
  | TurnRetrying _ attempt max delay_ms _ reason => turn_retrying attempt max delay_ms reason ts s
  | TurnUsage _ usage context => turn_usage usage context s
  | ContextChanged context => context_changed context s
  | UsageCharged turn _ usage => usage_charged turn usage s
  | TurnCompleted turn status usage => turn_completed turn status usage ts s
  | ItemStarted item => item_started item applied s
  | ItemUpdated _ | ItemCompleted _ | ItemDelta _ _ _ _ | Compacted _ _ _ _ => (s, applied)
  | QueueChanged _ entries => queue_changed entries s
  | InteractionOpened interaction => interaction_opened interaction s
  | InteractionResolved id _ _ => interaction_closed id s
  | InteractionCancelled id _ => interaction_closed id s
  | IntentAck intent _ => (s, AIntent intent)
  | Rewound _ _ _ _ => rewound applied s
  | ConfigChanged config => config_changed config s
  | CatalogChanged _ | UnknownEvent _ => (s, ANothing)
  | Notice _ _ _ => (s, ANotice)
  | Extension plugin kind payload => extended plugin kind payload s
  | Signal generation plugin kind payload => signalled plugin kind payload generation s
  | Invalidated requests => invalidate requests s
  | Lagged _ _ => (s, ALagged)
  end.

Definition is_lagged (e : Event) : bool := match e with Lagged _ _ => true | _ => false end.

Definition apply (s : SessionState) (frame : Frame) : SessionState * Applied :=
  if is_lagged (fr_event frame) then (s, ALagged)
  else if (fr_seq frame <=? st_seq s)%N && negb (st_seq s =? seq_zero)%N then (s, AStale)
  else apply_event (fr_event frame) (fr_ts frame) (set_seq (fr_seq frame) s).

Definition fold_frames (s : SessionState) (frames : list Frame) : SessionState :=
  foldl (fun s f => (apply s f).1) s frames.

(** ** The durable part of a state

    What a journal can rebuild: everything but the sequence number of the last
    frame, the live signals, the invalidation counters, the text streamed into
    items that have not ended, and the transcript's cache revision. *)

Definition strip_body (b : ItemBody) : ItemBody :=
  match b with
  | BAssistant _ => BAssistant []
  | BReasoning _ meta => BReasoning [] meta
  | BToolCall al asked began cid name input output _ dur q =>
      BToolCall al asked began cid name input output None dur q
  | b => b
  end.

Definition durable_item (i : Item) : Item :=
  if is_terminal i then i else with_body i (strip_body (item_body i)).

Definition durable_transcript (t : Transcript) : Transcript :=
  forget_revision (set_items t (durable_item <$> t_items t)).

Definition durable_state (s : SessionState) : SessionState :=
  set_seq 0 (set_signals ∅ (set_invalidated ∅
    (set_transcript (durable_transcript (st_transcript s)) s))).

(** Frames as a session publishes them: sequence numbers strictly increase. *)
Fixpoint increasing (from : Seq) (frames : list Frame) : Prop :=
  match frames with
  | [] => True
  | f :: frames' => (from < fr_seq f)%N ∧ increasing (fr_seq f) frames'
  end.

Definition durable_frames (frames : list Frame) : list Frame :=
  retain (fun f => is_durable (fr_event f)) frames.

(** *** Items and transcripts *)

Lemma durable_item_id i : item_id (durable_item i) = item_id i.
Proof. unfold durable_item. by destruct (is_terminal i). Qed.

Lemma durable_item_turn i : item_turn (durable_item i) = item_turn i.
Proof. unfold durable_item. by destruct (is_terminal i). Qed.

Lemma durable_item_terminal i : is_terminal (durable_item i) = is_terminal i.
Proof. unfold durable_item, is_terminal. by case_match. Qed.

Lemma strip_body_idemp b : strip_body (strip_body b) = strip_body b.
Proof. by destruct b. Qed.

Lemma durable_item_idemp i : durable_item (durable_item i) = durable_item i.
Proof.
  unfold durable_item at 1. rewrite durable_item_terminal.
  unfold durable_item. destruct (is_terminal i); [done|]. destruct i; simpl.
  unfold with_body; simpl. by rewrite strip_body_idemp.
Qed.

Lemma durable_items_idemp (l : list Item) :
  durable_item <$> (durable_item <$> l) = durable_item <$> l.
Proof. rewrite <- list_fmap_compose. apply list_fmap_ext. intros; apply durable_item_idemp. Qed.

Lemma retain_durable (p : str → bool) (l : list Item) :
  durable_item <$> retain (λ i, p (item_id i)) l =
  retain (λ i, p (item_id i)) (durable_item <$> l).
Proof.
  induction l as [|x l IH]; csimpl; [done|]. rewrite durable_item_id.
  destruct (p (item_id x)); csimpl; by rewrite IH.
Qed.

Lemma ids_durable (l : list Item) : ids_of (durable_item <$> l) = ids_of l.
Proof. rewrite <- list_fmap_compose. apply list_fmap_ext. intros; apply durable_item_id. Qed.

Lemma any_turn_durable turn (l : list Item) :
  any (λ i, bool_decide (item_turn i = turn)) (durable_item <$> l) =
  any (λ i, bool_decide (item_turn i = turn)) l.
Proof. induction l as [|x l IH]; csimpl; [done|]. by rewrite durable_item_turn, IH. Qed.

Lemma durable_upsert t item :
  durable_transcript (upsert t item).1 = durable_transcript (upsert (durable_transcript t) item).1.
Proof.
  unfold upsert; simpl. rewrite length_fmap.
  destruct (t_positions t !! item_id item); case_bool_decide; unfold durable_transcript; simpl;
    unfold forget_revision, set_items; simpl; f_equal.
  all: rewrite ?list_fmap_insert, ?fmap_app, ?durable_items_idemp; done.
Qed.

Lemma durable_remove t dropped :
  durable_transcript (remove t dropped) =
  durable_transcript (remove (durable_transcript t) dropped).
Proof.
  unfold durable_transcript, remove, forget_revision, set_items; simpl.
  pose proof (retain_durable (λ id, negb (is_dropped dropped id))) as Hr. simpl in Hr.
  pose proof (retain_durable (is_dropped dropped)) as Hr'.
  f_equal.
  - by rewrite !Hr, durable_items_idemp.
  - apply positions_ids. by rewrite <- Hr, ids_durable.
  - by rewrite <- fmap_take, <- Hr', length_fmap.
Qed.

Lemma durable_set_generation t g :
  durable_transcript (set_generation t g) = set_generation (durable_transcript t) g.
Proof. done. Qed.

Lemma durable_compacted t boundary summary kept :
  durable_transcript (compacted t boundary summary kept) =
  durable_transcript (compacted (durable_transcript t) boundary summary kept).
Proof.
  unfold compacted; simpl. case_match; unfold durable_transcript, forget_revision, set_items; simpl;
    by rewrite durable_items_idemp.
Qed.

Lemma durable_transcript_idemp t :
  durable_transcript (durable_transcript t) = durable_transcript t.
Proof. unfold durable_transcript, forget_revision, set_items; simpl. by rewrite durable_items_idemp. Qed.

Lemma durable_transcript_apply t e :
  durable_transcript (transcript_apply t e).1 = durable_transcript (change t e).1
  ∧ (transcript_apply t e).2 = (change t e).2.
Proof. unfold transcript_apply. destruct (change t e); simpl. split; [|done]. by case_bool_decide. Qed.

(** A delta touches nothing durable. *)
Lemma durable_delta t id kind data :
  durable_transcript (delta t id kind data).1 = durable_transcript t.
Proof.
  unfold delta. destruct (t_positions t !! id) as [i|]; [|done].
  destruct (t_items t !! i) as [it|] eqn:Hi; [|done].
  destruct (is_terminal it) eqn:Ht; [done|].
  destruct (delta_body (item_body it) kind data) as [b|] eqn:Hb; [|done].
  unfold durable_transcript, forget_revision, set_items; simpl. f_equal.
  rewrite list_fmap_insert. apply list_insert_id. rewrite list_lookup_fmap, Hi. simpl. f_equal.
  unfold durable_item. replace (is_terminal (with_body it b)) with (is_terminal it) by done.
  rewrite Ht. unfold with_body; simpl. f_equal. by destruct (item_body it), kind; simplify_eq/=.
Qed.

(** The durable part of a transcript after a durable event is a function of its
    durable part before. *)
Lemma durable_change t e : is_durable e = true →
  durable_transcript (change t e).1 = durable_transcript (change (durable_transcript t) e).1
  ∧ (change t e).2 = (change (durable_transcript t) e).2.
Proof.
  intros He. destruct e; simpl in *; try done.
  all: try (split; [by rewrite durable_transcript_idemp|done]).
  all: split; try done.
  all: rewrite <- ?durable_set_generation.
  all: first [apply durable_upsert | apply durable_remove | apply durable_compacted | idtac].
  all: unfold upsert; simpl; rewrite length_fmap; by repeat case_match.
Qed.

Lemma durable_ephemeral_change t e : is_durable e = false →
  durable_transcript (change t e).1 = durable_transcript t.
Proof. destruct e; simpl; try done. intros _. apply durable_delta. Qed.

(** *** States *)

Lemma durable_state_idemp s : durable_state (durable_state s) = durable_state s.
Proof.
  destruct s. unfold durable_state; simpl. by rewrite durable_transcript_idemp.
Qed.

Lemma durable_state_seq q s : durable_state (set_seq q s) = durable_state s.
Proof. by destruct s. Qed.

Lemma durable_transcript_items t1 t2 turn :
  durable_transcript t1 = durable_transcript t2 →
  any (λ i, bool_decide (item_turn i = turn)) (items t1) =
  any (λ i, bool_decide (item_turn i = turn)) (items t2).
Proof.
  intros H. assert (t_hidden t1 = t_hidden t2) as Hh by exact (f_equal t_hidden H).
  pose proof (f_equal t_items H) as Hi. simpl in Hi. unfold items.
  rewrite <- (any_turn_durable _ (drop _ _)), fmap_drop, Hi, <- fmap_drop, Hh.
  apply any_turn_durable.
Qed.

Lemma durable_apply_event e ts s : is_durable e = true →
  durable_state (apply_event e ts s).1 = durable_state (apply_event e ts (durable_state s)).1.
Proof.
  intros He. unfold apply_event.
  set (c := if completes_a_message e then count_a_message e s else s).
  set (c' := if completes_a_message e then count_a_message e (durable_state s) else durable_state s).
  assert (c' = durable_state c) as Hc.
  { unfold c, c', count_a_message, durable_state. destruct s. by destruct (completes_a_message e). }
  rewrite Hc. clearbody c. clear Hc c' s. destruct c as [q sm cf t tu qu ia cx la un cl ex iv sg].
  destruct (durable_transcript_apply t e) as [H1 H1'].
  destruct (durable_transcript_apply (durable_transcript t) e) as [H2 H2'].
  destruct (durable_change t e He) as [H3 H3'].
  simpl st_transcript in *. rewrite H3, <- H2 in H1. rewrite H3', <- H2' in H1'. clear H2 H2' H3 H3'.
  destruct (transcript_apply t e) as [t1 a1] eqn:E1.
  destruct (transcript_apply (durable_transcript t) e) as [t2 a2] eqn:E2.
  simpl in H1, H1'. subst a2. clear E1 E2.
  destruct e; try done; unfold durable_state; simpl; rewrite ?H1; try done.
  all: destruct tu as [live|]; simpl; rewrite ?H1; try done.
  - by destruct (bool_decide _); simpl; rewrite H1.
  - destruct (_ && _); simpl; by rewrite H1.
  - unfold rewound; simpl. destruct la as [turn|]; simpl; [|by rewrite H1].
    rewrite (durable_transcript_items _ _ _ H1). by destruct (any _ _); simpl; rewrite H1.
  - unfold rewound; simpl. destruct la as [turn|]; simpl; [|by rewrite H1].
    rewrite (durable_transcript_items _ _ _ H1). by destruct (any _ _); simpl; rewrite H1.
Qed.

Lemma durable_ephemeral_event e ts s : is_durable e = false →
  durable_state (apply_event e ts s).1 = durable_state s.
Proof.
  intros He. unfold apply_event.
  replace (completes_a_message e) with false by (by destruct e). simpl.
  pose proof (proj1 (durable_transcript_apply (st_transcript s) e)) as H.
  rewrite (durable_ephemeral_change _ e He) in H.
  destruct (transcript_apply (st_transcript s) e) as [t a]. simpl in H. destruct s.
  destruct e; try done; unfold durable_state; simpl st_transcript in H; simpl; rewrite ?H; try done.
  unfold signalled; simpl. repeat case_match; simpl; by rewrite H.
Qed.

(** *** The sequence check *)

(** Evaluate the reducer on each kind of event, for goals that read one field
    of the result. *)
Ltac by_event s e :=
  unfold apply_event; destruct (completes_a_message e) eqn:?;
  destruct (transcript_apply _ e) as [? ?]; destruct s; destruct e; simpl; try done;
  unfold turn_retrying, turn_usage, usage_charged, turn_completed, item_started, rewound,
    signalled, session_updated; simpl;
  repeat case_match; simplify_eq/=; try done.

Lemma apply_event_seq e ts s : st_seq (apply_event e ts s).1 = st_seq s.
Proof. by_event s e. Qed.

Lemma apply_admitted s f : (st_seq s < fr_seq f)%N → is_lagged (fr_event f) = false →
  apply s f = apply_event (fr_event f) (fr_ts f) (set_seq (fr_seq f) s).
Proof.
  intros Hlt Hl. unfold apply. rewrite Hl.
  destruct (N.leb_spec (fr_seq f) (st_seq s)); [lia|done].
Qed.

Lemma apply_stale s f : (fr_seq f ≤ st_seq s)%N → st_seq s ≠ 0%N → (apply s f).1 = s.
Proof.
  intros Hle Hne. unfold apply. destruct (is_lagged _); [done|].
  destruct (N.leb_spec (fr_seq f) (st_seq s)); [|lia].
  destruct (N.eqb_spec (st_seq s) seq_zero); [done|done].
Qed.

Lemma set_seq_seq q s : st_seq (set_seq q s) = q.
Proof. by destruct s. Qed.

Lemma apply_seq s f : (st_seq s < fr_seq f)%N →
  st_seq (apply s f).1 = if is_lagged (fr_event f) then st_seq s else fr_seq f.
Proof.
  intros Hlt. destruct (is_lagged (fr_event f)) eqn:E.
  - unfold apply. by rewrite E.
  - rewrite apply_admitted by done. by rewrite apply_event_seq, set_seq_seq.
Qed.

Lemma apply_seq_le s f : (st_seq s < fr_seq f)%N → (st_seq (apply s f).1 ≤ fr_seq f)%N.
Proof. intros H. rewrite apply_seq by done. case_match; lia. Qed.

Lemma increasing_weaken a b fs : (a ≤ b)%N → increasing b fs → increasing a fs.
Proof. destruct fs as [|f fs]; simpl; [done|]. intros ? [? ?]. split; [lia|done]. Qed.

Lemma increasing_retain p a fs : increasing a fs → increasing a (retain p fs).
Proof.
  revert a. induction fs as [|f fs IH]; intros a; simpl; [done|]. intros [Hlt Hi].
  destruct (p f); simpl; [by split; [|apply IH]|].
  apply IH. eapply increasing_weaken; [|done]. lia.
Qed.

Lemma increasing_app a fs gs : increasing a (fs ++ gs) →
  increasing a fs ∧ ∀ b, (∀ f, f ∈ fs → (fr_seq f ≤ b)%N) → (∀ g, g ∈ gs → (b < fr_seq g)%N) →
  increasing b gs.
Proof.
  revert a. induction fs as [|f fs IH]; simpl; intros a.
  - intros H. split; [done|]. intros b _ Hb. destruct gs as [|g gs]; simpl in *; [done|].
    split; [apply Hb; by left|apply H].
  - intros [? [H1 H2]%IH]. split; [done|]. intros b Hb. apply H2. intros g Hg. apply Hb. by right.
Qed.

Lemma increasing_all a fs f : increasing a fs → f ∈ fs → (a < fr_seq f)%N.
Proof.
  revert a. induction fs as [|g fs IH]; intros a; simpl; [by intros _ []%elem_of_nil|].
  intros [Hlt Hi] [->|Hf]%elem_of_cons; [done|]. specialize (IH _ Hi Hf). lia.
Qed.

Lemma fold_frames_app s fs gs : fold_frames s (fs ++ gs) = fold_frames (fold_frames s fs) gs.
Proof. unfold fold_frames. apply foldl_app. Qed.

(** Two states with the same durable part stay so over the durable frames of a
    stream, whichever of its ephemeral frames each of them saw. *)
Lemma durable_fold fs s1 s2 :
  durable_state s1 = durable_state s2 →
  increasing (st_seq s1) fs → increasing (st_seq s2) fs →
  durable_state (fold_frames s1 fs) = durable_state (fold_frames s2 (durable_frames fs)).
Proof.
  revert s1 s2. induction fs as [|f fs IH]; intros s1 s2 Hs; simpl; [done|].
  intros [H1 Hi] [H2 _].
  pose proof (apply_seq_le s1 f H1) as L1.
  destruct (is_durable (fr_event f)) eqn:Hd; simpl.
  - assert (is_lagged (fr_event f) = false) as Hl by (by destruct (fr_event f)).
    pose proof (apply_seq_le s2 f H2) as L2.
    apply IH; [|eapply increasing_weaken; done|eapply increasing_weaken; done].
    rewrite !apply_admitted by done.
    rewrite (durable_apply_event _ _ (set_seq _ s1)), (durable_apply_event _ _ (set_seq _ s2)) by done.
    by rewrite !durable_state_seq, Hs.
  - apply IH; [|eapply increasing_weaken; done|eapply increasing_weaken; [|done]; lia].
    rewrite <- Hs. destruct (is_lagged (fr_event f)) eqn:Hl.
    + unfold apply. by rewrite Hl.
    + rewrite apply_admitted by done.
      by rewrite durable_ephemeral_event, durable_state_seq.
Qed.

(** *** Duplicates *)

Lemma stale_fold s fs : st_seq s ≠ 0%N → (∀ f, f ∈ fs → (fr_seq f ≤ st_seq s)%N) →
  fold_frames s fs = s.
Proof.
  intros Hne. induction fs as [|f fs IH]; simpl; intros H; [done|].
  rewrite apply_stale; [|by apply H; left|done]. apply IH. intros g Hg. apply H. by right.
Qed.

Lemma fold_seq_max s fs : increasing (st_seq s) fs → (∀ f, f ∈ fs → is_lagged (fr_event f) = false) →
  ∀ f, f ∈ fs → (fr_seq f ≤ st_seq (fold_frames s fs))%N.
Proof.
  revert s. induction fs as [|g fs IH]; intros s; simpl; [by intros _ _ f []%elem_of_nil|].
  intros [Hlt Hi] Hl. assert (st_seq (apply s g).1 = fr_seq g) as Hg.
  { rewrite apply_seq, Hl by (done || by left). done. }
  assert (∀ f, f ∈ fs → (fr_seq f ≤ st_seq (fold_frames (apply s g).1 fs))%N) as Hrest.
  { apply IH; [by rewrite Hg|]. intros f Hf. apply Hl. by right. }
  intros f [->|Hf]%elem_of_cons; [|by apply Hrest].
  destruct fs as [|h fs]; [by simpl; rewrite Hg|].
  assert (fr_seq h ≤ st_seq (fold_frames (apply s g).1 (h :: fs)))%N by (apply Hrest; by left).
  destruct Hi as [Hgh _]. lia.
Qed.

(** ** Plugin state *)

Definition kind_of {V} (m : gmap str (gmap str V)) (plugin kind : str) : option V :=
  let? kinds := m !! plugin in kinds !! kind.

Definition no_empty_slice {V} (m : gmap str (gmap str V)) : Prop :=
  ∀ plugin, m !! plugin ≠ Some ∅.

Lemma kind_of_insert {V} (p k : str) (v : V) m (p' k' : str) :
  kind_of (insert_kind p k v m) p' k' =
  if decide (p' = p ∧ k' = k) then Some v else kind_of m p' k'.
Proof.
  unfold kind_of, insert_kind. destruct (decide (p' = p)) as [->|Hp].
  - rewrite lookup_insert_eq. simpl. destruct (decide (k' = k)) as [->|Hk].
    + rewrite lookup_insert_eq. by rewrite decide_True.
    + rewrite lookup_insert_ne by done. rewrite decide_False by naive_solver.
      by destruct (m !! p).
  - rewrite lookup_insert_ne by done. by rewrite decide_False by naive_solver.
Qed.

Lemma kind_of_remove {V} (p k : str) (m : gmap str (gmap str V)) (p' k' : str) :
  kind_of (remove_kind p k m) p' k' =
  if decide (p' = p ∧ k' = k) then None else kind_of m p' k'.
Proof.
  unfold kind_of, remove_kind. destruct (m !! p) as [kinds|] eqn:E.
  - assert (∀ x, delete k kinds !! x = if decide (x = k) then None else kinds !! x) as Hd.
    { intros x. rewrite lookup_delete. repeat case_decide; congruence. }
    case_bool_decide as Hempty; (destruct (decide (p' = p)) as [->|Hp];
      [|rewrite ?lookup_delete_ne, ?lookup_insert_ne, decide_False by naive_solver; done]).
    + rewrite lookup_delete_eq, E. simpl. specialize (Hd k'). rewrite Hempty, lookup_empty in Hd.
      repeat case_decide; naive_solver.
    + rewrite lookup_insert_eq, E. simpl. rewrite Hd. repeat case_decide; naive_solver.
  - case_decide as Hd; [|done]. destruct Hd as [-> ->]. by rewrite E.
Qed.

Lemma insert_kind_no_empty {V} (p k : str) (v : V) m : no_empty_slice m → no_empty_slice (insert_kind p k v m).
Proof.
  intros H q. unfold insert_kind. destruct (decide (q = p)) as [->|].
  - rewrite lookup_insert_eq. intros [= E]. by apply insert_non_empty in E.
  - rewrite lookup_insert_ne by done. apply H.
Qed.

Lemma remove_kind_no_empty {V} (p k : str) (m : gmap str (gmap str V)) :
  no_empty_slice m → no_empty_slice (remove_kind p k m).
Proof.
  intros H q. unfold remove_kind. destruct (m !! p) as [kinds|]; [|apply H].
  case_bool_decide; destruct (decide (q = p)) as [->|].
  - by rewrite lookup_delete_eq.
  - rewrite lookup_delete_ne by done. apply H.
  - rewrite lookup_insert_eq. naive_solver.
  - rewrite lookup_insert_ne by done. apply H.
Qed.

(** The last payload a stream of events leaves for one plugin's kind. *)
Definition extension_step (plugin kind : str) (acc : option Value) (e : Event) : option Value :=
  match e with
  | Extension p k v =>
      if decide (plugin = p ∧ kind = k) then (if is_null v then None else Some v) else acc
  | _ => acc
  end.

Lemma apply_event_extensions e ts s plugin kind :
  kind_of (st_extensions (apply_event e ts s).1) plugin kind =
  extension_step plugin kind (kind_of (st_extensions s) plugin kind) e.
Proof.
  by_event s e. all: unfold extension_step.
  all: rewrite ?kind_of_remove, ?kind_of_insert; by repeat case_decide.
Qed.

Lemma apply_event_no_empty e ts s :
  no_empty_slice (st_extensions s) → no_empty_slice (st_extensions (apply_event e ts s).1).
Proof.
  intros H. by_event s e; auto using insert_kind_no_empty, remove_kind_no_empty.
Qed.

(** ** Open interactions *)

Definition open_step (id : InteractionId) (acc : bool) (e : Event) : bool :=
  match e with
  | InteractionOpened i => acc || bool_decide (int_id i = id)
  | InteractionResolved id' _ _ | InteractionCancelled id' _ =>
      acc && negb (bool_decide (id' = id))
  | SessionClosed _ => false
  | _ => acc
  end.

Definition is_open (s : SessionState) (id : InteractionId) : bool :=
  any (fun i => bool_decide (int_id i = id)) (st_interactions s).

Lemma any_app {A} (p : A → bool) l k : any p (l ++ k) = any p l || any p k.
Proof. apply existsb_app. Qed.

Lemma any_retain_id (l : list Interaction) id id' :
  any (λ i, bool_decide (int_id i = id)) (retain (λ o, negb (bool_decide (int_id o = id'))) l) =
  any (λ i, bool_decide (int_id i = id)) l && negb (bool_decide (id' = id)).
Proof.
  induction l as [|x l IH]; simpl; [done|].
  destruct (decide (int_id x = id')) as [<-|]; simpl.
  - rewrite bool_decide_eq_true_2 by done. simpl. rewrite IH.
    by destruct (bool_decide (int_id x = id)), (any _ l).
  - rewrite (bool_decide_eq_false_2 (int_id x = id')) by done. simpl. rewrite IH.
    destruct (decide (int_id x = id)) as [<-|]; [|by rewrite (bool_decide_eq_false_2 (int_id x = id))].
    rewrite (bool_decide_eq_true_2 (int_id x = int_id x)) by done.
    rewrite (bool_decide_eq_false_2 (id' = int_id x)) by done. done.
Qed.

Lemma apply_event_open e ts s id :
  is_open (apply_event e ts s).1 id = open_step id (is_open s id) e.
Proof.
  unfold is_open. by_event s e; unfold open_step; rewrite ?any_app, ?any_retain_id; try done.
  simpl. rewrite orb_false_r. by destruct (any _ _), (bool_decide _).
Qed.

Lemma retain_int_ids (l : list Interaction) id :
  int_id <$> retain (λ o, negb (bool_decide (int_id o = id))) l =
  retain (λ x, negb (bool_decide (x = id))) (int_id <$> l).
Proof. exact (retain_map int_id (λ x : str, negb (bool_decide (x = id))) l). Qed.

Lemma apply_event_interactions_nodup e ts s :
  NoDup (int_id <$> st_interactions s) → NoDup (int_id <$> st_interactions (apply_event e ts s).1).
Proof.
  intros H. by_event s e; rewrite ?fmap_app, ?retain_int_ids; try constructor.
  2,3: by apply NoDup_retain.
  apply NoDup_app. split_and!; [by apply NoDup_retain| |apply NoDup_singleton].
  intros x [_ Hx%negb_true_iff]%elem_of_retain ->%list_elem_of_singleton.
  by rewrite bool_decide_eq_true_2 in Hx.
Qed.

(** ** Accounting *)

Definition usage_of (e : Event) : option Usage :=
  match e with TurnUsage _ u _ | UsageCharged _ _ u => Some u | _ => None end.

Definition is_summary (e : Event) : bool := match e with SessionUpdated _ => true | _ => false end.

Lemma apply_event_usage e ts s : is_summary e = false →
  ss_usage (st_summary (apply_event e ts s).1) =
  match usage_of e with
  | Some u => usage_add (ss_usage (st_summary s)) u
  | None => ss_usage (st_summary s)
  end.
Proof. intros He. by_event s e. Qed.

Lemma apply_event_messages e ts s : is_summary e = false →
  messages (ss_history (st_summary (apply_event e ts s).1)) =
  if completes_a_message e
  then Some (u64_add (default 0%N (messages (ss_history (st_summary s)))) 1)
  else messages (ss_history (st_summary s)).
Proof. intros He. by_event s e. all: congruence. Qed.

(** ** From events to admitted streams

    A relation between one field before and after each event lifts to a whole
    stream of admitted frames; a lag marker changes nothing. *)

Definition events (frames : list Frame) : list Event := fr_event <$> frames.

Lemma fold_lift {A} (proj : SessionState → A) (step : A → Event → A) (ok : Event → bool) :
  (∀ e ts s, ok e = true → proj (apply_event e ts s).1 = step (proj s) e) →
  (∀ q s, proj (set_seq q s) = proj s) →
  (∀ a e, is_lagged e = true → step a e = a) →
  ∀ fs s, increasing (st_seq s) fs → (∀ f, f ∈ fs → ok (fr_event f) = true) →
  proj (fold_frames s fs) = foldl step (proj s) (events fs).
Proof.
  intros Hstep Hseq Hlag. induction fs as [|f fs IH]; intros s; [done|]. intros [Hlt Hi] Hok.
  simpl. rewrite IH; [|eapply increasing_weaken; [by apply apply_seq_le|done]|].
  - f_equal. destruct (is_lagged (fr_event f)) eqn:El.
    + unfold apply. rewrite El, Hlag by done. done.
    + rewrite apply_admitted by done. rewrite Hstep by (apply Hok; by left). by rewrite Hseq.
  - intros g Hg. apply Hok. by right.
Qed.

(** ** Theorems *)

(** C5: folding the journal is enough: the durable part of a session's state
    after any stream of frames (strictly increasing from the state's sequence
    number) is the durable part of folding only the frames that are journaled,
    so a resumed session equals the one that was running but for live-only
    state. *)
Theorem journal_rebuilds_state (s : SessionState) (frames : list Frame)
    (H : increasing (st_seq s) frames) :
  durable_state (fold_frames s frames) = durable_state (fold_frames s (durable_frames frames)).
Proof. by apply durable_fold. Qed.

(** a client that holds a snapshot and is sent frames it already folded
    before the new ones ends in the state of a client that saw every frame
    once. *)
Theorem replay_overlap (s : SessionState) (seen again fresh : list Frame)
    (Hinc : increasing (st_seq s) (seen ++ fresh))
    (Hseen : seen ≠ [])
    (Hlag : ∀ f, f ∈ seen → is_lagged (fr_event f) = false)
    (Hagain : ∀ f, f ∈ again → f ∈ seen) :
  fold_frames (fold_frames s seen) (again ++ fresh) = fold_frames s (seen ++ fresh).
Proof.
  apply increasing_app in Hinc as [Hinc _].
  rewrite !fold_frames_app. f_equal. apply stale_fold.
  - destruct seen as [|f seen]; [done|].
    pose proof (fold_seq_max s (f :: seen) Hinc Hlag f) as Hf.
    pose proof (increasing_all _ _ f Hinc) as Hpos.
    assert (f ∈ f :: seen) as Hin by by left. specialize (Hf Hin). specialize (Hpos Hin). lia.
  - intros f Hf%Hagain. by apply fold_seq_max.
Qed.

(** a plugin's state is the last payload journaled for its kind, a null
    payload removes it, and no plugin is left with an empty slice. *)
Theorem extension_last_write (s : SessionState) (frames : list Frame) (plugin kind : str)
    (H : increasing (st_seq s) frames) (Hne : no_empty_slice (st_extensions s)) :
  kind_of (st_extensions (fold_frames s frames)) plugin kind =
    foldl (extension_step plugin kind) (kind_of (st_extensions s) plugin kind) (events frames)
  ∧ no_empty_slice (st_extensions (fold_frames s frames)).
Proof.
  split.
  - apply (fold_lift (λ s, kind_of (st_extensions s) plugin kind) _ (λ _, true)); try done.
    + intros e ts s' _. apply apply_event_extensions.
    + by intros q [].
    + by intros a [].
  - revert s H Hne. induction frames as [|f fs IH]; intros s; [done|]. intros [Hlt Hi] Hne. simpl.
    apply IH; [eapply increasing_weaken; [by apply apply_seq_le|done]|].
    unfold apply. destruct (is_lagged _); [done|]. case_match; [done|].
    apply apply_event_no_empty. by destruct s.
Qed.

(** an interaction is open exactly when it was opened and neither answered,
    cancelled nor ended by the session's close since; the open list never
    holds an id twice. *)
Theorem interactions_exact (s : SessionState) (frames : list Frame) (id : InteractionId)
    (H : increasing (st_seq s) frames) (Hnd : NoDup (int_id <$> st_interactions s)) :
  is_open (fold_frames s frames) id = foldl (open_step id) (is_open s id) (events frames)
  ∧ NoDup (int_id <$> st_interactions (fold_frames s frames)).
Proof.
  split.
  - apply (fold_lift (λ s, is_open s id) _ (λ _, true)); try done.
    + intros e ts s' _. apply apply_event_open.
    + by intros q [].
    + by intros a [].
  - revert s H Hnd. induction frames as [|f fs IH]; intros s; [done|]. intros [Hlt Hi] Hnd. simpl.
    apply IH; [eapply increasing_weaken; [by apply apply_seq_le|done]|].
    unfold apply. destruct (is_lagged _); [done|]. case_match; [done|].
    apply apply_event_interactions_nodup. by destruct s.
Qed.

(** between two summaries the session's usage is the sum of every charge
    and round in the stream, and its message count grows by one for each
    completed message. *)
Theorem summary_accounting (s : SessionState) (frames : list Frame)
    (H : increasing (st_seq s) frames)
    (Hsum : ∀ f, f ∈ frames → is_summary (fr_event f) = false) :
  ss_usage (st_summary (fold_frames s frames)) =
    foldl usage_add (ss_usage (st_summary s)) (omap usage_of (events frames))
  ∧ messages (ss_history (st_summary (fold_frames s frames))) =
    foldl (fun n _ => Some (u64_add (default 0%N n) 1)) (messages (ss_history (st_summary s)))
          (retain completes_a_message (events frames)).
Proof.
  assert (∀ f, f ∈ frames → negb (is_summary (fr_event f)) = true) as Hok.
  { intros f Hf. by rewrite Hsum. }
  split.
  - rewrite (fold_lift (λ s, ss_usage (st_summary s))
      (λ u e, match usage_of e with Some v => usage_add u v | None => u end)
      (λ e, negb (is_summary e))); try done.
    + generalize (ss_usage (st_summary s)) (events frames). intros u es. revert u.
      induction es as [|e es IH]; intros u; csimpl; [done|]. rewrite IH. by destruct (usage_of e).
    + intros e ts s' He%negb_true_iff. by apply apply_event_usage.
    + by intros q [].
    + by intros u [].
  - rewrite (fold_lift (λ s, messages (ss_history (st_summary s)))
      (λ n e, if completes_a_message e then Some (u64_add (default 0%N n) 1) else n)
      (λ e, negb (is_summary e))); try done.
    + generalize (messages (ss_history (st_summary s))) (events frames). intros n es. revert n.
      induction es as [|e es IH]; intros n; csimpl; [done|]. rewrite IH.
      by destruct (completes_a_message e).
    + intros e ts s' He%negb_true_iff. by apply apply_event_messages.
    + by intros q [].
    + by intros n [].
Qed.

(** ** Witnesses *)

Definition demo_summary (id : SessionId) (parent : option ParentLink) : SessionSummary :=
  mkSessionSummary id None None (lit "/tmp") parent DriverModel (mkSessionModel None None None)
    None None None 0 0 usage_default false false (mkSessionHistory None None None).

Definition demo_frame (q : N) (e : Event) : Frame := mkFrame q 0 (lit "ses_1") None e.
Definition demo_state : SessionState := state_new (demo_summary (lit "ses_1") None).

Definition demo_running : Item := demo_item (lit "i1") (Some (lit "t1")) Running (lit "he").
Definition demo_stream : list Frame :=
  [demo_frame 1 (TurnStarted (lit "t1") [] OSubmit);
   demo_frame 2 (ItemStarted demo_running);
   demo_frame 3 (ItemDelta (lit "i1") 1 DText (lit "llo"));
   demo_frame 4 (Signal None (lit "p") (lit "k") (VBool true));
   demo_frame 5 (Extension (lit "p") (lit "k") (VBool true));
   demo_frame 6 (UsageCharged None (lit "p") (mkUsage 5 1 0 0 0));
   demo_frame 7 (ItemCompleted (demo_item (lit "i1") (Some (lit "t1")) Completed (lit "hello")))].

Lemma demo_stream_increasing : increasing (st_seq demo_state) demo_stream.
Proof. vm_compute. repeat split. Qed.

Lemma journal_rebuilds_state_witness :
  length (durable_frames demo_stream) = 5 ∧
  durable_state (fold_frames demo_state demo_stream) =
  durable_state (fold_frames demo_state (durable_frames demo_stream)).
Proof.
  split; [by vm_compute|].
  apply (journal_rebuilds_state demo_state demo_stream demo_stream_increasing).
Defined.

Lemma replay_overlap_witness :
  fold_frames (fold_frames demo_state (take 3 demo_stream)) (take 2 demo_stream ++ drop 3 demo_stream)
  = fold_frames demo_state demo_stream.
Proof.
  rewrite <- (take_drop 3 demo_stream) at 4.
  apply (replay_overlap demo_state (take 3 demo_stream) (take 2 demo_stream) (drop 3 demo_stream)).
  - rewrite take_drop. apply demo_stream_increasing.
  - by vm_compute.
  - apply Forall_forall. repeat constructor.
  - intros f Hf. change (take 2 demo_stream) with (take 2 (take 3 demo_stream)) in Hf.
    by apply elem_of_take_in in Hf.
Defined.

Lemma extension_last_write_witness :
  kind_of (st_extensions (fold_frames demo_state demo_stream)) (lit "p") (lit "k") = Some (VBool true).
Proof.
  destruct (extension_last_write demo_state demo_stream (lit "p") (lit "k")
              demo_stream_increasing) as [-> _].
  - intros p H. change (st_extensions demo_state) with (∅ : gmap str (gmap str Value)) in H.
    by rewrite lookup_empty in H.
  - by vm_compute.
Defined.

Definition demo_ask (id : InteractionId) : Interaction :=
  mkInteraction id (lit "ses_1") None None 0 (Some 400%Z) None (KConfirm (lit "go?") []) [SpecConfirm].
Definition demo_asks : list Frame :=
  [demo_frame 1 (InteractionOpened (demo_ask (lit "a"))); demo_frame 2 (InteractionOpened (demo_ask (lit "b")));
   demo_frame 3 (InteractionCancelled (lit "a") CancelExpired)].

Lemma interactions_exact_witness :
  is_open (fold_frames demo_state demo_asks) (lit "a") = false ∧
  NoDup (int_id <$> st_interactions (fold_frames demo_state demo_asks)).
Proof.
  destruct (interactions_exact demo_state demo_asks (lit "a")) as [-> Hnd].
  - vm_compute. repeat split.
  - constructor.
  - split; [by vm_compute|exact Hnd].
Defined.

Lemma summary_accounting_witness :
  input_tokens (ss_usage (st_summary (fold_frames demo_state demo_stream))) = 5%N ∧
  messages (ss_history (st_summary (fold_frames demo_state demo_stream))) = Some 1%N.
Proof.
  destruct (summary_accounting demo_state demo_stream demo_stream_increasing) as [-> ->].
  - apply Forall_forall. repeat constructor.
  - by vm_compute.
Defined.
