(* ===== verification/Tree.v ===== *)
(** * Tree: one attachment's sessions

    [bingo-sdk/src/tree.rs].  A client keeps the root it attached to and the
    descendants announced on that stream, each folded by the reducer of
    [State].  Removing a session removes its subtree, found by sweeping the
    parent links until no sweep adds a session.  A [BTreeMap] is a [gmap] whose
    iteration order is the order of its keys. *)

From S2P Require Import Prelude Text Model Interaction Event Transcript State.

(** ** Ordered iteration *)

Definition ordered (s : gset str) : list str := merge_sort str_le (elements s).
Definition values {V} (m : gmap str V) : list V := omap (fun k => m !! k) (ordered (dom m)).

(** ** Data *)

Inductive CatalogKind :=
| CatalogEvents | CatalogModels | CatalogProviders | CatalogTools | CatalogCommands | CatalogPlugins.

Inductive GatewayEvent :=
| SessionCreated (summary : SessionSummary)
| SessionRemoved (session : SessionId)
| CatalogChanged (kind : CatalogKind).

Record TreeState := mkTreeState {
  tr_root : SessionState;
  tr_children : gmap str SessionState;
}.

Definition tree_new (root : SessionState) : TreeState := mkTreeState root ∅.
Definition id_of (s : SessionState) : SessionId := ss_id (st_summary s).
Definition root_id (t : TreeState) : SessionId := id_of (tr_root t).

(** ** Removal *)

Definition parent_reached (reached : gset str) (child : SessionState) : bool :=
  match ss_parent (st_summary child) with
  | Some p => bool_decide (pl_session p ∈ reached)
  | None => false
  end.

Definition sweep_one (reached : gset str) (child : SessionState) : gset str :=
  if parent_reached reached child then {[id_of child]} ∪ reached else reached.

Definition sweep (children : list SessionState) (reached : gset str) : gset str :=
  foldl sweep_one reached children.

(** The [loop]: sweep until the set stops growing.  [None] is fuel exhausted. *)
Fixpoint reach (fuel : nat) (children : list SessionState) (reached : gset str)
    : option (gset str) :=
  match fuel with
  | 0 => None
  | S fuel =>
      let next := sweep children reached in
      if bool_decide (size next = size reached) then Some next else reach fuel children next
  end.

Definition reach_fuel (children : list SessionState) : nat := S (length children).

Definition tree_remove (t : TreeState) (session : SessionId) : option (TreeState * list SessionId) :=
  if bool_decide (session = root_id t) then Some (t, [])
  else
    let children := values (tr_children t) in
    let? reached := reach (reach_fuel children) children {[session]} in
    let gone := retain (fun id => option_is_some (tr_children t !! id)) (ordered reached) in
    Some (mkTreeState (tr_root t) (foldl (fun m id => delete id m) (tr_children t) gone), gone).

(** ** Operations *)

Definition is_deleted (e : Event) : bool :=
  match e with SessionClosed CloseDeleted => true | _ => false end.

Definition known (t : TreeState) (frame : Frame) : option (gmap str SessionState) :=
  if option_is_some (tr_children t !! fr_session frame) then Some (tr_children t)
  else
    match fr_event frame with
    | SessionUpdated summary => Some (<[fr_session frame := state_new summary]> (tr_children t))
    | _ => None
    end.

(** [None] only where the removal loop would not end. *)
Definition tree_apply (t : TreeState) (frame : Frame) : option (TreeState * Applied) :=
  if bool_decide (fr_session frame = root_id t) then
    let '(root, applied) := apply (tr_root t) frame in
    Some (mkTreeState root (tr_children t), applied)
  else
    match known t frame with
    | None => Some (t, AStale)
    | Some children =>
        match children !! fr_session frame with
        | None => Some (mkTreeState (tr_root t) children, AStale)
        | Some state =>
            let '(state, applied) := apply state frame in
            let t := mkTreeState (tr_root t) (<[fr_session frame := state]> children) in
            if negb (bool_decide (applied = AStale)) && is_deleted (fr_event frame)
            then let? x := tree_remove t (fr_session frame) in Some (x.1, applied)
            else Some (t, applied)
        end
    end.

Definition removed (t : TreeState) (e : GatewayEvent) : option (TreeState * list SessionId) :=
  match e with
  | SessionRemoved session => tree_remove t session
  | _ => Some (t, [])
  end.

Definition tree_get (t : TreeState) (id : SessionId) : option SessionState :=
  if bool_decide (id = root_id t) then Some (tr_root t) else tr_children t !! id.

Definition sessions (t : TreeState) : list SessionState := tr_root t :: values (tr_children t).

Definition children_of (t : TreeState) (id : SessionId) : list SessionState :=
  retain (parent_reached {[id]}) (values (tr_children t)).

Definition tree_mark_read (t : TreeState) (id : SessionId) : TreeState :=
  if bool_decide (id = root_id t) then mkTreeState (mark_read (tr_root t)) (tr_children t)
  else
    match tr_children t !! id with
    | Some child => mkTreeState (tr_root t) (<[id := mark_read child]> (tr_children t))
    | None => t
    end.

(** ** What a removal should reach *)

(** The sessions at or below [session], by the parent links of [children]. *)
Inductive descends (children : list SessionState) (session : SessionId) : SessionId -> Prop :=
| descends_self : descends children session session
| descends_child (child : SessionState) (p : ParentLink) :
    child ∈ children -> ss_parent (st_summary child) = Some p ->
    descends children session (pl_session p) -> descends children session (id_of child).

(** ** Lemmas *)

Lemma elem_of_ordered (s : gset str) k : k ∈ ordered s ↔ k ∈ s.
Proof. unfold ordered. by rewrite merge_sort_Permutation, elem_of_elements. Qed.

Lemma NoDup_ordered (s : gset str) : NoDup (ordered s).
Proof. unfold ordered. rewrite merge_sort_Permutation. apply NoDup_elements. Qed.

Lemma ordered_sorted (s : gset str) : StronglySorted str_le (ordered s).
Proof. apply StronglySorted_merge_sort; apply _. Qed.

Lemma retain_sorted {A} (R : relation A) (p : A → bool) l :
  StronglySorted R l → StronglySorted R (retain p l).
Proof.
  induction 1 as [|x l Hl IH Hx]; simpl; [constructor|].
  destruct (p x); [|done]. constructor; [done|].
  rewrite Forall_forall in Hx |- *. intros y [Hy _]%elem_of_retain. auto.
Qed.

Lemma elem_of_values {V} (m : gmap str V) v : v ∈ values m ↔ ∃ k : str, m !! k = Some v.
Proof.
  unfold values. rewrite list_elem_of_omap. split.
  - intros (k & _ & ?). eauto.
  - intros [k Hk]. exists k. split; [|done]. rewrite elem_of_ordered. by eapply elem_of_dom_2.
Qed.

Lemma sweep_mono children reached : reached ⊆ sweep children reached.
Proof.
  revert reached. induction children as [|c l IH]; intros reached; simpl; [done|].
  etrans; [|apply IH]. unfold sweep_one. destruct (parent_reached _ _); set_solver.
Qed.

Lemma sweep_closed children reached child :
  child ∈ children → parent_reached reached child = true → id_of child ∈ sweep children reached.
Proof.
  revert reached. induction children as [|c l IH]; intros reached; simpl; [set_solver|].
  intros [->|Hin]%elem_of_cons Hp.
  - apply (sweep_mono l (sweep_one reached c)). unfold sweep_one. rewrite Hp. set_solver.
  - apply IH; [done|]. revert Hp. unfold sweep_one, parent_reached.
    destruct (ss_parent (st_summary child)); [|done]. rewrite !bool_decide_eq_true.
    repeat case_match; set_solver.
Qed.

(** Everything a sweep adds satisfies a predicate closed under parent links. *)
Lemma sweep_sound (P : str → Prop) children reached :
  (∀ child p, child ∈ children → ss_parent (st_summary child) = Some p → P (pl_session p) → P (id_of child)) →
  (∀ id, id ∈ reached → P id) → ∀ id, id ∈ sweep children reached → P id.
Proof.
  revert reached. induction children as [|c l IH]; intros reached Hc Hr; simpl; [done|].
  apply IH; [intros; eapply Hc; eauto; by right|].
  intros id. unfold sweep_one, parent_reached. destruct (ss_parent (st_summary c)) as [q|] eqn:E; [|auto].
  case_bool_decide; [|auto]. intros [->%elem_of_singleton|?]%elem_of_union; [|auto].
  eapply Hc; [by left|done|auto].
Qed.

Lemma reach_spec fuel children session reached final :
  (∀ id, id ∈ reached → descends children session id) → session ∈ reached →
  reach fuel children reached = Some final →
  ∀ id, id ∈ final ↔ descends children session id.
Proof.
  revert reached. induction fuel as [|fuel IH]; intros reached Hr Hs; simpl; [done|].
  assert (∀ id, id ∈ sweep children reached → descends children session id) as Hd.
  { apply sweep_sound; [|done]. intros; by eapply descends_child. }
  case_bool_decide as Hsz.
  - intros [= <-] id. split; [apply Hd|].
    assert (sweep children reached = reached) as Heq.
    { symmetry. apply set_subseteq_size_eq; [apply sweep_mono|lia]. }
    induction 1 as [|child p Hin Hp _ IHd]; [by apply sweep_mono|].
    apply sweep_closed; [done|]. unfold parent_reached. rewrite Hp. rewrite Heq in IHd.
    by apply bool_decide_eq_true.
  - apply IH; [done|]. by apply sweep_mono.
Qed.

Lemma size_ids (children : list SessionState) (session : str) (s : gset str) :
  (∀ id, id ∈ s → id = session ∨ id ∈ id_of <$> children) → size s ≤ S (length children).
Proof.
  intros H.
  transitivity (length (session :: (id_of <$> children))); [|simpl; by rewrite length_fmap].
  apply submseteq_length, NoDup_submseteq; [apply NoDup_elements|].
  intros id [->|?]%elem_of_elements%H; [by left|by right].
Qed.

Lemma reach_total fuel children session reached :
  (∀ id, id ∈ reached → id = session ∨ id ∈ id_of <$> children) →
  S (length children) < fuel + size reached → is_Some (reach fuel children reached).
Proof.
  revert reached. induction fuel as [|fuel IH]; intros reached Hr Hf.
  { pose proof (size_ids _ _ _ Hr). lia. }
  simpl. case_bool_decide as Hsz; [by eexists|].
  pose proof (subseteq_size _ _ (sweep_mono children reached)).
  apply IH; [|lia]. apply sweep_sound; [|done].
  intros child p Hc _ _. right. by apply list_elem_of_fmap_2.
Qed.

Lemma reach_from children session :
  ∃ final, reach (reach_fuel children) children {[session]} = Some final
    ∧ ∀ id, id ∈ final ↔ descends children session id.
Proof.
  destruct (reach_total (reach_fuel children) children session {[session]}) as [final Hf].
  - set_solver.
  - unfold reach_fuel. rewrite size_singleton. lia.
  - exists final. split; [done|]. eapply reach_spec; [| |done]; [|set_solver].
    intros id ->%elem_of_singleton. constructor.
Qed.

Lemma lookup_foldl_delete {V} (m : gmap str V) (l : list str) (k : str) :
  foldl (λ m id, delete id m) m l !! k = if bool_decide (k ∈ l) then None else m !! k.
Proof.
  revert m. induction l as [|x l IH]; intros m; simpl; [done|].
  rewrite IH. destruct (decide (k = x)) as [->|Hne].
  - rewrite lookup_delete_eq. by repeat case_bool_decide; set_solver.
  - rewrite lookup_delete_ne by done. repeat case_bool_decide; set_solver.
Qed.

(** The whole effect of a removal. *)
Lemma tree_remove_spec t session : session ≠ root_id t →
  ∃ t' gone, tree_remove t session = Some (t', gone)
    ∧ tr_root t' = tr_root t
    ∧ StronglySorted str_le gone ∧ NoDup gone
    ∧ (∀ id : str, id ∈ gone ↔ is_Some (tr_children t !! id) ∧ descends (values (tr_children t)) session id)
    ∧ (∀ id : str, tr_children t' !! id = if bool_decide (id ∈ gone) then None else tr_children t !! id).
Proof.
  intros Hne. unfold tree_remove. rewrite bool_decide_eq_false_2 by done.
  destruct (reach_from (values (tr_children t)) session) as (final & -> & Hf). simpl.
  eexists _, _. split; [done|]. simpl. split_and!; [done|..].
  - apply retain_sorted, ordered_sorted.
  - apply NoDup_retain, NoDup_ordered.
  - intros id. rewrite elem_of_retain, elem_of_ordered, Hf.
    destruct (tr_children t !! id); simpl; split; intros [? ?]; split; try done; by eexists.
  - intros id. apply lookup_foldl_delete.
Qed.

Lemma apply_id s f : id_of (apply s f).1 =
  if is_lagged (fr_event f) || (fr_seq f <=? st_seq s)%N && negb (st_seq s =? seq_zero)%N then id_of s
  else match fr_event f with SessionUpdated x => ss_id x | _ => id_of s end.
Proof.
  unfold apply. destruct (is_lagged _); [done|]. simpl. destruct (_ && _); [done|].
  destruct f as [q ts ses c e]; simpl. unfold id_of. by_event s e.
Qed.

(** ** The tree as one reducer per session *)

(** A summary frame carries the summary of the session it names. *)
Definition own_summary (f : Frame) : Prop :=
  match fr_event f with SessionUpdated x => ss_id x = fr_session f | _ => True end.

(** What one frame does to the session it names. *)
Definition session_step (acc : option SessionState) (f : Frame) : option SessionState :=
  match acc, fr_event f with
  | Some s, _ => Some (apply s f).1
  | None, SessionUpdated x => Some (apply (state_new x) f).1
  | None, _ => None
  end.

Definition tree_fold (t : TreeState) (frames : list Frame) : option TreeState :=
  foldl (fun acc f => let? t := acc in fst <$> tree_apply t f) (Some t) frames.

Lemma tree_apply_step t f : own_summary f → is_deleted (fr_event f) = false →
  ∃ t', fst <$> tree_apply t f = Some t' ∧ root_id t' = root_id t ∧
    ∀ id, tree_get t' id =
      if bool_decide (fr_session f = id) then session_step (tree_get t id) f else tree_get t id.
Proof.
  intros Ho Hd. unfold tree_apply. case_bool_decide as Hr.
  - destruct (apply (tr_root t) f) as [root a] eqn:Ea.
    assert (id_of root = root_id t) as Hid.
    { change root with (root, a).1. rewrite <- Ea, apply_id. unfold own_summary in Ho.
      unfold root_id in *. destruct (_ || _); [done|]. destruct (fr_event f); congruence. }
    exists (mkTreeState root (tr_children t)). split; [done|]. unfold tree_get.
    change (root_id (mkTreeState root _)) with (id_of root). rewrite Hid. split; [done|]. intros id. unfold session_step. simpl.
    repeat case_bool_decide; try congruence. by rewrite Ea.
  - assert (∀ t', tr_root t' = tr_root t → root_id t' = root_id t) as Hroot by (unfold root_id; congruence).
    destruct (known t f) as [children|] eqn:Ek; unfold known in Ek.
    + assert (∃ s, children !! fr_session f = Some s
          ∧ session_step (tr_children t !! fr_session f) f = Some (apply s f).1
          ∧ ∀ id, fr_session f ≠ id → children !! id = tr_children t !! id) as (s & Hs & Hst & Hoth).
      { unfold session_step. destruct (tr_children t !! fr_session f) as [s|] eqn:El; simplify_eq/=; [by exists s|].
        destruct (fr_event f) eqn:Ee; simplify_eq. eexists. split_and!; [apply lookup_insert_eq|done|].
        intros. by rewrite lookup_insert_ne. }
      rewrite Hs. destruct (apply s f) as [s' a]. rewrite Hd, andb_false_r. eexists. split; [done|].
      split; [by apply Hroot|]. intros id. unfold tree_get. rewrite Hroot by done. simpl.
      case_bool_decide; [by case_bool_decide; subst|]. case_bool_decide; subst.
      * by rewrite lookup_insert_eq.
      * rewrite lookup_insert_ne by done. auto.
    + exists t. split_and!; [done..|]. intros id. case_bool_decide as Hi; [|done]. unfold tree_get, session_step.
      destruct (tr_children t !! fr_session f) eqn:El; [done|]. subst id.
      rewrite bool_decide_eq_false_2, El by done. destruct (fr_event f); done.
Qed.

(** Reachability reads only ids and parents. *)
Lemma descends_mono (c1 c2 : list SessionState) session id :
  (∀ c, c ∈ c1 → ∃ c', c' ∈ c2 ∧ id_of c' = id_of c ∧ ss_parent (st_summary c') = ss_parent (st_summary c)) →
  descends c1 session id → descends c2 session id.
Proof.
  intros H. induction 1 as [|c p Hc Hp _ IH]; [constructor|].
  destruct (H c Hc) as (c' & Hc' & <- & Hp'). eapply descends_child; [done| |done]. congruence.
Qed.

Lemma descends_insert (m : gmap str SessionState) (k : str) s s' session id :
  m !! k = Some s → id_of s' = id_of s → ss_parent (st_summary s') = ss_parent (st_summary s) →
  descends (values m) session id → descends (values (<[k := s']> m)) session id.
Proof.
  intros Hk Hid Hp. apply descends_mono. intros c [k' Hk']%elem_of_values.
  destruct (decide (k' = k)) as [->|Hne].
  - simplify_eq. exists s'. split; [|done]. apply elem_of_values. exists k. apply lookup_insert_eq.
  - exists c. split; [|done]. apply elem_of_values. exists k'. by rewrite lookup_insert_ne.
Qed.

Lemma apply_deleted_close s f : fr_event f = SessionClosed CloseDeleted → (st_seq s < fr_seq f)%N →
  (apply s f).2 ≠ AStale ∧ id_of (apply s f).1 = id_of s
  ∧ ss_parent (st_summary (apply s f).1) = ss_parent (st_summary s).
Proof.
  intros He Hlt. rewrite apply_admitted by (done || by rewrite He). rewrite He.
  unfold apply_event. simpl. by destruct s.
Qed.

(** ** Claims *)

(** removing a session from a client's tree always terminates, keeps the
    root, and removes exactly the stored sessions at or below it by parent
    links (whatever the shape of the links, cycles included); it reports them
    once each, in id order, and leaves every other session as it was. *)
Theorem tree_remove_exact (t : TreeState) (session : SessionId) (H : session ≠ root_id t) :
  ∃ t' gone, tree_remove t session = Some (t', gone)
    ∧ tr_root t' = tr_root t
    ∧ StronglySorted str_le gone ∧ NoDup gone
    ∧ (∀ id : str, id ∈ gone ↔ is_Some (tr_children t !! id) ∧ descends (values (tr_children t)) session id)
    ∧ (∀ id : str, tr_children t' !! id = if bool_decide (id ∈ gone) then None else tr_children t !! id).
Proof. by apply tree_remove_spec. Qed.

(** short of deletions, the tree is one independent reducer per session:
    after any interleaving of frames, the state of each session, root or child,
    is the fold of the frames that name it, a child starting at its first
    summary and frames before it being dropped. *)
Theorem tree_folds_each (t : TreeState) (frames : list Frame)
  (Hown : Forall own_summary frames) (Hdel : Forall (λ f, is_deleted (fr_event f) = false) frames) :
  ∃ t', tree_fold t frames = Some t' ∧ root_id t' = root_id t ∧
    ∀ id, tree_get t' id =
      foldl session_step (tree_get t id) (retain (λ f, bool_decide (fr_session f = id)) frames).
Proof.
  revert t Hown Hdel. unfold tree_fold. induction frames as [|f fs IH]; intros t Ho Hd; [by eexists|].
  apply Forall_cons in Ho as [Ho Hos]. apply Forall_cons in Hd as [Hd Hds].
  destruct (tree_apply_step t f Ho Hd) as (t1 & H1 & Hr1 & Hg1).
  destruct (IH t1 Hos Hds) as (t2 & H2 & Hr2 & Hg2).
  exists t2. split; [|split; [congruence|]].
  - simpl. by rewrite H1.
  - intros id. rewrite Hg2, Hg1. simpl. by case_bool_decide.
Qed.

(** closing a session as deleted removes it and its subtree from the
    client's tree in the same step, unless the frame is stale. *)
Theorem deleted_close_removes (t : TreeState) (f : Frame) (s : SessionState)
  (Hroot : fr_session f ≠ root_id t) (Hs : tr_children t !! fr_session f = Some s)
  (Hdel : fr_event f = SessionClosed CloseDeleted) (Hseq : (st_seq s < fr_seq f)%N) :
  ∃ t' a, tree_apply t f = Some (t', a) ∧ a ≠ AStale ∧ tr_children t' !! fr_session f = None
    ∧ ∀ id, descends (values (tr_children t)) (fr_session f) id → tr_children t' !! id = None.
Proof.
  destruct (apply_deleted_close s f Hdel Hseq) as (Ha & Hid & Hp).
  unfold tree_apply, known. rewrite bool_decide_eq_false_2 by done. rewrite Hs. simpl. rewrite Hs.
  destruct (apply s f) as [s' a]; simpl in *. rewrite bool_decide_eq_false_2, Hdel by done. simpl.
  set (m := <[fr_session f := s']> (tr_children t)).
  destruct (tree_remove_spec (mkTreeState (tr_root t) m) (fr_session f) Hroot)
    as (t' & gone & -> & _ & _ & _ & Hgone & Hget). simpl in *.
  eexists _, _. split; [done|].
  assert (∀ id, descends (values m) (fr_session f) id → tr_children t' !! id = None) as Hnone.
  { intros id Hdesc. rewrite Hget. case_bool_decide as Hin; [done|].
    destruct (m !! id) eqn:E; [|done]. destruct Hin. apply Hgone. split; [by eexists|done]. }
  split_and!; [done|apply Hnone; constructor|].
  intros id Hd. apply Hnone. by eapply descends_insert.
Qed.

(** ** Witnesses *)

Definition demo_link (id parent : SessionId) : SessionState :=
  state_new (demo_summary id (Some (mkParentLink parent None))).

(** A root, a child, a grandchild, a two-session cycle and an unrelated child. *)
Definition demo_tree : TreeState :=
  mkTreeState demo_state
    (<[lit "a" := demo_link (lit "a") (lit "ses_1")]> (<[lit "b" := demo_link (lit "b") (lit "a")]>
    (<[lit "c" := demo_link (lit "c") (lit "d")]> (<[lit "d" := demo_link (lit "d") (lit "c")]>
    (<[lit "e" := demo_link (lit "e") (lit "ses_1")]> ∅))))).

Example remove_subtree : snd <$> tree_remove demo_tree (lit "a") = Some [lit "a"; lit "b"].
Proof. by vm_compute. Qed.
Example remove_cycle : snd <$> tree_remove demo_tree (lit "c") = Some [lit "c"; lit "d"].
Proof. by vm_compute. Qed.

Lemma tree_remove_exact_witness :
  ∃ t' gone, tree_remove demo_tree (lit "a") = Some (t', gone) ∧ tr_root t' = demo_state
    ∧ NoDup gone ∧ tr_children t' !! lit "e" = tr_children demo_tree !! lit "e".
Proof.
  destruct (tree_remove_exact demo_tree (lit "a")) as (t' & gone & He & Hr & _ & Hnd & _ & Hget);
    [by vm_compute|].
  exists t', gone. split_and!; [done..|]. rewrite Hget. case_bool_decide as Hin; [|done].
  assert (gone = [lit "a"; lit "b"]) as -> by (vm_compute in He; by simplify_eq).
  by apply (bool_decide_eq_true_2 _) in Hin; vm_compute in Hin.
Defined.

Definition demo_child_frame (q : N) (id : SessionId) (e : Event) : Frame := mkFrame q 0 id None e.
Definition demo_interleaved : list Frame :=
  [demo_child_frame 1 (lit "x") (TurnStarted (lit "t1") [] OSubmit);
   demo_frame 1 (TurnStarted (lit "t1") [] OSubmit);
   demo_child_frame 2 (lit "x") (SessionUpdated (demo_summary (lit "x") None));
   demo_child_frame 3 (lit "x") (Extension (lit "p") (lit "k") (VBool true))].

Lemma tree_folds_each_witness :
  ∃ t', tree_fold demo_tree demo_interleaved = Some t' ∧ root_id t' = lit "ses_1"
    ∧ st_seq <$> tree_get t' (lit "x") = Some 3%N ∧ st_seq <$> tree_get t' (lit "ses_1") = Some 1%N.
Proof.
  destruct (tree_folds_each demo_tree demo_interleaved) as (t' & He & Hr & Hg).
  - repeat constructor.
  - repeat constructor.
  - exists t'. split_and!; [done|done|..]; rewrite Hg; by vm_compute.
Defined.

Lemma deleted_close_removes_witness :
  ∃ t' a, tree_apply demo_tree (demo_child_frame 1 (lit "a") (SessionClosed CloseDeleted)) = Some (t', a)
    ∧ tr_children t' !! lit "b" = None.
Proof.
  destruct (deleted_close_removes demo_tree (demo_child_frame 1 (lit "a") (SessionClosed CloseDeleted))
              (demo_link (lit "a") (lit "ses_1"))) as (t' & a & He & _ & _ & Hd);
    [by vm_compute..|].
  exists t', a. split; [done|]. apply Hd.
  apply (descends_child _ _ (demo_link (lit "b") (lit "a")) (mkParentLink (lit "a") None)).
  - apply elem_of_values. exists (lit "b"). by vm_compute.
  - done.
  - constructor.
Defined.
