(* ===== verification/Recovery.v ===== *)
(** * Recovery and rewind

    [bingo-core/src/session/recovery.rs], [bingo-core/src/rewind.rs] and
    [Actor::rewind] of [bingo-core/src/session.rs]: the events the kernel
    publishes to close what a lost turn left open, and to take a turn back.
    Both append to the journal; what they mean is what the reducer of [State]
    does with them. *)

From S2P Require Import Prelude Text Model Interaction Event Transcript State.

(** ** Recovery *)

Definition interrupted (at_ : Timestamp) (item : Item) : Item :=
  mkItem (item_id item) (item_turn item) (item_round item) Interrupted (item_started_at item)
         (Some at_) (item_intent item) (item_body item) (item_meta item).

Definition interrupt_items (open : list Item) (at_ : Timestamp) : list Event :=
  (fun item => ItemCompleted (interrupted at_ item)) <$> open.

Definition lost_error : KernelError :=
  mkKernelError TurnLost (lit "the process ended during this turn").

Definition recovery_frames (interactions : list Interaction) (turn : option LiveTurn)
    (transcript : Transcript) (at_ : Timestamp) : list Event :=
  ((fun ask => InteractionCancelled (int_id ask) CancelSessionClosed) <$> interactions) ++
  match turn with
  | Some turn =>
      interrupt_items (open_items transcript (lt_id turn)) at_ ++
      [TurnCompleted (lt_id turn) (TurnFailed lost_error) (lt_usage turn)]
  | None => []
  end.

(** ** Rewind *)

Definition dropped (items : list Item) (to_turn : TurnId) : option (list ItemId) :=
  let? opened := position (fun item => bool_decide (item_turn item = Some to_turn)) items in
  Some (item_id <$> drop opened items).

(** [Actor::fresh]: the minted id and the clock are arguments. *)
Definition fresh (id : ItemId) (now : Timestamp) (turn : option TurnId)
    (intent : option IntentId) (body : ItemBody) : Item :=
  mkItem id turn 0 Completed now (Some now) intent body [].

(** [Actor::rewind]: the events it publishes, in order, and its count.  The item
    it records has no turn, because none runs. *)
Definition rewind (running : bool) (s : SessionState) (transcript : Transcript)
    (to_turn : TurnId) (id : ItemId) (now : Timestamp) : result KernelError (list Event * N) :=
  if running then Err (mkKernelError NotReady (lit "a turn is running"))
  else
    match dropped (items transcript) to_turn with
    | None => Err (mkKernelError InvalidInput (lit "this session has no turn " ++ to_turn))
    | Some gone =>
        let count := wrap 32 (N.of_nat (length gone)) in
        Ok ([ItemCompleted (fresh id now None None (BRewind to_turn count));
             Rewound (u64_add (t_generation (st_transcript s)) 1) to_turn gone []], count)
    end.

(** Publishing events one after the other: what the actor's own state becomes. *)
Definition publish_all (ts : Timestamp) (s : SessionState) (es : list Event) : SessionState :=
  foldl (fun s e => (apply_event e ts s).1) s es.

(** ** Lemmas *)

Lemma apply_event_transcript e ts s :
  st_transcript (apply_event e ts s).1 = (transcript_apply (st_transcript s) e).1.
Proof.
  unfold apply_event.
  replace (st_transcript (if completes_a_message e then count_a_message e s else s))
    with (st_transcript s) by (unfold count_a_message; destruct s; by destruct (completes_a_message e)).
  destruct (transcript_apply _ e) as [t a]. simpl.
  destruct s; destruct (completes_a_message e), e; simpl; try done.
  all: unfold turn_retrying, turn_usage, usage_charged, turn_completed, item_started, rewound,
    signalled, session_updated; simpl; by repeat case_match.
Qed.

Lemma publish_all_transcript ts s es :
  st_transcript (publish_all ts s es) = transcript_fold (st_transcript s) es.
Proof.
  revert s. induction es as [|e es IH]; intros s; [done|]. unfold publish_all in *. simpl.
  by rewrite IH, apply_event_transcript.
Qed.

Lemma publish_all_app ts s es es' :
  publish_all ts s (es ++ es') = publish_all ts (publish_all ts s es) es'.
Proof. apply foldl_app. Qed.

Lemma transcript_apply_items t e : t_items (transcript_apply t e).1 = t_items (change t e).1.
Proof. unfold transcript_apply. destruct (change t e). by case_bool_decide. Qed.

(** The items after an upsert: the new one, and the others. *)
Lemma elem_of_upsert t item it : transcript_wf t →
  it ∈ t_items (upsert t item).1 ↔ it = item ∨ it ∈ t_items t ∧ item_id it ≠ item_id item.
Proof.
  intros H. unfold upsert. destruct (t_positions t !! item_id item) as [i|] eqn:E.
  - destruct (proj1 (wf_lookup t _ i H) E) as (old & Hi & Hid).
    assert (∀ l p, t_items ((let '(order, ids) := p in
       (mkTranscript (t_generation t) l (t_positions t) order ids (t_hidden t) (t_cut t) (t_has_more t) (t_revision t),
        AItem (item_id item)) : Transcript * Applied)).1 = l) as Hl by (by intros ? []).
    rewrite Hl. rewrite !list_elem_of_lookup. split.
    + intros [j Hj]. destruct (decide (i = j)) as [->|Hne].
      * rewrite list_lookup_insert_eq in Hj by (by eapply lookup_lt_Some). left. congruence.
      * rewrite list_lookup_insert_ne in Hj by done. right. split; [by exists j|]. intros Heq.
        apply Hne. apply (NoDup_lookup (ids_of (t_items t)) i j (item_id item)); [apply H|..];
          rewrite list_lookup_fmap, ?Hi, ?Hj; simpl; congruence.
    + intros [->|[[j Hj] Hne]].
      * exists i. apply list_lookup_insert_eq. by eapply lookup_lt_Some.
      * exists j. rewrite list_lookup_insert_ne; [done|]. intros ->. congruence.
  - apply wf_lookup_None in E; [|done].
    destruct (bool_decide _); simpl; rewrite elem_of_app, list_elem_of_singleton.
    all: split; [intros [?|?]; [right|by left]|naive_solver]; split; [done|].
    all: intros Heq; apply E; rewrite <- Heq; by apply list_elem_of_fmap_2.
Qed.

(** Interrupting a list of items of the transcript closes exactly those. *)
Lemma interrupt_fold at_ t open : transcript_wf t →
  let t' := transcript_fold t (interrupt_items open at_) in
  transcript_wf t' ∧
  ∀ it, it ∈ t_items t' → (it ∈ t_items t ∧ item_id it ∉ ids_of open)
    ∨ ∃ o, o ∈ open ∧ it = interrupted at_ o.
Proof.
  revert t. induction open as [|o open IH]; intros t H; simpl.
  { split; [done|]. intros it Hit. left. split; [done|]. apply not_elem_of_nil. }
  destruct (IH (transcript_apply t (ItemCompleted (interrupted at_ o))).1) as [Hwf Hin].
  { by apply transcript_apply_wf. }
  split; [exact Hwf|]. intros it Hit.
  destruct (Hin it Hit) as [[Hold Hne]|(o' & Ho' & ->)].
  - rewrite transcript_apply_items in Hold. simpl in Hold.
    apply (elem_of_upsert _ _ _ H) in Hold as [->|[Hold Hid]].
    + right. exists o. split; [by left|done].
    + left. split; [done|]. by intros [|]%elem_of_cons.
  - right. exists o'. split; [by right|done].
Qed.

Lemma cancel_all ts s asks :
  st_interactions (publish_all ts s ((λ ask, InteractionCancelled (int_id ask) CancelSessionClosed) <$> asks)) =
  retain (λ o, negb (bool_decide (int_id o ∈ int_id <$> asks))) (st_interactions s).
Proof.
  revert s. induction asks as [|a asks IH]; intros s; csimpl.
  { symmetry. by apply retain_all. }
  unfold publish_all in *. simpl. rewrite IH. destruct s as [? ? ? t ? ? l]; simpl.
  unfold apply_event. simpl. clear. induction l as [|o l IH]; simpl; [done|].
  destruct (decide (int_id o = int_id a)) as [E|E].
  - rewrite (bool_decide_eq_true_2 (int_id o = int_id a)) by done. simpl.
    rewrite (bool_decide_eq_true_2 (int_id o ∈ _)) by (rewrite E; left). done.
  - rewrite (bool_decide_eq_false_2 (int_id o = int_id a)) by done. simpl. rewrite IH.
    by rewrite (bool_decide_ext (int_id o ∈ int_id a :: _) (int_id o ∈ int_id <$> asks)) by set_solver.
Qed.

Lemma retain_own_ids (l : list Interaction) :
  retain (λ o, negb (bool_decide (int_id o ∈ int_id <$> l))) l = [].
Proof.
  apply retain_none. intros o Ho. apply negb_false_iff, bool_decide_eq_true.
  by apply list_elem_of_fmap_2.
Qed.

(** Events of a recovery leave the live turn and the open questions alone,
    cancellations and the completion apart. *)
Lemma interrupt_keeps ts s open at_ :
  st_interactions (publish_all ts s (interrupt_items open at_)) = st_interactions s
  ∧ st_turn (publish_all ts s (interrupt_items open at_)) = st_turn s.
Proof.
  revert s. induction open as [|o open IH]; intros s; [done|].
  unfold publish_all in *; simpl.
  destruct (IH (apply_event (ItemCompleted (interrupted at_ o)) ts s).1) as [-> ->].
  unfold apply_event. destruct (completes_a_message _), (transcript_apply _ _); by destruct s.
Qed.

Lemma cancel_keeps ts s asks :
  let s' := publish_all ts s ((λ ask, InteractionCancelled (int_id ask) CancelSessionClosed) <$> asks) in
  st_turn s' = st_turn s ∧ st_transcript s' = st_transcript s.
Proof.
  revert s. induction asks as [|a asks IH]; intros s; [done|]. simpl in *.
  destruct (IH (apply_event (InteractionCancelled (int_id a) CancelSessionClosed) ts s).1) as [H1 H2].
  split; [etrans; [exact H1|]|etrans; [exact H2|]]; by destruct s.
Qed.

Lemma interrupt_ids at_ t open : transcript_wf t → (∀ o, o ∈ open → item_id o ∈ ids_of (t_items t)) →
  ids_of (t_items (transcript_fold t (interrupt_items open at_))) = ids_of (t_items t).
Proof.
  revert t. induction open as [|o open IH]; intros t H Ho; simpl; [done|].
  assert (ids_of (t_items (transcript_apply t (ItemCompleted (interrupted at_ o))).1) = ids_of (t_items t)) as E.
  { rewrite transcript_apply_items. simpl. rewrite upsert_items_ids by done.
    rewrite decide_True, app_nil_r; [done|]. apply (Ho o). by left. }
  rewrite <- E. apply IH; [by apply transcript_apply_wf|]. rewrite E. intros o' ?. apply Ho. by right.
Qed.

Lemma elem_of_open_items t turn it :
  it ∈ open_items t turn ↔ it ∈ t_items t ∧ item_turn it = Some turn ∧ is_terminal it = false.
Proof.
  unfold open_items, is_terminal. rewrite elem_of_retain, andb_true_iff, bool_decide_eq_true, negb_true_iff.
  naive_solver.
Qed.

(** No item of the turn is left open. *)
Lemma interrupt_open at_ t turn : transcript_wf t →
  open_items (transcript_fold t (interrupt_items (open_items t turn) at_)) turn = [].
Proof.
  intros H. destruct (interrupt_fold at_ t (open_items t turn) H) as [_ Hin].
  apply retain_none. intros it Hit. apply not_true_iff_false.
  rewrite andb_true_iff, bool_decide_eq_true, negb_true_iff. intros [Ht Hs].
  destruct (Hin it Hit) as [[Hold Hne]|(o & Ho & ->)]; [|done].
  apply Hne, list_elem_of_fmap_2, elem_of_open_items. done.
Qed.

(** *** Rewind *)

Lemma dropped_spec l to_turn gone : dropped l to_turn = Some gone →
  ∃ opened first, l !! opened = Some first ∧ item_turn first = Some to_turn
    ∧ gone = ids_of (drop opened l) ∧ ∀ it, it ∈ take opened l → item_turn it ≠ Some to_turn.
Proof.
  unfold dropped. intros (opened & Hp & [= <-])%bind_Some.
  apply position_Some in Hp as (first & Hf & Ht%bool_decide_eq_true & Hb).
  exists opened, first. split_and!; [done..|]. intros it (j & Hj)%list_elem_of_lookup.
  apply lookup_take_Some in Hj as [Hj Hlt]. specialize (Hb j it Hlt Hj).
  by apply bool_decide_eq_false in Hb.
Qed.

(** Of items with distinct ids, those whose id is not among the tail's are the
    head's. *)
Lemma not_in_tail (l : list Item) n it : NoDup (ids_of l) → it ∈ l →
  (item_id it ∉ ids_of (drop n l) ↔ it ∈ take n l)
  ∧ (item_id it ∉ ids_of (drop n l) ↔ item_id it ∈ ids_of (take n l)).
Proof.
  intros Hnd Hit. rewrite <- (take_drop n l) in Hnd, Hit. rewrite fmap_app, NoDup_app in Hnd.
  destruct Hnd as (_ & Hdisj & _). apply elem_of_app in Hit as [Hit|Hit];
    pose proof (list_elem_of_fmap_2 item_id _ _ Hit) as Hid.
  - specialize (Hdisj _ Hid). done.
  - split; split; intros Hx; try done.
    + by destruct (Hdisj _ (list_elem_of_fmap_2 item_id _ _ Hx)).
    + by destruct (Hdisj _ Hx).
Qed.

Lemma upsert_new t item : transcript_wf t → item_id item ∉ ids_of (t_items t) →
  t_items (upsert t item).1 = t_items t ++ [item].
Proof.
  intros H Hn. unfold upsert. rewrite (proj2 (wf_lookup_None t _ H) Hn). by destruct (bool_decide _).
Qed.

Lemma retain_ext {A} (p q : A → bool) l : (∀ x, x ∈ l → p x = q x) → retain p l = retain q l.
Proof.
  induction l as [|x l IH]; simpl; intros H; [done|]. rewrite (H x) by left.
  rewrite IH; [done|]. intros y Hy. apply H. by right.
Qed.

(** The items left by the two events of a rewind. *)
Lemma rewound_items t marker g to_turn gone files : transcript_wf t →
  item_id marker ∉ ids_of (t_items t) → item_id marker ∉ gone →
  t_items (transcript_fold t [ItemCompleted marker; Rewound g to_turn gone files]) =
  retain (λ it, negb (is_dropped gone (item_id it))) (t_items t) ++ [marker].
Proof.
  intros H Hn Hg.
  change (t_items (transcript_apply (transcript_apply t (ItemCompleted marker)).1
            (Rewound g to_turn gone files)).1 =
          retain (λ it, negb (is_dropped gone (item_id it))) (t_items t) ++ [marker]).
  rewrite transcript_apply_items. cbn [change remove set_generation t_items fst].
  rewrite transcript_apply_items. cbn [change]. rewrite upsert_new, retain_app by done. simpl.
  unfold is_dropped at 2. by rewrite (bool_decide_eq_false_2 (item_id marker ∈ gone)).
Qed.

Lemma model_items_in t it : transcript_wf t → it ∈ model_items t → it ∈ t_items t.
Proof.
  intros H (id & _ & Hg)%list_elem_of_omap. by apply get_spec in Hg as [? _].
Qed.

Lemma recovery_state (s : SessionState) (at_ : Timestamp) : transcript_wf (st_transcript s) →
  let s' := publish_all at_ s
              (recovery_frames (st_interactions s) (st_turn s) (st_transcript s) at_) in
  st_interactions s' = [] ∧ st_turn s' = None
  ∧ ids_of (t_items (st_transcript s')) = ids_of (t_items (st_transcript s))
  ∧ (∀ live, st_turn s = Some live →
       open_items (st_transcript s') (lt_id live) = []
       ∧ st_last_turn s' = Some (mkLastTurn (lt_id live) (TurnFailed lost_error) (lt_started_at live)
                                   at_ (lt_usage live))).
Proof.
  intros H. unfold recovery_frames. rewrite publish_all_app.
  set (s1 := publish_all at_ s (_ <$> st_interactions s)).
  destruct (cancel_keeps at_ s (st_interactions s)) as [Ht1 Htr1]. fold s1 in Ht1, Htr1.
  assert (st_interactions s1 = []) as Hi1 by (unfold s1; by rewrite cancel_all, retain_own_ids).
  destruct (st_turn s) as [live|] eqn:El.
  2: { change (publish_all at_ s1 []) with s1. rewrite Hi1, Ht1, Htr1. by split_and!. }
  rewrite publish_all_app.
  set (s2 := publish_all at_ s1 _).
  destruct (interrupt_keeps at_ s1 (open_items (st_transcript s) (lt_id live)) at_) as [Hi2 Ht2].
  fold s2 in Hi2, Ht2.
  assert (st_transcript s2 = transcript_fold (st_transcript s) (interrupt_items (open_items (st_transcript s) (lt_id live)) at_)) as Htr2.
  { unfold s2. by rewrite publish_all_transcript, Htr1. }
  pose proof (interrupt_open at_ (st_transcript s) (lt_id live) H) as Hopen.
  pose proof (interrupt_ids at_ (st_transcript s) (open_items (st_transcript s) (lt_id live)) H) as Hids.
  rewrite <- Htr2 in Hopen, Hids. rewrite Hi1 in Hi2. rewrite Ht1 in Ht2.
  clearbody s2. clear s1 Htr2 Ht1 Htr1 Hi1. destruct s2 as [? ? ? t2 tu2 ? ia2]; simpl in *. subst.
  unfold publish_all, apply_event; simpl. rewrite bool_decide_eq_true_2 by done. simpl.
  split_and!; [done|done| |].
  - apply Hids. intros o [Ho _]%elem_of_open_items. by apply list_elem_of_fmap_2.
  - by intros live' [= ->].
Qed.

(** ** Claims *)

(** whatever a process lost mid-turn, the events recovery publishes settle
    it: no question stays open, no turn stays live, every item of the lost turn
    is terminal, the turn is on record as failed with the usage it had, and no
    item appears or disappears; recovering again publishes nothing. *)
Theorem recovery_settles (s : SessionState) (at_ : Timestamp) (H : transcript_wf (st_transcript s)) :
  let s' := publish_all at_ s
              (recovery_frames (st_interactions s) (st_turn s) (st_transcript s) at_) in
  st_interactions s' = [] ∧ st_turn s' = None
  ∧ ids_of (t_items (st_transcript s')) = ids_of (t_items (st_transcript s))
  ∧ (∀ live, st_turn s = Some live →
       open_items (st_transcript s') (lt_id live) = []
       ∧ st_last_turn s' = Some (mkLastTurn (lt_id live) (TurnFailed lost_error) (lt_started_at live)
                                   at_ (lt_usage live)))
  ∧ recovery_frames (st_interactions s') (st_turn s') (st_transcript s') at_ = [].
Proof.
  destruct (recovery_state s at_ H) as (Hi & Ht & Hids & Hl). cbv zeta.
  split_and!; [done..|]. by rewrite Hi, Ht.
Qed.

(** rewinding to a turn of the history succeeds when no turn runs, and
    takes back that turn's first item and everything after it: what the state
    keeps is what it held of the history before the cut, in order, then the
    item that says so; no item of the turn is left, neither in the transcript
    nor in what the model reads, and the history generation moves on. *)
Theorem rewind_cuts (s : SessionState) (T : Transcript) (to_turn : TurnId) (id : ItemId)
  (now : Timestamp) (it0 : Item)
  (Hwf : transcript_wf (st_transcript s)) (Hnd : NoDup (ids_of (items T)))
  (Hall : ∀ it, it ∈ t_items (st_transcript s) → it ∈ items T)
  (Hfresh : id ∉ ids_of (items T))
  (Hin : it0 ∈ items T) (Hturn : item_turn it0 = Some to_turn) :
  ∃ opened first evs count,
    rewind false s T to_turn id now = Ok (evs, count)
    ∧ items T !! opened = Some first ∧ item_turn first = Some to_turn
    ∧ let t' := st_transcript (publish_all now s evs) in
      t_items t' =
        retain (λ it, bool_decide (item_id it ∈ ids_of (take opened (items T)))) (t_items (st_transcript s))
        ++ [fresh id now None None (BRewind to_turn count)]
      ∧ (∀ it, it ∈ t_items t' ∨ it ∈ model_items t' → item_turn it ≠ Some to_turn)
      ∧ t_generation t' = u64_add (t_generation (st_transcript s)) 1.
Proof.
  destruct (dropped (items T) to_turn) as [gone|] eqn:Hd.
  2: { exfalso. unfold dropped in Hd. apply bind_None in Hd as [Hp|(? & _ & ?)]; [|done].
       rewrite position_None in Hp. specialize (Hp it0 Hin). by rewrite bool_decide_eq_true_2 in Hp. }
  destruct (dropped_spec _ _ _ Hd) as (opened & first & Hf & Hft & -> & Hbefore).
  eexists opened, first, _, _. unfold rewind. rewrite Hd. do 3 (split; [done|]). cbv zeta.
  set (marker := fresh _ _ _ _ _).
  rewrite !publish_all_transcript.
  assert (item_id marker ∉ ids_of (t_items (st_transcript s))) as Hm1.
  { intros (it & Hid & Hit)%list_elem_of_fmap. apply Hfresh. apply Hall in Hit.
    change id with (item_id marker). rewrite Hid. by apply list_elem_of_fmap_2. }
  assert (item_id marker ∉ ids_of (drop opened (items T))) as Hm2.
  { intros (it & Hid & Hit%elem_of_drop_in)%list_elem_of_fmap. apply Hfresh.
    change id with (item_id marker). rewrite Hid. by apply list_elem_of_fmap_2. }
  assert (∀ t', t_items t' = retain (λ it, negb (is_dropped (ids_of (drop opened (items T))) (item_id it)))
       (t_items (st_transcript s)) ++ [marker] → ∀ it, it ∈ t_items t' → item_turn it ≠ Some to_turn) as Hno.
  { intros t' -> it [[Hit Hnd']%elem_of_retain| ->%list_elem_of_singleton]%elem_of_app; [|done].
    apply Hbefore. apply negb_true_iff, bool_decide_eq_false in Hnd'. apply Hall in Hit.
    by apply (not_in_tail _ opened _ Hnd Hit). }
  pose proof (rewound_items (st_transcript s) marker
    (u64_add (t_generation (st_transcript s)) 1) to_turn (ids_of (drop opened (items T))) [] Hwf Hm1 Hm2) as Hi.
  split_and!.
  - rewrite Hi. f_equal. apply retain_ext. intros it Hit%Hall. unfold is_dropped.
    rewrite <- bool_decide_not. apply bool_decide_ext, not_in_tail; done.
  - intros it [Hit|Hit]; [by eapply Hno|]. eapply Hno; [exact Hi|]. apply model_items_in; [|done].
    by apply transcript_fold_wf.
  - unfold transcript_fold; simpl. unfold transcript_apply; simpl.
    by destruct (upsert (st_transcript s) marker).
Qed.

(** ** Witnesses *)

(** A state mid-turn: one item running, one question open. *)
Definition demo_lost : SessionState :=
  publish_all 0 demo_state
    [TurnStarted (lit "t1") [] OSubmit; ItemStarted demo_running; InteractionOpened (demo_ask (lit "a"))].

Lemma demo_lost_wf : transcript_wf (st_transcript demo_lost).
Proof. unfold demo_lost. rewrite publish_all_transcript. apply transcript_fold_wf, transcript_new_wf. Qed.

Lemma recovery_settles_witness :
  length (open_items (st_transcript demo_lost) (lit "t1")) = 1 ∧
  let s' := publish_all 7 demo_lost
              (recovery_frames (st_interactions demo_lost) (st_turn demo_lost) (st_transcript demo_lost) 7) in
  st_interactions s' = [] ∧ st_turn s' = None ∧ open_items (st_transcript s') (lit "t1") = [].
Proof.
  split; [by vm_compute|].
  destruct (recovery_settles demo_lost 7 demo_lost_wf) as (H1 & H2 & _ & H3 & _).
  split_and!; [exact H1|exact H2|]. refine (proj1 (H3 (mkLiveTurn (lit "t1") 0 OSubmit 0 usage_default None) _)).
  by vm_compute.
Defined.

Definition demo_two_turns : SessionState :=
  publish_all 0 demo_state
    [ItemCompleted (demo_item (lit "i1") (Some (lit "t1")) Completed (lit "one"));
     ItemCompleted (demo_item (lit "n1") None Completed (lit "notice"));
     ItemCompleted (demo_item (lit "i2") (Some (lit "t2")) Completed (lit "two"));
     ItemCompleted (demo_item (lit "n2") None Completed (lit "notice"))].

Lemma rewind_cuts_witness :
  ∃ evs count, rewind false demo_two_turns (st_transcript demo_two_turns) (lit "t2") (lit "r") 9 = Ok (evs, count)
    ∧ ids_of (t_items (st_transcript (publish_all 9 demo_two_turns evs))) = [lit "i1"; lit "n1"; lit "r"].
Proof.
  destruct (rewind_cuts demo_two_turns (st_transcript demo_two_turns) (lit "t2") (lit "r") 9
    (demo_item (lit "i2") (Some (lit "t2")) Completed (lit "two"))) as (o & f & evs & c & Hr & _ & _ & Hi & _).
  - unfold demo_two_turns. rewrite publish_all_transcript. apply transcript_fold_wf, transcript_new_wf.
  - apply (bool_decide_unpack _). by vm_compute.
  - by intros it Hit.
  - apply (bool_decide_unpack _). by vm_compute.
  - vm_compute. do 2 right. by left.
  - done.
  - exists evs, c. split; [exact Hr|]. vm_compute in Hr. by simplify_eq.
Defined.
