(* ===== verification/Ears.v ===== *)
(** * Ears: the names of a room and what its seats hear (bingo-collab name.rs, ear.rs)

    Names, the ear a seat wears, the roster a door declares and the two layers a
    room's ears are kept in: what the roster declared, and what a seat retuned
    since.  A [Duration] here is a whole number of seconds, the only ones the code
    makes.  The tables of Unicode ([str::to_lowercase], [char::is_alphanumeric]) and
    the escapes of [{:?}] on a string are the class [Unicode]. *)

From S2P Require Import Prelude Text Model Interaction Event Transcript State.

Class Unicode := {
  to_lowercase : str → str;
  is_alphanumeric : char → bool;
  debug : str → str;
}.
Class UnicodeLaws `{Unicode} := lowercase_idemp : ∀ s, to_lowercase (to_lowercase s) = to_lowercase s.

(** ** Strings as the crates write them *)

Definition show_N (n : N) : str := show_Z (Z.of_N n).
Definition string_or_null (s : option str) : Value := match s with Some s => VString s | None => VNull end.

(** [bingo_sdk::slot::with] with no slots. *)
Definition slots_none (payload : Value) : Value := set_field (lit "slots") (VArray []) payload.

(** ** View::Tree *)

Inductive TreeNode := mkTreeNode (label : str) (badge : option str) (tone : Tone) (children : list TreeNode).
Definition tone_name (t : Tone) : str :=
  match t with Neutral => lit "neutral" | Good => lit "good" | Bad => lit "bad" | Attention => lit "attention" end.
Fixpoint node_value (n : TreeNode) : Value :=
  let 'mkTreeNode label badge tone children := n in
  VObject ([(lit "label", VString label)] ++ match badge with Some b => [(lit "badge", VString b)] | None => [] end
           ++ [(lit "tone", VString (tone_name tone))]
           ++ match children with [] => [] | _ => [(lit "children", VArray (map node_value children))] end).
Definition tree_view (nodes : list TreeNode) : Value := VObject [(lit "kind", VString (lit "tree")); (lit "nodes", VArray (map node_value nodes))].

Section names.
Context `{Unicode}.

(** ** name.rs *)

Definition PARENT : str := lit "parent".
Definition same (a b : str) : bool := bool_decide (to_lowercase a = to_lowercase b).
Definition is_holder (member : str) : bool := same member PARENT.
Definition signed_by (seat : SessionSummary) : str :=
  if option_is_some (ss_parent seat) then default PARENT (ss_title seat) else PARENT.

Definition CLOSE : str := lit "close".
Definition ROOM : char := chr "#".
Definition invalid_input (message : str) : KernelError := mkKernelError InvalidInput message.

Definition segment (name noun : str) : result KernelError str :=
  let name := trim name in
  if bool_decide (name = []) || contains_char (chr "/") name || any is_whitespace name
  then Err (invalid_input (debug name ++ lit " is not a " ++ noun ++ lit ": one word, no slashes"))
  else Ok name.
Definition room_address (name : str) : result KernelError str := segment name (lit "room name").
Definition em_dash : char := 8212%N.
Definition check_room (name : str) : result KernelError str :=
  let* name := room_address name in
  if any (fun verb => same name verb) [CLOSE; lit "seat"; lit "unseat"; lit "purpose"]
  then Err (invalid_input (debug name ++ lit " is a room command " ++ em_dash :: lit " `/room " ++ name ++ lit " <name>` "
                           ++ em_dash :: lit " so no room is called it; pick another name"))
  else Ok name.
Definition title (name : str) : str := ROOM :: name.
Definition agent_name (name : str) : result KernelError str :=
  let* name := segment name (lit "name") in
  if same name PARENT
  then Err (invalid_input (debug PARENT ++ lit " is what a child calls whoever spawned it; pick another name"))
  else if starts_with name [ROOM]
       then Err (invalid_input (debug name ++ lit " reads as a room; an agent's name starts with a letter"))
       else Ok name.
Definition of_session (summary : SessionSummary) : str := default (ss_id summary) (ss_title summary).

(** ** ear.rs *)

Definition PATIENCE : N := 300%N.
Definition FLOOR : N := 30%N.
Definition PATIENCE_S : str := lit "patience_s".

Inductive Ear := Live | Patient (seconds : N).
#[export] Instance Ear_eq_dec : EqDecision Ear.
Proof. solve_decision. Defined.
Definition ear_default : Ear := Patient PATIENCE.

Definition dead_band (seconds : N) : KernelError :=
  invalid_input (show_N seconds ++ lit "s is under thirty seconds of patience: take the live seat you are describing " ++ em_dash ::
                 lit " 0 for an ear every post wakes, or " ++ show_N FLOOR ++ lit " and up for a patient one").
Definition asked (seconds : N) : result KernelError Ear :=
  if (seconds =? 0)%N then Ok Live else if (seconds <? FLOOR)%N then Err (dead_band seconds) else Ok (Patient seconds).
Definition declared (seconds : option N) : result KernelError Ear :=
  match seconds with None => Ok ear_default | Some seconds => asked seconds end.
Definition stored (seconds : N) : Ear := if (seconds =? 0)%N then Live else Patient (N.max seconds FLOOR).
Definition is_live (e : Ear) : bool := bool_decide (e = Live).
Definition seconds (e : Ear) : N := match e with Live => 0%N | Patient patience => patience end.
Definition ear_said (e : Ear) : str :=
  match e with
  | Live => lit "every post wakes you as it lands"
  | Patient patience => lit "you read the room at your next turn, and are woken once it has stood unread for " ++ show_N patience ++ lit "s"
  end.

Record Seat := mkSeat { se_name : str; se_ear : Ear }.
#[export] Instance Seat_eq_dec : EqDecision Seat.
Proof. solve_decision. Defined.
Definition seat_live (name : str) : Seat := mkSeat name Live.
Definition seat_named (name : str) : Seat := mkSeat name ear_default.

Definition patience (seconds : str) : result KernelError N :=
  match parse_u64 (trim seconds) with
  | Some n => Ok n
  | None => Err (invalid_input (debug seconds ++ lit " is not a patience: `name` takes the default, `name:120` waits that many seconds, `name:0` wakes for every post"))
  end.
Definition seat_read (word : str) : result KernelError Seat :=
  let* na := match split_once (lit ":") word with
             | Some (name, seconds) => let* n := patience seconds in Ok (name, Some n)
             | None => Ok (word, None)
             end in
  let* ear := declared na.2 in
  Ok (mkSeat na.1 ear).
Definition seat_said (s : Seat) : str :=
  if bool_decide (se_ear s = ear_default) then se_name s else se_name s ++ lit ":" ++ show_N (seconds (se_ear s)).

Definition NOBODY : str := lit "nobody yet".
Definition badge (e : Ear) : option str :=
  if bool_decide (e = ear_default) then None
  else match e with Live => Some (lit "live") | Patient patience => Some (show_N patience ++ lit "s") end.
Definition leaf (label : str) (badge : option str) : TreeNode := mkTreeNode label badge Neutral [].
Definition nodes (seats : list Seat) : list TreeNode :=
  match seats with
  | [] => [leaf NOBODY None]
  | _ => (fun s => leaf (se_name s) (badge (se_ear s))) <$> seats
  end.

Inductive Listener := LName (name : str) | LAsked (name : str) (patience_s : option N).
Definition listener_seat (l : Listener) : result KernelError Seat :=
  let '(name, asked) := match l with LName name => (name, None) | LAsked name patience_s => (name, patience_s) end in
  let* ear := declared asked in Ok (mkSeat name ear).
(** Where a roster already has the name, its ear is set; else the seat is added. *)
Fixpoint seat_over (seats : list Seat) (seat : Seat) : list Seat :=
  match seats with
  | [] => [seat]
  | held :: seats => if same (se_name held) (se_name seat) then mkSeat (se_name held) (se_ear seat) :: seats else held :: seat_over seats seat
  end.
Fixpoint seats_from (seats : list Seat) (listeners : list Listener) : result KernelError (list Seat) :=
  match listeners with
  | [] => Ok seats
  | l :: listeners => let* seat := listener_seat l in seats_from (seat_over seats seat) listeners
  end.
Definition seats (members : list str) (listeners : list Listener) : result KernelError (list Seat) :=
  seats_from (seat_named <$> members) listeners.

(** *** Ears *)

Record Ears := mkEars { ea_declared : gmap str Ear; ea_retuned : gmap str Ear }.
Definition ears_default : Ears := mkEars ∅ ∅.
Definition key (member : str) : str := to_lowercase member.
Definition ear_of (ears : Ears) (member : str) : Ear :=
  default ear_default (option_or (ea_retuned ears !! key member) (ea_declared ears !! key member)).

Definition MEMBERS : str := lit "members".
Definition LISTENERS : str := lit "listeners".
Definition EAR : str := lit "ear:".
Definition PLUGIN : str := lit "bingo.rooms".

Definition listed (entry : Value) : option (str * Ear) :=
  let? name := value_get (lit "name") entry ≫= as_str in
  Some (key name, match value_get PATIENCE_S entry ≫= as_u64 with Some seconds => stored seconds | None => ear_default end).
Definition declared_ears (payload : Value) : gmap str Ear :=
  match value_get LISTENERS payload ≫= as_array with Some listeners => collect_map (omap listed listeners) | None => ∅ end.
Definition stored_ear (payload : Value) : option Ear := stored <$> (value_get PATIENCE_S payload ≫= as_u64).

Definition declare (payload : Value) (ears : Ears) : Ears := mkEars (declared_ears payload) (ea_retuned ears).
Definition retune (member : str) (payload : Value) (ears : Ears) : Ears :=
  mkEars (ea_declared ears)
    (match stored_ear payload with Some ear => <[key member := ear]> (ea_retuned ears) | None => delete (key member) (ea_retuned ears) end).
Definition retuned_seats (ears : Ears) : list str := merge_sort str_le (map_to_list (ea_retuned ears)).*1.

Definition ear_kind (member : str) : str := EAR ++ key member.
Definition register (ear : Ear) : Value := VObject [(PATIENCE_S, VNumber (PosInt (seconds ear)))].
Definition listeners_of (seats : list Seat) : option Value :=
  let listed := (fun seat => VObject [(lit "name", VString (se_name seat)); (PATIENCE_S, VNumber (PosInt (seconds (se_ear seat))))])
                  <$> retain (fun seat => negb (bool_decide (se_ear seat = ear_default))) seats in
  match listed with [] => None | _ => Some (VArray listed) end.

(** The kinds of a plugin in a [BTreeMap]'s order. *)
Definition kinds_in_order (kinds : gmap str Value) : list (str * Value) :=
  omap (fun k => (fun v => (k, v)) <$> kinds !! k) (merge_sort str_le (map_to_list kinds).*1).
Definition retune_kind (ears : Ears) (kv : str * Value) : Ears :=
  match strip_prefix EAR kv.1 with Some member => retune member kv.2 ears | None => ears end.
Definition ears_of (state : SessionState) : Ears :=
  match st_extensions state !! PLUGIN with
  | None => ears_default
  | Some kinds =>
      let ears := match kinds !! MEMBERS with Some payload => declare payload ears_default | None => ears_default end in
      foldl retune_kind ears (kinds_in_order kinds)
  end.

End names.
