(* ===== verification/Numbers.v ===== *)
(** * Numbers: numbers read back as they are printed

    The decimal text of a number and the parsers of [Text] over it, and UTF-8: an
    encoding that keeps strings apart. *)

From Stdlib Require DecimalPos DecimalString Decimal.
From S2P Require Import Prelude Text Model Interaction Event Transcript State Ears.

(** ** Numbers *)

Lemma of_uint_acc_le d acc : (acc ≤ Pos.of_uint_acc d acc)%positive.
Proof. revert acc. induction d; intros acc; cbn [Pos.of_uint_acc]; [lia|..]; (etrans; [|eauto]; lia). Qed.

Lemma digits_below_digit b n c s : is_ascii_digit c = true → (n * 10 + (c - 48) < b)%N →
  digits_below b n (c :: s) = digits_below b (n * 10 + (c - 48)) s.
Proof. intros Hc Hb. cbn [digits_below]. rewrite Hc. by rewrite (proj2 (N.ltb_lt _ _) Hb). Qed.

Lemma digits_below_acc b d acc : (N.pos (Pos.of_uint_acc d acc) < b)%N →
  digits_below b (N.pos acc) (lit (DecimalString.NilEmpty.string_of_uint d)) = Some (N.pos (Pos.of_uint_acc d acc)).
Proof.
  revert acc. induction d as [|d IH|d IH|d IH|d IH|d IH|d IH|d IH|d IH|d IH|d IH]; intros acc Hb; [done|..].
  all: cbn [Pos.of_uint_acc] in *; rewrite <- IH by done.
  all: match goal with Hb : (N.pos (Pos.of_uint_acc ?d ?y) < _)%N |- _ =>
    pose proof (of_uint_acc_le d y) as Hle; cbn [DecimalString.NilEmpty.string_of_uint];
    match goal with |- digits_below _ _ (lit (String.String ?a ?r)) = _ =>
      change (lit (String.String a r)) with (Ascii.N_of_ascii a :: lit r) end;
    rewrite digits_below_digit by (first [reflexivity | cbn; lia]); f_equal; cbn; lia end.
Qed.

Lemma digits_below_uint b d : (Pos.of_uint d < b)%N → digits_below b 0 (lit (DecimalString.NilEmpty.string_of_uint d)) = Some (Pos.of_uint d).
Proof.
  induction d as [|d IH|d IH|d IH|d IH|d IH|d IH|d IH|d IH|d IH|d IH]; intros Hb; [done|..].
  all: cbn [DecimalString.NilEmpty.string_of_uint Pos.of_uint] in *.
  all: match goal with |- digits_below _ _ (lit (String.String ?a ?r)) = _ => change (lit (String.String a r)) with (Ascii.N_of_ascii a :: lit r) end.
  1: by rewrite digits_below_digit by (first [reflexivity | cbn; lia]); apply IH.
  all: match goal with |- context [Pos.of_uint_acc ?d ?y] => pose proof (of_uint_acc_le d y) end.
  all: rewrite digits_below_digit by (first [reflexivity | cbn; lia]).
  all: match goal with |- digits_below _ ?n _ = Some (N.pos (Pos.of_uint_acc _ ?y)) => change n with (N.pos y) end; by apply digits_below_acc.
Qed.

Lemma to_uint_digits p : ∃ c r, lit (DecimalString.NilZero.string_of_uint (Pos.to_uint p)) = c :: r ∧ is_ascii_digit c = true
  ∧ lit (DecimalString.NilEmpty.string_of_uint (Pos.to_uint p)) = c :: r.
Proof.
  pose proof (DecimalPos.Unsigned.of_to p) as Hp. destruct (Pos.to_uint p) as [|d|d|d|d|d|d|d|d|d|d]; [done|..].
  all: eexists _, _; split_and!; reflexivity.
Qed.

Lemma digits_show b n : (n < b)%N → digits_below b 0 (show_N n) = Some n.
Proof.
  intros Hn. destruct n as [|p]; [destruct b; [lia|reflexivity]|]. unfold show_N, show_Z. cbn [Z.of_N Z.to_int DecimalString.NilZero.string_of_int].
  destruct (to_uint_digits p) as (c & r & -> & Hc & E). rewrite <- E, digits_below_uint; by rewrite DecimalPos.Unsigned.of_to.
Qed.
(** A number below [2^64] reads back as it is printed. *)
Lemma parse_show n : in_u64 n → parse_u64 (show_N n) = Some n.
Proof.
  intros Hn. destruct n as [|p]; [reflexivity|]. unfold show_N, show_Z. cbn [Z.of_N Z.to_int DecimalString.NilZero.string_of_int].
  destruct (to_uint_digits p) as (c & r & -> & Hc & E). unfold parse_u64.
  destruct (N.eqb_spec c 43) as [->|_]; [done|]. rewrite <- E, digits_below_uint; by rewrite DecimalPos.Unsigned.of_to.
Qed.

Lemma uint_chars d : Forall (λ c, is_ascii_digit c = true) (lit (DecimalString.NilEmpty.string_of_uint d)).
Proof. induction d; [constructor|..]; (constructor; [reflexivity|done]). Qed.
Lemma show_chars n : Forall (λ c, is_ascii_digit c = true) (show_N n).
Proof.
  destruct n as [|p]; [by repeat constructor|]. unfold show_N, show_Z. cbn [Z.of_N Z.to_int DecimalString.NilZero.string_of_int].
  destruct (to_uint_digits p) as (c & r & -> & _ & <-). apply uint_chars.
Qed.
Lemma show_free n c : is_ascii_digit c = false → c ∉ show_N n.
Proof. intros Hc Hin. pose proof (show_chars n) as H. rewrite Forall_forall in H. specialize (H _ Hin). congruence. Qed.
Lemma trim_show n : trim (show_N n) = show_N n.
Proof.
  apply trim_plain. intros c Hin. pose proof (show_chars n) as H. rewrite Forall_forall in H. specialize (H _ Hin).
  unfold is_ascii_digit, is_whitespace in *. bools.
  repeat match goal with H : (_ <=? _)%N = true |- _ => apply N.leb_le in H end.
  repeat (apply orb_false_iff; split); try apply N.eqb_neq; try (apply andb_false_iff; rewrite !N.leb_gt); lia.
Qed.

Lemma show_N_cons n : ∃ c r, show_N n = c :: r ∧ is_ascii_digit c = true.
Proof.
  destruct (show_N n) as [|c r] eqn:E.
  - destruct n as [|p]; [done|]. unfold show_N, show_Z in E. cbn [Z.of_N Z.to_int DecimalString.NilZero.string_of_int] in E.
    destruct (to_uint_digits p) as (c & r & E' & _). by rewrite E' in E.
  - exists c, r. split; [done|]. pose proof (show_chars n) as H. rewrite E in H. by apply Forall_cons in H as [].
Qed.

(** ** UTF-8 *)

Definition scalar (c : char) : Prop := (c < 1114112)%N.

(** What a character's encoding begins says where it ends. *)
Lemma utf8_char_inv c d r s : scalar c → scalar d → utf8_char c ++ r = utf8_char d ++ s → c = d ∧ r = s.
Proof.
  unfold scalar, utf8_char. intros Hc Hd.
  assert (∀ x k, (k ≠ 0 → x = k * (x / k) + x mod k ∧ x mod k < k)%N) as Hdm.
  { intros x k Hk. split; [by apply N.div_mod|by apply N.mod_lt]. }
  pose proof (λ x, Hdm x 64%N ltac:(done)) as H64.
  pose proof (H64 c). pose proof (H64 d). pose proof (H64 (c / 64)%N). pose proof (H64 (d / 64)%N).
  pose proof (H64 (c / 4096)%N). pose proof (H64 (d / 4096)%N).
  assert (∀ x, (x / 4096 = x / 64 / 64 ∧ x / 262144 = x / 64 / 64 / 64)%N) as Hdd.
  { intros x. rewrite !N.Div0.div_div. done. }
  pose proof (Hdd c) as [E1 E2]. pose proof (Hdd d) as [E3 E4]. rewrite E1, E2, E3, E4 in *.
  repeat match goal with |- context [N.ltb ?a ?b] => destruct (N.ltb_spec a b) end;
    cbn [app]; intros E; simplify_list_eq; repeat match goal with H : _ :: _ = _ :: _ |- _ => injection H as ? end; (split; [|try done]); try lia.
Qed.
Lemma utf8_inj a b : Forall scalar a → Forall scalar b → utf8 a = utf8 b → a = b.
Proof.
  revert b. induction a as [|c a IH]; intros [|d b] Ha Hb E; [done| | |].
  1, 2: exfalso; cbn in E; unfold utf8_char in E; repeat (destruct (N.ltb _ _) in E; [done|]); done.
  apply Forall_cons in Ha as [Hc Ha], Hb as [Hd Hb]. apply utf8_char_inv in E as [-> E]; [|done..]. f_equal. by apply IH.
Qed.
