(* ===== verification/Utf8.v ===== *)
(** * Utf8: bytes as text

    The standard library's reading of bytes as UTF-8 ([str::from_utf8] with its
    [Utf8Error]), one character at a time: what a byte begins, where it is broken, and
    what is only short of its end.  With the encoding of [Text] it is a round trip, and
    it reads the same however the bytes are cut. *)

From S2P Require Import Prelude Text Numbers.
Local Open Scope N_scope.

Abbreviation bytes := (list N).
(** [char::REPLACEMENT_CHARACTER] *)
Definition REPLACEMENT : char := 65533.

(** What the front of some bytes is: a character, a sequence that can never be one
    ([Utf8Error::error_len]), or one that ends before it is whole. *)
Inductive Front := Char (c : char) (rest : bytes) | Broken (n : nat) | Short.
Definition continues (b : N) : bool := (128 <=? b) && (b <? 192).
Definition within (lo hi b : N) : bool := (lo <=? b) && (b <=? hi).
Definition front2 (a : N) (l : bytes) : Front :=
  match l with
  | [] => Short
  | b :: r => if continues b then Char ((a - 192) * 64 + (b - 128)) r else Broken 1
  end.
Definition second3 (a b : N) : bool :=
  if a =? 224 then within 160 191 b else if a =? 237 then within 128 159 b else continues b.
Definition front3 (a : N) (l : bytes) : Front :=
  match l with
  | [] => Short
  | b :: l =>
      if second3 a b then
        match l with
        | [] => Short
        | c :: r => if continues c then Char ((a - 224) * 4096 + (b - 128) * 64 + (c - 128)) r else Broken 2
        end
      else Broken 1
  end.
Definition second4 (a b : N) : bool :=
  if a =? 240 then within 144 191 b else if a =? 244 then within 128 143 b else continues b.
Definition front4 (a : N) (l : bytes) : Front :=
  match l with
  | [] => Short
  | b :: l =>
      if second4 a b then
        match l with
        | [] => Short
        | c :: l =>
            if continues c then
              match l with
              | [] => Short
              | d :: r => if continues d then Char ((a - 240) * 262144 + (b - 128) * 4096 + (c - 128) * 64 + (d - 128)) r else Broken 3
              end
            else Broken 2
        end
      else Broken 1
  end.
Definition front (a : N) (l : bytes) : Front :=
  if a <? 128 then Char a l
  else if within 194 223 a then front2 a l
  else if within 224 239 a then front3 a l
  else if within 240 244 a then front4 a l
  else Broken 1.

(** [str::from_utf8]: the text up to where it stops, why it stops, and what is left. *)
Inductive End_ := Whole | BrokenBy (n : nat) | ShortOf.
Fixpoint valid (fuel : nat) (l : bytes) : str * End_ * bytes :=
  match fuel, l with
  | S fuel, a :: r =>
      match front a r with
      | Char c rest => let '(text, e, over) := valid fuel rest in (c :: text, e, over)
      | Broken n => ([], BrokenBy n, l)
      | Short => ([], ShortOf, l)
      end
  | _, _ => ([], Whole, l)
  end.
Definition from_utf8 (l : bytes) : str * End_ * bytes := valid (length l) l.

(** [String::from_utf8_lossy]: what is broken, or short of its end, is one replacement. *)
Fixpoint lossy_from (fuel : nat) (l : bytes) : str :=
  match fuel, l with
  | S fuel, a :: r =>
      match front a r with
      | Char c rest => c :: lossy_from fuel rest
      | Broken n => REPLACEMENT :: lossy_from fuel (drop n l)
      | Short => [REPLACEMENT]
      end
  | _, _ => []
  end.
Definition from_utf8_lossy (l : bytes) : str := lossy_from (length l) l.

(** A character there is: not half of a pair. *)
Definition is_char (c : char) : Prop := c < 55296 ∨ 57344 <= c < 1114112.

(** ** What the front of an encoding is *)

Lemma continues_true b : continues b = true ↔ 128 <= b < 192.
Proof. unfold continues. rewrite andb_true_iff, N.leb_le, N.ltb_lt. done. Qed.
Lemma within_true lo hi b : within lo hi b = true ↔ lo <= b <= hi.
Proof. unfold within. by rewrite andb_true_iff, !N.leb_le. Qed.
Lemma continued x k : continues (128 + x / k mod 64) = true.
Proof. apply continues_true. pose proof (N.mod_lt (x / k) 64 ltac:(done)) as Hm. revert Hm. generalize ((x / k) mod 64). lia. Qed.
Lemma continued_last x : continues (128 + x mod 64) = true.
Proof. apply continues_true. pose proof (N.mod_lt x 64 ltac:(done)) as Hm. revert Hm. generalize (x mod 64). lia. Qed.

(** A number by its last sixty-fourth part, for [lia]. *)
Ltac split64 c :=
  pose proof (N.div_mod c 64 ltac:(done)); pose proof (N.mod_lt c 64 ltac:(done));
  pose proof (N.le_0_l (c mod 64)); pose proof (N.le_0_l (c / 64)).
Lemma front_char c r : is_char c → ∃ a l, utf8_char c ++ r = a :: l ∧ front a l = Char c r.
Proof.
  unfold is_char, utf8_char. intros Hc. destruct (N.ltb_spec c 128) as [Hb1|Hb1]; [exists c, r; split; [done|]; unfold front; by rewrite (proj2 (N.ltb_lt c 128))|].
  split64 c. destruct (N.ltb_spec c 2048) as [Hb2|Hb2].
  { eexists _, _. split; [reflexivity|]. unfold front. cbn [app].
    rewrite (proj2 (N.ltb_ge _ 128)) by lia. rewrite (proj2 (within_true 194 223 _)) by lia.
    unfold front2. rewrite continued_last. f_equal. lia. }
  split64 (c / 64). assert (c / 4096 = c / 64 / 64) as E4 by (by rewrite N.Div0.div_div).
  destruct (N.ltb_spec c 65536) as [Hb3|Hb3].
  { eexists _, _. split; [reflexivity|]. unfold front. cbn [app]. rewrite E4.
    assert (within 194 223 (224 + c / 64 / 64) = false) as -> by (apply not_true_iff_false; rewrite within_true; lia).
    rewrite (proj2 (N.ltb_ge _ 128)) by lia. rewrite (proj2 (within_true 224 239 _)) by lia. unfold front3.
    assert (second3 (224 + c / 64 / 64) (128 + c / 64 mod 64) = true) as ->.
    { unfold second3. destruct (N.eqb_spec (224 + c / 64 / 64) 224); [apply within_true; lia|].
      destruct (N.eqb_spec (224 + c / 64 / 64) 237); [apply within_true; lia|apply continued]. }
    rewrite continued_last. f_equal. lia. }
  split64 (c / 64 / 64). assert (c / 262144 = c / 64 / 64 / 64) as E2 by (by rewrite !N.Div0.div_div).
  eexists _, _. split; [reflexivity|]. unfold front. cbn [app]. rewrite E2, E4.
  assert (within 194 223 (240 + c / 64 / 64 / 64) = false) as -> by (apply not_true_iff_false; rewrite within_true; lia).
  assert (within 224 239 (240 + c / 64 / 64 / 64) = false) as -> by (apply not_true_iff_false; rewrite within_true; lia).
  rewrite (proj2 (N.ltb_ge _ 128)) by lia. rewrite (proj2 (within_true 240 244 _)) by lia. unfold front4.
  assert (second4 (240 + c / 64 / 64 / 64) (128 + c / 64 / 64 mod 64) = true) as ->.
  { unfold second4. destruct (N.eqb_spec (240 + c / 64 / 64 / 64) 240); [apply within_true; lia|].
    destruct (N.eqb_spec (240 + c / 64 / 64 / 64) 244); [apply within_true; lia|]. rewrite <- E4. apply continued. }
  rewrite continued, continued_last. f_equal. lia.
Qed.

(** ** Cuts *)

(** The shape of every front, by cases on the bytes it looks at. *)
Ltac fronts l :=
  destruct l as [|? [|? [|? ?]]]; unfold front, front2, front3, front4; cbn [app length];
  repeat match goal with |- context [if ?b then _ else _] => destruct b end.
Lemma front_app a l x : front a l ≠ Short →
  front a (l ++ x) = match front a l with Char c r => Char c (r ++ x) | f => f end.
Proof. fronts l; by intros. Qed.
Lemma front_shrinks a l c r : front a l = Char c r → (length r ≤ length l)%nat.
Proof. fronts l; intros [= _ <-]; cbn; lia. Qed.
Lemma front_broken a l n : front a l = Broken n → (1 ≤ n ≤ S (length l))%nat.
Proof. fronts l; intros [= <-]; cbn; lia. Qed.
Lemma front_short_length a l : front a l = Short → (S (length l) < 4)%nat.
Proof. fronts l; intros [=]; cbn; lia. Qed.
Lemma front_cut c k : is_char c → (0 < k < length (utf8_char c))%nat →
  ∃ a l, take k (utf8_char c) = a :: l ∧ front a l = Short.
Proof.
  intros Hc Hk. destruct (front_char c [] Hc) as (a & l & E & Hf). rewrite app_nil_r in E. rewrite E in *. cbn in Hk.
  destruct k as [|k]; [lia|]. exists a, (take k l). split; [done|].
  destruct (front a (take k l)) eqn:Et; [| |done].
  - pose proof (front_app a (take k l) (drop k l) ltac:(congruence)) as Ha. rewrite take_drop, Hf, Et in Ha. injection Ha as _ Hr.
    apply (f_equal length) in Hr. rewrite length_app, length_drop in Hr. cbn in Hr. lia.
  - pose proof (front_app a (take k l) (drop k l) ltac:(congruence)) as Ha. by rewrite take_drop, Hf, Et in Ha.
Qed.
Lemma utf8_char_length c : (1 ≤ length (utf8_char c) ≤ 4)%nat.
Proof. unfold utf8_char. repeat destruct (N.ltb _ _); cbn; lia. Qed.
Lemma utf8_cons c s : utf8 (c :: s) = utf8_char c ++ utf8 s.
Proof. done. Qed.
Lemma utf8_app s t : utf8 (s ++ t) = utf8 s ++ utf8 t.
Proof. apply bind_app. Qed.
Lemma utf8_nil s : utf8 s = [] → s = [].
Proof. destruct s as [|c s]; [done|]. rewrite utf8_cons. intros [Hc _]%app_eq_nil. pose proof (utf8_char_length c). by rewrite Hc in *; cbn in *; lia. Qed.

Lemma valid_fuel fuel l : (length l ≤ fuel)%nat → valid fuel l = from_utf8 l.
Proof.
  unfold from_utf8. remember (length l) as m eqn:Em. assert (length l ≤ m)%nat as Hm by lia. clear Em. revert l m Hm.
  induction fuel as [|fuel IH]; intros [|a l] m Hm Hf; [by destruct m|cbn in *; lia|by destruct m|].
  destruct m as [|m]; [cbn in Hm; lia|]. cbn [valid]. destruct (front a l) eqn:Ef; [|done..]. apply front_shrinks in Ef. cbn in *.
  by rewrite (IH rest m) by lia.
Qed.
Lemma from_utf8_cons a l : from_utf8 (a :: l) =
  match front a l with
  | Char c rest => let '(text, e, over) := from_utf8 rest in (c :: text, e, over)
  | Broken n => ([], BrokenBy n, a :: l)
  | Short => ([], ShortOf, a :: l)
  end.
Proof.
  unfold from_utf8 at 1. cbn [length valid]. destruct (front a l) eqn:Ef; [|done..]. apply front_shrinks in Ef. by rewrite valid_fuel.
Qed.
Lemma from_utf8_char c r : is_char c → from_utf8 (utf8_char c ++ r) = let '(text, e, over) := from_utf8 r in (c :: text, e, over).
Proof. intros Hc. destruct (front_char c r Hc) as (a & l & E & Hf). by rewrite E, from_utf8_cons, Hf. Qed.

(** Bytes cut anywhere out of a text's encoding read as the characters that are whole,
    and are short of the one that is not. *)
Lemma from_utf8_cut s k : Forall is_char s → ∃ t u,
  s = t ++ u ∧ from_utf8 (take k (utf8 s)) = (t, match drop (length (utf8 t)) (take k (utf8 s)) with [] => Whole | _ => ShortOf end,
                                drop (length (utf8 t)) (take k (utf8 s)))
  ∧ (length (utf8 t) ≤ k)%nat ∧ (u ≠ [] → (k < length (utf8 t) + 4)%nat).
Proof.
  intros Hs. revert k. induction Hs as [|c s Hc Hs IH]; intros k.
  - exists [], []. cbn. rewrite take_nil. split_and!; [done..|lia|done].
  - rewrite utf8_cons. pose proof (utf8_char_length c). destruct (Nat.le_gt_cases (length (utf8_char c)) k) as [Hk|Hk].
    + destruct (IH (k - length (utf8_char c))%nat) as (t & u & -> & Hf & Hle & Hu). exists (c :: t), u.
      rewrite take_app_ge by done. rewrite from_utf8_char by done. rewrite Hf, utf8_cons, length_app.
      rewrite <- drop_drop, drop_app_length. split_and!; [done|done|lia|intros Hne; specialize (Hu Hne); lia].
    + exists [], (c :: s). cbn [utf8 length app]. rewrite take_app_le by lia. split_and!; [done| |cbn; lia|intros _; cbn; lia].
      destruct k as [|k]; [done|]. destruct (front_cut c (S k) Hc) as (a & l & E & Hf); [lia|]. rewrite E, from_utf8_cons, Hf. done.
Qed.
Lemma from_utf8_whole s : Forall is_char s → from_utf8 (utf8 s) = (s, Whole, []).
Proof. induction 1 as [|c s Hc Hs IH]; [done|]. by rewrite utf8_cons, from_utf8_char, IH. Qed.

(** What is read is characters. *)

Lemma front_is_char a l c r : front a l = Char c r → is_char c.
Proof.
  unfold front, is_char. destruct (N.ltb_spec a 128); [intros [= <- _]; lia|].
  destruct (within 194 223 a) eqn:E2.
  { apply within_true in E2. destruct l as [|b l]; [done|]. cbn. destruct (continues b) eqn:Eb; [|done]. apply continues_true in Eb. intros [= <- _]. lia. }
  destruct (within 224 239 a) eqn:E3.
  { apply within_true in E3. destruct l as [|b [|c' l]]; cbn; [done|by destruct (second3 a b)|].
    destruct (second3 a b) eqn:Eb; [|done]. destruct (continues c') eqn:Ec; [|done]. apply continues_true in Ec. intros [= <- _].
    unfold second3 in Eb. destruct (N.eqb_spec a 224); [apply within_true in Eb; lia|].
    destruct (N.eqb_spec a 237); [apply within_true in Eb; lia|]. apply continues_true in Eb. lia. }
  destruct (within 240 244 a) eqn:E4; [|done]. apply within_true in E4.
  destruct l as [|b [|c' [|e l]]]; cbn; [done|by destruct (second4 a b)|by destruct (second4 a b), (continues c')|].
  destruct (second4 a b) eqn:Eb; [|done]. destruct (continues c') eqn:Ec; [|done]. destruct (continues e) eqn:Ee; [|done].
  apply continues_true in Ec, Ee. intros [= <- _]. unfold second4 in Eb.
  destruct (N.eqb_spec a 240); [apply within_true in Eb; lia|].
  destruct (N.eqb_spec a 244); [apply within_true in Eb; lia|]. apply continues_true in Eb. lia.
Qed.
Lemma from_utf8_chars l text e rest : from_utf8 l = (text, e, rest) → Forall is_char text.
Proof.
  unfold from_utf8. generalize (length l). intros fuel. revert l text. induction fuel as [|fuel IH]; intros [|a l] text; cbn; [by intros [= <- _ _]..|].
  destruct (front a l) eqn:Ef; [|by intros [= <- _ _]..]. destruct (valid fuel rest0) as [[t e'] o] eqn:Ev. intros [= <- -> ->].
  constructor; [by eapply front_is_char|by eapply IH].
Qed.

Lemma lossy_fuel fuel l : (length l ≤ fuel)%nat → lossy_from fuel l = from_utf8_lossy l.
Proof.
  unfold from_utf8_lossy. remember (length l) as m eqn:Em. assert (length l ≤ m)%nat as Hm by lia. clear Em. revert l m Hm.
  induction fuel as [|fuel IH]; intros [|a l] [|m] Hm Hl; cbn in *; try done; try lia.
  destruct (front a l) as [c rest|n|] eqn:Ef; [| |done].
  - pose proof (front_shrinks _ _ _ _ Ef). f_equal. apply IH; lia.
  - apply front_broken in Ef. f_equal. pose proof (length_drop (a :: l) n) as Hd. cbn [length] in Hd. apply IH; lia.
Qed.
Lemma from_utf8_lossy_utf8 s : Forall is_char s → from_utf8_lossy (utf8 s) = s.
Proof.
  induction 1 as [|c s Hc _ IH]; [done|]. rewrite utf8_cons. destruct (front_char c (utf8 s) Hc) as (a & l & E & Ef).
  rewrite E. unfold from_utf8_lossy. cbn [length lossy_from]. rewrite Ef. f_equal. rewrite lossy_fuel; [done|].
  by eapply front_shrinks.
Qed.
