(* ===== verification/Rooms.v ===== *)
(** * Rooms: what a room's journal says (bingo-collab mentions.rs, owed.rs, cursor.rs,
    seen.rs, room.rs, room/moves.rs, room/readers.rs, lifecycle.rs)

    Every fact of a room is a fold of its own journal: the posts are the user items,
    the members, ears, purpose and end are the latest extensions of this plugin, and
    what is owed, unread or awaited is computed from those.  A [usize] that counts
    posts is a [nat] where it indexes a list and an [N] where it is printed and read
    back.  How a [Timestamp] is printed and parsed is the class [Clock]. *)

From S2P Require Import Prelude Text Model Interaction Event Transcript State Ears.

Class Clock := { show_timestamp : Timestamp → str; parse_timestamp : str → option Timestamp }.
(** What is displayed parses to the same moment. *)
Class ClockLaws `{Clock} := timestamp_reads_back : ∀ t, parse_timestamp (show_timestamp t) = Some t.

Section rooms.
Context `{Unicode}.

(** ** mentions.rs *)

Definition ALL : str := lit "all".
Definition HEAD : nat := 48.
Definition ellipsis : char := 8230%N.

Inductive Owed := OMember (name : str) | ORoom.
#[export] Instance Owed_eq_dec : EqDecision Owed.
Proof. solve_decision. Defined.
Definition chased (o : Owed) : option str := match o with OMember name => Some name | ORoom => None end.
Definition owed_said (o : Owed) : str := match o with OMember name => name | ORoom => chr "@" :: ALL end.

Record Mention := mkMention { mn_owed_by : Owed; mn_asker : str; mn_post : ItemId; mn_at : Timestamp; mn_head : str }.
Record Post := mkPost { po_id : ItemId; po_author : str; po_at : Timestamp; po_text : str }.

Definition parts_text (parts : list ContentPart) : str := concat (omap part_as_text parts).
Definition item_at (i : Item) : Timestamp := default (item_started_at i) (item_completed_at i).
Definition post_of (i : Item) : option Post :=
  match item_body i with
  | BUser parts origin => Some (mkPost (item_id i) (default PARENT (principal origin)) (item_at i) (parts_text parts))
  | _ => None
  end.
Definition posts_of (state : SessionState) : list Post := omap post_of (t_items (st_transcript state)).

Definition in_name (c : char) : bool := is_alphanumeric c || (c =? chr "_")%N || (c =? chr "-")%N.
(** [before]: the character before the [@], if any. *)
Definition calls (before : option char) : bool :=
  match before with None => true | Some b => negb (is_alphanumeric b || (b =? chr "_")%N) end.
Definition is_member (who : str) (members : list str) : bool := any (fun member => same member who) members.
Definition whom (word : str) (members : list str) : option Owed :=
  match find_bool (fun member => same member word) members with
  | Some member => Some (OMember member)
  | None => if same word ALL then Some ORoom else None
  end.
Fixpoint named_from (members : list str) (before : option char) (chars : str) (found : list Owed) : list Owed :=
  match chars with
  | [] => found
  | c :: rest =>
      let found :=
        if (c =? chr "@")%N && calls before then
          match whom (trim_end_matches (chr "-") (take_while in_name rest)) members with
          | Some owed => if bool_decide (owed ∈ found) then found else found ++ [owed]
          | None => found
          end
        else found in
      named_from members (Some c) rest found
  end.
Definition named (text : str) (members : list str) : list Owed := named_from members None text [].

Definition head_line (text : str) : str :=
  let line := trim (default [] (head (lines text))) in
  if length line <=? HEAD then line else take (HEAD - 1) line ++ [ellipsis].

Definition opens_for (author : str) (owed : Owed) : bool :=
  match chased owed with Some name => negb (same name author) | None => true end.
Definition opened (post : Post) (members : list str) : list Mention :=
  (fun owed => mkMention owed (po_author post) (po_id post) (po_at post) (head_line (po_text post)))
    <$> retain (opens_for (po_author post)) (named (po_text post) members).
(** Whether a debt still stands once [author] has spoken. *)
Definition stands (author : str) (members : list str) (m : Mention) : bool :=
  match mn_owed_by m with
  | OMember name => negb (same name author)
  | ORoom => same (mn_asker m) author || negb (is_member author members)
  end.
Definition settle (open : list Mention) (author : str) (members : list str) : list Mention := retain (stands author members) open.
Definition mentions (posts : list Post) (members : list str) : list Mention :=
  foldl (fun open post => settle open (po_author post) members ++ opened post members) [] posts.

(** ** cursor.rs *)

Definition CURSOR : str := lit "cursor:".
Definition POST : str := lit "post".
Definition cursor_kind (member : str) : str := CURSOR ++ to_lowercase member.
Definition cursor_payload (post : ItemId) : Value := VObject [(POST, VString post)].
Definition cursor_stored (payload : Value) : option ItemId := value_get POST payload ≫= as_str.
Definition published (state : SessionState) (kind : str) : option Value := st_extensions state !! PLUGIN ≫= (fun kinds => kinds !! kind).
Definition cursor_of (room : SessionState) (member : str) : option ItemId := published room (cursor_kind member) ≫= cursor_stored.
Definition unread (posts : list Post) (cursor : option ItemId) : list Post :=
  match cursor with
  | None => posts
  | Some read => match position (fun post => bool_decide (po_id post = read)) posts with Some at_ => drop (S at_) posts | None => posts end
  end.

Record Unread := mkUnread { un_posts : list Post; un_head : option ItemId }.
Definition unread_of (room : SessionState) (member : str) : Unread :=
  let unread := unread (posts_of room) (cursor_of room member) in
  mkUnread (retain (fun post => negb (same (po_author post) member)) unread) (po_id <$> last unread).
Definition unread_is_empty (u : Unread) : bool := bool_decide (length (un_posts u) = 0).

(** ** room.rs *)

Definition OPENED : str := lit "opened".
Definition CLOSED : str := lit "closed".
Definition PURPOSE : str := lit "purpose".
Definition BY : str := lit "by".
Definition AT : str := lit "at".
Definition WHY : str := lit "why".
Definition KEY : str := lit "rooms/".

Record Opened := mkOpened { op_purpose : option str; op_by : str }.
Definition opened_payload (o : Opened) : Value := VObject [(PURPOSE, string_or_null (op_purpose o)); (BY, VString (op_by o))].
Definition opened_of_payload (payload : Value) : option Opened :=
  let? by_ := value_get BY payload ≫= as_str in Some (mkOpened (value_get PURPOSE payload ≫= as_str) by_).
Definition opened_of_state (state : SessionState) : option Opened := published state OPENED ≫= opened_of_payload.

Record Closed := mkClosed { cl_at : Timestamp; cl_by : str; cl_why : option str }.
Definition closed_payload `{Clock} (c : Closed) : Value :=
  VObject [(AT, VString (show_timestamp (cl_at c))); (BY, VString (cl_by c)); (WHY, string_or_null (cl_why c))].
Definition closed_of_payload `{Clock} (payload : Value) : option Closed :=
  let? at_ := value_get AT payload ≫= as_str in
  let? at_ := parse_timestamp at_ in
  let? by_ := value_get BY payload ≫= as_str in
  Some (mkClosed at_ by_ (value_get WHY payload ≫= as_str)).
Definition closing_of_state `{Clock} (state : SessionState) : option Closed := published state CLOSED ≫= closed_of_payload.

Record Room := mkRoom {
  rm_title : str;
  rm_parent : SessionId;
  rm_members : list str;
  rm_ears : Ears;
  rm_purpose : option str;
  rm_closed : bool;
}.

Definition is_room (summary : SessionSummary) : bool :=
  match ss_driver summary with DriverLog => true | _ => false end
  && match ss_key summary with Some key => starts_with key KEY | None => false end.
Definition room_of (summary : SessionSummary) : option Room :=
  if negb (is_room summary) then None
  else let? title := ss_title summary in
       let? parent := ss_parent summary in
       Some (mkRoom title (pl_session parent) [] ears_default None false).
Definition room_seats (room : Room) : list Seat := (fun name => mkSeat name (ear_of (rm_ears room) name)) <$> rm_members room.

Definition purpose_of (state : SessionState) : option str := opened_of_state state ≫= op_purpose.
Definition is_closed (payload : option Value) : bool := match payload with Some payload => negb (is_null payload) | None => false end.
Definition closed_of (state : SessionState) : bool := is_closed (published state CLOSED).
Definition members_from (payload : Value) : list str :=
  match value_get MEMBERS payload ≫= as_array with Some names => omap as_str names | None => [] end.
Definition members_of (state : SessionState) : list str :=
  match published state MEMBERS with Some payload => members_from payload | None => [] end.
Definition roster_of (state : SessionState) : list Seat := (fun name => mkSeat name (ear_of (ears_of state) name)) <$> members_of state.
Definition room_seated (room : Room) (state : SessionState) : Room :=
  mkRoom (rm_title room) (rm_parent room) (members_of state) (ears_of state) (purpose_of state) (closed_of state).

Definition drawn (seats : list Seat) : Value := tree_view (nodes seats).
Definition payload (seats : list Seat) : Value :=
  let payload := set_field MEMBERS (VArray (VString ∘ se_name <$> seats)) (drawn seats) in
  let payload := match listeners_of seats with Some listeners => set_field LISTENERS listeners payload | None => payload end in
  slots_none payload.

(** *** What a room owes, from its journal *)

Definition mentions_of_state (state : SessionState) : list Mention := mentions (posts_of state) (members_of state).

(** ** owed.rs *)

Record Debt := mkDebt { db_room : str; db_who : str; db_at : Timestamp }.
Definition earlier (a b : Mention) : Prop := (mn_at a ≤ mn_at b)%Z.
#[export] Instance earlier_dec : RelDecision earlier.
Proof. intros a b. unfold earlier. apply _. Defined.
Definition oldest_first (open : list Mention) : list Mention := merge_sort earlier open.

(** [Timestamp::duration_since] and [SignedDuration::as_secs]. *)
Definition seconds_since (at_ now : Timestamp) : Z := ((now - at_) ÷ 10 ^ 9)%Z.
Definition age (at_ now : Timestamp) : str :=
  let seconds := Z.max (seconds_since at_ now) 0 in
  if (seconds <=? 59)%Z then show_Z seconds ++ lit "s"
  else if (seconds <=? 3599)%Z then show_Z (seconds ÷ 60) ++ lit "m"
  else show_Z (seconds ÷ 3600) ++ lit "h".
Fixpoint column_from (open : list Mention) (now : Timestamp) (seen : list str) : list str :=
  match open with
  | [] => []
  | m :: open =>
      let who := owed_said (mn_owed_by m) in
      if bool_decide (who ∈ seen) then column_from open now seen
      else (who ++ lit " " ++ age (mn_at m) now) :: column_from open now (seen ++ [who])
  end.
Definition column (open : list Mention) (now : Timestamp) : str := join (lit ", ") (column_from (oldest_first open) now []).
Definition debts (title : str) (open : list Mention) : list Debt :=
  (fun m => mkDebt title (owed_said (mn_owed_by m)) (mn_at m)) <$> oldest_first open.

Definition table_drawn (debts : list Debt) : Value :=
  VObject [(lit "kind", VString (lit "table")); (lit "headers", VArray [VString (lit "room"); VString (lit "owed")]);
           (lit "rows", VArray ((fun d => VArray [VString (db_room d); VString (db_who d)]) <$> debts))].
Definition debt_value `{Clock} (d : Debt) : Value :=
  VObject [(lit "room", VString (db_room d)); (lit "who", VString (db_who d)); (lit "at", VString (show_timestamp (db_at d)))].
Definition owed_view `{Clock} (debts : list Debt) : Value :=
  match debts with
  | [] => VNull
  | _ => slots_none (set_field (lit "debts") (VArray (debt_value <$> debts)) (table_drawn debts))
  end.
Definition owed_open (posts : list Post) (members : list str) (closed : bool) : list Mention :=
  if closed then [] else mentions posts members.
Definition owed_on (open : list Mention) (post : ItemId) : list str :=
  (fun m => owed_said (mn_owed_by m)) <$> retain (fun m => bool_decide (mn_post m = post)) open.
Definition owed_of_state (state : SessionState) : list Mention := owed_open (posts_of state) (members_of state) (closed_of state).

(** ** seen.rs *)

Record Seen := mkSeen { sn_author : str; sn_text : str }.
Inductive Verdict := Land | Behind (seen : nat) (missed : list Seen).
Definition seen_of (i : Item) : option Seen :=
  match item_body i with
  | BUser parts origin => Some (mkSeen (default PARENT (principal origin)) (parts_text parts))
  | _ => None
  end.
Definition awaited (room caller : SessionState) (speaker : str) : list (nat * Seen) :=
  retain (fun ap => negb (bool_decide (sn_author ap.2 = speaker)))
    (omap (fun ai => (fun post => (ai.1, post)) <$> seen_of ai.2)
      (retain (fun ai => (ss_created_at (st_summary caller) <=? item_at ai.2)%Z) (imap (fun i item => (i, item)) (t_items (st_transcript room))))).
Definition read (room : SessionState) (awaited : list (nat * Seen)) (cursor : option ItemId) : nat :=
  match (let? id := cursor in position (fun item => bool_decide (item_id item = id)) (t_items (st_transcript room))) with
  | None => 0
  | Some head => length (retain (fun ap => ap.1 <=? head) awaited)
  end.
Definition verdict (awaited : list (nat * Seen)) (seen : nat) : Verdict :=
  if length awaited <=? seen then Land else Behind seen (drop seen awaited).*2.

(** ** room/moves.rs *)

Inductive Move := MSeated (names : list str) | MUnseated (names : list str) | MClosed (title : str) (why : option str).
Definition SEATED : str := lit "seated".
Definition UNSEATED : str := lit "unseated".
Definition move_said (m : Move) (by_ : str) : str :=
  match m with
  | MSeated names => by_ ++ lit " " ++ SEATED ++ lit " " ++ join (lit ", ") names
  | MUnseated names => by_ ++ lit " " ++ UNSEATED ++ lit " " ++ join (lit ", ") names
  | MClosed title None => by_ ++ lit " " ++ CLOSED ++ lit " " ++ title
  | MClosed title (Some why) => by_ ++ lit " " ++ CLOSED ++ lit " " ++ title ++ lit ": " ++ why
  end.
(** [str::split] by [", "]; every piece but the last is followed by one. *)
Fixpoint split_fuel (fuel : nat) (sep s : str) : list str :=
  match fuel with
  | O => [s]
  | S fuel => match split_once sep s with Some (a, rest) => a :: split_fuel fuel sep rest | None => [s] end
  end.
Definition move_names (l : str) : list str := split_fuel (length l) (lit ", ") l.
Definition move_closed (rest : str) : Move :=
  match split_once (lit ": ") rest with Some (title, why) => MClosed title (Some why) | None => MClosed rest None end.
Definition move_read (by_ text : str) : option Move :=
  let? rest := strip_prefix by_ text ≫= strip_prefix (lit " ") in
  let? vr := split_once (lit " ") rest in
  if bool_decide (vr.1 = SEATED) then Some (MSeated (move_names vr.2))
  else if bool_decide (vr.1 = UNSEATED) then Some (MUnseated (move_names vr.2))
  else if bool_decide (vr.1 = CLOSED) then Some (move_closed vr.2)
  else None.

(** ** lifecycle.rs *)

Inductive Lifecycle := Working | Asking | Idle | Stopped | LStored | Unseated.
Record Facts := mkFacts { fc_seated : bool; fc_log : bool; fc_open : bool; fc_asking : bool; fc_working : bool }.
Definition decide_lifecycle (f : Facts) : option Lifecycle :=
  if negb (fc_seated f) then Some Unseated
  else if fc_log f then None
  else if negb (fc_open f) then Some LStored
  else if fc_asking f then Some Asking
  else if fc_working f then Some Working
  else Some Idle.
Definition is_log (d : Driver) : bool := match d with DriverLog => true | _ => false end.
Definition lifecycle_of_state (state : SessionState) : option Lifecycle :=
  decide_lifecycle (mkFacts true (is_log (ss_driver (st_summary state))) (negb (st_closed state))
    (match st_interactions state with [] => false | _ => true end) (busy state)).
Definition lifecycle_of_summary (summary : SessionSummary) : option Lifecycle :=
  decide_lifecycle (mkFacts true (is_log (ss_driver summary)) true (ss_asking summary) (ss_busy summary)).
Definition was_interrupted (state : SessionState) : bool :=
  match last_status state with Some (TurnInterrupted _) => true | _ => false end.
Definition activity (summary : SessionSummary) (live : option SessionState) : option Lifecycle :=
  match match live with Some state => lifecycle_of_state state | None => lifecycle_of_summary summary end with
  | Some Idle => if match live with Some state => was_interrupted state | None => false end then Some Stopped else Some Idle
  | l => l
  end.

(** ** room/readers.rs *)

Inductive Hearing := HLive | HListening (patience_s : option N).
Definition hearing_default : Hearing := HListening None.
Definition post_ids (room : SessionState) : list ItemId :=
  omap (fun i => match item_body i with BUser _ _ => Some (item_id i) | _ => None end) (t_items (st_transcript room)).
Definition unread_count (room : SessionState) (name : str) : option nat :=
  let? payload := published room (cursor_kind name) in
  let? read := value_get POST payload ≫= as_str in
  let? at_ := position (fun post => bool_decide (post = read)) (post_ids room) in
  let behind := length (post_ids room) - at_ - 1 in
  if 0 <? behind then Some behind else None.
Definition listening (patience_s : option N) : Hearing := match patience_s with Some 0%N => HLive | p => HListening p end.
Definition listener_names (listener : Value) (name : str) : bool :=
  match option_or (as_str listener) (value_get (lit "name") listener ≫= as_str) with Some said => same said name | None => false end.
Definition hearing_retuned (room : SessionState) (name : str) : option Hearing :=
  let? payload := published room (EAR ++ to_lowercase name) in
  let? seconds := value_get PATIENCE_S payload ≫= as_u64 in Some (listening (Some seconds)).
Definition hearing_declared (room : SessionState) (name : str) : Hearing :=
  match (let? payload := published room MEMBERS in
         let? listeners := value_get LISTENERS payload ≫= as_array in
         find_bool (fun l => listener_names l name) listeners) with
  | Some listener => listening (value_get PATIENCE_S listener ≫= as_u64)
  | None => hearing_default
  end.
Definition hearing (room : SessionState) (name : str) : Hearing := default (hearing_declared room name) (hearing_retuned room name).

Inductive Owes := Since (at_ : Timestamp) | OwedAt (time : str).
Definition cell_str (field : str) (v : Value) : option str := value_get field v ≫= as_str.
Definition debt_facts `{Clock} (card : Value) (title : str) : option (list (str * Owes)) :=
  let? debts := value_get (lit "debts") card ≫= as_array in
  Some (omap (fun debt => let? who := cell_str (lit "who") debt in
                          let? at_ := cell_str (lit "at") debt ≫= parse_timestamp in Some (who, Since at_))
             (retain (fun debt => match cell_str (lit "room") debt with Some named => same named title | None => false end) debts)).
Definition table_column (card : Value) (header : str) : option nat :=
  let? headers := value_get (lit "headers") card ≫= as_array in position (fun cell => bool_decide (as_str cell = Some header)) headers.
Definition row_cell (row : Value) (at_ : nat) : option str := let? cells := as_array row in cells !! at_ ≫= as_str.
Definition debt_table (card : Value) (title : str) : list (str * Owes) :=
  match table_column card (lit "room"), table_column card (lit "owed"), table_column card (lit "asked") with
  | Some room, Some who, Some asked =>
      match value_get (lit "rows") card ≫= as_array with
      | Some rows =>
          omap (fun row => let? w := row_cell row who in let? a := row_cell row asked in Some (w, OwedAt a))
               (retain (fun row => match row_cell row room with Some named => same named title | None => false end) rows)
      | None => []
      end
  | _, _, _ => []
  end.
Definition debts_shown `{Clock} (parent : SessionState) (title : str) : list (str * Owes) :=
  match st_signals parent !! PLUGIN ≫= (fun kinds => kinds !! lit "owed") with
  | None => []
  | Some signal => default (debt_table (ls_payload signal) title) (debt_facts (ls_payload signal) title)
  end.

End rooms.
