(* ===== verification/RoomVerbs.v ===== *)
(** * RoomVerbs: what is done in a room (bingo-rooms post.rs, serial.rs, service.rs,
    seat.rs, door.rs, control.rs, listen.rs, reader.rs, roster.rs, chase.rs, deadline.rs)

    A verb reads a snapshot of the room and asks the host for a list of effects: an
    extension of the room's journal, a post into it, a nudge to a seat.  [Effects] is
    the list of what was asked for, in order, with the verb's answer; an effect the
    host refuses ends the verb where the code has [?] and is passed over where it has
    not.  The host itself (which sessions there are, what opening one hands back,
    which calls fail) is an argument.  Timers are their keys and their deadlines. *)

From S2P Require Import Prelude Text Model Interaction Event Transcript State Ears Rooms.

Inductive Effect :=
| Extend (room : SessionId) (kind : str) (payload : Value)
| Say (room : SessionId) (author text : str)
| Nudge (seat : SessionId) (title said : str).
Abbreviation Effects A := (list Effect * result KernelError A)%type.

Record Host := mkHost {
  ho_children : SessionId → result KernelError (list SessionSummary);
  ho_sessions : result KernelError (list SessionSummary);
  ho_read : SessionId → option SessionState;
  (** opening the session of a room under a parent, by its name *)
  ho_mint : SessionId → str → result KernelError SessionId;
  ho_outcome : Effect → result KernelError ();
  ho_now : Timestamp;
}.

Section verbs.
Context `{Unicode} `{Clock} (host : Host).

Definition ret {A} (a : A) : Effects A := ([], Ok a).
Definition fail {A} (e : KernelError) : Effects A := ([], Err e).
Definition of_result {A} (r : result KernelError A) : Effects A := ([], r).
Definition bind {A B} (m : Effects A) (k : A → Effects B) : Effects B :=
  match m.2 with Ok a => let n := k a in (m.1 ++ n.1, n.2) | Err e => (m.1, Err e) end.
Notation "'do*' x := m 'in' k" := (bind m (fun x => k)) (at level 200, x pattern, m at level 100, k at level 200).
(** [effect.await?], and an effect whose failure is only logged. *)
Definition must (e : Effect) : Effects () := ([e], ho_outcome host e).
Definition may_fail (e : Effect) : Effects () := ([e], Ok tt).
Fixpoint each {A} (f : A → Effects ()) (l : list A) : Effects () :=
  match l with [] => ret tt | a :: l => do* _ := f a in each f l end.

(** ** post.rs *)

Inductive Heard := Wake | Wait.
Definition pierced (called : list Owed) (member : str) : bool :=
  any (fun owed => match owed with ORoom => true | OMember name => same name member end) called.
Definition wakes (room : Room) (member : str) (called : list Owed) : Heard :=
  if is_live (ear_of (rm_ears room) member) || pierced called member then Wake else Wait.
Definition written_to (member : str) (holder : option str) (author : str) : bool :=
  if negb (is_holder member) then negb (bool_decide (member = author))
  else match holder with Some holder => negb (same holder author) | None => false end.
Definition heard (room : Room) (holder : option str) (author text : str) : list (str * Heard) :=
  let called := named text (rm_members room) in
  (fun member => (member, wakes room member called)) <$> retain (fun member => written_to member holder author) (rm_members room).

Definition sibling (siblings : list SessionSummary) (member : str) : option SessionSummary :=
  find_bool (fun s => negb (is_log (ss_driver s)) && bool_decide (ss_title s = Some member)) siblings.
Definition seat_in (room : Room) (siblings : list SessionSummary) (member : str) : option SessionId :=
  if is_holder member then Some (rm_parent room) else ss_id <$> sibling siblings member.
Definition seat_of (room : Room) (member : str) : option SessionId :=
  match ho_children host (rm_parent room) with Ok siblings => seat_in room siblings member | Err _ => None end.
Definition holder_of (room : Room) : option str :=
  if negb (any is_holder (rm_members room)) then None
  else match ho_sessions host with
       | Ok sessions => signed_by <$> find_bool (fun s => bool_decide (ss_id s = rm_parent room)) sessions
       | Err _ => None
       end.

Definition unread_said (room : str) : str :=
  room ++ lit " has posts you have not read. Post in " ++ room ++ lit " if any of it falls to you.".
(** The nudges a post sends, and the seats it leaves waiting. *)
Definition fan_out (room : Room) (author text : str) : Effects (list str) :=
  match ho_children host (rm_parent room) with
  | Err e => fail e
  | Ok siblings =>
      let reached := omap (fun mh => (fun target => (mh, target)) <$> seat_in room siblings mh.1) (heard room (holder_of room) author text) in
      (omap (fun mt => match mt.1.2 with Wake => Some (Nudge mt.2 (rm_title room) (unread_said (rm_title room))) | Wait => None end) reached,
       Ok (omap (fun mt => match mt.1.2 with Wake => None | Wait => Some mt.1.1 end) reached))
  end.

(** ** serial.rs *)

Definition SEND_MESSAGE : str := lit "SendMessage".
Record MessageArgs := mkMessageArgs { ma_to : str; ma_text : option str }.
Definition value_opt_str (v : option Value) : option (option str) :=
  match v with None | Some VNull => Some None | Some (VString s) => Some (Some s) | Some _ => None end.
Definition value_message_args (v : Value) : option MessageArgs :=
  match v with
  | VObject m =>
      let? to_ := map_get (lit "to") m ≫= as_str in
      let? text := value_opt_str (map_get (lit "text") m) in
      Some (mkMessageArgs to_ text)
  | VArray [VString to_; t] => let? text := value_opt_str (Some t) in Some (mkMessageArgs to_ text)
  | _ => None
  end.

Definition text_of (output : ToolOutput) : str := parts_text (to_parts output).
Definition opening (room : str) : str := room ++ lit ": not sent " ++ em_dash :: lit " you had read ".
Definition ledger (room : str) (seen head : nat) : str :=
  opening room ++ show_N (N.of_nat seen) ++ lit " of its " ++ show_N (N.of_nat head) ++ lit " posts; these landed first:".
Definition head_of (room text : str) : option N :=
  let? line := head (lines text) in
  let? rest := strip_prefix (opening room) line in
  let? at_ := split_once (lit " of its ") rest in
  let? pt := split_once (lit " ") at_.2 in
  parse_u64 pt.1.
Definition newline : char := 10%N.
Definition bounce_said (room : str) (seen : nat) (missed : list Seen) : str :=
  let quotes := (fun p => lit "  " ++ sn_author p ++ lit ": " ++ trim (sn_text p)) <$> missed in
  ledger room seen (seen + length missed) ++ newline :: newline :: join [newline] quotes ++ newline :: newline ::
  lit "You have them now. Post it again with `again: true` if it still applies, or write a new text.".

Definition before (caller : SessionState) (cut : ItemId) : list Item :=
  let items := t_items (st_transcript caller) in
  match position (fun item => bool_decide (item_id item = cut)) items with Some at_ => take at_ items | None => items end.
Definition quoted (items : list Item) (room : str) : N :=
  foldr N.max 0%N (omap (fun i => match item_body i with
    | BToolCall _ _ _ _ _ _ (Some output) _ _ _ => head_of room (text_of output)
    | _ => None
    end) items).
Definition bounced (room : str) (i : Item) : option str :=
  match item_body i with
  | BToolCall _ _ _ _ name input (Some output) _ _ _ =>
      if negb (bool_decide (name = SEND_MESSAGE)) then None
      else let? _ := head_of room (text_of output) in
           let? args := value_message_args input in
           if negb (bool_decide (trim_start_by (N.eqb (chr "@")) (trim (ma_to args)) = room)) then None else ma_text args
  | _ => None
  end.
Definition draft (caller : SessionState) (cut : ItemId) (room : str) : option str := find_map (bounced room) (reverse (before caller cut)).
Definition bounce (room caller : SessionState) (cut : ItemId) (title speaker : str) : option ToolOutput :=
  let awaited := awaited room caller speaker in
  let read := read room awaited (cursor_of room speaker) in
  let quoted := quoted (before caller cut) title in
  match verdict awaited (N.to_nat (N.max (N.of_nat read) quoted)) with
  | Land => None
  | Behind seen missed => Some (output_error (bounce_said title seen missed))
  end.

(** ** service.rs: the serial door of a post *)

Inductive Said := SText (text : str) | SAgain.
Inductive Posted := Landed (text : str) | Bounced (text : str).
Record Request := mkRequest { rq_room : SessionId; rq_caller : SessionId; rq_author : str; rq_said : Said; rq_cut : ItemId }.
Definition nothing_to_repeat (title : str) : Posted :=
  Bounced (lit "nothing to post again in " ++ title ++ lit ": no post of yours bounced there").
(** What is posted, or what the caller is handed instead. *)
Definition weighed_text (rq : Request) : str + Posted :=
  match ho_read host (rq_room rq), ho_read host (rq_caller rq) with
  | Some there, Some here =>
      let title := default (rq_room rq) (ss_title (st_summary there)) in
      if closed_of there then inr (Bounced (title ++ lit " is closed; nothing lands there " ++ em_dash :: lit " open another room"))
      else match match rq_said rq with SText text => Some text | SAgain => draft here (rq_cut rq) title end with
           | None => inr (nothing_to_repeat title)
           | Some text =>
               match bounce there here (rq_cut rq) title (rq_author rq) with
               | Some bounce => inr (Bounced (text_of bounce))
               | None => inl text
               end
           end
  | _, _ => match rq_said rq with SText text => inl text | SAgain => inr (nothing_to_repeat (rq_room rq)) end
  end.
Definition weighed (rq : Request) : Effects Posted :=
  match weighed_text rq with
  | inr posted => ret posted
  | inl text => do* _ := must (Say (rq_room rq) (rq_author rq) text) in ret (Landed text)
  end.

(** ** seat.rs *)

Record Opening := mkOpening { on_name : str; on_purpose : option str; on_by : str }.
Definition opening_person (name : str) (purpose : option str) : Opening := mkOpening name purpose PARENT.
Definition opening_published (o : Opening) : Opened := mkOpened (on_purpose o) (on_by o).

Definition roster_said (seats : list Seat) : str := match seats with [] => NOBODY | _ => join (lit ", ") (seat_said <$> seats) end.
Definition receipt (title : str) (seats : list Seat) : str := title ++ lit ": " ++ roster_said seats.
Definition ended_by (closed : Closed) : str :=
  match cl_why closed with
  | Some why => chr " " :: em_dash :: chr " " :: cl_by closed ++ lit " closed it: " ++ why
  | None => chr " " :: em_dash :: chr " " :: cl_by closed ++ lit " closed it"
  end.
Definition shut (title : str) (closed : option Closed) : KernelError :=
  invalid_input (title ++ lit " is closed" ++ match closed with Some c => ended_by c | None => [] end ++
    lit ": a closed room is not reopened and its name is not taken again. Open another name for the work that follows.").
Definition still_open (standing : option SessionState) (title : str) : result KernelError () :=
  match standing with
  | Some state => if closed_of state then Err (shut title (closing_of_state state)) else Ok tt
  | None => Ok tt
  end.
Definition for_what (purpose : option str) : str :=
  match purpose with Some purpose => lit "opened for " ++ purpose | None => lit "opened without a purpose" end.
Definition taken (standing : option SessionState) (title : str) : KernelError :=
  match still_open standing title with
  | Err closed => closed
  | Ok _ =>
      let seats := match standing with Some s => roster_of s | None => [] end in
      invalid_input (title ++ lit " already stands, " ++ for_what (standing ≫= purpose_of) ++ lit ", seating " ++ roster_said seats ++
        lit ". A room is opened for one purpose and its name is not reopened: `Seat` adds to it, `Unseat` takes a name out of it, `CloseRoom` ends it, and work of another kind is another room under another name.")
  end.

Definition joining (standing : option SessionState) (seats : list Seat) : list str :=
  let held := match standing with Some s => members_of s | None => [] end in
  retain (fun seat => negb (any (fun member => same member seat) held)) (se_name <$> seats).
Definition joined (standing joining : list Seat) : list Seat := foldl seat_over standing joining.
Definition seated_name (seated : list Seat) (title name : str) : result KernelError str :=
  match find_bool (fun seat => same (se_name seat) name) seated with
  | Some seat => Ok (se_name seat)
  | None => Err (invalid_input (title ++ lit " is not seating " ++ name ++ lit "; it seats " ++ roster_said seated))
  end.
Fixpoint leaving (seated : list Seat) (title : str) (names : list str) : result KernelError (list str) :=
  match names with
  | [] => Ok []
  | name :: names => let* n := seated_name seated title name in let* ns := leaving seated title names in Ok (n :: ns)
  end.
Definition holds (names : list str) (name : str) : bool := any (fun held => same held name) names.
Definition last_post (standing : SessionState) : option ItemId := po_id <$> last (posts_of standing).
Definition unseated_said (title by_ : str) : str :=
  lit "You were unseated from " ++ title ++ lit " by " ++ by_ ++
  lit ". The room no longer reaches you and nothing is owed for it; end your turn unless something of yours is unfinished.".

Definition read_room (id : SessionId) (title : str) : result KernelError SessionState :=
  match ho_read host id with Some s => Ok s | None => Err (mkKernelError SessionNotFound (title ++ lit " could not be read")) end.
Definition declare_roster (id : SessionId) (seats : list Seat) : Effects () := must (Extend id MEMBERS (payload seats)).
Definition clear_ears (id : SessionId) (members : list str) : Effects () := each (fun m => must (Extend id (ear_kind m) VNull)) members.
Definition start_reading (id : SessionId) (head : option ItemId) (joining : list str) : Effects () :=
  match head with
  | None => ret tt
  | Some head => each (fun m => may_fail (Extend id (cursor_kind m) (cursor_payload head))) joining
  end.
Definition tell_the_unseated (room : Room) (leaving : list str) (by_ : str) : Effects () :=
  each (fun m => match seat_of room m with
                 | Some seat => may_fail (Nudge seat (rm_title room) (unseated_said (rm_title room) by_))
                 | None => ret tt
                 end) leaving.

Definition join_room (id : SessionId) (room : Room) (seats : list Seat) (by_ : str) : Effects (list Seat) :=
  do* standing := of_result (read_room id (rm_title room)) in
  do* _ := of_result (still_open (Some standing) (rm_title room)) in
  let roster := joined (roster_of standing) seats in
  let fresh := joining (Some standing) seats in
  let head := last_post standing in
  do* _ := must (Say id by_ (move_said (MSeated (se_name <$> seats)) by_)) in
  do* _ := declare_roster id roster in
  do* _ := start_reading id head fresh in
  ret roster.
Definition leave_room (id : SessionId) (room : Room) (names : list str) (by_ : str) : Effects (list Seat) :=
  do* standing := of_result (read_room id (rm_title room)) in
  do* _ := of_result (still_open (Some standing) (rm_title room)) in
  let seated := roster_of standing in
  do* out := of_result (leaving seated (rm_title room) names) in
  let roster := retain (fun seat => negb (holds out (se_name seat))) seated in
  do* _ := declare_roster id roster in
  do* _ := clear_ears id out in
  do* _ := must (Say id by_ (move_said (MUnseated out) by_)) in
  do* _ := tell_the_unseated room out by_ in
  ret roster.
Definition close_room (id : SessionId) (room : Room) (by_ : str) (why : option str) : Effects () :=
  do* standing := of_result (read_room id (rm_title room)) in
  do* _ := of_result (still_open (Some standing) (rm_title room)) in
  do* _ := must (Say id by_ (move_said (MClosed (rm_title room) why) by_)) in
  must (Extend id CLOSED (closed_payload (mkClosed (ho_now host) by_ why))).

Definition standing_room (parent : SessionId) (title : str) : result KernelError (option SessionId) :=
  let* children := ho_children host parent in
  Ok (ss_id <$> find_bool (fun child => is_log (ss_driver child) && bool_decide (ss_title child = Some title)) children).
Definition found (parent : SessionId) (o : Opening) (seats : list Seat) : Effects SessionId :=
  do* room := of_result (ho_mint host parent (on_name o)) in
  do* _ := must (Extend room OPENED (opened_payload (opening_published o))) in
  do* _ := declare_roster room seats in
  ret room.
Definition reseat (id : SessionId) (seats : list Seat) (standing : option SessionState) : Effects () :=
  let retuned := match standing with Some s => retuned_seats (ears_of s) | None => [] end in
  do* _ := clear_ears id retuned in
  do* _ := declare_roster id seats in
  start_reading id (standing ≫= last_post) (joining standing seats).
Definition seat_door (parent : SessionId) (o : Opening) (seats : list Seat) : Effects SessionId :=
  do* name := of_result (check_room (on_name o)) in
  let o := mkOpening name (on_purpose o) (on_by o) in
  do* room := of_result (standing_room parent (title name)) in
  match room with
  | None => found parent o seats
  | Some room =>
      let standing := ho_read host room in
      do* _ := of_result (still_open standing (title name)) in
      do* _ := reseat room seats standing in
      ret room
  end.
Definition open_door (parent : SessionId) (o : Opening) (seats : list Seat) : Effects SessionId :=
  do* name := of_result (check_room (on_name o)) in
  let o := mkOpening name (on_purpose o) (on_by o) in
  do* room := of_result (standing_room parent (title name)) in
  match room with
  | Some room => fail (taken (ho_read host room) (title name))
  | None => found parent o seats
  end.

(** ** door.rs and control.rs *)

Definition may (caller : SessionSummary) (room : Room) (opened : option Opened) : result KernelError () :=
  let holder := bool_decide (ss_id caller = rm_parent room) in
  let opener := match opened with Some o => same (signed_by caller) (op_by o) | None => false end in
  if holder || opener then Ok tt
  else Err (invalid_input (rm_title room ++
    lit " is not yours to change: only the session it hangs under and whoever opened it seat, unseat or close a room. Post in it with `SendMessage`, or open a room of your own for the work you mean to convene.")).
Definition rooms_under (parent : SessionId) : result KernelError (list (SessionId * Room)) :=
  let* children := ho_children host parent in Ok (omap (fun child => (fun room => (ss_id child, room)) <$> room_of child) children).
Definition result_or {A} (d : A) (r : result KernelError A) : A := match r with Ok a => a | Err _ => d end.
Definition reachable (caller : SessionSummary) : list (SessionId * Room) :=
  result_or [] (rooms_under (ss_id caller)) ++
  match ss_parent caller with Some parent => result_or [] (rooms_under (pl_session parent)) | None => [] end.
Definition unreachable (title : str) (reachable : list (SessionId * Room)) : KernelError :=
  invalid_input (match rm_title ∘ snd <$> reachable with
    | [] => lit "there is no " ++ title ++ lit " you can reach: a room is opened by `OpenRoom` or `/room`, and reaches the session it hangs under and that session's other children"
    | names => lit "there is no " ++ title ++ lit " you can reach; the rooms here are: " ++ join (lit ", ") names
    end).
Definition resolve (caller : SessionSummary) (asked : str) : result KernelError (SessionId * Room) :=
  let* name := room_address (trim_start_by (N.eqb ROOM) (trim asked)) in
  let around := reachable caller in
  match find_bool (fun ir => bool_decide (rm_title ir.2 = title name)) around with
  | Some found => Ok found
  | None => Err (unreachable (title name) around)
  end.
Definition entered (caller : SessionSummary) (asked : str) : result KernelError (SessionId * Room) :=
  let* ir := resolve caller asked in
  let* state := read_room ir.1 (rm_title ir.2) in
  let* _ := may caller ir.2 (opened_of_state state) in
  Ok (ir.1, room_seated ir.2 state).
Definition own (session : SessionId) : result KernelError SessionSummary :=
  let* sessions := ho_sessions host in
  match find_bool (fun s => bool_decide (ss_id s = session)) sessions with
  | Some s => Ok s
  | None => Err (mkKernelError SessionNotFound (lit "no such session"))
  end.

(** [control::purpose] and [control::change]. *)
Definition change_purpose (id : SessionId) (room : Room) (text : str) : Effects () :=
  if rm_closed room || bool_decide (trim text = []) then fail (invalid_input (lit "a standing room needs a nonempty purpose"))
  else match ho_read host id with
       | None => fail (mkKernelError SessionNotFound (lit "room is unavailable"))
       | Some state =>
           let opened := default (mkOpened None PARENT) (opened_of_state state) in
           must (Extend id OPENED (opened_payload (mkOpened (Some text) (op_by opened))))
       end.
Definition change (session : SessionId) (verb name text : str) : Effects str :=
  do* caller := of_result (own session) in
  do* ir := of_result (entered caller name) in
  let '(id, room) := ir in
  let by_ := signed_by caller in
  let done := ret (rm_title room ++ lit ": " ++ verb ++ lit " " ++ text) in
  if bool_decide (verb = lit "seat") then
    do* seat := of_result (seat_read text) in do* _ := join_room id room [seat] by_ in done
  else if bool_decide (verb = lit "unseat") then do* _ := leave_room id room [text] by_ in done
  else if bool_decide (verb = lit "close") then do* _ := close_room id room by_ None in ret (rm_title room ++ lit ": closed")
  else if bool_decide (verb = lit "purpose") then do* _ := change_purpose id room text in done
  else fail (invalid_input (lit "unknown room verb")).

(** ** listen.rs: a seat's own ear *)

Inductive ToolError := TInvalidInput (message : str) | TFailed (message : str).
Definition refused (e : KernelError) : ToolError :=
  match ke_code e with InvalidInput => TInvalidInput (ke_message e) | _ => TFailed (ke_message e) end.
Definition listening_seat (room : SessionId) (caller : SessionSummary) (title : str) : result ToolError str :=
  let mine := default [] (ss_title caller) in
  match ho_read host room with
  | None => Err (TFailed (title ++ lit " could not be read"))
  | Some state =>
      match find_bool (fun member => negb (bool_decide (mine = [])) && same member mine) (members_of state) with
      | Some member => Ok member
      | None => Err (TInvalidInput (lit "you are not seated in " ++ title ++
                     lit ", so there is no ear of yours to tune: ask whoever opened it to seat you"))
      end
  end.
Definition in_tool {A} (r : result KernelError A) : result ToolError A := match r with Ok a => Ok a | Err e => Err (refused e) end.
(** What [Listen] publishes where, and what the caller is told. *)
Definition listen (session : SessionId) (room : str) (patience_s : N) : list Effect * result ToolError str :=
  let ready :=
    let* ear := in_tool (asked patience_s) in
    let* caller := in_tool (own session) in
    let* ir := in_tool (resolve caller room) in
    let* seat := listening_seat ir.1 caller (rm_title ir.2) in
    Ok (ear, ir, seat) in
  match ready with
  | Err e => ([], Err e)
  | Ok (ear, ir, seat) =>
      let e := Extend ir.1 (ear_kind seat) (register ear) in
      ([e], let* _ := in_tool (ho_outcome host e) in Ok (rm_title ir.2 ++ lit ": " ++ ear_said ear))
  end.

(** ** reader.rs *)

Definition header (title : str) (purpose : option str) : str :=
  match purpose with
  | Some purpose => lit "[" ++ title ++ chr " " :: em_dash :: chr " " :: purpose ++ lit ", since you last read]"
  | None => lit "[" ++ title ++ lit ", since you last read]"
  end.
Definition reading_said (title : str) (purpose : option str) (posts : list Post) : option str :=
  match posts with
  | [] => None
  | _ => Some (header title purpose ++ newline :: join [newline] ((fun p => po_author p ++ lit ": " ++ trim (po_text p)) <$> posts))
  end.
Definition seated_as (session : SessionSummary) (room : Room) : str :=
  if bool_decide (ss_id session = rm_parent room) then PARENT else default [] (ss_title session).
Definition spent (room : Room) (state : SessionState) (member : str) : bool := rm_closed room && unread_is_empty (unread_of state member).

Record Seated := mkSeated { sd_id : SessionId; sd_title : str; sd_purpose : option str; sd_member : str; sd_state : SessionState }.
Definition seated_in (session : SessionSummary) : list Seated :=
  omap (fun ir =>
    let? state := ho_read host ir.1 in
    let room := room_seated ir.2 state in
    let? member := find_bool (fun m => same m (seated_as session room)) (rm_members room) in
    if spent room state member then None else Some (mkSeated ir.1 (rm_title room) (rm_purpose room) member state))
    (reachable session).
(** One room read: the cursor moved, then the piece. *)
Definition read_seat (seat : Seated) : Effects (option (str * str)) :=
  let unread := unread_of (sd_state seat) (sd_member seat) in
  match un_head unread with
  | None => ret None
  | Some head =>
      do* _ := may_fail (Extend (sd_id seat) (cursor_kind (sd_member seat)) (cursor_payload head)) in
      ret ((fun text => (sd_title seat, text)) <$> reading_said (sd_title seat) (sd_purpose seat) (un_posts unread))
  end.
Definition ID : str := lit "rooms".
Definition spoken_here (i : Item) : bool :=
  match item_body i with BUser _ origin => bool_decide (strip_prefix contributor_prefix (surface origin) = Some ID) | _ => false end.
(** Whether the protocol is said ahead of the readings. *)
Definition protocol_due (seats : list Seated) (items : list Item) : bool :=
  match seats with [] => false | _ => negb (any spoken_here items) end.

(** ** roster.rs *)

Record Entry := mkEntry { en_room : Room; en_seen_live : bool }.
Definition roster_register (r : gmap SessionId Entry) (summary : SessionSummary) : gmap SessionId Entry * option Room :=
  match room_of summary with
  | None => (r, None)
  | Some room =>
      let entry := default (mkEntry room false) (r !! ss_id summary) in
      let r := <[ss_id summary := mkEntry (en_room entry) true]> r in
      if en_seen_live entry then (r, None) else (r, Some (en_room entry))
  end.
Definition roster_restore (r : gmap SessionId Entry) (state : SessionState) : gmap SessionId Entry :=
  match room_of (st_summary state) with
  | None => r
  | Some room => if option_is_some (r !! ss_id (st_summary state)) then r
                 else <[ss_id (st_summary state) := mkEntry (room_seated room state) false]> r
  end.
Definition room_extended (kind : str) (payload : Value) (room : Room) : Room :=
  match strip_prefix EAR kind with
  | Some member => mkRoom (rm_title room) (rm_parent room) (rm_members room) (retune member payload (rm_ears room)) (rm_purpose room) (rm_closed room)
  | None =>
      if bool_decide (kind = MEMBERS) then
        mkRoom (rm_title room) (rm_parent room) (members_from payload) (declare payload (rm_ears room)) (rm_purpose room) (rm_closed room)
      else if bool_decide (kind = OPENED) then
        mkRoom (rm_title room) (rm_parent room) (rm_members room) (rm_ears room) (opened_of_payload payload ≫= op_purpose) (rm_closed room)
      else if bool_decide (kind = CLOSED) then
        mkRoom (rm_title room) (rm_parent room) (rm_members room) (rm_ears room) (rm_purpose room) (is_closed (Some payload))
      else room
  end.
Definition roster_extended (r : gmap SessionId Entry) (session : SessionId) (kind : str) (payload : Value) : gmap SessionId Entry :=
  alter (fun e => mkEntry (room_extended kind payload (en_room e)) (en_seen_live e)) session r.

(** What [on_event] does to the roster, of one frame of [session]. *)
Definition hook_roster (session : SessionId) (r : gmap SessionId Entry) (e : Event) : gmap SessionId Entry :=
  match e with
  | SessionUpdated summary => (roster_register r summary).1
  | Extension plugin kind payload => if bool_decide (plugin = PLUGIN) then roster_extended r session kind payload else r
  | _ => r
  end.

(** ** chase.rs *)

Definition NUDGES : nat := 3.
Definition OVERDUE : nat := 1.
Definition ChaseKey : Type := SessionId * ItemId * str.
Definition chase_key (room : SessionId) (m : Mention) : option ChaseKey := (fun member => (room, mn_post m, member)) <$> chased (mn_owed_by m).
Definition waited (at_ now : Timestamp) : N := Z.to_N (seconds_since at_ now).
Definition budget (at_ now : Timestamp) : N * nat :=
  if (waited at_ now <? PATIENCE)%N then ((PATIENCE - waited at_ now)%N, NUDGES) else (0%N, OVERDUE).
(** Each timer taken: its first wait and its nudges. *)
Definition arm_debt (room : SessionId) (now : Timestamp) (taken : gmap ChaseKey (N * nat)) (m : Mention) : gmap ChaseKey (N * nat) :=
  match chase_key room m with
  | None => taken
  | Some debt => if option_is_some (taken !! debt) then taken else <[debt := budget (mn_at m) now]> taken
  end.
Definition chase_keeps (room : SessionId) (standing : list ChaseKey) (debt : ChaseKey) : bool :=
  negb (bool_decide (debt.1.1 = room)) || bool_decide (debt ∈ standing).
Definition chaser_reconcile (room : SessionId) (open : list Mention) (now : Timestamp) (taken : gmap ChaseKey (N * nat)) : gmap ChaseKey (N * nat) :=
  let standing := omap (chase_key room) open in
  foldl (arm_debt room now) (filter (fun kt => chase_keeps room standing kt.1 = true) taken) open.
Definition chase_said (room : Room) (m : Mention) : str :=
  mn_asker m ++ lit " asked you in " ++ rm_title room ++ lit " and you have not answered: " ++ 34%N :: mn_head m ++ 34%N ::
  lit ". Post in " ++ rm_title room ++ lit " to answer.".
(** What one nudge of a timer does when it fires on [state]; [None] ends the timer. *)
Definition chase_fires (room : Room) (m : Mention) (state : SessionState) : option (list Effect) :=
  if closed_of state || negb (any (fun owed => bool_decide (mn_post owed = mn_post m) && bool_decide (mn_owed_by owed = mn_owed_by m)) (mentions_of_state state))
  then None
  else Some (match chased (mn_owed_by m) with
             | None => []
             | Some member => match seat_of room member with Some seat => [Nudge seat (rm_title room) (chase_said room m)] | None => [] end
             end).

(** ** deadline.rs *)

Definition Waiting : Type := SessionId * SessionId.
Definition arm_wait (key : Waiting) (left : N) (timed : gmap Waiting N) : gmap Waiting N :=
  if option_is_some (timed !! key) then timed else <[key := left]> timed.
(** The timer a member of the room wants: its seat, and what is left of its patience. *)
Definition deadline_of (room : Room) (state : SessionState) (siblings : list SessionSummary) (now : Timestamp) (member : str) : option (SessionId * N) :=
  match ear_of (rm_ears room) member with
  | Live => None
  | Patient patience =>
      let? first := head (un_posts (unread_of state member)) in
      let? seat := seat_in room siblings member in
      Some (seat, (patience - waited (po_at first) now)%N)
  end.
Definition deadline_restore (id : SessionId) (room : Room) (state : SessionState) (siblings : list SessionSummary) (now : Timestamp)
    (timed : gmap Waiting N) : gmap Waiting N :=
  let wanted := if rm_closed room then [] else omap (deadline_of room state siblings now) (rm_members room) in
  let timed := foldl (fun timed sl => arm_wait (sl.1, id) sl.2 timed) timed wanted in
  filter (fun kt => kt.1.2 ≠ id ∨ kt.1 ∈ (fun sl => (sl.1, id)) <$> wanted) timed.
(** The seats a post left waiting. *)
Definition deadline_waiting (id : SessionId) (room : Room) (seats : list str) (timed : gmap Waiting N) : gmap Waiting N :=
  foldl (fun timed member =>
    match ear_of (rm_ears room) member, seat_of room member with
    | Patient patience, Some seat => arm_wait (seat, id) patience timed
    | _, _ => timed
    end) timed seats.
Definition wake_if_behind (room : Room) (member : str) (seat : SessionId) (state : SessionState) : list Effect :=
  if closed_of state || unread_is_empty (unread_of state member) then []
  else [Nudge seat (rm_title room) (unread_said (rm_title room))].

(** ** hook.rs: what a room owes once it changed *)

Definition owed_now (room : Room) (state : option SessionState) : list Mention :=
  if rm_closed room then [] else match state with Some s => mentions_of_state s | None => [] end.

End verbs.
