(* ===== verification/RoomLaws.v ===== *)
(** * RoomLaws: what holds of a room's journal and of the verbs on it

    The ears of a room are a function of its
    registers; the roster this process folds from frames is the journal's; what is
    owed is exactly the calls nobody answered; a post that bounced may be posted
    again; who is called on is woken; and what a joiner has to read. *)

From S2P Require Import Prelude Text Model Interaction Event Transcript State Recovery Ears Numbers Rooms RoomVerbs.

(** ** A room's registers *)

Lemma kinds_in_order_spec kinds k v : (k, v) ∈ kinds_in_order kinds ↔ kinds !! k = Some v.
Proof.
  unfold kinds_in_order. rewrite list_elem_of_omap. split.
  - intros (k' & _ & (v' & E & [= -> ->])%fmap_Some). done.
  - intros E. exists k. rewrite E. split; [|done]. rewrite merge_sort_Permutation. apply list_elem_of_fmap.
    exists (k, v). split; [done|]. by apply elem_of_map_to_list.
Qed.
Lemma omap_firsts {V} (kinds : gmap str V) (ks : list str) : (omap (λ k, (λ v, (k, v)) <$> kinds !! k) ks).*1 `sublist_of` ks.
Proof. induction ks as [|k ks IH]; [done|]. csimpl. destruct (kinds !! k); csimpl; by constructor. Qed.
Lemma kinds_in_order_firsts kinds : NoDup (kinds_in_order kinds).*1.
Proof.
  eapply sublist_NoDup; [|apply omap_firsts]. rewrite merge_sort_Permutation. apply NoDup_fst_map_to_list.
Qed.

Lemma kind_published state kind : published state kind = kind_of (st_extensions state) PLUGIN kind.
Proof. reflexivity. Qed.

Section laws.
Context `{UnicodeLaws}.

(** A register is written under the one spelling of its seat's name. *)
Definition spelled_kind (kind : str) : Prop := ∀ m, strip_prefix EAR kind = Some m → key m = m.
Definition spelled (state : SessionState) : Prop := ∀ kind v, published state kind = Some v → spelled_kind kind.

Lemma key_idemp m : key (key m) = key m.
Proof. apply lowercase_idemp. Qed.
Lemma ear_kind_spelled m : spelled_kind (ear_kind m).
Proof. intros m' E. unfold ear_kind in E. rewrite strip_prefix_app in E. injection E as <-. apply key_idemp. Qed.

Lemma retune_fold kvs ears : (∀ kv, kv ∈ kvs → spelled_kind kv.1) → NoDup kvs.*1 →
  ea_declared (foldl retune_kind ears kvs) = ea_declared ears
  ∧ ∀ k, (∀ v, (EAR ++ k, v) ∈ kvs → ea_retuned (foldl retune_kind ears kvs) !! k = stored_ear v)
       ∧ ((∀ v, (EAR ++ k, v) ∉ kvs) → ea_retuned (foldl retune_kind ears kvs) !! k = ea_retuned ears !! k).
Proof.
  induction kvs as [|[kd v] kvs IH] using rev_ind; intros Hs Hn.
  { split; [done|]. intros k. split; [by intros v ?%elem_of_nil|done]. }
  rewrite fmap_app in Hn. apply NoDup_app in Hn as (Hn & Hnew & _).
  destruct IH as [Hd IH]; [intros kv Hin; apply Hs; rewrite elem_of_app; by left|done|].
  rewrite foldl_app. cbn [foldl]. unfold retune_kind at 1 3 5. cbn [fst snd].
  assert (spelled_kind kd) as Hkd by (apply (Hs (kd, v)); rewrite elem_of_app; right; by left).
  destruct (strip_prefix EAR kd) as [m|] eqn:Em.
  - pose proof (Hkd m Em) as Hm. apply strip_prefix_Some in Em as ->. split; [done|]. intros k. unfold retune. rewrite Hm. cbn [ea_retuned].
    destruct (IH k) as [IH1 IH2]. destruct (decide (k = m)) as [->|Hk].
    + assert (∀ w, (EAR ++ m, w) ∉ kvs) as Hno.
      { intros w Hw. apply (Hnew (EAR ++ m)); [apply list_elem_of_fmap; by exists (EAR ++ m, w)|by left]. }
      split.
      * intros w [Hw|[= ->]%list_elem_of_singleton]%elem_of_app; [by apply Hno in Hw|].
        destruct (stored_ear v); [apply lookup_insert_eq|apply lookup_delete_eq].
      * intros Hw. exfalso. apply (Hw v). rewrite elem_of_app. right. by left.
    + assert (∀ x, ea_retuned x !! k = (match stored_ear v with Some ear => <[m:=ear]> (ea_retuned x) | None => delete m (ea_retuned x) end) !! k) as Hx.
      { intros x. destruct (stored_ear v); by rewrite ?lookup_insert_ne, ?lookup_delete_ne. }
      rewrite <- Hx. split.
      * intros w [Hw|[= E _]%list_elem_of_singleton]%elem_of_app; [by apply IH1|congruence].
      * intros Hw. apply IH2. intros w Hin. apply (Hw w). rewrite elem_of_app. by left.
  - split; [done|]. intros k. destruct (IH k) as [IH1 IH2]. split.
    + intros w [Hw|E%list_elem_of_singleton]%elem_of_app; [by apply IH1|].
      pose proof (strip_prefix_app EAR k) as Hk. congruence.
    + intros Hw. apply IH2. intros w Hin. apply (Hw w). rewrite elem_of_app. by left.
Qed.

Lemma ears_of_declared state : ea_declared (ears_of state) = from_option declared_ears ∅ (published state MEMBERS).
Proof.
  unfold ears_of, published. destruct (st_extensions state !! PLUGIN) as [kinds|]; [|done]. cbn [mbind option_bind].
  assert (∀ kvs ears, ea_declared (foldl retune_kind ears kvs) = ea_declared ears) as Hd.
  { induction kvs as [|kv kvs IH]; intros ears; [done|]. cbn [foldl]. rewrite IH. unfold retune_kind. by destruct (strip_prefix EAR kv.1). }
  rewrite Hd. by destruct (kinds !! MEMBERS).
Qed.
Lemma ears_of_retuned state k : spelled state → ea_retuned (ears_of state) !! k = published state (EAR ++ k) ≫= stored_ear.
Proof.
  intros Hs. unfold ears_of, spelled, published in *. destruct (st_extensions state !! PLUGIN) as [kinds|]; [|apply lookup_empty].
  cbn [mbind option_bind] in *.
  set (base := match kinds !! MEMBERS with Some payload => declare payload ears_default | None => ears_default end).
  assert (ea_retuned base !! k = None) as Hb by (unfold base; destruct (kinds !! MEMBERS); apply lookup_empty).
  destruct (retune_fold (kinds_in_order kinds) base) as [_ Hk]; [intros [kd v] Hin%kinds_in_order_spec; by eapply Hs|apply kinds_in_order_firsts|].
  destruct (Hk k) as [H1 H2]. destruct (kinds !! (EAR ++ k)) as [v|] eqn:E.
  - rewrite (H1 v) by by apply kinds_in_order_spec. done.
  - rewrite H2, Hb; [done|]. intros v. rewrite kinds_in_order_spec. congruence.
Qed.

(** The ear of a seat is a function of two registers of the journal. *)
Lemma ear_of_state state m : spelled state →
  ear_of (ears_of state) m = default ear_default (option_or (published state (ear_kind m) ≫= stored_ear) (from_option declared_ears ∅ (published state MEMBERS) !! key m)).
Proof. intros Hs. unfold ear_of. by rewrite ears_of_declared, ears_of_retuned. Qed.

(** *** The roster a process folds *)

Definition spelled_event (e : Event) : Prop :=
  match e with Extension plugin kind _ => plugin = PLUGIN → spelled_kind kind | _ => True end.
(** The room this process holds is the one its journal says. *)
Definition agrees (id : SessionId) (r : gmap SessionId Entry) (state : SessionState) : Prop :=
  ∃ e, r !! id = Some e ∧ en_room e = room_seated (en_room e) state.
Definition state_after (state : SessionState) (events : list (Event * Timestamp)) : SessionState :=
  foldl (λ s et, (apply_event et.1 et.2 s).1) state events.

Definition set_published (kind : str) (payload : Value) (state state' : SessionState) : Prop :=
  ∀ kd, published state' kd = if decide (kd = kind) then (if is_null payload then None else Some payload) else published state kd.

Lemma ears_ext a b : ea_declared a = ea_declared b → ea_retuned a = ea_retuned b → a = b.
Proof. destruct a, b. by intros [= ->] [= ->]. Qed.

Lemma spelled_step e ts state : spelled_event e → spelled state → spelled (apply_event e ts state).1.
Proof.
  intros He Hs kind v. rewrite kind_published, apply_event_extensions. unfold extension_step. destruct e; try apply Hs.
  case_decide as Hd; [|apply Hs]. destruct Hd as [<- <-]. intros _. by apply He.
Qed.

Section step.
Context kind payload state state' (Hset : set_published kind payload state state').

Lemma published_other kd : kd ≠ kind → published state' kd = published state kd.
Proof. intros Hkd. rewrite Hset. by rewrite decide_False. Qed.
(** A reader that takes a null payload for none at all reads the payload. *)
Lemma published_this {A} (f : option Value → A) : f (Some VNull) = f None → f (published state' kind) = f (Some payload).
Proof. intros Hf. rewrite Hset, decide_True by done. by destruct payload. Qed.

Lemma members_other : kind ≠ MEMBERS → members_of state' = members_of state.
Proof. intros Hk. unfold members_of. by rewrite published_other. Qed.
Lemma purpose_other : kind ≠ OPENED → purpose_of state' = purpose_of state.
Proof. intros Hk. unfold purpose_of, opened_of_state. by rewrite published_other. Qed.
Lemma closed_other : kind ≠ CLOSED → closed_of state' = closed_of state.
Proof. intros Hk. unfold closed_of. by rewrite published_other. Qed.
Lemma ears_other : spelled state → spelled state' → kind ≠ MEMBERS → strip_prefix EAR kind = None → ears_of state' = ears_of state.
Proof.
  intros Hs Hs' Hm Hk. apply ears_ext; [by rewrite !ears_of_declared, published_other|]. apply map_eq. intros k.
  rewrite !ears_of_retuned, published_other; [done| |done..]. intros <-. pose proof (strip_prefix_app EAR k). congruence.
Qed.
Lemma ears_declared : spelled state → spelled state' → kind = MEMBERS → ears_of state' = declare payload (ears_of state).
Proof.
  intros Hs Hs' Hk. apply ears_ext; [rewrite ears_of_declared, <- Hk; by apply (published_this (from_option declared_ears ∅))|].
  apply map_eq. intros k. cbn [declare ea_retuned]. rewrite !ears_of_retuned, published_other; [done|by rewrite Hk|done..].
Qed.
Lemma ears_retuned m : spelled state → spelled state' → kind = EAR ++ m → key m = m → ears_of state' = retune m payload (ears_of state).
Proof.
  intros Hs Hs' Hk Hm. apply ears_ext; [unfold retune; cbn [ea_declared]; by rewrite !ears_of_declared, published_other by by rewrite Hk|].
  apply map_eq. intros k. rewrite ears_of_retuned by done. unfold retune. rewrite Hm. cbn [ea_retuned]. destruct (decide (k = m)) as [->|Hkm].
  - rewrite <- Hk. rewrite (published_this (λ v, v ≫= stored_ear)) by done. cbn. by destruct (stored_ear payload); rewrite ?lookup_insert_eq, ?lookup_delete_eq.
  - rewrite published_other by (rewrite Hk; intros E; by apply (inj (EAR ++.)) in E).
    rewrite <- ears_of_retuned by done. by destruct (stored_ear payload); rewrite ?lookup_insert_ne, ?lookup_delete_ne.
Qed.

Lemma room_extended_seated room : spelled state → spelled state' → spelled_kind kind →
  room = room_seated room state → room_extended kind payload room = room_seated (room_extended kind payload room) state'.
Proof.
  intros Hs Hs' Hkind Hr. rewrite Hr. unfold room_extended, room_seated. cbn [rm_title rm_parent rm_members rm_ears rm_purpose rm_closed].
  destruct (strip_prefix EAR kind) as [m|] eqn:Em.
  - pose proof (Hkind m Em) as Hm. apply strip_prefix_Some in Em.
    assert (kind ≠ MEMBERS ∧ kind ≠ OPENED ∧ kind ≠ CLOSED) as (H1 & H2 & H3) by (rewrite Em; done).
    cbn [rm_title rm_parent]. by rewrite members_other, purpose_other, closed_other, (ears_retuned m).
  - destruct (decide (kind = MEMBERS)) as [E|Em1]; [|destruct (decide (kind = OPENED)) as [E|Eo]; [|destruct (decide (kind = CLOSED)) as [E|Ec]]].
    + rewrite bool_decide_true by done. cbn [rm_title rm_parent]. rewrite purpose_other, closed_other, ears_declared by (done || by rewrite E).
      f_equal. unfold members_of. rewrite <- E. symmetry. by apply (published_this (λ v, match v with Some v => members_from v | None => [] end)).
    + rewrite bool_decide_false, bool_decide_true by done. cbn [rm_title rm_parent].
      rewrite members_other, closed_other, ears_other by (done || by rewrite E).
      f_equal. unfold purpose_of, opened_of_state. rewrite <- E. symmetry. etrans; [by apply (published_this (λ v, let? o := (let? v := v in opened_of_payload v) in op_purpose o))|done].
    + rewrite !bool_decide_false, bool_decide_true by done. cbn [rm_title rm_parent].
      rewrite members_other, purpose_other, ears_other by (done || by rewrite E).
      f_equal. unfold closed_of. rewrite <- E. symmetry. by apply (published_this is_closed).
    + rewrite !bool_decide_false by done. cbn [rm_title rm_parent]. by rewrite members_other, purpose_other, closed_other, ears_other.
Qed.
End step.

(** the rooms a process holds are the ones their journals say.  However the frames
    of a room came (rosters, retunings, purposes, closings, posts, announcements), the
    room folded from the frames a process saw has the members, ears, purpose and end
    that the room's own state has; and one restored from a state starts out so. *)
Theorem roster_follows_the_journal (id : SessionId) (r : gmap SessionId Entry) (state : SessionState) (events : list (Event * Timestamp)) :
  spelled state → (∀ et, et ∈ events → spelled_event et.1) →
  (agrees id r state →
   agrees id (foldl (λ r et, hook_roster id r et.1) r events) (state_after state events))
  ∧ (∀ room, room_of (st_summary state) = Some room → r !! ss_id (st_summary state) = None → agrees (ss_id (st_summary state)) (roster_restore r state) state).
Proof.
  intros Hs He. split.
  - revert r state Hs He. induction events as [|[e ts] events IH]; intros r state Hs He Ha; [done|]. cbn [foldl state_after fst snd].
    assert (spelled_event e) as Hes by (apply (He (e, ts)); by left).
    apply IH; [by apply spelled_step|intros et Hin; apply He; by right|]. destruct Ha as (en & Hr & Hroom).
    assert (∀ state', (∀ kd, published state' kd = published state kd) → spelled state' → room_seated (en_room en) state' = room_seated (en_room en) state) as Hsame.
    { intros state' Hp Hs'. unfold room_seated, members_of, purpose_of, opened_of_state, closed_of. rewrite !Hp. f_equal.
      apply ears_ext; [by rewrite !ears_of_declared, Hp|]. apply map_eq. intros k. by rewrite !ears_of_retuned, Hp. }
    pose proof (spelled_step e ts state Hes Hs) as Hs'.
    assert (∀ kd, published (apply_event e ts state).1 kd = extension_step PLUGIN kd (published state kd) e) as Hp by (intros kd; apply apply_event_extensions).
    destruct e; try (exists en; split; [done|]; by rewrite Hsame).
    + cbn [hook_roster]. unfold roster_register. destruct (room_of summary) as [room|]; [|exists en; split; [done|by rewrite Hsame]].
      assert (∃ e', (<[ss_id summary := mkEntry (en_room (default (mkEntry room false) (r !! ss_id summary))) true]> r) !! id = Some e' ∧ en_room e' = en_room en) as (e' & He' & Ee').
      { destruct (decide (ss_id summary = id)) as [->|Hid]; [|exists en; by rewrite lookup_insert_ne]. rewrite lookup_insert_eq, Hr. by eexists. }
      exists e'. split; [by destruct (en_seen_live _)|]. by rewrite Ee', Hsame.
    + cbn [hook_roster]. case_bool_decide as Hpl.
      * subst plugin. eexists. unfold roster_extended. rewrite lookup_alter_eq, Hr. split; [done|]. cbn [en_room].
        apply (room_extended_seated _ _ state); [|done..|by apply Hes|done]. intros kd. rewrite Hp. unfold extension_step.
        repeat case_decide; naive_solver.
      * exists en. split; [done|]. rewrite Hsame; [done| |done]. intros kd. rewrite Hp. unfold extension_step. case_decide; naive_solver.
  - intros room Hr Hn. unfold roster_restore, agrees. rewrite Hr, Hn. cbn [option_is_some]. rewrite lookup_insert_eq. by eexists.
Qed.

Lemma spelled_after state events : (∀ et, et ∈ events → spelled_event et.1) → spelled state → spelled (state_after state events).
Proof.
  revert state. induction events as [|[e ts] events IH]; intros state He Hs; [done|]. apply IH; [intros et Hin; apply He; by right|].
  apply spelled_step; [|done]. apply (He (e, ts)). by left.
Qed.

(** *** A roster, written and read back *)

Definition sound_ear (e : Ear) : Prop := match e with Live => True | Patient n => (FLOOR ≤ n)%N end.
Lemma asked_sound e : sound_ear e → asked (seconds e) = Ok e.
Proof.
  destruct e as [|n]; [done|]. unfold sound_ear, asked, FLOOR. cbn [seconds]. intros Hn.
  by rewrite (proj2 (N.eqb_neq _ _)), (proj2 (N.ltb_ge _ _)) by lia.
Qed.
Lemma stored_sound e : sound_ear e → stored (seconds e) = e.
Proof.
  destruct e as [|n]; [done|]. unfold sound_ear, stored, FLOOR. cbn [seconds]. intros Hn.
  rewrite (proj2 (N.eqb_neq _ _)) by lia. by rewrite N.max_l.
Qed.
Lemma asked_is_sound n e : asked n = Ok e → sound_ear e ∧ seconds e = n.
Proof. unfold asked. destruct (N.eqb_spec n 0) as [->|]; [by intros [= <-]|]. destruct (N.ltb_spec n FLOOR); [done|]. by intros [= <-]. Qed.

Lemma value_get_set_eq k x m : value_get k (set_field k x (VObject m)) = Some x.
Proof. apply map_get_insert_eq. Qed.
Lemma value_get_set_ne k k' x v : k ≠ k' → value_get k' (set_field k x v) = value_get k' v.
Proof. destruct v; try done. apply map_get_insert_ne. Qed.
Lemma set_field_object k x m : ∃ m', set_field k x (VObject m) = VObject m'.
Proof. by eexists. Qed.

Lemma payload_members seats : members_from (payload seats) = se_name <$> seats.
Proof.
  assert (value_get MEMBERS (payload seats) = Some (VArray (VString ∘ se_name <$> seats))) as Hm.
  { unfold payload, slots_none. rewrite value_get_set_ne by done. destruct (listeners_of seats); rewrite ?value_get_set_ne by done; apply value_get_set_eq. }
  unfold members_from. rewrite Hm. cbn [mbind option_bind as_array]. clear Hm. induction seats as [|s seats IH]; [done|]. csimpl. by f_equal.
Qed.
Lemma retain_kept {A} (p : A → bool) l : retain p l `sublist_of` l.
Proof. induction l as [|x l IH]; [done|]. cbn. destruct (p x); by constructor. Qed.
Lemma payload_listeners seats : value_get LISTENERS (payload seats) = listeners_of seats.
Proof.
  unfold payload, slots_none. rewrite value_get_set_ne by done. destruct (listeners_of seats).
  - destruct (set_field_object MEMBERS (VArray (VString ∘ se_name <$> seats)) [(lit "kind", VString (lit "tree")); (lit "nodes", VArray (map node_value (nodes seats)))]) as [m Hm].
    unfold drawn, tree_view. rewrite Hm. apply value_get_set_eq.
  - by rewrite value_get_set_ne.
Qed.

(** The ears a roster declares: one entry for each seat that does not wear the default. *)
Lemma payload_ears seats : (∀ s, s ∈ seats → sound_ear (se_ear s)) → NoDup (key ∘ se_name <$> seats) →
  ∀ s, s ∈ seats → default ear_default (declared_ears (payload seats) !! key (se_name s)) = se_ear s.
Proof.
  intros Hsound Hn s Hs. unfold declared_ears. rewrite payload_listeners. unfold listeners_of.
  set (odd := retain (λ seat, negb (bool_decide (se_ear seat = ear_default))) seats).
  assert (∀ l : list Seat, (∀ s, s ∈ l → sound_ear (se_ear s)) →
    omap listed ((λ seat, VObject [(lit "name", VString (se_name seat)); (PATIENCE_S, VNumber (PosInt (seconds (se_ear seat))))]) <$> l)
    = (λ s, (key (se_name s), se_ear s)) <$> l) as Hl.
  { intros l Hl. induction l as [|x l IH]; [done|]. rewrite fmap_cons. cbn [omap list_omap].
    assert (∀ v, listed (VObject [(lit "name", VString (se_name x)); (PATIENCE_S, VNumber (PosInt v))]) = Some (key (se_name x), stored v)) as Hx by reflexivity.
    rewrite Hx, stored_sound by (apply Hl; by left). rewrite fmap_cons. f_equal. apply IH. intros y Hy. apply Hl. by right. }
  assert (default ear_default (collect_map ((λ s, (key (se_name s), se_ear s)) <$> odd) !! key (se_name s)) = se_ear s) as Hc.
  { assert (∀ x y, x ∈ seats → y ∈ seats → key (se_name x) = key (se_name y) → x = y) as Hinj.
    { intros x y Hx Hy E. apply list_elem_of_lookup in Hx as [i Hi]. apply list_elem_of_lookup in Hy as [j Hj].
      assert (i = j) as ->; [|congruence]. eapply (NoDup_lookup _ i j (key (se_name x)) Hn); rewrite list_lookup_fmap; [by rewrite Hi|].
      rewrite Hj. cbn. by rewrite E. }
    destruct (decide (se_ear s = ear_default)) as [E|E].
    - rewrite collect_map_None; [done|]. rewrite <- list_fmap_compose. intros (x & Ex & [Hx Hd]%elem_of_retain)%list_elem_of_fmap. bools.
      cbn in Ex. apply Hd. by rewrite <- (Hinj s x).
    - erewrite collect_map_lookup; [done| |].
      + rewrite <- list_fmap_compose. apply (sublist_NoDup _ (key ∘ se_name <$> seats)); [done|]. apply fmap_sublist, retain_kept.
      + apply list_elem_of_fmap. exists s. split; [done|]. apply elem_of_retain. split; [done|]. by rewrite bool_decide_false. }
  revert Hc. rewrite <- Hl by (intros x [Hx _]%elem_of_retain; by apply Hsound).
  destruct odd; [|done]. cbn. by rewrite !lookup_empty.
Qed.

Lemma members_published state seats : published state MEMBERS = Some (payload seats) → members_of state = se_name <$> seats.
Proof. intros Hp. unfold members_of. by rewrite Hp, payload_members. Qed.

Lemma seat_word s : sound_ear (se_ear s) → in_u64 (seconds (se_ear s)) → chr ":" ∉ se_name s → seat_read (seat_said s) = Ok s.
Proof.
  intros Hs Hn Hc. unfold seat_said, seat_read. destruct s as [name e]. cbn [se_name se_ear] in *. case_bool_decide as He.
  - rewrite (split_once_absent (chr ":") []) by done. cbn. by rewrite He.
  - change (lit ":") with [chr ":"]. change (name ++ [chr ":"] ++ show_N (seconds e)) with (name ++ chr ":" :: [] ++ show_N (seconds e)).
    rewrite (split_once_first (chr ":") []) by done. unfold patience. rewrite trim_show, parse_show by done. cbn. by rewrite asked_sound.
Qed.

(** a roster reads back.  A roster of distinct names whose ears a door would
    accept, published into a room none of its seats has retuned itself in, is exactly
    what the room's journal then says, seat for seat and ear for ear; and the word a
    seat is said by is the word that asks for it. *)
Theorem roster_reads_back (seats : list Seat) (state : SessionState) :
  spelled state → published state MEMBERS = Some (payload seats) → NoDup (key ∘ se_name <$> seats) →
  (∀ s, s ∈ seats → sound_ear (se_ear s) ∧ published state (ear_kind (se_name s)) ≫= stored_ear = None) →
  roster_of state = seats
  ∧ ∀ s, s ∈ seats → in_u64 (seconds (se_ear s)) → chr ":" ∉ se_name s → seat_read (seat_said s) = Ok s.
Proof.
  intros Hs Hp Hn Hseats. split; [|intros s Hin; by apply seat_word, Hseats].
  unfold roster_of. rewrite (members_published _ _ Hp), <- list_fmap_compose. rewrite <- (list_fmap_id seats) at 2.
  apply list_fmap_ext. intros i s Hi%list_elem_of_lookup_2. cbn. rewrite ear_of_state by done. rewrite (proj2 (Hseats s Hi)), Hp. cbn [option_or from_option].
  rewrite payload_ears; [by destruct s|intros x Hx; by apply Hseats|done|done].
Qed.

(** ** What is owed *)

(** A text calls on whoever the word after one of its [@]s names. *)
Definition asks (text : str) (members : list str) (owed : Owed) : Prop :=
  ∃ pre rest, text = pre ++ chr "@" :: rest ∧ calls (last pre) = true
    ∧ whom (trim_end_matches (chr "-") (take_while in_name rest)) members = Some owed.

Lemma named_from_spec members prev chars found owed :
  owed ∈ named_from members prev chars found ↔
  owed ∈ found ∨ ∃ pre rest, chars = pre ++ chr "@" :: rest ∧ calls (option_or (last pre) prev) = true
    ∧ whom (trim_end_matches (chr "-") (take_while in_name rest)) members = Some owed.
Proof.
  revert prev found. induction chars as [|c chars IH]; intros prev found; cbn [named_from].
  { split; [by left|]. intros [?|(pre & rest & E & _)]; [done|]. by destruct pre. }
  rewrite IH. clear IH.
  assert (∀ x, x ∈ (if (c =? chr "@")%N && calls prev then
      match whom (trim_end_matches (chr "-") (take_while in_name chars)) members with
      | Some owed => if bool_decide (owed ∈ found) then found else found ++ [owed]
      | None => found
      end else found) ↔ x ∈ found ∨ c = chr "@" ∧ calls prev = true ∧ whom (trim_end_matches (chr "-") (take_while in_name chars)) members = Some x) as Hx.
  { intros x. destruct (N.eqb_spec c (chr "@")) as [->|]; [|naive_solver]. destruct (calls prev); [|naive_solver]. cbn [andb].
    destruct (whom _ members) as [o|]; [|naive_solver]. case_bool_decide; rewrite ?elem_of_app, ?list_elem_of_singleton; naive_solver. }
  rewrite Hx. clear Hx. split.
  - intros [[Hf|(-> & Hc & Hw)]|(pre & rest & -> & Hc & Hw)]; [by left|right; by exists [], chars|].
    right. exists (c :: pre), rest. split_and!; [done| |done]. destruct pre as [|d pre]; [done|]. change (last (c :: d :: pre)) with (last (d :: pre)).
    by destruct (last (d :: pre)) eqn:E; [|apply last_None in E].
  - intros [Hf|(pre & rest & E & Hc & Hw)]; [by left; left|]. destruct pre as [|d pre]; injection E as -> ->; [left; by right|].
    right. exists pre, rest. split_and!; [done| |done]. destruct pre as [|e pre]; [done|]. change (last (d :: e :: pre)) with (last (e :: pre)) in Hc.
    by destruct (last (e :: pre)) eqn:El; [|apply last_None in El].
Qed.
Lemma named_spec text members owed : owed ∈ named text members ↔ asks text members owed.
Proof.
  unfold named, asks. rewrite named_from_spec. split.
  - intros [?%elem_of_nil|(pre & rest & H1 & H2 & H3)]; [done|]. exists pre, rest. split_and!; [done| |done]. by destruct (last pre).
  - intros (pre & rest & H1 & H2 & H3). right. exists pre, rest. split_and!; [done| |done]. by destruct (last pre).
Qed.
Lemma named_once members prev chars found : NoDup found → NoDup (named_from members prev chars found).
Proof.
  revert prev found. induction chars as [|c chars IH]; intros prev found Hn; [done|]. cbn [named_from]. apply IH.
  destruct (_ && _); [|done]. destruct (whom _ _) as [o|]; [|done]. case_bool_decide as Ho; [done|]. apply NoDup_app. split_and!; [done| |apply NoDup_singleton].
  intros x Hx ->%list_elem_of_singleton. done.
Qed.

(** Every debt in the place it was opened, less those a later post closed. *)
Fixpoint unanswered (posts : list Post) (members : list str) : list Mention :=
  match posts with
  | [] => []
  | p :: later => retain (λ m, all (λ q, stands (po_author q) members m) later) (opened p members) ++ unanswered later members
  end.
Lemma unanswered_snoc posts p members :
  unanswered (posts ++ [p]) members = settle (unanswered posts members) (po_author p) members ++ opened p members.
Proof.
  induction posts as [|q posts IH]; cbn [unanswered app].
  - unfold settle. cbn. rewrite retain_all by done. by rewrite app_nil_r.
  - rewrite IH. unfold settle. rewrite retain_app, <- (assoc_L (++)). f_equal. induction (opened q members) as [|m l IHl]; [done|].
    cbn. unfold all. rewrite forallb_app. cbn. rewrite andb_true_r. destruct (forallb _ posts); cbn; [|done].
    destruct (stands (po_author p) members m); [f_equal|]; done.
Qed.

(** C21: a room owes exactly the calls nobody answered.  Its debts are, in the order
    they were opened, the members (and the room, for [@all]) each post called on at a
    word boundary, its own author left out, that no later post settled: a member's by
    a post of its own, the room's by a post of any other member. *)
Theorem debts_are_the_unanswered_calls (posts : list Post) (members : list str) :
  mentions posts members = unanswered posts members
  ∧ (∀ p m, m ∈ opened p members ↔
      asks (po_text p) members (mn_owed_by m) ∧ (∀ name, mn_owed_by m = OMember name → same name (po_author p) = false)
      ∧ m = mkMention (mn_owed_by m) (po_author p) (po_id p) (po_at p) (head_line (po_text p)))
  ∧ (∀ p, NoDup (mn_owed_by <$> opened p members))
  ∧ (∀ text name, asks text members (OMember name) → name ∈ members)
  ∧ ∀ m author, stands author members m = false ↔
      match mn_owed_by m with
      | OMember name => same name author = true
      | ORoom => same (mn_asker m) author = false ∧ is_member author members = true
      end.
Proof.
  split_and!.
  - induction posts as [|p posts IH] using rev_ind; [done|]. unfold mentions. rewrite foldl_app, unanswered_snoc. cbn [foldl]. by rewrite <- IH.
  - intros p m. unfold opened. rewrite list_elem_of_fmap. setoid_rewrite elem_of_retain. setoid_rewrite named_spec. split.
    + intros (o & -> & Ha & Ho). split_and!; [done| |done]. cbn [mn_owed_by]. intros name ->. unfold opens_for in Ho. cbn [chased] in Ho. by bools.
    + intros (Ha & Ho & E). exists (mn_owed_by m). split_and!; [done|done|]. unfold opens_for. destruct (mn_owed_by m) as [name|]; [|done].
      cbn [chased]. by rewrite (Ho name).
  - intros p. unfold opened. rewrite <- list_fmap_compose. apply (sublist_NoDup _ (named (po_text p) members)); [by apply named_once, NoDup_nil|].
    erewrite list_fmap_ext; [rewrite list_fmap_id; apply retain_kept|done].
  - intros text name (pre & rest & _ & _ & Hw). unfold whom in Hw. destruct (find_bool _ members) as [x|] eqn:E; [|by destruct (same _ ALL)].
    injection Hw as ->. by apply find_bool_Some in E as [Hin _].
  - intros m author. unfold stands. destruct (mn_owed_by m); [by rewrite negb_false_iff|]. rewrite orb_false_iff, negb_false_iff. done.
Qed.

(** ** The serial room *)

Lemma ledger_reads_back room seen head r : newline ∉ room → in_u64 (N.of_nat head) →
  head_of room (ledger room seen head ++ newline :: r) = Some (N.of_nat head).
Proof.
  intros Hr Hh. unfold head_of. rewrite lines_head.
  2: { unfold ledger, opening. rewrite !elem_of_app. intros [[?|Hin]|[Hin|[Hin|[Hin|Hin]]]]; [done| |by apply show_free in Hin| |by apply show_free in Hin|];
         revert Hin; apply (bool_decide_unpack _); by vm_compute. }
  cbn [mbind option_bind].
  assert (drop_cr (ledger room seen head) = ledger room seen head) as ->.
  { unfold drop_cr. destruct (strip_suffix _ _) as [x|] eqn:E; [|done]. exfalso. apply strip_suffix_Some in E. apply (f_equal last) in E.
    rewrite last_snoc in E. unfold ledger in E. by rewrite !last_app in E. }
  unfold ledger. rewrite strip_prefix_app. cbn [mbind option_bind].
  pose proof (split_once_first (chr " ") (lit "of its ") (show_N (N.of_nat seen)) (show_N (N.of_nat head) ++ lit " posts; these landed first:")) as E1.
  change (chr " " :: lit "of its " ++ ?b) with (lit " of its " ++ b) in E1. change (chr " " :: lit "of its ") with (lit " of its ") in E1.
  rewrite E1 by by apply show_free. cbn [mbind option_bind fst snd]. clear E1.
  pose proof (split_once_first (chr " ") [] (show_N (N.of_nat head)) (lit "posts; these landed first:")) as E2.
  change (chr " " :: [] ++ lit "posts; these landed first:") with (lit " posts; these landed first:") in E2.
  change (lit " ") with [chr " "]. rewrite E2 by by apply show_free. cbn [mbind option_bind fst snd]. by apply parse_show.
Qed.

Lemma quoted_ge items i room : i ∈ items → ∀ rs asked_at began_at call_id name input output progress ms quiet n,
  item_body i = BToolCall rs asked_at began_at call_id name input (Some output) progress ms quiet →
  head_of room (text_of output) = Some n → (n ≤ quoted items room)%N.
Proof.
  intros Hi rs a b c nm inp o pr ms q n Hb Hn. unfold quoted. set (f := λ i : Item, _). change (n ≤ foldr N.max 0 (omap f items))%N.
  assert (n ∈ omap f items) as Hin by (apply list_elem_of_omap; exists i; split; [done|]; unfold f; by rewrite Hb).
  clear -Hin. induction (omap f items) as [|m l IH]; [by apply elem_of_nil in Hin|]. apply elem_of_cons in Hin as [->|Hin]; cbn [foldr]; [lia|].
  specialize (IH Hin). lia.
Qed.

(** What a post is weighed against: the posts awaited, and how many were read. *)
Definition weigh (room caller : SessionState) (cut : ItemId) (title speaker : str) : nat :=
  N.to_nat (N.max (N.of_nat (read room (awaited room caller speaker) (cursor_of room speaker))) (quoted (before caller cut) title)).
Lemma bounce_Some room caller cut title speaker out : bounce room caller cut title speaker = Some out →
  let seen := weigh room caller cut title speaker in let missed := (drop seen (awaited room caller speaker)).*2 in
  out = output_error (bounce_said title seen missed) ∧ seen < length (awaited room caller speaker)
  ∧ seen + length missed = length (awaited room caller speaker).
Proof.
  unfold bounce. cbv zeta. fold (weigh room caller cut title speaker). unfold verdict. case_match eqn:E; [done|]. revert E. case_match eqn:El; [done|].
  intros [= <- <-] [= <-]. apply Nat.leb_gt in El. rewrite length_fmap, length_drop. split_and!; [done|done|lia].
Qed.
Lemma bounce_None room caller cut title speaker : bounce room caller cut title speaker = None ↔
  length (awaited room caller speaker) ≤ weigh room caller cut title speaker.
Proof.
  unfold bounce. cbv zeta. fold (weigh room caller cut title speaker). unfold verdict. destruct (_ <=? _) eqn:El.
  - apply Nat.leb_le in El. done.
  - apply Nat.leb_gt in El. split; [done|lia].
Qed.

(** a post that bounced has been read its way forward.  What a bounce hands back is
    every awaited post past those its author had read; and once that answer stands in
    the author's own journal, the post may be made again: it lands when nothing new was
    said, and otherwise bounces for nothing but what landed since. *)
Theorem bounced_post_may_retry (room room' caller caller' : SessionState) (cut cut' : ItemId) (title speaker : str) (out : ToolOutput)
    (fresh : list (nat * Seen)) (i : Item) rs asked_at began_at call_id name input progress ms quiet :
  newline ∉ title → in_u64 (N.of_nat (length (awaited room caller speaker))) →
  bounce room caller cut title speaker = Some out →
  awaited room' caller' speaker = awaited room caller speaker ++ fresh →
  i ∈ before caller' cut' → item_body i = BToolCall rs asked_at began_at call_id name input (Some out) progress ms quiet →
  (fresh = [] → bounce room' caller' cut' title speaker = None)
  ∧ ∀ out', bounce room' caller' cut' title speaker = Some out' →
      ∃ seen k, out' = output_error (bounce_said title seen (drop k fresh).*2) ∧ seen + length (drop k fresh) = length (awaited room' caller' speaker).
Proof.
  intros Ht Hu Hb Ha Hi Hbody. destruct (bounce_Some _ _ _ _ _ _ Hb) as (Hout & Hlt & Hlen).
  set (seen := weigh room caller cut title speaker) in *. set (missed := (drop seen (awaited room caller speaker)).*2) in *.
  assert (length (awaited room caller speaker) ≤ weigh room' caller' cut' title speaker) as Hw.
  { assert (head_of title (text_of out) = Some (N.of_nat (length (awaited room caller speaker)))) as Hh.
    { rewrite Hout. unfold text_of, output_error, parts_text. cbn [to_parts omap list_omap part_as_text concat]. rewrite app_nil_r.
      unfold bounce_said. rewrite Hlen. by apply ledger_reads_back. }
    pose proof (quoted_ge _ _ title Hi _ _ _ _ _ _ _ _ _ _ _ Hbody Hh) as Hq. unfold weigh. lia. }
  split.
  - intros ->. apply bounce_None. rewrite Ha, app_nil_r. done.
  - intros out' Hb'. destruct (bounce_Some _ _ _ _ _ _ Hb') as (Hout' & Hlt' & Hlen').
    exists (weigh room' caller' cut' title speaker), (weigh room' caller' cut' title speaker - length (awaited room caller speaker)).
    rewrite length_fmap in Hlen'. rewrite Ha in Hout', Hlen', Hlt' |- *. rewrite drop_app, drop_ge in Hout', Hlen' by done. done.
Qed.

(** ** Who a post wakes *)

Lemma heard_spec room holder author text who how : (who, how) ∈ heard room holder author text ↔
  who ∈ rm_members room ∧ written_to who holder author = true ∧ how = wakes room who (named text (rm_members room)).
Proof.
  unfold heard. rewrite list_elem_of_fmap. split.
  - by intros (x & [= -> ->] & [Hx Hw]%elem_of_retain).
  - intros (Hx & Hw & ->). exists who. split; [done|]. by apply elem_of_retain.
Qed.
Lemma wakes_spec room who text : wakes room who (named text (rm_members room)) = Wake ↔
  ear_of (rm_ears room) who = Live ∨ asks text (rm_members room) ORoom ∨ ∃ name, asks text (rm_members room) (OMember name) ∧ same name who = true.
Proof.
  assert (pierced (named text (rm_members room)) who = true ↔ asks text (rm_members room) ORoom ∨ ∃ name, asks text (rm_members room) (OMember name) ∧ same name who = true) as Hp.
  { unfold pierced. rewrite any_true. setoid_rewrite named_spec. split; [intros ([name|] & Hin & Hs); eauto|]. intros [?|(name & ? & ?)]; eauto. }
  rewrite <- Hp. unfold wakes, is_live. case_bool_decide as He; [tauto|]. cbn [orb]. destruct (pierced _ _); naive_solver.
Qed.

(** who is called on is woken.  A post reaches every member but its author, at most
    to open a turn: it wakes those with a live ear, those it calls by name and, when it
    calls [@all], everyone.  So whoever a post puts in debt is woken by it, the holder
    too unless the post is signed with the holder's own name. *)
Theorem called_seats_are_woken (room : Room) (holder : option str) (p : Post) :
  (∀ who how, (who, how) ∈ heard room holder (po_author p) (po_text p) →
    who ∈ rm_members room ∧ (is_holder who = false → who ≠ po_author p)
    ∧ (how = Wake ↔ ear_of (rm_ears room) who = Live ∨ asks (po_text p) (rm_members room) ORoom
        ∨ ∃ name, asks (po_text p) (rm_members room) (OMember name) ∧ same name who = true))
  ∧ ∀ m, m ∈ opened p (rm_members room) →
      match mn_owed_by m with
      | OMember name => (is_holder name = true → ∃ h, holder = Some h ∧ same h (po_author p) = false) → (name, Wake) ∈ heard room holder (po_author p) (po_text p)
      | ORoom => ∀ who how, (who, how) ∈ heard room holder (po_author p) (po_text p) → how = Wake
      end.
Proof.
  split.
  - intros who how (Hw & Hto & ->)%heard_spec. split_and!; [done| |by rewrite wakes_spec].
    intros Hh. unfold written_to in Hto. rewrite Hh in Hto. cbn in Hto. by bools.
  - intros m Hm. apply list_elem_of_fmap in Hm as (o & -> & [Ho Hopens]%elem_of_retain). cbn [mn_owed_by]. pose proof (proj1 (named_spec _ _ _) Ho) as Ha.
    destruct o as [name|].
    + intros Hh. assert (name ∈ rm_members room) as Hin.
      { destruct Ha as (pre & rest & _ & _ & Hw). unfold whom in Hw. destruct (find_bool _ _) as [x|] eqn:E; [|by destruct (same _ ALL)].
        injection Hw as ->. by apply find_bool_Some in E as [Hin _]. }
      apply heard_spec. split_and!; [done| |].
      * unfold written_to. destruct (is_holder name) eqn:E; cbn [negb].
        { destruct (Hh eq_refl) as (h & -> & ->). done. }
        unfold opens_for in Hopens. cbn in Hopens. bools. unfold same in Hopens. bools. rewrite bool_decide_false; [done|]. congruence.
      * symmetry. apply wakes_spec. right. right. exists name. split; [done|]. unfold same. by rewrite bool_decide_true.
    + intros who how (Hw & Hto & ->)%heard_spec. apply wakes_spec. by right; left.
Qed.

(** a seat spelled in another case is read for and owes, but is never woken.  The
    reader takes a session for the seat its title names in any case, and a call opens a
    debt against the seat as the roster spells it; but the fan-out and the chaser look
    for a session titled exactly so, and find nobody. *)
Theorem a_seat_in_another_case_is_never_woken (host : Host) (room : Room) (siblings : list SessionSummary) (agent : SessionSummary) (t member : str) (m : Mention) (state : SessionState) :
  ho_children host (rm_parent room) = Ok siblings → (∀ s, s ∈ siblings → ss_title s ≠ Some member) → is_holder member = false →
  ss_title agent = Some t → ss_id agent ≠ rm_parent room → same member t = true → mn_owed_by m = OMember member →
  same member (seated_as agent room) = true
  ∧ seat_of host room member = None
  ∧ (∀ effects, chase_fires host room m state = Some effects → effects = [])
  ∧ ∀ author text, fan_out host (mkRoom (rm_title room) (rm_parent room) [member] (rm_ears room) (rm_purpose room) (rm_closed room)) author text = ([], Ok []).
Proof.
  intros Hc Hs Hh Ht Hid Hsame Hm.
  assert (seat_in room siblings member = None) as Hnone.
  { unfold seat_in, sibling. rewrite Hh. destruct (find_bool _ siblings) as [s|] eqn:E; [|done]. apply find_bool_Some in E as [Hin Hb]. bools. by apply Hs in Hin. }
  assert (seat_of host room member = None) as Hseat by (unfold seat_of; by rewrite Hc).
  split_and!; [|done| |].
  - unfold seated_as. rewrite bool_decide_false by done. by rewrite Ht.
  - intros effects. unfold chase_fires. destruct (_ || _); [done|]. rewrite Hm. cbn [chased]. rewrite Hseat. by intros [= <-].
  - intros author text. unfold fan_out. cbn [rm_parent]. rewrite Hc. unfold heard. cbn [rm_members].
    assert (seat_in (mkRoom (rm_title room) (rm_parent room) [member] (rm_ears room) (rm_purpose room) (rm_closed room)) siblings member = None) as Hn by done.
    cbn [retain List.filter]. destruct (written_to _ _ _); [|done]. cbn [fmap list_fmap omap list_omap fst]. by rewrite Hn.
Qed.

(** ** The verbs, run on a room *)

Definition fresh (state : SessionState) (i : Item) : Prop := t_positions (st_transcript state) !! item_id i = None.
Definition posted (i : Item) (ts : Timestamp) (state : SessionState) : SessionState := (apply_event (ItemCompleted i) ts state).1.

(** A list of effects taken one by one on a room, with posts of others landing in
    between; [new] is what was posted, the room's own lines included. *)
Inductive runs (id : SessionId) : list Effect → SessionState → list Post → SessionState → Prop :=
| runs_done s : runs id [] s [] s
| runs_posted es s i ts p new s' : fresh s i → post_of i = Some p → runs id es (posted i ts s) new s' → runs id es s (p :: new) s'
| runs_say es s author text i ts p new s' : fresh s i → post_of i = Some p → po_author p = author → po_text p = text →
    runs id es (posted i ts s) new s' → runs id (Say id author text :: es) s (p :: new) s'
| runs_extend es s kind payload new s' : runs id es (extended PLUGIN kind payload s).1 new s' → runs id (Extend id kind payload :: es) s new s'
| runs_nudge es s seat title said new s' : runs id es s new s' → runs id (Nudge seat title said :: es) s new s'.

Definition effect_published (kind : str) (acc : option Value) (e : Effect) : option Value :=
  match e with Extend _ k v => if decide (kind = k) then (if is_null v then None else Some v) else acc | _ => acc end.

Lemma upsert_fresh t i : t_positions t !! item_id i = None → t_items (transcript_apply t (ItemCompleted i)).1 = t_items t ++ [i].
Proof. intros Hf. unfold transcript_apply. cbn [Transcript.change]. unfold upsert. rewrite Hf. destruct (bool_decide (item_id i ∈ t_model_ids t)); cbn; by case_bool_decide. Qed.
Lemma posted_items s i ts : fresh s i → t_items (st_transcript (posted i ts s)) = t_items (st_transcript s) ++ [i].
Proof. intros Hf. unfold posted. rewrite apply_event_transcript. by apply upsert_fresh. Qed.
Lemma posted_published s i ts kind : published (posted i ts s) kind = published s kind.
Proof. rewrite !kind_published. unfold posted. by rewrite apply_event_extensions. Qed.
Lemma extended_published s kind payload kd : published (extended PLUGIN kind payload s).1 kd = effect_published kd (published s kd) (Extend [] kind payload).
Proof.
  rewrite !kind_published. pose proof (apply_event_extensions (Extension PLUGIN kind payload) 0%Z s PLUGIN kd) as H1.
  unfold extension_step in H1. unfold effect_published. etrans; [etrans; [|exact H1]|].
  - unfold apply_event. destruct s; reflexivity.
  - repeat case_decide; naive_solver.
Qed.
Lemma extended_items s kind payload : t_items (st_transcript (extended PLUGIN kind payload s).1) = t_items (st_transcript s).
Proof. by destruct s. Qed.

Lemma runs_posts id es s new s' : runs id es s new s' → posts_of s' = posts_of s ++ new.
Proof.
  induction 1 as [s|es s i ts p new s' Hf Hp Hr IH|es s a t i ts p new s' Hf Hp Ha Ht Hr IH|es s k v new s' Hr IH|]; [by rewrite app_nil_r| | | |done].
  1, 2: rewrite IH; unfold posts_of; rewrite posted_items, omap_app by done; cbn; rewrite Hp, <- (assoc_L (++)); done.
  rewrite IH. unfold posts_of. by rewrite extended_items.
Qed.
Lemma runs_published id es s new s' kind : runs id es s new s' → published s' kind = foldl (effect_published kind) (published s kind) es.
Proof.
  induction 1 as [s|es s i ts p new s' Hf Hp Hr IH|es s a t i ts p new s' Hf Hp Ha Ht Hr IH|es s k v new s' Hr IH|]; [done| | | |done].
  1, 2: rewrite IH, posted_published; done.
  rewrite IH, extended_published. done.
Qed.
Lemma runs_said id es s new s' author text : runs id es s new s' → Say id author text ∈ es → ∃ p, p ∈ new ∧ po_author p = author ∧ po_text p = text.
Proof.
  induction 1 as [s|es s i ts p new s' Hf Hp Hr IH|es s a t i ts p new s' Hf Hp Ha Ht Hr IH|es s k v new s' Hr IH|es s k v w new s' Hr IH]; intros Hin.
  - by apply elem_of_nil in Hin.
  - destruct (IH Hin) as (q & Hq & ?). exists q. split; [by right|done].
  - apply elem_of_cons in Hin as [[= -> ->]|Hin]; [exists p; split; [by left|done]|]. destruct (IH Hin) as (q & Hq & ?). exists q. split; [by right|done].
  - apply elem_of_cons in Hin as [|Hin]; [done|by apply IH].
  - apply elem_of_cons in Hin as [|Hin]; [done|by apply IH].
Qed.

Definition accepting (host : Host) : Prop := ∀ e, ho_outcome host e = Ok tt.
Definition cursors (id : SessionId) (head : ItemId) (ms : list str) : list Effect := (λ m, Extend id (cursor_kind m) (cursor_payload head)) <$> ms.

Lemma start_reading_effects id head ms : start_reading id head ms = (match head with Some h => cursors id h ms | None => [] end, Ok tt).
Proof.
  destruct head as [h|]; [|done]. unfold start_reading. induction ms as [|m ms IH]; [done|]. cbn [each]. rewrite IH. unfold may_fail. done.
Qed.
Lemma join_effects `{Clock} host id room seats by_ s : accepting host → ho_read host id = Some s → closed_of s = false →
  join_room host id room seats by_ =
    (Say id by_ (move_said (MSeated (se_name <$> seats)) by_) :: Extend id MEMBERS (payload (joined (roster_of s) seats))
      :: match last_post s with Some h => cursors id h (joining (Some s) seats) | None => [] end, Ok (joined (roster_of s) seats)).
Proof.
  intros Hh Hr Hc. unfold join_room, read_room. rewrite Hr. cbn [bind of_result fst snd app]. unfold still_open. rewrite Hc.
  cbn [bind of_result fst snd app]. unfold declare_roster, must. rewrite start_reading_effects. cbn [bind fst snd]. rewrite !Hh. cbn [bind ret fst snd app]. rewrite ?Hh.
  cbn [bind ret fst snd app]. by rewrite app_nil_r.
Qed.

Lemma cursors_published id h ms kd acc : foldl (effect_published kd) acc (cursors id h ms) = if decide (kd ∈ cursor_kind <$> ms) then Some (cursor_payload h) else acc.
Proof.
  revert acc. induction ms as [|m ms IH]; intros acc; [done|]. unfold cursors in *. rewrite !fmap_cons. cbn [foldl]. rewrite IH. cbn [effect_published is_null cursor_payload].
  repeat case_decide; try done; set_solver.
Qed.

Lemma seat_over_names seats x : se_name <$> seat_over seats x = (se_name <$> seats) ++ (if is_member (se_name x) (se_name <$> seats) then [] else [se_name x]).
Proof.
  induction seats as [|y seats IH]; [done|]. cbn [seat_over]. rewrite fmap_cons. unfold is_member in *. cbn [any existsb].
  destruct (same (se_name y) (se_name x)); cbn [orb]; rewrite fmap_cons; [by rewrite app_nil_r|]. by rewrite IH.
Qed.
Lemma is_member_elem x members : x ∈ members → is_member x members = true.
Proof. intros Hx. apply any_true. exists x. split; [done|]. unfold same. by rewrite bool_decide_true. Qed.
Lemma joined_names roster seats : (se_name <$> roster) `prefix_of` (se_name <$> joined roster seats)
  ∧ ∀ x, x ∈ seats → is_member (se_name x) (se_name <$> joined roster seats) = true.
Proof.
  revert roster. induction seats as [|y seats IH]; intros roster; [split; [done|by intros x ?%elem_of_nil]|]. cbn [joined foldl].
  destruct (IH (seat_over roster y)) as [[k Hk] Hin]. fold (joined (seat_over roster y) seats) in *. rewrite Hk. rewrite Hk in Hin. split.
  - rewrite seat_over_names, <- (assoc_L (++)). by apply prefix_app_r.
  - intros x [->|Hx]%elem_of_cons; [|by apply Hin]. apply any_true.
    destruct (is_member (se_name y) (se_name <$> roster)) eqn:E.
    + apply any_true in E as (z & Hz & Ez). exists z. split; [|done]. rewrite seat_over_names, !elem_of_app. by left; left.
    + exists (se_name y). rewrite seat_over_names, E. split; [rewrite !elem_of_app; left; right; by left|]. unfold same. by rewrite bool_decide_true.
Qed.

Lemma posts_ids s : transcript_wf (st_transcript s) → NoDup (po_id <$> posts_of s).
Proof.
  intros Hwf. eapply sublist_NoDup; [apply Hwf|]. unfold posts_of, ids_of. induction (t_items (st_transcript s)) as [|i l IH]; [done|].
  cbn [omap list_omap]. destruct (post_of i) as [p|] eqn:E; rewrite !fmap_cons; [|by constructor].
  replace (po_id p) with (item_id i); [by constructor|]. unfold post_of in E. destruct (item_body i); simplify_eq. done.
Qed.
Lemma unread_from_head ps new p : NoDup (po_id <$> ps) → last ps = Some p → unread (ps ++ new) (Some (po_id p)) = new.
Proof.
  intros Hn Hl. apply last_Some in Hl as [l ->]. unfold unread.
  assert (position (λ q, bool_decide (po_id q = po_id p)) ((l ++ [p]) ++ new) = Some (length l)) as ->.
  { apply position_Some. exists p. rewrite <- (assoc_L (++)). cbn [app]. rewrite list_lookup_middle by done. split_and!; [done|by rewrite bool_decide_true|].
    intros j q Hj Hq. apply bool_decide_eq_false. intros E. rewrite fmap_app in Hn. apply NoDup_app in Hn as (_ & Hd & _).
    rewrite lookup_app_l in Hq by done. apply (Hd (po_id q)); [|rewrite E; by left]. apply list_elem_of_fmap. exists q. split; [done|]. by eapply list_elem_of_lookup_2. }
  replace (S (length l)) with (length (l ++ [p])) by (rewrite length_app; cbn; lia). apply drop_app_length.
Qed.

Section join.
Context `{Clock} (host : Host) (id : SessionId) (room : Room) (seats : list Seat) (by_ : str) (s : SessionState).
Context (Haccept : accepting host) (Hread : ho_read host id = Some s) (Hopen : closed_of s = false).

Lemma cursor_kind_ne m : cursor_kind m ≠ MEMBERS.
Proof. done. Qed.
Lemma join_published new s' kd : runs id (join_room host id room seats by_).1 s new s' →
  published s' kd =
    if decide (kd = MEMBERS) then Some (payload (joined (roster_of s) seats))
    else match last_post s with
         | Some h => if decide (kd ∈ cursor_kind <$> joining (Some s) seats) then Some (cursor_payload h) else published s kd
         | None => published s kd
         end.
Proof.
  rewrite join_effects with (s := s) by done. cbn [fst]. intros Hr. rewrite (runs_published _ _ _ _ _ kd Hr). cbn [foldl effect_published].
  assert (∀ acc, foldl (effect_published kd) acc match last_post s with Some h => cursors id h (joining (Some s) seats) | None => [] end
    = match last_post s with Some h => if decide (kd ∈ cursor_kind <$> joining (Some s) seats) then Some (cursor_payload h) else acc | None => acc end) as Hf.
  { intros acc. destruct (last_post s) as [h|]; [apply cursors_published|done]. }
  rewrite Hf. destruct (decide (kd = MEMBERS)) as [->|]; [|done].
  assert (is_null (payload (joined (roster_of s) seats)) = false) as -> by (unfold payload, drawn, tree_view; by destruct (listeners_of _)).
  destruct (last_post s); [|done]. rewrite decide_False; [done|]. intros (m & E & _)%list_elem_of_fmap. symmetry in E. by apply cursor_kind_ne in E.
Qed.

(** who joins a room reads it from the moment they were seated.  After a join the
    roster is the one it had with the new names after it; the room reads the line that
    says so; a seat that is new has unread exactly what landed since the room was read
    for the join (its own words left out), and every other seat is where it was. *)
Theorem joiners_read_from_their_seating (new : list Post) (s' : SessionState) :
  transcript_wf (st_transcript s) → runs id (join_room host id room seats by_).1 s new s' →
  (join_room host id room seats by_).2 = Ok (joined (roster_of s) seats)
  ∧ members_of s `prefix_of` members_of s' ∧ (∀ x, x ∈ seats → is_member (se_name x) (members_of s') = true)
  ∧ posts_of s' = posts_of s ++ new
  ∧ (∃ p, p ∈ new ∧ po_author p = by_ ∧ po_text p = move_said (MSeated (se_name <$> seats)) by_)
  ∧ (∀ x, x ∈ seats → is_member (se_name x) (members_of s) = false → posts_of s ≠ [] →
      un_posts (unread_of s' (se_name x)) = retain (λ p, negb (same (po_author p) (se_name x))) new)
  ∧ ∀ m, is_member m (members_of s) = true → cursor_of s' m = cursor_of s m.
Proof.
  intros Hwf Hr. pose proof (runs_posts _ _ _ _ _ Hr) as Hposts.
  assert (members_of s' = se_name <$> joined (roster_of s) seats) as Hm.
  { apply members_published. rewrite (join_published _ _ _ Hr). by rewrite decide_True. }
  assert (se_name <$> roster_of s = members_of s) as Hold.
  { unfold roster_of. rewrite <- list_fmap_compose. apply list_fmap_id. }
  destruct (joined_names (roster_of s) seats) as [Hpre Hin]. split_and!.
  - by rewrite join_effects with (s := s).
  - by rewrite Hm, <- Hold.
  - by rewrite Hm.
  - done.
  - eapply runs_said; [exact Hr|]. rewrite join_effects with (s := s) by done. by left.
  - intros x Hx Hj Hne. set (m := se_name x) in *. assert (m ∈ joining (Some s) seats) as Hfresh.
    { apply elem_of_retain. split; [apply list_elem_of_fmap; by exists x|]. by apply negb_true_iff. }
    unfold unread_of, cursor_of. rewrite (join_published _ _ _ Hr), decide_False by done. unfold last_post.
    destruct (last (posts_of s)) as [p|] eqn:El; [|by apply last_None in El]. cbn [fmap option_fmap option_map].
    rewrite decide_True by (apply list_elem_of_fmap; by exists m). cbn [mbind option_bind cursor_stored]. rewrite Hposts.
    change (cursor_stored (cursor_payload (po_id p))) with (Some (po_id p)). cbn [un_posts]. by rewrite (unread_from_head _ _ p (posts_ids _ Hwf) El).
  - intros m Hj. unfold cursor_of. rewrite (join_published _ _ _ Hr), decide_False by done. destruct (last_post s) as [h|]; [|done].
    rewrite decide_False; [done|]. intros (x & E & [_ Hx%negb_true_iff]%elem_of_retain)%list_elem_of_fmap.
    unfold cursor_kind in E. apply (inj (CURSOR ++.)) in E. rewrite any_false in Hx. apply any_true in Hj as (y & Hy & Es). specialize (Hx y Hy).
    unfold same in Hx, Es. bools. congruence.
Qed.

(** seating a name again does not change an ear it retuned.  A seat that has set its
    own ear keeps hearing by it after a join that asks for another, though the roster
    the join answers with says the seat wears the ear it was asked to. *)
Theorem join_leaves_a_retuned_ear (x : Seat) (e : Ear) (new : list Post) (s' : SessionState) :
  spelled s → seats = [x] → se_name x ∈ members_of s → published s (ear_kind (se_name x)) ≫= stored_ear = Some e → se_ear x ≠ e →
  runs id (join_room host id room seats by_).1 s new s' →
  (∃ roster held, (join_room host id room seats by_).2 = Ok roster ∧ held ∈ roster ∧ same (se_name held) (se_name x) = true ∧ se_ear held = se_ear x)
  ∧ ear_of (ears_of s') (se_name x) = e ∧ ear_of (ears_of s') (se_name x) ≠ se_ear x.
Proof.
  intros Hs Hseats Hx He Hne Hr.
  assert (spelled s') as Hs'.
  { intros kd v. rewrite (join_published _ _ _ Hr). case_decide as Hk; [intros _; subst kd; by intros m|].
    destruct (last_post s); [|apply Hs]. case_decide as Hc; [|apply Hs]. intros _. apply list_elem_of_fmap in Hc as (m & -> & _). by intros m'. }
  assert (ear_of (ears_of s') (se_name x) = e) as Hear.
  { rewrite ear_of_state by done. rewrite (join_published _ _ (ear_kind (se_name x)) Hr), decide_False by done.
    assert (match last_post s with Some h => if decide (ear_kind (se_name x) ∈ cursor_kind <$> joining (Some s) seats) then Some (cursor_payload h) else published s (ear_kind (se_name x)) | None => published s (ear_kind (se_name x)) end = published s (ear_kind (se_name x))) as ->; [|by rewrite He].
    destruct (last_post s); [|done]. rewrite decide_False; [done|]. by intros (m & E & _)%list_elem_of_fmap. }
  split; [|by rewrite Hear]. exists (joined (roster_of s) seats). rewrite join_effects with (s := s) by done. rewrite Hseats. cbn [joined foldl snd].
  assert (∀ roster, se_name x ∈ se_name <$> roster → ∃ held, held ∈ seat_over roster x ∧ same (se_name held) (se_name x) = true ∧ se_ear held = se_ear x) as H3.
  { intros roster. induction roster as [|y roster IH]; [by intros ?%elem_of_nil|]. rewrite fmap_cons. cbn [seat_over]. intros Hin.
    destruct (same (se_name y) (se_name x)) eqn:E; [exists (mkSeat (se_name y) (se_ear x)); split_and!; [by left|done..]|].
    apply elem_of_cons in Hin as [Hin|Hin]; [exfalso; revert E; unfold same; rewrite Hin; by rewrite bool_decide_true|].
    destruct (IH Hin) as (held & ? & ?). exists held. split; [by right|done]. }
  destruct (H3 (roster_of s)) as (held & ?); [|by exists held]. unfold roster_of. rewrite <- list_fmap_compose. apply list_elem_of_fmap. by exists (se_name x).
Qed.
End join.

(** *** Reading *)

Lemma unread_suffix ps c : ∃ k, unread ps c = drop k ps.
Proof. unfold unread. destruct c; [destruct (position _ ps) as [n|]; [by exists (S n)|]|]; by exists 0. Qed.
Lemma last_drop {A} k (l : list A) x : last (drop k l) = Some x → last l = Some x.
Proof. intros Hl. rewrite <- (take_drop k l), last_app. by rewrite Hl. Qed.

(** a post is read once.  A reading hands a seat what stood unread, and after it
    the seat has unread exactly what landed since; so a second reading with nothing
    said in between hands it nothing.  (A cursor names no post yet to come.) *)
Theorem a_post_is_read_once (seat : Seated) (new : list Post) (s' : SessionState) :
  transcript_wf (st_transcript (sd_state seat)) → (∀ c, cursor_of (sd_state seat) (sd_member seat) = Some c → c ∉ po_id <$> new) →
  runs (sd_id seat) (read_seat seat).1 (sd_state seat) new s' →
  (read_seat seat).2 = Ok ((λ text, (sd_title seat, text)) <$> reading_said (sd_title seat) (sd_purpose seat) (un_posts (unread_of (sd_state seat) (sd_member seat))))
  ∧ un_posts (unread_of s' (sd_member seat)) = retain (λ p, negb (same (po_author p) (sd_member seat))) new
  ∧ (new = [] → (read_seat (mkSeated (sd_id seat) (sd_title seat) (sd_purpose seat) (sd_member seat) s')) = ([], Ok None)).
Proof.
  intros Hwf Hnew Hr. set (s := sd_state seat) in *. set (m := sd_member seat) in *.
  pose proof (runs_posts _ _ _ _ _ Hr) as Hposts. pose proof (runs_published _ _ _ _ _ (cursor_kind m) Hr) as Hpub.
  assert (unread (posts_of s') (cursor_of s' m) = new ∧ (read_seat seat).2 = Ok ((λ text, (sd_title seat, text)) <$> reading_said (sd_title seat) (sd_purpose seat) (un_posts (unread_of s m)))) as [Hun Hsaid].
  { revert Hpub. unfold read_seat. fold s m. unfold unread_of. cbn [un_head un_posts].
    destruct (last (unread (posts_of s) (cursor_of s m))) as [p|] eqn:El.
    - cbn [fmap option_fmap option_map bind may_fail fst snd app ret foldl effect_published]. rewrite decide_True by done. cbn [is_null cursor_payload].
      intros Hpub. split; [|done]. unfold cursor_of. rewrite Hpub. cbn [mbind option_bind]. change (cursor_stored (cursor_payload (po_id p))) with (Some (po_id p)).
      rewrite Hposts. apply unread_from_head; [by apply posts_ids|]. destruct (unread_suffix (posts_of s) (cursor_of s m)) as [k Hk]. rewrite Hk in El. by eapply last_drop.
    - cbn [fmap option_fmap option_map ret fst snd foldl]. intros Hpub. apply last_None in El. rewrite El. split; [|done].
      unfold cursor_of in *. rewrite Hpub, Hposts. destruct (published s (cursor_kind m) ≫= cursor_stored) as [c|].
      + unfold unread in *. destruct (position _ (posts_of s)) as [n|] eqn:E.
        2: { rewrite El. cbn [app]. rewrite (proj2 (position_None _ new)); [done|]. intros x Hx. apply bool_decide_eq_false. intros Ex.
             apply (Hnew c eq_refl). apply list_elem_of_fmap. by exists x. }
        assert (position (λ post, bool_decide (po_id post = c)) (posts_of s ++ new) = Some n) as ->.
        { apply position_Some in E as (x & Hx & Hc & Hb). apply position_Some. exists x. pose proof (lookup_lt_Some _ _ _ Hx).
          split_and!; [by apply lookup_app_l_Some|done|]. intros j y Hj Hy. apply (Hb j y Hj). rewrite lookup_app_l in Hy; [done|lia]. }
        apply position_Some in E as (x & Hx & _). pose proof (lookup_lt_Some _ _ _ Hx). rewrite drop_app_le by lia. by rewrite El.
      + cbn [unread] in *. by rewrite El. }
  split_and!; [done| |].
  - unfold unread_of. cbn [un_posts]. by rewrite Hun.
  - intros ->. unfold read_seat. cbn [sd_state sd_member]. unfold unread_of. cbn [un_head]. by rewrite Hun.
Qed.

(** An agent that holds a room signs its own posts with its title and is seated as
    [parent], so it reads its own words as another's. *)
Lemma holder_reads_its_own_posts (state : SessionState) (holder : SessionSummary) (t : str) (p : Post) :
  ss_parent holder ≠ None → ss_title holder = Some t → same t PARENT = false → po_author p = signed_by holder →
  p ∈ unread (posts_of state) (cursor_of state PARENT) → p ∈ un_posts (unread_of state PARENT).
Proof.
  intros Hp Ht Hs Ha Hin. unfold unread_of. cbn [un_posts]. apply elem_of_retain. split; [done|]. rewrite Ha. unfold signed_by.
  destruct (ss_parent holder); [|done]. cbn [option_is_some]. rewrite Ht. cbn [default from_option]. apply negb_true_iff. exact Hs.
Qed.

(** ** Timers *)

Lemma filter_keys {V} (p : ChaseKey → bool) (m : gmap ChaseKey V) k :
  filter (λ kt, p kt.1 = true) m !! k = match m !! k with Some v => if p k then Some v else None | None => None end.
Proof.
  rewrite map_lookup_filter. destruct (m !! k); [|done]. cbn. destruct (p k) eqn:E; [by rewrite option_guard_True|rewrite option_guard_False; [done|congruence]].
Qed.
Lemma armed room now taken open k :
  foldl (arm_debt room now) taken open !! k =
    match taken !! k with Some v => Some v | None => find_map (λ m, if bool_decide (chase_key room m = Some k) then Some (budget (mn_at m) now) else None) open end.
Proof.
  revert taken. induction open as [|m open IH]; intros taken; [by cbn; destruct (taken !! k)|]. cbn [foldl find_map]. rewrite IH. unfold arm_debt.
  destruct (chase_key room m) as [d|] eqn:E; [|by rewrite bool_decide_false].
  destruct (decide (d = k)) as [->|Hd].
  - rewrite bool_decide_true by done. destruct (taken !! k) as [v|] eqn:Ek; cbn [option_is_some]; [by rewrite Ek|]. by rewrite lookup_insert_eq.
  - rewrite bool_decide_false by congruence. destruct (option_is_some (taken !! d)); [done|]. by rewrite lookup_insert_ne.
Qed.
Lemma budget_bounds at_ now : ((budget at_ now).1 ≤ PATIENCE)%N ∧ 1 ≤ (budget at_ now).2 ≤ NUDGES.
Proof. unfold budget, NUDGES, OVERDUE. case_match; cbn; lia. Qed.

(** a debt is chased by one timer, and only while it stands.  After a room's debts
    are reckoned its timers are exactly its standing debts against members, a timer
    already running among them is left alone, another room's are untouched, and a new
    one waits no longer than the patience and nudges between one and three times. *)
Theorem chased_debts_are_the_standing_ones (room : SessionId) (open : list Mention) (now : Timestamp) (taken : gmap ChaseKey (N * nat)) (k : ChaseKey) :
  let taken' := chaser_reconcile room open now taken in
  (k.1.1 ≠ room → taken' !! k = taken !! k)
  ∧ (k.1.1 = room → (is_Some (taken' !! k) ↔ ∃ m, m ∈ open ∧ chase_key room m = Some k))
  ∧ (∀ v, taken !! k = Some v → is_Some (taken' !! k) → taken' !! k = Some v)
  ∧ ∀ v, taken !! k = None → taken' !! k = Some v → (v.1 ≤ PATIENCE)%N ∧ 1 ≤ v.2 ≤ NUDGES.
Proof.
  intros taken'. unfold taken', chaser_reconcile. clear taken'.
  assert (∀ m, chase_key room m = Some k → k.1.1 = room) as Hroom.
  { intros m. unfold chase_key. destruct (chased _); [|done]. by intros [= <-]. }
  rewrite armed, filter_keys. unfold chase_keeps.
  split_and!.
  - intros Hk. assert (find_map (λ m, if bool_decide (chase_key room m = Some k) then Some (budget (mn_at m) now) else None) open = None) as ->.
    { apply find_map_None. intros m _. rewrite bool_decide_false; [done|]. intros E. by apply Hk, (Hroom m). }
    destruct (taken !! k); [|done]. by rewrite bool_decide_false.
  - intros Hk. rewrite (bool_decide_true (k.1.1 = room)) by done. cbn [negb orb].
    assert (is_Some (find_map (λ m, if bool_decide (chase_key room m = Some k) then Some (budget (mn_at m) now) else None) open) ↔ ∃ m, m ∈ open ∧ chase_key room m = Some k) as Hf.
    { split.
      - intros [v (m & Hm & E)%find_map_Some]. exists m. split; [done|]. by case_bool_decide.
      - intros (m & Hm & E). destruct (find_map _ open) eqn:En; [by eexists|]. rewrite find_map_None in En. specialize (En m Hm). by rewrite bool_decide_true in En. }
    rewrite <- Hf. destruct (taken !! k) as [v|]; [|done]. case_bool_decide as Hd.
    + split; [|by eexists]. intros _. apply Hf. apply list_elem_of_omap in Hd as (m & ? & ?). by exists m.
    + split; [by intros []|]. rewrite Hf. intros (m & Hm & E). destruct Hd. apply list_elem_of_omap. by exists m.
  - intros v ->. intros [w Hw]. destruct (decide (k.1.1 = room)) as [Hk|Hk]; [|by rewrite bool_decide_false]. rewrite (bool_decide_true (k.1.1 = room)) in * by done.
    cbn [negb orb] in *. case_bool_decide as Hd; [done|]. apply find_map_Some in Hw as (m & Hm & E). case_bool_decide; [|done].
    destruct Hd. apply list_elem_of_omap. by exists m.
  - intros v ->. intros (m & _ & E)%find_map_Some. case_bool_decide; [|done]. injection E as <-. apply budget_bounds.
Qed.

End laws.

(** ** Examples *)

Module Demo.

#[local] Instance ascii : Unicode := {| to_lowercase s := to_ascii_lowercase <$> s; is_alphanumeric := is_ascii_alphanumeric; debug s := 34%N :: s ++ [34%N] |}.
#[local] Instance ascii_laws : UnicodeLaws.
Proof.
  intros s. cbn. rewrite <- list_fmap_compose. apply list_fmap_ext. intros i c _. cbn. unfold to_ascii_lowercase.
  destruct ((65 <=? c) && (c <=? 90))%N eqn:E; rewrite ?E; [|done]. bools. repeat match goal with H : (_ <=? _)%N = true |- _ => apply N.leb_le in H end.
  destruct ((65 <=? c + 32) && (c + 32 <=? 90))%N eqn:E'; [|done]. bools. repeat match goal with H : (_ <=? _)%N = true |- _ => apply N.leb_le in H end. lia.
Qed.

#[local] Instance clock : Clock := {| show_timestamp := show_Z; parse_timestamp _ := None |}.

Definition summary_of (id : SessionId) (driver : Driver) (key title : option str) (parent : option SessionId) : SessionSummary :=
  mkSessionSummary id key title (lit "/tmp") ((λ p, mkParentLink p None) <$> parent) driver (mkSessionModel None None None)
    None None None 0 0 usage_default false false (mkSessionHistory None None None).
Definition post (id author text : String.string) : Item :=
  mkItem (lit id) None 0 Completed 1%Z (Some 1%Z) None (BUser [PText (lit text)] (mkOrigin None None (lit "agent") (Some (lit author)) None)) [].
Definition room_id : SessionId := lit "ses_2".
Definition room_start : SessionState := state_new (summary_of room_id DriverLog (Some (lit "rooms/ses_1/design")) (Some (lit "#design")) (Some (lit "ses_1"))).
Definition seats : list Seat := [seat_named (lit "Scout"); seat_live (lit "reviewer"); mkSeat (lit "writer") (Patient 120)].
Definition seating : Event * Timestamp := (Extension PLUGIN MEMBERS (payload seats), 0%Z).
Definition tuning : Event * Timestamp := (Extension PLUGIN (ear_kind (lit "Scout")) (register (Patient 60)), 0%Z).
Definition hello : Event * Timestamp := (ItemCompleted (post "itm_1" "reviewer" "@scout look at this"), 1%Z).
Definition room_events : list (Event * Timestamp) := [seating; tuning; hello].
Definition room_now : SessionState := state_after room_start room_events.

Lemma start_spelled : spelled room_start.
Proof. by intros kind v. Qed.
Lemma events_spelled et : et ∈ room_events → spelled_event et.1.
Proof.
  intros Hin. repeat (apply elem_of_cons in Hin as [->|Hin]; [|]); [..|by apply elem_of_nil in Hin].
  - intros _ m. by intros [=].
  - intros _. apply ear_kind_spelled.
  - done.
Qed.

Lemma roster_follows_the_journal_witness :
  ∃ e, foldl (λ r et, hook_roster room_id r et.1) (roster_restore ∅ room_start) room_events !! room_id = Some e
    ∧ rm_members (en_room e) = [lit "Scout"; lit "reviewer"; lit "writer"] ∧ ear_of (rm_ears (en_room e)) (lit "scout") = Patient 60.
Proof.
  destruct (roster_follows_the_journal room_id ∅ room_start [] start_spelled ltac:(by intros et ?%elem_of_nil)) as [_ Hrestore].
  destruct (roster_follows_the_journal room_id (roster_restore ∅ room_start) room_start room_events start_spelled events_spelled) as [Hfold _].
  destruct Hfold as (e & He & Hroom); [by eapply Hrestore|].
  exists e. rewrite Hroom. split_and!; [exact He|vm_compute; reflexivity..].
Defined.

Lemma roster_reads_back_witness : roster_of (state_after room_start [seating]) = seats.
Proof.
  apply (roster_reads_back seats (state_after room_start [seating])).
  - apply spelled_after; [|apply start_spelled]. intros et Hin. apply events_spelled. set_solver.
  - vm_compute. reflexivity.
  - apply (bool_decide_unpack _). vm_compute. exact I.
  - intros x Hx. repeat (apply elem_of_cons in Hx as [->|Hx]; [split; [cbn; unfold FLOOR; lia || done|vm_compute; reflexivity]|]). by apply elem_of_nil in Hx.
Defined.

(** An agent posts behind the room, is handed what it missed, and posts again. *)
Definition caller_start : SessionState := state_new (summary_of (lit "ses_3") DriverModel None (Some (lit "writer")) (Some (lit "ses_1"))).
Definition bounce_out : ToolOutput := default (output_text []) (bounce room_now caller_start (lit "itm_9") (lit "#design") (lit "writer")).
Definition bounced_call : Item :=
  mkItem (lit "itm_8") None 0 Completed 2%Z (Some 2%Z) None (BToolCall None None None (lit "c1") SEND_MESSAGE VNull (Some bounce_out) None None false) [].
Definition caller_later : SessionState := state_after caller_start [(ItemCompleted bounced_call, 2%Z)].
Lemma bounced_post_may_retry_witness :
  bounce room_now caller_start (lit "itm_9") (lit "#design") (lit "writer") ≠ None
  ∧ bounce room_now caller_later (lit "itm_9") (lit "#design") (lit "writer") = None.
Proof.
  split; [vm_compute; discriminate|].
  refine (proj1 (bounced_post_may_retry room_now room_now caller_start caller_later (lit "itm_9") (lit "itm_9") (lit "#design") (lit "writer") bounce_out []
    bounced_call None None None (lit "c1") SEND_MESSAGE VNull None None false _ _ _ _ _ _) _); try reflexivity; try (vm_compute; reflexivity).
  - apply (bool_decide_unpack _). vm_compute. exact I.
  - assert (before caller_later (lit "itm_9") = [bounced_call]) as -> by (vm_compute; reflexivity). by left.
Defined.

Definition agents : list SessionSummary := [summary_of (lit "ses_4") DriverModel None (Some (lit "scout")) (Some (lit "ses_1"))].
Definition host : Host :=
  mkHost (λ _, Ok agents) (Ok agents) (λ id, if decide (id = room_id) then Some room_now else None) (λ _ _, Ok room_id) (λ _, Ok tt) 0%Z.
Definition the_room : Room := mkRoom (lit "#design") (lit "ses_1") (se_name <$> seats) (ears_of room_now) None false.

Lemma a_seat_in_another_case_is_never_woken_witness :
  ∃ m, mentions_of_state room_now = [m] ∧ mn_owed_by m = OMember (lit "Scout") ∧ seat_of host the_room (lit "Scout") = None
    ∧ same (lit "Scout") (seated_as (summary_of (lit "ses_4") DriverModel None (Some (lit "scout")) (Some (lit "ses_1"))) the_room) = true.
Proof.
  eexists. split; [vm_compute; reflexivity|]. split; [reflexivity|].
  destruct (a_seat_in_another_case_is_never_woken host the_room agents (summary_of (lit "ses_4") DriverModel None (Some (lit "scout")) (Some (lit "ses_1")))
    (lit "scout") (lit "Scout") (default (mkMention ORoom [] [] 0 []) (head (mentions_of_state room_now))) room_now) as (H1 & H2 & _); [reflexivity| |vm_compute; reflexivity..| |vm_compute; reflexivity|vm_compute; reflexivity|done].
  - intros x Hx. apply list_elem_of_singleton in Hx as ->. by vm_compute.
  - by vm_compute.
Defined.

Lemma room_now_wf : transcript_wf (st_transcript room_now).
Proof.
  assert (∀ s e ts, transcript_wf (st_transcript s) → transcript_wf (st_transcript (apply_event e ts s).1)) as Hstep.
  { intros s e ts Hs. rewrite apply_event_transcript. by apply transcript_apply_wf. }
  unfold room_now, state_after. cbn [foldl room_events]. do 3 apply Hstep. apply transcript_new_wf.
Qed.

Definition newcomer : list Seat := [seat_live (lit "Critic")].
Definition joined_events : list Effect := (join_room host room_id the_room newcomer PARENT).1.
Definition seated_line : Item := post "itm_2" "parent" "parent seated Critic".
Definition after_join : SessionState := (extended PLUGIN (cursor_kind (lit "Critic")) (cursor_payload (lit "itm_1"))
  (extended PLUGIN MEMBERS (payload (joined (roster_of room_now) newcomer)) (posted seated_line 3 room_now)).1).1.
Lemma join_runs : ∃ p, runs room_id joined_events room_now [p] after_join ∧ po_text p = lit "parent seated Critic".
Proof.
  unfold joined_events. rewrite join_effects with (s := room_now); [|done|by vm_compute|by vm_compute].
  eexists. split; [|]. cbn [fst].
  - eapply (runs_say _ _ _ _ _ seated_line 3%Z); [vm_compute; reflexivity|reflexivity|reflexivity|vm_compute; reflexivity|].
    apply runs_extend. replace (last_post room_now) with (Some (lit "itm_1")) by (vm_compute; reflexivity).
    replace (joining (Some room_now) newcomer) with [lit "Critic"] by (vm_compute; reflexivity). apply runs_extend, runs_done.
  - reflexivity.
Qed.

Lemma joiners_read_from_their_seating_witness :
  ∃ p, po_text p = lit "parent seated Critic" ∧ un_posts (unread_of after_join (lit "critic")) = [p] ∧ cursor_of after_join (lit "scout") = None.
Proof.
  destruct join_runs as (p & Hr & Hp).
  destruct (joiners_read_from_their_seating host room_id the_room newcomer PARENT room_now ltac:(done) ltac:(by vm_compute) ltac:(by vm_compute) [p] after_join room_now_wf Hr)
    as (_ & _ & _ & _ & (q & Hq & Ha & _) & Hun & Hcur).
  exists p. split_and!; [done| |].
  - specialize (Hun (seat_live (lit "Critic"))). change (unread_of after_join (lit "critic")) with (unread_of after_join (lit "Critic")) || idtac.
    apply list_elem_of_singleton in Hq as ->. etrans; [|etrans; [apply Hun|]].
    + vm_compute. reflexivity.
    + by left.
    + by vm_compute.
    + by vm_compute.
    + cbn [retain List.filter]. rewrite Ha. by vm_compute.
  - by rewrite Hcur.
Defined.

Definition asked_live : Seat := seat_live (lit "Scout").
Lemma rejoin_runs : ∃ p s', runs room_id (join_room host room_id the_room [asked_live] PARENT).1 room_now [p] s'.
Proof.
  rewrite join_effects with (s := room_now); [|done|by vm_compute|by vm_compute]. cbn [fst]. eexists _, _.
  eapply (runs_say _ _ _ _ _ (post "itm_2" "parent" "parent seated Scout") 3%Z); [vm_compute; reflexivity|reflexivity|reflexivity|vm_compute; reflexivity|].
  apply runs_extend. replace (last_post room_now) with (Some (lit "itm_1")) by (vm_compute; reflexivity).
  replace (joining (Some room_now) [asked_live]) with ([] : list str) by (vm_compute; reflexivity). apply runs_done.
Qed.
Lemma join_leaves_a_retuned_ear_witness :
  ∃ p s', runs room_id (join_room host room_id the_room [asked_live] PARENT).1 room_now [p] s' ∧ ear_of (ears_of s') (lit "Scout") = Patient 60.
Proof.
  destruct rejoin_runs as (p & s' & Hr). exists p, s'. split; [done|].
  destruct (join_leaves_a_retuned_ear host room_id the_room [asked_live] PARENT room_now ltac:(done) ltac:(by vm_compute) ltac:(by vm_compute)
    asked_live (Patient 60) [p] s') as (_ & He & _); [apply spelled_after; [apply events_spelled|apply start_spelled]|done|vm_compute; left|vm_compute; reflexivity|done|done|done].
Defined.

Definition scouts_seat : Seated := mkSeated room_id (lit "#design") None (lit "Scout") room_now.
Lemma a_post_is_read_once_witness :
  (read_seat scouts_seat).2 = Ok (Some (lit "#design", lit "[#design, since you last read]" ++ newline :: lit "reviewer: @scout look at this"))
  ∧ un_posts (unread_of (extended PLUGIN (cursor_kind (lit "Scout")) (cursor_payload (lit "itm_1")) room_now).1 (lit "Scout")) = [].
Proof.
  split; [vm_compute; reflexivity|].
  destruct (a_post_is_read_once scouts_seat [] (extended PLUGIN (cursor_kind (lit "Scout")) (cursor_payload (lit "itm_1")) room_now).1)
    as (_ & H & _); [apply room_now_wf|by intros c _ ?%elem_of_nil| |exact H].
  replace (read_seat scouts_seat).1 with [Extend room_id (cursor_kind (lit "Scout")) (cursor_payload (lit "itm_1"))] by (vm_compute; reflexivity).
  apply runs_extend, runs_done.
Defined.

End Demo.
