(* ===== verification/Queue.v ===== *)
(** * Queue: inputs that wait

    [bingo-core/src/session/queue.rs] and the queue part of
    [bingo-core/src/session/inputs.rs].  Lines that arrive while a session is
    busy wait here; a turn that opens takes the prose at the head, a running
    turn is steered with the part of it that does not ask to wait, and an idle
    session takes one unit at a time.  Each operation of the actor is a function
    from the queue to the next queue and the effects it has, in order. *)

From S2P Require Import Prelude Text Model Interaction Event Transcript State Recovery.

(** ** Inputs ([bingo-sdk/src/host.rs]) *)

Inductive Delivery := Wake | Hold.

Record Action := mkAction { action_name : str; action_args : Value }.
Record Headline := mkHeadline { headline_tone : Tone; headline_parts : list str }.

Inductive Input :=
| InText (text : str) (images : list Image) (origin : Origin) (delivery : Delivery)
         (headline : option Headline)
| InAction (action : Action) (origin : option Origin).

Definition is_held (i : Input) : bool :=
  match i with InText _ _ _ Hold _ => true | _ => false end.

(** [inputs.rs]: the delivery the caller asked for, written into the line. *)
Definition stamped (input : Input) (delivery : Delivery) : Input :=
  match input with
  | InText text images origin _ headline => InText text images origin delivery headline
  | InAction _ _ => input
  end.

(** *** Validation *)

Definition media_types : list (str * str) :=
  [(lit "png", lit "image/png"); (lit "jpg", lit "image/jpeg"); (lit "jpeg", lit "image/jpeg");
   (lit "gif", lit "image/gif"); (lit "webp", lit "image/webp")].
Definition is_known (media : str) : bool := any (fun p => bool_decide (p.2 = media)) media_types.
Definition max_bytes : N := 5 * 1024 * 1024.

Definition validate_image (i : Image) : result str () :=
  if negb (is_known (media_type i))
  then Err (lit "unknown image media type `" ++ media_type i ++ lit "`")
  else
    let bytes := decoded_len i in
    if (max_bytes <? bytes)%N
    then Err (lit "image too large: " ++ show_Z (Z.of_N bytes) ++ lit " bytes, the limit is "
              ++ show_Z (Z.of_N max_bytes))
    else Ok tt.

Fixpoint try_for_each {A E} (f : A -> result E ()) (l : list A) : result E () :=
  match l with
  | [] => Ok tt
  | x :: l' => let* _ := f x in try_for_each f l'
  end.

Definition validate (i : Input) : result str () :=
  match i with
  | InText text images _ _ _ =>
      if bool_decide (trim text = []) && bool_decide (length images = 0)
      then Err (lit "empty input") else try_for_each validate_image images
  | InAction action _ => Err (lit "unknown action: " ++ action_name action)
  end.

(** [bingo-sdk/src/command.rs]. *)
Definition recorded_line (line : str) : str :=
  if bool_decide (head (split_whitespace line) = Some (lit "/provider"))
  then lit "/provider [redacted]" else line.

(** ** The queue *)

Inductive Pending := PendCommand (input : Input) | PendProse (input : Input).

Definition pending_input (p : Pending) : Input :=
  match p with PendCommand i | PendProse i => i end.
Definition is_command (p : Pending) : bool :=
  match p with PendCommand _ => true | PendProse _ => false end.
Definition steerable (p : Pending) : bool := negb (is_command p) && negb (is_held (pending_input p)).

Record Queue := mkQueue { q_entries : list (IntentId * Pending); q_revision : N }.

Inductive Unit_ := UProse (inputs : list (IntentId * Input)) | UCommand (intent : IntentId) (input : Input).

Definition unpack (e : IntentId * Pending) : IntentId * Input := (e.1, pending_input e.2).

Definition ready (q : Queue) : bool :=
  any (fun e => negb (is_held (pending_input e.2)) || is_command e.2) (q_entries q).

Definition push (q : Queue) (intent : IntentId) (input : Pending) : Queue * N :=
  let entries := q_entries q ++ [(intent, input)] in
  (mkQueue entries (q_revision q), wrap 32 (N.of_nat (length entries))).

Definition drain_all (q : Queue) : Queue * list (IntentId * Input) :=
  (mkQueue [] (q_revision q), unpack <$> q_entries q).

Definition take_run (keep : Pending -> bool) (q : Queue) : Queue * list (IntentId * Input) :=
  let n := length (take_while (fun e => keep e.2) (q_entries q)) in
  (mkQueue (drop n (q_entries q)) (q_revision q), unpack <$> take n (q_entries q)).

Definition take_prose (q : Queue) : Queue * list (IntentId * Input) :=
  take_run (fun p => negb (is_command p)) q.
Definition take_steers (q : Queue) : Queue * list (IntentId * Input) := take_run steerable q.

Definition queued (q : Queue) (intent : IntentId) : option Input :=
  (fun e => pending_input e.2) <$> find_bool (fun e => bool_decide (e.1 = intent)) (q_entries q).

Definition take_intent (q : Queue) (intent : IntentId) : Queue * option Input :=
  match position (fun e => bool_decide (e.1 = intent)) (q_entries q) with
  | None => (q, None)
  | Some at_ =>
      (mkQueue (delete at_ (q_entries q)) (q_revision q),
       (fun e => pending_input e.2) <$> q_entries q !! at_)
  end.

Definition take_unit (q : Queue) : Queue * option Unit_ :=
  match q_entries q with
  | [] => (q, None)
  | (intent, p) :: rest =>
      if is_command p
      then (mkQueue rest (q_revision q), Some (UCommand intent (pending_input p)))
      else let '(q', run) := take_prose q in (q', Some (UProse run))
  end.

Definition origin_default : Origin := origin_surface [].
Definition origin_of (i : Input) : Origin :=
  match i with InText _ _ origin _ _ => origin | InAction _ _ => origin_default end.

Definition preview_chars : nat := 80.
Definition preview (i : Input) : str :=
  match i with
  | InText text images _ _ _ =>
      if bool_decide (text = []) && negb (bool_decide (length images = 0)) then lit "(an image)"
      else chars_take preview_chars (recorded_line text)
  | InAction action _ => chars_take preview_chars (recorded_line (action_name action))
  end.

Definition entry (e : IntentId * Pending) (position : N) : QueueEntry :=
  mkQueueEntry e.1 position (preview (pending_input e.2)) (steerable e.2)
               (origin_of (pending_input e.2)).

Definition changed (q : Queue) : Queue * Event :=
  let revision := u64_add (q_revision q) 1 in
  (mkQueue (q_entries q) revision,
   QueueChanged revision
     (imap (fun i e => entry e (u32_add (wrap 32 (N.of_nat i)) 1)) (q_entries q))).

(** ** Opening a turn *)

Definition tone_name (t : Tone) : str :=
  match t with
  | Neutral => lit "neutral" | Good => lit "good" | Bad => lit "bad" | Attention => lit "attention"
  end.
Definition headline_json (h : Headline) : Value :=
  VObject [(lit "tone", VString (tone_name (headline_tone h)));
           (lit "parts", VArray (VString <$> headline_parts h))].

Definition set_headline (h : Headline) (i : Item) : Item :=
  mkItem (item_id i) (item_turn i) (item_round i) (item_status i) (item_started_at i)
         (item_completed_at i) (item_intent i) (item_body i)
         (map_insert (lit "headline") (headline_json h) (item_meta i)).

(** [bingo-core/src/user.rs]. *)
Definition user_item (input : Input) (mint : ItemBody -> Item) : option Item :=
  match input with
  | InAction _ _ => None
  | InText text images origin _ headline =>
      let parts := (if bool_decide (text = []) then [] else [PText text]) ++ (PImage <$> images) in
      let item := mint (BUser parts origin) in
      Some (match headline with Some h => set_headline h item | None => item end)
  end.

(** A published event with the intent that caused it. *)
Abbreviation Caused := (Event * option IntentId)%type (only parsing).

(** [journal_prose]; the minted id and the clock are arguments. *)
Definition journal_prose (turn : option TurnId) (id : ItemId) (now : Timestamp)
    (intent : IntentId) (input : Input) : option Item :=
  user_item input (fresh id now turn (Some intent)).

(** [record_inputs]: the items journaled and the intents to acknowledge, the
    [k]-th input's item minted as [mint k]. *)
Fixpoint record_inputs (turn : TurnId) (mint : nat -> ItemId) (now : Timestamp)
    (inputs : list (IntentId * Input)) : list Item * list IntentId :=
  match inputs with
  | [] => ([], [])
  | (intent, input) :: rest =>
      let '(its, acks) := record_inputs turn (fun k => mint (S k)) now rest in
      match journal_prose (Some turn) (mint 0) now intent input with
      | Some item => (item :: its, intent :: acks)
      | None => (its, acks)
      end
  end.

Definition start_turn (turn : TurnId) (mint : nat -> ItemId) (now : Timestamp)
    (inputs : list (IntentId * Input)) (origin : TurnOrigin) : list Caused :=
  let '(its, acks) := record_inputs turn mint now inputs in
  ((fun item => (ItemCompleted item, item_intent item)) <$> its) ++
  [(TurnStarted turn (item_id <$> its) origin, None)] ++
  ((fun intent => (IntentAck intent (OutTurnStarted turn), Some intent)) <$> acks).

(** ** The actor's side *)

(** What the actor knows when an input reaches the queue. *)
Record Desk := mkDesk {
  d_busy : bool;        (* a turn runs, or a command that holds the queue *)
  d_gate_busy : bool;   (* the input gate has work *)
  d_answers : bool;     (* a model answers this session *)
  d_closed : bool;      (* closed or closing *)
}.

Inductive Effect :=
| Publish (event : Event) (cause : option IntentId)
| StartTurn (inputs : list (IntentId * Input)) (origin : TurnOrigin)
| RunCommand (intent : IntentId) (input : Input)
| GateQueued (intent : IntentId) (input : Input)
| LogInput (intent : IntentId) (input : Input).

Definition reject (intent : IntentId) (code : ErrorCode) (message : str) : Effect :=
  Publish (IntentAck intent (OutRejected (mkKernelError code message))) (Some intent).

Definition enqueue (q : Queue) (intent : IntentId) (input : Pending) : Queue * list Effect :=
  let '(q1, position) := push q intent input in
  let '(q2, event) := changed q1 in
  (q2, [Publish event None; Publish (IntentAck intent (OutQueued position)) (Some intent)]).

Definition queue_moved (q : Queue) (taken : list (IntentId * Input)) : Queue * list Effect :=
  match taken with
  | [] => (q, [])
  | _ :: _ => let '(q', event) := changed q in (q', [Publish event None])
  end.

Definition take_queue (q : Queue) : Queue * list (IntentId * Input) * list Effect :=
  let '(q1, taken) := take_prose q in
  let '(q2, effects) := queue_moved q1 taken in (q2, taken, effects).

Definition steers (q : Queue) : Queue * list (IntentId * Input) * list Effect :=
  let '(q1, taken) := take_steers q in
  let '(q2, effects) := queue_moved q1 taken in (q2, taken, effects).

Definition held_then (q : Queue) (intent : IntentId) (input : Input)
    : Queue * list (IntentId * Input) * list Effect :=
  let '(q', taken, effects) := take_queue q in (q', taken ++ [(intent, input)], effects).

Definition log_input (intent : IntentId) (input : Input) : Effect :=
  match input with
  | InText _ _ _ _ _ => LogInput intent input
  | InAction _ _ => reject intent InvalidInput (lit "a log records text")
  end.

Definition submit_prose (d : Desk) (q : Queue) (intent : IntentId) (input : Input)
    : Queue * list Effect :=
  if negb (d_answers d) then (q, [log_input intent input])
  else if d_busy d || ready q then enqueue q intent (PendProse input)
  else let '(q', inputs, effects) := held_then q intent input in
       (q', effects ++ [StartTurn inputs OSubmit]).

Definition deliver_ready (d : Desk) (q : Queue) (intent : IntentId) (input : Input)
    (delivery : Delivery) : Queue * list Effect :=
  let input := stamped input delivery in
  if d_closed d then (q, [reject intent SessionClosedCode (lit "the session is closed")])
  else
    match input with
    | InAction _ _ => (q, [reject intent InvalidInput (lit "a peer delivers text")])
    | InText _ _ _ _ _ =>
        match validate input with
        | Err message => (q, [reject intent InvalidInput message])
        | Ok _ =>
            if negb (d_answers d) then (q, [log_input intent input])
            else if d_busy d || ready q || is_held input then enqueue q intent (PendProse input)
            else let '(q', inputs, effects) := held_then q intent input in
                 (q', effects ++ [StartTurn inputs OPeer])
        end
    end.

(** [instant] is what the command says of itself; [queued] marks a command that
    already waited its turn. *)
Definition submit_command (d : Desk) (instant queued : bool) (q : Queue) (intent : IntentId)
    (input : Input) : Queue * list Effect :=
  if negb instant && negb queued && (d_busy d || ready q)
  then enqueue q intent (PendCommand input)
  else (q, [RunCommand intent input]).

Definition gone (intent : IntentId) : KernelError :=
  mkKernelError NotFound (lit "no line of " ++ intent ++ lit " is waiting in this queue").

Definition take_back (q : Queue) (intent : IntentId) : Queue * option Input * list Effect :=
  let '(q1, taken) := take_intent q intent in
  match taken with
  | None => (q1, None, [])
  | Some input => let '(q2, event) := changed q1 in (q2, Some input, [Publish event None])
  end.

Definition withdraw (q : Queue) (intent : IntentId) (by_surface : str)
    : Queue * result KernelError Input * list Effect :=
  match origin_of <$> queued q intent with
  | None => (q, Err (gone intent), [])
  | Some origin =>
      if negb (bool_decide (surface origin = by_surface))
      then (q, Err (mkKernelError PermissionDenied
                      (lit "that line is " ++ surface origin ++ lit "'s to take back")), [])
      else match take_back q intent with
           | (q', Some input, effects) => (q', Ok input, effects)
           | (q', None, effects) => (q', Err (gone intent), effects)
           end
  end.

Definition drain_queue (d : Desk) (q : Queue) : Queue * list Effect :=
  if d_busy d || d_gate_busy d then (q, [])
  else
    match take_unit q with
    | (q', None) => (q', [])
    | (q', Some unit_) =>
        let work := match unit_ with
                    | UProse inputs => StartTurn inputs OQueue
                    | UCommand intent input => GateQueued intent input
                    end in
        let '(q'', event) := changed q' in (q'', [work; Publish event None])
    end.

(** [finish_close]: every waiting intent is refused. *)
Definition close_queue (q : Queue) : Queue * list Effect :=
  let '(q', waiting) := drain_all q in
  (q', (fun e => reject e.1 SessionClosedCode (lit "the session is closed")) <$> waiting).

(** ** Lines in, lines out

    A run of operations with its ledger: what was offered to the session, what
    it served (handed to a turn, or to a command's run) and what was taken
    back, each in order. *)

Inductive Op :=
| OpProse (d : Desk) (intent : IntentId) (input : Input)
| OpDeliver (d : Desk) (intent : IntentId) (input : Input) (delivery : Delivery)
| OpCommand (d : Desk) (intent : IntentId) (input : Input)
| OpSteer
| OpDrain (d : Desk)
| OpWithdraw (intent : IntentId) (by_surface : str).

Record Ledger := mkLedger {
  lg_queue : Queue;
  lg_offered : list (IntentId * Pending);
  lg_served : list (IntentId * Pending);
  lg_withdrawn : list (IntentId * Pending);
}.

Definition as_prose (e : IntentId * Input) : IntentId * Pending := (e.1, PendProse e.2).

Definition served_by (fx : Effect) : list (IntentId * Pending) :=
  match fx with
  | StartTurn inputs _ => as_prose <$> inputs
  | GateQueued intent input | RunCommand intent input => [(intent, PendCommand input)]
  | _ => []
  end.

(** Whether a delivery is a line this session queues or answers. *)
Definition deliverable (d : Desk) (input : Input) (delivery : Delivery) : bool :=
  negb (d_closed d) && is_ok (validate (stamped input delivery)) && d_answers d.

Definition offered_by (op : Op) : list (IntentId * Pending) :=
  match op with
  | OpProse d intent input => if d_answers d then [(intent, PendProse input)] else []
  | OpDeliver d intent input delivery =>
      if deliverable d input delivery then [(intent, PendProse (stamped input delivery))] else []
  | OpCommand _ intent input => [(intent, PendCommand input)]
  | _ => []
  end.

(** One operation: the next queue, what it served and what it gave back.  The
    commands are those that do not run instantly. *)
Definition run_op (q : Queue) (op : Op)
    : Queue * list (IntentId * Pending) * list (IntentId * Pending) :=
  match op with
  | OpProse d intent input =>
      let '(q', fx) := submit_prose d q intent input in (q', fx ≫= served_by, [])
  | OpDeliver d intent input delivery =>
      let '(q', fx) := deliver_ready d q intent input delivery in (q', fx ≫= served_by, [])
  | OpCommand d intent input =>
      let '(q', fx) := submit_command d false false q intent input in (q', fx ≫= served_by, [])
  | OpSteer => let '(q', taken, _) := steers q in (q', as_prose <$> taken, [])
  | OpDrain d => let '(q', fx) := drain_queue d q in (q', fx ≫= served_by, [])
  | OpWithdraw intent by_surface =>
      match withdraw q intent by_surface with
      | (q', Ok _, _) =>
          (q', [], option_list (find_bool (fun e => bool_decide (e.1 = intent)) (q_entries q)))
      | (q', Err _, _) => (q', [], [])
      end
  end.

Definition ledger_step (l : Ledger) (op : Op) : Ledger :=
  let '(q', served, back) := run_op (lg_queue l) op in
  mkLedger q' (lg_offered l ++ offered_by op) (lg_served l ++ served) (lg_withdrawn l ++ back).

Definition ledger_new : Ledger := mkLedger (mkQueue [] 0) [] [] [].
Definition ledger_run (ops : list Op) : Ledger := foldl ledger_step ledger_new ops.

(** The lines of one kind: commands, or prose. *)
Definition of_kind (command : bool) (l : list (IntentId * Pending)) : list (IntentId * Pending) :=
  retain (fun e => Bool.eqb (is_command e.2) command) l.

(** ** Lemmas *)

Lemma of_kind_app k l l' : of_kind k (l ++ l') = of_kind k l ++ of_kind k l'.
Proof. apply retain_app. Qed.

Lemma as_prose_unpack (l : list (IntentId * Pending)) : (∀ e, e ∈ l → is_command e.2 = false) → as_prose <$> (unpack <$> l) = l.
Proof.
  induction l as [|[i p] l IH]; csimpl; intros H; [done|].
  rewrite IH by (intros; apply H; by right). specialize (H (i, p)). simpl in H.
  destruct p; [|done]. by discriminate H; left.
Qed.

Lemma take_run_split keep q :
  q_entries q = take (length (take_while (λ e, keep e.2) (q_entries q))) (q_entries q)
    ++ q_entries (take_run keep q).1.
Proof. simpl. by rewrite take_drop. Qed.

Lemma take_while_take {A} (p : A → bool) l : take (length (take_while p l)) l = take_while p l.
Proof. induction l as [|x l IH]; simpl; [done|]. destruct (p x); simpl; by rewrite ?IH. Qed.

Lemma take_while_full {A} (p : A → bool) l : (∀ x, x ∈ l → p x = true) → take_while p l = l.
Proof.
  induction l as [|x l IH]; simpl; intros H; [done|]. rewrite H by left.
  f_equal. apply IH. intros y Hy. apply H. by right.
Qed.

(** Taking a run whose entries are prose splits the queue. *)
Lemma take_run_prose keep q : (∀ p, keep p = true → is_command p = false) →
  q_entries q = (as_prose <$> (take_run keep q).2) ++ q_entries (take_run keep q).1.
Proof.
  intros Hk. rewrite (take_run_split keep q) at 1. f_equal. simpl.
  rewrite as_prose_unpack; [done|]. rewrite take_while_take. intros e He%take_while_all. auto.
Qed.

Lemma steerable_prose p : steerable p = true → is_command p = false.
Proof. unfold steerable. intros [H _]%andb_true_iff. by apply negb_true_iff in H. Qed.

Lemma not_ready q : ready q = false →
  ∀ e, e ∈ q_entries q → is_command e.2 = false ∧ is_held (pending_input e.2) = true.
Proof.
  intros H e He. unfold ready in H. rewrite any_false in H. specialize (H e He). simpl in H.
  apply orb_false_iff in H as [H1 H2]. by apply negb_false_iff in H1.
Qed.

(** A queue with nothing but held prose goes whole to the turn that opens. *)
Lemma take_prose_all q : ready q = false →
  q_entries (take_prose q).1 = [] ∧ as_prose <$> (take_prose q).2 = q_entries q.
Proof.
  intros H. pose proof (not_ready q H) as Hn. unfold take_prose, take_run; simpl.
  rewrite take_while_full, drop_all, firstn_all.
  - split; [done|]. apply as_prose_unpack. intros e He. by apply Hn.
  - intros e He. apply negb_true_iff. by apply Hn.
Qed.

Lemma queue_moved_entries q taken : q_entries (queue_moved q taken).1 = q_entries q
  ∧ (queue_moved q taken).2 ≫= served_by = [].
Proof. by destruct taken. Qed.

Lemma queue_moved_split q taken q' fx :
  queue_moved q taken = (q', fx) → q_entries q' = q_entries q ∧ fx ≫= served_by = [].
Proof. intros E. pose proof (queue_moved_entries q taken) as H. by rewrite E in H. Qed.

(** What one operation conserves. *)
Definition conserved (q : Queue) (op : Op) : Prop :=
  let '(q', served, back) := run_op q op in
  (∀ k, of_kind k (served ++ q_entries q') `sublist_of` of_kind k (q_entries q ++ offered_by op))
  ∧ q_entries q ++ offered_by op ≡ₚ served ++ q_entries q' ++ back.

(** The common case: the queue and what is offered, cut in two. *)
Lemma conserved_cut q op q' served : run_op q op = (q', served, []) →
  q_entries q ++ offered_by op = served ++ q_entries q' → conserved q op.
Proof. intros E H. unfold conserved. rewrite E, H, app_nil_r. split; [by intros k|done]. Qed.

Lemma held_then_split q intent input q' inputs fx : ready q = false →
  held_then q intent input = (q', inputs, fx) →
  q_entries q' = [] ∧ as_prose <$> inputs = q_entries q ++ [(intent, PendProse input)]
  ∧ fx ≫= served_by = [].
Proof.
  intros Hr. unfold held_then, take_queue.
  destruct (take_prose_all q Hr) as [H1 H2]. destruct (take_prose q) as [q1 taken].
  destruct (queue_moved q1 taken) as [q2 fx2] eqn:Eq. intros [= <- <- <-].
  destruct (queue_moved_split _ _ _ _ Eq) as [-> ->]. simpl in *. split_and!; [done| |done].
  by rewrite fmap_app, H2.
Qed.

(** Prose that is accepted either waits at the back or opens a turn behind
    everything that waits. *)
Lemma accept_prose busy q intent input origin q' fx : 
  (if busy || ready q then enqueue q intent (PendProse input)
   else let '(q', inputs, effects) := held_then q intent input in
        (q', effects ++ [StartTurn inputs origin])) = (q', fx) →
  q_entries q ++ [(intent, PendProse input)] = (fx ≫= served_by) ++ q_entries q'.
Proof.
  destruct (busy || ready q) eqn:Eb; [by intros [= <- <-]|].
  apply orb_false_iff in Eb as [_ Hr].
  destruct (held_then q intent input) as [[q1 inputs] fx1] eqn:Eh. intros [= <- <-].
  destruct (held_then_split _ _ _ _ _ _ Hr Eh) as (-> & Hi & Hfx).
  rewrite app_nil_r, bind_app, Hfx. simpl. by rewrite app_nil_r, Hi.
Qed.

Lemma conserved_prose q d intent input : conserved q (OpProse d intent input).
Proof.
  destruct (submit_prose d q intent input) as [q' fx] eqn:E.
  eapply conserved_cut; simpl; [by rewrite E|]. unfold submit_prose in E.
  destruct (d_answers d); simpl in E; [by eapply accept_prose|].
  simplify_eq. rewrite app_nil_r. by destruct input.
Qed.

Lemma conserved_deliver q d intent input delivery : conserved q (OpDeliver d intent input delivery).
Proof.
  destruct (deliver_ready d q intent input delivery) as [q' fx] eqn:E.
  eapply conserved_cut; simpl; [by rewrite E|]. unfold deliver_ready in E. unfold deliverable.
  destruct (d_closed d); cbn [negb andb] in *; [simplify_eq; by rewrite app_nil_r|].
  destruct input as [text images origin dl h|a o]; cbn [stamped] in *.
  - destruct (validate _); cbn [is_ok andb] in *; [|simplify_eq; by rewrite app_nil_r].
    destruct (d_answers d); cbn [negb] in *; [|simplify_eq; by rewrite app_nil_r].
    rewrite <- orb_assoc, (orb_comm (ready q)), orb_assoc in E. by eapply accept_prose.
  - simplify_eq. by rewrite app_nil_r.
Qed.

(** A command that need not wait finds no command waiting. *)
Lemma conserved_command q d intent input : conserved q (OpCommand d intent input).
Proof.
  unfold conserved, run_op, submit_command. cbn [negb andb offered_by].
  destruct (d_busy d || ready q) eqn:Eb; simpl.
  - split; [by intros k|]. by rewrite app_nil_r.
  - apply orb_false_iff in Eb as [_ Hr]. split.
    + intros k. unfold of_kind. rewrite retain_app. destruct k; simpl; [|by rewrite app_nil_r].
      rewrite (retain_none _ (q_entries q)); [done|]. intros e He.
      by rewrite (proj1 (not_ready q Hr e He)).
    + rewrite app_nil_r. symmetry. apply Permutation_cons_append.
Qed.

Lemma conserved_steer q : conserved q OpSteer.
Proof.
  destruct (steers q) as [[q' taken] fx] eqn:E. eapply conserved_cut; simpl; [by rewrite E|].
  rewrite app_nil_r. rewrite (take_run_prose steerable q steerable_prose). unfold steers, take_steers in E.
  destruct (take_run steerable q) as [q1 tk]. destruct (queue_moved q1 tk) as [q2 fx2] eqn:Eq.
  simplify_eq. by destruct (queue_moved_split _ _ _ _ Eq) as [-> _].
Qed.

(** The next unit is what the head of the queue is. *)
Lemma take_unit_split q q' u : take_unit q = (q', Some u) →
  q_entries q = (match u with
                 | UProse inputs => as_prose <$> inputs
                 | UCommand intent input => [(intent, PendCommand input)]
                 end) ++ q_entries q'
  ∧ length (q_entries q') < length (q_entries q).
Proof.
  unfold take_unit. destruct (q_entries q) as [|[intent p] rest] eqn:E; [done|].
  destruct (is_command p) eqn:Ep.
  - intros [= <- <-]. destruct p; [|done]. simpl. split; [done|lia].
  - assert (∀ p, negb (is_command p) = true → is_command p = false) as Hn by (intros ?; by apply negb_true_iff).
    pose proof (take_run_prose _ q Hn) as H. fold (take_prose q) in H.
    assert (length (take_prose q).2 ≠ 0) as Hl.
    { unfold take_prose, take_run. rewrite E. simpl. rewrite Ep. done. }
    destruct (take_prose q) as [q1 run]. intros [= <- <-]. rewrite E in H. split; [exact H|].
    apply (f_equal length) in H. rewrite length_app, length_fmap in H. simpl in *. lia.
Qed.

Lemma conserved_drain q d : conserved q (OpDrain d).
Proof.
  destruct (drain_queue d q) as [q' fx] eqn:E. eapply conserved_cut; simpl; [by rewrite E|].
  rewrite app_nil_r. unfold drain_queue in E.
  destruct (d_busy d || d_gate_busy d); [by simplify_eq|].
  destruct (take_unit q) as [q1 [u|]] eqn:Eu.
  - destruct (take_unit_split _ _ _ Eu) as [-> _].
    destruct u; simpl in E; simplify_eq; simpl; by rewrite ?app_nil_r.
  - unfold take_unit in Eu. destruct (q_entries q) as [|[i p] rest] eqn:Ee; [by simplify_eq|].
    destruct (is_command p); [done|]. by destruct (take_prose q).
Qed.

Lemma retain_sublist {A} (p : A → bool) l l' : l `sublist_of` l' → retain p l `sublist_of` retain p l'.
Proof. induction 1; simpl; [done| |]; destruct (p x); by try constructor. Qed.

Lemma find_position {A} (p : A → bool) l e : find_bool p l = Some e →
  ∃ i, position p l = Some i ∧ l !! i = Some e.
Proof.
  induction l as [|x l IH]; simpl; [done|]. unfold find_bool; simpl. destruct (p x).
  - intros [= ->]. by exists 0.
  - intros (i & Hi & Hl)%IH. exists (S i). by rewrite Hi.
Qed.

Lemma conserved_withdraw q intent by_surface : conserved q (OpWithdraw intent by_surface).
Proof.
  unfold conserved, run_op, withdraw, queued. simpl. rewrite app_nil_r.
  destruct (find_bool _ (q_entries q)) as [e|] eqn:Ef; simpl.
  2: { split; [by intros k|by rewrite app_nil_r]. }
  destruct (negb _); simpl; [split; [by intros k|by rewrite app_nil_r]|].
  destruct (find_position _ _ _ Ef) as (i & Hp & Hi).
  unfold take_back, take_intent. rewrite Hp, Hi. simpl.
  destruct (delete_middle _ _ _ Hi) as [E1 E2]. rewrite E2. split.
  - intros k. rewrite E1 at 3. apply retain_sublist, sublist_app; [done|by apply sublist_cons].
  - rewrite E1 at 1. etrans; [symmetry; apply Permutation_middle|]. apply Permutation_cons_append.
Qed.

Lemma conserved_all q op : conserved q op.
Proof.
  destruct op; auto using conserved_prose, conserved_deliver, conserved_command, conserved_steer,
    conserved_drain, conserved_withdraw.
Qed.

(** ** Draining an idle session *)

Definition idle : Desk := mkDesk false false true false.

Fixpoint drain_idle (n : nat) (q : Queue) : Queue * list (IntentId * Pending) :=
  match n with
  | 0 => (q, [])
  | S n =>
      let '(q1, fx) := drain_queue idle q in
      let '(q2, served) := drain_idle n q1 in (q2, (fx ≫= served_by) ++ served)
  end.

Lemma drain_idle_all n q : length (q_entries q) ≤ n →
  q_entries (drain_idle n q).1 = [] ∧ (drain_idle n q).2 = q_entries q.
Proof.
  revert q. induction n as [|n IH]; intros q Hn.
  { destruct (q_entries q) eqn:E; simpl in *; [by rewrite E|lia]. }
  simpl. unfold drain_queue; simpl. destruct (take_unit q) as [q1 [u|]] eqn:Eu.
  - destruct (take_unit_split _ _ _ Eu) as [Hsplit Hlt]. rewrite Hsplit. simpl.
    destruct (IH (mkQueue (q_entries q1) (u64_add (q_revision q1) 1))) as [H1 H2]; [cbn [q_entries]; lia|].
    destruct (drain_idle n _) as [q2 served]. simpl in *. subst served. split; [done|].
    destruct u; simpl; by rewrite ?app_nil_r.
  - assert (q_entries q = [] ∧ q1 = q) as [E ->].
    { unfold take_unit in Eu. destruct (q_entries q) as [|[i p] rest] eqn:Ee; [by simplify_eq|].
      destruct (is_command p); [done|]. by destruct (take_prose q). }
    destruct (IH q) as [H1 H2]; [rewrite E; simpl; lia|]. by destruct (drain_idle n q).
Qed.

(** ** The wire view *)

Definition view_of (q : Queue) : list QueueEntry :=
  match (changed q).2 with QueueChanged _ entries => entries | _ => [] end.

Lemma view_lookup q i e : (N.of_nat (length (q_entries q)) < 2 ^ 32)%N →
  q_entries q !! i = Some e → view_of q !! i = Some (entry e (N.of_nat (S i))).
Proof.
  intros Hlen He. unfold view_of; simpl. rewrite list_lookup_imap, He. simpl. do 2 f_equal.
  pose proof (lookup_lt_Some _ _ _ He). unfold u32_add.
  rewrite (wrap_small 32 (N.of_nat i)) by lia. rewrite wrap_small; lia.
Qed.

Lemma view_length q : length (view_of q) = length (q_entries q).
Proof. unfold view_of; simpl. apply length_imap. Qed.

Lemma preview_length i : length (preview i) ≤ preview_chars.
Proof.
  unfold preview, chars_take. destruct i; [|rewrite length_take; lia].
  case_match; [by apply Nat.leb_le|rewrite length_take; lia].
Qed.

Lemma take_while_imap {A B C} (p : A → bool) (q : B → bool) (g : A → C) (h : B → C)
    (f : nat → A → B) l :
  (∀ i x, q (f i x) = p x) → (∀ i x, h (f i x) = g x) →
  h <$> take_while q (imap f l) = g <$> take_while p l.
Proof.
  revert f. induction l as [|x l IH]; intros f Hq Hh; [done|]. rewrite imap_cons. simpl. rewrite Hq.
  destruct (p x); csimpl; [|done]. rewrite Hh. f_equal. apply IH; intros; [apply Hq|apply Hh].
Qed.

(** ** Claims *)


(** an idle session empties its queue: taking one unit at a time serves
    every waiting line, in order, within as many units as there are lines. *)
Theorem idle_drains (q : Queue) :
  q_entries (drain_idle (length (q_entries q)) q).1 = []
  ∧ (drain_idle (length (q_entries q)) q).2 = q_entries q.
Proof. by apply drain_idle_all. Qed.

(** what clients are told about the queue is the queue: the entries in
    order, at positions from 1, with previews of at most 80 characters that
    never show what follows /provider; and the lines a barrier would steer the
    running turn with are exactly the leading entries marked steerable. *)
Theorem queue_view_exact (q : Queue) (Hlen : (N.of_nat (length (q_entries q)) < 2 ^ 32)%N) :
  length (view_of q) = length (q_entries q)
  ∧ (∀ i e, q_entries q !! i = Some e → ∃ v, view_of q !! i = Some v
       ∧ qe_intent v = e.1 ∧ qe_position v = N.of_nat (S i)
       ∧ length (qe_preview v) ≤ 80
       ∧ (∀ text images o dl h, pending_input e.2 = InText text images o dl h →
            head (split_whitespace text) = Some (lit "/provider") →
            qe_preview v = lit "/provider [redacted]"))
  ∧ (take_steers q).2.*1 = qe_intent <$> take_while qe_steerable (view_of q).
Proof.
  split_and!; [apply view_length| |].
  - intros i e He. eexists. split; [by apply view_lookup|]. simpl. split_and!; [done|done|apply preview_length|].
    intros text images o dl h -> Hp. unfold preview. rewrite bool_decide_eq_false_2 by (by intros ->).
    simpl. unfold recorded_line. by rewrite bool_decide_eq_true_2.
  - unfold take_steers, take_run, view_of; simpl.
    rewrite <- list_fmap_compose, take_while_take. symmetry. by apply take_while_imap.
Qed.

(** a line is withdrawn only by the surface that sent it, and then it is
    gone from the queue: the caller gets the queued input back, nothing else
    moves, and a second withdrawal of a line queued once finds nothing; any
    other outcome leaves the queue as it was. *)
Theorem withdraw_own (q : Queue) (intent : IntentId) (by_surface : str) :
  let '(q', r, fx) := withdraw q intent by_surface in
  match r with
  | Ok input =>
      ∃ l1 e l2, q_entries q = l1 ++ e :: l2 ∧ q_entries q' = l1 ++ l2
        ∧ e.1 = intent ∧ pending_input e.2 = input ∧ surface (origin_of input) = by_surface
        ∧ (NoDup (q_entries q).*1 → queued q' intent = None)
  | Err e =>
      q' = q ∧ fx = []
      ∧ (ke_code e = NotFound ∧ queued q intent = None
         ∨ ke_code e = PermissionDenied
           ∧ ∃ input, queued q intent = Some input ∧ surface (origin_of input) ≠ by_surface)
  end.
Proof.
  unfold withdraw, queued. destruct (find_bool _ (q_entries q)) as [e|] eqn:Ef; simpl; [|by auto].
  case_bool_decide as Hs; simpl; [|naive_solver].
  destruct (find_position _ _ _ Ef) as (i & Hp & Hi).
  destruct (find_bool_Some _ _ _ Ef) as [_ He%bool_decide_eq_true].
  unfold take_back, take_intent. rewrite Hp, Hi. simpl.
  destruct (delete_middle _ _ _ Hi) as [E1 E2].
  exists (take i (q_entries q)), e, (drop (S i) (q_entries q)). split_and!; [done..|].
  rewrite E2. intros Hnd. rewrite E1, fmap_app, fmap_cons in Hnd.
  clear Ef Hp. destruct (find_bool _ _) as [e'|] eqn:Ef'; [|done]. exfalso.
  apply find_bool_Some in Ef' as [Hin' He'%bool_decide_eq_true]. subst intent.
  apply NoDup_app in Hnd as (_ & Hd & Hc). apply NoDup_cons in Hc as [Hc _].
  apply elem_of_app in Hin' as [Hin'|Hin']; apply (list_elem_of_fmap_2 fst) in Hin'; rewrite He' in Hin'.
  - apply (Hd _ Hin'). by left.
  - done.
Qed.

(** ** Witnesses *)

Definition demo_line (text : str) (d : Delivery) : Input :=
  InText text [] (origin_surface (lit "tui")) d None.

Definition demo_queue : Queue :=
  mkQueue [(lit "a", PendProse (demo_line (lit "one") Wake));
           (lit "b", PendProse (demo_line (lit "two") Hold));
           (lit "c", PendCommand (demo_line (lit "/provider add x --key s3cret") Wake))] 4.

Example demo_steers : (take_steers demo_queue).2.*1 = [lit "a"].
Proof. reflexivity. Qed.
Example demo_preview : qe_preview <$> view_of demo_queue = [lit "one"; lit "two"; lit "/provider [redacted]"].
Proof. reflexivity. Qed.

Lemma queue_view_exact_witness :
  (N.of_nat (length (q_entries demo_queue)) < 2 ^ 32)%N ∧
  (take_steers demo_queue).2.*1 = qe_intent <$> take_while qe_steerable (view_of demo_queue).
Proof.
  split; [done|]. refine (proj2 (proj2 (queue_view_exact demo_queue _))). done.
Defined.

