(* ===== verification/PermPath.v ===== *)
(** * PermPath: paths and hosts, as permission rules read them

    [bingo-permissions/src/path.rs] and [url.rs].  Normalisation is lexical, so
    the part of [std::path] it uses is modelled for Unix on strings: components,
    [push], [parent] and [pop].  Paths are taken to be valid Unicode, as the
    subjects of a tool call are. *)

From S2P Require Import Prelude Text Model.

(** ** [std::path] on Unix *)

Definition sep : char := 47%N.
Definition is_sep (c : char) : bool := N.eqb c sep.

Definition is_absolute (p : str) : bool := match p with c :: _ => is_sep c | [] => false end.

Inductive Component := RootDir | CurDir | ParentDir | Normal (name : str).

(** A piece between separators, past a path's start: [.] and nothing at all are
    skipped. *)
Definition piece_component (w : str) : option Component :=
  if bool_decide (w = []) then None
  else if bool_decide (w = lit ".") then None
  else if bool_decide (w = lit "..") then Some ParentDir
  else Some (Normal w).

Definition components (p : str) : list Component :=
  if is_absolute p then RootDir :: omap piece_component (split_by is_sep (tail p))
  else
    match split_by is_sep p with
    | [] => []
    | w :: ws =>
        (if bool_decide (w = lit ".") then [CurDir] else option_list (piece_component w))
        ++ omap piece_component ws
    end.

Definition needs_sep (p : str) : bool :=
  match last p with Some c => negb (is_sep c) | None => false end.

(** [PathBuf::push] and [Path::join]. *)
Definition path_push (buf p : str) : str :=
  if is_absolute p then p else (if needs_sep buf then buf ++ [sep] else buf) ++ p.

Fixpoint join_sep (ws : list str) : str :=
  match ws with
  | [] => []
  | [w] => w
  | w :: ws => w ++ sep :: join_sep ws
  end.

(** The pieces of a path, last first, without the trailing ones that are not
    components; a leading [.] of a relative path is one. *)
Fixpoint trim_pieces (absolute : bool) (ws : list str) : list str :=
  match ws with
  | [] => []
  | w :: ws' =>
      if bool_decide (w = [])
         || bool_decide (w = lit ".") && (absolute || negb (bool_decide (length ws' = 0)))
      then trim_pieces absolute ws' else ws
  end.

(** [Path::parent]: the slice before the last component; a root has none. *)
Definition path_parent (p : str) : option str :=
  let absolute := is_absolute p in
  let body := if absolute then tail p else p in
  match trim_pieces absolute (reverse (split_by is_sep body)) with
  | [] => None
  | _ :: front =>
      Some ((if absolute then [sep] else []) ++
            join_sep (reverse (trim_pieces absolute front)))
  end.

Definition path_pop (buf : str) : str := default buf (path_parent buf).

(** ** [path.rs] *)

Definition sensitive : list str := [lit ".git"; lit ".claude"; lit ".vscode"; lit ".idea"].

Definition expand_home (raw : str) (home : option PathBuf) : str :=
  match home with
  | None => raw
  | Some home =>
      if bool_decide (raw = lit "~") then home
      else match strip_prefix (lit "~/") raw with
           | Some rest => path_push home rest
           | None => raw
           end
  end.

Definition absolutize (raw : PathBuf) (cwd : PathBuf) : PathBuf :=
  if is_absolute raw then raw else path_push cwd raw.

Definition collapse_step (out : PathBuf) (c : Component) : PathBuf :=
  match c with
  | CurDir => out
  | ParentDir => path_pop out
  | RootDir => path_push out [sep]
  | Normal name => path_push out name
  end.
Definition collapse (path : PathBuf) : PathBuf := foldl collapse_step [] (components path).

Definition keep_trailing_separator (normalized raw : str) : str :=
  if ends_with raw [sep] && negb (ends_with normalized [sep]) then normalized ++ [sep] else normalized.

Definition normalize (raw : str) (cwd : PathBuf) (home : option PathBuf) : str :=
  let expanded := expand_home raw home in
  let collapsed := collapse (absolutize expanded cwd) in
  keep_trailing_separator collapsed raw.

Definition normalize_path (raw cwd : PathBuf) (home : option PathBuf) : str := normalize raw cwd home.

Definition is_within (target root : str) : bool :=
  let root := trim_end_matches sep root in
  match root with
  | [] => starts_with target [sep]
  | _ :: _ =>
      bool_decide (target = root) ||
      match strip_prefix root target with
      | Some rest => starts_with rest [sep]
      | None => false
      end
  end.

Definition is_sensitive (normalized : str) : bool :=
  any (fun c => match c with Normal name => bool_decide (name ∈ sensitive) | _ => false end)
      (components normalized).

(** ** [url.rs] *)

Definition strip_port (host : str) : option str :=
  match split_once [chr ":"] host with
  | Some (h, port) =>
      if negb (bool_decide (port = [])) && all is_ascii_digit port then Some h else None
  | None => Some host
  end.

Definition is_hostname (host : str) : bool :=
  negb (bool_decide (host = []))
  && negb (starts_with host (lit "."))
  && negb (ends_with host (lit "."))
  && all (fun c => is_ascii_alphanumeric c || N.eqb c (chr ".") || N.eqb c (chr "-") || N.eqb c (chr "_"))
         host.

Definition ends_authority (c : char) : bool :=
  N.eqb c (chr "/") || N.eqb c (chr "?") || N.eqb c (chr "#") || N.eqb c 92.

Definition host (url : str) : option str :=
  let? parts := split_once (lit "://") url in
  let? authority := head (split_by ends_authority parts.2) in
  let h := match rsplit_once (chr "@") authority with Some (_, h) => h | None => authority end in
  let? h := strip_port h in
  if is_hostname h then Some h else None.

(** ** Sanity checks *)

Example norm_ex1 : normalize (lit "../lib//a/./b") (lit "/work/src") None = lit "/work/lib/a/b".
Proof. reflexivity. Qed.
Example norm_ex2 : normalize (lit "~/x/") (lit "/work") (Some (lit "/home/u")) = lit "/home/u/x/".
Proof. reflexivity. Qed.
Example norm_ex3 : normalize (lit "/a/../../..") (lit "/work") None = lit "/".
Proof. reflexivity. Qed.
Example parent_ex : path_parent (lit "/a/b/") = Some (lit "/a") ∧ path_parent (lit "/a") = Some (lit "/")
  ∧ path_parent (lit "/") = None ∧ path_parent (lit "a") = Some [] ∧ path_parent (lit "./a//.") = Some (lit ".")
  ∧ path_parent [] = None ∧ path_parent (lit "//a") = Some (lit "/") ∧ path_parent (lit "a//b") = Some (lit "a").
Proof. repeat split. Qed.
Example host_ex : host (lit "https://u:p@Docs.rs:443/x?y") = Some (lit "Docs.rs")
  ∧ host (lit "https://good.example\@evil.example/") = Some (lit "good.example")
  ∧ host (lit "http://[::1]/") = None.
Proof. repeat split. Qed.
Example within_ex : is_within (lit "/srcs/a") (lit "/src") = false ∧ is_within (lit "/src/a") (lit "/src/") = true.
Proof. split; reflexivity. Qed.

(** ** Lemmas *)

Lemma split_by_nonempty p s : split_by p s ≠ [].
Proof. destruct s as [|c s]; simpl; [done|]. destruct (split_by p s); [done|]. by destruct (p c). Qed.

Lemma split_by_pieces p s w : w ∈ split_by p s → ∀ c, c ∈ w → p c = false.
Proof.
  revert w. induction s as [|d s IH]; simpl; intros w.
  { intros ->%list_elem_of_singleton c []%elem_of_nil. }
  destruct (split_by p s) as [|x ws] eqn:E; [by intros ->%list_elem_of_singleton c []%elem_of_nil|].
  destruct (p d) eqn:Ed.
  - intros [->|Hw]%elem_of_cons c Hc; [by apply elem_of_nil in Hc|]. by eapply IH.
  - intros [->|Hw]%elem_of_cons c Hc; [|eapply IH; [by right|done]].
    apply elem_of_cons in Hc as [->|Hc]; [done|]. eapply IH; [by left|done].
Qed.

Lemma split_by_plain p w : (∀ c, c ∈ w → p c = false) → split_by p w = [w].
Proof.
  induction w as [|c w IH]; intros H; simpl; [done|].
  rewrite IH, H; [done|by left|]. intros d Hd. apply H. by right.
Qed.

Lemma split_by_app p w c s : (∀ d, d ∈ w → p d = false) → p c = true →
  split_by p (w ++ c :: s) = w :: split_by p s.
Proof.
  intros Hw Hc. induction w as [|d w IH]; simpl.
  - pose proof (split_by_nonempty p s). destruct (split_by p s); [done|]. by rewrite Hc.
  - rewrite IH by (intros e He; apply Hw; by right). by rewrite Hw by left.
Qed.

(** A component of a normalised path. *)
Record clean (w : str) : Prop := mk_clean {
  clean_nonempty : w ≠ [];
  clean_sep : sep ∉ w;
  clean_dot : w ≠ lit ".";
  clean_dots : w ≠ lit "..";
}.

Definition render (ws : list str) : str := sep :: join_sep ws.

Lemma is_sep_spec c : is_sep c = true ↔ c = sep.
Proof. apply N.eqb_eq. Qed.

Lemma not_sep (w : str) : sep ∉ w → ∀ c, c ∈ w → is_sep c = false.
Proof. intros H c Hc. apply not_true_iff_false. rewrite is_sep_spec. by intros ->. Qed.

Lemma join_sep_cons w ws : join_sep (w :: ws) = w ++ match ws with [] => [] | _ => sep :: join_sep ws end.
Proof. destruct ws; simpl; by rewrite ?app_nil_r. Qed.

Lemma join_sep_snoc ws w : ws ≠ [] → join_sep (ws ++ [w]) = join_sep ws ++ sep :: w.
Proof.
  induction ws as [|x ws IH]; intros H; [done|]. destruct ws as [|y ws]; [done|].
  change (x ++ sep :: join_sep ((y :: ws) ++ [w]) = (x ++ sep :: join_sep (y :: ws)) ++ sep :: w).
  rewrite IH by done. by rewrite <- app_assoc.
Qed.

Lemma split_join ws : ws ≠ [] → Forall (λ w : str, sep ∉ w) ws → split_by is_sep (join_sep ws) = ws.
Proof.
  induction ws as [|w ws IH]; intros Hne H; [done|]. apply Forall_cons in H as [Hw Hws].
  rewrite join_sep_cons. destruct ws as [|x ws].
  - rewrite app_nil_r. apply split_by_plain. by apply not_sep.
  - rewrite split_by_app; [|by apply not_sep|done]. by rewrite IH.
Qed.

Lemma clean_piece w : clean w → piece_component w = Some (Normal w).
Proof. intros [H1 _ H2 H3]. unfold piece_component. by rewrite !bool_decide_eq_false_2. Qed.

Lemma clean_pieces ws : Forall clean ws → omap piece_component ws = Normal <$> ws.
Proof. induction 1 as [|w ws Hw Hws IH]; csimpl; [done|]. by rewrite (clean_piece w Hw), IH. Qed.

Lemma clean_seps ws : Forall clean ws → Forall (λ w : str, sep ∉ w) ws.
Proof. intros H. eapply Forall_impl; [exact H|]. by intros w []. Qed.

Lemma components_render ws : Forall clean ws → components (render ws) = RootDir :: (Normal <$> ws).
Proof.
  intros H. unfold components, render; simpl. f_equal. destruct ws as [|w ws]; [done|].
  rewrite split_join by (done || by apply clean_seps). by apply clean_pieces.
Qed.

Lemma components_trailing ws : Forall clean ws →
  components (render ws ++ [sep]) = RootDir :: (Normal <$> ws).
Proof.
  intros H. unfold components, render; simpl. f_equal. destruct ws as [|w ws]; [done|].
  rewrite <- join_sep_snoc by done. rewrite split_join.
  - rewrite omap_app, clean_pieces by done. simpl. by rewrite app_nil_r.
  - by destruct ws.
  - apply Forall_app. split; [by apply clean_seps|]. repeat constructor. apply not_elem_of_nil.
Qed.

Lemma last_join ws : Forall clean ws → ∀ c, last (join_sep ws) = Some c → is_sep c = false.
Proof.
  induction ws as [|w ws IH] using rev_ind; intros H c; [done|].
  apply Forall_app in H as [Hws Hw]. apply Forall_cons in Hw as [Hw _].
  assert (∃ x y, w = x ++ [y]) as (x & y & ->).
  { destruct w as [|y x _] using rev_ind; [by destruct (clean_nonempty [] Hw)|eauto]. }
  assert (∃ z, join_sep (ws ++ [x ++ [y]]) = z ++ [y]) as [z ->].
  { destruct ws as [|v ws]; [by exists x|]. rewrite join_sep_snoc by done.
    exists (join_sep (v :: ws) ++ sep :: x). by rewrite <- app_assoc. }
  rewrite last_snoc. intros [= <-]. eapply not_sep; [by apply Hw|]. rewrite elem_of_app. right. by left.
Qed.

Lemma join_sep_nil ws : Forall clean ws → join_sep ws = [] → ws = [].
Proof.
  intros H E. destruct ws as [|w ws]; [done|]. apply Forall_cons in H as [[Hw _ _ _] _].
  rewrite join_sep_cons in E. by apply app_eq_nil in E as [? _].
Qed.

Lemma clean_not_absolute w : clean w → is_absolute w = false.
Proof.
  intros [_ Hs _ _]. destruct w as [|c w]; [done|]. simpl. apply (not_sep (c :: w) Hs). by left.
Qed.

Lemma last_cons_ne {A} (x : A) l : l ≠ [] → last (x :: l) = last l.
Proof. by destruct l. Qed.

Lemma push_render ws w : Forall clean ws → clean w → path_push (render ws) w = render (ws ++ [w]).
Proof.
  intros Hws Hw. unfold path_push, render. rewrite clean_not_absolute by done.
  destruct ws as [|v ws]; [done|].
  assert (join_sep (v :: ws) ≠ []) as Hne by (intros E; by apply join_sep_nil in E).
  unfold needs_sep. rewrite last_cons_ne by done.
  destruct (last (join_sep (v :: ws))) as [c|] eqn:El.
  - rewrite (last_join _ Hws c El). cbn [negb]. rewrite join_sep_snoc by done.
    simpl. by rewrite <- app_assoc.
  - by apply last_None in El.
Qed.

Lemma trim_clean absolute ws : Forall clean ws → trim_pieces absolute ws = ws.
Proof.
  destruct ws as [|w ws]; [done|]. intros [[H1 _ H2 _] _]%Forall_cons. cbn [trim_pieces].
  by rewrite (bool_decide_eq_false_2 _ H1), (bool_decide_eq_false_2 _ H2).
Qed.

Lemma Forall_reverse_clean ws : Forall clean ws → Forall clean (reverse ws).
Proof. intros H. by rewrite reverse_Permutation. Qed.

Lemma parent_render ws w : Forall clean (ws ++ [w]) → path_parent (render (ws ++ [w])) = Some (render ws).
Proof.
  intros H. unfold path_parent, render; simpl.
  rewrite split_join; [|by destruct ws|by apply clean_seps].
  rewrite trim_clean by (by apply Forall_reverse_clean). rewrite reverse_snoc.
  apply Forall_app in H as [H _]. rewrite trim_clean by (by apply Forall_reverse_clean).
  by rewrite reverse_involutive.
Qed.

Lemma parent_root : path_parent (render []) = None.
Proof. reflexivity. Qed.

(** ** What collapsing computes: a walk on the list of names *)

Definition resolve (ws : list str) (c : Component) : list str :=
  match c with
  | ParentDir => take (pred (length ws)) ws
  | Normal name => ws ++ [name]
  | _ => ws
  end.

Definition clean_component (c : Component) : Prop := match c with Normal w => clean w | _ => True end.

Lemma Forall_clean_take n ws : Forall clean ws → Forall clean (take n ws).
Proof. apply Forall_take. Qed.

Lemma resolve_clean ws c : Forall clean ws → clean_component c → Forall clean (resolve ws c).
Proof.
  intros H Hc. destruct c; simpl; try done; [by apply Forall_take|].
  apply Forall_app. split; [done|]. by apply Forall_singleton.
Qed.

Lemma collapse_step_render ws c : Forall clean ws → clean_component c → 
  collapse_step (render ws) c = match c with RootDir => render [] | _ => render (resolve ws c) end.
Proof.
  intros H Hc. destruct c; simpl; try done; [|by apply push_render].
  unfold path_pop. destruct ws as [|w ws _] using rev_ind; [done|].
  rewrite parent_render by done. simpl. rewrite length_app, Nat.add_comm; simpl. by rewrite take_app_length.
Qed.

Lemma piece_clean (p : str) w c : w ∈ split_by is_sep p → piece_component w = Some c → clean_component c ∧ c ≠ RootDir.
Proof.
  intros Hw. unfold piece_component. repeat case_bool_decide; intros; simplify_eq; split; try done.
  split; try done. intros Hs. by pose proof (split_by_pieces _ _ _ Hw sep Hs).
Qed.

Lemma collapse_fold cs ws : Forall clean ws → Forall (λ c, clean_component c ∧ c ≠ RootDir) cs →
  foldl collapse_step (render ws) cs = render (foldl resolve ws cs) ∧ Forall clean (foldl resolve ws cs).
Proof.
  revert ws. induction cs as [|c cs IH]; intros ws Hws Hcs; [done|].
  apply Forall_cons in Hcs as [[Hc Hr] Hcs]. simpl. rewrite collapse_step_render by done.
  pose proof (resolve_clean ws c Hws Hc). destruct c; try done; by apply IH.
Qed.

(** An absolute path collapses to a rendered list of clean names. *)
Lemma collapse_absolute p : is_absolute p = true →
  ∃ ws, Forall clean ws ∧ collapse p = render ws
    ∧ ws = foldl resolve [] (components p).
Proof.
  intros H. unfold collapse, components. rewrite H. simpl.
  destruct (collapse_fold (omap piece_component (split_by is_sep (tail p))) []) as [E Hc].
  - done.
  - apply Forall_forall. intros c (w & Hw & Hc)%list_elem_of_omap. by eapply piece_clean.
  - eexists. split; [exact Hc|]. split; [|done]. rewrite <- E. done.
Qed.

(** ** Normalised paths *)

Lemma push_absolute cwd p : is_absolute cwd = true → is_absolute (path_push cwd p) = true.
Proof.
  intros H. unfold path_push. destruct (is_absolute p) eqn:E; [done|].
  destruct cwd as [|c cwd]; [done|]. by destruct (needs_sep _).
Qed.

Lemma absolutize_absolute p cwd : is_absolute cwd = true → is_absolute (absolutize p cwd) = true.
Proof. intros H. unfold absolutize. destruct (is_absolute p) eqn:E; [done|]. by apply push_absolute. Qed.

(** With an absolute working directory every normalised path is a list of clean
    names, with or without a separator after it. *)
Lemma normalize_shape raw cwd home : is_absolute cwd = true →
  ∃ ws, Forall clean ws
    ∧ (normalize raw cwd home = render ws ∨ ws ≠ [] ∧ normalize raw cwd home = render ws ++ [sep]).
Proof.
  intros H. destruct (collapse_absolute (absolutize (expand_home raw home) cwd)) as (ws & Hws & E & _).
  { by apply absolutize_absolute. }
  exists ws. split; [done|]. unfold normalize, keep_trailing_separator. rewrite E.
  destruct (_ && _) eqn:Eb; [|by left]. right. split; [|done]. intros ->.
  apply andb_true_iff in Eb as [_ Eb]. done.
Qed.

Lemma shape_components ws n : Forall clean ws → n = render ws ∨ ws ≠ [] ∧ n = render ws ++ [sep] →
  components n = RootDir :: (Normal <$> ws) ∧ is_absolute n = true.
Proof.
  intros H [->|[_ ->]]; split; try done; [by apply components_render|by apply components_trailing].
Qed.

Lemma resolve_names ws acc : foldl resolve acc (Normal <$> ws) = acc ++ ws.
Proof.
  revert acc. induction ws as [|w ws IH]; intros acc; csimpl; [by rewrite app_nil_r|].
  by rewrite IH, <- app_assoc.
Qed.

Lemma expand_home_absolute p home : is_absolute p = true → expand_home p home = p.
Proof.
  intros H. unfold expand_home. destruct home as [home|]; [|done].
  destruct p as [|c p]; [done|]. apply is_sep_spec in H as ->.
  by rewrite bool_decide_eq_false_2.
Qed.

Lemma ends_render ws : Forall clean ws → ends_with (render ws) [sep] = bool_decide (ws = []).
Proof.
  intros H. destruct ws as [|w ws]; [done|]. rewrite bool_decide_eq_false_2 by done.
  apply not_true_iff_false. rewrite ends_with_spec. intros [k Hk].
  assert (join_sep (w :: ws) ≠ []) as Hne by (intros E; by apply join_sep_nil in E).
  assert (last (render (w :: ws)) = Some sep) as Hl by (rewrite Hk; apply last_snoc).
  unfold render in Hl. rewrite last_cons_ne in Hl by done. by apply last_join in Hl.
Qed.

Lemma normalize_shaped ws n cwd home : Forall clean ws →
  n = render ws ∨ ws ≠ [] ∧ n = render ws ++ [sep] → normalize n cwd home = n.
Proof.
  intros H Hn. destruct (shape_components ws n H Hn) as [Hc Ha].
  unfold normalize. rewrite expand_home_absolute by done. unfold absolutize. rewrite Ha.
  destruct (collapse_absolute n Ha) as (ws' & _ & -> & ->). rewrite Hc. simpl. rewrite resolve_names. simpl.
  unfold keep_trailing_separator. rewrite ends_render by done. destruct Hn as [->|[Hne ->]].
  - rewrite ends_render by done. by case_bool_decide.
  - rewrite ends_with_snoc, N.eqb_refl. by rewrite bool_decide_eq_false_2.
Qed.

(** ** Containment *)

(** Names with a separator before each: a rendered path that is not the root. *)
Fixpoint body (ws : list str) : str :=
  match ws with [] => [] | w :: ws => sep :: w ++ body ws end.

Lemma render_body ws : render ws = match ws with [] => [sep] | _ => body ws end.
Proof.
  destruct ws as [|w ws]; [done|]. unfold render. revert w. induction ws as [|x ws IH]; intros w.
  - simpl. by rewrite app_nil_r.
  - change (sep :: w ++ (sep :: join_sep (x :: ws)) = sep :: w ++ body (x :: ws)). by rewrite IH.
Qed.

Definition ended (s : str) : Prop := s = [] ∨ ∃ r, s = sep :: r.

Lemma body_ended ws k : ended k → ended (body ws ++ k).
Proof. intros H. destruct ws as [|w ws]; simpl; [done|]. right. eauto. Qed.

(** Two names followed by a boundary are told apart by the text. *)
Lemma name_cancel (a b x y : str) : sep ∉ a → sep ∉ b → ended x → ended y →
  a ++ x = b ++ y → a = b ∧ x = y.
Proof.
  revert b. induction a as [|c a IH]; intros [|d b] Ha Hb Hx Hy E; simpl in *; [done| | |].
  - exfalso. destruct Hx as [->|[r ->]]; [done|]. injection E as <- _. apply Hb. by left.
  - exfalso. destruct Hy as [->|[r ->]]; [done|]. injection E as -> _. apply Ha. by left.
  - injection E as -> E. destruct (IH b) as [-> ->]; [set_solver|set_solver|done..].
Qed.

Lemma body_prefix rs ts k : Forall clean rs → Forall clean ts → k = [] ∨ k = [sep] →
  (∃ rest, ended rest ∧ body ts ++ k = body rs ++ rest) ↔ rs `prefix_of` ts.
Proof.
  intros Hrs. revert ts. induction rs as [|r rs IH]; intros ts Hts Hk.
  all: assert (ended k) as Hek by (destruct Hk as [->| ->]; [by left|right; by eexists]).
  { split; [intros _; apply prefix_nil|]. intros _. exists (body ts ++ k). split; [by apply body_ended|done]. }
  apply Forall_cons in Hrs as [Hr Hrs]. destruct ts as [|t ts].
  - split; [|by intros [x Hx]]. intros (rest & Hrest & E). exfalso. simpl in E.
    destruct Hk as [->| ->]; [done|]. injection E as E. symmetry in E.
    apply app_eq_nil in E as [E _]. apply app_eq_nil in E as [E _]. by destruct (clean_nonempty r Hr).
  - apply Forall_cons in Hts as [Ht Hts]. simpl. split.
    + intros (rest & Hrest & E). injection E as E. rewrite <- !app_assoc in E.
      apply name_cancel in E as [-> E]; [|by apply Ht|by apply Hr|by apply body_ended..].
      apply prefix_cons, IH; [done..|]. eauto.
    + intros Hp. pose proof (prefix_cons_inv_1 _ _ _ _ Hp) as ->. apply prefix_cons_inv_2 in Hp.
      apply (IH Hrs ts Hts Hk) in Hp as (rest & Hrest & E). exists rest. split; [done|].
      simpl. by rewrite <- !app_assoc, E.
Qed.

Lemma trim_sep_end ws k : Forall clean ws → k = [] ∨ k = [sep] →
  trim_end_matches sep (body ws ++ k) = body ws.
Proof.
  intros H Hk. unfold trim_end_matches.
  assert (trim_end_by (N.eqb sep) (body ws ++ k) = trim_end_by (N.eqb sep) (body ws)) as ->.
  { destruct Hk as [->| ->]; [by rewrite app_nil_r|]. unfold trim_end_by. by rewrite reverse_snoc. }
  apply trim_end_by_id. intros c r E. destruct ws as [|w ws]; [by destruct r|].
  assert (render (w :: ws) = r ++ [c]) as E' by by rewrite render_body.
  assert (join_sep (w :: ws) ≠ []) as Hne by (intros X; by apply join_sep_nil in X).
  assert (last (render (w :: ws)) = Some c) as Hl by (rewrite E'; apply last_snoc).
  unfold render in Hl. rewrite last_cons_ne in Hl by done. apply last_join in Hl; [|done].
  unfold is_sep in Hl. by rewrite N.eqb_sym.
Qed.

Lemma is_within_spec target root : is_within target root = true ↔
  let r := trim_end_matches sep root in
  match r with
  | [] => ∃ rest, target = sep :: rest
  | _ => ∃ rest, ended rest ∧ target = r ++ rest
  end.
Proof.
  unfold is_within. simpl. destruct (trim_end_matches sep root) as [|c r].
  - rewrite starts_with_spec. split; intros [rest E]; by exists rest.
  - rewrite orb_true_iff, bool_decide_eq_true. split.
    + intros [->|H]; [exists []; split; [by left|by rewrite app_nil_r]|].
      destruct (strip_prefix (c :: r) target) as [rest|] eqn:E; [|done].
      apply strip_prefix_Some in E as ->. apply starts_with_spec in H as [x ->].
      exists (sep :: x). split; [right; by eexists|done].
    + intros (rest & [->|[x ->]] & ->); [left; by rewrite app_nil_r|]. right.
      rewrite strip_prefix_app. by apply starts_with_spec; exists x.
Qed.

Lemma shape_body ws n : n = render ws ∨ ws ≠ [] ∧ n = render ws ++ [sep] →
  ∃ k, (k = [] ∨ k = [sep]) ∧ n = body ws ++ k.
Proof.
  intros [->|[Hne ->]]; rewrite render_body; destruct ws as [|w ws]; try done.
  - exists [sep]. auto.
  - exists []. rewrite app_nil_r. auto.
  - exists [sep]. auto.
Qed.

Lemma within_shaped ts rs target root : Forall clean ts → Forall clean rs →
  target = render ts ∨ ts ≠ [] ∧ target = render ts ++ [sep] →
  root = render rs ∨ rs ≠ [] ∧ root = render rs ++ [sep] →
  is_within target root = true ↔ rs `prefix_of` ts.
Proof.
  intros Hts Hrs Ht Hr. destruct (shape_components ts target Hts Ht) as [_ Ha].
  apply shape_body in Ht as (kt & Hkt & ->). apply shape_body in Hr as (kr & Hkr & ->).
  rewrite is_within_spec, trim_sep_end by done. cbv zeta. rewrite <- (body_prefix rs ts kt Hrs Hts Hkt).
  destruct rs as [|r rs]; [|done]. simpl. split; intros [rest H].
  - exists (body ts ++ kt). split; [|done]. rewrite H. right. by eexists.
  - destruct H as [_ E]. destruct (body ts ++ kt) as [|c x]; [done|].
    apply is_sep_spec in Ha as ->. by eexists.
Qed.

Lemma prefix_fmap_inj {A B} (f : A → B) `{!Inj (=) (=) f} l k :
  f <$> l `prefix_of` f <$> k ↔ l `prefix_of` k.
Proof.
  split; [|intros [x ->]; rewrite fmap_app; by eexists].
  revert k. induction l as [|x l IH]; intros k H; [apply prefix_nil|].
  destruct k as [|y k]; [by destruct H|]. csimpl in H.
  pose proof (prefix_cons_inv_1 _ _ _ _ H) as ->%(inj f). apply prefix_cons_inv_2 in H.
  by apply prefix_cons, IH.
Qed.

#[export] Instance Normal_inj : Inj (=) (=) Normal.
Proof. by intros ?? [=]. Qed.

(** ** Claims *)

(** with an absolute working directory, normalising a path twice changes
    nothing, whatever home and working directory the second pass has; the result
    is absolute and names no [.] and no [..]. *)
Theorem normalize_idempotent (raw : str) (cwd cwd' : PathBuf) (home home' : option PathBuf)
  (H : is_absolute cwd = true) :
  let n := normalize raw cwd home in
  normalize n cwd' home' = n ∧ is_absolute n = true
  ∧ (∀ c, c ∈ components n → c ≠ CurDir ∧ c ≠ ParentDir).
Proof.
  destruct (normalize_shape raw cwd home H) as (ws & Hws & Hn). cbv zeta.
  destruct (shape_components ws _ Hws Hn) as [Hc Ha].
  split_and!; [by eapply normalize_shaped|done|]. intros c. rewrite Hc.
  intros [->|(w & -> & _)%list_elem_of_fmap]%elem_of_cons; done.
Qed.

(** the textual containment test on normalised paths is containment of
    components: a path is within a root exactly when the root's components
    begin the path's, so [/srcs] is not inside [/src]. *)
Theorem within_is_component_prefix (target root : str) (cwd : PathBuf) (home : option PathBuf)
  (H : is_absolute cwd = true) :
  let t := normalize target cwd home in
  let r := normalize root cwd home in
  is_within t r = true ↔ components r `prefix_of` components t.
Proof.
  destruct (normalize_shape target cwd home H) as (ts & Hts & Ht).
  destruct (normalize_shape root cwd home H) as (rs & Hrs & Hr). cbv zeta.
  destruct (shape_components ts _ Hts Ht) as [-> _]. destruct (shape_components rs _ Hrs Hr) as [-> _].
  rewrite (within_shaped ts rs) by done. rewrite <- (prefix_fmap_inj Normal). split.
  - apply prefix_cons.
  - apply prefix_cons_inv_2.
Qed.

(** ** Hosts *)

Lemma split_by_head p s a : head (split_by p s) = Some a →
  (∀ c, c ∈ a → p c = false) ∧ ∃ t, s = a ++ t ∧ (t = [] ∨ ∃ c t', t = c :: t' ∧ p c = true).
Proof.
  intros H. split.
  { intros c. apply (split_by_pieces p s). destruct (split_by p s); simplify_eq/=. by left. }
  revert a H. induction s as [|c s IH]; simpl; intros a H.
  { simplify_eq. exists []. auto. }
  destruct (split_by p s) as [|w ws] eqn:E; [by destruct (split_by_nonempty p s)|].
  destruct (p c) eqn:Ep; simplify_eq/=.
  - exists (c :: s). split; [done|]. right. eauto.
  - destruct (IH w) as (t & -> & Ht); [done|]. exists t. auto.
Qed.

Lemma rsplit_once_Some c s a b : rsplit_once c s = Some (a, b) → s = a ++ c :: b ∧ c ∉ b.
Proof.
  unfold rsplit_once. rewrite fmap_Some. intros ([x y] & E & [= -> ->]).
  apply split_once_char_Some in E as [E Hx]. split.
  - rewrite <- (reverse_involutive s), E, reverse_app, reverse_cons, <- app_assoc. done.
  - by rewrite elem_of_reverse.
Qed.

Lemma rsplit_once_None c s : rsplit_once c s = None → c ∉ s.
Proof.
  unfold rsplit_once. rewrite fmap_None, split_once_char_None. by rewrite elem_of_reverse.
Qed.

Lemma strip_port_Some h r : strip_port h = Some r →
  ∃ port, h = r ++ port ∧ (port = [] ∨ ∃ d, port = chr ":" :: d ∧ d ≠ [] ∧ all is_ascii_digit d = true).
Proof.
  unfold strip_port. destruct (split_once _ h) as [[x d]|] eqn:E; intros; simplify_eq.
  - apply split_once_char_Some in E as [-> _].
    destruct (_ && _) eqn:Eb; simplify_eq. apply andb_true_iff in Eb as [Hd Ha].
    apply negb_true_iff, bool_decide_eq_false in Hd. eexists. split; [done|]. right. eauto.
  - exists []. rewrite app_nil_r. auto.
Qed.

(** the host a rule is matched against is the authority's host: the URL
    reads scheme, "://", an optional userinfo up to the last "@", the host, an
    optional numeric port, and then nothing or a character that ends an
    authority (a backslash too); the host is a plain name. *)
Theorem host_is_authority_host (url h : str) (H : host url = Some h) :
  is_hostname h = true
  ∧ ∃ scheme user port rest, url = scheme ++ lit "://" ++ (user ++ h ++ port) ++ rest
      ∧ (user = [] ∧ chr "@" ∉ h ++ port ∨ (∃ u, user = u ++ [chr "@"]) ∧ chr "@" ∉ h ++ port)
      ∧ (port = [] ∨ ∃ d, port = chr ":" :: d ∧ d ≠ [] ∧ all is_ascii_digit d = true)
      ∧ (∀ c, c ∈ user ++ h ++ port → ends_authority c = false)
      ∧ (rest = [] ∨ ∃ c r, rest = c :: r ∧ ends_authority c = true).
Proof.
  unfold host in H.
  apply bind_Some in H as ([scheme after] & Hs & H). apply bind_Some in H as (authority & Ha & H).
  apply bind_Some in H as (h' & Hp & H). destruct (is_hostname h') eqn:Eh; simplify_eq.
  split; [done|]. apply split_once_Some in Hs as ->. simpl in Ha.
  apply split_by_head in Ha as (Hnone & rest & -> & Hrest).
  apply strip_port_Some in Hp as (port & Hh & Hport).
  destruct (rsplit_once (chr "@") authority) as [[u x]|] eqn:Er.
  - apply rsplit_once_Some in Er as [-> Hn]. subst x.
    exists scheme, (u ++ [chr "@"]), port, rest. split_and!; [by rewrite <- (app_assoc u [chr "@"])| |done| |done].
    + right. split; [by eexists|done].
    + intros c Hc. apply Hnone. by rewrite <- app_assoc in Hc.
  - apply rsplit_once_None in Er. subst authority.
    exists scheme, [], port, rest. split_and!; [done|by left|done|by apply Hnone|done].
Qed.

(** ** Witnesses *)

Lemma normalize_idempotent_witness :
  normalize (lit "/home/u/a") (lit "/elsewhere") None = lit "/home/u/a"
  ∧ normalize (lit "~/x/../a") (lit "/work") (Some (lit "/home/u")) = lit "/home/u/a".
Proof.
  split; [|reflexivity].
  destruct (normalize_idempotent (lit "~/x/../a") (lit "/work") (lit "/elsewhere")
              (Some (lit "/home/u")) None) as [H _]; [reflexivity|]. exact H.
Defined.

Lemma within_is_component_prefix_witness :
  is_within (normalize (lit "../srcs") (lit "/src") None) (normalize (lit ".") (lit "/src") None) = false.
Proof.
  apply not_true_iff_false.
  rewrite (within_is_component_prefix (lit "../srcs") (lit ".") (lit "/src") None eq_refl).
  intros [k Hk]. vm_compute in Hk. done.
Defined.

Lemma host_is_authority_host_witness :
  is_hostname (lit "docs.rs") = true ∧ host (lit "https://a@b@docs.rs:8080\@evil.example/") = Some (lit "docs.rs").
Proof.
  split; [|reflexivity].
  exact (proj1 (host_is_authority_host (lit "https://a@b@docs.rs:8080\@evil.example/") (lit "docs.rs") eq_refl)).
Defined.
