(* ===== verification/PermRule.v ===== *)
(** * PermRule: the rule table

    [bingo-permissions/src/mode.rs], [split.rs], [rule.rs], [scope.rs] and
    [caution.rs].  The Bash grammar (tree-sitter), the shell-word splitter
    (shlex) and the glob compiler (globset) are code of other packages: they are
    the operations of the class [ShellTools], about which nothing is assumed.
    What they return is read the way the sources read it. *)

From S2P Require Import Prelude Text Model Interaction PermPath.

(** ** Modes ([mode.rs]) *)

Inductive Mode := ModeDefault | AcceptEdits | Plan | BypassPermissions | DontAsk.

#[export] Instance Mode_eq_dec : EqDecision Mode.
Proof. solve_decision. Defined.

Definition all_modes : list Mode := [ModeDefault; AcceptEdits; Plan; BypassPermissions; DontAsk].

Definition cycle (m : Mode) : list Mode :=
  let modes := [ModeDefault; AcceptEdits; Plan; BypassPermissions] in
  if bool_decide (m ∈ modes) then modes else modes ++ [m].

Definition mode_label (m : Mode) : str :=
  match m with
  | ModeDefault => lit "default" | AcceptEdits => lit "accept edits" | Plan => lit "plan"
  | BypassPermissions => lit "bypass" | DontAsk => lit "don't ask"
  end.

(** [m.tightens(before)]. *)
Definition tightens (m before : Mode) : bool :=
  bool_decide (m = before) ||
  match before, m with
  | BypassPermissions, (AcceptEdits | ModeDefault | Plan | DontAsk) => true
  | AcceptEdits, (ModeDefault | Plan | DontAsk) => true
  | ModeDefault, (Plan | DontAsk) => true
  | _, _ => false
  end.

Definition mode_as_str (m : Mode) : str :=
  match m with
  | ModeDefault => lit "default" | AcceptEdits => lit "acceptEdits" | Plan => lit "plan"
  | BypassPermissions => lit "bypassPermissions" | DontAsk => lit "dontAsk"
  end.

Definition mode_meaning (m : Mode) : str :=
  match m with
  | ModeDefault => lit "trusted read-only tools run; everything else asks"
  | AcceptEdits => lit "edits inside the working directories run without a prompt"
  | Plan => lit "nothing that is not read-only runs at all"
  | BypassPermissions => lit "everything runs except what only a person may decide"
  | DontAsk => lit "nobody is there to answer, so what would have asked is denied"
  end.

Definition mode_stance (m : Mode) : Stance :=
  match m with
  | BypassPermissions => StanceAllow
  | DontAsk => StanceRefuse
  | _ => StanceAsk
  end.

Definition unknown_mode (s : str) : str :=
  lit "unknown permission mode: " ++ s ++
  lit " (expected default|acceptEdits|plan|bypassPermissions|dontAsk)".

Definition mode_from_str (s : str) : result str Mode :=
  if bool_decide (s = lit "default") then Ok ModeDefault
  else if bool_decide (s = lit "acceptEdits") then Ok AcceptEdits
  else if bool_decide (s = lit "plan") then Ok Plan
  else if bool_decide (s = lit "bypassPermissions") then Ok BypassPermissions
  else if bool_decide (s = lit "dontAsk") then Ok DontAsk
  else Err (unknown_mode s).

(** ** The packages the rules call *)

(** A syntax node: its kind, the source text of its range when the range is
    one, which child is its [body] field, and its children. *)
Inductive Node := mkNode (kind : str) (text : option str) (body : option nat) (children : list Node).

Definition node_kind (n : Node) : str := let '(mkNode k _ _ _) := n in k.
Definition node_text (n : Node) : option str := let '(mkNode _ t _ _) := n in t.
Definition node_body (n : Node) : option nat := let '(mkNode _ _ b _) := n in b.
Definition node_children (n : Node) : list Node := let '(mkNode _ _ _ c) := n in c.

Record Tree := mkTree { tree_root : Node; tree_has_error : bool }.

Class ShellTools := mkShellTools {
  bash_parse : str -> option Tree;
  shlex_split : str -> option (list str);
  glob_build : str -> option (str -> bool);
}.

(** ** One Bash string, every command it runs ([split.rs]) *)

Definition command_kinds : list str :=
  [lit "command"; lit "declaration_command"; lit "unset_command"; lit "test_command"].

Record Split := mkSplit { parts : list str; parsed : bool }.

(** A node on the queue: its parent and its place among the parent's children. *)
Record Entry := mkEntry { e_parent : option Node; e_at : nat; e_node : Node }.

Definition span (e : Entry) : Node :=
  match e_parent e with
  | None => e_node e
  | Some parent =>
      if bool_decide (node_kind parent = lit "redirected_statement")
         && bool_decide (node_body parent = Some (e_at e))
      then parent else e_node e
  end.

Definition push_part (n : Node) : list str :=
  match node_text n with
  | None => []
  | Some text => let text := trim text in if bool_decide (text = []) then [] else [text]
  end.

Definition own_part (e : Entry) : list str :=
  if bool_decide (node_kind (e_node e) ∈ command_kinds) then push_part (span e) else [].

Definition child_entries (n : Node) : list Entry := imap (mkEntry (Some n)) (node_children n).

(** The breadth-first loop; the number of nodes is fuel enough. *)
Fixpoint collect_loop (fuel : nat) (queue : list Entry) : list str :=
  match fuel, queue with
  | S fuel, e :: queue => own_part e ++ collect_loop fuel (queue ++ child_entries (e_node e))
  | _, _ => []
  end.

Fixpoint node_size (n : Node) : nat :=
  let '(mkNode _ _ _ children) := n in
  S ((fix sizes (l : list Node) : nat := match l with [] => 0 | c :: l => node_size c + sizes l end) children).

Definition collect (root : Node) : list str := collect_loop (node_size root) [mkEntry None 0 root].

Definition is_simple (s : Split) : bool := parsed s && bool_decide (length (parts s) = 1).

Definition split_head (s : Split) : option str :=
  match parts s with
  | [one] => if parsed s then head (split_whitespace one) else None
  | _ => None
  end.

(** ** Rules ([rule.rs]) *)

Inductive MatchMode := MatchAny | MatchAll.

Record Call := mkCall { rc_name : str; rc_subjects : list Subject }.
Record MatchContext := mkMatchContext { mc_cwd : PathBuf; mc_home : option PathBuf }.

Inductive ToolPattern := Exact (name : str) | Server (name : str).
Inductive Content := Literal (text : str) | Prefix (text : str) | Domain (host : str).
Record Rule := mkRule { rule_raw : str; rule_tool : ToolPattern; rule_content : option Content }.
Record Rules := mkRules { r_allow : list Rule; r_deny : list Rule; r_ask : list Rule }.

#[export] Instance ToolPattern_eq_dec : EqDecision ToolPattern.
Proof. solve_decision. Defined.
#[export] Instance Content_eq_dec : EqDecision Content.
Proof. solve_decision. Defined.
#[export] Instance Rule_eq_dec : EqDecision Rule.
Proof. solve_decision. Defined.

Definition pattern_parse (name : str) : option ToolPattern :=
  if bool_decide (name = []) then None
  else if starts_with name (lit "mcp__") && bool_decide (split_count (lit "__") name = 2)
  then Some (Server name) else Some (Exact name).

Definition pattern_matches (p : ToolPattern) (name : str) : bool :=
  match p with
  | Exact want => bool_decide (want = name)
  | Server server =>
      bool_decide (name = server) ||
      match strip_prefix server name with
      | Some rest => starts_with rest (lit "__")
      | None => false
      end
  end.

Definition content_parse (inner : str) : option Content :=
  let text := trim inner in
  match strip_prefix (lit "domain:") text with
  | Some host => Some (Domain (trim_end_matches (chr "*") host))
  | None =>
      let '(text, explicit) :=
        match strip_prefix (lit "prefix:") text with Some t => (t, true) | None => (text, false) end in
      let '(text, explicit) :=
        match strip_suffix (lit ":*") text with Some t => (t, true) | None => (text, explicit) end in
      if bool_decide (text = []) || bool_decide (text = lit "*") then None
      else Some (if explicit : bool then Prefix text else Literal text)
  end.

Definition content_text (c : Content) : str :=
  match c with Literal t | Prefix t | Domain t => t end.

Definition rule_parse (raw : str) : option Rule :=
  let text := trim raw in
  let? nc :=
    match split_once [chr "("] text with
    | Some (name, rest) =>
        let? inner := strip_suffix [chr ")"] rest in Some (trim name, content_parse inner)
    | None => Some (text, None)
    end in
  let? tool := pattern_parse nc.1 in
  Some (mkRule text tool nc.2).

Definition host_is (url want : str) : bool :=
  negb (bool_decide (want = [])) &&
  match host url with Some h => eq_ignore_ascii_case h want | None => false end.

Definition has_glob_char (pattern : str) : bool :=
  any (fun c => N.eqb c (chr "*") || N.eqb c (chr "?") || N.eqb c (chr "[") || N.eqb c (chr "{")) pattern.

Section rules.
Context `{ShellTools}.

Definition split (command : str) : Split :=
  match bash_parse command with
  | None => mkSplit [] false
  | Some tree => mkSplit (collect (tree_root tree)) (negb (tree_has_error tree))
  end.

Definition unreadable (s : Subject) : bool :=
  match s with SCommand command => negb (parsed (split command)) | _ => false end.

Definition words_start_with (unit_ content : str) : bool :=
  match shlex_split unit_, shlex_split content with
  | Some u, Some c =>
      bool_decide (length c <= length u) && all (fun wc => bool_decide (wc.1 = wc.2)) (zip u c)
  | _, _ => false
  end.

Definition unit_covered (unit_ content : str) (mode : MatchMode) : bool :=
  let text := starts_with unit_ content in
  let words := words_start_with unit_ content in
  match mode with MatchAny => text || words | MatchAll => text && words end.

Definition command_covered (command content : str) (mode : MatchMode) : bool :=
  let s := split command in
  match mode with
  | MatchAll =>
      parsed s && negb (bool_decide (length (parts s) = 0))
      && all (fun part => unit_covered part content mode) (parts s)
  | MatchAny =>
      any (fun part => unit_covered part content mode) (parts s)
      || unit_covered (trim command) content mode
  end.

Definition compile (pattern : str) : option (str -> bool) :=
  if negb (has_glob_char pattern) then None else glob_build pattern.

Definition path_covered (target : PathBuf) (content : Content) (cx : MatchContext) : bool :=
  let target := normalize_path target (mc_cwd cx) (mc_home cx) in
  let pattern := normalize (content_text content) (mc_cwd cx) (mc_home cx) in
  let glob := match content with Literal _ => compile pattern | _ => None end in
  match glob with
  | Some is_match => is_match target
  | None => starts_with target pattern
  end.

Definition covers (c : Content) (s : Subject) (mode : MatchMode) (cx : MatchContext) : bool :=
  match c, s with
  | Domain h, SUrl url => host_is url h
  | Domain _, _ => false
  | _, SCommand command => command_covered command (content_text c) mode
  | _, SPath path => path_covered path c cx
  | _, SUrl url => starts_with url (content_text c)
  | Literal text, SName name => bool_decide (name = text)
  | Prefix text, SName name => starts_with name text
  end.

Definition rule_matches (r : Rule) (call : Call) (mode : MatchMode) (cx : MatchContext) : bool :=
  if negb (pattern_matches (rule_tool r) (rc_name call)) then false
  else if match mode with MatchAll => any unreadable (rc_subjects call) | MatchAny => false end
  then false
  else
    match rule_content r with
    | None => true
    | Some content =>
        match mode with
        | MatchAny => any (fun s => covers content s mode cx) (rc_subjects call)
        | MatchAll =>
            negb (bool_decide (length (rc_subjects call) = 0))
            && all (fun s => covers content s mode cx) (rc_subjects call)
        end
    end.

Definition first_match (table : list Rule) (call : Call) (mode : MatchMode) (cx : MatchContext)
    : option Rule :=
  find_bool (fun rule => rule_matches rule call mode cx) table.

(** ** The narrowest rule for a call ([scope.rs]) *)

Definition wrapped (tool inner : str) : str := tool ++ lit "(" ++ inner ++ lit ")".

Definition command_rule (tool command : str) : option str :=
  let s := split command in
  if negb (is_simple s) then None
  else let? h := split_head s in Some (wrapped tool (h ++ lit ":*")).

Definition path_rule (tool : str) (target cwd : PathBuf) (home : option PathBuf) : option str :=
  let? parent := path_parent (normalize_path target cwd home) in
  let? _ := path_parent parent in
  let dir := if ends_with parent [sep] then parent else parent ++ [sep] in
  Some (wrapped tool dir).

Definition url_rule (tool url : str) : option str :=
  let? h := host url in Some (wrapped tool (lit "domain:" ++ h)).

Definition narrowest (call : Call) (cwd : PathBuf) (home : option PathBuf) : option str :=
  match rc_subjects call with
  | [] => Some (rc_name call)
  | [SCommand command] => command_rule (rc_name call) command
  | [SPath path] => path_rule (rc_name call) path cwd home
  | [SUrl url] => url_rule (rc_name call) url
  | [SName name] => Some (wrapped (rc_name call) name)
  | _ => None
  end.

(** ** Warnings ([caution.rs]) *)

Definition is_quote (c : char) : bool := N.eqb c (chr "'") || N.eqb c 34.
Definition is_wrapper (w : str) : bool := bool_decide (w ∈ [lit "sudo"; lit "env"; lit "command"]).
Definition takes_value (w : str) : bool :=
  bool_decide (w ∈ [lit "-u"; lit "-g"; lit "--user"; lit "--group"]).

(** The flags of a wrapper; [None] where a flag's value is missing. *)
Fixpoint skip_flags (words : list str) : option (list str) :=
  match words with
  | flag :: rest =>
      if starts_with flag (lit "-") then
        if takes_value flag
        then match rest with _ :: rest => skip_flags rest | [] => None end
        else skip_flags rest
      else Some words
  | [] => Some []
  end.

(** The loop over wrappers drops a word each time. *)
Fixpoint unwrap_words (fuel : nat) (words : list str) : option (list str) :=
  match fuel, words with
  | S fuel, w :: rest =>
      if is_wrapper w then let? rest := skip_flags rest in unwrap_words fuel rest else Some words
  | _, _ => Some words
  end.

Definition recursive_flag (w : str) : bool :=
  bool_decide (w = lit "--recursive")
  || starts_with w (lit "-") && negb (starts_with w (lit "--"))
     && (contains_char (chr "r") w || contains_char (chr "R") w).

Definition simple_caution (command : str) : option (str * str) :=
  let words := trim_by is_quote <$> split_whitespace command in
  let? words := unwrap_words (length words) words in
  let? first := head words in
  let? h := last (split_by is_sep first) in
  let has w := bool_decide (w ∈ words) in
  if bool_decide (h = lit "rm") && any recursive_flag (drop 1 words)
  then Some (lit "delete recursively", lit "permanently removes files")
  else if bool_decide (h = lit "git") && (has (lit "reset") && has (lit "--hard"))
  then Some (lit "hard-reset", lit "discards uncommitted changes")
  else if bool_decide (h = lit "git")
          && (has (lit "push") && any (fun w => bool_decide (w = lit "-f") || starts_with w (lit "--force")) words)
  then Some (lit "force-push", lit "rewrites remote history")
  else if bool_decide (h = lit "git")
          && (has (lit "clean") && any (fun w => starts_with w (lit "-") && contains_char (chr "f") w) words)
  then Some (lit "clean", lit "removes untracked files")
  else if bool_decide (h = lit "dd") then Some (lit "overwrite", lit "irreversibly overwrites data")
  else if bool_decide (h = lit "mkfs") then Some (lit "format", lit "erases the filesystem")
  else if bool_decide (h = lit "shred") then Some (lit "shred", lit "irreversibly overwrites data")
  else None.

Definition caution (command : str) : option Caution :=
  (fun ar => mkCaution ar.2 (Some ar.1)) <$> find_map simple_caution (parts (split command)).

Definition caution_subjects (subjects : list Subject) : option Caution :=
  find_map (fun s => match s with SCommand command => caution command | _ => None end) subjects.
End rules.

Example caution_ex : simple_caution (lit "sudo -u root rm -rf /") = Some (lit "delete recursively", lit "permanently removes files")
  ∧ simple_caution (lit "/usr/bin/git push origin --force-with-lease") = Some (lit "force-push", lit "rewrites remote history")
  ∧ simple_caution (lit "rm file") = None ∧ simple_caution (lit "sudo -u") = None.
Proof. repeat split. Qed.
Example parse_ex :
  rule_parse (lit " Bash( git:* ) ") = Some (mkRule (lit "Bash( git:* )") (Exact (lit "Bash")) (Some (Prefix (lit "git"))))
  ∧ rule_parse (lit "mcp__files") = Some (mkRule (lit "mcp__files") (Server (lit "mcp__files")) None)
  ∧ rule_parse (lit "WebFetch(domain:)") = Some (mkRule (lit "WebFetch(domain:)") (Exact (lit "WebFetch")) (Some (Domain [])))
  ∧ rule_parse (lit "Bash(ls") = None ∧ rule_parse (lit "(x)") = None.
Proof. repeat split. Qed.

(** ** Lemmas: modes *)

Lemma mode_from_as_str m : mode_from_str (mode_as_str m) = Ok m.
Proof. by destruct m. Qed.

Lemma mode_as_from_str s m : mode_from_str s = Ok m → mode_as_str m = s.
Proof. unfold mode_from_str. repeat case_bool_decide; intros; by simplify_eq. Qed.

Lemma tightens_trans a b c : tightens a b = true → tightens b c = true → tightens a c = true.
Proof. by destruct a, b, c. Qed.

Lemma tightens_antisym a b : tightens a b = true → tightens b a = true → a = b.
Proof. by destruct a, b. Qed.

(** ** Lemmas: the commands of a parse *)

(** The nodes of a subtree, each with its parent. *)
Inductive inside : Entry → Entry → Prop :=
| inside_self e : inside e e
| inside_child e c e' : c ∈ child_entries (e_node e) → inside c e' → inside e e'.

Fixpoint sizes (l : list Entry) : nat :=
  match l with [] => 0 | e :: l => node_size (e_node e) + sizes l end.

Lemma sizes_app l k : sizes (l ++ k) = sizes l + sizes k.
Proof. induction l as [|e l IH]; simpl; [done|]. lia. Qed.

Lemma sizes_children n : node_size n = S (sizes (child_entries n)).
Proof.
  destruct n as [k t b cs]. simpl. f_equal. unfold child_entries; simpl. generalize (Some (mkNode k t b cs)).
  intros p. assert (∀ f : nat → nat, (fix sizes (l : list Node) : nat :=
     match l with [] => 0 | c :: l0 => node_size c + sizes l0 end) cs = sizes (imap (mkEntry p ∘ f) cs)) as E.
  { induction cs as [|c cs IH]; intros f; [done|]. simpl. f_equal. apply (IH (f ∘ S)). }
  apply (E id).
Qed.

(** The loop reaches every command of every queued subtree, and no other text. *)
Lemma collect_loop_spec fuel queue w : sizes queue ≤ fuel →
  w ∈ collect_loop fuel queue ↔ ∃ e e', e ∈ queue ∧ inside e e' ∧ w ∈ own_part e'.
Proof.
  revert queue. induction fuel as [|fuel IH]; intros queue Hf.
  - destruct queue as [|e queue]; simpl in *; [|rewrite sizes_children in Hf; lia].
    split; [by intros []%elem_of_nil|]. by intros (? & ? & []%elem_of_nil & _).
  - destruct queue as [|e queue]; simpl.
    { split; [by intros []%elem_of_nil|]. by intros (? & ? & []%elem_of_nil & _). }
    simpl in Hf. rewrite sizes_children in Hf.
    rewrite elem_of_app, IH by (rewrite sizes_app; lia). split.
    + intros [Hw|(x & e' & [Hx|Hx]%elem_of_app & Hi & Hw)].
      * exists e, e. split_and!; [by left|constructor|done].
      * exists x, e'. split_and!; [by right|done..].
      * exists e, e'. split_and!; [by left| |done]. by eapply inside_child.
    + intros (x & e' & [->|Hx]%elem_of_cons & Hi & Hw).
      * destruct Hi as [|e c e' Hc Hi]; [by left|]. right. exists c, e'. rewrite elem_of_app. auto.
      * right. exists x, e'. rewrite elem_of_app. auto.
Qed.

(** ** Lemmas: rules *)

Lemma split_whitespace_word s w : w ∈ split_whitespace s → w ≠ [] ∧ ∀ c, c ∈ w → is_whitespace c = false.
Proof.
  unfold split_whitespace. rewrite elem_of_retain. intros [Hw Hne%negb_true_iff%bool_decide_eq_false].
  split; [done|]. by apply (split_by_pieces _ s).
Qed.

(** A parsed rule reads the same when read back from its own text. *)
Lemma rule_parse_raw raw r : rule_parse raw = Some r → rule_parse (rule_raw r) = Some r ∧ rule_raw r = trim raw.
Proof.
  unfold rule_parse. intros (nc & Hnc & (tool & Ht & [= <-])%bind_Some)%bind_Some.
  cbn [rule_raw]. split; [|done]. rewrite trim_idemp, Hnc. cbn. by rewrite Ht.
Qed.

(** A rule written around plain text, before its content is read. *)
Lemma rule_parse_wrapped tool inner :
  tool ≠ [] → chr "(" ∉ tool → (∀ c, c ∈ tool → is_whitespace c = false) →
  rule_parse (wrapped tool inner) =
  Some (mkRule (wrapped tool inner) (default (Exact tool) (pattern_parse tool)) (content_parse inner)).
Proof.
  intros Hne Hp Hws. unfold rule_parse, wrapped.
  assert (trim (tool ++ lit "(" ++ inner ++ lit ")") = tool ++ lit "(" ++ inner ++ lit ")") as ->.
  { apply trim_by_id; intros c r E.
    - destruct tool as [|d tool]; [done|]. injection E as -> _. apply Hws. by left.
    - rewrite !app_assoc in E. apply app_inj_2 in E as [_ [= <-]]; [done|done]. }
  rewrite (proj2 (split_once_char_Some (chr "(") _ tool (inner ++ lit ")"))) by done.
  change (lit ")") with [chr ")"]. rewrite strip_suffix_app. simpl. rewrite trim_plain by done.
  unfold pattern_parse. rewrite bool_decide_eq_false_2 by done. by destruct (_ && _).
Qed.

Lemma strip_prefix_None p s : starts_with s p = false → strip_prefix p s = None.
Proof. unfold starts_with. by destruct (strip_prefix p s). Qed.

(** A word that no form of the grammar claims is a prefix rule. *)
Lemma content_parse_prefix h :
  h ≠ [] → h ≠ lit "*" → (∀ c, c ∈ h → is_whitespace c = false) →
  starts_with (h ++ lit ":*") (lit "domain:") = false → starts_with (h ++ lit ":*") (lit "prefix:") = false →
  content_parse (h ++ lit ":*") = Some (Prefix h).
Proof.
  intros Hne Hstar Hws Hd Hp. unfold content_parse. rewrite trim_plain.
  - rewrite !strip_prefix_None by done. rewrite strip_suffix_app.
    by rewrite (bool_decide_eq_false_2 _ Hne), (bool_decide_eq_false_2 _ Hstar).
  - intros c [Hc|Hc]%elem_of_app; [by apply Hws|]. by repeat (apply elem_of_cons in Hc as [->|Hc]); [..|apply elem_of_nil in Hc].
Qed.

Lemma pattern_plain tool : starts_with tool (lit "mcp__") = false → tool ≠ [] →
  pattern_parse tool = Some (Exact tool).
Proof. intros Hm Hne. unfold pattern_parse. by rewrite bool_decide_eq_false_2, Hm. Qed.

Section coverage.
Context `{ShellTools}.

Lemma split_parts command tree w : bash_parse command = Some tree →
  w ∈ parts (split command) ↔
  ∃ e, inside (mkEntry None 0 (tree_root tree)) e ∧ w ∈ own_part e.
Proof.
  intros Hp. unfold split. rewrite Hp. simpl. unfold collect. rewrite collect_loop_spec by (simpl; lia).
  split; [intros (x & e & ->%list_elem_of_singleton & ?); eauto|].
  intros (e & ?). exists (mkEntry None 0 (tree_root tree)), e. split; [|done]. by apply list_elem_of_singleton.
Qed.

Lemma own_part_spec e w : w ∈ own_part e ↔
  node_kind (e_node e) ∈ command_kinds ∧ ∃ text, node_text (span e) = Some text ∧ w = trim text ∧ w ≠ [].
Proof.
  unfold own_part, push_part. case_bool_decide as Hk.
  2: { split; [by intros []%elem_of_nil|]. by intros [? _]. }
  destruct (node_text (span e)) as [text|].
  2: { split; [by intros []%elem_of_nil|]. by intros (_ & ? & ? & _). }
  case_bool_decide as Ht.
  - split; [by intros []%elem_of_nil|]. intros (_ & t & [= <-] & -> & ?). done.
  - rewrite list_elem_of_singleton. naive_solver.
Qed.

Lemma unit_covered_all u c : unit_covered u c MatchAll = true →
  starts_with u c = true ∧ words_start_with u c = true.
Proof. unfold unit_covered. by intros [? ?]%andb_true_iff. Qed.

Lemma rule_matches_readable r call cx : rule_matches r call MatchAll cx = true →
  pattern_matches (rule_tool r) (rc_name call) = true ∧
  ∀ command, SCommand command ∈ rc_subjects call → parsed (split command) = true.
Proof.
  unfold rule_matches. destruct (pattern_matches _ _); simpl; [|done].
  destruct (any unreadable (rc_subjects call)) eqn:E; [done|]. intros _. split; [done|].
  intros command Hc. rewrite any_false in E. specialize (E _ Hc). by apply negb_false_iff in E.
Qed.

Lemma rule_matches_covers r call cx content : rule_matches r call MatchAll cx = true →
  rule_content r = Some content →
  rc_subjects call ≠ [] ∧ ∀ s, s ∈ rc_subjects call → covers content s MatchAll cx = true.
Proof.
  unfold rule_matches. intros Hm Hc. rewrite Hc in Hm. destruct (negb _); [done|].
  destruct (any _ _); [done|]. apply andb_true_iff in Hm as [Hl Ha].
  apply negb_true_iff, bool_decide_eq_false in Hl. split; [by intros E; rewrite E in Hl|].
  by apply all_true.
Qed.

(** ** Claims *)

(** splitting a Bash string finds every command of its parse, however deep,
    and nothing else: the parts are the trimmed texts of the command nodes (with
    its redirections, for a redirected command), and the loop that collects them
    always finishes. *)
Theorem split_finds_every_command (command : str) (tree : Tree) (Hp : bash_parse command = Some tree) :
  parsed (split command) = negb (tree_has_error tree)
  ∧ ∀ w, w ∈ parts (split command) ↔
      ∃ e, inside (mkEntry None 0 (tree_root tree)) e ∧ node_kind (e_node e) ∈ command_kinds
        ∧ ∃ text, node_text (span e) = Some text ∧ w = trim text ∧ w ≠ [].
Proof.
  split; [unfold split; by rewrite Hp|]. intros w. rewrite (split_parts _ _ _ Hp).
  by setoid_rewrite own_part_spec.
Qed.


(** a deny or ask rule that names a command reaches it wherever it hides in
    a Bash string: one command node whose text begins with the rule's text, as
    text or as shell words, is enough, parsed cleanly or not. *)
Theorem deny_reaches_nested (r : Rule) (call : Call) (cx : MatchContext) (command part t : str)
  (Htool : pattern_matches (rule_tool r) (rc_name call) = true)
  (Hcontent : rule_content r = Some (Literal t) ∨ rule_content r = Some (Prefix t))
  (Hc : SCommand command ∈ rc_subjects call) (Hpart : part ∈ parts (split command))
  (Hstart : starts_with part t = true ∨ words_start_with part t = true) :
  rule_matches r call MatchAny cx = true.
Proof.
  unfold rule_matches. rewrite Htool. simpl.
  assert (∀ c, content_text c = t → (∃ x, c = Literal x ∨ c = Prefix x) →
    any (λ s, covers c s MatchAny cx) (rc_subjects call) = true) as Hany.
  { intros c Ht Hk. apply any_true. exists (SCommand command). split; [done|].
    assert (command_covered command t MatchAny = true) as Hcov.
    { apply orb_true_iff. left. apply any_true. exists part. split; [done|]. by apply orb_true_iff. }
    destruct Hk as [x [->| ->]]; simpl in *; by subst. }
  destruct Hcontent as [-> | ->]; apply Hany; eauto.
Qed.

(** the scope offered for a simple command is a rule for its first word: the
    rule reads back as that word, as a prefix, for that tool alone, provided the
    word is none of the grammar's own forms. *)
Theorem command_scope_is_prefix (tool command part h : str) (cwd : PathBuf) (home : option PathBuf)
  (Htool : tool ≠ []) (Hparen : chr "(" ∉ tool) (Hws : ∀ c, c ∈ tool → is_whitespace c = false)
  (Hmcp : starts_with tool (lit "mcp__") = false)
  (Hsplit : split command = mkSplit [part] true) (Hh : head (split_whitespace part) = Some h)
  (Hstar : h ≠ lit "*") (Hdom : starts_with (h ++ lit ":*") (lit "domain:") = false)
  (Hpre : starts_with (h ++ lit ":*") (lit "prefix:") = false) :
  ∃ raw, narrowest (mkCall tool [SCommand command]) cwd home = Some raw
    ∧ rule_parse raw = Some (mkRule raw (Exact tool) (Some (Prefix h))).
Proof.
  exists (wrapped tool (h ++ lit ":*")). split.
  - unfold narrowest, command_rule; simpl. rewrite Hsplit. simpl. unfold split_head; simpl. by rewrite Hh.
  - destruct (split_whitespace_word part h) as [Hne Hhws].
    { destruct (split_whitespace part); simplify_eq/=. by left. }
    rewrite rule_parse_wrapped by done. rewrite pattern_plain by done. by rewrite content_parse_prefix.
Qed.

(** a simple command whose first word is "prefix:" is offered a scope that
    is not narrow: the derived rule reads back as a rule with no content, which
    covers every call of the tool whose commands parse. *)
Theorem prefix_word_scope_widens (command part : str) (cwd : PathBuf) (home : option PathBuf)
  (Hsplit : split command = mkSplit [part] true)
  (Hh : head (split_whitespace part) = Some (lit "prefix:")) :
  ∃ raw r, narrowest (mkCall (lit "Bash") [SCommand command]) cwd home = Some raw
    ∧ rule_parse raw = Some r
    ∧ ∀ subjects cx, any unreadable subjects = false →
        rule_matches r (mkCall (lit "Bash") subjects) MatchAll cx = true.
Proof.
  eexists (wrapped (lit "Bash") (lit "prefix:" ++ lit ":*")), _. split_and!.
  - unfold narrowest, command_rule; simpl. rewrite Hsplit. simpl. unfold split_head; simpl. by rewrite Hh.
  - reflexivity.
  - intros subjects cx Hu. unfold rule_matches; simpl. by rewrite Hu.
Qed.
End coverage.

(** ** Witnesses *)

(** A parser that knows one nested string and reads any other as one command. *)
Definition demo_nested : str := lit "echo $(rm -rf /)".
Definition demo_parse (s : str) : option Tree :=
  let inner := if bool_decide (s = demo_nested)
               then [mkNode (lit "command_substitution") (Some (lit "$(rm -rf /)")) None
                       [mkNode (lit "command") (Some (lit "rm -rf /")) None []]] else [] in
  Some (mkTree (mkNode (lit "program") (Some s) None [mkNode (lit "command") (Some s) None inner]) false).

Definition demo_tools : ShellTools := mkShellTools demo_parse (λ s, Some (split_whitespace s)) (λ _, None).
Definition demo_cx : MatchContext := mkMatchContext (lit "/work") None.
Definition demo_call (command : str) : Call := mkCall (lit "Bash") [SCommand command].
Definition demo_rule (inner : str) : Rule :=
  default (mkRule [] (Exact []) None) (rule_parse (wrapped (lit "Bash") inner)).

Example demo_split : parts (@split demo_tools demo_nested) = [demo_nested; lit "rm -rf /"].
Proof. by vm_compute. Qed.
Example demo_echo_allow :
  @rule_matches demo_tools (demo_rule (lit "echo:*")) (demo_call demo_nested) MatchAll demo_cx = false.
Proof. by vm_compute. Qed.

Lemma split_finds_every_command_witness :
  ∃ tree, demo_parse demo_nested = Some tree ∧ parsed (@split demo_tools demo_nested) = true
    ∧ lit "rm -rf /" ∈ parts (@split demo_tools demo_nested).
Proof.
  eexists. split; [reflexivity|].
  destruct (@split_finds_every_command demo_tools demo_nested _ eq_refl) as [-> H]. split; [reflexivity|].
  apply H. eexists (mkEntry (Some _) 0 (mkNode (lit "command") (Some (lit "rm -rf /")) None [])).
  split_and!.
  - do 3 (eapply inside_child; [vm_compute; left|]). apply inside_self.
  - by left.
  - exists (lit "rm -rf /"). by vm_compute.
Defined.


Lemma deny_reaches_nested_witness :
  @rule_matches demo_tools (demo_rule (lit "rm")) (demo_call demo_nested) MatchAny demo_cx = true.
Proof.
  apply (@deny_reaches_nested demo_tools _ _ demo_cx demo_nested (lit "rm -rf /") (lit "rm")).
  - reflexivity.
  - by left.
  - by left.
  - vm_compute. right. left.
  - by left.
Defined.

Lemma command_scope_is_prefix_witness :
  ∃ raw, @narrowest demo_tools (demo_call (lit "cargo test")) (lit "/work") None = Some raw
    ∧ rule_parse raw = Some (mkRule raw (Exact (lit "Bash")) (Some (Prefix (lit "cargo")))).
Proof.
  apply (@command_scope_is_prefix demo_tools (lit "Bash") (lit "cargo test") (lit "cargo test") (lit "cargo"));
    try (apply (bool_decide_unpack _); by vm_compute); try (by vm_compute).
  apply Forall_forall. repeat constructor.
Defined.

Lemma prefix_word_scope_widens_witness :
  ∃ raw r, @narrowest demo_tools (demo_call (lit "prefix: hello")) (lit "/work") None = Some raw
    ∧ rule_parse raw = Some r
    ∧ @rule_matches demo_tools r (demo_call (lit "rm -rf /")) MatchAll demo_cx = true.
Proof.
  destruct (@prefix_word_scope_widens demo_tools (lit "prefix: hello") (lit "prefix: hello") (lit "/work") None)
    as (raw & r & H1 & H2 & H3); [by vm_compute|by vm_compute|].
  exists raw, r. split_and!; [done..|]. apply H3. by vm_compute.
Defined.
