(* ===== verification/PermDecide.v ===== *)
(** * PermDecide: the policy

    [bingo-permissions/src/decide.rs], [session.rs], [lib.rs] and [command.rs],
    and the interface the kernel's gate sees, [PermissionPolicy] of
    [bingo-sdk/src/policy.rs].  The ladder is a pure function of the request and
    the tables; the policy keeps per-session answers, so its operations thread
    its state. *)

From S2P Require Import Prelude Text Model Interaction PermPath PermRule.

(** ** The interface *)

Record PolicyInput := mkPolicyInput {
  pi_call : ToolCall;
  pi_traits : ToolTraits;
  pi_subjects : list Subject;
  pi_confirm : option str;
  pi_session : SessionId;
  pi_cwd : PathBuf;
}.

(** What a policy promises the gate: answers that read its state, and one
    operation that changes it. *)
Class PermissionPolicy (P : Type) := mkPermissionPolicy {
  pol_decide : P -> PolicyInput -> Decision;
  pol_caution : P -> PolicyInput -> option Caution;
  pol_allows_replacement : P -> PolicyInput -> bool;
  pol_on_verdict : P -> PolicyInput -> Verdict -> P;
  pol_stance : P -> SessionId -> Stance;
}.

(** ** The ladder ([decide.rs]) *)

Record Request := mkRequest {
  rq_call : Call;
  rq_traits : ToolTraits;
  rq_confirm : option str;
  rq_mode : Mode;
  rq_cwd : PathBuf;
  rq_home : option PathBuf;
  rq_extra_dirs : list PathBuf;
}.

Definition rq_context (req : Request) : MatchContext := mkMatchContext (rq_cwd req) (rq_home req).

Definition rq_paths (req : Request) : list str :=
  omap (fun s => match s with
                 | SPath path => Some (normalize_path path (rq_cwd req) (rq_home req))
                 | _ => None
                 end) (rc_subjects (rq_call req)).

Definition rq_roots (req : Request) : list str :=
  normalize_path (rq_cwd req) (rq_cwd req) (rq_home req)
  :: ((fun dir => normalize_path dir (rq_cwd req) (rq_home req)) <$> rq_extra_dirs req).

Definition trusted_read_only (t : ToolTraits) : bool := trusted t && read_only t.

Definition step_confirm (req : Request) : option Decision :=
  (fun detail => Ask (RConfirm detail) None) <$> rq_confirm req.

Definition step_sensitive_path (req : Request) : option Decision :=
  if negb (edit (rq_traits req) || destructive (rq_traits req)) then None
  else
    let? target := find_bool is_sensitive (rq_paths req) in
    Some (Ask (RSafety (lit "writing into a sensitive path: " ++ target)) None).

Definition step_bypass (req : Request) : option Decision :=
  if bool_decide (rq_mode req = BypassPermissions)
  then Some (Allow (RMode (mode_as_str (rq_mode req)))) else None.

Definition step_read_only (req : Request) : option Decision :=
  if trusted_read_only (rq_traits req) then Some (Allow RReadOnly) else None.

Definition trait_default (req : Request) : Decision :=
  if trusted_read_only (rq_traits req) then Allow RReadOnly else Ask RDefault None.

Definition edits_within_reach (req : Request) : bool :=
  if negb (trusted (rq_traits req) && edit (rq_traits req)) then false
  else
    let roots := rq_roots req in
    negb (bool_decide (length (rq_paths req) = 0))
    && all (fun target => any (fun root => is_within target root) roots) (rq_paths req).

Definition accept_edits_default (req : Request) : Decision :=
  if edits_within_reach req then Allow (RMode (mode_as_str AcceptEdits)) else trait_default req.

Definition step_mode_default (req : Request) : Decision :=
  match rq_mode req with
  | AcceptEdits => accept_edits_default req
  | ModeDefault | Plan | DontAsk | BypassPermissions => trait_default req
  end.

Definition refuse (mode : Mode) (decision : Decision) : Decision :=
  match decision with
  | Deny reason => Deny reason
  | _ => Deny (RMode (mode_as_str mode))
  end.

Definition is_ask (d : Decision) : bool := match d with Ask _ _ => true | _ => false end.
Definition is_allow (d : Decision) : bool := match d with Allow _ => true | _ => false end.

Definition limit_by_mode (req : Request) (decision : Decision) : Decision :=
  match rq_mode req with
  | Plan => if negb (trusted_read_only (rq_traits req)) then refuse Plan decision else decision
  | DontAsk => if is_ask decision then refuse DontAsk decision else decision
  | _ => decision
  end.

Definition or_else (o o' : option Decision) : option Decision :=
  match o with Some d => Some d | None => o' end.

Section ladder.
Context `{ShellTools}.

Definition step_deny_rules (req : Request) (rules : Rules) : option Decision :=
  (fun rule => Deny (RRule (rule_raw rule) (Some FromSettings)))
    <$> first_match (r_deny rules) (rq_call req) MatchAny (rq_context req).

Definition step_allow_rules (req : Request) (rules : list Rule) (source : RuleSource)
    : option Decision :=
  (fun rule => Allow (RRule (rule_raw rule) (Some source)))
    <$> first_match rules (rq_call req) MatchAll (rq_context req).

Definition step_ask_rules (req : Request) (rules : Rules) : option Decision :=
  (fun rule => Ask (RRule (rule_raw rule) (Some FromSettings)) None)
    <$> first_match (r_ask rules) (rq_call req) MatchAny (rq_context req).

Definition steps (req : Request) (rules : Rules) (session : list Rule) : Decision :=
  default (step_mode_default req)
    (or_else (step_confirm req)
    (or_else (step_deny_rules req rules)
    (or_else (step_sensitive_path req)
    (or_else (step_ask_rules req rules)
    (or_else (step_read_only req)
    (or_else (step_allow_rules req session FromSession)
    (or_else (step_bypass req)
             (step_allow_rules req (r_allow rules) FromSettings)))))))).

Definition silencing_rule (req : Request) (rules : Rules) : option str :=
  if destructive (rq_traits req)
     || option_is_some (caution_subjects (rc_subjects (rq_call req)))
  then None
  else
    let? candidate := narrowest (rq_call req) (rq_cwd req) (rq_home req) in
    let? rule := rule_parse candidate in
    let widened := mkRules (r_allow rules ++ [rule]) (r_deny rules) (r_ask rules) in
    if is_allow (steps req widened []) then Some candidate else None.

Definition with_scope (req : Request) (rules : Rules) (decision : Decision) : Decision :=
  match decision with
  | Ask reason _ => Ask reason (silencing_rule req rules)
  | _ => decision
  end.

Definition decide_with_session (req : Request) (rules : Rules) (session : list Rule) : Decision :=
  limit_by_mode req (with_scope req rules (steps req rules session)).

Definition decide_request (req : Request) (rules : Rules) : Decision := decide_with_session req rules [].
End ladder.

(** ** What a person decided for one session ([session.rs]) *)

Record Decided := mkDecided { dec_rules : list Rule; dec_mode : option Mode }.
Definition decided_default : Decided := mkDecided [] None.

(** The table behind its lock; a lock a panic broke answers nothing. *)
Record Sessions := mkSessions { by_session : gmap str Decided; poisoned : bool }.
Definition sessions_default : Sessions := mkSessions ∅ false.

Definition entry_of (s : Sessions) (session : SessionId) : Decided :=
  default decided_default (by_session s !! session).

Definition install (s : Sessions) (session : SessionId) (raw : str) : Sessions * bool :=
  match rule_parse raw with
  | None => (s, false)
  | Some rule =>
      if poisoned s then (s, false)
      else
        let d := entry_of s session in
        let rules := if bool_decide (rule ∈ dec_rules d) then dec_rules d else dec_rules d ++ [rule] in
        (mkSessions (<[session := mkDecided rules (dec_mode d)]> (by_session s)) false, true)
  end.

Definition forget (s : Sessions) (session : SessionId) (raw : str) : Sessions * bool :=
  if poisoned s then (s, false)
  else
    match by_session s !! session with
    | None => (s, false)
    | Some d =>
        let kept := retain (fun rule => negb (bool_decide (rule_raw rule = raw))) (dec_rules d) in
        (mkSessions (<[session := mkDecided kept (dec_mode d)]> (by_session s)) false,
         negb (bool_decide (length (dec_rules d) = length kept)))
    end.

Definition read {T} (s : Sessions) (session : SessionId) (f : Decided -> T) : option T :=
  if poisoned s then None else f <$> by_session s !! session.

Definition session_rules (s : Sessions) (session : SessionId) : list Rule :=
  default [] (read s session dec_rules).
Definition session_mode (s : Sessions) (session : SessionId) : option Mode :=
  read s session dec_mode ≫= id.

Definition choose_mode (s : Sessions) (session : SessionId) (mode : Mode) : Sessions :=
  if poisoned s then s
  else mkSessions (<[session := mkDecided (dec_rules (entry_of s session)) (Some mode)]> (by_session s)) false.

Definition change_mode (s : Sessions) (session : SessionId) (configured mode : Mode) (asked : bool)
    : Sessions * bool :=
  if poisoned s then (s, false)
  else
    let d := entry_of s session in
    if negb asked && negb (tightens mode (default configured (dec_mode d)))
    then (mkSessions (<[session := d]> (by_session s)) false, false)
    else (mkSessions (<[session := mkDecided (dec_rules d) (Some mode)]> (by_session s)) false, true).

(** ** The policy ([lib.rs]) *)

Record Permissions := mkPermissions {
  ps_default_mode : option Mode;
  ps_allow : list str;
  ps_deny : list str;
  ps_ask : list str;
  ps_additional_directories : list PathBuf;
}.

Record PermissionsPolicy := mkPermissionsPolicy {
  pp_mode : Mode;
  pp_rules : Rules;
  pp_extra_dirs : list PathBuf;
  pp_home : option PathBuf;
  pp_sessions : Sessions;
}.

Definition set_sessions (p : PermissionsPolicy) (s : Sessions) : PermissionsPolicy :=
  mkPermissionsPolicy (pp_mode p) (pp_rules p) (pp_extra_dirs p) (pp_home p) s.

(** [collect] into a [Result]: the first unreadable line stops it. *)
Fixpoint parse_table (lines : list str) : result str (list Rule) :=
  match lines with
  | [] => Ok []
  | line :: lines =>
      match rule_parse line with
      | None => Err (lit "unreadable permission rule: " ++ line)
      | Some rule => let* rest := parse_table lines in Ok (rule :: rest)
      end
  end.

Definition policy_new (settings : Permissions) (home : option PathBuf) : result str PermissionsPolicy :=
  let* allow := parse_table (ps_allow settings) in
  let* deny := parse_table (ps_deny settings) in
  let* ask := parse_table (ps_ask settings) in
  Ok (mkPermissionsPolicy (default ModeDefault (ps_default_mode settings)) (mkRules allow deny ask)
        (ps_additional_directories settings) home sessions_default).

Definition mode_for (p : PermissionsPolicy) (session : SessionId) : Mode :=
  default (pp_mode p) (session_mode (pp_sessions p) session).

Definition policy_choose_mode (p : PermissionsPolicy) (session : SessionId) (mode : Mode)
    : PermissionsPolicy := set_sessions p (choose_mode (pp_sessions p) session mode).

Definition request (p : PermissionsPolicy) (input : PolicyInput) : Request :=
  mkRequest (mkCall (call_name (pi_call input)) (pi_subjects input)) (pi_traits input)
    (pi_confirm input) (mode_for p (pi_session input)) (pi_cwd input) (pp_home p) (pp_extra_dirs p).

(** [input["key"].is_string()]. *)
Definition field_is_string (v : Value) (key : str) : bool :=
  match value_get key v with Some v => is_string v | None => false end.

Definition allows_replacement (p : PermissionsPolicy) (input : PolicyInput) : bool :=
  trusted (pi_traits input) &&
  (bool_decide (call_name (pi_call input) = lit "Bash")
     && field_is_string (call_input (pi_call input)) (lit "command")
   || bool_decide (call_name (pi_call input) = lit "Edit")
     && field_is_string (call_input (pi_call input)) (lit "new_string")).

Definition on_verdict (p : PermissionsPolicy) (input : PolicyInput) (v : Verdict) : PermissionsPolicy :=
  match v with
  | VerdictAllow (Some rule) => set_sessions p (install (pp_sessions p) (pi_session input) rule).1
  | _ => p
  end.

Definition stance (p : PermissionsPolicy) (session : SessionId) : Stance :=
  mode_stance (mode_for p session).

Section policy.
Context `{ShellTools}.

Definition policy_caution (p : PermissionsPolicy) (input : PolicyInput) : option Caution :=
  caution_subjects (pi_subjects input).

Definition policy_decide (p : PermissionsPolicy) (input : PolicyInput) : Decision :=
  decide_with_session (request p input) (pp_rules p) (session_rules (pp_sessions p) (pi_session input)).

#[export] Instance permissions_policy : PermissionPolicy PermissionsPolicy :=
  mkPermissionPolicy _ policy_decide policy_caution allows_replacement on_verdict stance.
End policy.

(** ** [/permission] ([command.rs]) *)

Inductive CommandOutcome :=
| OutcomeSurface (action : str) (fallback : option str)
| OutcomeApplied (message : option str).

Definition pad_right (width : nat) (s : str) : str := s ++ replicate (width - length s) (chr " ").

Fixpoint join_lines (ls : list str) : str :=
  match ls with
  | [] => []
  | [l] => l
  | l :: ls => l ++ 10%N :: join_lines ls
  end.

Definition listing (p : PermissionsPolicy) (session : SessionId) : str :=
  let width := foldr Nat.max 0 ((fun m => length (mode_as_str m)) <$> all_modes) in
  let modes := join_lines
    ((fun m => lit "  " ++ pad_right width (mode_as_str m) ++ lit "  " ++ mode_meaning m) <$> all_modes) in
  lit "permission mode: " ++ mode_as_str (mode_for p session) ++ [10; 10]%N ++ modes.

(** [run]; [asked] is whether the person's own input started it. *)
Definition permission_run (p : PermissionsPolicy) (args : str) (session : SessionId) (asked : bool)
    : PermissionsPolicy * result KernelError CommandOutcome :=
  let text := trim args in
  if bool_decide (text = [])
  then (p, Ok (OutcomeSurface (lit "PermissionMode") (Some (listing p session))))
  else
    match strip_prefix (lit "forget ") text with
    | Some rule =>
        let rule := trim rule in
        let '(s, forgot) := forget (pp_sessions p) session rule in
        if negb forgot
        then (set_sessions p s, Err (mkKernelError InvalidInput (lit "no session rule: " ++ rule)))
        else (set_sessions p s,
              Ok (OutcomeApplied (Some (lit "forgot: " ++ rule ++ [32; 183; 32]%N ++ lit "asks again"))))
    | None =>
        match mode_from_str text with
        | Err unknown => (p, Err (mkKernelError InvalidInput unknown))
        | Ok mode =>
            let '(s, changed) := change_mode (pp_sessions p) session (pp_mode p) mode asked in
            let p' := set_sessions p s in
            if negb changed
            then (p', Err (mkKernelError PermissionDenied
                             (lit "only the person's own command may widen the permission mode")))
            else (p', Ok (OutcomeApplied
                            (Some (lit "permission mode: " ++ mode_label (mode_for p' session)))))
        end
    end.

(** ** Lemmas: the ladder *)

Section ladder_lemmas.
Context `{ShellTools}.

(** The steps no mode and no allow rule can silence. *)
Definition constraint (req : Request) (rules : Rules) : option Decision :=
  or_else (step_confirm req) (or_else (step_deny_rules req rules)
    (or_else (step_sensitive_path req) (step_ask_rules req rules))).

Lemma or_else_assoc a b c : or_else (or_else a b) c = or_else a (or_else b c).
Proof. by destruct a. Qed.

Lemma steps_constraint req rules session : steps req rules session =
  match constraint req rules with
  | Some d => d
  | None =>
      default (step_mode_default req)
        (or_else (step_read_only req) (or_else (step_allow_rules req session FromSession)
          (or_else (step_bypass req) (step_allow_rules req (r_allow rules) FromSettings))))
  end.
Proof.
  unfold steps, constraint. rewrite <- !or_else_assoc.
  by destruct (or_else (or_else (or_else (step_confirm req) _) _) _).
Qed.

Lemma constraint_not_allow req rules d : constraint req rules = Some d → is_allow d = false.
Proof.
  unfold constraint, or_else, step_confirm, step_deny_rules, step_sensitive_path, step_ask_rules.
  destruct (rq_confirm req); simpl; [by intros [= <-]|].
  destruct (first_match (r_deny rules) _ _ _); simpl; [by intros [= <-]|].
  destruct (negb _); [|destruct (find_bool is_sensitive _); simpl; [by intros [= <-]|]].
  all: destruct (first_match (r_ask rules) _ _ _); simpl; by intros [= <-].
Qed.

(** The constraint reads neither the mode nor the allow tables. *)
Lemma constraint_ext req req' rules rules' :
  rq_call req = rq_call req' → rq_traits req = rq_traits req' → rq_confirm req = rq_confirm req' →
  rq_cwd req = rq_cwd req' → rq_home req = rq_home req' →
  r_deny rules = r_deny rules' → r_ask rules = r_ask rules' →
  constraint req rules = constraint req' rules'.
Proof.
  intros H1 H2 H3 H4 H5 H6 H7. destruct req, req', rules, rules'; simpl in *. by subst.
Qed.

Definition allow_matches (req : Request) (table : list Rule) : bool :=
  any (fun rule => rule_matches rule (rq_call req) MatchAll (rq_context req)) table.

Lemma first_match_any table call mode cx :
  option_is_some (first_match table call mode cx) = any (λ rule, rule_matches rule call mode cx) table.
Proof.
  unfold first_match. destruct (find_bool _ table) as [r|] eqn:E; simpl; symmetry.
  - apply find_bool_Some in E as [Hr Hm]. apply any_true. eauto.
  - apply any_false. by apply find_bool_None.
Qed.

(** The whole meaning of an allow. *)
Definition allowed (req : Request) (rules : Rules) (session : list Rule) : bool :=
  negb (option_is_some (constraint req rules))
  && (trusted_read_only (rq_traits req) || allow_matches req session
      || bool_decide (rq_mode req = BypassPermissions) || allow_matches req (r_allow rules)
      || bool_decide (rq_mode req = AcceptEdits) && edits_within_reach req)
  && (negb (bool_decide (rq_mode req = Plan)) || trusted_read_only (rq_traits req)).

Lemma is_allow_with_scope req rules d : is_allow (with_scope req rules d) = is_allow d.
Proof. by destruct d. Qed.

Lemma is_allow_limit req d : is_allow (limit_by_mode req d) =
  is_allow d && (negb (bool_decide (rq_mode req = Plan)) || trusted_read_only (rq_traits req)).
Proof.
  unfold limit_by_mode. destruct (rq_mode req); simpl; rewrite ?andb_true_r; try done.
  - destruct (trusted_read_only _); simpl; [by rewrite andb_true_r|]. by destruct d.
  - by destruct d.
Qed.

Lemma is_allow_steps req rules session : is_allow (steps req rules session) =
  negb (option_is_some (constraint req rules))
  && (trusted_read_only (rq_traits req) || allow_matches req session
      || bool_decide (rq_mode req = BypassPermissions) || allow_matches req (r_allow rules)
      || bool_decide (rq_mode req = AcceptEdits) && edits_within_reach req).
Proof.
  rewrite steps_constraint. destruct (constraint req rules) as [d|] eqn:Ec; simpl.
  { by eapply constraint_not_allow. }
  unfold allow_matches. rewrite <- !first_match_any.
  unfold step_read_only, step_allow_rules, step_bypass, step_mode_default, accept_edits_default, trait_default.
  destruct (trusted_read_only (rq_traits req)); simpl; [done|].
  destruct (first_match session _ _ _); simpl; [done|].
  case_bool_decide as Hm; simpl; [done|].
  destruct (first_match (r_allow rules) _ _ _); simpl; [done|].
  destruct (rq_mode req); simpl; try done. by destruct (edits_within_reach req).
Qed.

Lemma is_allow_decide req rules session :
  is_allow (decide_with_session req rules session) = allowed req rules session.
Proof.
  unfold decide_with_session, allowed. by rewrite is_allow_limit, is_allow_with_scope, is_allow_steps.
Qed.

Lemma allow_matches_app req l k : allow_matches req (l ++ k) = allow_matches req l || allow_matches req k.
Proof. apply existsb_app. Qed.

Lemma allow_matches_mono req l k : (∀ r, r ∈ l → r ∈ k) → allow_matches req l = true → allow_matches req k = true.
Proof. unfold allow_matches. rewrite !any_true. naive_solver. Qed.

(** Fewer session rules never allow more. *)
Lemma allowed_session_mono req rules l k : (∀ r, r ∈ l → r ∈ k) →
  allowed req rules l = true → allowed req rules k = true.
Proof.
  intros Hs. unfold allowed. rewrite !andb_true_iff, !orb_true_iff. pose proof (allow_matches_mono req l k Hs).
  naive_solver.
Qed.

Definition with_mode (m : Mode) (req : Request) : Request :=
  mkRequest (rq_call req) (rq_traits req) (rq_confirm req) m (rq_cwd req) (rq_home req) (rq_extra_dirs req).

Lemma allowed_mode_mono req rules session m m' : tightens m' m = true →
  allowed (with_mode m' req) rules session = true → allowed (with_mode m req) rules session = true.
Proof.
  intros Ht. unfold allowed.
  rewrite (constraint_ext (with_mode m' req) (with_mode m req) rules rules) by done.
  change (allow_matches (with_mode m' req)) with (allow_matches (with_mode m req)).
  change (edits_within_reach (with_mode m' req)) with (edits_within_reach (with_mode m req)). simpl.
  destruct (option_is_some _); simpl; [done|].
  destruct (trusted_read_only _), (allow_matches _ session), (allow_matches _ (r_allow rules)),
    (edits_within_reach _); destruct m, m'; by vm_compute.
Qed.

(** An offered scope comes from a ladder that it turns into an allow. *)
Lemma silencing_rule_Some req rules c : silencing_rule req rules = Some c →
  ∃ rule, rule_parse c = Some rule
    ∧ is_allow (steps req (mkRules (r_allow rules ++ [rule]) (r_deny rules) (r_ask rules)) []) = true
    ∧ destructive (rq_traits req) = false ∧ caution_subjects (rc_subjects (rq_call req)) = None.
Proof.
  unfold silencing_rule. destruct (_ || _) eqn:E; [done|]. apply orb_false_iff in E as [Hd Hc].
  intros (cand & _ & (rule & Hr & Hs)%bind_Some)%bind_Some.
  destruct (is_allow _) eqn:Ea; simplify_eq. exists rule. split_and!; [done..|].
  by destruct (caution_subjects _).
Qed.

Lemma decide_ask req rules session reason scope :
  decide_with_session req rules session = Ask reason scope →
  is_allow (steps req rules session) = false ∧ scope = silencing_rule req rules
  ∧ rq_mode req ≠ DontAsk ∧ (rq_mode req = Plan → trusted_read_only (rq_traits req) = true).
Proof.
  unfold decide_with_session, limit_by_mode, refuse. intros Hd.
  destruct (steps req rules session) as [r|r|r sc]; simpl in Hd.
  all: destruct (rq_mode req); simpl in Hd; try done; try (by simplify_eq).
  all: destruct (trusted_read_only _); simpl in Hd; by simplify_eq.
Qed.

(** The candidate itself is what silences. *)
Lemma scope_matches req rules session reason c :
  decide_with_session req rules session = Ask reason (Some c) →
  ∃ rule, rule_parse c = Some rule ∧ constraint req rules = None
    ∧ rule_matches rule (rq_call req) MatchAll (rq_context req) = true ∧ rq_mode req ≠ Plan.
Proof.
  intros (Hna & Hs & _ & Hplan)%decide_ask. symmetry in Hs. apply silencing_rule_Some in Hs as (rule & Hr & Ha & _).
  exists rule. split; [done|]. rewrite is_allow_steps in Hna, Ha.
  rewrite (constraint_ext req req _ rules) in Ha by done.
  destruct (constraint req rules); [done|]. simpl in *.
  rewrite allow_matches_app in Ha. split; [done|].
  apply orb_false_iff in Hna as [Hna H5]. apply orb_false_iff in Hna as [Hna H4].
  apply orb_false_iff in Hna as [Hna H3]. apply orb_false_iff in Hna as [H1 H2].
  rewrite H1, H3, H4, H5 in Ha. unfold allow_matches in Ha. simpl in Ha.
  rewrite ?orb_false_r in Ha. split; [done|]. intros Hp. specialize (Hplan Hp). congruence.
Qed.
End ladder_lemmas.

(** ** Lemmas: one session's answers *)

Lemma session_rules_unpoisoned s session : poisoned s = false →
  session_rules s session = dec_rules (entry_of s session).
Proof. intros H. unfold session_rules, read, entry_of. rewrite H. by destruct (by_session s !! session). Qed.

Lemma session_mode_unpoisoned s session : poisoned s = false →
  session_mode s session = dec_mode (entry_of s session).
Proof. intros H. unfold session_mode, read, entry_of. rewrite H. by destruct (by_session s !! session). Qed.

Lemma entry_of_insert s session d session' :
  entry_of (mkSessions (<[session := d]> (by_session s)) false) session' =
  if bool_decide (session = session') then d else entry_of s session'.
Proof.
  unfold entry_of; simpl. case_bool_decide as E; [subst; by rewrite lookup_insert_eq|].
  by rewrite lookup_insert_ne.
Qed.

(** An operation on one session's answers keeps the lock as it was and reads as
    before for every other session. *)
Definition touches_only (session : SessionId) (s s' : Sessions) : Prop :=
  poisoned s' = poisoned s ∧ ∀ other, other ≠ session → entry_of s' other = entry_of s other.

Lemma touches_refl session s : touches_only session s s.
Proof. done. Qed.

Lemma touches_insert session s d : poisoned s = false →
  touches_only session s (mkSessions (<[session := d]> (by_session s)) false).
Proof.
  intros H. split; [done|]. intros other Ho. rewrite entry_of_insert. by rewrite bool_decide_eq_false_2.
Qed.

Lemma install_touches s session raw : touches_only session s (install s session raw).1.
Proof.
  unfold install. destruct (rule_parse raw); [|done]. destruct (poisoned s) eqn:E; [done|].
  by apply touches_insert.
Qed.

Lemma forget_touches s session raw : touches_only session s (forget s session raw).1.
Proof.
  unfold forget. destruct (poisoned s) eqn:E; [done|]. destruct (by_session s !! session); [|done].
  by apply touches_insert.
Qed.

Lemma change_mode_touches s session configured mode asked :
  touches_only session s (change_mode s session configured mode asked).1.
Proof.
  unfold change_mode. destruct (poisoned s) eqn:E; [done|]. destruct (_ && _); by apply touches_insert.
Qed.

Lemma choose_mode_touches s session mode : touches_only session s (choose_mode s session mode).
Proof. unfold choose_mode. destruct (poisoned s) eqn:E; [done|]. by apply touches_insert. Qed.

Lemma touches_reads session s s' other : touches_only session s s' → other ≠ session →
  session_rules s' other = session_rules s other ∧ session_mode s' other = session_mode s other.
Proof.
  intros [Hp He] Ho. specialize (He other Ho). destruct (poisoned s) eqn:E.
  - unfold session_rules, session_mode, read. by rewrite Hp, E.
  - rewrite !session_rules_unpoisoned, !session_mode_unpoisoned by done. by rewrite He.
Qed.

Lemma install_rules s session raw rule : poisoned s = false → rule_parse raw = Some rule →
  (install s session raw).2 = true
  ∧ session_rules (install s session raw).1 session =
      session_rules s session ++ (if bool_decide (rule ∈ session_rules s session) then [] else [rule])
  ∧ session_mode (install s session raw).1 session = session_mode s session.
Proof.
  intros Hp Hr. unfold install. rewrite Hr, Hp. cbn [fst snd].
  rewrite !session_rules_unpoisoned, !session_mode_unpoisoned, entry_of_insert by done.
  rewrite bool_decide_eq_true_2 by done. simpl. split_and!; try done.
  case_bool_decide; [by rewrite app_nil_r|done].
Qed.

Lemma forget_rules s session raw : poisoned s = false →
  session_rules (forget s session raw).1 session =
    retain (λ rule, negb (bool_decide (rule_raw rule = raw))) (session_rules s session)
  ∧ session_mode (forget s session raw).1 session = session_mode s session.
Proof.
  intros Hp. rewrite (session_rules_unpoisoned s), (session_mode_unpoisoned s) by done.
  unfold forget. rewrite Hp. destruct (by_session s !! session) as [d|] eqn:E; cbn [fst].
  - assert (entry_of s session = d) as -> by (unfold entry_of; by rewrite E).
    rewrite session_rules_unpoisoned, session_mode_unpoisoned, entry_of_insert by done.
    by rewrite bool_decide_eq_true_2.
  - assert (entry_of s session = decided_default) as E' by (unfold entry_of; by rewrite E).
    by rewrite session_rules_unpoisoned, session_mode_unpoisoned, E' by done.
Qed.

(** Whatever a command that nobody asked for does to a session, its mode is
    tighter or equal and its rules are among those it had. *)
Definition no_wider (configured : Mode) (session : SessionId) (s s' : Sessions) : Prop :=
  tightens (default configured (session_mode s' session)) (default configured (session_mode s session)) = true
  ∧ ∀ r, r ∈ session_rules s' session → r ∈ session_rules s session.

Lemma tightens_refl m : tightens m m = true.
Proof. by destruct m. Qed.

Lemma no_wider_refl configured session s : no_wider configured session s s.
Proof. split; [apply tightens_refl|done]. Qed.

Lemma no_wider_trans configured session s1 s2 s3 :
  no_wider configured session s1 s2 → no_wider configured session s2 s3 → no_wider configured session s1 s3.
Proof. intros [H1 R1] [H2 R2]. split; [by eapply tightens_trans|auto]. Qed.

Lemma no_wider_touches configured session other s s' :
  touches_only session s s' → no_wider configured session s s' → no_wider configured other s s'.
Proof.
  intros Ht Hn. destruct (decide (other = session)) as [->|Hne]; [done|].
  destruct (touches_reads _ _ _ _ Ht Hne) as [Hr Hm]. unfold no_wider. rewrite Hr, Hm.
  split; [apply tightens_refl|done].
Qed.

Lemma forget_no_wider configured s session raw : no_wider configured session s (forget s session raw).1.
Proof.
  destruct (poisoned s) eqn:Hp; [unfold forget; rewrite Hp; apply no_wider_refl|].
  destruct (forget_rules s session raw Hp) as [Hr Hm]. split.
  - rewrite Hm. apply tightens_refl.
  - rewrite Hr. by intros r [? _]%elem_of_retain.
Qed.

Lemma change_mode_no_wider configured s session mode :
  no_wider configured session s (change_mode s session configured mode false).1.
Proof.
  unfold change_mode. destruct (poisoned s) eqn:Hp; [apply no_wider_refl|].
  destruct (tightens mode _) eqn:Ht; cbn [negb andb fst].
  all: unfold no_wider; rewrite !session_rules_unpoisoned, !session_mode_unpoisoned, entry_of_insert by done.
  all: rewrite bool_decide_eq_true_2 by done; simpl; split; [|done].
  - done.
  - apply tightens_refl.
Qed.

Lemma permission_run_sessions p args session asked :
  ∃ s, (permission_run p args session asked).1 = set_sessions p s
    ∧ touches_only session (pp_sessions p) s
    ∧ (asked = false → no_wider (pp_mode p) session (pp_sessions p) s).
Proof.
  assert (p = set_sessions p (pp_sessions p)) as Hp by by destruct p.
  unfold permission_run. case_bool_decide.
  { exists (pp_sessions p). split; [exact Hp|]. split; [done|intros; apply no_wider_refl]. }
  destruct (strip_prefix _ _) as [rule|].
  - pose proof (forget_touches (pp_sessions p) session (trim rule)) as Ht.
    pose proof (forget_no_wider (pp_mode p) (pp_sessions p) session (trim rule)) as Hn.
    destruct (forget _ _ _) as [s [|]]; simpl in *; by exists s.
  - destruct (mode_from_str _) as [mode|].
    + pose proof (change_mode_touches (pp_sessions p) session (pp_mode p) mode asked) as Ht.
      assert (asked = false → no_wider (pp_mode p) session (pp_sessions p)
        (change_mode (pp_sessions p) session (pp_mode p) mode asked).1) as Hn
        by (intros ->; apply change_mode_no_wider).
      destruct (change_mode _ _ _ _ _) as [s [|]]; simpl in *; by exists s.
    + exists (pp_sessions p). split; [exact Hp|]. split; [done|intros; apply no_wider_refl].
Qed.

(** ** Lemmas: accepting an offered scope *)

Section accepting.
Context `{ShellTools}.

Lemma scope_silences (p : PermissionsPolicy) (input : PolicyInput) (reason : Reason) (c : str) :
  poisoned (pp_sessions p) = false → policy_decide p input = Ask reason (Some c) →
  is_allow (policy_decide (on_verdict p input (VerdictAllow (Some c))) input) = true
  ∧ destructive (pi_traits input) = false ∧ policy_caution p input = None.
Proof.
  intros Hlock Hask.
  pose proof (scope_matches _ _ _ _ _ Hask) as (rule & Hr & Hc & Hm & Hplan).
  pose proof (decide_ask _ _ _ _ _ Hask) as (_ & Hs & _ & _). symmetry in Hs.
  apply silencing_rule_Some in Hs as (_ & _ & _ & Hd & Hca). split; [|done].
  unfold policy_decide. simpl.
  destruct (install_rules (pp_sessions p) (pi_session input) c rule Hlock Hr) as (_ & Hrules & Hmode).
  assert (request (set_sessions p (install (pp_sessions p) (pi_session input) c).1) input = request p input) as ->.
  { unfold request, mode_for; simpl. by rewrite Hmode. }
  rewrite Hrules, is_allow_decide. unfold allowed. rewrite Hc. simpl.
  rewrite (bool_decide_eq_false_2 (mode_for p (pi_session input) = Plan)) by done.
  assert (allow_matches (request p input) (session_rules (pp_sessions p) (pi_session input) ++
    (if bool_decide (rule ∈ session_rules (pp_sessions p) (pi_session input)) then [] else [rule])) = true) as ->.
  { apply any_true. exists rule. split; [|done]. rewrite elem_of_app. case_bool_decide; [by left|right; by left]. }
  rewrite orb_true_r. done.
Qed.


(** A scope is offered only for a call that needs no confirmation. *)
Lemma scope_unconfirmed (p : PermissionsPolicy) (input : PolicyInput) (reason : Reason) (c : str) :
  policy_decide p input = Ask reason (Some c) → pi_confirm input = None.
Proof.
  intros Hask. destruct (scope_matches _ _ _ _ _ Hask) as (_ & _ & Hc & _).
  unfold constraint, step_confirm in Hc. simpl in Hc. by destruct (pi_confirm input).
Qed.
End accepting.

(** ** Claims *)

Section claims.
Context `{ShellTools}.

(** C2: no mode, no allow rule and no session answer runs a call that something
    stands against: an allowed call needs no confirmation of its own, matches no
    deny rule and no ask rule, and, when it writes, touches no sensitive path. *)
Theorem allow_is_unconstrained (req : Request) (rules : Rules) (session : list Rule) (reason : Reason)
  (Ha : decide_with_session req rules session = Allow reason) :
  rq_confirm req = None
  ∧ (∀ r, r ∈ r_deny rules → rule_matches r (rq_call req) MatchAny (rq_context req) = false)
  ∧ (∀ r, r ∈ r_ask rules → rule_matches r (rq_call req) MatchAny (rq_context req) = false)
  ∧ (edit (rq_traits req) || destructive (rq_traits req) = true →
       ∀ path, path ∈ rq_paths req → is_sensitive path = false).
Proof.
  pose proof (is_allow_decide req rules session) as Hd. rewrite Ha in Hd. unfold allowed in Hd. symmetry in Hd.
  apply andb_true_iff in Hd as [[Hc _]%andb_true_iff _].
  destruct (constraint req rules) eqn:E; [done|]. clear Hc. unfold constraint in E.
  unfold or_else, step_confirm, step_deny_rules, step_sensitive_path, step_ask_rules in E.
  destruct (rq_confirm req); [done|]. simpl in E. split; [done|].
  destruct (first_match (r_deny rules) _ _ _) eqn:Ed; [done|]. simpl in E.
  assert ((if negb (edit (rq_traits req) || destructive (rq_traits req)) then None else find_bool is_sensitive (rq_paths req)) = None
    ∧ first_match (r_ask rules) (rq_call req) MatchAny (rq_context req) = None) as [Hs Hk].
  { destruct (negb _); simpl in *; [by destruct (first_match (r_ask rules) _ _ _)|].
    destruct (find_bool is_sensitive _); simpl in *; [done|]. by destruct (first_match (r_ask rules) _ _ _). }
  split_and!; [by apply find_bool_None|by apply find_bool_None|].
  intros Hw. rewrite Hw in Hs. simpl in Hs. by apply find_bool_None.
Qed.

(** tightening the mode only takes away: whatever a call is, if it is
    allowed in a mode that tightens another, the other allows it too. *)
Theorem tightening_only_removes (req : Request) (rules : Rules) (session : list Rule) (m m' : Mode)
  (Ht : tightens m' m = true)
  (Ha : is_allow (decide_with_session (with_mode m' req) rules session) = true) :
  is_allow (decide_with_session (with_mode m req) rules session) = true.
Proof. rewrite is_allow_decide in *. by eapply allowed_mode_mono. Qed.

(** a session scope is only offered when accepting it really silences the
    prompt: after the policy hears the accepted verdict, the very same call is
    allowed, and a call that is destructive or carries a warning is never
    offered one. *)
Theorem offered_scope_silences (p : PermissionsPolicy) (input : PolicyInput) (reason : Reason) (c : str)
  (Hlock : poisoned (pp_sessions p) = false)
  (Hask : policy_decide p input = Ask reason (Some c)) :
  is_allow (policy_decide (on_verdict p input (VerdictAllow (Some c))) input) = true
  ∧ destructive (pi_traits input) = false ∧ policy_caution p input = None.
Proof. by eapply scope_silences. Qed.

(** the two modes that bound the ladder: in plan mode what is not a trusted
    read-only call is denied, whatever the rules say; in don't-ask mode nothing
    is ever put to a person. *)
Theorem bounding_modes (req : Request) (rules : Rules) (session : list Rule) :
  (rq_mode req = Plan → trusted_read_only (rq_traits req) = false →
     ∃ reason, decide_with_session req rules session = Deny reason)
  ∧ (rq_mode req = DontAsk → is_ask (decide_with_session req rules session) = false).
Proof.
  unfold decide_with_session, limit_by_mode. split.
  - intros -> ->. simpl. destruct (with_scope _ _ _); simpl; eauto.
  - intros ->. by destruct (with_scope _ _ _).
Qed.

(** what accept-edits lets through unasked is an edit by a trusted tool that
    names at least one path, every one of which lies, component by component,
    under the working directory or an additional directory. *)
Theorem accepted_edits_stay_inside (req : Request) (rules : Rules) (session : list Rule)
  (Hcwd : is_absolute (rq_cwd req) = true)
  (Ha : decide_with_session req rules session = Allow (RMode (mode_as_str AcceptEdits))) :
  trusted (rq_traits req) = true ∧ edit (rq_traits req) = true ∧ rq_paths req ≠ []
  ∧ ∀ path, path ∈ rq_paths req → ∃ root, root ∈ rq_roots req ∧ components root `prefix_of` components path.
Proof.
  assert (edits_within_reach req = true) as Hr.
  { unfold decide_with_session in Ha. rewrite steps_constraint in Ha.
    destruct (constraint req rules) as [d|] eqn:Ec.
    { apply constraint_not_allow in Ec. apply (f_equal is_allow) in Ha.
      by rewrite is_allow_limit, is_allow_with_scope, Ec in Ha. }
    unfold step_read_only, step_allow_rules, step_bypass, step_mode_default, accept_edits_default, trait_default,
      limit_by_mode in Ha.
    destruct (trusted_read_only _); simpl in Ha; [by destruct (rq_mode req)|].
    destruct (first_match session _ _ _); simpl in Ha; [by destruct (rq_mode req)|].
    destruct (rq_mode req) eqn:Em; simpl in Ha; try done.
    all: destruct (first_match (r_allow rules) _ _ _); simpl in Ha; try done.
    by destruct (edits_within_reach req). }
  unfold edits_within_reach in Hr. destruct (trusted _ && edit _) eqn:Et; [|done].
  apply andb_true_iff in Et as [-> ->]. simpl in Hr. apply andb_true_iff in Hr as [Hne Hall].
  apply negb_true_iff, bool_decide_eq_false in Hne. split_and!; [done|done|by intros E; rewrite E in Hne|].
  intros path Hp. rewrite all_true in Hall. specialize (Hall path Hp).
  change (any (λ root, is_within path root) (rq_roots req) = true) in Hall.
  apply any_true in Hall as (root & Hroot & Hw). exists root. split; [done|].
  assert (∃ raw, path = normalize raw (rq_cwd req) (rq_home req)) as [raw ->].
  { apply list_elem_of_omap in Hp as (s & _ & Hs). destruct s; simplify_eq. by eexists. }
  assert (∃ raw', root = normalize raw' (rq_cwd req) (rq_home req)) as [raw' ->].
  { apply elem_of_cons in Hroot as [->|(d & -> & _)%list_elem_of_fmap]; by eexists. }
  destruct (normalize_shape raw _ (rq_home req) Hcwd) as (ts & Hts & Ht).
  destruct (normalize_shape raw' _ (rq_home req) Hcwd) as (rs & Hrs & Hrr).
  rewrite (proj1 (shape_components ts _ Hts Ht)), (proj1 (shape_components rs _ Hrs Hrr)).
  apply prefix_cons, prefix_fmap_inj; [apply _|]. by apply (within_shaped ts rs) in Hw.
Qed.

(** commands nobody asked for never widen what may run.  After any sequence
    of /permission commands that a model or plugin issued, in any sessions, every
    call the policy allows was allowed before. *)
Theorem unasked_commands_never_widen (p : PermissionsPolicy) (commands : list (str * SessionId))
  (input : PolicyInput)
  (Ha : is_allow (policy_decide
          (foldl (λ p c, (permission_run p c.1 c.2 false).1) p commands) input) = true) :
  is_allow (policy_decide p input) = true.
Proof.
  assert (∃ s, foldl (λ p c, (permission_run p c.1 c.2 false).1) p commands = set_sessions p s
    ∧ no_wider (pp_mode p) (pi_session input) (pp_sessions p) s) as (s & E & Hm & Hrs).
  { clear Ha. induction commands as [|[args session] cs IH] using rev_ind.
    - exists (pp_sessions p). split; [by destruct p|apply no_wider_refl].
    - rewrite foldl_app. simpl. destruct IH as (s & -> & Hn).
      destruct (permission_run_sessions (set_sessions p s) args session false) as (s' & -> & Ht & Hn').
      exists s'. split; [done|]. eapply no_wider_trans; [done|].
      eapply no_wider_touches; [exact Ht|]. by apply Hn'. }
  rewrite E in Ha. unfold policy_decide in *. simpl in Ha. rewrite is_allow_decide in *.
  apply (allowed_session_mono _ _ _ _ Hrs) in Ha.
  change (request p input) with (with_mode (mode_for p (pi_session input)) (request p input)).
  eapply allowed_mode_mono; [exact Hm|]. exact Ha.
Qed.

(** a session's answers are its own: what one session installs, forgets or
    chooses, by a verdict or by /permission, changes no decision and no stance
    of another session. *)
Theorem sessions_are_isolated (p : PermissionsPolicy) (input other : PolicyInput) (v : Verdict)
  (args : str) (asked : bool) (Hne : pi_session other ≠ pi_session input) :
  policy_decide (on_verdict p input v) other = policy_decide p other
  ∧ policy_decide (permission_run p args (pi_session input) asked).1 other = policy_decide p other
  ∧ stance (permission_run p args (pi_session input) asked).1 (pi_session other) = stance p (pi_session other).
Proof.
  assert (∀ s, touches_only (pi_session input) (pp_sessions p) s →
    policy_decide (set_sessions p s) other = policy_decide p other
    ∧ stance (set_sessions p s) (pi_session other) = stance p (pi_session other)) as Hs.
  { intros s Ht. destruct (touches_reads _ _ _ _ Ht Hne) as [Hr Hm].
    unfold policy_decide, stance, request, mode_for. simpl. by rewrite Hr, Hm. }
  destruct (permission_run_sessions p args (pi_session input) asked) as (s & -> & Ht & _).
  destruct (Hs s Ht) as [-> ->]. split_and!; try done.
  destruct v as [[c|]|]; simpl; try done. apply Hs, install_touches.
Qed.
End claims.

Lemma parse_table_spec lines :
  match parse_table lines with
  | Ok rules => Forall2 (λ line r, rule_parse line = Some r) lines rules
  | Err msg => ∃ line, line ∈ lines ∧ rule_parse line = None ∧ msg = lit "unreadable permission rule: " ++ line
  end.
Proof.
  induction lines as [|line lines IH]; simpl; [constructor|].
  destruct (rule_parse line) as [rule|] eqn:E; [|exists line; split_and!; [by left|done..]].
  destruct (parse_table lines) as [rest|msg]; simpl; [by constructor|].
  destruct IH as (l & Hl & ? & ?). exists l. split_and!; [by right|done..].
Qed.

(** no rule line is dropped in silence.  Building the policy either keeps
    every line of the three tables, each parsed, in order, or fails naming a
    line that does not parse. *)
Theorem startup_keeps_every_rule (settings : Permissions) (home : option PathBuf) :
  match policy_new settings home with
  | Ok p =>
      Forall2 (λ line r, rule_parse line = Some r) (ps_allow settings) (r_allow (pp_rules p))
      ∧ Forall2 (λ line r, rule_parse line = Some r) (ps_deny settings) (r_deny (pp_rules p))
      ∧ Forall2 (λ line r, rule_parse line = Some r) (ps_ask settings) (r_ask (pp_rules p))
  | Err msg =>
      ∃ line, line ∈ ps_allow settings ++ ps_deny settings ++ ps_ask settings
        ∧ rule_parse line = None ∧ msg = lit "unreadable permission rule: " ++ line
  end.
Proof.
  unfold policy_new.
  pose proof (parse_table_spec (ps_allow settings)) as Ha. pose proof (parse_table_spec (ps_deny settings)) as Hd.
  pose proof (parse_table_spec (ps_ask settings)) as Hk.
  destruct (parse_table (ps_allow settings)) as [allow|m]; simpl.
  2: { destruct Ha as (l & ? & ? & ?). exists l. rewrite !elem_of_app. auto. }
  destruct (parse_table (ps_deny settings)) as [deny|m]; simpl.
  2: { destruct Hd as (l & ? & ? & ?). exists l. rewrite !elem_of_app. auto. }
  destruct (parse_table (ps_ask settings)) as [ask|m]; simpl; [by auto|].
  destruct Hk as (l & ? & ? & ?). exists l. rewrite !elem_of_app. auto.
Qed.

(** a session rule can be taken back by the text it is shown as: installing
    a rule the session does not have and then forgetting it by that text
    succeeds and leaves the session's rules and mode as they were. *)
Theorem forget_undoes_install (s : Sessions) (session : SessionId) (raw : str) (rule : Rule)
  (Hlock : poisoned s = false) (Hr : rule_parse raw = Some rule)
  (Hnew : ∀ r, r ∈ session_rules s session → rule_raw r ≠ rule_raw rule) :
  let s1 := (install s session raw).1 in
  let s2 := (forget s1 session (rule_raw rule)).1 in
  rule ∈ session_rules s1 session
  ∧ (forget s1 session (rule_raw rule)).2 = true
  ∧ session_rules s2 session = session_rules s session ∧ session_mode s2 session = session_mode s session.
Proof.
  cbv zeta. destruct (install_rules s session raw rule Hlock Hr) as (_ & Hi & Him).
  set (s1 := (install s session raw).1) in *.
  assert (poisoned s1 = false) as Hl1 by (unfold s1; rewrite (proj1 (install_touches s session raw)); done).
  rewrite bool_decide_eq_false_2 in Hi by (intros Hin; by eapply Hnew).
  destruct (forget_rules s1 session (rule_raw rule) Hl1) as [Hf Hfm].
  assert (retain (λ r, negb (bool_decide (rule_raw r = rule_raw rule))) (session_rules s1 session)
          = session_rules s session) as Hret.
  { rewrite Hi, retain_app. simpl. rewrite bool_decide_eq_true_2 by done. simpl. rewrite app_nil_r.
    apply retain_all. intros r Hin. apply negb_true_iff, bool_decide_eq_false. auto. }
  split_and!.
  - rewrite Hi, elem_of_app. right. by left.
  - unfold forget. rewrite Hl1. rewrite session_rules_unpoisoned in Hret, Hi by done.
    unfold entry_of in Hret, Hi. destruct (by_session s1 !! session) as [d|]; simpl in *.
    + rewrite Hret, Hi, length_app. simpl. apply negb_true_iff, bool_decide_eq_false. lia.
    + by destruct (session_rules s session).
  - by rewrite Hf, Hret.
  - by rewrite Hfm, Him.
Qed.

(** ** Witnesses *)

Definition demo_traits (is_edit : bool) : ToolTraits := mkToolTraits false false false false is_edit LimitGlobal true.
Definition demo_request (mode : Mode) (is_edit : bool) (subjects : list Subject) : Request :=
  mkRequest (mkCall (lit "Bash") subjects) (demo_traits is_edit) None mode (lit "/work") None [].
Definition demo_rules : Rules := mkRules [demo_rule (lit "ls:*")] [demo_rule (lit "rm")] [].

Definition demo_policy : PermissionsPolicy :=
  mkPermissionsPolicy ModeDefault demo_rules [] None sessions_default.
Definition demo_input (session command : str) : PolicyInput :=
  mkPolicyInput (mkToolCall (lit "c1") (lit "Bash") VNull) (demo_traits false) [SCommand command] None
    session (lit "/work").

Lemma allow_is_unconstrained_witness :
  @decide_with_session demo_tools (demo_request ModeDefault false [SCommand (lit "ls -l")]) demo_rules []
    = Allow (RRule (lit "Bash(ls:*)") (Some FromSettings))
  ∧ @rule_matches demo_tools (demo_rule (lit "rm")) (mkCall (lit "Bash") [SCommand (lit "ls -l")]) MatchAny demo_cx = false.
Proof.
  assert (@decide_with_session demo_tools (demo_request ModeDefault false [SCommand (lit "ls -l")]) demo_rules []
    = Allow (RRule (lit "Bash(ls:*)") (Some FromSettings))) as E by by vm_compute.
  split; [exact E|].
  destruct (@allow_is_unconstrained demo_tools _ _ _ _ E) as (_ & Hd & _). apply Hd. by left.
Defined.

Lemma tightening_only_removes_witness :
  is_allow (@decide_with_session demo_tools
    (with_mode BypassPermissions (demo_request Plan false [SCommand (lit "ls")])) demo_rules []) = true.
Proof.
  apply (@tightening_only_removes demo_tools (demo_request Plan false [SCommand (lit "ls")]) demo_rules []
           BypassPermissions ModeDefault); by vm_compute.
Defined.

Lemma offered_scope_silences_witness :
  @policy_decide demo_tools demo_policy (demo_input (lit "s") (lit "cargo test")) = Ask RDefault (Some (lit "Bash(cargo:*)"))
  ∧ is_allow (@policy_decide demo_tools
      (on_verdict demo_policy (demo_input (lit "s") (lit "cargo test")) (VerdictAllow (Some (lit "Bash(cargo:*)"))))
      (demo_input (lit "s") (lit "cargo test"))) = true.
Proof.
  assert (@policy_decide demo_tools demo_policy (demo_input (lit "s") (lit "cargo test"))
    = Ask RDefault (Some (lit "Bash(cargo:*)"))) as E by by vm_compute.
  split; [exact E|].
  exact (proj1 (@offered_scope_silences demo_tools demo_policy _ _ _ eq_refl E)).
Defined.

Lemma bounding_modes_witness :
  ∃ reason, @decide_with_session demo_tools (demo_request Plan false [SCommand (lit "ls")]) demo_rules [] = Deny reason.
Proof.
  by apply (proj1 (@bounding_modes demo_tools (demo_request Plan false [SCommand (lit "ls")]) demo_rules [])).
Defined.

Lemma accepted_edits_stay_inside_witness :
  ∃ root, root ∈ rq_roots (demo_request AcceptEdits true [SPath (lit "src/a")])
    ∧ components root `prefix_of` components (lit "/work/src/a").
Proof.
  destruct (@accepted_edits_stay_inside demo_tools (demo_request AcceptEdits true [SPath (lit "src/a")]) demo_rules [])
    as (_ & _ & _ & H); [by vm_compute|by vm_compute|].
  apply H. vm_compute. left.
Defined.

Lemma unasked_commands_never_widen_witness :
  is_allow (@policy_decide demo_tools demo_policy (demo_input (lit "s") (lit "ls"))) = true.
Proof.
  apply (@unasked_commands_never_widen demo_tools demo_policy
    [(lit "dontAsk", lit "s"); (lit "bypassPermissions", lit "s"); (lit "forget Bash(x)", lit "s")]).
  by vm_compute.
Defined.

Lemma sessions_are_isolated_witness :
  @policy_decide demo_tools (on_verdict demo_policy (demo_input (lit "s") (lit "cargo x"))
      (VerdictAllow (Some (lit "Bash(cargo:*)")))) (demo_input (lit "t") (lit "cargo x"))
  = Ask RDefault (Some (lit "Bash(cargo:*)")).
Proof.
  destruct (@sessions_are_isolated demo_tools demo_policy (demo_input (lit "s") (lit "cargo x"))
    (demo_input (lit "t") (lit "cargo x")) (VerdictAllow (Some (lit "Bash(cargo:*)"))) [] false) as [-> _].
  - done.
  - by vm_compute.
Defined.

Lemma forget_undoes_install_witness :
  (forget (install sessions_default (lit "s") (lit "Bash(ls:*)")).1 (lit "s") (lit "Bash(ls:*)")).2 = true.
Proof.
  refine (proj1 (proj2 (forget_undoes_install sessions_default (lit "s") (lit "Bash(ls:*)")
    (demo_rule (lit "ls:*")) eq_refl eq_refl _))).
  intros r. change (session_rules sessions_default (lit "s")) with ([] : list Rule). by intros []%elem_of_nil.
Defined.
