(* ===== verification/Chain.v ===== *)
(** * Chain: ordered dispatch with the kernel as its last link

    [bingo-core/src/chain/mod.rs], [chain/tier.rs], [chain/ordering.rs] and the
    tool-check point of [chain/tool.rs].  A link is handed the input and a
    continuation it may call at most once; what it does is an arbitrary
    [Behaviour].  The kernel's own answer is behind a lock that is emptied when
    it is run: the model threads what it was given.  The deadline an outside link
    is held to only ever replaces its answer by an error, which a behaviour can
    also do. *)

From S2P Require Import Prelude Text Model Interaction PermPath PermRule PermDecide.

(** ** Trust tiers ([intercept.rs], [tier.rs]) *)

Inductive Tier := Tighten | Rewrite | Full.

#[export] Instance Tier_eq_dec : EqDecision Tier.
Proof. solve_decision. Defined.

Inductive Act := ActObserve | ActRewrite | ActAnswer | ActAllow.

Record Acts := mkActs { acts_deny : bool; acts_rewrite : bool; acts_answer : bool }.

(** A catalogue entry, by name and what it lets links do. *)
Record CatalogueEntry := mkCatalogueEntry { ce_name : str; ce_acts : Acts }.

Definition wrap_acts : Acts := mkActs true true true.
Definition pass_acts : Acts := mkActs true true false.
Definition tool_check : CatalogueEntry := mkCatalogueEntry (lit "tool.check") pass_acts.
Definition tool_call : CatalogueEntry := mkCatalogueEntry (lit "tool.call") wrap_acts.

Definition tighten_points : list str := [lit "prompt.submit"; lit "tool.check"; lit "plugin.register"].

Definition admits (tier : Tier) (point : CatalogueEntry) (act : Act) : bool :=
  match tier, act with
  | _, ActObserve => true
  | Full, _ => true
  | _, ActAllow => false
  | Tighten, _ => bool_decide (ce_name point ∈ tighten_points)
  | Rewrite, ActRewrite => acts_rewrite (ce_acts point)
  | Rewrite, ActAnswer => acts_answer (ce_acts point)
  end.

Definition decision_rank (d : Decision) : nat :=
  match d with Allow _ => 0 | Ask _ _ => 1 | Deny _ => 2 end.
Definition decision_tightens (before after : Decision) : bool :=
  (decision_rank before <=? decision_rank after)%nat.

(** ** Links *)

Section chain.
Context {I O : Type}.

(** What differs from point to point ([Point]); equality is the types' own. *)
Record Point := mkPoint {
  pt_entry : CatalogueEntry;
  pt_input_eq : I -> I -> bool;
  pt_output_eq : O -> O -> bool;
  pt_pinned : I -> I -> bool;
  pt_accepts : Tier -> option O -> O -> bool;
  pt_needs_baseline : Tier -> O -> bool;
}.

(** A link answers on its own, or passes an input on and answers with what came
    back in hand. *)
Inductive Behaviour :=
| Answers (r : result KernelError O)
| Continues (i : I) (k : result KernelError O -> result KernelError O).

Record Link := mkLink {
  ln_id : str;
  ln_external : bool;
  ln_builtin : bool;
  ln_tier : Tier;
  ln_applies : I -> bool;
  ln_run : I -> Behaviour;
}.

Inductive Note :=
| Skipped (link : str) (reason : str)
| Receipt (link : str).

Context (P : Point) (kernel : I -> result KernelError O) (consumed : result KernelError O).

(** What the continuation hands on, and whether the link overstepped. *)
Definition handed (link : Link) (original input : I) : I * bool * bool :=
  let changed := negb (pt_input_eq P input original) in
  let invalid := negb (pt_pinned P original input)
                 || changed && negb (admits (ln_tier link) (pt_entry P) ActRewrite) in
  (if invalid then original else input, invalid, changed && negb invalid).

Definition is_tool_call : bool := bool_decide (ce_name (pt_entry P) = ce_name tool_call).

Definition err_of (r : result KernelError O) : option KernelError :=
  match r with Ok _ => None | Err e => Some e end.
Definition ok_of (r : result KernelError O) : option O :=
  match r with Ok o => Some o | Err _ => None end.

Definition same_output (a b : option O) : bool :=
  match a, b with Some a, Some b => pt_output_eq P a b | None, None => true | _, _ => false end.

Definition accepted (link : Link) (answer : result KernelError O)
    (baseline : option (result KernelError O)) (rewritten : bool) : bool * list Note :=
  match answer with
  | Ok output =>
      let before := let? r := baseline in ok_of r in
      if negb (pt_accepts P (ln_tier link) before output)
      then (false, [Skipped (ln_id link) (lit "answer exceeds its trust tier")])
      else (true, if negb rewritten && is_tool_call && negb (same_output before (Some output))
                  then [Receipt (ln_id link)] else [])
  | Err error =>
      if match baseline with Some r => bool_decide (err_of r = Some error) | None => false end
      then (true, [])
      else if bool_decide (ke_code error = PermissionDenied) && acts_deny (ce_acts (pt_entry P))
              && negb (option_is_some baseline)
      then (true, [])
      else (false, [Skipped (ln_id link) (ke_message error)])
  end.

(** One run: the answer, what the kernel was given if it was run, and the notes. *)
Abbreviation Outcome := (result KernelError O * option I * list Note)%type (only parsing).

Definition wants_baseline (link : Link) (answer : result KernelError O) : bool :=
  match answer with Ok output => pt_needs_baseline P (ln_tier link) output | Err _ => false end.

(** [run_at] and [invoke]. *)
Fixpoint run_at (links : list Link) (seen : option I) (input : I) : Outcome :=
  match links with
  | [] => match seen with Some _ => (consumed, seen, []) | None => (kernel input, Some input, []) end
  | link :: rest =>
      if negb (ln_applies link input) then run_at rest seen input
      else
        let '(answer, called, invalid, rewritten, seen1, notes1) :=
          match ln_run link input with
          | Answers r => (r, None, false, false, seen, [])
          | Continues i k =>
              let '(i', invalid, rewritten) := handed link input i in
              let '(r, seen', notes) := run_at rest seen i' in
              (k r, Some r, invalid, rewritten, seen',
               (if invalid : bool then [Skipped (ln_id link) (lit "input rewrite exceeds its authority")]
                else []) ++ notes)
          end in
        let '(baseline, seen2, notes2) :=
          match called with
          | Some r => (Some r, seen1, [])
          | None =>
              if wants_baseline link answer
              then let '(r, seen', notes) := run_at rest seen1 input in (Some r, seen', notes)
              else (None, seen1, [])
          end in
        let receipts := if (rewritten : bool) && is_tool_call then [Receipt (ln_id link)] else [] in
        let '(ok, notes3) := if (invalid : bool) then (false, []) else accepted link answer baseline rewritten in
        let notes := notes1 ++ notes2 ++ receipts ++ notes3 in
        if (ok : bool) then (answer, seen2, notes)
        else
          match baseline with
          | Some r => (r, seen2, notes)
          | None => let '(r, seen3, notes4) := run_at rest seen2 input in (r, seen3, notes ++ notes4)
          end
  end.

Definition run (links : list Link) (input : I) : Outcome :=
  match links with
  | [] => (kernel input, Some input, [])
  | _ => run_at links None input
  end.
End chain.
Arguments Point : clear implicits.
Arguments Behaviour : clear implicits.
Arguments Link : clear implicits.

(** ** Ordering ([ordering.rs]) *)

Definition link_rank {I O} (l : Link I O) : nat :=
  if ln_external l then 0 else if ln_builtin l then 2 else 1.

(** [sort_by_key] is stable: the links of each rank, in rank order. *)
Definition ordered_links {I O} (links : list (Link I O)) : list (Link I O) :=
  retain (fun l => link_rank l =? 0)%nat links ++ retain (fun l => link_rank l =? 1)%nat links
  ++ retain (fun l => link_rank l =? 2)%nat links.

(** ** The tool-check point ([tool.rs]) *)

Record CheckResult := mkCheckResult { ck_call : ToolCall; ck_decision : Decision }.

(** [PartialEq] of JSON values: objects compare as maps, whatever the order of
    their fields; the two zeros of a float are equal, and JSON has no NaN. *)
Fixpoint value_eqb (a b : Value) {struct a} : bool :=
  match a, b with
  | VNull, VNull => true
  | VBool x, VBool y => Bool.eqb x y
  | VNumber (PosInt x), VNumber (PosInt y) => N.eqb x y
  | VNumber (NegInt x), VNumber (NegInt y) => Z.eqb x y
  | VNumber (Float x), VNumber (Float y) =>
      N.eqb x y || N.eqb (x `mod` 2 ^ 63) 0 && N.eqb (y `mod` 2 ^ 63) 0
  | VString x, VString y => bool_decide (x = y)
  | VArray x, VArray y =>
      (fix arrays (x y : list Value) : bool :=
         match x, y with
         | [], [] => true
         | v :: x, w :: y => value_eqb v w && arrays x y
         | _, _ => false
         end) x y
  | VObject x, VObject y =>
      bool_decide (length x = length y) &&
      (fix fields (x : list (str * Value)) : bool :=
         match x with
         | [] => true
         | (k, v) :: x =>
             match map_get k y with Some w => value_eqb v w | None => false end && fields x
         end) x
  | _, _ => false
  end.

Definition call_eqb (a b : ToolCall) : bool :=
  bool_decide (call_id a = call_id b) && bool_decide (call_name a = call_name b)
  && value_eqb (call_input a) (call_input b).

#[export] Instance RuleSource_eq_dec : EqDecision RuleSource.
Proof. solve_decision. Defined.
#[export] Instance Reason_eq_dec : EqDecision Reason.
Proof. solve_decision. Defined.
#[export] Instance Decision_eq_dec : EqDecision Decision.
Proof. solve_decision. Defined.

Definition check_eqb (a b : CheckResult) : bool :=
  call_eqb (ck_call a) (ck_call b) && bool_decide (ck_decision a = ck_decision b).

Definition call_pinned (before after : ToolCall) : bool :=
  bool_decide (call_name before = call_name after) && bool_decide (call_id before = call_id after).

Definition is_deny (d : Decision) : bool := match d with Deny _ => true | _ => false end.

Definition check_accepts (tier : Tier) (before : option CheckResult) (after : CheckResult) : bool :=
  bool_decide (tier = Full)
  || negb (option_is_some before) && is_deny (ck_decision after)
  || match before with
     | Some b => call_eqb (ck_call b) (ck_call after) && decision_tightens (ck_decision b) (ck_decision after)
     | None => false
     end.

Definition check_needs_baseline (tier : Tier) (output : CheckResult) : bool :=
  negb (bool_decide (tier = Full)) && negb (is_deny (ck_decision output)).

Definition check_point : Point ToolCall CheckResult :=
  mkPoint tool_check call_eqb check_eqb call_pinned check_accepts check_needs_baseline.

(** ** Lemmas *)

Section chain_lemmas.
Context {I O : Type} (P : Point I O) (kernel : I → result KernelError O).

(** The outcomes of one link, as cases: its own answer, or the rest's. *)
Lemma run_at_cons c link rest input :
  let go := run_at P kernel c rest None in
  let r := (run_at P kernel c (link :: rest) None input).1.1 in
  (ln_applies link input = false ∧ r = (go input).1.1)
  ∨ (∃ a, ln_run link input = Answers a ∧ wants_baseline P link a = false
       ∧ (r = a ∧ (accepted P link a None false).1 = true ∨ r = (go input).1.1))
  ∨ (∃ a, ln_run link input = Answers a ∧ wants_baseline P link a = true
       ∧ (r = a ∧ (accepted P link a (Some (go input).1.1) false).1 = true ∨ r = (go input).1.1))
  ∨ (∃ i k, ln_run link input = Continues i k
       ∧ let '(i', invalid, rewritten) := handed P link input i in
         r = (go i').1.1
         ∨ r = k (go i').1.1 ∧ invalid = false
           ∧ (accepted P link (k (go i').1.1) (Some (go i').1.1) rewritten).1 = true).
Proof.
  cbv zeta. cbn [run_at]. destruct (ln_applies link input); cbn [negb]; [right|by left].
  destruct (ln_run link input) as [a|i k].
  - destruct (wants_baseline P link a) eqn:Ew.
    + right; left. exists a. split_and!; [done..|].
      destruct (run_at P kernel c rest None input) as [[r sp] ns]; simpl.
      destruct (accepted P link a (Some r) false) as [ok ns']; simpl. destruct ok; auto.
    + left. exists a. split_and!; [done..|].
      destruct (accepted P link a None false) as [ok ns'] eqn:Ea; simpl. destruct ok; [by auto|].
      destruct (run_at P kernel c rest None input) as [[r sp] ns]. by right.
  - right; right. exists i, k. split; [done|]. destruct (handed P link input i) as [[i' invalid] rewritten].
    destruct (run_at P kernel c rest None i') as [[r sp] ns]; simpl.
    destruct invalid; simpl; [by left|].
    destruct (accepted P link (k r) (Some r) rewritten) as [ok ns']; simpl. destruct ok; auto.
Qed.

(** A run that starts with the kernel unspent never meets it spent. *)
Lemma run_at_consumed c c' links input : run_at P kernel c links None input = run_at P kernel c' links None input.
Proof.
  revert input. induction links as [|link rest IH]; intros input; cbn [run_at]; [done|].
  destruct (negb _); [apply IH|]. destruct (ln_run link input) as [a|i k].
  - cbv beta iota zeta. destruct (wants_baseline P link a); cbv beta iota; rewrite <- (IH input); [|done].
    by destruct (run_at P kernel c rest None input) as [[r sp] ns].
  - destruct (handed P link input i) as [[i' invalid] rewritten]. cbv beta iota. rewrite <- (IH i').
    by destruct (run_at P kernel c rest None i') as [[r sp] ns].
Qed.
End chain_lemmas.

Lemma handed_check {O} (P : Point ToolCall O) link original input :
  (∀ a b, pt_pinned P a b = call_pinned a b) →
  call_pinned original (handed P link original input).1.1 = true.
Proof.
  intros Hp. unfold handed; simpl. rewrite Hp. destruct (call_pinned original input) eqn:E; simpl.
  - destruct (_ && _); [|done]. unfold call_pinned. by rewrite !bool_decide_eq_true_2.
  - unfold call_pinned. by rewrite !bool_decide_eq_true_2.
Qed.

Lemma call_pinned_spec a b : call_pinned a b = true ↔ call_name a = call_name b ∧ call_id a = call_id b.
Proof. unfold call_pinned. by rewrite andb_true_iff, !bool_decide_eq_true. Qed.

(** Calls that equality relates, through any number of links. *)
Definition same_call : relation ToolCall := rtc (λ a b, call_eqb a b = true).

(** What stands between a check's outcome and the kernel's own answer. *)
Definition kernel_backed (kernel : ToolCall → result KernelError CheckResult) (input : ToolCall)
    (out : CheckResult) : Prop :=
  is_deny (ck_decision out) = true
  ∨ ∃ input' base, kernel input' = Ok base ∧ call_pinned input input' = true
      ∧ same_call (ck_call base) (ck_call out)
      ∧ decision_rank (ck_decision base) ≤ decision_rank (ck_decision out).

Lemma accepted_backed kernel link input a base rewritten out :
  ln_tier link ≠ Full →
  (accepted check_point link a (Some base) rewritten).1 = true → a = Ok out →
  (∀ b, base = Ok b → kernel_backed kernel input b) → kernel_backed kernel input out.
Proof.
  intros Ht Ha -> Hb. unfold accepted in Ha. simpl in Ha.
  destruct (check_accepts (ln_tier link) (ok_of base) out) eqn:E; [|done]. unfold check_accepts in E.
  rewrite bool_decide_eq_false_2 in E by done. simpl in E. destruct base as [b|e]; simpl in E.
  - apply andb_true_iff in E as [Hc Hd]. apply Nat.leb_le in Hd.
    destruct (Hb b eq_refl) as [Hdeny|(i' & base & Hk & Hp & Hs & Hr)].
    + left. destruct (ck_decision b); try done. by destruct (ck_decision out); simpl in *; try lia.
    + right. exists i', base. split_and!; [done..| |lia]. by eapply rtc_r.
  - rewrite orb_false_r in E. by left.
Qed.

Lemma kernel_backed_pinned kernel a b out : call_pinned a b = true →
  kernel_backed kernel b out → kernel_backed kernel a out.
Proof.
  intros Hab [Hd|(i & base & Hk & Hp & Hs & Hr)]; [by left|]. right. exists i, base. split_and!; [done| |done..].
  apply call_pinned_spec in Hab, Hp.
  apply call_pinned_spec. destruct Hab, Hp. split; congruence.
Qed.

Lemma run_check_backed c kernel links input out : Forall (λ l, ln_tier l ≠ Full) links →
  (run_at check_point kernel c links None input).1.1 = Ok out → kernel_backed kernel input out.
Proof.
  revert input out. induction links as [|link rest IH]; intros input out Hl.
  { simpl. intros Hk. right. exists input, out. split_and!; [done| |by apply rtc_refl|done].
    by apply call_pinned_spec. }
  apply Forall_cons in Hl as [Ht Hl].
  destruct (run_at_cons check_point kernel c link rest input)
    as [[_ ->]|[(a & _ & Hw & [[-> Ha]| ->])|[(a & _ & Hw & [[-> Ha]| ->])|(i & k & _ & H)]]]; try by apply IH.
  - intros ->. unfold wants_baseline in Hw. simpl in Hw. unfold check_needs_baseline in Hw.
    rewrite bool_decide_eq_false_2 in Hw by done. simpl in Hw. left. by apply negb_false_iff.
  - intros E. eapply accepted_backed; [done|exact Ha|exact E|]. intros b Hb. by apply IH.
  - pose proof (handed_check check_point link input i (λ _ _, eq_refl)) as Hp.
    destruct (handed check_point link input i) as [[i' invalid] rewritten]. simpl in Hp.
    destruct H as [->|(-> & _ & Ha)]; intros E.
    + eapply kernel_backed_pinned; [exact Hp|]. by apply IH.
    + eapply accepted_backed; [done|exact Ha|exact E|]. intros b Hb.
      eapply kernel_backed_pinned; [exact Hp|]. by apply IH.
Qed.

(** ** Claims *)

(** the kernel's own step runs at most once per dispatch: whatever the links
    do, a dispatch never reaches the continuation a second time, so its result
    does not depend on what a second run would answer. *)
Theorem kernel_runs_at_most_once {I O} (P : Point I O) (kernel : I → result KernelError O)
    (consumed consumed' : result KernelError O) (links : list (Link I O)) (input : I) :
  run P kernel consumed links input = run P kernel consumed' links input.
Proof. unfold run. destruct links as [|l ls]; [done|]. apply run_at_consumed. Qed.

(** C38: links without full trust can tighten a permission check and never loosen
    it.  When the check comes back with anything but a denial, the kernel itself
    judged a call of the same name and id, the call that comes back equals the
    one it judged, and its decision was no stricter than the one that comes back:
    so an allow is the kernel's allow. *)
Theorem links_only_tighten (kernel : ToolCall → result KernelError CheckResult)
    (consumed : result KernelError CheckResult) (links : list (Link ToolCall CheckResult))
    (input : ToolCall) (out : CheckResult)
  (Htier : Forall (λ l, ln_tier l ≠ Full) links)
  (Hrun : (run check_point kernel consumed links input).1.1 = Ok out)
  (Hdeny : is_deny (ck_decision out) = false) :
  ∃ input' base, kernel input' = Ok base
    ∧ call_name input' = call_name input ∧ call_id input' = call_id input
    ∧ same_call (ck_call base) (ck_call out)
    ∧ decision_rank (ck_decision base) ≤ decision_rank (ck_decision out)
    ∧ (is_allow (ck_decision out) = true → is_allow (ck_decision base) = true).
Proof.
  assert (kernel_backed kernel input out) as [Hd|(i & base & Hk & Hp & Hs & Hr)].
  { unfold run in Hrun. destruct links as [|l ls]; [|by eapply run_check_backed].
    apply (run_check_backed consumed kernel [] input out); [constructor|done]. }
  - congruence.
  - apply call_pinned_spec in Hp as [? ?]. exists i, base. split_and!; try done.
    destruct (ck_decision out), (ck_decision base); simpl in *; try done; lia.
Qed.

(** ** Witnesses *)

Definition demo_toolcall : ToolCall := mkToolCall (lit "c1") (lit "Bash") (VObject [(lit "command", VString (lit "ls"))]).

(** A link that asks where the kernel allowed, and one that would allow anything. *)
Definition demo_asker : Link ToolCall CheckResult :=
  mkLink (lit "asker") true false Tighten (λ _, true)
    (λ i, Continues i (λ r, match r with
                            | Ok c => Ok (mkCheckResult (ck_call c) (Ask RDefault None))
                            | Err e => Err e
                            end)).
Definition demo_allower : Link ToolCall CheckResult :=
  mkLink (lit "allower") true false Rewrite (λ _, true)
    (λ i, Answers (Ok (mkCheckResult i (Allow RDefault)))).
Definition demo_kernel (d : Decision) (i : ToolCall) : result KernelError CheckResult := Ok (mkCheckResult i d).
Definition demo_consumed : result KernelError CheckResult :=
  Err (mkKernelError Internal (lit "dispatch continuation already consumed")).

Example demo_allower_refused :
  (run check_point (demo_kernel (Ask RDefault None)) demo_consumed [demo_allower] demo_toolcall).1.1
  = Ok (mkCheckResult demo_toolcall (Ask RDefault None)).
Proof. by vm_compute. Qed.

Lemma links_only_tighten_witness :
  (run check_point (demo_kernel (Allow RReadOnly)) demo_consumed [demo_asker; demo_allower] demo_toolcall).1.1
    = Ok (mkCheckResult demo_toolcall (Ask RDefault None))
  ∧ ∃ input' base, demo_kernel (Allow RReadOnly) input' = Ok base ∧ call_name input' = lit "Bash".
Proof.
  assert ((run check_point (demo_kernel (Allow RReadOnly)) demo_consumed [demo_asker; demo_allower] demo_toolcall).1.1
    = Ok (mkCheckResult demo_toolcall (Ask RDefault None))) as E by by vm_compute.
  split; [exact E|].
  destruct (links_only_tighten (demo_kernel (Allow RReadOnly)) demo_consumed [demo_asker; demo_allower]
    demo_toolcall (mkCheckResult demo_toolcall (Ask RDefault None)) ltac:(repeat constructor; done) E eq_refl)
    as (i & b & Hk & Hn & _).
  exists i, b. split; [exact Hk|exact Hn].
Defined.
