(* ===== verification/Catalogue.v ===== *)
(** * Catalogue: the named points plugins may hook, over JSON

    [bingo-sdk/src/catalogue.rs] and [catalogue/matcher.rs] (entries and their
    pinned fields), [bingo-core/src/chain/json.rs] (every point dispatched by its
    catalogue entry), [chain/person.rs] and the guard of [chain/config.rs] (what a
    description may not lift), [chain/append.rs] (rows of a session) and
    [chain/registration.rs] (a plugin's grant).  Values pass between links as
    JSON; turning them into the kernel's types and back is [serde]'s and a
    parameter. *)

From S2P Require Import Prelude Text Model CommandLine Interaction PermPath PermRule PermDecide Chain.

(** ** JSON pointers *)

Fixpoint replace_pair (a b c : char) (s : str) : str :=
  match s with
  | x :: ((y :: r) as s') => if bool_decide (x = a) && bool_decide (y = b) then c :: replace_pair a b c r else x :: replace_pair a b c s'
  | s => s
  end.

(** [x.replace("~1", "/").replace("~0", "~")]. *)
Definition unescape (token : str) : str :=
  replace_pair (chr "~") (chr "0") (chr "~") (replace_pair (chr "~") (chr "1") (chr "/") token).

Fixpoint index_digits (acc : N) (s : str) : option N :=
  match s with
  | [] => Some acc
  | c :: s =>
      if is_ascii_digit c
      then let n := (acc * 10 + (c - 48))%N in if (n <? 2 ^ 64)%N then index_digits n s else None
      else None
  end.
Definition parse_index (s : str) : option nat :=
  match s with
  | [] => None
  | c :: r =>
      if bool_decide (c = chr "+") || bool_decide (c = chr "0") && negb (bool_decide (r = [])) then None
      else N.to_nat <$> index_digits 0 s
  end.

Fixpoint pointer_at (tokens : list str) (v : Value) : option Value :=
  match tokens with
  | [] => Some v
  | t :: tokens =>
      match v with
      | VObject m => let? v := map_get t m in pointer_at tokens v
      | VArray l => let? i := parse_index t in let? v := l !! i in pointer_at tokens v
      | _ => None
      end
  end.
Definition pointer (path : str) (v : Value) : option Value :=
  match path with
  | [] => Some v
  | c :: _ =>
      if bool_decide (c = chr "/") then pointer_at (unescape <$> tail (split_by (N.eqb (chr "/")) path)) v else None
  end.

Definition option_value_eqb (a b : option Value) : bool :=
  match a, b with Some a, Some b => value_eqb a b | None, None => true | _, _ => false end.

Definition pinned_changed (before after : Value) (pinned : list str) : option str :=
  find_bool (fun path => negb (option_value_eqb (pointer path before) (pointer path after))) pinned.

(** ** Entries *)

Definition watch_acts : Acts := mkActs false false false.

Record Entry := mkEntry {
  en_point : CatalogueEntry;
  en_pinned : list str;
  en_valid_input : Value -> bool;
  en_valid_result : Value -> bool;
}.
Definition en_name (e : Entry) : str := ce_name (en_point e).
(** Entries are equal when their names are. *)
Definition named_as (e : Entry) (name : str) : bool := bool_decide (en_name e = name).
Definition pinning (pinned : list str) (e : Entry) : Entry := mkEntry (en_point e) pinned (en_valid_input e) (en_valid_result e).

Definition plugin_register : str := lit "plugin.register".
Definition tool_describe : str := lit "tool.describe".
Definition prompt_autocomplete : str := lit "prompt.autocomplete".
Definition session_append : str := lit "session.append".
Definition command_run_ : str := lit "command.run".
Definition command_describe : str := lit "command.describe".
Definition config_set : str := lit "config.set".
Definition config_describe : str := lit "config.describe".

(** The catalogue: names, pinned fields and what links may do; whether a value is
    of the shape the row declares is [serde]'s to say. *)
Definition catalogue (valid_input valid_result : str -> Value -> bool) : list Entry :=
  (fun '(name, pinned, acts) => mkEntry (mkCatalogueEntry name acts) pinned (valid_input name) (valid_result name)) <$>
  [(lit "ui.press", [lit "/handler"; lit "/event"], wrap_acts);
   (lit "ui.input", [lit "/handler"; lit "/event"], wrap_acts);
   (lit "ui.select", [lit "/handler"; lit "/event"], wrap_acts);
   (lit "ui.render", [lit "/component"; lit "/requestId"; lit "/surface"; lit "/viewport"], wrap_acts);
   (plugin_register, [lit "/name"; lit "/version"; lit "/origin"; lit "/runtime"], wrap_acts);
   (lit "prompt.submit", [], pass_acts);
   (lit "tool.check", [lit "/tool"; lit "/tool_use_id"], pass_acts);
   (lit "tool.call", [lit "/tool"; lit "/tool_use_id"], wrap_acts);
   (lit "model.complete", [lit "/plugin"], wrap_acts);
   (lit "turn.step", [], wrap_acts);
   (lit "prompt.compose", [], wrap_acts);
   (lit "session.compact", [], wrap_acts);
   (lit "turn.stop", [], pass_acts);
   (tool_describe, [lit "/name"], wrap_acts);
   (prompt_autocomplete, [lit "/kind"], wrap_acts);
   (lit "session.send", [], pass_acts);
   (lit "session.receive", [], pass_acts);
   (session_append, [lit "/plugin"; lit "/kind"], pass_acts);
   (lit "turn.complete", [lit "/turn"; lit "/outcome"; lit "/usage"; lit "/answer"], wrap_acts);
   (command_run_, [lit "/command"], wrap_acts);
   (command_describe, [lit "/name"], wrap_acts);
   (config_set, [lit "/key"], pass_acts);
   (config_describe, [], wrap_acts);
   (lit "turn.start", [], watch_acts);
   (lit "session.measure", [], watch_acts);
   (lit "session.start", [], watch_acts);
   (lit "session.end", [], watch_acts);
   (lit "session.attach", [], watch_acts);
   (lit "session.detach", [], watch_acts)].

Definition find_entry (entries : list Entry) (name : str) : option Entry := find_bool (fun e => named_as e name) entries.

(** ** Grants ([plugin.rs], [registration.rs]) *)

Record PluginGrant := mkPluginGrant { pg_tier : Tier; pg_uses : gset str }.
Inductive PluginDecision := Granted (grant : PluginGrant) | Denied (reason : str).

Definition tier_rank (t : Tier) : nat := match t with Tighten => 0 | Rewrite => 1 | Full => 2 end.
Definition reduced (before after : PluginGrant) : bool :=
  (tier_rank (pg_tier after) <=? tier_rank (pg_tier before))%nat && bool_decide (pg_uses after ⊆ pg_uses before).

(** ** Dispatch over JSON ([json.rs]) *)

Definition null_get (key : str) (v : Value) : Value := default VNull (value_get key v).

Section json.
(** [serde_json::from_value] of a command's description. *)
Context (spec_of : Value -> option CommandSpec).

Definition described_words (spec : Value) : option (list str) := (fun spec => person_words (cs_args spec)) <$> spec_of spec.

(** The commands a catalogue lists, by id; of two with one id the later counts. *)
Definition listed (catalog : Value) : list (str * option (list str)) :=
  omap (fun entry => let? id := as_str (null_get (lit "id") entry) in Some (id, described_words (null_get (lit "meta") entry)))
    (match null_get (lit "entries") catalog with VArray entries => entries | _ => [] end).
Definition listed_get (id : str) (l : list (str * option (list str))) : option (option (list str)) :=
  find_map (fun e => if bool_decide (e.1 = id) then Some e.2 else None) (reverse l).

(** [person.rs]: what only the person may run stays so. *)
Definition person_kept (entry : Entry) (before after : Value) : bool :=
  if named_as entry command_describe then is_null after || bool_decide (described_words before = described_words after)
  else if named_as entry prompt_autocomplete && value_eqb (null_get (lit "kind") before) (VString (lit "commands")) then
    let given := listed before in
    let after := listed after in
    all (fun e => match listed_get e.1 given with Some given => bool_decide (Some given = listed_get e.1 after) | None => true end) after
  else true.

(** [config.rs]: neither the policy nor its slice is a link's to state. *)
Definition config_policy (config : Value) : Value := null_get (lit "policy") (null_get (lit "kernel") config).
Definition config_kept (entry : Entry) (before after : Value) : bool :=
  if negb (named_as entry config_describe) then true
  else
    let id := config_policy before in
    let slice (config : Value) := match as_str id with Some id => value_get id (null_get (lit "plugins") config) | None => None end in
    value_eqb (config_policy after) id && option_value_eqb (slice after) (slice before).

(** A plugin's grant ([plugin.rs]), and what the registration chain may answer:
    of a value that reads as both, serde takes the grant. *)
Context (grant_of : Value -> option PluginGrant) (reason_of : Value -> option str).
Definition decision_of (v : Value) : option PluginDecision :=
  match grant_of v with Some g => Some (Granted g) | None => Denied <$> reason_of v end.
(** [registration::values]. *)
Definition registration_values (before after : Value) : bool :=
  match grant_of before, decision_of after with
  | Some before, Some (Granted after) => reduced before after
  | Some _, Some (Denied reason) => negb (bool_decide (trim reason = []))
  | _, _ => false
  end.

Definition invalid_shape (name : str) : KernelError :=
  mkKernelError InvalidInput (name ++ lit ": invalid shape or pinned field").

Definition pinned_or (entry : Entry) (before after : Value) (k : KernelError -> result KernelError Value) (ok : result KernelError Value) :=
  match pinned_changed before after (en_pinned entry) with
  | Some field => k (invalid_shape (lit "pinned field " ++ field))
  | None => ok
  end.

(** A link's answer, held to what the point pins of the input it was given. *)
Definition checked (entry : Entry) (before result_ : Value) : result KernelError Value :=
  if (named_as entry tool_describe || named_as entry command_describe)
     && negb (is_null result_) && negb (option_value_eqb (value_get (lit "name") result_) (value_get (lit "name") before))
  then Err (invalid_shape (lit "pinned field /name"))
  else if negb (person_kept entry before result_) then Err (invalid_shape (lit "pinned field /args/person"))
  else if negb (config_kept entry before result_) then Err (invalid_shape (lit "pinned field /plugins/<policy>"))
  else
    let rest :=
      if named_as entry plugin_register && negb (registration_values before result_)
      then Err (invalid_shape (lit "plugin.register: grants may only be reduced"))
      else if negb (en_valid_result entry result_) then Err (invalid_shape (en_name entry))
      else Ok result_ in
    if named_as entry session_append || named_as entry config_set || named_as entry prompt_autocomplete
    then pinned_or entry before result_ Err rest
    else rest.

(** What the link is refused before its continuation runs at all. *)
Definition next_refused (entry : Entry) (original value : Value) : option KernelError :=
  match pinned_changed original value (en_pinned entry) with
  | Some field => Some (invalid_shape (lit "pinned field " ++ field))
  | None =>
      if en_valid_input entry value && (negb (named_as entry plugin_register) || registration_values original value)
      then None else Some (invalid_shape (en_name entry))
  end.

(** [Json::dispatch] around what the link itself does. *)
Definition json_behaviour (entry : Entry) (original : Value) (b : Behaviour Value Value) : Behaviour Value Value :=
  let settle r := let* v := r in checked entry original v in
  match b with
  | Answers r => Answers (settle r)
  | Continues value k =>
      match next_refused entry original value with
      | Some error => Answers (settle (k (Err error)))
      | None => Continues value (fun r => settle (k r))
      end
  end.
Definition json_link (entry : Entry) (link : Link Value Value) : Link Value Value :=
  mkLink (ln_id link) (ln_external link) (ln_builtin link) (ln_tier link) (ln_applies link)
    (fun input => json_behaviour entry input (ln_run link input)).

Definition json_pinned (entry : Entry) (before after : Value) : bool :=
  bool_decide (pinned_changed before after (en_pinned entry) = None) && person_kept entry before after && config_kept entry before after.

(** [Point::accepts], as points have it that do not say otherwise. *)
Definition default_accepts {O} (eqb : O -> O -> bool) (point : CatalogueEntry) (tier : Tier) (before : option O) (after : O) : bool :=
  match before with
  | Some before => eqb before after || admits tier point ActRewrite
  | None => admits tier point ActAnswer
  end.

Definition json_point (entry : Entry) : Point Value Value :=
  mkPoint (en_point entry) value_eqb value_eqb (json_pinned entry) (default_accepts value_eqb (en_point entry)) (fun _ _ => false).

Definition consumed : result KernelError Value := Err (mkKernelError Internal (lit "dispatch continuation already consumed")).

(** [json::run], with the value the kernel was given if it was run. *)
Definition json_run (entry : Entry) (kernel : Value -> result KernelError Value) (links : list (Link Value Value)) (value : Value)
  : result KernelError Value * option Value * list Note :=
  run (json_point entry) kernel consumed (json_link entry <$> links) value.

(** [json::dispatch]: in and out through serde. *)
Definition json_kernel {I O} (entry : Entry) (decode : Value -> option I) (encode : O -> option Value)
    (next : I -> result KernelError O) (value : Value) : result KernelError Value :=
  match decode value with
  | None => Err (invalid_shape (en_name entry))
  | Some input => let* out := next input in
                  match encode out with Some v => Ok v | None => Err (invalid_shape (en_name entry)) end
  end.
Definition json_dispatch {I O} (entry : Entry) (encode_in : I -> option Value) (decode_in : Value -> option I)
    (encode_out : O -> option Value) (decode_out : Value -> option O)
    (links : list (Link Value Value)) (input : I) (next : I -> result KernelError O) : result KernelError O * option Value * list Note :=
  match encode_in input with
  | None => (Err (invalid_shape (en_name entry)), None, [])
  | Some value =>
      let '(answer, seen, notes) := json_run entry (json_kernel entry decode_in encode_out next) links value in
      (let* v := answer in match decode_out v with Some o => Ok o | None => Err (invalid_shape (en_name entry)) end, seen, notes)
  end.
End json.

(** ** Rows and registrations *)

(** Links as [chain::Link] has them: the plugin a link comes from owns rows. *)
Definition owner (link : Link Value Value) (external : option str) : str := default (ln_id link) external.
Definition with_tier (t : Tier) (link : Link Value Value) : Link Value Value :=
  mkLink (ln_id link) (ln_external link) (ln_builtin link) t (ln_applies link) (ln_run link).

Record Append := mkAppend { ap_plugin : str; ap_kind : str; ap_payload : Value }.
Definition append_value (a : Append) : option Value :=
  Some (VObject [(lit "plugin", VString (ap_plugin a)); (lit "kind", VString (ap_kind a)); (lit "payload", ap_payload a)]).
Definition value_append (v : Value) : option Append :=
  let? plugin := value_get (lit "plugin") v in let? plugin := as_str plugin in
  let? kind := value_get (lit "kind") v in let? kind := as_str kind in
  let? payload := value_get (lit "payload") v in
  Some (mkAppend plugin kind payload).

(** [append::rows]: links of others may only look.  A link is given with the
    outside plugin it belongs to, if it does. *)
Definition rows (spec_of : Value -> option CommandSpec) (grant_of : Value -> option PluginGrant) (reason_of : Value -> option str)
    (entry : Entry) (links : list (Link Value Value * option str)) (input : Append) : result KernelError Append :=
  (json_dispatch spec_of grant_of reason_of entry append_value value_append append_value value_append
     ((fun l => if bool_decide (owner l.1 l.2 = ap_plugin input) then l.1 else with_tier Tighten l.1) <$> links)
     input (fun a => Ok a)).1.1.

Inductive PluginOrigin := User | Project | Explicit.
Inductive PluginRuntime := Process | Module_.
Record PluginExecution := mkPluginExecution { px_origin : PluginOrigin; px_runtime : PluginRuntime; px_grant : PluginGrant }.
Record PluginRegistration := mkPluginRegistration { pr_name : str; pr_version : str; pr_execution : PluginExecution }.

(** As serde derives them: camel case, the execution and its grant flattened into
    the registration, fields a type does not know ignored. *)
Definition tier_name (t : Tier) : str := match t with Tighten => lit "tighten" | Rewrite => lit "rewrite" | Full => lit "full" end.
Definition tier_of (s : str) : option Tier := find_bool (fun t => bool_decide (tier_name t = s)) [Tighten; Rewrite; Full].
Definition origin_name (o : PluginOrigin) : str := match o with User => lit "user" | Project => lit "project" | Explicit => lit "explicit" end.
Definition origin_of (s : str) : option PluginOrigin := find_bool (fun o => bool_decide (origin_name o = s)) [User; Project; Explicit].
Definition runtime_name (r : PluginRuntime) : str := match r with Process => lit "process" | Module_ => lit "module" end.
Definition runtime_of (s : str) : option PluginRuntime := find_bool (fun r => bool_decide (runtime_name r = s)) [Process; Module_].

Definition grant_fields (g : PluginGrant) : list (str * Value) :=
  [(lit "tier", VString (tier_name (pg_tier g))); (lit "uses", VArray (VString <$> elements (pg_uses g)))].
Definition str_field (key : str) (v : Value) : option str := let? x := value_get key v in as_str x.
Definition value_grant (v : Value) : option PluginGrant :=
  let? tier := str_field (lit "tier") v in
  let? tier := tier_of tier in
  let? uses := value_get (lit "uses") v in
  match uses with
  | VArray l => (fun l => mkPluginGrant tier (list_to_set l)) <$> mapM as_str l
  | _ => None
  end.
Definition value_reason (v : Value) : option str := str_field (lit "reason") v.
Definition decision_value (d : PluginDecision) : option Value :=
  Some (VObject match d with Granted g => grant_fields g | Denied reason => [(lit "reason", VString reason)] end).
Definition registration_fields (r : PluginRegistration) : list (str * Value) :=
  [(lit "name", VString (pr_name r)); (lit "version", VString (pr_version r));
   (lit "origin", VString (origin_name (px_origin (pr_execution r)))); (lit "runtime", VString (runtime_name (px_runtime (pr_execution r))))]
  ++ grant_fields (px_grant (pr_execution r)).
Definition registration_value (r : PluginRegistration) : option Value := Some (VObject (registration_fields r)).
Definition value_registration (v : Value) : option PluginRegistration :=
  let? name := str_field (lit "name") v in
  let? version := str_field (lit "version") v in
  let? origin := str_field (lit "origin") v in let? origin := origin_of origin in
  let? runtime := str_field (lit "runtime") v in let? runtime := runtime_of runtime in
  let? grant := value_grant v in
  Some (mkPluginRegistration name version (mkPluginExecution origin runtime grant)).

(** [registration::register]. *)
Definition register (spec_of : Value -> option CommandSpec) (entry : Entry) (links : list (Link Value Value))
    (input : PluginRegistration) : str + PluginGrant :=
  match (json_dispatch spec_of value_grant value_reason entry registration_value value_registration decision_value
           (decision_of value_grant value_reason) links input (fun r => Ok (Granted (px_grant (pr_execution r))))).1.1 with
  | Ok (Granted grant) => inr grant
  | Ok (Denied reason) => inl (pr_name input ++ lit ": " ++ reason)
  | Err error => inl (pr_name input ++ lit ": " ++ ke_message error)
  end.

(** ** Lemmas *)

Lemma value_eqb_str s v : value_eqb (VString s) v = true → v = VString s.
Proof. destruct v; simpl; try done. by intros ->%bool_decide_eq_true. Qed.

(** What a pinned field that holds a string holds all along. *)
Definition same_pins (entry : Entry) (a b : Value) : Prop :=
  ∀ path s, path ∈ en_pinned entry → pointer path a = Some (VString s) → pointer path b = Some (VString s).
#[export] Instance same_pins_preorder entry : PreOrder (same_pins entry).
Proof. split; [by intros a path s|]. intros a b c Hab Hbc path s Hp Ha. by apply Hbc, Hab. Qed.

Lemma pinned_same entry a b : pinned_changed a b (en_pinned entry) = None → same_pins entry a b.
Proof.
  intros H path s Hp Ha. unfold pinned_changed in H. rewrite find_bool_None in H. specialize (H path Hp).
  apply negb_false_iff in H. rewrite Ha in H. destruct (pointer path b) as [v|]; [|done]. simpl in H.
  by rewrite (value_eqb_str s v H).
Qed.

Section dispatch.
Context {spec_of : Value → option CommandSpec} {grant_of : Value → option PluginGrant} {reason_of : Value → option str}.
Context (entry : Entry).
Abbreviation point := (json_point spec_of entry).
Abbreviation wrapped := (json_link spec_of grant_of reason_of entry).

Lemma handed_cases link a b : let '(i, invalid, rewritten) := handed point link a b in
  (i = a ∨ i = b) ∧ same_pins entry a i ∧ (invalid = true → i = a ∧ rewritten = false)
  ∧ (invalid = false → i = b ∧ (value_eqb b a = true ∨ admits (ln_tier link) (en_point entry) ActRewrite = true)).
Proof.
  unfold handed. simpl. unfold json_pinned.
  assert (∀ x : bool, (a = a ∨ a = b) ∧ same_pins entry a a ∧ (true = true → a = a ∧ x && negb true = false)
    ∧ (true = false → a = b ∧ (value_eqb b a = true ∨ admits (ln_tier link) (en_point entry) ActRewrite = true))) as Hbad.
  { intros x. rewrite andb_false_r. split_and!; [by left|done|done|done]. }
  case_bool_decide as Hp; simpl; [|apply Hbad]. apply pinned_same in Hp.
  destruct (person_kept _ _ _ _); simpl; [|apply Hbad]. destruct (config_kept _ _ _); simpl; [|apply Hbad].
  destruct (value_eqb b a) eqn:Eb; simpl; [split_and!; by auto|].
  destruct (admits _ _ _) eqn:Ea; simpl; [split_and!; by auto|apply (Hbad true)].
Qed.

(** The outcomes of one link over JSON: what it settles on itself has been checked. *)
Definition settled (before : Value) (r : result KernelError Value) : Prop :=
  ∀ out, r = Ok out → checked spec_of grant_of reason_of entry before out = Ok out.

Lemma checked_same before v out : checked spec_of grant_of reason_of entry before v = Ok out → v = out.
Proof. unfold checked, pinned_or. repeat case_match; congruence. Qed.
Lemma settle_settled before (r : result KernelError Value) :
  settled before (let* v := r in checked spec_of grant_of reason_of entry before v).
Proof.
  intros out E. destruct r as [v|e]; [|done]. simpl in E. by rewrite (checked_same _ _ _ E) in E.
Qed.

(** A property of what comes out, relative to what a link is handed. *)
Context (Good : Value → Value → Prop) (kernel : Value → result KernelError Value).
Context (good_kernel : ∀ i out, kernel i = Ok out → Good i out).
Context (good_checked : ∀ i out, checked spec_of grant_of reason_of entry i out = Ok out → Good i out).
Context (good_next : ∀ i i' out, next_refused grant_of reason_of entry i i' = None → Good i' out → Good i out).

Lemma good_answer i b a out : json_behaviour spec_of grant_of reason_of entry i b = Answers a → a = Ok out → Good i out.
Proof.
  intros Hb E. apply good_checked. unfold json_behaviour in Hb.
  destruct b as [r|i' k]; [|destruct (next_refused _ _ _ _ _); [|done]]; injection Hb as <-; exact (settle_settled _ _ _ E).
Qed.

Lemma run_good c links input out :
  (run_at point kernel c (wrapped <$> links) None input).1.1 = Ok out → Good input out.
Proof.
  revert input out. induction links as [|link links IH]; intros input out; [apply good_kernel|].
  change (wrapped <$> link :: links) with (wrapped link :: (wrapped <$> links)).
  destruct (run_at_cons point kernel c (wrapped link) (wrapped <$> links) input)
    as [[_ ->]|[(a & Hl & _ & [[-> _]| ->])|[(a & Hl & Hw & _)|(i & k & Hl & Hr)]]]; try by apply IH.
  - intros Ha. exact (good_answer _ _ _ _ Hl Ha).
  - unfold wants_baseline in Hw. by destruct a.
  - change (ln_run (wrapped link) input) with (json_behaviour spec_of grant_of reason_of entry input (ln_run link input)) in Hl.
    pose proof (handed_cases (wrapped link) input i) as Hh.
    destruct (handed point (wrapped link) input i) as [[i' invalid] rewritten]. destruct Hh as (Hi & _).
    unfold json_behaviour in Hl. destruct (ln_run link input) as [r|i1 k1]; [done|].
    destruct (next_refused grant_of reason_of entry input i1) eqn:En; [done|]. injection Hl as <- <-.
    destruct Hr as [->|(-> & _)]; intros Ho.
    + destruct Hi as [-> | ->]; [by apply IH|]. eapply good_next; [exact En|by apply IH].
    + apply good_checked. exact (settle_settled _ _ _ Ho).
Qed.
End dispatch.

(** JSON values that equality relates, through any number of links. *)
Definition eqv : relation Value := rtc (λ a b, value_eqb a b = true).

Lemma value_eqb_get a b k v : value_eqb a b = true → value_get k a = Some v →
  ∃ w, value_get k b = Some w ∧ value_eqb v w = true.
Proof.
  destruct a as [| | | | |x]; try done. destruct b as [| | | | |y]; try done. cbn [value_eqb value_get].
  intros [_ H]%andb_prop. induction x as [|[k' v'] x IH]; [done|]. unfold map_get. simpl. fold (map_get k x) (map_get k y).
  apply andb_prop in H as [H1 H2]. case_bool_decide as Ek; simpl; [|by apply IH].
  intros [= ->]. subst k'. destruct (map_get k y) as [w|]; [|done]. exists w. split; [done|exact H1].
Qed.
Lemma eqv_get a b k v : eqv a b → value_get k a = Some v → ∃ w, value_get k b = Some w ∧ eqv v w.
Proof.
  intros Hab. revert v. induction Hab as [a|a b c Hab _ IH]; intros v Hv; [by exists v; split; [|apply rtc_refl]|].
  destruct (value_eqb_get _ _ _ _ Hab Hv) as (w & Hw & Hvw). destruct (IH w Hw) as (u & Hu & Hwu).
  exists u. split; [done|]. by eapply rtc_l.
Qed.
Lemma eqv_str s v : eqv (VString s) v → v = VString s.
Proof.
  intros H. remember (VString s) as u eqn:Eu. revert Eu. induction H as [u|u b c Hub _ IH]; intros ->; [done|].
  apply value_eqb_str in Hub as ->. by apply IH.
Qed.
Lemma eqv_append v v' a : eqv v v' → value_append v = Some a → ∃ a', value_append v' = Some a'
  ∧ ap_plugin a' = ap_plugin a ∧ ap_kind a' = ap_kind a ∧ eqv (ap_payload a) (ap_payload a').
Proof.
  intros Hv. unfold value_append. destruct (value_get (lit "plugin") v) as [p|] eqn:Ep; [|done]. simpl.
  destruct p as [| | |p| |]; try done. simpl. destruct (value_get (lit "kind") v) as [k|] eqn:Ek; [|done]. simpl.
  destruct k as [| | |k| |]; try done. simpl. destruct (value_get (lit "payload") v) as [x|] eqn:Ex; [|done]. intros [= <-]. simpl.
  destruct (eqv_get _ _ _ _ Hv Ep) as (p' & -> & ->%eqv_str), (eqv_get _ _ _ _ Hv Ek) as (k' & -> & ->%eqv_str),
    (eqv_get _ _ _ _ Hv Ex) as (x' & -> & Hx). simpl. by eexists.
Qed.

(** Links that may only tighten change nothing at a point that is not theirs to
    tighten. *)
Lemma run_tight {spec_of grant_of reason_of} entry kernel c links input out :
  en_name entry ∉ tighten_points → Forall (λ l, ln_tier l = Tighten) links →
  (run_at (json_point spec_of entry) kernel c (json_link spec_of grant_of reason_of entry <$> links) None input).1.1 = Ok out →
  ∃ i base, eqv i input ∧ kernel i = Ok base ∧ eqv base out.
Proof.
  intros Hn. revert input out. induction links as [|link links IH]; intros input out Hl.
  { intros Hk. exists input, out. split_and!; [apply rtc_refl|exact Hk|apply rtc_refl]. }
  apply Forall_cons in Hl as [Ht Hl]. specialize (λ input out, IH input out Hl).
  assert (∀ act, act = ActRewrite ∨ act = ActAnswer → admits (ln_tier link) (en_point entry) act = false) as Had.
  { intros act Hact. rewrite Ht. destruct Hact as [-> | ->]; by apply bool_decide_eq_false_2. }
  change (json_link spec_of grant_of reason_of entry <$> link :: links) with
    (json_link spec_of grant_of reason_of entry link :: (json_link spec_of grant_of reason_of entry <$> links)).
  destruct (run_at_cons (json_point spec_of entry) kernel c (json_link spec_of grant_of reason_of entry link)
      (json_link spec_of grant_of reason_of entry <$> links) input)
    as [[_ ->]|[(a & _ & _ & [[-> Ha]| ->])|[(a & _ & Hw & _)|(i & k & _ & Hr)]]]; try by apply IH.
  - intros ->. unfold accepted in Ha. simpl in Ha. by rewrite (Had ActAnswer (or_intror eq_refl)) in Ha.
  - unfold wants_baseline in Hw. by destruct a.
  - pose proof (handed_cases (spec_of := spec_of) entry (json_link spec_of grant_of reason_of entry link) input i) as Hh.
    destruct (handed _ _ input i) as [[i' invalid] rewritten]. destruct Hh as (Hi & _ & Hbad & Hok).
    assert (eqv i' input) as Hi'.
    { destruct invalid; [destruct (Hbad eq_refl) as [-> _]; apply rtc_refl|].
      destruct (Hok eq_refl) as [-> [Hb|Hb]]; [by apply rtc_once|]. simpl in Hb. by rewrite (Had ActRewrite (or_introl eq_refl)) in Hb. }
    destruct Hr as [->|(-> & _ & Ha)].
    + intros Ho. destruct (IH i' out Ho) as (i0 & base & H1 & H2 & H3). exists i0, base. split_and!; [by etrans|done|done].
    + intros Ho. rewrite Ho in Ha. unfold accepted in Ha. simpl in Ha. unfold default_accepts in Ha.
      set (r := (run_at _ _ _ _ _ i').1.1) in *. destruct r as [b|e] eqn:Er; simpl in Ha;
        [|by rewrite (Had ActAnswer (or_intror eq_refl)) in Ha].
      rewrite (Had ActRewrite (or_introl eq_refl)), orb_false_r in Ha. destruct (value_eqb b out) eqn:Eb; [|done].
      destruct (IH i' b Er) as (i0 & base & H1 & H2 & H3). exists i0, base. split_and!; [by etrans|done|].
      eapply rtc_r; [exact H3|exact Eb].
Qed.

Lemma json_run_at {spec_of grant_of reason_of} entry kernel links input :
  (json_run spec_of grant_of reason_of entry kernel links input).1.1
  = (run_at (json_point spec_of entry) kernel consumed (json_link spec_of grant_of reason_of entry <$> links) None input).1.1.
Proof. unfold json_run, run. by destruct links. Qed.
Lemma dispatch_value {spec_of grant_of reason_of I O} entry encode_in decode_in encode_out (decode_out : Value → option O) links (input : I) next out :
  (json_dispatch spec_of grant_of reason_of entry encode_in decode_in encode_out decode_out links input next).1.1 = Ok out →
  ∃ v v', encode_in input = Some v ∧ decode_out v' = Some out
    ∧ (run_at (json_point spec_of entry) (json_kernel entry decode_in encode_out next) consumed
         (json_link spec_of grant_of reason_of entry <$> links) None v).1.1 = Ok v'.
Proof.
  unfold json_dispatch. destruct (encode_in input) as [v|]; [|done].
  pose proof (json_run_at (spec_of := spec_of) (grant_of := grant_of) (reason_of := reason_of) entry
    (json_kernel entry decode_in encode_out next) links v) as Hr.
  destruct (json_run _ _ _ _ _ _ v) as [[[v'|e] seen] notes]; simpl in *; [|done]. destruct (decode_out v') as [o|] eqn:Eo; [|done].
  intros [= ->]. by exists v, v'.
Qed.

Lemma tier_back t : tier_of (tier_name t) = Some t.
Proof. by destruct t. Qed.
Lemma strings_back l : mapM as_str (VString <$> l) = Some l.
Proof. apply mapM_Some_2, Forall2_fmap_l. induction l; by constructor. Qed.
Lemma grant_back fields g : map_get (lit "tier") fields = Some (VString (tier_name (pg_tier g))) →
  map_get (lit "uses") fields = Some (VArray (VString <$> elements (pg_uses g))) → value_grant (VObject fields) = Some g.
Proof.
  intros Et Eu. unfold value_grant, str_field. cbn [value_get]. rewrite Et, Eu.
  cbn [mbind option_bind as_str]. rewrite tier_back. cbn [mbind option_bind]. rewrite strings_back.
  cbn [fmap option_fmap option_map]. rewrite list_to_set_elements_L. by destruct g.
Qed.
Lemma reduced_refl g : reduced g g = true.
Proof. unfold reduced. by rewrite Nat.leb_refl, bool_decide_eq_true_2. Qed.
Lemma reduced_trans a b c : reduced a b = true → reduced b c = true → reduced a c = true.
Proof.
  unfold reduced. rewrite !andb_true_iff, !bool_decide_eq_true. intros [?%Nat.leb_le ?] [?%Nat.leb_le ?].
  split; [apply Nat.leb_le; lia|set_solver].
Qed.
Lemma registration_step {grant_of reason_of} i i' out : registration_values grant_of reason_of i i' = true →
  registration_values grant_of reason_of i' out = true → registration_values grant_of reason_of i out = true.
Proof.
  unfold registration_values, decision_of. destruct (grant_of i) as [g|]; [|done]. destruct (grant_of i') as [g'|]; [|done].
  intros H1. destruct (grant_of out) as [g''|]; [|by destruct (reason_of out)]. by apply reduced_trans.
Qed.

Section claims.
Context (spec_of : Value → option CommandSpec) (entry : Entry).

(** A plugin's registration only ever reduces what the person granted it.
    Whatever the links on the chain are trusted with, and whatever they answer or
    hand on, the grant a plugin is registered with has no higher a tier and no
    more uses than the one it asked for. *)
Theorem registration_only_reduces links reg grant : en_name entry = plugin_register →
  register spec_of entry links reg = inr grant → reduced (px_grant (pr_execution reg)) grant = true.
Proof.
  intros Hname. unfold register. destruct (json_dispatch _ _ _ _ _ _ _ _ _ _ _).1.1 as [[g|reason]|e] eqn:E; try done. intros [= ->].
  destruct (dispatch_value _ _ _ _ _ _ _ _ _ E) as (v & v' & [= <-] & Ed & Er).
  assert (∀ name, name ≠ plugin_register → named_as entry name = false) as Hno.
  { intros name Hne. unfold named_as. rewrite Hname. by apply bool_decide_eq_false_2. }
  assert (named_as entry plugin_register = true) as Hyes by by apply bool_decide_eq_true_2.
  set (fields := registration_fields reg) in Er.
  assert (value_grant (VObject fields) = Some (px_grant (pr_execution reg))) as Hfields by by apply grant_back.
  clearbody fields. assert (registration_values value_grant value_reason (VObject fields) v' = true) as Hv.
  - refine (run_good entry (λ i out, registration_values value_grant value_reason i out = true) _ _ _ _ _ _ _ _ Er).
    + intros i out. unfold json_kernel, value_registration. intros Hk.
      destruct (str_field (lit "name") i); [|done]. destruct (str_field (lit "version") i); [|done]. simpl in Hk.
      destruct (str_field (lit "origin") i) as [o|]; [|done]. simpl in Hk. destruct (origin_of o); [|done]. simpl in Hk.
      destruct (str_field (lit "runtime") i) as [r|]; [|done]. simpl in Hk. destruct (runtime_of r); [|done]. simpl in Hk.
      destruct (value_grant i) as [g|] eqn:Eg; [|done]. injection Hk as <-.
      unfold registration_values, decision_of. rewrite Eg, (grant_back (grant_fields g) g eq_refl eq_refl). apply reduced_refl.
    + intros i out. unfold checked. rewrite Hyes, !(Hno tool_describe), !(Hno command_describe) by done.
      rewrite (Hno session_append), (Hno config_set), (Hno prompt_autocomplete) by done. simpl.
      repeat case_match; try done. intros _. by apply negb_false_iff.
    + intros i i' out. unfold next_refused. rewrite Hyes. simpl. repeat case_match; try done. intros _.
      apply andb_prop in H0 as [_ H0]. by apply registration_step.
  - unfold registration_values in Hv. by rewrite Ed, Hfields in Hv.
Qed.

Definition same_row (a b : Value) : Prop := ∀ key s, key = lit "plugin" ∨ key = lit "kind" →
  value_get key a = Some (VString s) → value_get key b = Some (VString s).

Lemma pins_row a b : lit "/plugin" ∈ en_pinned entry → lit "/kind" ∈ en_pinned entry → same_pins entry a b → same_row a b.
Proof.
  intros Hp Hk Hab key s Hkey. assert (∀ v, pointer (chr "/" :: key) v = value_get key v) as Hget.
  { intros v. destruct Hkey as [-> | ->], v as [| | | | |m]; try reflexivity;
      match goal with |- _ = value_get ?k _ => change (pointer _ _) with (let? v := map_get k m in Some v); simpl; by destruct (map_get k m) end. }
  rewrite <- !Hget. destruct Hkey as [-> | ->]; by apply Hab.
Qed.

Lemma rows_pins grant_of reason_of links v v' : en_name entry = session_append →
  lit "/plugin" ∈ en_pinned entry → lit "/kind" ∈ en_pinned entry →
  (run_at (json_point spec_of entry) (json_kernel entry value_append append_value Ok) consumed
     (json_link spec_of grant_of reason_of entry <$> links) None v).1.1 = Ok v' → same_row v v'.
Proof.
  intros Hname Hp Hk. apply (run_good entry).
  - intros i out. unfold json_kernel. destruct (value_append i) as [a|] eqn:Ea; [|done]. intros [= <-] key s Hkey Hi.
    unfold value_append in Ea. destruct (value_get (lit "plugin") i) as [x|] eqn:Ex; [|done]. simpl in Ea.
    destruct x as [| | |x| |]; try done. simpl in Ea. destruct (value_get (lit "kind") i) as [y|] eqn:Ey; [|done]. simpl in Ea.
    destruct y as [| | |y| |]; try done. simpl in Ea. destruct (value_get (lit "payload") i); [|done]. injection Ea as <-.
    destruct Hkey as [-> | ->]; simplify_eq; reflexivity.
  - intros i out. unfold checked, pinned_or.
    assert (named_as entry session_append = true) as -> by by apply bool_decide_eq_true_2. simpl.
    repeat case_match; try done. intros _. by apply pins_row, pinned_same.
  - intros i i' out Hn Ho. unfold next_refused in Hn. destruct (pinned_changed i i' _) eqn:Ep; [done|].
    apply pinned_same, pins_row in Ep; [|done..]. intros key s Hkey Hi. by apply Ho, Ep.
Qed.

(** A row stays its owner's.  Whatever the links on the chain do to a row a
    plugin appends, the row keeps its plugin and its kind; and where none of the
    links is the plugin's own, whatever they are trusted with, the payload comes
    out as it went in, up to the equality of JSON. *)
Theorem rows_keep_their_owner grant_of reason_of links input out : en_name entry = session_append →
  en_pinned entry = [lit "/plugin"; lit "/kind"] →
  rows spec_of grant_of reason_of entry links input = Ok out →
  ap_plugin out = ap_plugin input ∧ ap_kind out = ap_kind input
  ∧ (Forall (λ l, owner l.1 l.2 ≠ ap_plugin input) links →
     ∃ payload, eqv payload (ap_payload input) ∧ eqv payload (ap_payload out)).
Proof.
  intros Hname Hpins E. destruct (dispatch_value _ _ _ _ _ _ _ _ _ E) as (v & v' & [= <-] & Ed & Er).
  pose proof (rows_pins grant_of reason_of _ _ _ Hname ltac:(rewrite Hpins; by left) ltac:(rewrite Hpins; by right; left) Er) as Hrow.
  assert (∀ key s, key = lit "plugin" ∨ key = lit "kind" → value_get key v' = Some (VString s) →
    s = if bool_decide (key = lit "plugin") then ap_plugin out else ap_kind out) as Hout.
  { intros key s Hkey Hv. unfold value_append in Ed. destruct Hkey as [-> | ->]; rewrite Hv in Ed; simpl in Ed.
    - destruct (value_get (lit "kind") v') as [[]|]; try done. simpl in Ed. destruct (value_get _ v'); [|done]. by injection Ed as <-.
    - destruct (value_get (lit "plugin") v') as [[]|]; try done. simpl in Ed. destruct (value_get _ v'); [|done]. by injection Ed as <-. }
  split_and!.
  - symmetry. refine (Hout (lit "plugin") _ (or_introl eq_refl) _). apply Hrow; [by left|reflexivity].
  - symmetry. refine (Hout (lit "kind") _ (or_intror eq_refl) _). apply Hrow; [by right|reflexivity].
  - intros Hown.
    assert (en_name entry ∉ tighten_points) as Hn by (rewrite Hname; apply (bool_decide_unpack _); by vm_compute).
    set (tight := (λ l, if bool_decide (owner l.1 l.2 = ap_plugin input) then l.1 else with_tier Tighten l.1) <$> links) in Er.
    assert (Forall (λ l, ln_tier l = Tighten) tight) as Ht.
    { apply Forall_fmap. eapply Forall_impl; [exact Hown|]. intros l Hl. simpl. by rewrite bool_decide_eq_false_2. }
    destruct (run_tight entry _ _ _ _ _ Hn Ht Er) as (i & base & Hi & Hk & Ho).
    unfold json_kernel in Hk. destruct (value_append i) as [a|] eqn:Ea; [|done]. injection Hk as <-.
    destruct (eqv_append _ _ _ Hi Ea) as (a1 & E1 & _ & _ & H1). injection E1 as <-.
    assert (∀ x y, append_value x = Some y → value_append y = Some x) as Hback by (by intros [] ? [= <-]).
    destruct (eqv_append _ _ _ Ho (Hback a _ eq_refl)) as (a2 & E2 & _ & _ & H2). rewrite Ed in E2. injection E2 as <-.
    by exists (ap_payload a).
Qed.
End claims.

(** Kernels that agree on what a chain may hand them give the same run. *)
Lemma run_at_same {I O} (P : Point I O) k1 k2 c (Inv : I → Prop) links seen input :
  (∀ i, Inv i → k1 i = k2 i) → (∀ link i i', Inv i → Inv (handed P link i i').1.1) → Inv input →
  run_at P k1 c links seen input = run_at P k2 c links seen input.
Proof.
  intros Hk Hh. revert seen input. induction links as [|link links IH]; intros seen input Hi; cbn [run_at]; [by rewrite (Hk input Hi)|].
  destruct (negb _); [by apply IH|]. destruct (ln_run link input) as [r|i k].
  - destruct (wants_baseline P link r); [rewrite (IH seen input Hi)|].
    + by destruct (run_at P k2 c links seen input) as [[? ?] ?].
    + destruct (accepted P link r None false) as [[] ?]; [done|]. by rewrite (IH seen input Hi).
  - pose proof (Hh link input i Hi) as Hi'. destruct (handed P link input i) as [[i' invalid] rewritten]. simpl in Hi'.
    rewrite (IH seen i' Hi'). by destruct (run_at P k2 c links seen i') as [[? ?] ?].
Qed.

Lemma json_run_same {spec_of grant_of reason_of} entry k1 k2 links value path s : path ∈ en_pinned entry →
  pointer path value = Some (VString s) → (∀ v, pointer path v = Some (VString s) → k1 v = k2 v) →
  json_run spec_of grant_of reason_of entry k1 links value = json_run spec_of grant_of reason_of entry k2 links value.
Proof.
  intros Hpath Hv Hk. unfold json_run, run. destruct (json_link _ _ _ entry <$> links) as [|link rest]; [by rewrite Hk|].
  apply (run_at_same _ _ _ _ (λ v, pointer path v = Some (VString s))); [done| |done].
  intros l i i' Hi. pose proof (handed_cases (spec_of := spec_of) entry l i i') as Hh.
  destruct (handed _ l i i') as [[j invalid] rewritten]. destruct Hh as (_ & Hs & _). by apply Hs.
Qed.

(** ** Links at work *)

Definition demo_entry (name : str) (pinned : list str) (acts : Acts) : Entry :=
  mkEntry (mkCatalogueEntry name acts) pinned (fun _ => true) (fun _ => true).
Definition demo_json_link (id : str) (tier : Tier) (run : Value -> Behaviour Value Value) : Link Value Value :=
  mkLink id true false tier (fun _ => true) run.
Definition no_spec (_ : Value) : option CommandSpec := None.

(** A link that gives a plugin everything, and one that takes its network away. *)
Definition demo_registration : PluginRegistration :=
  mkPluginRegistration (lit "p") (lit "1") (mkPluginExecution User Process (mkPluginGrant Rewrite {[lit "state"; lit "net"]})).
Definition demo_granter : Link Value Value := demo_json_link (lit "granter") Full
  (fun v => Continues v (fun _ => Ok (VObject (grant_fields (mkPluginGrant Full {[lit "net"]}))))).
Definition demo_reducer : Link Value Value := demo_json_link (lit "reducer") Tighten
  (fun v => Continues v (fun _ => Ok (VObject (grant_fields (mkPluginGrant Tighten {[lit "state"]}))))).

Lemma registration_only_reduces_witness :
  let entry := demo_entry plugin_register [lit "/name"] wrap_acts in
  let grant := mkPluginGrant Tighten {[lit "state"]} in
  register no_spec entry [demo_granter; demo_reducer] demo_registration = inr grant ∧ reduced (px_grant (pr_execution demo_registration)) grant = true.
Proof.
  intros entry grant.
  assert (register no_spec entry [demo_granter; demo_reducer] demo_registration = inr grant) as E by (vm_compute; reflexivity).
  split; [exact E|]. exact (registration_only_reduces no_spec entry _ _ _ eq_refl E).
Defined.

(** A stranger that would rewrite a row, and the owner doing so. *)
Definition demo_row (payload : Value) : Append := mkAppend (lit "p") (lit "k") payload.
Definition demo_rewriter (id : str) : Link Value Value * option str :=
  (demo_json_link id Full (fun v => Continues (VObject [(lit "plugin", VString (lit "p")); (lit "kind", VString (lit "k"));
     (lit "payload", VString id)]) (fun r => r)), None).

Lemma rows_keep_their_owner_witness :
  let entry := demo_entry session_append [lit "/plugin"; lit "/kind"] pass_acts in
  let row links := rows no_spec value_grant value_reason entry links (demo_row VNull) in
  row [demo_rewriter (lit "q"); demo_rewriter (lit "p")] = Ok (demo_row (VString (lit "p")))
  ∧ row [demo_rewriter (lit "q")] = Ok (demo_row VNull) ∧ (∃ payload, eqv payload VNull ∧ eqv payload (ap_payload (demo_row VNull))).
Proof.
  intros entry row. split; [by vm_compute|].
  assert (row [demo_rewriter (lit "q")] = Ok (demo_row VNull)) as E by by vm_compute. split; [exact E|].
  refine (proj2 (proj2 (rows_keep_their_owner no_spec entry value_grant value_reason _ _ _ eq_refl eq_refl E)) _).
  constructor; [|constructor]. apply (bool_decide_unpack _). by vm_compute.
Defined.
