(* ===== verification/Gate.v ===== *)
(** * Gate: a tool call before it runs

    [bingo-core/src/gate.rs], [gate/prompt.rs], [gate/asking.rs] and the kernel's
    check in [chain/tool.rs].  Hooks first, then the one policy, through the
    chain of links; a person when the answer is an ask.  A person may change the
    input, which is checked afresh, so the asking is a loop: the model consumes
    one reply per prompt and is [None] while it waits for another.  The policy
    is any instance of [PermissionPolicy]; tools, hooks and links are the
    plugins' own code. *)

From S2P Require Import Prelude Text Model Interaction Event PermPath PermRule PermDecide Chain.

(** ** Plugins *)

Record Tool := mkTool {
  tl_traits : Value -> ToolTraits;
  tl_subjects : Value -> PathBuf -> list Subject;
  tl_confirm : Value -> option str;
  tl_preview : Value -> PathBuf -> option Preview;
}.

Inductive HookPoint :=
| AtSubmit | AtBeforeTool | AtAfterTool | AtStop | AtTurn | AtCompact | AtSession | AtEvent.
#[export] Instance HookPoint_eq_dec : EqDecision HookPoint.
Proof. solve_decision. Defined.

Record HookMatcher := mkHookMatcher { hm_points : list HookPoint; hm_tool : option str }.

Inductive HookOutcome :=
| HookContinue
| HookDeny (reason : str)
| HookAsk (reason : str)
| HookBlock (reason : str)
| HookRedirect (session : SessionId).

(** A hook may rewrite the call it is shown. *)
Record Hook := mkHook {
  hk_id : str;
  hk_matcher : HookMatcher;
  hk_before_tool : ToolCall -> ToolCall * HookOutcome;
}.

(** [hook_applies]. *)
Definition hook_applies (m : HookMatcher) (point : HookPoint) (tool : option str) : bool :=
  if negb (bool_decide (length (hm_points m) = 0)) && negb (bool_decide (point ∈ hm_points m)) then false
  else
    match hm_tool m, tool with
    | None, _ => true
    | Some _, None => false
    | Some pattern, Some name =>
        match strip_suffix (lit "*") pattern with
        | Some prefix => starts_with name prefix
        | None => bool_decide (pattern = name)
        end
    end.

(** ** The kernel's check ([chain/tool.rs]) *)

Inductive HookVerdict := HvContinue | HvAsk (reason : str) | HvRefused (message : str).

Fixpoint run_applicable (hooks : list Hook) (call : ToolCall) : ToolCall * HookVerdict :=
  match hooks with
  | [] => (call, HvContinue)
  | hook :: hooks =>
      let '(call, outcome) := hk_before_tool hook call in
      match outcome with
      | HookContinue | HookRedirect _ => run_applicable hooks call
      | HookDeny reason | HookBlock reason =>
          (call, HvRefused (lit "Denied by hook " ++ hk_id hook ++ lit ": " ++ reason))
      | HookAsk reason => (call, HvAsk reason)
      end
  end.

(** The hooks are chosen by the name the call came with. *)
Definition run_hooks (hooks : list Hook) (call : ToolCall) : ToolCall * HookVerdict :=
  run_applicable (retain (fun h => hook_applies (hk_matcher h) AtBeforeTool (Some (call_name call))) hooks) call.

Record GateInput := mkGateInput {
  gi_session : SessionId;
  gi_cwd : PathBuf;
  gi_item : ItemId;
  gi_call : ToolCall;
  gi_tool : option Tool;
  gi_links : list (Link ToolCall CheckResult);
  gi_hooks : list Hook;
}.

Definition with_call (gi : GateInput) (call : ToolCall) : GateInput :=
  mkGateInput (gi_session gi) (gi_cwd gi) (gi_item gi) call (gi_tool gi) (gi_links gi) (gi_hooks gi).

Definition policy_input (gi : GateInput) (tool : Tool) (call : ToolCall) (confirm : option str) : PolicyInput :=
  mkPolicyInput call (tl_traits tool (call_input call)) (tl_subjects tool (call_input call) (gi_cwd gi))
    confirm (gi_session gi) (gi_cwd gi).

(** ** What the gate answers *)

Inductive GateVerdict := GateAllowed | GateDenied (message : str).

Record Gated := mkGated {
  gd_allowed_by : option Reason;
  gd_notices : list Note;
  gd_call : ToolCall;
  gd_traits : ToolTraits;
  gd_gate : GateVerdict;
  gd_receipt : option ItemBody;
}.

Definition gated_allowed (call : ToolCall) (traits : ToolTraits) (reason : Reason) : Gated :=
  let by_ := match reason with RMode _ | RRule _ _ | RHook _ => Some reason | _ => None end in
  mkGated by_ [] call traits GateAllowed None.

Definition gated_denied (call : ToolCall) (traits : ToolTraits) (message : str) : Gated :=
  mkGated None [] call traits (GateDenied message) None.

Record Waiting := mkWaiting {
  wt_tool : Tool;
  wt_call : ToolCall;
  wt_traits : ToolTraits;
  wt_scope : option str;
  wt_reason : Reason;
  wt_blocked : option str;
  wt_notices : list Note;
}.

Inductive GateDecided := Settled (g : Gated) | Asking (w : Waiting).

Record Asked := mkAsked { as_id : InteractionId; as_opened_at : Timestamp; as_held : bool }.
Record Answered := mkAnswered { an_ask : Asked; an_answer : Answer }.

Inductive Reply :=
| ReplyChanged (input : Value)
| ReplyDecided (gate : GateVerdict) (decision : DecisionKind) (feedback : option str).

Definition receipt_for (item : ItemId) (call : ToolCall) (decision : DecisionKind)
    (feedback : option str) (asked : Asked) : ItemBody :=
  BPermissionReceipt (if as_held asked then None else Some (as_opened_at asked)) (Some item)
    (as_id asked) (call_name call) decision feedback.

Definition changed_decision (receipt : option ItemBody) : DecisionKind :=
  match receipt with
  | Some (BPermissionReceipt _ _ _ _ DAllowSession _) => DAllowChangedSession
  | _ => DAllowChanged
  end.

(** [describe]. *)
Definition describe_reason (r : Reason) : str :=
  match r with
  | RRule rule _ => lit "rule " ++ rule
  | RMode mode => lit "mode " ++ mode
  | RHook hook => lit "hook " ++ hook
  | RSafety detail => lit "safety: " ++ detail
  | RReadOnly => lit "read-only"
  | RConfirm detail => detail
  | RDefault => lit "default"
  end.

Definition tool_not_found (name : str) : str := lit "tool not found: " ++ name.

Definition resolve_check (checked : CheckResult) (gi : GateInput) (changed : bool) : GateDecided :=
  let call := ck_call checked in
  match gi_tool gi with
  | None =>
      let message := match ck_decision checked with
                     | Deny (RHook hook) => hook
                     | _ => tool_not_found (call_name call)
                     end in
      Settled (gated_denied call tool_traits_default message)
  | Some tool =>
      let traits := tl_traits tool (call_input call) in
      match ck_decision checked with
      | Allow reason =>
          let g := gated_allowed call traits reason in
          Settled (if changed
                   then mkGated None (gd_notices g) (gd_call g) (gd_traits g) (gd_gate g) (gd_receipt g)
                   else g)
      | Deny reason =>
          let message := match reason with
                         | RHook hook => hook
                         | _ => lit "Permission denied (" ++ describe_reason reason ++ lit ")"
                         end in
          if negb changed then Settled (gated_denied call traits message)
          else Asking (mkWaiting tool call traits None reason (Some message) [])
      | Ask reason scope => Asking (mkWaiting tool call traits scope reason None [])
      end
  end.

(** [answers]. *)
Definition offered_answers (editable scoped blocked : bool) : list AnswerSpec :=
  (if blocked then [] else [SpecAllowOnce]) ++ (if scoped then [SpecAllowSession] else [])
  ++ [SpecDeny] ++ (if editable then [SpecAllowChanged] else []).

(** [denied]. *)
Definition reply_denied (feedback : option str) : Reply :=
  let message := lit "Permission denied by the user" ++
                 match feedback with Some f => lit ": " ++ f | None => [] end in
  ReplyDecided (GateDenied message) DDeny feedback.

Definition subject_text (s : Subject) : str :=
  match s with SPath t | SCommand t | SUrl t | SName t => t end.

Fixpoint join_spaces (ws : list str) : str :=
  match ws with
  | [] => []
  | [w] => w
  | w :: ws => w ++ chr " " :: join_spaces ws
  end.

Definition resolve_reply (call : ToolCall) (traits : ToolTraits) (item : ItemId)
    (response : result KernelError (Reply * Asked)) (asked : option Asked)
    : (Gated + ToolCall) * option Asked :=
  match response with
  | Err _ => (inl (gated_denied call traits (lit "Permission interaction closed")), asked)
  | Ok (reply, current) =>
      let current := match asked with
                     | Some first => mkAsked (as_id current) (as_opened_at first) (as_held current)
                     | None => current
                     end in
      (match reply with
       | ReplyChanged value => inr (mkToolCall (call_id call) (call_name call) value)
       | ReplyDecided gate decision feedback =>
           inl (mkGated None [] call traits gate
                  (Some (receipt_for item call decision feedback current)))
       end, Some current)
  end.

Section gate.
Context {Pol : Type} `{PermissionPolicy Pol}.
(** The text of a JSON value, as its library prints it. *)
Context (json_text : Value -> str).

Definition check_kernel (pol : Pol) (gi : GateInput) (call : ToolCall) : result KernelError CheckResult :=
  let '(call, verdict) := run_hooks (gi_hooks gi) call in
  match verdict with
  | HvRefused message => Ok (mkCheckResult call (Deny (RHook message)))
  | _ =>
      let forced := match verdict with HvAsk reason => Some reason | _ => None end in
      match gi_tool gi with
      | None => Ok (mkCheckResult call (Deny RDefault))
      | Some tool =>
          let confirm := option_or (tl_confirm tool (call_input call)) forced in
          let policy := pol_decide pol (policy_input gi tool call confirm) in
          Ok (mkCheckResult call
                match policy, confirm with
                | Deny reason, _ => Deny reason
                | Ask _ scope, Some detail => Ask (RConfirm detail) scope
                | Allow _, Some detail => Ask (RConfirm detail) None
                | decision, None => decision
                end)
      end
  end.

Definition consumed_error : result KernelError CheckResult :=
  Err (mkKernelError Internal (lit "dispatch continuation already consumed")).

Definition checked (pol : Pol) (gi : GateInput) : result KernelError CheckResult * list Note :=
  let '(r, _, notes) := run check_point (check_kernel pol gi) consumed_error (gi_links gi) (gi_call gi) in
  (r, notes).

Definition check (pol : Pol) (gi : GateInput) (changed : bool) : GateDecided :=
  let '(r, notes) := checked pol gi in
  let decided := match r with
                 | Ok c => resolve_check c gi changed
                 | Err e => Settled (gated_denied (gi_call gi) tool_traits_default (ke_message e))
                 end in
  match decided with
  | Settled g => Settled (mkGated (gd_allowed_by g) notes (gd_call g) (gd_traits g) (gd_gate g) (gd_receipt g))
  | Asking w => Asking (mkWaiting (wt_tool w) (wt_call w) (wt_traits w) (wt_scope w) (wt_reason w)
                          (wt_blocked w) notes)
  end.

Definition summarize (call : ToolCall) (subjects : list Subject) : str :=
  let target := match subjects with
                | [] => json_text (call_input call)
                | _ => join_spaces (subject_text <$> subjects)
                end in
  call_name call ++ lit " " ++ chars_take 120 (join_spaces (split_whitespace target)).

Definition destroy_caution : Caution :=
  mkCaution (lit "this call can irreversibly destroy data") None.

(** What a person is shown, and what they may answer. *)
Definition prompt (pol : Pol) (input : PolicyInput) (tool : Tool) (scope blocked : option str)
    : InteractionKind * list AnswerSpec * option str :=
  let caution := match pol_caution pol input with
                 | Some c => Some c
                 | None => if destructive (pi_traits input) then Some destroy_caution else None
                 end in
  let scope := match scope with
               | Some s => if negb (option_is_some caution) && negb (option_is_some blocked) then Some s else None
               | None => None
               end in
  let answers := offered_answers (pol_allows_replacement pol input) (option_is_some scope)
                   (option_is_some blocked) in
  let summary := match blocked, pi_confirm input with
                 | Some b, _ => b
                 | None, Some c => c
                 | None, None => summarize (pi_call input) (pi_subjects input)
                 end in
  (KPermission (call_name (pi_call input)) (call_input (pi_call input)) summary
     (tl_preview tool (call_input (pi_call input)) (pi_cwd input)) scope
     (match blocked with Some reason => Some (mkCaution reason None) | None => caution end),
   answers, scope).

Definition ask_person (pol : Pol) (input : PolicyInput) (answers : list AnswerSpec) (scope : option str)
    (answer : Answer) : Reply * Pol :=
  if negb (bool_decide (answer_spec answer ∈ answers)) then (reply_denied None, pol)
  else
    match answer with
    | AllowChanged value => (ReplyChanged value, pol)
    | AllowOnce => (ReplyDecided GateAllowed DAllow None, pol)
    | AllowSession requested =>
        if bool_decide (scope = Some requested)
        then (ReplyDecided GateAllowed DAllowSession None, pol_on_verdict pol input (VerdictAllow scope))
        else (reply_denied None, pol)
    | DenyAnswer feedback => (reply_denied feedback, pol_on_verdict pol input (VerdictDeny feedback))
    | _ => (reply_denied None, pol)
    end.

(** A prompt as it was put, and its reply. *)
Abbreviation Prompted := (InteractionKind * list AnswerSpec * result KernelError Answered)%type (only parsing).

Definition ask_waiting (pol : Pol) (w : Waiting) (gi : GateInput) (asked : option Asked)
    (reply : result KernelError Answered)
    : (Gated + ToolCall) * option Asked * Pol * Prompted :=
  let call := wt_call w in
  let confirm := match wt_reason w with
                 | RConfirm detail => Some detail
                 | _ => tl_confirm (wt_tool w) (call_input call)
                 end in
  let input := mkPolicyInput call (wt_traits w) (tl_subjects (wt_tool w) (call_input call) (gi_cwd gi))
                 confirm (gi_session gi) (gi_cwd gi) in
  let '(kind, answers, scope) := prompt pol input (wt_tool w) (wt_scope w) (wt_blocked w) in
  let '(response, pol') :=
    match reply with
    | Err e => (Err e, pol)
    | Ok a => let '(r, pol') := ask_person pol input answers scope (an_answer a) in (Ok (r, an_ask a), pol')
    end in
  let '(result_, asked') := resolve_reply call (wt_traits w) (gi_item gi) response asked in
  (result_, asked', pol', (kind, answers, reply)).

Definition finish (gi : GateInput) (changed : bool) (asked : option Asked) (notices : list Note) (g : Gated) : Gated :=
  let receipt := match changed, gd_gate g, asked with
                 | true, GateAllowed, Some a =>
                     Some (receipt_for (gi_item gi) (gd_call g) (changed_decision (gd_receipt g)) None a)
                 | _, _, _ => gd_receipt g
                 end in
  mkGated (gd_allowed_by g) (notices ++ gd_notices g) (gd_call g) (gd_traits g) (gd_gate g) receipt.

(** [ask]: one reply per prompt. *)
Fixpoint ask_loop (replies : list (result KernelError Answered)) (pol : Pol) (gi : GateInput)
    (decided : GateDecided) (changed : bool) (asked : option Asked) (notices : list Note)
    (log : list Prompted) : option (Gated * Pol * list Prompted) :=
  match decided with
  | Settled g => Some (finish gi changed asked notices g, pol, log)
  | Asking w =>
      match replies with
      | [] => None
      | reply :: replies =>
          let '(r, asked, pol, prompted) := ask_waiting pol w gi asked reply in
          match r with
          | inl g => Some (finish gi changed asked (notices ++ wt_notices w) g, pol, log ++ [prompted])
          | inr call =>
              let gi := with_call gi call in
              ask_loop replies pol gi (check pol gi true) true asked (notices ++ wt_notices w)
                       (log ++ [prompted])
          end
      end
  end.

Definition gate_call (pol : Pol) (gi : GateInput) (replies : list (result KernelError Answered))
    : option (Gated * Pol * list Prompted) :=
  ask_loop replies pol gi (check pol gi false) false None [] [].
End gate.

(** With no policy registered. *)
Definition default_decide (input : PolicyInput) : Decision :=
  if trusted (pi_traits input) && read_only (pi_traits input) && negb (option_is_some (pi_confirm input))
  then Allow RReadOnly else Ask RDefault None.

Inductive DefaultPolicy := mkDefaultPolicy.
#[export] Instance default_policy : PermissionPolicy DefaultPolicy :=
  mkPermissionPolicy _ (fun _ => default_decide) (fun _ _ => None) (fun _ _ => false) (fun p _ _ => p)
    (fun _ _ => StanceAsk).

(** ** Lemmas *)

Lemma resolve_check_settled c gi changed g : resolve_check c gi changed = Settled g →
  gd_gate g = GateAllowed → gd_call g = ck_call c ∧ is_allow (ck_decision c) = true.
Proof.
  unfold resolve_check. destruct (gi_tool gi) as [tool|]; [|by intros [= <-]].
  destruct (ck_decision c); [|destruct changed; simpl; [done|by intros [= <-]]|done].
  intros [= <-] _. by destruct changed.
Qed.

Lemma resolve_check_asking c gi changed w : resolve_check c gi changed = Asking w →
  wt_call w = ck_call c ∧ (wt_blocked w = None → is_ask (ck_decision c) = true)
  ∧ (is_Some (wt_blocked w) → wt_scope w = None).
Proof.
  unfold resolve_check. destruct (gi_tool gi) as [tool|]; [|done].
  destruct (ck_decision c); [done|destruct changed; simpl; [|done]|]; intros [= <-]; simpl.
  - split_and!; [done|done|done].
  - split_and!; [done|done|by intros [? ?]].
Qed.

(** What a person accepted: a prompt that showed this very call, answered with
    something it offered; a session scope is the one it offered, and no warning
    stood beside it. *)
Definition approves (entry : InteractionKind * list AnswerSpec * result KernelError Answered)
    (call : ToolCall) : Prop :=
  ∃ summary preview scope caution answers a,
    entry = (KPermission (call_name call) (call_input call) summary preview scope caution, answers, Ok a)
    ∧ answer_spec (an_answer a) ∈ answers
    ∧ (an_answer a = AllowOnce ∨ ∃ s, an_answer a = AllowSession s ∧ scope = Some s ∧ caution = None).

Section gate_lemmas.
Context {Pol : Type} `{PermissionPolicy Pol} (json_text : Value → str).

Lemma check_settled pol gi changed g : check pol gi changed = Settled g → gd_gate g = GateAllowed →
  ∃ c, (checked pol gi).1 = Ok c ∧ gd_call g = ck_call c ∧ is_allow (ck_decision c) = true.
Proof.
  unfold check. destruct (checked pol gi) as [[c|e] notes]; simpl.
  - destruct (resolve_check c gi changed) as [g0|w] eqn:E; [|done]. intros [= <-]. simpl. intros Hg.
    destruct (resolve_check_settled _ _ _ _ E Hg). eauto.
  - by intros [= <-].
Qed.

Lemma check_asking pol gi changed w : check pol gi changed = Asking w →
  ∃ c, (checked pol gi).1 = Ok c ∧ wt_call w = ck_call c
    ∧ (wt_blocked w = None → is_ask (ck_decision c) = true).
Proof.
  unfold check. destruct (checked pol gi) as [[c|e] notes]; simpl; [|done].
  destruct (resolve_check c gi changed) as [g0|w0] eqn:E; [done|]. intros [= <-]. simpl.
  destruct (resolve_check_asking _ _ _ _ E) as (? & ? & _). eauto.
Qed.

(** Accepting is only possible where the prompt offered it. *)
Lemma ask_person_allowed pol input answers scope answer reply pol' :
  ask_person pol input answers scope answer = (reply, pol') →
  match reply with
  | ReplyDecided GateAllowed _ _ =>
      answer_spec answer ∈ answers
      ∧ (answer = AllowOnce ∨ ∃ s, answer = AllowSession s ∧ scope = Some s)
  | ReplyChanged _ => pol' = pol
  | _ => True
  end.
Proof.
  unfold ask_person. case_bool_decide as Hin; simpl; [|by intros [= <- _]].
  destruct answer; simpl in *; try (by intros [= <- <-]).
  - intros [= <- <-]. auto.
  - case_bool_decide; intros [= <- <-]; [|done]. eauto.
Qed.

Lemma offered_not_blocked editable scoped blocked : SpecAllowOnce ∈ offered_answers editable scoped blocked →
  blocked = false.
Proof. destruct blocked; [|done]. destruct editable, scoped; simpl; set_solver. Qed.

Lemma prompt_spec pol input tool scope blocked kind answers scope' :
  prompt json_text pol input tool scope blocked = (kind, answers, scope') →
  (∃ summary preview caution,
     kind = KPermission (call_name (pi_call input)) (call_input (pi_call input)) summary preview scope' caution
     ∧ (is_Some scope' → caution = None ∧ blocked = None))
  ∧ answers = offered_answers (pol_allows_replacement pol input) (option_is_some scope') (option_is_some blocked).
Proof.
  unfold prompt. intros [= <- <- <-]. split; [|done]. eexists _, _, _. split; [done|].
  set (caution := match pol_caution pol input with Some c => Some c | None => _ end).
  destruct scope as [s|]; [|by intros [? ?]]. destruct caution, blocked; simpl; by intros [? ?].
Qed.

Lemma ask_waiting_spec pol w gi asked reply r asked' pol' prompted :
  ask_waiting json_text pol w gi asked reply = (r, asked', pol', prompted) →
  match r with
  | inl g => gd_gate g = GateAllowed →
      gd_call g = wt_call w ∧ wt_blocked w = None ∧ approves prompted (wt_call w)
  | inr call => pol' = pol ∧ call_name call = call_name (wt_call w) ∧ call_id call = call_id (wt_call w)
  end.
Proof.
  unfold ask_waiting. set (input := mkPolicyInput _ _ _ _ _ _).
  destruct (prompt json_text pol input (wt_tool w) (wt_scope w) (wt_blocked w)) as [[kind answers] scope] eqn:Ep.
  destruct (prompt_spec _ _ _ _ _ _ _ _ Ep) as ((summary & preview & caution & -> & Hsc) & ->).
  destruct reply as [a|e]; simpl; [|by intros [= <- <- <- <-]].
  destruct (ask_person _ _ _ _ _) as [rep p] eqn:Ea. apply ask_person_allowed in Ea.
  intros [= <- _ <- <-]. destruct rep as [v|gate d fb]; simpl; [by subst|].
  intros ->. destruct Ea as [Hin Hans]. split; [done|].
  destruct Hans as [Hans|(s & Hans & Hs)].
  - split.
    + rewrite Hans in Hin. apply offered_not_blocked in Hin. by destruct (wt_blocked w).
    + eexists _, _, _, _, _, a. split; [done|]. auto.
  - destruct Hsc as [Hc Hb]; [by eexists|]. split; [done|].
    eexists _, _, _, _, _, a. split; [done|]. split; [done|]. right. eauto.
Qed.

Lemma with_call_call gi call call' : with_call (with_call gi call) call' = with_call gi call'.
Proof. done. Qed.

(** What a call that gets through has behind it. *)
Definition let_through (pol : Pol) (gi : GateInput) (g : Gated)
    (log : list (InteractionKind * list AnswerSpec * result KernelError Answered)) : Prop :=
  ∃ call c, (checked pol (with_call gi call)).1 = Ok c ∧ gd_call g = ck_call c
    ∧ (is_allow (ck_decision c) = true
       ∨ is_ask (ck_decision c) = true ∧ ∃ log0 entry, log = log0 ++ [entry] ∧ approves entry (gd_call g)).

Lemma ask_loop_sound replies pol gi call changed asked notices log g pol' log' :
  ask_loop json_text replies pol (with_call gi call) (check pol (with_call gi call) changed)
    changed asked notices log = Some (g, pol', log') →
  gd_gate g = GateAllowed → let_through pol gi g log'.
Proof.
  revert call changed asked notices log.
  induction replies as [|reply replies IH]; intros call changed asked notices log.
  all: destruct (check pol (with_call gi call) changed) as [g0|w] eqn:Ec; simpl; try done.
  1,2: intros [= <- <- <-] Hg; simpl in *; destruct (check_settled _ _ _ _ Ec Hg) as (c & ? & ? & ?);
       exists call, c; by auto.
  destruct (ask_waiting json_text pol w (with_call gi call) asked reply) as [[[r asked'] p] prompted] eqn:Ea.
  pose proof (ask_waiting_spec _ _ _ _ _ _ _ _ _ Ea) as Hspec. destruct r as [g0|call'].
  - intros [= <- <- <-] Hg. simpl in *. destruct (Hspec Hg) as (Hcall & Hb & Happ).
    destruct (check_asking _ _ _ _ Ec) as (c & Hc & Hw & Hask). exists call, c.
    split_and!; [done|etrans; [exact Hcall|exact Hw]|]. right. split; [by apply Hask|].
    exists log, prompted. split; [done|]. simpl. by rewrite Hcall.
  - destruct Hspec as [-> _]. rewrite with_call_call. apply IH.
Qed.

(** A prompt offers the scope it was given or none. *)
Lemma prompt_scope pol input tool scope blocked kind answers s :
  prompt json_text pol input tool scope blocked = (kind, answers, Some s) → scope = Some s.
Proof.
  unfold prompt. intros [= _ _ E]. destruct scope; [|done]. by destruct (negb _ && _).
Qed.

(** A session answer that lets a call through was the scope on offer, and the
    policy hears exactly it. *)
Lemma ask_waiting_session pol w gi asked ask s g asked' pol' prompted :
  ask_waiting json_text pol w gi asked (Ok (mkAnswered ask (AllowSession s))) = (inl g, asked', pol', prompted) →
  gd_gate g = GateAllowed →
  wt_scope w = Some s
  ∧ ∃ input, pi_session input = gi_session gi ∧ pol' = pol_on_verdict pol input (VerdictAllow (Some s)).
Proof.
  unfold ask_waiting. set (input := mkPolicyInput _ _ _ _ _ _).
  destruct (prompt json_text pol input (wt_tool w) (wt_scope w) (wt_blocked w)) as [[kind answers] scope] eqn:Ep.
  cbn [an_answer an_ask]. unfold ask_person.
  case_bool_decide; cbn [negb]; [case_bool_decide as Hsc|]; intros E Hg; simplify_eq/=.
  split; [by apply prompt_scope in Ep|by exists input].
Qed.

(** Only a changed input goes round again. *)
Lemma ask_waiting_again pol w gi asked reply call asked' pol' prompted :
  ask_waiting json_text pol w gi asked reply = (inr call, asked', pol', prompted) →
  ∃ a v, reply = Ok a ∧ an_answer a = AllowChanged v.
Proof.
  unfold ask_waiting. destruct (prompt _ _ _ _ _ _) as [[kind answers] scope].
  destruct reply as [a|e]; simpl; [|done].
  destruct (ask_person _ _ _ _ _) as [rep p] eqn:Ea. unfold ask_person in Ea.
  intros E. exists a. destruct (negb _); [by simplify_eq|].
  destruct (an_answer a); try (by simplify_eq); [by eexists|]. case_bool_decide; by simplify_eq.
Qed.

Definition not_a_change (r : result KernelError Answered) : Prop :=
  match r with Ok a => ∀ v, an_answer a ≠ AllowChanged v | Err _ => True end.

Lemma ask_loop_settles replies pol gi decided changed asked notices log r :
  r ∈ replies → not_a_change r →
  ∃ g pol' log', ask_loop json_text replies pol gi decided changed asked notices log = Some (g, pol', log')
    ∧ length log' ≤ length log + length replies.
Proof.
  revert pol gi decided changed asked notices log.
  induction replies as [|reply replies IH]; intros pol gi decided changed asked notices log Hin Hr.
  { by apply elem_of_nil in Hin. }
  simpl. destruct decided as [g|w]; [eexists _, _, _; split; [done|lia]|].
  destruct (ask_waiting json_text pol w gi asked reply) as [[[r' asked'] p] prompted] eqn:Ea.
  destruct r' as [g|call].
  - eexists _, _, _. split; [done|]. rewrite length_app. simpl. lia.
  - apply ask_waiting_again in Ea as (a & v & -> & Hv).
    apply elem_of_cons in Hin as [->|Hin]; [by destruct (Hr v)|].
    destruct (IH p (with_call gi call) (check p (with_call gi call) true) true asked'
      (notices ++ wt_notices w) (log ++ [prompted]) Hin Hr) as (g & p' & log' & -> & Hl).
    eexists _, _, _. split; [done|]. rewrite length_app in Hl. simpl in Hl. lia.
Qed.

(** The kernel's check passes the policy's answer on, never a looser one. *)
Lemma check_kernel_spec pol gi call c : check_kernel pol gi call = Ok c → is_deny (ck_decision c) = false →
  ∃ tool confirm, gi_tool gi = Some tool
    ∧ is_deny (pol_decide pol (policy_input gi tool (ck_call c) confirm)) = false
    ∧ (is_allow (ck_decision c) = true →
         confirm = None ∧ tl_confirm tool (call_input (ck_call c)) = None
         ∧ is_allow (pol_decide pol (policy_input gi tool (ck_call c) confirm)) = true).
Proof.
  unfold check_kernel. destruct (run_hooks (gi_hooks gi) call) as [call' v].
  destruct v as [| reason|message]; [| |by intros [= <-]].
  all: destruct (gi_tool gi) as [tool|]; [|by intros [= <-]].
  all: intros [= <-]; simpl; intros Hd.
  all: exists tool; eexists; split; [done|].
  1: instantiate (1 := option_or (tl_confirm tool (call_input call')) None).
  2: instantiate (1 := option_or (tl_confirm tool (call_input call')) (Some reason)).
  all: destruct (pol_decide pol _) eqn:E; try done; split; try done.
  all: destruct (tl_confirm tool (call_input call')); simpl in *; done.
Qed.
End gate_lemmas.

(** ** Claims *)

Section gate_claims.
Context {Pol : Type} `{PermissionPolicy Pol} (json_text : Value → str).

(** C1: nothing runs that the policy denied or nobody decided.  When the gate
    lets a call through, with no fully trusted link in the chain, the tool
    exists and the policy, asked about a call equal to the one that runs, did
    not deny it; and either it allowed it with no confirmation due, or the last
    prompt put to a person showed exactly the call that runs and was accepted. *)
Theorem gate_lets_through_only_decided (pol pol' : Pol) (gi : GateInput)
    (replies : list (result KernelError Answered)) (g : Gated)
    (log : list (InteractionKind * list AnswerSpec * result KernelError Answered))
  (Htier : Forall (λ l, ln_tier l ≠ Full) (gi_links gi))
  (Hrun : gate_call json_text pol gi replies = Some (g, pol', log))
  (Hgate : gd_gate g = GateAllowed) :
  ∃ tool call confirm, gi_tool gi = Some tool ∧ same_call call (gd_call g)
    ∧ let d := pol_decide pol (policy_input gi tool call confirm) in
      is_deny d = false
      ∧ (confirm = None ∧ tl_confirm tool (call_input call) = None ∧ is_allow d = true
         ∨ ∃ log0 entry, log = log0 ++ [entry] ∧ approves entry (gd_call g)).
Proof.
  assert (gi = with_call gi (gi_call gi)) as Hgi by by destruct gi. unfold gate_call in Hrun. rewrite Hgi in Hrun.
  destruct (ask_loop_sound _ _ _ _ _ _ _ _ _ _ _ _ Hrun Hgate) as (call & c & Hc & Hcall & Hd).
  assert (kernel_backed (check_kernel pol (with_call gi call)) call c) as Hb.
  { unfold checked in Hc. simpl in Hc.
    destruct (run check_point _ _ (gi_links gi) call) as [[r sp] ns] eqn:Er. simpl in Hc. subst r.
    unfold run in Er. destruct (gi_links gi) as [|l ls].
    - injection Er as Er _ _. right. exists call, c. split_and!; [done|by apply call_pinned_spec|apply rtc_refl|done].
    - apply (run_check_backed consumed_error _ (l :: ls)); [done|]. by rewrite Er. }
  assert (is_deny (ck_decision c) = false) as Hnd.
  { destruct Hd as [Hd|[Hd _]]; by destruct (ck_decision c). }
  destruct Hb as [Hb|(i & base & Hk & _ & Hs & Hr)]; [congruence|].
  assert (is_deny (ck_decision base) = false) as Hnb.
  { destruct (ck_decision c), (ck_decision base); simpl in *; try done; lia. }
  destruct (check_kernel_spec _ _ _ _ Hk Hnb) as (tool & confirm & Ht & Hpd & Hpa).
  exists tool, (ck_call base), confirm. split; [done|]. split; [by rewrite Hcall|]. split; [done|].
  destruct Hd as [Hd|[_ Hd]]; [left|by right]. apply Hpa.
  destruct (ck_decision c), (ck_decision base); simpl in *; try done; lia.
Qed.

(** the gate always settles: as soon as one reply is anything but a changed
    input, or the interaction closes, it answers; and it puts at most one prompt
    per reply. *)
Theorem gate_settles (pol : Pol) (gi : GateInput) (replies : list (result KernelError Answered))
    (r : result KernelError Answered) (Hin : r ∈ replies) (Hr : not_a_change r) :
  ∃ g pol' log, gate_call json_text pol gi replies = Some (g, pol', log) ∧ length log ≤ length replies.
Proof. exact (ask_loop_settles json_text replies pol gi _ false None [] [] r Hin Hr). Qed.

(** a refusal by the policy is final: with no hooks or links in the way, a
    call it denies is denied without a prompt, whatever anybody would answer,
    and the policy hears of no verdict. *)
Theorem policy_denial_is_final (pol : Pol) (gi : GateInput) (tool : Tool) (reason : Reason)
    (replies : list (result KernelError Answered))
  (Htool : gi_tool gi = Some tool) (Hhooks : gi_hooks gi = []) (Hlinks : gi_links gi = [])
  (Hdeny : pol_decide pol (policy_input gi tool (gi_call gi) (tl_confirm tool (call_input (gi_call gi)))) = Deny reason) :
  ∃ g message, gate_call json_text pol gi replies = Some (g, pol, [])
    ∧ gd_gate g = GateDenied message ∧ gd_receipt g = None.
Proof.
  unfold gate_call, check, checked. rewrite Hlinks. unfold run, check_kernel, run_hooks.
  rewrite Hhooks, Htool. simpl.
  replace (option_or (tl_confirm tool (call_input (gi_call gi))) None)
    with (tl_confirm tool (call_input (gi_call gi))) by (by destruct (tl_confirm _ _)).
  rewrite Hdeny. unfold resolve_check. rewrite Htool. simpl.
  destruct replies; simpl; eexists _, _; split; [done|by split|done|by split].
Qed.
End gate_claims.

Section gate_session.
Context `{ShellTools} (json_text : Value → str).

Lemma checked_plain (pol : PermissionsPolicy) gi tool :
  gi_tool gi = Some tool → gi_hooks gi = [] → gi_links gi = [] →
  (checked pol gi) = (check_kernel pol gi (gi_call gi), [])
  ∧ ∀ c, check_kernel pol gi (gi_call gi) = Ok c → ck_call c = gi_call gi.
Proof.
  intros Ht Hh Hl. unfold checked, check_kernel, run_hooks. rewrite Hl, Hh, Ht. simpl.
  split; [done|]. by intros c [= <-].
Qed.

(** The gate lets through, unprompted, what the policy allows unconfirmed. *)
Lemma gate_unprompted (pol : PermissionsPolicy) gi tool replies :
  gi_tool gi = Some tool → gi_hooks gi = [] → gi_links gi = [] →
  tl_confirm tool (call_input (gi_call gi)) = None →
  is_allow (policy_decide pol (policy_input gi tool (gi_call gi) None)) = true →
  ∃ g, gate_call json_text pol gi replies = Some (g, pol, []) ∧ gd_gate g = GateAllowed ∧ gd_call g = gi_call gi.
Proof.
  intros Ht Hh Hl Hc Ha. unfold gate_call, check.
  rewrite (proj1 (checked_plain pol gi tool Ht Hh Hl)). unfold check_kernel, run_hooks. rewrite Hh, Ht. simpl.
  rewrite Hc. simpl. change (pol_decide pol) with (policy_decide pol).
  destruct (policy_decide pol _) as [reason|reason|reason sc]; try done. unfold resolve_check. rewrite Ht. simpl.
  destruct replies; simpl; eexists; split; [done|by split|done|by split].
Qed.

(** What the kernel's check says without hooks, and the policy answer behind it. *)
Lemma check_kernel_plain (pol : PermissionsPolicy) gi tool :
  gi_tool gi = Some tool → gi_hooks gi = [] →
  let confirm := tl_confirm tool (call_input (gi_call gi)) in
  check_kernel pol gi (gi_call gi) =
  Ok (mkCheckResult (gi_call gi)
        match policy_decide pol (policy_input gi tool (gi_call gi) confirm), confirm with
        | Deny reason, _ => Deny reason
        | Ask _ scope, Some detail => Ask (RConfirm detail) scope
        | Allow _, Some detail => Ask (RConfirm detail) None
        | decision, None => decision
        end).
Proof.
  intros Ht Hh. unfold check_kernel, run_hooks. rewrite Hh, Ht. simpl.
  destruct (tl_confirm tool (call_input (gi_call gi))); [reflexivity|]. simpl.
  change (pol_decide pol) with (policy_decide pol). by destruct (policy_decide pol _).
Qed.

(** accepting for the session does what it says: once a person answers a
    prompt with the session scope it offered and the call goes through, the same
    call goes through again with nobody asked. *)
Theorem session_accept_silences (p p' : PermissionsPolicy) (gi : GateInput) (tool : Tool) (ask : Asked)
    (s : str) (g : Gated)
    (log : list (InteractionKind * list AnswerSpec * result KernelError Answered))
  (Hlock : poisoned (pp_sessions p) = false)
  (Htool : gi_tool gi = Some tool) (Hhooks : gi_hooks gi = []) (Hlinks : gi_links gi = [])
  (Hrun : gate_call json_text p gi [Ok (mkAnswered ask (AllowSession s))] = Some (g, p', log))
  (Hgate : gd_gate g = GateAllowed) :
  ∃ g', gate_call json_text p' gi [] = Some (g', p', []) ∧ gd_gate g' = GateAllowed ∧ gd_call g' = gi_call gi.
Proof.
  unfold gate_call, check in Hrun. rewrite (proj1 (checked_plain p gi tool Htool Hhooks Hlinks)) in Hrun.
  rewrite (check_kernel_plain p gi tool Htool Hhooks) in Hrun.
  remember (tl_confirm tool (call_input (gi_call gi))) as confirm eqn:Hconfirm.
  set (inp := policy_input gi tool (gi_call gi) confirm) in *.
  unfold resolve_check in Hrun. rewrite Htool in Hrun. cbn -[ask_loop] in Hrun.
  assert (∀ reason scope, (policy_decide p inp = Ask reason scope ∨ scope = None) →
    ∀ w, wt_scope w = scope → 
    ask_loop json_text [Ok (mkAnswered ask (AllowSession s))] p gi (Asking w) false None [] [] = Some (g, p', log) →
    confirm = None ∧ is_allow (policy_decide p' inp) = true) as Hask.
  { intros reason scope Hp w Hw. cbn [ask_loop].
    destruct (ask_waiting json_text p w gi None _) as [[[r asked'] pol'] prompted] eqn:Ea.
    destruct r as [g0|call]; [|by apply ask_waiting_again in Ea as (a & v & [= <-] & ?)].
    intros [= <- <- _]. apply ask_waiting_session in Ea as (Hs & input' & Hses & ->); [|done].
    rewrite Hw in Hs. destruct Hp as [Hp|Hp]; [rewrite Hs in Hp|congruence].
    destruct (scope_silences p inp reason s Hlock Hp) as [Hal _].
    split; [exact (scope_unconfirmed _ _ _ _ Hp)|]. revert Hal. simpl. by rewrite Hses. }
  assert (confirm = None ∧ is_allow (policy_decide p' inp) = true) as [Hc Ha].
  { destruct (policy_decide p inp) as [r|r|r sc] eqn:Ed; cbn -[ask_loop] in Hrun; [|by simplify_eq/=|].
    - destruct confirm as [d|]; cbn -[ask_loop] in Hrun.
      + eapply (Hask r None); [by right| |exact Hrun]; done.
      + simplify_eq/=. by rewrite Ed.
    - destruct confirm as [d|]; cbn -[ask_loop] in Hrun; eapply (Hask r sc (or_introl eq_refl)), Hrun; done. }
  apply gate_unprompted with (tool := tool); try congruence. unfold inp in Ha. by rewrite Hc in Ha.
Qed.
End gate_session.

(** ** Witnesses *)

Definition demo_gate_tool : Tool :=
  mkTool (λ _, demo_traits false)
    (λ v _, match value_get (lit "command") v with Some (VString c) => [SCommand c] | _ => [] end)
    (λ _, None) (λ _ _, None).
Definition demo_gate (command : str) : GateInput :=
  mkGateInput (lit "ses_1") (lit "/work") (lit "i1")
    (mkToolCall (lit "c1") (lit "Bash") (VObject [(lit "command", VString command)])) (Some demo_gate_tool) [] [].
Definition demo_asked : Asked := mkAsked (lit "int_1") 5 false.
Definition demo_pol : PermissionPolicy PermissionsPolicy := @permissions_policy demo_tools.
Definition demo_text (v : Value) : str := [].

(** A person changes the command, the changed call is checked afresh, and they
    accept what the second prompt shows. *)
Definition demo_replies : list (result KernelError Answered) :=
  [Ok (mkAnswered demo_asked (AllowChanged (VObject [(lit "command", VString (lit "make x"))])));
   Ok (mkAnswered demo_asked AllowOnce)].
Definition demo_run := @gate_call _ demo_pol demo_text demo_policy (demo_gate (lit "make")) demo_replies.

Lemma gate_lets_through_only_decided_witness :
  match demo_run with
  | Some (g, _, log) =>
      gd_gate g = GateAllowed
      ∧ ∃ tool call confirm, gi_tool (demo_gate (lit "make")) = Some tool ∧ same_call call (gd_call g)
        ∧ let d := @pol_decide _ demo_pol demo_policy (policy_input (demo_gate (lit "make")) tool call confirm) in
          is_deny d = false
          ∧ (confirm = None ∧ tl_confirm tool (call_input call) = None ∧ is_allow d = true
             ∨ ∃ log0 entry, log = log0 ++ [entry] ∧ approves entry (gd_call g))
  | None => False
  end.
Proof.
  destruct demo_run as [[[g pol'] log]|] eqn:E; [|vm_compute in E; discriminate].
  assert (gd_gate g = GateAllowed) as Hg by (vm_compute in E; by injection E as <- _ _).
  split; [exact Hg|].
  apply (@gate_lets_through_only_decided _ demo_pol demo_text demo_policy pol' (demo_gate (lit "make"))
    demo_replies g log); [constructor|exact E|exact Hg].
Defined.

Lemma gate_settles_witness :
  ∃ g pol' log, demo_run = Some (g, pol', log) ∧ length log ≤ 2.
Proof.
  apply (@gate_settles _ demo_pol demo_text demo_policy (demo_gate (lit "make")) demo_replies
    (Ok (mkAnswered demo_asked AllowOnce))); [set_solver|done].
Defined.

Lemma policy_denial_is_final_witness :
  ∃ g message, @gate_call _ demo_pol demo_text demo_policy (demo_gate (lit "rm -rf /")) demo_replies
    = Some (g, demo_policy, []) ∧ gd_gate g = GateDenied message ∧ gd_receipt g = None.
Proof.
  eapply (@policy_denial_is_final _ demo_pol demo_text demo_policy (demo_gate (lit "rm -rf /")) demo_gate_tool);
    [done|done|done|vm_compute; reflexivity].
Defined.

Lemma session_accept_silences_witness :
  match @gate_call _ demo_pol demo_text demo_policy (demo_gate (lit "cargo test"))
      [Ok (mkAnswered demo_asked (AllowSession (lit "Bash(cargo:*)")))] with
  | Some (_, p', _) =>
      ∃ g', @gate_call _ demo_pol demo_text p' (demo_gate (lit "cargo test")) [] = Some (g', p', [])
        ∧ gd_gate g' = GateAllowed ∧ gd_call g' = gi_call (demo_gate (lit "cargo test"))
  | None => False
  end.
Proof.
  destruct (@gate_call _ demo_pol demo_text demo_policy (demo_gate (lit "cargo test")) _)
    as [[[g p'] log]|] eqn:E; [|vm_compute in E; discriminate].
  apply (@session_accept_silences demo_tools demo_text demo_policy p' (demo_gate (lit "cargo test"))
    demo_gate_tool demo_asked (lit "Bash(cargo:*)") g log); [done|done|done|done|exact E|].
  vm_compute in E. by injection E as <- _ _.
Defined.
