(* ===== verification/Settings.v ===== *)
(** * Settings: the layers, their merge, and what a repository may set

    [bingo-core/src/settings.rs], [settings/merge.rs], [settings/approval.rs],
    [approval.rs] with [approval/digest.rs]'s entries, [settings/edit.rs]'s diff and
    [settings/instances.rs].  A layer is a JSON object with where it came from; the
    layers fold into one object, path by path, lowest first; the kernel keeps its keys
    and every plugin gets the keys it claimed.  A repository's layer is code someone
    else wrote: it grants nothing, and what it would run waits for the person. *)

From S2P Require Import Prelude Text Digest Model CommandLine PermPath PermRule PermDecide Chain Catalogue.

(** ** Maps of JSON values *)

(** [get_mut]: the value at a key, changed in place. *)
Fixpoint map_alter (f : Value → Value) (k : str) (m : list (str * Value)) : list (str * Value) :=
  match m with
  | [] => []
  | (k', v) :: m => if bool_decide (k' = k) then (k', f v) :: m else (k', v) :: map_alter f k m
  end.

(** [Map::remove] under [preserve_order]: the last entry takes the place. *)
Definition swap_remove {A} (i : nat) (l : list A) : list A :=
  match last (drop (S i) l) with
  | Some x => take i l ++ x :: removelast (drop (S i) l)
  | None => take i l
  end.
Definition map_remove (k : str) (m : list (str * Value)) : list (str * Value) :=
  match position (fun kv => bool_decide (kv.1 = k)) m with Some i => swap_remove i m | None => m end.

Definition as_object (v : Value) : option (list (str * Value)) := match v with VObject m => Some m | _ => None end.
Definition is_object (v : Value) : bool := match v with VObject _ => true | _ => false end.
Definition contains_key (k : str) (m : list (str * Value)) : bool := option_is_some (map_get k m).

(** ** Layers and claims ([settings.rs]) *)

Inductive Merge := Replace | Accumulate | PersonalAccumulate | ByName.
#[export] Instance Merge_eq_dec : EqDecision Merge.
Proof. solve_decision. Defined.

Inductive LayerOrigin := OUser | ORepository (root : PathBuf) | OExplicit.
Record Layer := mkLayer { ly_origin : LayerOrigin; ly_source : str; ly_value : list (str * Value) }.
Definition is_user (l : Layer) : bool := match ly_origin l with OUser => true | _ => false end.
Definition repository (l : Layer) : option PathBuf := match ly_origin l with ORepository root => Some root | _ => None end.
Definition with_value (l : Layer) (v : list (str * Value)) : Layer := mkLayer (ly_origin l) (ly_source l) v.

Record Claim := mkClaim { cl_plugin : str; cl_keys : list (str * Merge); cl_approve : list str }.

(** [path.split('.')]. *)
Definition segments (path : str) : list str := split_by (N.eqb (chr ".")) path.
Definition root_of (key : str) : str := default key (head (segments key)).
Definition roots (c : Claim) : list str := root_of ∘ fst <$> cl_keys c.

Definition KERNEL_KEYS : list str :=
  [lit "provider"; lit "model"; lit "thinking"; lit "maxTokens"; lit "models"; lit "pictures"; lit "enabledPlugins";
   lit "pluginTrust"; lit "keys"; lit "pinned"; lit "approved"].
Definition CACHE_DAYS : list str := [lit "cacheDays"; lit "cache_days"].

Inductive SettingsError :=
| SeNull (key : str)
| SeConflict (key first second : str)
| SeType (key layer message : str).

Record UnknownKey := mkUnknownKey { uk_source : str; uk_key : str }.

(** ** Approvals ([approval.rs]) *)

Abbreviation Approved := (gmap str (gmap str str)) (only parsing).

Definition verdict (approved : Approved) (root what digest : str) : bool * bool :=
  (** (it may run, the entry changed since it was approved) *)
  match (let? entries := approved !! root in entries !! what) with
  | Some saved => (bool_decide (saved = digest), negb (bool_decide (saved = digest)))
  | None => (false, false)
  end.

(** [BTreeMap]'s order of keys. *)
Definition key_le (a b : str * Value) : Prop := str_le a.1 b.1.
#[export] Instance key_le_dec : RelDecision key_le.
Proof. intros a b. unfold key_le, str_le. apply _. Defined.

Fixpoint canonical (v : Value) : Value :=
  match v with
  | VObject m => VObject (merge_sort key_le ((fix fields m := match m with [] => [] | (k, v) :: m => (k, canonical v) :: fields m end) m))
  | VArray l => VArray (map canonical l)
  | v => v
  end.

(** ** The merge ([merge.rs]) *)

Abbreviation Sourced := (str * Value)%type (only parsing).

Definition owner_step (owners : gmap str str) (claim : Claim) (root : str) : result SettingsError (gmap str str) :=
  match owners !! root with
  | Some first =>
      if bool_decide (first = cl_plugin claim) then Ok (<[root := cl_plugin claim]> owners)
      else Err (SeConflict root first (cl_plugin claim))
  | None => Ok (<[root := cl_plugin claim]> owners)
  end.
Fixpoint try_fold {A B E} (f : B → A → result E B) (acc : B) (l : list A) : result E B :=
  match l with [] => Ok acc | x :: l => let* acc := f acc x in try_fold f acc l end.
Definition owners (claims : list Claim) : result SettingsError (gmap str str) :=
  try_fold (fun owners claim => try_fold (fun owners root => owner_step owners claim root) owners (roots claim))
    (list_to_map ((fun k => (k, lit "kernel")) <$> KERNEL_KEYS)) claims.

Definition modes (claims : list Claim) : gmap str Merge := collect_map (claims ≫= cl_keys).

Definition unknown_keys (layers : list Layer) (owners : gmap str str) : list UnknownKey :=
  layers ≫= (fun layer => mkUnknownKey (ly_source layer) <$> retain (fun k => negb (option_is_some (owners !! k))) (ly_value layer).*1).

Definition child_path (path key : str) : str := if bool_decide (path = []) then key else path ++ chr "." :: key.

(** The values the last [null] left, lowest first. *)
Definition live (values : list Sourced) : list Sourced :=
  drop (match rposition (fun sv : Sourced => is_null sv.2) values with Some i => S i | None => 0 end) values.
Definition expected_list (path layer : str) : SettingsError := SeType path layer (lit "expected a list").
Fixpoint arrays (path : str) (values : list Sourced) : result SettingsError (list Value) :=
  match values with
  | [] => Ok []
  | (source, value) :: values =>
      match as_array value with
      | None => Err (expected_list path source)
      | Some items => let* more := arrays path values in Ok (items ++ more)
      end
  end.
Definition accumulate (path : str) (values : list Sourced) : result SettingsError Value :=
  let* items := arrays path values in
  Ok (VArray (foldl (fun out item => if any (fun x => value_eqb x item) out then out else out ++ [item]) [] items)).
Definition entry_name (path : str) (item : Value) : result SettingsError str :=
  match (let? v := option_or (value_get (lit "name") item) (value_get (lit "id") item) in as_str v) with
  | Some name => Ok name
  | None => Err (SeType path (lit "merged") (lit "every entry needs a string `name` or `id`"))
  end.
Fixpoint named_entries (path : str) (items : list Value) (order : list str) (entries : gmap str Value) : result SettingsError (list str * gmap str Value) :=
  match items with
  | [] => Ok (order, entries)
  | item :: items =>
      let* name := entry_name path item in
      named_entries path items (if option_is_some (entries !! name) then order else order ++ [name]) (<[name := item]> entries)
  end.
Definition by_name (path : str) (values : list Sourced) : result SettingsError Value :=
  let* items := arrays path values in
  let* found := named_entries path items [] ∅ in
  Ok (VArray (omap (fun n => found.2 !! n) found.1)).

(** The keys of all objects, each where it is first seen. *)
Definition object_keys (objects : list (str * list (str * Value))) : list str :=
  foldl (fun keys k => if bool_decide (k ∈ keys) then keys else keys ++ [k]) [] (objects ≫= (fun so => so.2.*1)).
Definition values_at (key : str) (objects : list (str * list (str * Value))) : list Sourced :=
  omap (fun so : str * list (str * Value) => (fun v => (so.1, v)) <$> map_get key so.2) objects.

Section fold.
Context (modes : gmap str Merge).

Definition fold_keys (fold_value : str → list Sourced → result SettingsError (option Value))
    (path : str) (objects : list (str * list (str * Value))) : result SettingsError (list (str * Value)) :=
  try_fold (fun out key =>
    let* value := fold_value (child_path path key) (values_at key objects) in
    Ok (match value with Some value => map_insert key value out | None => out end)) [] (object_keys objects).

(** [fold_value] and [fold_objects], which call each other one level down: [fuel]
    bounds the levels. *)
Fixpoint fold_value_fuel (fuel : nat) (path : str) (values : list Sourced) : result SettingsError (option Value) :=
  match fuel with
  | O => Ok None
  | S fuel =>
      match last (live values) with
      | None => Ok None
      | Some (_, highest) =>
          if bool_decide (path = lit "keys") then Ok (Some highest)
          else if all (fun sv => is_object sv.2) (live values)
          then let* object := fold_keys (fold_value_fuel fuel) path (omap (fun sv : Sourced => (fun o => (sv.1, o)) <$> as_object sv.2) (live values)) in
               Ok (Some (VObject object))
          else match default Replace (modes !! path) with
               | Replace => Ok (Some highest)
               | Accumulate | PersonalAccumulate => let* v := accumulate path (live values) in Ok (Some v)
               | ByName => let* v := by_name path (live values) in Ok (Some v)
               end
      end
  end.
End fold.

(** How deep objects go: the levels a fold has. *)
Fixpoint depth (v : Value) : nat :=
  match v with
  | VObject m => S ((fix fields m := match m with [] => 0 | (_, v) :: m => Nat.max (depth v) (fields m) end) m)
  | _ => 0
  end.
Definition fields_depth (m : list (str * Value)) : nat := foldr (fun kv n => Nat.max (depth kv.2) n) 0 m.
Definition fold_value (modes : gmap str Merge) (path : str) (values : list Sourced) : result SettingsError (option Value) :=
  fold_value_fuel modes (S (foldr (fun sv n => Nat.max (depth sv.2) n) 0 values)) path values.
Definition fold_objects (modes : gmap str Merge) (path : str) (objects : list (str * list (str * Value))) : result SettingsError (list (str * Value)) :=
  fold_keys (fold_value modes) path objects.

(** ** Approval of repository entries ([settings/approval.rs]) *)

(** A value by its dotted path. *)
Fixpoint at_segments (ks : list str) (v : Value) : option Value :=
  match ks with [] => Some v | k :: ks => let? v := value_get k v in at_segments ks v end.
Definition at_path (m : list (str * Value)) (path : str) : option Value := at_segments (segments path) (VObject m).

Fixpoint remove_at (ks : list str) (m : list (str * Value)) : list (str * Value) * bool :=
  match ks with
  | [] => (m, false)
  | [k] => (map_remove k m, contains_key k m)
  | k :: ks =>
      match map_get k m with
      | Some (VObject child) => let '(child, removed) := remove_at ks child in (map_alter (fun _ => VObject child) k m, removed)
      | _ => (m, false)
      end
  end.
Definition notice (code : String.string) (message : str) : str * str := (lit code, message).
Arguments notice code%_string.
Definition personal_layer (claims : list Claim) (layer : Layer) : Layer * list (str * str) :=
  match repository layer with
  | None => (layer, [])
  | Some _ =>
      foldl (fun '(layer, notices) (km : str * Merge) =>
        if bool_decide (km.2 = PersonalAccumulate)
        then let '(value, removed) := remove_at (segments km.1) (ly_value layer) in
             (with_value layer value,
              if removed : bool
              then notices ++ [notice "PROJECT_SETTING_IGNORED" (km.1 ++ lit " in " ++ ly_source layer
                                 ++ lit " is ignored; executable directories must be supplied by the person")]
              else notices)
        else (layer, notices)) (layer, []) (claims ≫= cl_keys)
  end.
Definition personal (layers : list Layer) (claims : list Claim) : list Layer * list (str * str) :=
  let done := personal_layer claims <$> layers in (done.*1, concat done.*2).

Definition canonical_pictures (layer : Layer) : Layer :=
  with_value layer
    (map_alter (fun v =>
       match v with
       | VObject pictures =>
           match map_get (lit "cache_days") pictures with
           | Some value => VObject (map_insert (lit "cacheDays") value (map_remove (lit "cache_days") pictures))
           | None => v
           end
       | _ => v
       end) (lit "pictures") (ly_value layer)).
(** The layers as the merge reads them. *)
Definition prepared (layers : list Layer) (claims : list Claim) : list Layer := canonical_pictures <$> (personal layers claims).1.

Abbreviation Entries := (gmap (str * str) str) (only parsing).

(** [json_text] is serde's. *)
Section merge.
Context (json_text : Value → bytes).

Definition digest_entry (v : Value) : str := lit "sha256:" ++ hex (digest (json_text (canonical v))).

Definition entry_names (layer : Layer) (key : str) : list str :=
  match at_path (ly_value layer) key with Some (VObject m) => m.*1 | _ => [] end.
Definition what_of (key name : str) : str := key ++ chr ":" :: name.
Definition entries (layers : list Layer) (claims : list Claim) (merged : list (str * Value)) : Entries :=
  foldl (fun entries x => <[x.1 := x.2]> entries) ∅
    (layers ≫= (fun layer =>
       match repository layer with
       | None => []
       | Some root =>
           (claims ≫= cl_approve) ≫= (fun key =>
             omap (fun name => (fun value => ((root, what_of key name), digest_entry value))
                                 <$> (let? entries := at_path merged key in value_get name entries))
               (entry_names layer key))
       end)).

Definition entry_le (a b : (str * str) * str) : Prop :=
  str_leb a.1.1 b.1.1 && (negb (bool_decide (a.1.1 = b.1.1)) || str_leb a.1.2 b.1.2) = true.
#[export] Instance entry_le_dec : RelDecision entry_le.
Proof. intros a b. unfold entry_le. apply _. Defined.

Definition waiting_value (root key name : str) (changed : bool) : Value :=
  VObject [(lit "root", VString root); (lit "key", VString key); (lit "name", VString name); (lit "changed", VBool changed)].
Definition waiting_for (approved : Approved) (entries : Entries) (claim : Claim) : list Value :=
  omap (fun '((root, what), value) =>
    let? keyed := split_once [chr ":"] what in
    let '(key, name) := keyed in
    if negb (any (fun claimed => bool_decide (claimed = key)) (cl_approve claim)) then None
    else let '(on, changed) := verdict approved root what value in
         if on : bool then None else Some (waiting_value root key name changed)) (merge_sort entry_le (map_to_list entries)).
Definition waiting (plugins : gmap str (list (str * Value))) (claims : list Claim) (entries : Entries) (approved : Approved)
    : gmap str (list (str * Value)) :=
  foldl (fun plugins claim =>
    if bool_decide (cl_approve claim = []) then plugins
    else match plugins !! cl_plugin claim with
         | Some slice => <[cl_plugin claim := map_insert (lit "waiting") (VArray (waiting_for approved entries claim)) slice]> plugins
         | None => plugins
         end) plugins claims.
Definition ignored (key code text : String.string) (layers : list Layer) : list (str * str) :=
  (fun l => notice code (lit key ++ lit " in " ++ ly_source l ++ lit text))
    <$> retain (fun l => negb (is_user l) && contains_key (lit key) (ly_value l)) layers.
Arguments ignored (key code text)%_string.

(** ** The kernel's keys

    [serde_error key v] is what serde says of a value of the wrong shape under a key;
    [read_model] reads an entry of the catalogue's overrides, [read_trust] a grant. *)
Context (serde_error : str → Value → str) {Declared PluginTrust : Type}
  (read_model : Value → option Declared) (read_trust : Value → option PluginTrust).

Record KernelSettings := mkKernelSettings {
  ks_picture_cache_days : option N; ks_provider : option str; ks_model : option str; ks_thinking : option Effort;
  ks_max_tokens : option N; ks_models : gmap str Declared; ks_plugin_trust : gmap str PluginTrust;
  ks_enabled_plugins : gmap str bool; ks_keys : gmap str str; ks_pinned : list str; ks_approved : Approved;
}.

Definition last_source (layers : list Layer) (key : str) : str :=
  match find_bool (fun l => contains_key key (ly_value l)) (reverse layers) with Some l => ly_source l | None => lit "settings" end.
Definition typed {T} (read : Value → option T) (merged : list (str * Value)) (layers : list Layer) (key : str) : result SettingsError (option T) :=
  match map_get key merged with
  | None => Ok None
  | Some value => match read value with Some t => Ok (Some t) | None => Err (SeType key (last_source layers key) (serde_error key value)) end
  end.
Definition read_u32 (v : Value) : option N := match v with VNumber (PosInt n) => if (n <? 2 ^ 32)%N then Some n else None | _ => None end.
Definition read_effort (v : Value) : option Effort :=
  let? s := as_str v in
  if bool_decide (s = lit "minimal") then Some Minimal else if bool_decide (s = lit "low") then Some Low
  else if bool_decide (s = lit "medium") then Some Medium else if bool_decide (s = lit "high") then Some High
  else if bool_decide (s = lit "xHigh") then Some XHigh else if bool_decide (s = lit "max") then Some MaxEffort else None.
Definition read_map {T} (read : Value → option T) (v : Value) : option (gmap str T) :=
  let? m := as_object v in collect_map <$> mapM (fun kv : str * Value => (fun t => (kv.1, t)) <$> read kv.2) m.
Definition read_list {T} (read : Value → option T) (v : Value) : option (list T) := let? l := as_array v in mapM read l.

Definition wrong (layer key message : str) : SettingsError := SeType key layer message.
(** [said]: what [pictures] says about the cache's life. *)
Fixpoint said_days (layer : str) (fields : list (str * Value)) (days : option N) : result SettingsError (option N) :=
  match fields with
  | [] => Ok days
  | (key, value) :: fields =>
      if negb (bool_decide (key ∈ CACHE_DAYS))
      then Err (wrong layer (lit "pictures." ++ key) (lit "no such setting; `cacheDays` is the one"))
      else if is_null value then said_days layer fields days
      else match value with
           | VNumber (PosInt n) => said_days layer fields (Some n)
           | _ => Err (wrong layer (lit "pictures." ++ key) (lit "expected a whole number of days, `0` for never"))
           end
  end.
Definition said (layer : str) (pictures : Value) : result SettingsError (option N) :=
  match pictures with
  | VNull => Ok None
  | VObject fields => said_days layer fields None
  | _ => Err (wrong layer (lit "pictures") (lit "expected an object"))
  end.
Definition cache_days (merged : list (str * Value)) (layers : list Layer) : result SettingsError (option N) :=
  match map_get (lit "pictures") merged with
  | None => Ok None
  | Some pictures => said (last_source layers (lit "pictures")) pictures
  end.

Definition sourced_objects (layers : list Layer) : list (str * list (str * Value)) := (fun l => (ly_source l, ly_value l)) <$> layers.
Definition user_value {T} (read : Value → option T) (empty : T) (layers : list Layer) (key : str) : result SettingsError T :=
  let user := retain is_user layers in
  let* merged := fold_objects ∅ [] (sourced_objects user) in
  let* found := typed read merged user key in
  Ok (default empty found).
Definition kernel_settings (merged : list (str * Value)) (layers : list Layer) : result SettingsError KernelSettings :=
  let* days := cache_days merged layers in
  let* provider := typed as_str merged layers (lit "provider") in
  let* model := typed as_str merged layers (lit "model") in
  let* thinking := typed read_effort merged layers (lit "thinking") in
  let* max_tokens := typed read_u32 merged layers (lit "maxTokens") in
  let* models := typed (read_map read_model) merged layers (lit "models") in
  let* trust := user_value (read_map read_trust) ∅ layers (lit "pluginTrust") in
  let* approved := user_value (read_map (read_map as_str)) ∅ layers (lit "approved") in
  let* enabled := typed (read_map as_bool) merged layers (lit "enabledPlugins") in
  let* keys := typed (read_map as_str) merged layers (lit "keys") in
  let* pinned := typed (read_list as_str) merged layers (lit "pinned") in
  Ok (mkKernelSettings days provider model thinking max_tokens (default ∅ models) trust (default ∅ enabled) (default ∅ keys)
        (default [] pinned) approved).

Definition switched_off (k : KernelSettings) : gset str := dom (filter (fun kv => kv.2 = false) (ks_enabled_plugins k)).

(** ** The merge *)

Definition slice_of (merged : list (str * Value)) (claim : Claim) : list (str * Value) :=
  foldl (fun slice root => match map_get root merged with Some v => map_insert root v slice | None => slice end) [] (roots claim).
Definition slices (merged : list (str * Value)) (claims : list Claim) : gmap str (list (str * Value)) :=
  collect_map ((fun claim => (cl_plugin claim, slice_of merged claim)) <$> claims).

Record Merged := mkMerged {
  mg_entries : Entries; mg_notices : list (str * str); mg_kernel : KernelSettings;
  mg_plugins : gmap str (list (str * Value)); mg_unknown : list UnknownKey;
}.
Definition merge (layers : list Layer) (claims : list Claim) : result SettingsError Merged :=
  let notices := (personal layers claims).2 in
  let layers := prepared layers claims in
  let* owned := owners claims in
  let modes := modes claims in
  let unknown := unknown_keys layers owned in
  let* merged := fold_objects modes [] (sourced_objects layers) in
  let* kernel := kernel_settings merged layers in
  let found := entries layers claims merged in
  Ok (mkMerged found
        (ignored "pluginTrust" "PLUGIN_TRUST_IGNORED" " is ignored; grants belong in user settings" layers
         ++ ignored "approved" "APPROVED_IGNORED" " is ignored; approvals belong in user settings" layers ++ notices)
        kernel (waiting (slices merged claims) claims found (ks_approved kernel)) unknown).
End merge.
