(* ===== verification/SettingsLaws.v ===== *)
(** * SettingsLaws: what the merge of settings guarantees

    The theorems about [Settings]: the fold is the code's recursion and has fuel
    enough; a setting is what its layers say of it, by its plugin's rule; grants are the
    person's; a repository adds nothing to a personal list, and what it would run waits;
    every key has one reader. *)

From S2P Require Import Prelude Text Digest Model CommandLine PermPath PermRule PermDecide Chain Catalogue Settings.

(** ** Lemmas: the fold reads as the code *)

Lemma depth_object m : depth (VObject m) = S (fields_depth m).
Proof. simpl. f_equal. induction m as [|[k v] m IH]; simpl; [done|]. by rewrite IH. Qed.

Lemma map_get_elem k m v : map_get k m = Some v → (k, v) ∈ m.
Proof.
  intros ([k' v'] & Hin & E)%find_map_Some. simpl in E. case_bool_decide; [|done]. by simplify_eq.
Qed.

Lemma fields_depth_get k m v : map_get k m = Some v → depth v ≤ fields_depth m.
Proof.
  intros Hin%map_get_elem. induction m as [|kv m IH]; [by apply elem_of_nil in Hin|]. unfold fields_depth in *. simpl.
  apply elem_of_cons in Hin as [<- | Hin]; simpl; [lia|]. apply IH in Hin. lia.
Qed.

Lemma live_elem values sv : sv ∈ live values → sv ∈ values.
Proof. apply elem_of_drop_in. Qed.

Lemma object_elem (values : list Sourced) so : so ∈ omap (fun sv : Sourced => (fun o => (sv.1, o)) <$> as_object sv.2) values ↔ (so.1, VObject so.2) ∈ values.
Proof.
  rewrite list_elem_of_omap. split.
  - intros ([s v] & Hin & E). simpl in E. destruct v; try done. by injection E as <-.
  - intros Hin. exists (so.1, VObject so.2). split; [done|]. by destruct so.
Qed.

Lemma values_at_elem key objects sv : sv ∈ values_at key objects ↔ ∃ o, (sv.1, o) ∈ objects ∧ map_get key o = Some sv.2.
Proof.
  unfold values_at. rewrite list_elem_of_omap. split.
  - intros ([s o] & Hin & E). simpl in E. destruct (map_get key o) as [v|] eqn:Ev; [|done]. injection E as <-. by exists o.
  - intros (o & Hin & E). exists (sv.1, o). split; [done|]. simpl. rewrite E. by destruct sv.
Qed.

Lemma try_fold_ext {A B E} (f g : B → A → result E B) acc l : (∀ x b, x ∈ l → f b x = g b x) → try_fold f acc l = try_fold g acc l.
Proof.
  revert acc. induction l as [|x l IH]; intros acc Hfg; simpl; [done|]. rewrite Hfg by by left. destruct (g acc x); simpl; [|done].
  apply IH. intros y b Hy. apply Hfg. by right.
Qed.

Lemma fold_keys_ext f g path objects : (∀ key, f (child_path path key) (values_at key objects) = g (child_path path key) (values_at key objects)) →
  fold_keys f path objects = fold_keys g path objects.
Proof. intros Hfg. apply try_fold_ext. intros key out _. by rewrite Hfg. Qed.

Definition deepest (values : list Sourced) : nat := foldr (fun sv n => Nat.max (depth sv.2) n) 0 values.

Lemma deepest_elem values sv : sv ∈ values → depth sv.2 ≤ deepest values.
Proof. induction 1 as [sv l|sv sv' l _ IH]; simpl; lia. Qed.

Lemma deepest_lt values n : 0 < n → (∀ sv, sv ∈ values → depth sv.2 < n) → deepest values < n.
Proof.
  intros Hn. induction values as [|sv l IH]; simpl; intros Hl; [done|]. assert (depth sv.2 < n) by (apply Hl; by left).
  assert (deepest l < n); [|lia]. apply IH. intros x Hx. apply Hl. by right.
Qed.

(** One level down, objects are less deep. *)
Lemma values_below values key sv : sv ∈ values_at key (omap (fun sv : Sourced => (fun o => (sv.1, o)) <$> as_object sv.2) (live values)) →
  depth sv.2 < deepest values.
Proof.
  intros (o & Ho & Hg)%values_at_elem. apply object_elem, live_elem, deepest_elem in Ho. cbn [fst snd] in Ho.
  rewrite depth_object in Ho. apply fields_depth_get in Hg. lia.
Qed.

(** The fuel of [fold_value] is enough: more makes no difference. *)
Lemma fold_fuel_enough modes f g path values : deepest values < f → deepest values < g →
  fold_value_fuel modes f path values = fold_value_fuel modes g path values.
Proof.
  revert g path values. induction f as [|f IH]; intros [|g] path values Hf Hg; try lia. cbn [fold_value_fuel].
  destruct (last (live values)) as [[s highest]|]; [|done]. case_bool_decide; [done|].
  destruct (all _ (live values)) eqn:Ea; [|done]. f_equal. apply fold_keys_ext. intros key.
  destruct (values_at key _) as [|sv vs] eqn:Ev; [by destruct f, g|].
  assert (∀ x, x ∈ sv :: vs → depth x.2 < deepest values) as Hlt by (rewrite <- Ev; apply values_below).
  assert (deepest (sv :: vs) < deepest values) by (apply deepest_lt; [|done]; specialize (Hlt sv ltac:(by left)); lia).
  apply IH; lia.
Qed.

(** [fold_value] and [fold_objects] as the code has them. *)
Lemma fold_value_unfold modes path values :
  fold_value modes path values =
  match last (live values) with
  | None => Ok None
  | Some (_, highest) =>
      if bool_decide (path = lit "keys") then Ok (Some highest)
      else if all (fun sv => is_object sv.2) (live values)
      then let* object := fold_objects modes path (omap (fun sv : Sourced => (fun o => (sv.1, o)) <$> as_object sv.2) (live values)) in
           Ok (Some (VObject object))
      else match default Replace (modes !! path) with
           | Replace => Ok (Some highest)
           | Accumulate | PersonalAccumulate => let* v := accumulate path (live values) in Ok (Some v)
           | ByName => let* v := by_name path (live values) in Ok (Some v)
           end
  end.
Proof.
  unfold fold_value at 1. fold (deepest values). cbn [fold_value_fuel]. destruct (last (live values)) as [[s highest]|]; [|done].
  case_bool_decide; [done|]. destruct (all _ (live values)) eqn:Ea; [|done]. f_equal. apply fold_keys_ext. intros key.
  unfold fold_value. fold (deepest (values_at key (omap (fun sv : Sourced => (fun o => (sv.1, o)) <$> as_object sv.2) (live values)))).
  destruct (values_at key _) as [|sv vs] eqn:Ev; [by destruct (deepest values)|]. apply fold_fuel_enough; [|lia].
  assert (∀ x, x ∈ sv :: vs → depth x.2 < deepest values) as Hlt by (rewrite <- Ev; apply values_below).
  apply deepest_lt; [|done]. specialize (Hlt sv ltac:(by left)). lia.
Qed.

(** The fold of objects, field by field. *)
Lemma fold_fields modes path keys objects out o : NoDup keys →
  try_fold (fun out key =>
    let* value := fold_value modes (child_path path key) (values_at key objects) in
    Ok (match value with Some value => map_insert key value out | None => out end)) out keys = Ok o →
  ∀ key, if bool_decide (key ∈ keys)
         then ∃ r, fold_value modes (child_path path key) (values_at key objects) = Ok r ∧ map_get key o = option_or r (map_get key out)
         else map_get key o = map_get key out.
Proof.
  revert out. induction keys as [|k keys IH]; intros out Hnd Ht key; simpl in Ht; [by injection Ht as <-|].
  apply NoDup_cons in Hnd as [Hk Hnd]. destruct (fold_value modes (child_path path k) _) as [r|] eqn:Ef; [|done]. simpl in Ht.
  pose proof (IH _ Hnd Ht key) as IHk. destruct (decide (key = k)) as [->|Hne].
  - rewrite bool_decide_true by by left. rewrite bool_decide_false in IHk by done. exists r. split; [done|]. rewrite IHk.
    destruct r; simpl; [by rewrite map_get_insert_eq|done].
  - assert (map_get key (match r with Some value => map_insert k value out | None => out end) = map_get key out) as Eo.
    { destruct r; [by rewrite map_get_insert_ne|done]. }
    rewrite Eo in IHk. destruct (decide (key ∈ keys)).
    + rewrite bool_decide_true by by right. by rewrite bool_decide_true in IHk by done.
    + rewrite bool_decide_false by by intros [?|?]%elem_of_cons. by rewrite bool_decide_false in IHk by done.
Qed.

Lemma dedup_keys l acc : NoDup acc →
  NoDup (foldl (fun keys k => if bool_decide (k ∈ keys) then keys else keys ++ [k]) acc l)
  ∧ ∀ k : str, k ∈ foldl (fun keys k => if bool_decide (k ∈ keys) then keys else keys ++ [k]) acc l ↔ k ∈ acc ∨ k ∈ l.
Proof.
  revert acc. induction l as [|x l IH]; intros acc Hacc; simpl.
  { split; [done|]. intros k. split; [by left|]. by intros [|?%elem_of_nil]. }
  case_bool_decide as Hx.
  - destruct (IH acc Hacc) as [? Hk]. split; [done|]. intros k. rewrite Hk, elem_of_cons. naive_solver.
  - destruct (IH (acc ++ [x])) as [? Hk].
    { apply NoDup_app. split; [done|]. split; [|apply NoDup_singleton]. by intros y Hy ->%list_elem_of_singleton. }
    split; [done|]. intros k. rewrite Hk, elem_of_app, list_elem_of_singleton, elem_of_cons. naive_solver.
Qed.

Lemma object_keys_NoDup objects : NoDup (object_keys objects).
Proof. apply dedup_keys. constructor. Qed.

Lemma map_get_None k m : map_get k m = None ↔ k ∉ m.*1.
Proof.
  unfold map_get. rewrite find_map_None. split.
  - intros Hm ([? v] & -> & Hin)%list_elem_of_fmap. specialize (Hm _ Hin). simpl in Hm. by rewrite bool_decide_true in Hm.
  - intros Hk [k' v] Hin. simpl. rewrite bool_decide_false; [done|]. intros ->. apply Hk, list_elem_of_fmap. by exists (k, v).
Qed.

Lemma values_at_none key objects : key ∉ object_keys objects → values_at key objects = [].
Proof.
  intros Hk. destruct (values_at key objects) as [|sv l] eqn:E; [done|]. exfalso.
  assert (sv ∈ values_at key objects) as (o & Ho & Hg)%values_at_elem by (rewrite E; by left).
  apply Hk. unfold object_keys. apply dedup_keys; [constructor|]. right. apply list_elem_of_bind. exists (sv.1, o). split; [|done].
  apply map_get_elem in Hg. apply list_elem_of_fmap. by exists (key, sv.2).
Qed.

Lemma fold_objects_get modes path objects o key : fold_objects modes path objects = Ok o →
  fold_value modes (child_path path key) (values_at key objects) = Ok (map_get key o).
Proof.
  intros Hf. pose proof (fold_fields modes path _ objects [] o (object_keys_NoDup objects) Hf key) as Hk. case_bool_decide.
  - destruct Hk as (r & -> & ->). by destruct r.
  - rewrite Hk, values_at_none by done. by rewrite fold_value_unfold.
Qed.

(** ** The merge, path by path *)

(** What the layers say at a key below a value: the objects that the last [null] left. *)
Definition below (key : str) (values : list Sourced) : list Sourced :=
  values_at key (omap (fun sv : Sourced => (fun o => (sv.1, o)) <$> as_object sv.2) (live values)).
Fixpoint layers_at (ks : list str) (values : list Sourced) : list Sourced :=
  match ks with [] => values | k :: ks => layers_at ks (below k values) end.
Definition path_at (path : str) (ks : list str) : str := foldl child_path path ks.

(** Every layer that speaks on the way has an object there, and the way does not go
    through [keys], which is taken whole. *)
Fixpoint objects_to (path : str) (ks : list str) (values : list Sourced) : bool :=
  match ks with
  | [] => true
  | k :: ks => all (fun sv => is_object sv.2) (live values) && negb (bool_decide (path = lit "keys"))
               && objects_to (child_path path k) ks (below k values)
  end.

Lemma fold_value_at modes path ks values r : fold_value modes path values = Ok r → objects_to path ks values = true →
  fold_value modes (path_at path ks) (layers_at ks values) = Ok (let? v := r in at_segments ks v).
Proof.
  revert path values r. induction ks as [|k ks IH]; intros path values r Hf Ho; simpl in *; [by destruct r|].
  bools. rewrite fold_value_unfold in Hf. destruct (last (live values)) as [[s highest]|] eqn:El.
  - rewrite bool_decide_false in Hf by done. rewrite H in Hf. destruct (fold_objects _ _ _) as [o|] eqn:Eo; [|done].
    injection Hf as <-. simpl. pose proof (fold_objects_get _ _ _ _ k Eo) as Hk. exact (IH _ _ _ Hk H0).
  - injection Hf as <-. simpl. assert (live values = []) as Ev by by apply last_None. unfold below in *. rewrite Ev in *. simpl in *.
    assert (fold_value modes (child_path path k) (values_at k []) = Ok None) as Hk by by rewrite fold_value_unfold.
    exact (IH _ _ _ Hk H0).
Qed.

(** *** Paths *)

Lemma split_by_some (p : char → bool) s : ∃ w ws, split_by p s = w :: ws.
Proof.
  induction s as [|c s (w & ws & E)]; cbn [split_by]; [by eexists _, _|]. rewrite E. destruct (p c); by eexists _, _.
Qed.

Lemma segments_cons key : ∃ rest, segments key = root_of key :: rest.
Proof. unfold root_of, segments. destruct (split_by_some (N.eqb (chr ".")) key) as (w & ws & ->). by exists ws. Qed.

Fixpoint dotted (ks : list str) : str := match ks with [] => [] | [k] => k | k :: ks => k ++ chr "." :: dotted ks end.

Lemma dotted_segments key : dotted (segments key) = key.
Proof.
  unfold segments. induction key as [|c key IH]; [done|]. cbn [split_by].
  destruct (split_by_some (N.eqb (chr ".")) key) as (w & ws & E). rewrite E in *.
  destruct (N.eqb_spec (chr ".") c) as [<-|]; cbn [dotted] in *; [by rewrite IH|]. rewrite <- IH. by destruct ws.
Qed.

Lemma path_at_dotted path ks : path ≠ [] → path_at path ks = path ++ (match ks with [] => [] | _ => chr "." :: dotted ks end).
Proof.
  revert path. induction ks as [|k ks IH]; intros path Hp; simpl; [by rewrite app_nil_r|]. unfold path_at in *. simpl.
  rewrite IH; unfold child_path; rewrite bool_decide_false by done; [|by destruct path].
  rewrite <- (assoc_L (++)). by destruct ks; [rewrite app_nil_r|].
Qed.

Lemma path_at_key key : root_of key ≠ [] → path_at [] (segments key) = key.
Proof.
  intros Hr. rewrite <- (dotted_segments key) at 2. destruct (segments_cons key) as [rest ->].
  change (path_at (root_of key) rest = dotted (root_of key :: rest)). rewrite path_at_dotted by done. by destruct rest; simpl; rewrite ?app_nil_r.
Qed.

(** *** Slices *)

Lemma slice_fold merged rs acc root :
  map_get root (foldl (fun slice root => match map_get root merged with Some v => map_insert root v slice | None => slice end) acc rs)
  = if bool_decide (root ∈ rs) then option_or (map_get root merged) (map_get root acc) else map_get root acc.
Proof.
  revert acc. induction rs as [|r rs IH]; intros acc; simpl; [done|]. rewrite IH.
  destruct (decide (root = r)) as [->|Hne].
  - rewrite (bool_decide_true (r ∈ r :: rs)) by by left. destruct (map_get r merged) as [v|]; simpl.
    + by rewrite map_get_insert_eq; case_bool_decide.
    + by case_bool_decide.
  - assert (map_get root (match map_get r merged with Some v => map_insert r v acc | None => acc end) = map_get root acc) as ->.
    { destruct (map_get r merged); [by rewrite map_get_insert_ne|done]. }
    case_bool_decide as H1; case_bool_decide as H2; try done; exfalso.
    + apply H2. by right.
    + apply elem_of_cons in H2 as [?|?]; done.
Qed.

Lemma slice_get merged claim root : root ∈ roots claim → map_get root (slice_of merged claim) = map_get root merged.
Proof. intros Hr. unfold slice_of. rewrite slice_fold, bool_decide_true by done. by destruct (map_get root merged). Qed.

Lemma slices_lookup merged claims claim : NoDup (cl_plugin <$> claims) → claim ∈ claims →
  slices merged claims !! cl_plugin claim = Some (slice_of merged claim).
Proof.
  intros Hnd Hc. unfold slices. apply collect_map_lookup.
  - by rewrite <- list_fmap_compose.
  - apply list_elem_of_fmap. by exists claim.
Qed.

(** What [waiting] leaves of a slice. *)
Definition with_waiting (w : list Value) (claim : Claim) (slice : list (str * Value)) : list (str * Value) :=
  if bool_decide (cl_approve claim = []) then slice else map_insert (lit "waiting") (VArray w) slice.

Lemma waiting_lookup approved entries plugins claims claim : NoDup (cl_plugin <$> claims) → claim ∈ claims →
  waiting plugins claims entries approved !! cl_plugin claim
  = with_waiting (waiting_for approved entries claim) claim <$> plugins !! cl_plugin claim.
Proof.
  unfold waiting. intros Hnd Hc. induction claims as [|c claims IH] using rev_ind; [by apply elem_of_nil in Hc|].
  rewrite foldl_app, fmap_app in *. simpl. apply NoDup_app in Hnd as (Hnd & Hother & _).
  set (rest := foldl _ plugins claims) in *. apply elem_of_app in Hc as [Hc | ->%list_elem_of_singleton].
  - assert (cl_plugin claim ≠ cl_plugin c) as Hne.
    { intros E. apply (Hother (cl_plugin claim)); [apply list_elem_of_fmap; by exists claim|]. rewrite E. by left. }
    rewrite <- IH by done. case_bool_decide; [done|]. destruct (rest !! cl_plugin c); [by rewrite lookup_insert_ne|done].
  - assert (rest !! cl_plugin c = plugins !! cl_plugin c) as Er.
    { assert (∀ ps, (∀ x, x ∈ ps → cl_plugin x ≠ cl_plugin c) → foldl (λ plugins claim, if bool_decide (cl_approve claim = []) then plugins
        else match plugins !! cl_plugin claim with
             | Some slice => <[cl_plugin claim := map_insert (lit "waiting") (VArray (waiting_for approved entries claim)) slice]> plugins
             | None => plugins end) plugins ps !! cl_plugin c = plugins !! cl_plugin c) as Hps.
      { intros ps. induction ps as [|x ps IHp] using rev_ind; intros Hps; [done|]. rewrite foldl_app. simpl.
        rewrite <- IHp by (intros y Hy; apply Hps; rewrite elem_of_app; by left). case_bool_decide; [done|].
        destruct (foldl _ plugins ps !! cl_plugin x); [|done]. rewrite lookup_insert_ne; [done|].
        apply Hps. rewrite elem_of_app. right. by left. }
      apply Hps. intros x Hx E. apply (Hother (cl_plugin x)); [apply list_elem_of_fmap; by exists x|]. rewrite E. by left. }
    unfold with_waiting. case_bool_decide as Ha.
    + rewrite Er. by destruct (plugins !! cl_plugin c).
    + rewrite Er. destruct (plugins !! cl_plugin c) eqn:Ep; [apply lookup_insert_eq|by rewrite Er].
Qed.

(** *** What the rules come to *)

Lemma arrays_Ok path values l : arrays path values = Ok l →
  l = concat (omap (fun sv => as_array sv.2) values) ∧ ∀ sv, sv ∈ values → ∃ items, sv.2 = VArray items.
Proof.
  revert l. induction values as [|[s v] values IH]; intros l; simpl.
  { intros [= <-]. split; [done|]. by intros sv ?%elem_of_nil. }
  destruct v; try done. simpl. destruct (arrays path values) as [more|]; [|done]. intros [= <-].
  destruct (IH more eq_refl) as [-> Hv]. split; [done|]. intros sv [-> | Hin]%elem_of_cons; [by eexists|by apply Hv].
Qed.

(** The first copy of each item stays. *)
Definition first_copies (items : list Value) : list Value :=
  foldl (fun out item => if any (fun x => value_eqb x item) out then out else out ++ [item]) [] items.
(** A named item takes the place of the one with its name. *)
Definition item_name (item : Value) : option str := let? v := option_or (value_get (lit "name") item) (value_get (lit "id") item) in as_str v.
Definition put_named (out : list Value) (item : Value) : list Value :=
  match position (fun x => bool_decide (item_name x = item_name item)) out with Some i => <[i := item]> out | None => out ++ [item] end.

(** The value of a setting that layers give: the rule of its key on the values left. *)
Definition resolve (mode : Merge) (values : list Sourced) : option Value :=
  match last values with
  | None => None
  | Some highest =>
      let items := concat (omap (fun sv => as_array sv.2) values) in
      Some (match mode with
            | Replace => highest.2
            | Accumulate | PersonalAccumulate => VArray (first_copies items)
            | ByName => VArray (foldl put_named [] items)
            end)
  end.

Lemma entry_name_Ok path item n : entry_name path item = Ok n → item_name item = Some n.
Proof. unfold entry_name, item_name. destruct (option_or _ _); simpl; [|done]. destruct (as_str _); [by intros [= ->]|done]. Qed.

Definition in_order (order : list str) (entries : gmap str Value) (out : list Value) : Prop :=
  Forall2 (λ n x, item_name x = Some n ∧ entries !! n = Some x) order out ∧ NoDup order ∧ ∀ n, n ∈ order ∨ entries !! n = None.

Lemma in_order_position order entries out n i : in_order order entries out →
  position (fun x => bool_decide (item_name x = Some n)) out = Some i ↔ order !! i = Some n.
Proof.
  intros (Hf & Hnd & _). rewrite position_Some. split.
  - intros (x & Hx & Hn & _). bools. apply (Forall2_lookup_r _ _ _ _ _ Hf) in Hx as (m & Hm & En & _). congruence.
  - intros Ho. destruct (Forall2_lookup_l _ _ _ _ _ Hf Ho) as (x & Hx & En & _). exists x. split; [done|]. rewrite En.
    split; [by apply bool_decide_true|]. intros j y Hj Hy. apply bool_decide_false. intros Ey.
    apply (Forall2_lookup_r _ _ _ _ _ Hf) in Hy as (m & Hm & En' & _). assert (m = n) as -> by congruence.
    pose proof (NoDup_lookup _ _ _ _ Hnd Ho Hm). lia.
Qed.

Lemma named_in_order path items order entries out r : in_order order entries out → named_entries path items order entries = Ok r →
  in_order r.1 r.2 (foldl put_named out items).
Proof.
  revert order entries out. induction items as [|item items IH]; intros order entries out Ho; simpl; [by intros [= <-]|].
  destruct (entry_name path item) as [n|] eqn:En; [|done]. apply entry_name_Ok in En. simpl. apply IH. unfold put_named. rewrite En.
  pose proof Ho as (Hf & Hnd & Hd). destruct (position _ out) as [i|] eqn:Ep.
  - apply (in_order_position _ _ _ _ _ Ho) in Ep as Ei. destruct (Forall2_lookup_l _ _ _ _ _ Hf Ei) as (x & Hx & _ & Ex).
    rewrite Ex. simpl. split; [|split; [done|]].
    + apply Forall2_same_length_lookup. split; [rewrite length_insert; by eapply Forall2_length|].
      intros j m y Hm Hy. destruct (decide (j = i)) as [->|Hj].
      * assert (m = n) as -> by congruence. rewrite list_lookup_insert_eq in Hy by by eapply lookup_lt_Some. injection Hy as <-.
        by rewrite lookup_insert_eq.
      * rewrite list_lookup_insert_ne in Hy by done. destruct (Forall2_lookup_lr _ _ _ _ _ _ Hf Hm Hy) as [? ?]. split; [done|].
        rewrite lookup_insert_ne; [done|]. intros <-. by pose proof (NoDup_lookup _ _ _ _ Hnd Ei Hm).
    + intros m. destruct (decide (m = n)) as [->|]; [left; by eapply list_elem_of_lookup_2|]. by rewrite lookup_insert_ne.
  - assert (n ∉ order) as Hn.
    { intros (i & Hi)%list_elem_of_lookup. apply (in_order_position _ _ _ _ _ Ho) in Hi. congruence. }
    destruct (Hd n) as [|En']; [done|]. rewrite En'. simpl. split; [|split].
    + apply Forall2_app; [|by constructor; [split; [done|apply lookup_insert_eq]|constructor]].
      apply Forall2_same_length_lookup. split; [by eapply Forall2_length|]. intros i m x Hm Hx.
      destruct (Forall2_lookup_lr _ _ _ _ _ _ Hf Hm Hx) as [? ?]. split; [done|]. rewrite lookup_insert_ne; [done|].
      intros <-. by apply Hn, (list_elem_of_lookup_2 _ i).
    + apply NoDup_app. split; [done|]. split; [|apply NoDup_singleton]. by intros m Hm ->%list_elem_of_singleton.
    + intros m. rewrite elem_of_app, list_elem_of_singleton. destruct (decide (m = n)) as [->|]; [by left; right|].
      rewrite lookup_insert_ne by done. destruct (Hd m); [by left; left|by right].
Qed.

Lemma by_name_Ok path values v : by_name path values = Ok v →
  v = VArray (foldl put_named [] (concat (omap (fun sv => as_array sv.2) values))).
Proof.
  unfold by_name. destruct (arrays path values) as [items|] eqn:Ea; [|done]. simpl. apply arrays_Ok in Ea as [-> _].
  destruct (named_entries _ _ _ _) as [[order entries]|] eqn:En; [|done]. simpl. intros [= <-]. f_equal.
  apply (named_in_order _ _ _ _ []) in En as (Hf & _); [|split; [constructor|split; [constructor|by right]]]. simpl in Hf.
  induction Hf as [|n x ns xs [_ E] _ IH]; simpl; [done|]. rewrite E. f_equal. exact IH.
Qed.

Lemma fold_value_resolve modes path values r : fold_value modes path values = Ok r → path ≠ lit "keys" →
  (all (fun sv => is_object sv.2) (live values) = true → live values = []) →
  r = resolve (default Replace (modes !! path)) (live values).
Proof.
  rewrite fold_value_unfold. unfold resolve. intros Hf Hp Hall. destruct (last (live values)) as [[s highest]|] eqn:El; [|by injection Hf].
  rewrite bool_decide_false in Hf by done. destruct (all _ (live values)); [by rewrite Hall in El|].
  destruct (default Replace (modes !! path)).
  - by injection Hf as <-.
  - unfold accumulate in Hf. destruct (arrays _ _) eqn:Ea; [|done]. apply arrays_Ok in Ea as [-> _]. by injection Hf as <-.
  - unfold accumulate in Hf. destruct (arrays _ _) eqn:Ea; [|done]. apply arrays_Ok in Ea as [-> _]. by injection Hf as <-.
  - destruct (by_name _ _) eqn:Ea; [|done]. apply by_name_Ok in Ea as ->. by injection Hf as <-.
Qed.

(** *** Removing a setting *)

(** What a parsed document is: no object names a field twice. *)
Fixpoint unique_keys (v : Value) : bool :=
  match v with
  | VObject m => bool_decide (NoDup m.*1) && (fix fields m := match m with [] => true | (_, v) :: m => unique_keys v && fields m end) m
  | _ => true
  end.

Lemma unique_keys_object m : unique_keys (VObject m) = true ↔ NoDup m.*1 ∧ ∀ kv, kv ∈ m → unique_keys kv.2 = true.
Proof.
  simpl. rewrite andb_true_iff, bool_decide_eq_true. f_equiv. induction m as [|[k v] m IH]; simpl.
  - split; [|done]. by intros _ kv ?%elem_of_nil.
  - rewrite andb_true_iff, IH. setoid_rewrite elem_of_cons. split.
    + by intros [? ?] kv [->|?]; auto.
    + intros H. split; [apply (H (k, v)); by left|]. intros kv ?. apply H. by right.
Qed.

Lemma map_get_unique k m v : NoDup m.*1 → map_get k m = Some v ↔ (k, v) ∈ m.
Proof.
  intros Hnd. split; [apply map_get_elem|]. intros Hin. destruct (map_get k m) as [w|] eqn:E.
  - apply map_get_elem in E. f_equal. apply list_elem_of_lookup in Hin as [i Hi], E as [j Hj].
    assert (m.*1 !! i = Some k) as Hki by by rewrite list_lookup_fmap, Hi. assert (m.*1 !! j = Some k) as Hkj by by rewrite list_lookup_fmap, Hj.
    assert (i = j) as -> by by eapply NoDup_lookup. congruence.
  - apply map_get_None in E. destruct E. apply list_elem_of_fmap. by exists (k, v).
Qed.

Lemma map_get_perm k m m' : NoDup m.*1 → m ≡ₚ m' → map_get k m = map_get k m'.
Proof.
  intros Hnd Hp. assert (NoDup m'.*1) as Hnd' by by rewrite <- Hp. apply option_eq. intros v. rewrite !map_get_unique by done. by rewrite Hp.
Qed.

Lemma swap_remove_perm {A} i (l : list A) : swap_remove i l ≡ₚ delete i l.
Proof.
  unfold swap_remove. rewrite delete_take_drop. destruct (last (drop (S i) l)) as [x|] eqn:E.
  - apply last_Some in E as [k ->]. rewrite removelast_last. by rewrite Permutation_cons_append.
  - apply last_None in E as ->. by rewrite app_nil_r.
Qed.

Lemma map_remove_get k k' m : NoDup m.*1 → map_get k' (map_remove k m) = if bool_decide (k' = k) then None else map_get k' m.
Proof.
  intros Hnd. unfold map_remove. destruct (position _ m) as [i|] eqn:Ep.
  - apply position_Some in Ep as ([k0 v] & Hi & E & _). simpl in E. bools. subst k0.
    assert (NoDup (delete i m).*1) as Hd by (rewrite list_fmap_delete; eapply sublist_NoDup; [done|apply sublist_delete]).
    rewrite (map_get_perm _ _ (delete i m)); [|by rewrite swap_remove_perm|apply swap_remove_perm].
    rewrite (map_get_perm k' m ((k, v) :: delete i m)) by (done || by apply delete_Permutation).
    case_bool_decide as Hk; [subst k'|].
    + apply map_get_None. intros Hin. rewrite (delete_Permutation m i (k, v)) in Hnd by done. by apply NoDup_cons in Hnd as [? _].
    + unfold map_get at 2. simpl. by rewrite bool_decide_false.
  - case_bool_decide; [|done]. subst. apply map_get_None. intros ([k0 v] & -> & Hin)%list_elem_of_fmap.
    rewrite position_None in Ep. specialize (Ep _ Hin). simpl in Ep. by rewrite bool_decide_true in Ep.
Qed.

Lemma map_remove_unique k m : unique_keys (VObject m) = true → unique_keys (VObject (map_remove k m)) = true.
Proof.
  rewrite !unique_keys_object. intros [Hnd Hu]. unfold map_remove. destruct (position _ m) as [i|] eqn:Ep; [|done].
  apply position_Some in Ep as (kv & Hi & _). pose proof (swap_remove_perm i m) as Hp. pose proof (delete_Permutation m i kv Hi) as Hd.
  split.
  - rewrite Hp. rewrite Hd in Hnd. by apply NoDup_cons in Hnd as [_ ?].
  - intros x. rewrite Hp. intros Hx. apply Hu. rewrite Hd. by right.
Qed.

Lemma map_alter_get f k k' m : map_get k' (map_alter f k m) = if bool_decide (k' = k) then f <$> map_get k m else map_get k' m.
Proof.
  unfold map_get. induction m as [|[k0 v] m IH]; simpl; [by case_bool_decide|].
  destruct (decide (k0 = k)) as [->|Hk].
  - rewrite bool_decide_true by done. simpl. case_bool_decide as Hk'; [subst; by rewrite !bool_decide_true by done|].
    by rewrite !bool_decide_false by congruence.
  - rewrite (bool_decide_false (k0 = k)) by done. simpl. rewrite IH. case_bool_decide as Hk'; [subst; by rewrite bool_decide_false|done].
Qed.

Lemma map_alter_keys f k m : (map_alter f k m).*1 = m.*1.
Proof. induction m as [|[k0 v] m IH]; csimpl; [done|]. case_bool_decide; csimpl; congruence. Qed.

Lemma map_alter_elem f k m kv : kv ∈ map_alter f k m → kv ∈ m ∨ ∃ v, (k, v) ∈ m ∧ kv = (k, f v).
Proof.
  induction m as [|[k0 v] m IH]; simpl; [by intros ?%elem_of_nil|]. case_bool_decide; [subst|].
  - intros [-> | Hin]%elem_of_cons; [right; exists v; split; [by left|done]|left; by right].
  - intros [-> | Hin]%elem_of_cons; [left; by left|]. destruct (IH Hin) as [?|(w & ? & ->)]; [left; by right|].
    right. exists w. split; [by right|done].
Qed.

Lemma remove_at_cons k k' ks m : remove_at (k :: k' :: ks) m =
  match map_get k m with
  | Some (VObject child) => let '(child, removed) := remove_at (k' :: ks) child in (map_alter (fun _ => VObject child) k m, removed)
  | _ => (m, false)
  end.
Proof. done. Qed.

Lemma remove_unique ks m : unique_keys (VObject m) = true → unique_keys (VObject (remove_at ks m).1) = true.
Proof.
  revert m. induction ks as [|k [|k' ks] IH]; intros m Hm; [done|by apply map_remove_unique|].
  rewrite remove_at_cons. destruct (map_get k m) as [[]|] eqn:Eg; try done. destruct (remove_at (k' :: ks) fields) as [child removed] eqn:Er. cbn [fst].
  pose proof Hm as [Hnd Hu]%unique_keys_object. apply map_get_elem in Eg. specialize (IH fields (Hu _ Eg)). rewrite Er in IH. cbn [fst] in IH.
  apply unique_keys_object. split; [by rewrite map_alter_keys|]. intros kv [Hin|(v & _ & ->)]%map_alter_elem; [by apply Hu|done].
Qed.

#[local] Arguments map_get : simpl never.
#[local] Arguments map_alter : simpl never.
#[local] Arguments map_remove : simpl never.
#[local] Arguments unique_keys : simpl never.

(** A removed setting is gone, and what was absent stays absent. *)
Lemma remove_absent ks m : ks ≠ [] → unique_keys (VObject m) = true → at_segments ks (VObject (remove_at ks m).1) = None.
Proof.
  revert m. induction ks as [|k [|k' ks] IH]; intros m Hne Hm; [done|..].
  - apply unique_keys_object in Hm as [Hnd _]. simpl. rewrite map_remove_get by done. by rewrite bool_decide_true.
  - rewrite remove_at_cons. destruct (map_get k m) as [v|] eqn:Eg; [destruct v as [| | | | |child]|]; try (simpl; by rewrite Eg).
    pose proof Hm as [_ Hu]%unique_keys_object. pose proof (Hu _ (map_get_elem _ _ _ Eg)) as Hc.
    specialize (IH child ltac:(done) Hc). destruct (remove_at (k' :: ks) child) as [child' removed]. simpl in *.
    rewrite map_alter_get, bool_decide_true, Eg by done. simpl. exact IH.
Qed.

Lemma remove_keeps_absent ks ks' m : unique_keys (VObject m) = true → at_segments ks (VObject m) = None →
  at_segments ks (VObject (remove_at ks' m).1) = None.
Proof.
  revert ks m. induction ks' as [|k [|k' ks'] IH]; intros ks m Hm Ha; [done|..].
  - destruct ks as [|k0 ks]; [done|]. pose proof Hm as [Hnd _]%unique_keys_object. simpl in *. rewrite map_remove_get by done. destruct (bool_decide (k0 = k)); [done|exact Ha].
  - rewrite remove_at_cons. destruct (map_get k m) as [v|] eqn:Eg; [destruct v as [| | | | |child]|]; try done.
    pose proof Hm as [_ Hu]%unique_keys_object. pose proof (Hu _ (map_get_elem _ _ _ Eg)) as Hc.
    specialize (fun ks => IH ks child Hc). destruct (remove_at (k' :: ks') child) as [child' removed]. simpl in IH.
    destruct ks as [|k0 ks]; [done|]. simpl in *. rewrite map_alter_get. destruct (decide (k0 = k)) as [->|]; [rewrite bool_decide_true, Eg by done|by rewrite bool_decide_false].
    rewrite Eg in Ha. by apply IH.
Qed.

(** A list in the merged object holds only what a layer holds there. *)
Lemma first_copies_elem items x : x ∈ first_copies items → x ∈ items.
Proof.
  unfold first_copies. enough (∀ out, x ∈ foldl (fun out item => if any (fun x => value_eqb x item) out then out else out ++ [item]) out items →
    x ∈ out ∨ x ∈ items) as H by (intros Hx; by destruct (H [] Hx) as [?%elem_of_nil|]).
  induction items as [|i items IH]; intros out; simpl; [by left|]. intros [Hx|Hx]%IH; [|right; by right].
  destruct (any _ out); [by left|]. apply elem_of_app in Hx as [Hx | ->%list_elem_of_singleton]; [by left|right; by left].
Qed.

Lemma put_named_elem items x : x ∈ foldl put_named [] items → x ∈ items.
Proof.
  enough (∀ out, x ∈ foldl put_named out items → x ∈ out ∨ x ∈ items) as H by (intros Hx; by destruct (H [] Hx) as [?%elem_of_nil|]).
  induction items as [|i items IH]; intros out; simpl; [by left|]. intros [Hx|Hx]%IH; [|right; by right]. unfold put_named in Hx.
  destruct (position _ out) as [j|].
  - apply list_elem_of_lookup in Hx as [n Hn]. destruct (decide (n = j)) as [->|]; [|rewrite list_lookup_insert_ne in Hn by done; left; by eapply list_elem_of_lookup_2].
    apply list_lookup_insert_Some in Hn as [(_ & -> & _)|[? _]]; [right; by left|done].
  - apply elem_of_app in Hx as [Hx | ->%list_elem_of_singleton]; [by left|right; by left].
Qed.

Lemma joined_elem x (values : list Sourced) : x ∈ concat (omap (fun sv => as_array sv.2) values) →
  ∃ sv items, sv ∈ values ∧ sv.2 = VArray items ∧ x ∈ items.
Proof.
  intros Hx. apply list_elem_of_In, in_concat in Hx as (items & Hin & Hx). apply list_elem_of_In in Hin, Hx.
  apply list_elem_of_omap in Hin as ([s v] & Hin & E). destruct v; try done. injection E as ->. by eexists _, _.
Qed.

Lemma fold_from_layers modes ks path values v l x : fold_value modes path values = Ok (Some v) → at_segments ks v = Some (VArray l) → x ∈ l →
  ∃ sv items, sv ∈ values ∧ at_segments ks sv.2 = Some (VArray items) ∧ x ∈ items.
Proof.
  revert path values v. induction ks as [|k ks IH]; intros path values v Hf Ha Hx; rewrite fold_value_unfold in Hf;
    destruct (last (live values)) as [[s highest]|] eqn:El; try done; apply last_Some_elem_of, live_elem in El.
  all: destruct (bool_decide _); [injection Hf as <-; by eexists _, _|].
  all: destruct (all _ (live values)) eqn:Eo.
  - simpl in Ha. injection Ha as ->. by destruct (fold_objects _ _ _); [injection Hf|].
  - simpl in Ha. injection Ha as ->. destruct (default Replace _).
    + injection Hf as ->. by eexists _, _.
    + destruct (accumulate _ _) eqn:E; [|done]. unfold accumulate in E. destruct (arrays _ _) eqn:Er; [|done]. apply arrays_Ok in Er as [-> _].
      injection E as <-. injection Hf as <-. apply first_copies_elem, joined_elem in Hx as (sv & items & Hsv%live_elem & Ei & Hx).
      exists sv, items. by rewrite Ei.
    + destruct (accumulate _ _) eqn:E; [|done]. unfold accumulate in E. destruct (arrays _ _) eqn:Er; [|done]. apply arrays_Ok in Er as [-> _].
      injection E as <-. injection Hf as <-. apply first_copies_elem, joined_elem in Hx as (sv & items & Hsv%live_elem & Ei & Hx).
      exists sv, items. by rewrite Ei.
    + destruct (by_name _ _) eqn:E; [|done]. apply by_name_Ok in E as ->. injection Hf as <-.
      apply put_named_elem, joined_elem in Hx as (sv & items & Hsv%live_elem & Ei & Hx). exists sv, items. by rewrite Ei.
  - destruct (fold_objects _ _ _) as [o|] eqn:Ef; [|done]. injection Hf as <-. simpl in Ha. destruct (map_get k o) as [w|] eqn:Ew; [|done].
    apply (fold_objects_get _ _ _ _ k) in Ef. rewrite Ew in Ef. destruct (IH _ _ _ Ef Ha Hx) as (sv & items & Hsv & Ei & Hi).
    apply values_at_elem in Hsv as (obj & Ho & Hg). apply object_elem, live_elem in Ho. simpl in Ho. exists (sv.1, VObject obj), items.
    simpl. by rewrite Hg.
  - destruct (default Replace _).
    + injection Hf as ->. by eexists _, _.
    + unfold accumulate in Hf. destruct (arrays _ _); [|done]. injection Hf as <-. done.
    + unfold accumulate in Hf. destruct (arrays _ _); [|done]. injection Hf as <-. done.
    + destruct (by_name _ _) eqn:E; [|done]. apply by_name_Ok in E as ->. injection Hf as <-. done.
Qed.

(** ** The theorems *)

(** What the layers say of a setting: the values at its path, lowest layer first, that
    no [null] above clears. *)
Definition layer_values (layers : list Layer) : list Sourced := (fun l => (ly_source l, VObject (ly_value l))) <$> layers.
Definition spoken (layers : list Layer) (key : str) : list Sourced := live (layers_at (segments key) (layer_values layers)).
Definition reachable (layers : list Layer) (key : str) : bool := objects_to [] (segments key) (layer_values layers).

Lemma layer_values_live layers : live (layer_values layers) = layer_values layers.
Proof.
  unfold live. assert (rposition (fun sv : Sourced => is_null sv.2) (layer_values layers) = None) as ->; [|done].
  induction layers as [|l layers IH]; simpl; [done|]. unfold layer_values in *. by rewrite IH.
Qed.

Lemma layer_objects layers : omap (fun sv : Sourced => (fun o => (sv.1, o)) <$> as_object sv.2) (layer_values layers) = sourced_objects layers.
Proof. induction layers as [|l layers IH]; simpl; [done|]. f_equal. exact IH. Qed.

Lemma fold_layers modes layers merged : fold_objects modes [] (sourced_objects layers) = Ok merged →
  fold_value modes [] (layer_values layers) = Ok (match layers with [] => None | _ => Some (VObject merged) end).
Proof.
  intros Hf. rewrite fold_value_unfold, layer_values_live, layer_objects, Hf. destruct (last (layer_values layers)) as [[s h]|] eqn:El.
  - rewrite bool_decide_false by done. assert (all (λ sv, is_object sv.2) (layer_values layers) = true) as ->.
    { apply all_true. by intros sv (l & -> & _)%list_elem_of_fmap. }
    by destruct layers.
  - apply last_None in El. by destruct layers.
Qed.

Section theorems.
Context (json_text : Value → bytes) (serde_error : str → Value → str) {Declared PluginTrust : Type}
  (read_model : Value → option Declared) (read_trust : Value → option PluginTrust).
Abbreviation merge := (merge json_text serde_error read_model read_trust).
Implicit Types (layers : list Layer) (claims : list Claim).

Lemma merge_inv layers claims mg : merge layers claims = Ok mg →
  ∃ owned merged, owners claims = Ok owned ∧ fold_objects (modes claims) [] (sourced_objects (prepared layers claims)) = Ok merged
    ∧ kernel_settings serde_error read_model read_trust merged (prepared layers claims) = Ok (mg_kernel mg)
    ∧ mg_unknown mg = unknown_keys (prepared layers claims) owned
    ∧ mg_entries mg = entries json_text (prepared layers claims) claims merged
    ∧ mg_plugins mg = waiting (slices merged claims) claims (mg_entries mg) (ks_approved (mg_kernel mg)).
Proof.
  unfold Settings.merge. destruct (owners claims) as [owned|]; [|done]. cbn [rbind].
  destruct (fold_objects _ _ _) as [merged|]; [|done]. cbn [rbind]. destruct (kernel_settings _ _ _ _ _) as [k|] eqn:Ek; [|done].
  cbn [rbind]. intros [= <-]. by exists owned, merged.
Qed.

(** A claimed setting is read in the plugin's slice as in the merged object. *)
Lemma slice_at layers claims mg merged claim key m slice : merge layers claims = Ok mg →
  fold_objects (modes claims) [] (sourced_objects (prepared layers claims)) = Ok merged →
  NoDup (cl_plugin <$> claims) → claim ∈ claims → (key, m) ∈ cl_keys claim → root_of key ≠ lit "waiting" →
  mg_plugins mg !! cl_plugin claim = Some slice → at_path slice key = at_path merged key.
Proof.
  intros Hm Hf Hnd Hc Hk Hw Hs. apply merge_inv in Hm as (owned & merged' & _ & Hf' & _ & _ & _ & Ep).
  assert (merged' = merged) as -> by congruence. rewrite Ep, waiting_lookup, slices_lookup in Hs by done. injection Hs as <-.
  unfold at_path. destruct (segments_cons key) as [rest ->]. simpl.
  assert (map_get (root_of key) (with_waiting (waiting_for (ks_approved (mg_kernel mg)) (mg_entries mg) claim) claim (slice_of merged claim))
    = map_get (root_of key) (slice_of merged claim)) as ->.
  { unfold with_waiting. case_bool_decide; [done|]. by rewrite map_get_insert_ne. }
  rewrite slice_get; [done|]. apply list_elem_of_fmap. by exists (key, m).
Qed.

Lemma personal_origin claims l : ly_origin (personal_layer claims l).1 = ly_origin l ∧ ly_source (personal_layer claims l).1 = ly_source l.
Proof.
  unfold personal_layer. destruct (repository l); [|done]. induction (claims ≫= cl_keys) as [|km kms IH] using rev_ind; [done|].
  rewrite foldl_app. simpl. destruct (foldl _ (l, []) kms) as [l' notices]. simpl in *. case_bool_decide; [|done].
  by destruct (remove_at _ _).
Qed.

Lemma personal_user claims l : is_user l = true → (personal_layer claims l).1 = l.
Proof. unfold is_user, personal_layer, repository. by destruct (ly_origin l). Qed.

Lemma prepared_map layers claims : prepared layers claims = (fun l => canonical_pictures (personal_layer claims l).1) <$> layers.
Proof. unfold prepared, personal. simpl. by rewrite <- !list_fmap_compose. Qed.

Lemma prepared_users layers claims : retain is_user (prepared layers claims) = canonical_pictures <$> retain is_user layers.
Proof.
  rewrite prepared_map. induction layers as [|l layers IH]; csimpl; [done|].
  assert (is_user (canonical_pictures (personal_layer claims l).1) = is_user l) as ->.
  { unfold is_user. simpl. by rewrite (proj1 (personal_origin claims l)). }
  destruct (is_user l) eqn:E; csimpl; [|done]. by rewrite personal_user, IH.
Qed.

Lemma kernel_grants merged layers k : kernel_settings serde_error read_model read_trust merged layers = Ok k →
  user_value serde_error (read_map read_trust) ∅ layers (lit "pluginTrust") = Ok (ks_plugin_trust k)
  ∧ user_value serde_error (read_map (read_map as_str)) ∅ layers (lit "approved") = Ok (ks_approved k).
Proof.
  unfold kernel_settings. intros Hk.
  repeat match type of Hk with rbind ?e _ = Ok _ => let E := fresh in destruct e eqn:E; [cbn [rbind] in Hk|done] end.
  by injection Hk as <-.
Qed.

Lemma user_value_users {T} (read : Value → option T) empty layers layers' key :
  retain is_user layers = retain is_user layers' → user_value serde_error read empty layers key = user_value serde_error read empty layers' key.
Proof. unfold user_value. by intros ->. Qed.


(** C19: no layer but the person's grants anything.  Two sets of layers with the same
    user layers give the same plugin trust and the same approvals, whatever a
    repository, a [--settings] file or the claims of plugins say. *)
Theorem grants_are_the_persons layers layers' claims claims' mg mg' :
  merge layers claims = Ok mg → merge layers' claims' = Ok mg' → retain is_user layers = retain is_user layers' →
  ks_plugin_trust (mg_kernel mg) = ks_plugin_trust (mg_kernel mg') ∧ ks_approved (mg_kernel mg) = ks_approved (mg_kernel mg').
Proof.
  intros (? & ? & _ & _ & [T A]%kernel_grants & _)%merge_inv (? & ? & _ & _ & [T' A']%kernel_grants & _)%merge_inv Hu.
  assert (retain is_user (prepared layers claims) = retain is_user (prepared layers' claims')) as Hp by by rewrite !prepared_users, Hu.
  rewrite (user_value_users _ _ _ _ _ Hp) in T. rewrite (user_value_users _ _ _ _ _ Hp) in A. split; congruence.
Qed.

(** *** Personal settings *)

Lemma personal_unique claims l : unique_keys (VObject (ly_value l)) = true → unique_keys (VObject (ly_value (personal_layer claims l).1)) = true.
Proof.
  intros Hu. unfold personal_layer. destruct (repository l); [|done]. induction (claims ≫= cl_keys) as [|km kms IH] using rev_ind; [done|].
  rewrite foldl_app. simpl. destruct (foldl _ (l, []) kms) as [l' notices]. case_bool_decide; [|done].
  pose proof (remove_unique (segments km.1) (ly_value l') IH) as Hr. by destruct (remove_at _ _).
Qed.

(** The layer of a repository says nothing of a personal setting. *)
Lemma personal_absent claims l root key : repository l = Some root → unique_keys (VObject (ly_value l)) = true →
  (key, PersonalAccumulate) ∈ claims ≫= cl_keys → at_path (ly_value (personal_layer claims l).1) key = None.
Proof.
  intros Hr Hu. unfold personal_layer. rewrite Hr. unfold at_path. induction (claims ≫= cl_keys) as [|km kms IH] using rev_ind; [by intros ?%elem_of_nil|].
  rewrite foldl_app. simpl. assert (unique_keys (VObject (ly_value (foldl (λ '(layer, notices) (km : str * Merge),
    if bool_decide (km.2 = PersonalAccumulate) then let '(value, removed) := remove_at (segments km.1) (ly_value layer) in
      (with_value layer value, if removed : bool then notices ++ [notice "PROJECT_SETTING_IGNORED" (km.1 ++ lit " in " ++ ly_source layer
        ++ lit " is ignored; executable directories must be supplied by the person")] else notices)
    else (layer, notices)) (l, []) kms).1)) = true) as Hu'.
  { pose proof (personal_unique [mkClaim [] kms []] l Hu) as H. unfold personal_layer in H. rewrite Hr in H. simpl in H. by rewrite app_nil_r in H. }
  destruct (foldl _ (l, []) kms) as [l' notices]. simpl in IH, Hu'. intros [Hin|Hin]%elem_of_app.
  - specialize (IH Hin). case_bool_decide; [|done]. pose proof (remove_keeps_absent (segments key) (segments km.1) _ Hu' IH) as Ha.
    by destruct (remove_at _ _).
  - apply list_elem_of_singleton in Hin as <-. rewrite bool_decide_true by done. cbn [fst].
    pose proof (remove_absent (segments key) (ly_value l')) as Ha. destruct (remove_at _ _). apply Ha; [|done].
    by destruct (segments_cons key) as [rest ->].
Qed.

Lemma pictures_at l key : root_of key ≠ lit "pictures" → at_path (ly_value (canonical_pictures l)) key = at_path (ly_value l) key.
Proof.
  intros Hr. unfold at_path. destruct (segments_cons key) as [rest ->]. simpl. by rewrite map_alter_get, bool_decide_false.
Qed.

(** a repository cannot add to what only the person may say.  Every item a plugin
    finds in a list it claimed as personal comes from a layer that is no repository's,
    and stands in that layer's own list. *)
Theorem repository_adds_nothing_personal layers claims mg claim key slice l x :
  merge layers claims = Ok mg → NoDup (cl_plugin <$> claims) → claim ∈ claims → (key, PersonalAccumulate) ∈ cl_keys claim →
  (∀ layer, layer ∈ layers → unique_keys (VObject (ly_value layer)) = true) →
  root_of key ≠ lit "waiting" → root_of key ≠ lit "pictures" →
  mg_plugins mg !! cl_plugin claim = Some slice → at_path slice key = Some (VArray l) → x ∈ l →
  ∃ layer items, layer ∈ layers ∧ repository layer = None ∧ at_path (ly_value layer) key = Some (VArray items) ∧ x ∈ items.
Proof.
  intros Hm Hnd Hc Hk Hu Hw Hp Hs Ha Hx. destruct (merge_inv _ _ _ Hm) as (owned & merged & _ & Hf & _).
  rewrite (slice_at _ _ _ _ _ _ _ _ Hm Hf Hnd Hc Hk Hw Hs) in Ha. unfold at_path in Ha.
  destruct (prepared layers claims) as [|l0 ls] eqn:E; [injection Hf as <-; by destruct (segments_cons key) as [rest Er]; rewrite Er in Ha|].
  rewrite <- E in Hf. apply fold_layers in Hf. rewrite E in Hf at 2. destruct (fold_from_layers _ _ _ _ _ _ _ Hf Ha Hx) as (sv & items & Hsv & Ei & Hi).
  apply list_elem_of_fmap in Hsv as (pl & -> & Hpl). rewrite prepared_map in Hpl. apply list_elem_of_fmap in Hpl as (layer & -> & Hl).
  simpl in Ei. change (at_path (ly_value (canonical_pictures (personal_layer claims layer).1)) key = Some (VArray items)) in Ei.
  rewrite pictures_at in Ei by done. destruct (repository layer) as [root|] eqn:Er.
  - rewrite (personal_absent _ _ root) in Ei; [done|done|by apply Hu|]. apply list_elem_of_bind. by exists claim.
  - exists layer, items. split; [done|]. split; [done|]. split; [|done]. unfold personal_layer in Ei. by rewrite Er in Ei.
Qed.

(** *** Entries of a repository *)

Lemma what_split key name : chr ":" ∉ key → split_once [chr ":"] (what_of key name) = Some (key, name).
Proof.
  unfold what_of. induction key as [|c key IH]; [done|]. intros [Hc Hk]%not_elem_of_cons. cbn [app split_once strip_prefix].
  destruct (N.eqb_spec (chr ":") c); [congruence|]. by rewrite IH.
Qed.

Lemma collected_lookup {K V} `{Countable K} (l : list (K * V)) k d : (∃ x, x ∈ l ∧ x.1 = k) → (∀ x, x ∈ l → x.1 = k → x.2 = d) →
  foldl (fun (m : gmap K V) x => <[x.1 := x.2]> m) ∅ l !! k = Some d.
Proof.
  induction l as [|y l IH] using rev_ind; intros (x & Hx & Ex) Hd; [by apply elem_of_nil in Hx|]. rewrite foldl_app. simpl.
  destruct (decide (y.1 = k)) as [<-|Hne].
  - rewrite lookup_insert_eq, (Hd y); [done| |done]. rewrite elem_of_app. right. by left.
  - rewrite lookup_insert_ne by done. apply IH.
    + apply elem_of_app in Hx as [Hx | ->%list_elem_of_singleton]; [by exists x|done].
    + intros z Hz. apply Hd. rewrite elem_of_app. by left.
Qed.

Lemma entries_lookup layers claims merged layer root key name v : (∀ k, k ∈ claims ≫= cl_approve → chr ":" ∉ k) →
  layer ∈ layers → repository layer = Some root → key ∈ claims ≫= cl_approve → name ∈ entry_names layer key →
  (let? entries := at_path merged key in value_get name entries) = Some v →
  entries json_text layers claims merged !! (root, what_of key name) = Some (digest_entry json_text v).
Proof.
  intros Hcolon Hl Hr Hk Hn Hv. apply collected_lookup.
  - exists ((root, what_of key name), digest_entry json_text v). split; [|done]. apply list_elem_of_bind. exists layer. split; [|done].
    rewrite Hr. apply list_elem_of_bind. exists key. split; [|done]. apply list_elem_of_omap. exists name. split; [done|]. by rewrite Hv.
  - intros x (l' & Hx & Hl')%list_elem_of_bind Ex. destruct (repository l') as [root'|]; [|by apply elem_of_nil in Hx].
    apply list_elem_of_bind in Hx as (key' & (name' & Hn' & E)%list_elem_of_omap & Hk').
    destruct (let? entries := at_path merged key' in value_get name' entries) as [v'|] eqn:Ev; [|done]. simpl in E. injection E as <-.
    simpl in *. injection Ex as _ Ew. pose proof (what_split key' name' (Hcolon _ Hk')) as Hs. rewrite Ew, what_split in Hs by by apply Hcolon.
    injection Hs as <- <-. congruence.
Qed.

(** what a repository would run waits for the person.  When a repository's layer
    names an entry under a key that needs approval, the plugin that claimed the key
    finds the entry listed as waiting, unless the person approved this repository's
    entry with exactly the value it has now. *)
Theorem unapproved_entries_wait layers claims mg claim key name layer root slice v :
  merge layers claims = Ok mg → NoDup (cl_plugin <$> claims) → claim ∈ claims → key ∈ cl_approve claim →
  (∀ k, k ∈ claims ≫= cl_approve → chr ":" ∉ k) → (∃ m, (key, m) ∈ cl_keys claim) → root_of key ≠ lit "waiting" →
  layer ∈ prepared layers claims → repository layer = Some root → name ∈ entry_names layer key →
  mg_plugins mg !! cl_plugin claim = Some slice → (let? entries := at_path slice key in value_get name entries) = Some v →
  (let? approved := ks_approved (mg_kernel mg) !! root in approved !! what_of key name) = Some (digest_entry json_text v)
  ∨ ∃ waits changed, map_get (lit "waiting") slice = Some (VArray waits) ∧ waiting_value root key name changed ∈ waits.
Proof.
  intros Hm Hnd Hc Hk Hcolon [m Hkey] Hw Hl Hr Hn Hs Hv.
  destruct (merge_inv _ _ _ Hm) as (owned & merged & _ & Hf & _ & _ & Ee & Ep).
  rewrite (slice_at _ _ _ _ _ _ _ _ Hm Hf Hnd Hc Hkey Hw Hs) in Hv.
  assert (key ∈ claims ≫= cl_approve) as Hka by (apply list_elem_of_bind; by exists claim).
  pose proof (entries_lookup _ _ merged _ _ _ _ _ Hcolon Hl Hr Hka Hn Hv) as He. rewrite <- Ee in He.
  rewrite Ep, waiting_lookup, slices_lookup in Hs by done. injection Hs as <-. unfold with_waiting.
  rewrite bool_decide_false by (intros E; rewrite E in Hk; by apply elem_of_nil in Hk). rewrite map_get_insert_eq.
  set (d := digest_entry json_text v) in *. destruct (verdict (ks_approved (mg_kernel mg)) root (what_of key name) d) as [on changed] eqn:Ev.
  destruct on.
  - left. unfold verdict in Ev.
    destruct (mbind (M := option) (λ approved : gmap str str, approved !! what_of key name) (ks_approved (mg_kernel mg) !! root)) as [saved|]; [|done].
    apply (f_equal fst) in Ev. simpl in Ev. by bools; subst.
  - right. exists (waiting_for (ks_approved (mg_kernel mg)) (mg_entries mg) claim), changed. split; [done|].
    apply list_elem_of_omap. exists ((root, what_of key name), d). split.
    + rewrite merge_sort_Permutation. by apply elem_of_map_to_list.
    + rewrite what_split by by apply Hcolon. cbn [mbind option_bind].
      assert (any (λ claimed, bool_decide (claimed = key)) (cl_approve claim) = true) as ->.
      { apply any_true. exists key. split; [done|]. by apply bool_decide_true. }
      cbn [negb]. by rewrite Ev.
Qed.

(** *** Owners *)

Definition owned_by (owned : gmap str str) (ps : list (str * str)) : Prop := ∀ r p, (r, p) ∈ ps ↔ owned !! r = Some p.

Lemma owner_step_owned owned ps claim r owned' : owned_by owned ps → owner_step owned claim r = Ok owned' →
  owned_by owned' (ps ++ [(r, cl_plugin claim)]).
Proof.
  intros Ho Hs k p. rewrite elem_of_app, list_elem_of_singleton, (Ho k p). unfold owner_step in Hs.
  assert (owned' = <[r := cl_plugin claim]> owned ∧ (owned !! r = None ∨ owned !! r = Some (cl_plugin claim))) as [-> Hr].
  { destruct (owned !! r) as [first|]; [case_bool_decide; [subst first|done]|]; injection Hs as <-; auto. }
  destruct (decide (k = r)) as [->|Hne].
  - rewrite lookup_insert_eq. split; [intros [E | [= ->]]|intros [= <-]; by right]; [|done]. destruct Hr as [E'|E']; congruence.
  - rewrite lookup_insert_ne by done. split; [by intros [|[= ? _]]|by left].
Qed.

Lemma owners_owned claims owned : owners claims = Ok owned →
  owned_by owned (((fun k => (k, lit "kernel")) <$> KERNEL_KEYS) ++ claims ≫= (fun c => (fun r => (r, cl_plugin c)) <$> roots c)).
Proof.
  assert (∀ c rs acc ps acc', owned_by acc ps → try_fold (fun owners root => owner_step owners c root) acc rs = Ok acc' →
    owned_by acc' (ps ++ ((fun r => (r, cl_plugin c)) <$> rs))) as Hinner.
  { intros c rs. induction rs as [|r rs IH]; intros acc ps acc' Ho; csimpl; [intros [= <-]; by rewrite app_nil_r|].
    destruct (owner_step acc c r) as [acc1|] eqn:E; [|done]. simpl. intros Hr.
    pose proof (IH _ _ _ (owner_step_owned _ _ _ _ _ Ho E) Hr) as H. by rewrite <- (assoc_L (++)) in H. }
  assert (∀ cs acc ps acc', owned_by acc ps → try_fold (fun owners claim => try_fold (fun owners root => owner_step owners claim root) owners (roots claim)) acc cs = Ok acc' →
    owned_by acc' (ps ++ cs ≫= (fun c => (fun r => (r, cl_plugin c)) <$> roots c))) as Houter.
  { intros cs. induction cs as [|c cs IH]; intros acc ps acc' Ho; csimpl; [intros [= <-]; by rewrite app_nil_r|].
    destruct (try_fold _ acc (roots c)) as [acc1|] eqn:E; [|done]. simpl. intros Hr.
    pose proof (IH _ _ _ (Hinner _ _ _ _ _ Ho E) Hr) as H. by rewrite <- (assoc_L (++)) in H. }
  apply Houter. intros r p. rewrite elem_of_list_to_map; [done|].
  rewrite <- list_fmap_compose. apply (bool_decide_unpack _). by vm_compute.
Qed.

(** every key has one reader, and a key without one is said.  When the settings
    merge, no key is claimed by two plugins and none of the kernel's by any; a layer's
    key is reported as unknown exactly when neither the kernel nor a plugin claims it. *)
Theorem every_key_has_one_reader layers claims mg :
  merge layers claims = Ok mg →
  (∀ c c' root, c ∈ claims → c' ∈ claims → root ∈ roots c → root ∈ roots c' → cl_plugin c = cl_plugin c')
  ∧ (∀ c root, c ∈ claims → root ∈ roots c → root ∈ KERNEL_KEYS → cl_plugin c = lit "kernel")
  ∧ ∀ source key, mkUnknownKey source key ∈ mg_unknown mg ↔
      (∃ layer, layer ∈ prepared layers claims ∧ ly_source layer = source ∧ key ∈ (ly_value layer).*1)
      ∧ key ∉ KERNEL_KEYS ∧ ∀ c, c ∈ claims → key ∉ roots c.
Proof.
  intros (owned & merged & Ho & _ & _ & Hu & _)%merge_inv. apply owners_owned in Ho.
  assert (∀ c root, c ∈ claims → root ∈ roots c → owned !! root = Some (cl_plugin c)) as Hc.
  { intros c root Hc Hr. apply Ho, elem_of_app. right. apply list_elem_of_bind. exists c. split; [|done].
    apply list_elem_of_fmap. by exists root. }
  assert (∀ root, root ∈ KERNEL_KEYS → owned !! root = Some (lit "kernel")) as Hk.
  { intros root Hr. apply Ho, elem_of_app. left. apply list_elem_of_fmap. by exists root. }
  split; [|split].
  - intros c c' root H1 H2 H3 H4. pose proof (Hc _ _ H1 H3). pose proof (Hc _ _ H2 H4). congruence.
  - intros c root H1 H2 H3. pose proof (Hc _ _ H1 H2). pose proof (Hk _ H3). congruence.
  - intros source key. rewrite Hu. unfold unknown_keys. rewrite list_elem_of_bind.
    assert (owned !! key = None ↔ key ∉ KERNEL_KEYS ∧ ∀ c, c ∈ claims → key ∉ roots c) as Hnone.
    { split.
      - intros En. split; [by intros Hin%Hk; congruence|]. intros c H1 H2. pose proof (Hc _ _ H1 H2). congruence.
      - intros [H1 H2]. destruct (owned !! key) as [p|] eqn:E; [|done]. apply Ho, elem_of_app in E as [E|E].
        + apply list_elem_of_fmap in E as (k & [= -> _] & Hin). done.
        + apply list_elem_of_bind in E as (c & (r & [= -> _] & Hr)%list_elem_of_fmap & Hin). by destruct (H2 c Hin). }
    split.
    + intros (layer & (k & [= -> ->] & [Hin Hn]%elem_of_retain)%list_elem_of_fmap & Hl). split; [by exists layer|].
      apply Hnone. apply negb_true_iff in Hn. by destruct (owned !! k).
    + intros [(layer & Hl & <- & Hin) Hn]. exists layer. split; [|done]. apply list_elem_of_fmap. exists key. split; [done|].
      apply elem_of_retain. split; [done|]. apply Hnone in Hn. by rewrite Hn.
Qed.
End theorems.

(** ** The theorems at work *)

Module Demo.
(** Enough of a JSON text to hash. *)
Fixpoint text (v : Value) : bytes :=
  match v with
  | VNull => lit "null"
  | VBool b => if b then lit "true" else lit "false"
  | VNumber _ => lit "0"
  | VString s => chr "'" :: s ++ [chr "'"]
  | VArray l => chr "[" :: concat (map (fun v => text v ++ [chr ","]) l) ++ [chr "]"]
  | VObject m => chr "{" :: ((fix fields m := match m with [] => [] | (k, v) :: m => k ++ chr ":" :: text v ++ chr "," :: fields m end) m) ++ [chr "}"]
  end.
Definition error (_ : str) (_ : Value) : str := lit "invalid type".
Definition strings (l : list str) : Value := VArray (VString <$> l).
Definition server (command : str) : Value := VObject [(lit "command", VString command)].
Definition user : Layer :=
  mkLayer OUser (lit "user.toml")
    [(lit "mcpServers", VObject [(lit "mine", server (lit "a"))]); (lit "pluginDirs", strings [lit "/u"]);
     (lit "permissions", VObject [(lit "allow", strings [lit "Read"; lit "Grep"])]); (lit "model", VString (lit "small"))].
Definition repo : Layer :=
  mkLayer (ORepository (lit "/repo")) (lit "/repo/.bingo/settings.toml")
    [(lit "mcpServers", VObject [(lit "theirs", server (lit "b"))]); (lit "pluginDirs", strings [lit "/evil"]);
     (lit "permissions", VObject [(lit "allow", strings [lit "Grep"; lit "Bash"])]);
     (lit "pluginTrust", VObject [(lit "evil", VBool true)]); (lit "modle", VString (lit "big"))].
Definition claims : list Claim :=
  [mkClaim (lit "bingo.mcp") [(lit "mcpServers", Replace)] [lit "mcpServers"];
   mkClaim (lit "bingo.rpc") [(lit "pluginDirs", PersonalAccumulate)] [];
   mkClaim (lit "bingo.permissions") [(lit "permissions.allow", Accumulate)] []].
Definition claim (i : nat) : Claim := default (mkClaim [] [] []) (claims !! i).
Definition merged (layers : list Layer) : result SettingsError (Merged (Declared := ()) (PluginTrust := bool)) :=
  merge text error (λ _, Some tt) as_bool layers claims.
Definition plugin_slice (layers : list Layer) (i : nat) : list (str * Value) :=
  match merged layers with Ok mg => default [] (mg_plugins mg !! cl_plugin (claim i)) | Err _ => [] end.
Definition ok {A E} (d : A) (r : result E A) : A := match r with Ok a => a | Err _ => d end.

Lemma claims_distinct : NoDup (cl_plugin <$> claims).
Proof. apply (bool_decide_unpack _). by vm_compute. Qed.

Lemma merged_Ok : ∃ mg, merged [user; repo] = Ok mg ∧ ∀ i, i < 3 → mg_plugins mg !! cl_plugin (claim i) = Some (plugin_slice [user; repo] i).
Proof.
  assert (is_ok (merged [user; repo]) = true) as Hok by by vm_compute.
  destruct (merged [user; repo]) as [mg|] eqn:E; [|done]. exists mg. split; [done|]. intros i Hi.
  unfold plugin_slice. rewrite E. destruct (mg_plugins mg !! cl_plugin (claim i)) as [slice|] eqn:Es; [done|exfalso].
  assert (claim i ∈ claims) as Hin by (destruct i as [|[|[|i]]]; [by left|by right; left|by do 2 right; left|lia]).
  apply merge_inv in E as (owned & m & _ & _ & _ & _ & _ & Ep). rewrite Ep, waiting_lookup, slices_lookup in Es by (done || apply claims_distinct).
  done.
Qed.


Lemma grants_are_the_persons_witness : ∃ mg, merged [user; repo] = Ok mg ∧ ks_plugin_trust (mg_kernel mg) = ∅.
Proof.
  destruct merged_Ok as (mg & Hm & _). exists mg. split; [done|]. destruct (merged [user]) as [mg'|] eqn:E; [|by vm_compute in E].
  rewrite (proj1 (grants_are_the_persons text error (λ _, Some tt) as_bool [user; repo] [user] claims claims mg mg' Hm E eq_refl)).
  assert (match merged [user] with Ok mg => ks_plugin_trust (mg_kernel mg) = ∅ | Err _ => False end) as Ht by by vm_compute.
  by rewrite E in Ht.
Defined.

Lemma repository_adds_nothing_personal_witness :
  at_path (plugin_slice [user; repo] 1) (lit "pluginDirs") = Some (strings [lit "/u"])
  ∧ ∃ layer items, layer ∈ [user; repo] ∧ repository layer = None ∧ at_path (ly_value layer) (lit "pluginDirs") = Some (VArray items) ∧ VString (lit "/u") ∈ items.
Proof.
  split; [by vm_compute|]. destruct merged_Ok as (mg & Hm & Hs).
  apply (repository_adds_nothing_personal text error (λ _, Some tt) as_bool [user; repo] claims mg (claim 1) (lit "pluginDirs")
    (plugin_slice [user; repo] 1) [VString (lit "/u")] (VString (lit "/u")) Hm);
    [apply claims_distinct|by right; left|by left| |by vm_compute|by vm_compute|apply Hs; lia|by vm_compute|by left].
  apply Forall_forall, (bool_decide_unpack _). by vm_compute.
Defined.

Lemma unapproved_entries_wait_witness : ∃ mg, merged [user; repo] = Ok mg
  ∧ ((let? approved := ks_approved (mg_kernel mg) !! lit "/repo" in approved !! what_of (lit "mcpServers") (lit "theirs"))
       = Some (digest_entry text (server (lit "b")))
     ∨ ∃ waits changed, map_get (lit "waiting") (plugin_slice [user; repo] 0) = Some (VArray waits)
         ∧ waiting_value (lit "/repo") (lit "mcpServers") (lit "theirs") changed ∈ waits).
Proof.
  destruct merged_Ok as (mg & Hm & Hs). exists mg. split; [done|].
  apply (unapproved_entries_wait text error (λ _, Some tt) as_bool [user; repo] claims mg (claim 0) (lit "mcpServers") (lit "theirs")
    (canonical_pictures (personal_layer claims repo).1) (lit "/repo") (plugin_slice [user; repo] 0) (server (lit "b")) Hm);
    [apply claims_distinct|by left|by left| |by eexists; left|by vm_compute|by right; left|done|by left|apply Hs; lia|by vm_compute].
  intros k Hk. vm_compute in Hk. apply list_elem_of_singleton in Hk as ->. apply (bool_decide_unpack _). by vm_compute.
Defined.

Example theirs_waits : map_get (lit "waiting") (plugin_slice [user; repo] 0)
  = Some (VArray [waiting_value (lit "/repo") (lit "mcpServers") (lit "theirs") false]).
Proof. by vm_compute. Qed.

Lemma every_key_has_one_reader_witness : ∃ mg, merged [user; repo] = Ok mg
  ∧ mkUnknownKey (lit "/repo/.bingo/settings.toml") (lit "modle") ∈ mg_unknown mg.
Proof.
  destruct merged_Ok as (mg & Hm & _). exists mg. split; [done|].
  apply (proj2 (proj2 (every_key_has_one_reader text error (λ _, Some tt) as_bool [user; repo] claims mg Hm))).
  split; [|split].
  - exists (canonical_pictures (personal_layer claims repo).1). split; [by right; left|]. split; [done|].
    apply (bool_decide_unpack _). by vm_compute.
  - apply (bool_decide_unpack _). by vm_compute.
  - apply Forall_forall, (bool_decide_unpack _). by vm_compute.
Defined.
End Demo.
