(* ===== verification/Context.v ===== *)
(** * Context: what the model reads

    [bingo-core/src/context.rs]: the fold of a transcript's model items into the
    messages a provider receives; [context/elide.rs] and
    [context/elide/images.rs]: the projections that take stale tool results and
    old pictures off the wire.  The text of a JSON value is its library's. *)

From S2P Require Import Prelude Text Model Interaction Event Transcript.

(** ** Who speaks *)

Definition the_person : str := lit "from the person you work for".
Definition opening_note : str := lit "[The conversation begins here.]".

Definition non_empty (s : option str) : option str :=
  let? s := s in if bool_decide (s = []) then None else Some s.

Definition speaker (o : Origin) : option str :=
  match non_empty (principal o), non_empty (conversation o) with
  | Some who, Some place => Some (lit "from " ++ who ++ lit " in " ++ place)
  | Some who, None => Some (lit "from " ++ who)
  | None, Some place => Some (lit "in " ++ place)
  | None, None => None
  end.

Definition person_surface (o : Origin) : bool :=
  bool_decide (surface o ∈ person_surfaces) && bool_decide (effective_voice o = Said).

Definition the_persons_own (o : Origin) : bool :=
  negb (option_is_some (speaker o)) && person_surface o.

Definition marker (o : Origin) : option str :=
  option_or (speaker o) (if the_persons_own o then Some the_person else None).

Definition spoken (parts : list ContentPart) (o : Origin) : list ContentPart :=
  match marker o with
  | None => parts
  | Some label => PText (lit "[" ++ label ++ lit "]") :: parts
  end.

(** ** The fold *)

Record Folder := mkFolder {
  fd_messages : list Message;
  fd_pending : list ContentPart;
  fd_round : option (option TurnId * N);
}.

Definition folder_default : Folder := mkFolder [] [] None.

(** [messages.last_mut()]: push parts onto the last message. *)
Fixpoint extend_last (ms : list Message) (parts : list ContentPart) : list Message :=
  match ms with
  | [] => []
  | [m] => [mkMessage (msg_role m) (msg_parts m ++ parts) (msg_options m)]
  | m :: ms => m :: extend_last ms parts
  end.

Definition last_is (r : Role) (ms : list Message) : bool :=
  match last ms with Some m => bool_decide (msg_role m = r) | None => false end.

Definition fold_user (f : Folder) (parts : list ContentPart) : Folder :=
  let all := fd_pending f ++ parts in
  mkFolder (if last_is RUser (fd_messages f) then extend_last (fd_messages f) all
            else fd_messages f ++ [message_user all])
           [] (fd_round f).

(** The results owed go out first. *)
Definition flush (f : Folder) : Folder :=
  match fd_pending f with
  | [] => f
  | owed => fold_user (mkFolder (fd_messages f) [] (fd_round f)) owed
  end.

Definition fold_assistant (f : Folder) (parts : list ContentPart) : Folder :=
  let f := flush f in
  mkFolder (if last_is RAssistant (fd_messages f) then extend_last (fd_messages f) parts
            else fd_messages f ++ [message_assistant parts])
           (fd_pending f) (fd_round f).

Definition fold_note (f : Folder) (text : str) : Folder := fold_user f [PText text].

Definition fold_text (f : Folder) (text : str) : Folder :=
  if bool_decide (text = []) then f else fold_assistant f [PText text].

Definition fold_reasoning (f : Folder) (text : str) (meta : list (str * list (str * Value))) : Folder :=
  if negb (bool_decide (text = [])) || negb (bool_decide (length meta = 0))
  then fold_assistant f [PReasoning text meta] else f.

Definition no_result : str := lit "[no result: the call did not complete]".

Definition result_of (call_id : str) (output : option ToolOutput) : ContentPart :=
  match output with
  | Some o => PToolResult call_id (to_parts o) (to_is_error o)
  | None => PToolResult call_id [PText no_result] true
  end.

Definition fold_tool_call (f : Folder) (round : option TurnId * N) (call_id name : str) (input : Value)
    (output : option ToolOutput) : Folder :=
  let part := PToolUse call_id name input in
  let f :=
    if last_is RAssistant (fd_messages f) && bool_decide (fd_round f = Some round)
    then mkFolder (extend_last (fd_messages f) [part]) (fd_pending f) (fd_round f)
    else let f := fold_assistant f [part] in mkFolder (fd_messages f) (fd_pending f) (Some round) in
  mkFolder (fd_messages f) (fd_pending f ++ [result_of call_id output]) (fd_round f).

Section view.
Context (json_text : Value → str).

Definition plain (v : Value) : str :=
  match v with VString s => s | VNull => [] | other => json_text other end.

Definition fold_item (f : Folder) (item : Item) : Folder :=
  let round := (item_turn item, item_round item) in
  match item_body item with
  | BUser parts origin => fold_user f (spoken parts origin)
  | BAssistant text => fold_text f text
  | BReasoning text meta => fold_reasoning f text meta
  | BToolCall _ _ _ call_id name input output _ _ _ =>
      if external item then f else fold_tool_call f round call_id name input output
  | BCompaction summary _ _ _ _ _ =>
      if bool_decide (summary = []) then f
      else fold_note f (lit "[Summary of the conversation so far]" ++ newline ++ summary)
  | BInterruption marker _ => fold_note f marker
  | BQuestionAnswer _ _ _ question answer =>
      fold_note f (lit "Q: " ++ question ++ newline ++ lit "A: " ++ answer)
  | BShell command output exit _ => fold_note f (shell_note command output exit)
  | BAction name args (Some result) =>
      fold_note f (lit "[" ++ name ++ lit "] " ++ plain args ++ newline ++ plain result)
  | BAction _ _ None | BRewind _ _ | BNotice _ _ _ | BPermissionReceipt _ _ _ _ _ _
  | BAsset _ _ | BUnknown _ => f
  end.

Definition has_parts (m : Message) : bool := negb (bool_decide (length (msg_parts m) = 0)).

(** The API wants a person to speak first. *)
Definition opened (ms : list Message) : list Message :=
  match ms with
  | m :: _ => if bool_decide (msg_role m = RAssistant) then message_text RUser opening_note :: ms else ms
  | [] => ms
  end.

Definition fold_finish (f : Folder) : list Message :=
  opened (retain has_parts (fd_messages (flush f))).

Definition fold_items (l : list Item) : list Message := fold_finish (foldl fold_item folder_default l).

Definition model_view (t : Transcript) : list Message := fold_items (model_items t).
End view.

(** ** Taking stale results off the wire ([context/elide.rs]) *)

Section elide.
Context (json_text : Value → str).

Fixpoint chars_of_part (p : ContentPart) : N :=
  match p with
  | PText text | PReasoning text _ => N.of_nat (length text)
  | PImage image => utf8_len (image_data image)
  | PToolResult _ parts _ =>
      (fix sum (ps : list ContentPart) : N :=
         match ps with [] => 0 | p :: ps => chars_of_part p + sum ps end)%N parts
  | PToolUse _ _ input => utf8_len (json_text input)
  end.
Definition chars_of (parts : list ContentPart) : N := foldr (fun p n => chars_of_part p + n)%N 0%N parts.

Definition elided_prefix : str := lit "[tool result elided: ".
Definition elided_note (chars : N) : str := elided_prefix ++ show_Z (Z.of_N chars) ++ lit " chars]".
Definition is_note (parts : list ContentPart) : bool :=
  match parts with [PText text] => starts_with text elided_prefix | _ => false end.

Definition is_result (p : ContentPart) : bool := match p with PToolResult _ _ _ => true | _ => false end.
Definition count_results (m : Message) : nat := length (retain is_result (msg_parts m)).

(** [project]: the results seen so far, whether anything changed. *)
Definition project (stale : nat) (min_chars : N) (p : ContentPart) (st : nat * bool) : ContentPart * (nat * bool) :=
  match p with
  | PToolResult id parts is_error =>
      let '(seen, changed) := st in
      let chars := chars_of parts in
      if (stale <=? seen) || (chars <? min_chars)%N || is_note parts then (p, (S seen, changed))
      else (PToolResult id [PText (elided_note chars)] is_error, (S seen, true))
  | _ => (p, st)
  end.

(** [iter().map(f).collect()] with a captured state. *)
Fixpoint map_with {A St} (f : A → St → A * St) (l : list A) (st : St) : list A * St :=
  match l with
  | [] => ([], st)
  | x :: l => let '(x, st) := f x st in let '(l, st) := map_with f l st in (x :: l, st)
  end.

Definition project_message (stale : nat) (min_chars : N) (m : Message) (st : nat * bool) : Message * (nat * bool) :=
  let '(parts, st) := map_with (project stale min_chars) (msg_parts m) st in
  (mkMessage (msg_role m) parts (msg_options m), st).

Definition elide_old_results (ms : list Message) (keep_recent : nat) (min_chars : N) : option (list Message) :=
  let total := foldr (fun m n => count_results m + n) 0 ms in
  let stale := total - keep_recent in
  let '(projected, (_, changed)) := map_with (project_message stale min_chars) ms (0, false) in
  if (changed : bool) then Some projected else None.

Definition keep_recent_after_overflow : nat := 4.
Definition elide_min_chars : N := 1000.

(** [elide_after_overflow]. *)
Definition elide_after_overflow (overflow_compacted : bool) (ms : list Message) : list Message :=
  if negb overflow_compacted then ms
  else default ms (elide_old_results ms keep_recent_after_overflow elide_min_chars).
End elide.

(** ** Taking old pictures off the wire ([context/elide/images.rs]) *)

Definition request_picture_bytes : N := 4 * 1024 * 1024.
Definition image_rounds_kept : nat := 3.

(** [bytes::words]. *)
Definition words (bytes : N) : str :=
  let unit_ (tenths : N) (name : str) :=
    show_Z (Z.of_N (tenths / 10)) ++ lit "." ++ show_Z (Z.of_N (tenths mod 10)) ++ name in
  let tenths_of_kb := (u64_saturating_add bytes 50 / 100)%N in
  if (tenths_of_kb <? 10000)%N then unit_ tenths_of_kb (lit " KB")
  else unit_ (u64_saturating_add bytes 50000 / 100000)%N (lit " MB").

Definition image_note (i : Image) : str :=
  let what := lit "[image elided: " ++ media_type i ++ lit " " ++ words (decoded_len i) ++ lit "]" in
  match whereabouts i with Some w => what ++ lit " " ++ w | None => what end.

Fixpoint has_image (p : ContentPart) : bool :=
  match p with
  | PImage _ => true
  | PToolResult _ parts _ => existsb has_image parts
  | _ => false
  end.

(** Pictures are spent from the last part back. *)
Fixpoint project_image (old : bool) (p : ContentPart) (remaining : N) : ContentPart * N * bool :=
  match p with
  | PImage image =>
      if old || (remaining <? decoded_len image)%N then (PText (image_note image), remaining, true)
      else (p, remaining - decoded_len image, false)%N
  | PToolResult id parts is_error =>
      let '(parts, remaining, changed) :=
        (fix go (ps : list ContentPart) (remaining : N) : list ContentPart * N * bool :=
           match ps with
           | [] => ([], remaining, false)
           | p :: ps =>
               let '(ps, remaining, changed) := go ps remaining in
               let '(p, remaining, changed') := project_image old p remaining in
               (p :: ps, remaining, changed || changed')
           end) parts remaining in
      (PToolResult id parts is_error, remaining, changed)
  | _ => (p, remaining, false)
  end.

Fixpoint project_images (old : bool) (ps : list ContentPart) (remaining : N) : list ContentPart * N * bool :=
  match ps with
  | [] => ([], remaining, false)
  | p :: ps =>
      let '(ps, remaining, changed) := project_images old ps remaining in
      let '(p, remaining, changed') := project_image old p remaining in
      (p :: ps, remaining, changed || changed')
  end.

(** [answered_prefix], counting from the end: the argument is reversed. *)
Fixpoint answered_from_end (rev : list Message) (answers rounds_kept : nat) : nat :=
  match rev with
  | [] => 0
  | m :: rest =>
      if rounds_kept <=? answers then S (length rest)
      else answered_from_end rest (if bool_decide (msg_role m = RAssistant) then S answers else answers) rounds_kept
  end.
Definition answered_prefix (ms : list Message) (rounds_kept : nat) : nat :=
  answered_from_end (reverse ms) 0 rounds_kept.

(** The messages from the [n]th on, spent from the last back. *)
Fixpoint project_messages (answered n : nat) (ms : list Message) (remaining : N) : list Message * N * bool :=
  match ms with
  | [] => ([], remaining, false)
  | m :: ms =>
      let '(ms, remaining, changed) := project_messages answered (S n) ms remaining in
      let '(parts, remaining, changed') := project_images (n <? answered) (msg_parts m) remaining in
      (mkMessage (msg_role m) parts (msg_options m) :: ms, remaining, changed || changed')
  end.

Definition elide_old_images (ms : list Message) (rounds_kept : nat) : option (list Message) :=
  if negb (any (fun m => any has_image (msg_parts m)) ms) then None
  else
    let '(projected, _, changed) := project_messages (answered_prefix ms rounds_kept) 0 ms request_picture_bytes in
    if (changed : bool) then Some projected else None.

(** [without_old_images]. *)
Definition without_old_images (ms : list Message) : list Message :=
  default ms (elide_old_images ms image_rounds_kept).

(** ** What a view says about tools *)

Definition is_use (p : ContentPart) : bool := match p with PToolUse _ _ _ => true | _ => false end.
Definition is_role (r : Role) (m : Message) : bool := bool_decide (msg_role m = r).

(** The calls an assistant message makes. *)
Definition uses (m : Message) : list ContentPart :=
  if is_role RAssistant m then retain is_use (msg_parts m) else [].

(** The calls of a message with what the head of the next one answers. *)
Definition answers_in (m m' : Message) : list (ContentPart * ContentPart) :=
  if is_role RUser m' then zip (uses m) (msg_parts m') else [].

Fixpoint exchanges (ms : list Message) : list (ContentPart * ContentPart) :=
  match ms with
  | m :: ms' => match ms' with
                | m' :: _ => answers_in m m' ++ exchanges ms'
                | [] => []
                end
  | [] => []
  end.

(** The calls the model made among the items it reads, each with its result. *)
Definition call_of (i : Item) : option (ContentPart * ContentPart) :=
  match item_body i with
  | BToolCall _ _ _ call_id name input output _ _ _ =>
      if external i then None else Some (PToolUse call_id name input, result_of call_id output)
  | _ => None
  end.

(** ** Lemmas *)

Definition linked (m m' : Message) : Prop :=
  msg_role m ≠ msg_role m' ∧ length (uses m) ≤ length (msg_parts m').

Fixpoint chained (ms : list Message) : Prop :=
  match ms with
  | m :: ms' => match ms' with m' :: _ => linked m m' | [] => True end ∧ chained ms'
  | [] => True
  end.

Definition more (m : Message) (ps : list ContentPart) : Message :=
  mkMessage (msg_role m) (msg_parts m ++ ps) (msg_options m).

Lemma extend_last_snoc ms m ps : extend_last (ms ++ [m]) ps = ms ++ [more m ps].
Proof. induction ms as [|x ms IH]; simpl; [done|]. destruct ms; simpl in *; [done|]. by rewrite IH. Qed.

Lemma last_is_snoc r ms m : last_is r (ms ++ [m]) = is_role r m.
Proof. unfold last_is. by rewrite last_snoc. Qed.

Lemma chained_snoc ms m :
  chained (ms ++ [m]) ↔ chained ms ∧ ∀ m0, last ms = Some m0 → linked m0 m.
Proof.
  induction ms as [|x ms IH]; simpl; [naive_solver|].
  destruct ms as [|y ms]; simpl in *.
  - split; [|naive_solver]. intros [Hl _]. split; [done|]. by intros m0 [= <-].
  - rewrite IH. destruct (last _) eqn:E; naive_solver.
Qed.

Lemma exchanges_snoc ms m m' : exchanges (ms ++ [m; m']) = exchanges (ms ++ [m]) ++ answers_in m m'.
Proof.
  induction ms as [|x ms IH]; simpl; [by rewrite app_nil_r|].
  destruct ms as [|y ms]; simpl in *; [by rewrite !app_nil_r|]. by rewrite IH, app_assoc.
Qed.

Lemma answers_more m m' ps : length (uses m) ≤ length (msg_parts m') →
  answers_in m (more m' ps) = answers_in m m'.
Proof.
  intros Hl. unfold answers_in, is_role; simpl. case_match; [|done].
  revert Hl. generalize (uses m) (msg_parts m'). intros u p. revert p.
  induction u as [|a u IH]; intros [|b p] Hl; simpl in *; [done|done|lia|]. rewrite IH; [done|lia].
Qed.

(** Parts added to the last message change no exchange already made. *)
Lemma exchanges_more ms m ps : chained (ms ++ [m]) → exchanges (ms ++ [more m ps]) = exchanges (ms ++ [m]).
Proof.
  intros [_ Hl]%chained_snoc. destruct ms as [|m0 ms _] using rev_ind; [done|].
  destruct (Hl m0) as [_ Hle]; [apply last_snoc|]. rewrite <- !app_assoc. simpl.
  by rewrite !exchanges_snoc, answers_more.
Qed.

Lemma chained_more ms m ps : chained (ms ++ [m]) → chained (ms ++ [more m ps]).
Proof.
  rewrite !chained_snoc. intros [Hc Hl]. split; [done|]. intros m0 H0.
  destruct (Hl m0 H0) as [Hr Hle]. split; [done|]. simpl. rewrite length_app. lia.
Qed.

Lemma uses_more m ps : uses (more m ps) = uses m ++ uses (mkMessage (msg_role m) ps []).
Proof. unfold uses, is_role; simpl. case_match; [|done]. apply retain_app. Qed.

(** A message that calls nothing adds nothing in front. *)
Lemma exchanges_inert m ms : uses m = [] → exchanges (m :: ms) = exchanges ms.
Proof. intros Hu. destruct ms as [|m' ms]; simpl; [done|]. unfold answers_in. rewrite Hu. by case_match. Qed.

Lemma no_parts_no_uses m : has_parts m = false → msg_parts m = [] ∧ uses m = [].
Proof.
  unfold has_parts, uses. intros H. bools. apply length_zero_iff_nil in H. rewrite H. by case_match.
Qed.

Lemma exchanges_retain ms : chained ms → exchanges (retain has_parts ms) = exchanges ms.
Proof.
  induction ms as [|m ms IH]; [done|]. intros [Hl Hc]. specialize (IH Hc).
  unfold retain in *; cbn [List.filter]. destruct (has_parts m) eqn:Em.
  2: { rewrite IH, exchanges_inert; [done|by apply no_parts_no_uses]. }
  destruct ms as [|x ms]; [done|]. destruct Hl as [_ Hle].
  cbn [List.filter] in *. destruct (has_parts x) eqn:Ex.
  - cbn [exchanges] in *. by rewrite IH.
  - apply no_parts_no_uses in Ex as [Hp _].
    assert (uses m = []) as Hu by (apply length_zero_iff_nil; rewrite Hp in Hle; simpl in Hle; lia).
    rewrite (exchanges_inert m (x :: ms)), (exchanges_inert m) by done. done.
Qed.

Lemma uses_retain ms : (retain has_parts ms) ≫= uses = ms ≫= uses.
Proof.
  induction ms as [|m ms IH]; [done|]. unfold retain in *; cbn [List.filter].
  destruct (has_parts m) eqn:E; csimpl; rewrite IH; [done|]. by rewrite (proj2 (no_parts_no_uses m E)).
Qed.

(** The fold so far: roles alternate, every call but the last message's has its
    result at the head of the next message, and those of the last are owed. *)
Record folder_inv (f : Folder) (calls : list (ContentPart * ContentPart)) : Prop := mk_folder_inv {
  fi_chained : chained (fd_messages f);
  fi_owed : length (fd_pending f) = length (default [] (uses <$> last (fd_messages f)));
  fi_exchanges : exchanges (fd_messages f ++ [message_user (fd_pending f)]) = calls;
  fi_uses : fd_messages f ≫= uses = calls.*1;
}.

Lemma uses_user m : msg_role m = RUser → uses m = [].
Proof. unfold uses, is_role. intros ->. done. Qed.

Lemma bind_snoc {A B} (g : A → list B) l x : (l ++ [x]) ≫= g = (l ≫= g) ++ g x.
Proof. rewrite bind_app. csimpl. by rewrite app_nil_r. Qed.

(** With nothing owed, the last message's exchanges are complete. *)
Lemma exchanges_settled ms m ps : uses m = [] → exchanges (ms ++ [m; message_user ps]) = exchanges (ms ++ [m]).
Proof. intros Hu. rewrite exchanges_snoc. unfold answers_in. rewrite Hu. simpl. apply app_nil_r. Qed.

Lemma inv_user f calls ps : folder_inv f calls → folder_inv (fold_user f ps) calls.
Proof.
  intros [Hc Ho He Hu]. unfold fold_user.
  destruct (fd_messages f) as [|m ms _] using rev_ind.
  - simpl in *. apply length_zero_iff_nil in Ho. rewrite Ho. split; by simpl.
  - rewrite last_is_snoc. rewrite last_snoc in Ho. simpl in Ho. destruct (is_role RUser m) eqn:Er.
    + unfold is_role in Er. bools. rewrite uses_user in Ho by done. apply length_zero_iff_nil in Ho.
      rewrite Ho in *. rewrite extend_last_snoc. simpl.
      rewrite <- app_assoc in He. simpl in He. rewrite exchanges_settled in He by by apply uses_user.
      split; cbn [fd_messages fd_pending].
      * by apply chained_more.
      * rewrite last_snoc. simpl. by rewrite uses_user.
      * rewrite <- app_assoc. simpl. rewrite exchanges_settled by by apply uses_user. by rewrite exchanges_more.
      * rewrite bind_snoc in *. by rewrite !uses_user in *.
    + assert (msg_role m = RAssistant) as Ha.
      { unfold is_role in Er. bools. by destruct (msg_role m). }
      split; cbn [fd_messages fd_pending].
      * apply chained_snoc. split; [done|]. intros m0. rewrite last_snoc. intros [= <-].
        split; [by rewrite Ha|]. simpl. rewrite length_app. lia.
      * by rewrite last_snoc.
      * rewrite <- (app_assoc (ms ++ [m])). simpl. rewrite exchanges_settled by done.
        rewrite <- He. rewrite <- !app_assoc. simpl. rewrite !exchanges_snoc. f_equal.
        change (message_user (fd_pending f ++ ps)) with (more (message_user (fd_pending f)) ps).
        apply answers_more. simpl. lia.
      * rewrite bind_snoc. by rewrite app_nil_r.
Qed.

Lemma flush_user f : fd_pending f ≠ [] → flush f = fold_user f [].
Proof. unfold flush, fold_user. destruct (fd_pending f); [done|]. intros _. simpl. by rewrite app_nil_r. Qed.

Lemma inv_flush f calls : folder_inv f calls → folder_inv (flush f) calls ∧ fd_pending (flush f) = [].
Proof.
  intros Hi. destruct (decide (fd_pending f = [])) as [Hp|Hp].
  - unfold flush. by rewrite Hp.
  - rewrite flush_user by done. split; [by apply inv_user|done].
Qed.

(** An assistant message grows with the parts [ps], which owe what [owed] says. *)
Lemma inv_grow f calls ps res :
  folder_inv f calls → length (retain is_use ps) = length res →
  (last_is RAssistant (fd_messages f) = true ∨ fd_pending f = []) →
  folder_inv
    (mkFolder (if last_is RAssistant (fd_messages f) then extend_last (fd_messages f) ps
               else fd_messages f ++ [message_assistant ps]) (fd_pending f ++ res) (fd_round f))
    (calls ++ zip (retain is_use ps) res).
Proof.
  intros [Hc Ho He Hu] Hl Hcase.
  assert (∀ b, uses (message_assistant b) = retain is_use b) as Huse by done.
  destruct (last_is RAssistant (fd_messages f)) eqn:El.
  - destruct (fd_messages f) as [|m ms _] using rev_ind; [done|].
    rewrite last_is_snoc in El. unfold is_role in El. bools.
    assert (uses (more m ps) = uses m ++ retain is_use ps) as Hm.
    { rewrite uses_more. f_equal. unfold uses, is_role; simpl. by rewrite El. }
    rewrite extend_last_snoc. rewrite last_snoc in Ho. simpl in Ho.
    split; cbn [fd_messages fd_pending].
    + by apply chained_more.
    + rewrite last_snoc. simpl. rewrite Hm, !length_app. lia.
    + rewrite <- He, <- !app_assoc. simpl. rewrite !exchanges_snoc, exchanges_more by done.
      rewrite <- app_assoc. f_equal. unfold answers_in. simpl. rewrite Hm.
      by rewrite zip_with_app by lia.
    + rewrite bind_snoc, Hm, app_assoc, fmap_app. rewrite bind_snoc in Hu. rewrite Hu. f_equal.
      rewrite fst_zip; [done|lia].
  - destruct Hcase as [|Hp]; [done|]. rewrite Hp in *. simpl in *.
    assert (chained (fd_messages f ++ [message_assistant ps])) as Hc'.
    { apply chained_snoc. split; [done|]. intros m0 Hm0. rewrite Hm0 in Ho. simpl in Ho. split; [|simpl; lia].
      unfold last_is in El. rewrite Hm0 in El. bools. simpl. intros Hr. by apply El. }
    split; cbn [fd_messages fd_pending]; [done| | |].
    + rewrite last_snoc. simpl. by rewrite Huse.
    + rewrite <- app_assoc. simpl. rewrite exchanges_snoc. f_equal. rewrite <- He.
      destruct (fd_messages f) as [|m ms _] using rev_ind; [done|]. rewrite last_snoc in Ho. simpl in Ho.
      assert (uses m = []) as Hn by (apply length_zero_iff_nil; lia).
      rewrite <- !app_assoc. simpl. rewrite !exchanges_snoc. f_equal. unfold answers_in. rewrite Hn.
      by case_match.
    + rewrite bind_snoc, Huse, fmap_app, Hu, fst_zip; [done|lia].
Qed.

Lemma inv_round f calls r : folder_inv f calls → folder_inv (mkFolder (fd_messages f) (fd_pending f) r) calls.
Proof. intros [????]. by split. Qed.

Lemma inv_assistant f calls ps : retain is_use ps = [] → folder_inv f calls → folder_inv (fold_assistant f ps) calls.
Proof.
  intros Hps Hi. destruct (inv_flush _ _ Hi) as [Hf Hp].
  pose proof (inv_grow (flush f) calls ps [] Hf) as Hg. rewrite Hps, !app_nil_r in Hg.
  apply Hg; [done|by right].
Qed.

Lemma inv_call f calls round cid name input output : folder_inv f calls →
  folder_inv (fold_tool_call f round cid name input output)
    (calls ++ [(PToolUse cid name input, result_of cid output)]).
Proof.
  intros Hi. unfold fold_tool_call. destruct (_ && _) eqn:E.
  - bools. pose proof (inv_grow f calls [PToolUse cid name input] [result_of cid output] Hi eq_refl) as Hg.
    rewrite H in Hg. apply Hg. by left.
  - destruct (inv_flush _ _ Hi) as [Hf Hp].
    pose proof (inv_grow (flush f) calls [PToolUse cid name input] [result_of cid output] Hf eq_refl) as Hg.
    exact (inv_round _ _ (Some round) (Hg (or_intror Hp))).
Qed.

#[local] Hint Resolve inv_user inv_assistant inv_call : bingo.

Lemma inv_item json_text f calls i : folder_inv f calls →
  folder_inv (fold_item json_text f i) (calls ++ option_list (call_of i)).
Proof.
  intros Hi. unfold fold_item, call_of, fold_note, fold_text, fold_reasoning.
  destruct (item_body i); simpl; rewrite ?app_nil_r; repeat case_match; simpl; rewrite ?app_nil_r; auto with bingo.
Qed.

Lemma inv_items json_text l f calls : folder_inv f calls →
  folder_inv (foldl (fold_item json_text) f l) (calls ++ omap call_of l).
Proof.
  revert f calls. induction l as [|i l IH]; intros f calls Hi; csimpl; [by rewrite app_nil_r|].
  specialize (IH _ _ (inv_item json_text f calls i Hi)). rewrite <- app_assoc in IH.
  by destruct (call_of i).
Qed.

Lemma inv_all json_text l : folder_inv (foldl (fold_item json_text) folder_default l) (omap call_of l).
Proof. apply (inv_items json_text l folder_default []). by split. Qed.

(** *** Messages that say something *)

Definition speaks (i : Item) : Prop :=
  match item_body i with BUser parts origin => spoken parts origin ≠ [] | _ => True end.

Definition full (m : Message) : Prop := msg_parts m ≠ [].

Lemma full_push ms r m ps : Forall full ms → msg_parts m = ps → ps ≠ [] →
  Forall full (if last_is r ms then extend_last ms ps else ms ++ [m]).
Proof.
  intros Hf Hm Hp. case_match eqn:E.
  - destruct ms as [|x ms _] using rev_ind; [done|]. rewrite extend_last_snoc.
    apply Forall_app in Hf as [Hf Hx]. apply Forall_app. split; [done|]. repeat constructor.
    unfold full; simpl. intros []%app_eq_nil. done.
  - apply Forall_app. split; [done|]. repeat constructor. unfold full. by rewrite Hm.
Qed.

Lemma full_user f ps : Forall full (fd_messages f) → (fd_pending f ++ ps ≠ []) →
  Forall full (fd_messages (fold_user f ps)).
Proof. intros. unfold fold_user; simpl. by apply full_push. Qed.

Lemma full_flush f : Forall full (fd_messages f) → Forall full (fd_messages (flush f)).
Proof. intros Hf. unfold flush. destruct (fd_pending f) eqn:E; [done|]. by apply full_user. Qed.

Lemma full_assistant f ps : ps ≠ [] → Forall full (fd_messages f) → Forall full (fd_messages (fold_assistant f ps)).
Proof. intros Hp Hf. unfold fold_assistant; simpl. apply full_push; [by apply full_flush|done|done]. Qed.

Lemma full_item json_text f i : speaks i → Forall full (fd_messages f) →
  Forall full (fd_messages (fold_item json_text f i)).
Proof.
  unfold speaks, fold_item, fold_note, fold_text, fold_reasoning, fold_tool_call. intros Hs Hf.
  destruct (item_body i); repeat case_match; try done;
    try (apply full_assistant; [done|done]).
  all: try (apply full_user; [done|]; intros []%app_eq_nil; done).
  simpl. bools. pose proof (full_push (fd_messages f) RAssistant
    (message_assistant [PToolUse call_id name input]) [PToolUse call_id name input] Hf eq_refl) as Hp.
  assert (last_is RAssistant (fd_messages f) = true) as El by done. rewrite El in Hp. by apply Hp.
Qed.

(** *** What an item appended later leaves of the view *)

(** [ms'] is [ms] with its last message possibly longer and messages after it. *)
Definition extends (ms ms' : list Message) : Prop :=
  ms = [] ∨ ∃ init m ps rest, ms = init ++ [m] ∧ ms' = init ++ more m ps :: rest.

Lemma more_nil m : more m [] = m.
Proof. destruct m. unfold more; simpl. by rewrite app_nil_r. Qed.

Lemma extends_app ms rest : extends ms (ms ++ rest).
Proof.
  destruct ms as [|m ms _] using rev_ind; [by left|]. right. exists ms, m, [], rest.
  split; [done|]. by rewrite more_nil, <- app_assoc.
Qed.

Lemma extends_push ms r m ps : extends ms (if last_is r ms then extend_last ms ps else ms ++ [m]).
Proof.
  case_match; [|apply extends_app]. destruct ms as [|x ms _] using rev_ind; [by left|].
  right. exists ms, x, ps, []. by rewrite extend_last_snoc.
Qed.

Lemma extends_opened ms ms' : extends ms ms' → extends (opened ms) (opened ms').
Proof.
  intros [->|(init & m & ps & rest & -> & ->)]; [by left|].
  destruct init as [|x init]; simpl; case_match; right.
  - by exists [message_text RUser opening_note], m, ps, rest.
  - by exists [], m, ps, rest.
  - by exists (message_text RUser opening_note :: x :: init), m, ps, rest.
  - by exists (x :: init), m, ps, rest.
Qed.

Lemma extends_retain ms ms' : extends ms ms' → extends (retain has_parts ms) (retain has_parts ms').
Proof.
  intros [->|(init & m & ps & rest & -> & ->)]; [by left|]. rewrite !retain_app.
  unfold retain at 2 4; simpl. destruct (has_parts m) eqn:E; [|rewrite app_nil_r; apply extends_app].
  assert (has_parts (more m ps) = true) as ->.
  { unfold has_parts in *. bools. apply negb_true_iff, bool_decide_eq_false_2. simpl. rewrite length_app. lia. }
  right. eexists _, m, ps, _. done.
Qed.

(** The call an item would join: a tool call of the round whose results are
    still owed. *)
Definition joins (f : Folder) (i : Item) : Prop :=
  is_Some (call_of i) ∧ fd_pending f ≠ [] ∧ fd_round f = Some (item_turn i, item_round i).

Lemma extends_user f calls ps : folder_inv f calls →
  extends (fd_messages (flush f)) (fd_messages (fold_user f ps)).
Proof.
  intros [_ Ho _ _]. destruct (decide (fd_pending f = [])) as [Hp|Hp].
  - unfold flush, fold_user. rewrite Hp. simpl. apply extends_push.
  - rewrite flush_user by done. unfold fold_user; simpl. rewrite app_nil_r.
    case_match eqn:E; [|right; eexists _, (message_user (fd_pending f)), ps, []; split; [done|]; done].
    destruct (fd_messages f) as [|m ms _] using rev_ind; [done|]. rewrite last_is_snoc in E.
    unfold is_role in E. bools. rewrite last_snoc in Ho. simpl in Ho.
    rewrite uses_user in Ho by done. by apply length_zero_iff_nil in Ho.
Qed.

Lemma flush_twice f : flush (flush f) = flush f.
Proof. unfold flush. by destruct (fd_pending f) eqn:E; rewrite ?E. Qed.

Lemma extends_more ms ms' rest : extends ms ms' → extends ms (ms' ++ rest).
Proof.
  intros [->|(init & m & ps & r & -> & ->)]; [by left|]. right. exists init, m, ps, (r ++ rest).
  split; [done|]. by rewrite <- app_assoc.
Qed.

Lemma grown_last ms ps :
  last_is RUser (if last_is RAssistant ms then extend_last ms ps else ms ++ [message_assistant ps]) = false.
Proof.
  case_match eqn:E; [|by rewrite last_is_snoc].
  destruct ms as [|m ms _] using rev_ind; [done|]. rewrite last_is_snoc in E. rewrite extend_last_snoc, last_is_snoc.
  unfold is_role in *. bools. simpl. by rewrite E.
Qed.

Lemma flush_app f : last_is RUser (fd_messages f) = false → ∃ rest, fd_messages (flush f) = fd_messages f ++ rest.
Proof.
  intros El. unfold flush, fold_user. destruct (fd_pending f); [exists []; by rewrite app_nil_r|].
  simpl. rewrite El. eauto.
Qed.

Lemma extends_call f round cid name input output :
  ¬ (fd_pending f ≠ [] ∧ fd_round f = Some round) →
  extends (fd_messages (flush f)) (fd_messages (flush (fold_tool_call f round cid name input output))).
Proof.
  intros Hj. unfold fold_tool_call. destruct (_ && _) eqn:E.
  - bools. assert (fd_pending f = []) as Hp by (destruct (decide (fd_pending f = [])); naive_solver).
    assert (flush f = f) as -> by (unfold flush; by rewrite Hp).
    pose proof (grown_last (fd_messages f) [PToolUse cid name input]) as Hl.
    pose proof (extends_push (fd_messages f) RAssistant (message_assistant []) [PToolUse cid name input]) as Hx.
    rewrite H in Hl, Hx.
    edestruct (flush_app (mkFolder (extend_last (fd_messages f) [PToolUse cid name input])
      (fd_pending f ++ [result_of cid output]) (fd_round f)) Hl) as [rest Hr].
    cbn [fd_messages fd_pending fd_round] in *. rewrite Hr. by apply extends_more.
  - edestruct (flush_app (mkFolder (fd_messages (fold_assistant f [PToolUse cid name input]))
      (fd_pending (fold_assistant f [PToolUse cid name input]) ++ [result_of cid output]) (Some round)))
      as [rest Hr]; [apply grown_last|].
    cbn [fd_messages fd_pending fd_round] in *. rewrite Hr. apply extends_more, extends_push.
Qed.

Lemma flush_settled f : fd_pending f = [] → flush f = f.
Proof. unfold flush. by intros ->. Qed.

Lemma extends_item json_text f calls i : folder_inv f calls → ¬ joins f i →
  extends (fd_messages (flush f)) (fd_messages (flush (fold_item json_text f i))).
Proof.
  intros Hi Hj. destruct (inv_flush _ _ Hi) as [_ Hp].
  assert (extends (fd_messages (flush f)) (fd_messages (flush f))) as Hrefl.
  { rewrite <- (app_nil_r (fd_messages (flush f))) at 2. apply extends_app. }
  assert (∀ ps, extends (fd_messages (flush f)) (fd_messages (flush (fold_user f ps)))) as Hu.
  { intros ps. rewrite (flush_settled (fold_user f ps)) by done. by apply (extends_user f calls). }
  assert (∀ ps, extends (fd_messages (flush f)) (fd_messages (flush (fold_assistant f ps)))) as Ha.
  { intros ps. rewrite (flush_settled (fold_assistant f ps)) by (simpl; done). apply extends_push. }
  unfold joins, call_of in Hj. unfold fold_item, fold_note, fold_text, fold_reasoning.
  destruct (item_body i); repeat case_match; auto.
  apply extends_call. intros [? ?]. apply Hj. split_and!; [by eexists|done|done].
Qed.

(** The open round is that of a call already read. *)
Lemma fold_round_seen json_text l r : fd_round (foldl (fold_item json_text) folder_default l) = Some r →
  ∃ i, i ∈ l ∧ is_Some (call_of i) ∧ r = (item_turn i, item_round i).
Proof.
  induction l as [|i l IH] using rev_ind; [done|]. rewrite foldl_snoc.
  set (f := foldl (fold_item json_text) folder_default l) in *.
  assert (∀ g, fd_round (flush g) = fd_round g) as Hfl by (intros g; unfold flush; by case_match).
  assert (fd_round f = Some r → ∃ i', i' ∈ l ++ [i] ∧ is_Some (call_of i') ∧ r = (item_turn i', item_round i')) as Hold.
  { intros (i' & Hin & H)%IH. exists i'. split; [|done]. apply elem_of_app. by left. }
  unfold fold_item, fold_note, fold_text, fold_reasoning.
  destruct (item_body i) eqn:Eb; repeat case_match; try exact Hold; try (unfold fold_assistant; simpl; rewrite Hfl; exact Hold).
  unfold fold_tool_call. destruct (_ && _); simpl; [exact Hold|]. intros [= <-].
  exists i. split; [apply elem_of_app; right; by left|]. split; [|done]. unfold call_of. rewrite Eb. by case_match.
Qed.

(** *** Elided results *)

Section elided.
Context (json_text : Value → str).

(** The results of a view, in order, and the view without what they say. *)
Definition results (ms : list Message) : list ContentPart := ms ≫= (λ m, retain is_result (msg_parts m)).
Definition blank_part (p : ContentPart) : ContentPart :=
  match p with PToolResult id _ is_error => PToolResult id [] is_error | _ => p end.
Definition blank (m : Message) : Message := mkMessage (msg_role m) (blank_part <$> msg_parts m) (msg_options m).

(** What the [k]th result becomes. *)
Definition elided (stale : nat) (min_chars : N) (k : nat) (p : ContentPart) : ContentPart :=
  match p with
  | PToolResult id parts is_error =>
      if bool_decide (k < stale) && (min_chars <=? chars_of json_text parts)%N && negb (is_note parts)
      then PToolResult id [PText (elided_note (chars_of json_text parts))] is_error else p
  | _ => p
  end.

Lemma project_elided stale min p seen ch p' st' :
  project json_text stale min p (seen, ch) = (p', st') →
  p' = elided stale min seen p ∧ blank_part p' = blank_part p
  ∧ st'.1 = seen + length (retain is_result [p]) ∧ (st'.2 = false → ch = false ∧ p' = p).
Proof.
  destruct p as [| | |id parts err|]; simpl; try (intros [= <- <-]; simpl; split_and!; [done|done|lia|done]).
  rewrite Nat.leb_antisym, N.ltb_antisym.
  destruct (Nat.ltb_spec seen stale), (min <=? _)%N, (is_note parts); simpl; intros [= <- <-]; simpl;
    rewrite ?bool_decide_true, ?bool_decide_false by lia; simpl; split_and!; try done; try lia.
Qed.
Lemma elided_result stale min k p : is_result (elided stale min k p) = is_result p.
Proof. destruct p; simpl; try done. by case_match. Qed.

Lemma project_parts stale min ps seen ch ps' st' :
  map_with (project json_text stale min) ps (seen, ch) = (ps', st') →
  retain is_result ps' = imap (λ k, elided stale min (seen + k)) (retain is_result ps)
  ∧ blank_part <$> ps' = blank_part <$> ps
  ∧ st'.1 = seen + length (retain is_result ps) ∧ (st'.2 = false → ch = false ∧ ps' = ps).
Proof.
  revert seen ch ps' st'. induction ps as [|p ps IH]; intros seen ch ps' st'; cbn [map_with].
  { intros [= <- <-]. simpl. split_and!; [done|done|lia|done]. }
  destruct (project json_text stale min p (seen, ch)) as [q [seen1 ch1]] eqn:Ep.
  destruct (map_with _ ps (seen1, ch1)) as [qs st2] eqn:Em. intros [= <- <-].
  apply project_elided in Ep as (Hq & Hb & Hs & Hc). simpl in Hs, Hc.
  apply IH in Em as (Hr & Hbs & Hss & Hcs). split_and!.
  - unfold retain in *; cbn [List.filter] in *. rewrite Hq, elided_result, Hr, Hs.
    destruct (is_result p); cbn [imap]; simpl; rewrite ?Nat.add_0_r; f_equal; apply imap_ext; intros; simpl;
      f_equal; lia.
  - csimpl. by rewrite Hb, Hbs.
  - rewrite Hss, Hs. unfold retain; cbn [List.filter]. destruct (is_result p); simpl; lia.
  - intros H. destruct (Hcs H) as [-> ->]. by destruct (Hc eq_refl) as [-> ->].
Qed.

Lemma project_view stale min ms seen ch ms' st' :
  map_with (project_message json_text stale min) ms (seen, ch) = (ms', st') →
  results ms' = imap (λ k, elided stale min (seen + k)) (results ms)
  ∧ blank <$> ms' = blank <$> ms ∧ (st'.2 = false → ch = false ∧ ms' = ms).
Proof.
  revert seen ch ms' st'. induction ms as [|m ms IH]; intros seen ch ms' st'; cbn [map_with].
  { intros [= <- <-]. by split_and!. }
  unfold project_message at 1.
  destruct (map_with (project json_text stale min) (msg_parts m) (seen, ch)) as [ps [seen1 ch1]] eqn:Ep.
  destruct (map_with _ ms (seen1, ch1)) as [qs st2] eqn:Em. intros [= <- <-].
  apply project_parts in Ep as (Hr & Hb & Hs & Hc). simpl in Hs, Hc.
  apply IH in Em as (Hrs & Hbs & Hcs). split_and!.
  - unfold results in *. csimpl. rewrite Hr, Hrs, Hs, imap_app. f_equal. apply imap_ext. intros. simpl.
    f_equal. lia.
  - csimpl. rewrite Hbs. unfold blank at 1 3; simpl. by rewrite Hb.
  - intros H. destruct (Hcs H) as [-> ->]. destruct (Hc eq_refl) as [-> ->]. by destruct m.
Qed.

Lemma total_results ms : foldr (λ m n, count_results m + n) 0 ms = length (results ms).
Proof. unfold results. induction ms as [|m ms IH]; csimpl; [done|]. rewrite IH, length_app. done. Qed.
End elided.

(** *** Pictures *)

(** Induction over content, with the parts of a result. *)
Lemma part_induction (P : ContentPart → Prop)
  (Htext : ∀ t, P (PText t)) (Himage : ∀ i, P (PImage i)) (Huse : ∀ a b c, P (PToolUse a b c))
  (Hresult : ∀ id parts e, Forall P parts → P (PToolResult id parts e))
  (Hreason : ∀ t m, P (PReasoning t m)) : ∀ p, P p.
Proof.
  fix IH 1. intros [t|i|a b c|id parts e|t m];
    [apply Htext|apply Himage|apply Huse| |apply Hreason].
  apply Hresult. induction parts as [|q parts IHp]; constructor; [apply IH|exact IHp].
Qed.

(** Decoded bytes of the pictures in a part, in parts and in a view. *)
Fixpoint picture_bytes (p : ContentPart) : N :=
  match p with
  | PImage i => decoded_len i
  | PToolResult _ parts _ => foldr (λ p n, picture_bytes p + n)%N 0%N parts
  | _ => 0
  end.
Definition parts_bytes (ps : list ContentPart) : N := foldr (λ p n, picture_bytes p + n)%N 0%N ps.
Definition view_bytes (ms : list Message) : N := foldr (λ m n, parts_bytes (msg_parts m) + n)%N 0%N ms.

(** A picture may become its note; nothing else changes. *)
Inductive hides : ContentPart → ContentPart → Prop :=
| hides_same p : hides p p
| hides_image i : hides (PImage i) (PText (image_note i))
| hides_result id ps ps' e : Forall2 hides ps ps' → hides (PToolResult id ps e) (PToolResult id ps' e).

Lemma project_image_result old id parts e remaining :
  project_image old (PToolResult id parts e) remaining =
  let '(parts, remaining, changed) := project_images old parts remaining in
  (PToolResult id parts e, remaining, changed).
Proof.
  simpl. set (go := fix go (ps : list ContentPart) (r : N) {struct ps} := _).
  assert (∀ ps r, go ps r = project_images old ps r) as ->; [|done].
  induction ps as [|p ps IH]; intros r; simpl; [done|]. by rewrite IH.
Qed.

(** What projecting a part does to the budget. *)
Definition spends (old : bool) (p : ContentPart) : Prop :=
  ∀ remaining p' remaining' changed, project_image old p remaining = (p', remaining', changed) →
  hides p p' ∧ (remaining' + picture_bytes p' = remaining)%N ∧ (old = true → picture_bytes p' = 0%N)
  ∧ (changed = false → p' = p).

Lemma spends_parts old ps : Forall (spends old) ps →
  ∀ remaining ps' remaining' changed, project_images old ps remaining = (ps', remaining', changed) →
  Forall2 hides ps ps' ∧ (remaining' + parts_bytes ps' = remaining)%N ∧ (old = true → parts_bytes ps' = 0%N)
  ∧ (changed = false → ps' = ps).
Proof.
  induction 1 as [|p ps Hp _ IH]; intros remaining ps' remaining' changed; simpl.
  { intros [= <- <- <-]. split_and!; [constructor|simpl; lia|done|done]. }
  destruct (project_images old ps remaining) as [[qs r1] c1] eqn:Es.
  destruct (project_image old p r1) as [[q r2] c2] eqn:Ep. intros [= <- <- <-].
  destruct (IH _ _ _ _ Es) as (Hh & Hb & Ho & Hc). destruct (Hp _ _ _ _ Ep) as (Hh' & Hb' & Ho' & Hc').
  split_and!; [by constructor|simpl; lia|simpl; intros; rewrite Ho, Ho'; done|].
  intros [-> ->]%orb_false_iff. by rewrite Hc, Hc'.
Qed.

Lemma spends_all old p : spends old p.
Proof.
  induction p as [t|i|a b c|id parts e IH|t m] using part_induction; intros remaining p' remaining' changed.
  1,3,5: intros [= <- <- <-]; split_and!; [constructor|simpl; lia|done|done].
  - simpl. destruct old; simpl.
    + intros [= <- <- <-]. split_and!; [constructor|simpl; lia|done|done].
    + destruct (N.ltb_spec remaining (decoded_len i)); intros [= <- <- <-]; split_and!; try done;
        try constructor; simpl; lia.
  - rewrite project_image_result. destruct (project_images old parts remaining) as [[qs r] ch] eqn:Es.
    intros [= <- <- <-]. destruct (spends_parts old parts IH _ _ _ _ Es) as (Hh & Hb & Ho & Hc).
    split_and!; [by constructor|done|done|]. intros H. by rewrite Hc.
Qed.

Lemma project_messages_spends answered n ms remaining ms' remaining' changed :
  project_messages answered n ms remaining = (ms', remaining', changed) →
  Forall2 (λ m m', msg_role m = msg_role m' ∧ Forall2 hides (msg_parts m) (msg_parts m')) ms ms'
  ∧ (remaining' + view_bytes ms' = remaining)%N
  ∧ (∀ k m, n + k < answered → ms' !! k = Some m → parts_bytes (msg_parts m) = 0%N)
  ∧ (changed = false → ms' = ms).
Proof.
  revert n ms' remaining' changed. induction ms as [|m ms IH]; intros n ms' remaining' changed; simpl.
  { intros [= <- <- <-]. split_and!; [constructor|simpl; lia|done|done]. }
  destruct (project_messages answered (S n) ms remaining) as [[qs r1] c1] eqn:Es.
  destruct (project_images (n <? answered) (msg_parts m) r1) as [[ps r2] c2] eqn:Ep. intros [= <- <- <-].
  destruct (IH _ _ _ _ Es) as (Hh & Hb & Ho & Hc).
  destruct (spends_parts _ _ (proj2 (Forall_forall _ _) (λ p _, spends_all _ p)) _ _ _ _ Ep) as (Hh' & Hb' & Ho' & Hc').
  split_and!; [by constructor|simpl; lia| |].
  - intros [|k] m' Hk Hm; simplify_eq/=.
    + apply Ho', Nat.ltb_lt. lia.
    + apply (Ho k m'); [lia|done].
  - intros [-> ->]%orb_false_iff. rewrite Hc, Hc' by done. by destruct m.
Qed.

Lemma no_image_bytes p : has_image p = false → picture_bytes p = 0%N.
Proof.
  induction p as [t|i|a b c|id parts e IH|t m] using part_induction; simpl; try done.
  intros Hn. induction IH as [|p parts Hp _ IH]; simpl in *; [done|].
  apply orb_false_iff in Hn as [H1 H2]. rewrite Hp, IH; done.
Qed.

Lemma no_image_view ms : any (λ m, any has_image (msg_parts m)) ms = false → view_bytes ms = 0%N
  ∧ ∀ m, m ∈ ms → parts_bytes (msg_parts m) = 0%N.
Proof.
  intros Hn. rewrite any_false in Hn.
  assert (∀ m, m ∈ ms → parts_bytes (msg_parts m) = 0%N) as Hz.
  { intros m Hm. specialize (Hn m Hm). rewrite any_false in Hn.
    revert Hn. generalize (msg_parts m). induction l as [|p l IH]; intros Hp; simpl; [done|].
    rewrite no_image_bytes by (apply Hp; by left). apply IH. intros q Hq. apply Hp. by right. }
  split; [|done]. clear Hn. induction ms as [|m ms IH]; simpl; [done|].
  rewrite Hz by by left. apply IH. intros m' Hm'. apply Hz. by right.
Qed.

(** ** Claims *)

(** C13: every tool call the model reads about is answered where a provider
    demands it.  In the messages made from any transcript, the calls of the
    assistant messages are the calls among the model's items (those handed in
    from outside apart), in order; each is answered, in order, at the head of
    the user message right after, by the output the item holds or, when the call
    never completed, by an error that says so. *)
Theorem model_view_answers_calls (json_text : Value → str) (t : Transcript) :
  let calls := omap call_of (model_items t) in
  model_view json_text t ≫= uses = calls.*1 ∧ exchanges (model_view json_text t) = calls.
Proof.
  intros calls. pose proof (inv_flush _ _ (inv_all json_text (model_items t))) as [[Hc Ho He Hu] Hp].
  unfold model_view, fold_items, fold_finish.
  set (f := flush (foldl (fold_item json_text) folder_default (model_items t))) in *.
  assert (exchanges (retain has_parts (fd_messages f)) = calls) as Hex.
  { rewrite exchanges_retain by done. etrans; [|exact He]. rewrite Hp.
    destruct (fd_messages f) as [|m ms _] using rev_ind; [done|]. rewrite Hp, last_snoc in Ho. simpl in Ho.
    rewrite <- app_assoc. simpl. rewrite exchanges_settled; [done|]. apply length_zero_iff_nil. lia. }
  assert (retain has_parts (fd_messages f) ≫= uses = calls.*1) as Hus by by rewrite uses_retain.
  unfold opened. case_match eqn:E; [done|]. case_bool_decide; rewrite <- E in *; [|done].
  split; [done|]. by rewrite exchanges_inert.
Qed.

(** C39: the messages are well formed for a provider: when every line in the
    model's view says something, no message is empty, the first is a user's and
    roles alternate. *)
Theorem model_view_alternates (json_text : Value → str) (t : Transcript)
  (Hspeaks : Forall speaks (model_items t)) :
  let view := model_view json_text t in
  Forall full view
  ∧ (∀ m, head view = Some m → msg_role m = RUser)
  ∧ ∀ i m m', view !! i = Some m → view !! S i = Some m' → msg_role m ≠ msg_role m'.
Proof.
  intros view. pose proof (inv_flush _ _ (inv_all json_text (model_items t))) as [[Hc _ _ _] _].
  set (f := flush (foldl (fold_item json_text) folder_default (model_items t))) in *.
  assert (Forall full (fd_messages f)) as Hf.
  { apply full_flush. revert Hspeaks. generalize (model_items t). intros l Hl.
    assert (Forall full (fd_messages folder_default)) as H0 by constructor. revert H0.
    generalize folder_default. induction Hl as [|i l Hi Hl IH]; intros g Hg; [done|]. apply IH, full_item; done. }
  assert (retain has_parts (fd_messages f) = fd_messages f) as Hr.
  { apply retain_all. intros m Hm. rewrite Forall_forall in Hf. specialize (Hf m Hm). unfold full, has_parts in *.
    apply negb_true_iff, bool_decide_eq_false_2. by intros ?%length_zero_iff_nil. }
  assert (view = opened (fd_messages f)) as Hv by exact (f_equal opened Hr).
  rewrite Hv.
  assert (∀ l, chained l → ∀ i m m', l !! i = Some m → l !! S i = Some m' → msg_role m ≠ msg_role m') as Halt.
  { clear. induction l as [|a l IH]; [done|]. intros [Hl Hc] [|i] m m' Hm Hm'; [|by eapply IH].
    simplify_eq/=. destruct l; [done|]. simplify_eq/=. apply Hl. }
  unfold opened. destruct (fd_messages f) as [|m ms] eqn:E; [by split_and!|].
  case_bool_decide as Hrole.
  - split_and!; [by constructor|by intros ? [= <-]|].
    apply Halt. split; [|done]. split; [by rewrite Hrole|]. simpl. lia.
  - split_and!; [done| |by apply Halt]. intros ? [= <-]. by destruct (msg_role m).
Qed.

(** what the model has read stays where it was.  When an item is appended to
    what the model reads, unless it is one more call of a round already read, the
    messages it was last sent are a prefix of the new ones but for parts added
    at the end of the last. *)
Theorem model_view_append_only (json_text : Value → str) (l : list Item) (i : Item)
  (Hround : ∀ i', i' ∈ l → is_Some (call_of i') → is_Some (call_of i) →
    (item_turn i', item_round i') ≠ (item_turn i, item_round i)) :
  extends (fold_items json_text l) (fold_items json_text (l ++ [i])).
Proof.
  unfold fold_items, fold_finish. rewrite foldl_snoc. apply extends_opened, extends_retain.
  apply (extends_item _ _ _ _ (inv_all json_text l)). intros (Hcall & _ & Hr).
  apply fold_round_seen in Hr as (i' & Hin & Hc & Heq). exact (Hround i' Hin Hc Hcall (eq_sym Heq)).
Qed.

(** after an overflow only stale results leave the wire, and nothing else
    moves.  Every message keeps its role, its parts and the calls they answer;
    of the results, in order, one is replaced by a note of its size exactly when
    at least [keep_recent] come after it and it is long enough; the rest are
    sent as they are. *)
Theorem only_stale_results_elided (json_text : Value → str) (ms : list Message) (keep_recent : nat) (min_chars : N) :
  let out := default ms (elide_old_results json_text ms keep_recent min_chars) in
  blank <$> out = blank <$> ms
  ∧ results out = imap (elided json_text (length (results ms) - keep_recent) min_chars) (results ms).
Proof.
  unfold elide_old_results. rewrite total_results.
  destruct (map_with _ ms (0, false)) as [ms' [seen changed]] eqn:E.
  apply project_view in E as (Hr & Hb & Hc). simpl in Hc. destruct changed; simpl; [by split|].
  destruct (Hc eq_refl) as [_ <-]. by split.
Qed.

(** the pictures in one request are bounded.  Whatever the transcript holds,
    the pictures sent decode to at most 4 MiB, those the model has answered three
    times are gone, and a picture left out is replaced by the note that says where
    to read it again: nothing else of any message changes. *)
Theorem request_pictures_bounded (ms : list Message) :
  let out := without_old_images ms in
  (view_bytes out ≤ request_picture_bytes)%N
  ∧ (∀ k m, k < answered_prefix ms image_rounds_kept → out !! k = Some m → parts_bytes (msg_parts m) = 0%N)
  ∧ Forall2 (λ m m', msg_role m = msg_role m' ∧ Forall2 hides (msg_parts m) (msg_parts m')) ms out.
Proof.
  assert (Forall2 (λ m m', msg_role m = msg_role m' ∧ Forall2 hides (msg_parts m) (msg_parts m')) ms ms) as Hrefl.
  { apply Forall_Forall2_diag, Forall_forall. intros m _. split; [done|].
    apply Forall_Forall2_diag, Forall_forall. intros p _. constructor. }
  intros out. unfold out, without_old_images, elide_old_images. destruct (any _ ms) eqn:Ea; cbn [negb].
  2: { simpl. apply no_image_view in Ea as [-> Hz]. split_and!; [done| |done].
       intros k m _ Hm. apply Hz. by eapply list_elem_of_lookup_2. }
  destruct (project_messages _ 0 ms request_picture_bytes) as [[ms' r] changed] eqn:E.
  apply project_messages_spends in E as (Hh & Hb & Ho & Hc).
  assert (default ms (if changed then Some ms' else None) = ms') as ->.
  { destruct changed; simpl; [done|]. by rewrite Hc. }
  split_and!; [lia| |done]. intros k m Hk Hm. by eapply Ho.
Qed.

(** ** Witnesses *)

Definition demo_said (id text : str) : Item :=
  mkItem id (Some (lit "trn_1")) 0 Completed 0 None None (BUser [PText text] (origin_surface (lit "tui"))) [].
Definition demo_called (id call : str) (round : N) (output : option ToolOutput) : Item :=
  mkItem id (Some (lit "trn_1")) round Completed 0 None None
    (BToolCall None None None call (lit "Read") VNull output None None false) [].
Definition demo_conversation : list Item :=
  [demo_said (lit "i1") (lit "read x");
   demo_called (lit "i2") (lit "c1") 0 (Some (output_text (lit "contents")));
   demo_called (lit "i3") (lit "c2") 0 None;
   demo_said (lit "i4") (lit "also this")].
Definition demo_json (v : Value) : str := [].

Example demo_conversation_view :
  (λ m, (msg_role m, length (msg_parts m))) <$> fold_items demo_json demo_conversation
  = [(RUser, 2); (RAssistant, 2); (RUser, 4)].
Proof. reflexivity. Qed.

Lemma model_view_alternates_witness :
  let view := model_view demo_json (from_iter demo_conversation) in
  length view = 3 ∧ ∀ m, head view = Some m → msg_role m = RUser.
Proof.
  split; [vm_compute; reflexivity|].
  apply (model_view_alternates demo_json (from_iter demo_conversation)).
  apply Forall_forall. intros i Hi. vm_compute in Hi.
  repeat (apply elem_of_cons in Hi as [->|Hi]; [vm_compute; done|]). by apply elem_of_nil in Hi.
Defined.

Lemma model_view_append_only_witness :
  extends (fold_items demo_json demo_conversation)
    (fold_items demo_json (demo_conversation ++ [demo_called (lit "i5") (lit "c3") 1 None])).
Proof.
  apply (model_view_append_only demo_json demo_conversation). intros i' Hin _ _.
  repeat (apply elem_of_cons in Hin as [->|Hin]; [vm_compute; congruence|]). by apply elem_of_nil in Hin.
Defined.
