(* ===== verification/Commands.v ===== *)
(** * Commands: lines, actions and the gate that reads them

    [bingo-core/src/session/commands.rs] (reading a line, whose ask it is, its
    run), [chain/command.rs] (links around a run), [session/drawn.rs] (who drew a
    key), [chain/submit.rs] and the evaluation of [session/gate.rs].  Commands,
    hooks and links are what plugins make of them: parameters.  What serde and a
    JSON printer make of the kernel's types is theirs. *)

From S2P Require Import Prelude Text Model CommandLine Interaction Event Transcript State Queue PermPath PermRule PermDecide Chain Catalogue Gate Context.

(** ** Lines and actions *)

Definition command_surface : str := lit "command".
Definition is_shell (name : str) : bool := bool_decide (name = shell).

Definition may_run_shell (input : Input) : bool :=
  match input with InText _ _ origin _ _ => the_persons_own origin | InAction _ _ => false end.

(** [asked]; [calling] says whether a hook's own call is being served. *)
Definition asked (calling : bool) (input : Input) : bool :=
  negb calling && match input with
                  | InText _ _ origin _ _ => the_persons_own origin
                  | InAction action origin => is_ui (action_name action) && match origin with Some o => the_persons_own o | None => false end
                  end.

Definition spelled (name : str) : str := if is_shell name then shell else lit "/" ++ name.
Definition unknown (name : str) : str :=
  if is_shell name then lit "no shell here: nothing answers to " ++ spelled shell else lit "unknown command: " ++ spelled name.

Record Parsed := mkParsed { pd_name : str; pd_args : str }.
Definition typed (p : Parsed) : str :=
  let name := spelled (pd_name p) in
  if bool_decide (pd_args p = []) then name
  else if is_shell (pd_name p) then name ++ pd_args p
  else name ++ lit " " ++ pd_args p.

Definition parse_line (text : str) : option Parsed := (fun '(name, args) => mkParsed name args) <$> command_line text.
(** [parse]; [print] is a JSON value as text. *)
Definition parse (print : Value -> str) (input : Input) : option Parsed :=
  match input with
  | InText text _ origin _ _ => if person_surface origin then parse_line text else None
  | InAction action _ =>
      Some (mkParsed (action_name action) match action_args action with VString s => s | VNull => [] | other => print other end)
  end.

(** How a command was invoked. *)
Record Invocation := mkInvocation { iv_surface : option SurfaceName; iv_line : str; iv_origin : Origin }.
Definition origin_default : Origin := mkOrigin None None [] None None.
Definition invocation_of (input : Input) (parsed : Parsed) : Invocation :=
  let submitted := match input with InText _ _ origin _ _ => origin | InAction _ _ => origin_default end in
  mkInvocation
    (match input with InText _ _ origin _ _ => render_surface origin | InAction _ origin => let? o := origin in render_surface o end)
    (recorded_line (typed parsed))
    (mkOrigin (render_surface submitted) (Some Quiet) command_surface (principal submitted) (conversation submitted)).
Definition prompt (i : Invocation) (text : str) : str := iv_line i ++ [10; 10]%N ++ text.

(** ** Who drew a key ([drawn.rs]) *)

Definition kept_drawings : nat := 64.
Record Drawn := mkDrawn { dr_plugin : str; dr_keys : Action }.
Abbreviation Drawings := (list (str * Drawn)).

Definition record_drawing (kept : Drawings) (request : str) (drawn : option Drawn) : Drawings :=
  let kept := retain (fun e => negb (bool_decide (e.1 = request))) kept in
  let kept := kept ++ match drawn with Some d => [(request, d)] | None => [] end in
  drop (length kept - kept_drawings) kept.

Definition same_handler (action : Action) (handler : Value) (d : Drawn) : bool :=
  bool_decide (action_name (dr_keys d) = action_name action)
  && option_value_eqb (value_get (lit "handler") (action_args (dr_keys d))) (Some handler)
  && option_value_eqb (value_get (lit "row") (action_args (dr_keys d))) (value_get (lit "row") (action_args action)).
Definition vouches (kept : Drawings) (action : Action) : option str :=
  let? handler := value_get (lit "handler") (action_args action) in
  if is_null handler then None
  else (fun e => dr_plugin e.2) <$> find_bool (fun e => same_handler action handler e.2) (reverse kept).

(** [Commands::vouched]. *)
Definition vouched (kept : Drawings) (input : Input) : option str :=
  match input with InAction action _ => vouches kept action | InText _ _ _ _ _ => None end.

(** ** Running a command ([chain/command.rs]) *)

(** The JSON of a client's view; its parts are the surfaces'. *)
Abbreviation View_ := Value (only parsing).
Inductive CommandOutcome :=
| Acknowledged (result : Value)
| Surface (action : Action) (fallback : option str)
| AnswerOutcome (answer : Answer)
| Handled (handled : bool)
| Applied_ (message : option str)
| View (view : View_)
| Prompt (text : str)
| RecordOutcome (body : ItemBody).

(** A registered command; its body is told whether the person asked and whether
    a built-in's own key was pressed. *)
Record Cmd := mkCmd {
  cmd_spec : CommandSpec;
  cmd_instant : str -> SessionState -> bool;
  cmd_run : bool -> bool -> str -> result KernelError CommandOutcome;
}.
Definition answers_to (name : str) (c : Cmd) : bool :=
  bool_decide (cs_name (cmd_spec c) = name) || any (fun a => bool_decide (a = name)) (cs_aliases (cmd_spec c)).
(** The table first, then each source in order. *)
Definition lookup_command (table : list Cmd) (sources : list (list Cmd)) (name : str) : option Cmd :=
  option_or (find_bool (answers_to name) table) (find_map (find_bool (answers_to name)) sources).

Inductive CommandReply := ReplyOutcome (outcome : CommandOutcome) | ReplyText (text : str).
Definition outcome_of (r : CommandReply) : CommandOutcome :=
  match r with ReplyOutcome outcome => outcome | ReplyText text => Applied_ (Some text) end.

Record CommandRun := mkCommandRun { cr_surface : option SurfaceName; cr_name : str; cr_args : str }.

Section running.
(** What serde makes of surfaces and replies, and the outcomes' own equality. *)
Context (spec_of : Value -> option CommandSpec) (grant_of : Value -> option PluginGrant) (reason_of : Value -> option str).
Context (surface_value : SurfaceName -> Value) (value_surface : Value -> option SurfaceName).
Context (reply_value : CommandReply -> option Value) (value_reply : Value -> option CommandReply).
Context (outcome_eqb : CommandOutcome -> CommandOutcome -> bool).

Definition command_run_value (r : CommandRun) : option Value :=
  Some (VObject (match cr_surface r with Some s => [(lit "surface", surface_value s)] | None => [] end
    ++ [(lit "command", VString (cr_name r)); (lit "args", VString (cr_args r))])).
(** The name may come under its old field, but not under both. *)
Definition value_command_run (v : Value) : option CommandRun :=
  let? surface := match value_get (lit "surface") v with
                  | None | Some VNull => Some None
                  | Some s => (fun s => Some s) <$> value_surface s
                  end in
  let? name := match value_get (lit "command") v, value_get (lit "name") v with
               | Some n, None | None, Some n => as_str n
               | _, _ => None
               end in
  let? args := str_field (lit "args") v in
  Some (mkCommandRun surface name args).

(** [point]: a line only the person may run keeps its arguments too. *)
Definition command_point (entry : Entry) (spec : CommandSpec) (args : str) : Entry :=
  if is_shell (cs_name spec) || person_only spec args then pinning [lit "/command"; lit "/args"] entry else entry.

Definition command_kernel (c : Cmd) (asked pressed : bool) (args : str) (input : CommandRun) : result KernelError CommandReply :=
  let original := bool_decide (cr_args input = args) in
  let* outcome := cmd_run c (asked && original) (pressed && original) (cr_args input) in
  Ok (ReplyOutcome outcome).

Record Ran := mkRan { rn_outcome : CommandOutcome; rn_own : bool }.

(** [run]: the outcome, and whether it is the command's own answer to the line it
    was given. *)
Definition run_command_chain (entry : Entry) (c : Cmd) (asked pressed : bool) (surface : option SurfaceName) (args : str)
    (links : list (Link Value Value)) : result KernelError Ran :=
  let '(reply, seen, _) := json_dispatch spec_of grant_of reason_of (command_point entry (cmd_spec c) args)
    command_run_value value_command_run reply_value value_reply links
    (mkCommandRun surface (cs_name (cmd_spec c)) args) (command_kernel c asked pressed args) in
  let* reply := reply in
  let outcome := outcome_of reply in
  let answered := let? v := seen in let? input := value_command_run v in
                  if bool_decide (cr_args input = args) then ok_of (cmd_run c asked pressed args) else None in
  Ok (mkRan outcome match answered with Some own => outcome_eqb own outcome | None => false end).

(** How a run's task ended. *)
Inductive Returned := ReturnedRan (r : result KernelError Ran) | ReturnedPanic (message : str) | ReturnedNothing.
Definition interrupted_error : KernelError := mkKernelError InterruptedCode (lit "stopped by the person").
(** [settled]: the outcome, and what is stored of its being the command's own. *)
Definition settled (returned : Returned) (cancelled : bool) : result KernelError CommandOutcome * bool :=
  if cancelled then (Err interrupted_error, false)
  else match returned with
       | ReturnedRan (Ok ran) => (Ok (rn_outcome ran), rn_own ran)
       | ReturnedRan (Err e) => (Err e, false)
       | ReturnedPanic message => (Err (mkKernelError Internal (lit "the command panicked: " ++ message)), false)
       | ReturnedNothing => (Err interrupted_error, false)
       end.
End running.

(** ** Submitting ([chain/submit.rs]) *)

Inductive SubmitResult :=
| Accepted (input : Input)
| RejectedSubmit (error : KernelError)
| RedirectSubmit (session : SessionId) (input : Input).
Definition is_accepted (r : SubmitResult) : bool := match r with Accepted _ => true | _ => false end.

Definition submit_accepts (tier : Tier) (before : option SubmitResult) (after : SubmitResult) : bool :=
  bool_decide (tier = Full) ||
  match after with
  | RejectedSubmit _ | RedirectSubmit _ _ => true
  | Accepted _ => match before with Some (Accepted _) => true | _ => false end
  end.
Definition submit_needs_baseline (tier : Tier) (output : SubmitResult) : bool :=
  negb (bool_decide (tier = Full)) && is_accepted output.
Definition prompt_submit : CatalogueEntry := mkCatalogueEntry (lit "prompt.submit") pass_acts.
(** [input_eqb] and [result_eqb] are the types' own equality. *)
Definition submit_point (input_eqb : Input -> Input -> bool) (result_eqb : SubmitResult -> SubmitResult -> bool) : Point Input SubmitResult :=
  mkPoint prompt_submit input_eqb result_eqb (fun _ _ => true) submit_accepts submit_needs_baseline.

(** [submit::kernel]: a hook may rewrite the input it is shown. *)
Fixpoint submit_kernel (hooks : list (Input -> Input * HookOutcome)) (input : Input) : result KernelError SubmitResult :=
  match hooks with
  | [] => Ok (Accepted input)
  | hook :: hooks =>
      match hook input with
      | (input, HookContinue) | (input, HookAsk _) => submit_kernel hooks input
      | (_, HookDeny reason) | (_, HookBlock reason) => Ok (RejectedSubmit (mkKernelError PermissionDenied reason))
      | (input, HookRedirect session) => Ok (RedirectSubmit session input)
      end
  end.

(** ** The gate's evaluation ([session/gate.rs]) *)

Inductive Verdict :=
| VerdictProse (input : Input)
| VerdictCommand (input : Input) (parsed : Parsed) (command : Cmd) (queued : bool)
| VerdictRejected (error : KernelError)
| VerdictRedirected (to : SessionId) (result : result KernelError ())
| VerdictDelivered (input : Input) (delivery : Delivery).

Inductive InputKind := KSubmit | KProse | KQueued | KDeliver (delivery : Delivery).

Section evaluating.
Context (print : Value -> str) (table : list Cmd) (command_sources : list (list Cmd)).
(** The inbound chain of a delivery, the links and hooks of a submission, and
    what the host makes of a redirection. *)
Context (receive : Input -> result KernelError Input).
Context (input_eqb : Input -> Input -> bool) (result_eqb : SubmitResult -> SubmitResult -> bool) (consumed_submit : result KernelError SubmitResult).
Context (links : list (Link Input SubmitResult)) (hooks : list (Input -> Input * HookOutcome)).
Context (redirect : SessionId -> Input -> result KernelError ()).

Definition find_command (input : Input) (parsed : Parsed) (queued : bool) : Verdict :=
  if is_shell (pd_name parsed) && negb (may_run_shell input)
  then VerdictRejected (mkKernelError PermissionDenied (lit "a shell line is the person's own: nobody else may run one"))
  else match lookup_command table command_sources (pd_name parsed) with
       | Some command => VerdictCommand input parsed command queued
       | None => VerdictRejected (mkKernelError InvalidInput (unknown (pd_name parsed)))
       end.

Definition submit_run (input : Input) : result KernelError SubmitResult :=
  (run (submit_point input_eqb result_eqb) (submit_kernel hooks) consumed_submit links input).1.1.
Definition submit_hooks (input : Input) : Verdict :=
  match submit_run input with
  | Ok (Accepted input) => VerdictProse input
  | Ok (RejectedSubmit error) | Err error => VerdictRejected error
  | Ok (RedirectSubmit session input) => VerdictRedirected session (redirect session input)
  end.

Definition evaluate (input : Input) (kind : InputKind) : Verdict :=
  match kind with
  | KDeliver delivery =>
      match receive input with
      | Ok input => VerdictDelivered input delivery
      | Err error => VerdictRejected error
      end
  | _ =>
      match (match kind with KProse => None | _ => parse print input end) with
      | Some parsed => find_command input parsed (match kind with KQueued => true | _ => false end)
      | None =>
          match validate input with
          | Err message => VerdictRejected (mkKernelError InvalidInput message)
          | Ok _ => submit_hooks input
          end
      end
  end.

(** What the gate's task reports: a cancelled or panicking evaluation rejects. *)
Definition gate_report (cancelled : bool) (returned : option (str + Verdict)) : Verdict :=
  if cancelled then VerdictRejected interrupted_error
  else match returned with
       | None => VerdictRejected interrupted_error
       | Some (inr verdict) => verdict
       | Some (inl panic) => VerdictRejected (mkKernelError Internal (lit "the input gate panicked: " ++ panic))
       end.
End evaluating.

(** ** Lemmas *)

Lemma trim_start_char c s : is_whitespace c = false → trim_start (c :: s) = c :: s.
Proof. intros Hc. unfold trim_start. simpl. by rewrite Hc. Qed.

Lemma command_line_shell args : trim args = args → command_line (shell ++ args) = Some (shell, args).
Proof.
  intros Ha. unfold command_line. change (trim_start (shell ++ args)) with (shell ++ args).
  rewrite (proj2 (strip_prefix_Some shell (shell ++ args) args) eq_refl). by rewrite Ha.
Qed.
Lemma command_line_slash name after : name ≠ [] → Forall (λ c, is_whitespace c = false) name →
  (∀ c r, after = c :: r → is_whitespace c = true) →
  command_line (lit "/" ++ name ++ after) = Some (name, trim (tail after)).
Proof.
  intros Hne Hn Ha. unfold command_line. change (trim_start (lit "/" ++ name ++ after)) with (lit "/" ++ name ++ after).
  change (strip_prefix shell (lit "/" ++ name ++ after)) with (None : option str).
  rewrite (proj2 (strip_prefix_Some (lit "/") _ (name ++ after)) eq_refl). cbn [mbind option_bind]. rewrite break_word_plain by done.
  destruct after as [|c after]; [rewrite app_nil_r, trim_end_plain by done|]; by rewrite bool_decide_eq_false_2.
Qed.

(** What a line that names a command reads as. *)
Lemma command_line_shape text name args : command_line text = Some (name, args) →
  trim args = args ∧ name ≠ [] ∧ Forall (λ c, is_whitespace c = false) name.
Proof.
  unfold command_line. destruct (strip_prefix shell _) as [rest|].
  { intros [= <- <-]. split_and!; [apply trim_idemp|done|]. by apply Forall_cons. }
  destruct (strip_prefix (lit "/") _) as [rest|]; [|done]. simpl. pose proof (break_word_app rest) as Hb.
  destruct (break_word rest) as [word [|c after]]; destruct Hb as (-> & Hn & _).
  - rewrite app_nil_r, trim_end_plain by done. case_bool_decide as Hne; [done|]. intros [= <- <-]. by split_and!.
  - case_bool_decide as Hne; [done|]. intros [= <- <-]. split_and!; [apply trim_idemp|done|done].
Qed.

(** ** Claims *)

(** A line typed back is the line that was read.  What a command is labelled
    with reads again as the same name and the same arguments, for every line that
    names a command at all. *)
Theorem typed_line_reads_back text p : parse_line text = Some p → parse_line (typed p) = Some p.
Proof.
  unfold parse_line. destruct (command_line text) as [[name args]|] eqn:E; [|done]. intros [= <-].
  destruct (command_line_shape _ _ _ E) as (Ha & Hne & Hn). unfold typed, spelled, is_shell. cbn [pd_name pd_args].
  destruct (decide (name = shell)) as [->|Hsh].
  - rewrite (bool_decide_eq_true_2 (shell = shell)) by done.
    case_bool_decide as Hargs; [subst args; by vm_compute|].
    by rewrite command_line_shell.
  - rewrite (bool_decide_eq_false_2 (name = shell)) by done. case_bool_decide as Hargs.
    + subst args. pose proof (command_line_slash name [] Hne Hn ltac:(done)) as Hl. rewrite app_nil_r in Hl. by rewrite Hl.
    + rewrite <- app_assoc. rewrite command_line_slash; [|done|done|by intros c r [= <- _]]. simpl. by rewrite Ha.
Qed.

Lemma command_run_args value_surface v r args : pointer (lit "/args") v = Some (VString args) →
  value_command_run value_surface v = Some r → cr_args r = args.
Proof.
  intros Hv. assert (str_field (lit "args") v = Some args) as Ha.
  { destruct v as [| | | | |m]; try done.
    change (pointer _ _) with (let? v := map_get (lit "args") m in Some v) in Hv. unfold str_field. cbn [value_get].
    destruct (map_get (lit "args") m) as [x|]; [|done]. injection Hv as ->. reflexivity. }
  unfold value_command_run. intros (surface & _ & Hr)%bind_Some. apply bind_Some in Hr as (name & _ & Hr).
  rewrite Ha in Hr. by injection Hr as <-.
Qed.

(** A line only the person may run runs as typed.  Whatever the links around a
    command are trusted with, a shell line, or one that starts with a word the
    command keeps for the person, comes out the same for any two bodies of the
    command that do the same with the arguments as typed: its body is run on no
    others. *)
Theorem person_lines_run_as_typed spec_of grant_of reason_of surface_value value_surface reply_value value_reply outcome_eqb
    entry spec instant run1 run2 asked pressed surface args links :
  is_shell (cs_name spec) || person_only spec args = true →
  (∀ asked pressed, run1 asked pressed args = run2 asked pressed args) →
  run_command_chain spec_of grant_of reason_of surface_value value_surface reply_value value_reply outcome_eqb
    entry (mkCmd spec instant run1) asked pressed surface args links
  = run_command_chain spec_of grant_of reason_of surface_value value_surface reply_value value_reply outcome_eqb
    entry (mkCmd spec instant run2) asked pressed surface args links.
Proof.
  intros Hp Hrun. unfold run_command_chain, command_point, json_dispatch. cbn [cmd_spec cmd_run]. rewrite Hp.
  set (point := pinning _ entry). cbn [command_run_value]. set (value := VObject _).
  rewrite (json_run_same point _ (json_kernel point (value_command_run value_surface) reply_value
    (command_kernel (mkCmd spec instant run2) asked pressed args)) links value (lit "/args") args).
  - destruct (json_run _ _ _ _ _ _ value) as [[[v|e] seen] notes]; simpl; [|done]. destruct (value_reply v); [|done]. simpl.
    do 3 f_equal. by rewrite Hrun.
  - right. by left.
  - by destruct surface.
  - intros v Hv. unfold json_kernel. destruct (value_command_run value_surface v) as [r|] eqn:Er; [|done].
    unfold command_kernel. rewrite (command_run_args _ _ _ _ Hv Er). by rewrite (bool_decide_eq_true_2 (args = args)), Hrun.
Qed.

Lemma submit_backed input_eqb result_eqb hooks c links input j : Forall (λ l, ln_tier l ≠ Full) links →
  (run_at (submit_point input_eqb result_eqb) (submit_kernel hooks) c links None input).1.1 = Ok (Accepted j) →
  ∃ i i', submit_kernel hooks i = Ok (Accepted i').
Proof.
  intros Hl. revert input j. induction links as [|link rest IH]; intros input j.
  { simpl. eauto. }
  apply Forall_cons in Hl as [Ht Hl]. specialize (IH Hl).
  assert (∀ a base rewritten j, (accepted (submit_point input_eqb result_eqb) link a (Some base) rewritten).1 = true →
    a = Ok (Accepted j) → ∃ j', base = Ok (Accepted j')) as Hacc.
  { intros a base rewritten j0 Ha ->. unfold accepted in Ha. simpl in Ha. unfold submit_accepts in Ha.
    rewrite bool_decide_eq_false_2 in Ha by done. simpl in Ha. destruct base as [[]|]; simpl in Ha; try done. eauto. }
  destruct (run_at_cons (submit_point input_eqb result_eqb) (submit_kernel hooks) c link rest input)
    as [[_ ->]|[(a & _ & Hw & [[-> _]| ->])|[(a & _ & Hw & [[-> Ha]| ->])|(i & k & _ & H)]]]; try by apply IH.
  - intros ->. unfold wants_baseline in Hw. simpl in Hw. unfold submit_needs_baseline in Hw.
    by rewrite bool_decide_eq_false_2 in Hw.
  - intros E. destruct (Hacc _ _ _ _ Ha E) as (j' & Hj). by eapply IH.
  - destruct (handed _ link input i) as [[i' invalid] rewritten]. destruct H as [->|(-> & _ & Ha)]; [apply IH|].
    intros E. destruct (Hacc _ _ _ _ Ha E) as (j' & Hj). by eapply IH.
Qed.

Lemma lookup_command_answers table command_sources name c : lookup_command table command_sources name = Some c →
  answers_to name c = true ∧ (c ∈ table ∨ ∃ source, source ∈ command_sources ∧ c ∈ source).
Proof.
  unfold lookup_command. destruct (find_bool _ table) eqn:Et; simpl.
  - intros [= ->]. apply find_bool_Some in Et as [? ?]. auto.
  - intros (source & Hs & [? ?]%find_bool_Some)%find_map_Some. eauto.
Qed.

(** The gate lets in only what passed it.  With links trusted below full, an
    input that comes through as prose is one its kind of validation holds of, and
    some input came past every hook: no link turns a refusal into an acceptance.
    What comes through as a command is the input as submitted, on the line it
    reads as, for a command that answers to that name; a shell line is the
    person's own.  A delivery is what the inbound chain made of it. *)
Theorem gate_lets_in_only_what_passed print table command_sources receive input_eqb result_eqb consumed links hooks redirect input kind
    (Htier : Forall (λ l, ln_tier l ≠ Full) links) :
  match evaluate print table command_sources receive input_eqb result_eqb consumed links hooks redirect input kind with
  | VerdictProse _ => validate input = Ok tt ∧ ∃ i i', submit_kernel hooks i = Ok (Accepted i')
  | VerdictCommand i parsed command queued =>
      i = input ∧ parse print input = Some parsed ∧ answers_to (pd_name parsed) command = true
      ∧ (command ∈ table ∨ ∃ source, source ∈ command_sources ∧ command ∈ source)
      ∧ (is_shell (pd_name parsed) = true → may_run_shell input = true)
      ∧ kind ≠ KProse ∧ queued = match kind with KQueued => true | _ => false end
  | VerdictDelivered i delivery => kind = KDeliver delivery ∧ receive input = Ok i
  | VerdictRedirected to _ => ∀ delivery, kind ≠ KDeliver delivery
  | VerdictRejected _ => True
  end.
Proof.
  assert (∀ parsed queued, match find_command table command_sources input parsed queued with
    | VerdictCommand i p c q => i = input ∧ p = parsed ∧ q = queued ∧ answers_to (pd_name parsed) c = true
        ∧ (c ∈ table ∨ ∃ source, source ∈ command_sources ∧ c ∈ source)
        ∧ (is_shell (pd_name parsed) = true → may_run_shell input = true)
    | VerdictRejected _ => True | _ => False end) as Hfind.
  { intros parsed queued. unfold find_command. destruct (is_shell _ && _) eqn:Es; [done|].
    destruct (lookup_command _ _ _) as [c|] eqn:El; [|done]. apply lookup_command_answers in El as [? ?]. split_and!; [done..|].
    intros Hs. rewrite Hs in Es. by apply negb_false_iff. }
  assert (match (match validate input with Err message => VerdictRejected (mkKernelError InvalidInput message)
      | Ok _ => submit_hooks input_eqb result_eqb consumed links hooks redirect input end) with
    | VerdictProse _ => validate input = Ok tt ∧ ∃ i i', submit_kernel hooks i = Ok (Accepted i')
    | VerdictRedirected _ _ | VerdictRejected _ => True | _ => False end) as Hprose.
  { destruct (validate input) as [[]|]; [|done]. unfold submit_hooks. destruct (submit_run _ _ _ _ _ input) as [[j| |]|] eqn:E; try done.
    split; [done|]. unfold submit_run, run in E. destruct links; [simpl in E; eauto|]. by eapply submit_backed. }
  unfold evaluate. destruct kind as [| | |delivery].
  4: { by destruct (receive input). }
  all: destruct (parse print input) as [parsed|] eqn:Ep.
  all: try (match goal with |- context [find_command ?t ?s ?i ?p ?q] => specialize (Hfind p q); destruct (find_command t s i p q) end;
    naive_solver).
  all: destruct (match validate input with Ok _ => _ | Err _ => _ end); naive_solver.
Qed.

(** ** Drawings kept *)

Definition drawings (log : list (str * option Drawn)) : Drawings :=
  foldl (fun kept '(request, drawn) => record_drawing kept request drawn) [] log.

Lemma record_drawing_length kept request drawn : length (record_drawing kept request drawn) ≤ kept_drawings.
Proof. unfold record_drawing. rewrite length_drop. lia. Qed.
Lemma elem_of_record_drawing kept request drawn r d : (r, d) ∈ record_drawing kept request drawn →
  (r, d) ∈ kept ∧ r ≠ request ∨ r = request ∧ drawn = Some d.
Proof.
  unfold record_drawing. intros [(Hin & Hne)%elem_of_retain|Hin]%elem_of_drop_in%elem_of_app.
  - left. split; [done|]. intros ->. simpl in Hne. by rewrite bool_decide_eq_true_2 in Hne.
  - destruct drawn; [|by apply not_elem_of_nil in Hin]. apply list_elem_of_singleton in Hin. by simplify_eq; right.
Qed.

Lemma drawings_latest log r d : (r, d) ∈ drawings log → ∃ l1 l2, log = l1 ++ (r, Some d) :: l2 ∧ r ∉ l2.*1.
Proof.
  unfold drawings. induction log as [|[request drawn] log IH] using rev_ind; [by intros ?%not_elem_of_nil|].
  rewrite foldl_snoc. intros [[Hin Hne]|[-> ->]]%elem_of_record_drawing.
  - destruct (IH Hin) as (l1 & l2 & -> & Hr). exists l1, (l2 ++ [(request, drawn)]).
    rewrite <- app_assoc. split; [done|]. rewrite fmap_app. set_solver.
  - exists log, []. split; [done|]. set_solver.
Qed.

(** A key is vouched for only by what shows it.  Whoever is named as having
    drawn a pressed key drew it in the latest reply to some request, with the same
    name, handler and row; a key whose handler is null is vouched for by nobody;
    and at most sixty-four replies are kept. *)
Theorem only_shown_keys_are_vouched log action plugin (Hv : vouches (drawings log) action = Some plugin) :
  length (drawings log) ≤ kept_drawings
  ∧ ∃ l1 request drawn l2 handler, log = l1 ++ (request, Some drawn) :: l2 ∧ request ∉ l2.*1
      ∧ dr_plugin drawn = plugin ∧ action_name (dr_keys drawn) = action_name action
      ∧ value_get (lit "handler") (action_args action) = Some handler ∧ is_null handler = false
      ∧ option_value_eqb (value_get (lit "handler") (action_args (dr_keys drawn))) (Some handler) = true
      ∧ option_value_eqb (value_get (lit "row") (action_args (dr_keys drawn))) (value_get (lit "row") (action_args action)) = true.
Proof.
  split.
  { unfold drawings. destruct log as [|[request drawn] log _] using rev_ind; [simpl; lia|].
    rewrite foldl_snoc. apply record_drawing_length. }
  unfold vouches in Hv. apply bind_Some in Hv as (handler & Hh & Hv). destruct (is_null handler) eqn:En; [done|].
  apply fmap_Some in Hv as ([request drawn] & [Hin Hs]%find_bool_Some & ->). simpl in *.
  apply elem_of_reverse, drawings_latest in Hin as (l1 & l2 & Hl & Hr).
  unfold same_handler in Hs. rewrite !andb_true_iff, bool_decide_eq_true in Hs. destruct Hs as [[Hn Hha] Hrow].
  by exists l1, request, drawn, l2, handler.
Qed.

(** ** Commands at work *)

Lemma typed_line_reads_back_witness :
  parse_line (lit "  /plan  the  work ") = Some (mkParsed (lit "plan") (lit "the  work"))
  ∧ parse_line (lit "/plan the  work") = Some (mkParsed (lit "plan") (lit "the  work"))
  ∧ parse_line (lit "! ls -l") = Some (mkParsed shell (lit "ls -l")) ∧ typed (mkParsed shell (lit "ls -l")) = lit "!ls -l".
Proof.
  assert (parse_line (lit "  /plan  the  work ") = Some (mkParsed (lit "plan") (lit "the  work"))) as E by by vm_compute.
  split; [exact E|]. split; [exact (typed_line_reads_back _ _ E)|]. by vm_compute.
Defined.

Definition demo_press (row : str) : Action :=
  mkAction (lit "ui.p.pick") (VObject [(lit "handler", VString (lit "pick")); (lit "row", VString row)]).
Lemma only_shown_keys_are_vouched_witness :
  let drawn := mkDrawn (lit "p") (demo_press (lit "1")) in
  let shown := drawings [(lit "r1", Some drawn); (lit "r2", None)] in
  vouches shown (demo_press (lit "1")) = Some (lit "p") ∧ vouches shown (demo_press (lit "2")) = None
  ∧ vouches (drawings [(lit "r1", Some drawn); (lit "r1", None)]) (demo_press (lit "1")) = None
  ∧ ∃ request d, (request, Some d) ∈ [(lit "r1", Some drawn); (lit "r2", None)] ∧ dr_plugin d = lit "p".
Proof.
  intros drawn shown. assert (vouches shown (demo_press (lit "1")) = Some (lit "p")) as E by by vm_compute.
  split_and!; [exact E|by vm_compute..|].
  destruct (only_shown_keys_are_vouched _ _ _ E) as (_ & l1 & request & d & l2 & handler & Hl & _ & Hp & _).
  exists request, d. split; [rewrite Hl; apply elem_of_app; right; apply list_elem_of_here|exact Hp].
Defined.

(** A shell, a link that would run another line in its place, and a hook that
    refuses what it sees. *)
Definition demo_spec (name : str) : CommandSpec := mkCommandSpec [] false false name [] [] ArgNone false [].
Definition demo_shell (says : str -> str) : Cmd :=
  mkCmd (demo_spec shell) (fun _ _ => false) (fun _ _ args => Ok (Applied_ (Some (says args)))).
Definition demo_reply_value (r : CommandReply) : option Value :=
  match outcome_of r with Applied_ (Some text) => Some (VString text) | _ => None end.
Definition demo_value_reply (v : Value) : option CommandReply := ReplyText <$> as_str v.
Definition demo_outcome_eqb (a b : CommandOutcome) : bool :=
  match a, b with Applied_ x, Applied_ y => bool_decide (x = y) | _, _ => false end.
Definition demo_surface_value (_ : SurfaceName) : Value := VNull.
Definition demo_value_surface (_ : Value) : option SurfaceName := None.
Definition demo_run_shell (says : str -> str) : result KernelError Ran :=
  run_command_chain no_spec value_grant value_reason demo_surface_value demo_value_surface demo_reply_value demo_value_reply demo_outcome_eqb
    (demo_entry (lit "command.run") [] wrap_acts) (demo_shell says) true false None (lit "ls")
    [demo_json_link (lit "r") Full (fun v => Continues (VObject [(lit "command", VString shell); (lit "args", VString (lit "rm"))]) (fun r => r))].
Lemma person_lines_run_as_typed_witness :
  demo_run_shell (fun args => args) = Ok (mkRan (Applied_ (Some (lit "ls"))) true)
  ∧ demo_run_shell (fun args => if bool_decide (args = lit "ls") then args else lit "elsewhere") = demo_run_shell (fun args => args).
Proof.
  split; [by vm_compute|].
  refine (person_lines_run_as_typed no_spec value_grant value_reason demo_surface_value demo_value_surface demo_reply_value demo_value_reply demo_outcome_eqb
    (demo_entry (lit "command.run") [] wrap_acts) (demo_spec shell) (fun _ _ => false)
    (fun _ _ args => Ok (Applied_ (Some (if bool_decide (args = lit "ls") then args else lit "elsewhere"))))
    (fun _ _ args => Ok (Applied_ (Some args))) true false None (lit "ls") _ _ _); [by vm_compute|].
  intros _ _. reflexivity.
Defined.

Definition demo_typed (text : str) : Input := InText text [] origin_default Wake None.
Definition demo_evaluate (hooks : list (Input -> Input * HookOutcome)) (input : Input) : Verdict :=
  evaluate (fun _ => []) [demo_shell (fun args => args)] [] Ok (fun _ _ => true) (fun _ _ => true) (Err interrupted_error)
    [mkLink (lit "l") true false Tighten (fun _ => true) (fun i => Answers (Ok (Accepted i)))] hooks (fun _ _ => Ok tt) input KSubmit.
Lemma gate_lets_in_only_what_passed_witness :
  demo_evaluate [] (demo_typed (lit "hello")) = VerdictProse (demo_typed (lit "hello"))
  ∧ demo_evaluate [fun i => (i, HookDeny (lit "no"))] (demo_typed (lit "hello")) = VerdictRejected (mkKernelError PermissionDenied (lit "no"))
  ∧ validate (demo_typed (lit "hello")) = Ok tt.
Proof.
  assert (demo_evaluate [] (demo_typed (lit "hello")) = VerdictProse (demo_typed (lit "hello"))) as E by by vm_compute.
  split_and!; [exact E|by vm_compute|].
  assert (Forall (λ l, ln_tier l ≠ Full) [mkLink (lit "l") true false Tighten (fun _ : Input => true) (fun i => Answers (Ok (Accepted i)))]) as Ht by by repeat constructor.
  pose proof (gate_lets_in_only_what_passed (fun _ => []) [demo_shell (fun args => args)] [] Ok (fun _ _ => true) (fun _ _ => true)
    (Err interrupted_error) _ [] (fun _ _ => Ok tt) (demo_typed (lit "hello")) KSubmit Ht) as H.
  change (evaluate _ _ _ _ _ _ _ _ _ _ _ _) with (demo_evaluate [] (demo_typed (lit "hello"))) in H. rewrite E in H. exact (proj1 H).
Defined.
