(* ===== verification/Store.v ===== *)
(** * Store: where the journal is kept

    [bingo-sdk/src/store.rs] and [bingo-core/src/journal.rs].  The actor asks two
    things of a store, to append a frame and to replay a session after a
    sequence number; [SessionStore] is that interface and [StoreLaws] what the
    session relies on.  [MemoryStore] is the store the kernel runs on when no
    plugin brings another; it keeps the laws. *)

From S2P Require Import Prelude Text Model Interaction Event Transcript State Tree.

(** ** The interface *)

Class SessionStore (St : Type) := {
  store_append : St → SessionId → Frame → result KernelError St;
  store_replay : St → SessionId → Seq → result KernelError (list Frame);
}.

(** Frames after [since]. *)
Definition after (since : Seq) (frames : list Frame) : list Frame :=
  retain (fun f => since <? fr_seq f)%N frames.

(** [store_keeps st id frames]: the store holds the session with these frames, in
    this order.  A replay then leaves out exactly what is not after its sequence
    number, and an append that succeeds adds a durable frame at the end. *)
Class StoreLaws (St : Type) `{SessionStore St} := {
  store_keeps : St → SessionId → list Frame → Prop;
  keeps_replay : ∀ st id frames since, store_keeps st id frames → store_replay st id since = Ok (after since frames);
  keeps_append : ∀ st st' id f frames, is_durable (fr_event f) = true → store_append st id f = Ok st' →
    store_keeps st id frames → store_keeps st' id (frames ++ [f]);
}.

(** ** In memory ([journal.rs]) *)

Record Entry := mkEntry { en_summary : SessionSummary; en_frames : list Frame }.
Abbreviation MemoryStore := (gmap str Entry) (only parsing).

Definition missing (session : SessionId) : KernelError :=
  mkKernelError SessionNotFound (lit "no session " ++ session).

Definition memory_entry (m : MemoryStore) (session : SessionId) : result KernelError Entry :=
  match m !! session with Some e => Ok e | None => Err (missing session) end.

Definition memory_create (m : MemoryStore) (summary : SessionSummary) : MemoryStore :=
  <[ss_id summary := mkEntry summary []]> m.

Definition memory_append (m : MemoryStore) (session : SessionId) (frame : Frame) : result KernelError MemoryStore :=
  let* e := memory_entry m session in
  let summary := match fr_event frame with SessionUpdated summary => summary | _ => en_summary e end in
  Ok (<[session := mkEntry summary (en_frames e ++ [frame])]> m).

Definition memory_replay (m : MemoryStore) (session : SessionId) (since : Seq) : result KernelError (list Frame) :=
  let* e := memory_entry m session in Ok (retain (fun f => since <? fr_seq f)%N (en_frames e)).

Record SessionFilter := mkSessionFilter { sf_cwd : option str; sf_parent : option SessionId; sf_limit : option nat }.

Definition later (a b : SessionSummary) : Prop := (ss_updated_at b ≤ ss_updated_at a)%Z.
#[export] Instance later_dec : RelDecision later.
Proof. intros a b. unfold later. apply _. Defined.

Definition memory_list (m : MemoryStore) (filter : SessionFilter) : list SessionSummary :=
  let out := en_summary <$> values m in
  let out := retain (fun s => match sf_cwd filter with Some cwd => bool_decide (cwd = ss_cwd s) | None => true end) out in
  let out := retain (fun s => match sf_parent filter with
                              | Some p => match ss_parent s with Some l => bool_decide (pl_session l = p) | None => false end
                              | None => true
                              end) out in
  let out := merge_sort later out in
  match sf_limit filter with Some limit => take limit out | None => out end.

Definition memory_summary (m : MemoryStore) (session : SessionId) : result KernelError SessionSummary :=
  let* e := memory_entry m session in Ok (en_summary e).

Definition with_title (title : option str) (x : SessionSummary) : SessionSummary :=
  mkSessionSummary (ss_id x) (ss_key x) title (ss_cwd x) (ss_parent x) (ss_driver x)
    (ss_choice x) (ss_system_extra x) (ss_tools x) (ss_provider x) (ss_created_at x)
    (ss_updated_at x) (ss_usage x) (ss_busy x) (ss_asking x) (ss_history x).

Definition memory_rename (m : MemoryStore) (session : SessionId) (title : option str) : result KernelError MemoryStore :=
  let* e := memory_entry m session in
  let summary := with_title title (en_summary e) in
  let seq := match last (en_frames e) with Some f => u64_add (fr_seq f) 1 | None => 1%N end in
  Ok (<[session := mkEntry summary
         (en_frames e ++ [mkFrame seq (ss_updated_at summary) session None (SessionUpdated summary)])]> m).

Definition memory_locked (m : MemoryStore) (session : SessionId) : result KernelError bool :=
  let* _ := memory_entry m session in Ok false.

Definition memory_delete (m : MemoryStore) (session : SessionId) : result KernelError MemoryStore :=
  let* _ := memory_entry m session in Ok (delete session m).

#[export] Instance memory_store : SessionStore MemoryStore := {
  store_append := memory_append;
  store_replay := memory_replay;
}.

(** ** Lemmas *)

Lemma after_app since l k : after since (l ++ k) = after since l ++ after since k.
Proof. apply retain_app. Qed.

Lemma after_none since l : (∀ f, f ∈ l → fr_seq f ≤ since)%N → after since l = [].
Proof. intros Hl. apply retain_none. intros f Hf. apply N.ltb_ge. by apply Hl. Qed.

Lemma after_all since l : (∀ f, f ∈ l → since < fr_seq f)%N → after since l = l.
Proof. intros Hl. apply retain_all. intros f Hf. apply N.ltb_lt. by apply Hl. Qed.

Lemma retain_twice {A} (p q : A → bool) l : retain p (retain q l) = retain (λ x, q x && p x) l.
Proof. induction l as [|x l IH]; simpl; [done|]. destruct (q x); simpl; [destruct (p x); simpl|]; by rewrite IH. Qed.

Lemma after_after a b l : after a (after b l) = after (N.max a b) l.
Proof.
  unfold after. rewrite retain_twice. induction l as [|f l IH]; simpl; [done|]. rewrite IH.
  destruct (N.ltb_spec b (fr_seq f)), (N.ltb_spec a (fr_seq f)), (N.ltb_spec (N.max a b) (fr_seq f)); simpl; try done; lia.
Qed.

#[export, refine] Instance memory_laws : StoreLaws MemoryStore := {
  store_keeps m id frames := en_frames <$> m !! id = Some frames;
}.
Proof.
  - intros m id frames since (e & He & ->)%fmap_Some.
    change (memory_replay m id since = Ok (after since (en_frames e))). unfold memory_replay, memory_entry. by rewrite He.
  - intros m m' id f frames _ Ha (e & He & ->)%fmap_Some. change (memory_append m id f = Ok m') in Ha.
    unfold memory_append, memory_entry in Ha. rewrite He in Ha. cbn [rbind] in Ha. injection Ha as <-. by rewrite lookup_insert_eq.
Defined.
