(* ===== verification/Hub.v ===== *)
(** * Hub: what a session publishes and who hears it

    The publishing half of the session actor ([bingo-core/src/session.rs]), with
    its storage failures ([session/storage.rs]), checkpoints
    ([session/checkpoint.rs]), subscribers ([session/subscribers.rs]) and the
    catch-up of a reader from the store ([session/past.rs]).  A subscription is
    one shared object: the sending half the actor holds, the bounded queue, the
    gap it fell behind by, and the reader, which another task polls; a poll and a
    publication may come in any order between the reader's own steps.  The hub
    keeps two logs that no code reads, every frame broadcast and every frame
    journaled.  Observers on tasks of their own are not modelled. *)

From S2P Require Import Prelude Text Model Interaction Event Transcript State Tree Recovery Queue Gate Commands Store.

(** ** Subscribers *)

Definition subscriber_capacity : nat := 256.

(** Why a stream is over. *)
Inductive Ending := ClientLeft | Disconnected | AtMarker.

(** Where the reader stands in [live]: about to try the queue, about to look at
    the gap, waiting for a frame, past the marker, or gone. *)
Inductive Poll := Polling | Gapping | Receiving | Leaving | Over (why : Ending).

(** What comes before the live tail: frames at hand, or a store yet to be read. *)
Inductive Past := Replay (frames : list Frame) | Stored (since cut : Seq).

Record Subscriber := mkSubscriber {
  sb_held : bool;                   (** the actor holds the sending half *)
  sb_queue : list Frame;
  sb_lag : option (Seq * Seq);
  sb_past : Past;
  sb_poll : Poll;
  sb_delivered : list Frame;        (** what the reader was handed, in order *)
}.

Definition is_over (s : Subscriber) : bool := match sb_poll s with Over _ => true | _ => false end.

(** [Subscribers::fanout], one subscriber. *)
Definition fan_one (frame : Frame) (s : Subscriber) : Subscriber :=
  if negb (sb_held s) then s
  else
    match sb_lag s with
    | Some (from, _) =>
        mkSubscriber (negb (is_over s)) (sb_queue s) (Some (from, fr_seq frame)) (sb_past s) (sb_poll s) (sb_delivered s)
    | None =>
        if is_over s then mkSubscriber false (sb_queue s) None (sb_past s) (sb_poll s) (sb_delivered s)
        else if length (sb_queue s) <? subscriber_capacity
        then mkSubscriber true (sb_queue s ++ [frame]) None (sb_past s) (sb_poll s) (sb_delivered s)
        else mkSubscriber true (sb_queue s) (Some (fr_seq frame, fr_seq frame)) (sb_past s) (sb_poll s) (sb_delivered s)
    end.

(** [Subscribers::add]. *)
Definition subscriber_new (past : Past) : Subscriber := mkSubscriber true [] None past Polling [].
(** [Subscribers::clear], one subscriber. *)
Definition unhold (s : Subscriber) : Subscriber :=
  mkSubscriber false (sb_queue s) (sb_lag s) (sb_past s) (sb_poll s) (sb_delivered s).

Definition deliver (f : Frame) (past : Past) (queue : list Frame) (poll : Poll) (s : Subscriber) : Subscriber :=
  mkSubscriber (sb_held s) queue (sb_lag s) past poll (sb_delivered s ++ [f]).
Definition set_poll (poll : Poll) (s : Subscriber) : Subscriber :=
  mkSubscriber (sb_held s) (sb_queue s) (sb_lag s) (sb_past s) poll (sb_delivered s).

(** One step of the reader: [catch_up] and the replay, then [live]. *)
Definition poll_one (session : SessionId) (now : Timestamp) (read : Seq → result KernelError (list Frame))
    (s : Subscriber) : Subscriber :=
  if is_over s then s
  else match sb_past s with
  | Stored since cut =>
      match read since with
      | Ok frames =>
          mkSubscriber (sb_held s) (sb_queue s) (sb_lag s) (Replay (retain (fun f => fr_seq f <? cut)%N frames))
            (sb_poll s) (sb_delivered s)
      | Err _ =>
          deliver (mkFrame cut now session None (Lagged (seq_next since) cut)) (Replay []) (sb_queue s) (Over AtMarker) s
      end
  | Replay (f :: frames) => deliver f (Replay frames) (sb_queue s) (sb_poll s) s
  | Replay [] =>
      match sb_poll s with
      | Polling =>
          match sb_queue s with
          | f :: queue => deliver f (Replay []) queue Polling s
          | [] => set_poll (if sb_held s then Gapping else Over Disconnected) s
          end
      | Gapping =>
          match sb_lag s with
          | Some (from, to) =>
              mkSubscriber (sb_held s) (sb_queue s) None (Replay []) Leaving
                (sb_delivered s ++ [mkFrame to now session None (Lagged from to)])
          | None => set_poll Receiving s
          end
      | Receiving =>
          match sb_queue s with
          | f :: queue => deliver f (Replay []) queue Polling s
          | [] => if sb_held s then s else set_poll (Over Disconnected) s
          end
      | Leaving => set_poll (Over AtMarker) s
      | Over _ => s
      end
  end.

Definition leave (s : Subscriber) : Subscriber := if is_over s then s else set_poll (Over ClientLeft) s.

(** ** The hub *)

Record Running := mkRunning { rn_turn : TurnId; rn_stopped_ask : option Timestamp; rn_cancelled : bool }.
Record PendingAsk := mkPendingAsk { pa_interaction : Interaction; pa_by_command : bool }.

(** Inputs on their way through the plugins' gate ([session/gate.rs]). *)
Record GateWaiting := mkGateWaiting { wg_intent : IntentId; wg_input : Input; wg_kind : InputKind }.
Record GateFlight := mkGateFlight { fl_intent : IntentId; fl_cancelled : bool }.
Record InputGate := mkInputGate { ig_waiting : list GateWaiting; ig_flight : option GateFlight }.

(** The commands that run, and the one that holds the session ([session/commands.rs]). *)
Record Command := mkCommand { cm_invocation : Invocation; cm_vouched : option str; cm_cancelled : bool }.
Record Commands := mkCommands { cm_inflight : gmap str Command; cm_holding : option IntentId }.
Definition commands_busy (c : Commands) : bool := bool_decide (is_Some (cm_holding c)).

(** What the handlers keep beside the journal. *)
Record Bench := mkBench {
  dk_running : option Running;
  dk_commands : Commands;
  dk_queue : Queue;
  dk_gate : InputGate;
  dk_closing : option CloseReason;                     (** a close that waits for the turn *)
  dk_progress : N;                                     (** tails numbered so far *)
  dk_pending : gmap str PendingAsk;
  dk_replies : list (InteractionId * result KernelError Answered);   (** what reply channels were sent *)
}.

Definition bench_new : Bench := mkBench None (mkCommands ∅ None) (mkQueue [] 0) (mkInputGate [] None) None 0 ∅ [].

Definition with_running (r : option Running) (d : Bench) : Bench :=
  mkBench r (dk_commands d) (dk_queue d) (dk_gate d) (dk_closing d) (dk_progress d) (dk_pending d) (dk_replies d).
Definition with_commands (x : Commands) (d : Bench) : Bench :=
  mkBench (dk_running d) x (dk_queue d) (dk_gate d) (dk_closing d) (dk_progress d) (dk_pending d) (dk_replies d).
Definition with_queue (q : Queue) (d : Bench) : Bench :=
  mkBench (dk_running d) (dk_commands d) q (dk_gate d) (dk_closing d) (dk_progress d) (dk_pending d) (dk_replies d).
Definition with_gate (x : InputGate) (d : Bench) : Bench :=
  mkBench (dk_running d) (dk_commands d) (dk_queue d) x (dk_closing d) (dk_progress d) (dk_pending d) (dk_replies d).
Definition with_closing (x : option CloseReason) (d : Bench) : Bench :=
  mkBench (dk_running d) (dk_commands d) (dk_queue d) (dk_gate d) x (dk_progress d) (dk_pending d) (dk_replies d).
Definition with_progress (x : N) (d : Bench) : Bench :=
  mkBench (dk_running d) (dk_commands d) (dk_queue d) (dk_gate d) (dk_closing d) x (dk_pending d) (dk_replies d).
Definition with_pending (x : gmap str PendingAsk) (d : Bench) : Bench :=
  mkBench (dk_running d) (dk_commands d) (dk_queue d) (dk_gate d) (dk_closing d) (dk_progress d) x (dk_replies d).
Definition with_replies (x : list (InteractionId * result KernelError Answered)) (d : Bench) : Bench :=
  mkBench (dk_running d) (dk_commands d) (dk_queue d) (dk_gate d) (dk_closing d) (dk_progress d) (dk_pending d) x.

Section hub.
Context {St : Type} `{SessionStore St}.
(** [Timestamp::now], and the keys of a hash map in the order it gives them. *)
Context (clock : nat → Timestamp) (hash_order : gmap str PendingAsk → list str).

Record Hub := mkHub {
  hb_id : SessionId;
  hb_seq : Seq;
  hb_state : SessionState;
  hb_journal : list Frame;
  hb_checkpoint_seq : Seq;
  hb_writing : list Seq;          (** checkpoints handed to the store, not yet acknowledged *)
  hb_store : option St;
  hb_subs : list Subscriber;
  hb_bench : Bench;
  hb_serving : bool;              (** the mailbox is open *)
  hb_published : list Frame;      (** log: every frame broadcast *)
  hb_durable : list Frame;        (** log: every frame journaled *)
  hb_taken : nat;                 (** sequence numbers taken, and clock readings *)
}.

Definition set_bench (h : Hub) (d : Bench) : Hub :=
  mkHub (hb_id h) (hb_seq h) (hb_state h) (hb_journal h) (hb_checkpoint_seq h) (hb_writing h) (hb_store h) (hb_subs h) d
    (hb_serving h) (hb_published h) (hb_durable h) (hb_taken h).
Definition set_subs (h : Hub) (subs : list Subscriber) : Hub :=
  mkHub (hb_id h) (hb_seq h) (hb_state h) (hb_journal h) (hb_checkpoint_seq h) (hb_writing h) (hb_store h) subs (hb_bench h)
    (hb_serving h) (hb_published h) (hb_durable h) (hb_taken h).
Definition stop_serving (h : Hub) : Hub :=
  mkHub (hb_id h) (hb_seq h) (hb_state h) (hb_journal h) (hb_checkpoint_seq h) (hb_writing h) (hb_store h) (hb_subs h) (hb_bench h)
    false (hb_published h) (hb_durable h) (hb_taken h).

(** The next sequence number, and the frame that carries it. *)
Definition sequence (h : Hub) (e : Event) (cause : option IntentId) : Hub * Frame :=
  let seq := seq_next (hb_seq h) in
  (mkHub (hb_id h) seq (hb_state h) (hb_journal h) (hb_checkpoint_seq h) (hb_writing h) (hb_store h) (hb_subs h) (hb_bench h)
     (hb_serving h) (hb_published h) (hb_durable h) (S (hb_taken h)),
   mkFrame seq (clock (hb_taken h)) (hb_id h) cause e).

Definition broadcast (h : Hub) (frame : Frame) : Hub :=
  mkHub (hb_id h) (hb_seq h) (apply (hb_state h) frame).1 (hb_journal h) (hb_checkpoint_seq h) (hb_writing h) (hb_store h)
    (fan_one frame <$> hb_subs h) (hb_bench h) (hb_serving h) (hb_published h ++ [frame]) (hb_durable h) (hb_taken h).

Definition terminal_event (h : Hub) (e : Event) (cause : option IntentId) : Hub :=
  let '(h, frame) := sequence h e cause in broadcast h frame.

(** [remember_stopped_ask]: the earliest ask of the running turn that no call
    waits on, kept the first time one is found. *)
Definition call_wait (i : Item) : option (Timestamp * option Timestamp) :=
  match item_body i with
  | BToolCall _ asked began _ _ _ _ _ _ _ => (fun a => (a, option_or began (item_completed_at i))) <$> asked
  | _ => None
  end.
Definition call_waiting (i : Item) : bool := match call_wait i with Some (_, None) => true | _ => false end.

Definition held (h : Hub) (open : Interaction) : bool :=
  match int_kind open with
  | KPermission _ _ _ _ _ _ =>
      match int_item open ≫= get (st_transcript (hb_state h)) with Some i => call_waiting i | None => false end
  | _ => false
  end.

Definition earliest (ts : list Timestamp) : option Timestamp :=
  foldr (fun t m => Some (match m with Some u => Z.min t u | None => t end)) None ts.

Definition remember_stopped_ask (h : Hub) : Hub :=
  match dk_running (hb_bench h) with
  | None => h
  | Some r =>
      let asks := pa_interaction <$> (map_to_list (dk_pending (hb_bench h))).*2 in
      let found := earliest (int_opened_at <$> retain (fun i => bool_decide (int_turn i = Some (rn_turn r)) && negb (held h i)) asks) in
      set_bench h (with_running (Some (mkRunning (rn_turn r) (option_or (rn_stopped_ask r) found) (rn_cancelled r))) (hb_bench h))
  end.

(** The pending asks in the order the map gives them. *)
Definition drained (m : gmap str PendingAsk) : list (InteractionId * PendingAsk) :=
  omap (fun id => pair id <$> m !! id) (hash_order m).

(** [Subscribers::clear]. *)
Definition clear_subs (h : Hub) : Hub := set_subs h (unhold <$> hb_subs h).

Definition rejected (intent : IntentId) (error : KernelError) : Event := IntentAck intent (OutRejected error).

(** [storage_failed], up to the close. *)
Definition storage_refusals (h : Hub) (error : KernelError) : Hub :=
  let h := remember_stopped_ask (stop_serving h) in
  let h := set_bench h (with_running None (hb_bench h)) in
  let h := terminal_event h (Notice Error (lit "STORAGE") (ke_message error)) None in
  let '(queue, waiting) := drain_all (dk_queue (hb_bench h)) in
  let h := foldl (fun h w => terminal_event h (rejected w.1 error) (Some w.1)) h waiting in
  let d := hb_bench h in
  set_bench h (with_queue queue (with_pending ∅
    (with_replies (dk_replies d ++ ((fun p => (p.1, Err error)) <$> drained (dk_pending d))) d))).

Definition storage_failed (h : Hub) (error : KernelError) : Hub :=
  clear_subs (terminal_event (storage_refusals h error) (SessionClosed (CloseError (ke_message error))) None).

(** [publish]. *)
Definition journal_frame (h : Hub) (frame : Frame) (store : option St) : Hub :=
  mkHub (hb_id h) (hb_seq h) (hb_state h) (hb_journal h ++ [frame]) (hb_checkpoint_seq h) (hb_writing h) store (hb_subs h) (hb_bench h)
    (hb_serving h) (hb_published h) (hb_durable h ++ [frame]) (hb_taken h).

(** ** Checkpoints *)

(** The state [checkpoint::write] hands the store. *)
Definition checkpoint_of (h : Hub) : SessionState :=
  set_transcript (drop_before_cut (st_transcript (hb_state h))) (set_signals ∅ (hb_state h)).

(** [checkpoint::write]: the write runs on a task of its own. *)
Definition checkpoint_write (h : Hub) : Hub :=
  match hb_store h with
  | None => h
  | Some _ =>
      mkHub (hb_id h) (hb_seq h) (hb_state h) (hb_journal h) (hb_checkpoint_seq h)
        (hb_writing h ++ [st_seq (checkpoint_of h)]) (hb_store h) (hb_subs h) (hb_bench h)
        (hb_serving h) (hb_published h) (hb_durable h) (hb_taken h)
  end.

(** [checkpoint::acknowledge], of the [k]th write under way. *)
Definition acknowledge (h : Hub) (k : nat) (written : bool) : Hub :=
  match hb_writing h !! k with
  | None => h
  | Some seq =>
      let writing := delete k (hb_writing h) in
      if written && (hb_checkpoint_seq h <? seq)%N then
        mkHub (hb_id h) (hb_seq h) (set_transcript (drop_before_cut (st_transcript (hb_state h))) (hb_state h))
          (retain (fun f => seq <? fr_seq f)%N (hb_journal h)) seq writing (hb_store h) (hb_subs h) (hb_bench h)
          (hb_serving h) (hb_published h) (hb_durable h) (hb_taken h)
      else
        mkHub (hb_id h) (hb_seq h) (hb_state h) (hb_journal h) (hb_checkpoint_seq h) writing (hb_store h) (hb_subs h)
          (hb_bench h) (hb_serving h) (hb_published h) (hb_durable h) (hb_taken h)
  end.

Definition is_compacted (e : Event) : bool := match e with Compacted _ _ _ _ => true | _ => false end.

(** What [publish] does once the frame is safe. *)
Definition published (h : Hub) (frame : Frame) : Hub * result KernelError Seq :=
  let h := broadcast h frame in
  let h := if is_compacted (fr_event frame) then checkpoint_write h else h in
  (h, Ok (hb_seq h)).

Definition publish (h : Hub) (e : Event) (cause : option IntentId) : Hub * result KernelError Seq :=
  let '(h, frame) := sequence h e cause in
  if is_durable e then
    match hb_store h with
    | Some st =>
        match store_append st (hb_id h) frame with
        | Err error => (storage_failed h error, Err error)
        | Ok st => published (journal_frame h frame (Some st)) frame
        end
    | None => published (journal_frame h frame None) frame
    end
  else published h frame.

(** ** Reading *)

(** [subscribe]. *)
Definition subscribe (h : Hub) (since : Seq) : Hub :=
  let past := match hb_store h with
              | Some _ => if (since <? hb_checkpoint_seq h)%N then Stored since (seq_next (hb_seq h))
                          else Replay (retain (fun f => since <? fr_seq f)%N (hb_journal h))
              | None => Replay (retain (fun f => since <? fr_seq f)%N (hb_journal h))
              end in
  set_subs h (hb_subs h ++ [subscriber_new past]).

(** [attached], unbounded: the snapshot and the stream it is cut with. *)
Definition attached (h : Hub) : SessionState * Hub := (hb_state h, subscribe h (st_seq (hb_state h))).

(** [EventsSince] and [TailEvents] of [dispatch]. *)
Definition tail_events (h : Hub) : Seq * Hub := (st_seq (hb_state h), subscribe h (st_seq (hb_state h))).

(** [store.replay], which may also fail for a reason of its own. *)
Definition read_store (h : Hub) (fault : option KernelError) (since : Seq) : result KernelError (list Frame) :=
  match fault, hb_store h with
  | Some error, _ => Err error
  | None, Some st => store_replay st (hb_id h) since
  | None, None => Err (mkKernelError Storage (lit "no store"))
  end.

(** Reader [k] takes a step; it leaves. *)
Definition poll_sub (h : Hub) (k : nat) (now : Timestamp) (fault : option KernelError) : Hub :=
  set_subs h (alter (poll_one (hb_id h) now (read_store h fault)) k (hb_subs h)).
Definition leave_sub (h : Hub) (k : nat) : Hub := set_subs h (alter leave k (hb_subs h)).

(** ** Any sequence of them *)

Inductive Op :=
| OpPublish (e : Event) (cause : option IntentId)
| OpCheckpointed (k : nat) (written : bool)
| OpSubscribe (since : Seq)
| OpPoll (k : nat) (now : Timestamp) (fault : option KernelError)
| OpLeave (k : nat)
| OpClear
| OpBench (d : Bench).      (** whatever else the handlers do *)

Definition hub_run (h : Hub) (o : Op) : Hub :=
  match o with
  | OpPublish e cause => (publish h e cause).1
  | OpCheckpointed k written => acknowledge h k written
  | OpSubscribe since => subscribe h since
  | OpPoll k now fault => poll_sub h k now fault
  | OpLeave k => leave_sub h k
  | OpClear => clear_subs h
  | OpBench d => set_bench h d
  end.
Definition hub_runs (h : Hub) (os : list Op) : Hub := foldl hub_run h os.
End hub.
Arguments Hub : clear implicits.

(** ** Steps

    What an operation does to the hub, one indivisible change at a time. *)

Section steps.
Context {St : Type} `{SessionStore St}.
Context (clock : nat → Timestamp) (hash_order : gmap str PendingAsk → list str).
Implicit Types h : Hub St.

Inductive hub_step : Hub St → Hub St → Prop :=
| hs_bench h d : hub_step h (set_bench h d)
| hs_stop h : hub_step h (stop_serving h)
| hs_skip h e cause : hub_step h (sequence clock h e cause).1
| hs_speak h e cause : is_durable e = false ∨ hb_serving h = false → hub_step h (terminal_event clock h e cause)
| hs_journal h h' e cause frame store : sequence clock h e cause = (h', frame) → is_durable e = true →
    match store with
    | Some st' => ∃ st, hb_store h = Some st ∧ store_append st (hb_id h) frame = Ok st'
    | None => hb_store h = None
    end →
    hub_step h (broadcast (journal_frame h' frame store) frame)
| hs_write h : hub_step h (checkpoint_write h)
| hs_acknowledge h k written : hub_step h (acknowledge h k written)
| hs_subscribe h since : hub_step h (subscribe h since)
| hs_poll h k now fault : hub_step h (poll_sub h k now fault)
| hs_leave h k : hub_step h (leave_sub h k)
| hs_clear h : hub_step h (clear_subs h).
#[local] Hint Constructors hub_step : hub.

Lemma steps_foldl {A} (f : Hub St → A → Hub St) (l : list A) h :
  (∀ h x, rtc hub_step h (f h x)) → rtc hub_step h (foldl f h l).
Proof. intros Hf. revert h. induction l as [|x l IH]; intros h; simpl; [done|]. by etrans; [apply Hf|]. Qed.

Lemma steps_remember h : rtc hub_step h (remember_stopped_ask h).
Proof. unfold remember_stopped_ask. destruct (dk_running _); [|done]. apply rtc_once. constructor. Qed.

Lemma remember_serving h : hb_serving (remember_stopped_ask h) = hb_serving h.
Proof. unfold remember_stopped_ask. by destruct (dk_running _). Qed.

Lemma terminals_serving {A} (e : A → Event) (cause : A → option IntentId) (l : list A) h :
  hb_serving (foldl (λ h x, terminal_event clock h (e x) (cause x)) h l) = hb_serving h.
Proof. revert h. induction l as [|x l IH]; intros h; simpl; [done|]. by rewrite IH. Qed.

Lemma steps_terminals {A} (e : A → Event) (cause : A → option IntentId) (l : list A) h : hb_serving h = false →
  rtc hub_step h (foldl (λ h x, terminal_event clock h (e x) (cause x)) h l).
Proof.
  revert h. induction l as [|x l IH]; intros h Hs; simpl; [done|].
  eapply rtc_l; [apply hs_speak; by right|]. by apply IH.
Qed.

Lemma steps_storage_refusals h error :
  rtc hub_step h (storage_refusals clock hash_order h error) ∧ hb_serving (storage_refusals clock hash_order h error) = false.
Proof.
  unfold storage_refusals. destruct (drain_all _) as [queue waiting]. split.
  - eapply rtc_r; [|apply hs_bench].
    etrans; [|apply (steps_terminals (λ w, rejected w.1 error) (λ w, Some w.1)); simpl; by rewrite remember_serving].
    eapply rtc_r; [|apply hs_speak; by left]. eapply rtc_r; [|apply hs_bench].
    etrans; [|apply steps_remember]. apply rtc_once, hs_stop.
  - simpl. rewrite (terminals_serving (λ w, rejected w.1 error) (λ w, Some w.1)). simpl. by rewrite remember_serving.
Qed.

Lemma steps_storage_failed h error : rtc hub_step h (storage_failed clock hash_order h error).
Proof.
  destruct (steps_storage_refusals h error) as [Hs Hv]. unfold storage_failed.
  eapply rtc_r; [|apply hs_clear]. eapply rtc_r; [exact Hs|]. apply hs_speak. by right.
Qed.

Lemma steps_published h h' frame : hub_step h (broadcast h' frame) → rtc hub_step h (published h' frame).1.
Proof.
  intros Hs. unfold published. simpl. eapply rtc_l; [exact Hs|].
  destruct (is_compacted _); [apply rtc_once, hs_write|done].
Qed.

Lemma steps_publish h e cause : rtc hub_step h (publish clock hash_order h e cause).1.
Proof.
  unfold publish. destruct (sequence clock h e cause) as [h' frame] eqn:E.
  assert (h' = (sequence clock h e cause).1) as Eh by by rewrite E.
  assert (hub_step h h') as Hskip by (rewrite Eh; apply hs_skip).
  assert (hb_store h' = hb_store h ∧ hb_id h' = hb_id h) as [Es Ei] by by rewrite Eh.
  destruct (is_durable e) eqn:Ed.
  - rewrite Es. destruct (hb_store h) as [st|] eqn:Est.
    + rewrite Ei. destruct (store_append st (hb_id h) frame) as [st'|error] eqn:Ea.
      * apply steps_published. eapply hs_journal; [done..|]. eauto.
      * eapply rtc_l; [exact Hskip|]. apply steps_storage_failed.
    + apply steps_published. by eapply hs_journal.
  - apply steps_published. replace (broadcast h' frame) with (terminal_event clock h e cause); [apply hs_speak; by left|].
    unfold terminal_event. by rewrite E.
Qed.

Lemma steps_run h o : rtc hub_step h (hub_run clock hash_order h o).
Proof. destruct o; simpl; [apply steps_publish|apply rtc_once; auto with hub..]. Qed.

Lemma steps_runs os h : rtc hub_step h (hub_runs clock hash_order h os).
Proof. apply steps_foldl. intros. apply steps_run. Qed.

Lemma step_taken h h' : hub_step h h' → hb_taken h ≤ hb_taken h'.
Proof.
  intros Hs. destruct Hs; simpl; try lia; unfold checkpoint_write, acknowledge, sequence in *; repeat case_match; simpl in *; simplify_eq; simpl; lia.
Qed.

Lemma steps_taken h h' : rtc hub_step h h' → hb_taken h ≤ hb_taken h'.
Proof. induction 1 as [|? ? ? Hs%step_taken]; lia. Qed.
End steps.

(** ** What the journal holds *)

Section journal.
Context {St : Type} `{StoreLaws St}.
Context (clock : nat → Timestamp) (hash_order : gmap str PendingAsk → list str).

(** The journal of a hub whose first sequence number came after [base], as long
    as the numbers have not run out. *)
Record journal_ok (base : Seq) (h : Hub St) : Prop := mk_journal_ok {
  jo_seq : hb_seq h = (base + N.of_nat (hb_taken h))%N;
  jo_state : (st_seq (hb_state h) ≤ hb_seq h)%N;
  jo_durable : increasing 0 (hb_durable h);
  jo_durable_le : ∀ f, f ∈ hb_durable h → (fr_seq f ≤ hb_seq h)%N;
  jo_published : increasing base (hb_published h);
  jo_published_le : ∀ f, f ∈ hb_published h → (fr_seq f ≤ hb_seq h)%N;
  jo_store : ∀ st, hb_store h = Some st → store_keeps st (hb_id h) (hb_durable h);
  jo_journal : hb_journal h = after (hb_checkpoint_seq h) (hb_durable h);
  jo_checkpoint : (hb_checkpoint_seq h ≤ hb_seq h)%N;
  jo_writing : Forall (λ q, q ≤ hb_seq h)%N (hb_writing h);
  jo_no_store : hb_store h = None → hb_checkpoint_seq h = 0%N ∧ hb_writing h = [];
  jo_spoken : hb_serving h = true → after base (hb_durable h) = retain (λ f, is_durable (fr_event f)) (hb_published h);
}.

(** A number to spare. *)
Definition room (base : Seq) (h : Hub St) : Prop := (base + N.of_nat (hb_taken h) + 1 < 2 ^ 64)%N.

(** Two hubs that differ in nothing the journal depends on. *)
Definition same_journal (h h' : Hub St) : Prop :=
  hb_id h' = hb_id h ∧ hb_seq h' = hb_seq h ∧ hb_journal h' = hb_journal h ∧ hb_checkpoint_seq h' = hb_checkpoint_seq h
  ∧ hb_writing h' = hb_writing h
  ∧ hb_store h' = hb_store h ∧ hb_published h' = hb_published h ∧ hb_durable h' = hb_durable h ∧ hb_taken h' = hb_taken h
  ∧ hb_state h' = hb_state h ∧ (hb_serving h' = true → hb_serving h = true).

Lemma same_journal_ok base h h' : same_journal h h' → journal_ok base h → journal_ok base h'.
Proof.
  intros (Ei & Es & Ej & Ec & Ew & Et & Ep & Ed & En & Ea & Eb) [].
  split; rewrite ?Ei, ?Es, ?Ej, ?Ec, ?Ew, ?Et, ?Ep, ?Ed, ?En, ?Ea; auto.
Qed.

Lemma increasing_snoc a fs f : increasing a fs → (∀ g, g ∈ fs → fr_seq g < fr_seq f)%N → (a < fr_seq f)%N →
  increasing a (fs ++ [f]).
Proof.
  revert a. induction fs as [|g fs IH]; intros a; simpl; [done|]. intros [Hlt Hi] Hall Ha. split; [done|].
  apply IH; [done| |apply Hall; by left]. intros g' Hg'. apply Hall. by right.
Qed.

Lemma sequence_seq base h e cause h' f : room base h' → journal_ok base h → sequence clock h e cause = (h', f) →
  fr_seq f = hb_seq h' ∧ hb_seq h' = (hb_seq h + 1)%N ∧ hb_taken h' = S (hb_taken h).
Proof.
  intros Hr Hok. apply jo_seq in Hok as Hs. unfold room in Hr. intros [= <- <-]. simpl in *. split_and!; [done| |done].
  unfold seq_next, u64_add. rewrite wrap_small; [done|]. rewrite Hs. lia.
Qed.

(** A hub whose last number was just taken: all that is recorded lies below it. *)
Record just_taken (base : Seq) (h : Hub St) (f : Frame) : Prop := mk_just_taken {
  fh_ok : journal_ok base h;
  fh_frame : fr_seq f = hb_seq h;
  fh_state : (st_seq (hb_state h) < hb_seq h)%N;
  fh_durable : ∀ g, g ∈ hb_durable h → (fr_seq g < hb_seq h)%N;
  fh_published : ∀ g, g ∈ hb_published h → (fr_seq g < hb_seq h)%N;
  fh_base : (base < hb_seq h)%N;
  fh_checkpoint : (hb_checkpoint_seq h < hb_seq h)%N;
}.

Lemma sequence_fresh base h e cause h' f : room base h' → journal_ok base h → sequence clock h e cause = (h', f) →
  just_taken base h' f.
Proof.
  intros Hr Hok E. destruct (sequence_seq _ _ _ _ _ _ Hr Hok E) as (Hf & Hseq & Ht).
  destruct Hok as [Hs Ha Hd Hdl Hp Hpl Hst Hj Hc Hw Hn Hsp]. injection E as <- <-. simpl in *.
  assert (∀ g (l : list Frame), (∀ g, g ∈ l → fr_seq g ≤ hb_seq h)%N → g ∈ l → (fr_seq g < seq_next (hb_seq h))%N) as Hlt.
  { intros g l Hl Hg. specialize (Hl g Hg). lia. }
  split; simpl; try done; [|lia|by eauto|by eauto|lia|lia].
  split; simpl; try done; [lia|lia|intros; by apply N.lt_le_incl; eauto|intros; by apply N.lt_le_incl; eauto|lia|].
  eapply Forall_impl; [exact Hw|]. simpl. lia.
Qed.

(** It is broadcast, and journaled first when the store took it. *)
Lemma ok_broadcast base h f : just_taken base h f → is_durable (fr_event f) = false ∨ hb_serving h = false →
  journal_ok base (broadcast h f).
Proof.
  intros [[Hs Ha Hd Hdl Hp Hpl Hst Hj Hc Hw Hn Hsp] Hf Hsl Hdlt Hplt Hb Hcl] Hdur. split; simpl; try done.
  - rewrite <- Hf. apply apply_seq_le. lia.
  - apply increasing_snoc; [done| |lia]. intros g Hg. specialize (Hplt g Hg). lia.
  - intros g [Hin| ->%list_elem_of_singleton]%elem_of_app; [by apply Hpl|lia].
  - intros Hserve. destruct Hdur as [Hdur|]; [|congruence]. rewrite retain_app. simpl. rewrite Hdur, app_nil_r. by apply Hsp.
Qed.

Lemma ok_journaled base h f store : just_taken base h f → is_durable (fr_event f) = true →
  (∀ st', store = Some st' → ∃ st, hb_store h = Some st ∧ store_append st (hb_id h) f = Ok st') →
  (store = None → hb_store h = None) →
  journal_ok base (broadcast (journal_frame h f store) f).
Proof.
  intros Hfr Hdur Hstore Hnone. destruct Hfr as [[Hs Ha Hd Hdl Hp Hpl Hst Hj Hc Hw Hn Hsp] Hf Hsl Hdlt Hplt Hb Hcl]. simpl in *.
  split; simpl; try done.
  - rewrite <- Hf. apply apply_seq_le. lia.
  - apply increasing_snoc; [done| |lia]. intros g Hg. specialize (Hdlt g Hg). lia.
  - intros g [Hin| ->%list_elem_of_singleton]%elem_of_app; [by apply Hdl|lia].
  - apply increasing_snoc; [done| |lia]. intros g Hg. specialize (Hplt g Hg). lia.
  - intros g [Hin| ->%list_elem_of_singleton]%elem_of_app; [by apply Hpl|lia].
  - intros st' ->. destruct (Hstore st' eq_refl) as (st & Est & Ea). by eapply keeps_append, Hst.
  - rewrite after_app, <- Hj. f_equal. rewrite after_all; [done|]. intros g ->%list_elem_of_singleton. lia.
  - intros ->. by apply Hn, Hnone.
  - intros Hserve. rewrite after_app, retain_app, Hsp by done. f_equal. simpl. rewrite Hdur.
    by rewrite (proj2 (N.ltb_lt _ _)) by lia.
Qed.

Lemma ok_checkpoint_write base h : journal_ok base h → journal_ok base (checkpoint_write h).
Proof.
  intros Hok. unfold checkpoint_write. destruct (hb_store h) eqn:E; [|done]. destruct Hok as [].
  split; simpl; try done; [by rewrite <- E|]. apply Forall_app. split; [done|].
  apply Forall_singleton. unfold checkpoint_of. by destruct (hb_state h).
Qed.

Lemma ok_acknowledge base h k written : journal_ok base h → journal_ok base (acknowledge h k written).
Proof.
  intros Hok. unfold acknowledge. destruct (hb_writing h !! k) as [q|] eqn:E; [|done].
  destruct Hok as [Hs Ha Hd Hdl Hp Hpl Hst Hj Hc Hw Hn Hsp].
  assert (hb_store h ≠ None) as Hstore. { intros [_ Hnil]%Hn. by rewrite Hnil in E. }
  assert (Forall (λ q, q ≤ hb_seq h)%N (delete k (hb_writing h))) as Hw'.
  { apply Forall_forall. intros x Hx%list_elem_of_delete_inv. by eapply Forall_forall in Hw. }
  destruct (written && (hb_checkpoint_seq h <? q)%N) eqn:Eq; split; simpl; try done.
  - by destruct (hb_state h).
  - apply andb_true_iff in Eq as [_ Hlt%N.ltb_lt]. rewrite Hj. change (after q (after (hb_checkpoint_seq h) (hb_durable h)) = after q (hb_durable h)).
    rewrite after_after. by rewrite N.max_l by lia.
  - by apply (Forall_lookup_1 _ _ _ _ Hw E).
Qed.

Lemma step_journal_ok base h h' : hub_step clock h h' → room base h' → journal_ok base h → journal_ok base h'.
Proof.
  intros Hs Hr Hok. destruct Hs as [| |h e cause|h e cause Hq|h h' e cause f store E Hdur Hstore| | | | | |];
    try (eapply same_journal_ok; [|exact Hok]; by repeat split).
  - destruct (sequence clock h e cause) as [h' f] eqn:E. by apply (sequence_fresh _ _ _ _ _ _ Hr Hok) in E as [].
  - unfold terminal_event in *. destruct (sequence clock h e cause) as [h' f] eqn:E. change (room base h') in Hr.
    apply ok_broadcast; [by apply (sequence_fresh _ _ _ _ _ _ Hr Hok) in E|]. by injection E as <- <-.
  - assert (hb_store h' = hb_store h ∧ hb_id h' = hb_id h) as [Es Ei] by by injection E as <- _.
    change (room base h') in Hr. apply ok_journaled; [by apply (sequence_fresh _ _ _ _ _ _ Hr Hok) in E|by injection E as _ <-|..].
    + rewrite Es, Ei. by intros st' ->.
    + rewrite Es. by intros ->.
  - by apply ok_checkpoint_write.
  - by apply ok_acknowledge.
Qed.

Lemma steps_journal_ok base h h' : rtc (hub_step clock) h h' → room base h' → journal_ok base h → journal_ok base h'.
Proof.
  intros Hs. induction Hs as [|h1 h2 h3 H12 H23 IH]; [done|]. intros Hr Hok. apply IH; [done|].
  eapply step_journal_ok; [done| |done]. apply steps_taken in H23. unfold room in *. lia.
Qed.
End journal.

(** ** What a subscriber hears *)

(** What was delivered up to a [Lagged] marker, which ends it. *)
Definition marked (total delivered : list Frame) : Prop :=
  ∃ heard marker, delivered = heard ++ [marker] ∧ is_lagged (fr_event marker) = true ∧ heard `prefix_of` total.

Definition past_frames (stored : list Frame) (p : Past) : list Frame :=
  match p with Replay frames => frames | Stored _ _ => stored end.

(** Of the frames [total] due to a subscriber whose store still holds [stored]
    for it: what it was handed, what is on its way and what it missed, the last
    empty unless the actor let go of it or wrote down a gap. *)
Definition streaming (stored total : list Frame) (s : Subscriber) : Prop :=
  ∃ missed, sb_delivered s ++ past_frames stored (sb_past s) ++ sb_queue s ++ missed = total
    ∧ (sb_held s = true → sb_lag s = None → missed = []).

Definition hearing (stored total : list Frame) (s : Subscriber) : Prop :=
  match sb_poll s with
  | Polling | Gapping | Receiving => streaming stored total s
  | Leaving => marked total (sb_delivered s) ∧ sb_past s = Replay []
  | Over AtMarker => marked total (sb_delivered s)
  | Over ClientLeft => marked total (sb_delivered s) ∨ sb_delivered s `prefix_of` total
  | Over Disconnected => sb_delivered s `prefix_of` total
  end.

Lemma marked_more total more delivered : marked total delivered → marked (total ++ more) delivered.
Proof. intros (heard & marker & -> & Hl & Hp). exists heard, marker. split_and!; [done..|]. by apply prefix_app_r. Qed.

Lemma streaming_prefix stored total s : streaming stored total s → sb_delivered s `prefix_of` total.
Proof. intros (missed & <- & _). by eexists. Qed.

(** A frame joins what is due. *)
Lemma streaming_fan stored total s f : is_over s = false → streaming stored total s →
  streaming stored (total ++ [f]) (fan_one f s).
Proof.
  intros Ho (missed & <- & Hnil). unfold fan_one, streaming. rewrite Ho.
  destruct s as [held queue lag past poll delivered]; simpl in *.
  destruct held; simpl; [destruct lag as [[from to]|]; simpl|].
  - exists (missed ++ [f]). split; [by rewrite <- !app_assoc|done].
  - rewrite Hnil by done. destruct (length queue <? _); simpl.
    + exists []. split; [by rewrite !app_nil_r, <- !app_assoc|done].
    + exists [f]. split; [by rewrite app_nil_r, <- !app_assoc|done].
  - exists (missed ++ [f]). split; [by rewrite <- !app_assoc|done].
Qed.

Lemma fan_one_same f s : sb_poll (fan_one f s) = sb_poll s ∧ sb_delivered (fan_one f s) = sb_delivered s
  ∧ sb_past (fan_one f s) = sb_past s.
Proof. unfold fan_one. repeat case_match; done. Qed.

Lemma hearing_fan stored total s f : hearing stored total s → hearing stored (total ++ [f]) (fan_one f s).
Proof.
  pose proof (fan_one_same f s) as (Ep & Ed & Ea). unfold hearing. rewrite Ep, Ed, Ea.
  destruct (sb_poll s) as [| | | |[]] eqn:E; try (apply streaming_fan; unfold is_over; by rewrite E);
    try apply marked_more; [intros [? ?]; split; [by apply marked_more|done]|intros [?|?]; [left; by apply marked_more|right]|];
    by apply prefix_app_r.
Qed.

(** The reader takes a step, the store answering with what it holds, or failing. *)
Lemma streaming_marked stored total s marker : is_lagged (fr_event marker) = true → streaming stored total s →
  marked total (sb_delivered s ++ [marker]).
Proof. intros Hl Hs%streaming_prefix. by exists (sb_delivered s), marker. Qed.

Lemma streaming_next stored total held queue lag poll delivered f frames :
  streaming stored total (mkSubscriber held queue lag (Replay (f :: frames)) poll delivered) →
  streaming stored total (mkSubscriber held queue lag (Replay frames) poll (delivered ++ [f])).
Proof. intros (missed & <- & Hnil). exists missed. simpl in *. split; [by rewrite <- app_assoc|done]. Qed.

Lemma streaming_dequeue stored total held queue lag poll poll' delivered f :
  streaming stored total (mkSubscriber held (f :: queue) lag (Replay []) poll delivered) →
  streaming stored total (mkSubscriber held queue lag (Replay []) poll' (delivered ++ [f])).
Proof. intros (missed & <- & Hnil). exists missed. simpl in *. split; [by rewrite <- app_assoc|done]. Qed.

Lemma hearing_poll id now read stored total s :
  (∀ since cut, sb_past s = Stored since cut →
     (∃ frames, read since = Ok frames ∧ retain (λ f, fr_seq f <? cut)%N frames = stored) ∨ (∃ error, read since = Err error)) →
  hearing stored total s → hearing stored total (poll_one id now read s).
Proof.
  intros Hread. unfold poll_one, is_over, hearing. destruct s as [held queue lag past poll delivered]; simpl in *.
  destruct poll as [| | | |why]; [| | |intros [Hm ->]; exact Hm|by destruct why].
  all: intros Hs; destruct past as [[|f frames]|since cut]; simpl.
  all: try (destruct (Hread since cut eq_refl) as [(frames & -> & <-)|(error & ->)]; simpl;
            [exact Hs|by refine (streaming_marked _ _ _ _ _ Hs)]).
  all: try (by apply (streaming_next _ _ _ _ _ _ _ _ _ Hs)).
  - destruct queue as [|f queue]; simpl; [destruct held; simpl; [exact Hs|by apply streaming_prefix in Hs]|].
    by eapply streaming_dequeue, Hs.
  - destruct lag as [[from to]|]; simpl; [|exact Hs]. split; [|done]. by refine (streaming_marked _ _ _ _ _ Hs).
  - destruct queue as [|f queue]; simpl; [destruct held; simpl; [exact Hs|by apply streaming_prefix in Hs]|].
    by eapply streaming_dequeue, Hs.
Qed.

Lemma hearing_leave stored total s : hearing stored total s → hearing stored total (leave s).
Proof.
  unfold leave, is_over, hearing, set_poll. destruct s as [held queue lag past poll delivered]; simpl.
  destruct poll; simpl; try done; [intros Hs%streaming_prefix; by right..|intros [Hm _]; by left].
Qed.

Lemma hearing_unhold stored total s : hearing stored total s → hearing stored total (unhold s).
Proof.
  unfold hearing, unhold. destruct (sb_poll s); simpl; try done; intros (missed & Hm & Hnil); by exists missed.
Qed.

(** How many steps a reader that is not behind has still to take. *)
Definition awake (s : Subscriber) : bool :=
  sb_held s && match sb_poll s with Polling | Gapping | Receiving => true | _ => false end
  && match sb_lag s with None => true | Some _ => false end.
Definition unread (stored : list Frame) (s : Subscriber) : nat :=
  3 * (length (past_frames stored (sb_past s)) + length (sb_queue s))
  + match sb_poll s with Polling => 2 | Gapping => 1 | _ => 0 end
  + match sb_past s with Stored _ _ => 1 | Replay _ => 0 end.

Lemma poll_progress id now read stored s :
  (∀ since cut, sb_past s = Stored since cut →
     ∃ frames, read since = Ok frames ∧ retain (λ f, fr_seq f <? cut)%N frames = stored) →
  awake s = true → let s' := poll_one id now read s in
  awake s' = true ∧ unread stored s' ≤ pred (unread stored s)
  ∧ sb_delivered s' ++ past_frames stored (sb_past s') ++ sb_queue s' = sb_delivered s ++ past_frames stored (sb_past s) ++ sb_queue s
  ∧ (∀ since cut, sb_past s' ≠ Stored since cut).
Proof.
  intros Hread. destruct s as [held queue lag past poll delivered]. unfold awake, poll_one, is_over, unread. simpl in *.
  destruct held, lag, poll as [| | | |]; try done; intros _; simpl.
  all: destruct past as [[|f frames]|since cut]; simpl in *; try (destruct queue as [|f queue]);
    try (destruct (Hread _ _ eq_refl) as (frames & -> & <-)); simpl; (split_and!; [done|lia|by rewrite <- ?app_assoc|done]).
Qed.

Lemma polls_finish id now read stored n s :
  (∀ since cut, sb_past s = Stored since cut →
     ∃ frames, read since = Ok frames ∧ retain (λ f, fr_seq f <? cut)%N frames = stored) →
  awake s = true → unread stored s ≤ n →
  sb_delivered (Nat.iter n (poll_one id now read) s) = sb_delivered s ++ past_frames stored (sb_past s) ++ sb_queue s.
Proof.
  revert s. induction n as [|n IH]; intros s Hread Ha Hn.
  - simpl. unfold unread in Hn. destruct (past_frames _ _), (sb_queue s); simpl in *; [by rewrite app_nil_r|lia..].
  - rewrite Nat.iter_succ_r. destruct (poll_progress id now read stored s Hread Ha) as (Ha' & Hu & Hd & Hp).
    rewrite IH; [done| |done|lia]. intros a c E. by destruct (Hp a c).
Qed.

Section delivery.
Context {St : Type} `{StoreLaws St}.
Context (clock : nat → Timestamp) (hash_order : gmap str PendingAsk → list str).
(** The subscription: after which frame, with which cut, at which journal and
    after how many broadcasts it was opened. *)
Context (base since cut : Seq) (opened : list Frame) (spoken : nat).
Implicit Types h : Hub St.

(** What the subscriber is due. *)
Definition due h : list Frame := after since opened ++ drop spoken (hb_published h).

Record sub_ok h (s : Subscriber) : Prop := mk_sub_ok {
  so_durable : ∃ later, hb_durable h = opened ++ later ∧ ∀ f, f ∈ later → (cut ≤ fr_seq f)%N;
  so_cut : (cut ≤ hb_seq h + 1)%N;
  so_opened : ∀ f, f ∈ opened → (fr_seq f < cut)%N;
  so_spoken : spoken ≤ length (hb_published h);
  so_past : ∀ a c, sb_past s = Stored a c → a = since ∧ c = cut ∧ is_Some (hb_store h);
  so_hearing : hearing (after since opened) (due h) s;
}.

(** The store, read at any later time, gives the past the subscription was opened with. *)
Lemma read_past h s fault a c : journal_ok base h → sub_ok h s → sb_past s = Stored a c →
  (∃ frames, read_store h fault a = Ok frames ∧ retain (λ f, fr_seq f <? c)%N frames = after since opened)
  ∨ (∃ error, read_store h fault a = Err error).
Proof.
  intros Hok [(later & Hd & Hl) _ Ho _ Hp _] E. destruct (Hp _ _ E) as (-> & -> & _).
  unfold read_store. destruct fault as [error|]; [by right; exists error|]. destruct (hb_store h) as [st|] eqn:Est; [|by right; eexists].
  left. exists (after since (hb_durable h)). split; [by apply keeps_replay, (jo_store _ _ Hok)|].
  rewrite Hd, after_app, retain_app. rewrite retain_all, retain_none; [by rewrite app_nil_r| |].
  - intros f [Hf _]%elem_of_retain. apply N.ltb_ge. by apply Hl.
  - intros f [Hf _]%elem_of_retain. apply N.ltb_lt. by apply Ho.
Qed.

Lemma due_more h h' f : spoken ≤ length (hb_published h) → hb_published h' = hb_published h ++ [f] → due h' = due h ++ [f].
Proof. intros Hl E. unfold due. by rewrite E, drop_app_le, app_assoc. Qed.

(** A step that says nothing leaves the subscriber as it is. *)
Lemma sub_quiet h h' s s' : sub_ok h s →
  hb_durable h' = hb_durable h → (hb_seq h ≤ hb_seq h')%N → hb_published h' = hb_published h → hb_store h' = hb_store h →
  (∀ a c, sb_past s' = Stored a c → sb_past s = Stored a c) →
  (hearing (after since opened) (due h) s → hearing (after since opened) (due h) s') → sub_ok h' s'.
Proof.
  intros [Hd Hc Ho Hl Hp Hh] Ed Es Ep Et Hpast Hh'. split; rewrite ?Ed, ?Ep, ?Et; try done; [lia|by eauto|].
  unfold due. rewrite Ep. by apply Hh'.
Qed.

Lemma sub_speaks h h' s f : sub_ok h s → (hb_seq h ≤ hb_seq h')%N → hb_published h' = hb_published h ++ [f] →
  (is_Some (hb_store h) → is_Some (hb_store h')) →
  (hb_durable h' = hb_durable h ∨ hb_durable h' = hb_durable h ++ [f] ∧ fr_seq f = (hb_seq h + 1)%N) →
  sub_ok h' (fan_one f s).
Proof.
  intros [(later & Hd & Hlater) Hc Ho Hl Hp Hh] Es Ep Et Ed. pose proof (fan_one_same f s) as (_ & _ & Ea). split; try done.
  - destruct Ed as [->|[-> Ef]]; [by exists later|]. exists (later ++ [f]). split; [by rewrite Hd, app_assoc|].
    intros g [?| ->%list_elem_of_singleton]%elem_of_app; [by apply Hlater|lia].
  - lia.
  - rewrite Ep, length_app. lia.
  - rewrite Ea. intros a c (-> & -> & ?)%Hp. by auto.
  - rewrite (due_more _ _ _ Hl Ep). by apply hearing_fan.
Qed.

Lemma poll_past id now read s a c : sb_past (poll_one id now read s) = Stored a c → sb_past s = Stored a c.
Proof. unfold poll_one, deliver, set_poll. repeat case_match; simpl; congruence. Qed.

Lemma lookup_alter_some {A} (f : A → A) (l : list A) j k x : l !! k = Some x →
  ∃ y, alter f j l !! k = Some y ∧ (y = x ∨ y = f x).
Proof.
  intros E. rewrite list_lookup_alter. case_decide; subst; rewrite E; simpl; eauto.
Qed.

Lemma step_sub h h' k s : hub_step clock h h' → room base h' → journal_ok base h →
  hb_subs h !! k = Some s → sub_ok h s → ∃ s', hb_subs h' !! k = Some s' ∧ sub_ok h' s'.
Proof.
  intros Hs Hr Hok Ek Hsub. destruct Hs as [| |h e cause|h e cause Hq|h h' e cause f store E Hdur Hstore|h|h j w|h a|h j now fault|h j|h].
  - exists s. split; [done|]. by eapply sub_quiet.
  - exists s. split; [done|]. by eapply sub_quiet.
  - destruct (sequence clock h e cause) as [h' f] eqn:E. destruct (sequence_seq clock _ _ _ _ _ _ Hr Hok E) as (_ & Hseq & _).
    injection E as Eh' _. rewrite <- Eh' in *. exists s. split; [done|]. eapply sub_quiet; try done. simpl in *. lia.
  - destruct (sequence clock h e cause) as [h' f] eqn:E.
    assert (terminal_event clock h e cause = broadcast h' f) as Et by (unfold terminal_event; by rewrite E).
    rewrite Et in *. change (room base h') in Hr.
    destruct (sequence_seq clock _ _ _ _ _ _ Hr Hok E) as (Hf & Hseq & _). injection E as Eh' _. rewrite <- Eh' in *.
    exists (fan_one f s). split; [simpl; by rewrite list_lookup_fmap, Ek|].
    eapply sub_speaks; [done|simpl in *; lia|done|done|]. by left.
  - change (room base h') in Hr. destruct (sequence_seq clock _ _ _ _ _ _ Hr Hok E) as (Hf & Hseq & _).
    injection E as Eh' _. rewrite <- Eh' in *.
    exists (fan_one f s). split; [simpl; by rewrite list_lookup_fmap, Ek|].
    eapply sub_speaks; [done|simpl in *; lia|done| |].
    { simpl. destruct store as [st'|]; [by eauto|]. by rewrite Hstore. } right. split; [done|]. simpl in *. lia.
  - exists s. unfold checkpoint_write. case_match; [|done]. split; [done|]. by eapply sub_quiet.
  - exists s. unfold acknowledge. repeat case_match; try done; (split; [done|by eapply sub_quiet]).
  - exists s. split; [simpl; by apply lookup_app_l_Some|]. by eapply sub_quiet.
  - destruct (lookup_alter_some (poll_one (hb_id h) now (read_store h fault)) _ j _ _ Ek) as (y & Ey & [->| ->]);
      (eexists; split; [exact Ey|]); eapply sub_quiet; try done; [by apply poll_past|].
    intros Hh. apply hearing_poll; [|done]. intros a c Ea. by eapply read_past.
  - destruct (lookup_alter_some leave _ j _ _ Ek) as (y & Ey & [->| ->]);
      (eexists; split; [exact Ey|]); eapply sub_quiet; try done; [unfold leave; by case_match|]. apply hearing_leave.
  - exists (unhold s). split; [simpl; by rewrite list_lookup_fmap, Ek|]. eapply sub_quiet; try done. apply hearing_unhold.
Qed.

Lemma steps_sub h h' k s : rtc (hub_step clock) h h' → room base h' → journal_ok base h →
  hb_subs h !! k = Some s → sub_ok h s → ∃ s', hb_subs h' !! k = Some s' ∧ sub_ok h' s'.
Proof.
  intros Hs. revert s. induction Hs as [|h1 h2 h3 H12 H23 IH]; [by eauto|]. intros s Hr Hok Ek Hsub.
  assert (room base h2) as Hr2. { apply steps_taken in H23. unfold room in *. lia. }
  destruct (step_sub _ _ _ _ H12 Hr2 Hok Ek Hsub) as (s' & Es' & Hs'). eapply IH; try done. by eapply step_journal_ok.
Qed.

(** A reader polled again and again, while nothing else happens. *)
Lemma polls_iter n h k s now fault : hb_subs h !! k = Some s →
  hub_runs clock hash_order h (repeat (OpPoll k now fault) n) = set_subs h (alter (Nat.iter n (poll_one (hb_id h) now (read_store h fault))) k (hb_subs h)).
Proof.
  revert h s. induction n as [|n IH]; intros h s Ek; simpl.
  - rewrite list_alter_id by done. by destruct h.
  - unfold hub_runs in *. rewrite (IH _ (poll_one (hb_id h) now (read_store h fault) s)).
    + unfold poll_sub, set_subs, read_store. simpl. f_equal. rewrite list_alter_alter_eq.
      apply list_alter_ext; [|done]. intros x _. unfold compose. by rewrite <- Nat.iter_succ_r.
    + unfold poll_sub. simpl. by rewrite list_lookup_alter_eq, Ek.
Qed.
End delivery.

Section claims.
Context {St : Type} `{StoreLaws St}.
Context (clock : nat → Timestamp) (hash_order : gmap str PendingAsk → list str).
Implicit Types h : Hub St.

(** The subscription as it is opened. *)
Lemma subscribed base since h : journal_ok base h → room base h →
  sub_ok since (hb_seq h + 1) (hb_durable h) (length (hb_published h)) (subscribe h since)
    (subscriber_new (match hb_store h with
       | Some _ => if (since <? hb_checkpoint_seq h)%N then Stored since (seq_next (hb_seq h))
                   else Replay (retain (λ f, since <? fr_seq f)%N (hb_journal h))
       | None => Replay (retain (λ f, since <? fr_seq f)%N (hb_journal h))
       end)).
Proof.
  intros Hok Hr. assert (seq_next (hb_seq h) = hb_seq h + 1)%N as Enext.
  { unfold seq_next, u64_add. rewrite wrap_small; [done|]. rewrite (jo_seq _ _ Hok). unfold room in Hr. lia. }
  assert ((hb_checkpoint_seq h ≤ since)%N → retain (λ f, since <? fr_seq f)%N (hb_journal h) = after since (hb_durable h)) as Ej.
  { intros Hle. rewrite (jo_journal _ _ Hok). change (after since (after (hb_checkpoint_seq h) (hb_durable h)) = after since (hb_durable h)).
    by rewrite after_after, N.max_l. }
  destruct Hok as [Hs Ha Hd Hdl Hp Hpl Hst Hj Hc Hw Hn Hsp].
  split; simpl; try done.
  - exists []. rewrite app_nil_r. split; [done|]. by inversion 1.
  - intros f Hf%Hdl. lia.
  - intros a c. rewrite Enext. repeat case_match; intros; by simplify_eq/=.
  - unfold hearing, streaming, due. simpl. rewrite drop_all, app_nil_r. exists []. split; [|done]. rewrite app_nil_r.
    destruct (hb_store h) eqn:E; [destruct (N.ltb_spec since (hb_checkpoint_seq h))|]; simpl; [done|by apply Ej|].
    apply Ej. destruct (Hn eq_refl) as [-> _]. lia.
Qed.

Lemma opened_sub base since h ops : journal_ok base h →
  let h' := hub_runs clock hash_order (subscribe h since) ops in room base h' →
  journal_ok base h' ∧ ∃ s, hb_subs h' !! length (hb_subs h) = Some s
    ∧ sub_ok since (hb_seq h + 1) (hb_durable h) (length (hb_published h)) h' s.
Proof.
  intros Hok h' Hr. pose proof (steps_runs clock hash_order ops (subscribe h since)) as Hsteps.
  assert (room base h) as Hr0. { apply steps_taken in Hsteps. change (hb_taken (subscribe h since)) with (hb_taken h) in Hsteps. unfold room in *. fold h' in Hsteps. lia. }
  assert (journal_ok base (subscribe h since)) as Hok1 by (eapply same_journal_ok; [|exact Hok]; by repeat split).
  split; [by eapply steps_journal_ok|]. eapply steps_sub; [done..| |by apply (subscribed base)].
  unfold subscribe. simpl. rewrite lookup_app_r, Nat.sub_diag by done. done.
Qed.

(** C6: Whatever a session does, as long as its sequence numbers do not run out:
    the store replays every frame the session journaled, in order; the frames
    kept in memory are those after the last acknowledged checkpoint; sequence
    numbers strictly increase, among the journaled frames and among the
    broadcast ones; and until the mailbox closes, the durable frames the
    subscribers were offered are exactly the journaled ones, so that nothing
    durable is heard that a restart would not replay. *)
Theorem journal_is_written_first base h ops : journal_ok base h →
  let h' := hub_runs clock hash_order h ops in room base h' →
  (∀ st since, hb_store h' = Some st → store_replay st (hb_id h') since = Ok (after since (hb_durable h')))
  ∧ hb_journal h' = after (hb_checkpoint_seq h') (hb_durable h')
  ∧ increasing 0 (hb_durable h') ∧ increasing base (hb_published h')
  ∧ (hb_serving h' = true →
     after base (hb_durable h') = retain (λ f, is_durable (fr_event f)) (hb_published h')).
Proof.
  intros Hok h' Hr. assert (journal_ok base h') as Hok'.
  { eapply steps_journal_ok; [apply steps_runs|done|done]. }
  split_and!; [|apply Hok'..]. intros st since E. by apply keeps_replay, (jo_store _ _ Hok').
Qed.

(** C11: A subscriber that asked for the frames after [since] is handed the
    journaled ones, whether from memory or read from the store at its leisure,
    and then those broadcast from then on, each once and in order, from the
    first; where it stops being handed them, the last it gets is a [Lagged]
    marker, after which there is nothing, or it left, or the session let go of
    it.  One that is held, has no gap and has read its queue has heard all. *)
Theorem subscriber_hears_in_order base since h ops : journal_ok base h →
  let h' := hub_runs clock hash_order (subscribe h since) ops in room base h' →
  let due := after since (hb_durable h) ++ drop (length (hb_published h)) (hb_published h') in
  ∃ s, hb_subs h' !! length (hb_subs h) = Some s
    ∧ (sb_delivered s `prefix_of` due
       ∨ marked due (sb_delivered s) ∧ (is_over s = true ∨ sb_poll s = Leaving))
    ∧ (awake s = true → sb_past s = Replay [] → sb_queue s = [] → sb_delivered s = due).
Proof.
  intros Hok h' Hr. destruct (opened_sub base since h ops Hok Hr) as (_ & s & Es & [_ _ _ _ _ Hh]).
  simpl. exists s. split; [done|]. change (after since (hb_durable h) ++ _) with (due since (hb_durable h) (length (hb_published h)) h').
  unfold hearing in Hh. unfold is_over, awake. split.
  - destruct (sb_poll s) as [| | | |[]]; try (left; by eapply streaming_prefix); [right; naive_solver| |by left|right; naive_solver].
    destruct Hh as [?|?]; [right; naive_solver|by left].
  - destruct (sb_held s) eqn:Eh, (sb_poll s) eqn:Ep, (sb_lag s) eqn:El; try done; intros _ Epast Eq;
      destruct Hh as (missed & Hm & Hnil); rewrite (Hnil Eh El), Epast, Eq in Hm; simpl in Hm; by rewrite app_nil_r in Hm.
Qed.

(** A reader that is not behind hears everything: polled as often as it has
    frames to read, with a store that answers, it has been handed all that was
    journaled and broadcast for it. *)
Theorem reader_catches_up base since h ops now n s : journal_ok base h →
  let h' := hub_runs clock hash_order (subscribe h since) ops in room base h' →
  let k := length (hb_subs h) in
  hb_subs h' !! k = Some s → awake s = true →
  unread (after since (hb_durable h)) s ≤ n →
  sb_delivered <$> hb_subs (hub_runs clock hash_order h' (repeat (OpPoll k now None) n)) !! k
  = Some (after since (hb_durable h) ++ drop (length (hb_published h)) (hb_published h')).
Proof.
  intros Hok h' Hr k Ek Ha Hn. destruct (opened_sub base since h ops Hok Hr) as (Hok' & s' & Es & Hsub).
  fold h' k in Es, Hsub, Hok'. rewrite Ek in Es. injection Es as <-.
  erewrite polls_iter by done. simpl. rewrite list_lookup_alter_eq, Ek. simpl. f_equal.
  destruct Hsub as [Hd Hc Ho Hl Hp Hh]. rewrite (polls_finish _ _ _ (after since (hb_durable h))); [|intros a c E|done|done].
  - unfold awake in Ha. destruct (sb_held s) eqn:Eh, (sb_poll s) eqn:Ep, (sb_lag s) eqn:El; try done;
      unfold hearing in Hh; rewrite Ep in Hh; destruct Hh as (missed & Hm & Hnil); rewrite (Hnil Eh El), app_nil_r in Hm; exact Hm.
  - destruct (read_past base since _ _ _ h' s None a c Hok' (mk_sub_ok _ _ _ _ _ _ Hd Hc Ho Hl Hp Hh) E) as [?|[error Er]]; [done|].
    destruct (Hp _ _ E) as (_ & _ & [st Est]). unfold read_store in Er. rewrite Est in Er.
    by rewrite (keeps_replay _ _ _ _ (jo_store _ _ Hok' _ Est)) in Er.
Qed.

(** What a run of terminal events does: says them, and nothing else. *)
Lemma terminals_say {A} (e : A → Event) (cause : A → option IntentId) (l : list A) h :
  let h' := foldl (λ h x, terminal_event clock h (e x) (cause x)) h l in
  fr_event <$> hb_published h' = (fr_event <$> hb_published h) ++ (e <$> l)
  ∧ hb_store h' = hb_store h ∧ hb_journal h' = hb_journal h ∧ hb_durable h' = hb_durable h ∧ hb_bench h' = hb_bench h.
Proof.
  revert h. induction l as [|x l IH]; intros h; simpl; [by rewrite app_nil_r|].
  destruct (IH (terminal_event clock h (e x) (cause x))) as (-> & -> & -> & -> & ->). simpl.
  by rewrite fmap_app, <- app_assoc.
Qed.

Lemma drained_all (order : gmap str PendingAsk → list str) m : order m ≡ₚ (map_to_list m).*1 →
  (drained order m).*1 ≡ₚ (map_to_list m).*1.
Proof.
  intros Ho. unfold drained. assert (∀ ids, (∀ id, id ∈ ids → is_Some (m !! id)) → (omap (λ id, pair id <$> m !! id) ids).*1 = ids) as Hids.
  { induction ids as [|id ids IH]; intros Hall; simpl; [done|]. destruct (Hall id) as [p ->]; [by left|]. simpl. f_equal.
    apply IH. intros ??. apply Hall. by right. }
  rewrite Hids; [done|]. intros id. rewrite Ho. intros (p & -> & Hp)%list_elem_of_fmap. destruct p as [i p].
  apply elem_of_map_to_list in Hp. by exists p.
Qed.

Lemma applied_closed s f reason : (st_seq s < fr_seq f)%N → fr_event f = SessionClosed reason →
  st_closed (apply s f).1 = true.
Proof.
  intros Hlt E. rewrite apply_admitted; [|done|by rewrite E]. rewrite E. unfold apply_event. simpl. by destruct s.
Qed.

Lemma room_le base h h' : room base h' → hb_taken h ≤ hb_taken h' → room base h.
Proof. unfold room. lia. Qed.

Lemma close_says base h reason : let h' := clear_subs (terminal_event clock h (SessionClosed reason) None) in
  journal_ok base h → room base h' →
  hb_store h' = hb_store h ∧ hb_journal h' = hb_journal h ∧ hb_durable h' = hb_durable h ∧ hb_serving h' = hb_serving h
  ∧ st_closed (hb_state h') = true ∧ hb_bench h' = hb_bench h
  ∧ fr_event <$> hb_published h' = (fr_event <$> hb_published h) ++ [SessionClosed reason]
  ∧ Forall (λ s, sb_held s = false) (hb_subs h').
Proof.
  intros h' Hok Hr. unfold h', terminal_event in *. clear h'. destruct (sequence clock h _ _) as [h' f] eqn:E.
  change (room base h') in Hr. destruct (sequence_fresh clock _ _ _ _ _ _ Hr Hok E) as [_ Hf Hst _ _ _ _].
  injection E as Eh Ef. rewrite <- Eh, <- Ef in *. split_and!; [done..| |done| |]; simpl.
  - by apply (applied_closed _ _ reason).
  - by rewrite fmap_app.
  - apply Forall_fmap, Forall_true. done.
Qed.

Lemma refusals_heard h error : let h' := storage_refusals clock hash_order h error in
  hb_store h' = hb_store h ∧ hb_journal h' = hb_journal h ∧ hb_durable h' = hb_durable h
  ∧ dk_running (hb_bench h') = None ∧ q_entries (dk_queue (hb_bench h')) = [] ∧ dk_pending (hb_bench h') = ∅
  ∧ dk_replies (hb_bench h') = dk_replies (hb_bench h) ++ ((λ p, (p.1, Err error)) <$> drained hash_order (dk_pending (hb_bench h)))
  ∧ fr_event <$> hb_published h' = (fr_event <$> hb_published h) ++ [Notice Error (lit "STORAGE") (ke_message error)]
      ++ ((λ w, rejected w.1 error) <$> (unpack <$> q_entries (dk_queue (hb_bench h)))).
Proof.
  unfold storage_refusals. cbv zeta.
  set (h1 := remember_stopped_ask (stop_serving h)).
  assert (hb_store h1 = hb_store h ∧ hb_journal h1 = hb_journal h ∧ hb_durable h1 = hb_durable h ∧ hb_published h1 = hb_published h
    ∧ dk_queue (hb_bench h1) = dk_queue (hb_bench h) ∧ dk_pending (hb_bench h1) = dk_pending (hb_bench h)
    ∧ dk_replies (hb_bench h1) = dk_replies (hb_bench h)) as (E1 & E2 & E3 & E4 & E5 & E6 & E7).
  { unfold h1, remember_stopped_ask. by destruct (dk_running _). }
  clearbody h1. unfold drain_all. set (h2 := terminal_event _ _ _ _).
  assert (dk_running (hb_bench h2) = None) as E8 by done.
  destruct (terminals_say (λ w, rejected w.1 error) (λ w, Some w.1) (unpack <$> q_entries (dk_queue (hb_bench h2))) h2)
    as (F1 & F2 & F3 & F4 & F5). simpl in *. rewrite F1, F2, F3, F4, F5. simpl. rewrite E1, E2, E3, E4, E5, E6, E7.
  split_and!; try done. by rewrite fmap_app, <- app_assoc.
Qed.

Lemma refusals_replies (order : gmap str PendingAsk → list str) m (error : KernelError) : (∀ m, order m ≡ₚ (map_to_list m).*1) →
  (λ p, (p.1, Err (A := Answered) error)) <$> drained order m ≡ₚ (λ id, (id, Err error)) <$> (map_to_list m).*1.
Proof. intros Ho. rewrite <- (drained_all order m) by apply Ho. by rewrite <- list_fmap_compose. Qed.

Lemma publish_refused h e cause st error : is_durable e = true → hb_store h = Some st →
  store_append st (hb_id h) (sequence clock h e cause).2 = Err error →
  publish clock hash_order h e cause = (storage_failed clock hash_order (sequence clock h e cause).1 error, Err error).
Proof. intros Hd Est Ea. unfold publish, sequence in *. simpl in *. by rewrite Hd, Est, Ea. Qed.

(** A durable event the store refuses is neither journaled nor heard of.  The
    session closes instead: it serves no more messages, no turn runs, each ask
    still open gets the error as its one reply, the waiting inputs are refused
    one by one in order, and what the subscribers are told is the failure, the
    refusals and the close, after which the session has let go of them all. *)
Theorem storage_failure_closes base h e cause st error :
  (∀ m, hash_order m ≡ₚ (map_to_list m).*1) → journal_ok base h → room base (publish clock hash_order h e cause).1 →
  is_durable e = true → hb_store h = Some st → store_append st (hb_id h) (sequence clock h e cause).2 = Err error →
  let '(h', r) := publish clock hash_order h e cause in
  let waiting := unpack <$> q_entries (dk_queue (hb_bench h)) in
  r = Err error ∧ hb_store h' = Some st ∧ hb_journal h' = hb_journal h ∧ hb_durable h' = hb_durable h
  ∧ hb_serving h' = false ∧ st_closed (hb_state h') = true
  ∧ dk_running (hb_bench h') = None ∧ q_entries (dk_queue (hb_bench h')) = [] ∧ dk_pending (hb_bench h') = ∅
  ∧ (∃ replies, dk_replies (hb_bench h') = dk_replies (hb_bench h) ++ replies
       ∧ replies ≡ₚ (λ id, (id, Err error)) <$> (map_to_list (dk_pending (hb_bench h))).*1)
  ∧ fr_event <$> hb_published h' = (fr_event <$> hb_published h) ++ [Notice Error (lit "STORAGE") (ke_message error)]
      ++ ((λ w, rejected w.1 error) <$> waiting) ++ [SessionClosed (CloseError (ke_message error))]
  ∧ Forall (λ s, sb_held s = false) (hb_subs h').
Proof.
  intros Ho Hok Hr Hd Est Ea. rewrite (publish_refused _ _ _ _ _ Hd Est Ea) in *. cbn [fst] in Hr.
  pose proof (hs_skip clock h e cause) as Hskip.
  destruct (sequence clock h e cause) as [h0 f] eqn:E. cbn [fst snd] in *.
  assert (hb_store h0 = hb_store h ∧ hb_journal h0 = hb_journal h ∧ hb_durable h0 = hb_durable h
    ∧ hb_bench h0 = hb_bench h ∧ hb_published h0 = hb_published h) as (E1 & E3 & E4 & E5 & E6) by by injection E as <- _.
  clear E. destruct (refusals_heard h0 error) as (F1 & F2 & F3 & F4 & F5 & F6 & F7 & F8).
  destruct (steps_storage_refusals clock hash_order h0 error) as [Hsteps Hserve]. unfold storage_failed in *.
  assert (rtc (hub_step clock) h (storage_refusals clock hash_order h0 error)) as Hall by by eapply rtc_l.
  clear Hsteps Hskip. revert Hr Hserve Hall F1 F2 F3 F4 F5 F6 F7 F8. generalize (storage_refusals clock hash_order h0 error).
  intros h1 Hr Hserve Hall F1 F2 F3 F4 F5 F6 F7 F8.
  destruct (close_says base h1 (CloseError (ke_message error))) as (G1 & G2 & G3 & G4 & G5 & G6 & G7 & G8); [|exact Hr|].
  { eapply steps_journal_ok; [exact Hall| |exact Hok]. eapply room_le; [exact Hr|]. apply Nat.le_succ_diag_r. }
  rewrite G1, G2, G3, G4, G5, G6, G7, F1, F2, F3, F4, F5, F6, F7, F8, E1, E3, E4, E6, <- E5, <- !app_assoc. split_and!; try done.
  eexists. split; [done|]. by apply refusals_replies.
Qed.
End claims.

(** ** Runs *)

Definition demo_clock (n : nat) : Timestamp := Z.of_nat n.
Definition demo_order (m : gmap str PendingAsk) : list str := (map_to_list m).*1.
Definition demo_bench : Bench := bench_new.
Definition demo_hub (store : option (gmap str Entry)) : Hub (gmap str Entry) :=
  mkHub (lit "ses_1") 0 demo_state [] 0 [] store [] demo_bench true [] [] 0.
Definition demo_store : gmap str Entry := memory_create ∅ (demo_summary (lit "ses_1") None).
Definition demo_run : Hub (gmap str Entry) → list Op → Hub (gmap str Entry) := hub_runs demo_clock demo_order.
Definition chatter : Op := OpPublish (Notice Info (lit "n") (lit "m")) None.
Definition demo_poll : Op := OpPoll 0 0%Z None.

Lemma demo_hub_ok : journal_ok 0 (demo_hub (Some demo_store)).
Proof. by split; simpl; try done; try (by inversion 1); intros ? [= <-]. Qed.

(** The markers of lag can be wrong in two ways.  A reader behind by more than
    the queue holds when its session closes is handed the frames that were queued
    and then the end of the stream: the frames it missed, the close among them,
    leave no marker.  And a reader that found its queue empty and, before it looks
    at the gap, falls behind by more than the queue holds is told it missed frames
    from 257 on; it is never handed the 256 before them. *)
Theorem lag_is_misreported :
  (let h := demo_run (subscribe (demo_hub None) 0) (repeat chatter 300 ++ [OpPublish (SessionClosed CloseShutdown) None; OpClear] ++ repeat demo_poll 300) in
   ∃ s, hb_subs h !! 0 = Some s ∧ sb_poll s = Over Disconnected ∧ sb_lag s = Some (257%N, 301%N)
     ∧ fr_seq <$> sb_delivered s = N.of_nat <$> seq 1 256 ∧ existsb (λ f, is_lagged (fr_event f)) (sb_delivered s) = false
     ∧ length (hb_published h) = 301)
  ∧ (let h := demo_run (subscribe (demo_hub None) 0) ([demo_poll] ++ repeat chatter 257 ++ repeat demo_poll 300) in
     ∃ s, hb_subs h !! 0 = Some s ∧ sb_poll s = Over AtMarker
       ∧ fr_event <$> sb_delivered s = [Lagged 257 257] ∧ length (hb_published h) = 257).
Proof. split; eexists; (split; [vm_compute; reflexivity|vm_compute; done]). Qed.

Definition demo_ops : list Op :=
  [OpPublish (SessionUpdated (demo_summary (lit "ses_1") None)) None; chatter;
   OpPublish (Compacted 1 (lit "a") (lit "b") []) None; OpCheckpointed 0 true;
   OpPublish (Extension (lit "p") (lit "k") (VBool true)) None].

Lemma journal_is_written_first_witness :
  let h := demo_run (demo_hub (Some demo_store)) demo_ops in
  fr_seq <$> hb_durable h = [1; 3; 4]%N ∧ fr_seq <$> hb_journal h = [4]%N ∧ hb_checkpoint_seq h = 3%N
  ∧ hb_journal h = after (hb_checkpoint_seq h) (hb_durable h).
Proof.
  split_and!; [by vm_compute..|].
  refine (proj1 (proj2 (journal_is_written_first demo_clock demo_order 0 (demo_hub (Some demo_store)) demo_ops demo_hub_ok _))).
  by vm_compute.
Defined.

(** One that subscribes after the checkpoint reads the store while frames go on. *)
Definition demo_late : Hub (gmap str Entry) := demo_run (demo_hub (Some demo_store)) demo_ops.
Definition demo_reading : list Op := [chatter; demo_poll; chatter] ++ repeat demo_poll 5.

Lemma demo_late_ok : journal_ok 0 demo_late.
Proof.
  eapply (steps_journal_ok demo_clock); [apply (steps_runs demo_clock demo_order)| |apply demo_hub_ok]. by vm_compute.
Qed.

Lemma subscriber_hears_in_order_witness :
  let h := demo_run (subscribe demo_late 0) demo_reading in
  (sb_past <$> (hb_subs (subscribe demo_late 0) !! 0) = Some (Stored 0 5))
  ∧ (λ s, fr_seq <$> sb_delivered s) <$> hb_subs h !! 0 = Some [1; 3; 4; 5; 6]%N
  ∧ ∃ s, hb_subs h !! 0 = Some s
      ∧ (sb_delivered s `prefix_of` after 0 (hb_durable demo_late) ++ drop (length (hb_published demo_late)) (hb_published h)
         ∨ marked (after 0 (hb_durable demo_late) ++ drop (length (hb_published demo_late)) (hb_published h)) (sb_delivered s)
           ∧ (is_over s = true ∨ sb_poll s = Leaving)).
Proof.
  split_and!; [by vm_compute..|].
  destruct (subscriber_hears_in_order demo_clock demo_order 0 0 demo_late demo_reading demo_late_ok) as (s & Es & Hs & _);
    [by vm_compute|]. exists s. split; [exact Es|exact Hs].
Defined.

Lemma reader_catches_up_witness :
  let h := demo_run (subscribe demo_late 0) [chatter; chatter] in
  (λ s, fr_seq <$> sb_delivered s) <$> hb_subs h !! 0 = Some []
  ∧ sb_delivered <$> hb_subs (demo_run h (repeat demo_poll 18)) !! 0
    = Some (after 0 (hb_durable demo_late) ++ drop (length (hb_published demo_late)) (hb_published h)).
Proof.
  split; [by vm_compute|].
  eapply (reader_catches_up demo_clock demo_order 0 0 demo_late [chatter; chatter] 0 18 _ demo_late_ok);
    [by vm_compute|vm_compute; reflexivity|by vm_compute|]. vm_compute. lia.
Defined.

(** A store whose disk is full from the third append on. *)
Definition full_append (m : nat * gmap str Entry) (id : SessionId) (f : Frame) : result KernelError (nat * gmap str Entry) :=
  match m.1 with
  | O => Err (mkKernelError Storage (lit "disk full"))
  | S n => let* m' := memory_append m.2 id f in Ok (n, m')
  end.
#[local] Instance full_store : SessionStore (nat * gmap str Entry) := {
  store_append := full_append;
  store_replay m := memory_replay m.2;
}.
#[local, refine] Instance full_laws : StoreLaws (nat * gmap str Entry) := {
  store_keeps m id frames := store_keeps m.2 id frames;
}.
Proof.
  - intros m id frames since. exact (keeps_replay (St := gmap str Entry) m.2 id frames since).
  - intros [n m] [n' m'] id f frames Hd. unfold store_append, full_store, full_append; simpl.
    destruct n; [done|]. destruct (memory_append m id f) as [m''|] eqn:E; simpl; [|done]. intros [= <- <-].
    exact (keeps_append (St := gmap str Entry) _ _ _ _ _ Hd E).
Defined.

Definition demo_ask (id : str) : PendingAsk :=
  mkPendingAsk (mkInteraction id (lit "ses_1") (Some (lit "t1")) None 0 None None (KConfirm (lit "go?") (lit "")) []) false.
Definition demo_full : Hub (nat * gmap str Entry) :=
  mkHub (lit "ses_1") 0 demo_state [] 0 [] (Some (0, demo_store)) [subscriber_new (Replay [])]
    (mkBench (Some (mkRunning (lit "t1") None false)) (mkCommands ∅ None) demo_queue (mkInputGate [] None) None 0
       (<[lit "i1" := demo_ask (lit "i1")]> (<[lit "i2" := demo_ask (lit "i2")]> ∅)) []) true [] [] 0.
Lemma demo_full_ok : journal_ok 0 demo_full.
Proof. by split; simpl; try done; try (by inversion 1); intros ? [= <-]. Qed.

Lemma storage_failure_closes_witness :
  let e := Extension (lit "p") (lit "k") (VBool true) in
  let h' := (publish demo_clock demo_order demo_full e None).1 in
  length (hb_published h') = 5 ∧ st_closed (hb_state h') = true ∧ dk_replies (hb_bench h') ≡ₚ
    [(lit "i1", Err (mkKernelError Storage (lit "disk full"))); (lit "i2", Err (mkKernelError Storage (lit "disk full")))].
Proof.
  intros e h'. split; [by vm_compute|].
  pose proof (storage_failure_closes demo_clock demo_order 0 demo_full e None (0, demo_store) (mkKernelError Storage (lit "disk full"))
    (λ m, Permutation_refl _) demo_full_ok) as H.
  assert (room 0 h') as Hr by by vm_compute. specialize (H Hr eq_refl eq_refl eq_refl).
  fold h' in H. subst h'. destruct (publish demo_clock demo_order demo_full e None) as [h' r]. simpl in *.
  destruct H as (_ & _ & _ & _ & _ & Hc & _ & _ & _ & (replies & Hr' & Hp) & _). split; [exact Hc|].
  rewrite Hr', Hp. vm_compute. apply Permutation_swap.
Defined.
