(* ===== verification/Restart.v ===== *)
(** * Restart: an actor from nothing, or from its journal

    [bingo-core/src/session/spawn.rs].  A session is spawned from a summary or
    resumed from what the store hands back, the frames of its journal or a
    checkpoint with the frames after it; the actor that comes of it goes on from
    the last sequence number.  The theorems close the circle with [Hub]: what a
    running session journaled is what its successor starts from. *)

From S2P Require Import Prelude Text Model Interaction Event Transcript State Tree Recovery Queue Gate Commands Store Hub.

(** ** Definitions *)

(** [bingo-sdk/src/store.rs]. *)
Record Resumed := mkResumed { rs_state : option SessionState; rs_tail : list Frame }.

Definition head_summary (frames : list Frame) : result KernelError SessionSummary :=
  match fr_event <$> head frames with
  | Some (SessionUpdated summary) => Ok summary
  | _ => Err (mkKernelError Storage (lit "the journal does not start with the session's summary"))
  end.

Definition fold_resumed (resumed : Resumed) : result KernelError SessionState :=
  let* state := match rs_state resumed with
                | Some state => Ok state
                | None => let* head := head_summary (rs_tail resumed) in Ok (state_new head)
                end in
  Ok (fold_frames state (rs_tail resumed)).

Definition replayed (frames : list Frame) : result KernelError SessionState :=
  let* head := head_summary frames in Ok (fold_frames (state_new head) frames).

Section spawn.
Context {St : Type} `{SessionStore St}.

(** [spawn_with]; the log of what is durable is what the store holds. *)
Definition spawn_with (state : SessionState) (journal : list Frame) (checkpoint_seq : Seq) (store : option St) : Hub St :=
  let id := ss_id (st_summary state) in
  let durable := match store with
                 | Some st => match store_replay st id 0%N with Ok frames => frames | Err _ => journal end
                 | None => journal
                 end in
  mkHub id (st_seq state) state journal checkpoint_seq [] store [] bench_new true [] durable 0.

Definition spawn (summary : SessionSummary) (store : option St) : Hub St := spawn_with (state_new summary) [] 0%N store.

Definition resume_checkpoint (resumed : Resumed) (store : option St) : result KernelError (Hub St) :=
  let checkpoint_seq := match rs_state resumed with Some state => st_seq state | None => 0%N end in
  let* state := fold_resumed resumed in
  let state := if (0 <? checkpoint_seq)%N then set_transcript (drop_before_cut (st_transcript state)) state else state in
  let state := set_signals ∅ state in
  Ok (spawn_with state (rs_tail resumed) checkpoint_seq store).

Definition resume (frames : list Frame) (store : option St) : result KernelError (Hub St) :=
  resume_checkpoint (mkResumed None frames) store.

(** The first thing [run] does. *)
Definition run_start (h : Hub St) : Hub St :=
  if (0 <? hb_seq h)%N && (hb_checkpoint_seq h =? 0)%N then checkpoint_write h else h.
End spawn.

(** ** Lemmas *)

Section restart.
Context {St : Type} `{StoreLaws St}.
Context (clock : nat → Timestamp) (hash_order : gmap str PendingAsk → list str).
Implicit Types h : Hub St.

Lemma durable_not_lagged e : is_durable e = true → is_lagged e = false.
Proof. by destruct e. Qed.

Lemma fold_seq_last s fs : increasing (st_seq s) fs → (∀ f, f ∈ fs → is_lagged (fr_event f) = false) →
  (st_seq s ≤ st_seq (fold_frames s fs))%N ∧ ∀ f, f ∈ fs → (fr_seq f ≤ st_seq (fold_frames s fs))%N.
Proof.
  intros Hi Hl. split; [|by apply fold_seq_max]. revert s Hi. induction fs as [|f fs IH]; intros s; simpl; [done|].
  intros [Hlt Hi]. assert (st_seq (apply s f).1 = fr_seq f) as Ef.
  { rewrite apply_seq by done. by rewrite Hl by by left. }
  assert (st_seq (apply s f).1 ≤ st_seq (fold_frames (apply s f).1 fs))%N as Hle.
  { apply IH; [|by rewrite Ef]. intros g Hg. apply Hl. by right. }
  unfold fold_frames in *. simpl. lia.
Qed.

(** A hub that has not released a checkpoint since it started from [s0] has
    folded everything it broadcast. *)
Definition folded (c0 : Seq) (s0 : SessionState) h : Prop :=
  (c0 ≤ hb_checkpoint_seq h)%N ∧ (hb_checkpoint_seq h = c0 → hb_state h = fold_frames s0 (hb_published h)).

Lemma step_folded c0 s0 h h' : hub_step clock h h' → folded c0 s0 h → folded c0 s0 h'.
Proof.
  assert (∀ f (x : Hub St), hb_state x = fold_frames s0 (hb_published x) →
    hb_state (broadcast x f) = fold_frames s0 (hb_published (broadcast x f))) as Hb.
  { intros f x E. simpl. unfold fold_frames. rewrite foldl_app. simpl. by rewrite E. }
  intros Hs [Hle Hf]. destruct Hs as [| |h e cause|h e cause Hq|h h' e cause f store E Hdur Hstore|h|h k w| | | |]; try by split.
  - split; [done|]. intros Hc. by apply Hb, Hf.
  - injection E as <- <-. split; [done|]. intros Hc. apply (Hb _ (journal_frame _ _ _)), Hf, Hc.
  - unfold checkpoint_write. by case_match.
  - unfold acknowledge. destruct (hb_writing h !! k) as [q|]; [|done].
    destruct (w && (hb_checkpoint_seq h <? q)%N) eqn:Eq; [|done]. apply andb_true_iff in Eq as [_ Hlt%N.ltb_lt].
    split; simpl; [lia|]. intros ->. lia.
Qed.

Lemma steps_folded c0 s0 h h' : rtc (hub_step clock) h h' → folded c0 s0 h → folded c0 s0 h'.
Proof. induction 1; eauto using step_folded. Qed.

Lemma step_id h h' : hub_step clock h h' → hb_id h' = hb_id h.
Proof. destruct 1; try done; [by injection H1 as <- <-|unfold checkpoint_write|unfold acknowledge]; by repeat case_match. Qed.

Lemma steps_id h h' : rtc (hub_step clock) h h' → hb_id h' = hb_id h.
Proof. induction 1 as [|??? Hs%step_id]; congruence. Qed.

Lemma increasing_after a c fs : increasing a fs → increasing c (after c fs).
Proof.
  assert (∀ fs a c, (c ≤ a)%N → increasing a fs → increasing c fs) as Hweak.
  { intros [|f l] x y Hle; simpl; [done|]. intros [? ?]. split; [lia|done]. }
  assert (∀ fs a, increasing a fs → after a fs = fs) as Hid.
  { intros l x Hi. apply after_all. intros f Hf. by eapply increasing_all. }
  revert a. induction fs as [|f fs IH]; intros a; simpl; [done|]. intros [Hlt Hi].
  destruct (N.ltb_spec c (fr_seq f)); [|by eapply IH]. simpl. split; [done|]. fold (after c fs).
  assert (after c fs = fs) as ->; [|done]. apply after_all. intros g Hg. pose proof (increasing_all _ _ g Hi Hg). lia.
Qed.

(** What is resumed from what a store holds is a hub in order. *)
Lemma resumed_ok resumed st h all : resume_checkpoint resumed (Some st) = Ok h →
  let c := match rs_state resumed with Some state => st_seq state | None => 0%N end in
  store_keeps st (hb_id h) all → increasing 0 all → (∀ f, f ∈ all → is_durable (fr_event f) = true) →
  rs_tail resumed = after c all → journal_ok (hb_seq h) h.
Proof.
  unfold resume_checkpoint. destruct (fold_resumed resumed) as [s|] eqn:Ef; [|done]. cbn [rbind]. cbv zeta.
  set (c := match rs_state resumed with Some state => st_seq state | None => 0%N end). intros [= <-] Hst Hi Hd Ht.
  assert (∃ s0, st_seq s0 = c ∧ s = fold_frames s0 (rs_tail resumed)) as (s0 & Es0 & ->).
  { unfold fold_resumed in Ef. unfold c. destruct (rs_state resumed) as [s0|]; simpl in Ef; [injection Ef as <-; by exists s0|].
    destruct (head_summary _) as [head|]; simpl in Ef; [|done]. injection Ef as <-. by exists (state_new head). }
  destruct (fold_seq_last s0 (rs_tail resumed)) as [Hc Hle].
  { rewrite Es0, Ht. by eapply increasing_after. }
  { intros f. rewrite Ht. intros [Hf _]%elem_of_retain. by apply durable_not_lagged, Hd. }
  set (s := set_signals _ _) in *. assert (st_seq s = st_seq (fold_frames s0 (rs_tail resumed))) as Es.
  { unfold s. case_match; by destruct (fold_frames _ _). }
  assert (∀ f, f ∈ all → (fr_seq f ≤ st_seq s)%N) as Hall.
  { intros f Hf. rewrite Es. destruct (N.leb_spec (fr_seq f) c); [lia|]. apply Hle. rewrite Ht. apply elem_of_retain.
    split; [done|]. by apply N.ltb_lt. }
  clearbody s c. unfold spawn_with in *. simpl in *.
  rewrite (keeps_replay _ _ _ _ Hst), (after_all 0 all) by (intros g; by apply increasing_all). split; simpl; try done.
  - lia.
  - by inversion 1.
  - by intros st0 [= <-].
  - lia.
  - intros _. by apply after_none.
Qed.

Lemma spawned_ok summary st : store_keeps st (ss_id summary) [] → journal_ok 0 (spawn summary (Some st)).
Proof.
  intros E. unfold spawn, spawn_with. simpl. rewrite (keeps_replay _ _ _ _ E). split; simpl; try done; try (by inversion 1); by intros ? [= <-].
Qed.

Lemma head_restated summary head f rest : fr_event f = SessionUpdated head → (0 < fr_seq f)%N →
  first_ask (ss_history head) = option_or (first_ask (ss_history summary)) (first_ask (ss_history head)) →
  fold_frames (state_new head) (f :: rest) = fold_frames (state_new summary) (f :: rest).
Proof.
  intros E Hpos Hask. unfold fold_frames. simpl. f_equal. rewrite !apply_admitted by (done || by rewrite E). rewrite E.
  unfold apply_event. simpl. unfold session_updated. simpl. rewrite <- Hask. by destruct (first_ask (ss_history head)).
Qed.

End restart.

(** ** Witness *)

Definition demo_life : list Op :=
  [OpPublish (SessionUpdated (demo_summary (lit "ses_1") None)) None; chatter;
   OpPublish (Extension (lit "p") (lit "k") (VBool true)) None].
Definition demo_lived : Hub (gmap str Entry) := demo_run (spawn (demo_summary (lit "ses_1") None) (Some demo_store)) demo_life.

