(* ===== verification/Jsonl.v ===== *)
(** * Jsonl: the journal on disk

    [bingo-store-jsonl/src/journal.rs] with [journal/writer.rs] and
    [journal/migrate.rs], [checkpoint.rs] and [checkpoint/witness.rs].  A session's
    directory is its journal, its checkpoint and its blobs; a file is a list of
    bytes.  A write may stop anywhere, at an error or a crash: each takes how many
    bytes reached the file.  JSON text is serde's ([JsonText]); what [record.rs]
    makes of a frame, with its pictures put aside as blobs, is the interface
    [Records]. *)

From S2P Require Import Prelude Text Digest Model CommandLine Interaction Event Transcript State PermPath PermRule PermDecide Chain Catalogue Tree Store Restart.

Definition storage (message : str) : KernelError := mkKernelError Storage message.
Definition newline : N := 10%N.

(** ** Text *)

(** [from_slice] and [to_string]; [shape_error] is what serde says of a line that is
    JSON of another shape than asked for. *)
Class JsonText := {
  json_parse : bytes → result str Value;
  json_text : Value → bytes;
  shape_error : bytes → str;
}.

Abbreviation Blobs := (gmap str bytes).

(** A checkpoint ([bingo-sdk/src/store/checkpoint.rs]). *)
Record Checkpoint := mkCheckpoint {
  ck_format : str; ck_version : N; ck_seq : Seq; ck_offset : nat; ck_line_hash : str; ck_state : SessionState;
}.
Definition CHECKPOINT_FORMAT : str := lit "bingo-checkpoint".
Definition CHECKPOINT_VERSION : N := 3%N.
Definition checkpoint_new (state : SessionState) : Checkpoint :=
  mkCheckpoint CHECKPOINT_FORMAT CHECKPOINT_VERSION (st_seq state) 0 [] state.

(** [record::encode] and its kin; [rec_raw] reads a frame without its pictures. *)
Class Records := {
  rec_encode : Blobs → Frame → Blobs * result KernelError bytes;
  rec_decode : Blobs → bytes → result str Frame;
  rec_raw : bytes → option Frame;
  ck_encode : Blobs → Checkpoint → Blobs * result KernelError bytes;
  ck_decode : Blobs → bytes → result KernelError Checkpoint;
}.

(** [split] on a newline, [lines], and the reads of [read_until]. *)
Fixpoint split_lines (l : bytes) : list bytes :=
  match l with
  | [] => [[]]
  | c :: l =>
      if (c =? newline)%N then [] :: split_lines l
      else match split_lines l with first :: rest => (c :: first) :: rest | [] => [[c]] end
  end.
Definition lines (l : bytes) : list bytes :=
  let ls := split_lines l in match last ls with Some [] => removelast ls | _ => ls end.
Fixpoint with_newlines (ls : list bytes) : list bytes :=
  match ls with
  | [] => []
  | [l] => match l with [] => [] | _ => [l] end
  | l :: ls => (l ++ [newline]) :: with_newlines ls
  end.
Definition chunks (l : bytes) : list bytes := with_newlines (split_lines l).

(** ** Migrations ([journal/migrate.rs]) *)

(** [pointer_mut] through objects. *)
Definition update_field (key : str) (f : Value → Value) (v : Value) : Value :=
  match v with
  | VObject m => match map_get key m with Some x => VObject (map_insert key (f x) m) | None => v end
  | _ => v
  end.

Definition external_kinds : list str :=
  [lit "read"; lit "edit"; lit "delete"; lit "move"; lit "search"; lit "execute"; lit "think"; lit "fetch"].

Definition external_text (old body : Value) : str :=
  let content := match value_get (lit "content") old with Some (VArray l) => l | _ => [] end in
  let text := join [newline] (omap (fun c => let? t := pointer (lit "/content/text") c in as_str t) content) in
  if bool_decide (text = []) then default [] (str_field (lit "text") body) else text.
Definition external_body (old body : Value) (id : str) : Value :=
  let kind := default (lit "other") (str_field (lit "kind") old) in
  let kind := if bool_decide (kind ∈ external_kinds) then kind else lit "other" in
  VObject [(lit "kind", VString (lit "toolCall")); (lit "callId", VString id); (lit "name", VString (lit "acp:" ++ kind));
    (lit "input", VObject [(lit "title", VString (default id (str_field (lit "title") old)));
                           (lit "locations", default (VArray []) (value_get (lit "locations") old));
                           (lit "raw", default VNull (value_get (lit "rawInput") old))]);
    (lit "output", VObject [(lit "parts", VArray [VObject [(lit "type", VString (lit "text")); (lit "text", VString (external_text old body))]]);
                            (lit "isError", VBool (bool_decide (str_field (lit "status") old = Some (lit "failed"))))])].
Definition external_item (item : Value) : Value :=
  match value_get (lit "body") item with
  | None => item
  | Some body =>
      if negb (bool_decide (str_field (lit "kind") body = Some (lit "reasoning"))) then item
      else match pointer (lit "/providerMetadata/acp") body with
           | None => item
           | Some old =>
               match value_get (lit "external") old, str_field (lit "toolCallId") old with
               | Some (VBool true), Some id =>
                   let item := set_field (lit "body") (external_body old body id) item in
                   let item := match value_get (lit "meta") item with
                               | Some (VObject _) => item
                               | _ => set_field (lit "meta") (VObject []) item
                               end in
                   update_field (lit "meta") (set_field (lit "external") (VBool true)) item
               | _, _ => item
               end
           end
  end.
Definition external_call : Value → Value := update_field (lit "event") (update_field (lit "item") external_item).

Definition STEPS : list (Value → Value) := [(fun v => v); external_call].
Definition upgrade (v : Value) (version : N) (steps : list (Value → Value)) : Value :=
  foldl (fun v step => step v) v (drop (N.to_nat version - 1) steps).

Section journal.
Context `{JsonText, Records} (path : str) (io : str).

(** ** The header and the versions *)

Definition FORMAT : str := lit "bingo-journal".
Definition VERSION : N := 3%N.

Record Header := mkHeader { hd_format : str; hd_version : N; hd_session : SessionId }.
Definition u32_field (key : str) (v : Value) : option N :=
  match value_get key v with Some (VNumber (PosInt n)) => if (n <? 2 ^ 32)%N then Some n else None | _ => None end.
Definition value_header (v : Value) : option Header :=
  let? format := str_field (lit "format") v in
  let? version := u32_field (lit "version") v in
  let? session := str_field (lit "session") v in
  Some (mkHeader format version session).
Definition header (session : SessionId) : bytes :=
  json_text (VObject [(lit "format", VString FORMAT); (lit "version", VNumber (PosInt VERSION)); (lit "session", VString session)]).
Definition value_version (v : Value) : option (str * N) :=
  let? format := str_field (lit "format") v in
  let? version := u32_field (lit "version") v in
  Some (format, version).
Definition version_line : bytes := json_text (VObject [(lit "format", VString FORMAT); (lit "version", VNumber (PosInt VERSION))]).

Definition checked_version (format : str) (version : N) : result KernelError N :=
  if negb (bool_decide (format = FORMAT)) || (version =? 0)%N
  then Err (storage (path ++ lit " is not a bingo journal: format " ++ format ++ lit ", version " ++ show_Z (Z.of_N version)))
  else if (VERSION <? version)%N
  then Err (storage (path ++ lit " was written by a newer bingo (journal version " ++ show_Z (Z.of_N version)
                     ++ lit ", this build reads " ++ show_Z (Z.of_N VERSION) ++ lit ")"))
  else Ok version.

Definition parsed {A} (read : Value → option A) (line : bytes) : option A :=
  match json_parse line with Ok v => read v | Err _ => None end.
Definition check (line : option bytes) : result KernelError N :=
  match (let? line := line in parsed value_header line) with
  | Some h => checked_version (hd_format h) (hd_version h)
  | None => Err (storage (path ++ lit " is not a bingo journal"))
  end.

(** ** Reading *)

Inductive Line := LineVersion (format : str) (version : N) | LineFrame (frame : Frame).

(** [migrate::line]. *)
Definition migrated_line (line : bytes) (version : N) : result str bytes :=
  if (version =? VERSION)%N then Ok line
  else let* value := json_parse line in
       let migrated := upgrade value version STEPS in
       Ok (if value_eqb migrated value then line else json_text migrated).

(** A line with a [format] is a version line; anything else is a frame. *)
Definition has_format (v : Value) : bool :=
  match value_get (lit "format") v with None | Some VNull => false | Some _ => true end.
Definition decode (blobs : Blobs) (line : bytes) (version : N) : result str Line :=
  let* v := json_parse line in
  match v with
  | VObject _ =>
      if has_format v
      then match value_version v with Some (format, version) => Ok (LineVersion format version) | None => Err (shape_error line) end
      else let* migrated := migrated_line line version in
           let* frame := rec_decode blobs migrated in
           Ok (LineFrame frame)
  | _ => Err (shape_error line)
  end.

(** [frames], from the line at [index]. *)
Fixpoint frames_from (blobs : Blobs) (since : Seq) (index : nat) (version : N) (ls : list bytes) : result KernelError (list Frame) :=
  match ls with
  | [] => Ok []
  | line :: rest =>
      match decode blobs line version with
      | Ok (LineVersion format version) =>
          let* version := checked_version format version in frames_from blobs since (S index) version rest
      | Ok (LineFrame frame) =>
          let* frames := frames_from blobs since (S index) version rest in
          Ok (if (since <? fr_seq frame)%N then frame :: frames else frames)
      | Err e =>
          match rest with
          | [] => Ok []                    (* a crash can leave an incomplete final value *)
          | _ => Err (storage (path ++ lit " line " ++ show_Z (Z.of_nat (S index)) ++ lit ": " ++ e))
          end
      end
  end.
Definition frames (blobs : Blobs) (ls : list bytes) (since : Seq) (version : N) : result KernelError (list Frame) :=
  frames_from blobs since 1 version (tl ls).

(** ** The directory *)

Record Dir := mkDir { dr_journal : option bytes; dr_checkpoint : option bytes; dr_blobs : Blobs }.
Definition set_journal (j : bytes) (d : Dir) : Dir := mkDir (Some j) (dr_checkpoint d) (dr_blobs d).
Definition set_blobs (b : Blobs) (d : Dir) : Dir := mkDir (dr_journal d) (dr_checkpoint d) b.

Definition replay (d : Dir) (since : Seq) : result KernelError (list Frame) :=
  match dr_journal d with
  | None => Err (storage (lit "read " ++ path ++ lit ": " ++ io))
  | Some file =>
      let ls := lines file in
      let* version := check (head ls) in
      frames (dr_blobs d) ls since version
  end.

(** [tail]: the frames after [offset]. *)
Definition tail_from (d : Dir) (offset : nat) : result KernelError (list Frame) :=
  match dr_journal d with
  | None => Err (storage (lit "open journal: " ++ io))
  | Some file =>
      let header := default [] (head (chunks file)) in
      let* version := check (Some header) in
      frames (dr_blobs d) (header :: lines (drop offset file)) 0%N version
  end.

(** ** Writing *)

(** One [write_all] per line, of which only the first [n] bytes are written when
    [fault] is [Some n]. *)
Definition write_line (fault : option nat) (file line : bytes) : bytes * result KernelError () :=
  match fault with
  | None => (file ++ line ++ [newline], Ok tt)
  | Some n => (file ++ take n (line ++ [newline]), Err (storage (lit "write " ++ path ++ lit ": " ++ io)))
  end.
Definition append_line (fault : option nat) (d : Dir) (line : bytes) : Dir * result KernelError () :=
  match dr_journal d with
  | None => (d, Err (storage (lit "open " ++ path ++ lit ": " ++ io)))
  | Some file => let '(file, r) := write_line fault file line in (set_journal file d, r)
  end.

(** [create]: an existing journal is left alone. *)
Definition create (fault : option nat) (d : Dir) (session : SessionId) : Dir * result KernelError () :=
  match dr_journal d with
  | Some _ => (d, Ok tt)
  | None => let '(file, r) := write_line fault [] (header session) in (set_journal file d, r)
  end.

(** [prepare]: the version the journal has come to. *)
Fixpoint version_from (version : N) (cs : list bytes) : result KernelError N :=
  match cs with
  | [] => Ok version
  | c :: cs =>
      match parsed value_version c with
      | Some (format, version) => let* version := checked_version format version in version_from version cs
      | None => version_from version cs
      end
  end.
Definition prepared_version (file : bytes) : result KernelError N :=
  let* version := check (Some (default [] (head (chunks file)))) in version_from version (tl (chunks file)).
Definition prepare (fault : option nat) (d : Dir) : Dir * result KernelError () :=
  match dr_journal d with
  | None => (d, Err (storage (lit "open journal: " ++ io)))
  | Some file =>
      match prepared_version file with
      | Err e => (d, Err e)
      | Ok version => if (version <? VERSION)%N then append_line fault d version_line else (d, Ok tt)
      end
  end.
Definition append_prepared (fault : option nat) (d : Dir) (frame : Frame) : Dir * result KernelError () :=
  match rec_encode (dr_blobs d) frame with
  | (blobs, Err e) => (set_blobs blobs d, Err e)
  | (blobs, Ok line) => append_line fault (set_blobs blobs d) line
  end.

(** ** The store of one session ([Writer], [JsonlStore]) *)

Record Jsonl := mkJsonl { js_dir : Dir; js_prepared : bool }.

Definition missing_session (session : SessionId) : KernelError := mkKernelError SessionNotFound (lit "no session " ++ session).

Definition writer_prepare (fault : option nat) (s : Jsonl) : Jsonl * result KernelError () :=
  if js_prepared s then (s, Ok tt)
  else let '(d, r) := prepare fault (js_dir s) in (mkJsonl d (is_ok r), r).
(** [faults]: the marker's write, and the frame's. *)
Definition writer_append (faults : option nat * option nat) (s : Jsonl) (frame : Frame) : Jsonl * result KernelError () :=
  let '(s, r) := writer_prepare faults.1 s in
  match r with
  | Err e => (s, Err e)
  | Ok _ => let '(d, r) := append_prepared faults.2 (js_dir s) frame in (mkJsonl d (js_prepared s), r)
  end.
Definition jsonl_append (faults : option nat * option nat) (s : Jsonl) (session : SessionId) (frame : Frame) : Jsonl * result KernelError () :=
  if negb (is_durable (fr_event frame)) then (s, Ok tt)
  else match dr_journal (js_dir s) with
       | None => (s, Err (missing_session session))
       | Some _ => writer_append faults s frame
       end.
Definition jsonl_replay (s : Jsonl) (session : SessionId) (since : Seq) : result KernelError (list Frame) :=
  match dr_journal (js_dir s) with
  | None => Err (missing_session session)
  | Some _ => replay (js_dir s) since
  end.
(** [release], and the exit of the process. *)
Definition jsonl_release (s : Jsonl) : Jsonl := mkJsonl (js_dir s) false.

(** ** Checkpoints ([checkpoint/witness.rs]) *)

Definition block : nat := Pos.to_nat 8192.
(** The last newline before [end_], block by block from behind. *)
Fixpoint previous_from (fuel : nat) (file : bytes) (end_ : nat) : option nat :=
  match fuel with
  | O => None
  | S fuel =>
      if (end_ =? 0)%nat then None
      else let start := end_ - block in
           match rposition (fun b => b =? newline)%N (take (end_ - start) (drop start file)) with
           | Some at_ => Some (start + at_)
           | None => previous_from fuel file start
           end
  end.
Definition previous_newline (file : bytes) (end_ : nat) : option nat := previous_from end_ file end_.
Definition after_newline (at_ : option nat) : nat := match at_ with Some at_ => S at_ | None => 0 end.

(** [before]: the line that ends at [end_], newline included, and where it starts. *)
Definition before (file : bytes) (end_ : nat) : result KernelError (nat * bytes) :=
  if (end_ =? 0)%nat || (length file <? end_)%nat then Err (storage (lit "checkpoint offset outside journal"))
  else if negb (bool_decide (file !! (end_ - 1) = Some newline)) then Err (storage (lit "checkpoint offset is not after a complete line"))
  else let start := after_newline (previous_newline file (end_ - 1)) in
       Ok (start, take (end_ - start) (drop start file)).

Definition journal_file (d : Dir) : result KernelError bytes :=
  match dr_journal d with Some file => Ok file | None => Err (storage (lit "checkpoint journal witness: " ++ io)) end.
Definition witness_at (d : Dir) (offset : nat) : result KernelError bytes :=
  let* file := journal_file d in let* found := before file offset in Ok found.2.

Fixpoint locate_from (fuel : nat) (file : bytes) (session : SessionId) (seq : Seq) (end_ : nat) : result KernelError (nat * bytes) :=
  let absent := Err (storage (lit "checkpoint sequence is absent from journal")) in
  match fuel with
  | O => absent
  | S fuel =>
      if (end_ =? 0)%nat then absent
      else let* found := before file end_ in
           let '(start, line) := found in
           match rec_raw line with
           | Some frame =>
               if (fr_seq frame =? seq)%N && bool_decide (fr_session frame = session) then Ok (end_, line)
               else if (fr_seq frame <? seq)%N then absent
               else locate_from fuel file session seq start
           | None => locate_from fuel file session seq start
           end
  end.
Definition locate (d : Dir) (session : SessionId) (seq : Seq) : result KernelError (nat * bytes) :=
  let* file := journal_file d in
  let end_ := after_newline (previous_newline file (length file)) in
  locate_from (S end_) file session seq end_.

(** *** [checkpoint.rs] *)

Definition check_identity (c : Checkpoint) (session : SessionId) : result KernelError () :=
  if negb (bool_decide (ck_format c = CHECKPOINT_FORMAT)) || negb (ck_version c =? CHECKPOINT_VERSION)%N
  then Err (storage (lit "checkpoint format/version mismatch"))
  else if negb (bool_decide (ss_id (st_summary (ck_state c)) = session)) || negb (st_seq (ck_state c) =? ck_seq c)%N
  then Err (storage (lit "checkpoint session/sequence mismatch"))
  else Ok tt.

Definition checkpoint_read (d : Dir) (session : SessionId) : result KernelError Checkpoint :=
  match dr_checkpoint d with
  | None => Err (storage (lit "read checkpoint: " ++ io))
  | Some file =>
      let* c := ck_decode (dr_blobs d) file in
      let* _ := check_identity c session in
      let* line := witness_at d (ck_offset c) in
      if negb (bool_decide (hex (digest line) = ck_line_hash c)) then Err (storage (lit "checkpoint line hash mismatch"))
      else match rec_raw line with
           | None => Err (storage (lit "checkpoint line is not a frame: " ++ io))
           | Some frame =>
               if negb (fr_seq frame =? ck_seq c)%N || negb (bool_decide (fr_session frame = session))
               then Err (storage (lit "checkpoint line session/sequence mismatch"))
               else Ok c
           end
  end.

(** [write]: a temporary file renamed over the old one, so it is all there or not;
    [fails] says the disk failed. *)
Definition checkpoint_file (fails : bool) (d : Dir) (session : SessionId) (c : Checkpoint) : Dir * result KernelError () :=
  match check_identity c session with
  | Err e => (d, Err e)
  | Ok _ =>
      if match checkpoint_read d session with Ok existing => (ck_seq c <? ck_seq existing)%N | Err _ => false end then (d, Ok tt)
      else match locate d session (ck_seq c) with
           | Err e => (d, Err e)
           | Ok (offset, line) =>
               match ck_encode (dr_blobs d) (mkCheckpoint (ck_format c) (ck_version c) (ck_seq c) offset (hex (digest line)) (ck_state c)) with
               | (blobs, Err e) => (set_blobs blobs d, Err e)
               | (blobs, Ok file) =>
                   if fails : bool then (set_blobs blobs d, Err (storage (lit "write checkpoint: " ++ io)))
                   else (mkDir (dr_journal d) (Some file) blobs, Ok tt)
               end
           end
  end.

(** [repair]: a checkpoint is written again from the frames, if it can be. *)
Definition repair (faults : option nat * bool) (d : Dir) (session : SessionId) (frames : list Frame) : Dir :=
  match frames with
  | f :: _ =>
      match fr_event f with
      | SessionUpdated summary =>
          let state := fold_frames (state_new summary) frames in
          let state := set_transcript (drop_before_cut (st_transcript state)) state in
          match prepare faults.1 d with
          | (d, Err _) => d
          | (d, Ok _) => (checkpoint_file faults.2 d session (checkpoint_new state)).1
          end
      | _ => d
      end
  | [] => d
  end.

Definition checkpoint_resume (faults : option nat * bool) (d : Dir) (session : SessionId) : Dir * result KernelError Resumed :=
  match (let* c := checkpoint_read d session in
         let* tail := tail_from d (ck_offset c) in
         Ok (mkResumed (Some (ck_state c)) tail)) with
  | Ok resumed => (d, Ok resumed)
  | Err _ =>
      match replay d 0%N with
      | Err e => (d, Err e)
      | Ok tail => (repair faults d session tail, Ok (mkResumed None tail))
      end
  end.

(** The store's [checkpoint] and [resume]. *)
Definition jsonl_checkpoint (faults : option nat * bool) (s : Jsonl) (session : SessionId) (c : Checkpoint) : Jsonl * result KernelError () :=
  match dr_journal (js_dir s) with
  | None => (s, Err (missing_session session))
  | Some _ =>
      match writer_prepare faults.1 s with
      | (s, Err e) => (s, Err e)
      | (s, Ok _) => let '(d, r) := checkpoint_file faults.2 (js_dir s) session c in (mkJsonl d (js_prepared s), r)
      end
  end.
Definition jsonl_resume (faults : option nat * bool) (s : Jsonl) (session : SessionId) : Jsonl * result KernelError Resumed :=
  match dr_journal (js_dir s) with
  | None => (s, Err (missing_session session))
  | Some _ =>
      let '(d, r) := checkpoint_resume faults (js_dir s) session in
      let known := match r with Ok (mkResumed (Some _) _) => true | _ => false end in
      (mkJsonl d (js_prepared s || known), r)
  end.
End journal.
