(* ===== verification/Journal.v ===== *)
(** * Journal: what the file on disk keeps

    The theorems about [Jsonl].  [CodecLaws] says what a journal line needs of the
    JSON it is written in: it is one object on one line, it reads back, and half
    of it does not.  A journal is then a header and lines that read as frames or as
    version markers ([kept]); what is appended is what a replay gives, in the
    process that wrote it and in the next one; a torn last write is dropped; and
    what happens to the line written after one is stated as the code does it. *)

From S2P Require Import Prelude Text Digest Model CommandLine Interaction Event Transcript State PermPath PermRule PermDecide Chain Catalogue Tree Store Hub Restart Jsonl.

(** ** Files and lines *)

Definition file_of : list bytes → bytes := foldr (λ l file, l ++ newline :: file) [].
Abbreviation one_line l := (newline ∉ (l : bytes)).

Lemma file_of_app ls ks : file_of (ls ++ ks) = file_of ls ++ file_of ks.
Proof. induction ls as [|l ls IH]; simpl; [done|]. by rewrite IH, <- (assoc_L (++)). Qed.

Lemma file_of_snoc ls l : file_of (ls ++ [l]) = file_of ls ++ l ++ [newline].
Proof. apply file_of_app. Qed.

Lemma split_one l : one_line l → split_lines l = [l].
Proof.
  induction l as [|c l IH]; simpl; [done|]. intros [Hc Hl]%not_elem_of_cons.
  destruct (N.eqb_spec c newline); [congruence|]. by rewrite IH.
Qed.

Lemma split_line l r : one_line l → split_lines (l ++ newline :: r) = l :: split_lines r.
Proof.
  induction l as [|c l IH]; simpl; [done|]. intros [Hc Hl]%not_elem_of_cons.
  destruct (N.eqb_spec c newline); [congruence|]. by rewrite IH.
Qed.

Lemma split_file ls p : Forall (λ l, one_line l) ls → one_line p → split_lines (file_of ls ++ p) = ls ++ [p].
Proof.
  intros Hls Hp. induction Hls as [|l ls Hl _ IH]; simpl; [by apply split_one|].
  rewrite <- (assoc_L (++)). simpl. rewrite split_line by done. by rewrite IH.
Qed.

(** The unfinished last line, if there is one. *)
Definition rest_line (p : bytes) : list bytes := match p with [] => [] | _ => [p] end.

Lemma lines_file ls p : Forall (λ l, one_line l) ls → one_line p → lines (file_of ls ++ p) = ls ++ rest_line p.
Proof.
  intros. unfold lines. rewrite split_file, last_snoc by done. destruct p; simpl; [|done].
  by rewrite removelast_last, app_nil_r.
Qed.

Lemma with_newlines_app ls p : with_newlines (ls ++ [p]) = ((λ l, l ++ [newline]) <$> ls) ++ rest_line p.
Proof.
  induction ls as [|l ls IH]; csimpl; [by destruct p|]. rewrite <- IH.
  destruct (ls ++ [p]) eqn:E; [by destruct ls|done].
Qed.

Lemma chunks_file ls p : Forall (λ l, one_line l) ls → one_line p →
  chunks (file_of ls ++ p) = ((λ l, l ++ [newline]) <$> ls) ++ rest_line p.
Proof. intros. unfold chunks. rewrite split_file by done. apply with_newlines_app. Qed.

(** ** The codec *)

Class CodecLaws `{JsonText, Records} (session : SessionId) := {
  newline_after : ∀ l v, json_parse l = Ok v → json_parse (l ++ [newline]) = Ok v;
  header_reads : one_line (header session) ∧ parsed value_header (header session) = Some (mkHeader FORMAT VERSION session);
  marker_reads : one_line version_line ∧ ∃ m, json_parse version_line = Ok (VObject m) ∧ has_format (VObject m) = true
    ∧ value_version (VObject m) = Some (FORMAT, VERSION);
  encode_reads : ∀ b f b' l, rec_encode b f = (b', Ok l) → b ⊆ b' ∧ one_line l
    ∧ (∃ m, json_parse l = Ok (VObject m) ∧ has_format (VObject m) = false) ∧ ∀ b'', b' ⊆ b'' → rec_decode b'' l = Ok f;
  encode_keeps : ∀ b f b' e, rec_encode b f = (b', Err e) → b ⊆ b';
  encode_some : ∀ b f b' l, rec_encode b f = (b', Ok l) → l ≠ [];
  encode_torn : ∀ b f b' l p, rec_encode b f = (b', Ok l) → p `prefix_of` l → p ≠ l → is_ok (json_parse p) = false;
  encode_glued : ∀ b f b' l c g c' k p, rec_encode b f = (b', Ok l) → rec_encode c g = (c', Ok k) →
    p `prefix_of` l → p ≠ [] → is_ok (json_parse (p ++ k)) = false;
}.

(** ** What a file keeps *)

Section kept.
Context `{CodecLaws} (path io : str).
Implicit Types (b : Blobs) (l p : bytes) (f : Frame) (v w : N) (d : Dir).

Definition frame_line b v l f : Prop :=
  one_line l ∧ (∃ m, json_parse l = Ok (VObject m) ∧ has_format (VObject m) = false)
  ∧ ∃ l', migrated_line l v = Ok l' ∧ ∀ b', b ⊆ b' → rec_decode b' l' = Ok f.
Definition marker_line l w : Prop :=
  one_line l ∧ (∃ m, json_parse l = Ok (VObject m) ∧ has_format (VObject m) = true ∧ value_version (VObject m) = Some (FORMAT, w))
  ∧ (1 ≤ w ≤ VERSION)%N.

(** From version [v], the lines read as these frames and leave version [w]. *)
Inductive reads b : N → list bytes → list Frame → N → Prop :=
| reads_nil v : reads b v [] [] v
| reads_frame v l ls f fs w : frame_line b v l f → reads b v ls fs w → reads b v (l :: ls) (f :: fs) w
| reads_marker v l u ls fs w : marker_line l u → reads b u ls fs w → reads b v (l :: ls) fs w.

(** The journal is a header, the lines of [frames], and [p] of a last line. *)
Definition holds (d : Dir) (ls : list bytes) (frames : list Frame) (w : N) (p : bytes) : Prop :=
  ∃ h v, one_line h ∧ check path (Some h) = Ok v ∧ reads (dr_blobs d) v ls frames w
    ∧ dr_journal d = Some (file_of (h :: ls) ++ p) ∧ one_line p.
Definition kept d frames w : Prop := ∃ ls, holds d ls frames w [].

Lemma frame_line_blobs b b' v l f : b ⊆ b' → frame_line b v l f → frame_line b' v l f.
Proof. intros Hb (? & ? & l' & ? & Hr). do 2 (split; [done|]). exists l'. split; [done|]. intros b'' ?. apply Hr. by etrans. Qed.

Lemma reads_blobs b b' v ls fs w : b ⊆ b' → reads b v ls fs w → reads b' v ls fs w.
Proof. intros Hb. induction 1; econstructor; eauto using frame_line_blobs. Qed.

Lemma reads_app b v ls fs u ls' fs' w : reads b v ls fs u → reads b u ls' fs' w → reads b v (ls ++ ls') (fs ++ fs') w.
Proof. induction 1; simpl; [done|..]; intros; econstructor; eauto. Qed.

Lemma reads_one_line b v ls fs w : reads b v ls fs w → Forall (λ l, one_line l) ls.
Proof. induction 1 as [|v l ls f fs w Hl ? IH|v l u ls fs w Hl ? IH]; constructor; done || apply Hl. Qed.

Lemma check_ok l v : check path (Some l) = Ok v → (1 ≤ v ≤ VERSION)%N.
Proof.
  unfold check, checked_version. case_match; [|done]. destruct (negb _ || _) eqn:E; [done|]. bools.
  destruct (N.ltb_spec VERSION (hd_version h)); [done|]. intros [= <-]. match goal with Hz : (_ =? 0)%N = false |- _ => apply N.eqb_neq in Hz end. lia.
Qed.

Lemma checked_ok w : (1 ≤ w ≤ VERSION)%N → checked_version path FORMAT w = Ok w.
Proof.
  intros [? ?]. unfold checked_version. rewrite bool_decide_true by done. simpl.
  destruct (N.eqb_spec w 0); [lia|]. destruct (N.ltb_spec VERSION w); [lia|done].
Qed.

Lemma reads_version b v ls fs w : reads b v ls fs w → (1 ≤ v ≤ VERSION)%N → (1 ≤ w ≤ VERSION)%N.
Proof. induction 1 as [| |v l u ls fs w Hl ? IH]; auto. intros _. apply IH, Hl. Qed.

(** *** Reading *)

Lemma decode_frame b v l f : frame_line b v l f → decode b l v = Ok (LineFrame f).
Proof.
  intros (_ & (m & Ep & Ef) & l' & Em & Hr). unfold decode. rewrite Ep. cbn [rbind]. rewrite Ef, Em. cbn [rbind].
  by rewrite Hr.
Qed.

Lemma decode_marker b v l w : marker_line l w → decode b l v = Ok (LineVersion FORMAT w).
Proof. intros (_ & (m & Ep & Ef & Ev) & _). unfold decode. rewrite Ep. cbn [rbind]. by rewrite Ef, Ev. Qed.

Lemma frames_reads b since v ls fs w rest i : reads b v ls fs w →
  frames_from path b since i v (ls ++ rest)
  = (let* more := frames_from path b since (i + length ls)%nat w rest in Ok (after since fs ++ more)).
Proof.
  intros Hr. revert i. induction Hr as [v|v l ls f fs w Hl _ IH|v l u ls fs w Hl _ IH]; intros i; simpl.
  - rewrite Nat.add_0_r. by destruct (frames_from _ _ _ _ _ _).
  - rewrite (decode_frame _ _ _ _ Hl), IH, Nat.add_succ_comm. destruct (frames_from _ _ _ _ _ _); [|done]. cbn [rbind].
    unfold after. simpl. by destruct (_ <? _)%N.
  - rewrite (decode_marker _ _ _ _ Hl), checked_ok by apply Hl. cbn [rbind]. by rewrite IH, Nat.add_succ_comm.
Qed.

(** A line that is not JSON. *)
Definition unread (l : bytes) : Prop := is_ok (json_parse l) = false.

Lemma decode_unread b v l : unread l → is_ok (decode b l v) = false.
Proof. unfold unread, decode. by destruct (json_parse l). Qed.

Lemma frames_unread b since v p rest i : unread p →
  match rest with
  | [] => frames_from path b since i v [p] = Ok []
  | _ => is_ok (frames_from path b since i v (p :: rest)) = false
  end.
Proof. intros Hp. pose proof (decode_unread b v _ Hp). destruct rest; simpl; by destruct (decode _ _ _). Qed.

Lemma frames_torn b since v p i : p = [] ∨ unread p → frames_from path b since i v (rest_line p) = Ok [].
Proof.
  destruct p as [|c p]; [done|]. intros [|Hp]; [done|]. exact (frames_unread b since v (c :: p) [] i Hp).
Qed.

Lemma replay_lines d h v ls frames w xs p since : one_line h → check path (Some h) = Ok v →
  reads (dr_blobs d) v ls frames w → Forall (λ l, one_line l) xs → one_line p →
  dr_journal d = Some (file_of (h :: ls ++ xs) ++ p) →
  replay path io d since
  = (let* more := frames_from path (dr_blobs d) since (S (length ls)) w (xs ++ rest_line p) in Ok (after since frames ++ more)).
Proof.
  intros Hh Hc Hr Hxs Hp Ej. unfold replay.
  rewrite Ej, lines_file; [|constructor; [|apply Forall_app]; eauto using reads_one_line|done].
  simpl. rewrite Hc. cbn [rbind]. unfold Jsonl.frames. simpl.
  by rewrite <- (assoc_L (++)), (frames_reads _ _ _ _ _ _ _ _ Hr).
Qed.

Lemma replay_holds d ls frames w p since : holds d ls frames w p → p = [] ∨ unread p →
  replay path io d since = Ok (after since frames).
Proof.
  intros (h & v & Hh & Hc & Hr & Ej & Hl) Hp. rewrite (replay_lines _ h v ls frames w [] p) by (by rewrite ?app_nil_r).
  rewrite app_nil_l, frames_torn by done. cbn [rbind]. by rewrite app_nil_r.
Qed.

Lemma replay_kept d frames w since : kept d frames w → replay path io d since = Ok (after since frames).
Proof. intros [ls Hd]. eapply replay_holds; [done|by left]. Qed.

(** *** Appending *)

Lemma holds_append d ls frames w l fs u : holds d ls frames w [] → one_line l → reads (dr_blobs d) w [l] fs u →
  ∃ d', append_line path io None d l = (d', Ok tt) ∧ dr_blobs d' = dr_blobs d ∧ dr_checkpoint d' = dr_checkpoint d
    ∧ holds d' (ls ++ [l]) (frames ++ fs) u [].
Proof.
  intros (h & v & Hh & Hc & Hr & Ej & _) Hl Hn. unfold append_line. rewrite Ej. cbn [write_line].
  eexists. do 3 (split; [done|]). exists h, v. repeat split; [done..| |simpl|apply not_elem_of_nil].
  - by eapply reads_app.
  - by rewrite !app_nil_r, file_of_snoc, <- (assoc_L (++)).
Qed.

Lemma holds_blobs d ls frames w p b : dr_blobs d ⊆ b → holds d ls frames w p → holds (set_blobs b d) ls frames w p.
Proof. intros Hb (h & v & ? & ? & Hr & ? & ?). exists h, v. repeat split; try done. by eapply reads_blobs. Qed.

Lemma encoded_line b f b' l : rec_encode b f = (b', Ok l) → frame_line b' VERSION l f.
Proof.
  intros He. apply encode_reads in He as (_ & Hl & Hm & Hr). split; [done|]. split; [done|]. exists l.
  split; [|done]. unfold migrated_line. by rewrite N.eqb_refl.
Qed.

Lemma marker_line_reads b v : reads b v [version_line] [] VERSION.
Proof.
  destruct marker_reads as (Hl & m & Hm). apply (reads_marker b v version_line VERSION [] [] VERSION); [|constructor].
  split; [done|]. split; [by exists m|done].
Qed.

Lemma holds_append_frame d ls frames f b l : holds d ls frames VERSION [] → rec_encode (dr_blobs d) f = (b, Ok l) →
  ∃ d', append_prepared path io None d f = (d', Ok tt) ∧ dr_blobs d' = b ∧ dr_checkpoint d' = dr_checkpoint d
    ∧ holds d' (ls ++ [l]) (frames ++ [f]) VERSION [].
Proof.
  intros Hd He. unfold append_prepared. rewrite He. destruct (encode_reads _ _ _ _ He) as (Hb & Hl & _ & _).
  pose proof (encoded_line _ _ _ _ He) as Hf.
  eapply (holds_append (set_blobs b d)); [by apply holds_blobs|done|]. eapply reads_frame; [done|constructor].
Qed.

(** *** Preparing *)

Lemma frame_no_version b v l f : frame_line b v l f → parsed value_version (l ++ [newline]) = None.
Proof.
  intros (_ & (m & Ep & Ef) & _). unfold parsed. rewrite (newline_after _ _ Ep). unfold value_version, str_field.
  unfold has_format in Ef. destruct (value_get _ _) as [[]|]; done.
Qed.

Lemma marker_version l w : marker_line l w → parsed value_version (l ++ [newline]) = Some (FORMAT, w).
Proof. intros (_ & (m & Ep & _ & Ev) & _). unfold parsed. by rewrite (newline_after _ _ Ep). Qed.

Lemma version_reads b v ls fs w cs : reads b v ls fs w →
  version_from path v (((λ l, l ++ [newline]) <$> ls) ++ cs) = version_from path w cs.
Proof.
  induction 1 as [|v l ls f fs w Hl _ IH|v l u ls fs w Hl _ IH]; csimpl; [done|..].
  - by rewrite (frame_no_version _ _ _ _ Hl).
  - rewrite (marker_version _ _ Hl), checked_ok by apply Hl. done.
Qed.

Lemma check_newline h v : check path (Some h) = Ok v → check path (Some (h ++ [newline])) = Ok v.
Proof.
  unfold check, parsed. cbn [mbind option_bind]. destruct (json_parse h) eqn:E; [|done]. by rewrite (newline_after _ _ E).
Qed.

(** A last line that is no version line: empty, half a line, or a frame. *)
Definition no_version (p : bytes) : Prop := p = [] ∨ parsed value_version p = None.

Lemma prepared_holds d ls frames w p file : holds d ls frames w p → no_version p → dr_journal d = Some file →
  prepared_version path file = Ok w.
Proof.
  intros (h & v & Hh & Hc & Hr & Ej & Hp) Hn Ef. rewrite Ef in Ej. apply (inj Some) in Ej as ->. unfold prepared_version.
  rewrite (chunks_file (h :: ls) p); [|constructor; eauto using reads_one_line|done]. csimpl. rewrite check_newline with (v := v) by done.
  cbn [rbind]. rewrite (version_reads _ _ _ _ _ _ Hr). destruct p as [|c p]; [done|]. destruct Hn as [|Hn]; [done|].
  simpl. by rewrite Hn.
Qed.

Lemma holds_version d ls frames w p : holds d ls frames w p → (1 ≤ w ≤ VERSION)%N.
Proof. intros (h & v & _ & Hc & Hr & _). eapply reads_version; [done|]. by eapply check_ok. Qed.

Lemma prepare_kept d frames w : kept d frames w →
  ∃ d', prepare path io None d = (d', Ok tt) ∧ dr_blobs d' = dr_blobs d ∧ dr_checkpoint d' = dr_checkpoint d ∧ kept d' frames VERSION.
Proof.
  intros [ls Hd]. pose proof (holds_version _ _ _ _ _ Hd) as Hw. unfold prepare.
  assert (∃ file, dr_journal d = Some file) as [file Ej] by (destruct Hd as (h & v & _ & _ & _ & Ej & _); eauto).
  rewrite Ej, (prepared_holds _ _ _ _ _ _ Hd) by (done || by left). destruct (N.ltb_spec w VERSION).
  - destruct (holds_append _ _ _ _ version_line [] VERSION Hd) as (d' & -> & Hb & Hck & Hd').
    { apply marker_reads. } { apply marker_line_reads. }
    exists d'. do 3 (split; [done|]). eexists. by rewrite app_nil_r in Hd'.
  - exists d. do 3 (split; [done|]). exists ls. by replace w with VERSION in Hd by lia.
Qed.

(** *** The store of a session *)

(** A store's session: its journal is whole, and prepared only if it has come to
    this version. *)
Definition ready (s : Jsonl) frames : Prop :=
  ∃ w, kept (js_dir s) frames w ∧ (js_prepared s = true → w = VERSION).

Lemma append_prepared_kept d frames f d' r : kept d frames VERSION → append_prepared path io None d f = (d', r) →
  kept d' (if is_ok r then frames ++ [f] else frames) VERSION.
Proof.
  intros [ls Hd] Ea. destruct (rec_encode (dr_blobs d) f) as [b [l|e]] eqn:He.
  - destruct (holds_append_frame _ _ _ _ _ _ Hd He) as (d'' & Ha & _ & _ & Hd'). rewrite Ha in Ea.
    injection Ea as <- <-. by eexists.
  - unfold append_prepared in Ea. rewrite He in Ea. injection Ea as <- <-. exists ls. apply holds_blobs; [|done].
    by eapply encode_keeps.
Qed.

Lemma writer_append_ready s frames f s' r : ready s frames → writer_append path io (None, None) s f = (s', r) →
  ready s' (if is_ok r then frames ++ [f] else frames).
Proof.
  intros (w & Hk & Hw) Ea. unfold writer_append, writer_prepare in Ea. simpl in Ea.
  destruct (js_prepared s) eqn:Ep.
  - destruct (append_prepared _ _ _ _ _) as [d' r'] eqn:E. injection Ea as <- <-. rewrite Hw in Hk by done.
    exists VERSION. split; [|done]. by eapply append_prepared_kept.
  - destruct (prepare_kept _ _ _ Hk) as (d & E & _ & _ & Hd). rewrite E in Ea. simpl in Ea.
    destruct (append_prepared _ _ _ _ _) as [d' r'] eqn:E'. injection Ea as <- <-.
    exists VERSION. split; [|done]. by eapply append_prepared_kept.
Qed.

Definition appended (f : Frame) (r : result KernelError ()) : list Frame :=
  if is_ok r && is_durable (fr_event f) then [f] else [].

Lemma jsonl_append_ready id s frames f s' r : ready s frames → jsonl_append path io (None, None) s id f = (s', r) →
  ready s' (frames ++ appended f r).
Proof.
  intros Hs Ea. unfold appended. unfold jsonl_append in Ea. destruct (is_durable _); simpl in Ea.
  - pose proof Hs as (w & [ls (h & v & _ & _ & _ & Ej & _)] & _). rewrite Ej in Ea.
    apply (writer_append_ready _ frames) in Ea; [|done]. destruct r; simpl in *; [done|by rewrite app_nil_r].
  - injection Ea as <- <-. simpl. by rewrite app_nil_r.
Qed.

Lemma release_ready s frames : ready s frames → ready (jsonl_release s) frames.
Proof. intros (w & Hk & _). exists w. by split. Qed.

Lemma create_ready : ∀ d, dr_journal d = None →
  ∃ d', create path io None d session = (d', Ok tt) ∧ ready (mkJsonl d' false) [].
Proof.
  intros d Ed. unfold create. rewrite Ed. eexists. split; [done|]. exists VERSION. split; [|done]. exists [].
  destruct header_reads as [Hl Hp]. exists (header session), VERSION. split; [done|]. split.
  { unfold check. cbn [mbind option_bind]. rewrite Hp. by apply checked_ok. }
  split; [constructor|]. split; [|apply not_elem_of_nil]. simpl. by rewrite app_nil_r.
Qed.

(** *** A write that stopped *)

Lemma append_stopped d frames f b l n : kept d frames VERSION → rec_encode (dr_blobs d) f = (b, Ok l) → n ≤ length l →
  ∃ d' ls, append_prepared path io (Some n) d f = (d', Err (storage (lit "write " ++ path ++ lit ": " ++ io)))
    ∧ dr_blobs d' = b ∧ holds d' ls frames VERSION (take n l).
Proof.
  intros [ls (h & v & Hh & Hc & Hr & Ej & _)] He Hn. unfold append_prepared, append_line. rewrite He.
  cbn [set_blobs dr_journal]. rewrite Ej. cbn [write_line]. eexists _, ls. split; [done|]. split; [done|].
  destruct (encode_reads _ _ _ _ He) as (Hb & Hl & _). exists h, v. split; [done|]. split; [done|].
  split; [by eapply reads_blobs|]. split.
  - cbn [set_journal dr_journal]. by rewrite app_nil_r, take_app_le.
  - intros Hin. by apply Hl, (elem_of_take_in n).
Qed.

Lemma take_whole (l : bytes) n : n = length l → take n l = l.
Proof. intros ->. by apply firstn_all. Qed.

Lemma part_unread b f b' l n : rec_encode b f = (b', Ok l) → n < length l → unread (take n l).
Proof.
  intros He Hn. eapply encode_torn; [done|by eexists; symmetry; apply take_drop|].
  intros E%(f_equal length). rewrite length_take in E. lia.
Qed.

Lemma part_no_version b f b' l n : rec_encode b f = (b', Ok l) → n ≤ length l → no_version (take n l).
Proof.
  intros He Hn. right. destruct (decide (n = length l)) as [Hw|Hne].
  - rewrite take_whole by done. destruct (encode_reads _ _ _ _ He) as (_ & _ & (m & Ep & Ef) & _).
    unfold parsed. rewrite Ep. unfold value_version, str_field. unfold has_format in Ef. by destruct (value_get _ _) as [[]|].
  - unfold parsed. pose proof (part_unread b f b' l n He ltac:(lia)) as Hu. unfold unread in Hu. by destruct (json_parse _).
Qed.

(** The next line is written where the last one stopped: the two are one line. *)
Lemma append_glued d ls frames p g b k : holds d ls frames VERSION p → rec_encode (dr_blobs d) g = (b, Ok k) →
  ∃ d', append_prepared path io None d g = (d', Ok tt) ∧ dr_blobs d' = b
    ∧ ∃ h v, one_line h ∧ check path (Some h) = Ok v ∧ reads b v ls frames VERSION ∧ one_line (p ++ k)
        ∧ dr_journal d' = Some (file_of (h :: ls ++ [p ++ k])).
Proof.
  intros (h & v & Hh & Hc & Hr & Ej & Hp) He. unfold append_prepared, append_line. rewrite He.
  cbn [set_blobs dr_journal]. rewrite Ej. cbn [write_line]. eexists. split; [done|]. split; [done|].
  destruct (encode_reads _ _ _ _ He) as (Hb & Hl & _). exists h, v. do 2 (split; [done|]).
  split; [by eapply reads_blobs|]. split; [by rewrite elem_of_app; intros [?|?]|].
  cbn [set_journal dr_journal]. by rewrite app_comm_cons, file_of_snoc, <- !(assoc_L (++)).
Qed.
End kept.

(** ** A codec that keeps the laws

    For the witnesses: the sessions' frames are closings of session [ses_1], numbered in
    unary between braces; the header spells the session, its newlines escaped ([h], or [i] at version 2). *)
Module Example.
Definition esc : str → bytes := foldr (λ c l, if (c =? 10)%N then 92%N :: 110%N :: l else if (c =? 92)%N then 92%N :: 92%N :: l else c :: l) [].
Fixpoint unesc (l : bytes) : str :=
  match l with
  | [] => []
  | c :: l' => if (c =? 92)%N then match l' with d :: l => (if (d =? 110)%N then 10%N else d) :: unesc l | [] => [] end else c :: unesc l'
  end.
Definition ones (n : nat) : bytes := replicate n 49%N ++ [125%N].
Fixpoint parse_ones (l : bytes) : option nat :=
  match l with
  | [] => None
  | c :: l => if (c =? 125)%N then match l with [] => Some 0 | _ => None end
              else if (c =? 49)%N then S <$> parse_ones l else None
  end.
Definition closing (n : nat) : Frame := mkFrame (N.of_nat n) 0%Z (lit "ses_1") None (SessionClosed CloseClient).
Definition number (n : nat) : Value := VNumber (PosInt (N.of_nat n)).
Definition version_fields (version : N) : list (str * Value) := [(lit "format", VString FORMAT); (lit "version", VNumber (PosInt version))].

Definition text (v : Value) : bytes :=
  match value_get (lit "session") v with Some (VString s) => 104%N :: esc s | _ => [109%N] end.
Definition parse (l : bytes) : result str Value :=
  match trim_end_matches newline l with
  | c :: l =>
      if (c =? 123)%N then match parse_ones l with Some n => Ok (VObject [(lit "seq", number n)]) | None => Err (lit "bad line") end
      else if (c =? 104)%N then Ok (VObject (version_fields VERSION ++ [(lit "session", VString (unesc l))]))
      else if (c =? 105)%N then Ok (VObject (version_fields 2 ++ [(lit "session", VString (unesc l))]))
      else if (c =? 109)%N then match l with [] => Ok (VObject (version_fields VERSION)) | _ => Err (lit "bad line") end
      else Err (lit "bad line")
  | [] => Err (lit "end of input")
  end.
#[export] Instance json : JsonText := {| json_parse := parse; json_text := text; shape_error _ := lit "bad shape" |}.

Definition encode (f : Frame) : option bytes :=
  match f with
  | mkFrame n 0%Z id None (SessionClosed CloseClient) => if bool_decide (id = lit "ses_1") then Some (123%N :: ones (N.to_nat n)) else None
  | _ => None
  end.
Definition raw (l : bytes) : option Frame :=
  match trim_end_matches newline l with c :: l => if (c =? 123)%N then closing <$> parse_ones l else None | [] => None end.
(** A checkpoint of [state]: its offset, in unary, and its line's hash. *)
Definition encode_checkpoint (c : Checkpoint) : bytes := replicate (ck_offset c) 49%N ++ 125%N :: ck_line_hash c.
Fixpoint offset_of (l : bytes) : nat * str :=
  match l with c :: l => if (c =? 49)%N then let '(n, h) := offset_of l in (S n, h) else (0, l) | [] => (0, []) end.
Definition decode_checkpoint (state : SessionState) (l : bytes) : Checkpoint :=
  let '(n, h) := offset_of l in mkCheckpoint CHECKPOINT_FORMAT CHECKPOINT_VERSION (st_seq state) n h state.
Definition records (state : SessionState) : Records := {|
  rec_encode b f := (b, match encode f with Some l => Ok l | None => Err (storage (lit "not a closing")) end);
  rec_decode b l := match raw l with Some f => Ok f | None => Err (lit "not a frame") end;
  rec_raw := raw;
  ck_encode b c := (b, Ok (encode_checkpoint c));
  ck_decode b l := Ok (decode_checkpoint state l);
|}.

Lemma parse_ones_Some l n : parse_ones l = Some n ↔ l = ones n.
Proof.
  revert n. induction l as [|c l IH]; intros n; [by destruct n|]. simpl. destruct (N.eqb_spec c 125) as [->|].
  - destruct l, n; split; intros E; simplify_eq/=; try done.
  - destruct (N.eqb_spec c 49) as [->|]; [|split; [done|]; by destruct n; intros [= ? ?]].
    rewrite fmap_Some. setoid_rewrite IH. destruct n as [|n]; split.
    + by intros (? & _ & ?).
    + done.
    + by intros (? & -> & [= ->]).
    + intros [= ->]. by exists n.
Qed.

Lemma trim_end_line l : one_line l → trim_end_matches newline l = l.
Proof.
  intros Hl. unfold trim_end_matches, trim_end_by. assert (trim_start_by (N.eqb newline) (reverse l) = reverse l) as ->.
  - assert (newline ∉ reverse l) as Hr by by rewrite elem_of_reverse. destruct (reverse l) as [|c k]; [done|]. cbn [trim_start_by].
    destruct (N.eqb_spec newline c) as [<-|]; [|done]. destruct Hr. by left.
  - apply reverse_involutive.
Qed.

Lemma trim_end_after l : trim_end_matches newline (l ++ [newline]) = trim_end_matches newline l.
Proof. unfold trim_end_matches, trim_end_by. by rewrite reverse_app. Qed.

Lemma esc_one_line s : one_line (esc s).
Proof.
  induction s as [|c s IH]; simpl; [apply not_elem_of_nil|].
  destruct (N.eqb_spec c 10), (N.eqb_spec c 92); rewrite ?not_elem_of_cons; done.
Qed.

Lemma unesc_esc s : unesc (esc s) = s.
Proof.
  induction s as [|c s IH]; simpl; [done|].
  destruct (N.eqb_spec c 10) as [->|]; [by rewrite <- IH at 2|].
  destruct (N.eqb_spec c 92) as [->|]; [by rewrite <- IH at 2|]. simpl. destruct (N.eqb_spec c 92); [done|by rewrite IH].
Qed.

Lemma elem_of_ones c n : c ∈ ones n → c = 49%N ∨ c = 125%N.
Proof. unfold ones. rewrite elem_of_app, elem_of_replicate, list_elem_of_singleton. naive_solver. Qed.

Lemma encode_Some f l : encode f = Some l → ∃ n, f = closing n ∧ l = 123%N :: ones n.
Proof.
  destruct f as [n [| |] id [] []]; simpl; try done. destruct reason; try done. case_bool_decide; [|done]. intros [= <-].
  exists (N.to_nat n). split; [|done]. unfold closing. rewrite N2Nat.id. by f_equal.
Qed.

Lemma closing_line n : one_line (123%N :: ones n).
Proof. by intros [? | [? | ?]%elem_of_ones]%elem_of_cons. Qed.

Lemma parse_brace r : one_line (123%N :: r) → is_ok (parse (123%N :: r)) = true → ∃ n, r = ones n.
Proof.
  intros Hl. unfold parse. rewrite trim_end_line by done. simpl. destruct (parse_ones r) eqn:E; [|done].
  intros _. eexists. by apply parse_ones_Some.
Qed.

Lemma parse_closing n : parse (123%N :: ones n) = Ok (VObject [(lit "seq", number n)]).
Proof.
  unfold parse. rewrite trim_end_line by apply closing_line. simpl. by rewrite (proj2 (parse_ones_Some _ _) eq_refl).
Qed.

Lemma raw_closing n : raw (123%N :: ones n) = Some (closing n).
Proof.
  unfold raw. rewrite trim_end_line by apply closing_line. simpl. by rewrite (proj2 (parse_ones_Some _ _) eq_refl).
Qed.

Lemma closing_part_unread n p : p `prefix_of` (123%N :: ones n) → p ≠ 123%N :: ones n → is_ok (parse p) = false.
Proof.
  intros [k Hk] Hne. destruct p as [|c p]; [done|]. injection Hk as <- Hk. apply not_true_iff_false. intros Hp.
  apply parse_brace in Hp as [m ->]; last first.
  { intros Hin. apply (closing_line n). unfold ones in *. rewrite Hk. by apply (elem_of_app (_ :: _)); left. }
  assert (k = []) as ->; [|rewrite app_nil_r in Hk; by rewrite Hk in Hne].
  unfold ones in Hk. clear Hne. revert m Hk. induction n as [|n IH]; intros [|m]; simpl; try done.
  - by intros [= <-].
  - intros [= Hk]. by apply (IH m).
Qed.

Lemma closing_glued_unread n m p : p `prefix_of` (123%N :: ones n) → p ≠ [] → is_ok (parse (p ++ 123%N :: ones m)) = false.
Proof.
  intros [k Hk] Hne. destruct p as [|c p]; [done|]. injection Hk as <- Hk. apply not_true_iff_false. simpl. intros Hp.
  apply parse_brace in Hp as [i Hi].
  - assert (123%N ∈ ones i) as [? | ?]%elem_of_ones; [|done..]. rewrite <- Hi, elem_of_app. right. by left.
  - intros [? | [Hin | Hin]%elem_of_app]%elem_of_cons; [done| |by apply (closing_line m)].
    apply (closing_line n). right. rewrite Hk, elem_of_app. by left.
Qed.

Section codec.
Context (state : SessionState).
#[local] Instance closings : Records := records state.

#[export, refine] Instance codec (id : SessionId) : CodecLaws id := {}.
Proof.
  - intros l v. simpl. unfold parse. by rewrite trim_end_after.
  - split; [by intros [? | ?%esc_one_line]%elem_of_cons|]. unfold parsed. simpl. unfold parse, header. simpl.
    rewrite trim_end_line by (by intros [? | ?%esc_one_line]%elem_of_cons). simpl. by rewrite unesc_esc.
  - split; [by intros ?%list_elem_of_singleton|]. eexists. by split_and!.
  - intros b f b' l [= <- He]. destruct (encode f) as [k|] eqn:E; [|done]. injection He as ->.
    apply encode_Some in E as (n & -> & ->). split; [done|]. split; [apply closing_line|]. split.
    + eexists. split; [apply parse_closing|done].
    + intros b'' _. simpl. by rewrite raw_closing.
  - by intros b f b' e [= <- _].
  - intros b f b' l [= <- He]. destruct (encode f) as [k|] eqn:E; [|done]. injection He as ->.
    by apply encode_Some in E as (n & _ & ->).
  - intros b f b' l p [= <- He]. destruct (encode f) as [k|] eqn:E; [|done]. injection He as ->.
    apply encode_Some in E as (n & -> & ->). apply closing_part_unread.
  - intros b f b' l c g c' k p [= <- He] [= <- Hg]. destruct (encode f) eqn:E; [|done]. injection He as ->.
    destruct (encode g) eqn:E'; [|done]. injection Hg as ->.
    apply encode_Some in E as (n & -> & ->). apply encode_Some in E' as (m & -> & ->). apply closing_glued_unread.
Defined.
End codec.
End Example.

(** ** Sessions on disk *)

(** What a process does to a journal: it appends, and another one opens it again. *)
Inductive Act := Append (frame : Frame) | Reopen.

Section store.
Context `{JsonText, Records} (path : SessionId → str) (io : str).

(** The acts one by one; the frames whose append the store acknowledged. *)
Fixpoint journal_run (id : SessionId) (s : Jsonl) (acts : list Act) : Jsonl * list Frame :=
  match acts with
  | [] => (s, [])
  | Append f :: acts =>
      let '(s, r) := jsonl_append (path id) io (None, None) s id f in
      let '(s, acknowledged) := journal_run id s acts in (s, appended f r ++ acknowledged)
  | Reopen :: acts => journal_run id (jsonl_release s) acts
  end.

(** The sessions of a [JsonlStore] by name; an append that fails is not followed by
    another, the session closes ([Hub]). *)
#[export] Instance jsonl_store : SessionStore (gmap str Jsonl) := {
  store_append m id f :=
    match m !! id with
    | None => Err (missing_session id)
    | Some s => let '(s, r) := jsonl_append (path id) io (None, None) s id f in let* _ := r in Ok (<[id := s]> m)
    end;
  store_replay m id since :=
    match m !! id with
    | None => Err (missing_session id)
    | Some s => jsonl_replay (path id) io s id since
    end;
}.

Context (laws : ∀ id, CodecLaws id).

Lemma ready_replay id s frames since : ready (path id) s frames → jsonl_replay (path id) io s id since = Ok (after since frames).
Proof.
  intros (w & Hk & _). unfold jsonl_replay. pose proof Hk as [ls (h & v & _ & _ & _ & Ej & _)]. rewrite Ej.
  pose proof (laws id). by eapply replay_kept.
Qed.

(** The store on disk keeps the laws the session relies on ([Hub], [Restart]). *)
#[export, refine] Instance jsonl_laws : StoreLaws (gmap str Jsonl) := {
  store_keeps m id frames := ∃ s, m !! id = Some s ∧ ready (path id) s frames;
}.
Proof.
  - intros m id frames since (s & Hm & Hs). cbn [store_replay jsonl_store]. rewrite Hm. by apply ready_replay.
  - intros m m' id f frames Hf Ha (s & Hm & Hs). cbn [store_append jsonl_store] in Ha. rewrite Hm in Ha.
    destruct (jsonl_append _ _ _ _ _ _) as [s' r] eqn:E. destruct r as [u|]; cbn [rbind] in Ha; [|done]. injection Ha as <-.
    exists s'. split; [apply lookup_insert_eq|]. pose proof (laws id). eapply jsonl_append_ready in E; [|done].
    unfold appended in E. by rewrite Hf in E.
Defined.

Lemma run_ready id s frames acts s' acks : ready (path id) s frames → journal_run id s acts = (s', acks) →
  ready (path id) s' (frames ++ acks).
Proof.
  pose proof (laws id) as Hl. revert s frames s' acks. induction acts as [|[f|] acts IH]; simpl; intros s frames s' acks Hs Hr.
  - injection Hr as <- <-. by rewrite app_nil_r.
  - destruct (jsonl_append _ _ _ _ _ _) as [s1 r] eqn:E. destruct (journal_run _ _ _) as [s2 k] eqn:E'. injection Hr as <- <-.
    rewrite (assoc_L (++)). eapply IH; [|done]. by eapply jsonl_append_ready.
  - eapply IH; [|done]. by apply release_ready.
Qed.


(** a journal of an older version is carried on: the store's first append puts a
    version line before the frame, earlier lines are still read in the version they were
    written in, the new one in this version, and the journal then stands at this version. *)
Theorem older_journal_goes_on (id : SessionId) (d : Dir) (frames : list Frame) (w : N) (f : Frame) (s : Jsonl) :
  kept (path id) d frames w → is_durable (fr_event f) = true →
  jsonl_append (path id) io (None, None) (mkJsonl d false) id f = (s, Ok tt) →
  js_prepared s = true ∧ (∀ file, dr_journal (js_dir s) = Some file → prepared_version (path id) file = Ok VERSION)
  ∧ ∀ since, jsonl_replay (path id) io s id since = Ok (after since (frames ++ [f])).
Proof.
  intros Hk Hf Ha. pose proof (laws id) as Hl.
  assert (ready (path id) s (frames ++ [f])) as Hs.
  { eapply jsonl_append_ready in Ha; [|by exists w]. unfold appended in Ha. by rewrite Hf in Ha. }
  assert (js_prepared s = true) as Hp.
  { unfold jsonl_append in Ha. rewrite Hf in Ha. simpl in Ha. destruct (dr_journal d); [|done].
    unfold writer_append, writer_prepare in Ha. simpl in Ha. destruct (prepare_kept _ io _ _ _ Hk) as (d' & E & _). rewrite E in Ha.
    simpl in Ha. destruct (append_prepared _ _ _ _ _). by injection Ha as <- _. }
  split; [done|]. split; [|intros since; by apply ready_replay]. destruct Hs as (v & [ls Hd] & Hv). rewrite Hv in Hd by done.
  intros file Ej. eapply prepared_holds; [done|by left|done].
Qed.

(** a write that stops after [n] bytes of a frame's line, at an error or a crash,
    leaves a journal that replays what it held before, and the frame too when only the
    newline is missing. *)
Theorem torn_write_is_dropped (id : SessionId) (d : Dir) (frames : list Frame) (f : Frame) (b : Blobs) (l : bytes) (n : nat) :
  kept (path id) d frames VERSION → rec_encode (dr_blobs d) f = (b, Ok l) → n ≤ length l →
  let '(d', r) := append_prepared (path id) io (Some n) d f in
  is_ok r = false ∧ ∀ since, replay (path id) io d' since = Ok (after since (frames ++ if (n =? length l)%nat then [f] else [])).
Proof.
  intros Hk He Hn. pose proof (laws id) as Hl. destruct (append_stopped _ io _ _ _ _ _ _ Hk He Hn) as (d' & ls & -> & Hb & Hd).
  split; [done|]. intros since. destruct (Nat.eqb_spec n (length l)) as [Hw|Hne].
  - rewrite take_whole in Hd by done. destruct Hd as (h & v & Hh & Hc & Hr & Ej & Hp).
    destruct (encoded_line _ _ _ _ He) as (? & ? & ?).
    rewrite (replay_lines _ _ _ h v ls frames VERSION [] l) by (by rewrite ?app_nil_r).
    destruct l as [|c l]; [by apply encode_some in He|]. simpl.
    rewrite (decode_frame _ VERSION _ f) by (rewrite Hb; by eapply encoded_line). cbn [rbind].
    rewrite after_app. unfold after at 3. simpl. by destruct (_ <? _)%N.
  - rewrite app_nil_r. eapply replay_holds; [done|]. right. eapply part_unread; [done|lia].
Qed.

(** An acknowledged append to a journal that has come to this version. *)
Lemma append_acknowledged id s f s' : is_durable (fr_event f) = true →
  js_prepared s = true ∨ prepare (path id) io None (js_dir s) = (js_dir s, Ok tt) →
  jsonl_append (path id) io (None, None) s id f = (s', Ok tt) →
  js_prepared s' = true ∧ append_prepared (path id) io None (js_dir s) f = (js_dir s', Ok tt)
  ∧ ∃ b l, rec_encode (dr_blobs (js_dir s)) f = (b, Ok l).
Proof.
  intros Hf Hp Ha. unfold jsonl_append in Ha. rewrite Hf in Ha. simpl in Ha. destruct (dr_journal (js_dir s)) eqn:Ej; [|done].
  assert (writer_prepare (path id) io None s = (mkJsonl (js_dir s) true, Ok tt)) as Hw.
  { unfold writer_prepare. destruct (js_prepared s) eqn:Es; [by destruct s; simpl in *; subst|]. by destruct Hp as [| ->]. }
  unfold writer_append in Ha. simpl in Ha. rewrite Hw in Ha. simpl in Ha.
  destruct (append_prepared _ _ _ _ _) as [d r] eqn:E. injection Ha as <- ->. split; [done|]. split; [done|].
  unfold append_prepared in E. destruct (rec_encode _ _) as [b [k|]]; [by exists b, k|done].
Qed.

Lemma prepare_held d ls frames p id : holds (path id) d ls frames VERSION p → no_version p →
  prepare (path id) io None d = (d, Ok tt).
Proof.
  intros Hd Hp. pose proof (laws id). unfold prepare.
  assert (∃ file, dr_journal d = Some file) as [file Ej] by (destruct Hd as (h & v & _ & _ & _ & Ej & _); eauto).
  by rewrite Ej, (prepared_holds _ _ _ _ _ _ _ Hd Hp Ej).
Qed.

End store.

(** *** The theorems at work *)

Module Witness.
Import Example.
#[local] Instance closings : Records := records demo_state.
Definition path (_ : SessionId) : str := lit "/s/journal.jsonl".
Definition io : str := lit "no such file".
Definition empty_dir : Dir := mkDir None None ∅.
Definition created : Dir := (create (path (lit "ses_1")) io None empty_dir (lit "ses_1")).1.
Definition before_write : Jsonl := (journal_run path io (lit "ses_1") (mkJsonl created false) [Append (closing 1); Append (closing 2)]).1.
Definition laws (id : SessionId) : CodecLaws id := codec demo_state id.

Lemma before_write_kept : kept (path (lit "ses_1")) (js_dir before_write) [closing 1; closing 2] VERSION.
Proof.
  destruct (create_ready (session := lit "ses_1") (path (lit "ses_1")) io empty_dir eq_refl) as (d & Ec & Hs).
  assert (d = created) as -> by (unfold created; by rewrite Ec).
  destruct (run_ready path io laws (lit "ses_1") _ [] [Append (closing 1); Append (closing 2)] before_write [closing 1; closing 2] Hs)
    as (w & Hk & Hw); [by vm_compute|]. replace VERSION with w by (apply Hw; by vm_compute). exact Hk.
Qed.


(** A journal of version 2, with one frame. *)
Definition older : Dir := mkDir (Some (file_of [105%N :: lit "ses_1"; 123%N :: ones 1])) None ∅.
Lemma older_kept : kept (path (lit "ses_1")) older [closing 1] 2.
Proof.
  exists [123%N :: ones 1], (105%N :: lit "ses_1"), 2%N. split; [by vm_compute; set_solver|]. split; [done|]. split.
  - eapply reads_frame; [|constructor]. split; [apply closing_line|]. split; [eexists; split; [apply parse_closing|done]|].
    eexists. split; [vm_compute; reflexivity|]. intros b _. done.
  - split; [done|]. apply not_elem_of_nil.
Qed.

Lemma older_journal_goes_on_witness : ∃ s, jsonl_append (path (lit "ses_1")) io (None, None) (mkJsonl older false) (lit "ses_1") (closing 2) = (s, Ok tt)
  ∧ jsonl_replay (path (lit "ses_1")) io s (lit "ses_1") 0 = Ok [closing 1; closing 2].
Proof.
  eexists. split; [reflexivity|].
  exact (proj2 (proj2 (older_journal_goes_on path io laws (lit "ses_1") older [closing 1] 2 (closing 2) _ older_kept eq_refl eq_refl)) 0%N).
Defined.

Lemma torn_write_is_dropped_witness :
  let torn n := (append_prepared (path (lit "ses_1")) io (Some n) (js_dir before_write) (closing 3)).1 in
  replay (path (lit "ses_1")) io (torn 3) 0 = Ok [closing 1; closing 2]
  ∧ replay (path (lit "ses_1")) io (torn 5) 0 = Ok [closing 1; closing 2; closing 3].
Proof.
  split.
  - exact (proj2 (torn_write_is_dropped path io laws (lit "ses_1") (js_dir before_write) _ (closing 3) _ _ 3 before_write_kept eq_refl ltac:(vm_compute; lia)) 0%N).
  - exact (proj2 (torn_write_is_dropped path io laws (lit "ses_1") (js_dir before_write) _ (closing 3) _ _ 5 before_write_kept eq_refl ltac:(vm_compute; lia)) 0%N).
Defined.

(** Frame 3 torn, 4 acknowledged and lost, 5 acknowledged and the session unreadable. *)
Definition torn : Dir := (append_prepared (path (lit "ses_1")) io (Some 3) (js_dir before_write) (closing 3)).1.
Definition next (s : Jsonl) (f : Frame) : Jsonl := (jsonl_append (path (lit "ses_1")) io (None, None) s (lit "ses_1") f).1.
End Witness.
