(* ===== verification/Checkpoints.v ===== *)
(** * Checkpoints: a session opened from its last checkpoint

    The theorems about [checkpoint.rs] and [checkpoint/witness.rs] of [Jsonl].  A
    checkpoint names the line of the journal it stands at by offset and hash; the line
    is looked for from the end of the file, block by block.  What is written is read
    back at that line however the journal has grown since, with exactly the frames that
    follow it. *)

From S2P Require Import Prelude Text Digest Model CommandLine Interaction Event Transcript State PermPath PermRule PermDecide Chain Catalogue Tree Store Hub Restart Jsonl Journal.

(** ** The search from behind *)

Definition is_newline (b : N) : bool := (b =? newline)%N.

Lemma rposition_none l : one_line l → rposition is_newline l = None.
Proof.
  induction l as [|x l IH]; simpl; [done|]. intros [Hx Hl]%not_elem_of_cons. rewrite IH by done.
  unfold is_newline. by destruct (N.eqb_spec x newline).
Qed.

(** The blocks make no difference: the last newline of the first [end_] bytes. *)
Lemma previous_newline_last file end_ : end_ ≤ length file → previous_newline file end_ = rposition is_newline (take end_ file).
Proof.
  unfold previous_newline. enough (∀ fuel end_, end_ ≤ fuel → end_ ≤ length file →
    previous_from fuel file end_ = rposition is_newline (take end_ file)) as H by (intros; by apply H).
  clear end_. induction fuel as [|fuel IH]; intros e Hf He; cbn [previous_from].
  { by replace e with 0 by lia. }
  destruct (Nat.eqb_spec e 0) as [->|Hne]; [done|]. assert (0 < block) as Hb by apply Pos2Nat.is_pos.
  assert (take e file = take (e - block) file ++ take (e - (e - block)) (drop (e - block) file)) as ->.
  { rewrite <- (take_drop (e - block) (take e file)) at 1. f_equal; [rewrite take_take; f_equal; lia|]. by rewrite skipn_firstn_comm. }
  rewrite rposition_app, length_take_le by lia. change (fun b => (b =? newline)%N) with is_newline.
  destruct (rposition is_newline (take _ _)); [done|]. apply IH; lia.
Qed.

Lemma after_last_newline ls l : one_line l → after_newline (rposition is_newline (file_of ls ++ l)) = length (file_of ls).
Proof.
  intros Hl. rewrite rposition_app, rposition_none by done. destruct ls as [|k ls _] using rev_ind; [done|].
  rewrite file_of_snoc, (assoc_L (++)), rposition_app. rewrite !length_app. simpl. lia.
Qed.

Lemma before_line ls l rest : one_line l →
  before (file_of (ls ++ [l]) ++ rest) (length (file_of (ls ++ [l]))) = Ok (length (file_of ls), l ++ [newline]).
Proof.
  intros Hl. set (n := length (file_of (ls ++ [l]))).
  assert (n = length (file_of ls) + S (length l)) as Hn.
  { unfold n. rewrite file_of_snoc, !length_app. simpl. lia. }
  unfold before. destruct (Nat.eqb_spec n 0); [lia|]. rewrite length_app. fold n.
  destruct (Nat.ltb_spec (n + length rest) n); [lia|]. simpl.
  assert (take (n - 1) (file_of (ls ++ [l]) ++ rest) = file_of ls ++ l) as Ht.
  { rewrite file_of_snoc, !(assoc_L (++)), <- (assoc_L (++) _ _ rest). apply take_app_length'. rewrite length_app. lia. }
  rewrite bool_decide_true; last first.
  { rewrite file_of_snoc, (assoc_L (++)), <- (assoc_L (++) _ _ rest), lookup_app_r by (rewrite length_app; lia).
    rewrite length_app. by replace (n - 1 - (length (file_of ls) + length l)) with 0 by lia. }
  simpl. rewrite previous_newline_last by (rewrite length_app; fold n; lia). rewrite Ht, after_last_newline by done.
  do 2 f_equal. rewrite file_of_snoc, <- (assoc_L (++)), drop_app_length. apply take_app_length'. rewrite length_app. simpl. lia.
Qed.

(** ** The line of a checkpoint *)

(** What a checkpoint needs of the codec: a line tells its frame's sequence number and
    session without its pictures. *)
Class AnchorLaws `{JsonText, Records} := {
  raw_reads : ∀ b f b' l, rec_encode b f = (b', Ok l) →
    ∃ r, rec_raw (l ++ [newline]) = Some r ∧ fr_seq r = fr_seq f ∧ fr_session r = fr_session f;
}.

#[local] Arguments file_of : simpl never.

Section checkpoints.
Context `{CodecLaws} (path io : str).
Implicit Types (b : Blobs) (l p : bytes) (f : Frame) (d : Dir) (c : Checkpoint).

Definition anchor_line b l f : Prop :=
  frame_line b VERSION l f ∧ ∃ r, rec_raw (l ++ [newline]) = Some r ∧ fr_seq r = fr_seq f ∧ fr_session r = fr_session f.

(** A journal of this version: these lines for these frames, and [p] of a last one. *)
Definition written d (ls : list bytes) (fs : list Frame) p : Prop :=
  Forall2 (anchor_line (dr_blobs d)) ls fs ∧ dr_journal d = Some (file_of (header session :: ls) ++ p) ∧ one_line p.

Lemma anchor_one_line b l f : anchor_line b l f → one_line l.
Proof. by intros [[? _] _]. Qed.

Lemma anchors_one_line b ls fs : Forall2 (anchor_line b) ls fs → Forall (λ l, one_line l) ls.
Proof. induction 1; constructor; eauto using anchor_one_line. Qed.

Lemma locate_back fuel b ls l f ls' fs' rest : anchor_line b l f → Forall2 (anchor_line b) ls' fs' →
  (∀ g, g ∈ fs' → fr_seq f < fr_seq g)%N → length (file_of (ls ++ l :: ls')) ≤ fuel →
  locate_from fuel (file_of (ls ++ l :: ls') ++ rest) (fr_session f) (fr_seq f) (length (file_of (ls ++ l :: ls')))
  = Ok (length (file_of (ls ++ [l])), l ++ [newline]).
Proof.
  intros Hl. assert (∀ ks k, 0 < length (file_of (ks ++ [k]))) as Hpos.
  { intros ks k. rewrite file_of_snoc, !length_app. simpl. lia. }
  revert fs' fuel rest. induction ls' as [|k ls' IH] using rev_ind; intros fs' fuel rest Hls Hlt Hf.
  - pose proof (Hpos ls l). destruct fuel as [|fuel]; [lia|]. cbn [locate_from].
    destruct (Nat.eqb_spec (length (file_of (ls ++ [l]))) 0); [lia|]. rewrite before_line by by eapply anchor_one_line.
    cbn [rbind]. destruct Hl as [_ (r & -> & -> & ->)]. by rewrite N.eqb_refl, bool_decide_true.
  - apply Forall2_app_inv_l in Hls as (gs & ? & Hls & (g & ? & Hk & ->%Forall2_nil_inv_l & ->)%Forall2_cons_inv_l & ->).
    rewrite app_comm_cons, (assoc_L (++)) in Hf |- *. pose proof (Hpos (ls ++ l :: ls') k). destruct fuel as [|fuel]; [lia|].
    cbn [locate_from]. destruct (Nat.eqb_spec (length (file_of ((ls ++ l :: ls') ++ [k]))) 0); [lia|].
    rewrite before_line by by eapply anchor_one_line. cbn [rbind]. destruct Hk as [_ (r & -> & Es & _)].
    assert (fr_seq f < fr_seq g)%N by (apply Hlt; rewrite elem_of_app; right; by left). rewrite Es.
    destruct (N.eqb_spec (fr_seq g) (fr_seq f)); [lia|]. simpl. destruct (N.ltb_spec (fr_seq g) (fr_seq f)); [lia|].
    rewrite file_of_snoc, <- (assoc_L (++)). eapply IH; [done| |].
    + intros x Hx. apply Hlt. rewrite elem_of_app. by left.
    + rewrite file_of_snoc, !length_app in Hf. simpl in Hf. lia.
Qed.

Lemma locate_written d ls pre f post p : written d ls (pre ++ f :: post) p → fr_session f = session →
  (∀ g, g ∈ post → fr_seq f < fr_seq g)%N →
  ∃ ls0 l ls1, ls = ls0 ++ l :: ls1 ∧ Forall2 (anchor_line (dr_blobs d)) ls0 pre ∧ anchor_line (dr_blobs d) l f
    ∧ Forall2 (anchor_line (dr_blobs d)) ls1 post
    ∧ locate io d session (fr_seq f) = Ok (length (file_of (header session :: ls0 ++ [l])), l ++ [newline]).
Proof.
  intros (Hls & Ej & Hp) Hid Hlt. apply Forall2_app_inv_r in Hls as (ls0 & ? & F0 & (l & ls1 & Hl & F1 & ->)%Forall2_cons_inv_r & ->).
  exists ls0, l, ls1. do 4 (split; [done|]). unfold locate, journal_file. rewrite Ej. cbn [rbind].
  rewrite previous_newline_last by done. rewrite firstn_all, after_last_newline by done.
  pose proof (locate_back (S (length (file_of ((header session :: ls0) ++ l :: ls1)))) _ (header session :: ls0) l f ls1 post p
    Hl F1 Hlt ltac:(lia)) as E. by rewrite Hid in E.
Qed.

(** What checkpoints of a state need of the codec. *)
Definition checkpoints_read (state : SessionState) : Prop :=
  ∀ b c b' file, ck_state c = state → check_identity c session = Ok tt → ck_encode b c = (b', Ok file) →
    b ⊆ b' ∧ ∀ b'', b' ⊆ b'' → ck_decode b'' file = Ok c.

Lemma before_header ls l rest : one_line l →
  before (file_of (header session :: ls ++ [l]) ++ rest) (length (file_of (header session :: ls ++ [l])))
  = Ok (length (file_of (header session :: ls)), l ++ [newline]).
Proof. intros Hl. by apply (before_line (header session :: ls)). Qed.

Lemma anchors_read b ls fs : Forall2 (anchor_line b) ls fs → reads b VERSION ls fs VERSION.
Proof. induction 1 as [|l f ls fs [Hl _]]; [constructor|]. by eapply reads_frame. Qed.

Lemma tail_written d ls0 l ls1 fs p : Forall2 (anchor_line (dr_blobs d)) ls1 fs → one_line l → Forall (λ l, one_line l) ls0 → one_line p →
  dr_journal d = Some (file_of (header session :: ls0 ++ l :: ls1) ++ p) → p = [] ∨ unread p →
  tail_from path io d (length (file_of (header session :: ls0 ++ [l]))) = Ok (after 0 fs).
Proof.
  intros Hls Hl Hls0 Hp Ej Hu. destruct header_reads as [Hone Hh]. unfold tail_from. rewrite Ej.
  pose proof (anchors_one_line _ _ _ Hls) as Hls1.
  rewrite (chunks_file (header session :: ls0 ++ l :: ls1) p); [|constructor; [|apply Forall_app; split; [|constructor]]; done|done].
  csimpl. rewrite (check_newline _ _ VERSION); last first.
  { unfold check. cbn [mbind option_bind]. rewrite Hh. by apply checked_ok. }
  cbn [rbind]. replace (drop _ _) with (file_of ls1 ++ p); last first.
  { replace (header session :: ls0 ++ l :: ls1) with ((header session :: ls0 ++ [l]) ++ ls1) by (simpl; by rewrite <- (assoc_L (++))).
    rewrite file_of_app, <- (assoc_L (++)). by rewrite drop_app_length. }
  rewrite lines_file by done. unfold Jsonl.frames. simpl.
  rewrite (frames_reads _ _ _ _ _ _ _ _ _ (anchors_read _ _ _ Hls)), frames_torn by done. cbn [rbind]. by rewrite app_nil_r.
Qed.

(** A checkpoint that names the line of [f] is accepted and gives the frames after it. *)
Lemma resume_anchored faults d c ls0 l ls1 f post p file :
  dr_checkpoint d = Some file → ck_decode (dr_blobs d) file = Ok c → check_identity c session = Ok tt →
  ck_offset c = length (file_of (header session :: ls0 ++ [l])) → ck_line_hash c = hex (digest (l ++ [newline])) →
  fr_seq f = ck_seq c → fr_session f = session → Forall (λ l, one_line l) ls0 → anchor_line (dr_blobs d) l f →
  Forall2 (anchor_line (dr_blobs d)) ls1 post → one_line p → p = [] ∨ unread p →
  dr_journal d = Some (file_of (header session :: ls0 ++ l :: ls1) ++ p) →
  checkpoint_resume path io faults d session = (d, Ok (mkResumed (Some (ck_state c)) (after 0 post))).
Proof.
  intros Ef Ed Ei Eo Eh Es Hid H0' Hl H1' Hp Hu Ej. unfold checkpoint_resume.
  assert (checkpoint_read io d session = Ok c) as ->.
  { unfold checkpoint_read. rewrite Ef, Ed. cbn [rbind]. rewrite Ei. cbn [rbind]. unfold witness_at, journal_file. rewrite Ej. cbn [rbind].
    replace (header session :: ls0 ++ l :: ls1) with ((header session :: ls0 ++ [l]) ++ ls1) by (simpl; by rewrite <- (assoc_L (++))).
    rewrite Eo, file_of_app, <- (assoc_L (++)), before_header by by eapply anchor_one_line. cbn [rbind snd].
    rewrite Eh, bool_decide_true by done. cbn [negb]. destruct Hl as [_ (r & -> & -> & ->)].
    by rewrite Es, Hid, N.eqb_refl, bool_decide_true. }
  cbn [rbind]. rewrite Eo, (tail_written d ls0 l ls1 post p); try done; by eapply anchor_one_line.
Qed.

(** A journal that this version created and appended to. *)
Lemma created_written d : dr_journal d = None → ∃ d', create path io None d session = (d', Ok tt) ∧ written d' [] [] [].
Proof.
  intros Ed. unfold create. rewrite Ed. eexists. split; [done|]. split; [constructor|]. split; [|apply not_elem_of_nil].
  cbn [set_journal dr_journal]. rewrite app_nil_r. exact (eq_sym (f_equal Some (file_of_snoc [] _))).
Qed.

Lemma append_written `{!AnchorLaws} d ls fs f d' : written d ls fs [] → append_prepared path io None d f = (d', Ok tt) →
  ∃ l, written d' (ls ++ [l]) (fs ++ [f]) [].
Proof.
  intros (Hls & Ej & _) Ha. unfold append_prepared, append_line in Ha. destruct (rec_encode _ _) as [b [l|]] eqn:Ee; [|done].
  cbn [set_blobs dr_journal] in Ha. rewrite Ej in Ha. cbn [write_line] in Ha. apply (f_equal fst) in Ha. cbn [fst] in Ha. subst d'.
  destruct (encode_reads _ _ _ _ Ee) as (Hb & Hl & _). exists l. split; [|split; [|apply not_elem_of_nil]]; cbn [set_journal dr_journal dr_blobs set_blobs].
  - apply Forall2_app; [|by constructor; [split; [by eapply encoded_line|by eapply raw_reads]|constructor]].
    eapply Forall2_impl; [done|]. intros k g [Hk ?]. split; [by eapply frame_line_blobs|done].
  - by rewrite !app_nil_r, app_comm_cons, file_of_snoc.
Qed.

End checkpoints.

(** *** The theorem at work *)

Module Witness.
Import Example.
Definition session : SessionId := lit "ses_1".
Definition path : str := lit "/s/journal.jsonl".
Definition io : str := lit "no such file".
Definition state : SessionState := fold_frames demo_state [closing 1; closing 2].
#[local] Instance closings : Records := records state.
Definition laws : CodecLaws session := codec state session.

Lemma raw_line n : raw ((123%N :: ones n) ++ [newline]) = Some (closing n).
Proof. unfold raw. rewrite trim_end_after. apply raw_closing. Qed.

#[local] Instance anchors : AnchorLaws.
Proof.
  split. intros b f b' l [= <- He]. destruct (encode f) as [k|] eqn:E; [|done]. injection He as ->.
  apply encode_Some in E as (n & -> & ->). exists (closing n). split; [|done]. apply raw_line.
Qed.

Lemma offset_back n h : offset_of (replicate n 49%N ++ 125%N :: h) = (n, h).
Proof. induction n as [|n IH]; simpl; [done|]. by rewrite IH. Qed.

Lemma state_checkpoints_read : checkpoints_read (session := session) state.
Proof.
  intros b c b' file Es Ei [= <- <-]. split; [done|]. intros b'' _. simpl. unfold decode_checkpoint, encode_checkpoint.
  rewrite offset_back. unfold check_identity in Ei. destruct (negb _ || _) eqn:E1; [done|]. destruct (negb _ || _) eqn:E2 in Ei; [done|].
  bools. apply N.eqb_eq in H0, H2. destruct c. simpl in *. by subst.
Qed.

Definition append_many (d : Dir) (fs : list Frame) : Dir := foldl (λ d f, (append_prepared path io None d f).1) d fs.
Definition dir (n : nat) : Dir := append_many (create path io None (mkDir None None ∅) session).1 (closing <$> seq 1 n).
Definition checkpointed : Dir := (checkpoint_file io false (dir 3) session (checkpoint_new state)).1.
Definition grown : Dir := append_many checkpointed [closing 4].
Definition torn : Dir := (append_prepared path io (Some 2) grown (closing 5)).1.
Definition line (n : nat) : bytes := 123%N :: ones n.

Lemma lines_written d (ns : list nat) p : dr_journal d = Some (file_of (header session :: (line <$> ns)) ++ p) → one_line p →
  written (session := session) d (line <$> ns) (closing <$> ns) p.
Proof.
  intros Ej Hp. split; [|done]. apply Forall2_fmap, Forall_Forall2_diag, Forall_forall. intros n _. split.
  - eapply (encoded_line (H1 := laws) (dr_blobs d)). simpl. unfold line. rewrite <- (Nat2N.id n) at 2. reflexivity.
  - exists (closing n). split; [|done]. apply raw_line.
Qed.

End Witness.
