(* ===== verification/Asks.v ===== *)
(** * Asks: interactions a session holds open, and the small handlers

    [bingo-core/src/session/interactions.rs] with its receipts
    ([interactions/receipt.rs]), and the handlers of [session.rs],
    [session/signals.rs] and [session/complete.rs] that publish on a client's or
    a plugin's behalf.  A handler is a step of the hub that may fail, which is
    when the store refused a frame; the rest of the handler is then not run. *)

From S2P Require Import Prelude Text Model Interaction Event Transcript State Tree Recovery Queue Gate Commands Store Hub.

(** ** Receipts *)

Definition skipped_it_decides : str := lit "skipped " ++ [183%N] ++ lit " it decides".

Definition words (question : Question) (answer : Answer) : str :=
  match answer with
  | TextAnswer text => text
  | Choice ids other =>
      join (lit ", ")
        (omap (fun id => option_label <$> find_bool (fun o => bool_decide (option_id o = id)) (question_options question)) ids
         ++ option_list other)
  | CancelAnswer => skipped_it_decides
  | _ => lit "skipped"
  end.

(** [receipt::answered]. *)
Definition answered (open : Interaction) (answer : Answer) (held : bool) : option ItemBody :=
  let said := fun question answer =>
    Some (BQuestionAnswer (Some (int_opened_at open)) (int_item open) (int_id open) question answer) in
  match int_kind open with
  | KPermission tool _ _ _ _ _ =>
      match answer with
      | DenyAnswer feedback =>
          Some (BPermissionReceipt (if held then None else Some (int_opened_at open)) (int_item open) (int_id open) tool DDeny feedback)
      | _ => None
      end
  | KQuestion question => said (question_text question) (words question answer)
  | KForm title questions =>
      let title := default (lit "Form") title in
      match answer with
      | FormAnswer answers =>
          said title (join (lit "; ")
            (zip_with (fun q a => default (question_text q) (question_header q) ++ lit ": " ++ words q a) questions answers))
      | CancelAnswer => said title skipped_it_decides
      | _ => said title (lit "declined")
      end
  | KConfirm _ _ | KLogin _ _ => None
  end.

(** Login text is a credential, delivered only on the private reply channel. *)
Definition recorded_answer (kind : InteractionKind) (answer : Answer) : Answer :=
  match kind, answer with
  | KLogin _ _, TextAnswer _ => TextAnswer (lit "[redacted]")
  | _, _ => answer
  end.

(** *** As [{:?}] prints them *)

Definition spec_debug (s : AnswerSpec) : str :=
  match s with
  | SpecAllowChanged => lit "AllowChanged" | SpecAllowOnce => lit "AllowOnce" | SpecAllowSession => lit "AllowSession"
  | SpecDeny => lit "Deny" | SpecChoice => lit "Choice" | SpecText => lit "Text" | SpecConfirm => lit "Confirm"
  | SpecCancel => lit "Cancel" | SpecForm => lit "Form"
  end.
Definition reason_debug (r : CancelReason) : str :=
  match r with
  | CancelTurnEnded => lit "TurnEnded" | CancelCommandEnded => lit "CommandEnded" | CancelInterrupted => lit "Interrupted"
  | CancelSessionClosed => lit "SessionClosed" | CancelExpired => lit "Expired" | CancelSuperseded => lit "Superseded"
  end.

Definition interaction_guard_ms : Z := 400.

(** A client's answer as it arrives ([mailbox.rs]). *)
Record Answering := mkAnswering {
  aw_intent : IntentId;
  aw_interaction : InteractionId;
  aw_answer : Answer;
  aw_activation : Activation;
  aw_name : str;
  aw_surface : str;
  aw_plugin : bool;
}.

Definition is_permission (k : InteractionKind) : bool := match k with KPermission _ _ _ _ _ _ => true | _ => false end.
Definition withholds (a : Answer) : bool := match a with DenyAnswer _ | CancelAnswer => true | _ => false end.

(** [refuse]: why this answer cannot be taken, if it cannot. *)
Definition refuse (pending : gmap str PendingAsk) (now : Timestamp) (id : InteractionId) (answer : Answer)
    (activation : Activation) (plugin : bool) : option (ErrorCode * str) :=
  match pending !! id with
  | None => Some (InteractionClosed, lit "no such open interaction")
  | Some p =>
      let i := pa_interaction p in
      if plugin && is_permission (int_kind i)
      then Some (PermissionDenied, lit "plugins cannot answer permission interactions")
      else if negb (bool_decide (answer_spec answer ∈ int_answers i))
      then Some (InvalidInput, spec_debug (answer_spec answer) ++ lit " is not an accepted answer here")
      else if bool_decide (activation = Keyboard) && negb (withholds answer)
              && match int_guard_until i with Some guard => (now <? guard)%Z | None => false end
      then Some (NotReady, lit "answered too soon after opening")
      else None
  end.

Section handlers.
Context {St : Type} `{SessionStore St}.
Context (clock : nat → Timestamp) (hash_order : gmap str PendingAsk → list str).
(** Ids minted, the clock's checked addition in milliseconds, what
    [refresh_config] would state and whether it differs from what clients hold,
    and whether plugins' links rewrite such events first. *)
Context (mint_interaction mint_item : nat → str) (checked_add : Timestamp → Z → option Timestamp).
Context (view : nat → ConfigView) (config_eqb : ConfigView → ConfigView → bool) (has_links : bool).

Definition Act (A : Type) : Type := Hub St → Hub St * result KernelError A.
Definition abind {A B} (m : Act A) (k : A → Act B) : Act B := fun h =>
  match m h with (h', Ok x) => k x h' | (h', Err e) => (h', Err e) end.
Definition aret {A} (x : A) : Act A := fun h => (h, Ok x).
Definition update (f : Hub St → Hub St) : Act () := fun h => (f h, Ok tt).
Notation "m ;; k" := (abind m (fun _ => k)) (at level 100, k at level 200, right associativity).
Notation "x <- m ;; k" := (abind m (fun x => k)) (at level 100, m at next level, k at level 200, right associativity).

Definition say (e : Event) (cause : option IntentId) : Act Seq := fun h => publish clock hash_order h e cause.
Definition tell (e : Event) (cause : option IntentId) : Act () := say e cause;; aret tt.

Definition reject_intent (intent : IntentId) (code : ErrorCode) (message : str) : Act () :=
  tell (IntentAck intent (OutRejected (mkKernelError code message))) (Some intent).
Definition applied (intent : IntentId) (result : Value) : Act () :=
  tell (IntentAck intent (OutApplied result)) (Some intent).

Definition is_running (h : Hub St) (turn : TurnId) : bool :=
  match dk_running (hb_bench h) with Some r => bool_decide (rn_turn r = turn) | None => false end.

(** *** Summaries *)

Definition with_busy_asking (busy asking : bool) (x : SessionSummary) : SessionSummary :=
  mkSessionSummary (ss_id x) (ss_key x) (ss_title x) (ss_cwd x) (ss_parent x) (ss_driver x)
    (ss_choice x) (ss_system_extra x) (ss_tools x) (ss_provider x) (ss_created_at x)
    (ss_updated_at x) (ss_usage x) busy asking (ss_history x).
Definition stamped (h : Hub St) (summary : SessionSummary) : SessionSummary :=
  with_busy_asking (bool_decide (is_Some (dk_running (hb_bench h)))) (negb (bool_decide (dk_pending (hb_bench h) = ∅))) summary.
Definition publish_summary (summary : SessionSummary) : Act () := fun h =>
  tell (SessionUpdated (stamped h summary)) None h.
Definition restate_summary : Act () := fun h => publish_summary (st_summary (hb_state h)) h.

(** *** Items *)

Definition refresh_config : Act () := fun h =>
  let config := view (hb_taken h) in
  if config_eqb config (st_config (hb_state h)) then (h, Ok tt)
  else if has_links then (h, Ok tt)            (* comes back by mail, rewritten *)
  else tell (ConfigChanged config) None h.

Definition recorded_receipt (h : Hub St) (body : ItemBody) : option Item :=
  match body with
  | BPermissionReceipt _ _ interaction _ _ _ =>
      find_bool (fun i => match item_body i with
                          | BPermissionReceipt _ _ id _ _ _ => bool_decide (id = interaction)
                          | _ => false
                          end) (items (st_transcript (hb_state h)))
  | _ => None
  end.

Definition is_receipt (body : ItemBody) : bool := match body with BPermissionReceipt _ _ _ _ _ _ => true | _ => false end.

Definition record_item (item : Item) : Act Item := fun h =>
  (canonical <- match recorded_receipt h (item_body item) with
                | Some recorded => aret recorded
                | None => tell (ItemCompleted item) None;; aret item
                end;;
   (if is_receipt (item_body item) then refresh_config else aret tt);;
   aret canonical) h.

Definition record_for (intent : option IntentId) (body : ItemBody) : Act ItemId := fun h =>
  let turn := rn_turn <$> dk_running (hb_bench h) in
  (item <- record_item (fresh (mint_item (hb_taken h)) (clock (hb_taken h)) turn intent body);; aret (item_id item)) h.
Definition record (body : ItemBody) : Act ItemId := record_for None body.

Definition emit (turn : TurnId) (e : Event) : Act () := fun h =>
  if negb (is_running h turn) then (h, Ok tt)
  else match e with
       | ItemCompleted item => (record_item item;; aret tt) h
       | e => tell e None h
       end.

(** [receipt]: the result is sent back unless the journal failed. *)
Definition receipt (item : Item) : Act (result KernelError Item) := fun h =>
  let '(h', result_) := match item_turn item with
                        | Some turn => if is_running h turn then record_item item h
                                       else (h, Err (mkKernelError InterruptedCode (lit "the receipt's turn has ended")))
                        | None => (h, Err (mkKernelError InterruptedCode (lit "the receipt's turn has ended")))
                        end in
  match result_ with
  | Err error => if bool_decide (ke_code error = InterruptedCode) then (h', Ok (Err error)) else (h', Err error)
  | Ok item => (h', Ok (Ok item))
  end.

Definition progress (item : ItemId) (tail : str) : Act () := fun h =>
  let n := u32_add (dk_progress (hb_bench h)) 1 in
  tell (ItemDelta item n DTail tail) None (set_bench h (with_progress n (hb_bench h))).

Definition extend (plugin kind : str) (payload : Value) : Act () :=
  if has_links then aret tt else tell (Extension plugin kind payload) None.

Definition charge (turn : option TurnId) (plugin : str) (usage : Usage) : Act () := fun h =>
  let turn := match turn with Some t => if is_running h t then Some t else None | None => None end in
  tell (UsageCharged turn plugin usage) None h.

(** *** Interactions *)

(** The record [open_interaction] builds. *)
Definition new_interaction (h : Hub St) (item : option ItemId) (kind : InteractionKind) (answers : list AnswerSpec) : Interaction :=
  let now := clock (hb_taken h) in
  mkInteraction (mint_interaction (hb_taken h)) (hb_id h) (rn_turn <$> dk_running (hb_bench h)) item
    now (checked_add now interaction_guard_ms) None kind answers.

Definition open_interaction (item : option ItemId) (kind : InteractionKind) (answers : list AnswerSpec) : Act () := fun h =>
  let interaction := new_interaction h item kind answers in
  let pending := <[int_id interaction := mkPendingAsk interaction (commands_busy (dk_commands (hb_bench h)))]> (dk_pending (hb_bench h)) in
  (tell (InteractionOpened interaction) None;; restate_summary) (set_bench h (with_pending pending (hb_bench h))).

Definition answer_receipt (h : Hub St) (open : Interaction) (answer : Answer) : option Item :=
  let? body := answered open answer (held h open) in
  Some (fresh (mint_item (hb_taken h)) (clock (hb_taken h)) (int_turn open) None body).

(** The pending ask is taken out and its asker answered. *)
Definition resolve (id : InteractionId) (reply : result KernelError Answered) (h : Hub St) : Hub St :=
  let d := hb_bench h in
  set_bench h (with_pending (delete id (dk_pending d)) (with_replies (dk_replies d ++ [(id, reply)]) d)).

Definition answer (a : Answering) : Act () := fun h =>
  match refuse (dk_pending (hb_bench h)) (clock (hb_taken h)) (aw_interaction a) (aw_answer a) (aw_activation a) (aw_plugin a) with
  | Some (code, message) => reject_intent (aw_intent a) code message h
  | None =>
      match dk_pending (hb_bench h) !! aw_interaction a with
      | None => (h, Ok tt)
      | Some p =>
          let open := pa_interaction p in
          let recorded := recorded_answer (int_kind open) (aw_answer a) in
          let receipt := answer_receipt h open recorded in
          let asked := mkAsked (int_id open) (int_opened_at open) (held h open) in
          let by_ := if aw_plugin a then ByPlugin (aw_name a) (aw_surface a) else ByClient (aw_name a) (aw_surface a) in
          (update (resolve (aw_interaction a) (Ok (mkAnswered asked (aw_answer a))));;
           tell (InteractionResolved (aw_interaction a) recorded by_) (Some (aw_intent a));;
           match receipt with Some item => record_item item;; aret tt | None => aret tt end;;
           applied (aw_intent a) VNull;;
           restate_summary) h
      end
  end.

(** [cancel_each]'s loop. *)
Fixpoint cancel_loop (asks : list (InteractionId * PendingAsk)) (reason : CancelReason) : Act () :=
  match asks with
  | [] => aret tt
  | (id, _) :: asks =>
      update (fun h => set_bench h (with_replies (dk_replies (hb_bench h)
        ++ [(id, Err (mkKernelError InteractionClosed (lit "cancelled: " ++ reason_debug reason)))]) (hb_bench h)));;
      tell (InteractionCancelled id reason) None;;
      cancel_loop asks reason
  end.

Definition cancel_each (asks : list (InteractionId * PendingAsk)) (reason : CancelReason) : Act () :=
  cancel_loop asks reason;;
  match asks with [] => aret tt | _ :: _ => restate_summary end.

Definition cancel_interactions (reason : CancelReason) : Act () := fun h =>
  cancel_each (drained hash_order (dk_pending (hb_bench h))) reason (set_bench h (with_pending ∅ (hb_bench h))).

Definition cancel_command_interactions : Act () := fun h =>
  let pending := dk_pending (hb_bench h) in
  let asks := retain (fun p => pa_by_command p.2) (drained hash_order pending) in
  cancel_each asks CancelCommandEnded
    (set_bench h (with_pending (foldr (fun p m => delete p.1 m) pending asks) (hb_bench h))).

(** *** Signals *)

Definition publish_signal (plugin kind : str) (payload : Value) (generation : option ItemId) : Act () := fun h =>
  let owner := let? kinds := st_signals (hb_state h) !! plugin in let? s := kinds !! kind in ls_generation s in
  if is_null payload && match generation with Some g => negb (bool_decide (owner = Some g)) | None => false end
  then (h, Ok tt)
  else tell (Signal generation plugin kind payload) None h.

(** [handoff]: every signal an item owns becomes another's. *)
Fixpoint each {A} (f : A → Act ()) (l : list A) : Act () :=
  match l with [] => aret tt | x :: l => f x;; each f l end.
Definition handoff (plugin : str) (from to : ItemId) : Act () := fun h =>
  let kinds := default ∅ (st_signals (hb_state h) !! plugin) in
  let signals := omap (fun kind => let? s := kinds !! kind in
                                   if bool_decide (ls_generation s = Some from) then Some (kind, ls_payload s) else None)
                   (ordered (dom kinds)) in
  each (fun p => publish_signal plugin p.1 p.2 (Some to)) signals h.
End handlers.

(** ** What a handler depends on

    Two hubs that differ only in what reply channels were sent are the same to
    every handler. *)

Section privacy.
Context {St : Type} `{SessionStore St}.
Context (clock : nat → Timestamp) (hash_order : gmap str PendingAsk → list str).
Implicit Types h : Hub St.

Definition set_replies (r : list (InteractionId * result KernelError Answered)) h : Hub St :=
  set_bench h (with_replies r (hb_bench h)).
Definition alike h h' : Prop := ∃ r, h' = set_replies r h.

#[export] Instance alike_equivalence : Equivalence alike.
Proof.
  split.
  - intros h. exists (dk_replies (hb_bench h)). by destruct h as [? ? ? ? ? ? ? ? [] ? ? ? ?].
  - intros h h' [r ->]. exists (dk_replies (hb_bench h)). by destruct h as [? ? ? ? ? ? ? ? [] ? ? ? ?].
  - intros h1 h2 h3 [r ->] [r' ->]. by exists r'.
Qed.

(** The same outcome, and hubs alike. *)
Definition alike_result {A} : relation (Hub St * A) := λ x y, alike x.1 y.1 ∧ x.2 = y.2.

Lemma alike_terminals {A} (e : A → Event) (cause : A → option IntentId) (l : list A) r h :
  foldl (λ h x, terminal_event clock h (e x) (cause x)) (set_replies r h) l =
  set_replies r (foldl (λ h x, terminal_event clock h (e x) (cause x)) h l).
Proof. revert h. induction l as [|x l IH]; intros h; simpl; [done|]. exact (IH (terminal_event clock h (e x) (cause x))). Qed.

Lemma alike_remember r h : remember_stopped_ask (set_replies r h) = set_replies r (remember_stopped_ask h).
Proof. unfold remember_stopped_ask. simpl. by destruct (dk_running (hb_bench h)). Qed.

Lemma alike_refusals error r h :
  ∃ r', storage_refusals clock hash_order (set_replies r h) error = set_replies r' (storage_refusals clock hash_order h error).
Proof.
  unfold storage_refusals.
  change (stop_serving (set_replies r h)) with (set_replies r (stop_serving h)). rewrite alike_remember.
  set (h1 := remember_stopped_ask (stop_serving h)). clearbody h1. clear h.
  change (set_bench (set_replies r h1) (with_running None (hb_bench (set_replies r h1))))
    with (set_replies r (set_bench h1 (with_running None (hb_bench h1)))).
  set (h2 := set_bench h1 _). clearbody h2. clear h1.
  match goal with |- context [terminal_event clock (set_replies r h2) ?e ?c] =>
    change (terminal_event clock (set_replies r h2) e c) with (set_replies r (terminal_event clock h2 e c)) end.
  set (h3 := terminal_event clock h2 _ _). clearbody h3. clear h2.
  unfold drain_all. rewrite (alike_terminals (λ w, rejected w.1 error) (λ w, Some w.1)). simpl.
  set (h4 := foldl _ h3 _). clearbody h4. by eexists.
Qed.

Lemma alike_broadcast r h f : broadcast (set_replies r h) f = set_replies r (broadcast h f).
Proof. reflexivity. Qed.
Lemma alike_write r h : checkpoint_write (set_replies r h) = set_replies r (checkpoint_write h).
Proof. unfold checkpoint_write. change (hb_store (set_replies r h)) with (hb_store h). by destruct (hb_store h). Qed.

Lemma alike_failed error r h :
  alike (storage_failed clock hash_order h error) (storage_failed clock hash_order (set_replies r h) error).
Proof.
  unfold storage_failed. destruct (alike_refusals error r h) as [r' ->].
  generalize (storage_refusals clock hash_order h error) as x. intros x. exists r'. reflexivity.
Qed.

#[export] Instance publish_alike : Proper (alike ==> eq ==> eq ==> alike_result) (publish clock hash_order).
Proof.
  intros h ? [r ->] e ? <- cause ? <-. unfold publish.
  destruct (sequence clock h e cause) as [h1 f] eqn:E.
  assert (sequence clock (set_replies r h) e cause = (set_replies r h1, f)) as -> by (injection E as <- <-; done).
  change (hb_store (set_replies r h1)) with (hb_store h1). change (hb_id (set_replies r h1)) with (hb_id h1).
  assert (∀ x, alike_result (published x f) (published (set_replies r x) f)) as Hpub.
  { intros x. unfold published. rewrite alike_broadcast. destruct (is_compacted _); [rewrite alike_write|];
      (split; [by eexists|reflexivity]). }
  destruct (is_durable e); [|exact (Hpub h1)].
  destruct (hb_store h1) as [st|]; [|exact (Hpub (journal_frame h1 f None))].
  destruct (store_append _ _ _) as [st'|error]; [exact (Hpub (journal_frame h1 f (Some st')))|].
  split; [|reflexivity]. apply alike_failed.
Qed.

(** A handler that reads no reply. *)
Definition blind {A} (m : Act A) : Prop := Proper (alike ==> alike_result) m.

Lemma blind_bind {A B} (m : Act A) (k : A → Act B) : blind m → (∀ x, blind (k x)) → blind (abind m k).
Proof.
  intros Hm Hk h h' Ha. unfold abind. destruct (Hm h h' Ha) as [Ha' Er]. destruct (m h) as [h1 r], (m h') as [h1' r']. simpl in *.
  subst r'. destruct r as [x|error]; [by apply Hk|by split].
Qed.
Lemma blind_ret {A} (x : A) : blind (aret x).
Proof. intros h h' Ha. by split. Qed.
Lemma blind_say e cause : blind (say clock hash_order e cause).
Proof. intros h h' Ha. unfold say. by apply publish_alike. Qed.
Lemma blind_tell e cause : blind (tell clock hash_order e cause).
Proof. apply blind_bind; [apply blind_say|intros; apply blind_ret]. Qed.

Lemma alike_fields h h' : alike h h' → hb_state h' = hb_state h ∧ hb_taken h' = hb_taken h
  ∧ dk_running (hb_bench h') = dk_running (hb_bench h) ∧ dk_pending (hb_bench h') = dk_pending (hb_bench h).
Proof. by intros [r ->]. Qed.

Lemma blind_restate : blind (restate_summary clock hash_order).
Proof.
  intros h h' Ha. destruct (alike_fields _ _ Ha) as (Es & _ & Er & Ep). unfold restate_summary, publish_summary, stamped.
  rewrite Es, Er, Ep. by apply blind_tell.
Qed.

Context (view : nat → ConfigView) (config_eqb : ConfigView → ConfigView → bool) (has_links : bool).

Lemma blind_refresh : blind (refresh_config clock hash_order view config_eqb has_links).
Proof.
  intros h h' Ha. destruct (alike_fields _ _ Ha) as (Es & Et & _). unfold refresh_config. rewrite Es, Et.
  destruct (config_eqb _ _); [by split|]. destruct has_links; [by split|by apply blind_tell].
Qed.

Lemma blind_record_item item : blind (record_item clock hash_order view config_eqb has_links item).
Proof.
  intros h h' Ha. destruct (alike_fields _ _ Ha) as (Es & _). unfold record_item, recorded_receipt. rewrite Es.
  apply blind_bind; [|intros canonical; apply blind_bind|done].
  - destruct (match item_body item with BPermissionReceipt _ _ _ _ _ _ => _ | _ => _ end);
      [apply blind_ret|apply blind_bind; [apply blind_tell|intros; apply blind_ret]].
  - destruct (is_receipt _); [apply blind_refresh|apply blind_ret].
  - intros. apply blind_ret.
Qed.
End privacy.

Section login.
Context {St : Type} `{SessionStore St}.
Context (clock : nat → Timestamp) (hash_order : gmap str PendingAsk → list str) (mint_item : nat → str).
Context (view : nat → ConfigView) (config_eqb : ConfigView → ConfigView → bool) (has_links : bool).
Implicit Types h : Hub St.

Definition answering (a : Answering) (ans : Answer) : Answering :=
  mkAnswering (aw_intent a) (aw_interaction a) ans (aw_activation a) (aw_name a) (aw_surface a) (aw_plugin a).

Lemma blind_after_answer id recorded by_ intent receipt :
  blind (abind (tell clock hash_order (InteractionResolved id recorded by_) intent) (λ _,
         abind match receipt with
               | Some item => abind (record_item clock hash_order view config_eqb has_links item) (λ _, aret tt)
               | None => aret tt
               end (λ _,
         abind (applied clock hash_order (default [] intent) VNull) (λ _, restate_summary clock hash_order))) : @Act St ()).
Proof.
  apply blind_bind; [apply blind_tell|]. intros _. apply blind_bind.
  - destruct receipt; [apply blind_bind; [apply blind_record_item|intros; apply blind_ret]|apply blind_ret].
  - intros _. apply blind_bind; [apply blind_tell|intros; apply blind_restate].
Qed.

(** What a person types into a login reaches the asker and nobody else: of
    two sessions alike in all but the text of such an answer, every frame
    published, the journal, the store, the state, the queues of the subscribers
    and the outcome are the same, and so is all the rest but the private reply. *)
Theorem login_secret_stays_private h a p provider flow secret secret' :
  dk_pending (hb_bench h) !! aw_interaction a = Some p → int_kind (pa_interaction p) = KLogin provider flow →
  let '(h1, r1) := answer clock hash_order mint_item view config_eqb has_links (answering a (TextAnswer secret)) h in
  let '(h2, r2) := answer clock hash_order mint_item view config_eqb has_links (answering a (TextAnswer secret')) h in
  r1 = r2 ∧ set_replies [] h1 = set_replies [] h2.
Proof.
  intros Ep Ek.
  assert (alike_result (answer clock hash_order mint_item view config_eqb has_links (answering a (TextAnswer secret)) h)
                       (answer clock hash_order mint_item view config_eqb has_links (answering a (TextAnswer secret')) h)) as Ha.
  { unfold answer. cbn [answering aw_interaction aw_answer aw_activation aw_plugin aw_intent aw_name aw_surface].
    change (refuse ?m ?now ?id (TextAnswer secret') ?act ?pl) with (refuse m now id (TextAnswer secret) act pl).
    destruct (refuse _ _ _ _ _ _) as [[code message]|]; [by apply blind_tell; reflexivity|]. rewrite Ep.
    unfold answer_receipt, answered. rewrite Ek. cbn [recorded_answer mbind option_bind].
    apply (blind_after_answer _ _ _ (Some (aw_intent a)) None). by eexists. }
  destruct (answer _ _ _ _ _ _ (answering a (TextAnswer secret)) h) as [h1 r1],
    (answer _ _ _ _ _ _ (answering a (TextAnswer secret')) h) as [h2 r2]. destruct Ha as [[r E] Er]. simpl in E, Er. rewrite E. split; [exact Er|reflexivity].
Qed.
End login.

(** ** Every ask is held, shown and answered once *)

Section asks.
Context {St : Type} `{StoreLaws St}.
Context (clock : nat → Timestamp) (hash_order : gmap str PendingAsk → list str).
Context (mint_interaction mint_item : nat → str) (checked_add : Timestamp → Z → option Timestamp).
Context (view : nat → ConfigView) (config_eqb : ConfigView → ConfigView → bool) (has_links : bool).
Context (base : Seq).
Implicit Types h : Hub St.

Abbreviation Tell := (tell clock hash_order).
Abbreviation Step := (rtc (hub_step clock)).

(** A handler made of the hub's steps. *)
Definition steady {A} (m : @Act St A) : Prop := ∀ h, Step h (m h).1.

Lemma steady_bind {A B} (m : @Act St A) (k : A → Act B) : steady m → (∀ x, steady (k x)) → steady (abind m k).
Proof.
  intros Hm Hk h. unfold abind. specialize (Hm h). destruct (m h) as [h' [x|e]]; simpl in *; [|done]. by etrans; [|apply Hk].
Qed.
Lemma steady_ret {A} (x : A) : steady (aret x).
Proof. by intros h. Qed.
Lemma steady_tell e cause : steady (Tell e cause).
Proof. apply steady_bind; [intros h; apply steps_publish|intros; apply steady_ret]. Qed.
Lemma steady_bench {A} (f : Hub St → Bench) (m : @Act St A) : steady m → steady (λ h, m (set_bench h (f h))).
Proof. intros Hm h. eapply rtc_l; [apply hs_bench|apply Hm]. Qed.
Lemma steady_update (f : Hub St → Bench) : steady (update (λ h, set_bench h (f h))).
Proof. intros h. simpl. apply rtc_once, hs_bench. Qed.

Lemma step_serving h h' : hub_step clock h h' → hb_serving h' = true → hb_serving h = true.
Proof.
  destruct 1 as [| | | |h h' e cause f store E Hdur Hstore| | | | | |]; try done.
  - by injection E as <- _.
  - unfold checkpoint_write. by case_match.
  - unfold acknowledge. by repeat case_match.
Qed.
Lemma steps_serving h h' : Step h h' → hb_serving h' = true → hb_serving h = true.
Proof. induction 1; eauto using step_serving. Qed.

(** What a handler's frames do to the asks shown, the mark on the summary. *)
Definition asking_step (acc : bool) (e : Event) : bool :=
  match e with SessionUpdated summary => ss_asking summary | _ => acc end.

Lemma apply_event_asking e ts s : ss_asking (st_summary (apply_event e ts s).1) = asking_step (ss_asking (st_summary s)) e.
Proof. by_event s e. Qed.

Definition told h (e : Event) h' : Prop :=
  journal_ok base h' ∧ hb_bench h' = hb_bench h ∧ hb_taken h' = S (hb_taken h)
  ∧ (∀ id, is_open (hb_state h') id = open_step id (is_open (hb_state h) id) e)
  ∧ ss_asking (st_summary (hb_state h')) = asking_step (ss_asking (st_summary (hb_state h))) e.

(** Either the frame is out, or the session has stopped serving. *)
Lemma publish_cases h e cause : let '(h', r) := publish clock hash_order h e cause in
  (r = Ok (hb_seq h') ∧ hb_bench h' = hb_bench h ∧ hb_taken h' = S (hb_taken h)
   ∧ hb_state h' = (apply (hb_state h) (sequence clock h e cause).2).1)
  ∨ (∃ error, r = Err error ∧ hb_serving h' = false).
Proof.
  unfold publish. destruct (sequence clock h e cause) as [h1 f] eqn:E. cbn [snd].
  assert (∀ x : Hub St, hb_bench x = hb_bench h → hb_taken x = S (hb_taken h) → hb_state x = hb_state h →
    let '(h', r) := published x f in r = Ok (hb_seq h') ∧ hb_bench h' = hb_bench h ∧ hb_taken h' = S (hb_taken h)
      ∧ hb_state h' = (apply (hb_state h) f).1) as Hpub.
  { intros x Eb Et Es. unfold published. set (b := broadcast x f).
    assert (hb_bench b = hb_bench h ∧ hb_taken b = S (hb_taken h) ∧ hb_state b = (apply (hb_state h) f).1) as (? & ? & ?).
    { unfold b. simpl. by rewrite Es. }
    clearbody b. destruct (is_compacted _); [|done]. unfold checkpoint_write. by destruct (hb_store b). }
  assert (hb_bench h1 = hb_bench h ∧ hb_taken h1 = S (hb_taken h) ∧ hb_state h1 = hb_state h) as (Eb & Et & Es) by by injection E as <- _.
  destruct (is_durable e); [|specialize (Hpub h1 Eb Et Es); destruct (published h1 f); by left].
  destruct (hb_store h1) as [st|]; [|specialize (Hpub (journal_frame h1 f None) Eb Et Es); destruct (published _ f); by left].
  destruct (store_append _ _ _) as [st'|error].
  - specialize (Hpub (journal_frame h1 f (Some st')) Eb Et Es). destruct (published _ f). by left.
  - right. exists error. split; [done|]. unfold storage_failed. by destruct (steps_storage_refusals clock hash_order h1 error).
Qed.

(** While the store takes its frames, a frame does what it says. *)
Lemma tell_told h e cause : journal_ok base h →
  let '(h', r) := Tell e cause h in hb_serving h' = true → room base h' → r = Ok tt ∧ told h e h'.
Proof.
  intros Hok. pose proof (steps_publish clock hash_order h e cause) as Hst. pose proof (publish_cases h e cause) as Hc.
  unfold tell, abind, say in *. destruct (publish clock hash_order h e cause) as [h' r]. simpl in Hst.
  destruct Hc as [(-> & Eb & Et & Es)|(error & -> & Hs)]; simpl; [|congruence]. intros Hserve Hr. split; [done|].
  assert (journal_ok base h') as Hok' by by eapply steps_journal_ok.
  assert (hb_seq h < seq_next (hb_seq h))%N as Hlt.
  { unfold seq_next, u64_add. rewrite wrap_small; [lia|]. rewrite (jo_seq _ _ Hok). unfold room in Hr. rewrite Et in Hr. lia. }
  assert (st_seq (hb_state h) < seq_next (hb_seq h))%N as Hlt' by (pose proof (jo_state _ _ Hok); lia).
  split_and!; try done.
  - intros id. rewrite Es. destruct (is_lagged e) eqn:El.
    + unfold apply. simpl. rewrite El. by destruct e.
    + rewrite apply_admitted by done. simpl. rewrite apply_event_open. by destruct (hb_state h).
  - rewrite Es. destruct (is_lagged e) eqn:El.
    + unfold apply. simpl. rewrite El. by destruct e.
    + rewrite apply_admitted by done. simpl. rewrite apply_event_asking. by destruct (hb_state h).
Qed.

(** *** Handlers that leave the asks alone *)

Definition mild (e : Event) : bool :=
  match e with
  | SessionUpdated _ | SessionClosed _ | InteractionOpened _ | InteractionResolved _ _ _ | InteractionCancelled _ _ => false
  | _ => true
  end.

(** What a hub shows of its asks, and holds of them, is as it was. *)
Definition same_asks h h' : Prop :=
  journal_ok base h' ∧ hb_taken h ≤ hb_taken h'
  ∧ dk_pending (hb_bench h') = dk_pending (hb_bench h) ∧ dk_replies (hb_bench h') = dk_replies (hb_bench h)
  ∧ (∀ id, is_open (hb_state h') id = is_open (hb_state h) id)
  ∧ ss_asking (st_summary (hb_state h')) = ss_asking (st_summary (hb_state h)).

Lemma same_asks_trans h1 h2 h3 : same_asks h1 h2 → same_asks h2 h3 → same_asks h1 h3.
Proof.
  intros (? & ? & Ep & Er & Eo & Ea) (? & ? & Ep' & Er' & Eo' & Ea').
  split_and!; [done|lia|congruence..| |congruence]. intros id. by rewrite Eo'.
Qed.

Record calm {A} (m : @Act St A) : Prop := mk_calm {
  cm_steady : steady m;
  cm_calm : ∀ h, journal_ok base h → hb_serving (m h).1 = true → room base (m h).1 →
    (∃ x, (m h).2 = Ok x) ∧ same_asks h (m h).1;
}.

(** A handler that ended well went well at its first step. *)
Lemma bind_first {A B} (m : @Act St A) (k : A → Act B) h : (∀ x, steady (k x)) →
  hb_serving (abind m k h).1 = true → room base (abind m k h).1 → hb_serving (m h).1 = true ∧ room base (m h).1.
Proof.
  intros Hk Hs Hr. unfold abind in *. destruct (m h) as [h' [x|e]]; simpl in *; [|done].
  split; [eapply steps_serving; [apply (Hk x)|exact Hs]|]. pose proof (steps_taken _ _ _ (Hk x h')). by eapply room_le.
Qed.

Lemma calm_bind {A B} (m : @Act St A) (k : A → Act B) : calm m → (∀ x, calm (k x)) → calm (abind m k).
Proof.
  intros Hm Hk. assert (∀ x, steady (k x)) as Hks by (intros x; apply Hk).
  split; [by apply steady_bind; [apply Hm|]|]. intros h Hok Hs Hr.
  destruct (bind_first m k h Hks Hs Hr) as [Hs1 Hr1]. destruct (cm_calm _ Hm h Hok Hs1 Hr1) as [(x & Ex) Hsame].
  unfold abind in *. destruct (m h) as [h1 r]. simpl in *. subst r.
  destruct (cm_calm _ (Hk x) h1) as [? ?]; [apply Hsame|done..|]. split; [done|]. by eapply same_asks_trans.
Qed.

Lemma same_asks_refl h : journal_ok base h → same_asks h h.
Proof. intros Hok. unfold same_asks. by split_and!. Qed.

Lemma calm_ret {A} (x : A) : calm (aret x).
Proof. split; [apply steady_ret|]. intros h Hok _ _. split; [by exists x|by apply same_asks_refl]. Qed.

Lemma told_mild h e h' : mild e = true → told h e h' → same_asks h h'.
Proof.
  intros Hm (Hok & Eb & Et & Eo & Ea). split_and!; [done|lia|by rewrite Eb..| |].
  - intros id. rewrite Eo. by destruct e.
  - rewrite Ea. by destruct e.
Qed.

Lemma calm_tell e cause : mild e = true → calm (Tell e cause).
Proof.
  intros Hm. split; [apply steady_tell|]. intros h Hok Hs Hr. pose proof (tell_told h e cause Hok) as Ht.
  destruct (Tell e cause h) as [h' r]. destruct (Ht Hs Hr) as [-> Htold]. split; [by eexists|by eapply told_mild].
Qed.

Lemma calm_if {A} (b : Hub St → bool) (m k : @Act St A) : calm m → calm k → calm (λ h, if b h then m h else k h).
Proof.
  intros Hm Hk. split; intros h; [|]; destruct (b h); [apply Hm|apply Hk|by apply (cm_calm _ Hm)|by apply (cm_calm _ Hk)].
Qed.

Lemma calm_of {A B} (f : Hub St → B) (m : B → @Act St A) : (∀ b, calm (m b)) → calm (λ h, m (f h) h).
Proof. intros Hm. split; intros h; [apply (Hm (f h))|by apply (cm_calm _ (Hm (f h)))]. Qed.

Lemma calm_bench {A} (f : Hub St → Bench) (m : @Act St A) : calm m →
  (∀ h, dk_pending (f h) = dk_pending (hb_bench h) ∧ dk_replies (f h) = dk_replies (hb_bench h)) →
  calm (λ h, m (set_bench h (f h))).
Proof.
  intros Hm Hf. split; [apply steady_bench, Hm|]. intros h Hok Hs Hr.
  destruct (cm_calm _ Hm (set_bench h (f h))) as [? Hsame]; [|done..|].
  { eapply same_journal_ok; [|exact Hok]. by repeat split. }
  split; [done|]. destruct (Hf h) as [Ep Er]. destruct Hsame as (? & ? & Ep' & Er' & ? & ?). simpl in *.
  split_and!; try done; congruence.
Qed.

#[local] Hint Resolve calm_ret calm_tell : asks.

Lemma calm_refresh : calm (refresh_config clock hash_order view config_eqb has_links).
Proof.
  unfold refresh_config. apply (calm_if (λ h, config_eqb (view (hb_taken h)) (st_config (hb_state h))) (aret tt)); [auto with asks|].
  destruct has_links; [apply (calm_ret tt)|]. apply (calm_of (λ h, view (hb_taken h)) (λ c, Tell (ConfigChanged c) None)). auto with asks.
Qed.

Lemma calm_record_item item : calm (record_item clock hash_order view config_eqb has_links item).
Proof.
  unfold record_item. apply (calm_of (λ h, recorded_receipt h (item_body item))
    (λ found, abind (match found with Some recorded => aret recorded | None => abind (Tell (ItemCompleted item) None) (λ _, aret item) end)
       (λ canonical, abind (if is_receipt (item_body item) then refresh_config clock hash_order view config_eqb has_links else aret tt)
         (λ _, aret canonical)))).
  intros found. apply calm_bind; [destruct found; [auto with asks|apply calm_bind; auto with asks]|].
  intros x. apply calm_bind; [destruct (is_receipt _); [apply calm_refresh|auto with asks]|auto with asks].
Qed.

Lemma calm_record_for intent body : calm (record_for clock hash_order mint_item view config_eqb has_links intent body).
Proof.
  unfold record_for. apply (calm_of (λ h, fresh (mint_item (hb_taken h)) (clock (hb_taken h)) (rn_turn <$> dk_running (hb_bench h)) intent body)
    (λ item, abind (record_item clock hash_order view config_eqb has_links item) (λ item, aret (item_id item)))).
  intros item. apply calm_bind; [apply calm_record_item|auto with asks].
Qed.

Lemma calm_emit turn e : mild e = true → calm (emit clock hash_order view config_eqb has_links turn e).
Proof.
  intros Hm. unfold emit. apply (calm_if (λ h, negb (is_running h turn)) (aret tt)); [auto with asks|].
  destruct e; try (apply calm_tell, Hm). apply calm_bind; [apply calm_record_item|auto with asks].
Qed.

Lemma calm_progress item tail : calm (progress clock hash_order item tail).
Proof.
  unfold progress. apply (calm_of (λ h, u32_add (dk_progress (hb_bench h)) 1)
    (λ n h, Tell (ItemDelta item n DTail tail) None (set_bench h (with_progress n (hb_bench h))))).
  intros n. apply (calm_bench (λ h, with_progress n (hb_bench h))); [auto with asks|done].
Qed.

Lemma calm_charge turn plugin usage : calm (charge clock hash_order turn plugin usage).
Proof.
  unfold charge. apply (calm_of (λ h, match turn with Some t => if is_running h t then Some t else None | None => None end)
    (λ t, Tell (UsageCharged t plugin usage) None)). auto with asks.
Qed.

Lemma calm_signal plugin kind payload generation : calm (publish_signal clock hash_order plugin kind payload generation).
Proof.
  unfold publish_signal. apply (calm_if (λ h, is_null payload && match generation with
    | Some g => negb (bool_decide ((let? kinds := st_signals (hb_state h) !! plugin in let? s := kinds !! kind in ls_generation s) = Some g))
    | None => false end) (aret tt)); auto with asks.
Qed.

Lemma calm_each {A} (f : A → @Act St ()) l : (∀ x, calm (f x)) → calm (each f l).
Proof. intros Hf. induction l as [|x l IH]; simpl; [auto with asks|]. by apply calm_bind. Qed.

Lemma calm_handoff plugin from to : calm (handoff clock hash_order plugin from to).
Proof.
  unfold handoff. apply (calm_of (λ h, omap (λ kind, let? s := default ∅ (st_signals (hb_state h) !! plugin) !! kind in
      if bool_decide (ls_generation s = Some from) then Some (kind, ls_payload s) else None)
    (ordered (dom (default ∅ (st_signals (hb_state h) !! plugin)))))
    (λ l, each (λ p, publish_signal clock hash_order plugin p.1 p.2 (Some to)) l)).
  intros l. apply calm_each. intros. apply calm_signal.
Qed.

(** *** Handlers that move asks *)

Definition leads {A} (P : Hub St → Prop) (m : @Act St A) (Q : Hub St → Prop) : Prop :=
  steady m ∧ ∀ h, P h → hb_serving (m h).1 = true → room base (m h).1 → (∃ x, (m h).2 = Ok x) ∧ Q (m h).1.

Lemma leads_bind {A B} P (m : @Act St A) Q (k : A → Act B) R :
  leads P m Q → (∀ x, leads Q (k x) R) → leads P (abind m k) R.
Proof.
  intros [Hm Hmq] Hk. assert (∀ x, steady (k x)) as Hks by (intros x; apply Hk). split; [by apply steady_bind|].
  intros h HP Hs Hr. destruct (bind_first m k h Hks Hs Hr) as [Hs1 Hr1]. destruct (Hmq h HP Hs1 Hr1) as [(x & Ex) HQ].
  unfold abind in *. destruct (m h) as [h1 r]. simpl in *. subst r. by apply (proj2 (Hk x)).
Qed.

Lemma leads_ext {A} (m' m : @Act St A) P Q : (∀ h, m h = m' h) → leads P m' Q → leads P m Q.
Proof. intros E [Hs HQ]. split; intros h; rewrite E; auto. Qed.

(** The asks a session holds are those it shows, but for [shown], which it has
    answered and not yet taken down; each id was replied to at most once, and
    only minted ones. *)
Record part_ok (shown : list InteractionId) h : Prop := mk_part_ok {
  po_journal : journal_ok base h;
  po_open : ∀ id, is_open (hb_state h) id = true ↔ is_Some (dk_pending (hb_bench h) !! id) ∨ id ∈ shown;
  po_shown : NoDup (shown ++ (dk_replies (hb_bench h)).*1);
  po_apart : ∀ id, id ∈ shown ++ (dk_replies (hb_bench h)).*1 → dk_pending (hb_bench h) !! id = None;
  po_minted : ∀ id, is_Some (dk_pending (hb_bench h) !! id) ∨ id ∈ shown ++ (dk_replies (hb_bench h)).*1 →
    ∃ n, n < hb_taken h ∧ id = mint_interaction n;
}.

Definition asks_ok h : Prop :=
  part_ok [] h ∧ ss_asking (st_summary (hb_state h)) = negb (bool_decide (dk_pending (hb_bench h) = ∅)).

Lemma part_same shown h h' : same_asks h h' → part_ok shown h → part_ok shown h'.
Proof.
  intros (Hok & Ht & Ep & Er & Eo & _) [_ Ho Hn Ha Hm]. split; rewrite ?Ep, ?Er; try done.
  - intros id. by rewrite Eo.
  - intros id Hid. destruct (Hm id Hid) as (n & ? & ->). exists n. split; [lia|done].
Qed.

Lemma asks_same h h' : same_asks h h' → asks_ok h → asks_ok h'.
Proof.
  intros Hs [Hp Ha]. split; [by eapply part_same|]. destruct Hs as (_ & _ & Ep & _ & _ & Ea). by rewrite Ea, Ep.
Qed.

Lemma leads_calm {A} (m : @Act St A) (P : Hub St → Prop) : calm m → (∀ h, P h → journal_ok base h) →
  (∀ h h', same_asks h h' → P h → P h') → leads P m P.
Proof.
  intros Hm Hok Hsame. split; [apply Hm|]. intros h HP Hs Hr. destruct (cm_calm _ Hm h (Hok h HP) Hs Hr) as [Hx Hsm].
  split; [done|]. by eapply Hsame.
Qed.

Lemma leads_part {A} (m : @Act St A) shown : calm m → leads (part_ok shown) m (part_ok shown).
Proof. intros Hm. apply leads_calm; [done|by intros h []|apply part_same]. Qed.
Lemma leads_asks {A} (m : @Act St A) : calm m → leads asks_ok m asks_ok.
Proof. intros Hm. apply leads_calm; [done|by intros h [[] _]|apply asks_same]. Qed.

Lemma leads_tell e cause P Q : (∀ h h', P h → told h e h' → Q h') → (∀ h, P h → journal_ok base h) → leads P (Tell e cause) Q.
Proof.
  intros HQ Hok. split; [apply steady_tell|]. intros h HP Hs Hr. pose proof (tell_told h e cause (Hok h HP)) as Ht.
  destruct (Tell e cause h) as [h' r]. destruct (Ht Hs Hr) as [-> Htold]. split; [by eexists|by eapply HQ].
Qed.

(** The summary says again whether anything is asked. *)
Lemma restate_asks : leads (part_ok []) (restate_summary clock hash_order) asks_ok.
Proof.
  split.
  - intros h. unfold restate_summary, publish_summary. apply steady_tell.
  - intros h [Hok Ho Hn Ha Hm] Hs Hr. unfold restate_summary, publish_summary in *.
    pose proof (tell_told h (SessionUpdated (stamped h (st_summary (hb_state h)))) None Hok) as Ht.
    destruct (Tell _ None h) as [h' r]. destruct (Ht Hs Hr) as [-> (Hok' & Eb & Et & Eo & Ea)]. split; [by eexists|]. split.
    + split; simpl; rewrite ?Eb; try done; [intros id; rewrite Eo; exact (Ho id)|].
      intros id Hid. destruct (Hm id Hid) as (n & ? & ->). exists n. split; [lia|done].
    + simpl. rewrite Ea, Eb. simpl. done.
Qed.

(** One that is no longer pending gets its reply and is taken down. *)
Definition reply_to (id : InteractionId) (reply : result KernelError Answered) h : Hub St :=
  set_bench h (with_replies (dk_replies (hb_bench h) ++ [(id, reply)]) (hb_bench h)).

Lemma reply_ok id reply h : journal_ok base h → journal_ok base (reply_to id reply h).
Proof. apply same_journal_ok. by repeat split. Qed.

Lemma taken_down id shown reply e h h' : (∀ acc id', open_step id' acc e = acc && negb (bool_decide (id = id'))) →
  part_ok (id :: shown) h → told (reply_to id reply h) e h' → part_ok shown h'.
Proof.
  intros He [_ Ho Hn Ha Hm] (Hok & Eb & Et & Eo & _). simpl in *.
  assert (shown ++ ((dk_replies (hb_bench h)).*1 ++ [id]) ≡ₚ id :: shown ++ (dk_replies (hb_bench h)).*1) as Hperm.
  { rewrite app_assoc, Permutation_app_comm. done. }
  assert ((dk_replies (hb_bench h')).*1 = (dk_replies (hb_bench h)).*1 ++ [id]) as Er by by rewrite Eb; simpl; rewrite fmap_app.
  assert (dk_pending (hb_bench h') = dk_pending (hb_bench h)) as Ep by by rewrite Eb.
  split; rewrite ?Er, ?Ep; try done.
  - intros id'. rewrite Eo, He, andb_true_iff, negb_true_iff, Ho, bool_decide_eq_false, elem_of_cons. split.
    + intros [[?|[?|?]] ?]; [by left|by subst|by right].
    + intros [Hp|Hs]; (split; [by auto|]); intros ->.
      * destruct Hp as [p Hp]. rewrite (Ha id') in Hp; [done|]. by left.
      * apply NoDup_cons in Hn as [Hn _]. apply Hn, elem_of_app. by left.
  - by rewrite Hperm.
  - intros id'. rewrite Hperm. apply Ha.
  - intros id'. rewrite Hperm, Et. intros Hid. destruct (Hm id' Hid) as (n & ? & ->). exists n. split; [lia|done].
Qed.

Lemma leads_down id shown reply e cause : (∀ acc id', open_step id' acc e = acc && negb (bool_decide (id = id'))) →
  leads (part_ok (id :: shown)) (abind (update (reply_to id reply)) (λ _, Tell e cause)) (part_ok shown).
Proof.
  intros He. split; [apply steady_bind; [apply steady_update|intros; apply steady_tell]|]. intros h Hp Hs Hr. simpl in *.
  pose proof (tell_told (reply_to id reply h) e cause (reply_ok _ _ _ (po_journal _ _ Hp))) as Ht.
  unfold abind in *. simpl in *. destruct (Tell e cause (reply_to id reply h)) as [h' r]. destruct (Ht Hs Hr) as [-> Htold].
  split; [by eexists|by eapply taken_down].
Qed.

Lemma leads_cancel_loop asks reason shown :
  leads (part_ok (asks.*1 ++ shown)) (cancel_loop clock hash_order asks reason) (part_ok shown).
Proof.
  induction asks as [|[id p] asks IH]; simpl.
  - split; [apply steady_ret|]. intros h Hp _ _. split; [by exists tt|done].
  - assert (∀ (m1 m2 : @Act St ()) (k : @Act St ()) h, abind m1 (λ _, abind m2 (λ _, k)) h = abind (abind m1 (λ _, m2)) (λ _, k) h) as Hassoc.
    { intros m1 m2 k h. unfold abind. by destruct (m1 h) as [? [|]]. }
    eapply (leads_ext (abind (abind (update (reply_to id _)) (λ _, Tell (InteractionCancelled id reason) None))
      (λ _, cancel_loop clock hash_order asks reason))); [intros h; apply Hassoc|].
    eapply leads_bind; [apply leads_down; by intros [] ?|]. intros _. exact IH.
Qed.

(** Asks leave the map, to be answered. *)
Lemma part_move h ids pending' : part_ok [] h → NoDup ids →
  (∀ id, is_Some (dk_pending (hb_bench h) !! id) ↔ is_Some (pending' !! id) ∨ id ∈ ids) →
  (∀ id, id ∈ ids → pending' !! id = None) →
  part_ok ids (set_bench h (with_pending pending' (hb_bench h))).
Proof.
  intros [Hok Ho Hn Ha Hm] Hids Hsplit Hgone.
  assert (∀ id, id ∈ ids → is_Some (dk_pending (hb_bench h) !! id)) as Hwere by (intros id ?; apply Hsplit; by right).
  split; simpl in *.
  - eapply same_journal_ok; [|exact Hok]. by repeat split.
  - intros id. rewrite Ho, <- Hsplit. split; [intros [?|?%elem_of_nil]; done|by left].
  - apply NoDup_app. split_and!; [done| |done]. intros id [p Hp]%Hwere Hr. by rewrite Ha in Hp.
  - intros id [Hi|Hr]%elem_of_app; [by apply Hgone|]. specialize (Ha id Hr).
    destruct (pending' !! id) eqn:E; [|done]. assert (is_Some (dk_pending (hb_bench h) !! id)) as [? ?] by (apply Hsplit; left; by eexists).
    congruence.
  - intros id Hid. apply Hm. destruct Hid as [Hid|[Hid|Hid]%elem_of_app]; [left; apply Hsplit; by left|left; by apply Hwere|by right].
Qed.

Lemma leads_cancel_each asks reason :
  leads (part_ok asks.*1) (cancel_each clock hash_order asks reason)
    (λ h, part_ok [] h ∧ (asks = [] ∨ asks_ok h)).
Proof.
  unfold cancel_each. eapply (leads_bind _ _ (part_ok [])).
  - rewrite <- (app_nil_r asks.*1). apply leads_cancel_loop.
  - intros _. destruct asks as [|a asks].
    + split; [apply steady_ret|]. intros h Hp _ _. split; [by exists tt|]. split; [done|by left].
    + destruct restate_asks as [Hst Hra]. split; [done|]. intros h Hp Hs Hr. destruct (Hra h Hp Hs Hr) as [? Hok].
      split; [done|]. split; [apply Hok|by right].
Qed.

Context (Horder : ∀ m, hash_order m ≡ₚ (map_to_list m).*1).

Lemma drained_perm m : drained hash_order m ≡ₚ map_to_list m.
Proof.
  assert (∀ ids (ps : list (str * PendingAsk)), ids ≡ₚ ps.*1 → (∀ p, p ∈ ps → m !! p.1 = Some p.2) →
    omap (λ id, pair id <$> m !! id) ids ≡ₚ ps) as Hgen.
  { intros ids ps Hp Hps. rewrite Hp. clear Hp ids. induction ps as [|[id p] ps IH]; simpl; [done|].
    pose proof (Hps (id, p)) as Hid. simpl in Hid. rewrite Hid by by left. simpl. f_equiv. apply IH. intros q Hq. apply Hps. by right. }
  apply Hgen; [apply Horder|]. intros [id p] Hp. by apply elem_of_map_to_list in Hp.
Qed.

Lemma drained_ids m id : id ∈ (drained hash_order m).*1 ↔ is_Some (m !! id).
Proof.
  rewrite (drained_perm m). rewrite list_elem_of_fmap. split.
  - intros ([? p] & -> & Hp%elem_of_map_to_list). by exists p.
  - intros [p Hp%elem_of_map_to_list]. by exists (id, p).
Qed.

Lemma leads_of_bench {A} (f : Hub St → Bench) (m : Hub St → @Act St A) P Q :
  (∀ h, P h → ∃ P', P' (set_bench h (f h)) ∧ leads P' (m h) Q) → (∀ h, steady (m h)) →
  leads P (λ h, m h (set_bench h (f h))) Q.
Proof.
  intros HP Hst. split; [intros h; eapply rtc_l; [apply hs_bench|apply Hst]|]. intros h Hh Hs Hr.
  destruct (HP h Hh) as (P' & Hp' & Hl). by apply Hl.
Qed.

Lemma steady_cancel_each asks reason : steady (cancel_each clock hash_order asks reason).
Proof. apply (leads_cancel_each asks reason). Qed.

Lemma leads_cancel_all reason : leads asks_ok (cancel_interactions clock hash_order reason) asks_ok.
Proof.
  unfold cancel_interactions. apply (leads_of_bench (λ h, with_pending ∅ (hb_bench h))
    (λ h, cancel_each clock hash_order (drained hash_order (dk_pending (hb_bench h))) reason)); [|intros; apply steady_cancel_each].
  intros h [Hp Ha]. set (asks := drained hash_order (dk_pending (hb_bench h))).
  exists (λ h', part_ok asks.*1 h' ∧ dk_pending (hb_bench h') = ∅ ∧ (asks = [] → asks_ok h')). split.
  - split_and!; [|done|].
    + apply part_move; [done|unfold asks; rewrite (drained_perm _); apply NoDup_fst_map_to_list| |by intros; apply lookup_empty].
      intros id. unfold asks. rewrite drained_ids, lookup_empty. split; [by right|intros [[? ?]|?]; done].
    + intros Enil. assert (dk_pending (hb_bench h) = ∅) as Ep.
      { apply map_empty. intros id. apply eq_None_not_Some. rewrite <- drained_ids. fold asks. rewrite Enil. by inversion 1. }
      split; [|simpl; by rewrite Ha, Ep]. destruct Hp as [Hok Ho Hn Hap Hm]. rewrite Ep in *. split; try done.
      eapply same_journal_ok; [|exact Hok]. by repeat split.
  - destruct asks as [|a asks'] eqn:E.
    + split; [apply steady_cancel_each|]. intros h' (_ & _ & Hnil) _ _. split; [by exists tt|by apply Hnil].
    + destruct (leads_cancel_each (a :: asks') reason) as [Hst Hl]. split; [done|]. intros h' (Hp' & _ & _) Hs Hr.
      destruct (Hl h' Hp' Hs Hr) as [? [_ [?|?]]]; done.
Qed.

Lemma foldr_delete_lookup (asks : list (str * PendingAsk)) (m : gmap str PendingAsk) id :
  foldr (λ p m, delete p.1 m) m asks !! id = if bool_decide (id ∈ asks.*1) then None else m !! id.
Proof.
  induction asks as [|[i p] asks IH]; simpl; [done|]. rewrite lookup_delete, IH.
  destruct (decide (i = id)) as [->|]; [by rewrite bool_decide_eq_true_2 by by left|].
  rewrite !bool_decide_decide. repeat case_decide; set_solver.
Qed.

Lemma retain_sub {A} (p : A → bool) l : retain p l `sublist_of` l.
Proof. induction l as [|x l IH]; simpl; [constructor|]. destruct (p x); by constructor. Qed.

Lemma leads_cancel_command : leads asks_ok (cancel_command_interactions clock hash_order) asks_ok.
Proof.
  unfold cancel_command_interactions.
  apply (leads_of_bench
    (λ h, with_pending (foldr (λ p m, delete p.1 m) (dk_pending (hb_bench h))
       (retain (λ p, pa_by_command p.2) (drained hash_order (dk_pending (hb_bench h))))) (hb_bench h))
    (λ h, cancel_each clock hash_order (retain (λ p, pa_by_command p.2) (drained hash_order (dk_pending (hb_bench h)))) CancelCommandEnded));
    [|intros; apply steady_cancel_each].
  intros h [Hp Ha]. set (asks := retain _ _).
  assert (∀ id, id ∈ asks.*1 → is_Some (dk_pending (hb_bench h) !! id)) as Hwere.
  { intros id (x & -> & [Hx _]%elem_of_retain)%list_elem_of_fmap. apply drained_ids, list_elem_of_fmap. by exists x. }
  assert (NoDup asks.*1) as Hnd.
  { eapply sublist_NoDup; [|apply fmap_sublist, retain_sub]. rewrite (drained_perm (dk_pending (hb_bench h))). apply NoDup_fst_map_to_list. }
  assert (part_ok asks.*1 (set_bench h (with_pending (foldr (λ p m, delete p.1 m) (dk_pending (hb_bench h)) asks) (hb_bench h)))) as Hmove.
  { apply part_move; [done..| |].
    - intros id. rewrite foldr_delete_lookup. destruct (decide (id ∈ asks.*1)) as [Hid|Hid];
        [rewrite bool_decide_eq_true_2 by done|rewrite bool_decide_eq_false_2 by done; tauto].
      split; [by right|intros _; by apply Hwere].
    - intros id Hid. by rewrite foldr_delete_lookup, bool_decide_eq_true_2. }
  destruct asks as [|a asks'] eqn:E.
  - exists asks_ok. split; [|split; [apply steady_cancel_each|intros h' Hh' _ _; split; [by exists tt|done]]]. by split.
  - exists (part_ok (a :: asks').*1). split; [done|]. destruct (leads_cancel_each (a :: asks') CancelCommandEnded) as [Hst Hl].
    split; [done|]. intros h' Hp' Hs Hr. destruct (Hl h' Hp' Hs Hr) as [? [_ [?|?]]]; done.
Qed.

Context (Hmint : ∀ n m, mint_interaction n = mint_interaction m → n = m).

Lemma leads_open item kind answers :
  leads asks_ok (open_interaction clock hash_order mint_interaction checked_add item kind answers) asks_ok.
Proof.
  unfold open_interaction. set (i h := new_interaction clock mint_interaction checked_add h item kind answers).
  apply (leads_of_bench (λ h, with_pending (<[int_id (i h) := mkPendingAsk (i h) (commands_busy (dk_commands (hb_bench h)))]> (dk_pending (hb_bench h))) (hb_bench h))
    (λ h, abind (Tell (InteractionOpened (i h)) None) (λ _, restate_summary clock hash_order))).
  2: { intros h. apply steady_bind; [apply steady_tell|intros; apply restate_asks]. }
  intros h0 [[Hok Ho Hn Ha Hm] _]. eexists (eq _). split; [reflexivity|].
  eapply leads_bind; [|intros _; apply restate_asks]. apply leads_tell; intros ? .
  2: { intros <-. eapply same_journal_ok; [|exact Hok]. by repeat split. }
  intros h' <- (Hok' & Eb & Et & Eo & _). simpl in *.
  assert (dk_pending (hb_bench h0) !! mint_interaction (hb_taken h0) = None ∧ mint_interaction (hb_taken h0) ∉ (dk_replies (hb_bench h0)).*1) as [Hnew Hnew'].
  { assert (∀ n, n < hb_taken h0 → mint_interaction (hb_taken h0) ≠ mint_interaction n) as Hne by (intros n Hn' ?%Hmint; lia).
    split; [apply eq_None_not_Some; intros Hs|intros Hs]; destruct (Hm (mint_interaction (hb_taken h0))) as (n & Hlt & E); auto; by destruct (Hne n). }
  split; rewrite ?Eb; simpl; try done.
  - intros id. rewrite Eo. simpl. rewrite orb_true_iff, Ho, bool_decide_eq_true, lookup_insert. case_decide; subst; [split; [intros _; left; by eexists|by right]|].
    split; [intros [[?|?]|?]; naive_solver|intros [?|?]; naive_solver].
  - intros id Hid. rewrite lookup_insert_ne by (intros <-; done). by apply Ha.
  - intros id Hid. rewrite Et. destruct Hid as [Hid|Hid].
    + rewrite lookup_insert in Hid. case_decide; [subst; exists (hb_taken h0); split; [lia|done]|].
      destruct (Hm id) as (n & ? & ->); [by left|]. exists n. split; [lia|done].
    + destruct (Hm id) as (n & ? & ->); [by right|]. exists n. split; [lia|done].
Qed.

Lemma leads_answered id reply e intent receipt : (∀ acc id', open_step id' acc e = acc && negb (bool_decide (id = id'))) →
  leads (part_ok [id]) (abind (abind (update (reply_to id reply)) (λ _, Tell e (Some intent))) (λ _,
    abind match receipt with
          | Some item => abind (record_item clock hash_order view config_eqb has_links item) (λ _, aret tt)
          | None => aret tt
          end (λ _,
    abind (applied clock hash_order intent VNull) (λ _, restate_summary clock hash_order)))) asks_ok.
Proof.
  intros He. eapply leads_bind; [by apply leads_down|]. intros _. eapply leads_bind; [apply (leads_part _ [])|intros _].
  { case_match; [apply calm_bind; [apply calm_record_item|intros; apply calm_ret]|apply calm_ret]. }
  eapply leads_bind; [apply (leads_part _ []), calm_tell; done|]. intros _. apply restate_asks.
Qed.

Lemma leads_answer a : leads asks_ok (answer clock hash_order mint_item view config_eqb has_links a) asks_ok.
Proof.
  split.
  - intros h. unfold answer. destruct (refuse _ _ _ _ _ _) as [[code message]|]; [apply steady_tell|].
    destruct (dk_pending (hb_bench h) !! aw_interaction a) as [p|]; [|done].
    apply steady_bind; [apply (steady_update (λ h, with_pending _ _))|intros _]. apply steady_bind; [apply steady_tell|intros _].
    apply steady_bind; [|intros _; apply steady_bind; [apply steady_tell|intros _; apply restate_asks]].
    case_match; [apply steady_bind; [apply calm_record_item|intros; apply steady_ret]|apply steady_ret].
  - intros h Hh. unfold answer. destruct (refuse _ _ _ _ _ _) as [[code message]|].
    { intros Hs Hr. destruct (leads_asks (reject_intent clock hash_order (aw_intent a) code message)) as [_ Hl]; [by apply calm_tell|].
      by apply Hl. }
    destruct (dk_pending (hb_bench h) !! aw_interaction a) as [p|] eqn:Ep; [|intros _ _; by split; [exists tt|]].
    set (h1 := set_bench h (with_pending (delete (aw_interaction a) (dk_pending (hb_bench h))) (hb_bench h))).
    assert (part_ok [aw_interaction a] h1) as Hp1.
    { apply part_move; [apply Hh|apply NoDup_singleton| |].
      - intros id. rewrite lookup_delete, list_elem_of_singleton. case_decide; subst; [|naive_solver]. rewrite Ep.
        split; [by right|by eexists].
      - intros id ->%list_elem_of_singleton. apply lookup_delete_eq. }
    intros Hs Hr. eapply (proj2 (leads_answered (aw_interaction a) _ _ (aw_intent a) _ _) h1 Hp1 Hs Hr).
    Unshelve. by intros [] ?.
Qed.
End asks.

(** ** Runs of handlers *)

Inductive AskOp :=
| AskOpen (item : option ItemId) (kind : InteractionKind) (answers : list AnswerSpec)
| AskAnswer (a : Answering)
| AskCancel (reason : CancelReason)
| AskCommandDone
| AskReceipt (item : Item)
| AskEmit (turn : TurnId) (e : Event)
| AskRecord (intent : option IntentId) (body : ItemBody)
| AskProgress (item : ItemId) (tail : str)
| AskExtend (plugin kind : str) (payload : Value)
| AskCharge (turn : option TurnId) (plugin : str) (usage : Usage)
| AskSignal (plugin kind : str) (payload : Value) (generation : option ItemId)
| AskHandoff (plugin : str) (from to : ItemId)
| AskRefresh
| AskReject (intent : IntentId) (code : ErrorCode) (message : str)
| AskRunning (running : option Running)      (** a turn starts, or ends *)
| AskCommands (commands : Commands).         (** a command starts, or ends *)

(** What a running turn emits is not the actor's to say. *)
Definition op_mild (o : AskOp) : bool := match o with AskEmit _ e => mild e | _ => true end.

Section runs.
Context {St : Type} `{SessionStore St}.
Context (clock : nat → Timestamp) (hash_order : gmap str PendingAsk → list str).
Context (mint_interaction mint_item : nat → str) (checked_add : Timestamp → Z → option Timestamp).
Context (view : nat → ConfigView) (config_eqb : ConfigView → ConfigView → bool) (has_links : bool).

Definition ask_act (o : AskOp) : @Act St () :=
  match o with
  | AskOpen item kind answers => open_interaction clock hash_order mint_interaction checked_add item kind answers
  | AskAnswer a => answer clock hash_order mint_item view config_eqb has_links a
  | AskCancel reason => cancel_interactions clock hash_order reason
  | AskCommandDone => cancel_command_interactions clock hash_order
  | AskReceipt item => abind (receipt clock hash_order view config_eqb has_links item) (fun _ => aret tt)
  | AskEmit turn e => emit clock hash_order view config_eqb has_links turn e
  | AskRecord intent body => abind (record_for clock hash_order mint_item view config_eqb has_links intent body) (fun _ => aret tt)
  | AskProgress item tail => progress clock hash_order item tail
  | AskExtend plugin kind payload => extend clock hash_order has_links plugin kind payload
  | AskCharge turn plugin usage => charge clock hash_order turn plugin usage
  | AskSignal plugin kind payload generation => publish_signal clock hash_order plugin kind payload generation
  | AskHandoff plugin from to => handoff clock hash_order plugin from to
  | AskRefresh => refresh_config clock hash_order view config_eqb has_links
  | AskReject intent code message => reject_intent clock hash_order intent code message
  | AskRunning running => update (fun h => set_bench h (with_running running (hb_bench h)))
  | AskCommands c => update (fun h => set_bench h (with_commands c (hb_bench h)))
  end.

Definition ask_run (h : Hub St) (o : AskOp) : Hub St := (ask_act o h).1.
Definition ask_runs (h : Hub St) (os : list AskOp) : Hub St := foldl ask_run h os.
End runs.

Section held_once.
Context {St : Type} `{StoreLaws St}.
Context (clock : nat → Timestamp) (hash_order : gmap str PendingAsk → list str).
Context (mint_interaction mint_item : nat → str) (checked_add : Timestamp → Z → option Timestamp).
Context (view : nat → ConfigView) (config_eqb : ConfigView → ConfigView → bool) (has_links : bool).
Context (base : Seq).
Implicit Types h : Hub St.
Abbreviation Run := (ask_run clock hash_order mint_interaction mint_item checked_add view config_eqb has_links).
Abbreviation Runs := (ask_runs clock hash_order mint_interaction mint_item checked_add view config_eqb has_links).
Abbreviation ActOf := (ask_act clock hash_order mint_interaction mint_item checked_add view config_eqb has_links).

Lemma calm_receipt item : calm clock base (abind (receipt (St := St) clock hash_order view config_eqb has_links item) (λ _, aret tt)).
Proof.
  pose proof (calm_record_item clock hash_order view config_eqb has_links base item) as Hc.
  assert (∀ h, rtc (hub_step clock) h (receipt clock hash_order view config_eqb has_links item h).1
    ∧ (journal_ok base h → hb_serving (receipt clock hash_order view config_eqb has_links item h).1 = true →
       room base (receipt clock hash_order view config_eqb has_links item h).1 →
       (∃ x, (receipt clock hash_order view config_eqb has_links item h).2 = Ok x)
       ∧ same_asks base h (receipt clock hash_order view config_eqb has_links item h).1)) as Hr.
  { intros h. unfold receipt. destruct (item_turn item) as [turn|]; [destruct (is_running h turn)|].
    2-3: simpl; split; [done|]; intros Hok _ _; split; [by eexists|by apply same_asks_refl].
    destruct Hc as [Hst Hcalm]. specialize (Hst h). specialize (Hcalm h).
    destruct (record_item clock hash_order view config_eqb has_links item h) as [h' [x|error]]; simpl in *.
    - split; [done|]. intros Hok Hs Hr. split; [by eexists|by apply Hcalm].
    - split; [by case_match|]. intros Hok Hs Hr. destruct (Hcalm Hok) as [[x ?] _]; [by case_match|by case_match|done]. }
  apply calm_bind; [|intros; apply calm_ret]. split; [intros h; apply Hr|intros h; apply Hr].
Qed.

Lemma leads_op o : (∀ m, hash_order m ≡ₚ (map_to_list m).*1) → (∀ n m, mint_interaction n = mint_interaction m → n = m) →
  op_mild o = true → leads clock base (asks_ok mint_interaction base) (ActOf o) (asks_ok mint_interaction base).
Proof.
  intros Ho Hmint Hm. destruct o; simpl in *; [by apply leads_open|apply leads_answer|by apply leads_cancel_all|by apply leads_cancel_command|..].
  all: apply leads_asks; eauto using calm_receipt, calm_emit, calm_progress, calm_charge, calm_signal, calm_handoff, calm_refresh, calm_tell.
  - apply calm_bind; [apply calm_record_for|intros; apply calm_ret].
  - unfold extend. destruct has_links; [apply calm_ret|by apply calm_tell].
  - apply (calm_bench clock base (λ h, with_running running (hb_bench h)) (aret tt)); [apply calm_ret|done].
  - apply (calm_bench clock base (λ h, with_commands commands (hb_bench h)) (aret tt)); [apply calm_ret|done].
Qed.

Lemma runs_steps os h : (∀ m, hash_order m ≡ₚ (map_to_list m).*1) → (∀ n m, mint_interaction n = mint_interaction m → n = m) →
  forallb op_mild os = true → rtc (hub_step clock) h (Runs h os).
Proof.
  intros Ho Hmint. revert h. induction os as [|o os IH]; intros h; simpl; [done|].
  intros [Hm Hms]%andb_true_iff. etrans; [apply (leads_op o Ho Hmint Hm)|by apply IH].
Qed.

Lemma runs_asks os h : (∀ m, hash_order m ≡ₚ (map_to_list m).*1) → (∀ n m, mint_interaction n = mint_interaction m → n = m) →
  forallb op_mild os = true → asks_ok mint_interaction base h → hb_serving (Runs h os) = true → room base (Runs h os) →
  asks_ok mint_interaction base (Runs h os).
Proof.
  intros Ho Hmint. revert h. induction os as [|o os IH]; intros h; simpl; [done|].
  intros [Hm Hms]%andb_true_iff Hh Hs Hr. destruct (leads_op o Ho Hmint Hm) as [_ Hl].
  assert (rtc (hub_step clock) (Run h o) (Runs (Run h o) os)) as Hsteps.
  { by apply runs_steps. }
  apply IH; [done| |done|done]. apply Hl; [done| |].
  - by eapply steps_serving.
  - apply steps_taken in Hsteps. by eapply room_le.
Qed.

(** C37: As long as its journal takes what it says, a session shows exactly the
    asks it holds open, says in its summary whether there are any, and sends
    each asker one reply at most, after which the ask is gone, whatever is asked,
    answered, refused, cancelled, recorded, charged or signalled in between. *)
Theorem each_ask_is_answered_once h os : (∀ m, hash_order m ≡ₚ (map_to_list m).*1) →
  (∀ n m, mint_interaction n = mint_interaction m → n = m) → forallb op_mild os = true →
  journal_ok base h → hb_bench h = bench_new → st_interactions (hb_state h) = [] → ss_asking (st_summary (hb_state h)) = false →
  let h' := Runs h os in hb_serving h' = true → room base h' →
  (∀ id, is_open (hb_state h') id = true ↔ is_Some (dk_pending (hb_bench h') !! id))
  ∧ ss_asking (st_summary (hb_state h')) = negb (bool_decide (dk_pending (hb_bench h') = ∅))
  ∧ NoDup (dk_replies (hb_bench h')).*1
  ∧ (∀ id, id ∈ (dk_replies (hb_bench h')).*1 → is_open (hb_state h') id = false).
Proof.
  intros Ho Hmint Hms Hok Hb Hi Ha h' Hs Hr. destruct (runs_asks os h) as [[_ Hopen Hn Hap _] Hask]; try done.
  { split; [|by rewrite Hb, Ha]. split; rewrite ?Hb; simpl; try done; [|constructor|].
    - intros id. unfold is_open. rewrite Hi. simpl. rewrite lookup_empty. split; [done|intros [[]|[]%elem_of_nil]; done].
    - intros id [[? ?]|[]%elem_of_nil]. by rewrite lookup_empty in *. }
  fold h' in Hopen, Hn, Hap, Hask. split_and!; [|done|done|].
  - intros id. rewrite Hopen. split; [intros [?|[]%elem_of_nil]; done|by left].
  - intros id Hid. apply not_true_iff_false. rewrite Hopen. intros [[p Hp]|[]%elem_of_nil]. by rewrite Hap in Hp.
Qed.
End held_once.

(** ** Who answers *)

Section earned.
Context {St : Type} `{SessionStore St}.
Context (clock : nat → Timestamp) (hash_order : gmap str PendingAsk → list str).
Context (mint_interaction mint_item : nat → str) (checked_add : Timestamp → Z → option Timestamp).
Context (view : nat → ConfigView) (config_eqb : ConfigView → ConfigView → bool) (has_links : bool).
Implicit Types h : Hub St.
Abbreviation Runs := (ask_runs clock hash_order mint_interaction mint_item checked_add view config_eqb has_links).
Abbreviation Run := (ask_run clock hash_order mint_interaction mint_item checked_add view config_eqb has_links).

(** Replies that were sent meanwhile, but for errors. *)
Definition sent (extra : list (InteractionId * result KernelError Answered)) h h' : Prop :=
  ∃ errors, dk_replies (hb_bench h') = dk_replies (hb_bench h) ++ extra ++ errors
    ∧ Forall (λ r, ∃ e, r.2 = Err e) errors.

Lemma sent_refl h : sent [] h h.
Proof. exists []. by rewrite app_nil_r. Qed.
Lemma sent_trans extra h1 h2 h3 : sent extra h1 h2 → sent [] h2 h3 → sent extra h1 h3.
Proof.
  intros (es & E & He) (es' & E' & He'). exists (es ++ es'). rewrite E', E. split; [by rewrite <- !app_assoc|by apply Forall_app].
Qed.

Lemma sent_publish h e cause : sent [] h (publish clock hash_order h e cause).1.
Proof.
  assert (∀ x y : Hub St, hb_bench y = hb_bench x → sent [] x y) as Hsame by (intros x y E; exists []; by rewrite E, app_nil_r).
  unfold publish. destruct (sequence clock h e cause) as [h1 f] eqn:E. assert (hb_bench h1 = hb_bench h) as Eb by by injection E as <- _.
  assert (∀ x : Hub St, hb_bench x = hb_bench h → sent [] h (published x f).1) as Hpub.
  { intros x Ex. apply Hsame. unfold published, checkpoint_write. simpl. by repeat case_match. }
  destruct (is_durable e); [|by apply Hpub]. destruct (hb_store h1) as [st|]; [|by apply (Hpub (journal_frame h1 f None))].
  destruct (store_append _ _ _) as [st'|error]; [by apply (Hpub (journal_frame h1 f (Some st')))|].
  cbn [fst]. unfold storage_failed. change (hb_bench (clear_subs ?x)) with (hb_bench x).
  unfold sent. change (hb_bench (clear_subs (terminal_event clock ?x ?e ?c))) with (hb_bench x).
  unfold storage_refusals. set (h2 := remember_stopped_ask (stop_serving h1)).
  assert (dk_replies (hb_bench h2) = dk_replies (hb_bench h)) as E2.
  { rewrite <- Eb. unfold h2, remember_stopped_ask. by destruct (dk_running _). }
  clearbody h2. unfold drain_all. set (h3 := terminal_event clock _ _ _).
  assert (dk_replies (hb_bench h3) = dk_replies (hb_bench h)) as E3 by exact E2. clearbody h3.
  destruct (terminals_say clock (λ w, rejected w.1 error) (λ w, Some w.1) (unpack <$> q_entries (dk_queue (hb_bench h3))) h3)
    as (_ & _ & _ & _ & F5). cbn [hb_bench set_bench with_queue with_pending with_replies dk_replies]. rewrite F5.
  rewrite E3. eexists. split; [done|]. apply Forall_fmap, Forall_true. intros p. by exists error.
Qed.

Definition errs_only {A} (m : @Act St A) : Prop := ∀ h, sent [] h (m h).1.

Lemma errs_bind {A B} (m : @Act St A) (k : A → Act B) : errs_only m → (∀ x, errs_only (k x)) → errs_only (abind m k).
Proof. intros Hm Hk h. unfold abind. specialize (Hm h). destruct (m h) as [h' [x|e]]; simpl in *; [|done]. by eapply sent_trans; [|apply Hk]. Qed.
Lemma errs_ret {A} (x : A) : errs_only (aret x).
Proof. intros h. apply sent_refl. Qed.
Lemma errs_tell e cause : errs_only (tell clock hash_order e cause).
Proof. apply errs_bind; [intros h; apply sent_publish|intros; apply errs_ret]. Qed.
Lemma errs_refresh : errs_only (refresh_config clock hash_order view config_eqb has_links).
Proof. intros h. unfold refresh_config. destruct (config_eqb _ _); [apply sent_refl|]. destruct has_links; [apply sent_refl|apply errs_tell]. Qed.
Lemma errs_restate : errs_only (restate_summary clock hash_order).
Proof. intros h. apply errs_tell. Qed.
Lemma errs_record_item item : errs_only (record_item clock hash_order view config_eqb has_links item).
Proof.
  intros h. unfold record_item. apply errs_bind; [|intros x; apply errs_bind; [|intros; apply errs_ret]].
  - case_match; [apply errs_ret|apply errs_bind; [apply errs_tell|intros; apply errs_ret]].
  - case_match; [apply errs_refresh|apply errs_ret].
Qed.
Lemma errs_signal plugin kind payload generation : errs_only (publish_signal clock hash_order plugin kind payload generation).
Proof. intros h. unfold publish_signal. case_match; [apply sent_refl|apply errs_tell]. Qed.
Lemma errs_cancel_each asks reason : errs_only (cancel_each clock hash_order asks reason).
Proof.
  apply errs_bind; [|intros _; case_match; [apply errs_ret|apply errs_restate]]. induction asks as [|[id p] asks IH]; simpl; [apply errs_ret|].
  apply errs_bind; [|intros _; apply errs_bind; [apply errs_tell|done]]. intros h. simpl.
  eexists. split; [done|]. apply Forall_singleton. by eexists.
Qed.

(** A bench with the same replies is no reply. *)
Lemma errs_bench h h0 (d : Bench) : dk_replies d = dk_replies (hb_bench h) → sent [] (set_bench h d) h0 → sent [] h h0.
Proof. intros Ed (es & E & He). exists es. simpl in E. by rewrite E, Ed. Qed.

Lemma errs_op o : match o with AskAnswer _ => false | _ => true end = true →
  errs_only (ask_act (St := St) clock hash_order mint_interaction mint_item checked_add view config_eqb has_links o).
Proof.
  intros Ho h. destruct o; simpl; try done; try (apply errs_tell).
  - unfold open_interaction. eapply errs_bench; [|apply errs_bind; [apply errs_tell|intros; apply errs_restate]]. done.
  - unfold cancel_interactions. eapply errs_bench; [|apply errs_cancel_each]. done.
  - unfold cancel_command_interactions. eapply errs_bench; [|apply errs_cancel_each]. done.
  - apply errs_bind; [|intros; apply errs_ret]. intros h0. unfold receipt. pose proof (errs_record_item item h0) as Hr.
    destruct (item_turn item) as [turn|]; [destruct (is_running h0 turn)|]; [|apply sent_refl..].
    destruct (record_item _ _ _ _ _ _ h0) as [h' [x|e]]; simpl in *; [done|by case_match].
  - unfold emit. case_match; [apply sent_refl|]. destruct e; try apply errs_tell. apply errs_bind; [apply errs_record_item|intros; apply errs_ret].
  - apply errs_bind; [|intros; apply errs_ret]. intros h0. unfold record_for. apply errs_bind; [apply errs_record_item|intros; apply errs_ret].
  - exact (errs_bench h _ (with_progress (u32_add (dk_progress (hb_bench h)) 1) (hb_bench h)) eq_refl
      (errs_tell (ItemDelta item (u32_add (dk_progress (hb_bench h)) 1) DTail tail) None _)).
  - unfold extend. case_match; [apply sent_refl|apply errs_tell].
  - apply errs_signal.
  - unfold handoff. generalize (omap (λ kind0, default ∅ (st_signals (hb_state h) !! plugin) !! kind0 ≫=
      (λ s, if bool_decide (ls_generation s = Some from) then Some (kind0, ls_payload s) else None)) (ordered (dom (default ∅ (st_signals (hb_state h) !! plugin))))).
    intros l. revert h. induction l as [|x l IH]; [apply errs_ret|]. apply errs_bind; [apply errs_signal|intros _; exact IH].
  - apply errs_refresh.
  - exists []. by rewrite app_nil_r.
  - exists []. by rewrite app_nil_r.
Qed.

Lemma refuse_none pending now id ans activation plugin : refuse pending now id ans activation plugin = None →
  ∃ p, pending !! id = Some p ∧ answer_spec ans ∈ int_answers (pa_interaction p)
    ∧ (is_permission (int_kind (pa_interaction p)) = true → plugin = false)
    ∧ (activation = Keyboard → withholds ans = false → ∀ guard, int_guard_until (pa_interaction p) = Some guard → (guard ≤ now)%Z).
Proof.
  unfold refuse. destruct (pending !! id) as [p|]; [|done]. intros Hr. exists p. split; [done|].
  destruct (plugin && _) eqn:E1; [done|]. destruct (negb (bool_decide _)) eqn:E2; [done|].
  apply negb_false_iff, bool_decide_eq_true in E2. split_and!; [done| |].
  - intros Hk. rewrite Hk in E1. by destruct plugin.
  - intros -> Hw guard Hg. rewrite Hw, Hg in Hr. simpl in Hr. destruct (Z.ltb_spec now guard); [done|lia].
Qed.

Lemma sent_update {A} extra (f : Hub St → Hub St) (k : () → @Act St A) h : sent extra h (f h) → errs_only (k tt) →
  sent extra h (abind (update f) k h).1.
Proof. intros Hf Hk. by eapply sent_trans; [|apply Hk]. Qed.

Lemma sent_in extra h h' id ans : sent extra h h' → (id, Ok ans) ∈ dk_replies (hb_bench h') →
  (id, Ok ans) ∈ dk_replies (hb_bench h) ∨ (id, Ok ans) ∈ extra.
Proof.
  intros (es & -> & He) [?|[?|Hx]%elem_of_app]%elem_of_app; [by left|by right|].
  eapply Forall_forall in He as [e ?]; [|done]. done.
Qed.

Lemma answer_sent a h : let h' := (answer clock hash_order mint_item view config_eqb has_links a h).1 in
  sent [] h h' ∨
  refuse (dk_pending (hb_bench h)) (clock (hb_taken h)) (aw_interaction a) (aw_answer a) (aw_activation a) (aw_plugin a) = None
  ∧ ∃ asked, sent [(aw_interaction a, Ok (mkAnswered asked (aw_answer a)))] h h'.
Proof.
  unfold answer. destruct (refuse _ _ _ _ _ _) as [[code message]|]; [left; apply errs_tell|].
  destruct (dk_pending (hb_bench h) !! aw_interaction a) as [p|]; [|left; apply sent_refl]. right. split; [done|].
  eexists. apply sent_update; [|apply errs_bind; [apply errs_tell|intros _; apply errs_bind; [|intros _; apply errs_bind]]].
  - exists []. split; [|done]. simpl. by rewrite ?app_nil_r.
  - case_match; [apply errs_bind; [apply errs_record_item|intros; apply errs_ret]|apply errs_ret].
  - apply errs_tell.
  - intros _. apply errs_restate.
Qed.

(** The answer that was heard, where it was given. *)
Definition earned h (os : list AskOp) (id : InteractionId) (ans : Answered) : Prop :=
  ∃ before a rest p, os = before ++ AskAnswer a :: rest ∧ aw_interaction a = id ∧ aw_answer a = an_answer ans
    ∧ dk_pending (hb_bench (Runs h before)) !! id = Some p
    ∧ answer_spec (aw_answer a) ∈ int_answers (pa_interaction p)
    ∧ (is_permission (int_kind (pa_interaction p)) = true → aw_plugin a = false)
    ∧ (aw_activation a = Keyboard → withholds (aw_answer a) = false →
       ∀ guard, int_guard_until (pa_interaction p) = Some guard → (guard ≤ clock (hb_taken (Runs h before)))%Z).

Lemma reply_origin os h id ans : (id, Ok ans) ∈ dk_replies (hb_bench (Runs h os)) →
  (id, Ok ans) ∈ dk_replies (hb_bench h) ∨ earned h os id ans.
Proof.
  revert h. induction os as [|o os IH]; intros h Hin; [by left|].
  destruct (IH (Run h o) Hin) as [Hnow|(before & a & rest & p & -> & Hrest)]; [|right; by exists (o :: before), a, rest, p].
  assert (sent [] h (Run h o) → (id, Ok ans) ∈ dk_replies (hb_bench h)) as Hquiet.
  { intros Hs. destruct (sent_in _ _ _ _ _ Hs Hnow) as [?|[]%elem_of_nil]. done. }
  destruct (match o with AskAnswer _ => false | _ => true end) eqn:Eo; [left; apply Hquiet; by apply errs_op|].
  destruct o as [|a| | | | | | | | | | | | | |]; try done. destruct (answer_sent a h) as [Hs|[Hr [asked Hs]]]; [left; by apply Hquiet|].
  destruct (sent_in _ _ _ _ _ Hs Hnow) as [?|[= -> ->]%list_elem_of_singleton]; [by left|right].
  destruct (refuse_none _ _ _ _ _ _ Hr) as (p & Hp). by exists [], a, os, p.
Qed.

(** An asker hears an answer only if a client gave that answer to that ask
    while it was open: one the ask accepts, from a person where it is a
    permission and not from a plugin, and, typed at a keyboard and granting
    something, not before the guard against stray keys had passed.  Everything
    else an asker may hear is an error. *)
Theorem answers_are_earned h os id ans :
  (id, Ok ans) ∉ dk_replies (hb_bench h) → (id, Ok ans) ∈ dk_replies (hb_bench (Runs h os)) →
  ∃ before a rest p, os = before ++ AskAnswer a :: rest ∧ aw_interaction a = id ∧ aw_answer a = an_answer ans
    ∧ dk_pending (hb_bench (Runs h before)) !! id = Some p
    ∧ answer_spec (aw_answer a) ∈ int_answers (pa_interaction p)
    ∧ (is_permission (int_kind (pa_interaction p)) = true → aw_plugin a = false)
    ∧ (aw_activation a = Keyboard → withholds (aw_answer a) = false →
       ∀ guard, int_guard_until (pa_interaction p) = Some guard → (guard ≤ clock (hb_taken (Runs h before)))%Z).
Proof.
  intros Hno Hin. by destruct (reply_origin os h id ans Hin).
Qed.
End earned.

(** ** Witnesses *)

Definition demo_mint (n : nat) : str := [N.of_nat n].
Definition demo_add (t ms : Z) : option Timestamp := Some (t + ms)%Z.
Definition demo_view (_ : nat) : ConfigView := config_default.
Definition same_config (_ _ : ConfigView) : bool := true.
Definition demo_asks : Hub (gmap str Entry) → list AskOp → Hub (gmap str Entry) :=
  ask_runs demo_clock demo_order demo_mint demo_mint demo_add demo_view same_config false.

Definition demo_login : AskOp := AskOpen None (KLogin (lit "p") LoginPaste) [SpecText; SpecCancel].
Definition demo_permit : AskOp :=
  AskOpen None (KPermission (lit "Bash") VNull (lit "ls") None None None) [SpecAllowOnce; SpecDeny].
Definition demo_answer (n : nat) (ans : Answer) (plugin : bool) : Answering :=
  mkAnswering (lit "int") (demo_mint n) ans Pointer (lit "me") (lit "tui") plugin.

Definition demo_asking : Hub (gmap str Entry) := demo_asks (demo_hub (Some demo_store)) [demo_login].
Definition demo_typed (secret : str) : Hub (gmap str Entry) * result KernelError () :=
  answer demo_clock demo_order demo_mint demo_view same_config false
    (answering (demo_answer 0 CancelAnswer false) (TextAnswer secret)) demo_asking.

Lemma login_secret_stays_private_witness :
  let '(h1, r1) := demo_typed (lit "hunter2") in let '(h2, r2) := demo_typed (lit "swordfish") in
  r1 = r2 ∧ set_replies [] h1 = set_replies [] h2.
Proof.
  pose proof (login_secret_stays_private demo_clock demo_order demo_mint demo_view same_config false demo_asking (demo_answer 0 CancelAnswer false)
    (mkPendingAsk (new_interaction demo_clock demo_mint demo_add (demo_hub (Some demo_store)) None (KLogin (lit "p") LoginPaste) [SpecText; SpecCancel]) false)
    (lit "p") LoginPaste (lit "hunter2") (lit "swordfish")) as Hp.
  apply Hp; by vm_compute.
Defined.

Definition demo_talk : list AskOp :=
  [demo_login; demo_permit; AskAnswer (demo_answer 2 AllowOnce true); AskAnswer (demo_answer 2 AllowOnce false);
   AskProgress (lit "i") (lit "x"); AskCancel CancelInterrupted; demo_permit].

Lemma each_ask_is_answered_once_witness :
  let h := demo_asks (demo_hub (Some demo_store)) demo_talk in
  (dk_replies (hb_bench h)).*1 = [demo_mint 2; demo_mint 0] ∧ NoDup (dk_replies (hb_bench h)).*1
  ∧ (∀ id, is_open (hb_state h) id = true ↔ is_Some (dk_pending (hb_bench h) !! id)).
Proof.
  intros h. split; [by vm_compute|].
  assert (∀ n m, demo_mint n = demo_mint m → n = m) as Hmint by (intros n m [= E]; lia).
  destruct (each_ask_is_answered_once demo_clock demo_order demo_mint demo_mint demo_add demo_view same_config false 0
    (demo_hub (Some demo_store)) demo_talk (λ m, Permutation_refl _) Hmint eq_refl demo_hub_ok eq_refl eq_refl eq_refl)
    as (Ho & _ & Hn & _); [by vm_compute..|]. split; [exact Hn|exact Ho].
Defined.

Lemma answers_are_earned_witness :
  let ans := mkAnswered (mkAsked (demo_mint 2) 2 false) AllowOnce in
  ∃ before a rest p, demo_talk = before ++ AskAnswer a :: rest ∧ aw_interaction a = demo_mint 2 ∧ aw_answer a = an_answer ans
    ∧ dk_pending (hb_bench (demo_asks (demo_hub (Some demo_store)) before)) !! demo_mint 2 = Some p
    ∧ (is_permission (int_kind (pa_interaction p)) = true → aw_plugin a = false).
Proof.
  intros ans.
  destruct (answers_are_earned demo_clock demo_order demo_mint demo_mint demo_add demo_view same_config false
    (demo_hub (Some demo_store)) demo_talk (demo_mint 2) ans) as (before & a & rest & p & E & Ei & Ea & Hp & _ & Hk & _).
  - by inversion 1.
  - vm_compute. by left.
  - exists before, a, rest, p. exact (conj E (conj Ei (conj Ea (conj Hp Hk)))).
Defined.
