(* ===== verification/Stream.v ===== *)
(** * Stream: a provider's response folded into items

    [bingo-core/src/accumulator.rs] and the streaming leg of
    [bingo-core/src/turn/stream.rs]; the events and errors a provider sends are
    [bingo-sdk/src/model.rs]'s.  An id the source mints and the clock it reads
    arrive with the event that makes it mint; the order in which a hash map gives
    its keys and the JSON parser are parameters. *)

From S2P Require Import Prelude Text Model Interaction Event Transcript.

(** ** What a provider sends *)

Inductive UnifiedFinish := FinStop | FinLength | FinToolCalls | FinContentFilter | FinError | FinOther.
#[export] Instance UnifiedFinish_eq_dec : EqDecision UnifiedFinish.
Proof. solve_decision. Defined.

Record FinishReason := mkFinishReason { fin_unified : UnifiedFinish; fin_raw : option str }.

Inductive ModelEvent :=
| StreamStart (warnings : list str)
| ResponseMetadata (id model : option str)
| TextStart (id : str)
| TextDelta (id delta : str)
| TextEnd (id : str)
| ReasoningStart (id : str)
| ReasoningDelta (id delta : str)
| ReasoningEnd (id : str) (provider_metadata : list (str * list (str * Value)))
| ToolInputStart (id name : str)
| ToolInputDelta (id delta : str)
| ToolInputEnd (id : str)
| ToolCallEvent (id name input : str)
| ContextReading (used window : N)
| CompactedEvent (before after : N)
| FinishEvent (usage : Usage) (finish_reason : FinishReason).

Inductive ProviderError :=
| PeAuth (message : str)
| PeRateLimited (retry_after_ms : option N)
| PeContextOverflow (message : str)
| PeServer (status : N) (message : str)
| PeRequest (message : str)
| PeTransport (message : str)
| PeStream (message : str)
| PeTimeout
| PeUnsupported (message : str)
| PeConfig (message : str).

Definition retryable (e : ProviderError) : bool :=
  match e with
  | PeRateLimited _ | PeServer _ _ | PeTransport _ | PeStream _ | PeTimeout => true
  | _ => false
  end.

Definition retry_after_ms (e : ProviderError) : option N :=
  match e with PeRateLimited ms => ms | _ => None end.

Definition error_code (e : ProviderError) : ErrorCode :=
  match e with
  | PeAuth _ => AuthRequired
  | PeRateLimited _ => RateLimited
  | PeContextOverflow _ => ContextOverflow
  | PeServer _ _ => ServerError
  | PeRequest _ | PeConfig _ | PeUnsupported _ => InvalidInput
  | PeTransport _ | PeStream _ => Offline
  | PeTimeout => Timeout
  end.

(** The error as it prints. *)
Definition error_text (e : ProviderError) : str :=
  match e with
  | PeAuth m => lit "authentication required: " ++ m
  | PeRateLimited _ => lit "rate limited"
  | PeContextOverflow m => lit "context overflow: " ++ m
  | PeServer status m => lit "server error " ++ show_Z (Z.of_N status) ++ lit ": " ++ m
  | PeRequest m => lit "bad request: " ++ m
  | PeTransport m => lit "transport: " ++ m
  | PeStream m => lit "stream: " ++ m
  | PeTimeout => lit "timeout"
  | PeUnsupported m => lit "unsupported: " ++ m
  | PeConfig m => lit "configuration: " ++ m
  end.

(** ** The accumulator *)

Inductive Emit :=
| EStarted (item : Item)
| EDelta (item : ItemId) (n : N) (kind : DeltaKind) (data : str)
| ECompleted (item : Item).

Record Open := mkOpen { op_item : Item; op_deltas : N }.

Record Finished := mkFinished {
  fs_items : list Item;
  fs_tool_calls : list (ItemId * ToolCall);
  fs_usage : Usage;
  fs_context : option (N * N);
  fs_finish_reason : option FinishReason;
  fs_error : option ProviderError;
  fs_truncated : bool;
}.

Record Accumulator := mkAccumulator {
  ac_turn : TurnId;
  ac_round : N;
  ac_items : list Item;
  ac_open : gmap str Open;
  ac_tool_inputs : gmap str (str * str);
  ac_tool_calls : list (ItemId * ToolCall);
  ac_usage : Usage;
  ac_context : option (N * N);
  ac_finish_reason : option FinishReason;
  ac_error : option ProviderError;
}.

Definition acc_new (turn : TurnId) (round : N) : Accumulator :=
  mkAccumulator turn round [] ∅ ∅ [] usage_default None None None.

Definition item_ids (a : Accumulator) : list ItemId := item_id <$> ac_items a.

(** The fields one event touches. *)
Definition set_blocks (a : Accumulator) (its : list Item) (open : gmap str Open) : Accumulator :=
  mkAccumulator (ac_turn a) (ac_round a) its open (ac_tool_inputs a) (ac_tool_calls a) (ac_usage a)
    (ac_context a) (ac_finish_reason a) (ac_error a).
Definition set_inputs (a : Accumulator) (inputs : gmap str (str * str)) : Accumulator :=
  mkAccumulator (ac_turn a) (ac_round a) (ac_items a) (ac_open a) inputs (ac_tool_calls a) (ac_usage a)
    (ac_context a) (ac_finish_reason a) (ac_error a).

Definition acc_fresh (a : Accumulator) (id : ItemId) (now : Timestamp) (body : ItemBody) (status : ItemStatus) : Item :=
  mkItem id (Some (ac_turn a)) (ac_round a) status now None None body [].

Definition start_block (a : Accumulator) (id : ItemId) (now : Timestamp) (key : str) (body : ItemBody)
    : Accumulator * list Emit :=
  let item := acc_fresh a id now body Running in
  (set_blocks a (ac_items a ++ [item]) (<[key := mkOpen item 0]> (ac_open a)), [EStarted item]).

Definition acc_delta (a : Accumulator) (key : str) (kind : DeltaKind) (data : str) : Accumulator * list Emit :=
  match ac_open a !! key with
  | None => (a, [])
  | Some o =>
      let body := match item_body (op_item o), kind with
                  | BAssistant text, DText => Some (BAssistant (text ++ data))
                  | BReasoning text meta, DReasoning => Some (BReasoning (text ++ data) meta)
                  | _, _ => None
                  end in
      match body with
      | None => (a, [])
      | Some body =>
          let o' := mkOpen (with_body (op_item o) body) (u32_add (op_deltas o) 1) in
          (set_blocks a (ac_items a) (<[key := o']> (ac_open a)),
           [EDelta (item_id (op_item o)) (op_deltas o) kind data])
      end
  end.

Definition acc_replace (its : list Item) (item : Item) : list Item :=
  match position (fun i => bool_decide (item_id i = item_id item)) its with
  | Some at_ => <[at_ := item]> its
  | None => its
  end.

Definition set_status (i : Item) (status : ItemStatus) (completed_at : option Timestamp) : Item :=
  mkItem (item_id i) (item_turn i) (item_round i) status (item_started_at i) completed_at (item_intent i)
         (item_body i) (item_meta i).

Definition end_block (a : Accumulator) (now : Timestamp) (key : str) (status : ItemStatus) : Accumulator * list Emit :=
  match ac_open a !! key with
  | None => (a, [])
  | Some o =>
      let item := set_status (op_item o) status (Some now) in
      (set_blocks a (acc_replace (ac_items a) item) (delete key (ac_open a)), [ECompleted item])
  end.

Definition end_reasoning (a : Accumulator) (now : Timestamp) (key : str)
    (meta : list (str * list (str * Value))) : Accumulator * list Emit :=
  let a :=
    match ac_open a !! key with
    | Some o =>
        match item_body (op_item o) with
        | BReasoning text _ =>
            set_blocks a (ac_items a)
              (<[key := mkOpen (with_body (op_item o) (BReasoning text meta)) (op_deltas o)]> (ac_open a))
        | _ => a
        end
    | None => a
    end in
  end_block a now key Completed.

Definition acc_compacted (a : Accumulator) (id : ItemId) (now : Timestamp) (before after : N)
    : Accumulator * list Emit :=
  let item := set_status (acc_fresh a id now (BCompaction [] 0 before after 0 None) Completed) Completed (Some now) in
  (set_blocks a (ac_items a ++ [item]) (ac_open a), [ECompleted item]).

Section accumulate.
(** [serde_json::from_str], an error as it prints. *)
Context (parse_json : str → result str Value).
(** The keys of a hash map, in the order it gives them. *)
Context (hash_order : gmap str Open → list str).

Definition parse_input (raw : str) : Value * list (str * Value) :=
  match parse_json raw with
  | Ok value => (value, [])
  | Err e => (VString raw, [(lit "invalidInput", VString e)])
  end.

Definition start_call (a : Accumulator) (id : ItemId) (now : Timestamp) (call_id name raw : str)
    : Accumulator * list Emit :=
  let '(input, meta) := parse_input raw in
  let item := mkItem id (Some (ac_turn a)) (ac_round a) Pending now None None
                (BToolCall None None None call_id name input None None None false) meta in
  (mkAccumulator (ac_turn a) (ac_round a) (ac_items a ++ [item]) (ac_open a)
     (delete call_id (ac_tool_inputs a)) (ac_tool_calls a ++ [(id, mkToolCall call_id name input)])
     (ac_usage a) (ac_context a) (ac_finish_reason a) (ac_error a),
   [EStarted item]).

(** [push]; [id] and [now] are what the source would mint and read. *)
Definition acc_push (a : Accumulator) (id : ItemId) (now : Timestamp) (e : ModelEvent) : Accumulator * list Emit :=
  match e with
  | StreamStart _ | ResponseMetadata _ _ => (a, [])
  | TextStart key => start_block a id now key (BAssistant [])
  | TextDelta key data => acc_delta a key DText data
  | TextEnd key => end_block a now key Completed
  | ReasoningStart key => start_block a id now key (BReasoning [] [])
  | ReasoningDelta key data => acc_delta a key DReasoning data
  | ReasoningEnd key meta => end_reasoning a now key meta
  | ToolInputStart key name => (set_inputs a (<[key := (name, [])]> (ac_tool_inputs a)), [])
  | ToolInputDelta key data =>
      (set_inputs a (alter (fun p => (p.1, p.2 ++ data)) key (ac_tool_inputs a)), [])
  | ToolInputEnd _ => (a, [])
  | ToolCallEvent key name input => start_call a id now key name input
  | ContextReading used window =>
      (mkAccumulator (ac_turn a) (ac_round a) (ac_items a) (ac_open a) (ac_tool_inputs a) (ac_tool_calls a)
         (ac_usage a) (Some (used, window)) (ac_finish_reason a) (ac_error a), [])
  | CompactedEvent before after => acc_compacted a id now before after
  | FinishEvent usage reason =>
      (mkAccumulator (ac_turn a) (ac_round a) (ac_items a) (ac_open a) (ac_tool_inputs a) (ac_tool_calls a)
         usage (ac_context a) (Some reason) (ac_error a), [])
  end.

(** Close the blocks named, in order. *)
Fixpoint end_blocks (a : Accumulator) (now : Timestamp) (keys : list str) (status : ItemStatus)
    : Accumulator * list Emit :=
  match keys with
  | [] => (a, [])
  | key :: keys =>
      let '(a, emits) := end_block a now key status in
      let '(a, emits') := end_blocks a now keys status in
      (a, emits ++ emits')
  end.

Definition is_pending_call (i : Item) : bool :=
  match item_body i with
  | BToolCall _ _ _ _ _ _ _ _ _ _ => bool_decide (item_status i = Pending)
  | _ => false
  end.

Definition acc_finish (a : Accumulator) (now : Timestamp) (interrupted : bool) : list Emit * Finished :=
  let status := if interrupted then Interrupted else Completed in
  let truncated := negb (bool_decide (ac_open a = ∅)) in
  let '(a, emits) := end_blocks a now (hash_order (ac_open a)) status in
  let its := if interrupted
             then (fun i => if is_pending_call i then set_status i Interrupted (item_completed_at i) else i) <$> ac_items a
             else ac_items a in
  (emits, mkFinished its (ac_tool_calls a) (ac_usage a) (ac_context a) (ac_finish_reason a) (ac_error a) truncated).

(** ** The streaming leg *)

(** A tool as its name and the traits of a call to it. *)
Abbreviation NamedTool := (str * (Value → ToolTraits))%type (only parsing).

Definition with_quiet (tools : list NamedTool) (i : Item) : Item :=
  match item_body i with
  | BToolCall al asked began cid name input output progress dur _ =>
      let quiet := match find_bool (fun t => bool_decide (t.1 = name)) tools with
                   | Some (_, traits) => quiet (traits input)
                   | None => false
                   end in
      with_body i (BToolCall al asked began cid name input output progress dur quiet)
  | _ => i
  end.

(** [Turn::publish]. *)
Definition publish_event (tools : list NamedTool) (e : Emit) : Event :=
  match e with
  | EStarted item => ItemStarted (with_quiet tools item)
  | EDelta item n kind data => ItemDelta item n kind data
  | ECompleted item => ItemCompleted item
  end.

Definition publish_emits (tools : list NamedTool) (t : Transcript) (emits : list Emit) : Transcript :=
  transcript_fold t (publish_event tools <$> emits).

(** What the select loop wakes up to. *)
Inductive Arrival :=
| Arrived (id : ItemId) (now : Timestamp) (e : ModelEvent)
| ArrivedErr (e : ProviderError)
| ArrivedEnd
| ArrivedCancel.

Inductive Streamed :=
| SDone (f : Finished)
| SFailed (e : ProviderError) (dropped : list ItemId)
| SCancelled.

(** How the loop left: the accumulator, the transcript, an error, a cancel. *)
Fixpoint stream_loop (tools : list NamedTool) (a : Accumulator) (t : Transcript) (arrivals : list Arrival)
    : Accumulator * Transcript * option ProviderError * bool :=
  match arrivals with
  | Arrived id now e :: arrivals =>
      let '(a, emits) := acc_push a id now e in
      stream_loop tools a (publish_emits tools t emits) arrivals
  | ArrivedErr e :: _ => (a, t, Some e, false)
  | ArrivedCancel :: _ => (a, t, None, true)
  | ArrivedEnd :: _ | [] => (a, t, None, false)
  end.

Definition no_finish : ProviderError := PeStream (lit "the stream ended without a finish").

(** [stream], once established; [token]: the turn's token when the loop is done. *)
Definition stream (tools : list NamedTool) (turn : TurnId) (round : N) (t : Transcript)
    (arrivals : list Arrival) (token : bool) (now : Timestamp) : Transcript * Streamed :=
  let '(a, t, error, cancelled) := stream_loop tools (acc_new turn round) t arrivals in
  let cancelled := cancelled || token in
  let dropped := item_ids a in
  let '(emits, finished) := acc_finish a now cancelled in
  let t := publish_emits tools t emits in
  (t,
   if cancelled then SCancelled
   else match option_or error (fs_error finished) with
        | Some e => SFailed e dropped
        | None => if option_is_some (fs_finish_reason finished) then SDone finished
                  else SFailed no_finish dropped
        end).
End accumulate.

(** ** A transcript with a tail of its own *)

(** [t] is [t0] with the items [tail] after it, in both orders. *)
Record grown (t0 t : Transcript) (tail : list Item) : Prop := mk_grown {
  gr_wf : transcript_wf t;
  gr_items : t_items t = t_items t0 ++ tail;
  gr_order : t_model_order t = t_model_order t0 ++ ids_of tail;
  gr_frame : (t_generation t, t_hidden t, t_cut t, t_has_more t)
           = (t_generation t0, t_hidden t0, t_cut t0, t_has_more t0);
}.

Lemma grown_nil t : transcript_wf t → grown t t [].
Proof. intros H. split; rewrite ?app_nil_r; done. Qed.

(** Publishing an item, started or completed, is an upsert. *)
Definition puts (e : Event) (item : Item) : Prop := e = ItemStarted item ∨ e = ItemCompleted item.

Lemma puts_apply e item t : puts e item → (transcript_apply t e).1 = bump (upsert t item).1.
Proof. intros [-> | ->]; unfold transcript_apply; simpl; by destruct (upsert t item) eqn:E; unfold upsert in E; repeat case_match; simplify_eq/=. Qed.

Lemma grown_new t0 t tail e item : grown t0 t tail → puts e item → item_id item ∉ ids_of (t_items t) →
  grown t0 (transcript_apply t e).1 (tail ++ [item]).
Proof.
  intros [Hwf Hi Ho Hf] Hp Hn. rewrite (puts_apply e item t Hp).
  assert (item_id item ∉ t_model_order t) as Hm by (intros ?; by apply Hn, (wf_order_known t Hwf)).
  split.
  - by apply bump_wf, upsert_wf.
  - unfold upsert. rewrite (proj2 (wf_lookup_None t _ Hwf) Hn). simpl.
    destruct (bool_decide _); simpl; by rewrite Hi, app_assoc.
  - simpl. rewrite upsert_order by done. rewrite decide_False by done. by rewrite Ho, fmap_app, app_assoc.
  - rewrite <- Hf. unfold upsert. by repeat case_match; simplify_eq/=.
Qed.

(** The position of an item of the tail. *)
Lemma grown_position t0 t tail k old : grown t0 t tail → tail !! k = Some old →
  t_positions t !! item_id old = Some (length (t_items t0) + k)
  ∧ t_items t !! (length (t_items t0) + k) = Some old.
Proof.
  intros [Hwf Hi _ _] Hk. assert (t_items t !! (length (t_items t0) + k) = Some old) as Hl.
  { rewrite Hi, lookup_app_r by lia. by replace (_ + k - _) with k by lia. }
  split; [|done]. apply wf_lookup; [done|]. eauto.
Qed.

Lemma grown_set t0 t tail k old item : grown t0 t tail → tail !! k = Some old → item_id item = item_id old →
  grown t0 (set_items t (<[length (t_items t0) + k := item]> (t_items t))) (<[k := item]> tail).
Proof.
  intros Hg Hk Hid. destruct (grown_position _ _ _ _ _ Hg Hk) as [_ Hl]. destruct Hg as [Hwf Hi Ho Hf].
  split; simpl; [|by rewrite Hi, insert_app_r| |done].
  - apply set_items_wf; [done|]. by eapply ids_of_insert.
  - rewrite Ho. by erewrite ids_of_insert.
Qed.

Lemma grown_bump t0 t tail : grown t0 t tail → grown t0 (bump t) tail.
Proof. intros [????]. split; [by apply bump_wf|done..]. Qed.

Lemma grown_replace t0 t tail k old e item : grown t0 t tail → tail !! k = Some old →
  puts e item → item_id item = item_id old → grown t0 (transcript_apply t e).1 (<[k := item]> tail).
Proof.
  intros Hg Hk Hp Hid. rewrite (puts_apply e item t Hp). apply grown_bump.
  destruct (grown_position _ _ _ _ _ Hg Hk) as [Hpos Hl].
  assert ((upsert t item).1 = set_items t (<[length (t_items t0) + k := item]> (t_items t))) as ->.
  { unfold upsert. rewrite Hid, Hpos. rewrite bool_decide_eq_true_2; [done|].
    destruct Hg as [Hwf Hi Ho _]. rewrite (wf_model_ids t Hwf), elem_of_list_to_set, Ho. apply elem_of_app. right.
    by apply list_elem_of_fmap_2, list_elem_of_lookup_2 with k. }
  by eapply grown_set.
Qed.

Lemma grown_delta t0 t tail k old n kind data body : grown t0 t tail → tail !! k = Some old →
  is_terminal old = false → delta_body (item_body old) kind data = Some body →
  grown t0 (transcript_apply t (ItemDelta (item_id old) n kind data)).1 (<[k := with_body old body]> tail).
Proof.
  intros Hg Hk Ht Hb. destruct (grown_position _ _ _ _ _ Hg Hk) as [Hpos Hl].
  unfold transcript_apply, change, delta. rewrite Hpos, Hl, Ht, Hb. simpl. apply grown_bump.
  by eapply grown_set.
Qed.

(** A well-formed transcript is what its orders and frame say. *)
Lemma wf_determined t t' : transcript_wf t → transcript_wf t' →
  t_items t = t_items t' → t_model_order t = t_model_order t' →
  (t_generation t, t_hidden t, t_cut t, t_has_more t) = (t_generation t', t_hidden t', t_cut t', t_has_more t') →
  forget_revision t = forget_revision t'.
Proof.
  intros Hw Hw' Hi Ho Hf. injection Hf as Hg Hh Hc Hm.
  pose proof (wf_positions _ Hw) as Hp. pose proof (wf_positions _ Hw') as Hp'.
  pose proof (wf_model_ids _ Hw) as Hs. pose proof (wf_model_ids _ Hw') as Hs'.
  unfold forget_revision. by rewrite Hp, Hp', Hs, Hs', Hi, Ho, Hg, Hh, Hc, Hm.
Qed.

(** Dropping the tail gives the transcript back. *)
Lemma grown_dropped t0 t tail turn attempt max delay reason : transcript_wf t0 → grown t0 t tail →
  forget_revision (transcript_apply t (TurnRetrying turn attempt max delay (ids_of tail) reason)).1
  = forget_revision t0.
Proof.
  intros Hw0 [Hwf Hi Ho Hf].
  pose proof (wf_nodup _ Hwf) as Hnd. rewrite Hi, fmap_app in Hnd. apply NoDup_app in Hnd as (_ & Hdis & _).
  pose proof (wf_order_nodup _ Hwf) as Hno. rewrite Ho in Hno. apply NoDup_app in Hno as (_ & Hdo & _).
  injection Hf as Hg Hh Hc Hm.
  assert (∀ i, i ∈ t_items t0 → is_dropped (ids_of tail) (item_id i) = false) as Hkeep.
  { intros i Hin. apply bool_decide_eq_false_2, Hdis. by apply list_elem_of_fmap_2. }
  assert (∀ i, i ∈ tail → is_dropped (ids_of tail) (item_id i) = true) as Hdrop.
  { intros i Hin. apply bool_decide_eq_true_2. by apply list_elem_of_fmap_2. }
  apply wf_determined; [by apply transcript_apply_wf|done|..]; simpl; rewrite ?Hi, ?Ho.
  - rewrite retain_app, retain_all, retain_none, app_nil_r; [done| |].
    + intros i Hin. by rewrite Hdrop.
    + intros i Hin. by rewrite Hkeep.
  - rewrite retain_app, retain_all, retain_none, app_nil_r; [done| |].
    + intros id Hin. unfold is_dropped. by rewrite bool_decide_eq_true_2.
    + intros id Hin. unfold is_dropped. rewrite bool_decide_eq_false_2; [done|]. by apply Hdo.
  - rewrite Hh. rewrite take_app_le by apply Hw0. rewrite retain_none; [simpl; by rewrite Nat.sub_0_r, Hg, Hc, Hm|].
    intros i Hin. apply Hkeep. by eapply elem_of_take_in.
Qed.

(** ** The accumulator and the transcript, side by side *)

Definition is_block (b : ItemBody) : bool :=
  match b with BAssistant _ | BReasoning _ _ => true | _ => false end.

(** The tail of the transcript is the accumulator's items, with what the open
    blocks have so far. *)
Record in_step (a : Accumulator) (tail : list Item) : Prop := mk_in_step {
  is_ids : item_ids a = ids_of tail;
  is_open : ∀ key o, ac_open a !! key = Some o →
    is_block (item_body (op_item o)) = true ∧ is_terminal (op_item o) = false
    ∧ ∃ k, tail !! k = Some (op_item o);
  is_inj : ∀ key key' o o', ac_open a !! key = Some o → ac_open a !! key' = Some o' →
    item_id (op_item o) = item_id (op_item o') → key = key';
}.

(** Where no block is open any more, what the accumulator holds is what was
    published, and each item is over or a call that waits for the gate. *)
Definition over (i : Item) : bool := is_terminal i || is_pending_call i.
Definition settled (tools : list (str * (Value → ToolTraits))) (a : Accumulator) (tail : list Item) : Prop :=
  ∀ k i j, ac_items a !! k = Some i → tail !! k = Some j →
    (∃ key o, ac_open a !! key = Some o ∧ op_item o = j) ∨ (j = with_quiet tools i ∧ over i = true).

Lemma block_quiet tools i : is_block (item_body i) = true → with_quiet tools i = i.
Proof. unfold with_quiet. by destruct (item_body i). Qed.

Lemma with_quiet_id tools i : item_id (with_quiet tools i) = item_id i.
Proof. unfold with_quiet. by destruct (item_body i). Qed.

Lemma nodup_same_index (l : list Item) k k' i i' : NoDup (ids_of l) →
  l !! k = Some i → l !! k' = Some i' → item_id i = item_id i' → k = k'.
Proof.
  intros Hn Hk Hk' Hid. eapply (NoDup_lookup (ids_of l)); [done|rewrite list_lookup_fmap, Hk; done|].
  rewrite list_lookup_fmap, Hk'. simpl. by rewrite Hid.
Qed.

Lemma replace_at (its tail : list Item) item k j : ids_of its = ids_of tail → NoDup (ids_of tail) →
  tail !! k = Some j → item_id item = item_id j → acc_replace its item = <[k := item]> its.
Proof.
  intros Hids Hn Hk Hid. unfold acc_replace.
  assert (position (λ i, bool_decide (item_id i = item_id item)) its = Some k) as ->; [|done].
  assert (is_Some (its !! k)) as [i Hi].
  { apply lookup_lt_is_Some. rewrite <- (length_fmap item_id its), Hids, length_fmap.
    by eapply lookup_lt_Some. }
  assert (∀ k' i', its !! k' = Some i' → item_id i' = item_id item ↔ k' = k) as Hiff.
  { intros k' i' Hk'. assert (ids_of tail !! k' = Some (item_id i')) as Ht by (rewrite <- Hids, list_lookup_fmap, Hk'; done).
    assert (ids_of tail !! k = Some (item_id j)) as Htk by (rewrite list_lookup_fmap, Hk; done).
    rewrite Hid. split; [intros E; rewrite E in Ht; by eapply NoDup_lookup|]. intros ->. congruence. }
  apply position_Some. exists i. split_and!; [done|by apply bool_decide_eq_true_2, (Hiff k i)|].
  intros k' i' Hlt Hk'. apply bool_decide_eq_false_2. rewrite (Hiff k' i') by done. lia.
Qed.

(** Appending an item that is no block. *)
Lemma step_append tools a tail item its' open' (a' := mkAccumulator (ac_turn a) (ac_round a) its' open'
    (ac_tool_inputs a) (ac_tool_calls a) (ac_usage a) (ac_context a) (ac_finish_reason a) (ac_error a)) :
  its' = ac_items a ++ [item] → open' = ac_open a → over item = true → in_step a tail →
  in_step a' (tail ++ [with_quiet tools item])
  ∧ (settled tools a tail → settled tools a' (tail ++ [with_quiet tools item])).
Proof.
  intros -> -> Hover [Hids Hop Hinj]. unfold item_ids in Hids. split; [split|]; simpl.
  - unfold item_ids. simpl. rewrite !fmap_app, Hids. csimpl. by rewrite with_quiet_id.
  - intros key o Ho. destruct (Hop key o Ho) as (? & ? & k & Hk). split_and!; [done..|].
    exists k. by apply lookup_app_l_Some.
  - done.
  - intros Hs k i j Hi Hj. unfold a' in *; simpl in *.
    assert (length (ac_items a) = length tail) as Hl by (by rewrite <- (length_fmap item_id), Hids, length_fmap).
    destruct (decide (k < length tail)) as [Hlt|Hge].
    + rewrite lookup_app_l in Hi, Hj by lia. by apply (Hs k).
    + rewrite lookup_app_r in Hi, Hj by lia. rewrite Hl in Hi. destruct (k - length tail) as [|n]; simplify_eq/=.
      by right.
Qed.

(** Starting a block. *)
Lemma step_start tools a tail id now key body :
  is_block body = true → id ∉ ids_of tail → in_step a tail →
  let a' := (start_block a id now key body).1 in
  let item := acc_fresh a id now body Running in
  in_step a' (tail ++ [item])
  ∧ (settled tools a tail → ac_open a !! key = None → settled tools a' (tail ++ [item])).
Proof.
  intros Hb Hn [Hids Hop Hinj] a' item. unfold item_ids in Hids.
  assert (∀ key' o', ac_open a !! key' = Some o' → item_id (op_item o') ≠ id) as Hfresh.
  { intros key' o' Ho' <-. destruct (Hop _ _ Ho') as (_ & _ & k & Hk). apply Hn.
    by eapply list_elem_of_fmap_2, list_elem_of_lookup_2. }
  split; [split|]; unfold a'; simpl.
  - unfold item_ids. simpl. by rewrite !fmap_app, Hids.
  - intros key' o. rewrite lookup_insert_Some. intros [[<- <-]|[Hne Ho]].
    + simpl. split_and!; [done|done|]. exists (length tail). by rewrite lookup_app_r, Nat.sub_diag by lia.
    + destruct (Hop _ _ Ho) as (? & ? & k & Hk). split_and!; [done..|]. exists k. by apply lookup_app_l_Some.
  - intros k1 k2 o1 o2. rewrite !lookup_insert_Some.
    intros [[<- <-]|[Hne1 Ho1]] [[<- <-]|[Hne2 Ho2]] E; [done|..|by eapply Hinj]; simpl in E.
    + by destruct (Hfresh _ _ Ho2).
    + by destruct (Hfresh _ _ Ho1).
  - intros Hs Hkey k i j Hi Hj. cbn in Hi. cbn [start_block fst set_blocks ac_open].
    assert (length (ac_items a) = length tail) as Hl by (by rewrite <- (length_fmap item_id), Hids, length_fmap).
    destruct (decide (k < length tail)) as [Hlt|Hge].
    + rewrite lookup_app_l in Hi, Hj by lia. destruct (Hs k i j Hi Hj) as [(key' & o & Ho & <-)|]; [left|by right].
      exists key', o. split; [|done]. rewrite lookup_insert_ne; [done|]. congruence.
    + rewrite lookup_app_r in Hi, Hj by lia. rewrite Hl in Hi. destruct (k - length tail) as [|n]; simplify_eq/=.
      left. eexists key, _. by rewrite lookup_insert_eq.
Qed.

(** An open block's item changes in place; or it closes with its last item. *)
Lemma step_update tools a tail key o k item open' :
  in_step a tail → ac_open a !! key = Some o → tail !! k = Some (op_item o) → item_id item = item_id (op_item o) →
  NoDup (ids_of tail) →
  (∀ key' o', open' !! key' = Some o' → key' ≠ key → ac_open a !! key' = Some o') →
  (∀ key', key' ≠ key → is_Some (ac_open a !! key') → open' !! key' = ac_open a !! key') →
  (∀ o', open' !! key = Some o' → op_item o' = item ∧ is_block (item_body item) = true ∧ is_terminal item = false) →
  let its' := match open' !! key with Some _ => ac_items a | None => <[k := item]> (ac_items a) end in
  in_step (set_blocks a its' open') (<[k := item]> tail)
  ∧ (settled tools a tail → (open' !! key = None → is_block (item_body item) = true ∧ is_terminal item = true) →
     settled tools (set_blocks a its' open') (<[k := item]> tail)).
Proof.
  intros [Hids Hop Hinj] Ho Hk Hid Hnd Hold Hkeep Hnew its'. unfold item_ids in Hids.
  assert (ids_of its' = ids_of (ac_items a)) as Hits.
  { unfold its'. case_match; [done|]. 
    assert (is_Some (ac_items a !! k)) as [i Hi].
    { apply lookup_lt_is_Some. rewrite <- (length_fmap item_id (ac_items a)), Hids, length_fmap. by eapply lookup_lt_Some. }
    eapply ids_of_insert; [done|]. rewrite Hid.
    assert (ids_of (ac_items a) !! k = ids_of tail !! k) as E by by rewrite Hids.
    rewrite !list_lookup_fmap, Hi, Hk in E. simpl in E. congruence. }
  assert (∀ key' o' n, ac_open a !! key' = Some o' → key' ≠ key → tail !! n = Some (op_item o') → n ≠ k) as Hother.
  { intros key' o' n Ho' Hne Hn ->. rewrite Hk in Hn. injection Hn as E. destruct Hne. eapply Hinj; [done|done|].
    by rewrite E. }
  split; [split|]; simpl.
  - unfold item_ids; simpl. rewrite Hits, Hids. by erewrite ids_of_insert.
  - intros key' o' Ho'. destruct (decide (key' = key)) as [->|Hne].
    + destruct (Hnew _ Ho') as (-> & ? & ?). split_and!; [done..|]. exists k. apply list_lookup_insert_eq.
      by eapply lookup_lt_Some.
    + specialize (Hold _ _ Ho' Hne). destruct (Hop _ _ Hold) as (? & ? & n & Hn). split_and!; [done..|].
      exists n. rewrite list_lookup_insert_ne; [done|]. intros ->. by eapply Hother.
  - intros k1 k2 o1 o2 H1 H2 E.
    assert (∀ k' o', open' !! k' = Some o' → ∃ o'', ac_open a !! k' = Some o'' ∧ item_id (op_item o'') = item_id (op_item o')) as Hsame.
    { intros k' o' Hk'. destruct (decide (k' = key)) as [->|Hne]; [|by eauto].
      exists o. split; [done|]. destruct (Hnew _ Hk') as (-> & _). done. }
    destruct (Hsame _ _ H1) as (x1 & Hx1 & E1), (Hsame _ _ H2) as (x2 & Hx2 & E2).
    eapply Hinj; [done|done|]. congruence.
  - intros Hs Hb n i j Hi Hj. cbn in Hi. destruct (decide (n = k)) as [->|Hne].
    + rewrite list_lookup_insert_eq in Hj by by eapply lookup_lt_Some. injection Hj as <-.
      unfold its' in Hi. destruct (open' !! key) as [o'|] eqn:E.
      * left. exists key, o'. split; [done|]. by apply Hnew.
      * right. rewrite list_lookup_insert_eq in Hi.
        2: { rewrite <- (length_fmap item_id (ac_items a)), Hids, length_fmap. by eapply lookup_lt_Some. }
        injection Hi as <-. destruct (Hb eq_refl) as [? Ht]. rewrite block_quiet by done. unfold over. by rewrite Ht.
    + rewrite list_lookup_insert_ne in Hj by done.
      assert (ac_items a !! n = Some i) as Hi'.
      { unfold its' in Hi. case_match; [done|]. by rewrite list_lookup_insert_ne in Hi. }
      destruct (Hs n i j Hi' Hj) as [(key' & o' & Ho' & <-)|]; [left|by right].
      exists key', o'. split; [|done]. simpl. rewrite Hkeep; [done| |by eexists].
      intros ->. rewrite Ho in Ho'. injection Ho' as <-. apply Hne. by eapply nodup_same_index.
Qed.

Lemma same_blocks tools a a' tail : ac_items a' = ac_items a → ac_open a' = ac_open a →
  (in_step a tail → in_step a' tail) ∧ (settled tools a tail → settled tools a' tail).
Proof.
  intros Hi Ho. split.
  - intros [H1 H2 H3]. split; [unfold item_ids in *; by rewrite Hi|rewrite Ho; done..].
  - unfold settled. by rewrite Hi, Ho.
Qed.

Lemma grown_nodup t0 t tail : grown t0 t tail → NoDup (ids_of tail).
Proof.
  intros [Hwf Hi _ _]. pose proof (wf_nodup _ Hwf) as Hn. rewrite Hi, fmap_app in Hn. by apply NoDup_app in Hn as (_ & _ & ?).
Qed.

(** One event of the stream, or one block closed, keeps the two side by side. *)
Definition keeps (tools : list (str * (Value → ToolTraits))) (t0 t : Transcript) (tail : list Item)
    (a a' : Accumulator) (emits : list Emit) (id : option ItemId) (opening : Prop) : Prop :=
  ∃ tail', grown t0 (publish_emits tools t emits) tail' ∧ in_step a' tail'
    ∧ (ids_of tail' = ids_of tail ∨ ids_of tail' = ids_of tail ++ option_list id)
    ∧ (settled tools a tail → opening → settled tools a' tail').

Section keeping.
Context (tools : list (str * (Value → ToolTraits))) (t0 t : Transcript) (tail : list Item) (a : Accumulator).
Context (Hg : grown t0 t tail) (Hs : in_step a tail).

Lemma keeps_same a' id opening : ac_items a' = ac_items a → ac_open a' = ac_open a →
  keeps tools t0 t tail a a' [] id opening.
Proof.
  intros Hi Ho. destruct (same_blocks tools a a' tail Hi Ho) as [H1 H2].
  exists tail. split_and!; [done|auto|by left|auto].
Qed.

Lemma keeps_delta key kind data id opening a' emits :
  acc_delta a key kind data = (a', emits) → keeps tools t0 t tail a a' emits id opening.
Proof.
  unfold acc_delta. destruct (ac_open a !! key) as [o|] eqn:Eo; [|by intros [= <- <-]; apply keeps_same].
  destruct (is_open _ _ Hs _ _ Eo) as (Hb & Ht & k & Hk).
  destruct (match item_body (op_item o), kind with BAssistant _, DText => _ | _, _ => _ end) as [body|] eqn:Ebody;
    [|by intros [= <- <-]; apply keeps_same].
  intros [= <- <-].
  assert (delta_body (item_body (op_item o)) kind data = Some body ∧ is_block body = true) as [Hd Hbb].
  { destruct (item_body (op_item o)), kind; simplify_eq/=; done. }
  edestruct (step_update tools a tail key o k (with_body (op_item o) body)
    (<[key := mkOpen (with_body (op_item o) body) (u32_add (op_deltas o) 1)]> (ac_open a))) as [H1 H2];
    [done|done|done|done|by eapply grown_nodup|..].
  { intros key' o' Ho' Hne. by rewrite lookup_insert_ne in Ho'. }
  { intros key' Hne _. by rewrite lookup_insert_ne. }
  { intros o'. rewrite lookup_insert_eq. by intros [= <-]. }
  rewrite lookup_insert_eq in H1, H2.
  exists (<[k := with_body (op_item o) body]> tail). split_and!; [|done|left; by eapply ids_of_insert|].
  - unfold publish_emits; simpl. by apply grown_delta.
  - intros Hst _. by apply H2.
Qed.

(** A block closes with the item [item]. *)
Lemma keeps_close key o item id opening : ac_open a !! key = Some o → item_id item = item_id (op_item o) →
  is_block (item_body item) = true → is_terminal item = true →
  keeps tools t0 t tail a (set_blocks a (acc_replace (ac_items a) item) (delete key (ac_open a))) [ECompleted item] id opening.
Proof.
  intros Eo Hid Hb Hterm. destruct (is_open _ _ Hs _ _ Eo) as (_ & _ & k & Hk).
  pose proof (grown_nodup _ _ _ Hg) as Hnd. pose proof (is_ids _ _ Hs) as Hids. unfold item_ids in Hids.
  rewrite (replace_at _ tail item k (op_item o)) by done.
  edestruct (step_update tools a tail key o k item (delete key (ac_open a))) as [H1 H2]; [done|done|done|done|done|..].
  { intros key' o' [_ ?]%lookup_delete_Some _. done. }
  { intros key' Hne _. by rewrite lookup_delete_ne. }
  { intros o'. by rewrite lookup_delete_eq. }
  rewrite lookup_delete_eq in H1, H2.
  exists (<[k := item]> tail). split_and!; [|done|left; by eapply ids_of_insert|].
  - unfold publish_emits; simpl. eapply grown_replace; [done|done|by right|done].
  - intros Hst _. by apply H2.
Qed.

Lemma keeps_end now key status id opening a' emits : status_is_terminal status = true →
  end_block a now key status = (a', emits) → keeps tools t0 t tail a a' emits id opening.
Proof.
  intros Hst. unfold end_block. destruct (ac_open a !! key) as [o|] eqn:Eo; [|by intros [= <- <-]; apply keeps_same].
  intros [= <- <-]. apply (keeps_close key o); [done|done| |done]. simpl. by apply (is_open _ _ Hs _ _ Eo).
Qed.

Lemma keeps_end_reasoning now key meta id opening a' emits :
  end_reasoning a now key meta = (a', emits) → keeps tools t0 t tail a a' emits id opening.
Proof.
  unfold end_reasoning. destruct (ac_open a !! key) as [o|] eqn:Eo; [|by apply keeps_end].
  destruct (item_body (op_item o)) eqn:Eb; try (by apply keeps_end).
  unfold end_block; simpl. rewrite lookup_insert_eq. intros [= <- <-]. rewrite delete_insert_eq.
  by apply (keeps_close key o).
Qed.

Lemma keeps_start now key body id a' emits : is_block body = true → id ∉ ids_of (t_items t) →
  start_block a id now key body = (a', emits) → keeps tools t0 t tail a a' emits (Some id) (ac_open a !! key = None).
Proof.
  intros Hb Hn E. pose proof E as E'. unfold start_block in E'. injection E' as _ <-.
  destruct (step_start tools a tail id now key body) as [H1 H2]; [done| |done|].
  { intros Hin. apply Hn. rewrite (gr_items _ _ _ Hg), fmap_app. apply elem_of_app. by right. }
  rewrite E in H1, H2. exists (tail ++ [acc_fresh a id now body Running]). split_and!; [|done| |auto].
  - unfold publish_emits; simpl. rewrite block_quiet by done. eapply grown_new; [done|by left|done].
  - right. by rewrite fmap_app.
Qed.
End keeping.

(** The stream opens no block under an id that is still open. *)
Definition opening (a : Accumulator) (e : ModelEvent) : Prop :=
  match e with TextStart key | ReasoningStart key => ac_open a !! key = None | _ => True end.

Section streaming.
Context (parse_json : str → result str Value) (hash_order : gmap str Open → list str).

Lemma keeps_push tools t0 t tail a id now e a' emits :
  grown t0 t tail → in_step a tail → id ∉ ids_of (t_items t) →
  acc_push parse_json a id now e = (a', emits) →
  keeps tools t0 t tail a a' emits (Some id) (opening a e).
Proof.
  intros Hg Hs Hn E. destruct e; simpl in E; cbn [opening];
    try (injection E as <- <-; by apply keeps_same);
    try (by eapply keeps_delta); try (by eapply keeps_end_reasoning); try (eapply keeps_end; [| | |exact E]; done);
    try (eapply (keeps_start tools t0 t tail a Hg Hs now); [|exact Hn|exact E]; reflexivity).
  - unfold start_call in E. destruct (parse_input parse_json input) as [v meta]. injection E as <- <-.
    set (item := mkItem _ _ _ _ _ _ _ _ _).
    edestruct (step_append tools a tail item) as [H1 H2]; [done|done|done|done|].
    exists (tail ++ [with_quiet tools item]). split_and!.
    + unfold publish_emits. cbn [publish_event fmap list_fmap transcript_fold foldl].
      eapply grown_new; [done|by left|]. by rewrite with_quiet_id.
    + destruct (same_blocks tools (mkAccumulator (ac_turn a) (ac_round a) (ac_items a ++ [item]) (ac_open a)
        (ac_tool_inputs a) (ac_tool_calls a) (ac_usage a) (ac_context a) (ac_finish_reason a) (ac_error a))
        (mkAccumulator (ac_turn a) (ac_round a) (ac_items a ++ [item]) (ac_open a)
        (delete id0 (ac_tool_inputs a)) (ac_tool_calls a ++ [(id, mkToolCall id0 name v)])
        (ac_usage a) (ac_context a) (ac_finish_reason a) (ac_error a)) (tail ++ [with_quiet tools item])) as [Hx _]; [done|done|].
      by apply Hx.
    + right. by rewrite fmap_app.
    + intros Hst _. exact (H2 Hst).
  - unfold acc_compacted in E. injection E as <- <-. set (item := set_status _ _ _).
    edestruct (step_append tools a tail item) as [H1 H2]; [done|done|done|done|].
    exists (tail ++ [item]). split_and!; [|done|right; by rewrite fmap_app|intros Hst _; exact (H2 Hst)].
    unfold publish_emits; simpl. eapply grown_new; [done|by right|done].
Qed.

(** The ids the stream may mint. *)
Definition minted (arrivals : list Arrival) : list ItemId :=
  omap (λ x, match x with Arrived id _ _ => Some id | _ => None end) arrivals.

(** Every block is opened under an id not open, as the stream goes. *)
Fixpoint orderly (a : Accumulator) (arrivals : list Arrival) : Prop :=
  match arrivals with
  | Arrived id now e :: arrivals => opening a e ∧ orderly (acc_push parse_json a id now e).1 arrivals
  | _ => True
  end.

(** *** What the accumulator counts as calls *)

Definition call_of_item (i : Item) : option (ItemId * ToolCall) :=
  match item_body i with
  | BToolCall _ _ _ cid name input _ _ _ _ => Some (item_id i, mkToolCall cid name input)
  | _ => None
  end.

Record counted (a : Accumulator) : Prop := mk_counted {
  cn_calls : ac_tool_calls a = omap call_of_item (ac_items a);
  cn_blocks : ∀ key o, ac_open a !! key = Some o → is_block (item_body (op_item o)) = true
    ∧ ∃ i, i ∈ ac_items a ∧ item_id i = item_id (op_item o) ∧ is_block (item_body i) = true;
}.

Lemma block_no_call i : is_block (item_body i) = true → call_of_item i = None.
Proof. unfold call_of_item. by destruct (item_body i). Qed.

Lemma omap_insert_none {A B} (g : A → option B) (l : list A) k x y :
  l !! k = Some x → g x = None → g y = None → omap g (<[k := y]> l) = omap g l.
Proof.
  revert k. induction l as [|z l IH]; intros [|k] Hk Hx Hy; simplify_eq/=; csimpl; [by rewrite Hx, Hy|].
  by rewrite IH.
Qed.

(** Replacing a block by a block of the same id. *)
Lemma counted_replace a item open' : counted a → NoDup (item_ids a) → is_block (item_body item) = true →
  (∃ key o, ac_open a !! key = Some o ∧ item_id (op_item o) = item_id item) →
  (∀ key o, open' !! key = Some o → is_block (item_body (op_item o)) = true
    ∧ ∃ o', ac_open a !! key = Some o' ∧ item_id (op_item o') = item_id (op_item o)) →
  counted (set_blocks a (acc_replace (ac_items a) item) open').
Proof.
  intros [Hc Hb] Hnd Hblk (key & o & Ho & Hid) Hopen. destruct (Hb _ _ Ho) as (_ & i & Hin & Hii & Hib).
  apply list_elem_of_lookup in Hin as [k Hk].
  rewrite (replace_at _ (ac_items a) item k i) by (done || congruence).
  split; simpl.
  - rewrite Hc. symmetry. eapply omap_insert_none; [done|by apply block_no_call..].
  - intros key' o1 Ho1. destruct (Hopen _ _ Ho1) as (Hb1 & o2 & Ho2 & E2). split; [done|].
    destruct (Hb _ _ Ho2) as (_ & i' & Hin' & Hi' & Hib'). apply list_elem_of_lookup in Hin' as [k' Hk'].
    destruct (decide (k' = k)) as [->|Hne].
    + exists item. split_and!; [|congruence|done]. eapply list_elem_of_lookup_2, list_lookup_insert_eq.
      by eapply lookup_lt_Some.
    + exists i'. split_and!; [|congruence|done]. eapply list_elem_of_lookup_2 with k'. by rewrite list_lookup_insert_ne.
Qed.

Lemma counted_end a now key status : counted a → NoDup (item_ids a) → counted (end_block a now key status).1.
Proof.
  intros Hc Hnd. unfold end_block. destruct (ac_open a !! key) as [o|] eqn:Eo; [|done]. simpl.
  destruct (cn_blocks _ Hc _ _ Eo) as [Hb _]. apply counted_replace; [done|done|done|by eauto|].
  intros key' o' [_ Ho']%lookup_delete_Some. split; [by apply (cn_blocks _ Hc _ _ Ho')|eauto].
Qed.

(** Changing what an open block holds. *)
Lemma counted_update a key o body n : counted a → ac_open a !! key = Some o → is_block body = true →
  counted (set_blocks a (ac_items a) (<[key := mkOpen (with_body (op_item o) body) n]> (ac_open a))).
Proof.
  intros [Hc Hb] Ho Hbody. split; simpl; [done|]. intros key' o'. rewrite lookup_insert_Some.
  intros [[<- <-]|[_ Ho']]; [|by eapply Hb]. simpl. split; [done|]. destruct (Hb _ _ Ho) as (_ & i & Hi). by exists i.
Qed.

(** Items after those there, that count as calls what they are. *)
Lemma counted_snoc a item a' : counted a → ac_items a' = ac_items a ++ [item] →
  ac_tool_calls a' = ac_tool_calls a ++ option_list (call_of_item item) →
  (∀ key o, ac_open a' !! key = Some o → ac_open a !! key = Some o ∨ (op_item o = item ∧ is_block (item_body item) = true)) →
  counted a'.
Proof.
  intros [Hc Hb] Hi Ht Ho. split.
  - rewrite Ht, Hi, Hc, omap_app. csimpl. by destruct (call_of_item item).
  - intros key o Hk. rewrite Hi. destruct (Ho _ _ Hk) as [Hold|[Heq Hblk]].
    + destruct (Hb _ _ Hold) as (? & i & Hin & ?). split; [done|]. exists i. split; [|done]. apply elem_of_app. by left.
    + rewrite Heq. split; [done|]. exists item. split_and!; [|done|done]. apply elem_of_app. right. by left.
Qed.

Lemma counted_push a id now e : counted a → NoDup (item_ids a) → counted (acc_push parse_json a id now e).1.
Proof.
  intros Hc Hnd. destruct e; simpl; try done; try (by destruct Hc); try (by apply counted_end).
  1,3: eapply counted_snoc; [done|done|simpl; by rewrite app_nil_r|];
       intros key o; simpl; rewrite lookup_insert_Some; intros [[<- <-]|[_ ?]]; auto.
  1,2: unfold acc_delta; destruct (ac_open a !! id0) as [o|] eqn:Eo; [|done];
       destruct (item_body (op_item o)) eqn:Eb; try done; by apply counted_update.
  - unfold end_reasoning. destruct (ac_open a !! id0) as [o|] eqn:Eo; [|by apply counted_end].
    destruct (item_body (op_item o)) eqn:Eb; try (by apply counted_end).
    apply counted_end; [by apply counted_update|done].
  - unfold start_call. destruct (parse_input parse_json input) as [v m]. simpl.
    eapply counted_snoc; [done|done|done|]. by left.
  - eapply counted_snoc; [done|done|simpl; by rewrite app_nil_r|]. by left.
Qed.
Lemma loop_keeps tools t0 arrivals : ∀ t tail a a' t' error cancelled,
  grown t0 t tail → in_step a tail →
  NoDup (minted arrivals) → (∀ id, id ∈ minted arrivals → id ∉ ids_of (t_items t)) →
  stream_loop parse_json tools a t arrivals = (a', t', error, cancelled) →
  ∃ tail', grown t0 t' tail' ∧ in_step a' tail'
    ∧ (settled tools a tail → orderly a arrivals → settled tools a' tail')
    ∧ (counted a → counted a').
Proof.
  induction arrivals as [|x arrivals IH]; intros t tail a a' t' error cancelled Hg Hs Hnd Hfresh E.
  { injection E as <- <- _ _. eauto 6. }
  destruct x as [id now e| | |]; [|injection E as <- <- _ _; by eauto 6..].
  cbn [stream_loop] in E. destruct (acc_push parse_json a id now e) as [a1 emits] eqn:Ep.
  unfold minted in *. csimpl in Hnd. csimpl in Hfresh. apply NoDup_cons in Hnd as [Hid Hnd].
  destruct (keeps_push tools t0 t tail a id now e a1 emits Hg Hs) as (tail1 & Hg1 & Hs1 & Hids & Hset); [|done|].
  { apply Hfresh. by left. }
  assert (∀ id', id' ∈ ids_of tail1 → id' ∈ ids_of tail ∨ id' = id) as Htail.
  { intros id' Hin. destruct Hids as [<-|Hids]; [by left|]. rewrite Hids in Hin. simpl in Hin. set_solver. }
  eassert _ as Hfresh1; [|destruct (IH _ _ _ _ _ _ _ Hg1 Hs1 Hnd Hfresh1 E) as (tail' & Hg' & Hs' & Hset' & Hcnt')].
  - intros id' Hin'. specialize (Hfresh id'). rewrite (gr_items _ _ _ Hg), fmap_app in Hfresh.
    rewrite (gr_items _ _ _ Hg1), fmap_app. set_solver.
  - exists tail'. split_and!; [done|done| |].
    2: { intros Hc. apply Hcnt'. pose proof (counted_push a id now e Hc) as Hp. rewrite Ep in Hp. apply Hp.
         rewrite (is_ids _ _ Hs). by eapply grown_nodup. }
    intros Hst Hord. cbn [orderly] in Hord. rewrite Ep in Hord.
    destruct Hord. auto.
Qed.

Lemma end_blocks_keeps tools t0 now status keys : ∀ t tail a a' emits,
  status_is_terminal status = true → grown t0 t tail → in_step a tail → end_blocks a now keys status = (a', emits) →
  ∃ tail', grown t0 (publish_emits tools t emits) tail' ∧ in_step a' tail'
    ∧ (settled tools a tail → settled tools a' tail')
    ∧ ids_of tail' = ids_of tail
    ∧ (counted a → counted a')
    ∧ ∀ key, is_Some (ac_open a' !! key) ↔ is_Some (ac_open a !! key) ∧ key ∉ keys.
Proof.
  induction keys as [|key keys IH]; intros t tail a a' emits Hterm Hg Hs E.
  { injection E as <- <-. exists tail. split_and!; [done..|]. set_solver. }
  cbn [end_blocks] in E. destruct (end_block a now key status) as [a1 e1] eqn:E1.
  destruct (end_blocks a1 now keys status) as [a2 e2] eqn:E2. injection E as <- <-.
  destruct (keeps_end tools t0 t tail a Hg Hs now key status None True a1 e1 Hterm E1) as (tail1 & Hg1 & Hs1 & Hids & Hset).
  destruct (IH _ _ _ _ _ Hterm Hg1 Hs1 E2) as (tail2 & Hg2 & Hs2 & Hset2 & Hids2 & Hcnt & Hk).
  exists tail2. split_and!; [|done|auto| | |].
  - unfold publish_emits in *. by rewrite fmap_app, transcript_fold_app.
  - rewrite Hids2. destruct Hids as [->|Hids]; [done|]. by rewrite Hids, app_nil_r.
  - intros Hc. apply Hcnt. pose proof (counted_end a now key status Hc) as Hp. rewrite E1 in Hp. apply Hp.
    rewrite (is_ids _ _ Hs). by eapply grown_nodup.
  - intros key'. rewrite Hk. unfold end_block in E1. destruct (ac_open a !! key) eqn:Eo; injection E1 as <- <-; simpl.
    + rewrite lookup_delete_is_Some. set_solver.
    + split; [|set_solver]. intros [Hsome Hni]. split; [done|]. intros [->|]%elem_of_cons; [|done].
      rewrite Eo in Hsome. by destruct Hsome.
Qed.

Context (Hhash : ∀ m, hash_order m ≡ₚ (map_to_list m).*1).

(** The whole streaming leg keeps the two side by side, whatever ends it. *)
Lemma stream_keeps tools turn round t arrivals token now t' out :
  transcript_wf t → NoDup (minted arrivals) → (∀ id, id ∈ minted arrivals → id ∉ ids_of (t_items t)) →
  stream parse_json hash_order tools turn round t arrivals token now = (t', out) →
  ∃ tail a, grown t t' tail ∧ in_step a tail ∧ counted a ∧ ac_open a = ∅
    ∧ (orderly (acc_new turn round) arrivals → settled tools a tail)
    ∧ match out with
      | SFailed _ dropped => dropped = ids_of tail
      | SDone f => fs_items f = ac_items a ∧ fs_tool_calls f = ac_tool_calls a
      | SCancelled => True
      end.
Proof.
  intros Hwf Hnd Hfresh. unfold stream.
  destruct (stream_loop parse_json tools (acc_new turn round) t arrivals) as [[[a1 t1] error] cancelled] eqn:El.
  assert (in_step (acc_new turn round) []) as H0 by by split.
  destruct (loop_keeps tools t arrivals _ _ _ _ _ _ _ (grown_nil t Hwf) H0 Hnd Hfresh El) as (tail1 & Hg1 & Hs1 & Hset1 & Hc1).
  unfold acc_finish. set (c := cancelled || token). set (status := if c then Interrupted else Completed).
  destruct (end_blocks a1 now (hash_order (ac_open a1)) status) as [a2 emits] eqn:Ee.
  destruct (end_blocks_keeps tools t now status (hash_order (ac_open a1)) t1 tail1 a1 a2 emits) as (tail2 & Hg2 & Hs2 & Hset2 & Hids & Hc2 & Hopen);
    [by unfold status; case_match|done|done|done|].
  intros [= <- <-]. exists tail2, a2. split_and!; [done|done| | | |].
  - apply Hc2, Hc1. by split.
  - apply map_empty. intros key. destruct (ac_open a2 !! key) as [o2|] eqn:E; [|done].
    destruct (proj1 (Hopen key)) as [[o Ho] Hn]; [by eexists|]. destruct Hn. rewrite Hhash.
    apply list_elem_of_fmap. exists (key, o). split; [done|]. by apply elem_of_map_to_list.
  - intros Hord. apply Hset2, Hset1; [|done]. by intros k i j Hi.
  - assert (item_ids a1 = ids_of tail2) as Hd by by rewrite Hids, (is_ids _ _ Hs1).
    fold c. destruct c; [done|]. simpl. destruct (option_or error (ac_error a2)); [done|].
    by destruct (option_is_some (ac_finish_reason a2)).
Qed.

(** what a turn acts on is what was published.  When a response ends with a
    finish, the transcript every client folds from the stream's events is the
    one before it followed by exactly the items the accumulator hands on (a
    quiet tool's call marked so), in the client's and in the model's order; none
    of them is left open: each is over, or a call waiting for the gate, and the
    calls to gate are those calls, in order. *)
Theorem done_stream_is_published (tools : list (str * (Value → ToolTraits))) (turn : TurnId) (round : N)
    (t : Transcript) (arrivals : list Arrival) (token : bool) (now : Timestamp) (t' : Transcript) (f : Finished)
  (Hwf : transcript_wf t) (Hnd : NoDup (minted arrivals))
  (Hfresh : ∀ id, id ∈ minted arrivals → id ∉ ids_of (t_items t))
  (Hord : orderly (acc_new turn round) arrivals)
  (Hdone : stream parse_json hash_order tools turn round t arrivals token now = (t', SDone f)) :
  t_items t' = t_items t ++ (with_quiet tools <$> fs_items f)
  ∧ t_model_order t' = t_model_order t ++ ids_of (fs_items f)
  ∧ Forall (λ i, over i = true) (fs_items f)
  ∧ fs_tool_calls f = omap call_of_item (fs_items f).
Proof.
  destruct (stream_keeps _ _ _ _ _ _ _ _ _ Hwf Hnd Hfresh Hdone) as (tail & a & Hg & Hs & Hc & Hopen & Hset & Hf & Hcalls).
  specialize (Hset Hord). destruct Hg as [_ Hi Ho _]. pose proof (is_ids _ _ Hs) as Hids. unfold item_ids in Hids.
  assert (∀ k i j, ac_items a !! k = Some i → tail !! k = Some j → j = with_quiet tools i ∧ over i = true) as Hall.
  { intros k i j Hk Hj. destruct (Hset k i j Hk Hj) as [(key & o & Hko & _)|]; [|done]. by rewrite Hopen in Hko. }
  assert (length (ac_items a) = length tail) as Hl by (by rewrite <- (length_fmap item_id), Hids, length_fmap).
  assert (tail = with_quiet tools <$> ac_items a) as Htail.
  { apply list_eq. intros k. rewrite list_lookup_fmap. destruct (ac_items a !! k) as [i|] eqn:Ei; simpl.
    - destruct (lookup_lt_is_Some_2 tail k) as [j Hj]; [rewrite <- Hl; by eapply lookup_lt_Some|].
      rewrite Hj. f_equal. by apply (Hall k).
    - apply lookup_ge_None. rewrite <- Hl. by apply lookup_ge_None. }
  rewrite Hf, Hcalls. split_and!.
  - by rewrite Hi, Htail.
  - by rewrite Ho, Hids.
  - apply Forall_lookup. intros k i Hk.
    destruct (lookup_lt_is_Some_2 tail k) as [j Hj]; [rewrite <- Hl; by eapply lookup_lt_Some|]. by eapply Hall.
  - apply Hc.
Qed.

(** C14: a failed attempt leaves no trace.  Whatever arrived before a stream
    failed, well formed or not, the withdrawal announced with the retry gives
    back the transcript from before the attempt (but for the cache revision). *)
Theorem failed_stream_leaves_no_trace (tools : list (str * (Value → ToolTraits))) (turn : TurnId) (round : N)
    (t : Transcript) (arrivals : list Arrival) (token : bool) (now : Timestamp) (t' : Transcript)
    (error : ProviderError) (dropped : list ItemId) (attempt max delay_ms : N)
  (Hwf : transcript_wf t) (Hnd : NoDup (minted arrivals))
  (Hfresh : ∀ id, id ∈ minted arrivals → id ∉ ids_of (t_items t))
  (Hfailed : stream parse_json hash_order tools turn round t arrivals token now = (t', SFailed error dropped)) :
  forget_revision (transcript_apply t' (TurnRetrying turn attempt max delay_ms dropped (error_text error))).1
  = forget_revision t.
Proof.
  destruct (stream_keeps _ _ _ _ _ _ _ _ _ Hwf Hnd Hfresh Hfailed) as (tail & a & Hg & _ & _ & _ & _ & ->).
  by apply grown_dropped.
Qed.
End streaming.

(** ** Witnesses *)

Definition demo_keys (m : gmap str Open) : list str := (map_to_list m).*1.
Definition demo_parse_json (raw : str) : result str Value := Ok VNull.

(** Reasoning, an answer cut off, a call, a finish. *)
Definition demo_response : list Arrival :=
  [Arrived (lit "a1") 1 (ReasoningStart (lit "r")); Arrived (lit "a2") 2 (ReasoningDelta (lit "r") (lit "hm"));
   Arrived (lit "a3") 3 (ReasoningEnd (lit "r") []); Arrived (lit "a4") 4 (TextStart (lit "0"));
   Arrived (lit "a5") 5 (TextDelta (lit "0") (lit "hi")); Arrived (lit "a6") 6 (ToolCallEvent (lit "c") (lit "Read") []);
   Arrived (lit "a7") 7 (FinishEvent usage_default (mkFinishReason FinToolCalls None)); ArrivedEnd].
Definition demo_cut : list Arrival := take 5 demo_response ++ [ArrivedErr PeTimeout].

Lemma done_stream_is_published_witness :
  match stream demo_parse_json demo_keys [] (lit "t9") 0 demo_transcript demo_response false 9 with
  | (t', SDone f) => length (fs_items f) = 3 ∧ t_items t' = t_items demo_transcript ++ (with_quiet [] <$> fs_items f)
  | _ => False
  end.
Proof.
  destruct (stream demo_parse_json demo_keys [] (lit "t9") 0 demo_transcript demo_response false 9)
    as [t' [f| |]] eqn:E; [|vm_compute in E; discriminate..].
  split; [vm_compute in E; by injection E as _ <-|].
  apply (done_stream_is_published demo_parse_json demo_keys (λ m, reflexivity _) [] (lit "t9") 0
    demo_transcript demo_response false 9 t' f demo_transcript_wf).
  - apply (bool_decide_unpack _). by vm_compute.
  - apply Forall_forall, (bool_decide_unpack _). by vm_compute.
  - cbn [orderly demo_response opening]. split_and!; try done; vm_compute; reflexivity.
  - exact E.
Defined.

Lemma failed_stream_leaves_no_trace_witness :
  match stream demo_parse_json demo_keys [] (lit "t9") 0 demo_transcript demo_cut false 9 with
  | (t', SFailed e dropped) =>
      length dropped = 2
      ∧ forget_revision (transcript_apply t' (TurnRetrying (lit "t9") 1 10 500 dropped (error_text e))).1
        = forget_revision demo_transcript
  | _ => False
  end.
Proof.
  destruct (stream demo_parse_json demo_keys [] (lit "t9") 0 demo_transcript demo_cut false 9)
    as [t' [|e dropped|]] eqn:E; [vm_compute in E; discriminate| |vm_compute in E; discriminate].
  split; [vm_compute in E; by injection E as _ _ <-|].
  apply (failed_stream_leaves_no_trace demo_parse_json demo_keys (λ m, reflexivity _) [] (lit "t9") 0
    demo_transcript demo_cut false 9 t' e dropped 1 10 500 demo_transcript_wf).
  - apply (bool_decide_unpack _). by vm_compute.
  - apply Forall_forall, (bool_decide_unpack _). by vm_compute.
  - exact E.
Defined.
