(* ===== verification/Round.v ===== *)
(** * Round: the calls of one response

    [bingo-core/src/round.rs], [bingo-core/src/turn/round.rs] and the calls in
    flight of [bingo-core/src/executor.rs].  The walk reaches the calls in order;
    each is decided, perhaps put to a person, admitted and started; calls in
    flight land in any order.  What a gate decides, what a tool answers and when
    a person cancels are the environment's, so the walk is a step relation. *)

From S2P Require Import Prelude Text Model Interaction Event Transcript PermPath PermRule PermDecide Chain Gate Stream.

(** ** The next action for a reached call ([round.rs]) *)

Definition max_concurrency : nat := 10.

Record Flight := mkFlight { fl_count : nat; fl_all_safe : bool }.

Inductive RoundDecision := DcAllowed (safe : bool) | DcDenied | DcAsk.
Inductive RoundAction := ActStart | ActWait | ActDeny | ActAsk | ActDone.
#[export] Instance RoundAction_eq_dec : EqDecision RoundAction.
Proof. solve_decision. Defined.

Definition next (flight : Flight) (decision : option RoundDecision) : RoundAction :=
  match decision with
  | Some DcDenied => ActDeny
  | Some (DcAllowed true) => if fl_all_safe flight && (fl_count flight <? max_concurrency) then ActStart else ActWait
  | Some (DcAllowed false) => if fl_count flight =? 0 then ActStart else ActWait
  | Some DcAsk => if fl_count flight =? 0 then ActAsk else ActWait
  | None => if fl_count flight =? 0 then ActDone else ActWait
  end.

(** [Decided::action]. *)
Definition decided_action (d : GateDecided) : RoundDecision :=
  match d with
  | Settled g => match gd_gate g with
                 | GateAllowed => DcAllowed (concurrency_safe (gd_traits g))
                 | GateDenied _ => DcDenied
                 end
  | Asking _ => DcAsk
  end.

(** ** Calls ([executor.rs]) *)

Definition max_result_chars : N := 50000.
Definition interrupted_marker : str := lit "[Request interrupted by user for tool use]".

Record PendingCall := mkPendingCall {
  pc_item : ItemId;
  pc_call : ToolCall;
  pc_has_tool : bool;
  pc_traits : ToolTraits;
  pc_gate : GateVerdict;
}.

Record ToolOutcome := mkToolOutcome {
  oc_item : ItemId;
  oc_call_id : str;
  oc_output : ToolOutput;
  oc_status : ItemStatus;
  oc_duration_ms : N;
}.

Inductive ToolError := TeInvalidInput (m : str) | TeFailed (m : str) | TeCancelled.
Definition tool_error_text (e : ToolError) : str :=
  match e with
  | TeInvalidInput m => lit "invalid input: " ++ m
  | TeFailed m => m
  | TeCancelled => lit "cancelled"
  end.

Fixpoint clip_parts (parts : list ContentPart) (budget : N) : list ContentPart :=
  match parts with
  | [] => []
  | PText text :: parts =>
      let n := N.of_nat (length text) in
      if (budget <? n)%N then
        PText (take (N.to_nat budget) text ++ newline ++ lit "[truncated: " ++ show_Z (Z.of_N (n - budget))
               ++ lit " more characters]") :: clip_parts parts 0
      else PText text :: clip_parts parts (budget - n)
  | part :: parts => part :: clip_parts parts budget
  end.
Definition clip (o : ToolOutput) : ToolOutput :=
  mkToolOutput (clip_parts (to_parts o) max_result_chars) (to_is_error o) (to_display o) (to_upshot o).

Definition interrupted_outcome (item : ItemId) (call : ToolCall) : ToolOutcome :=
  mkToolOutcome item (call_id call) (output_error interrupted_marker) Interrupted 0.

(** [run_one], with what the dispatch of an allowed call answered. *)
Definition run_one (pc : PendingCall) (answered : result ToolError ToolOutput) (elapsed : N) : ToolOutcome :=
  let finish output status := mkToolOutcome (pc_item pc) (call_id (pc_call pc)) output status elapsed in
  match pc_gate pc with
  | GateDenied message => finish (output_error message) Failed
  | GateAllowed =>
      if negb (pc_has_tool pc) then finish (output_error (tool_not_found (call_name (pc_call pc)))) Failed
      else match answered with
           | Ok output =>
               let output := match result_limit (pc_traits pc) with LimitGlobal => clip output | LimitSelfBounded => output end in
               finish output (if to_is_error output then Failed else Completed)
           | Err TeCancelled => finish (output_error interrupted_marker) Interrupted
           | Err e => finish (output_error (tool_error_text e)) Failed
           end
  end.

(** A call refused or without a tool answers when it is first polled. *)
Definition at_once (pc : PendingCall) : bool :=
  match pc_gate pc with GateDenied _ => true | GateAllowed => negb (pc_has_tool pc) end.

(** [InFlight::state]. *)
Definition flight_state (flight : list PendingCall) : Flight :=
  mkFlight (length flight) (forallb (fun pc => concurrency_safe (pc_traits pc)) flight).

(** ** What the walk writes ([turn/round.rs]) *)

Definition land_body (b : ItemBody) (o : ToolOutcome) : ItemBody :=
  match b with
  | BToolCall al asked began cid name input _ _ _ q =>
      BToolCall al asked began cid name input (Some (oc_output o)) None (Some (oc_duration_ms o)) q
  | b => b
  end.

Definition land_transcript (t : Transcript) (now : Timestamp) (o : ToolOutcome) : Transcript :=
  match get t (oc_item o) with
  | Some item =>
      let item := set_status (with_body item (land_body (item_body item) o)) (oc_status o) (Some now) in
      (transcript_apply t (ItemCompleted item)).1
  | None => t
  end.

Definition mark_asked (t : Transcript) (now : Timestamp) (id : ItemId) : Transcript :=
  match get t id with
  | Some item =>
      match item_body item with
      | BToolCall al _ began cid name input output progress dur q =>
          (transcript_apply t (ItemUpdated (with_body item
             (BToolCall al (Some now) began cid name input output progress dur q)))).1
      | _ => t
      end
  | None => t
  end.

Definition is_allowed (g : GateVerdict) : bool := match g with GateAllowed => true | GateDenied _ => false end.

Definition mark_gated (t : Transcript) (now : Timestamp) (id : ItemId) (g : Gated) : Transcript :=
  match get t id with
  | None => t
  | Some item =>
      let changed := match item_body item with
                     | BToolCall _ _ _ _ _ input _ _ _ _ => negb (value_eqb input (call_input (gd_call g)))
                     | _ => false
                     end in
      if negb (is_allowed (gd_gate g) || changed) then t
      else
        let item :=
          match item_body item with
          | BToolCall _ asked began cid name _ output progress dur q =>
              let began := if is_allowed (gd_gate g) then Some now else began in
              let item := if is_allowed (gd_gate g) then set_status item Running (item_completed_at item) else item in
              with_body item (BToolCall (gd_allowed_by g) asked began cid name (call_input (gd_call g)) output progress dur q)
          | _ => item
          end in
        (transcript_apply t (ItemUpdated item)).1
  end.

(** ** The walk *)

Inductive Reached :=
| Deciding (call : ToolCall)
| DecidedCall (d : GateDecided)
| AskedCall.

Record Walk := mkWalk {
  wk_todo : list (ItemId * ToolCall);
  wk_reached : option (ItemId * Reached);
  wk_flight : list PendingCall;
  wk_outcomes : list ToolOutcome;
  wk_transcript : Transcript;
  wk_cancelled : bool;
}.

Definition walk_new (calls : list (ItemId * ToolCall)) (t : Transcript) : Walk := mkWalk calls None [] [] t false.

(** [land]. *)
Definition land (w : Walk) (now : Timestamp) (flight : list PendingCall) (o : ToolOutcome) : Walk :=
  mkWalk (wk_todo w) (wk_reached w) flight (wk_outcomes w ++ [o]) (land_transcript (wk_transcript w) now o) (wk_cancelled w).

(** The notices and the receipt a gated call leaves, minted afresh. *)
Definition record_notes (t : Transcript) (notes : list Item) : Transcript :=
  transcript_fold t (ItemCompleted <$> notes).

(** [admit]: what is written, and the call to start. *)
Definition admit_call (w : Walk) (now : Timestamp) (item : ItemId) (g : Gated) (has_tool : bool) (notes : list Item)
    : Walk * PendingCall :=
  let t := mark_gated (record_notes (wk_transcript w) notes) now item g in
  (mkWalk (wk_todo w) None (wk_flight w) (wk_outcomes w) t (wk_cancelled w),
   mkPendingCall item (gd_call g) has_tool (gd_traits g) (gd_gate g)).

(** A call starts: it answers when first polled, or stays in flight. *)
Inductive started (w : Walk) (pc : PendingCall) : Walk → Prop :=
| started_landed answered elapsed now :
    started w pc (land w now (wk_flight w) (run_one pc answered elapsed))
| started_flying : at_once pc = false →
    started w pc (mkWalk (wk_todo w) (wk_reached w) (wk_flight w ++ [pc]) (wk_outcomes w) (wk_transcript w) (wk_cancelled w)).

Definition fresh_notes (t : Transcript) (notes : list Item) : Prop :=
  NoDup (ids_of notes) ∧ ∀ id, id ∈ ids_of notes → id ∉ ids_of (t_items t).

Inductive walk_step : Walk → Walk → Prop :=
| step_land w before pc after answered elapsed now :
    wk_cancelled w = false → wk_flight w = before ++ pc :: after →
    walk_step w (land w now (before ++ after) (run_one pc answered elapsed))
| step_reach w item call todo :
    wk_cancelled w = false → wk_todo w = (item, call) :: todo → wk_reached w = None →
    fl_all_safe (flight_state (wk_flight w)) = true →
    walk_step w (mkWalk todo (Some (item, Deciding call)) (wk_flight w) (wk_outcomes w) (wk_transcript w) false)
| step_decide w item call d :
    wk_cancelled w = false → wk_reached w = Some (item, Deciding call) →
    walk_step w (mkWalk (wk_todo w) (Some (item, DecidedCall d)) (wk_flight w) (wk_outcomes w) (wk_transcript w) false)
| step_ask w item waiting now :
    wk_cancelled w = false → wk_reached w = Some (item, DecidedCall (Asking waiting)) →
    next (flight_state (wk_flight w)) (Some (decided_action (Asking waiting))) ≠ ActWait →
    walk_step w (mkWalk (wk_todo w) (Some (item, AskedCall)) (wk_flight w) (wk_outcomes w)
                   (mark_asked (wk_transcript w) now item) false)
| step_settled w item g now has_tool notes w' :
    wk_cancelled w = false → wk_reached w = Some (item, DecidedCall (Settled g)) →
    next (flight_state (wk_flight w)) (Some (decided_action (Settled g))) ≠ ActWait →
    fresh_notes (wk_transcript w) notes →
    started (admit_call w now item g has_tool notes).1 (admit_call w now item g has_tool notes).2 w' →
    walk_step w w'
| step_answered w item g now has_tool notes w' :
    wk_cancelled w = false → wk_reached w = Some (item, AskedCall) →
    fresh_notes (wk_transcript w) notes →
    started (admit_call w now item g has_tool notes).1 (admit_call w now item g has_tool notes).2 w' →
    walk_step w w'
| step_unreceipted w item reached notes :
    wk_cancelled w = false → wk_reached w = Some (item, reached) → fresh_notes (wk_transcript w) notes →
    walk_step w (mkWalk (wk_todo w) (wk_reached w) (wk_flight w) (wk_outcomes w)
                   (record_notes (wk_transcript w) notes) true)
| step_cancel w :
    walk_step w (mkWalk (wk_todo w) (wk_reached w) (wk_flight w) (wk_outcomes w) (wk_transcript w) true).

(** Nothing is left to reach and nothing is in flight. *)
Definition walk_done (w : Walk) : Prop :=
  wk_todo w = [] ∧ wk_reached w = None ∧ next (flight_state (wk_flight w)) None = ActDone.

(** ** The end of a round *)

Definition land_end (now : Timestamp) (st : Transcript * list ToolOutcome) (o : ToolOutcome)
    : Transcript * list ToolOutcome := (land_transcript st.1 now o, st.2 ++ [o]).

(** [interrupt_remaining], one call. *)
Definition interrupt_one (now : Timestamp) (st : Transcript * list ToolOutcome) (c : ItemId * ToolCall)
    : Transcript * list ToolOutcome :=
  if any (fun o => bool_decide (oc_item o = c.1)) st.2 then st else land_end now st (interrupted_outcome c.1 c.2).

(** The index of an outcome's call among the calls. *)
Definition call_position (calls : list (ItemId * ToolCall)) (o : ToolOutcome) : option nat :=
  position (fun c => bool_decide (c.1 = oc_item o)) calls.
Definition key_le (a b : option nat) : bool :=
  match a, b with None, _ => true | Some _, None => false | Some i, Some j => i <=? j end.
Definition by_position (calls : list (ItemId * ToolCall)) (a b : ToolOutcome) : Prop :=
  key_le (call_position calls a) (call_position calls b) = true.
#[export] Instance by_position_dec calls : RelDecision (by_position calls).
Proof. intros a b. unfold by_position. apply _. Defined.

Definition round_end (calls : list (ItemId * ToolCall)) (now : Timestamp) (elapsed : N) (w : Walk)
    : Transcript * list ToolOutcome :=
  let st := (wk_transcript w, wk_outcomes w) in
  let st := if wk_cancelled w
            then foldl (fun st pc => land_end now st (run_one pc (Err TeCancelled) elapsed)) st (wk_flight w) else st in
  let st := foldl (interrupt_one now) st calls in
  (st.1, merge_sort (by_position calls) st.2).

(** ** Lemmas *)

Lemma get_put t e item id : transcript_wf t → (puts e item ∨ e = ItemUpdated item) →
  get (transcript_apply t e).1 id = if decide (id = item_id item) then Some item else get t id.
Proof.
  intros Hwf He. assert ((transcript_apply t e).1 = bump (upsert t item).1) as ->.
  { destruct He as [He| ->]; [by apply puts_apply|]. apply (puts_apply (ItemStarted item) item t). by left. }
  change (get (bump (upsert t item).1) id) with (get (upsert t item).1 id).
  pose proof (upsert_wf t item Hwf) as Hwf'.
  unfold get. unfold upsert in *. destruct (t_positions t !! item_id item) as [at_|] eqn:Ep.
  - destruct (proj1 (wf_lookup t _ at_ Hwf) Ep) as (old & Hold & Hid).
    destruct (bool_decide _); simpl in *; (case_decide as Hd;
      [subst id; rewrite Ep; simpl; apply list_lookup_insert_eq; by eapply lookup_lt_Some|]);
      destruct (t_positions t !! id) as [k|] eqn:Ek; simpl; try done; apply list_lookup_insert_ne;
      intros ->; destruct (proj1 (wf_lookup t _ k Hwf) Ek) as (x & Hx & Hxid); congruence.
  - destruct (bool_decide _); simpl in *; (case_decide as Hd;
      [subst id; rewrite lookup_insert_eq; simpl; by rewrite lookup_app_r, Nat.sub_diag by lia|]);
      rewrite lookup_insert_ne by done; destruct (t_positions t !! id) as [k|] eqn:Ek; simpl; try done;
      destruct (proj1 (wf_lookup t _ k Hwf) Ek) as (x & Hx & _); by rewrite lookup_app_l by by eapply lookup_lt_Some.
Qed.

(** A change to the transcript that touches the item [id] alone. *)
Record touches (t t' : Transcript) (id : ItemId) : Prop := mk_touches {
  tc_wf : transcript_wf t';
  tc_kept : is_Some (get t id) → is_Some (get t' id);
  tc_other : ∀ id', id' ≠ id → get t' id' = get t id';
}.

Lemma touched_refl t id : transcript_wf t → touches t t id.
Proof. by split. Qed.

Lemma touches_put t e item id : transcript_wf t → (puts e item ∨ e = ItemUpdated item) → item_id item = id →
  touches t (transcript_apply t e).1 id.
Proof.
  intros Hwf He <-. split; [by apply transcript_apply_wf| |].
  - intros _. rewrite (get_put t e item) by done. rewrite decide_True by done. eauto.
  - intros id' Hne. rewrite (get_put t e item) by done. by rewrite decide_False.
Qed.

Lemma get_id t id item : transcript_wf t → get t id = Some item → item_id item = id.
Proof. intros Hwf [_ ?]%get_spec; done. Qed.

Lemma land_touches t now o : transcript_wf t → touches t (land_transcript t now o) (oc_item o).
Proof.
  intros Hwf. unfold land_transcript. destruct (get t (oc_item o)) as [item|] eqn:E; [|by apply touched_refl].
  eapply touches_put; [done|left; by right|]. simpl. by eapply get_id.
Qed.

Lemma asked_touches t now id : transcript_wf t → touches t (mark_asked t now id) id.
Proof.
  intros Hwf. unfold mark_asked. destruct (get t id) as [item|] eqn:E; [|by apply touched_refl].
  destruct (item_body item); try by apply touched_refl.
  eapply touches_put; [done|by right|]. simpl. by eapply get_id.
Qed.

Lemma gated_touches t now id g : transcript_wf t → touches t (mark_gated t now id g) id.
Proof.
  intros Hwf. unfold mark_gated. destruct (get t id) as [item|] eqn:E; [|by apply touched_refl].
  destruct (negb _); [by apply touched_refl|].
  eapply touches_put; [done|by right|]. pose proof (get_id _ _ _ Hwf E) as Hid.
  by destruct (item_body item), (is_allowed (gd_gate g)).
Qed.

(** Notes minted afresh change no item already there. *)
Lemma notes_kept t notes : transcript_wf t → fresh_notes t notes →
  transcript_wf (record_notes t notes) ∧ ∀ id, is_Some (get t id) → get (record_notes t notes) id = get t id.
Proof.
  unfold record_notes. revert t. induction notes as [|n notes IH]; intros t Hwf [Hnd Hfresh]; [done|].
  csimpl in Hnd. csimpl in Hfresh. apply NoDup_cons in Hnd as [Hn Hnd].
  assert (∀ id, get (transcript_apply t (ItemCompleted n)).1 id = if decide (id = item_id n) then Some n else get t id) as Hget.
  { intros id. apply get_put; [done|left; by right]. }
  assert (∀ id, is_Some (get t id) → id ≠ item_id n) as Hne.
  { intros id [i Hi] ->. apply (Hfresh (item_id n)); [by left|]. apply get_spec in Hi as [Hin Hid]; [|done].
    rewrite <- Hid. by apply list_elem_of_fmap_2. }
  destruct (IH (transcript_apply t (ItemCompleted n)).1) as [Hwf' Hkept].
  - by apply transcript_apply_wf.
  - split; [done|]. intros id Hid. rewrite <- get_None by by apply transcript_apply_wf.
    rewrite Hget, decide_False by (by intros ->). apply get_None; [done|]. apply Hfresh. by right.
  - split; [done|]. intros id Hid. csimpl.
    assert (get (transcript_apply t (ItemCompleted n)).1 id = get t id) as E by by rewrite Hget, decide_False by by apply Hne.
    rewrite <- E. apply Hkept. by rewrite E.
Qed.

(** An item that holds what its call came to. *)
Definition landed_as (i : Item) (o : ToolOutcome) : Prop :=
  is_terminal i = true ∧ item_status i = oc_status o
  ∧ match item_body i with BToolCall _ _ _ _ _ _ output _ _ _ => output = Some (oc_output o) | _ => True end.

Lemma land_landed t now o : transcript_wf t → is_Some (get t (oc_item o)) → status_is_terminal (oc_status o) = true →
  ∃ i, get (land_transcript t now o) (oc_item o) = Some i ∧ landed_as i o.
Proof.
  intros Hwf [item Hi] Hst. unfold land_transcript. rewrite Hi.
  set (item' := set_status _ _ _). exists item'. split.
  - rewrite (get_put t _ item') by (done || by left; right). rewrite decide_True; [done|]. symmetry. exact (get_id _ _ _ Hwf Hi).
  - split_and!; [done|done|]. simpl. by destruct (item_body item).
Qed.

Lemma run_one_terminal pc answered elapsed :
  status_is_terminal (oc_status (run_one pc answered elapsed)) = true ∧ oc_item (run_one pc answered elapsed) = pc_item pc.
Proof. unfold run_one. by repeat case_match. Qed.

(** *** The invariant *)

Definition walk_items (w : Walk) : list ItemId :=
  (oc_item <$> wk_outcomes w) ++ (pc_item <$> wk_flight w) ++ option_list (fst <$> wk_reached w) ++ (wk_todo w).*1.

Definition all_safe (flight : list PendingCall) : bool := fl_all_safe (flight_state flight).

(** [hand]: calls taken off the walk and not yet put back. *)
Record walk_inv (calls : list (ItemId * ToolCall)) (hand : list ItemId) (w : Walk) : Prop := mk_walk_inv {
  wi_wf : transcript_wf (wk_transcript w);
  wi_cover : hand ++ walk_items w ≡ₚ calls.*1;
  wi_present : ∀ id, id ∈ calls.*1 → is_Some (get (wk_transcript w) id);
  wi_landed : ∀ o, o ∈ wk_outcomes w → ∃ i, get (wk_transcript w) (oc_item o) = Some i ∧ landed_as i o;
  wi_flight : length (wk_flight w) ≤ max_concurrency;
  wi_alone : all_safe (wk_flight w) = true ∨ length (wk_flight w) = 1;
  wi_reached : is_Some (wk_reached w) → all_safe (wk_flight w) = true;
  wi_asked : ∀ id, wk_reached w = Some (id, AskedCall) → wk_flight w = [];
}.

Section walking.
Context (calls : list (ItemId * ToolCall)) (Hnd : NoDup calls.*1).

(** Landing what is in the hand. *)
Lemma inv_land w item o now : walk_inv calls [item] w → oc_item o = item → status_is_terminal (oc_status o) = true →
  walk_inv calls [] (land w now (wk_flight w) o).
Proof.
  intros [Hwf Hc Hp Hl Hf Ha Hr Hk] <- Hst. destruct (land_touches (wk_transcript w) now o Hwf) as [Hwf' Hkept Hother].
  assert (is_Some (get (wk_transcript w) (oc_item o))) as Hhere by (apply Hp; rewrite <- Hc; by left).
  split; simpl; try done.
  - etrans; [|exact Hc]. unfold walk_items; simpl. rewrite fmap_app. simpl. solve_Permutation.
  - intros id Hid. destruct (decide (id = oc_item o)) as [->|Hne]; [by apply Hkept|]. rewrite Hother by done. by apply Hp.
  - intros o' [Ho'|Ho']%elem_of_app.
    + rewrite Hother; [by apply Hl|]. intros E. rewrite <- Hc in Hnd. simpl in Hnd.
      apply NoDup_cons in Hnd as [Hni _]. apply Hni. rewrite <- E. unfold walk_items. apply elem_of_app. left.
      by apply list_elem_of_fmap_2.
    + apply list_elem_of_singleton in Ho' as ->. by apply land_landed.
Qed.

(** Taking a call off the flight. *)
Lemma inv_take w before pc after : walk_inv calls [] w → wk_flight w = before ++ pc :: after →
  walk_inv calls [pc_item pc]
    (mkWalk (wk_todo w) (wk_reached w) (before ++ after) (wk_outcomes w) (wk_transcript w) (wk_cancelled w)).
Proof.
  intros [Hwf Hc Hp Hl Hf Ha Hr Hk] Efl. unfold all_safe, flight_state in *; simpl in *. rewrite Efl in *.
  assert (∀ b, forallb (λ pc, concurrency_safe (pc_traits pc)) (before ++ pc :: after) = b →
    b = true → forallb (λ pc, concurrency_safe (pc_traits pc)) (before ++ after) = true) as Hsub.
  { intros b <-. rewrite !forallb_app. simpl. intros [? [? ?]%andb_true_iff]%andb_true_iff. by apply andb_true_iff. }
  rewrite length_app in Hf, Ha. simpl in Hf, Ha.
  split; simpl; unfold all_safe, flight_state; simpl; try done.
  - etrans; [|exact Hc]. unfold walk_items; simpl. rewrite Efl, !fmap_app. csimpl. solve_Permutation.
  - rewrite length_app. lia.
  - destruct Ha as [Ha|Ha]; [left; by apply (Hsub true)|left].
    destruct before, after; simpl in *; try lia; done.
  - intros H. apply (Hsub true); [by apply Hr|done].
  - intros id H. specialize (Hk id H). by destruct before.
Qed.

(** Admitting the reached call. *)
Lemma inv_admit w item r now g has_tool notes : walk_inv calls [] w → wk_reached w = Some (item, r) →
  fresh_notes (wk_transcript w) notes → walk_inv calls [item] (admit_call w now item g has_tool notes).1.
Proof.
  intros [Hwf Hc Hp Hl Hf Ha Hr Hk] Er Hn. destruct (notes_kept _ _ Hwf Hn) as [Hwf1 Hkept].
  destruct (gated_touches (record_notes (wk_transcript w) notes) now item g Hwf1) as [Hwf2 Hk2 Ho2].
  split; simpl; try done.
  - etrans; [|exact Hc]. unfold walk_items; simpl. rewrite Er. simpl. solve_Permutation.
  - intros id Hid. specialize (Hp id Hid). destruct (decide (id = item)) as [->|Hne].
    + apply Hk2. by rewrite Hkept.
    + by rewrite Ho2, Hkept.
  - intros o Ho. destruct (Hl o Ho) as (i & Hi & Hli). exists i. split; [|done].
    rewrite Ho2, Hkept; [done|by eexists|]. intros E. rewrite <- Hc in Hnd. simpl in Hnd. unfold walk_items in Hnd.
    apply NoDup_app in Hnd as (_ & Hdis & _). apply (Hdis (oc_item o)); [by apply list_elem_of_fmap_2|].
    rewrite Er, E. simpl. apply elem_of_app. right. by left.
Qed.

(** Whether a call may join what is in flight. *)
Definition room (flight : list PendingCall) (pc : PendingCall) : Prop :=
  flight = [] ∨ (all_safe flight = true ∧ length flight < max_concurrency ∧ concurrency_safe (pc_traits pc) = true).

Lemma inv_start w pc w' : walk_inv calls [pc_item pc] w → wk_reached w = None →
  (at_once pc = false → room (wk_flight w) pc) → started w pc w' → walk_inv calls [] w'.
Proof.
  intros Hi Er Hroom Hst. destruct Hst as [answered elapsed now|Hfly].
  - destruct (run_one_terminal pc answered elapsed). by eapply inv_land.
  - specialize (Hroom Hfly). destruct Hi as [Hwf Hc Hp Hl Hf Ha Hr Hk].
    split; simpl; try done.
    + etrans; [|exact Hc]. unfold walk_items; simpl. rewrite fmap_app. csimpl. solve_Permutation.
    + rewrite length_app. simpl. destruct Hroom as [->|(? & ? & ?)]; unfold max_concurrency in *; simpl; lia.
    + destruct Hroom as [->|(Hs & _ & Hpc)]; [by right|left].
      unfold all_safe, flight_state in *; simpl in *. rewrite forallb_app, Hs. simpl. by rewrite Hpc.
    + rewrite Er. by intros [? ?].
    + rewrite Er. done.
Qed.

Lemma next_room w g item has_tool : all_safe (wk_flight w) = true →
  next (flight_state (wk_flight w)) (Some (decided_action (Settled g))) ≠ ActWait →
  at_once (mkPendingCall item (gd_call g) has_tool (gd_traits g) (gd_gate g)) = false →
  room (wk_flight w) (mkPendingCall item (gd_call g) has_tool (gd_traits g) (gd_gate g)).
Proof.
  unfold at_once, room; simpl. intros Hs Hn Ho. destruct (gd_gate g); [|done].
  destruct (concurrency_safe (gd_traits g)); simpl in Hn.
  - right. destruct (_ && _) eqn:E in Hn; [|done]. bools. split_and!; [done|by apply Nat.ltb_lt|done].
  - left. destruct (Nat.eqb_spec (length (wk_flight w)) 0) as [Hz|]; [|done]. by apply length_zero_iff_nil.
Qed.

Lemma inv_step w w' : walk_inv calls [] w → walk_step w w' → walk_inv calls [] w'.
Proof.
  intros Hi Hst. pose proof Hi as [Hwf Hc Hp Hl Hf Ha Hr Hk]. destruct Hst.
  - destruct (run_one_terminal pc answered elapsed). pose proof (inv_take w before pc after Hi H0) as Ht.
    exact (inv_land _ _ _ now Ht H2 H1).
  - split; simpl; try done.
    + etrans; [|exact Hc]. unfold walk_items; simpl. rewrite H0, H1. csimpl. solve_Permutation.
  - split; simpl; try done.
    + etrans; [|exact Hc]. unfold walk_items; simpl. by rewrite H0.
    + intros _. apply Hr. by eexists.
  - destruct (asked_touches (wk_transcript w) now item Hwf) as [Hwf' Hk' Ho'].
    assert (wk_flight w = []) as Efl.
    { simpl in H1. destruct (Nat.eqb_spec (length (wk_flight w)) 0); [by apply length_zero_iff_nil|done]. }
    split; simpl; try done.
    + etrans; [|exact Hc]. unfold walk_items; simpl. by rewrite H0.
    + intros id Hid. destruct (decide (id = item)) as [->|Hne]; [by apply Hk', Hp|]. rewrite Ho' by done. by apply Hp.
    + intros o Ho. rewrite Ho'; [by apply Hl|]. intros E. rewrite <- Hc in Hnd. simpl in Hnd. unfold walk_items in Hnd.
      apply NoDup_app in Hnd as (_ & Hdis & _). apply (Hdis (oc_item o)); [by apply list_elem_of_fmap_2|].
      rewrite H0, E. simpl. apply elem_of_app. right. by left.
    + intros _. apply Hr. by eexists.
  - refine (inv_start _ (admit_call w now item g has_tool notes).2 w' (inv_admit w item _ now g has_tool notes Hi H0 H2) eq_refl _ H3). intros Honce.
    apply (next_room w); [apply Hr; by eexists|done|done].
  - refine (inv_start _ (admit_call w now item g has_tool notes).2 w' (inv_admit w item _ now g has_tool notes Hi H0 H1) eq_refl _ H2). intros _. left. by eapply Hk.
  - destruct (notes_kept _ _ Hwf H1) as [Hwf1 Hkept]. split; simpl; try done.
    + intros id Hid. rewrite Hkept by by apply Hp. by apply Hp.
    + intros o Ho. destruct (Hl o Ho) as (i & Hii & Hli). exists i. split; [|done]. rewrite Hkept; [done|by eexists].
  - by split.
Qed.

Lemma inv_init t : transcript_wf t → (∀ id, id ∈ calls.*1 → is_Some (get t id)) → walk_inv calls [] (walk_new calls t).
Proof. intros Hwf Hp. split; simpl; try done; [set_solver|unfold max_concurrency; lia|by left]. Qed.

Lemma inv_reachable t w : transcript_wf t → (∀ id, id ∈ calls.*1 → is_Some (get t id)) →
  rtc walk_step (walk_new calls t) w → walk_inv calls [] w.
Proof.
  intros Hwf Hp Hr. assert (walk_inv calls [] (walk_new calls t)) as H0 by by apply inv_init.
  induction Hr as [|w1 w2 w3 Hs _ IH]; [done|]. apply IH. by eapply inv_step.
Qed.
End walking.

(** *** The end of a round *)

Record end_inv (calls : list (ItemId * ToolCall)) (st : Transcript * list ToolOutcome) : Prop := mk_end_inv {
  ei_wf : transcript_wf st.1;
  ei_nodup : NoDup (oc_item <$> st.2);
  ei_known : ∀ o, o ∈ st.2 → oc_item o ∈ calls.*1;
  ei_present : ∀ id, id ∈ calls.*1 → is_Some (get st.1 id);
  ei_landed : ∀ o, o ∈ st.2 → ∃ i, get st.1 (oc_item o) = Some i ∧ landed_as i o;
}.

Lemma end_land calls now st o : end_inv calls st → oc_item o ∈ calls.*1 → oc_item o ∉ oc_item <$> st.2 →
  status_is_terminal (oc_status o) = true → end_inv calls (land_end now st o).
Proof.
  intros [Hwf Hn Hk Hp Hl] Hin Hnew Hst. destruct (land_touches st.1 now o Hwf) as [Hwf' Hkept Hother].
  split; simpl; [done|rewrite fmap_app; apply NoDup_app; split_and!; [done| |apply NoDup_singleton]|..].
  - intros id Hid. simpl. intros ->%list_elem_of_singleton. done.
  - intros o' [?| ->%list_elem_of_singleton]%elem_of_app; auto.
  - intros id Hid. destruct (decide (id = oc_item o)) as [->|Hne]; [by apply Hkept, Hp|]. rewrite Hother by done. by apply Hp.
  - intros o' [Ho'| ->%list_elem_of_singleton]%elem_of_app.
    + rewrite Hother; [by apply Hl|]. intros E. apply Hnew. rewrite <- E. by apply list_elem_of_fmap_2.
    + apply land_landed; [done|by apply Hp|done].
Qed.

(** Landing the calls in flight, cancelled. *)
Lemma end_cancelled calls now elapsed flight st : end_inv calls st →
  NoDup ((oc_item <$> st.2) ++ (pc_item <$> flight)) → (∀ pc, pc ∈ flight → pc_item pc ∈ calls.*1) →
  end_inv calls (foldl (λ st pc, land_end now st (run_one pc (Err TeCancelled) elapsed)) st flight).
Proof.
  revert st. induction flight as [|pc flight IH]; intros st Hi Hn Hk; [done|]. csimpl in Hn. simpl.
  destruct (run_one_terminal pc (Err TeCancelled) elapsed) as [Hst Hid].
  apply NoDup_app in Hn as (Hn1 & Hdis & Hn2). apply NoDup_cons in Hn2 as [Hni Hn2].
  apply IH; [apply end_land; [done|rewrite Hid; apply Hk; by left|..]|..].
  - rewrite Hid. intros Hin. apply (Hdis _ Hin). by left.
  - done.
  - simpl. rewrite fmap_app. simpl. rewrite Hid, <- app_assoc. simpl. apply NoDup_app. split_and!; [done|done|by constructor].
  - intros pc' Hpc'. apply Hk. by right.
Qed.

(** Interrupting what has no outcome gives every call one. *)
Lemma end_interrupted calls now cs st : end_inv calls st → (∀ c, c ∈ cs → c.1 ∈ calls.*1) →
  let st' := foldl (interrupt_one now) st cs in
  end_inv calls st' ∧ (∀ id, id ∈ oc_item <$> st.2 → id ∈ oc_item <$> st'.2)
  ∧ ∀ c, c ∈ cs → c.1 ∈ oc_item <$> st'.2.
Proof.
  revert st. induction cs as [|c cs IH]; intros st Hi Hk; simpl; [split_and!; [done|done|by intros ? ?%elem_of_nil]|].
  set (st1 := interrupt_one now st c).
  assert (end_inv calls st1 ∧ (∀ id, id ∈ oc_item <$> st.2 → id ∈ oc_item <$> st1.2) ∧ c.1 ∈ oc_item <$> st1.2) as (H1 & Hmono & Hc).
  { unfold st1, interrupt_one. destruct (any _ st.2) eqn:E.
    - apply any_true in E as (o & Ho & Hb). bools. split_and!; [done|done|]. rewrite <- Hb. by apply list_elem_of_fmap_2.
    - rewrite any_false in E. split_and!.
      + apply end_land; [done|apply Hk; by left| |done]. simpl. intros (o & Ho & Hin)%list_elem_of_fmap.
        specialize (E o Hin). bools. congruence.
      + intros id Hid. simpl. rewrite fmap_app. apply elem_of_app. by left.
      + simpl. rewrite fmap_app. apply elem_of_app. right. by left. }
  destruct (IH st1 H1) as (H2 & Hmono2 & Hall); [intros c' Hc'; apply Hk; by right|].
  split_and!; [done|auto|]. intros c' [->|Hc']%elem_of_cons; auto.
Qed.

(** *** Sorting outcomes by their call *)

Section sorting.
Context (calls : list (ItemId * ToolCall)) (Hnd : NoDup calls.*1).

Definition index_of (id : ItemId) : nat := default 0 (position (λ c : ItemId * ToolCall, bool_decide (c.1 = id)) calls).

Lemma index_of_spec k id : calls.*1 !! k = Some id →
  index_of id = k ∧ is_Some (position (λ c : ItemId * ToolCall, bool_decide (c.1 = id)) calls).
Proof.
  intros Hk. apply list_lookup_fmap_Some in Hk as (c & -> & Hc).
  assert (position (λ c0 : ItemId * ToolCall, bool_decide (c0.1 = c.1)) calls = Some k) as E.
  { apply position_Some. exists c. split_and!; [done|by apply bool_decide_eq_true_2|].
    intros j c' Hj Hc'. apply bool_decide_eq_false_2. intros E. assert (j = k); [|lia].
    eapply (NoDup_lookup calls.*1); [done|by rewrite list_lookup_fmap, Hc'|]. rewrite list_lookup_fmap, Hc. simpl. by rewrite E. }
  unfold index_of. by rewrite E.
Qed.

Lemma Sorted_seq m n : Sorted le (seq m n).
Proof.
  revert m. induction n as [|n IH]; intros m; simpl; constructor; [apply IH|].
  destruct n; simpl; constructor. lia.
Qed.

Lemma indices_seq : index_of <$> calls.*1 = seq 0 (length calls).
Proof.
  apply list_eq. intros k. rewrite list_lookup_fmap. destruct (decide (k < length calls)) as [Hlt|Hge].
  - rewrite lookup_seq_lt by done. destruct (lookup_lt_is_Some_2 calls.*1 k) as [id Hid]; [by rewrite length_fmap|].
    rewrite Hid. simpl. f_equal. by apply index_of_spec.
  - rewrite (proj2 (lookup_ge_None (calls.*1) k)) by (rewrite length_fmap; lia). symmetry.
    apply lookup_ge_None. rewrite length_seq. lia.
Qed.

(** Outcomes sorted by position have sorted indices. *)
Lemma sorted_indices outs : Sorted (by_position calls) outs → (∀ o, o ∈ outs → oc_item o ∈ calls.*1) →
  Sorted le (index_of <$> (oc_item <$> outs)).
Proof.
  intros Hs Hin. assert (∀ o, o ∈ outs → is_Some (call_position calls o)) as Hsome.
  { intros o Ho. destruct (proj1 (list_elem_of_lookup _ _) (Hin o Ho)) as [k Hk]. by apply (index_of_spec k). }
  clear Hin. induction Hs as [|o l Hl IH Hd]; csimpl; constructor.
  - apply IH. intros o' Ho'. apply Hsome. by right.
  - destruct Hd as [|o' l Hr]; csimpl; constructor. unfold by_position, key_le in Hr.
    destruct (Hsome o) as [i Hi]; [by left|]. destruct (Hsome o') as [j Hj]; [right; by left|].
    rewrite Hi, Hj in Hr. unfold index_of, call_position in *. rewrite Hi, Hj. simpl. by apply Nat.leb_le.
Qed.

Lemma sorted_outcomes outs : oc_item <$> outs ≡ₚ calls.*1 →
  oc_item <$> merge_sort (by_position calls) outs = calls.*1.
Proof.
  intros Hperm. set (sorted := merge_sort (by_position calls) outs).
  assert (oc_item <$> sorted ≡ₚ calls.*1) as Hp.
  { etrans; [apply fmap_Permutation, merge_sort_Permutation|done]. }
  assert (∀ o, o ∈ sorted → oc_item o ∈ calls.*1) as Hin by (intros o Ho; rewrite <- Hp; by apply list_elem_of_fmap_2).
  assert (index_of <$> (oc_item <$> sorted) = index_of <$> calls.*1) as Heq.
  { apply (Sorted_unique le); [|rewrite indices_seq; apply Sorted_seq|by apply fmap_Permutation].
    apply sorted_indices; [|done]. apply Sorted_merge_sort. intros a b. unfold by_position, key_le.
    repeat case_match; try (by auto). rewrite !Nat.leb_le. lia. }
  apply (inj (fmap Some)). transitivity ((λ k, calls.*1 !! k) <$> (index_of <$> (oc_item <$> sorted))).
  - rewrite <- !list_fmap_compose. apply list_fmap_ext. intros k o Ho. simpl.
    destruct (proj1 (list_elem_of_lookup _ _) (Hin o (list_elem_of_lookup_2 _ _ _ Ho))) as [n Hn].
    destruct (index_of_spec n _ Hn) as [-> _]. by rewrite Hn.
  - rewrite Heq, <- list_fmap_compose. apply list_fmap_ext. intros k id Hk. simpl.
    by rewrite (proj1 (index_of_spec k id Hk)).
Qed.
End sorting.

(** *** Progress *)

Definition phase (r : option (ItemId * Reached)) : nat :=
  match r with
  | None => 0
  | Some (_, Deciding _) => 4
  | Some (_, DecidedCall _) => 3
  | Some (_, AskedCall) => 2
  end.

(** What is left to do. *)
Definition measure (w : Walk) : nat := 5 * length (wk_todo w) + phase (wk_reached w) + length (wk_flight w).

Lemma started_measure w pc w' : started w pc w' → measure w' ≤ S (measure w).
Proof. destruct 1; unfold measure; simpl; [lia|]. rewrite length_app. simpl. lia. Qed.

Lemma step_measure w w' : walk_step w w' → wk_cancelled w' = false → measure w' < measure w.
Proof.
  destruct 1 as [? ? ? ? ? ? ? ? Hf|? ? ? ? ? Ht Hr|? ? ? ? ? Hr|? ? ? ? ? Hr|? ? ? ? ? ? ? ? Hr ? ? Hs|? ? ? ? ? ? ? ? Hr ? Hs| |];
    unfold measure; simpl; intros Hc; try done.
  - rewrite Hf, !length_app. simpl. lia.
  - rewrite Ht, Hr. simpl. lia.
  - rewrite Hr. simpl. lia.
  - rewrite Hr. simpl. lia.
  - apply started_measure in Hs. unfold measure in Hs; simpl in Hs. rewrite Hr. simpl. lia.
  - apply started_measure in Hs. unfold measure in Hs; simpl in Hs. rewrite Hr. simpl. lia.
Qed.

Lemma cancelled_stays w w' : walk_step w w' → wk_cancelled w = true → wk_cancelled w' = true.
Proof. destruct 1; simpl; congruence. Qed.

Lemma can_land w : wk_cancelled w = false → wk_flight w ≠ [] → ∃ w', walk_step w w' ∧ wk_cancelled w' = false.
Proof.
  intros Hc Hf. destruct (wk_flight w) as [|pc flight] eqn:E; [done|].
  eexists. split; [by apply (step_land w [] pc flight (Err TeCancelled) 0 0)|done].
Qed.

Lemma can_start w pc : wk_cancelled w = false → ∃ w', started w pc w' ∧ wk_cancelled w' = false.
Proof. intros Hc. eexists. split; [by apply (started_landed w pc (Err TeCancelled) 0 0)|done]. Qed.

Lemma fresh_none t : fresh_notes t [].
Proof. split; [constructor|]. by intros id ?%elem_of_nil. Qed.

Lemma can_step calls w : walk_inv calls [] w → wk_cancelled w = false → ¬ walk_done w →
  ∃ w', walk_step w w' ∧ wk_cancelled w' = false.
Proof.
  intros Hi Hc Hd. destruct (decide (wk_flight w = [])) as [Hf|Hf]; [|by apply can_land].
  destruct (wk_reached w) as [[item [call|d|]]|] eqn:Er.
  - eexists. split; [by apply (step_decide w item call (Settled (gated_denied call tool_traits_default [])))|done].
  - destruct d as [g|waiting].
    + destruct (can_start (admit_call w 0 item g false []).1 (admit_call w 0 item g false []).2) as (w' & Hs & Hc'); [done|].
      exists w'. split; [|done]. apply (step_settled w item g 0 false []); [done|done| |by apply fresh_none|done].
      rewrite Hf. simpl. by repeat case_match.
    + eexists. split; [apply (step_ask w item waiting 0); try done|done]. by rewrite Hf.
  - destruct (can_start (admit_call w 0 item (gated_denied (mkToolCall [] [] VNull) tool_traits_default []) false []).1
      (admit_call w 0 item (gated_denied (mkToolCall [] [] VNull) tool_traits_default []) false []).2) as (w' & Hs & Hc'); [done|].
    exists w'. split; [|done]. by eapply (step_answered w item); [done|done|by apply fresh_none|].
  - destruct (wk_todo w) as [|[item call] todo] eqn:Et.
    + destruct Hd. split_and!; [done|done|]. by rewrite Hf.
    + eexists. split; [apply (step_reach w item call todo); try done; by rewrite Hf|done].
Qed.

Lemma steps_measure n w w' : nsteps walk_step n w w' → wk_cancelled w' = false → n + measure w' ≤ measure w.
Proof.
  induction 1 as [w|n w1 w2 w3 Hs Hn IH]; [lia|]. intros Hc. specialize (IH Hc).
  destruct (wk_cancelled w2) eqn:E2.
  { exfalso. clear -Hn E2 Hc. induction Hn as [|n a b c Hab _ IH]; [congruence|]. eauto using cancelled_stays. }
  pose proof (step_measure _ _ Hs E2). lia.
Qed.

(** ** Claims *)

Section claims.
Context (calls : list (ItemId * ToolCall)) (t : Transcript).
Context (Hnd : NoDup calls.*1) (Hwf : transcript_wf t) (Hpresent : ∀ id, id ∈ calls.*1 → is_Some (get t id)).

(** C9: what runs side by side may run side by side.  At every moment of a
    round, however gates, tools and people interleave, at most ten calls are in
    flight, a call that is not safe to run beside others is the only one, and
    while a person is asked about a call nothing runs. *)
Theorem round_schedule (w : Walk) (Hreach : rtc walk_step (walk_new calls t) w) :
  length (wk_flight w) ≤ max_concurrency
  ∧ (∀ pc, pc ∈ wk_flight w → concurrency_safe (pc_traits pc) = false → wk_flight w = [pc])
  ∧ (∀ id, wk_reached w = Some (id, AskedCall) → wk_flight w = []).
Proof.
  destruct (inv_reachable calls Hnd t w Hwf Hpresent Hreach) as [_ _ _ _ Hf Ha _ Hk].
  split_and!; [done| |done]. intros pc Hin Hu. destruct Ha as [Ha|Ha].
  - unfold all_safe, flight_state in Ha; simpl in Ha. apply forallb_forall with (x := pc) in Ha; [congruence|].
    by apply list_elem_of_In.
  - destruct (wk_flight w) as [|x [|]]; simplify_eq/=. by apply list_elem_of_singleton in Hin as ->.
Qed.

(** C10: every call of a round comes to exactly one outcome.  However the round
    ends, walked to the end or cancelled anywhere, the outcomes are one per call,
    in the order the model made the calls; and each call's item is over in the
    transcript, with its outcome's status and output. *)
Theorem round_settles_every_call (w : Walk) (now : Timestamp) (elapsed : N)
  (Hreach : rtc walk_step (walk_new calls t) w) (Hend : wk_cancelled w = true ∨ walk_done w) :
  let '(t', outcomes) := round_end calls now elapsed w in
  oc_item <$> outcomes = calls.*1
  ∧ ∀ o, o ∈ outcomes → ∃ i, get t' (oc_item o) = Some i ∧ landed_as i o.
Proof.
  destruct (inv_reachable calls Hnd t w Hwf Hpresent Hreach) as [Hw Hc Hp Hl _ _ _ _]. simpl in Hc.
  assert (NoDup (walk_items w)) as Hn by by rewrite Hc. unfold walk_items in Hn, Hc. rewrite app_assoc in Hn.
  apply NoDup_app in Hn as (Hn & _ & _).
  assert (end_inv calls (wk_transcript w, wk_outcomes w)) as H0.
  { split; simpl; try done; [by apply NoDup_app in Hn as (? & _)|].
    intros o Ho. rewrite <- Hc. apply elem_of_app. left. by apply list_elem_of_fmap_2. }
  unfold round_end. set (st := if wk_cancelled w then _ else _).
  assert (end_inv calls st) as H1.
  { unfold st. destruct (wk_cancelled w); [|done]. apply end_cancelled; [done|done|]. intros pc Hpc. rewrite <- Hc.
    apply elem_of_app. right. apply elem_of_app. left. by apply list_elem_of_fmap_2. }
  destruct (end_interrupted calls now calls st H1) as (H2 & _ & Hall).
  { intros c Hin. by apply list_elem_of_fmap_2. }
  set (st' := foldl (interrupt_one now) st calls) in *.
  split.
  - apply sorted_outcomes; [done|]. apply NoDup_Permutation; [apply H2|done|]. intros id. split.
    + intros (o & -> & Ho)%list_elem_of_fmap. by apply (ei_known _ _ H2).
    + intros (c & -> & Hin)%list_elem_of_fmap. by apply Hall.
  - intros o Ho. apply (ei_landed _ _ H2). rewrite merge_sort_Permutation in Ho. done.
Qed.

(** a round always ends.  Short of a cancel it can take another step until
    it is done, and it takes at most five steps for each call. *)
Theorem round_ends (n : nat) (w : Walk) (Hsteps : nsteps walk_step n (walk_new calls t) w)
  (Hlive : wk_cancelled w = false) :
  n ≤ 5 * length calls ∧ (walk_done w ∨ ∃ w', walk_step w w' ∧ wk_cancelled w' = false).
Proof.
  split; [pose proof (steps_measure _ _ _ Hsteps Hlive) as Hm; unfold measure in Hm; simpl in Hm; lia|].
  assert (walk_inv calls [] w) as Hi by (eapply inv_reachable; try done; by eapply rtc_nsteps_2).
  destruct (decide (wk_todo w = [] ∧ wk_reached w = None ∧ wk_flight w = [])) as [(Ht & Hr & Hf)|Hnot].
  - left. split_and!; [done|done|]. by rewrite Hf.
  - right. apply (can_step calls); [done|done|]. intros (Ht & Hr & Hd). apply Hnot. split_and!; [done|done|].
    simpl in Hd. destruct (Nat.eqb_spec (length (wk_flight w)) 0); [by apply length_zero_iff_nil|done].
Qed.
End claims.

(** ** Witnesses *)

Definition demo_call_item (id call : str) : Item :=
  mkItem id (Some (lit "t1")) 0 Pending 0 None None
    (BToolCall None None None call (lit "Read") VNull None None None false) [].
Definition demo_round_transcript : Transcript :=
  transcript_fold transcript_new [ItemStarted (demo_call_item (lit "i1") (lit "c1")); ItemStarted (demo_call_item (lit "i2") (lit "c2"))].
Definition demo_round_calls : list (ItemId * ToolCall) :=
  [(lit "i1", mkToolCall (lit "c1") (lit "Read") VNull); (lit "i2", mkToolCall (lit "c2") (lit "Read") VNull)].
Definition demo_round_gated : Gated := gated_allowed (mkToolCall (lit "c1") (lit "Read") VNull) tool_traits_read_only RReadOnly.

(** The first call allowed and in flight, the second being decided. *)
Definition demo_walk : Walk :=
  mkWalk [] (Some (lit "i2", Deciding (mkToolCall (lit "c2") (lit "Read") VNull)))
    [mkPendingCall (lit "i1") (gd_call demo_round_gated) true tool_traits_read_only GateAllowed] []
    (mark_gated demo_round_transcript 1 (lit "i1") demo_round_gated) false.

Lemma demo_walk_steps : nsteps walk_step 4 (walk_new demo_round_calls demo_round_transcript) demo_walk.
Proof.
  eapply nsteps_l; [by eapply step_reach|]. eapply nsteps_l; [by eapply step_decide with (d := Settled demo_round_gated)|].
  eapply nsteps_l; [eapply step_settled with (now := 1%Z) (has_tool := true) (notes := []);
    [done|done|by vm_compute|apply fresh_none|by apply started_flying]|].
  eapply nsteps_l; [by eapply step_reach|]. apply nsteps_O.
Qed.

Lemma demo_round_present id : id ∈ demo_round_calls.*1 → is_Some (get demo_round_transcript id).
Proof.
  intros Hid. simpl in Hid. repeat (apply elem_of_cons in Hid as [->|Hid]; [vm_compute; eauto|]). by apply elem_of_nil in Hid.
Qed.
Lemma demo_round_wf : transcript_wf demo_round_transcript.
Proof. apply transcript_fold_wf, transcript_new_wf. Qed.
Lemma demo_round_nodup : NoDup demo_round_calls.*1.
Proof. apply (bool_decide_unpack _). by vm_compute. Qed.

Lemma round_schedule_witness : length (wk_flight demo_walk) ≤ max_concurrency.
Proof.
  apply (round_schedule demo_round_calls demo_round_transcript demo_round_nodup demo_round_wf demo_round_present demo_walk).
  eapply rtc_nsteps_2, demo_walk_steps.
Defined.

(** Cancelled there: both calls are interrupted, in order. *)
Definition demo_cancelled : Walk :=
  mkWalk (wk_todo demo_walk) (wk_reached demo_walk) (wk_flight demo_walk) (wk_outcomes demo_walk) (wk_transcript demo_walk) true.

Lemma round_settles_every_call_witness :
  (oc_item <$> (round_end demo_round_calls 9 0 demo_cancelled).2) = [lit "i1"; lit "i2"].
Proof.
  pose proof (round_settles_every_call demo_round_calls demo_round_transcript demo_round_nodup demo_round_wf demo_round_present
    demo_cancelled 9 0) as H.
  destruct (round_end demo_round_calls 9 0 demo_cancelled) as [t' outcomes] eqn:E.
  apply H; [|by left]. eapply rtc_r; [eapply rtc_nsteps_2, demo_walk_steps|apply step_cancel].
Defined.

Lemma round_ends_witness : 4 ≤ 10 ∧ ∃ w', walk_step demo_walk w' ∧ wk_cancelled w' = false.
Proof.
  destruct (round_ends demo_round_calls demo_round_transcript demo_round_nodup demo_round_wf demo_round_present 4 demo_walk
    demo_walk_steps eq_refl) as [_ [(_ & Hr & _)|H]]; [discriminate Hr|]. split; [lia|exact H].
Defined.
