(* ===== verification/Turn.v ===== *)
(** * Turn: the loop of rounds

    [bingo-core/src/turn.rs]: one round trip and the loop over them, with what
    the streaming leg does about a failed stream ([turn/stream.rs]), the ruler
    ([turn/ruler.rs], [context/budget.rs]), the breaker ([turn/config.rs]) and a
    compaction asked for by hand ([turn/compact.rs]).  A turn carries its own
    transcript; everything it awaits (contributors, the endpoint, hooks, tools, a
    person) answers through a [Trip], one per round trip, in which the stream is
    the arrivals [Stream.stream] folds and the round the walk [Round.round_end]
    closes.  Fresh ids and times come from a supply.  An endpoint that is itself
    an agent runs another loop ([turn/agent.rs]) and is not modelled; the request
    is known by its measured size alone. *)

From S2P Require Import Prelude Text Model Interaction Event Transcript Recovery Queue Gate Stream Round.

(** ** The ruler *)

Definition saturating_sub (a b : N) : N := (a - b)%N.

Record Thresholds := mkThresholds { th_effective : N; th_warn : N; th_trigger : N; th_keep : N }.

Definition thresholds_of (window max_tokens : N) : Thresholds :=
  let effective := saturating_sub window max_tokens in
  let trigger := (wrap 64 (effective * 9) / 10)%N in
  mkThresholds effective (saturating_sub trigger 20000) trigger (effective / 4)%N.

Definition thresholds_held (window : N) : Thresholds := mkThresholds window 0 window 0.

Record Anchor := mkAnchor { an_server : N; an_estimate : N; an_rounds : N }.

Definition recount_growth : N := 20000.
Definition recount_rounds : N := 5.

Definition anchor_used (a : Anchor) (estimate : N) : N :=
  u64_saturating_add (an_server a) (saturating_sub estimate (an_estimate a)).
Definition anchor_recount_due (a : Anchor) (estimate : N) : bool :=
  (recount_rounds <=? an_rounds a)%N || (recount_growth <=? saturating_sub estimate (an_estimate a))%N.

Record Ruler := mkRuler {
  rl_lines : Thresholds;
  rl_anchor : option Anchor;
  rl_estimate : N;
  rl_held : option N;
  rl_warned : bool;
}.

Definition ruler_new (window max_tokens : N) (holds : bool) : Ruler :=
  mkRuler (if holds then thresholds_held window else thresholds_of window max_tokens) None 0
          (if holds then Some 0%N else None) false.

Definition holds (r : Ruler) : bool := option_is_some (rl_held r).

Definition holding (r : Ruler) : option ContextUsage :=
  (fun used => mkContextUsage None used (th_effective (rl_lines r)) (th_trigger (rl_lines r))) <$> rl_held r.

(** [budget::usage]. *)
Definition budget_usage (anchor : option Anchor) (estimate : N) (lines : Thresholds) : ContextUsage :=
  mkContextUsage None (match anchor with Some a => anchor_used a estimate | None => estimate end)
    (th_effective lines) (th_trigger lines).

Definition set_estimate (r : Ruler) (estimate : N) : Ruler :=
  mkRuler (rl_lines r) (rl_anchor r) estimate (rl_held r) (rl_warned r).
Definition set_anchor (r : Ruler) (a : option Anchor) : Ruler :=
  mkRuler (rl_lines r) a (rl_estimate r) (rl_held r) (rl_warned r).

Definition ruler_measure (r : Ruler) (estimate : N) : Ruler * ContextUsage :=
  let r := set_estimate r estimate in
  (r, match holding r with Some usage => usage | None => budget_usage (rl_anchor r) estimate (rl_lines r) end).

Definition anchored (r : Ruler) (usage : ContextUsage) : ContextUsage :=
  match holding r with
  | Some held => held
  | None =>
      mkContextUsage (cu_parts usage)
        (match rl_anchor r with Some a => anchor_used a (rl_estimate r) | None => cu_used usage end)
        (cu_window usage) (cu_trigger usage)
  end.

Definition usage_none : ContextUsage := mkContextUsage None 0 0 0.

Definition reading (r : Ruler) (used window : N) : Ruler * ContextUsage :=
  let r := mkRuler (thresholds_held window) None (rl_estimate r) (Some used) (rl_warned r) in
  (r, default usage_none (holding r)).

Definition ruler_recount_due (r : Ruler) : bool :=
  match rl_anchor r with Some a => anchor_recount_due a (rl_estimate r) | None => true end.

Definition counted_ruler (r : Ruler) (server : N) : Ruler := set_anchor r (Some (mkAnchor server (rl_estimate r) 0)).

Definition responded (r : Ruler) (server : N) : Ruler :=
  let rounds := match rl_anchor r with Some a => u32_add (an_rounds a) 1 | None => 1%N end in
  set_anchor r (Some (mkAnchor server (rl_estimate r) rounds)).

Definition show_N (n : N) : str := show_Z (Z.of_N n).

Definition warning (r : Ruler) (usage : ContextUsage) : Ruler * option str :=
  if rl_warned r || (th_warn (rl_lines r) =? 0)%N || (cu_used usage <? th_warn (rl_lines r))%N then (r, None)
  else
    (mkRuler (rl_lines r) (rl_anchor r) (rl_estimate r) (rl_held r) true,
     Some (lit "context at " ++ show_N (percent usage) ++ lit "% of the window; a summary replaces the older turns at "
           ++ show_N (wrap 64 (th_trigger (rl_lines r) * 100) / N.max (th_effective (rl_lines r)) 1) ++ lit "%")).

(** ** The turn *)

Record TurnBudget := mkTurnBudget { tb_max_rounds : option N; tb_max_retries : N }.
Definition budget_default : TurnBudget := mkTurnBudget None 10.
Definition spent (b : TurnBudget) (round : N) : bool :=
  match tb_max_rounds b with Some m => (m <=? round)%N | None => false end.

(** [Breaker]: compactions discarded in a row. *)
Definition breaker_trip : N := 3.
Definition tripped (failures : N) : bool := (breaker_trip <=? failures)%N.

Definition max_length_recoveries : N := 3.
Definition max_threshold_compactions : N := 2.
Definition continue_prompt : str := lit "Continue from where you left off.".
Definition turn_interrupted_marker : str := lit "[Request interrupted by user]".
Definition kernel_surface : str := lit "kernel".

Record TurnCfg := mkTurnCfg {
  tc_turn : TurnId;
  tc_budget : TurnBudget;
  tc_tools : list (str * (Value → ToolTraits));
  tc_compactor : bool;
  tc_count_tokens : bool;
  tc_provider : str;
  tc_model : str;
}.

Record Turn := mkTurn {
  tn_round : N;
  tn_retries : N;
  tn_recoveries : N;
  tn_empty_retry_used : bool;
  tn_overflow_compacted : bool;
  tn_threshold_compactions : N;
  tn_breaker : N;
  tn_ruler : Ruler;
  tn_transcript : Transcript;
  tn_emitted : list Event;     (** what the loop published, outside stream and round *)
  tn_minted : nat;             (** ids taken from the supply *)
}.

Definition turn_new (breaker : N) (ruler : Ruler) (t : Transcript) : Turn :=
  mkTurn 0 0 0 false false 0 breaker ruler t [] 0.

Inductive TurnStep := Assembling | Closing (status : TurnStatus).

Inductive StopResult := StopComplete | StopContinue (origin reason : str).

(** [Gathered], less the system blocks. *)
Record Gathered := mkGathered { ga_user : list (str * list ContentPart); ga_failed : list (str * str) }.

(** [Compaction] and [CompactError]. *)
Record Compaction := mkCompaction {
  cm_summary : str; cm_boundary : ItemId; cm_kept : list ItemId; cm_before : N; cm_after : N; cm_usage : Usage;
}.
Record CompactError := mkCompactError { ce_text : str; ce_usage : Usage }.

(** What a compaction strategy answered: its hooks were cut short, or a cut or
    an error, with the chain's notices, a cancel meanwhile and the time it took. *)
Inductive CompactAnswer :=
| CaStopped
| CaAnswered (notices : list ItemBody) (cancelled : bool) (took_ms : N) (outcome : result CompactError Compaction).

(** How establishing the request went. *)
Inductive Established :=
| EsStream (arrivals : list Arrival) (token : bool) (now : Timestamp)
| EsFailed (error : ProviderError)
| EsRefused (message : str)
| EsCancelled.

(** What one round trip meets. *)
Record Trip := mkTrip {
  tr_cancelled : bool;
  tr_described : bool;                     (** the tools were described *)
  tr_gathered : option (option Gathered);  (** composing asked the contributors: cut short, or gathered *)
  tr_compose_notices : list ItemBody;
  tr_composed : option N;                  (** the composed request's estimate *)
  tr_count : option (option N);            (** an exact count: cut short, failed or made *)
  tr_parts : option (ContextPart * ContextPart * ContextPart * ContextPart);
  tr_compaction : CompactAnswer;
  tr_model_notices : list ItemBody;
  tr_established : Established;
  tr_learned : option N;                   (** a window newly learned from an overflow *)
  tr_slept : bool;
  tr_stopped : bool;
  tr_stop_notices : list ItemBody;
  tr_stop_hooks : option (result KernelError StopResult);
  tr_walk : list (ItemId * ToolCall) → Transcript → Walk;  (** how far the walk over the calls came *)
  tr_walk_end : Timestamp * N;
  tr_round_notices : list ItemBody;
  tr_stop_after : bool;
  tr_cancelled_acting : bool;
  tr_stopped_acting : bool;
  tr_absorbed : option (list Input);
  tr_barrier : option Gathered;
  tr_barrier_estimate : N;
  tr_stopped_ask : option Timestamp;
}.

(** [mint]. *)
Definition mint (turn : TurnId) (round : N) (id : ItemId) (now : Timestamp) (status : ItemStatus) (body : ItemBody) : Item :=
  mkItem id (Some turn) round status now (if status_is_terminal status then Some now else None) None body [].

Definition set_round (s : Turn) (round : N) : Turn :=
  mkTurn round (tn_retries s) (tn_recoveries s) (tn_empty_retry_used s) (tn_overflow_compacted s)
    (tn_threshold_compactions s) (tn_breaker s) (tn_ruler s) (tn_transcript s) (tn_emitted s) (tn_minted s).
Definition set_retries (s : Turn) (n : N) : Turn :=
  mkTurn (tn_round s) n (tn_recoveries s) (tn_empty_retry_used s) (tn_overflow_compacted s)
    (tn_threshold_compactions s) (tn_breaker s) (tn_ruler s) (tn_transcript s) (tn_emitted s) (tn_minted s).
Definition set_recoveries (s : Turn) (n : N) : Turn :=
  mkTurn (tn_round s) (tn_retries s) n (tn_empty_retry_used s) (tn_overflow_compacted s)
    (tn_threshold_compactions s) (tn_breaker s) (tn_ruler s) (tn_transcript s) (tn_emitted s) (tn_minted s).
Definition use_empty_retry (s : Turn) : Turn :=
  mkTurn (tn_round s) (tn_retries s) (tn_recoveries s) true (tn_overflow_compacted s)
    (tn_threshold_compactions s) (tn_breaker s) (tn_ruler s) (tn_transcript s) (tn_emitted s) (tn_minted s).
Definition use_overflow (s : Turn) : Turn :=
  mkTurn (tn_round s) (tn_retries s) (tn_recoveries s) (tn_empty_retry_used s) true
    (tn_threshold_compactions s) (tn_breaker s) (tn_ruler s) (tn_transcript s) (tn_emitted s) (tn_minted s).
Definition set_threshold (s : Turn) (n : N) : Turn :=
  mkTurn (tn_round s) (tn_retries s) (tn_recoveries s) (tn_empty_retry_used s) (tn_overflow_compacted s)
    n (tn_breaker s) (tn_ruler s) (tn_transcript s) (tn_emitted s) (tn_minted s).
Definition set_breaker (s : Turn) (n : N) : Turn :=
  mkTurn (tn_round s) (tn_retries s) (tn_recoveries s) (tn_empty_retry_used s) (tn_overflow_compacted s)
    (tn_threshold_compactions s) n (tn_ruler s) (tn_transcript s) (tn_emitted s) (tn_minted s).
Definition set_ruler (s : Turn) (r : Ruler) : Turn :=
  mkTurn (tn_round s) (tn_retries s) (tn_recoveries s) (tn_empty_retry_used s) (tn_overflow_compacted s)
    (tn_threshold_compactions s) (tn_breaker s) r (tn_transcript s) (tn_emitted s) (tn_minted s).
Definition set_transcript (s : Turn) (t : Transcript) : Turn :=
  mkTurn (tn_round s) (tn_retries s) (tn_recoveries s) (tn_empty_retry_used s) (tn_overflow_compacted s)
    (tn_threshold_compactions s) (tn_breaker s) (tn_ruler s) t (tn_emitted s) (tn_minted s).
(** [TurnHost::emit]. *)
Definition host_emit (s : Turn) (e : Event) : Turn :=
  mkTurn (tn_round s) (tn_retries s) (tn_recoveries s) (tn_empty_retry_used s) (tn_overflow_compacted s)
    (tn_threshold_compactions s) (tn_breaker s) (tn_ruler s) (tn_transcript s) (tn_emitted s ++ [e]) (tn_minted s).
Definition take_mint (s : Turn) : Turn :=
  mkTurn (tn_round s) (tn_retries s) (tn_recoveries s) (tn_empty_retry_used s) (tn_overflow_compacted s)
    (tn_threshold_compactions s) (tn_breaker s) (tn_ruler s) (tn_transcript s) (tn_emitted s) (S (tn_minted s)).

Definition emit_and_fold (s : Turn) (e : Event) : Turn :=
  host_emit (set_transcript s (transcript_apply (tn_transcript s) e).1) e.

Section turn.
Context (cfg : TurnCfg) (supply : nat → ItemId * Timestamp).
Context (parse_json : str → result str Value) (hash_order : gmap str Open → list str).

Definition record_item (s : Turn) (item : Item) : Turn := emit_and_fold s (ItemCompleted item).

(** The next item as [mint] makes it, completed. *)
Definition next_item (s : Turn) (body : ItemBody) : Item :=
  mint (tc_turn cfg) (tn_round s) (supply (tn_minted s)).1 (supply (tn_minted s)).2 Completed body.

Definition record (s : Turn) (body : ItemBody) : Turn := take_mint (record_item s (next_item s body)).

(** What a chain's report holds, recorded. *)
Definition record_report (s : Turn) (notices : list ItemBody) : Turn := foldl record s notices.

Definition user_piece (s : Turn) (parts : list ContentPart) (surface : str) : Turn :=
  record s (BUser parts (mkOrigin None (Some Quiet) surface None None)).

Definition warn (s : Turn) (code text : str) : Turn := emit_and_fold s (Notice Warn code text).

(** [interrupted_status], and [interrupted] around it. *)
Definition interrupted_status (s : Turn) (asked_at : option Timestamp) : Turn * TurnStatus :=
  (record s (BInterruption turn_interrupted_marker asked_at), TurnInterrupted UserCancel).
Definition interrupted_turn (s : Turn) (tr : Trip) : Turn * TurnStep :=
  let '(s, status) := interrupted_status s (tr_stopped_ask tr) in (s, Closing status).

(** [contribute], less the system blocks: [None] when it was cut short. *)
Definition contribute (s : Turn) (gathered : option Gathered) : Turn * option unit :=
  match gathered with
  | None => (s, None)
  | Some g =>
      let s := foldl (fun s f => warn s (lit "CONTRIBUTOR_FAILED") (f.1 ++ lit ": " ++ f.2)) s (ga_failed g) in
      (foldl (fun s u => user_piece s u.2 u.1) s (ga_user g), Some ())
  end.

Definition charge (s : Turn) (plugin : str) (usage : Usage) : Turn :=
  if bool_decide (usage = usage_default) then s else host_emit s (UsageCharged (Some (tc_turn cfg)) plugin usage).

(** [absorb_compaction]. *)
Definition absorb_compaction (s : Turn) (c : Compaction) (took_ms : N) : Turn :=
  let before_cut := take_while (fun i => bool_decide (item_id i ≠ cm_boundary c)) (model_items (tn_transcript s)) in
  let replaced := wrap 32 (N.of_nat (length (retain (fun i => bool_decide (item_id i ∉ cm_kept c)) before_cut))) in
  let summary := (supply (tn_minted s)).1 in
  let s := record s (BCompaction (cm_summary c) replaced (cm_before c) (cm_after c) took_ms
                       (Some (th_effective (rl_lines (tn_ruler s))))) in
  emit_and_fold s (Compacted (u64_add (t_generation (tn_transcript s)) 1) (cm_boundary c) summary (cm_kept c)).

(** [compact]: whether the items changed. *)
Definition compact (s : Turn) (a : CompactAnswer) : Turn * bool :=
  match a with
  | CaStopped => (s, false)
  | CaAnswered notices cancelled took_ms outcome =>
      let s := record_report s notices in
      match outcome with
      | Ok c =>
          if (cm_after c <? cm_before c)%N && negb cancelled then
            let s := set_breaker (charge s (lit "core") (cm_usage c)) 0 in
            let s := absorb_compaction s c took_ms in
            (set_ruler s (set_anchor (tn_ruler s) None), true)
          else
            let failures := u32_add (tn_breaker s) 1 in
            (warn (set_breaker (charge s (lit "core") (cm_usage c)) failures) (lit "COMPACTION_USELESS")
               (lit "the summary would not shrink the context (" ++ show_N (cm_before c) ++ lit " " ++ [8594%N] ++ lit " "
                ++ show_N (cm_after c) ++ lit " tokens); discarded, " ++ show_N failures ++ lit " in a row"), false)
      | Err e =>
          (warn (set_breaker (charge s (lit "core") (ce_usage e)) (u32_add (tn_breaker s) 1)) (lit "COMPACTION_FAILED")
             (ce_text e), false)
      end
  end.

Definition try_compact (s : Turn) (tr : Trip) : Turn * bool :=
  if negb (tc_compactor cfg) then (s, false)
  else if (max_threshold_compactions <=? tn_threshold_compactions s)%N then
    (warn s (lit "COMPACTION_SKIPPED")
       (lit "automatic compaction limit reached for this turn; continuing without another summary"), false)
  else if tripped (tn_breaker s) then
    (warn s (lit "COMPACTION_SKIPPED")
       (lit "no summary: the last " ++ show_N breaker_trip ++ lit " bought nothing; the turn goes on uncompacted"), false)
  else compact (set_threshold s (tn_threshold_compactions s + 1)) (tr_compaction tr).

(** [recount]. *)
Definition recount (r : Ruler) (tr : Trip) : option Ruler :=
  if negb (tc_count_tokens cfg) || negb (ruler_recount_due r) then Some r
  else match tr_count tr with
       | None => None
       | Some None => Some r
       | Some (Some server) => Some (counted_ruler r server)
       end.

(** [measure::context]. *)
Definition measure_context (r : Ruler) (estimate : N)
    (parts : option (ContextPart * ContextPart * ContextPart * ContextPart)) : Ruler * ContextUsage :=
  let '(r, usage) := ruler_measure r estimate in
  (r, if holds r then usage else mkContextUsage parts (cu_used usage) (cu_window usage) (cu_trigger usage)).

Definition warn_once (s : Turn) (usage : ContextUsage) : Turn :=
  let '(r, text) := warning (tn_ruler s) usage in
  match text with Some text => warn (set_ruler s r) (lit "CONTEXT_WARNING") text | None => set_ruler s r end.

(** [assemble_request] with [compose_request] inside it: the measured usage;
    [None] when it was cut short. *)
Definition assemble_request (s : Turn) (tr : Trip) : Turn * option ContextUsage :=
  if negb (tr_described tr) then (s, None)
  else
    let s := match tr_gathered tr with Some gathered => (contribute s gathered).1 | None => s end in
    let s := record_report s (tr_compose_notices tr) in
    match tr_composed tr with
    | None => (s, None)
    | Some estimate =>
        let '(r, usage) := measure_context (tn_ruler s) estimate (tr_parts tr) in
        match recount r tr with
        | None => (set_ruler s r, None)
        | Some r => let usage := anchored r usage in (warn_once (set_ruler s r) usage, Some usage)
        end
    end.

Inductive Assembled := AsRequest (usage : ContextUsage) | AsCompacted.

Definition assemble (s : Turn) (tr : Trip) : Turn * option Assembled :=
  let '(s, usage) := assemble_request s tr in
  match usage with
  | None => (s, None)
  | Some usage =>
      if negb (holds (tn_ruler s)) && (th_trigger (rl_lines (tn_ruler s)) <=? cu_used usage)%N && (tn_round s =? 0)%N then
        let '(s, cut) := try_compact s tr in
        (s, Some (if (cut : bool) then AsCompacted else AsRequest usage))
      else (s, Some (AsRequest usage))
  end.

(** The streaming leg: establish, then fold what arrives. *)
Definition stream_leg (s : Turn) (tr : Trip) : Turn * Streamed :=
  let s := record_report s (tr_model_notices tr) in
  match tr_established tr with
  | EsFailed error => (s, SFailed error [])
  | EsRefused message => (s, SFailed (PeRequest message) [])
  | EsCancelled => (s, SCancelled)
  | EsStream arrivals token now =>
      let '(t, out) := stream parse_json hash_order (tc_tools cfg) (tc_turn cfg) (tn_round s) (tn_transcript s)
                         arrivals token now in
      (set_transcript s t, out)
  end.

(** [backoff], in milliseconds. *)
Definition max_retry_delay : N := 32000.
Definition max_server_retry_delay : N := 60000.
Definition backoff (attempt : N) (retry_after : option N) : N :=
  match retry_after with
  | Some ms => N.min ms max_server_retry_delay
  | None => N.min (500 * N.shiftl 1 (N.min (saturating_sub attempt 1) 6)) max_retry_delay
  end.

Definition announce_retry (s : Turn) (error : ProviderError) (dropped : list ItemId) (delay_ms : N) : Turn :=
  emit_and_fold s
    (TurnRetrying (tc_turn cfg) (tn_retries s) (tb_max_retries (tc_budget cfg)) delay_ms dropped (error_text error)).

Definition retried_or_failed (s : Turn) (tr : Trip) (error : ProviderError) (dropped : list ItemId) : Turn * TurnStep :=
  if retryable error && (tn_retries s <? tb_max_retries (tc_budget cfg))%N then
    let s := set_retries s (tn_retries s + 1) in
    let s := announce_retry s error dropped (backoff (tn_retries s) (retry_after_ms error)) in
    if tr_slept tr then (s, Assembling) else interrupted_turn s tr
  else (s, Closing (TurnFailed (mkKernelError (error_code error) (error_text error)))).

(** [learn_window], once an overflow's message taught a window. *)
Definition learn_window (s : Turn) (window : option N) : Turn :=
  match window with
  | None => s
  | Some window =>
      emit_and_fold s (Notice Info (lit "WINDOW_LEARNED")
        (tc_provider cfg ++ lit "/" ++ tc_model cfg ++ lit " takes " ++ show_N window
         ++ lit " tokens of context; later sessions measure against it"))
  end.

Definition failed_stream (s : Turn) (tr : Trip) (error : ProviderError) (dropped : list ItemId) : Turn * TurnStep :=
  if holds (tn_ruler s) then retried_or_failed s tr error dropped
  else
    match error with
    | PeContextOverflow _ =>
        let s := learn_window s (tr_learned tr) in
        if negb (tn_overflow_compacted s) then
          let s := announce_retry (use_overflow s) error dropped 0 in
          (if tc_compactor cfg then (compact s (tr_compaction tr)).1 else s, Assembling)
        else retried_or_failed s tr error dropped
    | _ => retried_or_failed s tr error dropped
    end.

(** [measured]. *)
Definition measured (r : Ruler) (f : Finished) (usage : ContextUsage) : Ruler * ContextUsage :=
  if holds r then
    match fs_context f with Some (used, window) => reading r used window | None => (r, usage) end
  else
    (responded r (input_total (fs_usage f)),
     mkContextUsage (cu_parts usage) (N.max (input_total (fs_usage f)) (cu_used usage)) (cu_window usage) (cu_trigger usage)).

Definition account (s : Turn) (f : Finished) (usage : ContextUsage) : Turn :=
  let '(r, context) := measured (tn_ruler s) f usage in
  emit_and_fold (set_ruler s r) (TurnUsage (tc_turn cfg) (fs_usage f) context).

Definition stop_hooks (s : Turn) (tr : Trip) : Turn * TurnStep :=
  let s := record_report s (tr_stop_notices tr) in
  match tr_stop_hooks tr with
  | Some (Ok (StopContinue origin reason)) =>
      let s := user_piece s [PText reason] origin in (set_round s (u32_add (tn_round s) 1), Assembling)
  | Some (Ok StopComplete) => (s, Closing TurnDone)
  | Some (Err error) => (s, Closing (TurnFailed error))
  | None => interrupted_turn s tr
  end.

(** [decide]: [None] when the response asks for a tool. *)
Definition decide_response (s : Turn) (tr : Trip) (f : Finished) : option (Turn * TurnStep) :=
  if tr_stopped tr && bool_decide (length (fs_tool_calls f) = 0) then Some (s, Closing TurnDone)
  else if bool_decide (length (fs_items f) = 0) then
    Some (if negb (tn_empty_retry_used s) then (use_empty_retry s, Assembling) else (s, Closing TurnDone))
  else if negb (bool_decide (length (fs_tool_calls f) = 0)) then None
  else if bool_decide ((fin_unified <$> fs_finish_reason f) = Some FinLength)
          && (tn_recoveries s <? max_length_recoveries)%N then
    let s := user_piece (set_recoveries s (tn_recoveries s + 1)) [PText continue_prompt] kernel_surface in
    Some (set_round s (u32_add (tn_round s) 1), Assembling)
  else Some (stop_hooks s tr).

(** [barrier]: [None] when it was cut short. *)
Definition absorb_one (s : Turn) (input : Input) : Turn :=
  match user_item input (next_item s) with Some item => take_mint (record_item s item) | None => s end.
Definition barrier (s : Turn) (tr : Trip) : Turn * option unit :=
  match tr_absorbed tr with
  | None => (s, None)
  | Some steering =>
      let s := foldl absorb_one s steering in
      let '(r, _) := measure_context (tn_ruler s) (tr_barrier_estimate tr) None in
      contribute (set_ruler s r) (tr_barrier tr)
  end.

Definition act (s : Turn) (tr : Trip) (f : Finished) : Turn * TurnStep :=
  let '(t, _) := round_end (fs_tool_calls f) (tr_walk_end tr).1 (tr_walk_end tr).2
                   (tr_walk tr (fs_tool_calls f) (tn_transcript s)) in
  let s := record_report (set_transcript s t) (tr_round_notices tr) in
  if tr_cancelled_acting tr then interrupted_turn s tr
  else if tr_stop_after tr || tr_stopped_acting tr then (s, Closing TurnDone)
  else
    let '(s, held) := barrier s tr in
    match held with
    | None => interrupted_turn s tr
    | Some () => (set_round s (u32_add (tn_round s) 1), Assembling)
    end.

Definition round_trip (s : Turn) (tr : Trip) : Turn * TurnStep :=
  if tr_cancelled tr then interrupted_turn s tr
  else if spent (tc_budget cfg) (tn_round s) then
    (s, Closing (TurnFailed (mkKernelError TurnBudgetExhausted (show_N (tn_round s) ++ lit " rounds"))))
  else
    let '(s, assembled) := assemble s tr in
    match assembled with
    | None => interrupted_turn s tr
    | Some AsCompacted => (s, Assembling)
    | Some (AsRequest usage) =>
        let '(s, streamed) := stream_leg s tr in
        match streamed with
        | SCancelled => interrupted_turn s tr
        | SFailed error dropped => failed_stream s tr error dropped
        | SDone f =>
            let s := account s f usage in
            match decide_response s tr f with Some step => step | None => act s tr f end
        end
    end.

(** [respond]: round trips until one closes the turn. *)
Fixpoint respond (s : Turn) (trips : list Trip) : option (Turn * TurnStatus) :=
  match trips with
  | [] => None
  | tr :: trips =>
      let '(s, step) := round_trip s tr in
      match step with Closing status => Some (s, status) | Assembling => respond s trips end
  end.

(** ** A compaction by hand ([turn/compact.rs]) *)

Definition measure_compacted (s : Turn) (estimate : N)
    (parts : option (ContextPart * ContextPart * ContextPart * ContextPart)) : Turn :=
  let '(r, context) := measure_context (tn_ruler s) estimate parts in
  emit_and_fold (set_ruler s r) (TurnUsage (tc_turn cfg) usage_default context).

Definition compact_run (s : Turn) (tr : Trip) : Turn * TurnStatus :=
  if negb (tc_compactor cfg) then
    (s, TurnFailed (mkKernelError InvalidInput (lit "no compaction strategy is registered")))
  else
    let '(s, usage) := assemble_request s tr in
    match usage with
    | None => interrupted_status s (tr_stopped_ask tr)
    | Some _ =>
        let '(s, compacted) := compact s (tr_compaction tr) in
        if tr_cancelled_acting tr then interrupted_status s (tr_stopped_ask tr)
        else (if (compacted : bool) then measure_compacted s (tr_barrier_estimate tr) (tr_parts tr) else s, TurnDone)
    end.

(** ** A turn, from its start ([run_turn]) *)

Inductive TurnKind := TkRespond | TkCompact.

Record TurnOpening := mkTurnOpening {
  rn_hooks : bool;                  (** the hooks were read before a cancel *)
  rn_answered : bool;               (** the session has a model *)
  rn_late : option (list str);      (** the shadowed tools, when gathered before a cancel *)
  rn_started : bool;                (** the start hooks ran to the end *)
  rn_kind : TurnKind;
  rn_asked_at : option Timestamp;
}.

Definition unanswered : TurnStatus :=
  TurnFailed (mkKernelError InvalidInput (lit "this session answers nothing")).

Definition run_turn (r : TurnOpening) (s : Turn) (trips : list Trip) : option (Turn * TurnStatus) :=
  if negb (rn_hooks r) then Some (interrupted_status s (rn_asked_at r))
  else if negb (rn_answered r) then Some (s, unanswered)
  else
    match rn_late r with
    | None => Some (interrupted_status s (rn_asked_at r))
    | Some shadowed =>
        let s := foldl (fun s name => warn s (lit "TOOL_SHADOWED")
                          (lit "a second tool called " ++ name ++ lit " was dropped")) s shadowed in
        if negb (rn_started r) then Some (interrupted_status s (rn_asked_at r))
        else match rn_kind r with
             | TkRespond => respond s trips
             | TkCompact => match trips with tr :: _ => Some (compact_run s tr) | [] => None end
             end
    end.
End turn.

(** ** What an event leaves alone *)

(** The items an event may change or drop. *)
Definition touched (e : Event) : list ItemId :=
  match e with
  | ItemStarted item | ItemUpdated item | ItemCompleted item => [item_id item]
  | ItemDelta item _ _ _ => [item]
  | TurnRetrying _ _ _ _ dropped _ | Rewound _ _ dropped _ => dropped
  | _ => []
  end.

Lemma get_remove t dropped id : transcript_wf t → id ∉ dropped → get (remove t dropped) id = get t id.
Proof.
  intros Hwf Hid. apply option_eq. intros it. rewrite !get_spec; [|done|by apply remove_wf]. simpl.
  rewrite elem_of_retain. split; [tauto|]. intros [Hin <-]. split_and!; [done| |done].
  unfold is_dropped. by rewrite bool_decide_eq_false_2.
Qed.

Lemma get_delta t id kind data id' : transcript_wf t → id' ≠ id → get (delta t id kind data).1 id' = get t id'.
Proof.
  intros Hwf Hne. unfold delta. destruct (t_positions t !! id) as [k|] eqn:Ep; [|done].
  destruct (t_items t !! k) as [x|] eqn:Ek; [|done]. destruct (is_terminal x); [done|].
  destruct (delta_body _ _ _); [|done]. unfold get. simpl.
  destruct (t_positions t !! id') as [j|] eqn:Ej; [|done]. simpl. apply list_lookup_insert_ne.
  intros ->. destruct (proj1 (wf_lookup t _ j Hwf) Ej) as (y & Hy & Hyid).
  destruct (proj1 (wf_lookup t _ j Hwf) Ep) as (z & Hz & Hzid). congruence.
Qed.

Lemma get_apply t e id : transcript_wf t → id ∉ touched e → get (transcript_apply t e).1 id = get t id.
Proof.
  intros Hwf Hid. assert (∀ item, id ∉ [item_id item] → get (bump (upsert t item).1) id = get t id) as Hput.
  { intros item Hn. pose proof (get_put t (ItemStarted item) item id Hwf) as Hg.
    rewrite (puts_apply _ item) in Hg by by left. rewrite Hg by by left; left. rewrite decide_False; [done|]. set_solver. }
  assert ((transcript_apply t e).1 = (change t e).1 ∨ (transcript_apply t e).1 = bump (change t e).1) as Hb.
  { unfold transcript_apply. destruct (change t e) as [t' a]. simpl. destruct (bool_decide _); auto. }
  assert (get (transcript_apply t e).1 id = get (change t e).1 id) as -> by by destruct Hb as [-> | ->].
  destruct e; simpl in *; try done; try (by apply (Hput item)).
  - by apply get_remove.
  - apply get_delta; [done|]. set_solver.
  - unfold compacted. by destruct (position _ _).
  - apply (get_remove (set_generation t generation)); [by apply set_generation_wf|done].
Qed.

(** A well-formed transcript that has the items of [K]. *)
Definition carrying (K : ItemId → Prop) (t : Transcript) : Prop :=
  transcript_wf t ∧ ∀ id, K id → is_Some (get t id).
(** The transcript stays well formed and the items of [K] stay what they are. *)
Definition kept (K : ItemId → Prop) (t t' : Transcript) : Prop :=
  carrying K t → transcript_wf t' ∧ ∀ id, K id → get t' id = get t id.

Lemma kept_carrying K t t' : kept K t t' → carrying K t → carrying K t'.
Proof. intros Hk Hc. destruct (Hk Hc) as [Hwf E]. split; [done|]. intros id Hid. rewrite E by done. by apply Hc. Qed.

#[export] Instance kept_preorder K : PreOrder (kept K).
Proof.
  split; [by intros t [Hwf _]|]. intros t1 t2 t3 H1 H2 Hc. pose proof (kept_carrying _ _ _ H1 Hc) as Hc2.
  destruct (H1 Hc) as [_ E1]. destruct (H2 Hc2) as [Hwf3 E2]. split; [done|]. intros id Hid. by rewrite E2, E1.
Qed.

Lemma kept_apply (K : ItemId → Prop) t e : (∀ id, id ∈ touched e → ¬ K id) → kept K t (transcript_apply t e).1.
Proof.
  intros He [Hwf _]. split; [by apply transcript_apply_wf|]. intros id Hid. apply get_apply; [done|]. intros Hin. by apply (He id).
Qed.

Lemma kept_fold (K : ItemId → Prop) es t : (∀ e id, e ∈ es → id ∈ touched e → ¬ K id) → kept K t (transcript_fold t es).
Proof.
  revert t. induction es as [|e es IH]; intros t He; [done|]. etrans; [apply (kept_apply K t e)|apply IH].
  - intros id. apply He. by left.
  - intros e' id Hin. apply He. by right.
Qed.

Lemma kept_touches (K : ItemId → Prop) t t' id : (transcript_wf t → touches t t' id) → ¬ K id → kept K t t'.
Proof.
  intros Ht Hid [Hwf _]. destruct (Ht Hwf) as [Hwf' _ Ho]. split; [done|]. intros id' Hid'. apply Ho. by intros ->.
Qed.

(** *** Through the stream *)

Section kept_stream.
Context (K : ItemId → Prop) (parse_json : str → result str Value) (hash_order : gmap str Open → list str).
Context (tools : list (str * (Value → ToolTraits))).

(** None of the accumulator's items is one of [K]. *)
Record apart (a : Accumulator) : Prop := mk_apart {
  ap_items : ∀ id, id ∈ item_ids a → ¬ K id;
  ap_open : ∀ key o, ac_open a !! key = Some o → ¬ K (item_id (op_item o));
  ap_calls : ∀ id, id ∈ (ac_tool_calls a).*1 → ¬ K id;
}.

Definition emits_apart (emits : list Emit) : Prop :=
  ∀ x id, x ∈ emits → id ∈ touched (publish_event tools x) → ¬ K id.

Lemma emits_one x id : touched (publish_event tools x) = [id] → ¬ K id → emits_apart [x].
Proof. intros Hx Hid y id' ->%list_elem_of_singleton. rewrite Hx. by intros ->%list_elem_of_singleton. Qed.
Lemma emits_started item : ¬ K (item_id item) → emits_apart [EStarted item].
Proof.
  apply emits_one. unfold publish_event, touched. by rewrite with_quiet_id.
Qed.
Lemma emits_none : emits_apart [].
Proof. by intros x id ?%elem_of_nil. Qed.

Lemma replace_ids its item : item_id <$> acc_replace its item = item_id <$> its.
Proof.
  unfold acc_replace. destruct (position _ its) as [k|] eqn:E; [|done].
  apply position_Some in E as (old & Hk & Hb & _). bools. by apply (ids_of_insert its k item old).
Qed.

Lemma apart_end a now key status a' emits : apart a → end_block a now key status = (a', emits) →
  apart a' ∧ emits_apart emits.
Proof.
  intros [Hi Ho Hc]. unfold end_block. destruct (ac_open a !! key) as [o|] eqn:E; intros [= <- <-].
  - split; [split|].
    + unfold item_ids. simpl. rewrite replace_ids. apply Hi.
    + simpl. intros key' o' [_ Hl]%lookup_delete_Some. by eapply Ho.
    + done.
    + eapply emits_one; [done|]. by eapply Ho.
  - split; [done|apply emits_none].
Qed.

Lemma apart_push a id now e a' emits : apart a → ¬ K id → acc_push parse_json a id now e = (a', emits) →
  apart a' ∧ emits_apart emits.
Proof.
  intros Ha Hid. pose proof Ha as [Hi Ho Hc].
  assert (∀ its x, item_id <$> its = item_ids a ++ [id] → x ∈ item_id <$> its → ¬ K x) as Hsnoc.
  { intros its x -> [?| ->%list_elem_of_singleton]%elem_of_app; auto. }
  assert (∀ key o o' key' o'', ac_open a !! key = Some o → item_id (op_item o') = item_id (op_item o) →
    <[key:=o']> (ac_open a) !! key' = Some o'' → ¬ K (item_id (op_item o''))) as Hins.
  { intros key o o' key' o'' Hk Hs [[-> <-]|[_ Hl]]%lookup_insert_Some; [rewrite Hs|]; by eapply Ho. }
  assert (∀ key body a' emits, start_block a id now key body = (a', emits) → apart a' ∧ emits_apart emits) as Hstart.
  { intros key body ? ? [= <- <-]. split; [split; simpl|].
    - intros x. apply (Hsnoc (ac_items a ++ [_])). by rewrite fmap_app.
    - by intros key' o' [[-> <-]|[_ Hl]]%lookup_insert_Some; [|by eapply Ho].
    - done.
    - by apply emits_started. }
  assert (∀ key kind data a' emits, acc_delta a key kind data = (a', emits) → apart a' ∧ emits_apart emits) as Hdelta.
  { intros key kind data ? ?. unfold acc_delta. destruct (ac_open a !! key) as [o|] eqn:E; [|intros [= <- <-]; eauto using emits_none].
    case_match; intros [= <- <-]; [|eauto using emits_none]. split; [split; simpl; [done| |done]|].
    - intros key' o''. by apply (Hins key o).
    - eapply emits_one; [done|]. by eapply Ho. }
  destruct e; simpl; eauto using apart_end; try (intros [= <- <-]; split; [by split|by apply emits_none]).
  - unfold end_reasoning. intros He. eapply apart_end; [|exact He].
    destruct (ac_open a !! id0) as [o|] eqn:E; [|done]. destruct (item_body (op_item o)); try done.
    split; simpl; [done| |done]. intros key' o''. by apply (Hins id0 o).
  - unfold start_call. destruct (parse_input parse_json input) as [v meta]. intros [= <- <-]. split; [split; simpl|].
    + intros x. apply (Hsnoc (ac_items a ++ [_])). by rewrite fmap_app.
    + done.
    + rewrite fmap_app. intros x [?| ->%list_elem_of_singleton]%elem_of_app; auto.
    + by apply emits_started.
  - intros [= <- <-]. split; [split; simpl|].
    + intros x. apply (Hsnoc (ac_items a ++ [_])). by rewrite fmap_app.
    + done.
    + done.
    + by eapply emits_one.
Qed.

Lemma apart_end_blocks now status keys a a' emits : apart a → end_blocks a now keys status = (a', emits) →
  apart a' ∧ emits_apart emits.
Proof.
  revert a a' emits. induction keys as [|key keys IH]; intros a a' emits Ha; simpl; [intros [= <- <-]; eauto using emits_none|].
  destruct (end_block a now key status) as [a1 e1] eqn:E1. destruct (end_blocks a1 now keys status) as [a2 e2] eqn:E2.
  intros [= <- <-]. destruct (apart_end _ _ _ _ _ _ Ha E1) as [Ha1 He1]. destruct (IH _ _ _ Ha1 E2) as [Ha2 He2].
  split; [done|]. intros x id [Hx|Hx]%elem_of_app; [by apply (He1 x)|by apply (He2 x)].
Qed.

Lemma kept_emits emits t : emits_apart emits → kept K t (publish_emits tools t emits).
Proof. intros He. apply kept_fold. intros e id (x & -> & Hx)%list_elem_of_fmap. by apply He. Qed.

Lemma kept_loop arrivals a t a' t' error cancelled : apart a → (∀ id, id ∈ minted arrivals → ¬ K id) →
  stream_loop parse_json tools a t arrivals = (a', t', error, cancelled) → apart a' ∧ kept K t t'.
Proof.
  revert a t. induction arrivals as [|x arrivals IH]; intros a t Ha Hm; [by intros [= <- <- _ _]|].
  destruct x as [id now e| | |]; [|by intros [= <- <- _ _]..]. unfold minted in Hm. csimpl in Hm. cbn [stream_loop].
  destruct (acc_push parse_json a id now e) as [a1 emits] eqn:Ep. intros E.
  destruct (apart_push a id now e a1 emits Ha) as [Ha1 He]; [apply Hm; by left|done|].
  destruct (IH _ _ Ha1 ltac:(intros x Hx; apply Hm; by right) E) as [Ha' Hk]. split; [done|].
  etrans; [by apply (kept_emits emits)|done].
Qed.

Lemma kept_stream turn round t arrivals token now t' out : (∀ id, id ∈ minted arrivals → ¬ K id) →
  stream parse_json hash_order tools turn round t arrivals token now = (t', out) →
  kept K t t' ∧ match out with
                | SDone f => ∀ id, id ∈ (fs_tool_calls f).*1 → ¬ K id
                | SFailed _ dropped => ∀ id, id ∈ dropped → ¬ K id
                | SCancelled => True
                end.
Proof.
  intros Hm. unfold stream. destruct (stream_loop _ _ _ _ _) as [[[a t1] error] cancelled] eqn:El.
  assert (apart (acc_new turn round)) as H0.
  { split; simpl; [by intros id ?%elem_of_nil| |by intros id ?%elem_of_nil]. intros key o. by rewrite lookup_empty. }
  destruct (kept_loop _ _ _ _ _ _ _ H0 Hm El) as [Ha Hk].
  unfold acc_finish. destruct (end_blocks a now _ _) as [a2 emits] eqn:Ee.
  destruct (apart_end_blocks _ _ _ _ _ _ Ha Ee) as [Ha2 He]. intros [= <- <-].
  split; [etrans; [done|by apply kept_emits]|].
  destruct (cancelled || token); [done|]. simpl. destruct (option_or error _); [apply Ha|].
  destruct (option_is_some _); [apply Ha2|apply Ha].
Qed.
End kept_stream.

(** *** Through the round *)

Section kept_round.
Context (K : ItemId → Prop) (calls : list (ItemId * ToolCall)) (Hcalls : ∀ id, id ∈ calls.*1 → ¬ K id).

(** What the walk holds is not of [K]. *)
Record walk_apart (w : Walk) : Prop := mk_walk_apart {
  wa_todo : ∀ id, id ∈ (wk_todo w).*1 → ¬ K id;
  wa_reached : ∀ id r, wk_reached w = Some (id, r) → ¬ K id;
  wa_flight : ∀ pc, pc ∈ wk_flight w → ¬ K (pc_item pc);
}.

Lemma kept_land t now o : ¬ K (oc_item o) → kept K t (land_transcript t now o).
Proof. apply kept_touches. intros Hwf. by apply land_touches. Qed.

Lemma kept_notes t notes : fresh_notes t notes → kept K t (record_notes t notes).
Proof.
  intros Hf [Hwf Hp]. destruct (notes_kept t notes Hwf Hf) as [Hwf' Hn]. split; [done|].
  intros id Hid. by apply Hn, Hp.
Qed.

Lemma apart_started w pc w' : walk_apart w → ¬ K (pc_item pc) → started w pc w' →
  walk_apart w' ∧ kept K (wk_transcript w) (wk_transcript w').
Proof.
  intros [Ht Hr Hf] Hpc. destruct 1 as [answered elapsed now|]; (split; [by split| ]) || (split; [split|]); simpl; try done.
  - apply kept_land. by rewrite (proj2 (run_one_terminal pc answered elapsed)).
  - intros pc' [?| ->%list_elem_of_singleton]%elem_of_app; auto.
Qed.

Lemma apart_step w w' : walk_step w w' → walk_apart w →
  walk_apart w' ∧ kept K (wk_transcript w) (wk_transcript w').
Proof.
  intros Hs Hw. pose proof Hw as [Ht Hr Hf].
  assert (∀ item r now g has_tool notes w', wk_reached w = Some (item, r) → fresh_notes (wk_transcript w) notes →
    started (admit_call w now item g has_tool notes).1 (admit_call w now item g has_tool notes).2 w' →
    walk_apart w' ∧ kept K (wk_transcript w) (wk_transcript w')) as Hadmit.
  { intros item r now g has_tool notes w1 Er Hn Hst.
    destruct (apart_started (admit_call w now item g has_tool notes).1 (admit_call w now item g has_tool notes).2 w1) as [Hw1 Hk];
      [by split|by apply (Hr item r)|done|]. split; [done|]. etrans; [by apply (kept_notes _ notes)|]. etrans; [|exact Hk].
    apply (kept_touches _ _ _ item); [|by eapply Hr]. intros Hwf. by apply gated_touches. }
  destruct Hs as [w before pc after answered elapsed now _ Hfl|w item call todo _ Et _ _|w item call d _ Er|w item waiting now _ Er _
    |w item g now has_tool notes w' _ Er _ Hn Hst|w item g now has_tool notes w' _ Er Hn Hst|w item reached notes _ Er Hn|w]; eauto.
  - split; [split; simpl; [done|done|]|].
    + intros pc' Hin. apply Hf. rewrite Hfl. set_solver.
    + simpl. apply kept_land. rewrite (proj2 (run_one_terminal pc answered elapsed)). apply Hf. rewrite Hfl. set_solver.
  - rewrite Et in Ht. split; [split; simpl; [|intros id r [= <- _]|done]|done].
    + intros id Hin. apply Ht. csimpl. by right.
    + apply Ht. csimpl. by left.
  - split; [split; simpl; [done|intros id r [= <- _]; by eapply Hr|done]|done].
  - split; [split; simpl; [done|intros id r [= <- _]; by eapply Hr|done]|]. simpl.
    apply (kept_touches _ _ _ item); [|by eapply Hr]. intros Hwf. by apply asked_touches.
  - split; [by split|]. by apply kept_notes.
  - split; [by split|done].
Qed.

Lemma kept_walk t w : rtc walk_step (walk_new calls t) w → walk_apart w ∧ kept K t (wk_transcript w).
Proof.
  intros Hr. assert (walk_apart (walk_new calls t)) as H0 by (split; simpl; [done|done|by intros ? ?%elem_of_nil]).
  change t with (wk_transcript (walk_new calls t)). revert Hr H0. generalize (walk_new calls t) as w0. intros w0 Hr.
  induction Hr as [w|w1 w2 w3 Hs _ IH]; intros Hw; [done|]. destruct (apart_step _ _ Hs Hw) as [Hw2 Hk].
  destruct (IH Hw2) as [Hw3 Hk3]. split; [done|]. by etrans.
Qed.

Lemma kept_foldl {A} (f : Transcript * list ToolOutcome → A → Transcript * list ToolOutcome) (l : list A) st :
  (∀ st x, x ∈ l → kept K st.1 (f st x).1) → kept K st.1 (foldl f st l).1.
Proof.
  revert st. induction l as [|x l IH]; intros st Hf; [done|]. simpl. etrans; [apply Hf; by left|].
  apply IH. intros st' x' Hx'. apply Hf. by right.
Qed.

Lemma kept_round_end t now elapsed w : rtc walk_step (walk_new calls t) w →
  kept K t (round_end calls now elapsed w).1.
Proof.
  intros Hr. destruct (kept_walk t w Hr) as [Hw Hk]. etrans; [exact Hk|]. unfold round_end.
  change (wk_transcript w) with (wk_transcript w, wk_outcomes w).1 at 1. generalize (wk_transcript w, wk_outcomes w) as st.
  intros st. simpl. etrans; [|apply kept_foldl].
  - destruct (wk_cancelled w); [|done]. apply kept_foldl. intros s0 pc Hpc. apply kept_land.
    rewrite (proj2 (run_one_terminal pc _ _)). by apply (wa_flight _ Hw).
  - intros s0 c Hc. unfold interrupt_one. destruct (any _ _); [done|]. apply kept_land, Hcalls. simpl. by apply list_elem_of_fmap_2.
Qed.
End kept_round.

(** ** What a step of the loop carries along *)

Definition count {A} (p : A → bool) (l : list A) : nat := length (retain p l).

Lemma count_app {A} (p : A → bool) l k : count p (l ++ k) = count p l + count p k.
Proof. unfold count. by rewrite retain_app, length_app. Qed.

Definition is_retry (e : Event) : bool := match e with TurnRetrying _ _ _ _ _ _ => true | _ => false end.
Definition is_cut (e : Event) : bool := match e with Compacted _ _ _ _ => true | _ => false end.
Definition is_context_warning (e : Event) : bool :=
  match e with Notice _ code _ => bool_decide (code = lit "CONTEXT_WARNING") | _ => false end.

Definition counters (s : Turn) : N * N * N * bool * bool * N :=
  (tn_round s, tn_retries s, tn_recoveries s, tn_empty_retry_used s, tn_overflow_compacted s, tn_threshold_compactions s).

Section carrying.
Context (cfg : TurnCfg) (supply : nat → ItemId * Timestamp).
Context (parse_json : str → result str Value) (hash_order : gmap str Open → list str).
Context (K : ItemId → Prop) (Hsupply : ∀ n, ¬ K (supply n).1).

(** From [s] to [s'] no counter moved, nothing of [K] changed, and at most
    [cuts] of the events published are cuts, none a retry or a warning. *)
Record carry (cuts : nat) (s s' : Turn) : Prop := mk_carry {
  cr_counters : counters s' = counters s;
  cr_warned : rl_warned (tn_ruler s') = rl_warned (tn_ruler s);
  cr_kept : kept K (tn_transcript s) (tn_transcript s');
  cr_emitted : ∃ es, tn_emitted s' = tn_emitted s ++ es
    ∧ count is_retry es = 0 ∧ count is_context_warning es = 0 ∧ count is_cut es ≤ cuts;
}.

Lemma carry_trans a b s1 s2 s3 : carry a s1 s2 → carry b s2 s3 → carry (a + b) s1 s3.
Proof.
  intros [C1 W1 K1 (e1 & E1 & R1 & X1 & U1)] [C2 W2 K2 (e2 & E2 & R2 & X2 & U2)].
  split; [congruence|congruence|by etrans|]. exists (e1 ++ e2).
  rewrite E2, E1, !count_app, <- app_assoc. split_and!; [done|lia..].
Qed.

Lemma carry_weaken a b s s' : a ≤ b → carry a s s' → carry b s s'.
Proof. intros Hab [? ? ? (es & ? & ? & ? & ?)]. split; [done..|]. exists es. split_and!; [done..|lia]. Qed.

Lemma carry_same s s' : counters s' = counters s → rl_warned (tn_ruler s') = rl_warned (tn_ruler s) →
  kept K (tn_transcript s) (tn_transcript s') → tn_emitted s' = tn_emitted s → carry 0 s s'.
Proof. intros ? ? ? E. split; [done..|]. exists []. by rewrite E, app_nil_r. Qed.

#[local] Instance carry_preorder : PreOrder (carry 0).
Proof. split; [intros s; by apply carry_same|]. intros s1 s2 s3. apply (carry_trans 0 0). Qed.

Lemma carry_emit cuts s e : (∀ id, id ∈ touched e → ¬ K id) → is_retry e = false → is_context_warning e = false →
  (is_cut e = true → 0 < cuts) → carry cuts s (emit_and_fold s e).
Proof.
  intros Ht Hr Hw Hc. split; [done|done|by apply kept_apply|]. exists [e]. unfold count; simpl. rewrite Hr, Hw.
  split_and!; [done..|]. destruct (is_cut e); simpl; [by apply Hc|lia].
Qed.

Lemma carry_item s item : ¬ K (item_id item) → carry 0 s (record_item s item).
Proof. intros Hi. apply carry_emit; [|done..]. by intros id ->%list_elem_of_singleton. Qed.

Lemma carry_record s body : carry 0 s (record cfg supply s body).
Proof. unfold record. etrans; [apply (carry_item s (next_item cfg supply s body)), Hsupply|]. by apply carry_same. Qed.

Lemma carry_foldl {A} (f : Turn → A → Turn) l s : (∀ s x, carry 0 s (f s x)) → carry 0 s (foldl f s l).
Proof. intros Hf. revert s. induction l as [|x l IH]; intros s; [done|]. simpl. etrans; [apply Hf|apply IH]. Qed.

Lemma carry_report s notices : carry 0 s (record_report cfg supply s notices).
Proof. apply carry_foldl. intros. apply carry_record. Qed.

Lemma carry_warn s code text : code ≠ lit "CONTEXT_WARNING" → carry 0 s (warn s code text).
Proof. intros Hc. apply carry_emit; [by intros id ?%elem_of_nil|done| |done]. by apply bool_decide_eq_false_2. Qed.

Lemma carry_contribute s gathered : carry 0 s (contribute cfg supply s gathered).1.
Proof.
  unfold contribute. destruct gathered as [g|]; [|done]. simpl. etrans; [|apply carry_foldl; intros; apply carry_record].
  apply carry_foldl. intros. by apply carry_warn.
Qed.

Lemma carry_charge s plugin usage : carry 0 s (charge cfg s plugin usage).
Proof.
  unfold charge. destruct (bool_decide _); [done|]. split; [done..|]. eexists. split_and!; [done|done|done|]. unfold count; simpl. lia.
Qed.

Lemma carry_interrupted s tr : carry 0 s (interrupted_turn cfg supply s tr).1.
Proof. apply carry_record. Qed.

Lemma carry_absorb s input : carry 0 s (absorb_one cfg supply s input).
Proof.
  unfold absorb_one. destruct (user_item input (next_item cfg supply s)) as [item|] eqn:E; [|done].
  transitivity (record_item s item); [|by apply carry_same]. apply carry_item.
  enough (item_id item = (supply (tn_minted s)).1) as -> by apply Hsupply.
  unfold user_item in E. destruct input; simplify_eq/=. by destruct headline; simplify_eq/=.
Qed.

(** A ruler that was not warned by the way. *)
Lemma carry_ruler s r : rl_warned r = rl_warned (tn_ruler s) → carry 0 s (set_ruler s r).
Proof. intros. by apply carry_same. Qed.

Lemma measure_warned r estimate parts : rl_warned (measure_context r estimate parts).1 = rl_warned r.
Proof. done. Qed.

Lemma carry_barrier s tr : carry 0 s (barrier cfg supply s tr).1.
Proof.
  unfold barrier. destruct (tr_absorbed tr) as [steering|]; [|done]. set (s1 := foldl _ s steering).
  transitivity s1; [apply carry_foldl; intros; apply carry_absorb|]. etrans; [by apply (carry_ruler s1 (measure_context (tn_ruler s1) (tr_barrier_estimate tr) None).1)|].
  apply carry_contribute.
Qed.

Lemma carry_compact s a : carry 1 s (compact cfg supply s a).1.
Proof.
  unfold compact. destruct a as [|notices cancelled took outcome]; [by apply (carry_weaken 0); [lia|]|].
  apply (carry_trans 0 1 _ _ _ (carry_report s notices)). set (s1 := record_report cfg supply s notices).
  assert (∀ n code text usage, code ≠ lit "CONTEXT_WARNING" →
    carry 1 s1 (warn (set_breaker (charge cfg s1 (lit "core") usage) n) code text)) as Hwarn.
  { intros n code text usage Hc. apply (carry_weaken 0); [lia|]. etrans; [apply carry_charge|].
    etrans; [|by apply (carry_warn (set_breaker (charge cfg s1 (lit "core") usage) n))]. by apply carry_same. }
  destruct outcome as [c|e]; [|by apply Hwarn]. destruct (_ && _); [|by apply Hwarn].
  apply (carry_trans 0 1 _ _ _ (carry_charge s1 (lit "core") (cm_usage c))). set (s2 := charge cfg s1 _ _). simpl.
  apply (carry_trans 0 1 _ (set_breaker s2 0)); [by apply carry_same|].
  apply (carry_trans 1 0 _ (absorb_compaction cfg supply (set_breaker s2 0) c took)); [|by apply carry_ruler].
  eapply (carry_trans 0 1); [apply carry_record|]. apply carry_emit; [by intros id ?%elem_of_nil|done|done|lia].
Qed.

(** *** Within the turn's budgets *)

(** A retry announced is one of those allowed, and waits at most a minute. *)
Definition delay_bounded (e : Event) : Prop :=
  match e with
  | TurnRetrying _ attempt max delay_ms _ _ => (attempt ≤ max ∧ delay_ms ≤ max_server_retry_delay)%N
  | _ => True
  end.

Lemma backoff_bound attempt retry_after : (backoff attempt retry_after ≤ max_server_retry_delay)%N.
Proof. unfold backoff, max_server_retry_delay, max_retry_delay. destruct retry_after; lia. Qed.

Lemma no_retry_bounded es : count is_retry es = 0 → Forall delay_bounded es.
Proof.
  unfold count. induction es as [|e es IH]; simpl; [by constructor|]. destruct (is_retry e) eqn:E; simpl; [done|].
  intros H. constructor; [by destruct e|auto].
Qed.

(** What the loop has published never outruns its counters. *)
Record within (s : Turn) : Prop := mk_within {
  wi_retries : (tn_retries s ≤ tb_max_retries (tc_budget cfg))%N;
  wi_threshold : (tn_threshold_compactions s ≤ max_threshold_compactions)%N;
  wi_announced : N.of_nat (count is_retry (tn_emitted s)) = (tn_retries s + N.b2n (tn_overflow_compacted s))%N;
  wi_cuts : (N.of_nat (count is_cut (tn_emitted s)) ≤ tn_threshold_compactions s + N.b2n (tn_overflow_compacted s))%N;
  wi_warned : (N.of_nat (count is_context_warning (tn_emitted s)) ≤ N.b2n (rl_warned (tn_ruler s)))%N;
  wi_delays : Forall delay_bounded (tn_emitted s);
}.

(** What is left before the turn must close. *)
Definition left_over (m : N) (s : Turn) : N :=
  ((m - tn_round s) + (tb_max_retries (tc_budget cfg) - tn_retries s)
   + (max_threshold_compactions - tn_threshold_compactions s)
   + N.b2n (negb (tn_empty_retry_used s)) + N.b2n (negb (tn_overflow_compacted s)))%N.

Record lead (s s' : Turn) : Prop := mk_lead {
  ld_within : within s → within s';
  ld_kept : kept K (tn_transcript s) (tn_transcript s');
  ld_round : tn_round s' = tn_round s;
  ld_left : ∀ m, (left_over m s' ≤ left_over m s)%N;
}.

#[local] Instance lead_preorder : PreOrder lead.
Proof.
  split; [by intros s|]. intros s1 s2 s3 [W1 K1 R1 L1] [W2 K2 R2 L2]. split; [auto|by etrans|congruence|].
  intros m. etrans; [apply L2|apply L1].
Qed.

(** What is published between two states whose counters agree. *)
Lemma carry_within cuts s s' : carry cuts s s' → within s →
  (N.of_nat (count is_cut (tn_emitted s) + cuts) ≤ tn_threshold_compactions s + N.b2n (tn_overflow_compacted s))%N → within s'.
Proof.
  intros [Hc Hw _ (es & He & Hr & Hx & Hu)] [W1 W2 W3 W4 W5 W6] Hroom. unfold counters in Hc. injection Hc as H1 H2 H3 H4 H5 H6.
  split; rewrite ?H2, ?H6, ?H5, ?Hw, ?He, ?count_app, ?Hr, ?Hx; rewrite ?Nat.add_0_r; try done; [lia|].
  apply Forall_app. split; [done|by apply no_retry_bounded].
Qed.

Lemma carry_left cuts s s' m : carry cuts s s' → left_over m s' = left_over m s ∧ tn_round s' = tn_round s.
Proof. intros [Hc _ _ _]. unfold counters in Hc. injection Hc as H1 H2 H3 H4 H5 H6. unfold left_over. by rewrite H1, H2, H4, H5, H6. Qed.

Lemma carry_lead s s' : carry 0 s s' → lead s s'.
Proof.
  intros H. split; [|apply H|apply (carry_left 0 s s' 0 H)|intros m; by rewrite (proj1 (carry_left 0 s s' m H))].
  intros Hw. eapply carry_within; [done|done|]. rewrite Nat.add_0_r. apply Hw.
Qed.

Lemma lead_try_compact s tr s' cut : try_compact cfg supply s tr = (s', cut) →
  lead s s' ∧ (cut = true → ∀ m, (left_over m s' < left_over m s)%N).
Proof.
  unfold try_compact. destruct (negb _); [by intros [= <- <-]|].
  destruct (N.leb_spec max_threshold_compactions (tn_threshold_compactions s)) as [|Hlt];
    [intros [= <- <-]; split; [by apply carry_lead, carry_warn|done]|].
  destruct (tripped _); [intros [= <- <-]; split; [by apply carry_lead, carry_warn|done]|].
  intros E. set (s0 := set_threshold s (tn_threshold_compactions s + 1)) in *.
  pose proof (carry_compact s0 (tr_compaction tr)) as Hc. rewrite E in Hc. simpl in Hc.
  assert (∀ m, (left_over m s' < left_over m s)%N) as Hl.
  { intros m. rewrite (proj1 (carry_left 1 s0 s' m Hc)). unfold left_over, s0, max_threshold_compactions in *; simpl. lia. }
  split; [split|done]; [|apply Hc|apply (carry_left 1 s0 s' 0 Hc)|intros m; specialize (Hl m); lia].
  intros [W1 W2 W3 W4 W5 W6]. eapply carry_within; [done|split; simpl; try done; lia|simpl; lia].
Qed.

Lemma lead_warn_once s usage : lead s (warn_once s usage).
Proof.
  unfold warn_once, warning. destruct (rl_warned (tn_ruler s)) eqn:Ew; simpl; [by apply carry_lead, carry_ruler|].
  destruct (_ || _); simpl; [by apply carry_lead, carry_ruler|].
  split; [|by apply kept_apply; intros id ?%elem_of_nil|done|done].
  intros [W1 W2 W3 W4 W5 W6]. rewrite Ew in W5. simpl in W5.
  split; simpl; rewrite ?count_app; unfold count in *; simpl; rewrite ?Nat.add_0_r; try done; [lia|].
  apply Forall_app. split; [done|by constructor].
Qed.

Lemma lead_assemble_request s tr : lead s (assemble_request cfg supply s tr).1.
Proof.
  unfold assemble_request. destruct (negb _); [done|].
  set (s1 := match tr_gathered tr with Some _ => _ | None => _ end).
  assert (carry 0 s s1) as H1 by (unfold s1; destruct (tr_gathered tr); [apply carry_contribute|done]).
  transitivity (record_report cfg supply s1 (tr_compose_notices tr)); [by apply carry_lead; etrans; [|apply carry_report]|].
  set (s2 := record_report _ _ s1 _). destruct (tr_composed tr) as [estimate|]; [|done].
  destruct (measure_context _ _ _) as [r usage] eqn:Em.
  assert (rl_warned r = rl_warned (tn_ruler s2)) as Hr by (by rewrite <- (measure_warned (tn_ruler s2) estimate (tr_parts tr)), Em).
  destruct (recount cfg r tr) as [r'|] eqn:Er; simpl; [|by apply carry_lead, carry_ruler].
  etrans; [|apply lead_warn_once]. apply carry_lead, carry_ruler. rewrite <- Hr. unfold recount in Er. by repeat case_match; simplify_eq.
Qed.

Lemma lead_assemble s tr s' out : assemble cfg supply s tr = (s', out) →
  lead s s' ∧ (out = Some AsCompacted → ∀ m, (left_over m s' < left_over m s)%N).
Proof.
  unfold assemble. pose proof (lead_assemble_request s tr) as H1. destruct (assemble_request cfg supply s tr) as [s1 usage]. simpl in H1.
  destruct usage as [usage|]; [|by intros [= <- <-]]. destruct (_ && _); [|by intros [= <- <-]].
  destruct (try_compact cfg supply s1 tr) as [s2 cut] eqn:E2. intros [= <- <-].
  destruct (lead_try_compact s1 tr s2 cut E2) as [H2 Hlt]. split; [by etrans|].
  intros Hcut m. destruct cut; simplify_eq. specialize (Hlt eq_refl m). pose proof (ld_left _ _ H1 m). lia.
Qed.

(** *** One round trip *)

(** What the endpoint and the round bring does not reuse an id of [K], and the
    walk over the calls is a walk of [Round]. *)
Record fair (tr : Trip) : Prop := mk_fair {
  fair_ids : match tr_established tr with EsStream arrivals _ _ => ∀ id, id ∈ minted arrivals → ¬ K id | _ => True end;
  fair_walk : ∀ calls t, rtc walk_step (walk_new calls t) (tr_walk tr calls t);
}.

Record stepped (s s' : Turn) (step : TurnStep) : Prop := mk_stepped {
  sp_within : within s → within s';
  sp_kept : kept K (tn_transcript s) (tn_transcript s');
  sp_left : step = Assembling → ∀ m, (tn_round s < m)%N → (m < 2 ^ 32)%N → (left_over m s' < left_over m s)%N;
}.

Lemma lead_stepped s s1 s2 step : lead s s1 → stepped s1 s2 step → stepped s s2 step.
Proof.
  intros [W1 K1 R1 L1] [W2 K2 L2]. split; [auto|by etrans|]. intros Hs m Hr Hm. rewrite <- R1 in Hr.
  specialize (L2 Hs m Hr Hm). specialize (L1 m). lia.
Qed.

Lemma closing_stepped s s' status : lead s s' → stepped s s' (Closing status).
Proof. intros [? ? ? ?]. by split. Qed.

Lemma interrupted_stepped s tr s' step : interrupted_turn cfg supply s tr = (s', step) → stepped s s' step.
Proof. intros [= <- <-]. apply closing_stepped, carry_lead, carry_record. Qed.

Lemma next_round_stepped s s1 : lead s s1 → stepped s (set_round s1 (u32_add (tn_round s1) 1)) Assembling.
Proof.
  intros H. apply (lead_stepped _ _ _ _ H). split; [by intros [? ? ? ? ? ?]; split|done|]. intros _ m Hr Hm.
  unfold left_over; simpl. unfold u32_add. rewrite wrap_small by lia. lia.
Qed.

Lemma lead_stream_leg s tr s' out : fair tr → stream_leg cfg supply parse_json hash_order s tr = (s', out) →
  lead s s' ∧ match out with
              | SDone f => ∀ id, id ∈ (fs_tool_calls f).*1 → ¬ K id
              | SFailed _ dropped => ∀ id, id ∈ dropped → ¬ K id
              | SCancelled => True
              end.
Proof.
  intros [Hids _]. unfold stream_leg. pose proof (carry_lead _ _ (carry_report s (tr_model_notices tr))) as H1.
  set (s1 := record_report _ _ s _) in *.
  destruct (tr_established tr) as [arrivals token now| | |]; try (intros [= <- <-]; split; [done|]; by intros id ?%elem_of_nil).
  - destruct (stream _ _ _ _ _ _ _ _ _) as [t out'] eqn:E. intros [= <- <-].
    destruct (kept_stream K _ _ _ _ _ _ _ _ _ _ _ Hids E) as [Hk Hout]. split; [|done].
    etrans; [exact H1|]. by apply carry_lead, carry_same.
  - by intros [= <- <-].
Qed.

(** Announcing a retry once a counter was moved for it. *)
Lemma announced_within s error dropped delay (s' := announce_retry cfg s error dropped delay) :
  (tn_retries s ≤ tb_max_retries (tc_budget cfg))%N → (tn_threshold_compactions s ≤ max_threshold_compactions)%N →
  (N.of_nat (count is_retry (tn_emitted s)) + 1 = tn_retries s + N.b2n (tn_overflow_compacted s))%N →
  (N.of_nat (count is_cut (tn_emitted s)) ≤ tn_threshold_compactions s + N.b2n (tn_overflow_compacted s))%N →
  (N.of_nat (count is_context_warning (tn_emitted s)) ≤ N.b2n (rl_warned (tn_ruler s)))%N →
  Forall delay_bounded (tn_emitted s) → (delay ≤ max_server_retry_delay)%N → within s'.
Proof.
  intros H1 H2 H3 H4 H5 H6 H7. split; simpl; rewrite ?count_app; unfold count in *; simpl; rewrite ?Nat.add_0_r; try done; [lia|].
  apply Forall_app. split; [done|]. by repeat constructor.
Qed.

Lemma retried_stepped s tr error dropped s' step : (∀ id, id ∈ dropped → ¬ K id) →
  retried_or_failed cfg supply s tr error dropped = (s', step) → stepped s s' step.
Proof.
  intros Hd. unfold retried_or_failed.
  destruct (retryable error && (tn_retries s <? tb_max_retries (tc_budget cfg))%N) eqn:E;
    [|intros [= <- <-]; by apply closing_stepped]. bools. match goal with H : (_ <? _)%N = true |- _ => apply N.ltb_lt in H as Hlt end.
  set (s1 := announce_retry _ _ _ _ _).
  assert (stepped s s1 Assembling) as H1.
  { split; [|by apply kept_apply|intros _ m _ _; unfold left_over; simpl; lia].
    intros [W1 W2 W3 W4 W5 W6]. apply announced_within; simpl; try done; try lia. apply backoff_bound. }
  destruct (tr_slept tr); [by intros [= <- <-]|]. intros E. pose proof (interrupted_stepped _ _ _ _ E) as [W2 K2 _].
  destruct H1 as [W1 K1 _]. injection E as <- <-. split; [auto|by etrans|done].
Qed.

Lemma lead_learn s window : lead s (learn_window cfg s window).
Proof. destruct window; [|done]. apply carry_lead, carry_emit; [by intros id ?%elem_of_nil|done..]. Qed.

Lemma failed_stepped s tr error dropped s' step : (∀ id, id ∈ dropped → ¬ K id) →
  failed_stream cfg supply s tr error dropped = (s', step) → stepped s s' step.
Proof.
  intros Hd. unfold failed_stream. destruct (holds (tn_ruler s)); [by apply retried_stepped|].
  destruct error; try by apply retried_stepped. set (error := PeContextOverflow _).
  set (s1 := learn_window cfg s (tr_learned tr)). intros E. apply (lead_stepped s s1); [apply lead_learn|]. revert E.
  destruct (tn_overflow_compacted s1) eqn:Eo; simpl; [by apply retried_stepped|]. intros [= <- <-].
  set (s2 := announce_retry cfg (use_overflow s1) error dropped 0).
  assert (∀ m, (left_over m s2 < left_over m s1)%N) as Hl by (intros m; unfold left_over; simpl; rewrite Eo; simpl; lia).
  assert (kept K (tn_transcript s1) (tn_transcript s2)) as Hk by by apply kept_apply.
  assert (within s1 → within s2 ∧ (N.of_nat (count is_cut (tn_emitted s2) + 1)
    ≤ tn_threshold_compactions s2 + N.b2n (tn_overflow_compacted s2))%N) as Hw.
  { intros [W1 W2 W3 W4 W5 W6]. rewrite Eo in W3, W4. simpl in W3, W4. split; [apply announced_within; simpl; try done; lia|].
    simpl. rewrite count_app. unfold count in *; simpl. lia. }
  destruct (tc_compactor cfg); [|by split; [intros ?; apply Hw|done|auto]].
  pose proof (carry_compact s2 (tr_compaction tr)) as Hc. split; [|etrans; [exact Hk|apply Hc]|].
  - intros H1. destruct (Hw H1). by eapply carry_within.
  - intros _ m _ _. by rewrite (proj1 (carry_left _ _ _ m Hc)).
Qed.

Lemma lead_account s f usage : lead s (account cfg s f usage).
Proof.
  unfold account. destruct (measured (tn_ruler s) f usage) as [r context] eqn:E.
  apply carry_lead. transitivity (set_ruler s r); [|by apply carry_emit; [intros id ?%elem_of_nil|..]].
  apply carry_ruler. unfold measured, reading in E. by repeat case_match; simplify_eq/=.
Qed.

Lemma stop_stepped s tr s' step : stop_hooks cfg supply s tr = (s', step) → stepped s s' step.
Proof.
  unfold stop_hooks. pose proof (carry_lead _ _ (carry_report s (tr_stop_notices tr))) as H1.
  set (s1 := record_report _ _ s _) in *. intros E. apply (lead_stepped _ _ _ _ H1).
  destruct (tr_stop_hooks tr) as [[[|origin reason]|error]|]; simplify_eq/=; try by apply closing_stepped.
  - apply (next_round_stepped s1 (user_piece cfg supply s1 [PText reason] origin)), carry_lead, carry_record.
  - by eapply interrupted_stepped.
Qed.

Lemma decide_stepped s tr f s' step : decide_response cfg supply s tr f = Some (s', step) → stepped s s' step.
Proof.
  unfold decide_response. destruct (_ && _); [intros [= <- <-]; by apply closing_stepped|].
  destruct (bool_decide (length (fs_items f) = 0)).
  { destruct (tn_empty_retry_used s) eqn:Ee; simpl; intros [= <- <-]; [by apply closing_stepped|].
    split; [by intros [? ? ? ? ? ?]; split|done|]. intros _ m _ _. unfold left_over; simpl. rewrite Ee. simpl. lia. }
  destruct (negb _); [done|]. destruct (_ && _); [|intros [= E]; by apply (stop_stepped _ _ _ _ E)].
  set (s1 := set_recoveries s (tn_recoveries s + 1)). intros [= <- <-].
  apply (next_round_stepped s (user_piece cfg supply s1 [PText continue_prompt] kernel_surface)). transitivity s1; [|apply carry_lead, carry_record].
  by split; [intros [? ? ? ? ? ?]; split|..].
Qed.

Lemma act_stepped s tr f s' step : fair tr → (∀ id, id ∈ (fs_tool_calls f).*1 → ¬ K id) →
  act cfg supply s tr f = (s', step) → stepped s s' step.
Proof.
  intros [_ Hwalk] Hcalls. unfold act. pose proof (kept_round_end K (fs_tool_calls f) Hcalls (tn_transcript s) (tr_walk_end tr).1
    (tr_walk_end tr).2 _ (Hwalk (fs_tool_calls f) (tn_transcript s))) as Hk.
  destruct (round_end _ _ _ _) as [t outcomes]. simpl in Hk. set (s1 := record_report _ _ (set_transcript s t) _).
  assert (lead s s1) as H1.
  { apply carry_lead. transitivity (set_transcript s t); [by apply carry_same|apply carry_report]. }
  intros E. apply (lead_stepped _ _ _ _ H1). revert E.
  destruct (tr_cancelled_acting tr); [by apply interrupted_stepped|].
  destruct (_ || _); [intros [= <- <-]; by apply closing_stepped|].
  pose proof (carry_lead _ _ (carry_barrier s1 tr)) as H2. destruct (barrier cfg supply s1 tr) as [s2 held]. simpl in H2.
  destruct held as [[]|]; intros E; [injection E as <- <-; by apply next_round_stepped|].
  apply (lead_stepped _ _ _ _ H2). by eapply interrupted_stepped.
Qed.

Lemma round_trip_stepped s tr s' step : fair tr →
  round_trip cfg supply parse_json hash_order s tr = (s', step) →
  stepped s s' step ∧ (step = Assembling → spent (tc_budget cfg) (tn_round s) = false).
Proof.
  intros Hfair. unfold round_trip. destruct (tr_cancelled tr).
  { intros E. split; [by eapply interrupted_stepped|]. injection E as _ <-. done. }
  destruct (spent _ _); [intros [= <- <-]; split; [by apply closing_stepped|done]|]. intros E. split; [|done]. revert E.
  destruct (assemble cfg supply s tr) as [s1 out] eqn:Ea. destruct (lead_assemble s tr s1 out Ea) as [H1 Hlt].
  destruct out as [[usage|]|]; [|intros [= <- <-]; split; [apply H1|apply H1|by intros _ m _ _; apply Hlt]
    |intros E; apply (lead_stepped _ _ _ _ H1); by eapply interrupted_stepped].
  destruct (stream_leg cfg supply parse_json hash_order s1 tr) as [s2 streamed] eqn:Es.
  destruct (lead_stream_leg s1 tr s2 streamed Hfair Es) as [H2 Hout]. intros E.
  apply (lead_stepped s s2); [by etrans|]. destruct streamed as [f|error dropped|].
  - apply (lead_stepped _ _ _ _ (lead_account s2 f usage)).
    destruct (decide_response _ _ _ _ _) as [[s3 step']|] eqn:Ed; [injection E as <- <-; by eapply decide_stepped|by eapply act_stepped].
  - by eapply failed_stepped.
  - by eapply interrupted_stepped.
Qed.

(** *** The whole turn *)

Lemma respond_stepped trips s s' status : Forall fair trips →
  respond cfg supply parse_json hash_order s trips = Some (s', status) →
  (within s → within s') ∧ kept K (tn_transcript s) (tn_transcript s').
Proof.
  revert s. induction trips as [|tr trips IH]; intros s Hf; simpl; [done|]. apply Forall_cons in Hf as [Ht Hf].
  destruct (round_trip _ _ _ _ s tr) as [s1 step] eqn:E. destruct (round_trip_stepped s tr s1 step Ht E) as [[W1 K1 _] _].
  destruct step; [|by intros [= <- <-]]. intros Hr. destruct (IH s1 Hf Hr) as [W2 K2]. split; [auto|by etrans].
Qed.

Lemma respond_closes m trips s : tb_max_rounds (tc_budget cfg) = Some m → (m < 2 ^ 32)%N → Forall fair trips →
  (left_over m s < N.of_nat (length trips))%N →
  ∃ s' status, respond cfg supply parse_json hash_order s trips = Some (s', status).
Proof.
  intros Hb Hm. revert s. induction trips as [|tr trips IH]; intros s Hf Hl; [simpl in Hl; lia|].
  apply Forall_cons in Hf as [Ht Hf]. simpl. destruct (round_trip _ _ _ _ s tr) as [s1 step] eqn:E.
  destruct (round_trip_stepped s tr s1 step Ht E) as [[_ _ L1] Hsp]. destruct step; [|by eauto].
  apply IH; [done|]. unfold spent in Hsp. rewrite Hb in Hsp. specialize (Hsp eq_refl). apply N.leb_gt in Hsp.
  specialize (L1 eq_refl m Hsp Hm). simpl in Hl. lia.
Qed.

Lemma kept_compact_run s tr s' status : compact_run cfg supply s tr = (s', status) →
  kept K (tn_transcript s) (tn_transcript s').
Proof.
  unfold compact_run. destruct (negb _); [by intros [= <- <-]|].
  pose proof (lead_assemble_request s tr) as [_ H1 _ _]. destruct (assemble_request cfg supply s tr) as [s1 usage]. simpl in H1.
  destruct usage as [usage|]; [|intros [= <- <-]; etrans; [exact H1|apply carry_record]].
  pose proof (carry_compact s1 (tr_compaction tr)) as [_ _ H2 _].
  destruct (compact cfg supply s1 (tr_compaction tr)) as [s2 compacted]. simpl in H2.
  destruct (tr_cancelled_acting tr); intros [= <- <-]; (etrans; [exact H1|etrans; [exact H2|]]); [apply carry_record|].
  destruct compacted; [|done]. unfold measure_compacted. destruct (measure_context _ _ _) as [r context].
  apply kept_apply. by intros id ?%elem_of_nil.
Qed.

Lemma run_turn_kept r trips s s' status : Forall fair trips →
  run_turn cfg supply parse_json hash_order r s trips = Some (s', status) →
  kept K (tn_transcript s) (tn_transcript s').
Proof.
  intros Hf. assert (∀ s0 at_ s1 st, Some (interrupted_status cfg supply s0 at_) = Some (s1, st) →
    kept K (tn_transcript s0) (tn_transcript s1)) as Hi by (intros s0 at_ s1 st [= <- <-]; apply carry_record).
  unfold run_turn. destruct (negb _); [apply Hi|]. destruct (negb _); [by intros [= <- <-]|].
  destruct (rn_late r) as [shadowed|]; [|apply Hi]. set (s1 := foldl _ s shadowed). intros E.
  transitivity (tn_transcript s1); [apply carry_foldl; intros; by apply carry_warn|]. revert E.
  destruct (negb _); [apply Hi|]. destruct (rn_kind r); [intros E; by eapply respond_stepped|].
  destruct trips as [|tr trips]; [done|]. intros [= E]. by eapply kept_compact_run.
Qed.
End carrying.

(** ** Interruptions *)

Section interrupting.
Context (cfg : TurnCfg) (supply : nat → ItemId * Timestamp).
Context (parse_json : str → result str Value) (hash_order : gmap str Open → list str).

(** The turn ends with the marker of a stopped turn, and nothing after it. *)
Definition marked (s : Turn) (status : TurnStatus) : Prop :=
  ∀ reason, status = TurnInterrupted reason →
  reason = UserCancel ∧ ∃ item asked_at, last (tn_emitted s) = Some (ItemCompleted item)
    ∧ item_body item = BInterruption turn_interrupted_marker asked_at ∧ item_turn item = Some (tc_turn cfg)
    ∧ is_terminal item = true.

Lemma interrupted_marked s at_ : marked (interrupted_status cfg supply s at_).1 (interrupted_status cfg supply s at_).2.
Proof. intros reason [= <-]. split; [done|]. eexists _, at_. split_and!; [apply last_snoc|done..]. Qed.

Definition step_marked (out : Turn * TurnStep) : Prop :=
  match out.2 with Closing status => marked out.1 status | Assembling => True end.

Lemma interrupted_step s tr : step_marked (interrupted_turn cfg supply s tr).
Proof. apply interrupted_marked. Qed.

#[local] Hint Resolve interrupted_step : core.

Lemma retried_marked s tr error dropped : step_marked (retried_or_failed cfg supply s tr error dropped).
Proof. unfold retried_or_failed. repeat case_match; try done. Qed.

Lemma round_trip_marked s tr : step_marked (round_trip cfg supply parse_json hash_order s tr).
Proof.
  unfold round_trip. destruct (tr_cancelled tr); [done|]. destruct (spent _ _); [done|].
  destruct (assemble _ _ _ _) as [s1 [[usage|]|]]; [|done..]. destruct (stream_leg _ _ _ _ _ _) as [s2 [f|error dropped|]]; [| |done].
  - destruct (decide_response _ _ _ _ _) as [out|] eqn:E.
    + unfold decide_response, stop_hooks in E. by repeat case_match; simplify_eq.
    + unfold act. by repeat case_match.
  - unfold failed_stream. repeat case_match; try done; apply retried_marked.
Qed.

Lemma respond_marked trips s s' status : respond cfg supply parse_json hash_order s trips = Some (s', status) → marked s' status.
Proof.
  revert s. induction trips as [|tr trips IH]; intros s; [done|]. simpl. pose proof (round_trip_marked s tr) as H.
  destruct (round_trip _ _ _ _ s tr) as [s1 [|st]]; [apply IH|]. intros [= <- <-]. exact H.
Qed.
End interrupting.

(** ** Claims *)

(** C12: a turn comes to an end.  With rounds bounded, whatever the endpoint,
    the hooks, the tools and the person do, it closes within as many round trips
    as there are rounds and retries, and five more (two threshold compactions,
    one overflow, one empty response, and the trip that finds the budget
    spent). *)
Theorem turn_terminates (cfg : TurnCfg) (supply : nat → ItemId * Timestamp)
    (parse_json : str → result str Value) (hash_order : gmap str Open → list str)
    (breaker : N) (ruler : Ruler) (t : Transcript) (m : N) (trips : list Trip)
  (Hrounds : tb_max_rounds (tc_budget cfg) = Some m) (Hm : (m < 2 ^ 32)%N)
  (Hwalks : Forall (fair (λ _, False)) trips)
  (Hmany : (m + tb_max_retries (tc_budget cfg) + 5 ≤ N.of_nat (length trips))%N) :
  ∃ s status, respond cfg supply parse_json hash_order (turn_new breaker ruler t) trips = Some (s, status).
Proof.
  apply (respond_closes cfg supply parse_json hash_order (λ _, False) ltac:(tauto) m); [done|done|done|].
  unfold left_over, max_threshold_compactions. simpl. lia.
Qed.

(** C40: a turn spends no more than it may.  Whatever it meets, it announces at
    most the retries its budget allows and one more for an overflow, each of
    them waiting at most a minute; it cuts the context at most three times and
    warns about the window at most once. *)
Theorem turn_spends_within_budget (cfg : TurnCfg) (supply : nat → ItemId * Timestamp)
    (parse_json : str → result str Value) (hash_order : gmap str Open → list str)
    (breaker : N) (ruler : Ruler) (t : Transcript) (trips : list Trip) (s : Turn) (status : TurnStatus)
  (Hwalks : Forall (fair (λ _, False)) trips)
  (Hrun : respond cfg supply parse_json hash_order (turn_new breaker ruler t) trips = Some (s, status)) :
  (N.of_nat (count is_retry (tn_emitted s)) ≤ tb_max_retries (tc_budget cfg) + 1)%N
  ∧ count is_cut (tn_emitted s) ≤ 3
  ∧ count is_context_warning (tn_emitted s) ≤ 1
  ∧ Forall delay_bounded (tn_emitted s).
Proof.
  destruct (respond_stepped cfg supply parse_json hash_order (λ _, False) ltac:(tauto) _ _ _ _ Hwalks Hrun) as [Hw _].
  destruct Hw as [W1 W2 W3 W4 W5 W6]; [split; simpl; unfold max_threshold_compactions, count; simpl; try done; lia|].
  unfold max_threshold_compactions in *. destruct (tn_overflow_compacted s), (rl_warned (tn_ruler s)); simpl in *; split_and!; try done; lia.
Qed.

(** C7: a turn never rewrites what was there before it.  An answer or a
    compaction, however it ends, with retries, withdrawals, cuts and calls in
    between, leaves a well-formed transcript in which every earlier item is
    still there, unchanged. *)
Theorem turn_keeps_history (cfg : TurnCfg) (supply : nat → ItemId * Timestamp)
    (parse_json : str → result str Value) (hash_order : gmap str Open → list str)
    (breaker : N) (ruler : Ruler) (t : Transcript) (run : TurnOpening) (trips : list Trip) (s : Turn) (status : TurnStatus)
  (Hwf : transcript_wf t) (Hsupply : ∀ n, (supply n).1 ∉ ids_of (t_items t))
  (Hfair : Forall (fair (λ id, id ∈ ids_of (t_items t))) trips)
  (Hrun : run_turn cfg supply parse_json hash_order run (turn_new breaker ruler t) trips = Some (s, status)) :
  transcript_wf (tn_transcript s)
  ∧ ∀ item, item ∈ t_items t → get (tn_transcript s) (item_id item) = Some item.
Proof.
  pose proof (run_turn_kept cfg supply parse_json hash_order _ Hsupply run trips _ _ _ Hfair Hrun) as Hk.
  assert (∀ item, item ∈ t_items t → get t (item_id item) = Some item) as Hget by (intros item Hin; by apply get_spec).
  destruct Hk as [Hwf' Hsame].
  - split; [done|]. intros id (item & -> & Hin)%list_elem_of_fmap. eexists. by apply Hget.
  - split; [done|]. intros item Hin. rewrite Hsame; [by apply Hget|by apply list_elem_of_fmap_2].
Qed.

(** one keypress, one ending.  A turn that ends interrupted ends so because
    a person stopped it, and the last thing it publishes is the interruption
    marker, a finished item of this turn. *)
Theorem interruption_is_marked (cfg : TurnCfg) (supply : nat → ItemId * Timestamp)
    (parse_json : str → result str Value) (hash_order : gmap str Open → list str)
    (breaker : N) (ruler : Ruler) (t : Transcript) (run : TurnOpening) (trips : list Trip) (s : Turn) (status : TurnStatus)
  (Hrun : run_turn cfg supply parse_json hash_order run (turn_new breaker ruler t) trips = Some (s, status)) :
  marked cfg s status.
Proof.
  unfold run_turn in Hrun. set (s0 := turn_new breaker ruler t) in *.
  assert (∀ s1 at_, Some (interrupted_status cfg supply s1 at_) = Some (s, status) → marked cfg s status) as Hi.
  { intros s1 at_ [= <- <-]. apply (interrupted_marked cfg supply s1 at_). }
  destruct (negb _); [by eapply Hi|]. destruct (negb _); [by simplify_eq|].
  destruct (rn_late run) as [shadowed|]; [|by eapply Hi]. destruct (negb _); [by eapply Hi|].
  destruct (rn_kind run); [by eapply respond_marked|]. destruct trips as [|tr trips]; [done|].
  unfold compact_run in Hrun. destruct (negb _); [by simplify_eq|].
  destruct (assemble_request _ _ _ _) as [s1 [usage|]]; [|by eapply Hi].
  destruct (compact _ _ _ _) as [s2 cut]. destruct (tr_cancelled_acting tr); [by eapply Hi|]. by simplify_eq.
Qed.

(** ** Witnesses *)

(** The demo turn: a first response fails with an overflow after one item, a
    cut follows, then the answer. *)
Definition demo_digit (n : nat) : str := (fun _ => 120%N) <$> seq 0 (S n).
Definition demo_supply (n : nat) : ItemId * Timestamp := (lit "m" ++ demo_digit n, 5%Z).
Definition demo_cfg : TurnCfg := mkTurnCfg (lit "t9") (mkTurnBudget (Some 2%N) 1) [] true false (lit "p") (lit "m").
Definition demo_history : Transcript := demo_transcript.
Definition demo_cancel_walk (calls : list (ItemId * ToolCall)) (t : Transcript) : Walk := mkWalk calls None [] [] t true.

Definition demo_trip (established : Established) : Trip :=
  mkTrip false true (Some (Some (mkGathered [(lit "notes", [PText (lit "n")])] []))) [] (Some 100%N) None None
    (CaAnswered [] false 7 (Ok (mkCompaction (lit "sum") (lit "i1") [] 9 4 usage_default)))
    [] established None true false [] (Some (Ok StopComplete)) demo_cancel_walk (6%Z, 0%N) [] false true false
    (Some []) (Some (mkGathered [] [])) 0 None.

Definition demo_arrivals (n : str) : list Arrival :=
  [Arrived (n ++ lit "a") 3 (TextStart (lit "0")); Arrived (n ++ lit "b") 3 (TextDelta (lit "0") (lit "hi"))].
Definition demo_trips : list Trip :=
  [demo_trip (EsStream (demo_arrivals (lit "x") ++ [ArrivedErr (PeContextOverflow (lit "too long"))]) false 3);
   demo_trip (EsStream (demo_arrivals (lit "y")
     ++ [Arrived (lit "yc") 3 (TextEnd (lit "0")); Arrived (lit "yd") 3 (FinishEvent usage_default (mkFinishReason FinStop None)); ArrivedEnd]) false 4)].
Definition demo_start : Turn := turn_new 0 (ruler_new 200000 1000 false) demo_history.

Lemma demo_walk_cancels calls t : rtc walk_step (walk_new calls t) (demo_cancel_walk calls t).
Proof. apply rtc_once. apply (step_cancel (walk_new calls t)). Qed.

Lemma demo_fair (K : ItemId → Prop) `{∀ id, base.Decision (K id)} established :
  match established with EsStream arrivals _ _ => forallb (λ id, negb (bool_decide (K id))) (minted arrivals) = true | _ => True end →
  fair K (demo_trip established).
Proof.
  intros Hk. split; simpl; [|apply demo_walk_cancels]. destruct established; try done.
  intros id Hid HK. rewrite forallb_forall in Hk. specialize (Hk id (proj1 (list_elem_of_In _ _) Hid)).
  by rewrite bool_decide_eq_true_2 in Hk.
Qed.

Lemma turn_terminates_witness :
  ∃ s status, respond demo_cfg demo_supply demo_parse_json demo_keys demo_start (replicate 8 (demo_trip (EsFailed PeTimeout)))
              = Some (s, status).
Proof.
  apply (turn_terminates demo_cfg demo_supply demo_parse_json demo_keys 0 (ruler_new 200000 1000 false) demo_history 2
    (replicate 8 (demo_trip (EsFailed PeTimeout))));
    [reflexivity|reflexivity| |vm_compute; discriminate]. by apply Forall_replicate, (demo_fair (λ _, False)).
Defined.

Lemma turn_spends_within_budget_witness :
  ∃ s status, respond demo_cfg demo_supply demo_parse_json demo_keys demo_start demo_trips = Some (s, status)
              ∧ count is_cut (tn_emitted s) ≤ 3.
Proof.
  destruct (respond demo_cfg demo_supply demo_parse_json demo_keys demo_start demo_trips) as [[s status]|] eqn:E;
    [|vm_compute in E; discriminate]. exists s, status. split; [done|].
  apply (turn_spends_within_budget demo_cfg demo_supply demo_parse_json demo_keys 0 (ruler_new 200000 1000 false) demo_history
    demo_trips s status); [|exact E]. repeat constructor; by apply (demo_fair (λ _, False)).
Defined.

Definition demo_run (kind : TurnKind) : TurnOpening := mkTurnOpening true true (Some [lit "Read"]) true kind None.

Lemma turn_keeps_history_witness :
  ∃ s, run_turn demo_cfg demo_supply demo_parse_json demo_keys (demo_run TkRespond) demo_start demo_trips = Some (s, TurnDone)
       ∧ get (tn_transcript s) (lit "i1") = Some (demo_item (lit "i1") (Some (lit "t1")) Completed (lit "a")).
Proof.
  destruct (run_turn demo_cfg demo_supply demo_parse_json demo_keys (demo_run TkRespond) demo_start demo_trips) as [[s status]|] eqn:E;
    [|vm_compute in E; discriminate].
  assert (status = TurnDone) as -> by (vm_compute in E; congruence). exists s. split; [done|].
  apply (turn_keeps_history demo_cfg demo_supply demo_parse_json demo_keys 0 (ruler_new 200000 1000 false) demo_history
    (demo_run TkRespond) demo_trips s TurnDone demo_transcript_wf) with (item := demo_item (lit "i1") (Some (lit "t1")) Completed (lit "a")).
  - intros n. vm_compute. intros Hin. repeat (apply elem_of_cons in Hin as [Hin|Hin]; [discriminate|]). by apply elem_of_nil in Hin.
  - repeat constructor; by apply (demo_fair (λ id, id ∈ ids_of (t_items demo_history))); vm_compute.
  - exact E.
  - vm_compute. apply elem_of_cons. by left.
Defined.

Lemma interruption_is_marked_witness :
  ∃ s, run_turn demo_cfg demo_supply demo_parse_json demo_keys (demo_run TkCompact) demo_start [demo_trip EsCancelled]
         = Some (s, TurnInterrupted UserCancel) ∧ marked demo_cfg s (TurnInterrupted UserCancel).
Proof.
  destruct (run_turn demo_cfg demo_supply demo_parse_json demo_keys (demo_run TkCompact) demo_start [demo_trip EsCancelled])
    as [[s status]|] eqn:E; [|vm_compute in E; discriminate].
  assert (status = TurnInterrupted UserCancel) as -> by (vm_compute in E; congruence). exists s. split; [done|].
  apply (interruption_is_marked demo_cfg demo_supply demo_parse_json demo_keys 0 (ruler_new 200000 1000 false) demo_history
    (demo_run TkCompact) [demo_trip EsCancelled] s (TurnInterrupted UserCancel) E).
Defined.
