(* ===== verification/Session.v ===== *)
(** * Session: the actor and its mailbox

    [bingo-core/src/session.rs] ([dispatch] and the handlers it calls),
    [session/inputs.rs], [session/gate.rs], [session/catalogue.rs],
    [session/running.rs] and the bookkeeping of [session/commands.rs].  One
    message at a time moves the hub of [Hub], through the handlers of [Asks] and
    the queue of [Queue]; tasks the actor starts (a turn, a command, the plugins'
    gate) come back as messages of their own, in any order.  What such a task
    decides is the content of its message; calls handed into a running turn from
    outside ([session/invoke.rs]) are kept to their item's three messages. *)

From S2P Require Import Prelude Text Model Interaction Event Transcript State Tree Recovery Queue Gate Commands Stream Round Store Hub Asks.

(** What the actor takes from outside itself: the clock, the order of a hash
    map, minted ids, the clock's addition, the configuration as its policy would
    state it, whether links rewrite events, whether a model answers and which
    endpoint keeps its own context, whether the host is still there, who drew the
    views it shows, and an answer as JSON. *)
Record World := mkWorld {
  w_clock : nat → Timestamp;
  w_order : gmap str PendingAsk → list str;
  w_interaction : nat → str;
  w_item : nat → str;
  w_turn : nat → str;
  w_add : Timestamp → Z → option Timestamp;
  w_view : nat → ConfigView;
  w_config_eqb : ConfigView → ConfigView → bool;
  w_links : bool;
  w_answers : bool;
  w_holder : option str;      (** the endpoint that holds the context itself *)
  w_host : bool;
  w_drawings : nat → Drawings;     (** who drew which view *)
  w_answer : Answer → Value;       (** what serde makes of an answer *)
}.

(** ** The input gate *)

Definition gate_busy (g : InputGate) : bool :=
  bool_decide (is_Some (ig_flight g)) || negb (bool_decide (length (ig_waiting g) = 0)).

Definition goes_first (k : InputKind) : bool := match k with KQueued | KProse => true | _ => false end.
Definition gate_push (g : InputGate) (w : GateWaiting) : InputGate :=
  mkInputGate (if goes_first (wg_kind w) then w :: ig_waiting g else ig_waiting g ++ [w]) (ig_flight g).

(** [InputGate::finish]: whether the input in flight was cancelled. *)
Definition gate_finish (g : InputGate) (intent : IntentId) : InputGate * option bool :=
  match ig_flight g with
  | Some f => if bool_decide (fl_intent f = intent) then (mkInputGate (ig_waiting g) None, Some (fl_cancelled f)) else (g, None)
  | None => (g, None)
  end.

Definition gate_drain (g : InputGate) : InputGate * list IntentId :=
  (mkInputGate [] None, option_list (fl_intent <$> ig_flight g) ++ (wg_intent <$> ig_waiting g)).

Definition gate_interrupt (g : InputGate) : InputGate * option IntentId :=
  match ig_flight g with
  | Some f => (mkInputGate (ig_waiting g) (Some (mkGateFlight (fl_intent f) true)), Some (fl_intent f))
  | None => (g, None)
  end.

(** ** Commands *)

(** [Commands::interrupt]. *)
Definition commands_interrupt (c : Commands) : Commands * option IntentId :=
  match cm_holding c with
  | None => (c, None)
  | Some intent =>
      match cm_inflight c !! intent with
      | None => (c, None)
      | Some run => (mkCommands (<[intent := mkCommand (cm_invocation run) (cm_vouched run) true]> (cm_inflight c)) (cm_holding c), Some intent)
      end
  end.

(** [Commands::spawn]'s table, and [Commands::finish]: the run and whether it held the
    queue; it vouches for the answer only when the answer is the command's [own]. *)
Definition commands_spawn (c : Commands) (intent : IntentId) (invocation : Invocation) (vouched : option str) (holds : bool) : Commands :=
  mkCommands (<[intent := mkCommand invocation vouched false]> (cm_inflight c)) (if holds then Some intent else cm_holding c).

Definition commands_finish (c : Commands) (intent : IntentId) (own : bool) : Commands * option (Invocation * bool * option str) :=
  let held := bool_decide (cm_holding c = Some intent) in
  (mkCommands (delete intent (cm_inflight c)) (if held then None else cm_holding c),
   (fun run => (cm_invocation run, held, if own then cm_vouched run else None)) <$> cm_inflight c !! intent).

Inductive Scope := ScopeHead | ScopeTurn (turn : TurnId).
(** How a turn's task ended; what it returned has its status and its items. *)
Inductive Ended := Returned (status : TurnStatus) | Panicked (message : str) | Dropped.
(** A turn's completion as the links left it: its status, usage and notices. *)
Record Completed := mkCompleted { cp_turn : TurnId; cp_status : TurnStatus; cp_usage : Usage; cp_notices : list ItemBody }.

Inductive Flow := Continue | Stop.

Definition turn_stopped_marker : str := lit "[Request interrupted by user]".

Section session.
Context {St : Type} `{SessionStore St} (w : World).

Abbreviation tell := (tell (w_clock w) (w_order w)).
Abbreviation reject_ := (reject_intent (w_clock w) (w_order w)).
Abbreviation applied_ := (applied (w_clock w) (w_order w)).
Abbreviation record_for := (record_for (w_clock w) (w_order w) (w_item w) (w_view w) (w_config_eqb w) (w_links w)).
Abbreviation refresh := (refresh_config (w_clock w) (w_order w) (w_view w) (w_config_eqb w) (w_links w)).
Abbreviation Act := (@Act St).
Notation "m ;; k" := (abind m (fun _ => k)) (at level 100, k at level 200, right associativity).
Notation "x <- m ;; k" := (abind m (fun x => k)) (at level 100, m at next level, k at level 200, right associativity).

Definition set_bench_of (f : Bench → Bench) : Act () := update (fun h => set_bench h (f (hb_bench h))).
Definition busy (h : Hub St) : bool :=
  bool_decide (is_Some (dk_running (hb_bench h))) || commands_busy (dk_commands (hb_bench h)).
Definition closed_or_closing (h : Hub St) : bool :=
  st_closed (hb_state h) || bool_decide (is_Some (dk_closing (hb_bench h))).

Definition closed_reject (intent : IntentId) : Act () :=
  reject_ intent SessionClosedCode (lit "the session is closed").

(** *** Inputs through the gate *)

(** [start_gate]: the next input goes to the plugins, on a task of its own. *)
Definition start_gate (h : Hub St) : Hub St :=
  let g := dk_gate (hb_bench h) in
  if bool_decide (is_Some (ig_flight g)) || closed_or_closing h then h
  else match ig_waiting g with
       | [] => h
       | x :: rest => set_bench h (with_gate (mkInputGate rest (Some (mkGateFlight (wg_intent x) false))) (hb_bench h))
       end.

Definition gate_input (intent : IntentId) (input : Input) (kind : InputKind) : Act () := update (fun h =>
  start_gate (set_bench h (with_gate (gate_push (dk_gate (hb_bench h)) (mkGateWaiting intent input kind)) (hb_bench h)))).

Definition submit (intent : IntentId) (input : Input) : Act () := fun h =>
  if closed_or_closing h then closed_reject intent h else gate_input intent input KSubmit h.

(** *** The queue *)

Definition set_queue (q : Queue) : Act () := set_bench_of (with_queue q).

(** The queue is announced, at its next revision. *)
Definition announce_queue : Act () := fun h =>
  let '(q, event) := changed (dk_queue (hb_bench h)) in (set_queue q;; tell event None) h.

Definition enqueue (intent : IntentId) (input : Pending) : Act () := fun h =>
  let '(q, position) := push (dk_queue (hb_bench h)) intent input in
  (set_queue q;; announce_queue;; tell (IntentAck intent (OutQueued position)) (Some intent)) h.

Definition queue_moved (taken : list (IntentId * Input)) : Act (list (IntentId * Input)) :=
  match taken with [] => aret taken | _ :: _ => announce_queue;; aret taken end.
Definition take_queue : Act (list (IntentId * Input)) := fun h =>
  let '(q, taken) := take_prose (dk_queue (hb_bench h)) in (set_queue q;; queue_moved taken) h.
Definition steer_queue : Act (list (IntentId * Input)) := fun h =>
  let '(q, taken) := take_steers (dk_queue (hb_bench h)) in (set_queue q;; queue_moved taken) h.

Definition withdraw (intent : IntentId) (by_surface : str) : Act (result KernelError Input) := fun h =>
  match origin_of <$> queued (dk_queue (hb_bench h)) intent with
  | None => (h, Ok (Err (gone intent)))
  | Some origin =>
      if negb (bool_decide (surface origin = by_surface))
      then (h, Ok (Err (mkKernelError PermissionDenied (lit "that line is " ++ surface origin ++ lit "'s to take back"))))
      else
        let '(q, taken) := take_intent (dk_queue (hb_bench h)) intent in
        match taken with
        | None => (set_queue q;; aret (Err (gone intent))) h
        | Some input =>
            match (set_queue q;; announce_queue) h with
            | (h', Ok _) => (h', Ok (Ok input))
            | (h', Err error) => (h', Ok (Err error))     (* the caller hears it; the session has closed *)
            end
        end
  end.

(** *** Opening a turn *)

Definition journal_prose (turn : option TurnId) (intent : IntentId) (input : Input) : Act (option ItemId) := fun h =>
  match user_item input (fresh (w_item w (hb_taken h)) (w_clock w (hb_taken h)) turn (Some intent)) with
  | None => (h, Ok None)
  | Some item => (tell (ItemCompleted item) (Some intent);; aret (Some (item_id item))) h
  end.

Fixpoint record_inputs (turn : TurnId) (inputs : list (IntentId * Input)) : Act (list ItemId * list IntentId) :=
  match inputs with
  | [] => aret ([], [])
  | (intent, input) :: inputs =>
      id <- journal_prose (Some turn) intent input;;
      rest <- record_inputs turn inputs;;
      aret (match id with Some id => (id :: rest.1, intent :: rest.2) | None => rest end)
  end.

Definition ack_turn_started (turn : TurnId) (intents : list IntentId) : Act () :=
  each (fun intent => tell (IntentAck intent (OutTurnStarted turn)) (Some intent)) intents.

Definition start_turn (inputs : list (IntentId * Input)) (origin : TurnOrigin) : Act () := fun h =>
  let turn := w_turn w (hb_taken h) in
  (recorded <- record_inputs turn inputs;;
   tell (TurnStarted turn recorded.1 origin) None;;
   ack_turn_started turn recorded.2;;
   set_bench_of (with_running (Some (mkRunning turn None false)))) h.

Definition held_then (intent : IntentId) (input : Input) : Act (list (IntentId * Input)) :=
  inputs <- take_queue;; aret (inputs ++ [(intent, input)]).

Definition log_input (intent : IntentId) (input : Input) : Act () :=
  id <- journal_prose None intent input;;
  match id with
  | None => reject_ intent InvalidInput (lit "a log records text")
  | Some id => applied_ intent (VObject [(lit "item", VString id)])
  end.

Definition submit_prose (intent : IntentId) (input : Input) : Act () := fun h =>
  if negb (w_answers w) then log_input intent input h
  else if busy h || ready (dk_queue (hb_bench h)) then enqueue intent (PendProse input) h
  else (inputs <- held_then intent input;; start_turn inputs OSubmit) h.

Definition deliver_ready (intent : IntentId) (input : Input) (delivery : Delivery) : Act () := fun h =>
  let input := Queue.stamped input delivery in
  if closed_or_closing h then closed_reject intent h
  else match input with
       | InAction _ _ => reject_ intent InvalidInput (lit "a peer delivers text") h
       | InText _ _ _ _ _ =>
           match validate input with
           | Err message => reject_ intent InvalidInput message h
           | Ok _ =>
               if negb (w_answers w) then log_input intent input h
               else if busy h || ready (dk_queue (hb_bench h)) || is_held input then enqueue intent (PendProse input) h
               else (inputs <- held_then intent input;; start_turn inputs OPeer) h
           end
       end.

Definition deliver (intent : IntentId) (input : Input) (delivery : Delivery) : Act () := fun h =>
  if gate_busy (dk_gate (hb_bench h)) || w_links w then gate_input intent input (KDeliver delivery) h
  else deliver_ready intent input delivery h.

Definition drain_queue : Act () := fun h =>
  if busy h || gate_busy (dk_gate (hb_bench h)) then (h, Ok tt)
  else match take_unit (dk_queue (hb_bench h)) with
       | (q, None) => set_queue q h
       | (q, Some unit_) =>
           (set_queue q;;
            match unit_ with
            | UProse inputs => start_turn inputs OQueue
            | UCommand intent input => gate_input intent input KQueued
            end;;
            announce_queue) h
       end.

(** *** Commands *)

Definition run_command (intent : IntentId) (invocation : Invocation) (vouched : option str) (holds : bool) : Act () := fun h =>
  if w_host w
  then set_bench_of (fun d => with_commands (commands_spawn (dk_commands d) intent invocation vouched holds) d) h
  else reject_ intent SessionClosedCode (lit "the host is gone") h.

Definition submit_command (intent : IntentId) (input : Input) (parsed : Parsed) (command : Cmd) (queued : bool) : Act () := fun h =>
  let instant := cmd_instant command (pd_args parsed) (hb_state h) in
  if negb instant && negb queued && (busy h || ready (dk_queue (hb_bench h))) then enqueue intent (PendCommand input) h
  else run_command intent (invocation_of input parsed) (vouched (w_drawings w (hb_taken h)) input) (negb instant) h.

(** [recorded]. *)
Definition recorded (intent : IntentId) (body : ItemBody) : Act () :=
  item <- record_for (Some intent) body;;
  applied_ intent (VObject ((lit "item", VString item) ::
    match Event.receipt body with Some message => [(lit "message", VString message)] | None => [] end)).

Definition action_value (a : Action) : Value := VObject [(lit "name", VString (action_name a)); (lit "args", action_args a)].
Definition outcome_act (invocation : Invocation) (vouched : option str) (intent : IntentId) (outcome : result KernelError CommandOutcome) : Act () :=
  match outcome with
  | Ok (Acknowledged result) => applied_ intent result
  | Ok (Surface action fallback) =>
      applied_ intent (VObject ([(lit "handled", VBool true); (lit "surface", action_value action)] ++
        match fallback with Some message => [(lit "message", VString message)] | None => [] end ++
        match vouched with Some plugin => [(lit "drawnBy", VString plugin)] | None => [] end))
  | Ok (AnswerOutcome answer) => applied_ intent (VObject [(lit "handled", VBool true); (lit "answer", w_answer w answer)])
  | Ok (Handled handled) => applied_ intent (VObject [(lit "handled", VBool handled)])
  | Ok (Applied_ message) =>
      applied_ intent (VObject match message with Some message => [(lit "message", VString message)] | None => [] end)
  | Ok (View view) => applied_ intent (VObject [(lit "view", view)])
  | Ok (RecordOutcome body) => recorded intent body
  | Ok (Prompt text) =>
      gate_input intent (InText (prompt invocation text) [] (iv_origin invocation) Wake None) KProse
  | Err error => reject_ intent (ke_code error) (ke_message error)
  end.

(** [own] is what the run's task stored beside its outcome ([Commands.settled]). *)
Definition command_finished (intent : IntentId) (outcome : result KernelError CommandOutcome) (own : bool) : Act () := fun h =>
  let '(commands, finished) := commands_finish (dk_commands (hb_bench h)) intent own in
  (set_bench_of (with_commands commands);;
   match finished with
   | None => aret tt
   | Some (invocation, held, vouched) =>
       (if held then cancel_command_interactions (w_clock w) (w_order w) else aret tt);;
       outcome_act invocation vouched intent outcome;;
       refresh;;
       drain_queue
   end) h.

(** *** What the gate decided *)

Definition apply_gate (intent : IntentId) (verdict : Verdict) : Act () :=
  match verdict with
  | VerdictProse input => submit_prose intent input
  | VerdictCommand input parsed command queued => submit_command intent input parsed command queued
  | VerdictRejected error => reject_ intent (ke_code error) (ke_message error)
  | VerdictRedirected to (Ok _) => applied_ intent (VObject [(lit "redirected", VString to)])
  | VerdictRedirected _ (Err error) => reject_ intent (ke_code error) (ke_message error)
  | VerdictDelivered input delivery => deliver_ready intent input delivery
  end.

Definition gated (intent : IntentId) (verdict : Verdict) : Act () := fun h =>
  match gate_finish (dk_gate (hb_bench h)) intent with
  | (_, None) => (h, Ok tt)
  | (gate, Some cancelled) =>
      let verdict := if cancelled then VerdictRejected interrupted_error else verdict in
      let held_delivery := match verdict with VerdictDelivered _ Hold => true | _ => false end in
      (set_bench_of (with_gate gate);;
       apply_gate intent verdict;;
       update start_gate;;
       (fun h => if held_delivery && negb (ready (dk_queue (hb_bench h))) then (h, Ok tt) else drain_queue h)) h
  end.

Definition close_gate : Act () := fun h =>
  let '(gate, intents) := gate_drain (dk_gate (hb_bench h)) in
  (set_bench_of (with_gate gate);; each closed_reject intents) h.

(** *** Interrupting *)

Definition cancel_running : Act () := set_bench_of (fun d =>
  with_running ((fun r => mkRunning (rn_turn r) (rn_stopped_ask r) true) <$> dk_running d) d).

Definition interrupt (intent : IntentId) (scope : Scope) : Act () := fun h =>
  match dk_running (hb_bench h) with
  | None =>
      let refused := reject_ intent NotReady (lit "no turn is running") in
      match scope with
      | ScopeTurn _ => refused h
      | ScopeHead =>
          match commands_interrupt (dk_commands (hb_bench h)) with
          | (commands, Some command) =>
              (set_bench_of (with_commands commands);;
               cancel_command_interactions (w_clock w) (w_order w);;
               applied_ intent (VObject [(lit "command", VString command)])) h
          | (_, None) =>
              match gate_interrupt (dk_gate (hb_bench h)) with
              | (gate, Some input) => (set_bench_of (with_gate gate);; applied_ intent (VObject [(lit "input", VString input)])) h
              | (_, None) => refused h
              end
          end
      end
  | Some running =>
      if match scope with ScopeTurn turn => negb (bool_decide (turn = rn_turn running)) | ScopeHead => false end
      then reject_ intent NotReady (lit "that turn is not running") h
      else (update remember_stopped_ask;; cancel_running;;
            cancel_interactions (w_clock w) (w_order w) CancelInterrupted;;
            applied_ intent (VObject [(lit "turn", VString (rn_turn running))])) h
  end.

(** *** The end of a turn *)

(** [close_dropped_turn]: the items it left open end, and the marker says so. *)
Definition close_dropped_turn (turn : TurnId) : Act () := fun h =>
  (each (fun e => tell e None) (interrupt_items (open_items (st_transcript (hb_state h)) turn) (w_clock w (hb_taken h)));;
   (fun h =>
      let asked_at := match dk_running (hb_bench h) with
                      | Some r => if bool_decide (rn_turn r = turn) then rn_stopped_ask r else None
                      | None => None
                      end in
      tell (ItemCompleted (fresh (w_item w (hb_taken h)) (w_clock w (hb_taken h)) (Some turn) None
              (BInterruption turn_stopped_marker asked_at))) None h)) h.

(** [turn_finished]: the asks close; the completion then goes through the links
    ([catalogue::complete]) and comes back as [completion_ready]. *)
Definition turn_finished (turn : TurnId) (ended : Ended) : Act () := fun h =>
  if negb (is_running h turn) then (h, Ok tt)
  else (update remember_stopped_ask;;
        cancel_interactions (w_clock w) (w_order w) CancelTurnEnded;;
        match ended with Dropped => close_dropped_turn turn | Returned _ | Panicked _ => aret tt end) h.

(** *** Closing *)

(** The session's own token, which every command runs under. *)
Definition cancel_commands : Act () := set_bench_of (fun d =>
  let c := dk_commands d in
  with_commands (mkCommands ((fun run => mkCommand (cm_invocation run) (cm_vouched run) true) <$> cm_inflight c) (cm_holding c)) d).

Definition finish_close (reason : CloseReason) : Act Flow := fun h =>
  let '(q, waiting) := drain_all (dk_queue (hb_bench h)) in
  (set_queue q;;
   each (fun p => closed_reject p.1) waiting;;
   tell (SessionClosed reason) None;;
   (match reason with CloseClient | CloseShutdown => update checkpoint_write | _ => aret tt end);;
   update clear_subs;;
   aret Stop) h.

Definition close (reason : CloseReason) : Act Flow := fun h =>
  if st_closed (hb_state h) then (h, Ok Stop)
  else (update remember_stopped_ask;; cancel_running;; cancel_commands;;
        close_gate;;
        cancel_interactions (w_clock w) (w_order w) CancelSessionClosed;;
        (fun h => match dk_running (hb_bench h) with
                  | Some _ => (set_bench_of (with_closing (Some reason));; aret Continue) h
                  | None => finish_close reason h
                  end)) h.

(** [catalogue::finished]; [switched] is what the context is restated with when
    the model changed during the turn. *)
Definition completion_ready (completed : Completed) (switched : option (option ContextUsage)) : Act Flow := fun h =>
  if negb (is_running h (cp_turn completed)) then (h, Ok Continue)
  else (set_bench_of (with_running None);;
        tell (TurnCompleted (cp_turn completed) (cp_status completed) (cp_usage completed)) None;;
        (match switched with Some context => tell (ContextChanged context) None | None => aret tt end);;
        each (fun notice => record_for None notice;; aret tt) (cp_notices completed);;
        refresh;;
        (fun h => match dk_closing (hb_bench h) with
                  | Some reason => (set_bench_of (with_closing None);; finish_close reason) h
                  | None => (drain_queue;; aret Continue) h
                  end)) h.

(** [reserve_delete], once the caller has decided. *)
Definition reserve_delete (commits : bool) : Act Flow := fun h =>
  if bool_decide (is_Some (st_turn (hb_state h))) || bool_decide (is_Some (dk_running (hb_bench h))) then (h, Ok Continue)
  else if commits then close CloseDeleted h else (h, Ok Continue).

Definition compact : Act (result KernelError ()) := fun h =>
  if negb (w_answers w) then (h, Ok (Err (mkKernelError InvalidInput (lit "a log session has nothing to compact"))))
  else match w_holder w with
       | Some endpoint => (h, Ok (Err (mkKernelError InvalidInput
           (lit "`" ++ endpoint ++ lit "` holds this context and compacts it itself; bingo does not"))))
       | None =>
           if bool_decide (is_Some (dk_running (hb_bench h))) then (h, Ok (Err (mkKernelError NotReady (lit "a turn is running"))))
           else (start_turn [] OAuto;; aret (Ok tt)) h
       end.

(** [rewind], given the whole transcript. *)
Definition rewind (transcript : Transcript) (to_turn : TurnId) : Act (result KernelError N) := fun h =>
  if bool_decide (is_Some (dk_running (hb_bench h))) then (h, Ok (Err (mkKernelError NotReady (lit "a turn is running"))))
  else match dropped (items transcript) to_turn with
       | None => (h, Ok (Err (mkKernelError InvalidInput (lit "this session has no turn " ++ to_turn))))
       | Some gone =>
           let count := wrap 32 (N.of_nat (length gone)) in
           match (record_for None (BRewind to_turn count);;
                  (fun h => tell (Rewound (u64_add (t_generation (st_transcript (hb_state h))) 1) to_turn gone []) None h)) h with
           | (h', Ok _) => (h', Ok (Ok count))
           | (h', Err error) => (h', Ok (Err error))
           end
       end.

(** *** Calls from outside the turn *)

Definition change_item (id : ItemId) (f : Item → option Event) : Act () := fun h =>
  match get (st_transcript (hb_state h)) id with
  | None => (h, Ok tt)
  | Some item => match f item with Some e => tell e None h | None => (h, Ok tt) end
  end.

Definition open_call (turn : TurnId) (call : ToolCall) (quiet : bool) : Act () := fun h =>
  let body := BToolCall None None None (call_id call) (call_name call) (call_input call) None None None quiet in
  let item := fresh (w_item w (hb_taken h)) (w_clock w (hb_taken h)) (Some turn) None body in
  tell (ItemStarted (mark_external (set_status item Event.Pending None))) None h.

Definition call_asked (id : ItemId) : Act () := fun h =>
  change_item id (fun item => match item_body item with
    | BToolCall allowed None began c n i o p d q =>
        Some (ItemUpdated (with_body item (BToolCall allowed (Some (w_clock w (hb_taken h))) began c n i o p d q)))
    | _ => None
    end) h.

Definition call_allowed (id : ItemId) (input : Value) : Act () := fun h =>
  change_item id (fun item =>
    let item := set_status item Event.Running (item_completed_at item) in
    Some (ItemUpdated (match item_body item with
      | BToolCall allowed asked _ c n _ o p d q =>
          with_body item (BToolCall allowed asked (Some (w_clock w (hb_taken h))) c n input o p d q)
      | _ => item
      end))) h.

Definition call_finished (o : ToolOutcome) : Act () := fun h =>
  change_item (oc_item o) (fun item =>
    Some (ItemCompleted (set_status (with_body item (land_body (item_body item) o)) (oc_status o) (Some (w_clock w (hb_taken h)))))) h.

(** ** The mailbox *)

Inductive Msg :=
| MCatalogueEvent (e : Event)
| MCompletionReady (completed : Completed) (switched : option (option ContextUsage))
| MSubmit (intent : IntentId) (input : Input)
| MGated (intent : IntentId) (verdict : Verdict)
| MDeliver (intent : IntentId) (input : Input) (delivery : Delivery)
| MExtend (plugin kind : str) (payload : Value)
| MInvalidated (requests : list str)
| MSignal (plugin kind : str) (payload : Value) (generation : option ItemId)
| MTransferSignals (plugin : str) (from to : ItemId)
| MInterrupt (intent : IntentId) (scope : Scope)
| MWithdraw (intent : IntentId) (by_surface : str)
| MAnswer (a : Answering)
| MCheckpointed (k : nat) (written : bool)
| MEventsSince (since : Seq)
| MEmit (turn : TurnId) (e : Event)
| MAsk (item : option ItemId) (kind : InteractionKind) (answers : list AnswerSpec)
| MAbsorb (turn : TurnId)
| MTurnFinished (turn : TurnId) (ended : Ended)
| MReceipt (item : Item)
| MRecord (body : ItemBody)
| MProgress (item : ItemId) (tail : str)
| MCommandFinished (intent : IntentId) (outcome : result KernelError CommandOutcome) (own : bool)
| MReconfigure (summary : SessionSummary) (context : option (option ContextUsage))
| MCharge (turn : option TurnId) (plugin : str) (usage : Usage)
| MOpenCall (turn : TurnId) (call : ToolCall) (quiet : bool)
| MCallAsked (item : ItemId)
| MCallAllowed (item : ItemId) (input : Value)
| MCallFinished (o : ToolOutcome)
| MRewind (transcript : Transcript) (to_turn : TurnId)
| MCompact
| MReserveDelete (commits : bool)
| MClose (reason : CloseReason).

(** Handlers with nothing to say of the actor's own fate. *)
Definition unit_act {A} (m : Act A) : Act () := m;; aret tt.

Definition after_message : Act Flow := fun h => (h, Ok (if st_closed (hb_state h) then Stop else Continue)).

Definition dispatch (msg : Msg) : Act Flow :=
  let then_ (m : Act ()) := m;; after_message in
  match msg with
  | MCompletionReady completed switched => completion_ready completed switched
  | MReserveDelete commits => reserve_delete commits
  | MClose reason => close reason
  | MTurnFinished turn ended => turn_finished turn ended;; aret Continue
  | MCatalogueEvent e => then_ (fun h =>
      if match e with ConfigChanged config => w_config_eqb w config (st_config (hb_state h)) | _ => false end
      then (h, Ok tt) else tell e None h)
  | MSubmit intent input => then_ (submit intent input)
  | MGated intent verdict => then_ (gated intent verdict)
  | MDeliver intent input delivery => then_ (deliver intent input delivery)
  | MExtend plugin kind payload => then_ (extend (w_clock w) (w_order w) (w_links w) plugin kind payload)
  | MInvalidated requests => then_ (tell (Invalidated requests) None)
  | MSignal plugin kind payload generation => then_ (publish_signal (w_clock w) (w_order w) plugin kind payload generation)
  | MTransferSignals plugin from to => then_ (fun h =>       (* the caller hears of a failure; the session has closed *)
      ((handoff (w_clock w) (w_order w) plugin from to h).1, Ok tt))
  | MInterrupt intent scope => then_ (interrupt intent scope)
  | MWithdraw intent by_surface => then_ (unit_act (withdraw intent by_surface))
  | MAnswer a => then_ (answer (w_clock w) (w_order w) (w_item w) (w_view w) (w_config_eqb w) (w_links w) a)
  | MCheckpointed k written => then_ (update (fun h => acknowledge h k written))
  | MEventsSince since => then_ (update (fun h => subscribe h since))
  | MEmit turn e => then_ (emit (w_clock w) (w_order w) (w_view w) (w_config_eqb w) (w_links w) turn e)
  | MAsk item kind answers => then_ (open_interaction (w_clock w) (w_order w) (w_interaction w) (w_add w) item kind answers)
  | MAbsorb turn => then_ (fun h => if is_running h turn then unit_act steer_queue h else (h, Ok tt))
  | MReceipt item => then_ (unit_act (receipt (w_clock w) (w_order w) (w_view w) (w_config_eqb w) (w_links w) item))
  | MRecord body => then_ (unit_act (record_for None body))
  | MProgress item tail => then_ (progress (w_clock w) (w_order w) item tail)
  | MCommandFinished intent outcome own => then_ (command_finished intent outcome own)
  | MReconfigure summary context => then_ (
      publish_summary (w_clock w) (w_order w) summary;;
      (match context with Some context => tell (ContextChanged context) None | None => aret tt end);;
      refresh)
  | MCharge turn plugin usage => then_ (fun h => ((charge (w_clock w) (w_order w) turn plugin usage h).1, Ok tt))
  | MOpenCall turn call quiet => then_ (open_call turn call quiet)
  | MCallAsked item => then_ (call_asked item)
  | MCallAllowed item input => then_ (call_allowed item input)
  | MCallFinished o => then_ (call_finished o)
  | MRewind transcript to_turn => then_ (unit_act (rewind transcript to_turn))
  | MCompact => then_ (unit_act compact)
  end.

(** [handle] and the loop of [run]: a message the journal failed under, or one
    that stops the actor, is the last; what still waits is dropped. *)
Definition handle (msg : Msg) (h : Hub St) : Hub St * Flow :=
  match dispatch msg h with (h', Ok flow) => (h', flow) | (h', Err _) => (h', Stop) end.

Fixpoint actor_run (h : Hub St) (msgs : list Msg) : Hub St * Flow :=
  match msgs with
  | [] => (h, Continue)
  | msg :: msgs => match handle msg h with (h', Continue) => actor_run h' msgs | (h', Stop) => (h', Stop) end
  end.
End session.
