(* ===== verification/Actor.v ===== *)
(** * Actor: what a session's handlers keep true, message after message

    Most handlers of [Session] and [Asks] only add frames and move things on the
    actor's bench; what they keep is proved once, for any discipline that allows
    frames which say nothing of turns and quiet moves of the bench.  Two
    disciplines are instances: listeners and the actor agree on the running turn,
    and no input handed to the actor is forgotten. *)

From S2P Require Import Prelude Text Model Interaction Event Transcript State Tree Recovery Queue Gate Commands Stream Round Store Hub Asks Session.

(** ** Disciplines *)

(** Which turn a listener of these events takes to be running, and whether they
    ever contradict one another. *)
Fixpoint brackets (cur : option TurnId) (es : list Event) : option (option TurnId) :=
  match es with
  | [] => Some cur
  | TurnStarted turn _ _ :: es => match cur with None => brackets (Some turn) es | Some _ => None end
  | TurnCompleted turn _ _ :: es => if bool_decide (cur = Some turn) then brackets None es else None
  | SessionClosed _ :: es => brackets None es
  | _ :: es => brackets cur es
  end.

Lemma brackets_app cur es es' : brackets cur (es ++ es') = brackets cur es ≫= λ c, brackets c es'.
Proof.
  revert cur. induction es as [|e es IH]; intros cur; simpl; [done|].
  destruct e; try done; [by destruct cur|by destruct (bool_decide _)].
Qed.

Definition neutral_event (e : Event) : bool :=
  match e with TurnStarted _ _ _ | TurnCompleted _ _ _ | SessionClosed _ => false | _ => true end.

Lemma brackets_neutral cur e : neutral_event e = true → brackets cur [e] = Some cur.
Proof. by destruct e. Qed.

(** An input or a command the actor still has in its hands. *)
Definition outstanding (i : IntentId) (d : Bench) : Prop :=
  i ∈ fl_intent <$> option_list (ig_flight (dk_gate d)) ∨ i ∈ wg_intent <$> ig_waiting (dk_gate d) ∨ is_Some (cm_inflight (dk_commands d) !! i).

Section disciplines.
Context {St : Type} `{SessionStore St}.
Implicit Types h : Hub St.

(** A move that says nothing, starts and ends no turn, and forgets nothing. *)
Record quiet h h' : Prop := mk_quiet {
  qu_published : hb_published h' = hb_published h;
  qu_serving : hb_serving h' = hb_serving h;
  qu_running : rn_turn <$> dk_running (hb_bench h') = rn_turn <$> dk_running (hb_bench h);
  qu_outstanding : ∀ i, outstanding i (hb_bench h) → outstanding i (hb_bench h');
}.
#[global] Instance quiet_preorder : PreOrder quiet.
Proof. split; [done|]. intros h1 h2 h3 [] []. split; [congruence..|auto]. Qed.

(** What the outcomes of handlers are held to. *)
Record Discipline (w : World) := mk_discipline {
  keeps : ∀ A, Hub St → Hub St * result KernelError A → Prop;
  keeps_ok : ∀ A h h' (x : A), quiet h h' → keeps A h (h', Ok x);
  keeps_after : ∀ A h h' r, quiet h h' → keeps A h' r → keeps A h r;
  keeps_bind : ∀ A B (m : Act A) (k : A → Act B),
    (∀ h, keeps A h (m h)) → (∀ x h, keeps B h (k x h)) → ∀ h, keeps B h (abind m k h);
  keeps_tell : ∀ e cause h, neutral_event e = true → keeps unit h (Asks.tell (w_clock w) (w_order w) e cause h);
}.

Context {w : World} (D : Discipline w).
Definition kept {A} h (r : Hub St * result KernelError A) : Prop := keeps w D A h r.
Definition keeping {A} (m : Act A) : Prop := ∀ h, kept h (m h).

Lemma kept_ok {A} h h' (x : A) : quiet h h' → kept h (h', Ok x).
Proof. apply keeps_ok. Qed.
Lemma kept_after {A} h h' (r : Hub St * result KernelError A) : quiet h h' → kept h' r → kept h r.
Proof. apply keeps_after. Qed.
Lemma kept_act {A} (m : Act A) h : keeping m → kept h (m h).
Proof. intros Hm. apply Hm. Qed.
Lemma keeping_bind {A B} (m : Act A) (k : A → Act B) : keeping m → (∀ x, keeping (k x)) → keeping (abind m k).
Proof. intros Hm Hk. exact (keeps_bind w D A B m k Hm Hk). Qed.
Lemma keeping_ret {A} (x : A) : keeping (aret x).
Proof. intros h. by apply kept_ok. Qed.
Lemma keeping_tell e cause : neutral_event e = true → keeping (Asks.tell (w_clock w) (w_order w) e cause).
Proof. intros He h. by apply keeps_tell. Qed.
Lemma keeping_update (f : Hub St → Hub St) : (∀ h, quiet h (f h)) → keeping (update f).
Proof. intros Hf h. apply kept_ok, Hf. Qed.
Lemma keeping_each {A} (f : A → Act ()) l : (∀ x, keeping (f x)) → keeping (each f l).
Proof. intros Hf. induction l as [|x l IH]; simpl; [apply keeping_ret|]. by apply keeping_bind. Qed.
End disciplines.

Create HintDb turns.
#[export] Hint Extern 1 (keeping _ (aret _)) => apply keeping_ret : turns.
#[export] Hint Extern 1 (keeping _ (Asks.tell _ _ _ _)) => apply keeping_tell; reflexivity : turns.
#[export] Hint Extern 1 (quiet _ _) => split; solve [reflexivity|trivial] : turns.
(** One step into a handler: its sequence, its guards, its changes to the bench. *)
Ltac neutral_step :=
  match goal with
  | |- keeping _ (abind _ _) => eapply keeping_bind; [|intros ?]
  | |- keeping _ (each _ _) => eapply keeping_each; intros ?
  | |- keeping _ (update _) => eapply keeping_update; intros ?
  | |- keeping _ (match ?x with _ => _ end) => destruct x
  | |- kept _ _ (match ?x with _ => _ end) => destruct x
  | |- kept _ _ (_, Ok _) => apply kept_ok
  | |- kept _ ?h (?m ?h) => apply kept_act
  end.
Ltac neutral_all := repeat (first [solve [eauto with turns]|neutral_step]).

Section quiet_handlers.
Context {St : Type} `{SessionStore St} (w : World) (D : Discipline w).
Implicit Types h : Hub St.
Abbreviation clock := (w_clock w).
Abbreviation order := (w_order w).
Abbreviation neutral := (keeping D).

Lemma neutral_refresh : neutral (refresh_config (St := St) clock order (w_view w) (w_config_eqb w) (w_links w)).
Proof. intros h. unfold refresh_config. neutral_all. Qed.
#[local] Hint Resolve neutral_refresh : turns.

Lemma neutral_record_item item : neutral (record_item (St := St) clock order (w_view w) (w_config_eqb w) (w_links w) item).
Proof. intros h. unfold record_item. apply kept_act. neutral_all. Qed.
#[local] Hint Resolve neutral_record_item : turns.

Lemma neutral_record_for intent body : neutral (record_for (St := St) clock order (w_item w) (w_view w) (w_config_eqb w) (w_links w) intent body).
Proof. intros h. unfold record_for. neutral_all. Qed.

Lemma neutral_publish_summary summary : neutral (publish_summary (St := St) clock order summary).
Proof. intros h. unfold publish_summary. neutral_all. Qed.
Lemma neutral_restate : neutral (restate_summary (St := St) clock order).
Proof. intros h. unfold restate_summary. apply kept_act, neutral_publish_summary. Qed.
#[local] Hint Resolve neutral_record_for neutral_publish_summary neutral_restate : turns.

Lemma neutral_open item kind answers : neutral (open_interaction (St := St) clock order (w_interaction w) (w_add w) item kind answers).
Proof. intros h. unfold open_interaction. eapply kept_after; [|apply kept_act; neutral_all]. done. Qed.

Lemma neutral_cancel_loop asks reason : neutral (cancel_loop (St := St) clock order asks reason).
Proof. induction asks as [|[id p] asks IH]; simpl; neutral_all. Qed.
#[local] Hint Resolve neutral_cancel_loop : turns.
Lemma neutral_cancel_each asks reason : neutral (cancel_each (St := St) clock order asks reason).
Proof. unfold cancel_each. neutral_all. Qed.
Lemma neutral_cancel_all reason : neutral (cancel_interactions (St := St) clock order reason).
Proof. intros h. unfold cancel_interactions. eapply kept_after; [|apply kept_act, neutral_cancel_each]. done. Qed.
Lemma neutral_cancel_command : neutral (cancel_command_interactions (St := St) clock order).
Proof. intros h. unfold cancel_command_interactions. eapply kept_after; [|apply kept_act, neutral_cancel_each]. done. Qed.

Lemma neutral_reject intent code message : neutral (reject_intent (St := St) clock order intent code message).
Proof. by apply keeping_tell. Qed.
Lemma neutral_applied intent result : neutral (applied (St := St) clock order intent result).
Proof. by apply keeping_tell. Qed.
#[local] Hint Resolve neutral_reject neutral_applied : turns.

Lemma neutral_answer a : neutral (answer (St := St) clock order (w_item w) (w_view w) (w_config_eqb w) (w_links w) a).
Proof. intros h. unfold answer. neutral_all. Qed.

Lemma neutral_emit turn e : neutral_event e = true → neutral (emit (St := St) clock order (w_view w) (w_config_eqb w) (w_links w) turn e).
Proof. intros He h. unfold emit. destruct (negb _); [by eapply kept_ok|]. destruct e; neutral_all; done. Qed.


Lemma neutral_progress item tail : neutral (progress (St := St) clock order item tail).
Proof. intros h. unfold progress. eapply kept_after; [|apply kept_act; neutral_all]. done. Qed.
Lemma neutral_extend plugin kind payload : neutral (extend (St := St) clock order (w_links w) plugin kind payload).
Proof. unfold extend. neutral_all. Qed.
Lemma neutral_charge turn plugin usage : neutral (charge (St := St) clock order turn plugin usage).
Proof. intros h. unfold charge. apply kept_act. neutral_all. Qed.
Lemma neutral_signal plugin kind payload generation : neutral (publish_signal (St := St) clock order plugin kind payload generation).
Proof. intros h. unfold publish_signal. neutral_all. Qed.
#[local] Hint Resolve neutral_signal neutral_cancel_all neutral_cancel_command : turns.
Lemma neutral_handoff plugin from to : neutral (handoff (St := St) clock order plugin from to).
Proof. intros h. unfold handoff. apply kept_act. neutral_all. Qed.

Lemma neutral_bench (f : Bench → Bench) : (∀ d, rn_turn <$> dk_running (f d) = rn_turn <$> dk_running d) →
  (∀ d i, outstanding i d → outstanding i (f d)) → neutral (set_bench_of f).
Proof. intros Hr Ho. apply keeping_update. intros h. split; [done..|apply Hr|apply Ho]. Qed.
Lemma kept_first {A} (f : Bench → Bench) (k : Act A) h :
  quiet h (set_bench h (f (hb_bench h))) → neutral k → kept D h (abind (set_bench_of f) (fun _ => k) h).
Proof. intros Hq Hk. eapply kept_after; [exact Hq|apply Hk]. Qed.
Lemma neutral_set_queue q : neutral (set_queue q).
Proof. by apply neutral_bench. Qed.
#[local] Hint Resolve neutral_set_queue : turns.
Lemma neutral_announce : neutral (announce_queue w).
Proof. intros h. unfold announce_queue. simpl. apply kept_act. neutral_all. Qed.
#[local] Hint Resolve neutral_announce : turns.
Lemma neutral_enqueue intent input : neutral (enqueue w intent input).
Proof. intros h. unfold enqueue. destruct (push _ _ _). apply kept_act. neutral_all. Qed.
Lemma neutral_moved taken : neutral (queue_moved w taken).
Proof. unfold queue_moved. neutral_all. Qed.
#[local] Hint Resolve neutral_enqueue neutral_moved : turns.
Lemma neutral_take : neutral (take_queue w).
Proof. intros h. unfold take_queue. destruct (take_prose _). apply kept_act. neutral_all. Qed.
Lemma neutral_steer : neutral (steer_queue w).
Proof. intros h. unfold steer_queue. destruct (take_steers _). apply kept_act. neutral_all. Qed.
#[local] Hint Resolve neutral_take neutral_steer : turns.

Lemma neutral_journal_prose turn intent input : neutral (journal_prose w turn intent input).
Proof. intros h. unfold journal_prose. neutral_all. Qed.
#[local] Hint Resolve neutral_journal_prose : turns.
Lemma neutral_record_inputs turn inputs : neutral (record_inputs w turn inputs).
Proof. induction inputs as [|[i x] inputs IH]; simpl; neutral_all. Qed.
Lemma neutral_ack turn intents : neutral (ack_turn_started w turn intents).
Proof. unfold ack_turn_started. neutral_all. Qed.
Lemma neutral_held_then intent input : neutral (held_then w intent input).
Proof. unfold held_then. neutral_all. Qed.
Lemma neutral_log_input intent input : neutral (log_input w intent input).
Proof. unfold log_input. neutral_all. Qed.
Lemma quiet_start_gate h : quiet h (start_gate h).
Proof.
  unfold start_gate. destruct (ig_flight (dk_gate (hb_bench h))) as [f|] eqn:Ef; [by rewrite bool_decide_true|].
  destruct (_ || _); [done|]. destruct (ig_waiting _) as [|x rest] eqn:Ew; [done|]. split; [done..|].
  intros i [Hi|[Hi|Hi]]; [rewrite Ef in Hi; by apply elem_of_nil in Hi|rewrite Ew in Hi|by right; right].
  apply elem_of_cons in Hi as [->|Hi]; [left; by left|right; by left].
Qed.
Lemma quiet_push h x : quiet h (set_bench h (with_gate (gate_push (dk_gate (hb_bench h)) x) (hb_bench h))).
Proof.
  split; [done..|]. intros i [Hi|[Hi|Hi]]; [by left| |by right; right]. right. left. simpl.
  destruct (goes_first _); [by right|]. rewrite fmap_app. apply elem_of_app. by left.
Qed.
Lemma neutral_gate_input intent input kind : neutral (gate_input intent input kind).
Proof. apply keeping_update. intros h. etrans; [apply quiet_push|apply quiet_start_gate]. Qed.
#[local] Hint Resolve neutral_record_inputs neutral_ack neutral_held_then neutral_log_input neutral_gate_input : turns.
Lemma neutral_submit intent input : neutral (submit w intent input).
Proof. intros h. unfold submit, closed_reject. neutral_all. Qed.
Lemma neutral_run_command intent invocation vouched holds : neutral (run_command w intent invocation vouched holds).
Proof. intros h. unfold run_command. destruct (w_host w); apply kept_act; [|neutral_all]. apply neutral_bench; [done|].
  intros d i [Hi|[Hi|Hi]]; [by left|by right; left|]. right. right. by apply lookup_insert_is_Some', or_intror.
Qed.
#[local] Hint Resolve neutral_run_command : turns.
Lemma neutral_submit_command intent input parsed command queued :
  neutral (submit_command w intent input parsed command queued).
Proof. intros h. unfold submit_command. neutral_all. Qed.
Lemma neutral_outcome invocation vouched intent outcome : neutral (outcome_act w invocation vouched intent outcome).
Proof. unfold outcome_act, recorded. neutral_all. Qed.
Lemma neutral_remember : neutral (update remember_stopped_ask).
Proof.
  apply keeping_update. intros h. unfold remember_stopped_ask. repeat case_match; split; try done. by simpl; simplify_option_eq.
Qed.
Lemma neutral_cancel_running : neutral cancel_running.
Proof. apply neutral_bench; [|done]. intros d. simpl. by destruct (dk_running d). Qed.
Lemma neutral_cancel_commands : neutral cancel_commands.
Proof.
  apply neutral_bench; [done|]. intros d i [Hi|[Hi|Hi]]; [by left|by right; left|]. right. right. simpl.
  rewrite lookup_fmap. by apply fmap_is_Some.
Qed.
#[local] Hint Resolve neutral_remember neutral_cancel_running neutral_cancel_commands : turns.
Lemma interrupt_commands c commands command i : commands_interrupt c = (commands, Some command) →
  is_Some (cm_inflight c !! i) → is_Some (cm_inflight commands !! i).
Proof.
  unfold commands_interrupt. intros E Hi. repeat case_match; simplify_eq/=. by apply lookup_insert_is_Some', or_intror.
Qed.
Lemma neutral_interrupt intent scope : neutral (interrupt w intent scope).
Proof.
  intros h. unfold interrupt. destruct (dk_running (hb_bench h)); [case_match; apply kept_act; neutral_all|].
  destruct scope; [|apply kept_act; neutral_all].
  destruct (commands_interrupt _) as [commands [command|]] eqn:Ec.
  { apply kept_first; [|neutral_all]. split; [done..|].
    intros i [Hi|[Hi|Hi]]; [by left|by right; left|]. right. right. by eapply interrupt_commands. }
  destruct (gate_interrupt _) as [gate [input|]] eqn:Eg; [|apply kept_act; neutral_all].
  apply kept_first; [|neutral_all]. split; [done..|].
  unfold gate_interrupt in Eg. destruct (ig_flight _) eqn:Ef; simplify_eq/=. intros i [Hi|Hi]; [|by right].
  left. by rewrite Ef in Hi.
Qed.
Lemma interrupted_neutral items now : Forall (λ e, neutral_event e = true) (interrupt_items items now).
Proof. unfold interrupt_items. apply Forall_fmap, Forall_true. done. Qed.
Lemma neutral_says (es : list Event) : Forall (λ e, neutral_event e = true) es →
  neutral (each (fun e => Asks.tell clock order e None) es).
Proof. induction 1 as [|e es He _ IH]; simpl; [neutral_all|]. eapply keeping_bind; [by apply keeping_tell|done]. Qed.
Lemma neutral_dropped turn : neutral (close_dropped_turn w turn).
Proof.
  intros h. unfold close_dropped_turn. apply kept_act, keeping_bind; [apply neutral_says, interrupted_neutral|].
  intros _ h'. apply kept_act. neutral_all.
Qed.
#[local] Hint Resolve neutral_dropped : turns.
Lemma neutral_turn_finished turn ended : neutral (turn_finished w turn ended).
Proof. intros h. unfold turn_finished. neutral_all. Qed.

Lemma neutral_change_item id f : (∀ i e, f i = Some e → neutral_event e = true) → neutral (change_item w id f).
Proof.
  intros Hf h. unfold change_item. destruct (get _ _) as [i|]; [|neutral_all].
  destruct (f i) as [e|] eqn:E; [|neutral_all]. apply kept_act, keeping_tell, (Hf i e E).
Qed.
Lemma neutral_call_asked id : neutral (call_asked w id).
Proof. intros h. unfold call_asked. apply kept_act, neutral_change_item. intros i e He. by repeat case_match; simplify_eq. Qed.
Lemma neutral_call_allowed id input : neutral (call_allowed w id input).
Proof. intros h. unfold call_allowed. apply kept_act, neutral_change_item. by intros i e [= <-]. Qed.
Lemma neutral_call_finished o : neutral (call_finished w o).
Proof. intros h. unfold call_finished. apply kept_act, neutral_change_item. by intros i e [= <-]. Qed.
Lemma neutral_open_call turn call quiet : neutral (open_call w turn call quiet).
Proof. intros h. unfold open_call. apply kept_act. neutral_all. Qed.
End quiet_handlers.

Section turns.
Context {St : Type} `{SessionStore St} (w : World).
Implicit Types h : Hub St.
Abbreviation Tell := (Asks.tell (w_clock w) (w_order w)).

Lemma publish_talk h e cause : let '(h', r) := publish (w_clock w) (w_order w) h e cause in
  match r with
  | Ok _ => fr_event <$> hb_published h' = (fr_event <$> hb_published h) ++ [e] ∧ hb_bench h' = hb_bench h
      ∧ hb_serving h' = hb_serving h ∧ (hb_store h = None → hb_store h' = None)
  | Err error => dk_running (hb_bench h') = None ∧ hb_serving h' = false ∧ hb_store h ≠ None ∧ ∃ refused,
      fr_event <$> hb_published h' = (fr_event <$> hb_published h) ++ (refused ++ [SessionClosed (CloseError (ke_message error))])
      ∧ Forall (λ e, neutral_event e = true) refused
  end.
Proof.
  unfold publish. destruct (sequence (w_clock w) h e cause) as [h1 f] eqn:E.
  assert (hb_published h1 = hb_published h ∧ hb_bench h1 = hb_bench h ∧ hb_serving h1 = hb_serving h ∧ fr_event f = e ∧ hb_store h1 = hb_store h)
    as (Ep & Eb & Es & Ef & Est) by by injection E as <- <-.
  assert (∀ x : Hub St, hb_published x = hb_published h → hb_bench x = hb_bench h → hb_serving x = hb_serving h →
    (hb_store h = None → hb_store x = None) → let '(h', r) := published x f in ∃ q, r = Ok q
    ∧ fr_event <$> hb_published h' = (fr_event <$> hb_published h) ++ [e] ∧ hb_bench h' = hb_bench h
    ∧ hb_serving h' = hb_serving h ∧ (hb_store h = None → hb_store h' = None)) as Hpub.
  { intros x Ex Exb Exs Ext. unfold published. set (b := broadcast x f).
    assert (fr_event <$> hb_published b = (fr_event <$> hb_published h) ++ [e] ∧ hb_bench b = hb_bench h
      ∧ hb_serving b = hb_serving h ∧ (hb_store h = None → hb_store b = None)) as (? & ? & ? & Hb).
    { unfold b. simpl. by rewrite fmap_app, Ex, <- Ef. }
    clearbody b. destruct (is_compacted _); [|by eexists]. unfold checkpoint_write. destruct (hb_store b) eqn:Eb'; [|by eexists].
    by eexists; split_and!. }
  destruct (is_durable e).
  2: { specialize (Hpub h1 Ep Eb Es). rewrite Est in Hpub. specialize (Hpub id). destruct (published h1 f) as [h' r].
    by destruct Hpub as (? & -> & ?). }
  destruct (hb_store h1) as [st|] eqn:Es1.
  2: { specialize (Hpub (journal_frame h1 f None) Ep Eb Es (λ _, eq_refl)). destruct (published _ f) as [h' r]. by destruct Hpub as (? & -> & ?). }
  destruct (store_append _ _ _) as [st'|error].
  { specialize (Hpub (journal_frame h1 f (Some st')) Ep Eb Es). rewrite <- Est in Hpub. specialize (Hpub ltac:(done)).
    destruct (published _ f) as [h' r]. rewrite <- Est. by destruct Hpub as (? & -> & ?). }
  unfold storage_failed. destruct (refusals_heard (w_clock w) (w_order w) h1 error) as (_ & _ & _ & F4 & _ & _ & _ & F8).
  destruct (steps_storage_refusals (w_clock w) (w_order w) h1 error) as [_ F9].
  revert F4 F8 F9. generalize (storage_refusals (w_clock w) (w_order w) h1 error). intros h2 F4 F8 F9.
  split_and!; [exact F4|exact F9|by rewrite <- Est|].
  exists ([Notice Error (lit "STORAGE") (ke_message error)] ++ ((λ w, rejected w.1 error) <$> (unpack <$> q_entries (dk_queue (hb_bench h1))))).
  split.
  - simpl. rewrite fmap_app, F8, Ep. by rewrite <- !app_assoc.
  - apply Forall_app. split; [by apply Forall_singleton|]. apply Forall_fmap, Forall_true. done.
Qed.

(** What a listener takes to be running, and what the actor has running. *)
Definition at_turn (cur run : option TurnId) h : Prop :=
  brackets None (fr_event <$> hb_published h) = Some cur ∧ rn_turn <$> dk_running (hb_bench h) = run.

(** Either the handler gets there, or the session is over. *)
Definition triple {A} (P : Hub St → Prop) (m : @Act St A) (Q : A → Hub St → Prop) : Prop := ∀ h, P h →
  match m h with (h', Ok x) => Q x h' | (h', Err _) => at_turn None None h' end.

Lemma triple_bind {A B} P (m : @Act St A) Q (k : A → Act B) R :
  triple P m Q → (∀ x, triple (Q x) (k x) R) → triple P (abind m k) R.
Proof.
  intros Hm Hk h HP. specialize (Hm h HP). unfold abind. destruct (m h) as [h' [x|e]]; [|done]. by apply Hk.
Qed.

Lemma neutral_brackets cur es : Forall (λ e, neutral_event e = true) es → brackets cur es = Some cur.
Proof. induction 1 as [|e es He _ IH]; [done|]. by destruct e. Qed.

Lemma triple_tell e cause cur cur' run : brackets cur [e] = Some cur' →
  triple (at_turn cur run) (Tell e cause) (λ _, at_turn cur' run).
Proof.
  intros He h [Hb Hr]. pose proof (publish_talk h e cause) as Hp. unfold Asks.tell, abind, say.
  destruct (publish (w_clock w) (w_order w) h e cause) as [h' [q|error]].
  - destruct Hp as (E & Eb & _). split; [|by rewrite Eb]. by rewrite E, brackets_app, Hb.
  - destruct Hp as (Er & _ & _ & refused & E & Hn). split; [|by rewrite Er]. rewrite E, brackets_app, Hb. simpl.
    by rewrite brackets_app, neutral_brackets.
Qed.

(** The first discipline: handlers that say nothing of turns keep both where they are. *)
Definition turn_kept A h (r : Hub St * result KernelError A) : Prop := ∀ cur run, at_turn cur run h →
  match r with (h', Ok _) => at_turn cur run h' | (h', Err _) => at_turn None None h' end.

Lemma quiet_at h h' cur run : quiet h h' → at_turn cur run h → at_turn cur run h'.
Proof. intros [E1 _ E2 _] [Hb Hr]. split; [by rewrite E1|by rewrite E2]. Qed.

Definition turn_discipline : Discipline w.
Proof.
  refine (mk_discipline w turn_kept _ _ _ _).
  - intros A h h' x Hq cur run. by apply quiet_at.
  - intros A h h' r Hq Hr cur run Hh. by apply Hr, (quiet_at h).
  - intros A B m k Hm Hk h cur run Hh. specialize (Hm h cur run Hh). unfold abind. destruct (m h) as [h' [x|e]]; [|done]. by apply Hk.
  - intros e cause h He cur run. apply triple_tell. by apply brackets_neutral.
Defined.
End turns.

(** Handlers that open and end turns. *)
Section turn_handlers.
Context {St : Type} `{SessionStore St} (w : World).
Implicit Types h : Hub St.
Abbreviation neutral := (keeping (turn_discipline w)).
#[local] Hint Resolve neutral_take neutral_held_then neutral_enqueue neutral_log_input neutral_record_inputs neutral_ack
  neutral_gate_input neutral_announce neutral_set_queue neutral_reject neutral_applied neutral_submit_command
  neutral_outcome neutral_refresh neutral_cancel_command neutral_record_for : turns.

(** What listeners take to be running is what runs. *)
Definition settled h : Prop := ∃ cur, at_turn cur cur h.
Definition sound {A} (m : @Act St A) : Prop := ∀ h, settled h → settled (m h).1.

Lemma settled_idle h : settled h → dk_running (hb_bench h) = None → at_turn None None h.
Proof. intros (cur & Hb & Hr) E. rewrite E in Hr. simpl in Hr. subst cur. split; [done|by rewrite E]. Qed.
Lemma settled_running h turn : settled h → is_running h turn = true → at_turn (Some turn) (Some turn) h.
Proof.
  intros (cur & Hb & Hr). unfold is_running. destruct (dk_running (hb_bench h)) as [r|] eqn:E; [|done].
  intros Er%bool_decide_eq_true. simpl in Hr. subst cur turn. split; [done|by rewrite E].
Qed.
Lemma busy_idle h : busy h = false → dk_running (hb_bench h) = None.
Proof. unfold busy. by destruct (dk_running _). Qed.
Lemma idle_settled h : at_turn None None h → settled h.
Proof. by exists None. Qed.

Lemma sound_neutral {A} (m : @Act St A) : neutral m → sound m.
Proof.
  intros Hm h (cur & Hh). specialize (Hm h cur cur Hh). unfold keeping, kept in Hm. destruct (m h) as [h' [x|e]]; [by exists cur|by apply idle_settled].
Qed.
(** A move of the bench that may forget an input. *)
Lemma turn_bench (f : Bench → Bench) : (∀ d, rn_turn <$> dk_running (f d) = rn_turn <$> dk_running d) → neutral (set_bench_of f).
Proof. intros Hf h cur run [Hb Hr]. split; [done|]. simpl. by rewrite Hf. Qed.
Lemma turn_close_gate : neutral (close_gate w).
Proof.
  intros h. unfold close_gate. destruct (gate_drain _) as [gate intents].
  apply kept_act, keeping_bind; [by apply turn_bench|]. unfold closed_reject. intros _. apply keeping_each. intros ?. apply neutral_reject.
Qed.
Lemma sound_bind {A B} (m : @Act St A) (k : A → Act B) : sound m → (∀ x, sound (k x)) → sound (abind m k).
Proof. intros Hm Hk h Hh. specialize (Hm h Hh). unfold abind. destruct (m h) as [h' [x|e]]; [by apply Hk|done]. Qed.
Lemma triple_neutral {A} (m : @Act St A) cur run : neutral m → triple (at_turn cur run) m (λ _, at_turn cur run).
Proof. intros Hm h Hh. apply (Hm h cur run Hh). Qed.
Lemma triple_settled {A} P (m : @Act St A) h : triple P m (λ _, settled) → P h → settled (m h).1.
Proof. intros Hm Hh. specialize (Hm h Hh). destruct (m h) as [h' [x|e]]; [done|by apply idle_settled]. Qed.
(** After what leaves the session where the rest expects it. *)
Lemma reaches_bind {A B} P (m : @Act St A) Q (k : A → Act B) :
  triple P m Q → (∀ x h, Q x h → settled (k x h).1) → ∀ h, P h → settled (abind m k h).1.
Proof.
  intros Hm Hk h Hh. specialize (Hm h Hh). unfold abind. destruct (m h) as [h' [x|e]]; [by apply Hk|by apply idle_settled].
Qed.

Lemma start_turn_settles inputs origin h : at_turn None None h → settled (start_turn w inputs origin h).1.
Proof.
  intros Hh. unfold start_turn. generalize (w_turn w (hb_taken h)). intros turn.
  eapply triple_settled; [|exact Hh].
  eapply triple_bind; [apply triple_neutral, neutral_record_inputs|intros recorded].
  eapply triple_bind; [by apply (triple_tell w _ _ None (Some turn))|intros ?].
  eapply triple_bind; [apply triple_neutral, neutral_ack|intros ?].
  intros h' [Hb _]. exists (Some turn). by split.
Qed.

Lemma held_start_settles intent input origin h : at_turn None None h →
  settled (abind (held_then w intent input) (fun inputs => start_turn w inputs origin) h).1.
Proof.
  eapply reaches_bind; [apply triple_neutral, neutral_held_then|]. intros inputs h'. apply start_turn_settles.
Qed.

Lemma sound_submit_prose intent input : sound (submit_prose w intent input).
Proof.
  intros h Hh. unfold submit_prose. destruct (negb _); [apply sound_neutral; eauto with turns|].
  destruct (busy h) eqn:Eb; [apply sound_neutral; eauto with turns|].
  simpl; destruct (ready _); [apply sound_neutral; eauto with turns|]. by apply held_start_settles, settled_idle, busy_idle.
Qed.

Lemma sound_deliver_ready intent input delivery : sound (deliver_ready w intent input delivery).
Proof.
  intros h Hh. unfold deliver_ready, closed_reject. destruct (closed_or_closing h); [by apply sound_neutral; eauto with turns|].
  destruct (Queue.stamped input delivery); [|by apply sound_neutral; eauto with turns].
  destruct (validate _); [|by apply sound_neutral; eauto with turns].
  destruct (negb _); [apply sound_neutral; eauto with turns|].
  destruct (busy h) eqn:Eb; [by apply sound_neutral; eauto with turns|].
  destruct (_ || _); [by apply sound_neutral; eauto with turns|]. by apply held_start_settles, settled_idle, busy_idle.
Qed.

Lemma sound_deliver intent input delivery : sound (deliver w intent input delivery).
Proof.
  intros h Hh. unfold deliver. destruct (_ || _); [apply sound_neutral; eauto with turns|by apply sound_deliver_ready].
Qed.

Lemma settled_then {A B} (m : @Act St A) (k : A → Act B) h :
  settled (m h).1 → (∀ x, sound (k x)) → settled (abind m k h).1.
Proof. intros Hm Hk. unfold abind. destruct (m h) as [h' [x|e]]; [by apply Hk|done]. Qed.

Lemma sound_drain_queue : sound (drain_queue w).
Proof.
  intros h Hh. unfold drain_queue. destruct (busy h) eqn:Eb; [done|]. destruct (false || _); [done|].
  pose proof (settled_idle h Hh (busy_idle h Eb)) as Hidle.
  destruct (take_unit _) as [q [[inputs|intent input]|]]; [|apply sound_neutral; neutral_all; done|apply sound_neutral; eauto with turns].
  eapply reaches_bind; [apply triple_neutral, neutral_set_queue| |exact Hidle].
  intros ? h' Hh'. apply settled_then; [by apply start_turn_settles|]. intros _. apply sound_neutral. eauto with turns.
Qed.

Lemma sound_command_finished intent outcome own : sound (command_finished w intent outcome own).
Proof.
  intros h Hh. unfold command_finished. destruct (commands_finish _ _ _) as [commands [[[invocation held] vouched]|]];
    (apply sound_bind; [by apply sound_neutral, turn_bench|intros _|done]); [|apply sound_neutral, keeping_ret].
  apply sound_bind; [apply sound_neutral; neutral_all|intros _].
  apply sound_bind; [apply sound_neutral; eauto with turns|intros _].
  apply sound_bind; [apply sound_neutral; eauto with turns|intros _]. apply sound_drain_queue.
Qed.

Lemma sound_apply_gate intent verdict : sound (apply_gate w intent verdict).
Proof.
  destruct verdict as [input|input parsed command queued|error|to [[]|error]|input delivery]; simpl;
    first [apply sound_submit_prose|apply sound_deliver_ready|apply sound_neutral; eauto with turns].
Qed.

Lemma sound_gated intent verdict : sound (gated w intent verdict).
Proof.
  intros h Hh. unfold gated. destruct (gate_finish _ _) as [g [cancelled|]]; [|done]. cbv zeta.
  apply sound_bind; [by apply sound_neutral, turn_bench|intros _|done].
  apply sound_bind; [apply sound_apply_gate|intros _].
  apply sound_bind; [apply sound_neutral, keeping_update, quiet_start_gate|intros _ h' Hh'].
  destruct (_ && _); [done|by apply sound_drain_queue].
Qed.

Lemma neutral_last reason : neutral match reason with CloseClient | CloseShutdown => update checkpoint_write | _ => aret tt end.
Proof.
  destruct reason; first [apply keeping_ret|apply keeping_update; intros h; unfold checkpoint_write; by destruct (hb_store h)].
Qed.

Lemma finish_close_settles reason h : at_turn None None h → settled (finish_close w reason h).1.
Proof.
  intros Hh. unfold finish_close. destruct (drain_all _) as [q waiting]. eapply triple_settled; [|exact Hh].
  eapply triple_bind; [apply triple_neutral, neutral_set_queue|intros ?].
  eapply triple_bind; [apply triple_neutral, keeping_each; intros ?; apply neutral_reject|intros ?].
  eapply triple_bind; [by apply (triple_tell w _ _ None None)|intros ?].
  eapply triple_bind; [apply triple_neutral, (neutral_last reason)|intros ?].
  eapply triple_bind; [by apply triple_neutral, keeping_update|intros ?]. intros h'. apply idle_settled.
Qed.

Lemma sound_seq {A B} (m : @Act St A) (k : @Act St B) : neutral m → sound k → sound (abind m (fun _ => k)).
Proof. intros Hm Hk. apply sound_bind; [by apply sound_neutral|done]. Qed.

Lemma sound_close reason : sound (close w reason).
Proof.
  intros h Hh. unfold close. destruct (st_closed _); [done|]. revert h Hh.
  apply sound_seq; [apply neutral_remember|]. apply sound_seq; [apply neutral_cancel_running|].
  apply sound_seq; [apply neutral_cancel_commands|]. apply sound_seq; [apply turn_close_gate|].
  apply sound_seq; [apply neutral_cancel_all|]. intros h Hh.
  destruct (dk_running (hb_bench h)) eqn:E; [by apply sound_neutral; neutral_all; apply turn_bench|].
  by apply finish_close_settles, settled_idle.
Qed.

Lemma sound_completion completed switched : sound (completion_ready w completed switched).
Proof.
  intros h Hh. unfold completion_ready. destruct (is_running h _) eqn:Er; [|done]. simpl negb. cbv iota.
  pose proof (settled_running h _ Hh Er) as Hat.
  set (last := fun h : Hub St => match dk_closing (hb_bench h) with Some _ => _ | None => _ end).
  assert (∀ h, at_turn None None h → settled (last h).1) as Hlast.
  { intros h' Hh'. unfold last. destruct (dk_closing _) as [reason|].
    - eapply reaches_bind; [apply triple_neutral; by apply turn_bench| |exact Hh']. intros ?. apply finish_close_settles.
    - apply settled_then; [by apply sound_drain_queue, idle_settled|]. intros _. apply sound_neutral, keeping_ret. }
  clearbody last. eapply (reaches_bind _ _ (λ _, at_turn (Some (cp_turn completed)) None)); [|intros ?|exact Hat].
  { by intros h' [Hb _]. }
  eapply reaches_bind; [apply (triple_tell w _ _ _ None); simpl; by rewrite bool_decide_true|intros ?].
  eapply reaches_bind; [apply triple_neutral; destruct switched; neutral_all|intros ?].
  eapply reaches_bind; [apply triple_neutral; neutral_all|intros ?].
  eapply reaches_bind; [apply triple_neutral; neutral_all|intros ?]. exact Hlast.
Qed.

Lemma sound_compact : sound (compact w).
Proof.
  intros h Hh. unfold compact. repeat (case_match; [try done|]); try done.
  apply settled_then; [|intros _; apply sound_neutral, keeping_ret]. apply start_turn_settles, settled_idle; [done|].
  by destruct (dk_running _).
Qed.

(** A failure told to the caller: the session has closed under it. *)
Lemma sound_swallow {A B} (m : @Act St A) (x : B) : sound m → sound (fun h => ((m h).1, Ok x)).
Proof. intros Hm h. apply Hm. Qed.

Lemma sound_withdraw intent by_surface : sound (withdraw w intent by_surface).
Proof.
  intros h Hh. unfold withdraw. destruct (_ <$> _) as [origin|]; [|done]. destruct (negb _); [done|].
  destruct (take_intent _ _) as [q [input|]]; [|by apply sound_neutral; neutral_all].
  assert (sound (abind (set_queue q) (fun _ => announce_queue w))) as Hm by (apply sound_neutral; neutral_all).
  specialize (Hm h Hh). by destruct (abind _ _ h) as [h' [x|e]].
Qed.

Lemma sound_rewind transcript to_turn : sound (rewind w transcript to_turn).
Proof.
  intros h Hh. unfold rewind. case_match; [done|]. destruct (dropped _ _) as [gone|]; [|done]. cbv zeta.
  set (m := abind _ _). assert (sound m) as Hm.
  { apply sound_neutral, keeping_bind; [eauto with turns|]. intros ? h'. apply kept_act. by apply keeping_tell. }
  clearbody m. specialize (Hm h Hh). by destruct (m h) as [h' [x|e]].
Qed.

Lemma sound_receipt item :
  sound (receipt (w_clock w) (w_order w) (w_view w) (w_config_eqb w) (w_links w) item).
Proof.
  intros h Hh. unfold receipt. pose proof (sound_neutral _ (neutral_record_item w _ item) h Hh) as Hr.
  destruct (item_turn item) as [turn|]; [destruct (is_running h turn)|]; [|by case_match..].
  destruct (record_item _ _ _ _ _ item h) as [h' [x|e]]; [done|]. by case_match.
Qed.

(** Events handed to the actor by a turn or by the links say nothing of turns. *)
Definition quiet_msg (msg : Msg) : bool :=
  match msg with MCatalogueEvent e | MEmit _ e => neutral_event e | _ => true end.

Lemma sound_then (m : @Act St ()) : sound m → sound (abind m (fun _ => after_message)).
Proof. intros Hm. apply sound_bind; [done|]. by intros _ h Hh. Qed.
Lemma sound_unit {A} (m : @Act St A) : sound m → sound (unit_act m).
Proof. intros Hm. apply sound_bind; [done|]. by intros _ h Hh. Qed.
Lemma sound_update (f : Hub St → Hub St) : (∀ h, quiet h (f h)) → sound (update f).
Proof. intros Hf. by apply sound_neutral, keeping_update. Qed.

Lemma sound_dispatch msg : quiet_msg msg = true → sound (dispatch w msg).
Proof.
  destruct msg; intros Hq; simpl in Hq.
  2: apply sound_completion.
  30: { intros h Hh. simpl. unfold reserve_delete. destruct (_ || _); [done|]. destruct commits; [by apply sound_close|done]. }
  30: apply sound_close.
  17: { apply sound_bind; [apply sound_neutral, neutral_turn_finished|intros _; apply sound_neutral, keeping_ret]. }
  all: apply sound_then.
  - intros h Hh. case_match; [done|]. by apply sound_neutral, Hh; apply keeping_tell.
  - apply sound_neutral, neutral_submit.
  - apply sound_gated.
  - apply sound_deliver.
  - apply sound_neutral, neutral_extend.
  - by apply sound_neutral, keeping_tell.
  - apply sound_neutral, neutral_signal.
  - apply sound_swallow, sound_neutral, neutral_handoff.
  - apply sound_neutral, neutral_interrupt.
  - apply sound_unit, sound_withdraw.
  - apply sound_neutral, neutral_answer.
  - apply sound_update. intros h. unfold acknowledge. repeat case_match; done.
  - by apply sound_update.
  - by apply sound_neutral, neutral_emit.
  - apply sound_neutral, neutral_open.
  - intros h Hh. case_match; [|done]. by apply sound_unit; [apply sound_neutral, neutral_steer|].
  - apply sound_unit, sound_receipt.
  - apply sound_unit, sound_neutral, neutral_record_for.
  - apply sound_neutral, neutral_progress.
  - apply sound_command_finished.
  - apply sound_bind; [apply sound_neutral, neutral_publish_summary|intros _].
    apply sound_bind; [apply sound_neutral; destruct context; neutral_all|intros _]. apply sound_neutral, neutral_refresh.
  - apply sound_swallow, sound_neutral, neutral_charge.
  - apply sound_neutral, neutral_open_call.
  - apply sound_neutral, neutral_call_asked.
  - apply sound_neutral, neutral_call_allowed.
  - apply sound_neutral, neutral_call_finished.
  - apply sound_unit, sound_rewind.
  - apply sound_unit, sound_compact.
Qed.

Lemma sound_handle msg h : quiet_msg msg = true → settled h → settled (handle w msg h).1.
Proof. intros Hq Hh. unfold handle. pose proof (sound_dispatch msg Hq h Hh). by destruct (dispatch w msg h) as [h' [flow|e]]. Qed.
Lemma sound_run msgs h : forallb quiet_msg msgs = true → settled h → settled (actor_run w h msgs).1.
Proof.
  revert h. induction msgs as [|msg msgs IH]; intros h; simpl; [done|]. intros [Hq Hqs]%andb_prop Hh.
  pose proof (sound_handle msg h Hq Hh). destruct (handle w msg h) as [h' []]; [by apply IH|done].
Qed.

(** C4: Turns never overlap.  Whatever messages the actor is sent, in whatever
    order and with whatever journal failures, the frames a session publishes
    start a turn only when none is running, end the very turn that was started,
    and agree at every point with the turn the actor itself has running. *)
Theorem turns_never_overlap msgs h : forallb quiet_msg msgs = true →
  hb_published h = [] → dk_running (hb_bench h) = None →
  let h' := (actor_run w h msgs).1 in
  brackets None (fr_event <$> hb_published h') = Some (rn_turn <$> dk_running (hb_bench h')).
Proof.
  intros Hq Hp Hr. cbv zeta. assert (settled h) as Hh by (exists None; split; [by rewrite Hp|by rewrite Hr]).
  destruct (sound_run msgs h Hq Hh) as (cur & -> & ->). done.
Qed.
End turn_handlers.

(** ** A session at work *)

Definition demo_instant : Cmd := mkCmd (demo_spec (lit "x")) (λ _ _, true) (λ _ _ _, Ok (Handled true)).
Definition demo_world : World :=
  mkWorld demo_clock demo_order demo_mint demo_mint demo_mint demo_add demo_view same_config false true None true (λ _, []) (λ _, VNull).
Definition demo_text (text : str) : Input := demo_line text Wake.
(** Two lines, one of which waits for the first one's turn to end, a command and
    a line that is interrupted in the gate. *)
Definition demo_messages : list Msg :=
  [MSubmit (lit "a") (demo_text (lit "one")); MGated (lit "a") (VerdictProse (demo_text (lit "one")));
   MSubmit (lit "b") (demo_text (lit "two")); MGated (lit "b") (VerdictProse (demo_text (lit "two")));
   MEmit (demo_mint 0) (Notice Info (lit "n") (lit "m")); MInterrupt (lit "c") (ScopeTurn (lit "t9"));
   MTurnFinished (demo_mint 0) (Returned TurnDone);
   MCompletionReady (mkCompleted (demo_mint 0) TurnDone usage_default []) None;
   MSubmit (lit "d") (demo_text (lit "/x")); MGated (lit "d") (VerdictCommand (demo_text (lit "/x")) (mkParsed (lit "x") []) demo_instant false)].
Definition demo_session : Hub (gmap str Entry) * Flow := actor_run demo_world (demo_hub (Some demo_store)) demo_messages.

Lemma turns_never_overlap_witness :
  let h := demo_session.1 in
  rn_turn <$> dk_running (hb_bench h) = Some (demo_mint 8) ∧ brackets None (fr_event <$> hb_published h) = Some (Some (demo_mint 8)).
Proof.
  cbv zeta. assert (rn_turn <$> dk_running (hb_bench demo_session.1) = Some (demo_mint 8)) as E by by vm_compute.
  split; [exact E|]. unfold demo_session in *.
  rewrite (turns_never_overlap demo_world demo_messages (demo_hub (Some demo_store)) eq_refl eq_refl eq_refl). reflexivity.
Defined.
