(* ===== verification/Tasks.v ===== *)
(** * Tasks: the list of what is to be done (bingo-tasks)

    task.rs is the list as a pure value; board.rs says whose list a call works on;
    journal.rs keeps the list as an extension of a session's journal, folded by the
    kernel's own reducer ([State.extended]); the tools, the [/tasks] command, the
    service and the contributor read the list, change it and publish the whole of it
    again.  The host's answers that the crate does not decide (the sessions there are,
    a session that cannot be opened, an extension or an invalidation refused) are the
    fields of [TaskHost]; every operation runs on a [Desk], the folded states of the
    sessions.  The task pane ([sheet.rs]) is modelled up to its views: the order of its
    rows and which of them is picked. *)

From S2P Require Import Prelude Text Model Interaction Event Transcript State Ears Round Commands.

(** ** task.rs *)

Inductive Status := Pending | InProgress | Completed.
#[export] Instance Status_eq_dec : EqDecision Status.
Proof. solve_decision. Defined.
Definition status_as_str (s : Status) : str :=
  match s with Pending => lit "pending" | InProgress => lit "in_progress" | Completed => lit "completed" end.

Record Task := mkTask {
  tk_id : N;
  tk_subject : str;
  tk_description : str;
  tk_active_form : option str;
  tk_status : Status;
  tk_owner : option str;
  tk_blocks : list N;
  tk_blocked_by : list N;
  tk_metadata : list (str * Value);
}.
Record Draft := mkDraft {
  dr_subject : str;
  dr_description : str;
  dr_active_form : option str;
  dr_owner : option str;
  dr_blocked_by : list N;
  dr_blocks : list N;
  dr_metadata : list (str * Value);
}.
Definition draft_named (subject : str) (owner : option str) : Draft := mkDraft subject [] None owner [] [] [].
Record Change := mkChange {
  ch_id : N;
  ch_subject : option str;
  ch_description : option str;
  ch_active_form : option str;
  ch_status : option Status;
  ch_owner : option str;
  ch_add_blocked_by : list N;
  ch_add_blocks : list N;
  ch_metadata : list (str * Value);
}.
Definition change_status (id : N) (s : Status) : Change := mkChange id None None None (Some s) None [] [] [].
Definition change_owner (id : N) (owner : str) : Change := mkChange id None None None None (Some owner) [] [] [].
Definition with_owner (owner : str) (c : Change) : Change :=
  mkChange (ch_id c) (ch_subject c) (ch_description c) (ch_active_form c) (ch_status c) (Some owner)
    (ch_add_blocked_by c) (ch_add_blocks c) (ch_metadata c).

Definition next_id (tasks : list Task) : N := u64_add (foldr N.max 0%N (tk_id <$> tasks)) 1.
Definition create (tasks : list Task) (draft : Draft) : Task * list Task :=
  let task := mkTask (next_id tasks) (dr_subject draft) (dr_description draft) (dr_active_form draft) Pending
    (dr_owner draft) (dr_blocks draft) (dr_blocked_by draft) (dr_metadata draft) in
  (task, tasks ++ [task]).
Definition add_ids (ids more : list N) : list N :=
  foldl (fun ids id => if bool_decide (id ∈ ids) then ids else ids ++ [id]) ids more.
Definition map_extend (m more : list (str * Value)) : list (str * Value) :=
  foldl (fun m kv => map_insert kv.1 kv.2 m) m more.
Definition changed (change : Change) (task : Task) : Task :=
  mkTask (tk_id task)
    (default (tk_subject task) (ch_subject change))
    (default (tk_description task) (ch_description change))
    (option_or (ch_active_form change) (tk_active_form task))
    (default (tk_status task) (ch_status change))
    (option_or (ch_owner change) (tk_owner task))
    (add_ids (tk_blocks task) (ch_add_blocks change))
    (add_ids (tk_blocked_by task) (ch_add_blocked_by change))
    (map_extend (tk_metadata task) (ch_metadata change)).
Fixpoint update (tasks : list Task) (change : Change) : option (Task * list Task) :=
  match tasks with
  | [] => None
  | task :: rest =>
      if N.eqb (tk_id task) (ch_id change) then let task := changed change task in Some (task, task :: rest)
      else let? found := update rest change in Some (found.1, task :: found.2)
  end.
Definition get (tasks : list Task) (id : N) : option Task := find_bool (fun task => N.eqb (tk_id task) id) tasks.
Definition open_ones (tasks : list Task) : list Task :=
  retain (fun task => negb (bool_decide (tk_status task = Completed))) tasks.

(** ** The JSON of a task and of what the tools are handed *)

Definition present_field (key : str) (shown : bool) (v : Value) : list (str * Value) := if shown then [(key, v)] else [].
Definition ids_value (ids : list N) : Value := VArray (VNumber ∘ PosInt <$> ids).
Definition opt_str_value (o : option str) : Value := match o with Some s => VString s | None => VNull end.
Definition is_nil {A} (l : list A) : bool := match l with [] => true | _ => false end.
Definition task_value (t : Task) : Value :=
  VObject ([(lit "id", VNumber (PosInt (tk_id t))); (lit "subject", VString (tk_subject t))]
    ++ present_field (lit "description") (negb (is_nil (tk_description t))) (VString (tk_description t))
    ++ present_field (lit "activeForm") (option_is_some (tk_active_form t)) (opt_str_value (tk_active_form t))
    ++ [(lit "status", VString (status_as_str (tk_status t)))]
    ++ present_field (lit "owner") (option_is_some (tk_owner t)) (opt_str_value (tk_owner t))
    ++ present_field (lit "blocks") (negb (is_nil (tk_blocks t))) (ids_value (tk_blocks t))
    ++ present_field (lit "blockedBy") (negb (is_nil (tk_blocked_by t))) (ids_value (tk_blocked_by t))
    ++ present_field (lit "metadata") (negb (is_nil (tk_metadata t))) (VObject (tk_metadata t))).

Definition field_or {T} (d : T) (read : Value → option T) (v : option Value) : option T :=
  match v with Some v => read v | None => Some d end.
Definition read_opt {T} (read : Value → option T) (v : Value) : option (option T) :=
  if is_null v then Some None else Some <$> read v.
Definition read_ids (v : Value) : option (list N) := let? l := as_array v in mapM as_u64 l.
Definition read_object (v : Value) : option (list (str * Value)) := match v with VObject m => Some m | _ => None end.
Definition status_word (s : str) : option Status :=
  find_bool (fun st => bool_decide (status_as_str st = s)) [Pending; InProgress; Completed].
(** A unit variant is its name, or an object of that one key over a unit. *)
Definition read_status (unit : Value → bool) (v : Value) : option Status :=
  match v with
  | VString s => status_word s
  | VObject [(s, u)] => if unit u then status_word s else None
  | _ => None
  end.
(** Through a flattened field an empty object is a unit too. *)
Definition unit_content (v : Value) : bool := match v with VNull | VObject [] => true | _ => false end.

Definition task_fields : list str :=
  [lit "id"; lit "subject"; lit "description"; lit "activeForm"; lit "status"; lit "owner"; lit "blocks"; lit "blockedBy"; lit "metadata"].
Definition object_task (m : list (str * Value)) : option Task :=
  let? id := map_get (lit "id") m ≫= as_u64 in
  let? subject := map_get (lit "subject") m ≫= as_str in
  let? description := field_or [] as_str (map_get (lit "description") m) in
  let? active_form := field_or None (read_opt as_str) (map_get (lit "activeForm") m) in
  let? status := map_get (lit "status") m ≫= read_status is_null in
  let? owner := field_or None (read_opt as_str) (map_get (lit "owner") m) in
  let? blocks := field_or [] read_ids (map_get (lit "blocks") m) in
  let? blocked_by := field_or [] read_ids (map_get (lit "blockedBy") m) in
  let? metadata := field_or [] read_object (map_get (lit "metadata") m) in
  Some (mkTask id subject description active_form status owner blocks blocked_by metadata).
(** A struct is read from an object, or from its fields in order. *)
Definition value_task (v : Value) : option Task :=
  match v with
  | VObject m => object_task m
  | VArray l => if length l <=? length task_fields then object_task (zip task_fields l) else None
  | _ => None
  end.
Definition value_tasks (v : Value) : option (list Task) := let? l := as_array v in mapM value_task l.

Definition object_draft (m : list (str * Value)) : option Draft :=
  let? subject := map_get (lit "subject") m ≫= as_str in
  let? description := field_or [] as_str (map_get (lit "description") m) in
  let? active_form := field_or None (read_opt as_str) (map_get (lit "activeForm") m) in
  let? owner := field_or None (read_opt as_str) (map_get (lit "owner") m) in
  let? blocked_by := field_or [] read_ids (map_get (lit "blockedBy") m) in
  let? blocks := field_or [] read_ids (map_get (lit "blocks") m) in
  let? metadata := field_or [] read_object (map_get (lit "metadata") m) in
  Some (mkDraft subject description active_form owner blocked_by blocks metadata).
Definition object_change (m : list (str * Value)) : option Change :=
  let? id := map_get (lit "id") m ≫= as_u64 in
  let? subject := field_or None (read_opt as_str) (map_get (lit "subject") m) in
  let? description := field_or None (read_opt as_str) (map_get (lit "description") m) in
  let? active_form := field_or None (read_opt as_str) (map_get (lit "activeForm") m) in
  let? status := field_or None (read_opt (read_status unit_content)) (map_get (lit "status") m) in
  let? owner := field_or None (read_opt as_str) (map_get (lit "owner") m) in
  let? add_blocked_by := field_or [] read_ids (map_get (lit "addBlockedBy") m) in
  let? add_blocks := field_or [] read_ids (map_get (lit "addBlocks") m) in
  let? metadata := field_or [] read_object (map_get (lit "metadata") m) in
  Some (mkChange id subject description active_form status owner add_blocked_by add_blocks metadata).

(** ** board.rs: whose list it is *)

(** The word [in] of a call: a room's name, if one was given. *)
Record In_ := mkIn { in_room : option str }.
Definition object_in (m : list (str * Value)) : option In_ :=
  mkIn <$> field_or None (read_opt as_str) (map_get (lit "in") m).
Definition in_name (i : In_) : option str :=
  let? room := in_room i in let name := trim room in if is_nil name then None else Some name.
Definition spoken (args : str) : result KernelError In_ :=
  match split_whitespace args with
  | [] => Ok (mkIn None)
  | [word; room] =>
      if bool_decide (word = lit "in") then Ok (mkIn (Some room))
      else Err (mkKernelError InvalidInput (lit "`/tasks` takes nothing, or `in #room`"))
  | _ => Err (mkKernelError InvalidInput (lit "`/tasks` takes nothing, or `in #room`"))
  end.

Record Board := mkBoard { bd_session : SessionId; bd_tree : option (list SessionSummary) }.
Definition board_title (name : str) : str := if starts_with name [chr "#"] then name else chr "#" :: name.
Definition is_child (session : SessionSummary) (parent : SessionId) : bool :=
  match ss_parent session with Some link => bool_decide (pl_session link = parent) | None => false end.
Definition pick (tree : list SessionSummary) (id : SessionId) : option SessionSummary :=
  find_bool (fun session => bool_decide (ss_id session = id)) tree.
Definition parent_of (tree : list SessionSummary) (id : SessionId) : option SessionId :=
  let? own := pick tree id in pl_session <$> ss_parent own.
Definition is_log (s : SessionSummary) : bool := match ss_driver s with DriverLog => true | _ => false end.
Definition rooms_under (tree : list SessionSummary) (parent : SessionId) : list SessionSummary :=
  retain (fun session => is_log session && is_child session parent) tree.
Definition reachable (tree : list SessionSummary) (caller : SessionId) : list SessionSummary :=
  rooms_under tree caller ++
  match parent_of tree caller with Some parent => rooms_under tree parent | None => [] end.
Definition around (tree : list SessionSummary) (board : SessionId) : list str :=
  match parent_of tree board with
  | None => []
  | Some parent =>
      omap ss_title (retain (fun session => negb (is_log session) && is_child session parent) tree)
      ++ match pick tree parent ≫= ss_title with Some holder => [holder] | None => [] end
  end.
Definition present (b : Board) : option (list str) := (fun tree => around tree (bd_session b)) <$> bd_tree b.
Definition named (rooms : list SessionSummary) (title : str) : option SessionSummary :=
  find_bool (fun room => bool_decide (ss_title room = Some title)) rooms.
Definition unreachable (title : str) (reachable : list SessionSummary) : KernelError :=
  mkKernelError InvalidInput
    match omap ss_title reachable with
    | [] => lit "no board called " ++ title ++ lit " is within reach; open a room first, or leave `in` out for this session's own list"
    | here => lit "no board called " ++ title ++ lit " is within reach; the rooms here are: " ++ join (lit ", ") here
    end.

(** ** render.rs: how a task reads *)

Definition NONE : str := lit "No tasks. TaskCreate adds one.".
Definition GONE : str := lit " (gone)".
Definition HEADING : str := lit "# Tasks".
Definition dash : str := chr " " :: em_dash :: lit " ".
Definition line_feed : str := [10%N].
(** The names a listing may say are here; a session's own list says nothing. *)
Abbreviation Present := (option (list str)) (only parsing).
Definition gone (here : Present) (owner : str) : bool :=
  match here with Some names => negb (any (fun name => bool_decide (name = owner)) names) | None => false end.
Definition owner_said (here : Present) (task : Task) : option str :=
  let? owner := tk_owner task in Some (if gone here owner then owner ++ GONE else owner).
Definition ids_said (ids : list N) : str := join (lit ", ") ((fun id => chr "#" :: show_N id) <$> ids).
Definition line (task : Task) (here : Present) : str :=
  chr "#" :: show_N (tk_id task) ++ lit " [" ++ status_as_str (tk_status task) ++ lit "] " ++ tk_subject task
  ++ match owner_said here task with Some owner => dash ++ owner | None => [] end
  ++ (if is_nil (tk_blocked_by task) then [] else lit " (blocked by " ++ ids_said (tk_blocked_by task) ++ lit ")").
Definition listing (tasks : list Task) (here : Present) : str :=
  match tasks with [] => NONE | _ => join line_feed ((fun task => line task here) <$> tasks) end.
Definition reminder (tasks : list Task) : option str :=
  match open_ones tasks with
  | [] => None
  | open => Some (HEADING ++ line_feed ++ join line_feed ((fun task => lit "- " ++ line task None) <$> open))
  end.
Definition row (task : Task) (here : Present) : list str :=
  [show_N (tk_id task); status_as_str (tk_status task); tk_subject task; default [] (owner_said here task)].
Definition rows (tasks : list Task) (here : Present) : list (list str) := (fun task => row task here) <$> tasks.
Definition HEADERS : list str := [lit "id"; lit "status"; lit "subject"; lit "owner"].

(** ** journal.rs: where the list lives *)

Definition PLUGIN : str := lit "bingo.tasks".
Definition KIND : str := lit "tasks".
Definition tasks_of (snapshot : SessionState) : list Task :=
  match (st_extensions snapshot !! PLUGIN) ≫= (fun kinds => kinds !! KIND) with
  | None => []
  | Some payload => default [] (value_tasks (default payload (value_get (lit "tasks") payload)))
  end.
Definition tasks_payload (tasks : list Task) : Value := VObject [(lit "tasks", VArray (task_value <$> tasks))].

Abbreviation Desk := (gmap SessionId SessionState) (only parsing).
Record TaskHost := mkTaskHost {
  th_sessions : result KernelError (list SessionSummary);
  (** the error of opening, extending or invalidating, where there is one *)
  th_open : SessionId → option KernelError;
  th_extend : SessionId → option KernelError;
  th_invalidate : SessionId → option KernelError;
}.
Definition Job A : Type := Desk → result KernelError A * Desk.
Definition no_session : KernelError := mkKernelError SessionNotFound (lit "no such session").

Section jobs.
Context (host : TaskHost).

Definition done {A} (a : A) : Job A := fun desk => (Ok a, desk).
Definition failing {A} (e : KernelError) : Job A := fun desk => (Err e, desk).
Definition answered {A} (r : result KernelError A) : Job A := fun desk => (r, desk).
Definition bind {A B} (m : Job A) (k : A → Job B) : Job B :=
  fun desk => match m desk with (Ok a, desk) => k a desk | (Err e, desk) => (Err e, desk) end.
Notation "'do*' x := m 'in' k" := (bind m (fun x => k)) (at level 200, x pattern, m at level 100, k at level 200).

Definition snapshot_of (session : SessionId) : Job SessionState := fun desk =>
  match th_open host session, desk !! session with
  | Some e, _ => (Err e, desk)
  | None, Some state => (Ok state, desk)
  | None, None => (Err no_session, desk)
  end.
Definition read (session : SessionId) : Job (list Task) := do* state := snapshot_of session in done (tasks_of state).
(** [host.extend]: the kernel journals the payload and folds it. *)
Definition extend (session : SessionId) (payload : Value) : Job () := fun desk =>
  match th_extend host session, desk !! session with
  | Some e, _ => (Err e, desk)
  | None, Some state => (Ok tt, <[session := (extended PLUGIN KIND payload state).1]> desk)
  | None, None => (Err no_session, desk)
  end.
Definition invalidate (session : SessionId) : Job () :=
  match th_invalidate host session with Some e => failing e | None => done tt end.
Definition write (session : SessionId) (tasks : list Task) : Job () :=
  do* _ := extend session (tasks_payload tasks) in invalidate session.

(** ** create.rs, update.rs: adding and changing *)

Definition add (session : SessionId) (draft : Draft) : Job str :=
  if is_nil (trim (dr_subject draft)) then failing (mkKernelError InvalidInput (lit "/tasks add <subject> [@owner]"))
  else
    do* tasks := read session in
    let made := create tasks draft in
    do* _ := write session made.2 in
    done (lit "Created #" ++ show_N (tk_id made.1) ++ lit ": " ++ tk_subject made.1).

Definition unknown_said (id : N) : str := lit "No task #" ++ show_N id ++ lit ". TaskList shows what there is.".
Definition receipt (task : Task) (claimed : bool) : str :=
  let line := lit "Updated #" ++ show_N (tk_id task) ++ lit " (" ++ status_as_str (tk_status task) ++ lit "): " ++ tk_subject task in
  match claimed, tk_owner task with true, Some owner => line ++ dash ++ owner | _, _ => line end.
Definition change_task (session : SessionId) (change : Change) (claimed : bool) : Job str :=
  do* tasks := read session in
  match update tasks change with
  | None => failing (mkKernelError InvalidInput (unknown_said (ch_id change)))
  | Some found => do* _ := write session found.2 in done (receipt found.1 claimed)
  end.
Definition assign (session : SessionId) (id : N) (owner : str) : Job str :=
  let owner := trim_start_by (N.eqb (chr "@")) (trim owner) in
  if is_nil owner then failing (mkKernelError InvalidInput (lit "/tasks assign <id> <owner>"))
  else change_task session (change_owner id owner) false.

Definition board_of (caller : SessionId) (asked : In_) : result KernelError Board :=
  match in_name asked with
  | None => Ok (mkBoard caller None)
  | Some name =>
      let wanted := board_title name in
      let* tree := th_sessions host in
      let reachable := reachable tree caller in
      match named reachable wanted with
      | Some room => Ok (mkBoard (ss_id room) (Some tree))
      | None => Err (unreachable wanted reachable)
      end
  end.
Definition claimant (caller : SessionId) : result KernelError str :=
  let* tree := th_sessions host in
  match pick tree caller ≫= ss_title with
  | Some name => Ok name
  | None => Err (mkKernelError InvalidInput
              (lit "this session has no name of its own to claim with; name the doer with `owner`"))
  end.

(** ** The four tools *)

(** What [serde_json] says of an input it cannot read, and its pretty printer. *)
Context (refusal : Value → str) (pretty : Value → str).
Definition Called : Type := Desk → result ToolError ToolOutput * Desk.
Definition failed (e : KernelError) : ToolError := TeFailed (ke_message e).
Definition misaddressed (e : KernelError) : result ToolError ToolOutput :=
  match ke_code e with InvalidInput => Ok (output_error (ke_message e)) | _ => Err (failed e) end.
Definition task_traits (input : Value) : ToolTraits :=
  mkToolTraits (match value_get (lit "in") input with None => true | Some v => is_null v end)
    false true false false LimitGlobal true.
Definition as_fields (input : Value) : list (str * Value) := default [] (read_object input).
(** A struct with flattened fields is read from an object alone. *)
Definition object_args {T} (read : list (str * Value) → option T) (input : Value) : option T :=
  match input with VObject m => read m | _ => None end.

Definition create_args (m : list (str * Value)) : option (Draft * In_) :=
  let? draft := object_draft m in let? board := object_in m in Some (draft, board).
Definition TaskCreate (caller : SessionId) (input : Value) : Called := fun desk =>
  match object_args create_args input with
  | None => (Err (TeInvalidInput (refusal input)), desk)
  | Some (draft, asked) =>
      match board_of caller asked with
      | Err e => (misaddressed e, desk)
      | Ok board =>
          match add (bd_session board) draft desk with
          | (Ok said, desk) => (Ok (output_text said), desk)
          | (Err e, desk) => (Err (failed e), desk)
          end
      end
  end.

Record UpdateArgs := mkUpdateArgs { ua_change : Change; ua_board : In_; ua_claim : option bool }.
Definition update_args (m : list (str * Value)) : option UpdateArgs :=
  let? change := object_change m in
  let? board := object_in m in
  let? claim := field_or None (read_opt as_bool) (map_get (lit "claim") m) in
  Some (mkUpdateArgs change board claim).
Definition claims (a : UpdateArgs) : bool := default false (ua_claim a).
(** The change as it is made: a claim is stamped with the caller's own name. *)
Definition stamped (caller : SessionId) (a : UpdateArgs) : result KernelError Change :=
  if claims a then let* name := claimant caller in Ok (with_owner name (ua_change a)) else Ok (ua_change a).
Definition TaskUpdate (caller : SessionId) (input : Value) : Called := fun desk =>
  match object_args update_args input with
  | None => (Err (TeInvalidInput (refusal input)), desk)
  | Some args =>
      match board_of caller (ua_board args) with
      | Err e => (misaddressed e, desk)
      | Ok board =>
          match stamped caller args with
          | Err e => (misaddressed e, desk)
          | Ok change =>
              match change_task (bd_session board) change (claims args) desk with
              | (Ok said, desk) => (Ok (output_text said), desk)
              | (Err e, desk) => (misaddressed e, desk)
              end
          end
      end
  end.

Definition get_args (m : list (str * Value)) : option (N * In_) :=
  let? id := map_get (lit "id") m ≫= as_u64 in let? board := object_in m in Some (id, board).
Definition TaskGet (caller : SessionId) (input : Value) : Called := fun desk =>
  match object_args get_args input with
  | None => (Err (TeInvalidInput (refusal input)), desk)
  | Some (id, asked) =>
      match board_of caller asked with
      | Err e => (misaddressed e, desk)
      | Ok board =>
          match read (bd_session board) desk with
          | (Err e, desk) => (Err (failed e), desk)
          | (Ok tasks, desk) =>
              (Ok match get tasks id with
                  | None => output_error (unknown_said id)
                  | Some task => output_text (pretty (task_value task))
                  end, desk)
          end
      end
  end.

Definition list_args (input : Value) : option In_ :=
  match input with VNull => Some (mkIn None) | _ => object_args object_in input end.
Definition TaskList (caller : SessionId) (input : Value) : Called := fun desk =>
  match list_args input with
  | None => (Err (TeInvalidInput (refusal input)), desk)
  | Some asked =>
      match board_of caller asked with
      | Err e => (misaddressed e, desk)
      | Ok board =>
          match read (bd_session board) desk with
          | (Err e, desk) => (Err (failed e), desk)
          | (Ok tasks, desk) => (Ok (output_text (listing tasks (present board))), desk)
          end
      end
  end.

(** ** command.rs: [/tasks] *)

(** [str::split_once(char::is_whitespace)], or the whole and nothing. *)
Fixpoint first_word (s : str) : str * str :=
  match s with
  | [] => ([], [])
  | c :: s => if is_whitespace c then ([], s) else let w := first_word s in (c :: w.1, w.2)
  end.
(** [rest.rsplit_once(" @")]. *)
Fixpoint owner_named (rest : str) : option (str * str) :=
  match rest with
  | [] => None
  | c :: tl =>
      match owner_named tl with
      | Some (subject, owner) => Some (c :: subject, owner)
      | None => (fun owner => ([], owner)) <$> strip_prefix (lit " @") rest
      end
  end.
Definition invalid_id : KernelError := mkKernelError InvalidInput (lit "name a numeric task id").
Definition command_write (caller : SessionId) (args : str) : Job (option str) :=
  let (verb, rest) := first_word (trim args) in
  if bool_decide (verb = lit "add") then
    let draft := match owner_named rest with
                 | Some (subject, owner) => draft_named subject (Some owner)
                 | None => draft_named rest None
                 end in
    do* said := add caller draft in done (Some said)
  else if bool_decide (verb = lit "assign") then
    let (id, owner) := first_word (trim rest) in
    match parse_u64 id with
    | None => failing invalid_id
    | Some id => do* said := assign caller id owner in done (Some said)
    end
  else if bool_decide (verb = lit "done") || bool_decide (verb = lit "open") then
    match parse_u64 (first_word (trim rest)).1 with
    | None => failing invalid_id
    | Some id =>
        let status := if bool_decide (verb = lit "done") then Completed else Pending in
        do* said := change_task caller (change_status id status) false in done (Some said)
    end
  else done None.
Definition empty_said (asked : In_) : str :=
  match in_name asked with None => lit "no tasks in this session" | Some name => lit "no tasks on " ++ name end.
(** What the command answers: a receipt, a line or a table. *)
Inductive TasksShown := TsApplied (said : str) | TsLine (text : str) | TsTable (headers : list str) (cells : list (list str)).
Definition tasks_command (caller : SessionId) (args : str) : Job TasksShown :=
  do* said := command_write caller args in
  match said with
  | Some said => done (TsApplied said)
  | None =>
      do* asked := answered (spoken args) in
      do* board := answered (board_of caller asked) in
      do* tasks := read (bd_session board) in
      if is_nil tasks then done (TsLine (empty_said asked))
      else done (TsTable HEADERS (rows tasks (present board)))
  end.

(** ** service.rs *)

Record TaskRow := mkTaskRow { tr_id : N; tr_subject : str; tr_status : Status; tr_owner : option str }.
Definition task_row (t : Task) : TaskRow := mkTaskRow (tk_id t) (tk_subject t) (tk_status t) (tk_owner t).
Definition service_board (session : SessionId) : Job (list TaskRow) := do* tasks := read session in done (task_row <$> tasks).
Definition service_add (session : SessionId) (subject : str) (owner : option str) : Job str :=
  add session (draft_named subject owner).
Definition service_set_status (session : SessionId) (id : N) (status : Status) : Job str :=
  change_task session (change_status id status) false.
Definition service_reassign (session : SessionId) (id : N) (owner : str) : Job str := assign session id owner.

(** ** contributor.rs, and the sdk's snapshot of changed state *)

Definition CONTRIBUTOR_PREFIX : str := lit "contributor:".
Definition contributed (id : str) (i : Item) : option (list ContentPart) :=
  match item_body i with
  | BUser parts origin => if bool_decide (strip_prefix CONTRIBUTOR_PREFIX (surface origin) = Some id) then Some parts else None
  | _ => None
  end.
(** A user piece: its parts and its label. *)
Definition snapshot (id text : str) (items : list Item) : option (list ContentPart * str) :=
  let same := match find_map (contributed id) (reverse items) with
              | Some [PText previous] => bool_decide (previous = text)
              | _ => false
              end in
  if same then None else Some ([PText text], id).
Definition contribute (session : SessionId) (items : list Item) : Job (list (list ContentPart * str)) :=
  do* tasks := read session in
  let text := default (lit "# Tasks" ++ line_feed ++ lit "No open tasks.") (reminder tasks) in
  done (match snapshot (lit "tasks") text items with Some piece => [piece] | None => [] end).

End jobs.

(** ** sheet.rs: the rows of the pane, and which of them is picked *)

Definition status_rank (s : Status) : N := match s with InProgress => 0 | Pending => 1 | Completed => 2 end.
Definition row_le (a b : Task) : Prop :=
  (status_rank (tk_status a) < status_rank (tk_status b))%N
  ∨ status_rank (tk_status a) = status_rank (tk_status b) ∧ (tk_id b <= tk_id a)%N.
#[export] Instance row_le_dec : RelDecision row_le.
Proof. intros a b. unfold row_le. apply _. Defined.
Definition ordered (tasks : list Task) : list Task := merge_sort row_le tasks.
(** The row a pane opens on: the one named while it is there, else the first. *)
Definition opened_on (tasks : list Task) (selected : option str) : option str :=
  let ids := show_N ∘ tk_id <$> ordered tasks in
  match selected with
  | Some id => if bool_decide (id ∈ ids) then Some id else head ids
  | None => head ids
  end.
(** bingo-sdk pick.rs, over the ids of the rows. *)
Definition selected_at (ids : list str) (id : option str) : nat :=
  default 0 (let? id := id in position (fun row => bool_decide (row = id)) ids).
Definition moved (ids : list str) (id : option str) (down : bool) : option str :=
  let at_ := selected_at ids id in
  ids !! (if down then Nat.min (S at_) (length ids - 1) else at_ - 1).
Definition list_window (len selected max : nat) : nat * nat :=
  let start := Nat.min (Nat.min selected (len - 1) - max / 2) (len - max) in
  (start, Nat.min len (start + max)).
(** What a key or a click picks: a click on a row that is still there, else the
    neighbour in the direction pressed. *)
Definition picked_row (tasks : list Task) (clicked selected : option str) (down : bool) : option str :=
  let ids := show_N ∘ tk_id <$> ordered tasks in
  option_or (let? id := clicked in if bool_decide (id ∈ ids) then Some id else None) (moved ids selected down).
