(* ===== verification/TaskLaws.v ===== *)
(** * TaskLaws: what a task list promises

    A list reads back from the journal as it was written, whatever JSON its metadata
    holds; ids count up from one and are never taken twice; calls one after another do
    what the pure list of task.rs does, and of two that both read before either wrote
    one is lost; a board is a room in reach, never an agent; a private list asks nothing
    of the session tree; the prompt hears of a list only when it changed. *)

From S2P Require Import Prelude Text Model Interaction Event Transcript State Ears PermPath PermRule PermDecide Chain Gate Stream Round Commands Tasks.

(** ** The specification: the list as a value, and the calls over it *)

Inductive Op := OpAdd (draft : Draft) | OpChange (change : Change) (claimed : bool).
(** What a call makes of the list, or the error it answers with. *)
Definition op_result (op : Op) (tasks : list Task) : result KernelError (list Task * str) :=
  match op with
  | OpAdd draft =>
      if is_nil (trim (dr_subject draft)) then Err (mkKernelError InvalidInput (lit "/tasks add <subject> [@owner]"))
      else let made := create tasks draft in
           Ok (made.2, lit "Created #" ++ show_N (tk_id made.1) ++ lit ": " ++ tk_subject made.1)
  | OpChange change claimed =>
      match update tasks change with
      | None => Err (mkKernelError InvalidInput (unknown_said (ch_id change)))
      | Some found => Ok (found.2, receipt found.1 claimed)
      end
  end.
Definition op_list (op : Op) (tasks : list Task) : list Task :=
  match op_result op tasks with Ok made => made.1 | Err _ => tasks end.
Definition op_job (host : TaskHost) (session : SessionId) (op : Op) : Job str :=
  match op with OpAdd draft => add host session draft | OpChange change claimed => change_task host session change claimed end.
Definition run_ops (host : TaskHost) (session : SessionId) (ops : list Op) (desk : gmap SessionId SessionState) : gmap SessionId SessionState :=
  foldl (fun desk op => (op_job host session op desk).2) desk ops.
Definition list_at (desk : gmap SessionId SessionState) (session : SessionId) : list Task := default [] (tasks_of <$> desk !! session).
(** A host that refuses nothing of this session. *)
Definition serves (host : TaskHost) (session : SessionId) : Prop :=
  th_open host session = None ∧ th_extend host session = None ∧ th_invalidate host session = None.
Definition numbered (tasks : list Task) : Prop := tk_id <$> tasks = N.of_nat <$> seq 1 (length tasks).

(** A call cut where it awaits the host: it has read the list, or it has answered. *)
Inductive Phase := Ready | Holding (tasks : list Task) | Finished.
Definition op_step (host : TaskHost) (session : SessionId) (op : Op) (ph : Phase) (desk : gmap SessionId SessionState)
    : Phase * gmap SessionId SessionState :=
  match ph with
  | Ready => match read host session desk with (Ok tasks, desk) => (Holding tasks, desk) | (Err _, desk) => (Finished, desk) end
  | Holding tasks =>
      (Finished, match op_result op tasks with Ok made => (write host session made.1 desk).2 | Err _ => desk end)
  | Finished => (Finished, desk)
  end.
Definition schedule_step (host : TaskHost) (session : SessionId)
    (w : list (Op * Phase) * gmap SessionId SessionState) (at_ : nat) : list (Op * Phase) * gmap SessionId SessionState :=
  match w.1 !! at_ with
  | None => w
  | Some (op, ph) => let made := op_step host session op ph w.2 in (<[at_ := (op, made.1)]> w.1, made.2)
  end.
Definition run_schedule (host : TaskHost) (session : SessionId) (ops : list Op) (desk : gmap SessionId SessionState) (turns : list nat)
    : gmap SessionId SessionState :=
  (foldl (schedule_step host session) ((fun op => (op, Ready)) <$> ops, desk) turns).2.

(** ** JSON *)

Lemma map_get_nil k : map_get k [] = None.
Proof. reflexivity. Qed.
Lemma option_or_None_r {A} (o : option A) : option_or o None = o.
Proof. by destruct o. Qed.
Lemma map_get_app k m n : map_get k (m ++ n) = option_or (map_get k m) (map_get k n).
Proof. apply find_map_app. Qed.
Lemma map_get_cons k k' v m : map_get k ((k', v) :: m) = if bool_decide (k' = k) then Some v else map_get k m.
Proof. unfold map_get. cbn. by case_bool_decide. Qed.
Lemma map_get_present k k' b v : map_get k (present_field k' b v) = if b && bool_decide (k' = k) then Some v else None.
Proof. unfold present_field. destruct b; [|done]. rewrite map_get_cons. by case_bool_decide. Qed.

Lemma read_ids_value ids : read_ids (ids_value ids) = Some ids.
Proof. unfold read_ids, ids_value. cbn. induction ids as [|n ids IH]; [done|]. cbn. by rewrite IH. Qed.
Lemma status_word_said s : status_word (status_as_str s) = Some s.
Proof. by destruct s. Qed.
Lemma is_nil_false {A} (l : list A) : is_nil l = false ↔ l ≠ [].
Proof. by destruct l. Qed.
(** A field left out when it is empty reads back as it was. *)
Lemma field_or_list {A} (read : Value → option (list A)) (v : Value) (l : list A) :
  read v = Some l → field_or [] read (if negb (is_nil l) then Some v else None) = Some l.
Proof. by destruct l. Qed.
Lemma field_or_opt (o : option str) :
  field_or None (read_opt as_str) (if option_is_some o then Some (opt_str_value o) else None) = Some o.
Proof. by destruct o. Qed.

Ltac read_fields :=
  rewrite ?map_get_app, ?map_get_cons, ?map_get_present;
  repeat match goal with |- context [bool_decide (lit ?a = lit ?b)] =>
    let r := eval vm_compute in (bool_decide (lit a = lit b)) in change (bool_decide (lit a = lit b)) with r end;
  rewrite ?andb_false_r, ?andb_true_r, ?map_get_nil, ?option_or_None_r; cbn [option_or]; rewrite ?option_or_None_r.

Lemma value_task_read t : value_task (task_value t) = Some t.
Proof.
  destruct t as [id subject description active_form status owner blocks blocked_by metadata].
  unfold value_task, task_value, object_task. cbn [tk_id tk_subject tk_description tk_active_form tk_status tk_owner tk_blocks tk_blocked_by tk_metadata].
  read_fields.
  cbn [mbind option_bind as_u64 as_str].
  rewrite (field_or_list as_str (VString description)), field_or_opt by done. cbn [mbind option_bind read_status]. rewrite status_word_said.
  cbn [mbind option_bind]. rewrite field_or_opt. cbn [mbind option_bind].
  rewrite (field_or_list read_ids (ids_value blocks)) by apply read_ids_value. cbn [mbind option_bind].
  rewrite (field_or_list read_ids (ids_value blocked_by)) by apply read_ids_value. cbn [mbind option_bind].
  by rewrite (field_or_list read_object (VObject metadata)).
Qed.
Lemma value_tasks_read tasks : value_tasks (VArray (task_value <$> tasks)) = Some tasks.
Proof.
  unfold value_tasks. cbn. induction tasks as [|t tasks IH]; [done|]. cbn [fmap list_fmap mapM]. rewrite value_task_read.
  cbn [mbind option_bind]. by rewrite IH.
Qed.
Lemma payload_read tasks : value_tasks (default (tasks_payload tasks) (value_get (lit "tasks") (tasks_payload tasks))) = Some tasks.
Proof. apply value_tasks_read. Qed.

(** ** The journal *)

Lemma tasks_of_kind state : tasks_of state = match kind_of (st_extensions state) PLUGIN KIND with
  | Some payload => default [] (value_tasks (default payload (value_get (lit "tasks") payload))) | None => [] end.
Proof. reflexivity. Qed.
Lemma extended_kind plugin kind v state : is_null v = false →
  kind_of (st_extensions (extended plugin kind v state).1) plugin kind = Some v.
Proof.
  intros Hv. unfold extended. rewrite Hv. cbn [fst].
  replace (st_extensions (set_extensions (insert_kind plugin kind v (st_extensions state)) state))
    with (insert_kind plugin kind v (st_extensions state)) by by destruct state.
  by rewrite kind_of_insert, decide_True.
Qed.
Lemma tasks_of_extended tasks state : tasks_of (extended PLUGIN KIND (tasks_payload tasks) state).1 = tasks.
Proof.
  rewrite tasks_of_kind, extended_kind by done. by rewrite payload_read.
Qed.

Section calls.
Context (host : TaskHost) (session : SessionId).

Lemma write_serving tasks desk state : serves host session → desk !! session = Some state →
  write host session tasks desk = (Ok tt, <[session := (extended PLUGIN KIND (tasks_payload tasks) state).1]> desk).
Proof. intros (_ & He & Hi) Hs. unfold write, bind, extend, invalidate. by rewrite He, Hs, Hi. Qed.
Lemma read_serving desk state : serves host session → desk !! session = Some state →
  read host session desk = (Ok (tasks_of state), desk).
Proof. intros (Ho & _ & _) Hs. unfold read, bind, snapshot_of. by rewrite Ho, Hs. Qed.

(** A call is what the specification makes of the list it read. *)
Lemma op_serving op desk state : serves host session → desk !! session = Some state →
  op_job host session op desk =
  match op_result op (tasks_of state) with
  | Ok made => (Ok made.2, <[session := (extended PLUGIN KIND (tasks_payload made.1) state).1]> desk)
  | Err e => (Err e, desk)
  end.
Proof.
  intros Hh Hs. destruct op as [draft|change claimed]; cbn [op_job op_result].
  - unfold add. destruct (is_nil (trim (dr_subject draft))); [done|].
    unfold bind at 1. rewrite (read_serving desk state) by done. unfold bind. by rewrite (write_serving _ desk state).
  - unfold change_task. unfold bind at 1. rewrite (read_serving desk state) by done.
    destruct (update (tasks_of state) change) as [found|]; [|done]. unfold bind. by rewrite (write_serving _ desk state).
Qed.
Lemma list_at_written desk state tasks :
  list_at (<[session := (extended PLUGIN KIND (tasks_payload tasks) state).1]> desk) session = tasks.
Proof. unfold list_at. rewrite lookup_insert_eq. cbn. apply tasks_of_extended. Qed.
(** The list after one call, and a desk that still holds the session and every other as it was. *)
Lemma op_list_at op desk : serves host session → is_Some (desk !! session) →
  let desk' := (op_job host session op desk).2 in
  list_at desk' session = op_list op (list_at desk session) ∧ is_Some (desk' !! session) ∧ delete session desk' = delete session desk.
Proof.
  intros Hh [state Hs]. rewrite (op_serving op desk state) by done. unfold op_list.
  assert (list_at desk session = tasks_of state) as -> by (unfold list_at; by rewrite Hs).
  destruct (op_result op (tasks_of state)) as [made|e]; cbn [snd].
  - rewrite list_at_written, lookup_insert_eq, delete_insert_eq. split_and!; [done|by eexists|done].
  - unfold list_at. rewrite Hs. split_and!; [done|by eexists|done].
Qed.

Lemma run_ops_list ops desk : serves host session → is_Some (desk !! session) →
  list_at (run_ops host session ops desk) session = foldl (flip op_list) (list_at desk session) ops
  ∧ is_Some (run_ops host session ops desk !! session)
  ∧ delete session (run_ops host session ops desk) = delete session desk.
Proof.
  intros Hserves. revert desk. induction ops as [|op ops IH]; intros desk Hopen; [done|]. cbn [run_ops foldl].
  destruct (op_list_at op desk) as (Hl & Hs & Hd); [done..|].
  destruct (IH (op_job host session op desk).2 Hs) as (IH1 & IH2 & IH3). rewrite <- Hd, <- IH3. split_and!; [|done..].
  etrans; [exact IH1|]. by rewrite Hl.
Qed.

(** A call is its two steps, whatever the host refuses. *)
Lemma op_two_steps op desk :
  let held := op_step host session op Ready desk in
  op_step host session op held.1 held.2 = (Finished, (op_job host session op desk).2).
Proof.
  assert (∀ d r d', read host session d = (r, d') → d' = d) as Hread.
  { intros d r d'. unfold read, bind, snapshot_of. destruct (th_open host session); [by intros [=]|].
    destruct (d !! session); by intros [=]. }
  cbn [op_step]. destruct op as [draft|change claimed]; cbn [op_job]; [unfold add|unfold change_task].
  - destruct (read host session desk) as [[tasks|e] d] eqn:Er; pose proof (Hread _ _ _ Er); subst d; cbn [fst snd op_step op_result].
    all: destruct (is_nil (trim (dr_subject draft))); [done|]; unfold bind at 1; rewrite Er; try done.
    unfold bind. cbn [fst snd]. by destruct (write _ _ _ _) as [[]].
  - unfold bind at 1. destruct (read host session desk) as [[tasks|e] d] eqn:Er; pose proof (Hread _ _ _ Er); subst d; [|done].
    cbn [fst snd op_step op_result]. destruct (update tasks change) as [found|]; [|done]. unfold bind. cbn [fst snd].
    by destruct (write _ _ _ _) as [[]].
Qed.

Lemma step_reads op desk : serves host session → is_Some (desk !! session) →
  op_step host session op Ready desk = (Holding (list_at desk session), desk).
Proof. intros Hh [state Hs]. cbn. rewrite (read_serving desk state) by done. unfold list_at. by rewrite Hs. Qed.
Lemma step_writes op tasks desk : serves host session → is_Some (desk !! session) →
  let desk' := (op_step host session op (Holding tasks) desk).2 in
  is_Some (desk' !! session) ∧ list_at desk' session = match op_result op tasks with Ok made => made.1 | Err _ => list_at desk session end.
Proof.
  intros Hh [state Hs]. cbn. destruct (op_result op tasks) as [made|e]; [|by eauto].
  rewrite (write_serving _ _ state) by done. cbn [snd]. rewrite lookup_insert_eq, list_at_written. by eauto.
Qed.
End calls.


(** two calls that both read before either wrote keep one change.  Cut where they
    await the host, two calls whose steps run read, read, write, write leave the list
    the second alone would have made, the first having answered that it was done; the
    same two in turn keep both.  It is why no task tool may run beside another. *)
Theorem a_race_loses_the_first_change (host : TaskHost) (session : SessionId) (first second : Op)
  (desk : gmap SessionId SessionState) (made : list Task * str) (Hserves : serves host session) (Hopen : is_Some (desk !! session))
  (Hmade : op_result second (list_at desk session) = Ok made) :
  list_at (run_schedule host session [first; second] desk [0; 1; 0; 1]) session = op_list second (list_at desk session)
  ∧ list_at (run_schedule host session [first; second] desk [0; 0; 1; 1]) session = op_list second (op_list first (list_at desk session)).
Proof.
  unfold run_schedule, op_list at 1. rewrite Hmade. cbn [fmap list_fmap foldl schedule_step fst snd lookup list_lookup insert list_insert].
  rewrite (step_reads host session first desk) by done. cbn [fst snd].
  rewrite (step_reads host session second desk) by done. cbn [fst snd].
  destruct (step_writes host session first (list_at desk session) desk) as [Hs Hl]; [done..|]. split.
  - destruct (step_writes host session second (list_at desk session) _ Hserves Hs) as [_ ->]. by rewrite Hmade.
  - rewrite step_reads by done. cbn [fst snd].
    destruct (step_writes host session second (list_at (op_step host session first (Holding (list_at desk session)) desk).2 session) _ Hserves Hs) as [_ ->].
    rewrite Hl. unfold op_list. destruct (op_result first (list_at desk session)) as [m|e]; done.
Qed.

(** a call that fails changed nothing, or failed only at the redraw.  Whatever the
    host refuses, a call that answers an error leaves every session's journal as it was,
    unless the change was journaled and it was the redraw of the pane that was refused. *)
Theorem a_failed_call_changed_nothing (host : TaskHost) (session : SessionId) (op : Op) (desk desk' : gmap SessionId SessionState)
  (e : KernelError) (Hfail : op_job host session op desk = (Err e, desk')) :
  desk' = desk ∨
  (th_invalidate host session = Some e ∧ ∃ made, op_result op (list_at desk session) = Ok made ∧ list_at desk' session = made.1).
Proof.
  assert (∀ d tasks r d', write host session tasks d = (r, d') → r = Err e →
    d' = d ∨ th_invalidate host session = Some e ∧ list_at d' session = tasks) as Hw.
  { intros d tasks r d'. unfold write, bind, extend, invalidate. destruct (th_extend host session); [intros [= <- <-]; by left|].
    destruct (d !! session) as [state|]; [|intros [= <- <-]; by left].
    destruct (th_invalidate host session); intros [= <- <-] [= ->]. right. split; [done|apply list_at_written]. }
  assert (∀ d, read host session d = (match (read host session d).1 with Ok _ => Ok (list_at d session) | Err e => Err e end, d)) as Hr.
  { intros d. unfold read, bind, snapshot_of, list_at. destruct (th_open host session); [done|]. by destruct (d !! session). }
  destruct op as [draft|change claimed]; cbn [op_job op_result] in *; [unfold add in Hfail|unfold change_task in Hfail].
  - destruct (is_nil (trim (dr_subject draft))); [left; by injection Hfail|]. unfold bind at 1 in Hfail. rewrite Hr in Hfail.
    destruct (read host session desk).1; [|left; by injection Hfail]. unfold bind in Hfail.
    destruct (write _ _ _ _) as [[]] eqn:Ew; [done|]. simplify_eq.
    destruct (Hw _ _ _ _ Ew) as [->|[? ?]]; [done|by left|]. right. split; [done|]. by eexists.
  - unfold bind at 1 in Hfail. rewrite Hr in Hfail. destruct (read host session desk).1; [|left; by injection Hfail].
    destruct (update (list_at desk session) change) as [found|]; [|left; by injection Hfail]. unfold bind in Hfail.
    destruct (write _ _ _ _) as [[]] eqn:Ew; [done|]. simplify_eq.
    destruct (Hw _ _ _ _ Ew) as [->|[? ?]]; [done|by left|]. right. split; [done|]. by eexists.
Qed.

(** ** The list as a value *)

Lemma update_inv tasks change t tasks' : update tasks change = Some (t, tasks') →
  ∃ before was after, tasks = before ++ was :: after ∧ tasks' = before ++ t :: after ∧ tk_id was = ch_id change
    ∧ (∀ b, b ∈ before → tk_id b ≠ ch_id change) ∧ t = changed change was.
Proof.
  revert t tasks'. induction tasks as [|a tasks IH]; intros t tasks'; cbn [update]; [done|].
  destruct (N.eqb_spec (tk_id a) (ch_id change)) as [Ha|Ha].
  - intros [= <- <-]. exists [], a, tasks. split_and!; try done. by intros b ?%elem_of_nil.
  - destruct (update tasks change) as [[t1 tasks1]|] eqn:E; [|done]. intros [= <- <-].
    destruct (IH _ _ eq_refl) as (before & was & after & -> & -> & Hid & Hb & Ht).
    exists (a :: before), was, after. split_and!; try done. intros b [->|Hin]%elem_of_cons; [done|by apply Hb].
Qed.
Lemma update_ids tasks change t tasks' : update tasks change = Some (t, tasks') → tk_id <$> tasks' = tk_id <$> tasks.
Proof. intros (before & was & after & -> & -> & _ & _ & ->)%update_inv. by rewrite !fmap_app. Qed.
Lemma get_middle before (t : Task) after id : (∀ b, b ∈ before → tk_id b ≠ id) →
  get (before ++ t :: after) id = if N.eqb (tk_id t) id then Some t else get after id.
Proof.
  induction before as [|b before IH]; intros Hb.
  - unfold get, find_bool. cbn. by destruct (N.eqb (tk_id t) id).
  - unfold get, find_bool. cbn. destruct (N.eqb_spec (tk_id b) id) as [E|_]; [by destruct (Hb b); [left|]|].
    apply IH. intros x Hx. apply Hb. by right.
Qed.
Lemma get_other before (t u : Task) after id : tk_id t ≠ id → tk_id u ≠ id → get (before ++ t :: after) id = get (before ++ u :: after) id.
Proof.
  intros Ht Hu. induction before as [|b before IH]; unfold get, find_bool; cbn.
  - by rewrite !(proj2 (N.eqb_neq _ _)) by done.
  - destruct (N.eqb (tk_id b) id); [done|apply IH].
Qed.

Lemma elem_of_add_ids ids more id : id ∈ add_ids ids more ↔ id ∈ ids ∨ id ∈ more.
Proof.
  unfold add_ids. revert ids. induction more as [|m more IH]; intros ids; cbn [foldl]; [set_solver|].
  rewrite IH. case_bool_decide; set_solver.
Qed.
Lemma NoDup_add_ids ids more : NoDup ids → NoDup (add_ids ids more).
Proof.
  unfold add_ids. revert ids. induction more as [|m more IH]; intros ids Hn; cbn [foldl]; [done|].
  apply IH. case_bool_decide; [done|]. apply NoDup_app. split_and!; [done|set_solver|apply NoDup_singleton].
Qed.
Lemma map_extend_other m more k : k ∉ more.*1 → map_get k (map_extend m more) = map_get k m.
Proof.
  unfold map_extend. revert m. induction more as [|[k' v] more IH]; intros m Hk; cbn [foldl]; [done|].
  rewrite IH by set_solver. apply map_get_insert_ne. set_solver.
Qed.

(** a change touches the task it names and only the fields it names.  The task is
    the one the id finds; every other id finds what it found; the tasks keep their
    order; a field the change leaves out is as it was, dependencies are added once and
    metadata merges by key. *)
Theorem a_change_touches_only_what_it_names (tasks tasks' : list Task) (change : Change) (t : Task)
  (H : update tasks change = Some (t, tasks')) :
  ∃ was, get tasks (ch_id change) = Some was ∧ get tasks' (ch_id change) = Some t ∧ t = changed change was
    ∧ tk_id <$> tasks' = tk_id <$> tasks ∧ (∀ id, id ≠ ch_id change → get tasks' id = get tasks id)
    ∧ (ch_status change = None → tk_status t = tk_status was) ∧ (ch_owner change = None → tk_owner t = tk_owner was)
    ∧ (ch_subject change = None → tk_subject t = tk_subject was)
    ∧ (∀ id, id ∈ tk_blocked_by t ↔ id ∈ tk_blocked_by was ∨ id ∈ ch_add_blocked_by change)
    ∧ (∀ k, k ∉ (ch_metadata change).*1 → map_get k (tk_metadata t) = map_get k (tk_metadata was)).
Proof.
  pose proof (update_ids _ _ _ _ H) as Hids. apply update_inv in H as (before & was & after & -> & -> & Hid & Hb & Ht).
  exists was. assert (tk_id t = ch_id change) as Htid by by rewrite Ht.
  rewrite !get_middle by done. rewrite Htid, Hid, N.eqb_refl. split_and!; try done.
  - intros id Hne. apply get_other; congruence.
  - rewrite Ht. cbn. by intros ->.
  - rewrite Ht. cbn. by intros ->.
  - rewrite Ht. cbn. by intros ->.
  - rewrite Ht. cbn. apply elem_of_add_ids.
  - rewrite Ht. cbn. apply map_extend_other.
Qed.

Lemma numbered_max n : foldr N.max 0%N (N.of_nat <$> seq 1 n) = N.of_nat n.
Proof.
  assert (∀ k, foldr N.max 0%N (N.of_nat <$> seq (S k) n) = if n =? 0 then 0%N else N.of_nat (k + n)) as H.
  { induction n as [|n IH]; intros k; [done|]. cbn [seq fmap list_fmap foldr]. rewrite IH.
    destruct n as [|n]; cbn [Nat.eqb]; lia. }
  rewrite H. by destruct n.
Qed.
Lemma numbered_next tasks : numbered tasks → (N.of_nat (length tasks) + 1 < 2 ^ 64)%N → next_id tasks = N.of_nat (S (length tasks)).
Proof.
  intros Hn Hlt. unfold next_id. rewrite Hn, numbered_max. unfold u64_add. rewrite wrap_small by done. lia.
Qed.
Lemma op_numbered op tasks : numbered tasks → (N.of_nat (length tasks) + 1 < 2 ^ 64)%N →
  numbered (op_list op tasks) ∧ length tasks <= length (op_list op tasks) <= S (length tasks)
  ∧ (tk_id <$> tasks) `prefix_of` (tk_id <$> op_list op tasks).
Proof.
  intros Hn Hlt. destruct op as [draft|change claimed]; unfold op_list; cbn [op_result].
  - destruct (is_nil (trim (dr_subject draft))); [split_and!; [done|lia|lia|done]|]. cbn.
    unfold numbered. rewrite fmap_app, length_app. split_and!; [|lia|cbn; lia|by apply prefix_app_r].
    rewrite Nat.add_1_r, seq_S, fmap_app. f_equal; [done|]. cbn. by rewrite numbered_next.
  - destruct (update tasks change) as [[t tasks']|] eqn:E; cbn; [|split_and!; [done|lia|lia|done]].
    pose proof (update_ids _ _ _ _ E) as Hids. assert (length tasks' = length tasks) as Hl.
    { by rewrite <- (length_fmap tk_id tasks'), Hids, length_fmap. }
    unfold numbered. rewrite Hids, Hl. split_and!; [done|lia|lia|done].
Qed.
Lemma ops_numbered ops tasks : numbered tasks → (N.of_nat (length tasks + length ops) < 2 ^ 64)%N →
  numbered (foldl (flip op_list) tasks ops) ∧ (tk_id <$> tasks) `prefix_of` (tk_id <$> foldl (flip op_list) tasks ops).
Proof.
  revert tasks. induction ops as [|op ops IH]; intros tasks Hn Hlt; [done|]. cbn [foldl].
  cbn [length] in Hlt. destruct (op_numbered op tasks Hn) as (Hn' & Hl & Hp); [lia|].
  destruct (IH (op_list op tasks)) as [IH1 IH2]; [done|lia|]. split; [done|]. by etrans.
Qed.

Lemma ops_length ops tasks : length (foldl (flip op_list) tasks ops) <= length tasks + length ops.
Proof.
  revert tasks. induction ops as [|op ops IH]; intros tasks; cbn [foldl length]; [lia|]. etrans; [apply IH|].
  assert (length (op_list op tasks) <= S (length tasks)); [|unfold flip; lia].
  destruct op as [draft|change claimed]; unfold op_list; cbn [op_result].
  - destruct (is_nil (trim (dr_subject draft))); cbn; [lia|]. rewrite length_app. cbn. lia.
  - destruct (update tasks change) as [[t tasks']|] eqn:E; cbn; [|lia].
    rewrite <- (length_fmap tk_id tasks'), (update_ids _ _ _ _ E), length_fmap. lia.
Qed.

(** ids count up from one, and a number stays with its task.  From a session that
    wrote nothing, however many calls add and change, the tasks are numbered one, two,
    three in the order they were added, no number comes twice, and the numbers given
    before any further calls are still the first ones after them. *)
Theorem ids_count_up_from_one (host : TaskHost) (session : SessionId) (ops more : list Op) (desk : gmap SessionId SessionState)
  (Hserves : serves host session) (Hopen : is_Some (desk !! session)) (Hempty : list_at desk session = [])
  (Hbound : (N.of_nat (length ops + length more) < 2 ^ 64)%N) :
  let then_ := run_ops host session ops desk in
  let later := run_ops host session more then_ in
  numbered (list_at later session) ∧ NoDup (tk_id <$> list_at later session)
  ∧ (tk_id <$> list_at then_ session) `prefix_of` (tk_id <$> list_at later session).
Proof.
  cbn. destruct (run_ops_list host session ops desk) as (Hl & Hs & _); [done..|].
  destruct (run_ops_list host session more (run_ops host session ops desk)) as (Hl' & _); [done..|].
  rewrite Hl', Hl, Hempty.
  destruct (ops_numbered ops []) as [Hn _]; [done|cbn; lia|].
  assert (length (foldl (flip op_list) [] ops) <= length ops) as Hlen.
  { apply (ops_length ops []). }
  destruct (ops_numbered more (foldl (flip op_list) [] ops)) as [Hn' Hp]; [done|lia|].
  split_and!; [done| |done]. rewrite Hn'. apply NoDup_fmap_2; [apply _|]. apply NoDup_seq.
Qed.

(** ** The board *)

(** A room the caller may name. *)
Definition in_reach (tree : list SessionSummary) (caller : SessionId) (room : SessionSummary) : Prop :=
  room ∈ tree ∧ ss_driver room = DriverLog ∧
  ∃ link, ss_parent room = Some link ∧ (pl_session link = caller ∨ parent_of tree caller = Some (pl_session link)).

Lemma elem_of_rooms_under tree parent room :
  room ∈ rooms_under tree parent ↔ room ∈ tree ∧ ss_driver room = DriverLog ∧ pl_session <$> ss_parent room = Some parent.
Proof.
  unfold rooms_under. rewrite elem_of_retain, andb_true_iff. unfold is_log, is_child.
  destruct (ss_driver room), (ss_parent room) as [link|]; cbn; try case_bool_decide; naive_solver.
Qed.
Lemma elem_of_reachable tree caller room : room ∈ reachable tree caller ↔ in_reach tree caller room.
Proof.
  unfold reachable, in_reach. rewrite elem_of_app, elem_of_rooms_under. split.
  - intros [(? & ? & (link & ? & ?)%fmap_Some)|H]; [naive_solver|].
    destruct (parent_of tree caller) as [parent|]; [|by apply elem_of_nil in H].
    apply elem_of_rooms_under in H as (? & ? & (link & ? & ->)%fmap_Some). naive_solver.
  - intros (? & ? & link & Hl & [<-|Hp]); [left; by rewrite Hl|right]. rewrite Hp. apply elem_of_rooms_under. by rewrite Hl.
Qed.

(** a shared board is a room in reach.  A call that names a room works on the list
    of a session that nobody answers for, of that title, that the caller opened or that
    stands beside it, and there is a board to work on exactly when there is such a
    room: an agent of that name, or a room further off, is never one.  A call that
    names none works on its own caller's list. *)
Theorem a_board_is_a_room_in_reach (host : TaskHost) (caller : SessionId) (asked : In_) :
  match in_name asked with
  | None => board_of host caller asked = Ok (mkBoard caller None)
  | Some name =>
      (∀ board, board_of host caller asked = Ok board → ∃ tree room, th_sessions host = Ok tree ∧ bd_tree board = Some tree
         ∧ bd_session board = ss_id room ∧ in_reach tree caller room ∧ ss_title room = Some (board_title name))
      ∧ (∀ tree room, th_sessions host = Ok tree → in_reach tree caller room → ss_title room = Some (board_title name) →
         is_ok (board_of host caller asked) = true)
  end.
Proof.
  unfold board_of. destruct (in_name asked) as [name|]; [|done]. split.
  - intros board. destruct (th_sessions host) as [tree|e]; cbn [rbind]; [|done].
    destruct (named (reachable tree caller) (board_title name)) as [room|] eqn:En; [|done]. intros [= <-].
    apply find_bool_Some in En as [Hin Ht]. bools. exists tree, room. by rewrite <- elem_of_reachable.
  - intros tree room -> Hr Ht. cbn [rbind].
    destruct (named (reachable tree caller) (board_title name)) as [room'|] eqn:En; [done|]. exfalso.
    rewrite <- elem_of_reachable in Hr. apply (proj1 (find_bool_None _ _) En room) in Hr. by bools.
Qed.

(** A board's listing marks an owner exactly when no one beside the room, nor its holder, answers to the name. *)
Lemma gone_spec tree room owner parent : parent_of tree room = Some parent →
  gone (present (mkBoard room (Some tree))) owner = false ↔
  ∃ s, s ∈ tree ∧ ss_title s = Some owner ∧
    ((ss_driver s = DriverModel ∧ pl_session <$> ss_parent s = Some parent) ∨ pick tree parent = Some s).
Proof.
  intros Hp. unfold gone, present. cbn. unfold around. rewrite Hp. rewrite negb_false_iff, any_true. split.
  - intros (name & Hin & Hb). bools. subst name. apply elem_of_app in Hin as [Hin|Hin].
    + apply list_elem_of_omap in Hin as (s & Hs & Ht). apply elem_of_retain in Hs as [Hs Hc]. exists s. split_and!; [done..|left].
      unfold is_log, is_child in Hc. destruct (ss_driver s), (ss_parent s) as [l|]; cbn in *; try done. by case_bool_decide; subst.
    + destruct (pick tree parent) as [s|] eqn:Es; cbn in Hin; [|by apply elem_of_nil in Hin]. exists s.
      pose proof (find_bool_Some _ _ _ Es) as [? _]. destruct (ss_title s); [|by apply elem_of_nil in Hin].
      apply list_elem_of_singleton in Hin as ->. by eauto.
  - intros (s & Hs & Ht & H). exists owner. split; [|by rewrite bool_decide_eq_true]. apply elem_of_app. destruct H as [[Hd Hc]|Hpk].
    + left. apply list_elem_of_omap. exists s. split; [|done]. apply elem_of_retain. split; [done|].
      unfold is_log, is_child. rewrite Hd. apply fmap_Some in Hc as (l & -> & ->). cbn. by rewrite bool_decide_eq_true.
    + right. rewrite Hpk. cbn. rewrite Ht. by left.
Qed.

Definition with_sessions (sessions : result KernelError (list SessionSummary)) (host : TaskHost) : TaskHost :=
  mkTaskHost sessions (th_open host) (th_extend host) (th_invalidate host).
Definition names_no_room (input : Value) : Prop :=
  ∀ m asked, input = VObject m → object_in m = Some asked → in_name asked = None.
Lemma board_of_private host caller asked : in_name asked = None → board_of host caller asked = Ok (mkBoard caller None).
Proof. intros H. unfold board_of. by rewrite H. Qed.

(** without [in] a call asks nothing of the session tree.  Whatever sessions there
    are, and even when they cannot be listed, a tool that names no room works on the
    caller's own list, and its listing marks no owner as gone; a claim alone must read
    the tree, for the caller's name. *)
Theorem a_private_call_reads_no_tree (host : TaskHost) (sessions : result KernelError (list SessionSummary))
  (refusal pretty : Value → str) (caller : SessionId) (input : Value) (desk : gmap SessionId SessionState)
  (Hprivate : names_no_room input) :
  TaskCreate (with_sessions sessions host) refusal caller input desk = TaskCreate host refusal caller input desk
  ∧ TaskGet (with_sessions sessions host) refusal pretty caller input desk = TaskGet host refusal pretty caller input desk
  ∧ TaskList (with_sessions sessions host) refusal caller input desk = TaskList host refusal caller input desk
  ∧ ((∀ args, object_args update_args input = Some args → claims args = false) →
     TaskUpdate (with_sessions sessions host) refusal caller input desk = TaskUpdate host refusal caller input desk).
Proof.
  assert (∀ r asked, in_name asked = None → board_of (with_sessions r host) caller asked = Ok (mkBoard caller None)) as Hb.
  { intros r asked Hn. by apply board_of_private. }
  unfold TaskCreate, TaskGet, TaskList, TaskUpdate. destruct input as [| | | | |m]; try done.
  cbn [object_args list_args]. unfold create_args, get_args, update_args. specialize (Hprivate m).
  destruct (object_in m) as [asked|]; [specialize (Hprivate asked eq_refl eq_refl)|].
  - split_and!.
    + destruct (object_draft m); [|done]. cbn. by rewrite Hb, board_of_private.
    + destruct (map_get (lit "id") m ≫= as_u64); [|done]. cbn. by rewrite Hb, board_of_private.
    + by rewrite Hb, board_of_private.
    + destruct (object_change m); [|done]. cbn [mbind option_bind].
      destruct (field_or None (read_opt as_bool) (map_get (lit "claim") m)) as [claim|]; [|done]. cbn [mbind option_bind ua_board].
      rewrite Hb, board_of_private by done. intros Hc. unfold stamped. by rewrite (Hc _ eq_refl).
  - split_and!; [destruct (object_draft m)|destruct (map_get (lit "id") m ≫= as_u64)| |destruct (object_change m)]; done.
Qed.

Lemma change_inv host session change claimed desk said desk' : serves host session →
  change_task host session change claimed desk = (Ok said, desk') →
  ∃ found, update (list_at desk session) change = Some found ∧ list_at desk' session = found.2 ∧ said = receipt found.1 claimed.
Proof.
  intros Hh H. assert (is_Some (desk !! session)) as [state Hs].
  { unfold change_task, bind at 1, read, bind, snapshot_of in H. destruct Hh as (Ho & _). rewrite Ho in H.
    destruct (desk !! session); [by eexists|done]. }
  change (change_task host session change claimed desk) with (op_job host session (OpChange change claimed) desk) in H.
  rewrite (op_serving host session _ desk state) in H by done. cbn [op_result] in H.
  assert (list_at desk session = tasks_of state) as -> by (unfold list_at; by rewrite Hs).
  destruct (update (tasks_of state) change) as [found|]; [|done]. injection H as <- <-. exists found.
  split_and!; [done|apply list_at_written|done].
Qed.

(** a claim is signed with the claimer's own name.  Whatever owner the model wrote
    beside it, a claim that succeeds leaves the task owned by the title of the session
    the call came from, and a session with no title of its own cannot claim. *)
Theorem a_claim_is_signed_by_its_caller (host : TaskHost) (refusal : Value → str) (caller : SessionId) (input : Value)
  (args : UpdateArgs) (board : Board) (desk desk' : gmap SessionId SessionState) (out : ToolOutput)
  (Hargs : object_args update_args input = Some args) (Hclaim : claims args = true)
  (Hboard : board_of host caller (ua_board args) = Ok board) (Hserves : serves host (bd_session board))
  (Hcall : TaskUpdate host refusal caller input desk = (Ok out, desk')) (Hout : to_is_error out = false) :
  ∃ tree own name t, th_sessions host = Ok tree ∧ pick tree caller = Some own ∧ ss_title own = Some name
    ∧ get (list_at desk' (bd_session board)) (ch_id (ua_change args)) = Some t ∧ tk_owner t = Some name.
Proof.
  unfold TaskUpdate in Hcall. rewrite Hargs, Hboard in Hcall. unfold stamped, claimant in Hcall. rewrite Hclaim in Hcall.
  assert (∀ e d, (misaddressed e, d) = (Ok out, desk') → False) as Hno.
  { unfold misaddressed. intros e d. destruct (ke_code e); intros [= <- _]; done. }
  destruct (th_sessions host) as [tree|e]; cbn [rbind] in Hcall; [|by apply Hno in Hcall].
  destruct (pick tree caller) as [own|] eqn:Ep; cbn [mbind option_bind] in Hcall; [|by apply Hno in Hcall].
  destruct (ss_title own) as [name|] eqn:Et; cbn [rbind] in Hcall; [|by apply Hno in Hcall].
  destruct (change_task host (bd_session board) (with_owner name (ua_change args)) true desk) as [[said|e] d] eqn:Ec;
    [|by apply Hno in Hcall].
  injection Hcall as <- <-. destruct (change_inv _ _ _ _ _ _ _ Hserves Ec) as ([t tasks'] & Hu & Hl & _).
  apply update_inv in Hu as (before & was & after & _ & Hu & Hid & Hb & Ht). cbn [fst snd] in *. exists tree, own, name, t.
  split_and!; try done.
  - rewrite Hl, Hu, get_middle by done. rewrite Ht. cbn. rewrite Hid. cbn. by rewrite N.eqb_refl.
  - rewrite Ht. done.
Qed.

(** ** What the prompt hears *)

Lemma reminder_none tasks : reminder tasks = None ↔ ∀ t, t ∈ tasks → tk_status t = Completed.
Proof.
  unfold reminder, open_ones. rewrite <- (Forall_forall (λ t, tk_status t = Completed)). split.
  - intros H. destruct (retain _ tasks) as [|a l] eqn:E; [|done]. apply Forall_forall. intros t Ht.
    destruct (decide (tk_status t = Completed)) as [|Hn]; [done|]. exfalso.
    assert (t ∈ retain (λ task, negb (bool_decide (tk_status task = Completed))) tasks) as Hin.
    { apply elem_of_retain. split; [done|]. by rewrite bool_decide_eq_false_2. }
    rewrite E in Hin. by apply elem_of_nil in Hin.
  - intros H. rewrite retain_none; [done|]. intros t Ht. rewrite Forall_forall in H. by rewrite bool_decide_eq_true_2; [|apply H].
Qed.

(** the prompt hears of the tasks when they changed, and again when it forgot.
    With the last thing said about the tasks still in view, whatever else was said
    after it, the contributor says something exactly when the list now reads
    differently; with nothing of it in view, after a compaction, it always does. *)
Theorem tasks_are_said_when_they_changed (id text : str) (items later : list Item) (i : Item) (said : list ContentPart) :
  (contributed id i = Some said → (∀ j, j ∈ later → contributed id j = None) →
   (said = [PText text] → snapshot id text (items ++ i :: later) = None)
   ∧ (said ≠ [PText text] → snapshot id text (items ++ i :: later) = Some ([PText text], id)))
  ∧ ((∀ j, j ∈ items → contributed id j = None) → snapshot id text items = Some ([PText text], id)).
Proof.
  unfold snapshot. split.
  - intros Hi Hl. rewrite reverse_app, reverse_cons, <- app_assoc, find_map_app.
    replace (find_map (contributed id) (reverse later)) with (@None (list ContentPart))
      by (symmetry; apply find_map_None; intros j Hj; apply Hl; by apply elem_of_reverse).
    cbn. rewrite Hi. split; [intros ->; by rewrite bool_decide_eq_true_2|]. intros Hne.
    destruct said as [|[previous| | | |] [|q qs]]; try done. rewrite bool_decide_eq_false_2; [done|congruence].
  - intros Hn. replace (find_map (contributed id) (reverse items)) with (@None (list ContentPart)); [done|].
    symmetry. apply find_map_None. intros j Hj. apply Hn. by apply elem_of_reverse.
Qed.

(** ** The pane *)

#[export] Instance row_le_total : Total row_le.
Proof. intros a b. unfold row_le. lia. Qed.
#[export] Instance row_le_trans : Transitive row_le.
Proof. intros a b c. unfold row_le. lia. Qed.

Lemma position_unique {A} `{EqDecision A} (l : list A) i x : NoDup l → l !! i = Some x →
  position (λ y, bool_decide (y = x)) l = Some i.
Proof.
  revert i. induction l as [|a l IH]; intros i Hn Hi; [done|]. apply NoDup_cons in Hn as [Ha Hn]. cbn.
  destruct i as [|i]; [injection Hi as ->; by rewrite bool_decide_eq_true_2|]. cbn in Hi.
  rewrite bool_decide_eq_false_2; [by rewrite (IH i)|]. intros ->. by apply Ha, list_elem_of_lookup_2 with i.
Qed.
Lemma selected_at_lt ids id : ids ≠ [] → selected_at ids id < length ids.
Proof.
  intros Hne. unfold selected_at. destruct id as [id|]; cbn [mbind option_bind]; [|destruct ids; cbn; [done|lia]].
  destruct (position _ ids) as [i|] eqn:E; cbn; [|destruct ids; cbn; [done|lia]].
  apply position_Some in E as (x & Hx & _). by apply lookup_lt_Some in Hx.
Qed.
Lemma moved_in ids id down : ids ≠ [] → ∃ row, moved ids id down = Some row ∧ row ∈ ids.
Proof.
  intros Hne. pose proof (selected_at_lt ids id Hne). unfold moved.
  destruct (ids !! _) as [row|] eqn:E; [exists row; split; [done|by eapply list_elem_of_lookup_2]|].
  apply lookup_ge_None in E. destruct down; lia.
Qed.
(** A press moves the pick to the neighbour in its direction, and stays at the ends. *)
Lemma moved_next ids i id : NoDup ids → ids !! i = Some id →
  moved ids (Some id) true = ids !! Nat.min (S i) (length ids - 1) ∧ moved ids (Some id) false = ids !! (i - 1).
Proof. intros Hn Hi. unfold moved, selected_at. cbn [mbind option_bind]. by rewrite (position_unique ids i id). Qed.

(** the pane shows work in progress first, and the pick never leaves its rows.
    The rows are the tasks, those in progress before the pending before the completed
    and the newest first within each; what a key or a click picks is a row that is
    there, while there is any; and the window drawn around the pick holds it and as
    many rows as fit. *)
Theorem the_pane_keeps_its_pick (tasks : list Task) (clicked selected : option str) (down : bool) (at_ max : nat)
  (Hsome : tasks ≠ []) (Hat : at_ < length tasks) (Hmax : 0 < max) :
  ordered tasks ≡ₚ tasks ∧ StronglySorted row_le (ordered tasks)
  ∧ (∃ t, t ∈ tasks ∧ picked_row tasks clicked selected down = Some (show_N (tk_id t)))
  ∧ (let '(start, stop) := list_window (length tasks) at_ max in
     start <= at_ < stop ∧ stop <= length tasks ∧ stop - start = Nat.min (length tasks) max).
Proof.
  assert (ordered tasks ≡ₚ tasks) as Hp by apply merge_sort_Permutation. split_and!; [done| | |].
  - apply StronglySorted_merge_sort; apply _.
  - unfold picked_row. set (ids := show_N ∘ tk_id <$> ordered tasks).
    assert (∀ row, row ∈ ids → ∃ t, t ∈ tasks ∧ Some row = Some (show_N (tk_id t))) as Hrow.
    { intros row (t & -> & Hin)%list_elem_of_fmap. exists t. by rewrite <- Hp. }
    assert (ids ≠ []) as Hne.
    { intros E. apply fmap_nil_inv in E. rewrite E in Hp. by apply Permutation_nil_l in Hp. }
    destruct (moved_in ids selected down Hne) as (row & Hm & Hin). rewrite Hm.
    destruct clicked as [id|]; cbn [mbind option_bind option_or]; [case_bool_decide; cbn [option_or]; by apply Hrow|by apply Hrow].
  - unfold list_window. pose proof (Nat.div_lt max 2). pose proof (Nat.div_mod_eq max 2). pose proof (Nat.mod_upper_bound max 2). lia.
Qed.

(** ** [/tasks] *)

Lemma first_word_spec word rest sep : (∀ c, c ∈ word → is_whitespace c = false) → is_whitespace sep = true →
  first_word (word ++ sep :: rest) = (word, rest).
Proof.
  intros Hw Hs. induction word as [|c word IH]; cbn; [by rewrite Hs|]. rewrite Hw by by left.
  rewrite IH; [done|]. intros d Hd. apply Hw. by right.
Qed.
Lemma owner_named_none s : chr "@" ∉ s → owner_named s = None.
Proof.
  induction s as [|c s IH]; intros Hn; [done|]. cbn [owner_named]. rewrite IH by set_solver.
  destruct (strip_prefix (lit " @") (c :: s)) as [r|] eqn:E; [|done]. apply strip_prefix_Some in E.
  exfalso. apply Hn. rewrite E. right. by left.
Qed.
Lemma owner_named_last subject owner : chr "@" ∉ owner → owner_named (subject ++ lit " @" ++ owner) = Some (subject, owner).
Proof.
  intros Hn. induction subject as [|c subject IH].
  - cbn [app]. change (lit " @" ++ owner) with (chr " " :: chr "@" :: owner). cbn [owner_named].
    rewrite owner_named_none by done. reflexivity.
  - cbn [app owner_named]. rewrite IH. done.
Qed.

(** ** A round's task calls take turns *)

(** Whatever else a response called, a task call in flight is alone: within one session
    no two of them ever race. *)
Lemma a_rounds_task_calls_take_turns calls (t : Transcript) (w : Walk) pc input : NoDup calls.*1 → transcript_wf t →
  (∀ id, id ∈ calls.*1 → is_Some (Transcript.get t id)) → rtc walk_step (walk_new calls t) w →
  pc ∈ wk_flight w → pc_traits pc = task_traits input → wk_flight w = [pc].
Proof.
  intros Hn Hwf Hp Hr Hin Ht. destruct (inv_reachable calls Hn t w Hwf Hp Hr) as [_ _ _ _ _ [Ha|Ha] _ _].
  - unfold all_safe, flight_state in Ha; simpl in Ha. eapply forallb_forall in Ha; [|by apply list_elem_of_In]. by rewrite Ht in Ha.
  - destruct (wk_flight w) as [|x [|]]; simplify_eq/=. by apply list_elem_of_singleton in Hin as ->.
Qed.

(** ** Witnesses *)

Module Demo.

Definition root : SessionId := lit "root".
Definition design : SessionId := lit "room".
Definition member : SessionId := lit "member".
Definition summary (id : SessionId) (parent : option SessionId) (title : option str) (driver : Driver) : SessionSummary :=
  mkSessionSummary id None title (lit "/work") ((λ p, mkParentLink p None) <$> parent) driver (mkSessionModel None None None)
    None None None 0 0 usage_default false false (mkSessionHistory None None None).
Definition tree : list SessionSummary :=
  [summary root None None DriverModel; summary design (Some root) (Some (lit "#design")) DriverLog;
   summary member (Some root) (Some (lit "reviewer")) DriverModel].
Definition host : TaskHost := mkTaskHost (Ok tree) (λ _, None) (λ _, None) (λ _, None).
(** The same host, refusing to redraw. *)
Definition stubborn : TaskHost :=
  mkTaskHost (Ok tree) (λ _, None) (λ _, None) (λ _, Some (mkKernelError SessionClosedCode (lit "closed"))).
Definition desk : gmap SessionId SessionState :=
  <[root := state_new (summary root None None DriverModel)]>
  (<[design := state_new (summary design (Some root) (Some (lit "#design")) DriverLog)]> ∅).
Definition plan : Op := OpAdd (draft_named (lit "write the plan") None).
Definition ship : Op := OpAdd (draft_named (lit "ship it") (Some (lit "reviewer"))).
Definition start : Op := OpChange (change_status 1 InProgress) false.
Definition planned : gmap SessionId SessionState := run_ops host root [plan; ship] desk.
Definition claim : Value :=
  VObject [(lit "id", VNumber (PosInt 1)); (lit "in", VString (lit "design")); (lit "claim", VBool true);
           (lit "owner", VString (lit "scout"))].
Definition boarded : gmap SessionId SessionState := run_ops host design [plan] desk.

Lemma serving session : serves host session.
Proof. done. Qed.
Lemma on_desk : is_Some (desk !! root).
Proof. by eexists. Qed.


Lemma a_race_loses_the_first_change_witness :
  tk_subject <$> list_at (run_schedule host root [plan; ship] desk [0; 1; 0; 1]) root = [lit "ship it"].
Proof.
  destruct (a_race_loses_the_first_change host root plan ship desk (match op_result ship [] with Ok m => m | Err _ => ([], []) end)
    (serving root) on_desk) as [H _]; [by vm_compute|]. rewrite H. by vm_compute.
Defined.

Lemma a_failed_call_changed_nothing_witness :
  ∃ desk', op_job stubborn root plan desk = (Err (mkKernelError SessionClosedCode (lit "closed")), desk') ∧ length (list_at desk' root) = 1.
Proof.
  exists (op_job stubborn root plan desk).2. split; [by vm_compute|].
  destruct (a_failed_call_changed_nothing stubborn root plan desk (op_job stubborn root plan desk).2 (mkKernelError SessionClosedCode (lit "closed")) ltac:(by vm_compute)) as [H|[_ (m & Hm & ->)]].
  - exfalso. assert (length (list_at (op_job stubborn root plan desk).2 root) = length (list_at desk root)) as E by by rewrite H.
    by vm_compute in E.
  - revert Hm. vm_compute. by intros [= <-].
Defined.

Lemma ids_count_up_from_one_witness :
  numbered (list_at (run_ops host root [start; ship] (run_ops host root [plan] desk)) root).
Proof. by destruct (ids_count_up_from_one host root [plan] [start; ship] desk (serving root) on_desk) as [H _];
    [by vm_compute|vm_compute; done|]. Defined.

Lemma a_change_touches_only_what_it_names_witness :
  ∃ t tasks', update (list_at planned root) (change_status 2 Completed) = Some (t, tasks') ∧ tk_owner t = Some (lit "reviewer")
    ∧ get tasks' 1 = get (list_at planned root) 1.
Proof.
  eexists _, _. split; [by vm_compute|].
  destruct (a_change_touches_only_what_it_names (list_at planned root) _ (change_status 2 Completed) _ ltac:(by vm_compute))
    as (was & Hwas & _ & _ & _ & Ho & _ & Hown & _).
  split; [|by apply Ho]. rewrite (Hown eq_refl). revert Hwas. vm_compute. by intros [= <-].
Defined.

Lemma a_board_is_a_room_in_reach_witness : is_ok (board_of host member (mkIn (Some (lit " design ")))) = true
  ∧ is_ok (board_of host root (mkIn (Some (lit "reviewer")))) = false.
Proof.
  split; [|by vm_compute].
  apply (a_board_is_a_room_in_reach host member (mkIn (Some (lit " design ")))) with (tree := tree)
    (room := summary design (Some root) (Some (lit "#design")) DriverLog); [done| |by vm_compute].
  split_and!; [vm_compute; right; by left|done|]. exists (mkParentLink root None). split; [done|]. right. by vm_compute.
Defined.

Lemma a_private_call_reads_no_tree_witness :
  TaskList (with_sessions (Err (mkKernelError Offline [])) host) (λ _, []) root (VObject []) planned
  = TaskList host (λ _, []) root (VObject []) planned.
Proof.
  apply (a_private_call_reads_no_tree host (Err (mkKernelError Offline [])) (λ _, []) (λ _, []) root (VObject []) planned).
  intros m asked [= <-]. vm_compute. by intros [= <-].
Defined.

Lemma a_claim_is_signed_by_its_caller_witness :
  ∃ desk' t, TaskUpdate host (λ _, []) member claim boarded = (Ok (output_text (lit "Updated #1 (pending): write the plan" ++ dash ++ lit "reviewer")), desk')
    ∧ get (list_at desk' design) 1 = Some t ∧ tk_owner t = Some (lit "reviewer").
Proof.
  destruct (a_claim_is_signed_by_its_caller host (λ _, []) member claim
    (mkUpdateArgs (mkChange 1 None None None None (Some (lit "scout")) [] [] []) (mkIn (Some (lit "design"))) (Some true))
    (mkBoard design (Some tree)) boarded (TaskUpdate host (λ _, []) member claim boarded).2
    (output_text (lit "Updated #1 (pending): write the plan" ++ dash ++ lit "reviewer")))
    as (tr & own & name & t & Ht & Hp & Hn & Hg & Ho).
  - by vm_compute.
  - done.
  - by vm_compute.
  - done.
  - by vm_compute.
  - done.
  - exists (TaskUpdate host (λ _, []) member claim boarded).2, t. split; [by vm_compute|]. split; [exact Hg|].
    rewrite Ho, <- Hn. injection Ht as <-. revert Hp. vm_compute. by intros [= <-].
Defined.

Definition note (text : str) : Item :=
  mkItem (lit "i") None 0 Event.Completed 0 None None
    (BUser [PText text] (mkOrigin None None (lit "contributor:tasks") None None)) [].
Lemma tasks_are_said_when_they_changed_witness : snapshot (lit "tasks") (lit "a") [note (lit "b"); note (lit "a")] = None.
Proof.
  destruct (tasks_are_said_when_they_changed (lit "tasks") (lit "a") [note (lit "b")] [] (note (lit "a")) [PText (lit "a")]) as [H _].
  apply H; [by vm_compute|by intros j ?%elem_of_nil|done].
Defined.

Lemma the_pane_keeps_its_pick_witness :
  show_N ∘ tk_id <$> ordered (list_at planned root) = [lit "2"; lit "1"]
  ∧ StronglySorted row_le (ordered (list_at planned root)).
Proof.
  split; [by vm_compute|].
  destruct (the_pane_keeps_its_pick (list_at planned root) None None true 1 12) as (_ & H & _); [by vm_compute|vm_compute; lia|lia|exact H].
Defined.

(** A task added with a bare [@] is owned by nobody's name. *)
Example an_empty_owner_is_recorded :
  tk_owner <$> list_at (command_write host root (lit "add ship it @") desk).2 root = [Some []].
Proof. by vm_compute. Qed.
Example assigning_to_nobody_is_refused : (assign host root 1 (lit "@") planned).1 = Err (mkKernelError InvalidInput (lit "/tasks assign <id> <owner>")).
Proof. by vm_compute. Qed.

End Demo.
