(* ===== verification/Schedule.v ===== *)
(** * Schedule: turns set for later (bingo-schedule, bingo-shelf, bingo-alarm)

    spec.rs is the grammar of a schedule and the next time it fires; entry.rs and
    store.rs are one entry and the directory that holds them; runner.rs decides what is
    due and keeps what is in flight, delivery.rs and spend.rs fire one entry,
    command/consent.rs and service.rs are the person's own verbs, tools the model's.
    wake.rs and wakes.rs are the model's wake on its own session, over the keyed timers
    of bingo-alarm.

    The calendar is outside the repository (jiff): [Calendar] is what the code asks of
    it, within one zone, and a moment is its nanosecond count.  The runner is a step
    relation: passes of the loop, sessions that open or do not, fires that land in any
    order, and edits of the store by other hands all interleave. *)

From Stdlib Require DecimalString.
From S2P Require Import Prelude Text Digest Model Interaction Event Transcript State Ears Queue CommandLine Round.

(** ** spec.rs: when a schedule fires *)

(** A signed duration in whole seconds, and a time of day in hours and minutes. *)
Inductive Spec := Every (seconds : Z) | DailyAt (hour minute : Z) | OnceAt (at_ : Timestamp).
#[export] Instance Spec_eq_dec : EqDecision Spec.
Proof. solve_decision. Defined.

Definition EVERY : str := lit "every ".
Definition DAILY_AT : str := lit "daily at ".
Definition ONCE_AT : str := lit "once at ".
Definition FORMS : str := lit "expected `every <n>s|m|h`, `daily at HH:MM` or `once at <RFC3339>`".
Definition spec_error (what : str) : str := what ++ lit " (" ++ FORMS ++ lit ")".
Definition tick (s : str) : str := lit "`" ++ s ++ lit "`".

(** What the code asks of the calendar: the civil date of a moment in the zone (as a
    count of days), the day after, the moment a time of day falls on (a time the clocks
    skipped resolves forward, a repeated one to the first), a moment some seconds
    later, the RFC 3339 text of a moment, and the local time a person reads it as, to
    the minute. *)
Class Calendar := mkCalendar {
  cal_date : Timestamp → Z;
  cal_tomorrow : Z → option Z;
  cal_at : Z → Z → Z → option Timestamp;
  cal_plus : Timestamp → Z → option Timestamp;
  cal_parse : str → option Timestamp;
  cal_show : Timestamp → str;
  cal_when : Timestamp → str;
}.

Definition i64_max : Z := 2 ^ 63 - 1.
(** [i64::from_str] on decimal digits, and [i8::from_str]. *)
Fixpoint digits_upto (bound acc : Z) (s : str) : option Z :=
  match s with
  | [] => Some acc
  | c :: s =>
      if is_ascii_digit c then
        let n := (acc * 10 + (Z.of_N c - 48))%Z in
        if (n <=? bound)%Z then digits_upto bound n s else None
      else None
  end.
Definition parse_digits_upto (bound : Z) (s : str) : option Z :=
  match s with [] => None | _ => digits_upto bound 0 s end.
Definition parse_i8 (s : str) : option Z :=
  match s with
  | [] => None
  | c :: r =>
      if N.eqb c (chr "+") then parse_digits_upto 127 r
      else if N.eqb c (chr "-") then Z.opp <$> parse_digits_upto 128 r
      else parse_digits_upto 127 s
  end.

Definition unit_seconds (unit : str) : option Z :=
  if bool_decide (unit = lit "s") then Some 1%Z
  else if bool_decide (unit = lit "m") then Some 60%Z
  else if bool_decide (unit = lit "h") then Some 3600%Z
  else None.
Definition duration (written : str) : result str Z :=
  let rest := trim written in
  let count := take_while is_ascii_digit rest in
  let unit := trim (drop (length count) rest) in
  match unit_seconds unit with
  | None => Err (tick unit ++ lit " is not a unit of time")
  | Some seconds =>
      match parse_digits_upto i64_max count with
      | None => Err (tick rest ++ lit " has no count")
      | Some count =>
          if (count <? 1)%Z then Err (lit "an interval of nothing never comes round")
          else if (count * seconds <=? i64_max)%Z then Ok (count * seconds)%Z
          else Err (tick rest ++ lit " is longer than a clock can hold")
      end
  end.
Definition result_map {E F A B} (f : A → B) (g : E → F) (r : result E A) : result F B :=
  match r with Ok a => Ok (f a) | Err e => Err (g e) end.
Definition every (rest : str) : result str Spec := result_map Every spec_error (duration rest).
Definition daily_at (rest : str) : result str Spec :=
  match split_once (lit ":") rest with
  | None => Err (spec_error (tick rest ++ lit " is not a time of day"))
  | Some (hour, minute) =>
      match parse_i8 hour, parse_i8 minute with
      | Some hour, Some minute =>
          if (0 <=? hour)%Z && (hour <? 24)%Z && (0 <=? minute)%Z && (minute <? 60)%Z then Ok (DailyAt hour minute)
          else Err (spec_error (lit "there is no " ++ rest ++ lit " in a day"))
      | _, _ => Err (spec_error (tick rest ++ lit " is not a time of day"))
      end
  end.
Definition two_digits (n : Z) : str := if (n <? 10)%Z then chr "0" :: show_Z n else show_Z n.
Definition interval (seconds : Z) : str :=
  if (seconds mod 3600 =? 0)%Z then show_Z (seconds / 3600) ++ lit "h"
  else if (seconds mod 60 =? 0)%Z then show_Z (seconds / 60) ++ lit "m"
  else show_Z seconds ++ lit "s".

Section spec.
Context `{Calendar}.

Definition once_at (rest : str) : result str Spec :=
  match cal_parse rest with
  | Some at_ => Ok (OnceAt at_)
  | None => Err (spec_error (tick rest ++ lit " is not an RFC3339 timestamp"))
  end.
Definition spec_parse (s : str) : result str Spec :=
  let line := trim s in
  match strip_prefix EVERY line with
  | Some rest => every (trim rest)
  | None =>
      match strip_prefix DAILY_AT line with
      | Some rest => daily_at (trim rest)
      | None =>
          match strip_prefix ONCE_AT line with
          | Some rest => once_at (trim rest)
          | None => Err (spec_error (tick line ++ lit " is not a schedule"))
          end
      end
  end.
Definition spec_show (s : Spec) : str :=
  match s with
  | Every seconds => EVERY ++ interval seconds
  | DailyAt hour minute => DAILY_AT ++ two_digits hour ++ lit ":" ++ two_digits minute
  | OnceAt at_ => ONCE_AT ++ cal_show at_
  end.

Definition next_daily (hour minute : Z) (after : Timestamp) : option Timestamp :=
  let? today := cal_at (cal_date after) hour minute in
  if (after <? today)%Z then Some today
  else let? tomorrow := cal_tomorrow (cal_date after) in cal_at tomorrow hour minute.
Definition spec_next_fire (s : Spec) (after : Timestamp) : option Timestamp :=
  match s with
  | Every seconds => if (0 <? seconds)%Z then cal_plus after seconds else None
  | DailyAt hour minute => next_daily hour minute after
  | OnceAt at_ => if (after <? at_)%Z then Some at_ else None
  end.
Definition is_once (s : Spec) : bool := match s with OnceAt _ => true | _ => false end.

(** ** entry.rs *)

Inductive Provenance := Unrecorded | ByTool | ByPerson.
#[export] Instance Provenance_eq_dec : EqDecision Provenance.
Proof. solve_decision. Defined.
Definition by_word (p : Provenance) : str :=
  match p with Unrecorded => lit "unconfirmed" | ByTool => lit "model" | ByPerson => lit "you" end.
Record Entry := mkEntry {
  en_id : str;
  en_spec : Spec;
  en_text : str;
  en_cwd : PathBuf;
  en_mode : option str;
  en_enabled : bool;
  en_created : Timestamp;
  en_last_fired : option Timestamp;
  en_by : Provenance;
}.
#[export] Instance Entry_eq_dec : EqDecision Entry.
Proof. solve_decision. Defined.
Definition entry_key (e : Entry) : str := lit "schedule/" ++ en_id e.
Definition anchor (e : Entry) : Timestamp := default (en_created e) (en_last_fired e).
Definition next_fire (e : Entry) : option Timestamp :=
  if en_enabled e then spec_next_fire (en_spec e) (anchor e) else None.
Definition fired (e : Entry) (now : Timestamp) : Entry :=
  mkEntry (en_id e) (en_spec e) (en_text e) (en_cwd e) (en_mode e) (negb (is_once (en_spec e))) (en_created e) (Some now) (en_by e).
Definition asked (e : Entry) : bool := bool_decide (en_by e = ByPerson).
Definition with_enabled (enabled : bool) (e : Entry) : Entry :=
  mkEntry (en_id e) (en_spec e) (en_text e) (en_cwd e) (en_mode e) enabled (en_created e) (en_last_fired e) (en_by e).
Definition with_id (id : str) (e : Entry) : Entry :=
  mkEntry id (en_spec e) (en_text e) (en_cwd e) (en_mode e) (en_enabled e) (en_created e) (en_last_fired e) (en_by e).
Definition by_person (e : Entry) : Entry :=
  mkEntry (en_id e) (en_spec e) (en_text e) (en_cwd e) (en_mode e) (en_enabled e) (en_created e) (en_last_fired e) ByPerson.

(** [Option]'s order: nothing is before every moment. *)
Definition opt_le (a b : option Timestamp) : bool :=
  match a, b with None, _ => true | Some _, None => false | Some a, Some b => (a <=? b)%Z end.

(** ** store.rs, over bingo-shelf: the directory, one file an entry *)

(** The files that can be read, by stem; a load reads them all again, in the order of
    their names, and takes the id from the name. *)
Abbreviation Store := (gmap str Entry) (only parsing).
Definition load (store : Store) : list Entry :=
  omap (fun id => with_id id <$> store !! id) (merge_sort str_le (elements (dom store))).
Definition save (store : Store) (e : Entry) : Store := <[en_id e := e]> store.
Definition delete_entry (store : Store) (id : str) : Store := delete id store.

(** bingo-shelf id.rs: what a prefix names. *)
Inductive Named := One (e : Entry) | Unknown | Ambiguous (ids : list str).
Definition resolve (entries : list Entry) (prefix : str) : Named :=
  let prefix := trim prefix in
  if bool_decide (prefix = []) then Unknown
  else match find_bool (fun e => bool_decide (en_id e = prefix)) entries with
       | Some exact => One exact
       | None =>
           match retain (fun e => starts_with (en_id e) prefix) entries with
           | [] => Unknown
           | [one] => One one
           | many => Ambiguous (en_id <$> many)
           end
       end.
Definition quoted (s : str) : str := [34%N] ++ s ++ [34%N].
Definition find (entries : list Entry) (prefix : str) : result str Entry :=
  match resolve entries prefix with
  | One e => Ok e
  | Unknown => Err (lit "No schedule has an id starting with " ++ quoted prefix ++ lit ". ScheduleList shows them all.")
  | Ambiguous ids => Err (quoted prefix ++ lit " could be any of: " ++ join (lit ", ") ids ++ lit ". Give more of the id.")
  end.

(** ** spend.rs: the entry's clock, written before its line is submitted *)

Record Spent := mkSpent { sp_entry : Entry; sp_at : Timestamp; sp_written : bool }.
Definition current (store : Store) (read : Entry) : option Entry :=
  match find_bool (fun e => bool_decide (en_id e = en_id read)) (load store) with
  | Some e => if en_enabled e && opt_le (en_last_fired e) (en_last_fired read) then Some e else None
  | None => None
  end.
(** [refused]: the disk does not take the stamp. *)
Definition spend (store : Store) (read : Entry) (at_ : Timestamp) (refused : bool) : option Spent * Store :=
  match current store read with
  | None => (None, store)
  | Some e => (Some (mkSpent e at_ (negb refused)), if refused then store else save store (fired e at_))
  end.

(** ** runner.rs: what is due, and what is in flight *)

Definition RESCAN : Z := 60 * 10 ^ 9.
Record Pass := mkPass { ps_due : list Entry; ps_next : option Timestamp }.
Definition pass_one (now : Timestamp) (p : Pass) (e : Entry) : Pass :=
  match next_fire e with
  | None => p
  | Some fire =>
      if (fire <=? now)%Z then mkPass (ps_due p ++ [e]) (ps_next p)
      else if match ps_next p with Some soonest => (fire <? soonest)%Z | None => true end then mkPass (ps_due p) (Some fire)
      else p
  end.
Definition pass (entries : list Entry) (now : Timestamp) : Pass := foldl (pass_one now) (mkPass [] None) entries.
Definition delay (next : option Timestamp) (now : Timestamp) : Z :=
  match next with
  | None => RESCAN
  | Some next => let ahead := (next - now)%Z in if (0 <? ahead)%Z then Z.min ahead RESCAN else 0
  end.

Record Flights := mkFlights {
  fg_ids : gmap nat str;
  fg_retry : gmap str Z;
  fg_spent : gmap str Timestamp;
}.
Definition flights_new : Flights := mkFlights ∅ ∅ ∅.
Definition busy (f : Flights) (id : str) : bool :=
  any (fun flying => bool_decide (flying = id)) (snd <$> map_to_list (fg_ids f)) || bool_decide (is_Some (fg_retry f !! id)).
Definition still_spent (entries : list Entry) (id : str) (at_ : Timestamp) : bool :=
  any (fun e => bool_decide (en_id e = id) && negb (opt_le (Some at_) (en_last_fired e))) entries.
Definition keep_spent (f : Flights) (entries : list Entry) : Flights :=
  mkFlights (fg_ids f) (fg_retry f) (filter (fun kv => still_spent entries kv.1 kv.2 = true) (fg_spent f)).
Definition remember (f : Flights) (e : Entry) : Entry :=
  match fg_spent f !! en_id e with
  | Some at_ => mkEntry (en_id e) (en_spec e) (en_text e) (en_cwd e) (en_mode e) (en_enabled e && negb (is_once (en_spec e)))
                  (en_created e) (Some at_) (en_by e)
  | None => e
  end.
Definition remembered (f : Flights) (entries : list Entry) : Flights * list Entry :=
  let f := keep_spent f entries in (f, remember f <$> entries).
Definition keep_retry (clock : Z) (f : Flights) : Flights :=
  mkFlights (fg_ids f) (filter (fun kv => (clock < kv.2)%Z) (fg_retry f)) (fg_spent f).

(** A fire task: it is opening its entry's session, or it has something to report. *)
Inductive Landed := LSpent (at_ : Timestamp) | LSkipped | LUnopened | LPanicked.
Inductive Task := Opening (read : Entry) (launched : Timestamp) | Reporting (landed : Landed).
Definition start_task (now : Timestamp) (acc : Flights * gmap nat Task * nat) (e : Entry) : Flights * gmap nat Task * nat :=
  let '(f, tasks, fresh) := acc in
  if busy f (en_id e) then acc
  else (mkFlights (<[fresh := en_id e]> (fg_ids f)) (fg_retry f) (fg_spent f), <[fresh := Opening e now]> tasks, S fresh).
(** One pass of the loop: the store read again, and a task for each due entry that is
    neither in flight nor waiting out a failure; how long to sleep. *)
Definition launch (store : Store) (f : Flights) (tasks : gmap nat Task) (fresh : nat) (now clock : Z)
    : (Flights * gmap nat Task * nat) * Z :=
  let (f, entries) := remembered (keep_retry clock f) (load store) in
  let p := pass entries now in
  (foldl (start_task now) (f, tasks, fresh) (ps_due p), delay (ps_next p) now).
Definition land (f : Flights) (task : nat) (landed : Landed) (clock : Z) : Flights :=
  match fg_ids f !! task with
  | None => f
  | Some id =>
      let ids := delete task (fg_ids f) in
      match landed with
      | LSpent at_ => mkFlights ids (fg_retry f) (<[id := at_]> (fg_spent f))
      | LSkipped => mkFlights ids (fg_retry f) (fg_spent f)
      | LUnopened | LPanicked => mkFlights ids (<[id := (clock + RESCAN)%Z]> (fg_retry f)) (fg_spent f)
      end
  end.

(** ** delivery.rs and signed.rs: firing one entry *)

Definition SURFACE : str := lit "schedule".
Definition UNATTENDED : str := lit "print".
Definition schedule_origin : Origin := mkOrigin None (Some Quiet) SURFACE None None.
Definition asked_origin : Origin := mkOrigin None (Some Said) UNATTENDED None None.
Definition input_text (text : str) (origin : Origin) : Input := InText text [] origin Wake None.
Definition input_action (action : Action) (origin : Origin) : Input := InAction action (Some origin).

Inductive Answer := Taken | Refused (error : KernelError) | Unanswered | Stopped.
Definition taken (outcome : IntentOutcome) : option KernelError :=
  match outcome with OutRejected error => Some error | _ => None end.

(** What a fire hands its session: a line as a person submits one, or a delivery. *)
Inductive Handed := Submits (input : Input) | Delivers (input : Input).
Definition mode_input (e : Entry) : option Handed :=
  (fun mode =>
     Submits (if asked e then input_text (lit "/permission " ++ mode) asked_origin
              else input_action (mkAction (lit "permission") (VString mode)) schedule_origin)) <$> en_mode e.
Definition prose (e : Entry) : Handed := Delivers (input_text (en_text e) (if asked e then asked_origin else schedule_origin)).
Definition text_input (e : Entry) : Handed :=
  if option_is_some (command_line (en_text e)) && asked e then Submits (input_text (en_text e) asked_origin) else prose e.
Definition downgraded (e : Entry) : bool := option_is_some (command_line (en_text e)) && negb (asked e).

(** The trouble badge, and the refusals this process has said in a transcript. *)
Record Trouble := mkTrouble { tb_badge : option str; tb_said : gset str; tb_notices : list str }.
Definition troubled (t : Trouble) (said : str) : Trouble := mkTrouble (Some said) (tb_said t) (tb_notices t).
Definition refused (e : Entry) (why : str) (t : Trouble) : Trouble :=
  let said := lit "schedule " ++ en_id e ++ lit ": " ++ why in
  let first := negb (bool_decide (said ∈ tb_said t)) in
  mkTrouble (Some said) ({[said]} ∪ tb_said t) (tb_notices t ++ if first then [said] else []).
Definition BOUND_SECS : str := lit "30".
Definition mode_refused (e : Entry) (answer : Answer) (t : Trouble) : Trouble :=
  match en_mode e with
  | None => t
  | Some mode =>
      let said why := refused e (lit "its mode " ++ mode ++ lit " was " ++ why ++ lit "; the turn runs in the session's own mode") t in
      match answer with
      | Refused error => said (lit "refused (" ++ ke_message error ++ lit ")")
      | Unanswered => said (lit "not answered within " ++ BOUND_SECS ++ lit "s")
      | Taken | Stopped => t
      end
  end.
Definition downgraded_said (e : Entry) : str :=
  lit "no ask of the person's is on record for it, so its command line went to the model as prose; `/schedule confirm "
    ++ en_id e ++ lit "` makes it theirs".
Definition text_refused (e : Entry) (answer : Answer) (t : Trouble) : Trouble :=
  match answer with
  | Refused error => refused e (lit "its text was refused or failed: " ++ ke_message error) t
  | _ => t
  end.
Definition unwritten_said (e : Entry) (error : str) : str :=
  lit "schedule " ++ en_id e ++ lit ": fired, but its last fire was not written down (" ++ error
    ++ lit "); this process will not fire that occurrence again".
(** The mode, then the text, on the open session, with the answers the session gives. *)
Definition say (e : Entry) (mode_answer text_answer : Answer) (t : Trouble) : list Handed * Answer * Trouble :=
  let t := mode_refused e mode_answer t in
  let t := if downgraded e then refused e (downgraded_said e) t else t in
  (match mode_input e with Some h => [h] | None => [] end ++ [text_input e], text_answer, text_refused e text_answer t).

(** One fire: the session opens or does not ([Dispatch::opened]); once it is open the
    occurrence is spent, then the line is said. *)
Record Replies := mkReplies { rp_opened : result KernelError (); rp_refused : option str; rp_mode : Answer; rp_text : Answer }.
Inductive FiredAs := FSpent (at_ : Timestamp) (answer : Answer) | FSkipped.
Definition fire (store : Store) (read : Entry) (now : Timestamp) (r : Replies) (t : Trouble)
    : result KernelError FiredAs * Store * list Handed * Trouble :=
  match rp_opened r with
  | Err e => (Err e, store, [], t)
  | Ok _ =>
      match spend store read now (option_is_some (rp_refused r)) with
      | (None, store) => (Ok FSkipped, store, [], t)
      | (Some spent, store) =>
          let t := match rp_refused r with Some error => troubled t (unwritten_said (sp_entry spent) error) | None => t end in
          let '(handed, answer, t) := say (sp_entry spent) (rp_mode r) (rp_text r) t in
          (Ok (FSpent (sp_at spent) answer), store, handed, t)
      end
  end.
(** What the runner makes of it. *)
Definition landed_as (e : Entry) (outcome : result KernelError FiredAs) (t : Trouble) : Landed * Trouble :=
  match outcome with
  | Ok (FSpent at_ _) => (LSpent at_, t)
  | Ok FSkipped => (LSkipped, t)
  | Err error =>
      (LUnopened, match ke_code error with
                  | InterruptedCode => t
                  | _ => troubled t (en_id e ++ lit " opened no turn on " ++ entry_key e ++ lit ": " ++ ke_message error)
                  end)
  end.

(** ** The loop as a step relation *)

(** A fire that spent an occurrence: the entry as the pass read it, when the pass ran,
    and when it was spent. *)
Record Fire := mkFire { fr_read : Entry; fr_launched : Timestamp; fr_at : Timestamp }.
Record Loop := mkLoop {
  lp_store : Store;
  lp_flights : Flights;
  lp_tasks : gmap nat Task;
  lp_fresh : nat;
  lp_now : Timestamp;
  lp_fires : list Fire;
}.
Definition loop_new (store : Store) (now : Timestamp) : Loop := mkLoop store flights_new ∅ 0 now [].

(** [keeps]: what the edits other hands make of the store are held to. *)
Inductive loop_step (keeps : Store → Store → Prop) : Loop → Loop → Prop :=
| step_launch l now clock f tasks fresh wait :
    (lp_now l <= now)%Z →
    launch (lp_store l) (lp_flights l) (lp_tasks l) (lp_fresh l) now clock = ((f, tasks, fresh), wait) →
    loop_step keeps l (mkLoop (lp_store l) f tasks fresh now (lp_fires l))
| step_open l task read launched now store spent refused :
    (lp_now l <= now)%Z → lp_tasks l !! task = Some (Opening read launched) →
    spend (lp_store l) read now refused = (spent, store) →
    loop_step keeps l
      (match spent with
       | Some _ => mkLoop store (lp_flights l) (<[task := Reporting (LSpent now)]> (lp_tasks l)) (lp_fresh l) now
                     (mkFire read launched now :: lp_fires l)
       | None => mkLoop store (lp_flights l) (<[task := Reporting LSkipped]> (lp_tasks l)) (lp_fresh l) now (lp_fires l)
       end)
| step_unopened l task read launched landed :
    lp_tasks l !! task = Some (Opening read launched) → landed = LUnopened ∨ landed = LPanicked →
    loop_step keeps l (mkLoop (lp_store l) (lp_flights l) (<[task := Reporting landed]> (lp_tasks l)) (lp_fresh l) (lp_now l) (lp_fires l))
| step_land l task landed clock :
    lp_tasks l !! task = Some (Reporting landed) →
    loop_step keeps l (mkLoop (lp_store l) (land (lp_flights l) task landed clock) (delete task (lp_tasks l)) (lp_fresh l) (lp_now l) (lp_fires l))
| step_edit l store :
    keeps (lp_store l) store →
    loop_step keeps l (mkLoop store (lp_flights l) (lp_tasks l) (lp_fresh l) (lp_now l) (lp_fires l)).

(** ** The tools ([tools/create.rs], [tools/forget.rs]) *)

Record CreateArgs := mkCreateArgs { ca_spec : str; ca_text : str; ca_cwd : option PathBuf; ca_mode : option str }.
Definition UNNAMED : str := lit "<new>".
Definition NOTHING_TO_SAY : str := lit "a schedule with nothing to say would fire and do nothing".
Definition create_entry (a : CreateArgs) (cwd : PathBuf) (now : Timestamp) : result str Entry :=
  let text := trim (ca_text a) in
  if bool_decide (text = []) then Err NOTHING_TO_SAY
  else let* spec := spec_parse (ca_spec a) in
       Ok (mkEntry UNNAMED spec text (default cwd (ca_cwd a)) (ca_mode a) true now None ByTool).
(** [id]: the name [Shelf::mint] gives it, which no file has. *)
Definition schedule_create (a : CreateArgs) (cwd : PathBuf) (now : Timestamp) (id : str) (store : Store) : result str Entry * Store :=
  match create_entry a cwd now with
  | Err message => (Err message, store)
  | Ok e => let e := with_id id e in (Ok e, save store e)
  end.
Definition schedule_forget (prefix : str) (store : Store) : result str Entry * Store :=
  match find (load store) prefix with
  | Err message => (Err message, store)
  | Ok e => (Ok e, delete_entry store (en_id e))
  end.

(** ** command/consent.rs, service.rs: the person's own verbs *)

Definition invalid (message : str) : KernelError := mkKernelError InvalidInput message.
(** [asked_line]: the kernel binds the line being run as the person's own. *)
Definition persons_own (verb : str) (asked_line : bool) : result KernelError () :=
  if asked_line then Ok tt
  else Err (mkKernelError PermissionDenied (lit "only the person's own /schedule " ++ verb ++ lit " is consent")).
Definition TEXT : str := lit " -- ".
Definition MODE : str := lit " as ".
Definition USAGE : str := lit "usage: /schedule add <spec> [as <mode>] -- <text>".
(** [str::rsplit_once] on a string. *)
Fixpoint rsplit_str (pat s : str) : option (str * str) :=
  match s with
  | [] => (fun r => ([], r)) <$> strip_prefix pat []
  | c :: tl =>
      match rsplit_str pat tl with
      | Some (a, b) => Some (c :: a, b)
      | None => (fun r => ([], r)) <$> strip_prefix pat s
      end
  end.
Record Added := mkAdded { ad_spec : Spec; ad_mode : option str; ad_text : str }.
Definition added (args : str) : result str Added :=
  match split_once TEXT args with
  | None => Err USAGE
  | Some (head, text) =>
      let text := trim text in
      if bool_decide (text = []) then Err NOTHING_TO_SAY
      else
        let (spec, mode) := match rsplit_str MODE head with
                            | Some (spec, mode) => (spec, Some (trim mode))
                            | None => (head, None)
                            end in
        if match mode with Some mode => bool_decide (mode = []) || any is_whitespace mode | None => false end then Err USAGE
        else let* spec := spec_parse (trim spec) in Ok (mkAdded spec mode text)
  end.
Definition consent_add (asked_line : bool) (args : str) (cwd : PathBuf) (now : Timestamp) (id : str) (store : Store)
    : result KernelError Entry * Store :=
  match persons_own (lit "add") asked_line with
  | Err e => (Err e, store)
  | Ok _ =>
      match added args with
      | Err message => (Err (invalid message), store)
      | Ok a =>
          let e := mkEntry id (ad_spec a) (ad_text a) cwd (ad_mode a) true now None ByPerson in
          (Ok e, save store e)
      end
  end.
Definition consent_every (asked_line : bool) (args : str) (cwd : PathBuf) (now : Timestamp) (id : str) (store : Store)
    : result KernelError Entry * Store :=
  match persons_own (lit "every") asked_line with
  | Err e => (Err e, store)
  | Ok _ =>
      match break_word (trim args) with
      | (_, []) => (Err (invalid (lit "use /schedule every 30m <prompt>")), store)
      | (interval, _ :: text) => consent_add asked_line (lit "every " ++ interval ++ lit " -- " ++ trim text) cwd now id store
      end
  end.

(** bingo-services schedule/text.rs: what a confirmation names. *)
Definition confirm_bytes (text : str) (mode : option str) : list N :=
  utf8 (lit "bingo.schedule.confirm.v1") ++ [0%N] ++ be_bytes 8 (N.of_nat (length (utf8 text))) ++ utf8 text
  ++ [if option_is_some mode then 1%N else 0%N] ++ match mode with Some mode => utf8 mode | None => [] end.
Definition confirmation_digest (text : str) (mode : option str) : str := hex (digest (confirm_bytes text mode)).
Definition is_control (c : char) : bool := ((c <? 32) || ((127 <=? c) && (c <=? 159)))%N.
Definition hidden (c : char) : bool :=
  (is_control c && negb (N.eqb c 10 || N.eqb c 9)
   || (N.eqb c 8206 || N.eqb c 8207 || (8234 <=? c) && (c <=? 8238) || (8294 <=? c) && (c <=? 8297)))%N.
Fixpoint hex_digits (fuel : nat) (n : N) (acc : str) : str :=
  match fuel with
  | O => acc
  | S fuel => let acc := hex_digit (n mod 16) :: acc in if (n <? 16)%N then acc else hex_digits fuel (n / 16) acc
  end.
Definition escape_unicode (c : char) : str := lit "\u{" ++ hex_digits 6 c [] ++ lit "}".
Definition visible (text : str) : str :=
  if any hidden text then text ≫= (fun c => if hidden c then escape_unicode c else [c]) else text.

Definition consent_confirm (asked_line : bool) (args : str) (store : Store) : result KernelError Entry * Store :=
  match persons_own (lit "confirm") asked_line with
  | Err e => (Err e, store)
  | Ok _ =>
      match split_whitespace args with
      | [] => (Err (invalid (lit "expected a schedule id")), store)
      | id :: rest =>
          match rest with
          | _ :: _ :: _ => (Err (invalid (lit "usage: /schedule confirm <id> [digest]")), store)
          | _ =>
              match find (load store) id with
              | Err message => (Err (invalid message), store)
              | Ok e =>
                  if match head rest with
                     | Some d => negb (bool_decide (d = confirmation_digest (en_text e) (en_mode e)))
                     | None => false
                     end
                  then (Err (invalid (lit "schedule changed since it was shown; read it again before confirming")), store)
                  else let e := by_person e in (Ok e, save store e)
              end
          end
      end
  end.

Definition owner_entry (asked_line : bool) (id : str) (store : Store) : result KernelError Entry :=
  let* _ := persons_own (lit "change") asked_line in
  if bool_decide (trim id = []) then Err (invalid (lit "expected a schedule id"))
  else match find (load store) id with Ok e => Ok e | Err message => Err (invalid message) end.
Definition owner_enabled (asked_line : bool) (id : str) (enabled : bool) (store : Store) : result KernelError str * Store :=
  match owner_entry asked_line id store with
  | Err e => (Err e, store)
  | Ok e =>
      let e := with_enabled enabled e in
      (Ok ((if enabled then lit "resumed" else lit "paused") ++ lit " " ++ [183%N] ++ lit " " ++ en_text e), save store e)
  end.
Definition owner_pause (asked_line : bool) (id : str) (store : Store) := owner_enabled asked_line id false store.
Definition owner_resume (asked_line : bool) (id : str) (store : Store) := owner_enabled asked_line id true store.
Definition owner_forget (asked_line : bool) (id : str) (store : Store) : result KernelError str * Store :=
  match owner_entry asked_line id store with
  | Err e => (Err e, store)
  | Ok e => (Ok (lit "forgot " ++ en_id e ++ lit "; its session stays"), delete_entry store (en_id e))
  end.
Definition ran (id : str) (f : FiredAs) : result KernelError str :=
  match f with
  | FSkipped => Err (invalid (lit "schedule " ++ id ++ lit " changed while its session opened; nothing ran"))
  | FSpent _ Taken => Ok (lit "ran " ++ id ++ lit "; a fire in another process may add one extra turn")
  | FSpent _ Unanswered => Ok (lit "started " ++ id ++ lit "; it is still running after " ++ BOUND_SECS ++ lit "s")
  | FSpent _ (Refused error) =>
      Err (mkKernelError (ke_code error) (lit "ran " ++ id ++ lit ", and its line was refused or failed: " ++ ke_message error))
  | FSpent _ Stopped => Err (mkKernelError InterruptedCode (lit "started " ++ id ++ lit "; the scheduler stopped before it answered"))
  end.
Definition owner_run (asked_line : bool) (id : str) (now : Timestamp) (r : Replies) (store : Store) (t : Trouble)
    : result KernelError str * Store * list Handed * Trouble :=
  match owner_entry asked_line id store with
  | Err e => (Err e, store, [], t)
  | Ok e =>
      if negb (en_enabled e) then (Err (invalid (lit "schedule is disabled; resume first")), store, [], t)
      else match fire store e now r t with
           | (Err error, store, handed, t) => (Err error, store, handed, t)
           | (Ok f, store, handed, t) => (ran (en_id e) f, store, handed, t)
           end
  end.

(** ** render.rs: a row of the listing, and what the verbs say *)

Definition HEAD : nat := 48.
Definition NEVER : str := [8212%N].
Definition when (next : option Timestamp) : str := match next with Some fire => cal_when fire | None => NEVER end.

Definition head_line (text : str) (width : nat) : str :=
  let line := trim (default [] (head (lines text))) in
  if length line <=? width then line else trim_end (take (width - 1) line) ++ [8230%N].

Record Row := mkRow {
  rw_id : str;
  rw_spec : str;
  rw_next_fire : option str;
  rw_enabled : bool;
  rw_by : str;
  rw_mode : option str;
  rw_text : str;
  rw_session : option SessionId;
}.
Definition row_of (e : Entry) (session : option SessionId) : Row :=
  mkRow (en_id e) (spec_show (en_spec e)) (cal_show <$> next_fire e) (en_enabled e) (by_word (en_by e)) (en_mode e) (en_text e) session.
Definition row (e : Entry) : list str :=
  let row := row_of e None in
  [rw_id row; rw_spec row; when (rw_next_fire row ≫= cal_parse); if rw_enabled row then lit "yes" else lit "no"; rw_by row;
   head_line (visible (rw_text row)) HEAD].
Definition in_full (e : Entry) : option str :=
  let text := visible (en_text e) in
  if bool_decide (head_line text HEAD = text) then None else Some (en_id e ++ lit " in full:" ++ 10%N :: text).
Definition confirm_line (e : Entry) : option str :=
  if asked e then None
  else Some (lit "confirm " ++ en_id e ++ lit " (mode " ++ visible (default (lit "the session's") (en_mode e)) ++ lit "): /schedule confirm "
             ++ en_id e ++ lit " " ++ confirmation_digest (en_text e) (en_mode e)).
Definition written_said (e : Entry) (done_ : str) : str :=
  done_ ++ lit " " ++ en_id e ++ lit ": " ++ spec_show (en_spec e) ++ lit ", next " ++ when (next_fire e)
  ++ lit ", mode " ++ default (lit "the session's") (en_mode e) ++ lit ": " ++ visible (en_text e).
Definition create_receipt (holder : str) (e : Entry) : str :=
  lit "Scheduled " ++ en_id e ++ lit ": " ++ spec_show (en_spec e) ++ lit ", next " ++ when (next_fire e) ++ lit ". Schedules here are " ++ holder ++ lit ".".
Definition forget_said (e : Entry) : str :=
  lit "Forgot " ++ en_id e ++ lit ": " ++ spec_show (en_spec e) ++ lit ", " ++ head_line (en_text e) HEAD.

End spec.

(** ** wake.rs and tools/wake.rs: the model's wake on its own session *)

Definition WAKE_LEAST : Z := 10.
Definition WAKE_MOST : Z := 3600.
Record WakeNote := mkWake { wk_at : Timestamp; wk_note : str }.
Record Held := mkHeld { hd_after : Z; hd_clamped : option Z }.
(** [Ord::clamp], the bounds in order. *)
Definition hold (asked least : Z) : Held :=
  let after := Z.min (Z.max asked least) WAKE_MOST in
  mkHeld after (if (after =? asked)%Z then None else Some asked).
(** [latest]: the last moment the clock can hold. *)
Definition wake_set (latest now : Timestamp) (after : Z) (note : str) : WakeNote :=
  let at_ := (now + after * 10 ^ 9)%Z in mkWake (if (at_ <=? latest)%Z then at_ else now) note.
Record WakeAsk := mkWakeAsk { wa_after : option str; wa_note : option str; wa_stop : bool }.
Inductive Wanted := WantSet (held : Held) (note : str) | WantStop.
Definition wanted (a : WakeAsk) (least : Z) : result str Wanted :=
  if wa_stop a then Ok WantStop
  else
    let note := trim (default [] (wa_note a)) in
    if bool_decide (note = []) then
      Err (lit "a wake with nothing to say would open a turn about nothing. Write the note you want to read when it comes.")
    else match wa_after a with
         | None => Err (lit "a wake needs an `after`: how long to wait, like `30s` or `5m`.")
         | Some after =>
             match duration after with
             | Err why => Err (why ++ lit " " ++ em_dash :: lit " `after` is a length of time, like `30s`, `5m` or `1h`.")
             | Ok asked => Ok (WantSet (hold asked least) note)
             end
         end.
Definition written_span (seconds : Z) : str :=
  if (seconds mod 3600 =? 0)%Z && (3600 <=? seconds)%Z then show_Z (seconds / 3600) ++ lit "h"
  else if (seconds mod 60 =? 0)%Z && (60 <=? seconds)%Z then show_Z (seconds / 60) ++ lit "m"
  else show_Z seconds ++ lit "s".
Definition clamp_said (h : Held) : str :=
  match hd_clamped h with
  | None => []
  | Some asked =>
      lit " (you asked for " ++ written_span (Z.max asked 0) ++ lit ", and "
      ++ (if (asked <? hd_after h)%Z then written_span (hd_after h) ++ lit " is the least a wake may be"
          else written_span WAKE_MOST ++ lit " is the most") ++ lit ".)"
  end.
Definition wake_origin : Origin := mkOrigin None (Some Note) (lit "wake") None None.

(** ** wakes.rs over bingo-alarm: pending wakes and their timers *)

(** An alarm sleeps to its moment, then goes for the lock ([Ringing]); with it, it takes
    whatever wake its session has pending ([Holding]) and delivers that.  An alarm of
    [clear_stale] takes none.  A cancelled task that sleeps never wakes; one past its
    sleep is [am_doomed]: it still takes the lock it waits for, and stops at the first
    await after. *)
Inductive AlarmPhase := Sleeping | Ringing | Holding (wake : WakeNote).
Record Alarm := mkAlarm { am_session : SessionId; am_at : Timestamp; am_phase : AlarmPhase; am_clears : bool; am_doomed : bool }.
Record Wakes := mkWakes {
  wks_pending : gmap SessionId WakeNote;
  (** the key each timer is held under, and the tasks that still run *)
  wks_alarms : gmap SessionId nat;
  wks_tasks : gmap nat Alarm;
  wks_fresh : nat;
  (** whether [start] has said which host delivers *)
  wks_started : bool;
  wks_now : Timestamp;
  (** what was delivered: the session, the wake, and when *)
  wks_delivered : list (SessionId * WakeNote * Timestamp);
}.
Definition wakes_new (started : bool) (now : Timestamp) : Wakes := mkWakes ∅ ∅ ∅ 0 started now [].
Definition with_phase (phase : AlarmPhase) (a : Alarm) : Alarm := mkAlarm (am_session a) (am_at a) phase (am_clears a) (am_doomed a).
(** [Task::drop] *)
Definition doom (a : Alarm) : option Alarm :=
  match am_phase a with
  | Sleeping => None
  | Ringing | Holding _ => Some (mkAlarm (am_session a) (am_at a) (am_phase a) (am_clears a) true)
  end.
Definition doomed_tasks (w : Wakes) (session : SessionId) : gmap nat Alarm :=
  match wks_alarms w !! session with
  | None => wks_tasks w
  | Some n => match wks_tasks w !! n with Some a => partial_alter (fun _ => doom a) n (wks_tasks w) | None => wks_tasks w end
  end.
(** [Alarms::cancel] and [Alarms::arm] *)
Definition alarms_cancel (w : Wakes) (session : SessionId) : Wakes :=
  mkWakes (wks_pending w) (delete session (wks_alarms w)) (doomed_tasks w session) (wks_fresh w) (wks_started w) (wks_now w) (wks_delivered w).
Definition alarms_arm (w : Wakes) (session : SessionId) (at_ : Timestamp) (clears : bool) : Wakes :=
  mkWakes (wks_pending w) (<[session := wks_fresh w]> (wks_alarms w))
    (<[wks_fresh w := mkAlarm session at_ Sleeping clears false]> (doomed_tasks w session)) (S (wks_fresh w))
    (wks_started w) (wks_now w) (wks_delivered w).
Definition with_pending (pending : gmap SessionId WakeNote) (w : Wakes) : Wakes :=
  mkWakes pending (wks_alarms w) (wks_tasks w) (wks_fresh w) (wks_started w) (wks_now w) (wks_delivered w).
Definition wakes_set (w : Wakes) (session : SessionId) (wake : WakeNote) : option WakeNote * Wakes :=
  let set := with_pending (<[session := wake]> (wks_pending w)) w in
  (wks_pending w !! session, if wks_started w then alarms_arm set session (wk_at wake) false else set).
Definition wakes_take (w : Wakes) (session : SessionId) : option WakeNote * Wakes :=
  (wks_pending w !! session, with_pending (delete session (wks_pending w)) (alarms_cancel w session)).
Definition clear_stale (w : Wakes) (session : SessionId) : Wakes :=
  match wks_pending w !! session with Some _ => w | None => alarms_arm w session (wks_now w) true end.
(** [Wakes::start], with [Alarms::reconcile]: the timers of sessions with nothing
    pending are dropped, and a pending wake gets one unless its session has one. *)
Definition reconcile_drop (w : Wakes) (session : SessionId) : Wakes :=
  match wks_pending w !! session with Some _ => w | None => alarms_cancel w session end.
Definition reconcile_arm (w : Wakes) (wanted : SessionId * WakeNote) : Wakes :=
  match wks_alarms w !! wanted.1 with Some _ => w | None => alarms_arm w wanted.1 (wk_at wanted.2) false end.
Definition wakes_start (w : Wakes) : Wakes :=
  if wks_started w then w
  else foldl reconcile_arm
         (foldl reconcile_drop (mkWakes (wks_pending w) (wks_alarms w) (wks_tasks w) (wks_fresh w) true (wks_now w) (wks_delivered w))
            (map_to_list (wks_alarms w)).*1)
         (map_to_list (wks_pending w)).
(** [Wakes::stop]: nothing is pending and no timer is held. *)
Definition wakes_stop (w : Wakes) : Wakes :=
  mkWakes ∅ ∅ (omap doom (wks_tasks w)) (wks_fresh w) (wks_started w) (wks_now w) (wks_delivered w).
(** What an alarm that has the lock does: [spend]. *)
Definition ring (w : Wakes) (n : nat) (a : Alarm) : Wakes :=
  match am_clears a, wks_pending w !! am_session a with
  | false, Some wake =>
      mkWakes (delete (am_session a) (wks_pending w)) (wks_alarms w) (<[n := with_phase (Holding wake) a]> (wks_tasks w))
        (wks_fresh w) (wks_started w) (wks_now w) (wks_delivered w)
  | _, _ => mkWakes (wks_pending w) (wks_alarms w) (delete n (wks_tasks w)) (wks_fresh w) (wks_started w) (wks_now w) (wks_delivered w)
  end.
Definition wakes_deliver (w : Wakes) (n : nat) (session : SessionId) (wake : WakeNote) : Wakes :=
  mkWakes (wks_pending w) (wks_alarms w) (delete n (wks_tasks w)) (wks_fresh w) (wks_started w) (wks_now w)
    ((session, wake, wks_now w) :: wks_delivered w).
Inductive wakes_step : Wakes → Wakes → Prop :=
| wakes_step_set w session wake : wakes_step w (wakes_set w session wake).2
| wakes_step_take w session : wakes_step w (wakes_take w session).2
| wakes_step_stop w : wakes_step w (wakes_stop w)
| wakes_step_start w : wakes_step w (wakes_start w)
| wakes_step_stale w session : wakes_step w (clear_stale w session)
| wakes_step_due w n a :
    wks_tasks w !! n = Some a → am_phase a = Sleeping → (am_at a <= wks_now w)%Z →
    wakes_step w (mkWakes (wks_pending w) (wks_alarms w) (<[n := with_phase Ringing a]> (wks_tasks w))
                    (wks_fresh w) (wks_started w) (wks_now w) (wks_delivered w))
| wakes_step_ring w n a : wks_tasks w !! n = Some a → am_phase a = Ringing → wakes_step w (ring w n a)
| wakes_step_deliver w n a wake :
    wks_tasks w !! n = Some a → am_phase a = Holding wake → wakes_step w (wakes_deliver w n (am_session a) wake)
| wakes_step_die w n a wake :
    wks_tasks w !! n = Some a → am_phase a = Holding wake → am_doomed a = true →
    wakes_step w (mkWakes (wks_pending w) (wks_alarms w) (delete n (wks_tasks w)) (wks_fresh w) (wks_started w) (wks_now w) (wks_delivered w))
| wakes_step_tick w now :
    (wks_now w <= now)%Z →
    wakes_step w (mkWakes (wks_pending w) (wks_alarms w) (wks_tasks w) (wks_fresh w) (wks_started w) now (wks_delivered w)).

(** ** tools/wake.rs: the call *)

Section wake_tool.
Context `{Calendar}.

Definition wake_when (wake : WakeNote) : str := when (Some (wk_at wake)).
Definition wake_receipt (wake : WakeNote) (held : Held) : str :=
  lit "Waking you at " ++ wake_when wake ++ lit " with: " ++ head_line (wk_note wake) 60 ++ clamp_said held.
Definition wake_tool_set (latest now : Timestamp) (session : SessionId) (held : Held) (note : str) (w : Wakes) : str * Wakes :=
  let wake := wake_set latest now (hd_after held) note in
  (wake_receipt wake held, (wakes_set w session wake).2).
Definition wake_tool_stop (session : SessionId) (w : Wakes) : str * Wakes :=
  match wakes_take w session with
  | (None, w) => (lit "No wake was standing; nothing to cancel.", w)
  | (Some wake, w) => (lit "The wake set for " ++ wake_when wake ++ lit " is cancelled; none stands.", w)
  end.
Definition wake_call (latest now : Timestamp) (session : SessionId) (least : Z) (ask : WakeAsk) (w : Wakes) : result str str * Wakes :=
  match wanted ask least with
  | Err why => (Err why, w)
  | Ok WantStop => let '(said, w) := wake_tool_stop session w in (Ok said, w)
  | Ok (WantSet held note) => let '(said, w) := wake_tool_set latest now session held note w in (Ok said, w)
  end.
End wake_tool.
