(* ===== verification/ScheduleLaws.v ===== *)
(** * ScheduleLaws: what a schedule promises

    A schedule reads back as it was written and its next fire is always still to come;
    no occurrence is fired twice by one process, whatever the disk refuses and in
    whatever order fires land; the loop never sleeps past a fire; consent is the
    person's alone and pins the exact words they read; a wake is delivered once. *)

From Stdlib Require DecimalString.
From S2P Require Import Prelude Text Digest Model Interaction Event Transcript State Ears Numbers Queue CommandLine Round Schedule.

(** What is relied on of the calendar: adding is adding, tomorrow is the next day, the
    civil date of a zone never goes back, a time of day falls on its date or, where the
    clocks skipped it, later, and a moment's text reads back. *)
Class CalendarLaws `{Calendar} := mkCalendarLaws {
  cal_plus_spec t d u : cal_plus t d = Some u → u = (t + d * 10 ^ 9)%Z;
  cal_tomorrow_spec d e : cal_tomorrow d = Some e → e = (d + 1)%Z;
  cal_date_mono t u : (t <= u)%Z → (cal_date t <= cal_date u)%Z;
  cal_at_date d h m t : cal_at d h m = Some t → (d <= cal_date t)%Z;
  cal_show_parse t : cal_parse (cal_show t) = Some t;
  cal_show_plain t : trim (cal_show t) = cal_show t ∧ cal_show t ≠ [];
}.

(** Lookups in a map just inserted into, at the key or off it. *)
Ltac off_insert :=
  repeat match goal with
    | H : context [<[?i := _]> _ !! ?i] |- _ => rewrite lookup_insert_eq in H
    | |- context [<[?i := _]> _ !! ?i] => rewrite lookup_insert_eq
    | H : context [<[_ := _]> _ !! _] |- _ => rewrite lookup_insert_ne in H by done
    | |- context [<[_ := _]> _ !! _] => rewrite lookup_insert_ne by done
    end.
Lemma sublist_retain {A} (p : A → bool) l : retain p l `sublist_of` l.
Proof. unfold retain. induction l as [|a l IH]; [done|]. cbn. destruct (p a); by constructor. Qed.

Section spec.
Context `{CalendarLaws}.

Lemma next_after s after t : spec_next_fire s after = Some t → (after < t)%Z.
Proof.
  destruct s as [seconds|h m|at_]; cbn [spec_next_fire].
  - destruct (Z.ltb_spec 0 seconds); [|done]. intros ->%cal_plus_spec. lia.
  - unfold next_daily. destruct (cal_at (cal_date after) h m) as [today|]; cbn; [|done].
    destruct (Z.ltb_spec after today); [by intros [= <-]|].
    destruct (cal_tomorrow (cal_date after)) as [tomorrow|] eqn:Et; cbn; [|done]. apply cal_tomorrow_spec in Et as ->.
    intros Ha%cal_at_date. destruct (Z.lt_ge_cases after t) as [|Hle]; [done|]. apply cal_date_mono in Hle. lia.
  - destruct (Z.ltb_spec after at_); [by intros [= <-]|done].
Qed.
Lemma next_every seconds after t : spec_next_fire (Every seconds) after = Some t → t = (after + seconds * 10 ^ 9)%Z.
Proof. cbn. destruct (0 <? seconds)%Z; [|done]. apply cal_plus_spec. Qed.
Lemma next_once at_ after t : spec_next_fire (OnceAt at_) after = Some t → t = at_ ∧ (after < at_)%Z.
Proof. cbn. destruct (Z.ltb_spec after at_); [|done]. by intros [= <-]. Qed.

(** ** The words of a schedule *)

Lemma digits_upto_below b acc s : (0 <= b)%Z →
  digits_upto b (Z.of_N acc) s = Z.of_N <$> digits_below (Z.to_N b + 1) acc s.
Proof.
  intros Hb. revert acc. induction s as [|c s IH]; intros acc; [done|]. cbn [digits_upto digits_below].
  destruct (is_ascii_digit c) eqn:Ec; [|done]. unfold is_ascii_digit in Ec. bools.
  repeat match goal with H : (_ <=? _)%N = true |- _ => apply N.leb_le in H end.
  assert (Z.of_N acc * 10 + (Z.of_N c - 48) = Z.of_N (acc * 10 + (c - 48)))%Z as -> by lia. rewrite IH.
  destruct (Z.leb_spec (Z.of_N (acc * 10 + (c - 48))) b), (N.ltb_spec (acc * 10 + (c - 48)) (Z.to_N b + 1)); lia || done.
Qed.
Lemma show_Z_nonneg z : (0 <= z)%Z → show_Z z = show_N (Z.to_N z).
Proof. intros Hz. unfold show_N. by rewrite Z2N.id. Qed.
Lemma digits_show_Z b z : (0 <= z <= b)%Z → parse_digits_upto b (show_Z z) = Some z.
Proof.
  intros Hz. rewrite show_Z_nonneg by lia. destruct (show_N_cons (Z.to_N z)) as (c & r & E & _).
  unfold parse_digits_upto. rewrite E. rewrite <- E. change 0%Z with (Z.of_N 0). rewrite digits_upto_below by lia.
  rewrite digits_show by lia. cbn. by rewrite Z2N.id by lia.
Qed.
Lemma show_Z_digits z : (0 <= z)%Z → Forall (λ c, is_ascii_digit c = true) (show_Z z).
Proof. intros Hz. rewrite show_Z_nonneg by done. apply show_chars. Qed.
Lemma digit_plain c : is_ascii_digit c = true → is_whitespace c = false ∧ c ≠ chr ":" ∧ c ≠ chr "+" ∧ c ≠ chr "-".
Proof.
  unfold is_ascii_digit. intros Hc. bools.
  repeat match goal with H : (_ <=? _)%N = true |- _ => apply N.leb_le in H end.
  split_and!; [|intros ->; vm_compute in *; congruence..]. unfold is_whitespace.
  repeat (apply orb_false_iff; split); try apply N.eqb_neq; try (apply andb_false_iff; rewrite !N.leb_gt); lia.
Qed.
Lemma parse_i8_show z : (0 <= z <= 127)%Z → parse_i8 (show_Z z) = Some z.
Proof.
  intros Hz. pose proof (digits_show_Z 127 z Hz) as Hd. unfold parse_i8.
  rewrite show_Z_nonneg in * by lia. destruct (show_N_cons (Z.to_N z)) as (c & r & E & Hc). rewrite E in *.
  apply digit_plain in Hc as (_ & _ & Hp & Hm). by rewrite !(proj2 (N.eqb_neq _ _)) by done.
Qed.
Lemma parse_i8_two z : (0 <= z < 60)%Z → parse_i8 (two_digits z) = Some z.
Proof.
  intros Hz. unfold two_digits. destruct (Z.ltb_spec z 10); [|apply parse_i8_show; lia].
  assert (z = 0 ∨ z = 1 ∨ z = 2 ∨ z = 3 ∨ z = 4 ∨ z = 5 ∨ z = 6 ∨ z = 7 ∨ z = 8 ∨ z = 9)%Z as Hd by lia.
  by repeat destruct Hd as [->|Hd]; subst; vm_compute.
Qed.

(** The schedules there are: an interval a clock can hold, a minute of a day, a moment. *)
Definition spec_ok (s : Spec) : Prop :=
  match s with
  | Every seconds => (0 < seconds <= i64_max)%Z
  | DailyAt hour minute => (0 <= hour < 24)%Z ∧ (0 <= minute < 60)%Z
  | OnceAt _ => True
  end.

Lemma take_digits_app s c r : Forall (λ c, is_ascii_digit c = true) s → is_ascii_digit c = false →
  take_while is_ascii_digit (s ++ c :: r) = s.
Proof. intros Hs Hc. induction Hs as [|d s Hd Hs IH]; cbn; [by rewrite Hc|]. by rewrite Hd, IH. Qed.
Lemma digits_plain s : Forall (λ c, is_ascii_digit c = true) s → ∀ c, c ∈ s → is_whitespace c = false.
Proof. rewrite Forall_forall. intros Hs c Hc. by apply digit_plain, Hs. Qed.
Lemma duration_written n unit size : (0 < n)%Z → (n * size <= i64_max)%Z → (0 < size)%Z →
  (unit, size) ∈ [(lit "h", 3600); (lit "m", 60); (lit "s", 1)]%Z →
  duration (show_Z n ++ unit) = Ok (n * size)%Z ∧ trim (show_Z n ++ unit) = show_Z n ++ unit.
Proof.
  intros Hn Hm Hs Hu. assert (∃ c, unit = [c] ∧ is_ascii_digit c = false ∧ is_whitespace c = false ∧ unit_seconds [c] = Some size) as (c & -> & Hc & Hw & Hus).
  { repeat (apply elem_of_cons in Hu as [Hu|Hu]; [injection Hu as -> ->; eexists; by split_and!|]). by apply elem_of_nil in Hu. }
  pose proof (show_Z_digits n ltac:(lia)) as Hd.
  assert (trim (show_Z n ++ [c]) = show_Z n ++ [c]) as Ht.
  { apply trim_plain. intros d [Hin| ->%list_elem_of_singleton]%elem_of_app; [|done]. by eapply digits_plain. }
  split; [|done]. unfold duration. rewrite Ht, take_digits_app by done. rewrite drop_app_length.
  rewrite (trim_plain [c]) by (by intros d ->%list_elem_of_singleton). rewrite Hus.
  rewrite digits_show_Z by (split; [lia|nia]). rewrite (proj2 (Z.ltb_ge _ _)) by lia. by rewrite (proj2 (Z.leb_le _ _)).
Qed.
Lemma duration_interval seconds : (0 < seconds <= i64_max)%Z →
  duration (interval seconds) = Ok seconds ∧ trim (interval seconds) = interval seconds.
Proof.
  intros Hs. unfold interval. destruct (Z.eqb_spec (seconds mod 3600) 0) as [Eh|_].
  { apply Z.mod_divide in Eh as [n ->]; [|done]. rewrite Z.div_mul by done. apply duration_written; [lia..|by left]. }
  destruct (Z.eqb_spec (seconds mod 60) 0) as [Em|_].
  { apply Z.mod_divide in Em as [n ->]; [|done]. rewrite Z.div_mul by done. apply duration_written; [lia..|right; by left]. }
  rewrite <- (Z.mul_1_r seconds) at 2. apply duration_written; [lia..|right; right; by left].
Qed.
Lemma duration_ok s n : duration s = Ok n → (0 < n <= i64_max)%Z.
Proof.
  unfold duration. destruct (unit_seconds _) as [size|] eqn:Eu; [|done]. destruct (parse_digits_upto _ _) as [k|]; [|done].
  destruct (Z.ltb_spec k 1); [done|]. destruct (Z.leb_spec (k * size) i64_max); [|done]. intros [= <-].
  assert (0 < size)%Z; [|nia]. unfold unit_seconds in Eu. by repeat case_bool_decide; simplify_eq.
Qed.
Lemma trim_start_head c r : is_whitespace c = false → trim_start_by is_whitespace (c :: r) = c :: r.
Proof. intros Hc. cbn. by rewrite Hc. Qed.
(** A word in front of something that ends in no space is a line nothing is trimmed off. *)
Lemma trim_line w rest : is_whitespace <$> head w = Some false → trim rest = rest → rest ≠ [] → trim (w ++ rest) = w ++ rest.
Proof.
  intros Hc Ht Hr. destruct w as [|c w]; [done|]. injection Hc as Hc. unfold trim. apply trim_by_id.
  - by intros d r [= <- _].
  - intros d r E. destruct rest as [|x rest] using rev_ind; [done|]. rewrite app_assoc in E. apply app_inj_2 in E as [_ [= ->]]; [|done].
    unfold trim, trim_by in Ht. by eapply trim_end_by_last.
Qed.
Lemma two_digits_plain z : (0 <= z)%Z → ∀ c, c ∈ two_digits z → is_whitespace c = false ∧ c ≠ chr ":".
Proof.
  intros Hz c Hc. assert (is_ascii_digit c = true) as Hd; [|apply digit_plain in Hd; tauto].
  pose proof (show_Z_digits z Hz) as Hd. rewrite Forall_forall in Hd.
  unfold two_digits in Hc. destruct (z <? 10)%Z; [apply elem_of_cons in Hc as [->|Hc]; [done|]|]; by apply Hd.
Qed.

(** a schedule reads back as it was written.  Every schedule the grammar accepts is
    an interval a clock can hold, a minute of a day or a moment, and the words a person
    and the entry file read it by parse to that same schedule. *)
Theorem a_schedule_reads_back_as_written (s : Spec) :
  (spec_ok s → spec_parse (spec_show s) = Ok s) ∧ (∀ words, spec_parse words = Ok s → spec_ok s).
Proof.
  split.
  - destruct s as [seconds|hour minute|at_]; cbn [spec_ok spec_show]; unfold spec_parse.
    + intros Hs. destruct (duration_interval seconds Hs) as [Hd Ht].
      rewrite trim_line by (done || (intros E; by rewrite E in Hd)). rewrite (strip_prefix_app EVERY).
      unfold every. by rewrite Ht, Hd.
    + intros [Hh Hm]. set (rest := two_digits hour ++ lit ":" ++ two_digits minute).
      assert (trim rest = rest) as Ht.
      { apply trim_plain. intros c Hc. unfold rest in Hc. rewrite !elem_of_app in Hc.
        destruct Hc as [Hc|[->%list_elem_of_singleton|Hc]]; [eapply two_digits_plain; [|done]; lia|done|eapply two_digits_plain; [|done]; lia]. }
      assert (rest ≠ []) as Hne by (unfold rest; destruct (two_digits hour); done).
      rewrite trim_line by done. change (strip_prefix EVERY (DAILY_AT ++ rest)) with (@None str).
      rewrite (strip_prefix_app DAILY_AT). unfold daily_at. rewrite Ht. unfold rest.
      assert (split_once (lit ":") (two_digits hour ++ lit ":" ++ two_digits minute) = Some (two_digits hour, two_digits minute)) as ->.
      { apply (split_once_first (chr ":") []). intros Hc. by apply two_digits_plain in Hc as [_ ?]; [|lia]. }
      rewrite !parse_i8_two by lia. by rewrite (proj2 (Z.leb_le 0 hour)), (proj2 (Z.ltb_lt hour 24)), (proj2 (Z.leb_le 0 minute)), (proj2 (Z.ltb_lt minute 60)) by lia.
    + intros _. destruct (cal_show_plain at_) as [Ht Hne]. rewrite trim_line by done.
      change (strip_prefix EVERY (ONCE_AT ++ cal_show at_)) with (@None str).
      change (strip_prefix DAILY_AT (ONCE_AT ++ cal_show at_)) with (@None str).
      rewrite (strip_prefix_app ONCE_AT). unfold once_at. by rewrite Ht, cal_show_parse.
  - intros words. unfold spec_parse. destruct (strip_prefix EVERY (trim words)) as [r|].
    { unfold every. destruct (duration (trim r)) eqn:Ed; cbn; [|done]. intros [= <-]. by eapply duration_ok. }
    destruct (strip_prefix DAILY_AT (trim words)) as [r|].
    { unfold daily_at. destruct (split_once _ _) as [[h m]|]; [|done]. destruct (parse_i8 h) as [hour|], (parse_i8 m) as [minute|]; try done.
      destruct (_ && _) eqn:Eb; [|done]. intros [= <-]. bools. cbn. lia. }
    destruct (strip_prefix ONCE_AT (trim words)) as [r|]; [|done]. unfold once_at. destruct (cal_parse (trim r)); [|done]. by intros [= <-].
Qed.


(** ** The store *)

Lemma elements_sorted (store : gmap str Entry) : merge_sort str_le (elements (dom store)) ≡ₚ elements (dom store).
Proof. apply merge_sort_Permutation. Qed.
Lemma elem_of_load (store : gmap str Entry) e : e ∈ load store ↔ ∃ e0, store !! en_id e = Some e0 ∧ e = with_id (en_id e) e0.
Proof.
  unfold load. rewrite list_elem_of_omap. split.
  - intros (id & _ & (e0 & Hs & ->)%fmap_Some). by exists e0.
  - intros (e0 & Hs & ->). exists (en_id e). split.
    + rewrite elements_sorted, elem_of_elements, elem_of_dom. by exists e0.
    + cbn in *. by rewrite Hs.
Qed.
Lemma load_ids_sublist (store : gmap str Entry) ids : en_id <$> omap (λ id, with_id id <$> store !! id) ids `sublist_of` ids.
Proof. induction ids as [|id ids IH]; [done|]. cbn. destruct (store !! id) as [e|]; cbn; by constructor. Qed.
Lemma load_ids_NoDup store : NoDup (en_id <$> load store).
Proof. eapply sublist_NoDup; [|apply load_ids_sublist]. rewrite elements_sorted. apply NoDup_elements. Qed.
Lemma load_unique store e e' : e ∈ load store → e' ∈ load store → en_id e = en_id e' → e = e'.
Proof. intros (a & Ha & Ea)%elem_of_load (b & Hb & Eb)%elem_of_load E. rewrite Ea, Eb. rewrite E in *. by simplify_eq. Qed.
Lemma find_load (store : gmap str Entry) id : find_bool (λ e, bool_decide (en_id e = id)) (load store) = with_id id <$> store !! id.
Proof.
  destruct (find_bool _ (load store)) as [e|] eqn:Ef.
  - apply find_bool_Some in Ef as [Hin Hid]. bools. apply elem_of_load in Hin as (e0 & Hs & ->). rewrite Hid in *. by rewrite Hs.
  - destruct (store !! id) as [e0|] eqn:Hs; [|done]. exfalso. rewrite find_bool_None in Ef.
    specialize (Ef (with_id id e0)). cbn in Ef. rewrite bool_decide_eq_true_2 in Ef by done.
    assert (with_id id e0 ∈ load store) as Hin; [|by apply Ef in Hin]. apply elem_of_load. by exists e0.
Qed.
Lemma current_inv (store : gmap str Entry) read e : current store read = Some e →
  ∃ e0, store !! en_id read = Some e0 ∧ e = with_id (en_id read) e0 ∧ en_enabled e = true ∧ opt_le (en_last_fired e) (en_last_fired read) = true.
Proof.
  unfold current. rewrite find_load. destruct (store !! en_id read) as [e0|]; cbn; [|done].
  destruct (_ && _) eqn:Eb; [|done]. intros [= <-]. bools. by exists e0.
Qed.

Lemma opt_le_refl a : opt_le a a = true.
Proof. destruct a; cbn; [apply Z.leb_refl|done]. Qed.
Lemma opt_le_trans a b c : opt_le a b = true → opt_le b c = true → opt_le a c = true.
Proof. destruct a, b, c; cbn; rewrite ?Z.leb_le; try done. lia. Qed.
Lemma opt_le_anchor a e : opt_le (Some a) (en_last_fired e) = true → (a <= anchor e)%Z.
Proof. unfold anchor. destruct (en_last_fired e); cbn; [by rewrite Z.leb_le|done]. Qed.

(** ** A pass of the loop *)

Lemma pass_snoc entries e now : pass (entries ++ [e]) now = pass_one now (pass entries now) e.
Proof. unfold pass. by rewrite foldl_app. Qed.
Definition due_at (now : Timestamp) (e : Entry) : bool := match next_fire e with Some fire => (fire <=? now)%Z | None => false end.
Lemma pass_due entries now : ps_due (pass entries now) = retain (due_at now) entries.
Proof.
  induction entries as [|e entries IH] using rev_ind; [done|]. rewrite pass_snoc, retain_app, <- IH. unfold pass_one, due_at. cbn.
  destruct (next_fire e) as [fire|]; [|by rewrite app_nil_r]. destruct (fire <=? now)%Z; cbn; [done|rewrite app_nil_r].
  by destruct (match ps_next _ with Some _ => _ | None => _ end).
Qed.
Lemma pass_next entries now e fire : e ∈ entries → next_fire e = Some fire → (now < fire)%Z →
  ∃ soonest, ps_next (pass entries now) = Some soonest ∧ (soonest <= fire)%Z.
Proof.
  revert e fire. induction entries as [|a entries IH] using rev_ind; intros e fire Hin Hf Hlt; [by apply elem_of_nil in Hin|].
  rewrite pass_snoc. unfold pass_one. apply elem_of_app in Hin as [Hin|Hin%list_elem_of_singleton].
  - destruct (IH _ _ Hin Hf Hlt) as (s & Hs & Hle). destruct (next_fire a) as [fa|]; [|by eauto].
    destruct (fa <=? now)%Z; cbn; [by eauto|]. rewrite Hs. destruct (Z.ltb_spec fa s); cbn; [exists fa; split; [done|lia]|by exists s].
  - subst a. rewrite Hf, (proj2 (Z.leb_gt _ _)) by done. destruct (ps_next (pass entries now)) as [s|] eqn:Es; cbn; [|exists fire; split; [done|lia]].
    destruct (Z.ltb_spec fire s); cbn; [exists fire; split; [done|lia]|]. exists s. split; [done|lia].
Qed.
Lemma pass_next_later entries now s : ps_next (pass entries now) = Some s → (now < s)%Z.
Proof.
  revert s. induction entries as [|a entries IH] using rev_ind; intros s; [done|]. rewrite pass_snoc. unfold pass_one.
  destruct (next_fire a) as [fa|]; [|by auto]. destruct (Z.leb_spec fa now); cbn; [by auto|].
  destruct (match ps_next _ with Some _ => _ | None => _ end); cbn; [by intros [= <-]|by auto].
Qed.

(** ** The loop, seen from one entry *)

Section runner.
Context (x : str).

(** Other hands may change anything of the entry but remove it or set its clock back. *)
Definition keeps (store store' : gmap str Entry) : Prop :=
  ∀ e, store !! x = Some e → ∃ e', store' !! x = Some e' ∧ opt_le (en_last_fired e) (en_last_fired e') = true.
Definition mine (fires : list Fire) : list Fire := filter (λ fr, en_id (fr_read fr) = x) fires.
Lemma elem_of_mine fires fr : fr ∈ mine fires ↔ en_id (fr_read fr) = x ∧ fr ∈ fires.
Proof. unfold mine. by rewrite list_elem_of_filter. Qed.

(** The process knows of a fire at [a]: the disk says so, or it remembers, or the fire
    has yet to land. *)
Definition known (l : Loop) (a : Timestamp) : Prop :=
  ∃ e, lp_store l !! x = Some e ∧
    (opt_le (Some a) (en_last_fired e) = true
     ∨ (∃ b, fg_spent (lp_flights l) !! x = Some b ∧ (a <= b)%Z)
     ∨ (∃ n b, lp_tasks l !! n = Some (Reporting (LSpent b)) ∧ fg_ids (lp_flights l) !! n = Some x ∧ (a <= b)%Z)).
(** Of two fires of the entry the newer was read with a clock the older had moved. *)
Definition later (newer older : Fire) : Prop := opt_le (Some (fr_at older)) (en_last_fired (fr_read newer)) = true.
Definition was_due (now : Timestamp) (e : Entry) : Prop := ∃ fire, next_fire e = Some fire ∧ (fire <= now)%Z.

Record loop_inv (l : Loop) : Prop := {
  li_task n : is_Some (lp_tasks l !! n) → ∃ id, fg_ids (lp_flights l) !! n = Some id;
  li_open n read t : lp_tasks l !! n = Some (Opening read t) →
    fg_ids (lp_flights l) !! n = Some (en_id read) ∧ (t <= lp_now l)%Z ∧ was_due t read;
  li_one n m id : fg_ids (lp_flights l) !! n = Some id → fg_ids (lp_flights l) !! m = Some id → n = m;
  li_fresh n : is_Some (fg_ids (lp_flights l) !! n) → n < lp_fresh l;
  li_read n read t fr : lp_tasks l !! n = Some (Opening read t) → en_id read = x → fr ∈ mine (lp_fires l) →
    opt_le (Some (fr_at fr)) (en_last_fired read) = true;
  li_landing n b fr : lp_tasks l !! n = Some (Reporting (LSpent b)) → fg_ids (lp_flights l) !! n = Some x →
    fr ∈ mine (lp_fires l) → (fr_at fr <= b)%Z;
  li_known fr : fr ∈ mine (lp_fires l) → known l (fr_at fr);
  li_fire fr : fr ∈ mine (lp_fires l) → was_due (fr_launched fr) (fr_read fr) ∧ (fr_launched fr <= fr_at fr <= lp_now l)%Z;
  li_sorted : StronglySorted later (mine (lp_fires l));
}.

Lemma inv_new store now : loop_inv (loop_new store now).
Proof.
  split; cbn; try (by intros * []%lookup_empty_is_Some || by intros; simplify_map_eq).
  all: try by (intros; set_solver). all: try constructor.
  all: intros; exfalso; by eapply lookup_empty_is_Some.
Qed.

Lemma busy_id f n id : fg_ids f !! n = Some id → busy f id = true.
Proof.
  intros Hn. unfold busy. apply orb_true_iff. left. apply any_true. exists id. split; [|by apply bool_decide_eq_true].
  apply list_elem_of_fmap. exists (n, id). split; [done|]. by apply elem_of_map_to_list.
Qed.

(** What an entry read by a pass must have for its fire to be in order. *)
Definition in_order (l : Loop) (e : Entry) : Prop :=
  en_id e = x → busy (lp_flights l) x = false → ∀ fr, fr ∈ mine (lp_fires l) → opt_le (Some (fr_at fr)) (en_last_fired e) = true.
Definition with_tasks (l : Loop) (t : Flights * gmap nat Task * nat) : Loop :=
  mkLoop (lp_store l) t.1.1 t.1.2 t.2 (lp_now l) (lp_fires l).
Lemma loop_inv_start l e : loop_inv l → in_order l e → was_due (lp_now l) e →
  loop_inv (with_tasks l (start_task (lp_now l) (lp_flights l, lp_tasks l, lp_fresh l) e)).
Proof.
  intros Hi Ho Hd. unfold start_task. destruct (busy (lp_flights l) (en_id e)) eqn:Eb; [by destruct l|].
  assert (∀ n, fg_ids (lp_flights l) !! n ≠ Some (en_id e)) as Hfree by (intros n Hn%busy_id; congruence).
  assert (fg_ids (lp_flights l) !! lp_fresh l = None) as Hf.
  { destruct (fg_ids _ !! _) eqn:E; [|done]. exfalso. assert (lp_fresh l < lp_fresh l); [|lia]. by apply (li_fresh _ Hi). }
  assert (lp_tasks l !! lp_fresh l = None) as Ht.
  { destruct (lp_tasks l !! _) eqn:E; [|done]. destruct (li_task _ Hi (lp_fresh l)) as [id E']; [by eexists|congruence]. }
  destruct Hi as [Htask Hopen Hone Hfresh Hread Hland Hknown Hfire Hsort]. split; cbn.
  - intros n [T Hn]. destruct (decide (n = lp_fresh l)) as [->|Hne]; [rewrite lookup_insert_eq; by eexists|].
    off_insert. apply Htask. by eexists.
  - intros n read t Hn. destruct (decide (n = lp_fresh l)) as [->|Hne].
    + off_insert. injection Hn as <- <-. split_and!; [done|lia|done].
    + off_insert. by apply Hopen.
  - intros n m id Hn Hm. destruct (decide (n = lp_fresh l)) as [->|Hnn], (decide (m = lp_fresh l)) as [->|Hmn]; [done|..].
    all: off_insert; simplify_eq; try by exfalso; eapply Hfree. by eapply Hone.
  - intros n [id Hn]. destruct (decide (n = lp_fresh l)) as [->|Hne]; [lia|]. off_insert.
    assert (n < lp_fresh l); [|lia]. apply Hfresh. by eexists.
  - intros n read t fr Hn Hx Hin. destruct (decide (n = lp_fresh l)) as [->|Hne].
    + rewrite lookup_insert_eq in Hn. injection Hn as <- <-. apply Ho; [done| |done]. by rewrite Hx in Eb.
    + off_insert. by eapply Hread.
  - intros n b fr Hn Hid Hin. destruct (decide (n = lp_fresh l)) as [->|Hne]; [by rewrite lookup_insert_eq in Hn|].
    off_insert. by eapply Hland.
  - intros fr Hin. destruct (Hknown fr Hin) as (e0 & Hs & H'). exists e0. split; [done|]. cbn.
    destruct H' as [?|[?|(n & b & Hn & Hid & Hle)]]; [by left|by right; left|right; right]. exists n, b.
    assert (n ≠ lp_fresh l) by congruence. by rewrite !lookup_insert_ne.
  - done.
  - done.
Qed.
Lemma busy_true f id : busy f id = true ↔ (∃ n, fg_ids f !! n = Some id) ∨ is_Some (fg_retry f !! id).
Proof.
  split; [|intros [[n Hn]|Hr]; [by eapply busy_id|unfold busy; apply orb_true_iff; right; by apply bool_decide_eq_true]].
  unfold busy. intros [Ha|Hr%bool_decide_eq_true]%orb_true_iff; [left|by right].
  apply any_true in Ha as (id' & Hin & ->%bool_decide_eq_true). apply list_elem_of_fmap in Hin as ([n k] & -> & Hin).
  exists n. by apply elem_of_map_to_list in Hin.
Qed.
Lemma inv_fresh l : loop_inv l → fg_ids (lp_flights l) !! lp_fresh l = None.
Proof.
  intros Hi. destruct (fg_ids _ !! _) eqn:E; [|done]. exfalso. assert (lp_fresh l < lp_fresh l); [|lia].
  apply (li_fresh _ Hi). by eexists.
Qed.
Lemma start_busy l e id : loop_inv l → busy (lp_flights l) id = true →
  busy (start_task (lp_now l) (lp_flights l, lp_tasks l, lp_fresh l) e).1.1 id = true.
Proof.
  intros Hf%inv_fresh. cbn. destruct (busy _ (en_id e)) eqn:Eb; [done|]. rewrite !busy_true. cbn.
  intros [[n Hn]|Hr]; [left; exists n|by right]. assert (n ≠ lp_fresh l) by congruence. by off_insert.
Qed.
Lemma inv_starts l ready : loop_inv l → (∀ e, e ∈ ready → in_order l e ∧ was_due (lp_now l) e) →
  loop_inv (with_tasks l (foldl (start_task (lp_now l)) (lp_flights l, lp_tasks l, lp_fresh l) ready)).
Proof.
  revert l. induction ready as [|e ready IH]; intros l Hi Hr; [by destruct l|]. cbn [foldl].
  destruct (Hr e) as [Ho Hd]; [by left|]. pose proof (loop_inv_start l e Hi Ho Hd) as Hi'.
  assert (∀ id, busy (lp_flights l) id = true → busy (start_task (lp_now l) (lp_flights l, lp_tasks l, lp_fresh l) e).1.1 id = true) as Hb
    by (intros; by apply start_busy).
  destruct (start_task _ _ e) as [[f tasks] fresh]. apply (IH (with_tasks l (f, tasks, fresh)) Hi').
  intros e' He'. destruct (Hr e') as [Ho' Hd']; [by right|]. split; [|done]. intros Hx Hfree. apply Ho'; [done|].
  destruct (busy (lp_flights l) x) eqn:E; [|done]. apply Hb in E. cbn in *. congruence.
Qed.

(** *** What a pass makes of the disk and of what is remembered *)

Lemma kept_spent f entries id b : fg_spent (keep_spent f entries) !! id = Some b ↔
  fg_spent f !! id = Some b ∧ ∃ e, e ∈ entries ∧ en_id e = id ∧ opt_le (Some b) (en_last_fired e) = false.
Proof.
  cbn. rewrite map_lookup_filter_Some. cbn. unfold still_spent. rewrite any_true. split; intros [Hb He]; (split; [done|]).
  - destruct He as (e & Hin & He). exists e. rewrite andb_true_iff, bool_decide_eq_true, negb_true_iff in He. tauto.
  - destruct He as (e & Hin & He). exists e. rewrite andb_true_iff, bool_decide_eq_true, negb_true_iff. tauto.
Qed.
Definition awake (l : Loop) (now : Timestamp) (clock : Z) : Loop :=
  mkLoop (lp_store l) (keep_spent (keep_retry clock (lp_flights l)) (load (lp_store l))) (lp_tasks l) (lp_fresh l) now (lp_fires l).
Lemma inv_awake l now clock : loop_inv l → (lp_now l <= now)%Z → loop_inv (awake l now clock).
Proof.
  intros [Htask Hopen Hone Hfresh Hread Hland Hknown Hfire Hsort] Hn. split; try done.
  - intros n read t H'. apply Hopen in H' as (? & ? & ?). split_and!; [done|cbn; lia|done].
  - intros fr Hin. destruct (Hknown fr Hin) as (e & Hs & [?|[(b & Hb & Hle)|Ht]]); exists e; (split; [done|]); [by left| |by right; right].
    destruct (opt_le (Some b) (en_last_fired e)) eqn:El; [left; eapply opt_le_trans; [|done]; by apply Z.leb_le|right; left].
    exists b. split; [|done]. apply kept_spent. split; [done|]. exists (with_id x e). split_and!; [|done..]. apply elem_of_load. by exists e.
  - intros fr Hin. destruct (Hfire fr Hin) as [? ?]. split; [done|]. cbn. lia.
Qed.
Lemma awake_in_order l now clock e : loop_inv (awake l now clock) →
  e ∈ remember (lp_flights (awake l now clock)) <$> load (lp_store l) → in_order (awake l now clock) e.
Proof.
  intros Hi (e0 & -> & Hin)%list_elem_of_fmap Hx Hfree fr Hfr.
  assert (en_id e0 = x) as Hid by (unfold remember in Hx; by destruct (fg_spent _ !! _)).
  destruct (li_known _ Hi fr Hfr) as (e1 & Hs & Hk). apply elem_of_load in Hin as Hin'. destruct Hin' as (e2 & Hs2 & He2).
  rewrite Hid in Hs2. cbn in Hs. simplify_eq. assert (en_last_fired e0 = en_last_fired e1) as Hl by (by rewrite He2).
  unfold remember. rewrite Hid. destruct (fg_spent _ !! x) as [b|] eqn:Eb.
  - apply kept_spent in Eb as Hb. destruct Hb as (_ & e' & Hin2 & Hid2 & Hlt). rewrite (load_unique _ e' e0), Hl in Hlt by (done || congruence).
    destruct Hk as [Hk|[(b' & Hb' & Hle)|(n & b' & _ & Hn & _)]].
    + apply Z.leb_le. cbn [opt_le] in *. destruct (en_last_fired e1); [|done]. bools. lia.
    + assert (b' = b) as -> by congruence. by apply Z.leb_le.
    + apply busy_id in Hn. congruence.
  - rewrite Hl. destruct Hk as [Hk|[(b' & Hb' & Hle)|(n & b' & _ & Hn & _)]]; [done|congruence|]. apply busy_id in Hn. congruence.
Qed.
Lemma inv_launch l now clock f tasks fresh wait : loop_inv l → (lp_now l <= now)%Z →
  launch (lp_store l) (lp_flights l) (lp_tasks l) (lp_fresh l) now clock = ((f, tasks, fresh), wait) →
  loop_inv (mkLoop (lp_store l) f tasks fresh now (lp_fires l)).
Proof.
  intros Hi Hn. unfold launch, remembered. intros [= Hf _]. apply (inv_awake l now clock) in Hi; [|done].
  pose proof (inv_starts (awake l now clock) (ps_due (pass (remember (lp_flights (awake l now clock)) <$> load (lp_store l)) now)) Hi) as Hr.
  cbn [awake lp_now lp_flights lp_tasks lp_fresh] in Hr. rewrite Hf in Hr. apply Hr. clear Hr Hf.
  intros e. rewrite pass_due, elem_of_retain. intros [Hin Hd]. split; [by apply awake_in_order|].
  unfold due_at in Hd. destruct (next_fire e) as [fire|] eqn:Ef; [|done]. exists fire. split; [done|]. by apply Z.leb_le.
Qed.

(** *** A fire that opens, reports and lands *)

Lemma mine_cons fr fires : mine (fr :: fires) = if decide (en_id (fr_read fr) = x) then fr :: mine fires else mine fires.
Proof. unfold mine. by rewrite filter_cons. Qed.
Definition reports (l : Loop) (n : nat) (landed : Landed) (now : Timestamp) : Loop :=
  mkLoop (lp_store l) (lp_flights l) (<[n := Reporting landed]> (lp_tasks l)) (lp_fresh l) now (lp_fires l).
Lemma inv_reports l n read t landed now : loop_inv l → (lp_now l <= now)%Z → lp_tasks l !! n = Some (Opening read t) →
  (∀ b, landed = LSpent b → b = now) → loop_inv (reports l n landed now).
Proof.
  intros [Htask Hopen Hone Hfresh Hread Hland Hknown Hfire Hsort] Hn Hon Hb. split; cbn; try done.
  - intros m Hm. apply Htask. destruct (decide (m = n)) as [->|]; [by eexists|by off_insert].
  - intros m r u Hm. destruct (decide (m = n)) as [->|]; off_insert; [done|]. apply Hopen in Hm as (? & ? & ?). split_and!; [done|lia|done].
  - intros m r u fr Hm. destruct (decide (m = n)) as [->|]; off_insert; [done|]. by eapply Hread.
  - intros m b fr Hm Hid Hin. destruct (decide (m = n)) as [->|]; off_insert; [|by eapply Hland]. injection Hm as ->.
    rewrite (Hb b) by done. destruct (Hfire fr Hin). lia.
  - intros fr Hin. destruct (Hknown fr Hin) as (e & Hs & [?|[?|(m & b & Hm & ?)]]); exists e; (split; [done|]); [by left|by right; left|].
    right; right. exists m, b. cbn. assert (m ≠ n) by congruence. by off_insert.
  - intros fr Hin. destruct (Hfire fr Hin). split; [done|lia].
Qed.
Definition spends (l : Loop) (fr : Fire) (store : gmap str Entry) : Loop :=
  mkLoop store (lp_flights l) (lp_tasks l) (lp_fresh l) (lp_now l) (fr :: lp_fires l).
Lemma inv_spends l n fr spent refused store : loop_inv l → fr_at fr = lp_now l →
  lp_tasks l !! n = Some (Reporting (LSpent (lp_now l))) → fg_ids (lp_flights l) !! n = Some (en_id (fr_read fr)) →
  was_due (fr_launched fr) (fr_read fr) → (fr_launched fr <= lp_now l)%Z →
  (en_id (fr_read fr) = x → ∀ old, old ∈ mine (lp_fires l) → later fr old) →
  spend (lp_store l) (fr_read fr) (lp_now l) refused = (Some spent, store) → loop_inv (spends l fr store).
Proof.
  intros [Htask Hopen Hone Hfresh Hread Hland Hknown Hfire Hsort] Hat Hn Hid Hdue Hle Hlater Hsp.
  unfold spend in Hsp. destruct (current _ _) as [e|] eqn:Ec; [|done]. injection Hsp as <- Hstore.
  apply current_inv in Ec as (e0 & Hs0 & He & _).
  assert (∀ a, (a <= lp_now l)%Z → known l a → known (spends l fr store) a) as Hk.
  { intros a Ha (e1 & Hs & Hk). destruct refused; subst store; [by exists e1|]. unfold known. cbn. unfold save. cbn.
    destruct (decide (en_id e = x)) as [Hx|Hx]; [|off_insert; by exists e1]. rewrite Hx. off_insert.
    eexists. split; [done|]. left. by apply Z.leb_le. }
  split; cbn; try done; rewrite ?mine_cons; case_decide as Hx; try done.
  - intros m r u fr' Hm Hr [->|Hin]%elem_of_cons; [|by eapply Hread]. destruct (Hopen _ _ _ Hm) as [Hidm _].
    assert (m = n) as -> by (eapply Hone; [exact Hidm|congruence]). congruence.
  - intros m b fr' Hm Hidm [->|Hin]%elem_of_cons; [|by eapply Hland]. assert (m = n) as -> by (eapply Hone; [exact Hidm|congruence]).
    rewrite Hat. rewrite Hn in Hm. injection Hm as ->. lia.
  - intros fr' [->|Hin]%elem_of_cons; [|apply Hk; [|by apply Hknown]; by destruct (Hfire _ Hin) as [_ [_ ?]]]. rewrite Hat.
    destruct refused; subst store.
    + exists e0. rewrite <- Hx. split; [done|]. right; right. exists n, (lp_now l). split_and!; [done|done|lia].
    + exists (fired e (lp_now l)). cbn. unfold save. assert (en_id e = x) as Hex by (by rewrite He). cbn [fired en_id]. rewrite Hex. off_insert.
      split; [done|]. left. by apply Z.leb_le.
  - intros fr' Hin. apply Hk; [|by apply Hknown]. by destruct (Hfire _ Hin) as [_ [_ ?]].
  - intros fr' [->|Hin]%elem_of_cons; [split; [done|lia]|by apply Hfire].
  - constructor; [done|]. apply Forall_forall. by apply Hlater.
Qed.
Lemma loop_inv_land l n landed clock : loop_inv l → lp_tasks l !! n = Some (Reporting landed) →
  loop_inv (mkLoop (lp_store l) (land (lp_flights l) n landed clock) (delete n (lp_tasks l)) (lp_fresh l) (lp_now l) (lp_fires l)).
Proof.
  intros [Htask Hopen Hone Hfresh Hread Hland Hknown Hfire Hsort] Hn. destruct (Htask n) as [id Hid]; [by eexists|].
  unfold land. rewrite Hid.
  match goal with |- loop_inv (mkLoop _ ?f _ _ _ _) => set (f' := f) end.
  assert (fg_ids f' = delete n (fg_ids (lp_flights l))) as Hids by (unfold f'; by destruct landed).
  assert (∀ m y, delete n (fg_ids (lp_flights l)) !! m = Some y → m ≠ n ∧ fg_ids (lp_flights l) !! m = Some y) as Hd
    by (intros m y Hm; by apply lookup_delete_Some in Hm as [? ?]).
  split; cbn; rewrite ?Hids; try done.
  - intros m [T Hm]. apply lookup_delete_Some in Hm as [Hne Hm]. rewrite lookup_delete_ne by done. apply Htask. by eexists.
  - intros m r u Hm. apply lookup_delete_Some in Hm as [Hne Hm]. rewrite lookup_delete_ne by done. by apply Hopen.
  - intros m k y [_ Hm]%Hd [_ Hk]%Hd. by eapply Hone.
  - intros m [y [_ Hm]%Hd]. apply Hfresh. by eexists.
  - intros m r u fr Hm. apply lookup_delete_Some in Hm as [Hne Hm]. by eapply Hread.
  - intros m b fr Hm [_ Hidm]%Hd. apply lookup_delete_Some in Hm as [Hne Hm]. by eapply Hland.
  - intros fr Hin. destruct (Hknown fr Hin) as (e & Hs & Hk). exists e. split; [done|]. cbn.
    destruct Hk as [?|[(b & Hb & Hle)|(m & b & Hm & Hidm & Hle)]]; [by left| |].
    + right; left. destruct landed; try by (exists b; cbn in *; try done).
      cbn. destruct (decide (id = x)) as [->|]; off_insert; [exists at_; split; [done|by eapply Hland]|by exists b].
    + right. destruct (decide (m = n)) as [->|Hne]; [left|right; exists m, b; by rewrite Hids, !lookup_delete_ne].
      assert (landed = LSpent b) as -> by congruence. assert (id = x) as -> by congruence. exists b. cbn. by off_insert.
Qed.
Lemma inv_edit l store : loop_inv l → keeps (lp_store l) store →
  loop_inv (mkLoop store (lp_flights l) (lp_tasks l) (lp_fresh l) (lp_now l) (lp_fires l)).
Proof.
  intros [Htask Hopen Hone Hfresh Hread Hland Hknown Hfire Hsort] Hk. split; try done.
  intros fr Hin. destruct (Hknown fr Hin) as (e & (e' & Hs & Hle)%Hk & Ho). exists e'. split; [done|].
  destruct Ho as [Ho|Ho]; [left; by eapply opt_le_trans|by right].
Qed.
Lemma loop_inv_step l l' : loop_inv l → loop_step keeps l l' → loop_inv l'.
Proof.
  intros Hi Hstep. destruct Hstep as [l now clock f tasks fresh wait Hle Hl|l n read t now store spent ref Hle Hn Hsp|l n read t landed Hn Hl|l n landed clock Hn|l store Hk].
  - by eapply inv_launch.
  - destruct spent as [s|].
    + assert (Hi' := inv_reports l n read t (LSpent now) now Hi Hle Hn ltac:(congruence)).
      destruct (li_open _ Hi _ _ _ Hn) as (Hid & Ht & Hd).
      eapply (inv_spends _ n (mkFire read t now) s ref store Hi'); cbn; off_insert; try done. { lia. }
      intros Hx old Hin. by apply (li_read _ Hi n read t).
    + assert (store = lp_store l) as -> by (unfold spend in Hsp; destruct (current _ _); congruence).
      by eapply (inv_reports l n read t LSkipped now).
  - apply (inv_reports l n read t landed (lp_now l)); [done|lia|done|]. by destruct Hl as [-> | ->].
  - by apply loop_inv_land.
  - by apply inv_edit.
Qed.
Lemma inv_runs store now l : rtc (loop_step keeps) (loop_new store now) l → loop_inv l.
Proof.
  intros Hr. pose proof (inv_new store now) as Hi. revert Hi. induction Hr as [|l1 l2 l3 Hs Hr IH]; [done|].
  intros Hi. apply IH. by eapply loop_inv_step.
Qed.
End runner.

(** C22: No occurrence is fired twice.  Whatever a store held when a process took it over
    and however the passes of its loop, sessions that open or do not, stamps the disk
    refuses, landings and other hands' edits interleave, two fires of one entry are
    apart by an occurrence: the later one was due strictly after the earlier was spent.
    So an interval passes whole between two fires of an `every`, and a `once at` fires
    at most once.  Other hands may edit the entry as they like, but do not remove it or
    set its clock back. *)
Theorem no_occurrence_fires_twice x store now l newer f2 middle f1 older :
  rtc (loop_step (keeps x)) (loop_new store now) l →
  lp_fires l = newer ++ f2 :: middle ++ f1 :: older → en_id (fr_read f1) = x → en_id (fr_read f2) = x →
  (∃ due, next_fire (fr_read f2) = Some due ∧ (fr_at f1 < due <= fr_at f2)%Z)
  ∧ (∀ d, en_spec (fr_read f2) = Every d → (fr_at f1 + d * 10 ^ 9 <= fr_at f2)%Z)
  ∧ (∀ t, en_spec (fr_read f1) = OnceAt t → en_spec (fr_read f2) ≠ OnceAt t).
Proof.
  intros Hr El H1 H2. apply inv_runs in Hr as Hi.
  assert (f1 ∈ mine x (lp_fires l) ∧ f2 ∈ mine x (lp_fires l)) as [Hin1 Hin2].
  { rewrite El. split; apply elem_of_mine; (split; [done|]); set_solver. }
  destruct (li_fire _ _ Hi f2 Hin2) as [(due & Hdue & Hlt) [Hle _]].
  destruct (li_fire _ _ Hi f1 Hin1) as [(due1 & Hdue1 & Hlt1) [Hle1 _]].
  assert (later f2 f1) as Hlat.
  { pose proof (li_sorted _ _ Hi) as Hs. rewrite El in Hs. unfold mine in Hs. rewrite filter_app, filter_cons_True in Hs by done.
    apply StronglySorted_app_1_r in Hs. apply StronglySorted_inv in Hs as [_ Hs]. rewrite Forall_forall in Hs. apply Hs.
    rewrite list_elem_of_filter. split; [done|]. set_solver. }
  apply opt_le_anchor in Hlat. unfold next_fire in *. destruct (en_enabled (fr_read f2)); [|done].
  pose proof (next_after _ _ _ Hdue) as Ha. split_and!.
  - exists due. split; [done|]. lia.
  - intros d Hd. rewrite Hd in Hdue. apply next_every in Hdue. lia.
  - intros t Ht Ht2. rewrite Ht2 in Hdue. apply next_once in Hdue as [-> _].
    destruct (en_enabled (fr_read f1)); [|done]. rewrite Ht in Hdue1. apply next_once in Hdue1 as [-> _]. lia.
Qed.
Lemma remember_id f e : en_id (remember f e) = en_id e.
Proof. unfold remember. by destruct (fg_spent f !! en_id e). Qed.
Lemma remember_ids f (entries : list Entry) : en_id <$> (remember f <$> entries) = en_id <$> entries.
Proof. induction entries as [|e entries IH]; [done|]. cbn. f_equal; [apply remember_id|done]. Qed.

(** ** What a pass starts, and how long it sleeps *)

Lemma starts_keep now ready f tasks fresh :
  let acc := foldl (start_task now) (f, tasks, fresh) ready in
  fresh ≤ acc.2 ∧ (∀ n, n < fresh → acc.1.2 !! n = tasks !! n ∧ fg_ids acc.1.1 !! n = fg_ids f !! n).
Proof.
  revert f tasks fresh. induction ready as [|e ready IH]; intros f tasks fresh; [done|]. cbn [foldl start_task].
  destruct (busy f (en_id e)); [apply IH|].
  destruct (IH (mkFlights (<[fresh:=en_id e]> (fg_ids f)) (fg_retry f) (fg_spent f)) (<[fresh:=Opening e now]> tasks) (S fresh)) as [Hle Hk].
  cbn in *. split; [lia|]. intros n Hn. destruct (Hk n) as [-> ->]; [lia|]. assert (n ≠ fresh) by lia. by off_insert.
Qed.
Lemma starts_all now ready f tasks fresh e : NoDup (en_id <$> ready) → e ∈ ready → busy f (en_id e) = false →
  let acc := foldl (start_task now) (f, tasks, fresh) ready in
  ∃ n, fresh ≤ n ∧ acc.1.2 !! n = Some (Opening e now) ∧ fg_ids acc.1.1 !! n = Some (en_id e).
Proof.
  revert f tasks fresh. induction ready as [|a ready IH]; intros f tasks fresh Hnd Hin Hb; [by apply elem_of_nil in Hin|].
  apply NoDup_cons in Hnd as [Ha Hnd]. apply elem_of_cons in Hin as [->|Hin]; cbn [foldl start_task].
  - rewrite Hb. exists fresh. split; [done|].
    pose proof (starts_keep now ready (mkFlights (<[fresh:=en_id a]> (fg_ids f)) (fg_retry f) (fg_spent f)) (<[fresh:=Opening a now]> tasks) (S fresh)) as [_ Hk].
    destruct (Hk fresh) as [-> ->]; [lia|]. cbn. by off_insert.
  - assert (en_id e ≠ en_id a) as Hne by (intros E; apply Ha; rewrite <- E; by apply list_elem_of_fmap_2).
    destruct (busy f (en_id a)) eqn:Eb; [by apply IH|].
    destruct (IH (mkFlights (<[fresh:=en_id a]> (fg_ids f)) (fg_retry f) (fg_spent f)) (<[fresh:=Opening a now]> tasks) (S fresh)) as (n & Hn & ?);
      [done..| |exists n; split; [lia|done]].
    apply not_true_iff_false. rewrite busy_true. cbn. intros [[n Hn]|Hr].
    + destruct (decide (n = fresh)) as [->|]; off_insert; [congruence|]. apply busy_id in Hn. congruence.
    + assert (busy f (en_id e) = true) by (apply busy_true; by right). congruence.
Qed.

(** C24: The loop starts what is due and wakes for the rest.  One pass starts a fire, on
    a task of its own, for every entry whose time has come that is neither in flight
    nor waiting out a failure, leaves the fires in flight alone, and then sleeps at
    most a minute and never past the next fire of an entry that is not due yet. *)
Theorem the_loop_starts_what_is_due_and_wakes_for_the_rest store f tasks fresh now clock f' tasks' fresh' wait known :
  known = remembered (keep_retry clock f) (load store) →
  launch store f tasks fresh now clock = ((f', tasks', fresh'), wait) →
  (∀ e fire, e ∈ known.2 → next_fire e = Some fire → (fire <= now)%Z → busy known.1 (en_id e) = false →
     ∃ n, fresh ≤ n ∧ tasks' !! n = Some (Opening e now) ∧ fg_ids f' !! n = Some (en_id e))
  ∧ (∀ n, n < fresh → tasks' !! n = tasks !! n ∧ fg_ids f' !! n = fg_ids f !! n)
  ∧ (0 <= wait <= RESCAN)%Z
  ∧ (∀ e fire, e ∈ known.2 → next_fire e = Some fire → (now < fire)%Z → (now + wait <= fire)%Z).
Proof.
  intros ->. unfold launch, remembered. set (f1 := keep_spent _ _). cbn [fst snd]. intros [= Hf Hw].
  set (entries := remember f1 <$> load store) in *. set (ready := ps_due (pass entries now)) in *.
  assert (NoDup (en_id <$> ready)) as Hnd.
  { unfold ready. rewrite pass_due. eapply sublist_NoDup; [|apply fmap_sublist, sublist_retain].
    unfold entries. rewrite remember_ids. apply load_ids_NoDup. }
  split_and!.
  - intros e fire Hin He Hle Hb. pose proof (starts_all now ready f1 tasks fresh e Hnd) as Hs. rewrite Hf in Hs. apply Hs; [|done].
    unfold ready. rewrite pass_due, elem_of_retain. split; [done|]. unfold due_at. rewrite He. by apply Z.leb_le.
  - pose proof (starts_keep now ready f1 tasks fresh) as [_ Hk]. rewrite Hf in Hk. exact Hk.
  - rewrite <- Hw. unfold delay, RESCAN. destruct (ps_next _) as [s|]; [|lia]. destruct (Z.ltb_spec 0 (s - now)); lia.
  - rewrite <- Hw. unfold delay, RESCAN. destruct (ps_next _) as [s|]; [|lia]. destruct (Z.ltb_spec 0 (s - now)); lia.
  - intros e fire Hin He Hlt. destruct (pass_next entries now e fire Hin He Hlt) as (soonest & Hs & Hle).
    pose proof (pass_next_later _ _ _ Hs). rewrite <- Hw, Hs. unfold delay. destruct (Z.ltb_spec 0 (soonest - now)); lia.
Qed.

(** ** Firing one entry *)

Lemma fire_inv store read now r t res store' handed t' : fire store read now r t = (res, store', handed, t') →
  (store' = store ∧ handed = [])
  ∨ ∃ e, current store read = Some e ∧ rp_opened r = Ok tt ∧ handed = option_list (mode_input e) ++ [text_input e]
      ∧ store' = (if rp_refused r then store else save store (fired e now)).
Proof.
  unfold fire. destruct (rp_opened r) as [[]|] eqn:Eo; [|intros [= <- <- <- <-]; by left].
  unfold spend. destruct (current store read) as [e|] eqn:Ec; cbn; [|intros [= <- <- <- <-]; by left].
  intros [= <- <- <- <-]. right. exists e. split_and!; [done..| |by destruct (rp_refused r)]. by destruct (mode_input e).
Qed.

(** A fire is spent before it is said.  When a fire hands its session anything and
    the disk took its stamp, the entry's clock is already written: any other fire of
    the same reading of the entry, in this process or another, with whatever the
    session answers, finds nothing left to fire, says nothing and writes nothing. *)
Theorem a_fire_is_spent_before_it_is_said store read now r t res store' handed t' :
  fire store read now r t = (res, store', handed, t') → handed ≠ [] → rp_refused r = None →
  opt_le (Some now) (en_last_fired read) = false →
  (∃ e, store' !! en_id read = Some e ∧ en_last_fired e = Some now
     ∧ en_enabled e = negb (is_once (en_spec e)))
  ∧ ∀ now' r' u, let '(res', store'', handed', _) := fire store' read now' r' u in
      store'' = store' ∧ handed' = [] ∧ (res' = Ok FSkipped ∨ ∃ error, res' = Err error ∧ rp_opened r' = Err error).
Proof.
  intros Hf Hh Hr Hlt. apply fire_inv in Hf as [[_ ->]|(e & Hc & _ & _ & ->)]; [done|]. rewrite Hr. cbv iota.
  apply current_inv in Hc as (e0 & Hs & He & Hen & Hle). assert (en_id e = en_id read) as Hid by (by rewrite He).
  assert (save store (fired e now) !! en_id read = Some (fired e now)) as Hl by (unfold save; cbn; rewrite Hid; by off_insert).
  split; [by eexists|]. intros now' r' u. unfold fire. destruct (rp_opened r') as [[]|error]; [|split_and!; [done..|by eauto]].
  assert (current (save store (fired e now)) read = None) as Hn.
  { unfold current. rewrite find_load, Hl. cbn [fmap option_fmap option_map with_id en_enabled en_last_fired fired].
    by rewrite Hlt, andb_false_r. }
  unfold spend. rewrite Hn. split_and!; [done..|by left].
Qed.

(** ** Consent *)

(** What the model and other sessions can have done to the store: the tools, the
    person's verbs where the line is not the person's own, and fires. *)
Inductive model_step : gmap str Entry → gmap str Entry → Prop :=
| model_create store a cwd now id : model_step store (schedule_create a cwd now id store).2
| model_forget store prefix : model_step store (schedule_forget prefix store).2
| model_add store args cwd now id : model_step store (consent_add false args cwd now id store).2
| model_every store args cwd now id : model_step store (consent_every false args cwd now id store).2
| model_confirm store args : model_step store (consent_confirm false args store).2
| model_enabled store id enabled : model_step store (owner_enabled false id enabled store).2
| model_owner_forget store id : model_step store (owner_forget false id store).2
| model_run store id now r t : model_step store (owner_run false id now r store t).1.1.2
| model_fire store read now r t : model_step store (fire store read now r t).1.1.2.

(** The same words of the same schedule, asked for by the person. *)
Definition persons_words (e e0 : Entry) : Prop :=
  en_by e0 = ByPerson ∧ en_spec e = en_spec e0 ∧ en_text e = en_text e0 ∧ en_cwd e = en_cwd e0 ∧ en_mode e = en_mode e0.
Definition grounded (store0 store : gmap str Entry) : Prop :=
  ∀ id e, store !! id = Some e → en_by e = ByPerson → ∃ e0, store0 !! id = Some e0 ∧ persons_words e e0.
Lemma grounded_refl store : grounded store store.
Proof. intros id e Hs Hb. by exists e. Qed.
Lemma grounded_trans a b c : grounded a b → grounded b c → grounded a c.
Proof.
  intros Hab Hbc id e Hs Hb. destruct (Hbc _ _ Hs Hb) as (e1 & Hs1 & Hb1 & ?). destruct (Hab _ _ Hs1 Hb1) as (e0 & Hs0 & ?).
  exists e0. split; [done|]. unfold persons_words in *. intuition congruence.
Qed.
Lemma grounded_delete store id : grounded store (delete id store).
Proof. intros k e [_ Hs]%lookup_delete_Some Hb. by exists e. Qed.
Lemma grounded_insert store id e : (en_by e = ByPerson → ∃ e0, store !! id = Some e0 ∧ persons_words e e0) →
  grounded store (<[id := e]> store).
Proof. intros He k e' [[<- <-]|[_ Hs]]%lookup_insert_Some Hb; [by apply He|by exists e']. Qed.
Lemma model_grounded store store' : model_step store store' → grounded store store'.
Proof.
  destruct 1; try exact (grounded_refl store).
  - unfold schedule_create. destruct (create_entry a cwd now) as [e|] eqn:Ec; [|apply grounded_refl]. apply grounded_insert.
    unfold create_entry in Ec. case_bool_decide; [done|]. destruct (spec_parse (ca_spec a)); cbn in Ec; [|done]. by injection Ec as <-.
  - unfold schedule_forget. destruct (find _ _); [apply grounded_delete|apply grounded_refl].
  - destruct (fire store read now r t) as [[[res store'] handed] t'] eqn:Ef. cbn.
    apply fire_inv in Ef as [[-> _]|(e & Hc & _ & _ & ->)]; [apply grounded_refl|]. destruct (rp_refused r); [apply grounded_refl|].
    apply current_inv in Hc as (e0 & Hs & -> & _). apply grounded_insert. cbn. intros Hb. by exists e0.
Qed.
Lemma models_grounded store store' : rtc model_step store store' → grounded store store'.
Proof. induction 1 as [|a b c Hs _ IH]; [apply grounded_refl|]. eapply grounded_trans; [by apply model_grounded|done]. Qed.

(** The words a session takes as the person's: a line submitted, or a delivery whose
    origin says a person said it. *)
Definition in_their_name (h : Handed) : option str :=
  match h with
  | Submits (InText text _ _ _ _) => Some text
  | Delivers (InText text _ origin _ _) => if bool_decide (effective_voice origin = Said) then Some text else None
  | _ => None
  end.

(** C23: Only the person's own words speak for them.  Start from any store and let the
    model do what it can: create and forget schedules, try the person's verbs, have
    entries fired.  Whatever a fire then hands a session in the person's name, a line
    that may be a command or a change of mode, was in the store at the start under the
    same id, as an entry the person had asked for with those very words. *)
Theorem only_the_persons_words_speak_for_them store store' read now r t h text :
  rtc model_step store store' → h ∈ (fire store' read now r t).1.2 → in_their_name h = Some text →
  ∃ e, store !! en_id read = Some e ∧ en_by e = ByPerson
    ∧ (text = en_text e ∨ ∃ mode, en_mode e = Some mode ∧ text = lit "/permission " ++ mode).
Proof.
  intros Hm%models_grounded Hh Ht. destruct (fire store' read now r t) as [[[res store''] handed] t'] eqn:Ef. cbn in Hh.
  apply fire_inv in Ef as [[_ ->]|(e & Hc & _ & -> & _)]; [by apply elem_of_nil in Hh|].
  apply current_inv in Hc as (e1 & Hs & -> & _). set (e := with_id (en_id read) e1) in *.
  assert (en_by e1 = ByPerson ∧ (text = en_text e1 ∨ ∃ mode, en_mode e1 = Some mode ∧ text = lit "/permission " ++ mode)) as [Hb Hw].
  { apply elem_of_app in Hh as [Hh|Hh%list_elem_of_singleton].
    - unfold mode_input, asked in Hh. cbn [e with_id en_mode en_by] in Hh. destruct (en_mode e1) as [mode|]; cbn in Hh; [|by apply elem_of_nil in Hh].
      apply list_elem_of_singleton in Hh as ->. case_bool_decide as Hb; cbn in Ht; [|done]. injection Ht as <-. split; [done|]. right. by eexists.
    - unfold text_input, prose, asked in Hh. cbn [e with_id en_text en_by] in Hh. case_bool_decide as Hb; rewrite ?andb_true_r, ?andb_false_r in Hh.
      + split; [done|]. left. destruct (option_is_some _); subst h; cbn in Ht; [by injection Ht|]. rewrite bool_decide_eq_true_2 in Ht by done. by injection Ht.
      + subst h. cbn in Ht. by rewrite bool_decide_eq_false_2 in Ht. }
  destruct (Hm _ _ Hs Hb) as (e0 & Hs0 & Hb0 & _ & Ht0 & _ & Hm0). exists e0. by rewrite <- Ht0, <- Hm0.
Qed.

(** ** What a confirmation names *)

Lemma be_bytes_mod n x y : be_bytes n x = be_bytes n y → (x mod 2 ^ (8 * N.of_nat n) = y mod 2 ^ (8 * N.of_nat n))%N.
Proof.
  revert x y. induction n as [|n IH]; intros x y E; [by rewrite !N.mod_1_r|]. injection E as Eh El. apply IH in El.
  replace (8 * N.of_nat (S n))%N with (8 * N.of_nat n + 8)%N by lia. rewrite N.pow_add_r, !N.Div0.mod_mul_r, El.
  unfold wrap in Eh. rewrite !N.shiftr_div_pow2 in Eh. by rewrite Eh.
Qed.
Lemma be_bytes_inj n x y : (x < 2 ^ (8 * N.of_nat n))%N → (y < 2 ^ (8 * N.of_nat n))%N → be_bytes n x = be_bytes n y → x = y.
Proof. intros Hx Hy E%be_bytes_mod. by rewrite !N.mod_small in E. Qed.
(** Words there can be: characters, and a text whose length a machine can count. *)
Definition words_ok (text : str) (mode : option str) : Prop :=
  Forall scalar text ∧ Forall scalar (default [] mode) ∧ (N.of_nat (length (utf8 text)) < 2 ^ 64)%N.
Lemma confirm_bytes_inj text mode text' mode' : words_ok text mode → words_ok text' mode' →
  confirm_bytes text mode = confirm_bytes text' mode' → text = text' ∧ mode = mode'.
Proof.
  intros (Ht & Hm & Hl) (Ht' & Hm' & Hl') E. unfold confirm_bytes in E. apply app_inv_head, (app_inv_head [0%N]) in E.
  apply app_inj_1 in E as [El E]; [|by rewrite !length_be_bytes]. apply be_bytes_inj in El; [|done..].
  apply app_inj_1 in E as [Eu E]; [|lia]. apply utf8_inj in Eu as ->; [|done..]. split; [done|].
  destruct mode as [mode|], mode' as [mode'|]; cbn in E; simplify_eq; [|done]. f_equal. by apply utf8_inj.
Qed.

(** A confirmation takes the words that were read.  When the person confirms a
    schedule with the print they were shown, the entry that becomes theirs is the one
    on the disk, unchanged but for who asked for it, and its text and its mode are the
    very ones the print was made of: or else two different strings with one SHA-256
    have been found. *)
Theorem a_confirmation_takes_the_words_that_were_read args id text mode store e store' :
  split_whitespace args = [id; confirmation_digest text mode] → consent_confirm true args store = (Ok e, store') →
  words_ok text mode → words_ok (en_text e) (en_mode e) →
  (∃ e0, e0 ∈ load store ∧ find (load store) id = Ok e0 ∧ e = by_person e0 ∧ store' = <[en_id e0 := e]> store)
  ∧ (en_text e = text ∧ en_mode e = mode
     ∨ confirm_bytes (en_text e) (en_mode e) ≠ confirm_bytes text mode
       ∧ hex (digest (confirm_bytes (en_text e) (en_mode e))) = hex (digest (confirm_bytes text mode))).
Proof.
  intros Ha. unfold consent_confirm. cbn [persons_own]. rewrite Ha. cbn [head].
  destruct (find (load store) id) as [e0|] eqn:Ef; [|done]. case_bool_decide as Hd; cbn [negb]; [|done]. intros [= <- <-] Hw Hw'.
  split.
  - exists e0. split_and!; [|done..]. unfold find in Ef. destruct (resolve _ _) as [e1| |] eqn:Er; try done. injection Ef as ->.
    unfold resolve in Er. case_bool_decide; [done|]. destruct (find_bool _ _) as [e1|] eqn:Eb.
    + injection Er as ->. by apply find_bool_Some in Eb as [? _].
    + destruct (retain _ _) as [|e1 [|]] eqn:Et; try done. injection Er as ->.
      assert (e0 ∈ [e0]) as Hin by by left. rewrite <- Et in Hin. by apply elem_of_retain in Hin as [? _].
  - destruct (decide (confirm_bytes (en_text e0) (en_mode e0) = confirm_bytes text mode)) as [E|E].
    + left. by apply confirm_bytes_inj.
    + right. split; [done|]. by symmetry.
Qed.
End spec.

(** ** Wakes *)

Section wakes.

(** What becomes of wakes: those that were set, and those given back to whoever
    replaced, took or stopped them or lost with the alarm that held them. *)
Inductive wakes_run (started : bool) (now : Timestamp) : list (SessionId * WakeNote) → list (SessionId * WakeNote) → Wakes → Prop :=
| run_new : wakes_run started now [] [] (wakes_new started now)
| run_set sets gone w session wake :
    wakes_run started now sets gone w →
    wakes_run started now ((session, wake) :: sets) (option_list ((session,.) <$> (wakes_set w session wake).1) ++ gone) (wakes_set w session wake).2
| run_take sets gone w session :
    wakes_run started now sets gone w →
    wakes_run started now sets (option_list ((session,.) <$> (wakes_take w session).1) ++ gone) (wakes_take w session).2
| run_stop sets gone w :
    wakes_run started now sets gone w → wakes_run started now sets (map_to_list (wks_pending w) ++ gone) (wakes_stop w)
| run_start sets gone w : wakes_run started now sets gone w → wakes_run started now sets gone (wakes_start w)
| run_stale sets gone w session : wakes_run started now sets gone w → wakes_run started now sets gone (clear_stale w session)
| run_due sets gone w n a :
    wakes_run started now sets gone w → wks_tasks w !! n = Some a → am_phase a = Sleeping → (am_at a <= wks_now w)%Z →
    wakes_run started now sets gone (mkWakes (wks_pending w) (wks_alarms w) (<[n := with_phase Ringing a]> (wks_tasks w))
                    (wks_fresh w) (wks_started w) (wks_now w) (wks_delivered w))
| run_ring sets gone w n a :
    wakes_run started now sets gone w → wks_tasks w !! n = Some a → am_phase a = Ringing → wakes_run started now sets gone (ring w n a)
| run_deliver sets gone w n a wake :
    wakes_run started now sets gone w → wks_tasks w !! n = Some a → am_phase a = Holding wake →
    wakes_run started now sets gone (wakes_deliver w n (am_session a) wake)
| run_die sets gone w n a wake :
    wakes_run started now sets gone w → wks_tasks w !! n = Some a → am_phase a = Holding wake → am_doomed a = true →
    wakes_run started now sets ((am_session a, wake) :: gone)
      (mkWakes (wks_pending w) (wks_alarms w) (delete n (wks_tasks w)) (wks_fresh w) (wks_started w) (wks_now w) (wks_delivered w))
| run_tick sets gone w now' :
    wakes_run started now sets gone w → (wks_now w <= now')%Z →
    wakes_run started now sets gone (mkWakes (wks_pending w) (wks_alarms w) (wks_tasks w) (wks_fresh w) (wks_started w) now' (wks_delivered w)).
Lemma wakes_run_steps started now sets gone w : wakes_run started now sets gone w → rtc wakes_step (wakes_new started now) w.
Proof. induction 1; try done; eapply rtc_r; try eassumption; by econstructor. Qed.
Lemma wakes_steps_run started now w : rtc wakes_step (wakes_new started now) w → ∃ sets gone, wakes_run started now sets gone w.
Proof.
  revert w. apply rtc_ind_r; [exists [], []; constructor|]. intros w w' _ Hs (sets & gone & Hr).
  destruct Hs; do 2 eexists; by econstructor.
Qed.

(** The wakes alarms hold, on their way to be delivered. *)
Definition held_by (a : Alarm) : list (SessionId * WakeNote) :=
  match am_phase a with Holding wake => [(am_session a, wake)] | _ => [] end.
Definition on_the_way (tasks : gmap nat Alarm) : list (SessionId * WakeNote) := (map_to_list tasks).*2 ≫= held_by.
Lemma way_delete n a tasks : tasks !! n = Some a → on_the_way tasks ≡ₚ held_by a ++ on_the_way (delete n tasks).
Proof. intros Hn. unfold on_the_way. by rewrite <- (map_to_list_delete _ _ _ Hn). Qed.
Lemma way_insert n a tasks : on_the_way (<[n := a]> tasks) ≡ₚ held_by a ++ on_the_way (delete n tasks).
Proof. rewrite (way_delete n a) by apply lookup_insert_eq. by rewrite delete_insert_eq. Qed.
Lemma way_doomed w session : on_the_way (doomed_tasks w session) ≡ₚ on_the_way (wks_tasks w).
Proof.
  unfold doomed_tasks. destruct (wks_alarms w !! session) as [n|]; [|done]. destruct (wks_tasks w !! n) as [a|] eqn:En; [|done].
  rewrite (way_delete n a (wks_tasks w)) by done. unfold doom, held_by. destruct (am_phase a) eqn:Ea.
  - done.
  - change (partial_alter _ n ?m) with (<[n := mkAlarm (am_session a) (am_at a) Ringing (am_clears a) true]> m). by rewrite way_insert.
  - change (partial_alter _ n ?m) with (<[n := mkAlarm (am_session a) (am_at a) (Holding wake) (am_clears a) true]> m). by rewrite way_insert.
Qed.
Lemma way_all_doomed tasks : on_the_way (omap doom tasks) ≡ₚ on_the_way tasks.
Proof.
  induction tasks as [|n a tasks Hn IH] using map_ind; [by rewrite omap_empty|].
  rewrite way_insert, fin_maps.delete_id by done. destruct (doom a) as [b|] eqn:Eb.
  - rewrite (omap_insert_Some _ _ _ _ b), way_insert, fin_maps.delete_id by (done || by rewrite lookup_omap, Hn). rewrite IH.
    unfold doom, held_by in *. by destruct (am_phase a); simplify_eq.
  - rewrite omap_insert_None by done. rewrite fin_maps.delete_id by (by rewrite lookup_omap, Hn). rewrite IH.
    unfold doom, held_by in *. by destruct (am_phase a).
Qed.

(** *** Every wake has one fate *)

Definition pending_of (w : Wakes) (session : SessionId) : list (SessionId * WakeNote) := option_list ((session,.) <$> wks_pending w !! session).
Definition fates (w : Wakes) : list (SessionId * WakeNote) :=
  (wks_delivered w).*1 ++ on_the_way (wks_tasks w) ++ map_to_list (wks_pending w).
Lemma pending_delete (p : gmap SessionId WakeNote) s : map_to_list p ≡ₚ option_list ((s,.) <$> p !! s) ++ map_to_list (delete s p).
Proof.
  destruct (p !! s) as [wake|] eqn:Es; cbn; [by rewrite map_to_list_delete|by rewrite fin_maps.delete_id].
Qed.
Lemma pending_insert (p : gmap SessionId WakeNote) s wake : map_to_list (<[s := wake]> p) ≡ₚ (s, wake) :: map_to_list (delete s p).
Proof. rewrite <- insert_delete_eq. apply map_to_list_insert, lookup_delete_eq. Qed.

(** Keys are minted, and a session's timer is its own. *)
Record wakes_inv (w : Wakes) : Prop := {
  wi_task n : is_Some (wks_tasks w !! n) → n < wks_fresh w;
  wi_alarm s n : wks_alarms w !! s = Some n → n < wks_fresh w;
  wi_own s n a : wks_alarms w !! s = Some n → wks_tasks w !! n = Some a → am_session a = s;
}.
Lemma doomed_lookup w s n b : doomed_tasks w s !! n = Some b →
  ∃ a, wks_tasks w !! n = Some a ∧ am_session b = am_session a ∧ (wks_alarms w !! s ≠ Some n → b = a).
Proof.
  unfold doomed_tasks. destruct (wks_alarms w !! s) as [m|]; [|by eauto]. destruct (wks_tasks w !! m) as [a|] eqn:Em; [|by eauto].
  rewrite lookup_partial_alter. case_decide as Hd; [|by eauto]. subst m. intros Hb. exists a. split; [done|].
  split; [|by intros []]. unfold doom in Hb. by destruct (am_phase a); simplify_eq.
Qed.
Lemma doomed_other w s n : wks_alarms w !! s ≠ Some n → doomed_tasks w s !! n = wks_tasks w !! n.
Proof.
  unfold doomed_tasks. intros Hn. destruct (wks_alarms w !! s) as [m|]; [|done]. destruct (wks_tasks w !! m); [|done].
  rewrite lookup_partial_alter_ne; [done|congruence].
Qed.
Lemma doomed_fresh w s : wakes_inv w → doomed_tasks w s !! wks_fresh w = None.
Proof.
  intros Hi. destruct (doomed_tasks w s !! wks_fresh w) as [b|] eqn:Eb; [|done]. apply doomed_lookup in Eb as (a & Ha & _).
  assert (wks_fresh w < wks_fresh w); [|lia]. apply (wi_task _ Hi). by eexists.
Qed.
Lemma inv_cancel w s : wakes_inv w → wakes_inv (alarms_cancel w s).
Proof.
  intros [Ht Ha Ho]. split; cbn.
  - intros n [b Hb]. apply doomed_lookup in Hb as (a & Hn & _). apply Ht. by eexists.
  - intros s' n [_ Hs]%lookup_delete_Some. by eapply Ha.
  - intros s' n b [_ Hs]%lookup_delete_Some Hb. apply doomed_lookup in Hb as (a & Hn & -> & _). by eapply Ho.
Qed.
Lemma inv_arm w s at_ clears : wakes_inv w → wakes_inv (alarms_arm w s at_ clears).
Proof.
  intros [Ht Ha Ho]. split; cbn.
  - intros n [b Hb]. apply lookup_insert_Some in Hb as [[<- _]|[_ Hb]]; [lia|]. apply doomed_lookup in Hb as (a & Hn & _).
    assert (n < wks_fresh w); [|lia]. apply Ht. by eexists.
  - intros s' n [[_ <-]|[_ Hs]]%lookup_insert_Some; [lia|]. apply Ha in Hs. lia.
  - intros s' n b [[<- <-]|[_ Hs]]%lookup_insert_Some Hb.
    + rewrite lookup_insert_eq in Hb. by injection Hb as <-.
    + apply Ha in Hs as Hlt. rewrite lookup_insert_ne in Hb by lia. apply doomed_lookup in Hb as (a & Hn & -> & _). by eapply Ho.
Qed.
Lemma inv_pending w p : wakes_inv w → wakes_inv (with_pending p w).
Proof. by intros []. Qed.
Lemma inv_stale w s : wakes_inv w → wakes_inv (clear_stale w s).
Proof. intros Hi. unfold clear_stale. destruct (wks_pending w !! s); [done|by apply inv_arm]. Qed.
Lemma inv_set w s wake : wakes_inv w → wakes_inv (wakes_set w s wake).2.
Proof. intros Hi. cbn. destruct (wks_started w); [apply inv_arm|]; by apply inv_pending. Qed.
Lemma foldl_keeps {A B} (P : A → Prop) (f : A → B → A) l a : P a → (∀ a b, P a → P (f a b)) → P (foldl f a l).
Proof. intros Ha Hf. revert a Ha. induction l as [|b l IH]; intros a Ha; [done|]. cbn. by apply IH, Hf. Qed.
Lemma inv_wakes_start w : wakes_inv w → wakes_inv (wakes_start w).
Proof.
  intros Hi. unfold wakes_start. destruct (wks_started w); [done|]. apply foldl_keeps; [apply foldl_keeps; [by destruct Hi|]|].
  - intros a s Ha. unfold reconcile_drop. destruct (wks_pending a !! s); [done|by apply inv_cancel].
  - intros a b Ha. unfold reconcile_arm. destruct (wks_alarms a !! b.1); [done|by apply inv_arm].
Qed.
Lemma inv_retask w n b : wakes_inv w → (∃ a, wks_tasks w !! n = Some a ∧ am_session b = am_session a) → ∀ p d now,
  wakes_inv (mkWakes p (wks_alarms w) (<[n := b]> (wks_tasks w)) (wks_fresh w) (wks_started w) now d).
Proof.
  intros [Ht Ha Ho] (a & Hn & Hb) p d now. split; cbn; [|done|].
  - intros m [c Hc]. apply lookup_insert_Some in Hc as [[<- _]|[_ Hc]]; apply Ht; by eexists.
  - intros s m c Hs [[<- <-]|[_ Hc]]%lookup_insert_Some; [rewrite Hb|]; by eapply Ho.
Qed.
Lemma inv_untask w n : wakes_inv w → ∀ p d now,
  wakes_inv (mkWakes p (wks_alarms w) (delete n (wks_tasks w)) (wks_fresh w) (wks_started w) now d).
Proof.
  intros [Ht Ha Ho] p d now. split; cbn; [|done|].
  - intros m [c [_ Hc]%lookup_delete_Some]. apply Ht. by eexists.
  - intros s m c Hs [_ Hc]%lookup_delete_Some. by eapply Ho.
Qed.
Lemma inv_ring w n a : wakes_inv w → wks_tasks w !! n = Some a → wakes_inv (ring w n a).
Proof.
  intros Hi Hn. unfold ring. destruct (am_clears a); [by apply inv_untask|]. destruct (wks_pending w !! am_session a); [|by apply inv_untask].
  apply inv_retask; [done|by exists a].
Qed.
Lemma wakes_inv_step w w' : wakes_inv w → wakes_step w w' → wakes_inv w'.
Proof.
  intros Hi. destruct 1.
  - by apply inv_set.
  - by apply inv_pending, inv_cancel.
  - destruct Hi as [Ht Ha Ho]. split; cbn; [|done|done]. intros n [b Hb]. rewrite lookup_omap in Hb.
    destruct (wks_tasks w !! n) eqn:En; [|done]. apply Ht. by eexists.
  - by apply inv_wakes_start.
  - by apply inv_stale.
  - apply inv_retask; [done|by exists a].
  - by apply inv_ring.
  - by apply inv_untask.
  - by apply inv_untask.
  - by destruct Hi.
Qed.
Lemma wakes_inv_runs started now w : rtc wakes_step (wakes_new started now) w → wakes_inv w.
Proof.
  revert w. apply rtc_ind_r; [|].
  { split; cbn; [by intros n []%lookup_empty_is_Some|by intros s n Hs; rewrite lookup_empty in Hs|by intros s n a Hs; rewrite lookup_empty in Hs]. }
  intros w w' _ Hs Hi. by eapply wakes_inv_step.
Qed.

Lemma fates_cancel w s : fates (alarms_cancel w s) ≡ₚ fates w.
Proof. unfold fates. cbn. by rewrite way_doomed. Qed.
Lemma fates_arm w s at_ clears : wakes_inv w → fates (alarms_arm w s at_ clears) ≡ₚ fates w.
Proof. intros Hi. unfold fates. cbn. rewrite way_insert, fin_maps.delete_id by (by apply doomed_fresh). cbn. by rewrite way_doomed. Qed.
Lemma fates_start w : wakes_inv w → fates (wakes_start w) ≡ₚ fates w.
Proof.
  intros Hi. unfold wakes_start. destruct (wks_started w); [done|].
  apply (foldl_keeps (λ v, wakes_inv v ∧ fates v ≡ₚ fates w)); [apply (foldl_keeps (λ v, wakes_inv v ∧ fates v ≡ₚ fates w)); [by destruct Hi|]|].
  - intros v s [Hv Hf]. unfold reconcile_drop. destruct (wks_pending v !! s); [done|]. split; [by apply inv_cancel|]. by rewrite fates_cancel.
  - intros v b [Hv Hf]. unfold reconcile_arm. destruct (wks_alarms v !! b.1); [done|]. split; [by apply inv_arm|]. by rewrite fates_arm.
Qed.
Lemma fates_ring w n a : wks_tasks w !! n = Some a → am_phase a = Ringing → fates (ring w n a) ≡ₚ fates w.
Proof.
  intros Hn Hp. assert (on_the_way (wks_tasks w) ≡ₚ on_the_way (delete n (wks_tasks w))) as Hw
    by (rewrite (way_delete n a) by done; unfold held_by; by rewrite Hp).
  unfold ring, fates. destruct (am_clears a); cbn; [by rewrite Hw|].
  destruct (wks_pending w !! am_session a) as [wake|] eqn:Es; cbn; [|by rewrite Hw].
  rewrite way_insert, Hw, (pending_delete (wks_pending w) (am_session a)), Es. unfold held_by. cbn. solve_Permutation.
Qed.


(** *** A pending wake comes *)

(** A pending wake has an alarm of its own that no one has cancelled. *)
Definition rings_for (w : Wakes) (s : SessionId) (wake : WakeNote) : Prop :=
  ∃ n phase, wks_alarms w !! s = Some n ∧ wks_tasks w !! n = Some (mkAlarm s (wk_at wake) phase false false)
    ∧ (phase = Sleeping ∨ phase = Ringing).
Definition armed (w : Wakes) : Prop := wks_started w = true ∧ ∀ s wake, wks_pending w !! s = Some wake → rings_for w s wake.
Lemma rings_not w s n wake : wakes_inv w → rings_for w s wake → wks_alarms w !! s = Some n →
  ∀ s', s' ≠ s → wks_alarms w !! s' ≠ Some n.
Proof.
  intros Hi (m & phase & Ha & Ht & _) Hn s' Hne Hs'. assert (m = n) as -> by congruence.
  apply Hne. by rewrite <- (wi_own _ Hi _ _ _ Hs' Ht).
Qed.
Lemma rings_cancel w s s' wake : wakes_inv w → s' ≠ s → rings_for w s' wake → rings_for (alarms_cancel w s) s' wake.
Proof.
  intros Hi Hne Hr. pose proof Hr as (n & phase & Ha & Ht & Hp). exists n, phase. cbn.
  rewrite lookup_delete_ne, doomed_other by (done || by eapply rings_not). done.
Qed.
Lemma rings_arm w s s' wake at_ clears : wakes_inv w → s' ≠ s → rings_for w s' wake → rings_for (alarms_arm w s at_ clears) s' wake.
Proof.
  intros Hi Hne Hr. pose proof Hr as (n & phase & Ha & Ht & Hp). exists n, phase. cbn. pose proof (wi_alarm _ Hi _ _ Ha).
  rewrite !lookup_insert_ne, doomed_other by (done || lia || by eapply rings_not). done.
Qed.
Lemma rings_armed w s wake : rings_for (alarms_arm w s (wk_at wake) false) s wake.
Proof. exists (wks_fresh w), Sleeping. cbn. rewrite !lookup_insert_eq. by split_and!; [..|left]. Qed.
Lemma rings_pending w p s wake : rings_for w s wake → rings_for (with_pending p w) s wake.
Proof. done. Qed.
(** A task other than a session's own can be changed or be over. *)
Lemma rings_untask w n tasks p now d s wake : (∀ a, wks_tasks w !! n = Some a → rings_for w s wake → am_session a = s → am_clears a = false →
    am_doomed a = false → am_phase a = Sleeping ∨ am_phase a = Ringing → False) →
  (∀ m, m ≠ n → tasks !! m = wks_tasks w !! m) → rings_for w s wake →
  rings_for (mkWakes p (wks_alarms w) tasks (wks_fresh w) (wks_started w) now d) s wake.
Proof.
  intros Hn Ht Hr. pose proof Hr as (m & phase & Ha & Hm & Hp). exists m, phase. cbn. split; [done|]. split; [|done].
  rewrite Ht; [done|]. intros ->. by eapply Hn.
Qed.
Lemma armed_ring w n a : armed w → wks_tasks w !! n = Some a → am_phase a = Ringing → armed (ring w n a).
Proof.
  intros [Hs Ha] Hn Hp. unfold ring. destruct (am_clears a) eqn:Ec; [|destruct (wks_pending w !! am_session a) as [k|] eqn:Ek]; split; try done.
  - intros s wake Hk. eapply (rings_untask w n); [|intros m Hm; by rewrite lookup_delete_ne|by apply Ha].
    intros b Hb _ _ Hc. congruence.
  - cbn. intros s wake [Hne Hk]%lookup_delete_Some. eapply (rings_untask w n); [|intros m Hm; by rewrite lookup_insert_ne|by apply Ha].
    intros b Hb _ Hbs. congruence.
  - intros s wake Hk. eapply (rings_untask w n); [|intros m Hm; by rewrite lookup_delete_ne|by apply Ha].
    intros b Hb _ Hbs. cbn in Hk. congruence.
Qed.
Lemma armed_step w w' : wakes_inv w → armed w → wakes_step w w' → armed w'.
Proof.
  intros Hi [Hs Ha]. destruct 1 as [w s wake|w s|w|w|w s|w n a Hn Hp Hd|w n a Hn Hp|w n a wake Hn Hp|w n a wake Hn Hp Hd|w now Hd].
  - unfold wakes_set. cbn. rewrite Hs. split; [done|]. cbn. intros s' k [[<- <-]|[Hne Hk]]%lookup_insert_Some; [apply rings_armed|].
    apply rings_arm; [by apply inv_pending|done|]. by apply rings_pending, Ha.
  - split; [done|]. cbn. intros s' k [Hne Hk]%lookup_delete_Some. apply rings_pending, rings_cancel; [done..|by apply Ha].
  - split; [done|]. cbn. intros s' k Hk. by rewrite lookup_empty in Hk.
  - unfold wakes_start. by rewrite Hs.
  - unfold clear_stale. destruct (wks_pending w !! s) eqn:Es; [done|]. split; [done|]. intros s' k Hk. apply rings_arm; [done|cbn in Hk; congruence|by apply Ha].
  - split; [done|]. intros s k Hk. destruct (Ha s k Hk) as (m & phase & Hm & Ht & Hph). destruct (decide (m = n)) as [->|Hne].
    + exists n, Ringing. cbn. rewrite lookup_insert_eq. assert (a = mkAlarm s (wk_at k) phase false false) as -> by congruence. by split_and!; [..|right].
    + exists m, phase. cbn. by rewrite lookup_insert_ne.
  - by apply armed_ring.
  - split; [done|]. intros s k Hk. eapply (rings_untask w n); [|intros m Hm; by rewrite lookup_delete_ne|by apply Ha].
    intros b Hb _ _ _ _ []; congruence.
  - split; [done|]. intros s k Hk. eapply (rings_untask w n); [|intros m Hm; by rewrite lookup_delete_ne|by apply Ha].
    intros b Hb _ _ _ _ []; congruence.
  - by split.
Qed.
Lemma armed_runs now w : rtc wakes_step (wakes_new true now) w → armed w.
Proof.
  intros Hr. assert (wakes_inv w ∧ armed w) as [_ ?]; [|done]. revert w Hr. apply rtc_ind_r.
  - split; [by eapply wakes_inv_runs|]. split; [done|]. cbn. intros s k Hk. by rewrite lookup_empty in Hk.
  - intros w w' _ Hstep [Hi Ha]. split; [by eapply wakes_inv_step|by eapply armed_step].
Qed.

(** A pending wake comes.  In a process whose host is known, whatever was set, taken
    and cancelled before, a wake that is pending when its moment has come is delivered,
    once, by the alarm its session holds: nothing else need happen. *)
Theorem a_pending_wake_comes now w s wake : rtc wakes_step (wakes_new true now) w →
  wks_pending w !! s = Some wake → (wk_at wake <= wks_now w)%Z →
  ∃ w', rtc wakes_step w w' ∧ wks_delivered w' = (s, wake, wks_now w) :: wks_delivered w ∧ wks_pending w' = delete s (wks_pending w).
Proof.
  intros Hr Hs Hd. apply armed_runs in Hr as [_ Ha]. destruct (Ha s wake Hs) as (n & phase & _ & Ht & Hp).
  assert (∀ v, wks_tasks v !! n = Some (mkAlarm s (wk_at wake) Ringing false false) → wks_pending v = wks_pending w → wks_now v = wks_now w →
    wks_delivered v = wks_delivered w → ∃ w', rtc wakes_step v w' ∧ wks_delivered w' = (s, wake, wks_now w) :: wks_delivered w
      ∧ wks_pending w' = delete s (wks_pending w)) as Hring.
  { intros v Hv Hpv Hnv Hdv. pose proof (wakes_step_ring v n _ Hv eq_refl) as H1. unfold ring in H1. cbn in H1. rewrite Hpv, Hs in H1.
    eexists. split; [|split].
    - eapply rtc_l; [exact H1|]. apply rtc_once. eapply (wakes_step_deliver _ n _ wake); cbn; [apply lookup_insert_eq|done].
    - cbn. by rewrite Hnv, Hdv.
    - done. }
  destruct Hp as [-> | ->]; [|by apply Hring].
  destruct (Hring (mkWakes (wks_pending w) (wks_alarms w) (<[n := mkAlarm s (wk_at wake) Ringing false false]> (wks_tasks w))
              (wks_fresh w) (wks_started w) (wks_now w) (wks_delivered w))) as (w' & Hw' & ?); [cbn; apply lookup_insert_eq|done..|].
  exists w'. split; [|done]. eapply rtc_l; [|exact Hw']. by apply (wakes_step_due w n (mkAlarm s (wk_at wake) Sleeping false false)).
Qed.
End wakes.

(** ** The wake tool *)

Section wake_tool.
Context `{Calendar}.

(** A wake is held to its bounds.  Whatever length of time a call asks for, the wake
    its session then has pending comes between the least a wake may be and an hour from
    now, exactly when it was asked for where that lies between, says a note that is
    not empty, and takes the place of the one that stood. *)
Theorem a_wake_is_held_to_its_bounds latest now session least ask w said w' :
  (0 <= least <= WAKE_MOST)%Z → (now + WAKE_MOST * 10 ^ 9 <= latest)%Z → wa_stop ask = false →
  wake_call latest now session least ask w = (Ok said, w') →
  ∃ wake asked, duration (default [] (wa_after ask)) = Ok asked ∧ wks_pending w' = <[session := wake]> (wks_pending w)
    ∧ (now + least * 10 ^ 9 <= wk_at wake <= now + WAKE_MOST * 10 ^ 9)%Z
    ∧ ((least <= asked <= WAKE_MOST)%Z → wk_at wake = (now + asked * 10 ^ 9)%Z)
    ∧ wk_note wake = trim (default [] (wa_note ask)) ∧ wk_note wake ≠ [].
Proof.
  intros Hl Hlatest Hs. unfold wake_call, wanted. rewrite Hs. case_bool_decide as Hn; [done|].
  destruct (wa_after ask) as [after|]; [|done]. cbn [default]. destruct (duration after) as [asked|] eqn:Ed; [|done].
  unfold wake_tool_set. intros [= _ <-]. exists (wake_set latest now (hd_after (hold asked least)) (trim (default [] (wa_note ask)))), asked.
  assert (least <= hd_after (hold asked least) <= WAKE_MOST ∧ ((least <= asked <= WAKE_MOST) → hd_after (hold asked least) = asked))%Z as [Hb He]
    by (cbn; lia).
  assert (wk_at (wake_set latest now (hd_after (hold asked least)) (trim (default [] (wa_note ask)))) = now + hd_after (hold asked least) * 10 ^ 9)%Z as Hat.
  { unfold wake_set. cbn [wk_at]. destruct (Z.leb_spec (now + hd_after (hold asked least) * 10 ^ 9) latest); [done|lia]. }
  split_and!; [done| |lia|lia|intros Hin; rewrite Hat, He; done|done|done].
  unfold wakes_set. cbn. by destruct (wks_started w).
Qed.
End wake_tool.

(** ** A calendar, and the schedules of a day *)

Module Demo.

(** Days of twenty-four hours; a moment is written as its sign and its size. *)
Definition DAY : Z := 86400 * 10 ^ 9.
#[export] Instance utc : Calendar := {
  cal_date t := (t / DAY)%Z;
  cal_tomorrow d := Some (d + 1)%Z;
  cal_at d hour minute :=
    if (0 <=? hour)%Z && (0 <=? minute)%Z then Some (d * DAY + (hour * 3600 + minute * 60) * 10 ^ 9)%Z else None;
  cal_plus t seconds := Some (t + seconds * 10 ^ 9)%Z;
  cal_parse s :=
    match s with
    | [sign; size] => let n := (Z.of_N size - 65536)%Z in Some (if N.eqb sign (chr "-") then - n else n)%Z
    | _ => None
    end;
  cal_show t := [if (t <? 0)%Z then chr "-" else chr "+"; Z.to_N (Z.abs t + 65536)];
  cal_when t := show_Z (t / 10 ^ 9);
}.
#[export] Instance utc_laws : CalendarLaws.
Proof.
  split; cbn -[DAY trim is_whitespace].
  - by intros t d u [= <-].
  - by intros d e [= <-].
  - intros t u Hle. apply Z.div_le_mono; [done|lia].
  - intros d h m t. destruct (Z.leb_spec 0 h), (Z.leb_spec 0 m); cbn [andb]; try done. intros [= <-]. apply Z.div_le_lower_bound; [done|]. rewrite (Z.mul_comm DAY). generalize (d * DAY)%Z. lia.
  - intros t. rewrite Z2N.id by lia. replace (Z.abs t + 65536 - 65536)%Z with (Z.abs t) by lia.
    destruct (Z.ltb_spec t 0); change (N.eqb _ _) with true || change (N.eqb _ _) with false; apply f_equal; cbv iota; lia.
  - intros t. split; [|done]. apply trim_plain. intros c [->|[->|[]%elem_of_nil]%elem_of_cons]%elem_of_cons.
    + by destruct (t <? 0)%Z.
    + unfold is_whitespace. repeat (apply orb_false_iff; split); try apply N.eqb_neq; try (apply andb_false_iff; rewrite !N.leb_gt); lia.
Qed.

Definition sec (n : Z) : Timestamp := (n * 10 ^ 9)%Z.
Definition brief : Entry := mkEntry (lit "a1") (Every 60) (lit "brief me") (lit "/w") None true (sec 0) None ByTool.
Definition store : gmap str Entry := {[ lit "a1" := brief ]}.

(** The steps of the loop, as functions. *)
Definition launches (l : Loop) (now clock : Z) : Loop :=
  let r := launch (lp_store l) (lp_flights l) (lp_tasks l) (lp_fresh l) now clock in
  mkLoop (lp_store l) r.1.1.1 r.1.1.2 r.1.2 now (lp_fires l).
Lemma launches_step R l now clock : (lp_now l <= now)%Z → loop_step R l (launches l now clock).
Proof.
  intros Hle. unfold launches. destruct (launch _ _ _ _ now clock) as [[[f tasks] fresh] wait] eqn:El. by eapply step_launch.
Qed.
Definition opens (l : Loop) (task : nat) (now : Timestamp) (refused : bool) : Loop :=
  match lp_tasks l !! task with
  | Some (Opening read launched) =>
      let r := spend (lp_store l) read now refused in
      match r.1 with
      | Some _ => mkLoop r.2 (lp_flights l) (<[task := Reporting (LSpent now)]> (lp_tasks l)) (lp_fresh l) now (mkFire read launched now :: lp_fires l)
      | None => mkLoop r.2 (lp_flights l) (<[task := Reporting LSkipped]> (lp_tasks l)) (lp_fresh l) now (lp_fires l)
      end
  | _ => l
  end.
Lemma opens_steps R l task now refused : (lp_now l <= now)%Z → rtc (loop_step R) l (opens l task now refused).
Proof.
  intros Hle. unfold opens. destruct (lp_tasks l !! task) as [[read launched|]|] eqn:Et; [|done..]. apply rtc_once.
  destruct (spend (lp_store l) read now refused) as [spent store'] eqn:Es. cbn [fst snd].
  by apply (step_open R l task read launched now store' spent refused).
Qed.
Definition lands (l : Loop) (task : nat) (clock : Z) : Loop :=
  match lp_tasks l !! task with
  | Some (Reporting landed) =>
      mkLoop (lp_store l) (land (lp_flights l) task landed clock) (delete task (lp_tasks l)) (lp_fresh l) (lp_now l) (lp_fires l)
  | _ => l
  end.
Lemma lands_steps R l task clock : rtc (loop_step R) l (lands l task clock).
Proof. unfold lands. destruct (lp_tasks l !! task) as [[|landed]|] eqn:Et; [done| |done]. apply rtc_once. by apply step_land. Qed.

(** A fire whose stamp the disk refuses, and the next occurrence. *)
Definition launched_one : Loop := launches (loop_new store (sec 0)) (sec 60) 0.
Definition opened_one : Loop := opens launched_one 0 (sec 61) true.
Definition minute_one : Loop := lands opened_one 0 0.
Definition launched_two : Loop := launches minute_one (sec 125) 0.
Definition minute_two : Loop := opens launched_two 1 (sec 126) false.
Lemma minute_two_runs R : rtc (loop_step R) (loop_new store (sec 0)) minute_two.
Proof.
  transitivity launched_one; [apply rtc_once, launches_step; by vm_compute|].
  transitivity opened_one; [apply opens_steps; by vm_compute|].
  transitivity minute_one; [apply lands_steps|].
  transitivity launched_two; [apply rtc_once, launches_step; by vm_compute|]. apply opens_steps. by vm_compute.
Qed.
Definition first_fire : Fire := mkFire brief (sec 60) (sec 61).
Definition second_fire : Fire :=
  mkFire (mkEntry (lit "a1") (Every 60) (lit "brief me") (lit "/w") None true (sec 0) (Some (sec 61)) ByTool) (sec 125) (sec 126).
Example minute_two_fires : lp_fires minute_two = [second_fire; first_fire].
Proof. by vm_compute. Qed.

(** An entry the person asked for, a mode with it, and a session that answers. *)
Definition standing : Entry :=
  mkEntry (lit "b2") (DailyAt 9 0) (lit "/review") (lit "/w") (Some (lit "plan")) true (sec 0) None ByPerson.
Definition asked_store : gmap str Entry := {[ lit "b2" := standing ]}.
Definition calm : Trouble := mkTrouble None ∅ [].
Definition answers : Replies := mkReplies (Ok tt) None Taken Taken.
Definition after_forgery : gmap str Entry :=
  (schedule_create (mkCreateArgs (lit "every 1s") (lit "/permission full") None (Some (lit "full"))) (lit "/w") (sec 5) (lit "c3") asked_store).2.

(** Wakes: one whose moment came while another was being set. *)
Definition first_wake : WakeNote := mkWake (sec 10) (lit "read the build").
Definition second_wake : WakeNote := mkWake (sec 100) (lit "read the tests").
Definition set_one : Wakes := (wakes_set (wakes_new true (sec 0)) (lit "s") first_wake).2.
Definition at_ten (w : Wakes) : Wakes :=
  mkWakes (wks_pending w) (wks_alarms w) (wks_tasks w) (wks_fresh w) (wks_started w) (sec 10) (wks_delivered w).
Definition rung (n : nat) (w : Wakes) : Wakes :=
  match wks_tasks w !! n with
  | Some a => mkWakes (wks_pending w) (wks_alarms w) (<[n := with_phase Ringing a]> (wks_tasks w)) (wks_fresh w) (wks_started w) (wks_now w) (wks_delivered w)
  | None => w
  end.
End Demo.
#[local] Existing Instances Demo.utc Demo.utc_laws.

Lemma a_schedule_reads_back_as_written_witness : spec_parse (spec_show (DailyAt 9 5)) = Ok (DailyAt 9 5).
Proof. apply (a_schedule_reads_back_as_written (DailyAt 9 5)). split; lia. Defined.
Lemma no_occurrence_fires_twice_witness :
  lp_fires Demo.minute_two = [] ++ Demo.second_fire :: [] ++ Demo.first_fire :: []
  ∧ (∃ due, next_fire (fr_read Demo.second_fire) = Some due ∧ (Demo.sec 61 < due <= Demo.sec 126)%Z).
Proof.
  split; [by vm_compute|].
  apply (no_occurrence_fires_twice (lit "a1") Demo.store (Demo.sec 0) Demo.minute_two [] Demo.second_fire [] Demo.first_fire []);
    [apply Demo.minute_two_runs|by vm_compute|done|done].
Defined.
Lemma the_loop_starts_what_is_due_and_wakes_for_the_rest_witness :
  ∃ n, (launch Demo.store flights_new ∅ 0 (Demo.sec 90) 0).1.1.2 !! n = Some (Opening Demo.brief (Demo.sec 90)).
Proof.
  destruct (launch Demo.store flights_new ∅ 0 (Demo.sec 90) 0) as [[[f tasks] fresh] wait] eqn:El.
  destruct (the_loop_starts_what_is_due_and_wakes_for_the_rest Demo.store flights_new ∅ 0 (Demo.sec 90) 0 f tasks fresh wait
    (remembered (keep_retry 0 flights_new) (load Demo.store)) eq_refl El) as [Hs _].
  destruct (Hs Demo.brief (Demo.sec 60)) as (n & _ & Hn & _); [by vm_compute; left|by vm_compute|by vm_compute|by vm_compute|].
  exists n. exact Hn.
Defined.
(** The print the code's own tests expect. *)
Example confirmation_digest_hello :
  confirmation_digest (lit "hello") None = lit "c05e7dfa34c3ba8e3a9c414b933f4e4e55919a709ea8c2eb94ac5041dd55f8bc".
Proof. by vm_compute. Qed.
Lemma a_fire_is_spent_before_it_is_said_witness :
  (∃ e, (fire Demo.store Demo.brief (Demo.sec 60) Demo.answers Demo.calm).1.1.2 !! lit "a1" = Some e ∧ en_last_fired e = Some (Demo.sec 60)
     ∧ en_enabled e = negb (is_once (en_spec e)))
  ∧ (fire (fire Demo.store Demo.brief (Demo.sec 60) Demo.answers Demo.calm).1.1.2 Demo.brief (Demo.sec 61) Demo.answers Demo.calm).1.2 = [].
Proof.
  destruct (fire Demo.store Demo.brief (Demo.sec 60) Demo.answers Demo.calm) as [[[res store'] handed] t'] eqn:Ef.
  assert (handed = (fire Demo.store Demo.brief (Demo.sec 60) Demo.answers Demo.calm).1.2) as Hh by (by rewrite Ef).
  destruct (a_fire_is_spent_before_it_is_said Demo.store Demo.brief (Demo.sec 60) Demo.answers Demo.calm res store' handed t' Ef)
    as [He Hs]; [by rewrite Hh; vm_compute|done|done|].
  split; [exact He|]. specialize (Hs (Demo.sec 61) Demo.answers Demo.calm). cbn [fst snd].
  destruct (fire store' Demo.brief (Demo.sec 61) Demo.answers Demo.calm) as [[[res2 store2] handed2] t2]. by destruct Hs as (_ & -> & _).
Defined.
Lemma only_the_persons_words_speak_for_them_witness :
  ∃ e, Demo.asked_store !! lit "b2" = Some e ∧ en_by e = ByPerson
    ∧ (lit "/permission plan" = en_text e ∨ ∃ mode, en_mode e = Some mode ∧ lit "/permission plan" = lit "/permission " ++ mode).
Proof.
  apply (only_the_persons_words_speak_for_them Demo.asked_store Demo.after_forgery Demo.standing (Demo.sec 32400) Demo.answers Demo.calm
    (Submits (input_text (lit "/permission plan") asked_origin))); [|by vm_compute; left|done].
  apply rtc_once, model_create.
Defined.
Lemma a_confirmation_takes_the_words_that_were_read_witness :
  let args := lit "a1 " ++ confirmation_digest (lit "brief me") None in
  ∃ e, consent_confirm true args Demo.store = (Ok e, <[lit "a1" := e]> Demo.store) ∧ en_by e = ByPerson
    ∧ (en_text e = lit "brief me" ∧ en_mode e = None
       ∨ confirm_bytes (en_text e) (en_mode e) ≠ confirm_bytes (lit "brief me") None
         ∧ hex (digest (confirm_bytes (en_text e) (en_mode e))) = hex (digest (confirm_bytes (lit "brief me") None))).
Proof.
  intros args. exists (by_person Demo.brief). assert (words_ok (lit "brief me") None) as Hw.
  { split_and!; [by repeat constructor|constructor|by vm_compute]. }
  split; [by vm_compute|]. split; [done|].
  apply (a_confirmation_takes_the_words_that_were_read args (lit "a1") (lit "brief me") None Demo.store (by_person Demo.brief)
    (<[lit "a1" := by_person Demo.brief]> Demo.store)); [by vm_compute|by vm_compute|done|done].
Defined.
Lemma a_pending_wake_comes_witness :
  ∃ w', rtc wakes_step (Demo.at_ten Demo.set_one) w' ∧ wks_delivered w' = [(lit "s", Demo.first_wake, Demo.sec 10)].
Proof.
  destruct (a_pending_wake_comes (Demo.sec 0) (Demo.at_ten Demo.set_one) (lit "s") Demo.first_wake) as (w' & Hw & Hd & _);
    [|done|done|by exists w'].
  eapply rtc_l; [apply (wakes_step_set _ (lit "s") Demo.first_wake)|]. apply rtc_once, wakes_step_tick. by vm_compute.
Defined.

Lemma a_wake_is_held_to_its_bounds_witness :
  ∃ wake, wks_pending (wake_call (Demo.sec 10000) (Demo.sec 5) (lit "s") WAKE_LEAST (mkWakeAsk (Some (lit "1s")) (Some (lit " look ")) false)
                         (wakes_new true (Demo.sec 0))).2 = <[lit "s" := wake]> ∅
    ∧ (Demo.sec 15 <= wk_at wake <= Demo.sec 3605)%Z ∧ wk_note wake = lit "look".
Proof.
  destruct (wake_call (Demo.sec 10000) (Demo.sec 5) (lit "s") WAKE_LEAST (mkWakeAsk (Some (lit "1s")) (Some (lit " look ")) false)
    (wakes_new true (Demo.sec 0))) as [[said|] w'] eqn:E; [|by vm_compute in E].
  destruct (a_wake_is_held_to_its_bounds (Demo.sec 10000) (Demo.sec 5) (lit "s") WAKE_LEAST (mkWakeAsk (Some (lit "1s")) (Some (lit " look ")) false)
    (wakes_new true (Demo.sec 0)) said w' ltac:(by vm_compute) ltac:(by vm_compute) eq_refl E) as (wake & asked & _ & Hp & Hb & _ & Hn & _).
  exists wake. split; [exact Hp|]. split; [exact Hb|]. rewrite Hn. by vm_compute.
Defined.

(** ** Alarms that outlive their cancelling *)

(** A wake whose alarm already waits for the lock when another is set: the old alarm,
    cancelled, takes the new wake, and stops with it in its hands.  The new wake is
    neither pending nor delivered, and its own alarm finds nothing. *)
Example a_cancelled_alarm_takes_the_next_wake :
  let w := (wakes_set (Demo.rung 0 (Demo.at_ten Demo.set_one)) (lit "s") Demo.second_wake).2 in
  ∃ w', rtc wakes_step w w' ∧ wks_pending w' = ∅ ∧ wks_delivered w' = [] ∧ on_the_way (wks_tasks w') = [].
Proof.
  intros w. set (a := mkAlarm (lit "s") (Demo.sec 10) Ringing false true).
  pose proof (wakes_step_ring w 0 a ltac:(by vm_compute) eq_refl) as H1.
  pose proof (wakes_step_die (ring w 0 a) 0 (with_phase (Holding Demo.second_wake) a) Demo.second_wake ltac:(by vm_compute) eq_refl eq_refl) as H2.
  eexists. split; [eapply rtc_l; [exact H1|]; by apply rtc_once|]. by vm_compute.
Qed.
(** The same alarm may also get as far as delivering it: ninety seconds early. *)
Example a_cancelled_alarm_delivers_the_next_wake_early :
  let w := (wakes_set (Demo.rung 0 (Demo.at_ten Demo.set_one)) (lit "s") Demo.second_wake).2 in
  ∃ w', rtc wakes_step w w' ∧ wks_delivered w' = [(lit "s", Demo.second_wake, Demo.sec 10)] ∧ wk_at Demo.second_wake = Demo.sec 100.
Proof.
  intros w. set (a := mkAlarm (lit "s") (Demo.sec 10) Ringing false true).
  pose proof (wakes_step_ring w 0 a ltac:(by vm_compute) eq_refl) as H1.
  pose proof (wakes_step_deliver (ring w 0 a) 0 (with_phase (Holding Demo.second_wake) a) Demo.second_wake ltac:(by vm_compute) eq_refl) as H2.
  eexists. split; [eapply rtc_l; [exact H1|]; by apply rtc_once|]. by vm_compute.
Qed.
(** A wake set before [start], on a session whose stale wake is being cleared, is given
    no alarm: [start] finds the session's key taken. *)
Example a_wake_before_the_start_is_given_no_alarm :
  let w := wakes_start (wakes_set (clear_stale (wakes_new false (Demo.sec 0)) (lit "s")) (lit "s") Demo.first_wake).2 in
  wks_pending w !! lit "s" = Some Demo.first_wake ∧ (∃ a, wks_tasks w = {[ 0 := a ]} ∧ am_clears a = true).
Proof. split; [by vm_compute|]. eexists. split; by vm_compute. Qed.
