(* ===== verification/Files.v ===== *)
(** * Files: reading, writing and editing (bingo-tool-fs)

    The three tools a model changes files with: [Edit] (edit.rs), [Write] (write.rs)
    and [Read] (read.rs), with the bounds their results are held to (output.rs) and the
    line each leaves (upshot.rs).

    A disk is what stands at each path as it is spelled; what a file system refuses is
    an argument.  The diff of two texts is drawn by a library ([unified]), and what a
    picture becomes is decided outside these files ([picture]). *)

From S2P Require Import Prelude Text Model Interaction Event PermPath Numbers Utf8 Ears Round.

(** ** A disk *)

Inductive Node := File (content : bytes) | Dir | Sealed (why : str).
Record Disk := mkDisk {
  dk_nodes : gmap str Node;
  (** what refuses the directories on the way to one, and the opening of a file *)
  dk_no_dir : str -> option str;
  dk_unwritable : str -> option str;
}.
Definition MISSING : str := lit "No such file or directory (os error 2)".
Definition IS_DIR : str := lit "Is a directory (os error 21)".
Definition NOT_UTF8 : str := lit "stream did not contain valid UTF-8".
(** [std::io::Error], as far as it is told apart. *)
Record IoError := mkIoError { io_missing : bool; io_said : str }.
Definition read_bytes (d : Disk) (path : str) : result IoError bytes :=
  match dk_nodes d !! path with
  | None => Err (mkIoError true MISSING)
  | Some Dir => Err (mkIoError false IS_DIR)
  | Some (Sealed why) => Err (mkIoError false why)
  | Some (File content) => Ok content
  end.
Definition read_to_string (d : Disk) (path : str) : result IoError str :=
  match read_bytes d path with
  | Err e => Err e
  | Ok content => match from_utf8 content with (text, Whole, _) => Ok text | _ => Err (mkIoError false NOT_UTF8) end
  end.
Definition write (d : Disk) (path content : str) : result str Disk :=
  match dk_unwritable d path, dk_nodes d !! path with
  | Some why, _ => Err why
  | None, Some Dir => Err IS_DIR
  | None, _ => Ok (mkDisk (<[path := File (utf8 content)]> (dk_nodes d)) (dk_no_dir d) (dk_unwritable d))
  end.

(** [create_dir_all]: the missing directories on the way to one are made. *)
Definition EXISTS : str := lit "File exists (os error 17)".
Definition NOT_DIR : str := lit "Not a directory (os error 20)".
Fixpoint make_dirs (fuel : nat) (nodes : gmap str Node) (dir : str) : result str (gmap str Node) :=
  match nodes !! dir, fuel with
  | Some Dir, _ => Ok nodes
  | Some _, _ => Err EXISTS
  | None, O => Ok nodes
  | None, S fuel =>
      match path_parent dir with
      | None => Ok nodes            (* the root of a file system *)
      | Some parent =>
          if bool_decide (parent = []) then Ok (<[dir := Dir]> nodes)
          else match make_dirs fuel nodes parent with
               | Ok nodes => Ok (<[dir := Dir]> nodes)
               | Err _ => Err NOT_DIR
               end
      end
  end.
Definition create_dir_all (d : Disk) (dir : str) : result str Disk :=
  match dk_no_dir d dir with
  | Some why => Err why
  | None =>
      match make_dirs (length dir) (dk_nodes d) dir with
      | Ok nodes => Ok (mkDisk nodes (dk_no_dir d) (dk_unwritable d))
      | Err why => Err why
      end
  end.

(** ** path.rs, output.rs, upshot.rs *)

Definition resolve (file_path cwd : str) : str := path_push cwd file_path.

Definition MAX_CHARS : N := 20000.
(** The lines that fit, and how many they are: [chars] is what stands so far. *)
Fixpoint fitting (lines : list str) (out : str) (chars : N) (taken : nat) : str * nat :=
  match lines with
  | [] => (out, taken)
  | line :: lines =>
      let first := bool_decide (out = []) in
      let cost := (N.of_nat (length line) + if first then 0 else 1)%N in
      if (MAX_CHARS <? chars + cost)%N then (out, taken)
      else fitting lines (out ++ (if first then [] else newline) ++ line) (chars + cost)%N (S taken)
  end.
Definition truncated_note (dropped : nat) (noun : str) : str :=
  newline ++ lit "[truncated: " ++ show_N (N.of_nat dropped) ++ lit " more " ++ noun ++ lit "]".
Definition joined (lines : list str) (max : nat) (noun : str) : str * nat :=
  let '(out, taken) := fitting (take max lines) [] 0%N 0 in
  let dropped := length lines - taken in
  (if dropped =? 0 then out else out ++ truncated_note dropped noun, taken).
Definition plain (text : str) : Upshot := UpshotWords text Neutral.
Definition upshot_read (text : str) : Upshot :=
  let count := length (lines text) in
  plain (show_N (N.of_nat count) ++ lit " " ++ if count =? 1 then lit "line" else lit "lines").
Definition u32_of (n : nat) : option N := if (N.of_nat n <? 2 ^ 32)%N then Some (N.of_nat n) else None.
Definition created (content : str) : Upshot := UpshotDiff (default (2 ^ 32 - 1)%N (u32_of (length (lines content)))) 0.

(** ** edit.rs *)

Record EditArgs := mkEditArgs { ea_file_path : str; ea_old : str; ea_new : str; ea_replace_all : bool }.
(** A string at each occurrence of another, from the left and not overlapping, as
    [str::matches] and [str::replace] find them. *)
Fixpoint split_str (fuel : nat) (pat s : str) : list str :=
  match fuel with
  | O => [s]
  | S fuel => match split_once pat s with None => [s] | Some (a, b) => a :: split_str fuel pat b end
  end.
Definition split_on (pat s : str) : list str := split_str (length s) pat s.
Definition matches_count (pat s : str) : nat := length (split_on pat s) - 1.
Definition replace_all_of (pat with_ s : str) : str := join with_ (split_on pat s).
Definition replace_first_of (pat with_ s : str) : str :=
  match split_once pat s with None => s | Some (a, b) => a ++ with_ ++ b end.
Definition EMPTY_OLD : str := lit "old_string must not be empty; use Write to create a file".
Definition SAME : str := lit "old_string and new_string are identical; there is nothing to change".
Definition replace (content : str) (a : EditArgs) : result ToolError (str * nat) :=
  if bool_decide (ea_old a = []) then Err (TeInvalidInput EMPTY_OLD)
  else if bool_decide (ea_old a = ea_new a) then Err (TeInvalidInput SAME)
  else
    let count := matches_count (ea_old a) content in
    if count =? 0 then Err (TeFailed (lit "old_string was not found in " ++ ea_file_path a))
    else if (1 <? count) && negb (ea_replace_all a) then
      Err (TeFailed (lit "old_string appears " ++ show_N (N.of_nat count) ++ lit " times in " ++ ea_file_path a
                     ++ lit "; add surrounding lines to make it unique, or set replace_all"))
    else Ok (if ea_replace_all a then replace_all_of (ea_old a) (ea_new a) content
             else replace_first_of (ea_old a) (ea_new a) content, count).
Definition edit_summary (path : str) (count : nat) : str :=
  lit "Edited " ++ path ++ lit ": " ++ show_N (N.of_nat count) ++ lit " replacement" ++ if count =? 1 then [] else lit "s".

(** ** write.rs *)

Record WriteArgs := mkWriteArgs { wa_file_path : str; wa_content : str }.
Definition existing (path : str) (read : result IoError str) : result ToolError (option str) :=
  match read with
  | Ok content => Ok (Some content)
  | Err e =>
      if io_missing e then Ok None
      else Err (TeFailed (lit "refusing to overwrite " ++ path ++ lit ": cannot read the existing file (" ++ io_said e ++ lit ")"))
  end.

(** ** read.rs *)

Definition MAX_BYTES : N := 8 * 1024 * 1024.
Record ReadArgs := mkReadArgs { ra_file_path : str; ra_offset : option nat; ra_limit : option nat; ra_original : option bool }.
Definition pad_left (width : nat) (s : str) : str := replicate (width - length s) (chr " ") ++ s.
Definition numbered (line : str) (n : nat) : str := pad_left 6 (show_N (N.of_nat n)) ++ [9%N] ++ line.
Definition window (text : str) (offset limit : option nat) : list (nat * str) :=
  let first := Nat.max (default 1 offset) 1 in
  let rest := drop (first - 1) (imap (fun i line => (S i, line)) (lines text)) in
  match limit with Some n => take n rest | None => rest end.
Definition render (w : list (nat * str)) : str * nat :=
  let all := (fun nl => numbered nl.2 nl.1) <$> w in joined all (length all) (lit "lines").
Definition read_display (text : str) (w : list (nat * str)) : View :=
  let number n := VNumber (PosInt n) in
  ViewOther (VObject ([(lit "kind", VString (lit "Code")); (lit "source", VString (join newline w.*2))]
    ++ match head w ≫= fun nl => u32_of nl.1 with Some n => [(lit "start", number n)] | None => [] end
    ++ match u32_of (length (lines text)) with Some n => [(lit "of", number n)] | None => [] end)).

(** ** The calls *)

Section tools.
(** The unified diff of a file's two texts, and what a path that names a picture is
    answered with. *)
Context (unified : str -> str -> str -> str) (picture : bool -> str -> bytes -> option (result ToolError ToolOutput)).

Definition edit_planned (d : Disk) (cwd : str) (a : EditArgs) : option (str * str * str) :=
  let path := resolve (ea_file_path a) cwd in
  match read_to_string d path with
  | Err _ => None
  | Ok content => match replace content a with Ok (updated, _) => Some (path, content, updated) | Err _ => None end
  end.
Definition edit_preview (d : Disk) (cwd : str) (a : EditArgs) : option str :=
  (fun p => unified p.1.1 p.1.2 p.2) <$> edit_planned d cwd a.
Definition cannot (what path why : str) : ToolError := TeFailed (lit "cannot " ++ what ++ lit " " ++ path ++ lit ": " ++ why).
Definition edit_call (d : Disk) (cwd : str) (a : EditArgs) : result ToolError ToolOutput * Disk :=
  let path := resolve (ea_file_path a) cwd in
  match read_to_string d path with
  | Err e => (Err (cannot (lit "read") path (io_said e)), d)
  | Ok content =>
      match replace content a with
      | Err e => (Err e, d)
      | Ok (updated, count) =>
          match write d path updated with
          | Err why => (Err (cannot (lit "write") path why), d)
          | Ok d => (Ok (mkToolOutput [PText (edit_summary path count)] false (Some (ViewDiff (unified path content updated))) None), d)
          end
      end
  end.

Definition write_preview (d : Disk) (cwd : str) (a : WriteArgs) : option str :=
  let path := resolve (wa_file_path a) cwd in
  match existing path (read_to_string d path) with Ok (Some old) => Some (unified path old (wa_content a)) | _ => None end.
Definition write_call (d : Disk) (cwd : str) (a : WriteArgs) : result ToolError ToolOutput * Disk :=
  let path := resolve (wa_file_path a) cwd in
  match existing path (read_to_string d path) with
  | Err e => (Err e, d)
  | Ok old =>
      match match path_parent path with
            | Some parent => if bool_decide (parent = []) then Ok d else match create_dir_all d parent with Ok d => Ok d | Err why => Err (parent, why) end
            | None => Ok d
            end with
      | Err (parent, why) => (Err (cannot (lit "create") parent why), d)
      | Ok d =>
          match write d path (wa_content a) with
          | Err why => (Err (cannot (lit "write") path why), d)
          | Ok d =>
              (Ok (mkToolOutput [PText (lit "Wrote " ++ show_N (N.of_nat (length (utf8 (wa_content a)))) ++ lit " bytes to " ++ path)] false
                     (Some (ViewDiff (unified path (default [] old) (wa_content a))))
                     (match old with None => Some (created (wa_content a)) | Some _ => None end)), d)
          end
      end
  end.

Definition too_large (len : nat) : str :=
  lit "file too large: " ++ show_N (N.of_nat len) ++ lit " bytes, the limit is " ++ lit "8388608".
Definition read_call (d : Disk) (cwd : str) (a : ReadArgs) : result ToolError ToolOutput :=
  let path := resolve (ra_file_path a) cwd in
  match dk_nodes d !! path with
  | None => Err (TeFailed (lit "file not found: " ++ path))
  | Some Dir => Err (TeFailed (lit "is a directory: " ++ path))
  | Some (Sealed why) => Err (TeFailed (lit "reading " ++ path ++ lit ": " ++ why))
  | Some (File content) =>
      if (MAX_BYTES <? N.of_nat (length content))%N then Err (TeFailed (too_large (length content)))
      else match picture (default false (ra_original a)) path content with
           | Some answer => answer
           | None =>
               match from_utf8 content with
               | (text, Whole, _) =>
                   let w := window text (ra_offset a) (ra_limit a) in
                   let '(rendered, kept) := render w in
                   Ok (mkToolOutput [PText rendered] false (Some (read_display text (take kept w))) (Some (upshot_read text)))
               | _ => Err (TeFailed (lit "not valid UTF-8: " ++ path))
               end
           end
  end.
End tools.
