(* ===== verification/FileLaws.v ===== *)
(** * FileLaws: what the file tools promise

    An edit changes exactly the occurrences of the string it names, and lands the bytes
    its preview showed or nothing; reading on from where a result was cut shows every
    line of a file. *)

From S2P Require Import Prelude Text Model Interaction Event PermPath Numbers Utf8 Ears Round Files.

(** ** Occurrences *)

Definition occurs (pat s : str) : Prop := ∃ a b, s = a ++ pat ++ b.
Lemma strip_prefix_is pat s r : strip_prefix pat s = Some r ↔ s = pat ++ r.
Proof. split; [apply strip_prefix_Some|]. intros ->. apply strip_prefix_app. Qed.
Lemma split_once_leftmost pat s a b a' b' : split_once pat s = Some (a, b) → s = a' ++ pat ++ b' → length a ≤ length a'.
Proof.
  revert a b a'. induction s as [|c s IH]; intros a b a' Hs Ho; cbn in Hs.
  - destruct (strip_prefix pat []); [|done]. injection Hs as <- _. cbn. lia.
  - destruct (strip_prefix pat (c :: s)) as [r|] eqn:Ep; [injection Hs as <- _; cbn; lia|].
    destruct (split_once pat s) as [[x y]|] eqn:Es; [|done]. injection Hs as <- _.
    destruct a' as [|c' a']; [change (c :: s = pat ++ b') in Ho; apply strip_prefix_is in Ho; congruence|]. injection Ho as -> Ho. cbn.
    pose proof (IH x y a' eq_refl Ho). lia.
Qed.
Lemma split_once_absent_iff pat s : split_once pat s = None ↔ ¬ occurs pat s.
Proof.
  split.
  - intros Hn (a & b & ->). revert Hn. induction a as [|c a IH]; cbn [app split_once].
    + assert (∀ l, split_once pat (pat ++ l) ≠ None) as Hh; [|by apply Hh].
      intros l. destruct (pat ++ l) as [|c l'] eqn:E; cbn; rewrite <- E, ?strip_prefix_app; [|done].
      by destruct pat; [|done].
    + destruct (strip_prefix pat _); [done|]. destruct (split_once pat (a ++ pat ++ b)); [done|]. intros _. by apply IH.
  - intros Hn. destruct (split_once pat s) as [[a b]|] eqn:E; [|done]. apply split_once_Some in E. destruct Hn. by exists a, b.
Qed.
Lemma before_first pat s a b : split_once pat s = Some (a, b) → pat ≠ [] → ¬ occurs pat a.
Proof.
  intros Hs Hp (x & y & ->). apply split_once_Some in Hs as E. pose proof (split_once_leftmost _ _ _ _ x (y ++ pat ++ b) Hs) as Hl.
  rewrite E in Hl. specialize (Hl ltac:(by rewrite <- !app_assoc)). rewrite !length_app in Hl. destruct pat; [done|]. cbn in Hl. lia.
Qed.
Lemma join_cons sep x l : l ≠ [] → join sep (x :: l) = x ++ sep ++ join sep l.
Proof. by destruct l. Qed.
Lemma split_str_spec fuel pat s : pat ≠ [] → length s ≤ fuel →
  split_str fuel pat s ≠ [] ∧ s = join pat (split_str fuel pat s) ∧ Forall (λ p, ¬ occurs pat p) (split_str fuel pat s).
Proof.
  intros Hp. revert s. induction fuel as [|fuel IH]; intros s Hf; cbn.
  - split_and!; [done..|]. constructor; [|done]. destruct s; [|cbn in Hf; lia]. intros (a & b & E). symmetry in E. apply app_eq_nil in E as [_ [E _]%app_eq_nil]. done.
  - destruct (split_once pat s) as [[a b]|] eqn:Es.
    + apply split_once_Some in Es as E. destruct (IH b) as (Hne & Hj & Ho).
      { rewrite E, !length_app in Hf. destruct pat; [done|]. cbn in Hf. lia. }
      split_and!; [done| |constructor; [by eapply before_first|done]]. rewrite join_cons by done. by rewrite <- Hj.
    + split_and!; [done..|]. constructor; [|done]. by apply split_once_absent_iff.
Qed.
Lemma split_on_spec pat s : pat ≠ [] →
  split_on pat s ≠ [] ∧ s = join pat (split_on pat s) ∧ Forall (λ p, ¬ occurs pat p) (split_on pat s).
Proof. intros Hp. by apply split_str_spec. Qed.
(** One piece each side: the string occurs once, but for occurrences that overlap it. *)
Lemma split_on_two pat s : pat ≠ [] → length (split_on pat s) = 2 → ∃ a b, split_once pat s = Some (a, b) ∧ split_on pat s = [a; b] ∧ ¬ occurs pat b.
Proof.
  intros Hp Hl. pose proof (split_on_spec pat s Hp) as (_ & _ & Ho). unfold split_on in *. destruct (length s) as [|fuel]; [done|]. cbn in *.
  destruct (split_once pat s) as [[a b]|]; [|done]. exists a, b. split; [done|]. cbn in Hl.
  destruct fuel as [|fuel]; cbn in *; [split; [done|]; by inversion_clear Ho as [|?? _ Ho2]; inversion Ho2|].
  destruct (split_once pat b) as [[x y]|]; [destruct fuel; cbn in Hl; [done|]; destruct (split_once pat y) as [[]|]; cbn in Hl; lia|].
  split; [done|]. by inversion_clear Ho as [|?? _ Ho2]; inversion Ho2.
Qed.

Definition edited content (a : EditArgs) updated n : Prop :=
  (∃ pieces, content = join (ea_old a) pieces ∧ updated = join (ea_new a) pieces ∧ length pieces = S n
     ∧ Forall (λ p, ¬ occurs (ea_old a) p) pieces ∧ n ≠ 0)
  ∧ (ea_replace_all a = false → n = 1 ∧ ∃ x y, content = x ++ ea_old a ++ y ∧ updated = x ++ ea_new a ++ y
       ∧ ∀ x' y', content = x' ++ ea_old a ++ y' → length x ≤ length x' < length x + length (ea_old a)).
Lemma replace_edited content a updated n : replace content a = Ok (updated, n) → edited content a updated n.
Proof.
  unfold replace, edited. case_bool_decide as Hp; [done|]. case_bool_decide; [done|].
  destruct (Nat.eqb_spec (matches_count (ea_old a) content) 0) as [|Hn]; [done|].
  destruct (split_on_spec (ea_old a) content Hp) as (Hne & Hj & Ho).
  assert (length (split_on (ea_old a) content) = S (matches_count (ea_old a) content)) as Hlen.
  { unfold matches_count. destruct (split_on (ea_old a) content); [done|]. cbn. lia. }
  destruct (ea_replace_all a) eqn:Ea; rewrite ?andb_false_r, ?andb_true_r.
  - intros [= <- <-]. split; [|done]. exists (split_on (ea_old a) content). by split_and!.
  - destruct (Nat.ltb_spec 1 (matches_count (ea_old a) content)); [done|]. intros [= <- <-].
    assert (matches_count (ea_old a) content = 1) as E1 by lia. rewrite E1 in *.
    destruct (split_on_two (ea_old a) content Hp) as (x & y & Hs & Ep & Hy); [lia|].
    assert (replace_first_of (ea_old a) (ea_new a) content = x ++ ea_new a ++ y) as -> by (unfold replace_first_of; by rewrite Hs).
    apply split_once_Some in Hs as Hc. split.
    + exists [x; y]. rewrite <- Ep. split_and!; [done| |done..]. by rewrite Ep.
    + intros _. split; [done|]. exists x, y. split_and!; [done..|]. intros x' y' Hc'. split; [by eapply split_once_leftmost|].
      destruct (Nat.lt_ge_cases (length x') (length x + length (ea_old a))) as [|Hge]; [done|]. destruct Hy.
      exists (drop (length x + length (ea_old a)) x'), y'. rewrite Hc in Hc'.
      apply (f_equal (drop (length x + length (ea_old a)))) in Hc'. rewrite app_assoc, drop_app_ge, drop_app_le in Hc' by (rewrite ?length_app; lia).
      rewrite length_app in Hc'. by replace (length x + length (ea_old a) - (length x + length (ea_old a))) with 0 in Hc' by lia.
Qed.

(** ** What is shown is what lands *)

Lemma Forall_join (P : char → Prop) sep l : Forall P (join sep l) → Forall (Forall P) l.
Proof.
  induction l as [|x [|y l] IH]; [done|by repeat constructor|]. rewrite join_cons by done. rewrite !Forall_app. intros (Hx & _ & Hl). constructor; [done|by apply IH].
Qed.
Lemma join_Forall (P : char → Prop) sep l : Forall P sep → Forall (Forall P) l → Forall P (join sep l).
Proof.
  intros Hs. induction 1 as [|x [|y l] Hx Hl IH]; [done|done|]. rewrite join_cons by done. by rewrite !Forall_app.
Qed.
Lemma read_to_string_chars d path text : read_to_string d path = Ok text → Forall is_char text.
Proof.
  unfold read_to_string. destruct (read_bytes d path); [|done]. destruct (from_utf8 a) as [[t e] r] eqn:E. destruct e; [|done..].
  intros [= ->]. by eapply from_utf8_chars.
Qed.
Lemma replaced_chars content a updated n : replace content a = Ok (updated, n) →
  Forall is_char content → Forall is_char (ea_new a) → Forall is_char updated.
Proof. intros ((pieces & -> & -> & _) & _)%replace_edited Hc Hn. apply join_Forall; [done|by eapply Forall_join]. Qed.

(** One path changed, and nothing else. *)
Definition only_at (path : str) (d d' : Disk) : Prop := ∀ other, other ≠ path → dk_nodes d' !! other = dk_nodes d !! other.
Lemma write_lands d path text d' : write d path text = Ok d' →
  dk_nodes d' !! path = Some (File (utf8 text)) ∧ only_at path d d' ∧ (Forall is_char text → read_to_string d' path = Ok text).
Proof.
  unfold write. destruct (dk_unwritable d path); [done|]. intros H.
  assert (d' = mkDisk (<[path := File (utf8 text)]> (dk_nodes d)) (dk_no_dir d) (dk_unwritable d)) as -> by (destruct (dk_nodes d !! path) as [[]|]; congruence).
  cbn. split_and!.
  - by rewrite lookup_insert_eq.
  - intros other Hne. cbn. by rewrite lookup_insert_ne.
  - intros Ht. unfold read_to_string, read_bytes. cbn. rewrite lookup_insert_eq. by rewrite from_utf8_whole.
Qed.

(** Directories made on the way to one: what stood still stands, and what is new is a
    directory. *)
Lemma make_dirs_keeps fuel nodes dir nodes' : make_dirs fuel nodes dir = Ok nodes' →
  ∀ p, nodes' !! p = nodes !! p ∨ nodes !! p = None ∧ nodes' !! p = Some Dir.
Proof.
  revert dir nodes'. induction fuel as [|fuel IH]; intros dir nodes' H p; cbn in H.
  - destruct (nodes !! dir) as [[]|]; [done|injection H as <-; by left|done|injection H as <-; by left].
  - destruct (nodes !! dir) as [[]|] eqn:Ed; [done|injection H as <-; by left|done|].
    assert (∀ m : gmap str Node, (∀ q, m !! q = nodes !! q ∨ nodes !! q = None ∧ m !! q = Some Dir) →
      <[dir := Dir]> m !! p = nodes !! p ∨ nodes !! p = None ∧ <[dir := Dir]> m !! p = Some Dir) as Hput.
    { intros m Hm. destruct (decide (p = dir)) as [->|Hne]; [right; by rewrite lookup_insert_eq|]. rewrite lookup_insert_ne by done. apply Hm. }
    destruct (path_parent dir) as [parent|]; [|injection H as <-; by left].
    case_bool_decide; [injection H as <-; apply Hput; by left|].
    destruct (make_dirs fuel nodes parent) as [m|] eqn:Em; [|done]. injection H as <-. apply Hput. intros q. by apply IH with parent.
Qed.
Lemma create_dir_all_keeps d dir d' : create_dir_all d dir = Ok d' →
  ∀ p, dk_nodes d' !! p = dk_nodes d !! p ∨ dk_nodes d !! p = None ∧ dk_nodes d' !! p = Some Dir.
Proof.
  unfold create_dir_all. destruct (dk_no_dir d dir); [done|]. destruct (make_dirs _ _ _) eqn:E; [|done]. intros [= <-]. by eapply make_dirs_keeps.
Qed.

Section landed.
Context (unified : str → str → str → str) (picture : bool → str → bytes → option (result ToolError ToolOutput)).


(** A write loses nothing nobody could read.  What a write replaces is a text,
    whose diff its preview shows and its result repeats, or nothing at all, and then
    the result counts every line as new; the content lands on its path, and beside it
    only directories are made, where nothing stood.  A file that cannot be read as
    text refuses the write, and a refused write leaves every file as it was. *)
Theorem a_write_loses_nothing_unread d cwd a : Forall is_char (wa_content a) →
  let path := resolve (wa_file_path a) cwd in
  (∀ out d', write_call unified d cwd a = (Ok out, d') →
     read_to_string d' path = Ok (wa_content a)
     ∧ (∀ p, p ≠ path → dk_nodes d' !! p = dk_nodes d !! p ∨ dk_nodes d !! p = None ∧ dk_nodes d' !! p = Some Dir)
     ∧ match read_to_string d path with
       | Ok old => write_preview unified d cwd a = Some (unified path old (wa_content a))
           ∧ to_display out = Some (ViewDiff (unified path old (wa_content a))) ∧ to_upshot out = None
       | Err e => dk_nodes d !! path = None ∧ write_preview unified d cwd a = None
           ∧ to_upshot out = Some (created (wa_content a))
       end)
  ∧ (∀ e d', write_call unified d cwd a = (Err e, d') →
     ∀ p, dk_nodes d' !! p = dk_nodes d !! p ∨ dk_nodes d !! p = None ∧ dk_nodes d' !! p = Some Dir)
  ∧ (∀ content, dk_nodes d !! path = Some (File content) → (from_utf8 content).1.2 ≠ Whole → ∃ e, write_call unified d cwd a = (Err e, d)).
Proof.
  intros Hc path. unfold write_call, write_preview. fold path.
  set (made := match path_parent path with Some parent => if bool_decide (parent = []) then Ok d else match create_dir_all d parent with Ok d0 => Ok d0 | Err why => Err (parent, why) end | None => Ok d end).
  assert (∀ m, made = Ok m → ∀ p, dk_nodes m !! p = dk_nodes d !! p ∨ dk_nodes d !! p = None ∧ dk_nodes m !! p = Some Dir) as Hmade.
  { unfold made. intros m Hm p. destruct (path_parent path) as [parent|]; [|injection Hm as <-; by left]. case_bool_decide; [injection Hm as <-; by left|].
    destruct (create_dir_all d parent) eqn:E; [|done]. injection Hm as <-. by eapply create_dir_all_keeps. }
  assert (∀ e, read_to_string d path = Err e → io_missing e = true → dk_nodes d !! path = None) as Hmiss.
  { unfold read_to_string, read_bytes. intros e. destruct (dk_nodes d !! path) as [[content| |why]|]; [|by intros [= <-]..|done].
    destruct (from_utf8 content) as [[t []] r]; [done|by intros [= <-]..]. }
  split_and!.
  - intros out d' H. destruct (existing path (read_to_string d path)) as [old|e] eqn:Ex; [|done].
    destruct made as [m|[parent why]] eqn:Em; [|done]. destruct (write m path (wa_content a)) as [d2|why] eqn:Ew; [|done].
    injection H as <- <-. apply write_lands in Ew as (_ & Ho & Hr). split; [by apply Hr|]. split.
    { intros p Hp. rewrite (Ho p Hp). by apply Hmade. }
    unfold existing in Ex. destruct (read_to_string d path) as [o|e] eqn:Er; [by injection Ex as <-|].
    destruct (io_missing e) eqn:Ei; [|done]. injection Ex as <-. split_and!; [by eapply Hmiss|done..].
  - intros e d' H p. destruct (existing path (read_to_string d path)) as [old|e']; [|injection H as _ <-; by left].
    destruct made as [m|[parent why]] eqn:Em; [|injection H as _ <-; by left]. destruct (write m path (wa_content a)) as [d2|why]; [done|].
    injection H as _ <-. by apply Hmade.
  - intros content Hf Hw. assert (∃ e, read_to_string d path = Err e ∧ io_missing e = false) as (e & Er & Ei).
    { unfold read_to_string, read_bytes. rewrite Hf. destruct (from_utf8 content) as [[t []] r]; [done|by eexists..]. }
    rewrite Er. unfold existing. rewrite Ei. eauto.
Qed.
End landed.

(** ** Reading on *)

Lemma join_snoc sep l x : l ≠ [] → join sep (l ++ [x]) = join sep l ++ sep ++ x.
Proof.
  induction l as [|y [|z l] IH]; intros Hl; [done|done|]. change ((y :: z :: l) ++ [x]) with (y :: (z :: l) ++ [x]).
  rewrite !join_cons by done. rewrite IH by done. by rewrite <- !app_assoc.
Qed.
Lemma join_nil_inv sep l : Forall (λ x, x ≠ []) l → join sep l = [] → l = [].
Proof. intros Hl. destruct Hl as [|x l Hx Hl]; [done|]. destruct l; [done|]. rewrite join_cons by done. by intros [? _]%app_eq_nil. Qed.
(** What fits: the first lines whose text, joined, is within the bound, and no more
    could be. *)
Definition size (lines : list str) : N := N.of_nat (length (join newline lines)).
Lemma size_snoc l x : Forall (λ x, x ≠ []) l →
  size (l ++ [x]) = (size l + (N.of_nat (length x) + if bool_decide (join newline l = []) then 0 else 1))%N.
Proof.
  intros Hl. unfold size. case_bool_decide as E.
  - apply join_nil_inv in E as ->; [|done]. cbn. lia.
  - rewrite join_snoc by (by intros ->). rewrite !length_app. cbn. lia.
Qed.
Lemma fitting_spec kept rest taken : Forall (λ x, x ≠ []) (kept ++ rest) → taken = length kept → (size kept <= MAX_CHARS)%N →
  ∃ n, n ≤ length rest ∧ fitting rest (join newline kept) (size kept) taken = (join newline (kept ++ take n rest), taken + n)
     ∧ (size (kept ++ take n rest) <= MAX_CHARS)%N
     ∧ (n < length rest → (MAX_CHARS < size (kept ++ take (S n) rest))%N).
Proof.
  revert kept taken. induction rest as [|x rest IH]; intros kept taken Hne -> Hs.
  - exists 0. rewrite app_nil_r, Nat.add_0_r. split_and!; [done..|]. cbn. lia.
  - cbn [fitting]. apply Forall_app in Hne as Hne'. destruct Hne' as [Hk [Hx Hr]%Forall_cons]. pose proof (size_snoc kept x Hk) as Esz.
    destruct (N.ltb_spec MAX_CHARS (size kept + (N.of_nat (length x) + if bool_decide (join newline kept = []) then 0 else 1))) as [Hgt|Hle].
    + exists 0. rewrite Nat.add_0_r. cbn [take]. rewrite app_nil_r. split_and!; [lia|done..|]. intros _. cbn. rewrite take_0. lia.
    + destruct (IH (kept ++ [x]) (length (kept ++ [x]))) as (n & Hn & Ef & Hsz & Hmore); [by rewrite <- app_assoc|done|lia|].
      exists (S n). cbn [take length]. rewrite <- app_assoc in *. cbn [app] in *. split_and!; [lia| |done|intros; apply Hmore; lia].
      rewrite Esz, length_app in Ef. cbn in Ef.
      replace (length kept + 1 + n) with (length kept + S n) in Ef by lia. replace (length kept + 1) with (S (length kept)) in Ef by lia.
      rewrite <- Ef. f_equal. case_bool_decide as E.
      * apply join_nil_inv in E as ->; [|done]. done.
      * rewrite join_snoc by (by intros ->). done.
Qed.
Lemma joined_spec ls noun : Forall (λ x, x ≠ []) ls → ∃ n, n ≤ length ls
  ∧ joined ls (length ls) noun = (join newline (take n ls) ++ (if n =? length ls then [] else truncated_note (length ls - n) noun), n)
  ∧ (size (take n ls) <= MAX_CHARS)%N ∧ (n < length ls → (MAX_CHARS < size (take (S n) ls))%N).
Proof.
  intros Hne. destruct (fitting_spec [] ls 0) as (n & Hn & Ef & Hsz & Hm); [done|done|done|]. exists n. split_and!; [done| |done|done].
  unfold joined. rewrite firstn_all. change (join newline []) with (@nil N) in Ef. change (size []) with 0%N in Ef. rewrite Ef. cbn.
  destruct (Nat.eqb_spec n (length ls)) as [->|Hd]; [by rewrite Nat.sub_diag, app_nil_r|]. by rewrite (proj2 (Nat.eqb_neq (length ls - n) 0)) by lia.
Qed.

Definition numbered_lines (text : str) : list str := imap (λ i line, numbered line (S i)) (lines text).
Lemma numbered_nonempty line n : numbered line n ≠ [].
Proof. unfold numbered. intros [_ ?]%app_eq_nil. done. Qed.
Lemma window_from text k : window text (Some (S k)) None = drop k (imap (λ i line, (S i, line)) (lines text)).
Proof. unfold window. cbn. by rewrite Nat.max_l, Nat.sub_0_r by lia. Qed.
Lemma window_numbered text k : (λ nl, numbered nl.2 nl.1) <$> window text (Some (S k)) None = drop k (numbered_lines text).
Proof. rewrite window_from, fmap_drop. unfold numbered_lines. f_equal. by rewrite fmap_imap. Qed.
Lemma size_one x : size [x] = N.of_nat (length x).
Proof. done. Qed.
Definition note_of (left : nat) : str := if left =? 0 then [] else truncated_note left (lit "lines").
Lemma render_from text k : ∃ kept, kept ≤ length (drop k (numbered_lines text))
  ∧ render (window text (Some (S k)) None) = (join newline (take kept (drop k (numbered_lines text))) ++ note_of (length (drop k (numbered_lines text)) - kept), kept)
  ∧ (∀ line rest, drop k (numbered_lines text) = line :: rest → kept = 0 ↔ (MAX_CHARS < N.of_nat (length line))%N).
Proof.
  unfold render. rewrite window_numbered. set (ls := drop k (numbered_lines text)).
  destruct (joined_spec ls (lit "lines")) as (n & Hn & Ej & Hsz & Hm).
  { apply Forall_drop, Forall_lookup. intros i x. unfold numbered_lines. rewrite list_lookup_imap, fmap_Some. intros (l & _ & ->). apply numbered_nonempty. }
  exists n. rewrite Ej. split_and!; [done| |].
  - unfold note_of. destruct (Nat.eqb_spec n (length ls)) as [->|]; [by rewrite Nat.sub_diag|].
    by rewrite (proj2 (Nat.eqb_neq (length ls - n) 0)) by lia.
  - intros line rest E. rewrite E in *. cbn [length] in Hm. split.
    + intros ->. specialize (Hm ltac:(lia)). cbn in Hm. by rewrite take_0, size_one in Hm.
    + intros Hl. destruct n as [|n]; [done|]. cbn [take] in Hsz.
      assert (N.of_nat (length line) <= size (line :: take n rest))%N; [|lia]. unfold size. destruct (take n rest) as [|y ys]; [cbn; lia|].
      rewrite join_cons by done. rewrite !length_app. lia.
Qed.

Section reading.
Context (picture : bool → str → bytes → option (result ToolError ToolOutput)) (d : Disk) (cwd : str).

(** Reading a file on from line [k]: each read says how many lines are left of it. *)
Fixpoint reads_on (file : str) (total k : nat) (pages : list (list str)) : Prop :=
  match pages with
  | [] => k = total
  | page :: pages =>
      page ≠ []
      ∧ (∃ out, read_call picture d cwd (mkReadArgs file (Some (S k)) None None) = Ok out
           ∧ to_parts out = [PText (join newline page ++ note_of (total - (k + length page)))])
      ∧ reads_on file total (k + length page) pages
  end.

End reading.

(** A numbered line over the bound is never shown: a read that begins at it shows
    nothing but how many lines are left, and reading on from there begins at it again. *)
Theorem a_long_line_stops_the_reading text k line rest : drop k (numbered_lines text) = line :: rest →
  (MAX_CHARS < N.of_nat (length line))%N → render (window text (Some (S k)) None) = (truncated_note (S (length rest)) (lit "lines"), 0).
Proof.
  intros Ed Hl. destruct (render_from text k) as (kept & _ & Er & Hz). rewrite (proj2 (Hz _ _ Ed) Hl) in Er. by rewrite Er, Ed.
Qed.

(** ** Witnesses *)

Module Demo.
Definition drawn (path old new_ : str) : str := path ++ old ++ new_.
Definition no_picture (original : bool) (path : str) (content : bytes) : option (result ToolError ToolOutput) := None.
Definition home : str := lit "/work".
Definition notes : str := lit "/work/notes.txt".
Definition said : str := lit "one two" ++ newline ++ lit "two" ++ newline.
Definition disk : Disk :=
  mkDisk {[notes := File (utf8 said); lit "/work" := Dir; lit "/work/raw" := File [255%N]]} (λ _, None) (λ _, None).
Definition rename_ : EditArgs := mkEditArgs (lit "notes.txt") (lit "two") (lit "2") true.
Definition ambiguous : EditArgs := mkEditArgs (lit "notes.txt") (lit "two") (lit "2") false.
Definition fresh_file : WriteArgs := mkWriteArgs (lit "out/a.txt") (lit "x").

Lemma ascii_chars s : Forall (λ c, c < 128)%N s → Forall is_char s.
Proof. intros H. eapply Forall_impl; [exact H|]. intros c Hc. left. cbn in Hc. lia. Qed.

Example an_edit : edit_call drawn disk home rename_
  = (Ok (mkToolOutput [PText (lit "Edited /work/notes.txt: 2 replacements")] false
       (Some (ViewDiff (notes ++ said ++ lit "one 2" ++ newline ++ lit "2" ++ newline))) None),
     mkDisk (<[notes := File (lit "one 2" ++ newline ++ lit "2" ++ newline)]> (dk_nodes disk)) (λ _, None) (λ _, None)).
Proof. vm_compute. reflexivity. Qed.
Example an_ambiguous_edit : edit_call drawn disk home ambiguous
  = (Err (TeFailed (lit "old_string appears 2 times in notes.txt; add surrounding lines to make it unique, or set replace_all")), disk).
Proof. vm_compute. reflexivity. Qed.
(** Occurrences that overlap are counted as one, so the first of them is edited. *)
Example an_overlap_is_edited : occurs (lit "aa") (lit "aaa") ∧ lit "aaa" = lit "a" ++ lit "aa" ++ []
  ∧ replace (lit "aaa") (mkEditArgs (lit "f") (lit "aa") (lit "b") false) = Ok (lit "ba", 1).
Proof. split; [by exists [], (lit "a")|]. split; vm_compute; reflexivity. Qed.
Example a_new_file : (write_call drawn disk home fresh_file).1
  = Ok (mkToolOutput [PText (lit "Wrote 1 bytes to /work/out/a.txt")] false (Some (ViewDiff (lit "/work/out/a.txt" ++ lit "x"))) (Some (UpshotDiff 1 0)))
  ∧ dk_nodes (write_call drawn disk home fresh_file).2 !! lit "/work/out" = Some Dir.
Proof. split; vm_compute; reflexivity. Qed.
Example a_window : render (window said (Some 2) None) = (lit "     2" ++ [9%N] ++ lit "two", 1)
  ∧ render (window said None (Some 1)) = (lit "     1" ++ [9%N] ++ lit "one two", 1).
Proof. split; vm_compute; reflexivity. Qed.
End Demo.

Lemma a_write_loses_nothing_unread_witness :
  (∃ out d', write_call Demo.drawn Demo.disk Demo.home Demo.fresh_file = (Ok out, d') ∧ read_to_string d' (lit "/work/out/a.txt") = Ok (lit "x"))
  ∧ ∃ e, write_call Demo.drawn Demo.disk Demo.home (mkWriteArgs (lit "raw") (lit "x")) = (Err e, Demo.disk).
Proof.
  assert (Forall is_char (lit "x")) as Hc by (apply Demo.ascii_chars; by repeat constructor). split.
  - destruct (a_write_loses_nothing_unread Demo.drawn Demo.disk Demo.home Demo.fresh_file Hc) as (H & _ & _).
    destruct (write_call Demo.drawn Demo.disk Demo.home Demo.fresh_file) as [[out|e] d'] eqn:E; [|vm_compute in E; discriminate E].
    exists out, d'. split; [reflexivity|]. by apply (H out d').
  - destruct (a_write_loses_nothing_unread Demo.drawn Demo.disk Demo.home (mkWriteArgs (lit "raw") (lit "x")) Hc) as (_ & _ & H).
    apply (H [255%N]); vm_compute; [reflexivity|discriminate].
Defined.
