(* ===== verification/AskUser.v ===== *)
(** * AskUser: the questions a model puts to a person (bingo-tool-fs/src/ask.rs)

    [AskUserQuestion]: a set of questions checked whole before the person is
    interrupted, the one interaction the kernel opens for them ([Interaction], [Asks]),
    and the answers read back against the questions they belong to.

    How [{:?}] prints a string and an answer is a parameter, and so is what the kernel
    answers the ask with. *)

From S2P Require Import Prelude Text Model Interaction Event Transcript State Tree Recovery Queue Gate Commands Store Hub Asks Ears Round.

Record AskOption := mkAskOption { ao_label : str; ao_description : option str; ao_preview : option str }.
Record AskQuestion := mkAskQuestion { aq_question : str; aq_header : str; aq_options : list AskOption; aq_multi_select : bool }.
Abbreviation AskArgs := (list AskQuestion).

Definition MAX_QUESTIONS : nat := 4.
Definition MIN_OPTIONS : nat := 2.
Definition MAX_OPTIONS : nat := 4.

Section asking.
Context (debug_str : str → str) (debug_answer : Answer → str).

(** ** What is refused before anyone is asked *)

Definition refused (message : str) : result ToolError () := Err (TeInvalidInput message).
Fixpoint validate_labels (multi : bool) (seen : list str) (options : list AskOption) : result ToolError () :=
  match options with
  | [] => Ok tt
  | o :: options =>
      if bool_decide (trim (ao_label o) ∈ seen) then refused (lit "the option " ++ debug_str (ao_label o) ++ lit " is offered twice")
      else if option_is_some (ao_preview o) && multi
      then refused (lit "the option " ++ debug_str (ao_label o) ++ lit " carries a preview, which a multi-select question cannot show")
      else validate_labels multi (trim (ao_label o) :: seen) options
  end.
Definition validate_options (q : AskQuestion) : result ToolError () :=
  let count := length (aq_options q) in
  if negb ((MIN_OPTIONS <=? count) && (count <=? MAX_OPTIONS))
  then refused (debug_str (aq_question q) ++ lit " needs 2 to 4 options, not " ++ show_N (N.of_nat count))
  else validate_labels (aq_multi_select q) [] (aq_options q).
Fixpoint validate_questions (seen : list str) (questions : list AskQuestion) : result ToolError () :=
  match questions with
  | [] => Ok tt
  | q :: questions =>
      if bool_decide (trim (aq_question q) ∈ seen) then refused (lit "the question " ++ debug_str (aq_question q) ++ lit " is asked twice")
      else let* _ := validate_options q in validate_questions (trim (aq_question q) :: seen) questions
  end.
Definition validate (args : AskArgs) : result ToolError () :=
  let count := length args in
  if negb ((1 <=? count) && (count <=? MAX_QUESTIONS)) then refused (lit "ask 1 to 4 questions at a time, not " ++ show_N (N.of_nat count))
  else validate_questions [] args.

(** ** The interaction *)

Definition index_id (index : nat) : str := show_N (N.of_nat index).
Definition asked (q : AskQuestion) : Question :=
  mkQuestion (aq_question q) (Some (aq_header q))
    (imap (fun index o => mkQuestionOption (index_id index) (ao_label o) (ao_description o) None (ao_preview o)) (aq_options q))
    true (aq_multi_select q).
Definition interaction (args : AskArgs) : InteractionKind := KForm None (map asked args).
Definition answer_specs : list AnswerSpec := [SpecForm; SpecCancel].

(** ** What comes back *)

Definition chosen (q : AskQuestion) (ids : list str) : list str :=
  omap (fun io : nat * AskOption => if any (fun id => bool_decide (id = index_id io.1)) ids then Some (ao_label io.2) else None)
    (imap (fun index o => (index, o)) (aq_options q)).
Definition own_words (other : option str) : list str :=
  match other with Some words => if bool_decide (trim words = []) then [] else [trim words] | None => [] end.
Definition said (q : AskQuestion) (ids : list str) (other : option str) : result ToolError str :=
  let said := chosen q ids ++ own_words other in
  if bool_decide (said = []) then Err (TeFailed (lit "the answer to " ++ debug_str (aq_question q) ++ lit " named none of the options"))
  else Ok (join (lit ", ") said).
Definition answered (q : AskQuestion) (answer : Answer) : result ToolError str :=
  match answer with
  | Choice ids other => said q ids other
  | TextAnswer text => Ok text
  | CancelAnswer | DenyAnswer _ => Ok (lit "skipped")
  | other => Err (TeFailed (lit "unexpected answer to " ++ debug_str (aq_question q) ++ lit ": " ++ debug_answer other))
  end.
(** [collect] on a zip: the first error stops it. *)
Fixpoint each_answered (questions : list AskQuestion) (answers : list Answer) : result ToolError (list str) :=
  match questions, answers with
  | q :: questions, a :: answers =>
      let* line := answered q a in let* lines := each_answered questions answers in Ok (line :: lines)
  | _, _ => Ok []
  end.
Definition lines (args : AskArgs) (answers : list Answer) : result ToolError (list str) :=
  if negb (length answers =? length args)
  then Err (TeFailed (lit "the form came back with " ++ show_N (N.of_nat (length answers)) ++ lit " answers for "
                      ++ show_N (N.of_nat (length args)) ++ lit " questions"))
  else each_answered args answers.

Definition text_view (text : str) (style : list (str * Value)) : Value :=
  VObject ([(lit "kind", VString (lit "Text")); (lit "children", VArray [VString text])] ++ style).
Definition muted : list (str * Value) := [(lit "color", VString (lit "muted"))].
Fixpoint children (first : bool) (args : list AskQuestion) (lines : list str) : list Value :=
  match args, lines with
  | q :: args, line :: lines =>
      (if first then [] else [text_view [] []]) ++ text_view (aq_question q) muted :: text_view line [] :: children false args lines
  | _, _ => []
  end.
Definition column (views : list Value) : Event.View := ViewOther (VObject [(lit "kind", VString (lit "Box")); (lit "children", VArray views)]).
Definition ANSWERED : str := lit "The user answered:" ++ newline.
Definition SKIPPED : str := lit "The user skipped these questions; decide how to proceed.".
Definition answers_text (args : AskArgs) (lines : list str) : str :=
  ANSWERED ++ join newline (zip_with (fun q line => aq_header q ++ lit ": " ++ line) args lines).
Definition ask_result (args : AskArgs) (answers : list Answer) : result ToolError ToolOutput :=
  let* lines := lines args answers in
  Ok (mkToolOutput [PText (answers_text args lines)] false (Some (column (children true args lines))) None).
Definition declined (args : AskArgs) : str :=
  match args with
  | first :: _ => lit "The user declined to answer: " ++ aq_question first
  | [] => lit "The user declined to answer."
  end.
Definition error_said (e : KernelError) : str := lit "[" ++ code_as_str (ke_code e) ++ lit "] " ++ ke_message e.
(** [call]: nothing is put to the person that did not pass. *)
Definition ask_call (args : AskArgs) (ask : InteractionKind → list AnswerSpec → result KernelError Answer) : result ToolError ToolOutput :=
  let* _ := validate args in
  match ask (interaction args) answer_specs with
  | Err e => Err (TeFailed (lit "the questions were not put: " ++ error_said e))
  | Ok CancelAnswer => Ok (output_text SKIPPED)
  | Ok (FormAnswer answers) => ask_result args answers
  | Ok _ => Ok (output_error (declined args))
  end.
End asking.

(** ** Laws *)

Definition well_asked (q : AskQuestion) : Prop :=
  (MIN_OPTIONS ≤ length (aq_options q) ≤ MAX_OPTIONS) ∧ NoDup ((λ o, trim (ao_label o)) <$> aq_options q)
  ∧ (aq_multi_select q = true → Forall (λ o, ao_preview o = None) (aq_options q)).
Definition well_formed (args : AskArgs) : Prop :=
  (1 ≤ length args ≤ MAX_QUESTIONS) ∧ NoDup ((λ q, trim (aq_question q)) <$> args) ∧ Forall well_asked args.
(** An answer that answers one question, and how it reads. *)
Definition answers_one (q : AskQuestion) (a : Answer) : bool :=
  match a with
  | Choice ids other => bool_decide (chosen q ids ++ own_words other ≠ [])
  | TextAnswer _ | CancelAnswer | DenyAnswer _ => true
  | _ => false
  end.
Definition reading (q : AskQuestion) (a : Answer) : str :=
  match a with
  | Choice ids other => join (lit ", ") (chosen q ids ++ own_words other)
  | TextAnswer text => text
  | _ => lit "skipped"
  end.

Section laws.
Context (debug_str : str → str) (debug_answer : Answer → str).

Lemma validate_labels_iff multi seen options :
  match validate_labels debug_str multi seen options with
  | Ok _ => NoDup ((λ o, trim (ao_label o)) <$> options) ∧ Forall (λ o, trim (ao_label o) ∉ seen) options
            ∧ (multi = true → Forall (λ o, ao_preview o = None) options)
  | Err e => (∃ m, e = TeInvalidInput m)
      ∧ ¬ (NoDup ((λ o, trim (ao_label o)) <$> options) ∧ Forall (λ o, trim (ao_label o) ∉ seen) options
           ∧ (multi = true → Forall (λ o, ao_preview o = None) options))
  end.
Proof.
  revert seen. induction options as [|o options IH]; intros seen; cbn; [split_and!; [constructor|done|done]|].
  case_bool_decide as Hs; [split; [eauto|]; intros (_ & [? _]%Forall_cons & _); done|].
  destruct (option_is_some (ao_preview o) && multi) eqn:Ep.
  { apply andb_true_iff in Ep as [Ep ->]. split; [eauto|]. intros (_ & _ & [Hn _]%Forall_cons); [|done]. by rewrite Hn in Ep. }
  specialize (IH (trim (ao_label o) :: seen)).
  assert (multi = true → ao_preview o = None) as Hp by (intros ->; rewrite andb_true_r in Ep; by destruct (ao_preview o)).
  assert ((NoDup ((λ o, trim (ao_label o)) <$> options) ∧ Forall (λ o', trim (ao_label o') ∉ trim (ao_label o) :: seen) options
    ∧ (multi = true → Forall (λ o, ao_preview o = None) options)) ↔
    (NoDup (trim (ao_label o) :: ((λ o, trim (ao_label o)) <$> options)) ∧ Forall (λ o, trim (ao_label o) ∉ seen) (o :: options)
    ∧ (multi = true → Forall (λ o, ao_preview o = None) (o :: options)))) as Hiff.
  { rewrite NoDup_cons, !Forall_cons, !Forall_forall, list_elem_of_fmap. setoid_rewrite not_elem_of_cons. naive_solver. }
  destruct (validate_labels debug_str multi (trim (ao_label o) :: seen) options); tauto.
Qed.
Lemma validate_options_iff q :
  match validate_options debug_str q with Ok _ => well_asked q | Err e => (∃ m, e = TeInvalidInput m) ∧ ¬ well_asked q end.
Proof.
  unfold validate_options, well_asked. destruct (Nat.leb_spec MIN_OPTIONS (length (aq_options q))); cbn [andb negb]; [|split; [eauto|]; lia].
  destruct (Nat.leb_spec (length (aq_options q)) MAX_OPTIONS); cbn [negb]; [|split; [eauto|]; lia].
  pose proof (validate_labels_iff (aq_multi_select q) [] (aq_options q)) as H1.
  assert (Forall (λ o, trim (ao_label o) ∉ []) (aq_options q)) by (apply Forall_true; set_solver).
  destruct (validate_labels _ _ _ _); tauto.
Qed.
Lemma validate_questions_iff seen qs :
  match validate_questions debug_str seen qs with
  | Ok _ => NoDup ((λ q, trim (aq_question q)) <$> qs) ∧ Forall (λ q, trim (aq_question q) ∉ seen) qs ∧ Forall well_asked qs
  | Err e => (∃ m, e = TeInvalidInput m)
      ∧ ¬ (NoDup ((λ q, trim (aq_question q)) <$> qs) ∧ Forall (λ q, trim (aq_question q) ∉ seen) qs ∧ Forall well_asked qs)
  end.
Proof.
  revert seen. induction qs as [|q qs IH]; intros seen; cbn; [split_and!; [constructor|done|done]|].
  case_bool_decide as Hs; [split; [eauto|]; intros (_ & [? _]%Forall_cons & _); done|].
  pose proof (validate_options_iff q) as Hq. destruct (validate_options debug_str q) as [u|e]; cbn.
  2:{ destruct Hq as [Hm Hq]. split; [done|]. intros (_ & _ & [? _]%Forall_cons). done. }
  specialize (IH (trim (aq_question q) :: seen)).
  assert ((NoDup ((λ q, trim (aq_question q)) <$> qs) ∧ Forall (λ q', trim (aq_question q') ∉ trim (aq_question q) :: seen) qs ∧ Forall well_asked qs) ↔
    (NoDup (trim (aq_question q) :: ((λ q, trim (aq_question q)) <$> qs)) ∧ Forall (λ q, trim (aq_question q) ∉ seen) (q :: qs)
     ∧ Forall well_asked (q :: qs))) as Hiff.
  { rewrite NoDup_cons, !Forall_cons, !Forall_forall, list_elem_of_fmap. setoid_rewrite not_elem_of_cons. naive_solver. }
  destruct (validate_questions debug_str (trim (aq_question q) :: seen) qs); tauto.
Qed.
Lemma validate_iff args : match validate debug_str args with Ok _ => well_formed args | Err e => (∃ m, e = TeInvalidInput m) ∧ ¬ well_formed args end.
Proof.
  unfold validate, well_formed. destruct (Nat.leb_spec 1 (length args)); cbn [andb negb]; [|split; [eauto|]; lia].
  destruct (Nat.leb_spec (length args) MAX_QUESTIONS); cbn [negb]; [|split; [eauto|]; lia].
  pose proof (validate_questions_iff [] args) as H1.
  assert (Forall (λ q, trim (aq_question q) ∉ []) args) by (apply Forall_true; set_solver).
  destruct (validate_questions _ _ _); tauto.
Qed.

Lemma answered_reading q a :
  if answers_one q a then answered debug_str debug_answer q a = Ok (reading q a) else ∃ m, answered debug_str debug_answer q a = Err (TeFailed m).
Proof.
  destruct a; cbn; eauto. unfold said. case_bool_decide as Hb; case_bool_decide as Hc; eauto; congruence.
Qed.
Lemma each_answered_reading qs answers : length answers = length qs →
  if all (λ qa, answers_one qa.1 qa.2) (zip qs answers)
  then each_answered debug_str debug_answer qs answers = Ok (zip_with reading qs answers)
  else ∃ m, each_answered debug_str debug_answer qs answers = Err (TeFailed m).
Proof.
  revert answers. induction qs as [|q qs IH]; intros [|a answers] Hl; [done..|]. cbn. injection Hl as Hl. specialize (IH _ Hl).
  pose proof (answered_reading q a) as Hq. unfold all in IH. destruct (answers_one q a); cbn; [|destruct Hq as [m ->]; cbn; eauto].
  rewrite Hq. cbn. destruct (forallb _ _); [by rewrite IH|destruct IH as [m ->]; cbn; eauto].
Qed.

Lemma elem_of_chosen q ids label :
  label ∈ chosen q ids ↔ ∃ index o, aq_options q !! index = Some o ∧ index_id index ∈ ids ∧ label = ao_label o.
Proof.
  unfold chosen. rewrite list_elem_of_omap. split.
  - intros ([index o] & (i & o' & [= -> ->] & Ho)%elem_of_lookup_imap & Hc). cbn in Hc. destruct (any _ ids) eqn:E; [|done].
    injection Hc as <-. exists i, o'. split_and!; [done| |done]. apply existsb_exists in E as (id & Hin & Hb). apply bool_decide_eq_true in Hb as ->.
    by apply list_elem_of_In.
  - intros (i & o & Ho & Hin & ->). exists (i, o). split; [apply elem_of_lookup_imap; eauto|]. cbn.
    assert (any (λ id, bool_decide (id = index_id i)) ids = true) as ->; [|done].
    apply existsb_exists. exists (index_id i). split; [by apply list_elem_of_In|]. by apply bool_decide_eq_true.
Qed.
Lemma chosen_tells q ids ids' : well_asked q → chosen q ids = chosen q ids' →
  ∀ index, index < length (aq_options q) → index_id index ∈ ids ↔ index_id index ∈ ids'.
Proof.
  intros (_ & Hnd & _) Hc index Hi. apply lookup_lt_is_Some in Hi as [o Ho].
  assert (∀ ids, index_id index ∈ ids ↔ ao_label o ∈ chosen q ids) as Hin; [|by rewrite !Hin, Hc].
  intros l. rewrite elem_of_chosen. split; [eauto 6|]. intros (i & o' & Ho' & Hl & El).
  assert (i = index) as <-; [|done].
  eapply NoDup_lookup; [exact Hnd| |]; rewrite list_lookup_fmap; [rewrite Ho'|rewrite Ho]; cbn; [by rewrite <- El|done].
Qed.

Lemma no_role role (f : nat → AskOption → QuestionOption) l : (∀ i o, option_role (f i o) = None) →
  find_bool (λ o, bool_decide (option_role o = Some role)) (imap f l) = None.
Proof.
  intros Hf. revert f Hf. induction l as [|o l IH]; intros f Hf; [done|]. cbn. rewrite Hf. rewrite bool_decide_eq_false_2 by done.
  apply (IH (f ∘ S)). intros i o'. apply Hf.
Qed.
Lemma chosen_in_order (p : nat → bool) (f : nat → nat) (l : list AskOption) :
  omap (λ io : nat * AskOption, if p io.1 then Some (ao_label io.2) else None) (imap (λ i o, (f i, o)) l) `sublist_of` (ao_label <$> l).
Proof.
  revert f. induction l as [|o l IH]; intros f; [done|]. cbn. specialize (IH (f ∘ S)). destruct (p (f 0)); [by apply sublist_skip|by apply sublist_cons].
Qed.

(** C30: A form is read back as it was answered.  A set of questions that is not well
    formed is refused before anyone is asked.  One that is put is the person's: it has
    no answer a door may give in nobody's name, and of the answers the kernel accepts
    for it only the form and leaving it reach the tool.  A form with one answer to each
    question reads back a line for each, in order: the labels of exactly the options
    picked, in the order they were offered, and the person's own words, or that it was
    skipped; any other form is an error, never half a reading.  What was picked can be
    told from the labels read back. *)
Theorem a_form_is_read_back_as_answered args :
  (¬ well_formed args → ∃ m, ∀ ask, ask_call debug_str debug_answer args ask = Err (TeInvalidInput m))
  ∧ (well_formed args →
     (∀ role, answer_for (interaction args) role = None)
     ∧ (∀ pending now id p answer activation plugin, pending !! id = Some p →
          int_kind (pa_interaction p) = interaction args → int_answers (pa_interaction p) = answer_specs →
          refuse pending now id answer activation plugin = None →
          match answer with
          | CancelAnswer => ask_call debug_str debug_answer args (λ _ _, Ok answer) = Ok (output_text SKIPPED)
          | FormAnswer answers =>
              if (length answers =? length args) && all (λ qa, answers_one qa.1 qa.2) (zip args answers)
              then ∃ out, ask_call debug_str debug_answer args (λ _ _, Ok answer) = Ok out
                   ∧ to_is_error out = false ∧ to_parts out = [PText (answers_text args (zip_with reading args answers))]
              else ∃ m, ask_call debug_str debug_answer args (λ _ _, Ok answer) = Err (TeFailed m)
          | _ => False
          end)
     ∧ Forall (λ q, ∀ ids,
          (∀ label, label ∈ chosen q ids ↔ ∃ index o, aq_options q !! index = Some o ∧ index_id index ∈ ids ∧ label = ao_label o)
          ∧ chosen q ids `sublist_of` (ao_label <$> aq_options q)
          ∧ ∀ ids', chosen q ids = chosen q ids' → ∀ index, index < length (aq_options q) → index_id index ∈ ids ↔ index_id index ∈ ids') args).
Proof.
  pose proof (validate_iff args) as Hv. unfold ask_call. split.
  { intros Hw. destruct (validate debug_str args) as [u|e]; [done|]. destruct Hv as [[m ->] _]. by exists m. }
  intros Hw. destruct (validate debug_str args) as [u|e]; [|by destruct Hv]. cbn [rbind]. clear Hv. split_and!.
  - destruct Hw as ([H1 _] & _ & Hq). intros role. destruct args as [|q args]; [cbn in H1; lia|].
    assert (question_answer_for (asked q) role = None) as E; [|by cbn [interaction map answer_for mapM fmap list_fmap]; rewrite E].
    unfold question_answer_for, asked. cbn [question_options]. by rewrite no_role.
  - intros pending now id p answer activation plugin Hp Hk Ha Hr. unfold refuse in Hr. rewrite Hp, Hk, Ha in Hr. cbn in Hr. rewrite andb_false_r in Hr.
    destruct (bool_decide (answer_spec answer ∈ answer_specs)) eqn:Es; [|done]. apply bool_decide_eq_true in Es. clear Hr.
    destruct answer; try (by exfalso; revert Es; cbn; set_solver). { done. } unfold ask_result, lines.
    destruct (Nat.eqb_spec (length answers) (length args)) as [Hl|]; cbn [negb andb]; [|cbn; eauto].
    pose proof (each_answered_reading args answers Hl) as He. destruct (all _ _); [|destruct He as [m ->]; cbn; eauto].
    rewrite He. cbn. by eexists.
  - destruct Hw as (_ & _ & Hq). apply (Forall_impl _ _ _ Hq). intros q Hqa ids. split_and!; [apply elem_of_chosen| |intros; by eapply chosen_tells].
    exact (chosen_in_order (λ i, any (λ x : str, bool_decide (x = index_id i)) ids) (λ i, i) (aq_options q)).
Qed.
End laws.

(** ** Witness *)

Module Demo.
Definition quoted (s : str) : str := lit "'" ++ s ++ lit "'".
Definition shown (a : Answer) : str := spec_debug (answer_spec a).
Definition auth : AskQuestion :=
  mkAskQuestion (lit "Which method?") (lit "Auth") [mkAskOption (lit "OAuth") None None; mkAskOption (lit "API key") None None; mkAskOption (lit "None") None None] true.
Definition form : list Answer := [Choice [lit "2"; lit "0"] (Some (lit " for now "))].
Definition kept : Interaction := mkInteraction (lit "i") (lit "s") None None 0 None None (interaction [auth]) answer_specs.
Definition pending : gmap str PendingAsk := {[lit "i" := mkPendingAsk kept false]}.
(** The labels come back in the order offered, whatever order they were picked in. *)
Example picked : ask_call quoted shown [auth] (λ _ _, Ok (FormAnswer form)) ≠ Err TeCancelled
  ∧ chosen auth [lit "2"; lit "0"] = [lit "OAuth"; lit "None"]
  ∧ reading auth (Choice [lit "2"; lit "0"] (Some (lit " for now "))) = lit "OAuth, None, for now".
Proof. split_and!; vm_compute; [discriminate|reflexivity..]. Qed.
Example twice : ask_call quoted shown [auth; auth] (λ _ _, Ok CancelAnswer)
  = Err (TeInvalidInput (lit "the question 'Which method?' is asked twice")).
Proof. vm_compute. reflexivity. Qed.
Lemma auth_well_formed : well_formed [auth].
Proof.
  split; [unfold MAX_QUESTIONS; cbn; lia|]. split; [apply NoDup_singleton|]. apply Forall_singleton. split; [vm_compute; lia|]. split; [|intros _; by repeat constructor].
  apply (bool_decide_unpack _). vm_compute. exact I.
Qed.
End Demo.
Lemma a_form_is_read_back_as_answered_witness : ∃ out,
  ask_call Demo.quoted Demo.shown [Demo.auth] (λ _ _, Ok (FormAnswer Demo.form)) = Ok out ∧ to_is_error out = false
  ∧ to_parts out = [PText (ANSWERED ++ lit "Auth: OAuth, None, for now")].
Proof.
  destruct (a_form_is_read_back_as_answered Demo.quoted Demo.shown [Demo.auth]) as [_ H].
  destruct (H Demo.auth_well_formed) as (_ & Ha & _).
  exact (Ha Demo.pending 0%Z (lit "i") (mkPendingAsk Demo.kept false) (FormAnswer Demo.form) Keyboard false eq_refl eq_refl eq_refl eq_refl).
Defined.
