(* ===== verification/ShellWords.v ===== *)
(** * ShellWords: what a shell command is refused or sent to the background for

    The tables of bingo-tool-bash that read a command as words before anything is
    spawned: what needs a terminal (reject.rs), what only waits (idle.rs) and what never
    ends on its own (endless.rs).  How a shell's words are split where its quotes balance
    is a library's ([shlex_split]). *)

From S2P Require Import Prelude Text.

Definition starts (p s : str) : bool := starts_with s p.
Definition one_of (l : list str) (s : str) : bool := bool_decide (s ∈ l).
Definition ellipsis : str := [8230%N].
Definition tick (s : str) : str := lit "`" ++ s ++ lit "`".

Section tables.
Context (shlex_split : str → option (list str)).

Definition tokenise (command : str) : list str := default (split_whitespace command) (shlex_split command).

(** ** reject.rs *)

Record Cmd := mkCmd { cm_assignments : list str; cm_name : str; cm_rest : list str }.
Inductive Unwrapped := Nothing | Rejected (reason : str) | Command (cmd : Cmd).

Definition WRAPPERS : list str :=
  [lit "sudo"; lit "doas"; lit "env"; lit "nohup"; lit "command"; lit "exec"; lit "time"; lit "xargs"].
Definition SUDO_VALUED : list str :=
  [lit "-u"; lit "-g"; lit "-C"; lit "-p"; lit "-D"; lit "-R"; lit "-T"; lit "-r"; lit "-t"; lit "-U"; lit "-S"; lit "-P"; lit "-h"].
Definition is_assignment (word : str) : bool :=
  match split_once (lit "=") word with
  | None => false
  | Some (name, _) =>
      match name with [] => false | c :: _ => is_ascii_alphabetic c || (c =? chr "_")%N end
      && all (fun c => is_ascii_alphanumeric c || (c =? chr "_")%N) name
  end.
Definition program (word : str) : str := match rsplit_once (chr "/") word with Some (_, name) => name | None => word end.

(** The flags of [sudo]: whether it would prompt, and the words after them. *)
Fixpoint sudo_flags (name : str) (words : list str) (passwordless clears : bool) : result str (bool * list str) :=
  match words with
  | flag :: rest =>
      if negb (starts (lit "-") flag) then Ok (passwordless, words)
      else if one_of [lit "-i"; lit "-s"] flag
      then Err (tick (name ++ lit " " ++ flag) ++ lit " opens an interactive login shell, which needs a terminal; rejected")
      else
        let passwordless := passwordless || one_of [lit "-n"; lit "--non-interactive"; lit "-V"; lit "--version"] flag in
        let clears := clears || one_of [lit "-k"; lit "-K"] flag in
        if one_of SUDO_VALUED flag
        then match rest with _ :: rest => sudo_flags name rest passwordless clears | [] => Ok (passwordless || clears, []) end
        else sudo_flags name rest passwordless clears
  | [] => Ok (passwordless || clears, [])
  end.
Definition sudo (name : str) (words : list str) : result str (list str) :=
  match sudo_flags name words false false with
  | Err reason => Err reason
  | Ok (never_prompts, rest) =>
      if never_prompts then Ok rest
      else Err (name ++ lit " prompts for a password on the terminal, which this shell does not have; rejected. Pass `-n` so it fails instead of prompting")
  end.
Fixpoint unwrap (fuel : nat) (assignments : list str) (words : list str) : Unwrapped :=
  match fuel, words with
  | S fuel, word :: rest =>
      if is_assignment word then unwrap fuel (assignments ++ [word]) rest
      else
        let name := program word in
        if negb (one_of WRAPPERS name) then Command (mkCmd assignments name rest)
        else if one_of [lit "sudo"; lit "doas"] name
        then match sudo name rest with Err reason => Rejected reason | Ok rest => unwrap fuel assignments rest end
        else unwrap fuel assignments rest
  | _, _ => Nothing
  end.

Definition unless (b : bool) (reason : str) : option str := if b then None else Some reason.
Definition MONITORS : list str :=
  [lit "top"; lit "htop"; lit "btop"; lit "bpytop"; lit "bashtop"; lit "btm"; lit "nmon"; lit "glances"; lit "s-tui"; lit "gtop"; lit "vtop";
   lit "ktop"; lit "ctop"; lit "ytop"].
Definition monitor (cmd : Cmd) : option str :=
  let name := cm_name cmd in
  unless (negb (one_of MONITORS name) || any (one_of [lit "-b"; lit "-batch"; lit "--batch"]) (cm_rest cmd))
    (name ++ lit " is a full-screen monitor and needs a terminal; rejected. " ++ tick (name ++ lit " -b -n 1") ++ lit " prints one snapshot").
Definition EDITORS : list str :=
  [lit "vim"; lit "vi"; lit "nvim"; lit "nano"; lit "emacs"; lit "micro"; lit "pico"; lit "mg"; lit "ed"; lit "ex"; lit "kak"; lit "kakoune";
   lit "helix"; lit "hx"; lit "ne"; lit "zile"; lit "joe"].
Definition FILE_MANAGERS : list str := [lit "ranger"; lit "lf"; lit "yazi"; lit "joshuto"; lit "mc"; lit "midnight-commander"].
Definition TUIS : list str := [lit "lazygit"; lit "tig"; lit "lazydocker"; lit "k9s"; lit "kdash"; lit "screen"; lit "fzf"].
Definition full_screen (cmd : Cmd) : option str :=
  let name := cm_name cmd in
  (fun what => name ++ lit " is " ++ what ++ lit " and needs a terminal; rejected") <$>
    (if one_of EDITORS name then Some (lit "an interactive editor")
     else if one_of FILE_MANAGERS name then Some (lit "an interactive file manager")
     else if one_of TUIS name then Some (lit "an interactive TUI program") else None).
Definition PAGERS : list str := [lit "less"; lit "more"; lit "most"; lit "man"].
Definition pager (cmd : Cmd) : option str :=
  let name := cm_name cmd in
  let overridden :=
    any (fun a => match split_once (lit "=") a with Some (k, _) => ends_with k (lit "PAGER") | None => false end) (cm_assignments cmd)
    || any (fun a => one_of [lit "-P"; lit "--no-pager"; lit "-F"; lit "--quit-if-one-screen"] a || starts (lit "--pager=") a) (cm_rest cmd) in
  unless (negb (one_of PAGERS name) || overridden)
    (name ++ lit " pages its output on the terminal; rejected. Pipe the command into `cat`, or set a pager (`PAGER=cat " ++ name ++ lit " " ++ ellipsis ++ lit "`)").
Definition debugger (cmd : Cmd) : option str :=
  unless (negb (bool_decide (cm_name cmd = lit "gdb")) || any (one_of [lit "-batch"; lit "--batch"]) (cm_rest cmd))
    (lit "gdb is an interactive debugger and needs a terminal; rejected. `gdb -batch -ex " ++ ellipsis ++ lit "` runs a script").
Definition REPLS : list str :=
  [lit "bash"; lit "sh"; lit "zsh"; lit "fish"; lit "ksh"; lit "dash"; lit "elvish"; lit "xonsh"; lit "python"; lit "python2"; lit "python3";
   lit "ipython"; lit "pypy"; lit "node"; lit "deno"; lit "bun"; lit "ruby"; lit "irb"; lit "perl"; lit "php"; lit "lua"; lit "luajit"; lit "bc";
   lit "dc"; lit "sbcl"; lit "ghci"; lit "powershell"; lit "pwsh"].
Definition repl (cmd : Cmd) : option str :=
  let name := cm_name cmd in
  unless (negb (one_of REPLS name && bool_decide (cm_rest cmd = [])))
    (name ++ lit " with no arguments is an interactive REPL and needs a terminal; rejected. `" ++ name ++ lit " -c '" ++ ellipsis
     ++ lit "'` or a script argument runs fine").
Definition DB_CLIENTS : list str := [lit "sqlite3"; lit "psql"; lit "mysql"; lit "mongosh"; lit "redis-cli"].
Definition db_prompts (cmd : Cmd) : bool :=
  let name := cm_name cmd in
  let has flags := any (one_of flags) (cm_rest cmd) in
  let stdin := one_of (cm_rest cmd) (lit "<") in
  let positional := retain (fun a => negb (starts (lit "-") a)) (cm_rest cmd) in
  if one_of [lit "sqlite3"; lit "psql"] name
  then negb (has [lit "-c"; lit "-f"; lit "-l"; lit "--command"; lit "--file"; lit "--list"; lit "--version"; lit "--help"])
       && negb stdin && (length positional <=? 1)
  else if bool_decide (name = lit "mysql")
  then negb (has [lit "-e"; lit "--execute"; lit "-f"; lit "--force"; lit "--version"; lit "--help"]) && negb stdin
  else if bool_decide (name = lit "mongosh")
  then negb (has [lit "--eval"; lit "--version"; lit "--help"]) && negb stdin && negb (any (fun a => ends_with a (lit ".js")) positional)
  else negb (has [lit "--version"; lit "--help"]) && bool_decide (positional = []) && negb stdin.
Definition db_client (cmd : Cmd) : option str :=
  let name := cm_name cmd in
  unless (negb (one_of DB_CLIENTS name && db_prompts cmd))
    (name ++ lit " opens an interactive client and needs a terminal; rejected. Pass the statement instead (`" ++ name ++ lit " -c '" ++ ellipsis ++ lit "'`)").

Record SshShape := mkSshShape { sh_host : bool; sh_remote_command : bool; sh_detached : bool }.
Definition SSH_VALUED : list str :=
  [lit "-p"; lit "-l"; lit "-i"; lit "-o"; lit "-F"; lit "-J"; lit "-L"; lit "-R"; lit "-D"; lit "-W"; lit "-m"; lit "-c"; lit "-e"; lit "-b";
   lit "-K"; lit "-I"; lit "-O"; lit "-Q"; lit "-S"; lit "-w"; lit "-E"; lit "-G"; lit "-g"].
Fixpoint ssh_shape (shape : SshShape) (rest : list str) : SshShape :=
  match rest with
  | [] => shape
  | a :: rest =>
      if one_of SSH_VALUED a then match rest with _ :: rest => ssh_shape shape rest | [] => shape end
      else if one_of [lit "-N"; lit "-f"] a then ssh_shape (mkSshShape (sh_host shape) (sh_remote_command shape) true) rest
      else if starts (lit "-") a then ssh_shape shape rest
      else if sh_host shape then ssh_shape (mkSshShape true true (sh_detached shape)) rest
      else ssh_shape (mkSshShape true (sh_remote_command shape) (sh_detached shape)) rest
  end.
Definition ssh (cmd : Cmd) : option str :=
  let forced := any (one_of [lit "-t"; lit "-tt"]) (cm_rest cmd) in
  let shape := ssh_shape (mkSshShape false false false) (cm_rest cmd) in
  unless (negb (bool_decide (cm_name cmd = lit "ssh") && (forced || (sh_host shape && negb (sh_remote_command shape) && negb (sh_detached shape)))))
    (lit "ssh takes the terminal for a password prompt or a remote shell; rejected. Pass the remote command (`ssh host 'cmd'`)").
Definition CONTAINER_TOOLS : list str := [lit "docker"; lit "nerdctl"; lit "podman"; lit "kubectl"; lit "docker-compose"].
Definition first_word (rest : list str) : str := default [] (head rest).
Definition container (cmd : Cmd) : option str :=
  let name := cm_name cmd in
  let sub := first_word (cm_rest cmd) in
  if negb (one_of CONTAINER_TOOLS name) then None
  else if bool_decide (sub = lit "attach") then Some (lit "`" ++ name ++ lit " attach` is an interactive session and needs a terminal; rejected")
  else if negb (one_of [lit "exec"; lit "run"] sub) then None
  else
    let interactive := any (one_of [lit "-it"; lit "-ti"; lit "--interactive"]) (cm_rest cmd)
      || (one_of (cm_rest cmd) (lit "-i") && one_of (cm_rest cmd) (lit "-t")) in
    unless (negb interactive)
      (lit "`" ++ name ++ lit " " ++ sub ++ lit " -it` is an interactive session and needs a terminal; rejected. Drop `-t` to run it non-interactively").
Definition tmux (cmd : Cmd) : option str :=
  let sub := first_word (cm_rest cmd) in
  if negb (bool_decide (cm_name cmd = lit "tmux")) then None
  else if one_of [lit "attach"; lit "a"; lit "attach-session"] sub
  then Some (lit "`tmux attach` needs a terminal; rejected. `tmux new -d` starts a detached session")
  else
    let foreground := bool_decide (cm_rest cmd = []) || (one_of [lit "new"; lit "new-session"] sub && negb (one_of (cm_rest cmd) (lit "-d"))) in
    unless (negb foreground) (lit "a foreground tmux session needs a terminal; rejected. `tmux new -d` starts a detached session").
Definition RULES : list (Cmd → option str) :=
  [monitor; full_screen; pager; debugger; repl; db_client; ssh; container; tmux].
Definition interactive_reason (command : str) : option str :=
  let words := tokenise command in
  match unwrap (length words) [] words with
  | Nothing => None
  | Rejected reason => Some reason
  | Command cmd => find_map (fun rule => rule cmd) RULES
  end.

(** ** endless.rs *)

Definition bare (word : str) : str := trim_end_matches (chr ";") word.
Definition trim_end (s : str) : str := trim_end_by is_whitespace s.
Definition detached (command : str) : bool :=
  let line := trim_end command in ends_with line (lit "&") && negb (ends_with line (lit "&&")).
Definition forever (keyword : str) (condition : option str) : bool :=
  if bool_decide (keyword = lit "while")
  then match condition with Some c => one_of [lit "true"; lit ":"] c | None => false end
  else match condition with Some c => bool_decide (c = lit "false") | None => false end.
Definition unbounded (command : str) : bool := contains_str (retain (fun c => negb (is_whitespace c)) command) (lit "((;;))").
Definition follows (args : list str) : bool :=
  any (fun arg => starts (lit "--follow") arg
    || (starts (lit "-") arg && negb (starts (lit "--") arg) && any (fun c => (c =? chr "f")%N || (c =? chr "F")%N) arg)) args.
Definition endless_reason (command : str) : option str :=
  if detached command then Some (lit "it ends in `&`, so the shell returns before the work does")
  else
    match map bare (tokenise command) with
    | [] => None
    | first :: rest =>
        if bool_decide (first = lit "watch") then Some (lit "`watch` repeats until something stops it")
        else if bool_decide (first = lit "tail") && follows rest then Some (lit "`tail -f` follows its file until something stops it")
        else if one_of [lit "while"; lit "until"] first && forever first (head rest) then Some (lit "the loop's condition never ends it")
        else if bool_decide (first = lit "for") && unbounded command then Some (lit "the `for` loop has no condition to end on")
        else None
    end.

(** ** idle.rs *)

Definition is_duration (word : str) : bool :=
  let number := match rev word with
                | c :: front => if any (N.eqb c) (lit "smhd") then rev front else word
                | [] => word
                end in
  negb (bool_decide (number = []))
  && all (fun c => is_ascii_digit c || (c =? chr ".")%N) number
  && (length (retain (fun c => (c =? chr ".")%N) number) <=? 1)
  && any is_ascii_digit number.
Definition idle_reason (command : str) : option str :=
  match tokenise command with
  | [] => None
  | name :: durations =>
      if negb (bool_decide (name = lit "sleep")) || bool_decide (durations = []) || negb (all is_duration durations) then None
      else Some (tick (trim command) ++ lit " in the foreground only holds the turn, and the person with it, until it ends; rejected. A check that must follow a pause goes in one call: `"
        ++ trim command ++ lit " && <command>`. A background job or agent wakes you when it finishes, so the way to wait for one is to end your turn. To be woken after a delay instead, run this same `sleep` with `background: true`: it becomes a job, and its completion opens a turn.")
  end.
End tables.
