(* ===== verification/Shell.v ===== *)
(** * Shell: commands, their output and the jobs they become (bingo-tool-bash)

    From a pipe's bytes to what is read of them: the text of a stream (run.rs), the
    bounded buffer of a call that waits (output.rs), the log of a job that nobody waits
    for (log.rs), the move between them (sink.rs) and the windows it is read by
    (read.rs); what a call answers (output.rs, upshot.rs, lib.rs), the table of jobs
    (jobs.rs, kill.rs, promote.rs) and what of a job's output wakes its session
    (notify.rs, supervise.rs).

    Processes, pipes and clocks are the environment's.  Regular expressions, the float
    arithmetic of the quiet window and how a clock is printed are parameters. *)

From S2P Require Import Prelude Text Model Interaction Event Transcript PermPath Numbers Utf8 Ears Round ShellWords.

(** ** run.rs: a stream of bytes as text *)

Fixpoint decode_pending (fuel : nat) (pending : bytes) : str * bytes :=
  match fuel, from_utf8 pending with
  | _, (all, Whole, _) => (all, [])
  | _, (valid, ShortOf, over) => (valid, over)
  | S fuel, (valid, BrokenBy n, over) =>
      let '(text, rest) := decode_pending fuel (drop n over) in (valid ++ REPLACEMENT :: text, rest)
  | O, (valid, BrokenBy _, over) => (valid, over)
  end.
Definition stream_decode (pending chunk : bytes) : str * bytes :=
  decode_pending (length (pending ++ chunk)) (pending ++ chunk).

(** ** output.rs: the bounded buffer *)

Definition MAX_OUTPUT_CHARS : nat := N.to_nat 48000.
Definition MAX_TAIL_LINE_CHARS : nat := 512.
Record Bounded := mkBounded { bd_head : str; bd_head_max : nat; bd_tail : str; bd_tail_max : nat; bd_total : nat }.
Definition bounded_new (max : nat) : Bounded := mkBounded [] (max / 2) [] (max - max / 2) 0.
Definition push_char (b : Bounded) (ch : char) : Bounded :=
  mkBounded
    (if bd_total b <? bd_head_max b then bd_head b ++ [ch] else bd_head b) (bd_head_max b)
    (if 0 <? bd_tail_max b
     then (if length (bd_tail b) =? bd_tail_max b then tail (bd_tail b) else bd_tail b) ++ [ch]
     else bd_tail b) (bd_tail_max b)
    (S (bd_total b)).
Definition bounded_push (b : Bounded) (text : str) : Bounded := foldl push_char b text.
Definition truncated (dropped : nat) : str :=
  newline ++ lit "[" ++ ellipsis ++ lit " " ++ show_N (N.of_nat dropped) ++ lit " chars truncated " ++ ellipsis ++ lit "]" ++ newline.
Definition bounded_finish (b : Bounded) : str :=
  let dropped := bd_total b - (bd_head_max b + bd_tail_max b) in
  if dropped =? 0 then
    let kept_head := Nat.min (bd_total b) (bd_head_max b) in
    let overlap := kept_head + length (bd_tail b) - bd_total b in
    bd_head b ++ drop overlap (bd_tail b)
  else bd_head b ++ truncated dropped ++ bd_tail b.
Definition bounded_whole (b : Bounded) : bool := bd_total b <=? bd_head_max b + bd_tail_max b.
Definition clip (line : str) : str :=
  if length line <=? MAX_TAIL_LINE_CHARS then line else take MAX_TAIL_LINE_CHARS line ++ ellipsis.
Definition bounded_tail_lines (b : Bounded) (n : nat) : str :=
  let ls := lines (bd_tail b) in join newline (map clip (drop (length ls - n) ls)).

(** ** log.rs *)

Definition MAX_BYTES : N := 4 * 1024 * 1024.
Definition capped : str :=
  newline ++ lit "[" ++ ellipsis ++ lit " this log is capped at 4 MiB; nothing after this point was kept " ++ ellipsis ++ lit "]" ++ newline.
(** An open log: its file, and what counts against the cap.  Every write of a log
    reaches its file. *)
Record Log := mkLog { lg_file : bytes; lg_written : N; lg_full : bool }.
Definition log_create : Log := mkLog [] 0 false.
Fixpoint is_char_boundary (text : str) (at_ : nat) : bool :=
  match text with
  | [] => at_ =? 0
  | c :: text =>
      if at_ =? 0 then true
      else if at_ <? length (utf8_char c) then false else is_char_boundary text (at_ - length (utf8_char c))
  end.
Fixpoint boundary_from (text : str) (at_ : nat) : nat :=
  match at_ with O => O | S below => if is_char_boundary text at_ then at_ else boundary_from text below end.
Definition floor_char_boundary (text : str) (at_ : nat) : nat := boundary_from text (Nat.min at_ (length (utf8 text))).
(** [&text[..at]] *)
Fixpoint up_to (text : str) (at_ : nat) : str :=
  match text with
  | c :: text => if length (utf8_char c) <=? at_ then c :: up_to text (at_ - length (utf8_char c)) else []
  | [] => []
  end.
Definition log_append (l : Log) (text : str) : Log :=
  mkLog (lg_file l ++ utf8 text) (lg_written l + N.of_nat (length (utf8 text))) (lg_full l).
Definition log_write (l : Log) (text : str) : Log :=
  if lg_full l then l
  else
    let room := N.to_nat (MAX_BYTES - lg_written l) in
    if length (utf8 text) <=? room then log_append l text
    else
      let l := log_append l (up_to text (floor_char_boundary text room)) in
      mkLog (lg_file l ++ utf8 capped) (lg_written l) true.
Definition log_note (l : Log) (line : str) : Log :=
  mkLog (lg_file l ++ utf8 (newline ++ lit "[" ++ line ++ lit "]" ++ newline)) (lg_written l) (lg_full l).

Record Window := mkWindow { wn_text : str; wn_cursor : nat; wn_more : bool }.
Definition decode (l : bytes) : str * nat :=
  match from_utf8 l with
  | (text, Whole, _) => (text, length l)
  | (text, BrokenBy broken, over) => (text ++ [REPLACEMENT], length l - length over + broken)
  | (text, ShortOf, over) => (text, length l - length over)
  end.
Definition window (file : bytes) (cursor max : nat) : Window :=
  let '(text, used) := decode (take max (drop cursor file)) in
  mkWindow text (cursor + used) (cursor + used <? length file).

(** ** sink.rs *)

Inductive Sink := Buffer (b : Bounded) | ToFile (l : Log).
Definition sink_push (s : Sink) (text : str) : Sink :=
  match s with Buffer b => Buffer (bounded_push b text) | ToFile l => ToFile (log_write l text) end.
Definition sink_tail_lines (s : Sink) (n : nat) : str := match s with Buffer b => bounded_tail_lines b n | ToFile _ => [] end.
Definition sink_whole (s : Sink) : bool := match s with Buffer b => bounded_whole b | ToFile _ => false end.
Definition sink_finish (s : Sink) : str := match s with Buffer b => bounded_finish b | ToFile _ => [] end.
Definition sink_promote (s : Sink) (l : Log) : Sink :=
  match s with Buffer b => ToFile (log_write l (bounded_finish b)) | ToFile _ => ToFile l end.
(** One pipe's reader ([pump]): a chunk decoded, and what it came to pushed. *)
Definition pump (ps : bytes * Sink) (chunk : bytes) : bytes * Sink :=
  let '(text, pending) := stream_decode ps.1 chunk in
  (pending, match text with [] => ps.2 | _ => sink_push ps.2 text end).

(** tail.rs: the progress of a running command *)
Definition TAIL_LINES : nat := 5.
Definition sample (sent : option str) (s : Sink) : option str * option str :=
  let lines := sink_tail_lines s TAIL_LINES in
  if bool_decide (lines = []) || bool_decide (sent = Some lines) then (sent, None) else (Some lines, Some lines).

(** ** output.rs, upshot.rs: what a call answers *)

Inductive Ended := Exited (code : Z) | Timeout (after_ms : N) | Interrupted.
#[export] Instance Ended_eq_dec : EqDecision Ended.
Proof. solve_decision. Defined.
Definition three_digits (n : N) : str := [48 + n / 100; 48 + (n / 10) mod 10; 48 + n mod 10]%N.
(** The float division and its three decimals are exact for what a timeout can be. *)
Definition seconds (ms : N) : str :=
  trim_end_matches (chr ".") (trim_end_matches (chr "0") (show_N (ms / 1000) ++ lit "." ++ three_digits (ms mod 1000)%N)).
Definition unfinished (ended : Ended) : option str :=
  match ended with
  | Exited _ => None
  | Timeout after_ms => Some (lit "[timed out after " ++ seconds after_ms ++ lit "s]")
  | Interrupted => Some (lit "[interrupted]")
  end.
Definition shape_display (body : str) (ended : Ended) : str :=
  let footer := match ended with
                | Exited code => if (code =? 0)%Z then None else Some (lit "exit " ++ show_Z code)
                | other => unfinished other
                end in
  match footer with
  | Some footer => if bool_decide (body = []) then footer else body ++ newline ++ footer
  | None => body
  end.
Definition summary (line : str) : bool :=
  starts_with line (lit "test result:") || starts_with line (lit "Tests:")
  || ((2 <? utf8_len line)%N && starts_with line (lit "==") && ends_with line (lit "==")).
Fixpoint count_before_passed (words : list str) : option N :=
  match words with
  | count :: (word :: _) as rest =>
      let word := trim_end_by (fun c => (c =? chr ",")%N || (c =? chr ";")%N) word in
      match if bool_decide (word = lit "passed") then parse_u32 count else None with
      | Some n => Some n
      | None => count_before_passed rest
      end
  | _ => None
  end.
Definition passed (body : str) : option N :=
  let counts := omap (fun line => if summary line then count_before_passed (split_whitespace line) else None) (map trim (lines body)) in
  let total := foldl u32_add 0%N counts in if (0 <? total)%N then Some total else None.
Definition good (text : str) : Upshot := UpshotWords text Good.
Definition bad (text : str) : Upshot := UpshotWords text Bad.
Definition upshot (body : str) (whole : bool) (ended : Ended) : Upshot :=
  match ended with
  | Exited code =>
      if (code =? 0)%Z
      then match if whole then passed body else None with Some count => good (show_N count ++ lit " passed") | None => good (lit "ok") end
      else bad (lit "exit " ++ show_Z code)
  | Timeout _ => bad (lit "timed out")
  | Interrupted => bad (lit "stopped")
  end.
Definition view_text (text : str) : Event.View :=
  ViewOther (VObject [(lit "kind", VString (lit "Text")); (lit "children", VArray [VString text])]).
Definition shape (command output : str) (whole : bool) (ended : Ended) : ToolOutput :=
  let footer := match ended with
                | Exited code => lit "[Exited with code " ++ show_Z code ++ lit "]"
                | Timeout after_ms => lit "[Killed after " ++ seconds after_ms ++ lit "s timeout]"
                | Interrupted => lit "[Killed by the interrupt; output so far]"
                end in
  let body := default output (strip_suffix newline output) in
  mkToolOutput [PText (lit "$ " ++ command ++ newline ++ body ++ newline ++ footer)] (negb (bool_decide (ended = Exited 0)))
    (Some (view_text (shape_display body ended))) (Some (upshot body whole ended)).

(** ** jobs.rs, kill.rs, read.rs: the table of jobs *)

Inductive JobState := Running | JobExited (code : Z) | Killed.
Definition state_ended (s : JobState) : bool := match s with Running => false | _ => true end.
Definition state_said (s : JobState) : str :=
  match s with Running => lit "running" | JobExited code => lit "exited with code " ++ show_Z code | Killed => lit "killed" end.
Record Job := mkJob {
  jb_id : str; jb_command : str; jb_log : str; jb_session : SessionId; jb_item : ItemId; jb_since : str;
  jb_state : JobState; jb_asked_to_die : bool;
}.
Definition HEAD : nat := 48.
Definition command_head (command : str) : str :=
  let line := trim (default [] (head (lines command))) in
  if length line <=? HEAD then line else take (HEAD - 1) line ++ ellipsis.
Definition job_named (j : Job) : str := jb_id j ++ lit " (`" ++ command_head (jb_command j) ++ lit "`)".
Definition in_order {A} (m : gmap str A) : list A := omap (fun k => m !! k) (merge_sort str_le (elements (dom m))).
Definition Table : Type := gmap str Job.
Inductive Named := One (j : Job) | Unknown | Ambiguous (ids : list str).
Definition table_named (t : Table) (prefix : str) : Named :=
  let prefix := trim prefix in
  if bool_decide (prefix = []) then Unknown
  else match t !! prefix with
       | Some exact => One exact
       | None => match retain (fun j => starts_with (jb_id j) prefix) (in_order t) with
                 | [] => Unknown
                 | [one] => One one
                 | many => Ambiguous (map jb_id many)
                 end
       end.
Definition roll (t : Table) : str :=
  match map (fun j => jb_id j ++ lit " (" ++ state_said (jb_state j) ++ lit ")") (in_order t) with
  | [] => lit "No shell command has been backgrounded in this run."
  | some => lit "The jobs there are: " ++ join (lit ", ") some ++ lit "."
  end.
Definition find (t : Table) (prefix : str) : result str Job :=
  match table_named t prefix with
  | One j => Ok j
  | Ambiguous ids => Err (lit "`" ++ trim prefix ++ lit "` could be any of " ++ join (lit ", ") ids ++ lit "; say more of the id.")
  | Unknown => Err (lit "no job is called `" ++ trim prefix ++ lit "`. " ++ roll t)
  end.
Definition table_running (t : Table) : list Job := retain (fun j => negb (state_ended (jb_state j))) (in_order t).
Definition running_in (t : Table) (session : SessionId) : list Job := retain (fun j => bool_decide (jb_session j = session)) (table_running t).
Definition table_file (t : Table) (j : Job) : Table := <[jb_id j := j]> t.
Definition with_state (s : JobState) (j : Job) : Job :=
  mkJob (jb_id j) (jb_command j) (jb_log j) (jb_session j) (jb_item j) (jb_since j) s (jb_asked_to_die j).
Definition finished_as (t : Table) (id : str) (s : JobState) : Table := alter (with_state s) id t.
Definition ask_to_die (j : Job) : Job :=
  mkJob (jb_id j) (jb_command j) (jb_log j) (jb_session j) (jb_item j) (jb_since j) (jb_state j) true.
(** [end_all] asks every job still going. *)
Definition end_all (t : Table) : Table := (fun j => if state_ended (jb_state j) then j else ask_to_die j) <$> t.

Definition middle_dot : str := [183%N].
Definition read_shape (j : Job) (w : Window) : str :=
  let body := match trim_end_matches 10%N (wn_text w) with [] => lit "(nothing new)" | text => text end in
  lit "$ " ++ jb_command j ++ newline ++ body ++ newline ++ lit "[job " ++ jb_id j ++ lit " " ++ middle_dot ++ lit " " ++ state_said (jb_state j)
  ++ lit " " ++ middle_dot ++ lit " cursor " ++ show_N (N.of_nat (wn_cursor w))
  ++ (if wn_more w then lit " " ++ middle_dot ++ lit " more waiting" else []) ++ lit "]".
(** [BashOutput]: the logs there are, by path. *)
Definition output_call (t : Table) (logs : str -> result str bytes) (id : str) (cursor : option nat) : ToolOutput :=
  match find t id with
  | Err reason => output_error reason
  | Ok j =>
      match logs (jb_log j) with
      | Ok file => output_text (read_shape j (window file (default 0 cursor) MAX_OUTPUT_CHARS))
      | Err e => output_error (lit "job " ++ jb_id j ++ lit "'s log at " ++ jb_log j ++ lit " could not be read: " ++ e)
      end
  end.
(** [KillShell]: what the job had come to when the wait was over, if it was. *)
Definition kill_call (t : Table) (id : str) (came_to : option JobState) : ToolOutput * Table :=
  match find t id with
  | Err reason => (output_error reason, t)
  | Ok j =>
      if state_ended (jb_state j)
      then (output_text (lit "Job " ++ job_named j ++ lit " had already " ++ state_said (jb_state j) ++ lit ". Its log is " ++ jb_log j ++ lit "."), t)
      else
        let t := alter ask_to_die (jb_id j) t in
        match came_to with
        | None => (output_error (lit "Job " ++ job_named j ++ lit " was asked to stop and had not after 8s; `BashOutput` says where it got to."), t)
        | Some s => (output_text (lit "Job " ++ job_named j ++ lit " " ++ state_said s ++ lit ". Its log is " ++ jb_log j ++ lit ", and `BashOutput` still reads it."), t)
        end
  end.

(** ** notify.rs: what is worth waking a session for

    A span of time is its nanoseconds. *)

Definition MILLI : N := 1000000.
Definition SECOND : N := 1000000000.
Record Tally := mkTally { ta_count : nat; ta_last : option str }.
Definition tally_of (matching : list str) : Tally :=
  foldl (fun seen line => mkTally (S (ta_count seen)) (Some line)) (mkTally 0 None) matching.
Record Notice := mkNotice { no_line : str; no_more : nat }.
Definition folded (held : option Notice) (fresh : Tally) : option Notice :=
  match ta_last fresh with
  | None => held
  | Some line => Some (mkNotice line (match held with Some held => S (no_more held) | None => 0 end + ta_count fresh - 1))
  end.
Definition and_more (n : Notice) : str :=
  match no_more n with
  | O => []
  | 1 => newline ++ ellipsis ++ lit "and 1 more line matched since the last notice."
  | more => newline ++ ellipsis ++ lit "and " ++ show_N (N.of_nat more) ++ lit " more lines matched since the last notice."
  end.
Record Cadence := mkCadence { ca_since : option N; ca_window : N }.
Record Wake := mkWake { wk_notice : Notice; wk_cadence : option Cadence }.
Definition span_said (d : N) : str :=
  let secs := (d / SECOND)%N in
  if (secs =? 0)%N then show_N (d / MILLI) ++ lit " ms"
  else if (secs <? 60)%N then show_N secs ++ lit " s"
  else show_N (secs / 60) ++ lit "m " ++ show_N (secs mod 60) ++ lit "s".
Definition since_said (c : Cadence) : str :=
  match ca_since c with Some since => lit ", " ++ span_said since ++ lit " ago" | None => [] end.
Definition next_said (c : Cadence) : str :=
  if (ca_window c =? 0)%N then newline ++ lit "The next matching line wakes you at once."
  else newline ++ lit "The next notice comes no sooner than " ++ span_said (ca_window c) ++ lit " after this one.".
Definition quoted (s : str) : str := [34%N] ++ s ++ [34%N].
Definition matched_said (j : Job) (w : Wake) (at_ : str) : str :=
  let notice := wk_notice w in
  let more :=
    if no_more notice =? 0
    then match wk_cadence w ≫= ca_since with Some since => newline ++ lit "The last notice was " ++ span_said since ++ lit " ago." | None => [] end
    else trim_end_matches (chr ".") (and_more notice) ++ match wk_cadence w with Some c => since_said c | None => [] end ++ lit "." in
  let next := match wk_cadence w with Some c => next_said c | None => [] end in
  lit "Background job " ++ job_named j ++ lit " is still running and at " ++ at_ ++ lit " wrote a line you asked to be told about:" ++ newline
  ++ trim_end (no_line notice) ++ more ++ next ++ newline ++ lit "`BashOutput` with id " ++ quoted (jb_id j) ++ lit " reads on from there.".
Definition finished_said (j : Job) (s : JobState) (age : str) (pending : option Notice) (at_ : str) : str :=
  let matched := match pending with Some n => newline ++ lit "It matched: " ++ trim_end (no_line n) ++ and_more n | None => [] end in
  lit "Background job " ++ job_named j ++ lit " " ++ state_said s ++ lit " at " ++ at_ ++ lit ", after " ++ age ++ lit "." ++ matched ++ newline
  ++ lit "`BashOutput` with id " ++ quoted (jb_id j) ++ lit " reads what it wrote; its log is " ++ jb_log j ++ lit ".".

Section watching.
(** A regular expression, its reading and its matching; and two seconds times the lines
    past the first over a span of at least a tick, as floats come to it. *)
Context {Pattern : Type} (new_pattern : str → result str Pattern) (is_match : Pattern → str → bool) (bought : N → N → N).

Record Conditions := mkConditions {
  cn_substrings : list str; cn_pattern : option Pattern; cn_ongoing : bool; cn_quiet : option N;
}.
Definition watched (c : Conditions) : bool := negb (bool_decide (cn_substrings c = [])) || option_is_some (cn_pattern c).
Definition ALONE : str :=
  lit "notify_all watches nothing on its own: give notify_on a word or notify_regex a pattern for it to keep watching for.".
Definition PACES_NOTHING : str :=
  lit "notify_quiet paces a watch that keeps going, and this one stops at its first hit: set notify_all true for the window to apply, or drop notify_quiet.".
Definition conditions_new (on : list str) (regex : option str) (ongoing : bool) (quiet_ms : option N) : result str Conditions :=
  let* pattern := match regex with
                  | Some source => match new_pattern source with
                                   | Ok p => Ok (Some p)
                                   | Err e => Err (lit "notify_regex is not a pattern: " ++ e)
                                   end
                  | None => Ok None
                  end in
  let watch := mkConditions (retain (fun s => negb (bool_decide (s = []))) on) pattern ongoing ((fun ms => ms * MILLI)%N <$> quiet_ms) in
  if ongoing && negb (watched watch) then Err ALONE
  else if option_is_some (cn_quiet watch) && negb ongoing then Err PACES_NOTHING
  else Ok watch.
Definition line_matches (c : Conditions) (line : str) : bool :=
  any (contains_str line) (cn_substrings c) || match cn_pattern c with Some p => is_match p line | None => false end.
Definition matching (c : Conditions) (text : str) : list str := retain (line_matches c) (lines text).
Definition tally (c : Conditions) (text : str) : Tally := tally_of (matching c text).
Definition hit (c : Conditions) (text : str) : option str := ta_last (tally_of (take 1 (matching c text))).

(** ** supervise.rs: how often *)

Definition SCAN : N := 250 * MILLI.
Definition PACE : N := 2 * SECOND.
Definition CAP : N := 30 * SECOND.
Definition WINDOW : nat := N.to_nat 65536.
Definition next_window (lines : nat) (since : N) : N :=
  let extra := N.min (N.of_nat (lines - 1)) (2 ^ 32 - 1) in
  if (extra =? 0)%N then 0
  else let span := bought extra (N.max since SCAN) in if (CAP <=? span)%N then CAP else span.
Inductive Quiet := Adaptive (window : N) | Pinned (window : N).
Definition quiet_window (q : Quiet) : N := match q with Adaptive w | Pinned w => w end.
Definition observe (q : Quiet) (lines : nat) (since : N) : Quiet :=
  match q with Adaptive _ => Adaptive (next_window lines since) | Pinned w => Pinned w end.

(** An ongoing watch, as the instants of its clock. *)
Record Ongoing := mkOngoing { og_started : N; og_last_wake : option N; og_held : option Notice; og_quiet : Quiet }.
Definition ongoing_new (now : N) (q : Quiet) : Ongoing := mkOngoing now None None q.
Definition tick (now : N) (o : Ongoing) (fresh : Tally) : Ongoing * option Wake :=
  match folded (og_held o) fresh with
  | None => (mkOngoing (og_started o) (og_last_wake o) None (og_quiet o), None)
  | Some notice =>
      let since := (now - default (og_started o) (og_last_wake o))%N in
      if option_is_some (og_last_wake o) && (since <? quiet_window (og_quiet o))%N
      then (mkOngoing (og_started o) (og_last_wake o) (Some notice) (og_quiet o), None)
      else
        let quiet := observe (og_quiet o) (S (no_more notice)) since in
        (mkOngoing (og_started o) (Some now) None quiet,
         Some (mkWake notice (Some (mkCadence (match og_last_wake o with Some _ => Some since | None => None end) (quiet_window quiet)))))
  end.
Definition remainder (o : Ongoing) : option Notice := og_held o.

Inductive Mode := Once (fired : bool) | All (o : Ongoing).
Record Scan := mkScan { sn_cursor : nat; sn_mode : Mode }.
Definition scan_new (now : N) (c : Conditions) : Scan :=
  mkScan 0 (if cn_ongoing c
            then All (ongoing_new now (match cn_quiet c with Some q => Pinned q | None => Adaptive 0 end))
            else Once false).
Definition scan_watching (c : Conditions) (s : Scan) : bool :=
  watched c && match sn_mode s with Once true => false | _ => true end.
(** What is new in the log, where it could be read. *)
Definition scan_read (c : Conditions) (s : Scan) (log : option bytes) : Scan * option str :=
  if negb (scan_watching c s) then (s, None)
  else match log with
       | None => (s, None)
       | Some file => let w := window file (sn_cursor s) WINDOW in (mkScan (wn_cursor w) (sn_mode s), Some (wn_text w))
       end.
Definition look (now : N) (c : Conditions) (s : Scan) (log : option bytes) : Scan * option Wake :=
  match scan_read c s log with
  | (s, None) => (s, None)
  | (s, Some text) =>
      match sn_mode s with
      | Once fired =>
          match hit c text with
          | None => (s, None)
          | Some line => (mkScan (sn_cursor s) (Once true), Some (mkWake (mkNotice line 0) None))
          end
      | All o => let '(o, wake) := tick now o (tally c text) in (mkScan (sn_cursor s) (All o), wake)
      end
  end.
Definition last_look (now : N) (c : Conditions) (s : Scan) (log : option bytes) : Scan * option Notice :=
  let '(s, wake) := look now c s log in
  let last := wk_notice <$> wake in
  match sn_mode s with
  | Once _ => (s, last)
  | All o =>
      match last with
      | Some n => (s, Some n)
      | None => (mkScan (sn_cursor s) (All (mkOngoing (og_started o) (og_last_wake o) None (og_quiet o))), remainder o)
      end
  end.
End watching.

(** A job's own task: how it ended, whether anyone could be told, and what that leaves
    in its log. *)
Definition gone (message : str) : str :=
  lit "nobody was told this job had news: the session that started it is gone (" ++ message ++ lit ")".
Definition announce (delivered : result KernelError ()) (s : Sink) : Sink :=
  match delivered, s with
  | Err e, ToFile l => ToFile (log_note l (gone (ke_message e)))
  | _, _ => s
  end.

Definition state_of (code : option Z) : JobState := match code with Some code => JobExited code | None => Killed end.
Definition age (elapsed : N) : str :=
  if (elapsed <? 60)%N then show_N elapsed ++ lit "s"
  else if (elapsed <? 3600)%N then show_N (elapsed / 60) ++ lit "m" else show_N (elapsed / 3600) ++ lit "h".
(** What the job came to, as its completion says it. *)
Definition outcome (log : option bytes) (s : JobState) : str :=
  let said ended :=
    let w := (fun file => window file 0 MAX_OUTPUT_CHARS) <$> log in
    match upshot (match w with Some w => wn_text w | None => [] end) (match w with Some w => negb (wn_more w) | None => false end) ended with
    | UpshotWords text _ => text
    | UpshotDiff _ _ => state_said s
    end in
  match s with JobExited code => said (Exited code) | Killed => said Interrupted | Running => lit "running" end.
Definition tone (s : JobState) : Tone :=
  match s with JobExited code => if (code =? 0)%Z then Good else Bad | Killed | Running => Neutral end.
Definition backtick : char := chr "`".
Definition code_span (text : str) : str :=
  let longest := foldr Nat.max 0 (map length (split_by (fun c => negb (c =? backtick)%N) text)) in
  let fence := replicate (S longest) backtick in
  let pad := if starts_with text [backtick] || ends_with text [backtick] || (starts_with text (lit " ") && ends_with text (lit " "))
             then lit " " else [] in
  fence ++ pad ++ text ++ pad ++ fence.
Definition is_ascii_punctuation (c : char) : bool :=
  ((33 <=? c) && (c <=? 47) || (58 <=? c) && (c <=? 64) || (91 <=? c) && (c <=? 96) || (123 <=? c) && (c <=? 126))%N.
Definition plain (text : str) : str := text ≫= (fun c => if is_ascii_punctuation c then [chr "\"; c] else [c]).
Definition headline_parts (j : Job) (came_to : str) : list str :=
  [code_span (command_head (jb_command j)) ++ lit " finished in the background"; plain came_to].

Section supervising.
Context {Pattern : Type} (is_match : Pattern → str → bool) (bought : N → N → N) (c : @Conditions Pattern) (j : Job).
(** What the job's task keeps: its scan, its sink, and what it told the session. *)
Record Supervised := mkSupervised { sv_scan : Scan; sv_sink : Sink; sv_told : list str }.
Definition sink_file (s : Sink) : option bytes := match s with ToFile l => Some (lg_file l) | Buffer _ => None end.
(** A tick of [wait_out], with the clock it stamps a notice with and what the session
    answered. *)
Definition scan_tick (now : N) (at_ : str) (delivered : result KernelError ()) (v : Supervised) : Supervised :=
  let '(scan, wake) := look is_match bought now c (sv_scan v) (sink_file (sv_sink v)) in
  match wake with
  | None => mkSupervised scan (sv_sink v) (sv_told v)
  | Some w => mkSupervised scan (announce delivered (sv_sink v)) (sv_told v ++ [matched_said j w at_])
  end.
(** The end of [supervise]: the last look, the state, and the completion. *)
Definition job_over (now : N) (at_ : str) (elapsed : N) (code : option Z) (delivered : result KernelError ()) (t : Table) (v : Supervised)
    : Table * Supervised :=
  let '(scan, pending) := last_look is_match bought now c (sv_scan v) (sink_file (sv_sink v)) in
  let s := state_of code in
  (finished_as t (jb_id j) s,
   mkSupervised scan (announce delivered (sv_sink v)) (sv_told v ++ [finished_said j s (age elapsed) pending at_])).
End supervising.

(** ** promote.rs: the calls that can still be taken into the background *)

Record Foreground := mkForeground { fg_session : SessionId; fg_item : ItemId; fg_cancelled : bool }.
Record Desk := mkDesk { dk_table : Table; dk_open : gmap str Foreground }.
Definition set_open (d : Desk) (open : gmap str Foreground) : Desk := mkDesk (dk_table d) open.
Definition listen (d : Desk) (call : str) (session : SessionId) (item : ItemId) : Desk :=
  set_open d (<[call := mkForeground session item false]> (dk_open d)).
Definition stop_listening (d : Desk) (call : str) : Desk := set_open d (delete call (dk_open d)).
Definition promote (d : Desk) (call : str) : bool * Desk :=
  match dk_open d !! trim call with
  | None => (false, d)
  | Some f => (true, set_open d (<[trim call := mkForeground (fg_session f) (fg_item f) true]> (dk_open d)))
  end.
Definition nothing_promoted (d : Desk) (asked : str) : str :=
  if bool_decide (dk_open d = ∅) then lit "no shell command is running"
  else if bool_decide (trim asked = []) then lit "say which call to background"
  else lit "no shell command is running as `" ++ trim asked ++ lit "`".
Definition promote_command (d : Desk) (args : str) : str * Desk :=
  match promote d args with
  | (true, d) => (lit "backgrounding it", d)
  | (false, d) => (nothing_promoted d args, d)
  end.

(** ** lib.rs: the [Bash] tool *)

Definition DEFAULT_TIMEOUT_MS : N := 120000.
Definition MAX_TIMEOUT_MS : N := 600000.
Definition deadline (timeout : option N) : N := N.min (default DEFAULT_TIMEOUT_MS timeout) MAX_TIMEOUT_MS.
Record BashArgs := mkBashArgs {
  ba_command : str; ba_background : option bool; ba_timeout : option N; ba_notify_on : option (list str);
  ba_notify_regex : option str; ba_notify_all : option bool; ba_notify_quiet : option N;
}.
(** The call a command is run for, and the clock time of a job's start. *)
Record CallContext := mkCallContext {
  cc_call : str; cc_session : SessionId; cc_item : ItemId; cc_data_dir : str; cc_since : str;
}.
Definition log_path (data_dir id : str) : str := path_push (path_push data_dir (lit "bash")) (id ++ lit ".log").
Definition new_job (cx : CallContext) (command id : str) : Job :=
  mkJob id command (log_path (cc_data_dir cx) id) (cc_session cx) (cc_item cx) (cc_since cx) Running false.
Definition shown (j : Job) : Event.View :=
  ViewOther (VObject [(lit "kind", VString (lit "custom")); (lit "customKind", VString (lit "job"));
    (lit "data", VObject [(lit "id", VString (jb_id j)); (lit "command", VString (command_head (jb_command j)))]);
    (lit "fold", VString (lit "Started in the background as " ++ jb_id j))]).
Definition answered (text : str) (j : Job) : ToolOutput :=
  mkToolOutput [PText text] false (Some (shown j)) (Some (UpshotWords (lit "in background") Neutral)).
Definition started (j : Job) (why : option str) : str :=
  lit "Started `" ++ command_head (jb_command j) ++ lit "` in the background as job " ++ jb_id j ++ lit "."
  ++ match why with Some why => lit " It was backgrounded although the call did not ask: " ++ why ++ lit "." | None => [] end
  ++ lit " You will be told when it ends: ending your turn is how you wait for that, and the notification wakes you, so there is no reason to poll and nothing to sleep for. `BashOutput` with id "
  ++ quoted (jb_id j) ++ lit " reads what it has written when you want it, and `KillShell` ends it. Its log is " ++ jb_log j ++ lit ".".
Definition promoted (j : Job) : str :=
  lit "`" ++ command_head (jb_command j) ++ lit "` was moved into the background as job " ++ jb_id j
  ++ lit " while it ran: the same process, carrying on with no timeout. You will be told when it ends, and ending your turn is how you wait for that; `BashOutput` with id "
  ++ quoted (jb_id j) ++ lit " reads what it has written so far, and `KillShell` ends it. Its log is " ++ jb_log j ++ lit ".".

(** What a call comes to: its answer, the tables, and where a job it leaves running
    writes. *)
Record Called := mkCalled { cl_answer : result ToolError ToolOutput; cl_desk : Desk; cl_job : option (str * Sink) }.
(** The log's name, or why no log could be made. *)
Definition detach (d : Desk) (cx : CallContext) (command : str) (why : option str)
    (opened : result ToolError str) (spawned : result ToolError ()) : Called :=
  match opened with
  | Err e => mkCalled (Err e) d None
  | Ok id =>
      let job := new_job cx command id in
      let d := mkDesk (table_file (dk_table d) job) (dk_open d) in
      match spawned with
      | Err e => mkCalled (Err e) d None
      | Ok _ => mkCalled (Ok (answered (started job why) job)) d (Some (id, ToFile log_create))
      end
  end.
(** How the wait ended, and what the command had written by then. *)
Inductive Stop := Over (ended : Ended) | Promoted.
Definition hand_over (d : Desk) (cx : CallContext) (command : str) (opened : result ToolError str) (wrote : Sink) : Called :=
  match opened with
  | Err e => mkCalled (Ok (output_error (tool_error_text e ++ newline ++ trim_end (sink_finish wrote)))) d None
  | Ok id =>
      let job := new_job cx command id in
      mkCalled (Ok (answered (promoted job) job)) (mkDesk (table_file (dk_table d) job) (dk_open d)) (Some (id, sink_promote wrote log_create))
  end.
Definition wait_for (d : Desk) (cx : CallContext) (args : BashArgs)
    (spawned : result ToolError ()) (stopped : result ToolError Stop) (opened : result ToolError str) (wrote : Sink) : Called :=
  let d := stop_listening (listen d (cc_call cx) (cc_session cx) (cc_item cx)) (cc_call cx) in
  match spawned with
  | Err e => mkCalled (Err e) d None
  | Ok _ =>
      match stopped with
      | Err e => mkCalled (Err e) d None
      | Ok (Over ended) => mkCalled (Ok (shape (ba_command args) (sink_finish wrote) (sink_whole wrote) ended)) d None
      | Ok Promoted => hand_over d cx (ba_command args) opened wrote
      end
  end.

Section calls.
Context {Pattern : Type} (new_pattern : str → result str Pattern) (shlex_split : str → option (list str)).
Inductive Verdict := Refused (reason : str) | Detaches (c : @Conditions Pattern) (why : option str) | Waits (c : @Conditions Pattern).
(** [call], up to where anything is spawned. *)
Definition verdict (args : BashArgs) : Verdict :=
  match interactive_reason shlex_split (ba_command args) with
  | Some reason => Refused reason
  | None =>
      match conditions_new new_pattern (default [] (ba_notify_on args)) (ba_notify_regex args) (default false (ba_notify_all args)) (ba_notify_quiet args) with
      | Err reason => Refused reason
      | Ok c =>
          let endless := endless_reason shlex_split (ba_command args) in
          if default false (ba_background args) || option_is_some endless then Detaches c endless
          else match idle_reason shlex_split (ba_command args) with Some reason => Refused reason | None => Waits c end
      end
  end.
Definition bash_call (d : Desk) (cx : CallContext) (args : BashArgs)
    (opened : result ToolError str) (spawned : result ToolError ()) (stopped : result ToolError Stop) (wrote : Sink) : Called :=
  match verdict args with
  | Refused reason => mkCalled (Ok (output_error reason)) d None
  | Detaches _ why => detach d cx (ba_command args) why opened spawned
  | Waits _ => wait_for d cx args spawned stopped opened wrote
  end.
End calls.

(** ** shell.rs: a line a person typed *)

Definition person_wrote (output : str) (ended : Ended) : str :=
  match unfinished ended with
  | None => output
  | Some ending =>
      let body := default output (strip_suffix newline output) in
      if bool_decide (body = []) then ending else body ++ newline ++ ending
  end.
Definition exit_of (ended : Ended) : option Z := match ended with Exited code => Some code | _ => None end.
