(* ===== verification/ShellLaws.v ===== *)
(** * ShellLaws: what is read of a command is what it wrote

    A stream reads the same however its bytes arrive; the buffer of a call keeps the
    two ends of what was written; what a job wrote reads back from its log, window by
    window, with nothing repeated and nothing skipped; and every line a watch matched
    is in one notice. *)

From S2P Require Import Prelude Text Model Interaction Event PermPath Numbers Utf8 Ears Round ShellWords Shell.

(** ** A stream, however it arrives *)

(** What bytes come to as text, and what of a character is still to come. *)
Definition lossy (l : bytes) : str * bytes := decode_pending (length l) l.

Lemma from_utf8_broken l t n over : from_utf8 l = (t, BrokenBy n, over) → (1 ≤ n ≤ length over)%nat ∧ (length over ≤ length l)%nat.
Proof.
  unfold from_utf8. generalize (length l) at 1. intros fuel. revert l t. induction fuel as [|fuel IH]; intros [|a l] t; cbn [valid]; [done..|].
  destruct (front a l) as [c rest|m|] eqn:Ef; [|intros [= _ <- <-]; apply front_broken in Ef; cbn; lia|done].
  destruct (valid fuel rest) as [[t' e] o] eqn:Ev. intros [= _ -> ->]. apply IH in Ev. apply front_shrinks in Ef. cbn. lia.
Qed.
Lemma decode_pending_fuel fuel l : (length l ≤ fuel)%nat → decode_pending fuel l = lossy l.
Proof.
  unfold lossy. remember (length l) as m eqn:Em. assert (length l ≤ m)%nat as Hm by lia. clear Em. revert l m Hm.
  induction fuel as [|fuel IH]; intros l m Hm Hf.
  { assert (l = []) as -> by (destruct l; [done|cbn in *; lia]). by destruct m. }
  destruct m as [|m]. { assert (l = []) as -> by (destruct l; [done|cbn in *; lia]). done. }
  cbn [decode_pending]. destruct (from_utf8 l) as [[t []] over] eqn:E; [done| |done]. apply from_utf8_broken in E.
  by rewrite (IH (drop n over) m) by (rewrite ?length_drop; lia).
Qed.
Lemma lossy_cons a l : lossy (a :: l) =
  match front a l with
  | Char c rest => let '(text, over) := lossy rest in (c :: text, over)
  | Broken n => let '(text, over) := lossy (drop n (a :: l)) in (REPLACEMENT :: text, over)
  | Short => ([], a :: l)
  end.
Proof.
  unfold lossy at 1. cbn [length decode_pending]. rewrite from_utf8_cons. destruct (front a l) as [c rest|n|] eqn:Ef; [| |done].
  - pose proof (front_shrinks _ _ _ _ Ef). unfold lossy. destruct (length rest) as [|m] eqn:El.
    { assert (rest = []) as -> by (destruct rest; [done|cbn in *; lia]). cbn. by destruct l. }
    cbn [decode_pending]. destruct (from_utf8 rest) as [[t []] over] eqn:E; [done| |done]. apply from_utf8_broken in E.
    rewrite !(decode_pending_fuel _ (drop n over)) by (rewrite length_drop; lia). by destruct (lossy (drop n over)).
  - apply front_broken in Ef. rewrite decode_pending_fuel by (rewrite length_drop; cbn; lia). done.
Qed.
Lemma lossy_app x y : lossy (x ++ y) = let '(text, over) := lossy x in let '(text', over') := lossy (over ++ y) in (text ++ text', over').
Proof.
  remember (length x) as m eqn:Em. assert (length x ≤ m)%nat as Hm by lia. clear Em. revert x Hm.
  assert (lossy ([] ++ y) = let '(text, over) := lossy [] in let '(text', over') := lossy (over ++ y) in (text ++ text', over')) as H0.
  { change (lossy []) with (@nil N, @nil N). cbn [app]. by destruct (lossy y). }
  induction m as [|m IH]; intros [|a x] Hm; cbn in Hm; [done|lia|done|].
  change ((a :: x) ++ y) with (a :: (x ++ y)). rewrite !lossy_cons. destruct (front a x) as [c rest|n|] eqn:Ef.
  - rewrite front_app, Ef by congruence. pose proof (front_shrinks _ _ _ _ Ef). rewrite (IH rest) by lia.
    destruct (lossy rest) as [t o]. by destruct (lossy (o ++ y)).
  - rewrite front_app, Ef by congruence. apply front_broken in Ef. change (a :: x ++ y) with ((a :: x) ++ y).
    rewrite drop_app_le by (cbn; lia). rewrite (IH (drop n (a :: x))) by (rewrite length_drop; cbn; lia).
    destruct (lossy (drop n (a :: x))) as [t o]. by destruct (lossy (o ++ y)).
  - cbn [app]. rewrite lossy_cons. by match goal with |- ?L = _ => destruct L end.
Qed.
Lemma stream_decode_lossy pending chunk : stream_decode pending chunk = lossy (pending ++ chunk).
Proof. done. Qed.
Lemma lossy_utf8 s : Forall is_char s → lossy (utf8 s) = (s, []).
Proof. intros Hs. unfold lossy. destruct (utf8 s) eqn:E; [by apply utf8_nil in E as ->|]. cbn [length decode_pending]. by rewrite <- E, from_utf8_whole. Qed.
Lemma lossy_over l : (length (lossy l).2 < 4)%nat ∧ lossy (lossy l).2 = ([], (lossy l).2).
Proof.
  remember (length l) as m eqn:Em. assert (length l ≤ m)%nat as Hm by lia. clear Em. revert l Hm.
  induction m as [|m IH]; intros [|a l] Hm; cbn in Hm; [cbn; split; [lia|done]|lia|cbn; split; [lia|done]|].
  rewrite lossy_cons. destruct (front a l) as [c rest|n|] eqn:Ef.
  - apply front_shrinks in Ef. specialize (IH rest ltac:(lia)). by destruct (lossy rest).
  - apply front_broken in Ef. specialize (IH (drop n (a :: l)) ltac:(rewrite length_drop; cbn; lia)). by destruct (lossy _).
  - split; [by apply front_short_length in Ef|]. cbn [snd]. by rewrite lossy_cons, Ef.
Qed.

(** ** The buffer keeps the two ends *)

Definition last_n {A} (n : nat) (l : list A) : list A := drop (length l - n) l.
Lemma last_n_snoc {A} n (l : list A) x : 0 < n →
  last_n n (l ++ [x]) = (if length (last_n n l) =? n then tail (last_n n l) else last_n n l) ++ [x].
Proof.
  intros Hn. unfold last_n. rewrite length_drop, length_app. cbn [length].
  destruct (Nat.eqb_spec (length l - (length l - n)) n) as [E|E].
  - rewrite drop_app_le by lia. f_equal. replace (length l + 1 - n) with (length l - n + 1) by lia.
    rewrite <- drop_drop. by destruct (drop (length l - n) l).
  - replace (length l + 1 - n) with 0 by lia. by replace (length l - n) with 0 by lia.
Qed.
Lemma bounded_push_spec max text :
  bounded_push (bounded_new max) text = mkBounded (take (max / 2) text) (max / 2) (last_n (max - max / 2) text) (max - max / 2) (length text).
Proof.
  unfold bounded_push, bounded_new. generalize (max / 2). intros h. induction text as [|c text IH] using rev_ind; [by rewrite take_nil|].
  rewrite foldl_snoc, IH. unfold push_char. cbn [bd_head bd_head_max bd_tail bd_tail_max bd_total]. rewrite length_app. cbn [length]. f_equal; [| |lia].
  - destruct (Nat.ltb_spec (length text) h).
    + rewrite !take_ge by (rewrite ?length_app; cbn; lia). done.
    + by rewrite take_app_le by lia.
  - destruct (Nat.ltb_spec 0 (max - h)); [by rewrite last_n_snoc|]. unfold last_n. by rewrite !drop_ge by (rewrite ?length_app; lia).
Qed.
(** What is kept of a text: all of it, or its two ends about a note of what is not. *)
Definition ends (max : nat) (text : str) : str :=
  if length text <=? max then text else take (max / 2) text ++ truncated (length text - max) ++ last_n (max - max / 2) text.
Lemma half_le n : n / 2 ≤ n.
Proof. apply Nat.Div0.div_le_upper_bound. lia. Qed.
Lemma bounded_finish_ends max text : bounded_finish (bounded_push (bounded_new max) text) = ends max text
  ∧ bounded_whole (bounded_push (bounded_new max) text) = (length text <=? max).
Proof.
  rewrite bounded_push_spec. unfold bounded_finish, bounded_whole, ends. cbn [bd_head bd_head_max bd_tail bd_tail_max bd_total].
  pose proof (half_le max) as Hh. remember (max / 2) as h eqn:Eh. clear Eh. replace (h + (max - h)) with max by lia. split; [|done].
  destruct (Nat.leb_spec (length text) max) as [Hl|Hl].
  - rewrite (proj2 (Nat.eqb_eq _ _)) by lia. unfold last_n. rewrite length_drop, drop_drop.
    destruct (Nat.le_gt_cases (length text) h).
    + rewrite take_ge by done. rewrite drop_ge by lia. by rewrite app_nil_r.
    + replace (length text - (max - h) + (Nat.min (length text) h + (length text - (length text - (max - h))) - length text)) with h by lia.
      apply take_drop.
  - rewrite (proj2 (Nat.eqb_neq _ _)) by lia. done.
Qed.

(** ** The log keeps what fits *)

Lemma up_to_prefix s n : ∃ r, s = up_to s n ++ r.
Proof. revert n. induction s as [|c s IH]; intros n; [by exists []|]. cbn. destruct (_ <=? n); [|by exists (c :: s)]. destruct (IH (n - length (utf8_char c))) as [r E]. exists r. cbn. congruence. Qed.
Lemma up_to_full s n : length (utf8 s) ≤ n → up_to s n = s.
Proof.
  revert n. induction s as [|c s IH]; intros n Hn; [done|]. rewrite utf8_cons, length_app in Hn. cbn.
  rewrite (proj2 (Nat.leb_le _ _)) by lia. by rewrite IH by lia.
Qed.
Lemma up_to_fits s n : length (utf8 (up_to s n)) ≤ n.
Proof.
  revert n. induction s as [|c s IH]; intros n; [cbn; lia|]. cbn. destruct (Nat.leb_spec (length (utf8_char c)) n); [|cbn; lia].
  rewrite utf8_cons, length_app. specialize (IH (n - length (utf8_char c))). lia.
Qed.
Lemma up_to_app a b n : length (utf8 a) ≤ n → up_to (a ++ b) n = a ++ up_to b (n - length (utf8 a)).
Proof.
  revert n. induction a as [|c a IH]; intros n Hn; [by rewrite Nat.sub_0_r|]. rewrite utf8_cons, length_app in Hn. cbn [app up_to].
  rewrite (proj2 (Nat.leb_le _ _)) by lia. rewrite IH by lia. rewrite utf8_cons, length_app. by rewrite Nat.sub_add_distr.
Qed.
Lemma up_to_over a b n : n < length (utf8 a) → up_to (a ++ b) n = up_to a n.
Proof.
  revert n. induction a as [|c a IH]; intros n Hn; [cbn in Hn; lia|]. rewrite utf8_cons, length_app in Hn. cbn [app up_to].
  destruct (Nat.leb_spec (length (utf8_char c)) n); [|done]. by rewrite IH by lia.
Qed.
(** What the cut at a boundary keeps is what fits. *)
Lemma boundary_zero s : is_char_boundary s 0 = true.
Proof. by destruct s. Qed.
Lemma boundary_up_to s n : is_char_boundary s n = true → length (utf8 (up_to s n)) = n.
Proof.
  revert n. induction s as [|c s IH]; intros n Hb; cbn [is_char_boundary] in Hb; [by apply Nat.eqb_eq in Hb as ->|].
  destruct (decide (n = 0)) as [E|E]; [rewrite E; pose proof (up_to_fits (c :: s) 0); lia|].
  rewrite (proj2 (Nat.eqb_neq n 0)) in Hb by done. revert Hb.
  destruct (Nat.ltb_spec n (length (utf8_char c))); [done|]. intros Hb. cbn [up_to]. rewrite (proj2 (Nat.leb_le _ _)) by lia.
  rewrite utf8_cons, length_app, IH by done. lia.
Qed.
Lemma up_to_between s n m : n ≤ m → is_char_boundary s n = true → (∀ k, n < k ≤ m → is_char_boundary s k = false) → up_to s m = up_to s n.
Proof.
  revert n m. induction s as [|c s IH]; intros n m Hnm Hn Hm; [done|]. cbn [up_to].
  pose proof (utf8_char_length c). destruct (Nat.leb_spec (length (utf8_char c)) m) as [Hcm|Hcm].
  - destruct (Nat.leb_spec (length (utf8_char c)) n) as [Hcn|Hcn].
    + rewrite (IH (n - length (utf8_char c)) (m - length (utf8_char c))); [done|lia| |].
      * cbn [is_char_boundary] in Hn. rewrite (proj2 (Nat.eqb_neq _ _)) in Hn by lia. by rewrite (proj2 (Nat.ltb_ge _ _)) in Hn by lia.
      * intros k Hk. specialize (Hm (k + length (utf8_char c)) ltac:(lia)). cbn [is_char_boundary] in Hm. rewrite (proj2 (Nat.eqb_neq _ _)) in Hm by lia.
        rewrite (proj2 (Nat.ltb_ge _ _)) in Hm by lia. by rewrite Nat.add_sub in Hm.
    + specialize (Hm (length (utf8_char c)) ltac:(lia)). cbn [is_char_boundary] in Hm. rewrite (proj2 (Nat.eqb_neq _ _)) in Hm by lia.
      rewrite Nat.ltb_irrefl, Nat.sub_diag, boundary_zero in Hm. done.
  - by rewrite (proj2 (Nat.leb_gt _ n)) by lia.
Qed.
Lemma boundary_from_spec s at_ : boundary_from s at_ ≤ at_ ∧ is_char_boundary s (boundary_from s at_) = true
  ∧ ∀ k, boundary_from s at_ < k ≤ at_ → is_char_boundary s k = false.
Proof.
  induction at_ as [|at_ (Hle & Hb & Hn)]; cbn [boundary_from]; [split_and!; [lia|apply boundary_zero|lia]|].
  destruct (is_char_boundary s (S at_)) eqn:E; [split_and!; [lia|done|lia]|]. split_and!; [lia|done|].
  intros k Hk. destruct (decide (k = S at_)) as [->|]; [done|]. apply Hn. lia.
Qed.
Lemma floor_keeps_what_fits s n : n ≤ length (utf8 s) → up_to s (floor_char_boundary s n) = up_to s n.
Proof.
  intros Hn. unfold floor_char_boundary. rewrite Nat.min_l by done. destruct (boundary_from_spec s n) as (Hle & Hb & Hm).
  symmetry. by apply up_to_between.
Qed.

Definition CAPACITY : nat := N.to_nat MAX_BYTES.
(** What a log holds of a text written to it. *)
Definition logged (text : str) : str := if length (utf8 text) <=? CAPACITY then text else up_to text CAPACITY ++ capped.
Definition log_of (text : str) : Log :=
  mkLog (utf8 (logged text)) (N.of_nat (length (utf8 (up_to text CAPACITY)))) (negb (length (utf8 text) <=? CAPACITY)).
Lemma log_of_nil : log_of [] = log_create.
Proof. unfold log_of, logged. cbn [utf8 length mbind list_bind]. by rewrite (proj2 (Nat.leb_le 0 CAPACITY)) by lia. Qed.
Lemma log_write_of text more : log_write (log_of text) more = log_of (text ++ more).
Proof.
  unfold log_write, log_of at 1. cbn [lg_full lg_written lg_file]. unfold log_of, logged. rewrite utf8_app, length_app.
  destruct (Nat.leb_spec (length (utf8 text)) CAPACITY) as [Hf|Hf]; cbn [negb].
  - rewrite (up_to_full text) by done. cbn [lg_written].
    assert (N.to_nat (MAX_BYTES - N.of_nat (length (utf8 text))) = CAPACITY - length (utf8 text)) as -> by (unfold CAPACITY; lia).
    destruct (Nat.leb_spec (length (utf8 more)) (CAPACITY - length (utf8 text))) as [Hm|Hm].
    + rewrite (proj2 (Nat.leb_le _ _)) by lia. cbn [negb]. rewrite up_to_full by (rewrite utf8_app, length_app; lia).
      unfold log_append. cbn [lg_file lg_written lg_full]. rewrite utf8_app, length_app. by rewrite Nat2N.inj_add.
    + rewrite (proj2 (Nat.leb_gt _ _)) by lia. cbn [negb]. rewrite floor_keeps_what_fits by lia. rewrite up_to_app by done.
      unfold log_append. cbn [lg_file lg_written lg_full]. rewrite !utf8_app, length_app, <- app_assoc. by rewrite Nat2N.inj_add.
  - rewrite (proj2 (Nat.leb_gt _ _)) by lia. by rewrite up_to_over.
Qed.
Lemma logged_prefix text more : length (utf8 text) ≤ CAPACITY → ∃ r, logged (text ++ more) = text ++ r.
Proof.
  intros Hf. unfold logged. case_match; [by eexists|]. rewrite up_to_app by done. rewrite <- app_assoc. by eexists.
Qed.
Lemma logged_grows text more : ∃ r, logged (text ++ more) = logged text ++ r.
Proof.
  destruct (Nat.le_gt_cases (length (utf8 text)) CAPACITY) as [Hf|Hf].
  - destruct (logged_prefix text more Hf) as [r E]. exists r. unfold logged at 2. by rewrite (proj2 (Nat.leb_le _ _)).
  - exists []. unfold logged. rewrite utf8_app, length_app. rewrite !(proj2 (Nat.leb_gt _ _)) by lia. by rewrite up_to_over, app_nil_r.
Qed.

(** ** Windows over a log *)

Definition charb (c : char) : bool := (c <? 55296)%N || ((57344 <=? c) && (c <? 1114112))%N.
Lemma charb_chars s : forallb charb s = true → Forall is_char s.
Proof.
  intros H. apply Forall_forall. intros c Hc%list_elem_of_In. eapply forallb_forall in H; [|exact Hc]. unfold charb in H. unfold is_char.
  apply orb_true_iff in H as [?%N.ltb_lt|[?%N.leb_le ?%N.ltb_lt]%andb_true_iff]; auto.
Qed.
Lemma show_N_chars n : Forall is_char (show_N n).
Proof.
  eapply Forall_impl; [apply show_chars|]. intros c Hc. unfold is_ascii_digit in Hc. apply andb_true_iff in Hc as [_ Hc%N.leb_le]. left. lia.
Qed.
Lemma up_to_chars s n : Forall is_char s → Forall is_char (up_to s n).
Proof. intros Hs. destruct (up_to_prefix s n) as [r E]. rewrite E in Hs. by apply Forall_app in Hs as [? _]. Qed.
Lemma logged_chars s : Forall is_char s → Forall is_char (logged s).
Proof. intros Hs. unfold logged. case_match; [done|]. apply Forall_app. split; [by apply up_to_chars|]. apply charb_chars. vm_compute. reflexivity. Qed.
Lemma ends_chars max s : Forall is_char s → Forall is_char (ends max s).
Proof.
  intros Hs. unfold ends. case_match; [done|]. apply Forall_app. split; [by apply Forall_take|]. apply Forall_app. split; [|by apply Forall_drop].
  unfold truncated. rewrite !Forall_app. split_and!; try apply show_N_chars; apply charb_chars; vm_compute; reflexivity.
Qed.
Lemma lossy_chars l : Forall is_char (lossy l).1.
Proof.
  remember (length l) as m eqn:Em. assert (length l ≤ m)%nat as Hm by lia. clear Em. revert l Hm.
  induction m as [|m IH]; intros [|a l] Hm; cbn in Hm; [done|lia|done|]. rewrite lossy_cons. destruct (front a l) as [c rest|n|] eqn:Ef; [| |done].
  - pose proof (front_is_char _ _ _ _ Ef). apply front_shrinks in Ef. specialize (IH rest ltac:(lia)). destruct (lossy rest). by constructor.
  - apply front_broken in Ef. specialize (IH (drop n (a :: l)) ltac:(rewrite length_drop; cbn; lia)). destruct (lossy _).
    constructor; [right; unfold REPLACEMENT; lia|done].
Qed.
Lemma window_reads a b max : Forall is_char b → 4 ≤ max → ∃ t u, b = t ++ u
  ∧ window (utf8 (a ++ b)) (length (utf8 a)) max = mkWindow t (length (utf8 (a ++ t))) (negb (bool_decide (u = [])))
  ∧ (b ≠ [] → t ≠ []).
Proof.
  intros Hb Hm. destruct (from_utf8_cut b max Hb) as (t & u & -> & Hf & Hle & Hu). exists t, u. split; [done|].
  assert (take max (utf8 (t ++ u)) = utf8 t ++ drop (length (utf8 t)) (take max (utf8 (t ++ u)))) as Htk.
  { rewrite utf8_app. rewrite take_app_ge by done. by rewrite drop_app_length. }
  split.
  - unfold window. rewrite (utf8_app a), drop_app_length. unfold decode. rewrite Hf.
    apply (f_equal length) in Htk. rewrite length_app in Htk. clear Hf. revert Htk.
    generalize (drop (length (utf8 t)) (take max (utf8 (t ++ u)))) as over. generalize (take max (utf8 (t ++ u))) as k. intros k over Hk.
    assert ((match match over with [] => Whole | _ => ShortOf end with
      | Whole => (t, length k)
      | BrokenBy broken => (t ++ [REPLACEMENT], length k - length over + broken)
      | ShortOf => (t, length k - length over) end) = (t, length (utf8 t))) as -> by (destruct over; cbn in *; f_equal; lia).
    f_equal; [by rewrite utf8_app, length_app|]. rewrite !utf8_app, !length_app.
    case_bool_decide as Eu; [subst u; cbn; apply Nat.ltb_ge; cbn; lia|]. apply Nat.ltb_lt.
    destruct (utf8 u) eqn:E; [by apply utf8_nil in E|]. cbn. lia.
  - intros Hne ->. destruct u as [|c u]; [done|]. specialize (Hu ltac:(done)). cbn in Hu. lia.
Qed.

(** ** From the pipes to what is read *)

(** What happens to a command that is read while it works: a chunk out of one of its
    two pipes, the move into the background, and a read of its log on from the last. *)
Inductive Happening := Arrives (error : bool) (chunk : bytes) | Promotes | Reads.
Record Followed := mkFollowed {
  fo_out : bytes; fo_err : bytes; fo_sink : Sink; fo_cursor : nat; fo_got : str; fo_more : bool;
}.
Definition follow (sink : Sink) : Followed := mkFollowed [] [] sink 0 [] true.
Definition pending_of (f : Followed) (error : bool) : bytes := if error then fo_err f else fo_out f.
Definition with_pipe (f : Followed) (error : bool) (p : bytes) (s : Sink) : Followed :=
  mkFollowed (if error then fo_out f else p) (if error then p else fo_err f) s (fo_cursor f) (fo_got f) (fo_more f).
Definition happen (f : Followed) (h : Happening) : Followed :=
  match h with
  | Arrives error chunk => let '(p, s) := pump (pending_of f error, fo_sink f) chunk in with_pipe f error p s
  | Promotes =>
      match fo_sink f with
      | Buffer _ => mkFollowed (fo_out f) (fo_err f) (sink_promote (fo_sink f) log_create) (fo_cursor f) (fo_got f) (fo_more f)
      | ToFile _ => f
      end
  | Reads =>
      match fo_sink f with
      | Buffer _ => f
      | ToFile l =>
          let w := window (lg_file l) (fo_cursor f) MAX_OUTPUT_CHARS in
          mkFollowed (fo_out f) (fo_err f) (fo_sink f) (wn_cursor w) (fo_got f ++ wn_text w) (wn_more w)
      end
  end.
(** The bytes of one pipe. *)
Definition piped (error : bool) (hs : list Happening) : bytes :=
  concat (omap (λ h, match h with Arrives e chunk => if bool_decide (e = error) then Some chunk else None | _ => None end) hs).
Definition of_pipe (error : bool) (pieces : list (bool * str)) : str :=
  concat (omap (λ p : bool * str, if bool_decide (p.1 = error) then Some p.2 else None) pieces).
Lemma piped_snoc e hs h : piped e (hs ++ [h]) = piped e hs ++ piped e [h].
Proof. unfold piped. by rewrite omap_app, concat_app. Qed.
Lemma of_pipe_snoc e pieces p : of_pipe e (pieces ++ [p]) = of_pipe e pieces ++ if bool_decide (p.1 = e) then p.2 else [].
Proof. unfold of_pipe. rewrite omap_app, concat_app. f_equal. unfold omap, list_omap. destruct (bool_decide (p.1 = e)); cbn; by rewrite ?app_nil_r. Qed.
Lemma pump_pushes p s chunk : pump (p, s) chunk = ((lossy (p ++ chunk)).2, match (lossy (p ++ chunk)).1 with [] => s | text => sink_push s text end).
Proof. unfold pump. cbn [fst snd]. rewrite stream_decode_lossy. by destruct (lossy (p ++ chunk)) as [[|c t] over]. Qed.

(** What a sink holds of what was pushed to it: the part that was written before the
    move to a log, and the part after. *)
Inductive holds : Sink → str → str → Prop :=
| holds_buffer early : holds (Buffer (bounded_push (bounded_new MAX_OUTPUT_CHARS) early)) early []
| holds_log early late : holds (ToFile (log_of (ends MAX_OUTPUT_CHARS early ++ late))) early late.
Definition in_log (early late : str) : str := logged (ends MAX_OUTPUT_CHARS early ++ late).
Lemma holds_push s early late text : holds s early late →
  holds (match text with [] => s | text => sink_push s text end)
    (match s with Buffer _ => early ++ text | ToFile _ => early end) (match s with Buffer _ => late | ToFile _ => late ++ text end).
Proof.
  intros H. inversion H as [e E1 E2 E3|e l E1 E2 E3]; subst.
  - destruct text as [|c text]; [rewrite app_nil_r; constructor|]. cbn [sink_push].
    unfold bounded_push. rewrite <- foldl_app. constructor.
  - destruct text as [|c text]; [rewrite app_nil_r; constructor|]. cbn [sink_push]. rewrite log_write_of, <- app_assoc. constructor.
Qed.

(** Where a read of it has got to. *)
Definition reading (s : Sink) (early late got : str) (cursor : nat) : Prop :=
  match s with
  | Buffer _ => cursor = 0 ∧ got = []
  | ToFile _ => (∃ rest, in_log early late = got ++ rest) ∧ cursor = length (utf8 got)
  end.
Lemma in_log_grows early late more : ∃ r, in_log early (late ++ more) = in_log early late ++ r.
Proof. unfold in_log. rewrite app_assoc. apply logged_grows. Qed.
Lemma reading_push s early late text got cursor : holds s early late → reading s early late got cursor →
  reading (match text with [] => s | text => sink_push s text end)
    (match s with Buffer _ => early ++ text | ToFile _ => early end) (match s with Buffer _ => late | ToFile _ => late ++ text end) got cursor.
Proof.
  intros H Hr. inversion H as [e E1 E2 E3|e l E1 E2 E3]; subst; [by destruct text|].
  assert (reading (ToFile (log_of (ends MAX_OUTPUT_CHARS early ++ late))) early (late ++ text) got cursor) as Hg; [|by destruct text].
  destruct Hr as [[r Er] Hc]. split; [|done]. destruct (in_log_grows early late text) as [r' ->]. exists (r ++ r'). by rewrite Er, app_assoc.
Qed.

(** Where a command has got to, after what happened to it. *)
Record following (to_file : bool) (hs : list Happening) (f : Followed) (pieces : list (bool * str)) (early late : str) : Prop := mkFollowing {
  fw_pipes : ∀ e, pending_of f e = (lossy (piped e hs)).2 ∧ of_pipe e pieces = (lossy (piped e hs)).1;
  fw_text : concat pieces.*2 = early ++ late;
  fw_holds : holds (fo_sink f) early late;
  fw_chars : Forall is_char early ∧ Forall is_char late;
  fw_read : reading (fo_sink f) early late (fo_got f) (fo_cursor f);
  fw_early : to_file = true → early = [] ∧ ∃ l, fo_sink f = ToFile l;
}.
Lemma in_log_chars early late : Forall is_char early → Forall is_char late → Forall is_char (in_log early late).
Proof. intros He Hl. apply logged_chars, Forall_app. split; [by apply ends_chars|done]. Qed.
Lemma read_on early late l got rest : holds (ToFile l) early late → Forall is_char early → Forall is_char late →
  in_log early late = got ++ rest → ∃ t u, rest = t ++ u
  ∧ window (lg_file l) (length (utf8 got)) MAX_OUTPUT_CHARS = mkWindow t (length (utf8 (got ++ t))) (negb (bool_decide (u = [])))
  ∧ (rest ≠ [] → t ≠ []).
Proof.
  intros Hh He Hl Hr. assert (lg_file l = utf8 (got ++ rest)) as ->. { inversion Hh; subst. cbn. by rewrite <- Hr. }
  apply window_reads; [|unfold MAX_OUTPUT_CHARS; lia]. pose proof (in_log_chars _ _ He Hl) as Hc. rewrite Hr in Hc. by apply Forall_app in Hc as [_ Hc].
Qed.
Lemma following_arrives to_file hs f pieces early late e chunk : following to_file hs f pieces early late →
  ∃ pieces early late, following to_file (hs ++ [Arrives e chunk]) (happen f (Arrives e chunk)) pieces early late.
Proof.
  intros [Hp Ht Hh [He Hl] Hr Hf]. remember (lossy (pending_of f e ++ chunk)) as q eqn:Eq.
  assert (happen f (Arrives e chunk) = with_pipe f e q.2 (match q.1 with [] => fo_sink f | text => sink_push (fo_sink f) text end)) as ->.
  { subst q. cbn [happen]. by rewrite pump_pushes. }
  exists (pieces ++ [(e, q.1)]), (match fo_sink f with Buffer _ => early ++ q.1 | ToFile _ => early end),
    (match fo_sink f with Buffer _ => late | ToFile _ => late ++ q.1 end).
  assert (Forall is_char q.1) as Hq by (subst q; apply lossy_chars).
  assert (∀ e', lossy (piped e' (hs ++ [Arrives e chunk])) = if bool_decide (e = e') then ((lossy (piped e' hs)).1 ++ q.1, q.2) else lossy (piped e' hs)) as Hpipe.
  { intros e'. rewrite piped_snoc. unfold piped at 2. unfold omap, list_omap. case_bool_decide as E; cbn [concat]; [|by rewrite app_nil_r]. subst e'.
    rewrite app_nil_r, lossy_app. destruct (Hp e) as [Hpe _]. rewrite Hpe in Eq. rewrite Eq. destruct (lossy (piped e hs)) as [t o]. cbn [fst snd]. by destruct (lossy (o ++ chunk)). }
  split.
  - intros e'. rewrite Hpipe, of_pipe_snoc. cbn [fst snd]. destruct (Hp e') as [Hp1 Hp2]. case_bool_decide as E; [subst e'|].
    + split; [by destruct e|cbn; by rewrite Hp2].
    + split; [rewrite <- Hp1; by destruct e, e'|by rewrite app_nil_r].
  - rewrite fmap_app, concat_app, Ht. cbn. rewrite app_nil_r. inversion Hh; subst; cbn; rewrite ?app_nil_r, <- ?app_assoc; done.
  - generalize (holds_push _ _ _ q.1 Hh). cbn [with_pipe fo_sink]. by destruct q.1.
  - destruct (fo_sink f); rewrite ?Forall_app; done.
  - generalize (reading_push _ _ _ q.1 _ _ Hh Hr). cbn [with_pipe fo_sink fo_got fo_cursor]. by destruct q.1.
  - intros Htf. destruct (Hf Htf) as [-> [l El]]. cbn [with_pipe fo_sink]. rewrite El. split; [done|]. destruct q.1; by eexists.
Qed.
Lemma following_happens to_file hs f pieces early late h : following to_file hs f pieces early late →
  ∃ pieces early late, following to_file (hs ++ [h]) (happen f h) pieces early late.
Proof.
  destruct h as [e chunk| |]; [apply following_arrives| |]; intros [Hp Ht Hh [He Hl] Hr Hf]; exists pieces.
  - assert (∀ e, piped e (hs ++ [Promotes]) = piped e hs) as Hpe by (intros e; by rewrite piped_snoc, app_nil_r).
    cbn [happen]. destruct (fo_sink f) as [b|l] eqn:Es.
    + exists early, late. inversion Hh as [e E1 E2 E3|]; subst. destruct Hr as [Hc Hg]. split; cbn [fo_sink fo_got fo_cursor]; try done.
      * intros e. rewrite Hpe. exact (Hp e).
      * cbn [sink_promote]. rewrite (proj1 (bounded_finish_ends _ _)), <- log_of_nil, log_write_of. cbn [app].
        rewrite <- (app_nil_r (ends _ _)). constructor.
      * cbn [sink_promote]. rewrite Hg, Hc. split; [by eexists|done].
      * intros Htf. by destruct (Hf Htf) as [_ [l ?]].
    + exists early, late. split; rewrite ?Es; try done. intros e. rewrite Hpe. exact (Hp e).
  - assert (∀ e, piped e (hs ++ [Reads]) = piped e hs) as Hpe by (intros e; by rewrite piped_snoc, app_nil_r).
    exists early, late. cbn [happen]. destruct (fo_sink f) as [b|l] eqn:Es.
    + split; rewrite ?Es; try done. intros e. rewrite Hpe. exact (Hp e).
    + destruct Hr as [[rest Er] Hc]. destruct (read_on _ _ _ _ _ Hh He Hl Er) as (t & u & Eu & Hw & _). rewrite Hc, Hw.
      split; cbn [fo_sink fo_got fo_cursor wn_text wn_cursor]; try done; [intros e; rewrite Hpe; exact (Hp e)|].
      split; [|done]. exists u. by rewrite Er, Eu, app_assoc.
Qed.
Lemma following_starts (to_file : bool) : following to_file [] (follow (if to_file then ToFile log_create else Buffer (bounded_new MAX_OUTPUT_CHARS))) [] [] [].
Proof.
  split; try done.
  - by intros [].
  - destruct to_file; [|apply (holds_buffer [])]. rewrite <- log_of_nil. apply (holds_log [] []).
  - destruct to_file; [|done]. split; [by eexists|done].
  - intros ->. split; [done|]. by eexists.
Qed.
Lemma following_all (to_file : bool) hs : ∃ pieces early late,
  following to_file hs (foldl happen (follow (if to_file then ToFile log_create else Buffer (bounded_new MAX_OUTPUT_CHARS))) hs) pieces early late.
Proof.
  induction hs as [|h hs IH] using rev_ind; [do 3 eexists; apply following_starts|].
  rewrite foldl_snoc. destruct IH as (pieces & early & late & H). by eapply following_happens.
Qed.


(** ** What a watch tells *)

Section telling.
Context {Pattern : Type} (is_match : Pattern → str → bool) (bought : N → N → N).
Context (c : @Conditions Pattern).

Lemma tally_of_spec ls : tally_of ls = mkTally (length ls) (last ls).
Proof.
  unfold tally_of. induction ls as [|l ls IH] using rev_ind; [done|]. rewrite foldl_snoc, IH, last_snoc, length_app. cbn. f_equal. lia.
Qed.
(** The matches a notice stands for. *)
Definition stands_for (n : option Notice) : nat := match n with Some n => S (no_more n) | None => 0 end.
Lemma folded_counts held ls : stands_for (folded held (tally_of ls)) = stands_for held + length ls.
Proof.
  rewrite tally_of_spec. unfold folded. cbn. destruct (last ls) as [l|] eqn:E; [|apply last_None in E as ->; cbn; lia].
  destruct ls as [|x xs]; [done|]. destruct held; cbn [stands_for no_more length]; lia.
Qed.
Lemma tick_counts now o ls : let '(o', wake) := tick bought now o (tally_of ls) in
  stands_for (og_held o) + length ls = stands_for (wk_notice <$> wake) + stands_for (og_held o').
Proof.
  rewrite <- folded_counts. unfold tick. destruct (folded (og_held o) (tally_of ls)) as [n|]; [|done]. by destruct (_ && _).
Qed.
Definition promise (o : Ongoing) : option (N * N) := (λ t, (t, quiet_window (og_quiet o))) <$> og_last_wake o.
(** A wake, told after the last one and what it promised. *)
Definition keeps (prev : option (N * N)) (now : N) (w : Wake) : Prop :=
  ∃ window, wk_cadence w = Some (mkCadence ((λ p, now - p.1)%N <$> prev) window)
    ∧ match prev with Some (before, quiet) => (before + quiet <= now)%N | None => True end.
Definition next_promise (now : N) (w : Wake) : option (N * N) := (λ c, (now, ca_window c)) <$> wk_cadence w.
Lemma tick_paces now o ls : match og_last_wake o with Some t => (t <= now)%N | None => True end →
  let '(o', wake) := tick bought now o (tally_of ls) in
  match wake with Some w => keeps (promise o) now w ∧ promise o' = next_promise now w | None => promise o' = promise o end.
Proof.
  intros Ht. unfold tick. destruct (folded (og_held o) (tally_of ls)) as [n|]; [|done].
  unfold promise in *. destruct (og_last_wake o) as [t|] eqn:El; cbn [option_is_some andb default].
  - cbv zeta. cbn [andb default id from_option]. destruct (N.ltb_spec (now - t) (quiet_window (og_quiet o))); cbn; [done|]. split; [|done]. eexists. split; [done|]. lia.
  - cbn. split; [|done]. by eexists.
Qed.

(** A watch's looks at a log, at their times, and the texts they read. *)
Fixpoint looks (s : Scan) (l : list (N * option bytes)) : Scan * list (N * Wake) * list str :=
  match l with
  | [] => (s, [], [])
  | (now, log) :: l =>
      let '(s', wake) := look is_match bought now c s log in
      let '(s'', wakes, texts) := looks s' l in
      (s'', match wake with Some w => (now, w) :: wakes | None => wakes end, option_list (scan_read c s log).2 ++ texts)
  end.
Fixpoint clocked (from : N) (l : list (N * option bytes)) : Prop :=
  match l with [] => True | (now, _) :: l => (from <= now)%N ∧ clocked now l end.
Fixpoint paced (prev : option (N * N)) (wakes : list (N * Wake)) : Prop :=
  match wakes with [] => True | (now, w) :: wakes => keeps prev now w ∧ paced (next_promise now w) wakes end.
Definition told (wakes : list (N * Wake)) : nat := sum_list ((λ w : N * Wake, stands_for (Some (wk_notice w.2))) <$> wakes).
Definition found (texts : list str) : nat := sum_list ((λ t, length (matching is_match c t)) <$> texts).
Definition held_by (s : Scan) : nat := match sn_mode s with All o => stands_for (og_held o) | Once _ => 0 end.

Lemma look_ongoing now s o log : sn_mode s = All o → watched c = true →
  let '(s', wake) := look is_match bought now c s log in
  ∃ o', sn_mode s' = All o' ∧ stands_for (og_held o) + found (option_list (scan_read c s log).2) = stands_for (wk_notice <$> wake) + stands_for (og_held o')
  ∧ (match og_last_wake o with Some t => (t <= now)%N | None => True end →
     match wake with
     | Some w => keeps (promise o) now w ∧ promise o' = next_promise now w ∧ og_last_wake o' = Some now
     | None => promise o' = promise o ∧ og_last_wake o' = og_last_wake o
     end).
Proof.
  intros Hm Hw. unfold look, scan_read, scan_watching. rewrite Hw, Hm. cbn [andb negb]. destruct log as [file|]; cbn [snd]; [|exists o; cbn; split_and!; [done|unfold found; cbn; lia|done]].
  cbn [sn_mode]. unfold tally. pose proof (tick_counts now o (matching is_match c (wn_text (window file (sn_cursor s) WINDOW)))) as Hc.
  pose proof (tick_paces now o (matching is_match c (wn_text (window file (sn_cursor s) WINDOW)))) as Hp.
  assert (∀ o' w, tick bought now o (tally_of (matching is_match c (wn_text (window file (sn_cursor s) WINDOW)))) = (o', w) →
    og_last_wake o' = match w with Some _ => Some now | None => og_last_wake o end) as Hl.
  { unfold tick. intros o' w. destruct (folded _ _); [destruct (_ && _)|]; by intros [= <- <-]. }
  destruct (tick _ _ _ _) as [o' wake] eqn:Et. exists o'. specialize (Hl _ _ eq_refl). cbn [sn_mode]. split_and!; [done| |].
  - unfold found. cbn. rewrite Nat.add_0_r. by rewrite Hc.
  - intros Ht. specialize (Hp Ht). destruct wake; naive_solver.
Qed.
Lemma found_app a b : found (a ++ b) = found a + found b.
Proof. unfold found. induction a as [|t a IH]; cbn in *; [done|]. rewrite IH. lia. Qed.
Lemma found_one t : found [t] = length (matching is_match c t).
Proof. unfold found. cbn. lia. Qed.
Lemma looks_ongoing l s o t0 : sn_mode s = All o → watched c = true → clocked t0 l →
  match og_last_wake o with Some t => (t <= t0)%N | None => True end →
  let '(s', wakes, texts) := looks s l in
  (∃ o', sn_mode s' = All o') ∧ stands_for (og_held o) + found texts = told wakes + held_by s' ∧ paced (promise o) wakes.
Proof.
  revert s o t0. induction l as [|[now log] l IH]; intros s o t0 Hm Hw Hc Ht; cbn [looks].
  - split_and!; [eauto| |done]. unfold held_by, told, found. rewrite Hm. cbn. lia.
  - destruct Hc as [Hn Hc]. pose proof (look_ongoing now s o log Hm Hw) as Hl. destruct (look _ _ _ _ _ _) as [s1 wake].
    destruct Hl as (o1 & Hm1 & Hcount & Hpace). specialize (Hpace ltac:(destruct (og_last_wake o); [lia|done])).
    specialize (IH s1 o1 now Hm1 Hw Hc). destruct (looks s1 l) as [[s2 wakes] texts].
    rewrite found_app. destruct wake as [w|].
    + destruct Hpace as (Hk & Hp & Hlw). rewrite Hlw in IH. destruct (IH ltac:(lia)) as (He & Hsum & Hpaced).
      split_and!; [done| |split; [done|by rewrite <- Hp]]. unfold told in *. cbn in *. lia.
    + destruct Hpace as (Hp & Hlw). rewrite Hlw in IH. destruct (IH ltac:(destruct (og_last_wake o); [lia|done])) as (He & Hsum & Hpaced).
      split_and!; [done| |by rewrite <- Hp]. cbn in *. lia.
Qed.

(** The quiet a watch keeps: what the call pinned, or what the stream earned, capped. *)
Definition quiet_fits (q : Quiet) : Prop := match cn_quiet c with Some x => q = Pinned x | None => ∃ w, q = Adaptive w ∧ (w <= CAP)%N end.
Definition window_fits (w : Wake) : Prop :=
  ∃ cadence, wk_cadence w = Some cadence ∧ match cn_quiet c with Some x => ca_window cadence = x | None => (ca_window cadence <= CAP)%N end.
Lemma next_window_capped n since : (next_window bought n since <= CAP)%N.
Proof. unfold next_window. destruct (N.eqb _ 0); [lia|]. destruct (N.leb_spec CAP (bought (N.min (N.of_nat (n - 1)) (2 ^ 32 - 1)) (N.max since SCAN))); lia. Qed.
Lemma observe_fits q n since : quiet_fits q → quiet_fits (observe bought q n since).
Proof.
  unfold quiet_fits. destruct (cn_quiet c); [by intros ->|]. intros (w & -> & _). eexists. split; [done|]. apply next_window_capped.
Qed.
Lemma tick_fits now o fresh : quiet_fits (og_quiet o) → let '(o', wake) := tick bought now o fresh in
  quiet_fits (og_quiet o') ∧ match wake with Some w => window_fits w | None => True end.
Proof.
  intros Hq. unfold tick. destruct (folded _ _) as [n|]; [|done]. destruct (_ && _); [done|]. cbv zeta. cbn [og_quiet].
  match goal with |- context [observe bought ?q ?m ?s] => pose proof (observe_fits q m s Hq) as Hf; revert Hf; generalize (observe bought q m s) end.
  intros q Hf. split; [done|]. eexists. split; [done|]. cbn. unfold quiet_fits in Hf. destruct (cn_quiet c); [by rewrite Hf|]. by destruct Hf as (w & -> & Hw).
Qed.
Lemma looks_fit l s o : sn_mode s = All o → quiet_fits (og_quiet o) → Forall (λ w : N * Wake, window_fits w.2) (looks s l).1.2.
Proof.
  revert s o. induction l as [|[now log] l IH]; intros s o Hm Hq; cbn [looks]; [done|].
  assert (∃ o', sn_mode (look is_match bought now c s log).1 = All o' ∧ quiet_fits (og_quiet o')
    ∧ match (look is_match bought now c s log).2 with Some w => window_fits w | None => True end) as (o' & Hm' & Hq' & Hw).
  { unfold look, scan_read. destruct (negb (scan_watching c s)); [by exists o|]. destruct log as [file|]; [|by exists o]. cbn [sn_mode]. rewrite Hm.
    pose proof (tick_fits now o (tally is_match c (wn_text (window file (sn_cursor s) WINDOW))) Hq) as Ht.
    destruct (tick _ _ _ _) as [o' w]. by exists o'. }
  destruct (look _ _ _ _ _ _) as [s1 w]. cbn [fst snd] in *. specialize (IH s1 o' Hm' Hq'). destruct (looks s1 l) as [[s2 wakes] texts].
  destruct w; [by constructor|done].
Qed.

Lemma last_look_ongoing now s o log : sn_mode s = All o → watched c = true →
  let '(s', last) := last_look is_match bought now c s log in
  stands_for (og_held o) + found (option_list (scan_read c s log).2) = stands_for last ∧ held_by s' = 0.
Proof.
  intros Hm Hw. pose proof (look_ongoing now s o log Hm Hw) as Hl. unfold last_look. destruct (look _ _ _ _ _ _) as [s1 wake] eqn:El.
  destruct Hl as (o1 & Hm1 & Hc & _). rewrite Hm1.
  assert (∀ w, wake = Some w → og_held o1 = None) as Hh.
  { intros w ->. unfold look in El. destruct (scan_read c s log) as [s2 [text|]] eqn:Er; [|done].
    assert (sn_mode s2 = All o) as Hm2. { unfold scan_read in Er. destruct (negb _); [done|]. destruct log; [|done]. injection Er as <- _. done. }
    rewrite Hm2 in El. unfold tick in El. destruct (folded _ _); [destruct (_ && _)|]; injection El as <- ?; cbn in Hm1; try done; by injection Hm1 as <-. }
  destruct wake as [w|]; cbn [fmap option_fmap option_map] in *.
  - rewrite Hc. split; [rewrite (Hh w eq_refl); cbn; lia|]. unfold held_by. rewrite Hm1. by rewrite (Hh w eq_refl).
  - rewrite Hc. cbn. split; [done|]. done.
Qed.

(** A watch that stops at its first hit. *)
Lemma hit_head text : hit is_match c text = head (matching is_match c text).
Proof. unfold hit. rewrite tally_of_spec. by destruct (matching is_match c text). Qed.
Lemma look_once now s fired log : sn_mode s = Once fired → watched c = true →
  let '(s', wake) := look is_match bought now c s log in
  let read := option_list (scan_read c s log).2 in
  sn_mode s' = Once (fired || (0 <? found read)) ∧ (fired = true → read = [])
  ∧ stands_for (wk_notice <$> wake) = (if negb fired && (0 <? found read) then 1 else 0).
Proof.
  intros Hm Hw. unfold look, scan_read, scan_watching. rewrite Hw, Hm. cbv zeta. destruct fired; cbn [andb negb orb snd option_list]; [by rewrite Hm|].
  destruct log as [file|]; cbn [snd option_list]; [|by rewrite Hm]. cbn [sn_mode]. rewrite ?Hm, hit_head. cbn [snd option_list].
  change (option_list (Some (wn_text (window file (sn_cursor s) WINDOW)))) with [wn_text (window file (sn_cursor s) WINDOW)]. rewrite found_one.
  by destruct (matching is_match c (wn_text (window file (sn_cursor s) WINDOW))).
Qed.
Lemma looks_once l s fired : sn_mode s = Once fired → watched c = true →
  let '(s', wakes, texts) := looks s l in
  sn_mode s' = Once (fired || (0 <? found texts)) ∧ (fired = true → texts = [])
  ∧ told wakes = (if negb fired && (0 <? found texts) then 1 else 0).
Proof.
  revert s fired. induction l as [|[now log] l IH]; intros s fired Hm Hw; cbn [looks]; [by rewrite Hm; destruct fired|].
  pose proof (look_once now s fired log Hm Hw) as Hl. destruct (look _ _ _ _ _ _) as [s1 wake]. cbv zeta in Hl. destruct Hl as (Hm1 & Hr & Ht).
  specialize (IH s1 _ Hm1 Hw). destruct (looks s1 l) as [[s2 wakes] texts]. destruct IH as (Hm2 & Hr2 & Ht2).
  rewrite found_app. set (a := found (option_list (scan_read c s log).2)) in *. split_and!.
  - rewrite Hm2. f_equal. destruct fired; [done|]. cbn [orb]. destruct (Nat.ltb_spec 0 a); cbn [orb]; [symmetry; apply Nat.ltb_lt; lia|]. by replace a with 0 by lia.
  - intros ->. cbn [orb] in *. by rewrite (Hr eq_refl), (Hr2 eq_refl).
  - assert (told (match wake with Some w => (now, w) :: wakes | None => wakes end) = stands_for (wk_notice <$> wake) + told wakes) as -> by (by destruct wake).
    rewrite Ht, Ht2. destruct fired; cbn [negb andb orb]; [done|]. destruct (Nat.ltb_spec 0 a); cbn [negb andb orb]; [|by replace a with 0 by lia].
    by rewrite (proj2 (Nat.ltb_lt _ _)) by lia.
Qed.

(** A watch tells of every line it matched, once.  The notices of an ongoing watch,
    and what the job's end carries, stand together for exactly the lines that answered
    a condition in what was read of the log; each says how long it was since the last,
    comes no sooner than the last one promised, and promises the quiet the call pinned
    or at most the cap.  A watch that was to stop at its first hit tells of one line if
    any matched, and of none otherwise. *)
Theorem a_watch_tells_of_every_match t0 l t1 log : watched c = true → clocked t0 l →
  let '(s, wakes, texts) := looks (scan_new t0 c) l in
  let '(s', last) := last_look is_match bought t1 c s log in
  let matched := found (texts ++ option_list (scan_read c s log).2) in
  if cn_ongoing c then told wakes + stands_for last = matched ∧ paced None wakes ∧ Forall (λ w : N * Wake, window_fits w.2) wakes ∧ held_by s' = 0
  else told wakes + stands_for last = Nat.min 1 matched.
Proof.
  intros Hw Hc. unfold scan_new. destruct (cn_ongoing c).
  - set (o := ongoing_new t0 _). pose proof (looks_ongoing l (mkScan 0 (All o)) o t0 eq_refl Hw Hc I) as Hl.
    pose proof (looks_fit l (mkScan 0 (All o)) o eq_refl) as Hfit.
    destruct (looks (mkScan 0 (All o)) l) as [[s wakes] texts]. destruct Hl as ([o' Ho'] & Hsum & Hp).
    pose proof (last_look_ongoing t1 s o' log Ho' Hw) as Hll. destruct (last_look _ _ _ _ _ _) as [s' last]. destruct Hll as [Hs Hz].
    split_and!; [|done| |done].
    + rewrite found_app. unfold held_by in Hsum. rewrite Ho' in Hsum. cbn in Hsum. lia.
    + apply Hfit. unfold quiet_fits, o. cbn. destruct (cn_quiet c); [done|]. eexists. split; [done|]. apply N.le_0_l.
  - pose proof (looks_once l (mkScan 0 (Once false)) false eq_refl Hw) as Hl. destruct (looks _ l) as [[s wakes] texts]. destruct Hl as (Hm & _ & Ht).
    cbn [negb andb orb] in *. pose proof (look_once t1 s _ log Hm Hw) as Hk. unfold last_look. destruct (look _ _ _ _ _ _) as [s' wake].
    destruct Hk as (Hm' & Hr & Hs). rewrite Hm'. rewrite Ht, Hs, found_app.
    destruct (Nat.ltb_spec 0 (found texts)); cbn [negb andb]; [lia|].
    destruct (Nat.ltb_spec 0 (found (option_list (scan_read c s log).2))); lia.
Qed.
End telling.

(** ** The table of jobs *)

Lemma elem_of_in_order {A} (m : gmap str A) x : x ∈ in_order m ↔ ∃ k, m !! k = Some x.
Proof.
  unfold in_order. rewrite list_elem_of_omap. split; [intros (k & _ & ?); eauto|]. intros [k Hk]. exists k. split; [|done].
  rewrite merge_sort_Permutation, elem_of_elements. by apply elem_of_dom_2 in Hk.
Qed.
Definition keyed (t : Table) : Prop := ∀ k j, t !! k = Some j → jb_id j = k.
(** What an id or the start of one names: itself, or the only job it is the start of. *)
Lemma find_names_one t prefix j : keyed t → find t prefix = Ok j →
  trim prefix ≠ [] ∧ t !! jb_id j = Some j
  ∧ (jb_id j = trim prefix ∨ t !! trim prefix = None ∧ ∀ k j', t !! k = Some j' → starts_with k (trim prefix) = true → k = jb_id j).
Proof.
  intros Hk. unfold find, table_named. case_bool_decide as Hp; [done|]. destruct (t !! trim prefix) as [e|] eqn:Ee.
  - intros [= ->]. pose proof (Hk _ _ Ee) as E. split_and!; [done|by rewrite E|by left].
  - destruct (retain _ (in_order t)) as [|one [|two rest]] eqn:Er; [done| |done]. intros [= ->].
    assert (∀ j', j' ∈ [j] ↔ j' ∈ in_order t ∧ starts_with (jb_id j') (trim prefix) = true) as Hin.
    { intros j'. rewrite <- Er. unfold retain. rewrite !list_elem_of_In, filter_In. done. }
    assert (j ∈ in_order t) as (k & Hkj)%elem_of_in_order by (apply Hin; set_solver). pose proof (Hk _ _ Hkj) as E.
    split_and!; [done|by rewrite E|]. right. split; [done|]. intros k' j' Hk' Hs. pose proof (Hk _ _ Hk') as E'.
    assert (j' ∈ [j]) as ->%list_elem_of_singleton; [|by rewrite <- E']. apply Hin. rewrite elem_of_in_order. split; [eauto|by rewrite E'].
Qed.

(** A call that is to run in the background files its job before it starts the shell: a
    shell that does not start leaves a job that is running with nothing behind it. *)
Theorem a_job_whose_shell_did_not_start_stays_running d cx command why id e :
  let called := detach d cx command why (Ok id) (Err e) in
  cl_answer called = Err e ∧ cl_job called = None
  ∧ dk_table (cl_desk called) !! id = Some (new_job cx command id) ∧ jb_state (new_job cx command id) = Running.
Proof. intros called. split_and!; try done. exact (lookup_insert_eq (dk_table d) id (new_job cx command id)). Qed.

(** ** Witnesses *)

Module Demo.
Definition no_shlex (s : str) : option (list str) := None.
Definition no_pattern (s : str) : result str () := Err (lit "unbalanced").
Definition never (p : ()) (line : str) : bool := false.
Definition float (extra span : N) : N := (PACE * extra * SECOND / span)%N.
Definition watching (ongoing : bool) : @Conditions () := mkConditions [lit "error"] None ongoing None.
Definition after (s : str) : option bytes := Some (utf8 s).
Definition one : str := lit "ok" ++ newline ++ lit "error 1" ++ newline.
Definition two : str := one ++ lit "error 2" ++ newline ++ lit "error 3" ++ newline.
Definition glances : list (N * option bytes) := [(SECOND, after one); (2 * SECOND, after two); (2 * SECOND + MILLI, after (two ++ lit "error 4"))]%N.

(** A file descriptor's bytes cut in the middle of a character. *)
Example a_cut_character : stream_decode [] [104; 195]%N = (lit "h", [195%N]) ∧ stream_decode [195%N] [169; 255]%N = ([233%N; REPLACEMENT], []).
Proof. split; vm_compute; reflexivity. Qed.
Example what_is_read : looks never float (watching true) (scan_new 0 (watching true)) glances
  = (mkScan 34 (All (mkOngoing 0 (Some (2 * SECOND)%N) (Some (mkNotice (lit "error 4") 0)) (Adaptive (2 * SECOND)))),
     [(SECOND, mkWake (mkNotice (lit "error 1") 0) (Some (mkCadence None 0)));
      ((2 * SECOND)%N, mkWake (mkNotice (lit "error 3") 1) (Some (mkCadence (Some SECOND) (2 * SECOND))))],
     [one; lit "error 2" ++ newline ++ lit "error 3" ++ newline; lit "error 4"]).
Proof. vm_compute. reflexivity. Qed.

(** A line that two looks read a part of each answers nothing, though the log has it. *)
Example a_line_split_between_looks_is_missed :
  (looks never float (watching false) (scan_new 0 (watching false)) [(1%N, after (lit "err")); (2%N, after (lit "error" ++ newline))]).1.2 = []
  ∧ matching never (watching false) (lit "error" ++ newline) = [lit "error"].
Proof. split; vm_compute; reflexivity. Qed.
(** The log of a command moved into the background has not what its buffer had dropped. *)
Example a_moved_log_has_lost_the_middle :
  sink_promote (Buffer (bounded_push (bounded_new 4) (lit "abcdef"))) log_create
  = ToFile (log_of (lit "ab" ++ truncated 2 ++ lit "ef")).
Proof. vm_compute. reflexivity. Qed.

Definition job (id since : str) : Job := mkJob id (lit "make") (lit "/d") (lit "s") (lit "i") since Running false.
Definition table : Table := {[lit "job_b" := job (lit "job_b") (lit "09:00:00"); lit "job_a" := job (lit "job_a") (lit "10:00:00")]}.
(** The running jobs are in the order of their ids, which are random. *)
Example running_is_by_id : jb_since <$> table_running table = [lit "10:00:00"; lit "09:00:00"].
Proof. vm_compute. reflexivity. Qed.
Example prefixes : find table (lit " job_a ") = Ok (job (lit "job_a") (lit "10:00:00"))
  ∧ find table (lit "job_") = Err (lit "`job_` could be any of job_a, job_b; say more of the id.").
Proof. split; vm_compute; reflexivity. Qed.

(** The rows of the tables, as the source's tests have them. *)
Definition needs_terminal (s : String.string) : bool := option_is_some (interactive_reason no_shlex (lit s)).
Example refused : forallb needs_terminal ["nohup vim"; "time htop"; "env FOO=1 vim"; "/usr/bin/vim file.txt"; "sudo"; "sudo apt update"; "sudo -n vim"; "sudo -i";
    "doas ls"; "top"; "gdb prog"; "python"; "psql"; "psql db"; "ssh host"; "docker run -it img"; "tmux"; "less file"]%string = true
  ∧ existsb needs_terminal ["echo hi"; ""; "env FOO=1 ls"; "FOO=1 ls"; "sudo -n apt update"; "sudo -k"; "sudo -u root -n ls"; "top -b -n 1"; "gdb -batch -x f";
    "python x.py"; "psql -c x"; "ssh -N host"; "ssh host ls"; "docker run img"; "tmux new -d"; "PAGER=cat less file"]%string = false.
Proof. split; vm_compute; reflexivity. Qed.
Example never_ends : endless_reason no_shlex (lit "tail -f log") = Some (lit "`tail -f` follows its file until something stops it")
  ∧ endless_reason no_shlex (lit "make && make test") = None ∧ option_is_some (endless_reason no_shlex (lit "server &")) = true
  ∧ option_is_some (idle_reason no_shlex (lit "sleep 30")) = true ∧ idle_reason no_shlex (lit "sleep 2 && curl x") = None.
Proof. split_and!; vm_compute; reflexivity. Qed.
End Demo.

Lemma a_watch_tells_of_every_match_witness :
  (let '(s, wakes, texts) := looks Demo.never Demo.float (Demo.watching true) (scan_new 0 (Demo.watching true)) Demo.glances in
   told wakes = 3 ∧ held_by s = 1 ∧ found Demo.never (Demo.watching true) texts = 4)
  ∧ ∃ last, (last_look Demo.never Demo.float (3 * SECOND) (Demo.watching true)
       (looks Demo.never Demo.float (Demo.watching true) (scan_new 0 (Demo.watching true)) Demo.glances).1.1 (Demo.after (Demo.two ++ lit "error 4"))).2 = Some last.
Proof.
  split; [vm_compute; split_and!; reflexivity|].
  assert (clocked 0 Demo.glances) as Hc by (vm_compute; split_and!; (discriminate || exact I)).
  pose proof (a_watch_tells_of_every_match Demo.never Demo.float (Demo.watching true) 0 Demo.glances (3 * SECOND) (Demo.after (Demo.two ++ lit "error 4")) eq_refl Hc) as H.
  rewrite Demo.what_is_read in H |- *. cbn [fst snd].
  destruct (last_look _ _ _ _ _ _) as [s' last]. cbn [cn_ongoing Demo.watching] in H. destruct H as (Hs & _). destruct last as [n|]; [by exists n|].
  vm_compute in Hs. discriminate Hs.
Defined.
