(* ===== verification/Ledger.v ===== *)
(** * Ledger: no input handed to the actor is forgotten

    The second discipline of [Actor]: while the journal accepts frames, whatever
    was acknowledged stays acknowledged and whatever the gate or a command holds
    is kept there.  The handlers that take an input out of the gate or end a
    command ([gate.rs], [commands.rs]) are then shown to answer it. *)

From S2P Require Import Prelude Text Model Interaction Event Transcript State Tree Recovery Queue Gate Commands Stream Round Store Hub Asks Session Actor.

(** The intent a message brings, for which its sender waits. *)
Definition intent_of (msg : Msg) : option IntentId :=
  match msg with
  | MSubmit intent _ | MDeliver intent _ _ | MInterrupt intent _ => Some intent
  | MAnswer a => Some (aw_intent a)
  | _ => None
  end.

(** The gate lets only text through as prose. *)
Definition prose_msg (msg : Msg) : bool :=
  match msg with MGated _ (VerdictProse (InAction _ _)) => false | _ => true end.

Section ledger.
Context {St : Type} `{SessionStore St} (w : World).
Implicit Types h : Hub St.

Definition acked (i : IntentId) h : Prop := ∃ outcome, IntentAck i outcome ∈ fr_event <$> hb_published h.
(** Answered, or still in the actor's hands. *)
Definition accounted (i : IntentId) h : Prop := acked i h ∨ outstanding i (hb_bench h).

Definition grows h h' : Prop :=
  (∀ i, acked i h → acked i h') ∧ (∀ i, accounted i h → accounted i h').
#[local] Instance grows_preorder : PreOrder grows.
Proof. split; [done|]. intros h1 h2 h3 [] []. split; auto. Qed.

Definition ledger_kept A h (r : Hub St * result KernelError A) : Prop :=
  hb_serving r.1 = true → hb_serving h = true ∧ (∃ x, r.2 = Ok x) ∧ grows h r.1.

Lemma quiet_grows h h' : quiet h h' → grows h h'.
Proof. intros [E _ _ Ho]. unfold grows, accounted, acked. rewrite E. naive_solver. Qed.

Lemma ledger_tell e cause h : ledger_kept () h (Asks.tell (w_clock w) (w_order w) e cause h).
Proof.
  pose proof (publish_talk w h e cause) as Hp. unfold Asks.tell, abind, say, ledger_kept.
  destruct (publish (w_clock w) (w_order w) h e cause) as [h' [q|error]]; simpl.
  - destruct Hp as (E & Eb & -> & _). intros ->. split_and!; [done|by eexists|].
    unfold grows, accounted, acked. rewrite E, Eb. split; intros i; setoid_rewrite elem_of_app; naive_solver.
  - destruct Hp as (_ & -> & _). done.
Qed.

Lemma ledger_bind A B (m : Act A) (k : A → Act B) :
  (∀ h, ledger_kept A h (m h)) → (∀ x h, ledger_kept B h (k x h)) → ∀ h, ledger_kept B h (abind m k h).
Proof.
  intros Hm Hk h. specialize (Hm h). unfold abind, ledger_kept in *. destruct (m h) as [h' [x|e]]; simpl in *.
  - intros Hs. destruct (Hk x h' Hs) as (Hs' & Hx & Hg). destruct (Hm Hs') as (? & _ & ?). split_and!; [done..|]. by etrans.
  - intros Hs. by destruct (Hm Hs) as (_ & [? ?] & _).
Qed.

Definition ledger_discipline : Discipline w.
Proof.
  refine (mk_discipline w ledger_kept _ _ _ _).
  - intros A h h' x Hq Hs. simpl in *. split_and!; [by rewrite <- (qu_serving _ _ Hq)|by eexists|by apply quiet_grows].
  - intros A h h' r Hq Hr Hs. destruct (Hr Hs) as (Hs' & Hx & Hg). split_and!; [by rewrite <- (qu_serving _ _ Hq)|done|].
    etrans; [by apply quiet_grows|done].
  - apply ledger_bind.
  - intros e cause h _. apply ledger_tell.
Defined.
Abbreviation keeping := (keeping ledger_discipline).

(** A handler that leaves an intent answered, or in the actor's hands. *)
Definition takes {A} (i : IntentId) (m : @Act St A) : Prop := ∀ h, hb_serving (m h).1 = true → accounted i (m h).1.

Lemma takes_first {A B} i (m : @Act St A) (k : A → Act B) : takes i m → (∀ x, keeping (k x)) → takes i (abind m k).
Proof.
  intros Hm Hk h. specialize (Hm h). unfold abind. destruct (m h) as [h' [x|e]]; [|exact Hm]. intros Hs.
  destruct (Hk x h' Hs) as (Hs' & _ & Hg). by apply Hg, Hm.
Qed.
Lemma takes_last {A B} i (m : @Act St A) (k : A → Act B) : keeping m → (∀ x, takes i (k x)) → takes i (abind m k).
Proof.
  intros Hm Hk h. specialize (Hm h). unfold abind. destruct (m h) as [h' [x|e]]; [apply Hk|]. intros Hs.
  by destruct (Hm Hs) as (_ & [? ?] & _).
Qed.
Lemma takes_bench {A} i f (m : @Act St A) h : takes i m →
  hb_serving (abind (set_bench_of f) (fun _ => m) h).1 = true → accounted i (abind (set_bench_of f) (fun _ => m) h).1.
Proof. intros Hm. apply Hm. Qed.
Lemma takes_ack i outcome cause : takes i (Asks.tell (w_clock w) (w_order w) (IntentAck i outcome) cause).
Proof.
  intros h. pose proof (publish_talk w h (IntentAck i outcome) cause) as Hp. unfold Asks.tell, abind, say.
  destruct (publish _ _ h _ _) as [h' [q|error]]; simpl.
  - destruct Hp as (E & _). intros _. left. exists outcome. rewrite E. apply elem_of_app. right. by left.
  - destruct Hp as (_ & -> & _). done.
Qed.
Lemma takes_reject i code message : takes i (reject_intent (w_clock w) (w_order w) i code message).
Proof. apply takes_ack. Qed.
Lemma takes_applied i result : takes i (applied (w_clock w) (w_order w) i result).
Proof. apply takes_ack. Qed.
#[local] Hint Resolve takes_reject takes_applied : turns.

(** Changes of the bench that leave the gate and the commands alone. *)
Lemma ledger_bench (f : Bench → Bench) : (∀ d, dk_gate (f d) = dk_gate d ∧ dk_commands (f d) = dk_commands d) → keeping (set_bench_of f).
Proof.
  intros Hf h Hs. split_and!; [done|by eexists|]. destruct (Hf (hb_bench h)) as [Eg Ec].
  split; [done|]. intros i [Ha|Ho]; [by left|]. right. unfold outstanding. simpl. by rewrite Eg, Ec.
Qed.

(** *** Turns *)

Lemma keeping_start_turn inputs origin : keeping (start_turn w inputs origin).
Proof.
  intros h. unfold start_turn. apply kept_act, keeping_bind; [apply neutral_record_inputs|intros recorded].
  apply keeping_bind; [intros ?; apply ledger_tell|intros _]. apply keeping_bind; [apply neutral_ack|intros _]. by apply ledger_bench.
Qed.

Lemma records_all turn inputs h h' r i text images origin activation headline :
  (i, InText text images origin activation headline) ∈ inputs →
  record_inputs w turn inputs h = (h', Ok r) → i ∈ r.2.
Proof.
  revert h h' r. induction inputs as [|[j x] inputs IH]; intros h h' r; simpl; [by rewrite elem_of_nil|].
  intros Hi. unfold abind at 1. destruct (journal_prose w _ _ _ h) as [h1 [id|e]] eqn:Ej; [|done].
  unfold abind. destruct (record_inputs w turn inputs h1) as [h2 [rest|e]] eqn:Er; [|done].
  intros [= <- <-]. apply elem_of_cons in Hi as [[= <- <-]|Hi].
  - unfold journal_prose in Ej. simpl in Ej. unfold abind in Ej. destruct (Asks.tell _ _ _ _ h) as [? [?|?]]; [|done].
    injection Ej as _ <-. by left.
  - specialize (IH _ _ _ Hi Er). destruct id; [by right|done].
Qed.

Lemma takes_each i outcome (l : list IntentId) : i ∈ l →
  takes i (each (fun intent => Asks.tell (w_clock w) (w_order w) (IntentAck intent (outcome intent)) (Some intent)) l).
Proof.
  induction l as [|j l IH]; [by intros ?%elem_of_nil|]. intros [<-|Hi]%elem_of_cons; simpl.
  - apply takes_first; [apply takes_ack|]. intros _. apply keeping_each. intros ?. by apply keeping_tell.
  - apply takes_last; [by apply keeping_tell|]. intros _. by apply IH.
Qed.

Lemma takes_opening i turn (recorded : list ItemId * list IntentId) by_ : i ∈ recorded.2 →
  takes i (abind (Asks.tell (w_clock w) (w_order w) (TurnStarted turn recorded.1 by_) None) (fun _ =>
    abind (ack_turn_started w turn recorded.2) (fun _ => set_bench_of (with_running (Some (mkRunning turn None false)))))).
Proof.
  intros Hi. apply takes_last; [intros ?; apply ledger_tell|intros _].
  apply takes_first; [by apply (takes_each i (fun _ => OutTurnStarted turn))|]. intros _. by apply ledger_bench.
Qed.
(** What comes before fails only with the journal. *)
Lemma takes_given {A B} i (m : @Act St A) (k : A → Act B) h : kept ledger_discipline h (m h) →
  (∀ h' x, m h = (h', Ok x) → hb_serving (k x h').1 = true → accounted i (k x h').1) →
  hb_serving (abind m k h).1 = true → accounted i (abind m k h).1.
Proof.
  intros Hm Hk. unfold abind. unfold kept in Hm. simpl in Hm. destruct (m h) as [h' [x|e]]; [by apply Hk|].
  intros Hs. by destruct (Hm Hs) as (_ & [? ?] & _).
Qed.

Lemma takes_start_turn i text images origin activation headline inputs by_ :
  (i, InText text images origin activation headline) ∈ inputs → takes i (start_turn w inputs by_).
Proof.
  intros Hi h. unfold start_turn. cbv zeta. apply takes_given; [apply neutral_record_inputs|].
  intros h1 r Er. exact (takes_opening i _ r by_ (records_all _ _ _ _ _ _ _ _ _ _ _ Hi Er) h1).
Qed.

Lemma takes_held_start i text images origin activation headline by_ :
  takes i (abind (held_then w i (InText text images origin activation headline)) (fun inputs => start_turn w inputs by_)).
Proof.
  intros h. unfold held_then. apply takes_given; [apply kept_act, keeping_bind; [apply neutral_take|intros ?; apply keeping_ret]|].
  intros h1 inputs. unfold abind, aret. destruct (take_queue w h) as [h2 [taken|e]]; [|done]. intros [= <- <-].
  apply (takes_start_turn i text images origin activation headline). apply elem_of_app. right. by left.
Qed.

(** *** Inputs *)

#[local] Hint Resolve neutral_take neutral_held_then neutral_enqueue neutral_log_input neutral_gate_input neutral_announce
  neutral_set_queue neutral_reject neutral_applied neutral_submit_command neutral_outcome neutral_refresh
  neutral_cancel_command neutral_record_for neutral_journal_prose neutral_restate neutral_record_item keeping_start_turn : turns.

Definition is_text (input : Input) : bool := match input with InText _ _ _ _ _ => true | InAction _ _ => false end.

Lemma takes_log_input i input : takes i (log_input w i input).
Proof.
  unfold log_input. apply takes_last; [apply neutral_journal_prose|intros [id|]]; [apply takes_applied|apply takes_reject].
Qed.
Lemma takes_enqueue i input : takes i (enqueue w i input).
Proof.
  intros h. unfold enqueue. destruct (push _ _ _) as [q position]. revert h.
  change (takes i (abind (set_queue q) (fun _ => abind (announce_queue w)
    (fun _ => Asks.tell (w_clock w) (w_order w) (IntentAck i (OutQueued position)) (Some i))))).
  apply takes_last; [apply neutral_set_queue|intros _]. apply takes_last; [apply neutral_announce|intros _]. apply takes_ack.
Qed.
Lemma takes_gate_input i input kind : takes i (@gate_input St i input kind).
Proof.
  intros h _. right. unfold gate_input, update. simpl. set (h1 := set_bench h _).
  apply (qu_outstanding _ _ (quiet_start_gate h1)). right. left. simpl. destruct (goes_first kind); [by left|].
  rewrite fmap_app. apply elem_of_app. right. by left.
Qed.
#[local] Hint Resolve takes_log_input takes_enqueue takes_gate_input : turns.

Lemma takes_submit i input : takes i (submit w i input).
Proof. intros h. unfold submit. case_match; [apply takes_reject|apply takes_gate_input]. Qed.

Lemma keeping_submit_prose i input : keeping (submit_prose w i input).
Proof. intros h. unfold submit_prose. neutral_all. Qed.
Lemma takes_submit_prose i input : is_text input = true → takes i (submit_prose w i input).
Proof.
  destruct input as [text images origin activation headline|]; [|done]. intros _ h. unfold submit_prose.
  repeat case_match; [apply takes_log_input|apply takes_enqueue|apply takes_held_start].
Qed.

Lemma keeping_deliver_ready i input delivery : keeping (deliver_ready w i input delivery).
Proof. intros h. unfold deliver_ready, closed_reject. cbv zeta. neutral_all. Qed.
Lemma takes_deliver_ready i input delivery : takes i (deliver_ready w i input delivery).
Proof.
  intros h. unfold deliver_ready, closed_reject. cbv zeta. destruct (closed_or_closing h); [apply takes_reject|].
  destruct (Queue.stamped input delivery) as [text images origin activation headline|]; [|apply takes_reject].
  destruct (validate _); [|apply takes_reject].
  destruct (negb _); [apply takes_log_input|]. destruct (_ || _); [apply takes_enqueue|apply takes_held_start].
Qed.
Lemma keeping_deliver i input delivery : keeping (deliver w i input delivery).
Proof. intros h. unfold deliver. case_match; apply kept_act; [apply neutral_gate_input|apply keeping_deliver_ready]. Qed.
Lemma takes_deliver i input delivery : takes i (deliver w i input delivery).
Proof. intros h. unfold deliver. case_match; [apply takes_gate_input|apply takes_deliver_ready]. Qed.

Lemma keeping_drain_queue : keeping (drain_queue w).
Proof.
  intros h. unfold drain_queue. case_match; [by apply kept_ok|].
  destruct (take_unit _) as [q [[inputs|intent input]|]]; apply kept_act; neutral_all.
Qed.

Lemma takes_submit_command i input parsed command queued : takes i (submit_command w i input parsed command queued).
Proof.
  intros h. unfold submit_command. case_match; [apply takes_enqueue|]. unfold run_command.
  destruct (w_host w); [|apply takes_reject]. intros _. right. right. right. simpl. rewrite lookup_insert_eq. by eexists.
Qed.

Lemma takes_outcome invocation vouched i outcome : takes i (outcome_act w invocation vouched i outcome).
Proof.
  destruct outcome as [[]|error]; simpl; try apply takes_ack; [apply takes_gate_input|].
  unfold recorded. apply takes_last; [apply neutral_record_for|]. intros item. apply takes_ack.
Qed.

Lemma takes_interrupt i scope : takes i (interrupt w i scope).
Proof.
  intros h. unfold interrupt.
  destruct (dk_running _) as [running|]; [case_match; [apply takes_reject|]; revert h|].
  - apply takes_last; [apply neutral_remember|intros _]. apply takes_last; [apply neutral_cancel_running|intros _].
    apply takes_last; [apply neutral_cancel_all|intros _]. apply takes_applied.
  - cbv zeta. destruct scope; [|apply takes_reject].
    destruct (commands_interrupt _) as [commands [command|]].
    { apply takes_bench, takes_last; [apply neutral_cancel_command|intros _]. apply takes_applied. }
    destruct (gate_interrupt _) as [gate [input|]]; [|apply takes_reject]. apply takes_bench, takes_applied.
Qed.

Lemma takes_answer a : takes (aw_intent a)
  (answer (w_clock w) (w_order w) (w_item w) (w_view w) (w_config_eqb w) (w_links w) a).
Proof.
  intros h. unfold answer. destruct (refuse _ _ _ _ _ _) as [[code message]|] eqn:Er; [apply takes_reject|].
  destruct (dk_pending _ !! _) as [p|] eqn:Ep; [|by unfold refuse in Er; rewrite Ep in Er].
  cbv zeta. apply takes_last; [by apply keeping_update|intros _].
  apply takes_last; [by apply keeping_tell|intros _]. apply takes_last; [neutral_all|intros _].
  apply takes_first; [apply takes_applied|intros _; apply neutral_restate].
Qed.

(** What leaves the actor's hands is answered by what follows. *)
Lemma keeping_release {A} (lost : list IntentId) (f : Bench → Bench) (k : @Act St A) h :
  (∀ i, outstanding i (hb_bench h) → i ∈ lost ∨ outstanding i (f (hb_bench h))) →
  keeping k → (∀ i, i ∈ lost → takes i k) → kept ledger_discipline h (abind (set_bench_of f) (fun _ => k) h).
Proof.
  intros Hf Hk Ht Hs. change (abind _ _ h) with (k (set_bench h (f (hb_bench h)))) in *.
  set (h1 := set_bench h (f (hb_bench h))) in *.
  destruct (Hk h1 Hs) as (Hs1 & Hx & Ha & Hg). split_and!; [exact Hs1|done|]. split; [exact Ha|].
  intros i [Hi|Ho]; [by left; apply Ha|]. destruct (Hf i Ho) as [Hl|Ho']; [by apply Ht|]. apply Hg. by right.
Qed.

Lemma keeping_command_finished i outcome own : keeping (command_finished w i outcome own).
Proof.
  intros h. unfold command_finished, commands_finish. cbv zeta.
  set (held := bool_decide _). clearbody held.
  set (commands := mkCommands _ _). 
  assert (∀ j, outstanding j (hb_bench h) → j = i ∨ outstanding j (with_commands commands (hb_bench h))) as Hout.
  { intros j [Hj|[Hj|Hj]]; [by right; left|by right; right; left|]. destruct (decide (j = i)) as [->|Hne]; [by left|].
    right. right. right. simpl. by rewrite lookup_delete_ne by done. }
  destruct (cm_inflight _ !! i) as [run|] eqn:Erun; simpl.
  - apply (keeping_release [i]).
    + intros j Hj. destruct (Hout j Hj) as [->|]; [left; by left|by right].
    + repeat (apply keeping_bind; [neutral_all|intros _]). apply keeping_drain_queue.
    + intros j ->%list_elem_of_singleton. apply takes_last; [neutral_all|intros _]. apply takes_first; [apply takes_outcome|].
      intros _. apply keeping_bind; [neutral_all|intros _]. apply keeping_drain_queue.
  - apply (keeping_release []); [|apply keeping_ret|by intros ? ?%elem_of_nil].
    intros j Hj. right. destruct (decide (j = i)) as [->|Hne]; [|by destruct (Hout j Hj)].
    destruct Hj as [Hj|[Hj|Hj]]; [by left|by right; left|]. rewrite Erun in Hj. by destruct Hj.
Qed.

Lemma keeping_apply_gate i verdict : keeping (apply_gate w i verdict).
Proof.
  destruct verdict as [input|input line origin instant queued|error|to [[]|error]|input delivery]; simpl;
    first [apply keeping_submit_prose|apply keeping_deliver_ready|neutral_all].
Qed.
Lemma takes_apply_gate i verdict : match verdict with VerdictProse input => is_text input | _ => true end = true →
  takes i (apply_gate w i verdict).
Proof.
  destruct verdict as [input|input line origin instant queued|error|to [[]|error]|input delivery]; simpl; intros Hv;
    first [by apply takes_submit_prose|apply takes_deliver_ready|apply takes_submit_command|apply takes_ack].
Qed.

Lemma keeping_gated i verdict : prose_msg (MGated i verdict) = true → keeping (gated w i verdict).
Proof.
  intros Hv h. unfold gated. destruct (gate_finish _ _) as [g [cancelled|]] eqn:Eg; [|by apply kept_ok]. cbv zeta.
  set (v := if cancelled then _ else _).
  assert (match v with VerdictProse input => is_text input | _ => true end = true) as Hv'.
  { unfold v. destruct cancelled; [done|]. by destruct verdict as [[]| | | |]. }
  set (held_delivery := match v with VerdictDelivered _ Hold => true | _ => false end). clearbody v held_delivery.
  assert (keeping (fun h => if held_delivery && negb (ready (dk_queue (hb_bench h))) then (h, Ok ()) else drain_queue w h)) as Hlast.
  { intros h'. destruct (_ && _); [by apply kept_ok|apply kept_act, keeping_drain_queue]. }
  apply (keeping_release [i]).
  - unfold gate_finish in Eg. intros j [Hj|[Hj|Hj]]; [|right; right; left|by right; right; right].
    + destruct (ig_flight _) as [f|] eqn:Ef; [|by apply elem_of_nil in Hj]. left.
      case_bool_decide as Hi; [|by simplify_eq]. rewrite <- Hi. exact Hj.
    + destruct (ig_flight _); [|done]. case_bool_decide; by simplify_eq/=.
  - apply keeping_bind; [apply keeping_apply_gate|intros _]. apply keeping_bind; [|done]. apply keeping_update, quiet_start_gate.
  - intros j ->%list_elem_of_singleton. apply takes_first; [by apply takes_apply_gate|intros _].
    apply keeping_bind; [|done]. apply keeping_update, quiet_start_gate.
Qed.

Lemma keeping_close_gate : keeping (close_gate w).
Proof.
  intros h. unfold close_gate. destruct (gate_drain _) as [gate intents] eqn:Eg.
  apply (keeping_release intents).
  - unfold gate_drain in Eg. injection Eg as <- <-. intros j [Hj|[Hj|Hj]]; [left..|by right; right; right]; apply elem_of_app.
    + left. by destruct (ig_flight _).
    + by right.
  - apply keeping_each. intros ?. apply neutral_reject.
  - intros j Hj. unfold closed_reject, reject_intent.
    by apply (takes_each j (fun _ => OutRejected (mkKernelError SessionClosedCode (lit "the session is closed")))).
Qed.

(** *** The mailbox *)

Lemma keeping_quietly (f : Hub St → Hub St) : (∀ h, hb_published (f h) = hb_published h ∧ hb_bench (f h) = hb_bench h
  ∧ hb_serving (f h) = hb_serving h) → keeping (update f).
Proof.
  intros Hf. apply keeping_update. intros h. destruct (Hf h) as (E1 & E2 & E3). split; [done|done|by rewrite E2|by rewrite E2].
Qed.
Lemma keeping_finish_close reason : keeping (finish_close w reason).
Proof.
  intros h. unfold finish_close, closed_reject. destruct (drain_all _) as [q waiting]. apply kept_act.
  apply keeping_bind; [neutral_all|intros _]. apply keeping_bind; [apply keeping_each; intros ?; apply neutral_reject|intros _].
  apply keeping_bind; [intros ?; apply ledger_tell|intros _]. apply keeping_bind; [|intros _].
  - assert (keeping (update checkpoint_write)).
    { apply keeping_quietly. intros h'. unfold checkpoint_write. by destruct (hb_store h'). }
    destruct reason; by first [assumption|apply keeping_ret].
  - apply keeping_bind; [by apply keeping_quietly|intros _; apply keeping_ret].
Qed.
Lemma keeping_close reason : keeping (close w reason).
Proof.
  intros h. unfold close. case_match; [by apply kept_ok|]. apply kept_act.
  apply keeping_bind; [apply neutral_remember|intros _]. apply keeping_bind; [apply neutral_cancel_running|intros _].
  apply keeping_bind; [apply neutral_cancel_commands|intros _]. apply keeping_bind; [apply keeping_close_gate|intros _].
  apply keeping_bind; [apply neutral_cancel_all|intros _]. intros h'.
  destruct (dk_running _); apply kept_act; [|apply keeping_finish_close].
  apply keeping_bind; [by apply ledger_bench|intros _; apply keeping_ret].
Qed.

Lemma keeping_completion completed switched : keeping (completion_ready w completed switched).
Proof.
  intros h. unfold completion_ready. case_match; [by apply kept_ok|]. apply kept_act.
  apply keeping_bind; [by apply ledger_bench|intros _]. apply keeping_bind; [intros ?; apply ledger_tell|intros _].
  do 3 (apply keeping_bind; [neutral_all|intros _]). intros h'.
  destruct (dk_closing _); apply kept_act; (apply keeping_bind; [|intros _]); [by apply ledger_bench|apply keeping_finish_close|
    apply keeping_drain_queue|apply keeping_ret].
Qed.

Lemma keeping_swallow {A B} (m : @Act St A) (x : B) : keeping m → keeping (fun h => ((m h).1, Ok x)).
Proof. intros Hm h Hs. destruct (Hm h Hs) as (? & _ & ?). split_and!; [done|by eexists|done]. Qed.
(** A handler that tells its caller what became of it. *)
Lemma kept_told {A B} (m : @Act St A) (g : A → B) h : keeping m →
  kept ledger_discipline h (match m h with (h', Ok x) => (h', Ok (Ok (g x))) | (h', Err e) => (h', Ok (Err (E := KernelError) e)) end).
Proof.
  intros Hm. pose proof (Hm h) as Hk. unfold kept in *. simpl in *.
  destruct (m h) as [h' [x|e]]; intros Hs; destruct (Hk Hs) as (? & Hx & ?); [|by destruct Hx].
  split_and!; [done|by eexists|done].
Qed.

Lemma keeping_withdraw i by_surface : keeping (withdraw w i by_surface).
Proof.
  intros h. unfold withdraw. destruct (_ <$> _) as [origin|]; [|by apply kept_ok]. case_match; [by apply kept_ok|].
  destruct (take_intent _ _) as [q [input|]]; [|apply kept_act; neutral_all].
  apply (kept_told _ (fun _ => input)). neutral_all.
Qed.
Lemma keeping_rewind transcript to_turn : keeping (rewind w transcript to_turn).
Proof.
  intros h. unfold rewind. case_match; [by apply kept_ok|]. destruct (dropped _ _) as [gone|]; [|by apply kept_ok]. cbv zeta.
  apply (kept_told _ (fun _ => wrap 32 (N.of_nat (length gone)))).
  apply keeping_bind; [apply neutral_record_for|intros ? ?]. apply kept_act. by apply keeping_tell.
Qed.
Lemma keeping_receipt item : keeping (receipt (w_clock w) (w_order w) (w_view w) (w_config_eqb w) (w_links w) item).
Proof.
  intros h. unfold receipt. pose proof (neutral_record_item w ledger_discipline item h) as Hk.
  destruct (item_turn item) as [turn|]; [destruct (is_running h turn)|]; try (by apply kept_ok). unfold kept in *. simpl in *.
  destruct (record_item _ _ _ _ _ item h) as [h' [x|e]]; [intros Hs|case_match; intros Hs]; destruct (Hk Hs) as (? & Hx & ?);
    [|by destruct Hx..]. split_and!; [done|by eexists|done].
Qed.

Lemma keeping_dispatch msg : prose_msg msg = true → keeping (dispatch w msg).
Proof.
  assert (∀ m : Act (), keeping m → keeping (abind m (fun _ => after_message))) as Hthen.
  { intros m Hm. apply keeping_bind; [done|intros _ h]. by apply kept_ok. }
  assert (∀ {A} (m : @Act St A), keeping m → keeping (unit_act m)) as Hunit.
  { intros A m Hm. apply keeping_bind; [done|intros _]. apply keeping_ret. }
  destruct msg; intros Hq.
  2: apply keeping_completion.
  30: { intros h. change (dispatch w _ h) with (reserve_delete w commits h). unfold reserve_delete. case_match; [by apply kept_ok|].
    destruct commits; [apply kept_act, keeping_close|by apply kept_ok]. }
  30: apply keeping_close.
  17: { apply keeping_bind; [apply neutral_turn_finished|intros _; apply keeping_ret]. }
  all: apply Hthen.
  - intros h. case_match; [by apply kept_ok|apply ledger_tell].
  - apply neutral_submit.
  - by apply keeping_gated.
  - apply keeping_deliver.
  - apply neutral_extend.
  - by apply keeping_tell.
  - apply neutral_signal.
  - apply keeping_swallow, neutral_handoff.
  - apply neutral_interrupt.
  - apply Hunit, keeping_withdraw.
  - apply neutral_answer.
  - apply keeping_quietly. intros h. unfold acknowledge. repeat case_match; done.
  - by apply keeping_quietly.
  - intros h. unfold emit. case_match; [by apply kept_ok|]. destruct e; apply kept_act; try (intros ?; apply ledger_tell). neutral_all.
  - apply neutral_open.
  - intros h. case_match; [|by apply kept_ok]. apply kept_act, Hunit, neutral_steer.
  - apply Hunit, keeping_receipt.
  - apply Hunit, neutral_record_for.
  - apply neutral_progress.
  - apply keeping_command_finished.
  - apply keeping_bind; [apply neutral_publish_summary|intros _].
    apply keeping_bind; [destruct context; neutral_all|intros _]. apply neutral_refresh.
  - apply keeping_swallow, neutral_charge.
  - apply neutral_open_call.
  - apply neutral_call_asked.
  - apply neutral_call_allowed.
  - apply neutral_call_finished.
  - apply Hunit, keeping_rewind.
  - apply Hunit. intros h. unfold compact. repeat (case_match; [try by apply kept_ok|]); try by apply kept_ok.
    apply kept_act, keeping_bind; [apply keeping_start_turn|intros _; apply keeping_ret].
Qed.

Lemma takes_dispatch msg i : prose_msg msg = true → intent_of msg = Some i → takes i (dispatch w msg).
Proof.
  assert (∀ m : Act (), takes i m → takes i (abind m (fun _ => after_message))) as Hthen.
  { intros m Hm. apply takes_first; [done|intros _ h]. by apply kept_ok. }
  destruct msg; intros Hq [= <-]; apply Hthen;
    [apply takes_submit|apply takes_deliver|apply takes_interrupt|apply takes_answer].
Qed.

Lemma ledger_handle msg h : prose_msg msg = true → hb_serving (handle w msg h).1 = true →
  hb_serving h = true ∧ grows h (handle w msg h).1 ∧ ∀ i, intent_of msg = Some i → accounted i (handle w msg h).1.
Proof.
  intros Hq. unfold handle. pose proof (keeping_dispatch msg Hq h) as Hk. unfold kept in Hk. simpl in Hk.
  pose proof (λ i Hi, takes_dispatch msg i Hq Hi h) as Ht. destruct (dispatch w msg h) as [h' [flow|e]]; simpl in *; intros Hs.
  - destruct (Hk Hs) as (? & _ & ?). split_and!; [done..|]. intros i Hi. by apply Ht.
  - by destruct (Hk Hs) as (_ & [? ?] & _).
Qed.

Lemma ledger_run msgs h h' : forallb prose_msg msgs = true → actor_run w h msgs = (h', Continue) → hb_serving h' = true →
  hb_serving h = true ∧ grows h h' ∧ ∀ msg i, msg ∈ msgs → intent_of msg = Some i → accounted i h'.
Proof.
  revert h. induction msgs as [|msg msgs IH]; intros h; simpl.
  - intros _ [= <-] Hs. split_and!; [done..|]. by intros msg i ?%elem_of_nil.
  - intros [Hq Hqs]%andb_prop Er Hs. pose proof (ledger_handle msg h Hq) as Hh.
    destruct (handle w msg h) as [h1 []]; [|done]. simpl in Hh.
    destruct (IH h1 Hqs Er Hs) as (Hs1 & Hg1 & Hi1). destruct (Hh Hs1) as (Hs0 & Hg0 & Hi0).
    split_and!; [done|by etrans|]. intros m i [->|Hm]%elem_of_cons Hi; [by apply Hg1, Hi0|by eapply Hi1].
Qed.

End ledger.

