(* ===== verification/Closing.v ===== *)
(** * Closing: the last things a session says

    [close] and [finish_close] of [bingo-core/src/session.rs], from the handlers
    of [Session]: what is still waiting is answered, in order, and nothing is
    left on the actor's bench. *)

From S2P Require Import Prelude Text Model Interaction Event Transcript State Tree Recovery Queue Gate Commands Stream Round Store Hub Asks Session Actor Ledger.

Section closing.
Context {St : Type} `{SessionStore St} (w : World).
Implicit Types h : Hub St.

Definition events h : list Event := fr_event <$> hb_published h.

(** A handler run from [h] says some events and ends as described, unless the
    journal fails under it. *)
Definition ends {A} (m : @Act St A) h (Q : A → list Event → Hub St → Prop) : Prop :=
  match m h with
  | (h', Ok x) => (hb_store h = None → hb_store h' = None) ∧ ∃ es, events h' = events h ++ es ∧ Q x es h'
  | (h', Err _) => hb_serving h' = false ∧ hb_store h ≠ None
  end.

Lemma ends_bind {A B} (m : @Act St A) (k : A → Act B) h Q1 Q :
  ends m h Q1 → (∀ x es h1, Q1 x es h1 → ends (k x) h1 (λ y es' h2, Q y (es ++ es') h2)) → ends (abind m k) h Q.
Proof.
  unfold ends, abind. destruct (m h) as [h1 [x|e]]; [|done]. intros (Hs & es & E & HQ) Hk. specialize (Hk x es h1 HQ).
  destruct (k x h1) as [h2 [y|e]].
  - destruct Hk as (Hs' & es' & E' & HQ'). split; [auto|]. exists (es ++ es'). split; [by rewrite E', E, app_assoc|done].
  - destruct Hk as [? Hk]. split; [done|]. intros Hn. by apply Hk, Hs.
Qed.
Lemma ends_ret {A} (x : A) h : ends (aret x) h (λ y es h', y = x ∧ es = [] ∧ h' = h).
Proof. split; [done|]. exists []. by rewrite app_nil_r. Qed.
Lemma ends_tell e cause h : ends (Asks.tell (w_clock w) (w_order w) e cause) h
  (λ _ es h', es = [e] ∧ hb_bench h' = hb_bench h).
Proof.
  pose proof (publish_talk w h e cause) as Hp. unfold Asks.tell, abind, say, ends.
  destruct (publish (w_clock w) (w_order w) h e cause) as [h' [q|error]].
  - destruct Hp as (E & Eb & _ & Es). split; [done|]. by exists [e].
  - by destruct Hp as (_ & ? & ? & _).
Qed.
Lemma ends_update f h : hb_published (f h) = hb_published h → (hb_store h = None → hb_store (f h) = None) →
  ends (update f) h (λ _ es h', es = [] ∧ h' = f h).
Proof. intros E Es. split; [done|]. exists []. unfold events. by rewrite E, app_nil_r. Qed.
Lemma ends_weaken {A} (m : @Act St A) h (Q Q' : A → list Event → Hub St → Prop) :
  ends m h Q → (∀ x es h', Q x es h' → Q' x es h') → ends m h Q'.
Proof. unfold ends. destruct (m h) as [h' [x|e]]; [|done]. intros (Hs & es & E & HQ) HQ'. split; [done|]. exists es. auto. Qed.

Definition closed_refusal (i : IntentId) : Event :=
  IntentAck i (OutRejected (mkKernelError SessionClosedCode (lit "the session is closed"))).

Lemma ends_refusals {A} (f : A → IntentId) (l : list A) h : ends (each (fun x => closed_reject w (f x)) l) h
  (λ _ es h', es = (λ x, closed_refusal (f x)) <$> l ∧ hb_bench h' = hb_bench h).
Proof.
  revert h. induction l as [|x l IH]; intros h; simpl; [by eapply ends_weaken; [apply ends_ret|]; intros ? ? ? (_ & -> & ->)|].
  eapply ends_bind; [apply ends_tell|]. intros _ es h1 [-> Eb]. eapply ends_weaken; [apply IH|].
  intros _ es h2 [-> Eb']. by rewrite Eb', Eb.
Qed.

Definition cancelled_error (reason : CancelReason) : KernelError :=
  mkKernelError InteractionClosed (lit "cancelled: " ++ reason_debug reason).
Definition cancelled_replies (reason : CancelReason) (asks : list (InteractionId * PendingAsk)) (d : Bench) : Bench :=
  with_replies (dk_replies d ++ ((λ p, (p.1, Err (cancelled_error reason))) <$> asks)) d.

Lemma ends_cancel_loop asks reason h : ends (cancel_loop (w_clock w) (w_order w) asks reason) h
  (λ _ es h', es = (λ p, InteractionCancelled p.1 reason) <$> asks ∧ hb_bench h' = cancelled_replies reason asks (hb_bench h)).
Proof.
  revert h. induction asks as [|[id p] asks IH]; intros h; simpl.
  - eapply ends_weaken; [apply ends_ret|]. intros ? ? ? (_ & -> & ->). split; [done|]. unfold cancelled_replies. simpl.
    rewrite app_nil_r. by destruct (hb_bench h).
  - eapply ends_bind; [by apply ends_update|]. intros _ es h1 [-> ->]. eapply ends_bind; [apply ends_tell|].
    intros _ es h2 [-> Eb]. eapply ends_weaken; [apply IH|]. intros _ es h3 [-> Eb']. split; [done|].
    rewrite Eb', Eb. unfold cancelled_replies. simpl. by rewrite <- app_assoc.
Qed.

(** What cancelling every ask says: the asks in the order the map gives them,
    and then the summary, no longer asking, when there was one. *)
Definition cancellations (asks : list (InteractionId * PendingAsk)) (reason : CancelReason) (es : list Event) : Prop :=
  ∃ told, es = ((λ p, InteractionCancelled p.1 reason) <$> asks) ++ told
    ∧ match asks with [] => told = [] | _ :: _ => ∃ summary, told = [SessionUpdated summary] end.

Lemma ends_cancel_interactions reason h : let asks := drained (w_order w) (dk_pending (hb_bench h)) in
  ends (cancel_interactions (w_clock w) (w_order w) reason) h
    (λ _ es h', cancellations asks reason es ∧ hb_bench h' = cancelled_replies reason asks (with_pending ∅ (hb_bench h))).
Proof.
  cbv zeta. unfold ends, cancel_interactions. set (asks := drained _ _). clearbody asks.
  set (h0 := set_bench h (with_pending ∅ (hb_bench h))). change (ends (fun _ => cancel_each (w_clock w) (w_order w) asks reason h0) h
    (λ _ es h', cancellations asks reason es ∧ hb_bench h' = cancelled_replies reason asks (hb_bench h0))).
  assert (ends (cancel_each (w_clock w) (w_order w) asks reason) h0 
    (λ _ es h', cancellations asks reason es ∧ hb_bench h' = cancelled_replies reason asks (hb_bench h0))) as Hc; [|exact Hc].
  unfold cancel_each. eapply ends_bind; [apply ends_cancel_loop|]. intros _ es h1 [-> Eb]. destruct asks as [|p asks].
  - eapply ends_weaken; [apply ends_ret|]. intros _ es h2 (_ & -> & ->). split; [by exists []|exact Eb].
  - eapply ends_weaken; [apply ends_tell|]. intros _ es h2 [-> Eb']. split; [|by rewrite Eb', Eb].
    eexists. split; [done|]. by eexists.
Qed.

(** The bench a session leaves behind: nothing runs, waits or is asked. *)
Definition cleared (asks : list (InteractionId * PendingAsk)) (d : Bench) : Bench :=
  mkBench None (mkCommands ((fun run => mkCommand (cm_invocation run) (cm_vouched run) true) <$> cm_inflight (dk_commands d)) (cm_holding (dk_commands d)))
    (drain_all (dk_queue d)).1 (mkInputGate [] None) (dk_closing d) (dk_progress d) ∅
    (dk_replies d ++ ((fun p => (p.1, Err (cancelled_error CancelSessionClosed))) <$> asks)).

Lemma remember_idle h : dk_running (hb_bench h) = None → remember_stopped_ask h = h.
Proof. intros E. unfold remember_stopped_ask. by rewrite E. Qed.

Lemma ends_bench f h : ends (set_bench_of f) h (λ _ es h', es = [] ∧ hb_bench h' = f (hb_bench h)).
Proof. eapply ends_weaken; [by apply ends_update|]. by intros _ es h' [-> ->]. Qed.

Lemma ends_close_gate h : ends (close_gate w) h
  (λ _ es h', es = closed_refusal <$> (gate_drain (dk_gate (hb_bench h))).2 ∧ hb_bench h' = with_gate (mkInputGate [] None) (hb_bench h)).
Proof.
  change (ends (abind (set_bench_of (with_gate (mkInputGate [] None)))
    (fun _ => each (closed_reject w) (gate_drain (dk_gate (hb_bench h))).2)) h
    (λ _ es h', es = closed_refusal <$> (gate_drain (dk_gate (hb_bench h))).2 ∧ hb_bench h' = with_gate (mkInputGate [] None) (hb_bench h))).
  generalize (gate_drain (dk_gate (hb_bench h))).2. intros intents.
  eapply ends_bind; [apply ends_bench|]. intros _ es h1 [-> Eb]. eapply ends_weaken; [apply (ends_refusals id)|].
  intros _ es h2 [-> Eb']. split; [done|by rewrite Eb', Eb].
Qed.

Lemma ends_finish_close reason h : ends (finish_close w reason) h (λ flow es h', flow = Stop
  ∧ es = ((λ p, closed_refusal p.1) <$> (drain_all (dk_queue (hb_bench h))).2) ++ [SessionClosed reason]
  ∧ hb_bench h' = with_queue (drain_all (dk_queue (hb_bench h))).1 (hb_bench h)
  ∧ Forall (λ s, sb_held s = false) (hb_subs h')).
Proof.
  unfold ends, finish_close. destruct (drain_all _) as [q waiting]. eapply ends_bind; [apply ends_bench|].
  intros _ es h1 [-> Eb1]. eapply ends_bind; [apply (ends_refusals fst)|]. intros _ es h2 [-> Eb2].
  eapply ends_bind; [apply ends_tell|]. intros _ es h3 [-> Eb3].
  eapply (ends_bind _ _ _ (λ _ es h', es = [] ∧ hb_bench h' = hb_bench h3)).
  { assert (ends (update checkpoint_write) h3 (λ _ es h', es = [] ∧ hb_bench h' = hb_bench h3)) as Hw.
    { assert (hb_published (checkpoint_write h3) = hb_published h3 ∧ hb_store (checkpoint_write h3) = hb_store h3
        ∧ hb_bench (checkpoint_write h3) = hb_bench h3) as (E1 & E2 & E3) .
      { unfold checkpoint_write. destruct (hb_store h3) eqn:E; by split_and!. }
      eapply ends_weaken; [apply ends_update; [done|by rewrite E2]|]. by intros _ es h' [-> ->]. }
    destruct reason; try exact Hw; (eapply ends_weaken; [apply ends_ret|]; by intros _ ? ? (_ & -> & ->)). }
  intros _ es h4 [-> Eb4]. eapply ends_bind; [by apply ends_update|]. intros _ es h5 [-> ->].
  eapply ends_weaken; [apply ends_ret|]. intros flow es h6 (-> & -> & ->). split_and!; [done|done| |].
  - simpl. by rewrite Eb4, Eb3, Eb2, Eb1.
  - simpl. apply Forall_fmap, Forall_true. done.
Qed.

(** Closing settles everything.  A session with no turn running that is told
    to close ends there, unless the journal fails under it: it refuses what its
    gate holds and then what its queue holds, each intent once and in order,
    cancels every ask in between and answers each asker, says last that it
    closed and why, and leaves nothing on its bench and no subscriber behind.
    Without a journal there is nothing to fail. *)
Theorem close_settles_everything reason h : dk_running (hb_bench h) = None → st_closed (hb_state h) = false →
  let asks := drained (w_order w) (dk_pending (hb_bench h)) in
  match close w reason h with
  | (h', Ok flow) => flow = Stop ∧ hb_bench h' = cleared asks (hb_bench h) ∧ Forall (λ s, sb_held s = false) (hb_subs h')
      ∧ ∃ cancels, cancellations asks CancelSessionClosed cancels
      ∧ events h' = events h ++ (closed_refusal <$> (gate_drain (dk_gate (hb_bench h))).2) ++ cancels
          ++ ((λ p, closed_refusal p.1) <$> (drain_all (dk_queue (hb_bench h))).2) ++ [SessionClosed reason]
  | (h', Err _) => hb_serving h' = false ∧ hb_store h ≠ None
  end.
Proof.
  intros Hr Hc asks.
  assert (ends (close w reason) h (λ flow es h', flow = Stop ∧ hb_bench h' = cleared asks (hb_bench h)
    ∧ Forall (λ s, sb_held s = false) (hb_subs h') ∧ ∃ cancels, cancellations asks CancelSessionClosed cancels
    ∧ es = (closed_refusal <$> (gate_drain (dk_gate (hb_bench h))).2) ++ cancels
          ++ ((λ p, closed_refusal p.1) <$> (drain_all (dk_queue (hb_bench h))).2) ++ [SessionClosed reason])) as He.
  - unfold ends, close. rewrite Hc. eapply ends_bind; [apply ends_update; by rewrite remember_idle|].
    intros _ es h1 [-> E1]. rewrite (remember_idle _ Hr) in E1. subst h1.
    eapply ends_bind; [apply ends_bench|]. intros _ es h2 [-> Eb2].
    eapply ends_bind; [apply ends_bench|]. intros _ es h3 [-> Eb3].
    eapply ends_bind; [apply ends_close_gate|]. intros _ es h4 [-> Eb4].
    eapply ends_bind; [apply ends_cancel_interactions|]. intros _ cancels h5 [Hcan Eb5].
    assert (dk_running (hb_bench h5) = None) as Hr5 by (rewrite Eb5; simpl; rewrite Eb4, Eb3, Eb2; simpl; by rewrite Hr).
    unfold ends. rewrite Hr5. eapply (ends_weaken (finish_close w reason) h5); [apply ends_finish_close|]. intros flow es h6 (-> & -> & Eb6 & Hs).
    rewrite Hr in Eb2. simpl in Eb2.
    assert (dk_pending (hb_bench h4) = dk_pending (hb_bench h)) as Ep by by rewrite Eb4, Eb3, Eb2.
    assert (dk_queue (hb_bench h5) = dk_queue (hb_bench h)) as Eq by by rewrite Eb5, Eb4, Eb3, Eb2.
    assert (dk_gate (hb_bench h3) = dk_gate (hb_bench h)) as Eg by by rewrite Eb3, Eb2.
    rewrite Ep in Hcan, Eb5. rewrite Eq, Eg in *. split_and!; [done| |done|by exists cancels].
    by rewrite Eb6, Eb5, Eb4, Eb3, Eb2.
  - unfold ends in He. destruct (close w reason h) as [h' [flow|e]]; [|done].
    destruct He as (_ & es & E & -> & ? & ? & cancels & ? & ->). eauto 10.
Qed.
End closing.

(** A session with a line in the gate, a line queued and an ask open. *)
Definition demo_waiting : Hub (gmap str Entry) :=
  (actor_run demo_world (demo_hub (Some demo_store))
     (take 4 demo_messages ++ [MTurnFinished (demo_mint 0) (Returned TurnDone); MSubmit (lit "d") (demo_text (lit "three"));
        MSubmit (lit "e") (demo_text (lit "four")); MCompletionReady (mkCompleted (demo_mint 0) TurnDone usage_default []) None;
        MAsk None (KConfirm (lit "go?") (lit "")) []])).1.

Lemma close_settles_everything_witness :
  let h := demo_waiting in let h' := (close demo_world CloseClient h).1 in
  (gate_drain (dk_gate (hb_bench h))).2 = [lit "d"; lit "e"] ∧ (drain_all (dk_queue (hb_bench h))).2.*1 = [lit "b"]
  ∧ hb_bench h' = cleared (drained demo_order (dk_pending (hb_bench h))) (hb_bench h) ∧ length (dk_replies (hb_bench h')) = 1
  ∧ last (events h') = Some (SessionClosed CloseClient).
Proof.
  cbv zeta. split; [by vm_compute|]. split; [by vm_compute|].
  pose proof (close_settles_everything demo_world CloseClient demo_waiting eq_refl eq_refl) as Hc. cbv zeta in Hc.
  assert ((close demo_world CloseClient demo_waiting).2 = Ok Stop) as Ec by by vm_compute.
  assert (length (dk_replies (hb_bench (close demo_world CloseClient demo_waiting).1)) = 1) as El by by vm_compute.
  generalize dependent (close demo_world CloseClient demo_waiting). intros [h' r] Hc Ec El. simpl in Ec. subst r.
  destruct Hc as (_ & Hb & _ & cancels & _ & E). simpl. split_and!; [exact Hb|exact El|]. rewrite E, !app_assoc, last_snoc. reflexivity.
Defined.

Definition demo_hub_full (room : nat) : Hub (nat * gmap str Entry) :=
  mkHub (lit "ses_1") 0 demo_state [] 0 [] (Some (room, demo_store)) [] demo_bench true [] [] 0.
#[local] Existing Instance full_store.

(** Not every intent's outcome arrives as an acknowledgement.  When the journal
    fails, the lines in the gate are dropped while those in the queue are refused;
    and a command still running when its session closes is never answered for:
    the session stops with its intent unacknowledged. *)
Theorem closing_strands_inputs :
  (let '(h, flow) := actor_run demo_world (demo_hub_full 0)
     [MSubmit (lit "a") (demo_text (lit "one")); MSubmit (lit "b") (demo_text (lit "two")); MExtend (lit "p") (lit "k") VNull] in
   flow = Stop ∧ events h = [Notice Error (lit "STORAGE") (lit "disk full"); SessionClosed (CloseError (lit "disk full"))])
  ∧ (let '(h, flow) := actor_run demo_world (demo_hub (Some demo_store))
       [MSubmit (lit "d") (demo_text (lit "/x"));
        MGated (lit "d") (VerdictCommand (demo_text (lit "/x")) (mkParsed (lit "x") []) demo_instant false); MClose CloseClient] in
     flow = Stop ∧ events h = [SessionClosed CloseClient] ∧ is_Some (cm_inflight (dk_commands (hb_bench h)) !! lit "d")).
Proof. split; vm_compute; [done|]. split_and!; [done..|by eexists]. Qed.
