(* ===== verification/Sse.v ===== *)
(** * Sse: a response body read event by event (bingo-http)

    The framing of server-sent events (sse.rs) and the body that reads them off the
    wire (stream.rs): chunks of bytes in, whole frames out, and each frame's events
    handed over one at a time, the failure that ends the stream after all of them.

    A provider is whatever decodes a frame ([Decode]); its theorems are proved against
    that class.  What each wait on the wire came to (a chunk, silence, the interrupt) is
    an argument, with what the interrupt's token said just before it. *)

From S2P Require Import Prelude Text Utf8 Model Stream.

(** ** Framing *)

(** The ceiling of what may stand unframed, and how far a boundary reaches back. *)
Definition MAX_BUFFERED : N := 8 * 1024 * 1024.
Definition BOUNDARY_OVERLAP : nat := 3.

Record SseFrame := mkSseFrame { fr_event : str; fr_data : str }.
#[export] Instance SseFrame_eq_dec : EqDecision SseFrame.
Proof. solve_decision. Defined.

Record SseParser := mkSseParser {
  sp_buf : bytes;
  (** how much of the front is known to hold no boundary *)
  sp_scanned : nat;
}.
Definition sse_new : SseParser := mkSseParser [] 0.

(** [windows(n).position]: where [w] first stands. *)
Fixpoint window_at (w l : bytes) : option nat :=
  match l with
  | [] => None
  | _ :: r => if starts_with l w then Some 0 else S <$> window_at w r
  end.
(** Where the last byte of the first boundary is. *)
Definition find_block_end (buf : bytes) : option nat :=
  match (fun i => i + 1) <$> window_at [10; 10]%N buf, (fun i => i + 3) <$> window_at [13; 10; 13; 10]%N buf with
  | Some a, Some b => Some (min a b)
  | found, None | None, found => found
  end.

(** [str::replace] of a carriage return and line feed by a line feed. *)
Fixpoint unix_lines (s : str) : str :=
  match s with
  | [] => []
  | c :: r =>
      match r with
      | d :: r' => if (c =? 13)%N && (d =? 10)%N then 10%N :: unix_lines r' else c :: unix_lines r
      | [] => [c]
      end
  end.
Definition parse_line (st : option str * str) (line : str) : option str * str :=
  match strip_prefix (lit "event:") line with
  | Some value => (Some (trim value), st.2)
  | None =>
      match strip_prefix (lit "data:") line with
      | Some value => (st.1, st.2 ++ trim_start_by is_whitespace value ++ [10%N])
      | None => st
      end
  end.
Definition parse_block (block : bytes) : option SseFrame :=
  let '(event, data) := foldl parse_line (None, []) (split_by (N.eqb 10) (unix_lines (from_utf8_lossy block))) in
  if negb (option_is_some event) && bool_decide (trim data = []) then None
  else Some (mkSseFrame (default [] event) (trim data)).

(** The loop of [feed]: a block is taken off the front at each turn, so the length of
    what is buffered is turns enough. *)
Fixpoint frames_loop (fuel : nat) (p : SseParser) : list SseFrame * SseParser :=
  match fuel with
  | O => ([], p)
  | S fuel =>
      let from := sp_scanned p - BOUNDARY_OVERLAP in
      match find_block_end (drop from (sp_buf p)) with
      | None => ([], mkSseParser (sp_buf p) (length (sp_buf p)))
      | Some offset =>
          let consumed := from + offset + 1 in
          let block := take consumed (sp_buf p) in
          let '(frames, p') := frames_loop fuel (mkSseParser (drop consumed (sp_buf p)) (sp_scanned p - consumed)) in
          (option_list (parse_block block) ++ frames, p')
      end
  end.
Definition unframed : str :=
  lit "sse frame exceeds " ++ show_Z (Z.of_N MAX_BUFFERED) ++ lit " bytes without a boundary".
Definition sse_feed (p : SseParser) (chunk : bytes) : result str (list SseFrame) * SseParser :=
  let buf := sp_buf p ++ chunk in
  let '(frames, p') := frames_loop (S (length buf)) (mkSseParser buf (sp_scanned p)) in
  (if (MAX_BUFFERED <? N.of_nat (length (sp_buf p')))%N then Err unframed else Ok frames, p').
Definition sse_finish (p : SseParser) : option SseFrame * SseParser := (parse_block (sp_buf p), sse_new).

(** ** The body *)

(** What a provider makes of a frame (the trait [Decode]): the events it produces, or
    the failure that ends the stream. *)
Class Decode (D : Type) := decode : D -> str -> str -> result ProviderError (list ModelEvent) * D.

(** What ended one wait on the body. *)
Inductive Pulled :=
| Cancelled
| Chunk (chunk : option (result ProviderError bytes))
| Silent.
(** A wait: whether the token was cancelled when it was looked at, and what came. *)
Record Wait := mkWait { wt_cancelled : bool; wt_pulled : Pulled }.

Section body.
Context {D : Type} `{Decode D}.

Record Body := mkBody {
  bd_parser : SseParser;
  bd_decoder : D;
  bd_queue : list ModelEvent;
  bd_failure : option ProviderError;
  bd_done : bool;
}.
Definition body_new (decoder : D) : Body := mkBody sse_new decoder [] None false.
Definition body_fail (e : ProviderError) (b : Body) : Body :=
  mkBody (bd_parser b) (bd_decoder b) (bd_queue b) (Some e) (bd_done b).
Definition body_done (b : Body) : Body :=
  mkBody (bd_parser b) (bd_decoder b) (bd_queue b) (bd_failure b) true.
Definition with_parser (p : SseParser) (b : Body) : Body :=
  mkBody p (bd_decoder b) (bd_queue b) (bd_failure b) (bd_done b).

(** [absorb]: false when the frame ended the stream. *)
Definition absorb (b : Body) (f : SseFrame) : bool * Body :=
  match decode (bd_decoder b) (fr_event f) (fr_data f) with
  | (Ok events, d) => (true, mkBody (bd_parser b) d (bd_queue b ++ events) (bd_failure b) (bd_done b))
  | (Err e, d) => (false, body_fail e (mkBody (bd_parser b) d (bd_queue b) (bd_failure b) (bd_done b)))
  end.
Fixpoint absorb_all (b : Body) (frames : list SseFrame) : Body :=
  match frames with
  | [] => b
  | f :: frames => let '(more, b) := absorb b f in if more then absorb_all b frames else b
  end.
Definition body_feed (b : Body) (chunk : bytes) : Body :=
  match sse_feed (bd_parser b) chunk with
  | (Ok frames, p) => absorb_all (with_parser p b) frames
  | (Err message, p) => body_fail (PeStream message) (with_parser p b)
  end.
Definition body_end (b : Body) : Body :=
  let '(frame, p) := sse_finish (bd_parser b) in
  let b := with_parser p (body_done b) in
  match frame with Some f => (absorb b f).2 | None => b end.
Definition pump (b : Body) (pulled : Pulled) : Body :=
  match pulled with
  | Cancelled => body_done b
  | Silent => body_fail PeTimeout b
  | Chunk None => body_end b
  | Chunk (Some (Err transport)) => body_fail transport b
  | Chunk (Some (Ok bytes)) => body_feed b bytes
  end.

(** [next]: an item, the end, or a wait nothing has answered yet. *)
Inductive Nexted := Item_ (item : result ProviderError ModelEvent) | Ended | Waiting.
Fixpoint body_next (b : Body) (waits : list Wait) : Nexted * Body * list Wait :=
  match bd_queue b, bd_failure b with
  | e :: queue, _ =>
      (Item_ (Ok e), mkBody (bd_parser b) (bd_decoder b) queue (bd_failure b) (bd_done b), waits)
  | [], Some failure => (Item_ (Err failure), mkBody (bd_parser b) (bd_decoder b) [] None true, waits)
  | [], None =>
      if bd_done b then (Ended, b, waits)
      else match waits with
           | [] => (Waiting, b, [])
           | w :: waits => if wt_cancelled w then (Ended, b, waits) else body_next (pump b (wt_pulled w)) waits
           end
  end.

(** [model_stream]: the items as they are asked for, and whether the stream has ended. *)
Fixpoint model_stream (fuel : nat) (b : Body) (waits : list Wait) : list (result ProviderError ModelEvent) * bool :=
  match fuel with
  | O => ([], false)
  | S fuel =>
      match body_next b waits with
      | (Item_ item, b, waits) => let '(items, ended) := model_stream fuel b waits in (item :: items, ended)
      | (Ended, _, _) => ([], true)
      | (Waiting, _, _) => ([], false)
      end
  end.
End body.
Arguments Body D : clear implicits.

(** ** Examples, from the tests of sse.rs *)

Module Demo.
Fixpoint feeds (p : SseParser) (chunks : list bytes) : list SseFrame * SseParser :=
  match chunks with
  | [] => ([], p)
  | c :: chunks =>
      match sse_feed p c with
      | (Ok frames, p) => let '(more, p) := feeds p chunks in (frames ++ more, p)
      | (Err _, p) => ([], p)
      end
  end.
Definition frames_of (chunks : list bytes) : list SseFrame :=
  let '(frames, p) := feeds sse_new chunks in frames ++ option_list (sse_finish p).1.
Definition nl : bytes := [10]%N.
Definition crlf : bytes := [13; 10]%N.

Example a_frame_split_across_chunks :
  frames_of [lit "event: mess"; lit "age_start" ++ nl ++ lit "data: {";
             lit "}" ++ nl ++ nl ++ lit "event: message_stop" ++ nl ++ lit "data: {}" ++ nl ++ nl]
  = [mkSseFrame (lit "message_start") (lit "{}"); mkSseFrame (lit "message_stop") (lit "{}")].
Proof. reflexivity. Qed.
Example a_boundary_split_across_chunks :
  frames_of [lit "event: ping" ++ nl ++ lit "data: {}" ++ crlf; crlf ++ lit "event: stop" ++ nl ++ lit "data: {}" ++ nl ++ nl]
  = [mkSseFrame (lit "ping") (lit "{}"); mkSseFrame (lit "stop") (lit "{}")].
Proof. reflexivity. Qed.
Example repeated_data_lines_join :
  frames_of [lit "event: x" ++ crlf ++ lit "data: line1" ++ crlf ++ lit "data: line2" ++ crlf ++ crlf]
  = [mkSseFrame (lit "x") (lit "line1" ++ nl ++ lit "line2")].
Proof. reflexivity. Qed.
Example a_comment_is_nothing : frames_of [lit ": keep-alive" ++ nl ++ nl] = [].
Proof. reflexivity. Qed.
End Demo.
