(* ===== verification/SseLaws.v ===== *)
(** * SseLaws: a body reads the same however it came

    The framing of [Sse] finds the blank lines a byte-by-byte reading finds, wherever
    the chunks were cut, and the body hands over what its frames decode to and then why
    it ended. *)

From S2P Require Import Prelude Text Utf8 PermPath Model Stream Sse.

(** ** The reference: a byte at a time *)

Definition ends_block (cur : bytes) : bool := ends_with cur [10; 10]%N || ends_with cur [13; 10; 13; 10]%N.
(** The blocks of some bytes, [cur] being the block they go on with, and the block left
    unfinished. *)
Fixpoint scan (cur l : bytes) : list bytes * bytes :=
  match l with
  | [] => ([], cur)
  | b :: l =>
      if ends_block (cur ++ [b]) then let '(blocks, rest) := scan [] l in ((cur ++ [b]) :: blocks, rest)
      else scan (cur ++ [b]) l
  end.
Definition frames_of (l : bytes) : list SseFrame := omap parse_block (scan [] l).1.

(** No block ends within the first [n] bytes. *)
Definition no_end (l : bytes) (n : nat) : Prop := ∀ k, (k ≤ n)%nat → ends_block (take k l) = false.

(** What a decoder makes of frames, up to the first it fails on. *)
Section decoding.
Context {D : Type} `{Decode D}.
Fixpoint decode_all (d : D) (frames : list SseFrame) : list ModelEvent * option ProviderError * D :=
  match frames with
  | [] => ([], None, d)
  | f :: frames =>
      match decode d (fr_event f) (fr_data f) with
      | (Ok events, d) => let '(more, e, d) := decode_all d frames in (events ++ more, e, d)
      | (Err e, d) => ([], Some e, d)
      end
  end.

(** What ends the reading: the first wait that brings no bytes; none, and it goes on. *)
Definition ending (waits : list Wait) : option Pulled :=
  (fun w => if wt_cancelled w then Cancelled else wt_pulled w) <$> head waits.
(** What a reader is to hear of a body of these bytes that ended so. *)
Definition answered (d : D) (l : bytes) (last : option Pulled) : list (result ProviderError ModelEvent) * bool :=
  let '(events, failed, d) := decode_all d (frames_of l) in
  match failed, last with
  | Some e, _ => ((Ok <$> events) ++ [Err e], true)
  | None, None => (Ok <$> events, false)
  | None, Some Cancelled => (Ok <$> events, true)
  | None, Some Silent => ((Ok <$> events) ++ [Err PeTimeout], true)
  | None, Some (Chunk (Some (Err transport))) => ((Ok <$> events) ++ [Err transport], true)
  | None, Some (Chunk _) =>
      let '(more, failed, _) := decode_all d (option_list (parse_block (scan [] l).2)) in
      ((Ok <$> (events ++ more)) ++ (Err <$> option_list failed), true)
  end.
End decoding.

Definition brought (chunk : bytes) : Wait := mkWait false (Chunk (Some (Ok chunk))).
Definition brings_no_bytes (last : option Pulled) : Prop :=
  match last with Some (Chunk (Some (Ok _))) => False | _ => True end.
(** What is left unframed after each chunk stays under the ceiling. *)
Definition fits (chunks : list bytes) : Prop :=
  ∀ k, (N.of_nat (length (scan [] (concat (take k chunks))).2) <= MAX_BUFFERED)%N.

(** ** Where the first boundary is *)

Lemma window_at_Some w l i : window_at w l = Some i →
  w `prefix_of` drop i l ∧ (i < length l)%nat ∧ ∀ j, (j < i)%nat → ¬ w `prefix_of` drop j l.
Proof.
  revert i. induction l as [|b l IH]; intros i; cbn [window_at]; [done|].
  destruct (starts_with (b :: l) w) eqn:E; [intros [= <-]|].
  - apply starts_with_spec in E. cbn. split_and!; [done|lia|lia].
  - destruct (window_at w l) as [k|]; [|done]. intros [= <-]. destruct (IH k eq_refl) as (Hp & Hl & Hn). cbn. split_and!; [done|lia|].
    intros [|j] Hj; cbn; [|apply Hn; lia]. intros Hp'. apply starts_with_spec in Hp'. by rewrite Hp' in E.
Qed.
Lemma window_at_None w l : w ≠ [] → window_at w l = None → ∀ j, ¬ w `prefix_of` drop j l.
Proof.
  intros Hw. induction l as [|b l IH]; cbn [window_at]; intros Hl j.
  - rewrite drop_nil. by intros ?%prefix_nil_inv.
  - destruct (starts_with (b :: l) w) eqn:E; [done|]. destruct (window_at w l); [done|].
    destruct j as [|j]; cbn; [|by apply IH]. intros Hp. apply starts_with_spec in Hp. by rewrite Hp in E.
Qed.
(** A window that ends where the front of a list does. *)
Lemma ends_with_window l w k : (k ≤ length l)%nat →
  ends_with (take k l) w = true ↔ (length w ≤ k)%nat ∧ w `prefix_of` drop (k - length w) l.
Proof.
  intros Hk. rewrite ends_with_spec. split.
  - intros [r Hr]. assert (length (take k l) = length r + length w)%nat as Hl by (by rewrite Hr, length_app).
    rewrite length_take_le in Hl by done. split; [lia|]. replace (k - length w)%nat with (length r) by lia.
    exists (drop k l). rewrite <- (take_drop k l) at 1. rewrite Hr, <- app_assoc. by rewrite drop_app_length.
  - intros [Hw [r Hr]]. exists (take (k - length w) l). rewrite <- (take_drop (k - length w) l) at 1. rewrite Hr.
    rewrite take_app, take_take, Nat.min_r by lia. f_equal. rewrite length_take_le by lia.
    replace (k - (k - length w))%nat with (length w) by lia. by rewrite take_app_length.
Qed.
Lemma ends_block_window l k : (k ≤ length l)%nat →
  ends_block (take k l) = true ↔ (2 ≤ k)%nat ∧ [10; 10]%N `prefix_of` drop (k - 2) l
    ∨ (4 ≤ k)%nat ∧ [13; 10; 13; 10]%N `prefix_of` drop (k - 4) l.
Proof. intros Hk. unfold ends_block. rewrite orb_true_iff. by rewrite !ends_with_window. Qed.

Lemma window_fits (w l : bytes) k : w ≠ [] → w `prefix_of` drop k l → (k + length w ≤ length l)%nat.
Proof. intros Hw Hp%prefix_length. rewrite length_drop in Hp. destruct w; [done|]. cbn in *. lia. Qed.
Lemma lf_ends l a : [10; 10]%N `prefix_of` drop a l → ends_block (take (S (a + 1)) l) = true ∧ (a + 1 < length l)%nat.
Proof.
  intros Hp. pose proof (window_fits [10; 10]%N l a ltac:(done) Hp) as Hl. cbn in Hl. split; [|lia]. apply ends_block_window; [lia|].
  left. split; [lia|]. by replace (S (a + 1) - 2)%nat with a by lia.
Qed.
Lemma crlf_ends l b : [13; 10; 13; 10]%N `prefix_of` drop b l → ends_block (take (S (b + 3)) l) = true ∧ (b + 3 < length l)%nat.
Proof.
  intros Hp. pose proof (window_fits [13; 10; 13; 10]%N l b ltac:(done) Hp) as Hl. cbn in Hl. split; [|lia]. apply ends_block_window; [lia|].
  right. split; [lia|]. by replace (S (b + 3) - 4)%nat with b by lia.
Qed.
Lemma no_window_ends l i : (i ≤ length l)%nat →
  (∀ j, (j + 1 < i)%nat → ¬ [10; 10]%N `prefix_of` drop j l) →
  (∀ j, (j + 3 < i)%nat → ¬ [13; 10; 13; 10]%N `prefix_of` drop j l) → no_end l i.
Proof.
  intros Hi Hlf Hcr k Hk. apply not_true_iff_false. rewrite ends_block_window by lia. intros [[? Hp]|[? Hp]]; revert Hp.
  - apply (Hlf (k - 2)%nat). lia.
  - apply (Hcr (k - 4)%nat). lia.
Qed.
Lemma find_block_end_Some l i : find_block_end l = Some i → ends_block (take (S i) l) = true ∧ (i < length l)%nat ∧ no_end l i.
Proof.
  unfold find_block_end.
  destruct (window_at [10; 10]%N l) as [a|] eqn:Ea, (window_at [13; 10; 13; 10]%N l) as [b|] eqn:Eb; cbn; intros [= <-].
  - apply window_at_Some in Ea as (Ha & _ & Hna), Eb as (Hb & _ & Hnb).
    pose proof (lf_ends _ _ Ha) as [Hl1 Hl2]. pose proof (crlf_ends _ _ Hb) as [Hc1 Hc2].
    destruct (Nat.min_spec (a + 1) (b + 3)) as [[? ->]|[? ->]]; (split_and!; [done..|]);
      (apply no_window_ends; [lia|intros j Hj; apply (Hna j); lia|intros j Hj; apply (Hnb j); lia]).
  - apply window_at_Some in Ea as (Ha & _ & Hna). pose proof (window_at_None [13; 10; 13; 10]%N l ltac:(done) Eb) as Hnb.
    pose proof (lf_ends _ _ Ha) as [Hl1 Hl2]. split_and!; [done..|].
    apply no_window_ends; [lia|intros j Hj; apply (Hna j); lia|intros j _; apply (Hnb j)].
  - pose proof (window_at_None [10; 10]%N l ltac:(done) Ea) as Hna. apply window_at_Some in Eb as (Hb & _ & Hnb).
    pose proof (crlf_ends _ _ Hb) as [Hc1 Hc2]. split_and!; [done..|].
    apply no_window_ends; [lia|intros j _; apply (Hna j)|intros j Hj; apply (Hnb j); lia].
Qed.
Lemma find_block_end_None l : find_block_end l = None → no_end l (length l).
Proof.
  unfold find_block_end. intros Hf k Hk.
  destruct (window_at [10; 10]%N l) eqn:Ea, (window_at [13; 10; 13; 10]%N l) eqn:Eb; cbn in Hf; try done.
  apply not_true_iff_false. rewrite ends_block_window by lia.
  intros [[_ Hp]|[_ Hp]]; revert Hp; by apply window_at_None.
Qed.

(** Looking from three bytes back of what was looked at finds the same. *)
Lemma ends_block_drop l from k : (from + 4 ≤ k ∨ from = 0)%nat → (k ≤ length l)%nat →
  ends_block (take (k - from) (drop from l)) = ends_block (take k l).
Proof.
  intros Hf Hk. apply eq_true_iff_eq. rewrite !ends_block_window by (rewrite ?length_drop; lia). rewrite !drop_drop.
  split.
  - intros [[? Hp]|[? Hp]]; [left|right]; (split; [lia|]).
    + by replace (from + (k - from - 2))%nat with (k - 2)%nat in Hp by lia.
    + by replace (from + (k - from - 4))%nat with (k - 4)%nat in Hp by lia.
  - intros [[? Hp]|[? Hp]]; [left|right]; (split; [lia|]).
    + by replace (from + (k - from - 2))%nat with (k - 2)%nat by lia.
    + by replace (from + (k - from - 4))%nat with (k - 4)%nat by lia.
Qed.

(** ** The parser finds what the reading finds *)

Lemma scan_found cur l k : (length cur < k ≤ length (cur ++ l))%nat → ends_block (take k (cur ++ l)) = true →
  (∀ j, (length cur < j < k)%nat → ends_block (take j (cur ++ l)) = false) →
  scan cur l = let '(blocks, rest) := scan [] (drop k (cur ++ l)) in (take k (cur ++ l) :: blocks, rest).
Proof.
  revert cur. induction l as [|b l IH]; intros cur Hk He Hn; [rewrite app_nil_r in Hk; lia|].
  cbn [scan]. assert (cur ++ b :: l = (cur ++ [b]) ++ l) as E by (by rewrite <- app_assoc). rewrite E in *.
  assert (length (cur ++ [b]) = S (length cur)) as El by (rewrite length_app; cbn; lia).
  destruct (decide (k = S (length cur))) as [->|Hne].
  - rewrite <- El, take_app_length in *. rewrite He. by rewrite drop_app_length.
  - assert (ends_block (cur ++ [b]) = false) as ->.
    { specialize (Hn (S (length cur)) ltac:(lia)). by rewrite <- El, take_app_length in Hn. }
    apply IH; [lia|done|]. intros j Hj. apply Hn. lia.
Qed.
Lemma scan_none cur l : (∀ j, (length cur < j ≤ length (cur ++ l))%nat → ends_block (take j (cur ++ l)) = false) →
  scan cur l = ([], cur ++ l).
Proof.
  revert cur. induction l as [|b l IH]; intros cur Hn; [by rewrite app_nil_r|].
  cbn [scan]. assert (cur ++ b :: l = (cur ++ [b]) ++ l) as E by (by rewrite <- app_assoc). rewrite E in *.
  assert (length (cur ++ [b]) = S (length cur)) as El by (rewrite length_app; cbn; lia).
  assert (ends_block (cur ++ [b]) = false) as ->.
  { specialize (Hn (S (length cur))). rewrite <- El, take_app_length in Hn. apply Hn. rewrite !length_app. cbn. lia. }
  apply IH. intros j Hj. apply Hn. lia.
Qed.
Lemma scan_app cur x y : scan cur (x ++ y) = let '(blocks, rest) := scan cur x in let '(more, rest) := scan rest y in (blocks ++ more, rest).
Proof.
  revert cur. induction x as [|b x IH]; intros cur; cbn [app scan]; [by destruct (scan cur y)|].
  destruct (ends_block (cur ++ [b])); [|apply IH]. rewrite IH. destruct (scan [] x) as [bs r]. by destruct (scan r y).
Qed.
Lemma ends_block_nil : ends_block [] = false.
Proof. done. Qed.
Lemma scan_rest_ends cur l : no_end cur (length cur) → no_end (scan cur l).2 (length (scan cur l).2).
Proof.
  revert cur. induction l as [|b l IH]; intros cur Hc; [done|]. cbn [scan].
  destruct (ends_block (cur ++ [b])) eqn:E.
  - specialize (IH []). destruct (scan [] l). apply IH. intros k _. by rewrite take_nil.
  - apply IH. intros k Hk. rewrite length_app in Hk. cbn in Hk. destruct (decide (k = length cur + 1)%nat) as [->|].
    + rewrite take_ge; [done|]. rewrite length_app. cbn. lia.
    + rewrite take_app_le by lia. apply Hc. lia.
Qed.
Lemma no_end_nil n : no_end [] n.
Proof. intros k _. by rewrite take_nil. Qed.

(** The loop of [feed], from a front known to hold no boundary. *)
Lemma frames_loop_scan fuel p : (length (sp_buf p) < fuel)%nat → no_end (sp_buf p) (sp_scanned p) →
  (sp_scanned p ≤ length (sp_buf p))%nat →
  frames_loop fuel p = (frames_of (sp_buf p), mkSseParser (scan [] (sp_buf p)).2 (length (scan [] (sp_buf p)).2)).
Proof.
  revert p. induction fuel as [|fuel IH]; intros [buf scanned] Hf Hn Hs; cbn [sp_buf sp_scanned] in *; [lia|].
  cbn [frames_loop sp_buf sp_scanned]. unfold BOUNDARY_OVERLAP. set (from := (scanned - 3)%nat).
  assert (∀ k, (k ≤ scanned ∨ from = 0 ∨ from + 4 ≤ k)%nat) as Hcases by (intros k; unfold from; lia).
  destruct (find_block_end (drop from buf)) as [offset|] eqn:E.
  - apply find_block_end_Some in E as (He & Hl & Hbefore). rewrite length_drop in Hl.
    replace (from + offset + 1)%nat with (S (from + offset)) by lia. set (k := S (from + offset)).
    assert (k ≤ length buf)%nat by lia.
    assert (ends_block (take k buf) = true) as Hk.
    { apply ends_block_window; [lia|]. apply ends_block_window in He; [|rewrite length_drop; lia]. rewrite !drop_drop in He.
      destruct He as [[? Hp]|[? Hp]]; [left|right]; (split; [lia|]).
      - by replace (k - 2)%nat with (from + (S offset - 2))%nat by lia.
      - by replace (k - 4)%nat with (from + (S offset - 4))%nat by lia. }
    assert (scanned < k)%nat as Hlate.
    { destruct (decide (scanned < k)%nat) as [|Hd]; [done|]. rewrite (Hn k) in Hk by lia. done. }
    assert (∀ j, (0 < j < k)%nat → ends_block (take j buf) = false) as Hfirst.
    { intros j Hj. destruct (Hcases j) as [Hj'|Hj']; [by apply Hn|]. rewrite <- (ends_block_drop buf from) by lia.
      apply Hbefore. lia. }
    rewrite (IH (mkSseParser (drop k buf) (scanned - k))); cbn [sp_buf sp_scanned]; [|rewrite length_drop; lia| |lia].
    + unfold frames_of. rewrite (scan_found [] buf k); cbn [app length]; [|lia|done|intros j Hj; apply Hfirst; lia].
      destruct (scan [] (drop k buf)) as [blocks rest]. cbn [fst snd omap list_omap]. by destruct (parse_block (take k buf)).
    + replace (scanned - k)%nat with 0%nat by lia. intros j Hj. by replace j with 0%nat by lia.
  - apply find_block_end_None in E. unfold frames_of. rewrite (scan_none [] buf); [done|]. cbn [app length]. intros j Hj.
    destruct (Hcases j) as [Hj'|Hj']; [by apply Hn|]. rewrite <- (ends_block_drop buf from) by lia. apply E. rewrite length_drop. lia.
Qed.

(** What a parser holds once it has been fed [l]. *)
Definition framing (l : bytes) (p : SseParser) : Prop :=
  sp_buf p = (scan [] l).2 ∧ sp_scanned p = length (sp_buf p).
Lemma framing_new : framing [] sse_new.
Proof. done. Qed.
Lemma frames_of_app x y : frames_of (x ++ y) = frames_of x ++ frames_of ((scan [] x).2 ++ y).
Proof.
  unfold frames_of. rewrite !scan_app. destruct (scan [] x) as [bs r] eqn:E. cbn [snd].
  assert (scan [] r = ([], r)) as ->.
  { rewrite scan_none; [done|]. intros j Hj. pose proof (scan_rest_ends [] x (no_end_nil _)) as Hr. rewrite E in Hr.
    apply Hr. cbn in *. lia. }
  destruct (scan r y) as [more rest]. cbn [fst]. by rewrite omap_app.
Qed.
Lemma scan_rest_app x y : (scan [] ((scan [] x).2 ++ y)).2 = (scan [] (x ++ y)).2.
Proof.
  rewrite !scan_app. destruct (scan [] x) as [bs r] eqn:E. cbn [snd].
  assert (scan [] r = ([], r)) as ->.
  { rewrite scan_none; [done|]. intros j Hj. pose proof (scan_rest_ends [] x (no_end_nil _)) as Hr. rewrite E in Hr.
    apply Hr. cbn in *. lia. }
  by destruct (scan r y).
Qed.
Lemma feed_framing l p chunk : framing l p → (N.of_nat (length (scan [] (l ++ chunk)).2) <= MAX_BUFFERED)%N →
  ∃ frames p', sse_feed p chunk = (Ok frames, p') ∧ framing (l ++ chunk) p' ∧ frames_of (l ++ chunk) = frames_of l ++ frames.
Proof.
  intros [Hb Hs] Hf. unfold sse_feed. rewrite Hb in Hs. rewrite Hb, Hs.
  rewrite frames_loop_scan; cbn [sp_buf sp_scanned].
  - rewrite scan_rest_app. eexists _, _. rewrite (proj2 (N.ltb_ge _ _)) by done. split; [done|]. split; [done|]. apply frames_of_app.
  - lia.
  - intros k Hk. rewrite take_app_le by done. by apply (scan_rest_ends [] l (no_end_nil _)).
  - rewrite length_app. lia.
Qed.

(** ** The body hands over what its frames decode to *)

Section reading.
Context {D : Type} `{Decode D}.

(** A stream comes to [out] once it is asked often enough. *)
Definition comes_to (b : Body D) (waits : list Wait) (out : list (result ProviderError ModelEvent) * bool) : Prop :=
  ∃ n, ∀ fuel, (n ≤ fuel)%nat → model_stream fuel b waits = out.

Lemma comes_queue p d queue f done_ waits out : comes_to (mkBody p d [] f done_) waits out →
  comes_to (mkBody p d queue f done_) waits ((Ok <$> queue) ++ out.1, out.2).
Proof.
  destruct out as [items ended]. intros [n Hn]. exists (length queue + n)%nat. intros fuel Hf.
  revert fuel Hf. induction queue as [|e queue IH]; intros fuel Hf; [by apply Hn|].
  destruct fuel as [|fuel]; cbn in Hf; [lia|]. cbn [model_stream].
  assert (body_next (mkBody p d (e :: queue) f done_) waits = (Item_ (Ok e), mkBody p d queue f done_, waits)) as -> by by destruct waits.
  by rewrite IH by lia.
Qed.
Lemma comes_failure p d f done_ waits : comes_to (mkBody p d [] (Some f) done_) waits ([Err f], true).
Proof.
  exists 2%nat. intros [|[|fuel]] Hf; [lia..|]. cbn [model_stream].
  assert (body_next (mkBody p d [] (Some f) done_) waits = (Item_ (Err f), mkBody p d [] None true, waits)) as -> by by destruct waits.
  assert (body_next (mkBody p d [] None true) waits = (Ended, mkBody p d [] None true, waits)) as -> by by destruct waits.
  done.
Qed.
Lemma comes_done p d waits : comes_to (mkBody p d [] None true) waits ([], true).
Proof.
  exists 1%nat. intros [|fuel] Hf; [lia|]. cbn [model_stream].
  assert (body_next (mkBody p d [] None true) waits = (Ended, mkBody p d [] None true, waits)) as -> by by destruct waits.
  done.
Qed.
Lemma comes_waiting p d : comes_to (mkBody p d [] None false) [] ([], false).
Proof. exists 1%nat. by intros [|fuel] Hf; [lia|]. Qed.
Lemma comes_looked p d w waits : wt_cancelled w = true → comes_to (mkBody p d [] None false) (w :: waits) ([], true).
Proof. intros Hw. exists 1%nat. intros [|fuel] Hf; [lia|]. cbn. by rewrite Hw. Qed.
Lemma comes_pump p d w waits out : wt_cancelled w = false →
  comes_to (pump (mkBody p d [] None false) (wt_pulled w)) waits out → comes_to (mkBody p d [] None false) (w :: waits) out.
Proof.
  intros Hw [n Hn]. exists (S n). intros [|fuel] Hf; [lia|]. specialize (Hn (S fuel) ltac:(lia)). rewrite <- Hn.
  cbn [model_stream]. cbn [body_next bd_queue bd_failure bd_done]. by rewrite Hw.
Qed.

Lemma absorb_all_decode p d queue done_ frames :
  absorb_all (mkBody p d queue None done_) frames =
  let '(events, failed, d') := decode_all d frames in mkBody p d' (queue ++ events) failed done_.
Proof.
  revert d queue. induction frames as [|f frames IH]; intros d queue; cbn; [by rewrite app_nil_r|].
  unfold absorb. cbn. destruct (decode d (fr_event f) (fr_data f)) as [[events|e] d1]; cbn; [|by rewrite app_nil_r].
  rewrite IH. destruct (decode_all d1 frames) as [[more e] d2]. by rewrite app_assoc.
Qed.
Lemma decode_all_app d xs ys : decode_all d (xs ++ ys) =
  let '(events, failed, d') := decode_all d xs in
  match failed with
  | Some e => (events, Some e, d')
  | None => let '(more, failed, d'') := decode_all d' ys in (events ++ more, failed, d'')
  end.
Proof.
  revert d. induction xs as [|f xs IH]; intros d; cbn; [by destruct (decode_all d ys) as [[??]?]|].
  destruct (decode d (fr_event f) (fr_data f)) as [[events|e] d1]; [|done]. rewrite IH.
  destruct (decode_all d1 xs) as [[more [e|]] d2]; [done|]. destruct (decode_all d2 ys) as [[??]?]. by rewrite app_assoc.
Qed.

(** Why the reading ended, once all that came before it was handed over. *)
Definition closing (d : D) (l : bytes) (last : option Pulled) : list (result ProviderError ModelEvent) * bool :=
  match last with
  | None => ([], false)
  | Some Cancelled => ([], true)
  | Some Silent => ([Err PeTimeout], true)
  | Some (Chunk (Some (Err transport))) => ([Err transport], true)
  | Some (Chunk _) =>
      let '(more, failed, _) := decode_all d (option_list (parse_block (scan [] l).2)) in
      ((Ok <$> more) ++ (Err <$> option_list failed), true)
  end.
Lemma answered_closing d l last : answered d l last =
  let '(events, failed, d') := decode_all d (frames_of l) in
  match failed with
  | Some e => ((Ok <$> events) ++ [Err e], true)
  | None => ((Ok <$> events) ++ (closing d' l last).1, (closing d' l last).2)
  end.
Proof.
  unfold answered, closing. destruct (decode_all d (frames_of l)) as [[events [e|]] d']; [done|].
  destruct last as [[|[[chunk|transport]|]|]|]; cbn; rewrite ?app_nil_r; try done;
    destruct (decode_all d' _) as [[more failed] ?]; cbn; by rewrite fmap_app, app_assoc.
Qed.
Lemma comes_closing d p l waits : framing l p → brings_no_bytes (ending waits) →
  comes_to (mkBody p d [] None false) waits (closing d l (ending waits)).
Proof.
  intros Hp He. destruct waits as [|w waits]; [apply comes_waiting|]. unfold ending in *. cbn [head fmap option_fmap option_map] in *.
  destruct (wt_cancelled w) eqn:Ew; [by apply comes_looked|]. apply comes_pump; [done|].
  destruct (wt_pulled w) as [|[[chunk|transport]|]|]; cbn [pump closing]; [apply comes_done|done|apply comes_failure| |apply comes_failure].
  unfold body_end, sse_finish. cbn [bd_parser]. destruct Hp as [-> _]. destruct (parse_block (scan [] l).2) as [f|]; [|apply comes_done].
  unfold absorb, body_done, with_parser. cbn. destruct (decode d (fr_event f) (fr_data f)) as [[events|e] d']; cbn.
  - rewrite app_nil_r. destruct (comes_queue sse_new d' events None true waits ([], true) (comes_done _ _ _)) as [n Hn].
    exists n. intros fuel Hf. rewrite (Hn fuel Hf). cbn. by rewrite ?app_nil_r.
  - apply comes_failure.
Qed.

Lemma comes_read d chunks p l waits : framing l p → brings_no_bytes (ending waits) →
  (∀ k, (N.of_nat (length (scan [] (l ++ concat (take k chunks))).2) <= MAX_BUFFERED)%N) →
  ∀ d0 events, decode_all d0 (frames_of l) = (events, None, d) →
  ∃ out, comes_to (mkBody p d [] None false) ((brought <$> chunks) ++ waits) out
    ∧ answered d0 (l ++ concat chunks) (ending waits) = ((Ok <$> events) ++ out.1, out.2).
Proof.
  revert d p l. induction chunks as [|c chunks IH]; intros d p l Hp He Hfit d0 events Hd.
  - rewrite app_nil_r. exists (closing d l (ending waits)). split; [by apply comes_closing|]. by rewrite answered_closing, Hd.
  - pose proof (Hfit 1%nat) as H1. cbn [take concat] in H1. rewrite take_0 in H1. cbn [concat] in H1. rewrite app_nil_r in H1.
    destruct (feed_framing l p c Hp H1) as (frames & p' & Ef & Hp' & Efr).
    assert (decode_all d0 (frames_of (l ++ c)) = let '(more, failed, d') := decode_all d frames in (events ++ more, failed, d')) as Ed.
    { rewrite Efr, decode_all_app, Hd. by destruct (decode_all d frames) as [[??]?]. }
    assert (pump (mkBody p d [] None false) (wt_pulled (brought c))
      = let '(more, failed, d') := decode_all d frames in mkBody p' d' more failed false) as Ep.
    { cbn. unfold body_feed. cbn. rewrite Ef. unfold with_parser. cbn. rewrite absorb_all_decode. by destruct (decode_all d frames) as [[??]?]. }
    destruct (decode_all d frames) as [[more [e|]] d'] eqn:Em.
    + exists ((Ok <$> more) ++ [Err e], true). cbn [concat]. split.
      * apply comes_pump; [done|]. rewrite Ep. apply (comes_queue _ _ _ _ _ _ ([Err e], true)), comes_failure.
      * rewrite answered_closing, app_assoc, frames_of_app, decode_all_app, Ed. by rewrite fmap_app, <- app_assoc.
    + destruct (IH d' p' (l ++ c) Hp' He) with (d0 := d0) (events := events ++ more) as (out & Hout & Ea); [|done|].
      { intros k. rewrite <- app_assoc. apply (Hfit (S k)). }
      exists ((Ok <$> more) ++ out.1, out.2). cbn [concat]. split.
      * apply comes_pump; [done|]. rewrite Ep. by apply comes_queue.
      * rewrite app_assoc, Ea. cbn. by rewrite fmap_app, app_assoc.
Qed.

End reading.

(** ** Frames as a server writes them *)

Definition render (f : SseFrame) : str :=
  lit "event: " ++ fr_event f ++ [10%N] ++ lit "data: " ++ fr_data f ++ [10; 10]%N.
(** One line of text, without blanks around it. *)
Definition one_line (s : str) : Prop := (∀ c, c ∈ s → c ≠ 10%N ∧ c ≠ 13%N) ∧ trim s = s ∧ Forall is_char s.
Definition clean (f : SseFrame) : Prop := one_line (fr_event f) ∧ one_line (fr_data f).

Lemma trim_start_fixed p s : trim_by p s = s → trim_start_by p s = s.
Proof.
  intros Ht. destruct (trim_start_by_suffix p s) as [x Hx]. destruct (trim_end_by_prefix p (trim_start_by p s)) as [y Hy].
  unfold trim_by in Ht. rewrite Ht in Hy. assert (length x = 0%nat) as Hl.
  { apply (f_equal length) in Hx, Hy. rewrite !length_app in *. lia. }
  destruct x; [|done]. by rewrite Hx at 2.
Qed.
Lemma trim_blank_front c s : is_whitespace c = true → trim (c :: s) = trim s.
Proof. intros Hc. unfold trim, trim_by. cbn. by rewrite Hc. Qed.
Lemma trim_end_blank p s c : p c = true → trim_end_by p (s ++ [c]) = trim_end_by p s.
Proof. intros Hc. unfold trim_end_by. rewrite reverse_snoc. cbn. by rewrite Hc. Qed.
Lemma trim_blank_end s : trim s = s → trim (s ++ [10%N]) = s.
Proof.
  intros Ht. destruct s as [|c s]; [done|]. unfold trim, trim_by.
  assert (trim_start_by is_whitespace ((c :: s) ++ [10%N]) = (c :: s) ++ [10%N]) as ->.
  { pose proof (trim_start_fixed _ _ Ht) as Hs. apply trim_start_by_id. intros c' r [= <- _]. by apply (trim_start_by_head _ _ _ _ Hs). }
  rewrite trim_end_blank by done. unfold trim, trim_by in Ht. by rewrite (trim_start_fixed _ _ Ht) in Ht.
Qed.
Lemma utf8_no_byte s b : (b < 128)%N → (∀ c, c ∈ s → c ≠ b) → b ∉ utf8 s.
Proof.
  intros Hb Hs Hin. unfold utf8 in Hin. apply list_elem_of_bind in Hin as (c & Hin & Hc). apply Hs in Hc. revert Hin. unfold utf8_char.
  destruct (N.ltb_spec c 128); [rewrite list_elem_of_singleton; congruence|].
  destruct (c <? 2048)%N; [|destruct (c <? 65536)%N]; rewrite !elem_of_cons, elem_of_nil;
    repeat match goal with |- context [(?x mod 64)%N] => generalize (x mod 64)%N; intros ? | |- context [(?x / ?y)%N] => generalize (x / y)%N; intros ? end; lia.
Qed.
Lemma ends_block_ne l c : c ≠ 10%N → ends_block (l ++ [c]) = false.
Proof.
  intros Hc. apply not_true_iff_false. unfold ends_block. rewrite orb_true_iff, !ends_with_spec.
  intros [[r Hr]|[r Hr]]; [change [10; 10]%N with ([10] ++ [10])%N in Hr|change [13; 10; 13; 10]%N with ([13; 10; 13] ++ [10])%N in Hr];
    rewrite app_assoc in Hr; apply app_inj_tail in Hr as [_ ?]; done.
Qed.
Lemma ends_block_line l c : c ≠ 10%N → c ≠ 13%N → ends_block ((l ++ [c]) ++ [10%N]) = false.
Proof.
  intros Hc Hd. apply not_true_iff_false. unfold ends_block. rewrite orb_true_iff, !ends_with_spec.
  intros [[r Hr]|[r Hr]]; [change [10; 10]%N with ([10] ++ [10])%N in Hr|change [13; 10; 13; 10]%N with (([13; 10] ++ [13]) ++ [10])%N in Hr];
    rewrite ?app_assoc in Hr; apply app_inj_tail in Hr as [Hr _]; apply app_inj_tail in Hr as [_ ?]; done.
Qed.
Lemma scan_line cur x y : 10%N ∉ x → scan cur (x ++ y) = scan (cur ++ x) y.
Proof.
  revert cur. induction x as [|b x IH]; intros cur Hx; [by rewrite app_nil_r|]. cbn [app scan].
  rewrite ends_block_ne by (intros ->; apply Hx; by left). rewrite IH by (intros ?; apply Hx; by right). by rewrite <- app_assoc.
Qed.
Lemma scan_end_line cur x y : 10%N ∉ x → 13%N ∉ x → x ≠ [] → scan cur (x ++ 10%N :: y) = scan (cur ++ x ++ [10%N]) y.
Proof.
  intros Hn Hr Hx. rewrite scan_line by done. cbn [scan]. destruct (exists_last Hx) as (x' & c & ->).
  rewrite (app_assoc cur x' [c]), ends_block_line; [by rewrite <- !app_assoc| |].
  - intros ->. apply Hn, elem_of_app. right. by left.
  - intros ->. apply Hr, elem_of_app. right. by left.
Qed.
Lemma utf8_line prefix s : (∀ c, c ∈ s → c ≠ 10%N ∧ c ≠ 13%N) → 10%N ∉ prefix → 13%N ∉ prefix →
  10%N ∉ prefix ++ utf8 s ∧ 13%N ∉ prefix ++ utf8 s.
Proof.
  intros Hs H1 H2. rewrite !elem_of_app. split; intros [?|Hin]; try done; revert Hin; apply utf8_no_byte; try done; intros c Hc; by apply Hs.
Qed.
Lemma scan_render f rest : clean f →
  scan [] (utf8 (render f) ++ rest) = let '(blocks, r) := scan [] rest in (utf8 (render f) :: blocks, r).
Proof.
  intros [(He & _) (Hd & _)]. unfold render. rewrite !utf8_app, <- !app_assoc. change (utf8 [10%N]) with [10%N]. change (utf8 [10%N; 10%N]) with [10%N; 10%N].
  destruct (utf8_line (utf8 (lit "event: ")) (fr_event f) He) as [He1 He2]; [by vm_compute; set_solver..|].
  destruct (utf8_line (utf8 (lit "data: ")) (fr_data f) Hd) as [Hd1 Hd2]; [by vm_compute; set_solver..|].
  set (E := utf8 (fr_event f)) in *. set (D := utf8 (fr_data f)) in *.
  rewrite (app_assoc _ E), (app_assoc _ D). cbn [app]. rewrite scan_end_line by done. rewrite scan_end_line by done.
  cbn [scan]. assert (∀ x, ends_block ((x ++ [10%N]) ++ [10%N]) = true) as Hends.
  { intros x. unfold ends_block. apply orb_true_iff. left. apply ends_with_spec. exists x. by rewrite <- app_assoc. }
  rewrite (app_assoc [] _ _), (app_assoc _ _ [10%N]), Hends. destruct (scan [] rest) as [bs r]. by rewrite <- !app_assoc.
Qed.
Lemma unix_lines_id s : (∀ c, c ∈ s → c ≠ 13%N) → unix_lines s = s.
Proof.
  induction s as [|c s IH]; intros Hs; [done|]. assert (unix_lines s = s) as E by (apply IH; intros d Hd; apply Hs; by right).
  destruct s as [|d s]; [done|]. cbn [unix_lines]. rewrite (proj2 (N.eqb_neq c 13)) by (apply Hs; by left). cbn [andb]. f_equal. exact E.
Qed.
Lemma split_by_line a r : (∀ c, c ∈ a → c ≠ 10%N) → split_by (N.eqb 10) (a ++ 10%N :: r) = a :: split_by (N.eqb 10) r.
Proof. intros Ha. apply split_by_app; [|done]. intros d Hd. apply N.eqb_neq. intros <-. by eapply Ha. Qed.
Lemma parse_block_render f : clean f → parse_block (utf8 (render f)) = Some f.
Proof.
  intros [(He & Te & Ce) (Hd & Td & Cd)]. unfold parse_block. rewrite from_utf8_lossy_utf8.
  2: { unfold render. rewrite !Forall_app. split_and!; try done; repeat constructor; unfold is_char; lia. }
  rewrite unix_lines_id.
  2: { intros c Hc. unfold render in Hc. rewrite !elem_of_app in Hc. destruct Hc as [Hc|[Hc|[Hc|[Hc|[Hc|Hc]]]]];
       try (by apply He in Hc as [_ ?]); try (by apply Hd in Hc as [_ ?]); revert Hc; vm_compute; set_solver. }
  unfold render. rewrite (app_assoc (lit "event: ")). cbn [app]. rewrite split_by_line.
  2: { intros c Hc. rewrite elem_of_app in Hc. destruct Hc as [Hc|Hc]; [revert Hc; vm_compute; set_solver|by apply He in Hc as [? _]]. }
  rewrite (app_assoc (lit "data: ")). rewrite split_by_line.
  2: { intros c Hc. rewrite elem_of_app in Hc. destruct Hc as [Hc|Hc]; [revert Hc; vm_compute; set_solver|by apply Hd in Hc as [? _]]. }
  change (split_by (N.eqb 10) [10%N]) with [[] : str; []]. cbn [foldl].
  assert (∀ st s, parse_line st (lit "event: " ++ s) = (Some (trim (32%N :: s)), st.2)) as Hev by done.
  assert (∀ st s, parse_line st (lit "data: " ++ s) = (st.1, st.2 ++ trim_start_by is_whitespace (32%N :: s) ++ [10%N])) as Hda by done.
  assert (∀ st, parse_line st [] = st) as Hnone by done.
  rewrite Hev, Hda, !Hnone. cbn [fst snd app]. rewrite trim_blank_front, Te by done.
  assert (trim_start_by is_whitespace (32%N :: fr_data f) = fr_data f) as -> by (apply (trim_start_fixed _ _ Td)).
  rewrite trim_blank_end by done. by destruct f.
Qed.

(** Frames written are frames read. *)
Lemma frames_written frames : Forall clean frames → scan [] (concat ((λ f, utf8 (render f)) <$> frames)) = ((λ f, utf8 (render f)) <$> frames, []).
Proof.
  induction 1 as [|f frames Hf _ IH]; [done|]. cbn [fmap list_fmap concat]. rewrite scan_render by done.
  by rewrite IH.
Qed.
Lemma frames_read_back frames : Forall clean frames →
  frames_of (concat ((λ f, utf8 (render f)) <$> frames)) = frames ∧ (scan [] (concat ((λ f, utf8 (render f)) <$> frames))).2 = [].
Proof.
  intros Hf. rewrite frames_written by done. split; [|done]. unfold frames_of. rewrite frames_written by done. cbn [fst].
  induction Hf as [|f frames Hf _ IH]; [done|]. cbn [fmap list_fmap omap list_omap]. rewrite parse_block_render by done. f_equal. exact IH.
Qed.

(** A body of frames as written, cut anywhere, to its end. *)
Lemma body_hears {D} `{Decode D} (d : D) frames chunks events : Forall clean frames →
  concat chunks = concat ((λ f, utf8 (render f)) <$> frames) → fits chunks → (decode_all d frames).1 = (events, None) →
  ∃ n, ∀ fuel, (n ≤ fuel)%nat →
    model_stream fuel (body_new d) ((brought <$> chunks) ++ [mkWait false (Chunk None)]) = (Ok <$> events, true).
Proof.
  intros Hc Hb Hfit Hd. destruct (comes_read d chunks sse_new [] [mkWait false (Chunk None)] framing_new I Hfit d [] eq_refl)
    as ([items ended] & Hout & Ea). cbn [fmap list_fmap app fst snd] in Ea.
  assert (answered d (concat chunks) (ending [mkWait false (Chunk None)]) = (Ok <$> events, true)) as E.
  { unfold answered. destruct (frames_read_back frames Hc) as [Hf Hr]. rewrite Hb, Hf, Hr.
    destruct (decode_all d frames) as [[ev f] d']. cbn in Hd. injection Hd as -> ->.
    change (parse_block []) with (@None SseFrame). cbn. by rewrite !app_nil_r. }
  cbn [app] in Ea. rewrite E in Ea. rewrite Ea. exact Hout.
Qed.

(** Frames that a chunk completes are lost with it when what follows them in the chunk is
    past the ceiling; cut between the two, the same bytes are heard before the failure. *)
Theorem an_overflow_drops_what_its_chunk_framed {D} `{Decode D} (d d' : D) (frames : list SseFrame) (junk : bytes) (events : list ModelEvent) :
  Forall clean frames → 10%N ∉ junk → (MAX_BUFFERED < N.of_nat (length junk))%N → decode_all d frames = (events, None, d') →
  let written := concat ((λ f, utf8 (render f)) <$> frames) in
  (N.of_nat (length written) <= MAX_BUFFERED)%N →
  comes_to (body_new d) [brought (written ++ junk)] ([Err (PeStream unframed)], true)
  ∧ comes_to (body_new d) [brought written; brought junk] ((Ok <$> events) ++ [Err (PeStream unframed)], true).
Proof.
  intros Hc Hj Hlong Hd written Hshort. destruct (frames_read_back frames Hc) as [Hf Hr]. fold written in Hf, Hr.
  assert (∀ p l chunk, framing l p → (scan [] (l ++ chunk)).2 = junk → ∃ p', sse_feed p chunk = (Err unframed, p')) as Hover.
  { intros p l chunk [Hb Hs] Hrest. unfold sse_feed. rewrite Hb in Hs. rewrite Hb, Hs. rewrite frames_loop_scan; cbn [sp_buf sp_scanned].
    - rewrite scan_rest_app, Hrest. rewrite (proj2 (N.ltb_lt _ _)) by done. by eexists.
    - lia.
    - intros k Hk. rewrite take_app_le by done. by apply (scan_rest_ends [] l (no_end_nil _)).
    - rewrite length_app. lia. }
  assert ((scan [] (written ++ junk)).2 = junk) as Hrest.
  { pose proof (scan_app [] written junk) as Ha. destruct (scan [] written) as [bs r]. cbn in Hr. subst r.
    pose proof (scan_line [] junk [] Hj) as Hl. rewrite app_nil_r in Hl. cbn [app scan] in Hl. rewrite Hl in Ha. by rewrite Ha. }
  split.
  - destruct (Hover sse_new [] (written ++ junk) framing_new Hrest) as [p' Hp]. apply comes_pump; [done|]. cbn. unfold body_feed. cbn. rewrite Hp.
    apply comes_failure.
  - destruct (feed_framing [] sse_new written framing_new) as (fs & p & Hp & Hframing & Hfs); [cbn [app]; rewrite Hr; cbn; lia|].
    cbn [app] in Hfs, Hframing. unfold frames_of at 2 in Hfs. cbn in Hfs. rewrite Hf in Hfs. subst fs.
    destruct (Hover p written junk Hframing Hrest) as [p' Hp'].
    apply comes_pump; [done|]. cbn. unfold body_feed. cbn. rewrite Hp. unfold with_parser. cbn. rewrite absorb_all_decode, Hd. cbn [app].
    apply (comes_queue _ _ _ _ _ _ ([Err (PeStream unframed)], true)). apply comes_pump; [done|]. cbn. unfold body_feed. cbn. rewrite Hp'.
    apply comes_failure.
Qed.

(** What a provider streams as a script of its own words [W]: what each comes to, which
    say nothing, and when a frame tells one.  If a frame that tells a word decodes to what
    the word comes to, frames that tell a script decode to the script, whatever says
    nothing among them. *)
Section scripts.
Context {D W : Type} `{Decode D} (step : D → W → list ModelEvent * D) (silent : W → bool) (form : W → Prop) (tells : SseFrame → W → Prop).
Fixpoint wire_run (d : D) (ws : list W) : list ModelEvent * D :=
  match ws with
  | [] => ([], d)
  | w :: ws => let '(events, d) := step d w in let '(more, d) := wire_run d ws in (events ++ more, d)
  end.
Definition spoken (ws : list W) : list W := retain (λ w, negb (silent w)) ws.
Lemma wire_run_app d xs ys : wire_run d (xs ++ ys) =
  let '(events, d) := wire_run d xs in let '(more, d) := wire_run d ys in (events ++ more, d).
Proof.
  revert d. induction xs as [|w xs IH]; intros d; cbn [app wire_run]; [by destruct (wire_run d ys)|].
  destruct (step d w) as [e d1]. rewrite IH. destruct (wire_run d1 xs) as [e' d2]. destruct (wire_run d2 ys). by rewrite app_assoc.
Qed.
Lemma wire_run_spoken d ws : (∀ d w, silent w = true → step d w = ([], d)) → wire_run d (spoken ws) = wire_run d ws.
Proof.
  intros Hs. revert d. induction ws as [|w ws IH]; intros d; [done|]. unfold spoken, retain in *. cbn [List.filter].
  destruct (silent w) eqn:E; cbn [negb wire_run].
  - rewrite Hs, IH by done. by destruct (wire_run d ws).
  - destruct (step d w) as [e d1]. by rewrite IH.
Qed.
Lemma form_spoken ws : (∀ w, silent w = true → form w) → Forall form (spoken ws) → Forall form ws.
Proof.
  intros Hs Hws. apply Forall_forall. intros w Hw. destruct (silent w) eqn:E; [by apply Hs|].
  rewrite Forall_forall in Hws. apply Hws, elem_of_retain. by rewrite E.
Qed.
Lemma decode_all_told d frames ws :
  (∀ d f w, form w → tells f w → decode d (fr_event f) (fr_data f) = let '(events, d) := step d w in (Ok events, d)) →
  Forall2 tells frames ws → Forall form ws → decode_all d frames = let '(events, d) := wire_run d ws in (events, None, d).
Proof.
  intros Htold Hf. revert d. induction Hf as [|f w frames ws Hfw _ IH]; intros d Hws; [done|]. inversion Hws; subst.
  cbn [decode_all wire_run]. rewrite (Htold d f w) by done. destruct (step d w) as [e d1].
  rewrite IH by done. by destruct (wire_run d1 ws).
Qed.
Lemma script_heard d frames ws script :
  (∀ d f w, form w → tells f w → decode d (fr_event f) (fr_data f) = let '(events, d) := step d w in (Ok events, d)) →
  (∀ d w, silent w = true → step d w = ([], d)) → (∀ w, silent w = true → form w) →
  Forall2 tells frames ws → spoken ws = script → Forall form script → (decode_all d frames).1 = ((wire_run d script).1, None).
Proof.
  intros Htold Hs Hfs Hf Hsp Hform. rewrite (decode_all_told _ _ ws) by (done || (apply form_spoken; [done|by rewrite Hsp])).
  rewrite <- wire_run_spoken, Hsp by done. by destruct (wire_run d script).
Qed.
End scripts.

(** Under the ceiling altogether is under it at every chunk. *)
Lemma scan_rest_length cur l : (length (scan cur l).2 ≤ length cur + length l)%nat.
Proof.
  revert cur. induction l as [|b l IH]; intros cur; cbn [scan]; [cbn; lia|]. destruct (ends_block (cur ++ [b])).
  - specialize (IH []). destruct (scan [] l). cbn in *. lia.
  - specialize (IH (cur ++ [b])). rewrite length_app in IH. cbn in *. lia.
Qed.
Lemma fits_short chunks : (N.of_nat (length (concat chunks)) <= MAX_BUFFERED)%N → fits chunks.
Proof.
  intros Hl k. pose proof (scan_rest_length [] (concat (take k chunks))) as Hr.
  assert (length (concat (take k chunks)) ≤ length (concat chunks))%nat; [|cbn in Hr; lia].
  rewrite <- (take_drop k chunks) at 2. rewrite concat_app, length_app. lia.
Qed.

Lemma one_line_check s : forallb (λ c, negb (c =? 10)%N && negb (c =? 13)%N && (c <? 128)%N) s = true → trim s = s → one_line s.
Proof.
  intros Hs Ht. rewrite forallb_forall in Hs.
  assert (∀ c, c ∈ s → c ≠ 10%N ∧ c ≠ 13%N ∧ (c < 128)%N) as Hc.
  { intros c Hc%list_elem_of_In%Hs. rewrite !andb_true_iff, !negb_true_iff, !N.eqb_neq, N.ltb_lt in Hc. tauto. }
  split_and!; [intros c Hin; by destruct (Hc c Hin) as (? & ? & ?)|done|].
  apply Forall_forall. intros c Hin. destruct (Hc c Hin) as (? & ? & ?). unfold is_char. lia.
Qed.

(** ** A body, cut in the middle of everything *)

Module Demo.
(** A provider that says what it reads, and refuses an error. *)
#[local] Instance echo : Decode unit := λ d event data,
  if bool_decide (event = lit "error") then (Err (PeStream data), d) else (Ok [TextDelta event data], d).
Definition two_frames : bytes := Sse.Demo.nl ++ lit "event: a" ++ Sse.Demo.nl ++ lit "data: 1" ++ Sse.Demo.crlf ++ Sse.Demo.crlf ++ lit "event: b" ++ Sse.Demo.nl ++ Sse.Demo.nl.
Definition cuts (n : nat) : list bytes := [take n two_frames; drop n two_frames; lit "data: 3"].
Lemma cuts_fit : fits (cuts 17).
Proof. apply fits_short. by vm_compute. Qed.
End Demo.
