(* ===== verification/Kept.v ===== *)
(** * Kept: what a turn keeps of a stream, and what it says of it next time

    Whatever provider streamed it: the blocks of a response, folded by [Stream] into
    items, and those items folded by [Context] into the messages of the next request.
    The providers' own theorems come down to these. *)

From S2P Require Import Prelude Text Model Interaction Event Transcript Context Stream.

(** ** The blocks of a response *)

(** A block by the key it streams under and the fragments it comes in; a call also by the
    arguments it ends with. *)
Inductive Kept :=
| KeptText (key : str) (texts : list str)
| KeptThought (key : str) (texts : list str) (meta : list (str * list (str * Value)))
| KeptCall (id name : str) (fragments : list str) (raw : str).
Definition kept_events (k : Kept) : list ModelEvent :=
  match k with
  | KeptText key ts => TextStart key :: (TextDelta key <$> ts) ++ [TextEnd key]
  | KeptThought key ts meta => ReasoningStart key :: (ReasoningDelta key <$> ts) ++ [ReasoningEnd key meta]
  | KeptCall id name js raw => ToolInputStart id name :: (ToolInputDelta id <$> js) ++ [ToolInputEnd id; ToolCallEvent id name raw]
  end.
Definition all_events (kept : list Kept) : list ModelEvent := concat (kept_events <$> kept).

(** ** What the turn keeps of it *)

Section keeping.
Context (parse_json : str → result str Value).

(** The body a block is kept as. *)
Definition kept_body (k : Kept) : ItemBody :=
  match k with
  | KeptText _ ts => BAssistant (concat ts)
  | KeptThought _ ts meta => BReasoning (concat ts) meta
  | KeptCall id name _ raw => BToolCall None None None id name (parse_input parse_json raw).1 None None None false
  end.

(** Events with the ids and the moments they are folded at. *)
Abbreviation Stamped := (ItemId * Timestamp * ModelEvent)%type (only parsing).
Fixpoint acc_run (a : Accumulator) (l : list Stamped) : Accumulator :=
  match l with [] => a | (id, now, e) :: l => acc_run (acc_push parse_json a id now e).1 l end.
Definition arrival (x : Stamped) : Arrival := Arrived x.1.1 x.1.2 x.2.
Lemma acc_run_app a l k : acc_run a (l ++ k) = acc_run (acc_run a l) k.
Proof. revert a. induction l as [|[[id now] e] l IH]; intros a; [done|]. apply IH. Qed.
Lemma stream_loop_run tools a t l : ∃ t', stream_loop parse_json tools a t ((arrival <$> l) ++ [ArrivedEnd]) = (acc_run a l, t', None, false).
Proof.
  revert a t. induction l as [|[[id now] e] l IH]; intros a t; [by exists t|]. cbn [fmap list_fmap app stream_loop arrival fst snd acc_run].
  destruct (acc_push parse_json a id now e) as [a1 emits]. apply IH.
Qed.

(** [a'] is [a] with items of these bodies after it, its own, nothing being open in either. *)
Record grows (a a' : Accumulator) (ids : list ItemId) (bodies : list ItemBody) : Prop := mk_grows {
  gw_items : ∃ its, ac_items a' = ac_items a ++ its ∧ item_body <$> its = bodies ∧ (∀ i, i ∈ its → item_id i ∈ ids ∧ external i = false);
  gw_open : ac_open a' = ∅;
  gw_usage : ac_usage a' = ac_usage a;
  gw_finish : ac_finish_reason a' = ac_finish_reason a;
  gw_error : ac_error a' = ac_error a;
}.
Lemma grows_nil a ids : ac_open a = ∅ → grows a a ids [].
Proof. intros Ho. split; try done. exists []. rewrite app_nil_r. split_and!; [done..|]. by intros i ?%elem_of_nil. Qed.
Lemma grows_app a b c ids ids' bodies bodies' : grows a b ids bodies → grows b c ids' bodies' → grows a c (ids ++ ids') (bodies ++ bodies').
Proof.
  intros [(its & Hi & Hb & Hid) _ Hu Hf He] [(its' & Hi' & Hb' & Hid') Ho' Hu' Hf' He']. split; try congruence.
  exists (its ++ its'). rewrite Hi', Hi, app_assoc, fmap_app, Hb, Hb'. split_and!; [done..|].
  intros i [Hin|Hin]%elem_of_app; rewrite elem_of_app; naive_solver.
Qed.

(** Fragments of an open block add to its body. *)
Definition block_open_at (a : Accumulator) (key : str) (item : Item) (a0 : Accumulator) : Prop :=
  ∃ n, ac_open a = {[key := mkOpen item n]} ∧ ac_items a = ac_items a0 ∧ ac_usage a = ac_usage a0
    ∧ ac_finish_reason a = ac_finish_reason a0 ∧ ac_error a = ac_error a0.
Lemma run_fragments kind key (bodied : str → ItemBody) (event : str → ModelEvent) a0 ts :
  (∀ a id now t, acc_push parse_json a id now (event t) = acc_delta a key kind t) →
  (∀ text data, match bodied text, kind with
     | BAssistant text, DText => Some (BAssistant (text ++ data))
     | BReasoning text meta, DReasoning => Some (BReasoning (text ++ data) meta)
     | _, _ => None end = Some (bodied (text ++ data))) →
  ∀ a l item text, l.*2 = event <$> ts → item_body item = bodied text → block_open_at a key item a0 →
  ∃ item', block_open_at (acc_run a l) key item' a0 ∧ item_id item' = item_id item ∧ item_body item' = bodied (text ++ concat ts)
    ∧ item_meta item' = item_meta item.
Proof.
  intros Hpush Hbody. induction ts as [|t ts IH]; intros a l item text Hl Hb Ha; destruct l as [|[[id now] e] l]; try done.
  - exists item. by rewrite app_nil_r.
  - cbn in Hl. injection Hl as -> Hl. cbn [acc_run]. rewrite Hpush. destruct Ha as (n & Ho & Hrest).
    unfold acc_delta. rewrite Ho, lookup_singleton_eq. cbn [op_item]. rewrite Hb, Hbody. cbn [fst].
    destruct (IH (set_blocks a (ac_items a) (<[key := mkOpen (with_body item (bodied (text ++ t))) (u32_add n 1)]> {[key := mkOpen item n]}))
      l (with_body item (bodied (text ++ t))) (text ++ t) Hl) as (item' & H1 & H2 & H3 & H4); [done| |].
    + exists (u32_add n 1). cbn. by rewrite insert_singleton_eq.
    + exists item'. cbn [concat]. by rewrite app_assoc.
Qed.
(** A block that opens on nothing open, and closes. *)
Lemma run_opened a id now key body : ac_open a = ∅ →
  block_open_at (start_block a id now key body).1 key (acc_fresh a id now body Running)
    (set_blocks a (ac_items a ++ [acc_fresh a id now body Running]) ∅).
Proof. intros Ho. exists 0%N. cbn. rewrite Ho. done. Qed.
Lemma acc_replace_last its item item' : item_id item ∉ (item_id <$> its) → item_id item' = item_id item →
  acc_replace (its ++ [item]) item' = its ++ [item'].
Proof.
  intros Hn Hid. unfold acc_replace. assert (position (λ i, bool_decide (item_id i = item_id item')) (its ++ [item]) = Some (length its)) as ->.
  { rewrite Hid. clear Hid. induction its as [|i its IH]; cbn.
    - by rewrite bool_decide_eq_true_2.
    - rewrite bool_decide_eq_false_2 by (intros E; apply Hn; rewrite <- E; by left). rewrite IH; [done|]. intros ?. apply Hn. by right. }
  rewrite <- (Nat.add_0_r (length its)). by rewrite insert_app_r.
Qed.
Lemma run_ended a0 a key item0 item now : block_open_at a key item (set_blocks a0 (ac_items a0 ++ [item0]) ∅) →
  item_id item = item_id item0 → item_meta item = [] → item_id item0 ∉ item_ids a0 →
  grows a0 (end_block a now key Completed).1 [item_id item0] [item_body item].
Proof.
  intros (n & Ho & Hi & Hu & Hf & He) Hid Hm Hn. unfold end_block. rewrite Ho, lookup_singleton_eq. cbn [op_item fst].
  split; cbn; [|by rewrite delete_singleton_eq|done..].
  exists [set_status item Completed (Some now)]. rewrite Hi. cbn. rewrite acc_replace_last by done. split_and!; [done..|].
  intros i ->%list_elem_of_singleton. cbn. rewrite Hid. split; [by left|]. unfold external. cbn. by rewrite Hm.
Qed.
Lemma grows_weaken a b ids ids' bodies : grows a b ids bodies → ids ⊆ ids' → grows a b ids' bodies.
Proof. intros [(its & Hi & Hb & Hid) ????] Hs. split; try done. exists its. split_and!; [done..|]. naive_solver. Qed.

Definition ids_at (l : list Stamped) : list ItemId := (λ x : Stamped, x.1.1) <$> l.
Lemma bracketed (l : list Stamped) e0 es e1 : l.*2 = e0 :: es ++ [e1] →
  ∃ id now l2 id' now', l = (id, now, e0) :: l2 ++ [(id', now', e1)] ∧ l2.*2 = es.
Proof.
  intros Hl. apply fmap_cons_inv in Hl as ([[id now] e] & l1 & E & Hl & ->). cbn in E. subst e.
  symmetry in Hl. apply fmap_app_inv in Hl as (l2 & l3 & Hl2 & Hl3 & ->). symmetry in Hl3.
  apply fmap_cons_inv in Hl3 as ([[id' now'] e'] & l4 & E & Hl4 & ->). cbn in E. subst e'. symmetry in Hl4. apply fmap_nil_inv in Hl4 as ->.
  by exists id, now, l2, id', now'.
Qed.
(** What an opened block is after its fragments. *)
Lemma run_block kind key bodied event a id now ts l2 :
  (∀ a id now t, acc_push parse_json a id now (event t) = acc_delta a key kind t) →
  (∀ text data, match bodied text, kind with
     | BAssistant text, DText => Some (BAssistant (text ++ data))
     | BReasoning text meta, DReasoning => Some (BReasoning (text ++ data) meta)
     | _, _ => None end = Some (bodied (text ++ data))) →
  ac_open a = ∅ → l2.*2 = event <$> ts → ∃ item,
  block_open_at (acc_run (start_block a id now key (bodied [])).1 l2) key item
    (set_blocks a (ac_items a ++ [acc_fresh a id now (bodied []) Running]) ∅)
  ∧ item_id item = id ∧ item_body item = bodied (concat ts) ∧ item_meta item = [].
Proof.
  intros Hpush Hbody Ho Hl. destruct (run_fragments kind key bodied event (set_blocks a (ac_items a ++ [acc_fresh a id now (bodied []) Running]) ∅) ts
    Hpush Hbody (start_block a id now key (bodied [])).1 l2 (acc_fresh a id now (bodied []) Running) []) as (item & Hb & Hid & Hbd & Hm);
    [done|done|by apply run_opened|]. by exists item.
Qed.
Lemma run_text a key ts l : ac_open a = ∅ → l.*2 = kept_events (KeptText key ts) → (∀ id, id ∈ ids_at l → id ∉ item_ids a) →
  grows a (acc_run a l) (ids_at l) [kept_body (KeptText key ts)].
Proof.
  intros Ho Hl Hn. destruct (bracketed _ _ _ _ Hl) as (id & now & l2 & id' & now' & -> & Hl2). cbn [acc_run acc_push]. rewrite acc_run_app.
  destruct (run_block DText key BAssistant (TextDelta key) a id now ts l2) as (item & Hb & Hid & Hbd & Hm); [done..|].
  pose proof (run_ended a _ _ _ item now' Hb Hid Hm) as Hg. rewrite Hbd in Hg.
  eapply grows_weaken; [apply Hg, Hn; by left|]. intros x ->%list_elem_of_singleton. by left.
Qed.
Lemma run_thought a key ts meta l : ac_open a = ∅ →
  l.*2 = kept_events (KeptThought key ts meta) →
  (∀ id, id ∈ ids_at l → id ∉ item_ids a) → grows a (acc_run a l) (ids_at l) [kept_body (KeptThought key ts meta)].
Proof.
  intros Ho Hl Hn. destruct (bracketed _ _ _ _ Hl) as (id & now & l2 & id' & now' & -> & Hl2). cbn [acc_run acc_push]. rewrite acc_run_app.
  destruct (run_block DReasoning key (λ t, BReasoning t []) (ReasoningDelta key) a id now ts l2) as (item & Hb & Hid & Hbd & Hm); [done..|].
  cbn [acc_run acc_push]. unfold end_reasoning. destruct Hb as (n & Hb & Hi & Hu & Hf & He). rewrite Hb, lookup_singleton_eq. cbn [op_item op_deltas].
  rewrite Hbd, insert_singleton_eq.
  eapply grows_weaken; [eapply (run_ended a _ key (acc_fresh a id now (BReasoning [] []) Running) (with_body item (BReasoning (concat ts) meta)))|].
  - by exists n.
  - done.
  - done.
  - apply Hn. by left.
  - intros x ->%list_elem_of_singleton. by left.
Qed.

Lemma grows_inputs a inputs ids : ac_open a = ∅ → grows a (set_inputs a inputs) ids [].
Proof. intros Ho. split; try done. exists []. cbn. rewrite app_nil_r. split_and!; [done..|]. by intros i ?%elem_of_nil. Qed.
Lemma run_inputs a key js l : ac_open a = ∅ → l.*2 = ToolInputDelta key <$> js → grows a (acc_run a l) (ids_at l) [].
Proof.
  revert a js. induction l as [|[[id now] e] l IH]; intros a js Ho Hl; [by apply grows_nil|].
  destruct js as [|t js]; [done|]. cbn in Hl. injection Hl as -> Hl. cbn [acc_run acc_push].
  change (ids_at ((id, now, ToolInputDelta key t) :: l)) with ([id] ++ ids_at l).
  eapply (grows_app _ _ _ _ _ [] []); [by apply grows_inputs|]. by eapply IH.
Qed.
Lemma run_call a id name js raw l : ac_open a = ∅ → l.*2 = kept_events (KeptCall id name js raw) →
  grows a (acc_run a l) (ids_at l) [kept_body (KeptCall id name js raw)].
Proof.
  intros Ho Hl. cbn [kept_events] in Hl. change [ToolInputEnd id; ToolCallEvent id name raw] with
    ([ToolInputEnd id] ++ [ToolCallEvent id name raw]) in Hl. rewrite app_assoc in Hl.
  destruct (bracketed _ _ _ _ Hl) as (m & now & l2 & m' & now' & -> & Hl2).
  apply fmap_app_inv in Hl2 as (l3 & l4 & Hl3 & Hl4 & ->). symmetry in Hl4.
  apply fmap_cons_inv in Hl4 as ([[m4 now4] e4] & l5 & E & Hl5 & ->). cbn in E. subst e4. symmetry in Hl5. apply fmap_nil_inv in Hl5 as ->.
  cbn [acc_run acc_push]. rewrite !acc_run_app. cbn [acc_run acc_push fst].
  set (a1 := set_inputs a _). assert (grows a a1 [m] []) as H1 by by apply grows_inputs.
  assert (grows a1 (acc_run a1 l3) (ids_at l3) []) as H2 by (by eapply run_inputs).
  set (a2 := acc_run a1 l3) in *.
  assert (grows a2 (start_call parse_json a2 m' now' id name raw).1 [m'] [kept_body (KeptCall id name js raw)]) as H3.
  { unfold start_call, kept_body, parse_input. destruct (parse_json raw) as [v|e]; cbn [fst];
      (split; cbn; try done; [|apply H2]); eexists [_]; (split_and!; [done..|]);
      intros i ->%list_elem_of_singleton; cbn; (split; [by left|done]). }
  eapply grows_weaken; [apply (grows_app _ _ _ _ _ _ _ (grows_app _ _ _ _ _ _ _ H1 H2) H3)|].
  unfold ids_at. cbn. rewrite !fmap_app. cbn. set_solver.
Qed.
Lemma run_kept a k l : ac_open a = ∅ → l.*2 = kept_events k → (∀ id, id ∈ ids_at l → id ∉ item_ids a) →
  grows a (acc_run a l) (ids_at l) [kept_body k].
Proof.
  destruct k as [key ts|key ts meta|id name js raw]; intros Ho Hl Hn.
  - by apply run_text.
  - by apply run_thought.
  - by apply run_call.
Qed.
Lemma run_all_kept a kept l : ac_open a = ∅ → l.*2 = all_events kept → NoDup (ids_at l) → (∀ id, id ∈ ids_at l → id ∉ item_ids a) →
  grows a (acc_run a l) (ids_at l) (kept_body <$> kept).
Proof.
  revert a l. induction kept as [|k kept IH]; intros a l Ho Hl Hnd Hn.
  - apply fmap_nil_inv in Hl as ->. by apply grows_nil.
  - apply fmap_app_inv in Hl as (l1 & l2 & Hl1 & Hl2 & ->). unfold ids_at in *. rewrite fmap_app in *.
    apply NoDup_app in Hnd as (Hnd1 & Hne & Hnd2). rewrite acc_run_app.
    assert (grows a (acc_run a l1) (ids_at l1) [kept_body k]) as Hg.
    { eapply run_kept; [done|symmetry; exact Hl1|]. intros id Hid. apply Hn. apply elem_of_app. by left. }
    change (kept_body <$> k :: kept) with ([kept_body k] ++ (kept_body <$> kept)).
    eapply (grows_app _ _ _ _ _ _ _ Hg). eapply IH; [apply Hg|symmetry; exact Hl2|done|].
    intros id Hid. destruct Hg as [(its & Hi & _ & Hids) _ _ _ _]. unfold item_ids. rewrite Hi, fmap_app, elem_of_app. intros [Hin|Hin].
    + revert Hin. apply Hn. apply elem_of_app. by right.
    + apply list_elem_of_fmap in Hin as (x & -> & Hx). eapply Hne; [by apply Hids|done].
Qed.

(** A stream of these blocks between its opening and its finish. *)
Definition response_events (id model : option str) (kept : list Kept) (usage : Usage) (reason : FinishReason) : list ModelEvent :=
  [StreamStart []; ResponseMetadata id model] ++ all_events kept ++ [FinishEvent usage reason].
Lemma turn_keeps (hash_order : gmap str Open → list str) tools turn round t now id model kept usage reason (l : list Stamped) :
  hash_order ∅ = [] → l.*2 = response_events id model kept usage reason → NoDup (ids_at l) →
  ∃ t' f, stream parse_json hash_order tools turn round t ((arrival <$> l) ++ [ArrivedEnd]) false now = (t', SDone f)
    ∧ item_body <$> fs_items f = kept_body <$> kept ∧ fs_finish_reason f = Some reason
    ∧ fs_usage f = usage ∧ fs_truncated f = false ∧ (∀ i, i ∈ fs_items f → external i = false).
Proof.
  intros Hh Hl Hnd. unfold stream. destruct (stream_loop_run tools (acc_new turn round) t l) as [t' ->].
  unfold response_events in Hl. destruct l as [|[[m0 n0] e0] [|[[m1 n1] e1] l]]; try done. cbn in Hl. injection Hl as -> -> Hl.
  apply fmap_app_inv in Hl as (l1 & l2 & Hl1 & Hl2 & ->). apply eq_sym in Hl2.
  destruct (fmap_cons_inv _ _ _ _ Hl2) as ([[m2 n2] e2] & l3 & E & Hl3 & ->). cbn in E. subst e2. symmetry in Hl3. apply fmap_nil_inv in Hl3 as ->.
  cbn [acc_run acc_push fst]. rewrite acc_run_app.
  assert (grows (acc_new turn round) (acc_run (acc_new turn round) l1) (ids_at l1) (kept_body <$> kept)) as [(its & Hi & Hb & Hx) Ho Hu Hf He].
  { apply run_all_kept; [done|symmetry; exact Hl1| |by intros ? _ ?%elem_of_nil].
    unfold ids_at in *. cbn in Hnd. rewrite fmap_app in Hnd. rewrite !NoDup_cons, NoDup_app in Hnd. naive_solver. }
  cbn [acc_run acc_push fst]. unfold acc_finish. cbn [ac_open orb]. rewrite Ho, Hh, bool_decide_eq_true_2 by done.
  cbn [end_blocks negb ac_items ac_error ac_finish_reason ac_usage option_or fs_error option_is_some fs_finish_reason ac_tool_calls ac_context publish_emits].
  rewrite He. cbn. eexists _, _. split; [done|]. cbn. rewrite Hi, <- Hb. split_and!; try done. intros i Hin. by apply Hx.
Qed.
End keeping.

(** ** What goes back *)

(** What is said in the model's name. *)
Definition said_by_model (ms : list Message) : list ContentPart :=
  ms ≫= (λ m, if is_role RAssistant m then msg_parts m else []).
(** The part an item of a response folds into. *)
Definition part_of (b : ItemBody) : list ContentPart :=
  match b with
  | BAssistant text => match text with [] => [] | _ => [PText text] end
  | BReasoning text meta => match text, meta with [], [] => [] | _, _ => [PReasoning text meta] end
  | BToolCall _ _ _ id name input _ _ _ _ => [PToolUse id name input]
  | _ => []
  end.
Definition from_model (b : ItemBody) : Prop :=
  match b with BAssistant _ | BReasoning _ _ | BToolCall _ _ _ _ _ _ _ _ _ _ => True | _ => False end.

Lemma said_app ms ms' : said_by_model (ms ++ ms') = said_by_model ms ++ said_by_model ms'.
Proof. apply bind_app. Qed.
Lemma said_push r ms ps : said_by_model (if last_is r ms then extend_last ms ps else ms ++ [mkMessage r ps []])
  = said_by_model ms ++ (if bool_decide (r = RAssistant) then ps else []).
Proof.
  destruct (last_is r ms) eqn:E.
  - destruct ms as [|m ms _] using rev_ind; [done|]. unfold last_is in E. rewrite last_snoc in E. apply bool_decide_eq_true_1 in E.
    rewrite extend_last_snoc, !said_app, <- app_assoc. f_equal. cbn. unfold is_role, more. cbn. rewrite E.
    destruct (bool_decide (r = RAssistant)); by rewrite !app_nil_r.
  - rewrite said_app. cbn. unfold is_role. cbn. by rewrite app_nil_r.
Qed.
Lemma said_flush f : said_by_model (fd_messages (flush f)) = said_by_model (fd_messages f).
Proof.
  unfold flush. destruct (fd_pending f); [done|]. unfold fold_user. cbn [fd_messages fd_pending]. unfold message_user.
  rewrite said_push. by rewrite app_nil_r.
Qed.
Lemma said_assistant f ps : said_by_model (fd_messages (fold_assistant f ps)) = said_by_model (fd_messages f) ++ ps.
Proof. unfold fold_assistant. cbn [fd_messages]. unfold message_assistant. by rewrite said_push, said_flush. Qed.
Lemma said_item json_text f i : from_model (item_body i) → external i = false →
  said_by_model (fd_messages (fold_item json_text f i)) = said_by_model (fd_messages f) ++ part_of (item_body i).
Proof.
  intros Hm He. unfold fold_item. destruct (item_body i) as [|text|text meta|al aa ba cid name input output pr du qu| | | | | | | | | |]; try done; cbn [part_of].
  - unfold fold_text. destruct text; [by rewrite app_nil_r|]. apply said_assistant.
  - unfold fold_reasoning. destruct text; cbn; [|apply said_assistant]. destruct meta; cbn; [by rewrite app_nil_r|apply said_assistant].
  - rewrite He. unfold fold_tool_call. destruct (last_is RAssistant (fd_messages f) && _) eqn:E; cbn [fd_messages].
    + apply andb_true_iff in E as [E _]. pose proof (said_push RAssistant (fd_messages f) [PToolUse cid name input]) as Hp. by rewrite E in Hp.
    + apply said_assistant.
Qed.
Lemma said_items json_text items : Forall (λ i, from_model (item_body i) ∧ external i = false) items →
  said_by_model (fold_items json_text items) = items ≫= (λ i, part_of (item_body i)).
Proof.
  intros Hi. assert (∀ f, said_by_model (fd_messages (foldl (fold_item json_text) f items)) = said_by_model (fd_messages f) ++ (items ≫= (λ i, part_of (item_body i)))) as Hf.
  { induction Hi as [|i items [Hm He] _ IH]; intros f; [by rewrite app_nil_r|]. cbn [foldl]. rewrite IH, said_item by done. by rewrite <- app_assoc. }
  unfold fold_items, fold_finish. assert (∀ ms, said_by_model (opened ms) = said_by_model ms) as ->.
  { intros [|m ms]; [done|]. unfold opened. by case_bool_decide. }
  assert (∀ ms, said_by_model (retain has_parts ms) = said_by_model ms) as ->; [|by rewrite said_flush, Hf].
  intros ms. induction ms as [|m ms IH]; [done|]. unfold retain in *. cbn [List.filter]. unfold has_parts at 1. case_bool_decide as E; cbn [negb].
  - rewrite IH. cbn. apply nil_length_inv in E. rewrite E. by destruct (is_role RAssistant m).
  - cbn. by f_equal.
Qed.
Section next_time.
Context (parse_json : str → result str Value) (wire : ContentPart → list Value).
Lemma kept_from_model k : from_model (kept_body parse_json k).
Proof. by destruct k. Qed.
(** What a provider is sent in the model's name, of a response folded into items. *)
Lemma said_kept json_text items kept : item_body <$> items = kept_body parse_json <$> kept → (∀ i, i ∈ items → external i = false) →
  List.flat_map wire (said_by_model (fold_items json_text items)) = concat ((λ k, List.flat_map wire (part_of (kept_body parse_json k))) <$> kept).
Proof.
  intros Hb Hx. rewrite said_items.
  - clear Hx. revert kept Hb. induction items as [|i items IH]; intros [|k kept] Hb; try done. cbn in Hb. injection Hb as Hb1 Hb2.
    cbn [mbind list_bind fmap list_fmap concat]. rewrite List.flat_map_app, Hb1. f_equal. by apply IH.
  - apply Forall_forall. intros i Hi. split; [|by apply Hx]. assert (item_body i ∈ kept_body parse_json <$> kept) as Hin.
    { rewrite <- Hb. by apply list_elem_of_fmap_2. }
    apply list_elem_of_fmap in Hin as (k & -> & _). apply kept_from_model.
Qed.
End next_time.
