(* ===== verification/Provider.v ===== *)
(** * Provider: what a turn asks of a model, and how a refusal reads

    The request a turn hands to a provider ([bingo-sdk/src/model.rs]) and what every
    provider reads of a refused response ([bingo-sdk/src/provider/error.rs]).  The JSON
    parser and the dates of mail headers (a moment in nanoseconds) are parameters. *)

From S2P Require Import Prelude Text Model.

(** ** The request *)

Record SystemBlock := mkSystemBlock { sb_text : str; sb_cache : bool }.
(** A tool as the model is told of it; its look and its meta stay here. *)
Record ToolSpec := mkToolSpec { sp_name : str; sp_description : str; sp_input_schema : Value }.
Record ModelRequest := mkModelRequest {
  rq_model : str;
  rq_max_tokens : N;
  rq_system : list SystemBlock;
  rq_messages : list Message;
  rq_tools : list ToolSpec;
  rq_reasoning : option Effort;
  rq_session : option str;
  rq_provider_options : list (str * list (str * Value));
}.
Record EndpointCapabilities := mkEndpointCapabilities {
  ec_images : bool; ec_count_tokens : bool; ec_caching : bool; ec_context_window : option N;
}.
Record ModelInfo := mkModelInfo { mi_id : str; mi_display : option str }.
#[export] Instance Effort_eq_dec : EqDecision Effort.
Proof. solve_decision. Defined.
(** [Effort::ALL], and the name of each. *)
Definition EFFORTS : list Effort := [Minimal; Low; Medium; High; XHigh; MaxEffort].
Definition effort_label (e : Effort) : str :=
  match e with
  | Minimal => lit "minimal" | Low => lit "low" | Medium => lit "medium"
  | High => lit "high" | XHigh => lit "xhigh" | MaxEffort => lit "max"
  end.

(** ** JSON, as the providers read it *)

(** [ProviderMetadata::get]. *)
Definition metadata_get (provider : str) (m : list (str * list (str * Value))) : option (list (str * Value)) :=
  find_map (fun kv => if bool_decide (kv.1 = provider) then Some kv.2 else None) m.
Definition str_at (v : Value) (key : str) : option str :=
  match value_get key v with Some x => as_str x | None => None end.
Definition u64_at (v : Value) (key : str) : option N :=
  match value_get key v with Some x => as_u64 x | None => None end.
(** [provider_options] go on the body as they came. *)
Definition merge_provider_options (body : list (str * Value)) (extra : option (list (str * Value))) : list (str * Value) :=
  match extra with
  | None => body
  | Some extra => foldl (fun body kv => map_insert kv.1 kv.2 body) body extra
  end.

(** ** A refusal *)

Section refusals.
Context (parse_json : str -> result str Value) (rfc2822 : str -> option Z).

Definition message_of (body : str) : str :=
  match parse_json body with
  | Err _ => trim body
  | Ok value =>
      let pointed :=
        match (let? e := value_get (lit "error") value in value_get (lit "message") e) with
        | Some m => Some m
        | None => value_get (lit "message") value
        end in
      match (let? m := pointed in trim <$> as_str m) with
      | Some (_ :: _ as m) => m
      | _ => trim body
      end
  end.

Definition u64_saturating_mul (a b : N) : N := N.min (a * b) u64_max.
(** [now] in nanoseconds; the delay in whole milliseconds. *)
Definition header_delay_ms (value : str) (now : Z) : option N :=
  let value := trim value in
  match parse_u64 value with
  | Some seconds => Some (u64_saturating_mul seconds 1000)
  | None =>
      let? until := rfc2822 value in
      let millis := Z.quot (until - now) 1000000 in
      Some (if bool_decide (0 <= millis <= Z.of_N u64_max)%Z then Z.to_N millis else 0%N)
  end.
End refusals.
