(* ===== verification/Anthropic.v ===== *)
(** * Anthropic: the Messages API (bingo-provider-anthropic)

    A request as the wire takes it (request.rs), the stream it answers with as the
    events of a turn (events.rs), what kind of failure a refusal is (error.rs), and the
    catalogue (models.rs).  The JSON parser is a parameter, with its error as printed. *)

From S2P Require Import Prelude Text Ears Model Stream Sse Provider.

Definition PROVIDER : str := lit "anthropic".

(** ** Failures *)

Definition OVERFLOW_PHRASES : list str :=
  [lit "context length"; lit "context window"; lit "context limit"; lit "max context"; lit "maximum context";
   lit "input exceeds"; lit "input is too long"; lit "input too long"; lit "prompt is too long"; lit "prompt too long";
   lit "too many tokens"; lit "token limit"].
Definition TRANSIENT_PHRASES : list str :=
  [lit "overloaded"; lit "server_error"; lit "server error"; lit "internal_error"; lit "internal error";
   lit "service_unavailable"; lit "service unavailable"; lit "too_many_requests"; lit "too many requests";
   lit "rate_limit"; lit "rate limit"; lit "resource_exhausted"; lit "resource exhausted"; lit "bad gateway";
   lit "gateway timeout"; lit "try again later"].
Definition OVERLOADED : N := 529.

Definition lower (s : str) : str := to_ascii_lowercase <$> s.
Definition says_overflow (text : str) : bool :=
  let text := lower text in
  any (contains_str text) OVERFLOW_PHRASES
  || contains_str text (lit "maximum") && contains_str text (lit "token")
     && (contains_str text (lit "prompt") || contains_str text (lit "input")).
(** The words of a message, and whether the one before names a status. *)
Fixpoint names_5xx_from (after_marker : bool) (tokens : list str) : bool :=
  match tokens with
  | [] => false
  | [] :: tokens => names_5xx_from after_marker tokens
  | token :: tokens =>
      if after_marker && match digits_below 65536 0 token with Some s => (500 <=? s)%N && (s <? 600)%N | None => false end
      then true
      else names_5xx_from (bool_decide (token ∈ [lit "http"; lit "https"; lit "status"; lit "code"])) tokens
  end.
Definition names_5xx (text : str) : bool :=
  names_5xx_from true (split_by (fun c => negb (is_ascii_alphanumeric c)) text).
Definition is_transient (text : str) : bool :=
  let text := lower text in
  if says_overflow text || contains_str text (lit "insufficient_quota") then false
  else names_5xx text || any (contains_str text) TRANSIENT_PHRASES.

Definition request_or_overflow (message : str) : ProviderError :=
  if says_overflow message then PeContextOverflow message else PeRequest message.
Definition unnamed_stream_error (message : str) : ProviderError :=
  if says_overflow message then PeContextOverflow message
  else if is_transient message then PeStream message else PeRequest message.
Definition stream_error (kind message : str) : ProviderError :=
  let message := match kind with [] => message | _ => kind ++ lit ": " ++ message end in
  if bool_decide (kind ∈ [lit "authentication_error"; lit "permission_error"]) then PeAuth message
  else if bool_decide (kind = lit "rate_limit_error") then PeRateLimited None
  else if bool_decide (kind = lit "overloaded_error") then PeServer OVERLOADED message
  else if bool_decide (kind ∈ [lit "api_error"; lit "server_error"; lit "timeout_error"]) then PeServer 500 message
  else if bool_decide (kind ∈ [lit "invalid_request_error"; lit "not_found_error"; lit "request_too_large"])
  then request_or_overflow message
  else unnamed_stream_error message.

(** [classify] at the moment [now]. *)
Definition classify (parse_json : str -> result str Value) (rfc2822 : str -> option Z) (now : Z)
    (status : N) (body : str) (retry_after : option str) : ProviderError :=
  let message := message_of parse_json body in
  if says_overflow body && bool_decide (status ∈ [400; 413]%N) then PeContextOverflow message
  else if bool_decide (status ∈ [401; 403]%N) then PeAuth message
  else if (status =? 408)%N then PeTimeout
  else if (status =? 429)%N then PeRateLimited (let? v := retry_after in header_delay_ms rfc2822 v now)
  else if (500 <=? status)%N && (status <? 600)%N then PeServer status message
  else PeRequest message.

(** ** The stream *)

Inductive Kind :=
| KText
| KReasoning (signature : str) (redacted : option str)
| KTool (name input : str).
Record Block := mkBlock { bk_id : str; bk_kind : Kind }.
Record Decoder := mkDecoder { dc_open : gmap N Block; dc_usage : Usage; dc_stop_reason : option str }.
Definition decoder_new : Decoder := mkDecoder ∅ usage_default None.

Definition malformed (message : str) : ProviderError := PeStream message.
Definition index_of (v : Value) : N := default 0%N (u64_at v (lit "index")).

(** [Block::open]: none for a block of a type that is not modelled. *)
Definition block_open (index : N) (content : Value) : result ProviderError (option Block) :=
  match str_at content (lit "type") with
  | None => Err (malformed (lit "content_block without a type"))
  | Some type =>
      let named kind := Ok (Some (mkBlock (show_N index) kind)) in
      if bool_decide (type = lit "text") then named KText
      else if bool_decide (type = lit "thinking") then named (KReasoning [] None)
      else if bool_decide (type = lit "redacted_thinking")
      then named (KReasoning [] (Some (default [] (str_at content (lit "data")))))
      else if bool_decide (type = lit "tool_use") then
        match str_at content (lit "name"), str_at content (lit "id") with
        | None, _ => Err (malformed (lit "tool_use without a name"))
        | Some _, None => Err (malformed (lit "tool_use without an id"))
        | Some name, Some id => Ok (Some (mkBlock id (KTool name [])))
        end
      else Ok None
  end.
Definition block_start (b : Block) : ModelEvent :=
  match bk_kind b with
  | KText => TextStart (bk_id b)
  | KReasoning _ _ => ReasoningStart (bk_id b)
  | KTool name _ => ToolInputStart (bk_id b) name
  end.
Definition block_delta (b : Block) (delta : Value) : option ModelEvent * Block :=
  match str_at delta (lit "type"), bk_kind b with
  | None, _ => (None, b)
  | Some type, KText =>
      if bool_decide (type = lit "text_delta") then (TextDelta (bk_id b) <$> str_at delta (lit "text"), b) else (None, b)
  | Some type, KReasoning signature redacted =>
      if bool_decide (type = lit "thinking_delta") then (ReasoningDelta (bk_id b) <$> str_at delta (lit "thinking"), b)
      else if bool_decide (type = lit "signature_delta") then
        match str_at delta (lit "signature") with
        | Some s => (None, mkBlock (bk_id b) (KReasoning (signature ++ s) redacted))
        | None => (None, b)
        end
      else (None, b)
  | Some type, KTool name input =>
      if bool_decide (type = lit "input_json_delta") then
        match str_at delta (lit "partial_json") with
        | Some fragment => (Some (ToolInputDelta (bk_id b) fragment), mkBlock (bk_id b) (KTool name (input ++ fragment)))
        | None => (None, b)
        end
      else (None, b)
  end.
Definition reasoning_metadata (signature : str) (redacted : option str) : list (str * list (str * Value)) :=
  let mine := match signature with [] => [] | _ => map_insert (lit "signature") (VString signature) [] end in
  let mine := match redacted with Some data => map_insert (lit "redacted") (VString data) mine | None => mine end in
  match mine with [] => [] | _ => [(PROVIDER, mine)] end.
Definition tool_input (input : str) : str := if bool_decide (trim input = []) then lit "{}" else input.
Definition block_close (b : Block) : list ModelEvent :=
  match bk_kind b with
  | KText => [TextEnd (bk_id b)]
  | KReasoning signature redacted => [ReasoningEnd (bk_id b) (reasoning_metadata signature redacted)]
  | KTool name input => [ToolInputEnd (bk_id b); ToolCallEvent (bk_id b) name (tool_input input)]
  end.

Definition finish_reason (raw : option str) : FinishReason :=
  match raw with
  | None => mkFinishReason FinOther None
  | Some raw =>
      mkFinishReason
        (if bool_decide (raw ∈ [lit "end_turn"; lit "stop_sequence"]) then FinStop
         else if bool_decide (raw = lit "max_tokens") then FinLength
         else if bool_decide (raw = lit "tool_use") then FinToolCalls
         else if bool_decide (raw = lit "refusal") then FinContentFilter
         else FinOther) (Some raw)
  end.

(** A count the message reports replaces the one before. *)
Definition read_usage (u : Usage) (usage : option Value) : Usage :=
  match usage with
  | None => u
  | Some v =>
      let said key old := default old (u64_at v key) in
      mkUsage (said (lit "input_tokens") (input_tokens u)) (said (lit "output_tokens") (output_tokens u))
        (said (lit "cache_read_input_tokens") (cache_read_tokens u))
        (said (lit "cache_creation_input_tokens") (cache_write_tokens u)) (reasoning_tokens u)
  end.
Definition with_open (open : gmap N Block) (d : Decoder) : Decoder := mkDecoder open (dc_usage d) (dc_stop_reason d).
Definition finish_event (d : Decoder) : ModelEvent := FinishEvent (dc_usage d) (finish_reason (dc_stop_reason d)).

Section decoding.
Context (parse_json : str -> result str Value).

Definition parse (data what : str) : result ProviderError Value :=
  match parse_json data with
  | Ok v => Ok v
  | Err e => Err (malformed (lit "bad " ++ what ++ lit ": " ++ e))
  end.
Definition error_event (data : str) : ProviderError :=
  match parse_json data with
  | Err _ => stream_error [] data
  | Ok value =>
      let error := default value (value_get (lit "error") value) in
      stream_error (default [] (str_at error (lit "type"))) (default data (str_at error (lit "message")))
  end.

Definition message_start (d : Decoder) (data : str) : result ProviderError (list ModelEvent) * Decoder :=
  match parse data (lit "message_start") with
  | Err e => (Err e, d)
  | Ok value =>
      let message := default VNull (value_get (lit "message") value) in
      (Ok [StreamStart []; ResponseMetadata (str_at message (lit "id")) (str_at message (lit "model"))],
       mkDecoder (dc_open d) (read_usage (dc_usage d) (value_get (lit "usage") message)) (dc_stop_reason d))
  end.
Definition content_block_start (d : Decoder) (data : str) : result ProviderError (list ModelEvent) * Decoder :=
  match parse data (lit "content_block_start") with
  | Err e => (Err e, d)
  | Ok value =>
      match value_get (lit "content_block") value with
      | None => (Err (malformed (lit "content_block_start without a content_block")), d)
      | Some content =>
          match block_open (index_of value) content with
          | Err e => (Err e, d)
          | Ok None => (Ok [], d)
          | Ok (Some b) => (Ok [block_start b], with_open (<[index_of value := b]> (dc_open d)) d)
          end
      end
  end.
Definition content_block_delta (d : Decoder) (data : str) : result ProviderError (list ModelEvent) * Decoder :=
  match parse data (lit "content_block_delta") with
  | Err e => (Err e, d)
  | Ok value =>
      match value_get (lit "delta") value with
      | None => (Err (malformed (lit "content_block_delta without a delta")), d)
      | Some delta =>
          match dc_open d !! index_of value with
          | None => (Ok [], d)
          | Some b =>
              let '(e, b) := block_delta b delta in
              (Ok (option_list e), with_open (<[index_of value := b]> (dc_open d)) d)
          end
      end
  end.
Definition content_block_stop (d : Decoder) (data : str) : result ProviderError (list ModelEvent) * Decoder :=
  match parse data (lit "content_block_stop") with
  | Err e => (Err e, d)
  | Ok value =>
      (Ok match dc_open d !! index_of value with Some b => block_close b | None => [] end,
       with_open (delete (index_of value) (dc_open d)) d)
  end.
Definition message_delta (d : Decoder) (data : str) : result ProviderError (list ModelEvent) * Decoder :=
  match parse data (lit "message_delta") with
  | Err e => (Err e, d)
  | Ok value =>
      let stop := let? delta := value_get (lit "delta") value in str_at delta (lit "stop_reason") in
      (Ok [], mkDecoder (dc_open d) (read_usage (dc_usage d) (value_get (lit "usage") value))
                (option_or stop (dc_stop_reason d)))
  end.

#[export] Instance anthropic_decode : Decode Decoder := fun d event data =>
  if bool_decide (event = lit "message_start") then message_start d data
  else if bool_decide (event = lit "content_block_start") then content_block_start d data
  else if bool_decide (event = lit "content_block_delta") then content_block_delta d data
  else if bool_decide (event = lit "content_block_stop") then content_block_stop d data
  else if bool_decide (event = lit "message_delta") then message_delta d data
  else if bool_decide (event = lit "message_stop") then (Ok [finish_event d], d)
  else if bool_decide (event = lit "error") then (Err (error_event data), d)
  else (Ok [], d).
End decoding.

(** ** The request *)

Definition MAX_BREAKPOINTS : nat := 4.
(** Where a breakpoint may sit: not on a thinking block. *)
Definition CACHEABLE : list str := [lit "text"; lit "image"; lit "tool_use"; lit "tool_result"].

Definition text_block (text : str) : Value := VObject [(lit "type", VString (lit "text")); (lit "text", VString text)].
Definition pictured (i : Image) : list Value :=
  VObject [(lit "type", VString (lit "image"));
           (lit "source", VObject [(lit "type", VString (lit "base64")); (lit "media_type", VString (media_type i));
                                   (lit "data", VString (image_data i))])]
  :: (text_block <$> option_list (whereabouts i)).
(** A thought goes back only with the signature it was signed with. *)
Definition thinking (text : str) (meta : list (str * list (str * Value))) : option Value :=
  let? mine := metadata_get PROVIDER meta in
  match (let? data := map_get (lit "redacted") mine in as_str data) with
  | Some data => Some (VObject [(lit "type", VString (lit "redacted_thinking")); (lit "data", VString data)])
  | None =>
      let? signed := map_get (lit "signature") mine in
      let? signature := as_str signed in
      Some (VObject [(lit "type", VString (lit "thinking")); (lit "thinking", VString text);
                     (lit "signature", VString signature)])
  end.
Definition tool_result (id : str) (content : list Value) (is_error : bool) : Value :=
  let content := match content with [] => VString [] | _ => VArray content end in
  let block := [(lit "type", VString (lit "tool_result")); (lit "tool_use_id", VString id); (lit "content", content)] in
  VObject (if is_error then map_insert (lit "is_error") (VBool true) block else block).
(** [blocks] and [part]: what one part becomes. *)
Fixpoint blocks (p : ContentPart) : list Value :=
  match p with
  | PText text => [text_block text]
  | PImage image => pictured image
  | PToolUse id name input =>
      [VObject [(lit "type", VString (lit "tool_use")); (lit "id", VString id); (lit "name", VString name); (lit "input", input)]]
  | PToolResult id parts is_error => [tool_result id (List.flat_map blocks parts) is_error]
  | PReasoning text meta => option_list (thinking text meta)
  end.

Definition role_name (r : Role) : str := match r with RUser => lit "user" | RAssistant => lit "assistant" end.
(** None for a message nothing of which has a wire form. *)
Definition message (m : Message) : option Value :=
  match List.flat_map blocks (msg_parts m) with
  | [] => None
  | content => Some (VObject [(lit "role", VString (role_name (msg_role m))); (lit "content", VArray content)])
  end.
Definition tool (spec : ToolSpec) : Value :=
  VObject [(lit "name", VString (sp_name spec)); (lit "description", VString (sp_description spec));
           (lit "input_schema", sp_input_schema spec)].

(** [mark]: false where there is nothing to put a breakpoint on. *)
Definition ephemeral : Value := VObject [(lit "type", VString (lit "ephemeral"))].
Definition mark (block : Value) : bool * Value :=
  match block with
  | VObject m => (true, VObject (map_insert (lit "cache_control") ephemeral m))
  | other => (false, other)
  end.
Definition is_cacheable (block : Value) : bool :=
  match str_at block (lit "type") with Some kind => bool_decide (kind ∈ CACHEABLE) | None => false end.
Definition mark_last_cacheable (m : Value) : bool * Value :=
  match value_get (lit "content") m with
  | Some (VArray content) =>
      match rposition is_cacheable content with
      | None => (false, m)
      | Some at_ =>
          let '(took, block) := mark (nth at_ content VNull) in
          (took, set_field (lit "content") (VArray (<[at_ := block]> content)) m)
      end
  | _ => (false, m)
  end.
Definition system_blocks (system : list SystemBlock) (budget : nat) : list Value * nat :=
  let marked := match rposition sb_cache system with Some i => if (0 <? budget)%nat then Some i else None | None => None end in
  (imap (fun i b => let wire := text_block (sb_text b) in if bool_decide (Some i = marked) then (mark wire).2 else wire) system,
   match marked with Some _ => budget - 1 | None => budget end).
(** The newest first, while there is budget. *)
Fixpoint mark_newest (ms : list Value) (budget : nat) : list Value * nat :=
  match ms with
  | [] => ([], budget)
  | m :: ms =>
      let '(ms, budget) := mark_newest ms budget in
      match budget with
      | O => (m :: ms, O)
      | S left_ => let '(took, m) := mark_last_cacheable m in (m :: ms, if took then left_ else S left_)
      end
  end.
Definition messages (ms : list Message) (budget : nat) : list Value * nat := mark_newest (omap message ms) budget.

Record Parts := mkParts { pt_system : list Value; pt_messages : list Value; pt_tools : list Value }.
Definition parts_of (request : ModelRequest) (caps : EndpointCapabilities) : Parts :=
  let budget := if ec_caching caps then MAX_BREAKPOINTS else 0 in
  let '(system, budget) := system_blocks (rq_system request) budget in
  let '(messages, _) := messages (rq_messages request) budget in
  mkParts system messages (tool <$> rq_tools request).
Definition install (p : Parts) (body : list (str * Value)) : list (str * Value) :=
  let body := match pt_system p with [] => body | system => map_insert (lit "system") (VArray system) body end in
  let body := map_insert (lit "messages") (VArray (pt_messages p)) body in
  match pt_tools p with [] => body | tools => map_insert (lit "tools") (VArray tools) body end.

Definition effort_name (e : Effort) : str :=
  match e with
  | Minimal | Low => lit "low" | Medium => lit "medium" | High => lit "high" | XHigh => lit "xhigh" | MaxEffort => lit "max"
  end.
Definition efforts : list Effort := retain (fun e => bool_decide (effort_name e = effort_label e)) EFFORTS.
Definition add_thinking (effort : Effort) (body : list (str * Value)) : list (str * Value) :=
  map_insert (lit "output_config") (VObject [(lit "effort", VString (effort_name effort))])
    (map_insert (lit "thinking") (VObject [(lit "type", VString (lit "adaptive"))]) body).
Definition encode (request : ModelRequest) (caps : EndpointCapabilities) : Value :=
  let body := map_insert (lit "model") (VString (rq_model request)) [] in
  let body := map_insert (lit "max_tokens") (VNumber (PosInt (rq_max_tokens request))) body in
  let body := install (parts_of request caps) body in
  let body := map_insert (lit "stream") (VBool true) body in
  let body := match rq_reasoning request with Some effort => add_thinking effort body | None => body end in
  VObject (merge_provider_options body (metadata_get PROVIDER (rq_provider_options request))).
Definition count_tokens (request : ModelRequest) (caps : EndpointCapabilities) : Value :=
  VObject (install (parts_of request caps) (map_insert (lit "model") (VString (rq_model request)) [])).

(** ** The catalogue *)

Definition model_entry (entry : Value) : option ModelInfo :=
  (fun id => mkModelInfo id (str_at entry (lit "display_name"))) <$> str_at entry (lit "id").
Definition info_le (a b : ModelInfo) : Prop := str_le (mi_id a) (mi_id b).
#[export] Instance info_le_dec : RelDecision info_le := fun a b => str_le_dec (mi_id a) (mi_id b).
Definition parse_models (body : Value) : list ModelInfo :=
  match as_array (default body (value_get (lit "data") body)) with
  | None => []
  | Some entries => merge_sort info_le (omap model_entry entries)
  end.
