(* ===== verification/AnthropicLaws.v ===== *)
(** * AnthropicLaws: what the model said is what is kept and what goes back

    A response that streams a message becomes the items of that message, whatever chunks
    it came in; what was kept of it goes back on the next request as it came; and the
    breakpoints of a request stay within what the API allows. *)

From S2P Require Import Prelude Text Utf8 Ears Model Interaction Event Transcript Context Stream Sse SseLaws Kept Provider Anthropic.

(** ** A message, as the API streams it *)

(** A block of the message, by the fragments it came in. *)
Inductive Said :=
| SaidText (texts : list str)
| SaidThought (texts signatures : list str)
| SaidHidden (data : str)
| SaidCall (id name : str) (fragments : list str).

Inductive Opening := OpensText | OpensThought | OpensHidden (data : str) | OpensCall (id name : str).
(** What one frame tells. *)
Inductive Wire :=
| MessageStarts (id model : option str) (usage : option Value)
| BlockStarts (i : N) (o : Opening)
| Adds (i : N) (kind field text : str)
| BlockStops (i : N)
| MessageSays (stop : option str) (usage : option Value)
| MessageStops
| Other.

Definition block_script (i : N) (s : Said) : list Wire :=
  match s with
  | SaidText ts => BlockStarts i OpensText :: (Adds i (lit "text_delta") (lit "text") <$> ts) ++ [BlockStops i]
  | SaidThought ts ss =>
      BlockStarts i OpensThought :: (Adds i (lit "thinking_delta") (lit "thinking") <$> ts)
      ++ (Adds i (lit "signature_delta") (lit "signature") <$> ss) ++ [BlockStops i]
  | SaidHidden data => [BlockStarts i (OpensHidden data); BlockStops i]
  | SaidCall id name js =>
      BlockStarts i (OpensCall id name) :: (Adds i (lit "input_json_delta") (lit "partial_json") <$> js) ++ [BlockStops i]
  end.
Fixpoint blocks_script (i : N) (said : list Said) : list Wire :=
  match said with [] => [] | s :: said => block_script i s ++ blocks_script (i + 1) said end.
Definition message_script (id model : option str) (usage usage' : option Value) (stop : option str) (said : list Said) : list Wire :=
  MessageStarts id model usage :: blocks_script 0 said ++ [MessageSays stop usage'; MessageStops].

Definition KNOWN : list str :=
  [lit "message_start"; lit "content_block_start"; lit "content_block_delta"; lit "content_block_stop"; lit "message_delta";
   lit "message_stop"; lit "error"].
Definition is_other (w : Wire) : bool := match w with Other => true | _ => false end.

Section telling.
Context (parse_json : str → result str Value).

Definition opens (content : Value) (o : Opening) : Prop :=
  match o with
  | OpensText => str_at content (lit "type") = Some (lit "text")
  | OpensThought => str_at content (lit "type") = Some (lit "thinking")
  | OpensHidden data => str_at content (lit "type") = Some (lit "redacted_thinking") ∧ str_at content (lit "data") = Some data
  | OpensCall id name => str_at content (lit "type") = Some (lit "tool_use") ∧ str_at content (lit "id") = Some id
      ∧ str_at content (lit "name") = Some name
  end.
(** That the data of a frame reads so, whatever more it says. *)
Definition reads (f : SseFrame) (event : str) (P : Value → Prop) : Prop :=
  fr_event f = event ∧ ∃ v, parse_json (fr_data f) = Ok v ∧ P v.
Definition tells (f : SseFrame) (w : Wire) : Prop :=
  match w with
  | MessageStarts id model usage => reads f (lit "message_start") (λ v, ∃ m, value_get (lit "message") v = Some m
      ∧ str_at m (lit "id") = id ∧ str_at m (lit "model") = model ∧ value_get (lit "usage") m = usage)
  | BlockStarts i o => reads f (lit "content_block_start") (λ v, index_of v = i ∧ ∃ c, value_get (lit "content_block") v = Some c ∧ opens c o)
  | Adds i kind field text => reads f (lit "content_block_delta") (λ v, index_of v = i ∧ ∃ d, value_get (lit "delta") v = Some d
      ∧ str_at d (lit "type") = Some kind ∧ str_at d field = Some text)
  | BlockStops i => reads f (lit "content_block_stop") (λ v, index_of v = i)
  | MessageSays stop usage => reads f (lit "message_delta") (λ v, (let? d := value_get (lit "delta") v in str_at d (lit "stop_reason")) = stop
      ∧ value_get (lit "usage") v = usage)
  | MessageStops => fr_event f = lit "message_stop"
  | Other => fr_event f ∉ KNOWN
  end.

(** ** What the decoder makes of it *)

#[local] Instance decoding : Decode Decoder := anthropic_decode parse_json.

Definition opened_block (i : N) (o : Opening) : Block :=
  match o with
  | OpensText => mkBlock (show_N i) KText
  | OpensThought => mkBlock (show_N i) (KReasoning [] None)
  | OpensHidden data => mkBlock (show_N i) (KReasoning [] (Some data))
  | OpensCall id name => mkBlock id (KTool name [])
  end.
Definition delta_of (kind field text : str) : Value := VObject [(lit "type", VString kind); (field, VString text)].
Definition wire_step (d : Decoder) (w : Wire) : list ModelEvent * Decoder :=
  match w with
  | MessageStarts id model usage =>
      ([StreamStart []; ResponseMetadata id model], mkDecoder (dc_open d) (read_usage (dc_usage d) usage) (dc_stop_reason d))
  | BlockStarts i o => ([block_start (opened_block i o)], with_open (<[i := opened_block i o]> (dc_open d)) d)
  | Adds i kind field text =>
      match dc_open d !! i with
      | None => ([], d)
      | Some b => let '(e, b) := block_delta b (delta_of kind field text) in (option_list e, with_open (<[i := b]> (dc_open d)) d)
      end
  | BlockStops i => (match dc_open d !! i with Some b => block_close b | None => [] end, with_open (delete i (dc_open d)) d)
  | MessageSays stop usage => ([], mkDecoder (dc_open d) (read_usage (dc_usage d) usage) (option_or stop (dc_stop_reason d)))
  | MessageStops => ([finish_event d], d)
  | Other => ([], d)
  end.
(** The kinds of fragment there are, each with its field. *)
Definition FIELDS : list (str * str) :=
  [(lit "text_delta", lit "text"); (lit "thinking_delta", lit "thinking"); (lit "signature_delta", lit "signature");
   (lit "input_json_delta", lit "partial_json")].
Definition in_form (w : Wire) : Prop := match w with Adds _ kind field _ => (kind, field) ∈ FIELDS | _ => True end.

Lemma delta_read b dv kind field text : (kind, field) ∈ FIELDS → str_at dv (lit "type") = Some kind → str_at dv field = Some text →
  block_delta b dv = block_delta b (delta_of kind field text).
Proof.
  intros Hk Ht Hf. unfold block_delta. rewrite Ht.
  assert (str_at (delta_of kind field text) (lit "type") = Some kind) as -> by (by vm_compute).
  repeat (apply elem_of_cons in Hk as [[= -> ->]|Hk]); [..|by apply elem_of_nil in Hk];
    destruct b as [id [|signature redacted|name input]]; vm_compute in Hf |- *; by rewrite ?Hf.
Qed.
Lemma decode_told d f w : in_form w → tells f w → decode d (fr_event f) (fr_data f) = let '(events, d) := wire_step d w in (Ok events, d).
Proof.
  intros Hw Hf. unfold decode, decoding, anthropic_decode. destruct w as [id model usage|i o|i kind field text|i|stop usage| |]; cbn [tells] in Hf; unfold reads in Hf.
  - destruct Hf as (-> & v & Hv & m & Hm & <- & <- & <-). rewrite bool_decide_eq_true_2 by done.
    unfold message_start, parse. by rewrite Hv, Hm.
  - destruct Hf as (-> & v & Hv & <- & c & Hc & Ho). rewrite bool_decide_eq_false_2, bool_decide_eq_true_2 by done.
    unfold content_block_start, parse. rewrite Hv, Hc. unfold block_open.
    destruct o as [| |data|id name]; cbn [opens] in Ho; [rewrite Ho; by repeat case_bool_decide..| |].
    + destruct Ho as [-> ->]. by repeat case_bool_decide.
    + destruct Ho as (-> & -> & ->). by repeat case_bool_decide.
  - destruct Hf as (-> & v & Hv & <- & dv & Hd & Ht & Htext). do 2 rewrite bool_decide_eq_false_2 by done. rewrite bool_decide_eq_true_2 by done.
    unfold content_block_delta, parse. rewrite Hv, Hd. cbn [wire_step]. destruct (dc_open d !! index_of v); [|done].
    erewrite delta_read by done. by destruct (block_delta _ _).
  - destruct Hf as (-> & v & Hv & <-). do 3 rewrite bool_decide_eq_false_2 by done. rewrite bool_decide_eq_true_2 by done.
    unfold content_block_stop, parse. by rewrite Hv.
  - destruct Hf as (-> & v & Hv & <- & <-). do 4 rewrite bool_decide_eq_false_2 by done. rewrite bool_decide_eq_true_2 by done.
    unfold message_delta, parse. by rewrite Hv.
  - rewrite Hf. do 5 rewrite bool_decide_eq_false_2 by done. by rewrite bool_decide_eq_true_2.
  - do 7 rewrite bool_decide_eq_false_2 by (intros E; apply Hf; rewrite E; repeat (first [by left|right])). done.
Qed.

Abbreviation wire_run := (SseLaws.wire_run wire_step) (only parsing).

(** The block a turn keeps of one that was said. *)
Definition kept_of (i : N) (s : Said) : Kept :=
  match s with
  | SaidText ts => KeptText (show_N i) ts
  | SaidThought ts ss => KeptThought (show_N i) ts (reasoning_metadata (concat ss) None)
  | SaidHidden data => KeptThought (show_N i) [] (reasoning_metadata [] (Some data))
  | SaidCall id name js => KeptCall id name js (tool_input (concat js))
  end.
Fixpoint all_kept (i : N) (said : list Said) : list Kept :=
  match said with [] => [] | s :: said => kept_of i s :: all_kept (i + 1) said end.

(** Fragments fold into the block they are of. *)
Lemma with_open_same d i b : dc_open d !! i = Some b → with_open (<[i := b]> (dc_open d)) d = d.
Proof. intros Hb. unfold with_open. rewrite insert_id by done. by destruct d. Qed.
Lemma with_open_twice m m' d : with_open m (with_open m' d) = with_open m d.
Proof. done. Qed.
Lemma wire_texts d i id ts : dc_open d !! i = Some (mkBlock id KText) →
  wire_run d (Adds i (lit "text_delta") (lit "text") <$> ts) = (TextDelta id <$> ts, d).
Proof.
  intros Hb. induction ts as [|t ts IH]; [done|]. cbn [fmap list_fmap wire_run wire_step]. rewrite Hb.
  change (block_delta (mkBlock id KText) _) with (Some (TextDelta id t), mkBlock id KText). cbn beta iota. by rewrite with_open_same, IH.
Qed.
Lemma wire_thoughts d i id sg r ts : dc_open d !! i = Some (mkBlock id (KReasoning sg r)) →
  wire_run d (Adds i (lit "thinking_delta") (lit "thinking") <$> ts) = (ReasoningDelta id <$> ts, d).
Proof.
  intros Hb. induction ts as [|t ts IH]; [done|]. cbn [fmap list_fmap wire_run wire_step]. rewrite Hb.
  change (block_delta (mkBlock id (KReasoning sg r)) _) with (Some (ReasoningDelta id t), mkBlock id (KReasoning sg r)).
  cbn beta iota. by rewrite with_open_same, IH.
Qed.
Lemma wire_signatures d i id sg r ss : dc_open d !! i = Some (mkBlock id (KReasoning sg r)) →
  wire_run d (Adds i (lit "signature_delta") (lit "signature") <$> ss) =
  ([], with_open (<[i := mkBlock id (KReasoning (sg ++ concat ss) r)]> (dc_open d)) d).
Proof.
  revert d sg. induction ss as [|t ss IH]; intros d sg Hb; cbn [fmap list_fmap wire_run wire_step concat].
  - by rewrite app_nil_r, with_open_same.
  - rewrite Hb. change (block_delta (mkBlock id (KReasoning sg r)) _) with (@None ModelEvent, mkBlock id (KReasoning (sg ++ t) r)).
    cbn beta iota. rewrite (IH _ (sg ++ t)) by apply lookup_insert_eq. cbn. by rewrite insert_insert_eq, <- app_assoc.
Qed.
Lemma wire_fragments d i id name input js : dc_open d !! i = Some (mkBlock id (KTool name input)) →
  wire_run d (Adds i (lit "input_json_delta") (lit "partial_json") <$> js) =
  (ToolInputDelta id <$> js, with_open (<[i := mkBlock id (KTool name (input ++ concat js))]> (dc_open d)) d).
Proof.
  revert d input. induction js as [|t js IH]; intros d input Hb; cbn [fmap list_fmap wire_run wire_step concat].
  - by rewrite app_nil_r, with_open_same.
  - rewrite Hb. change (block_delta (mkBlock id (KTool name input)) _) with (Some (ToolInputDelta id t), mkBlock id (KTool name (input ++ t))).
    cbn beta iota. rewrite (IH _ (input ++ t)) by apply lookup_insert_eq. cbn. by rewrite insert_insert_eq, <- app_assoc.
Qed.
Lemma wire_block d i s : wire_run d (block_script i s) = (kept_events (kept_of i s), with_open (delete i (dc_open d)) d).
Proof.
  assert (∀ b, dc_open (with_open (<[i := b]> (dc_open d)) d) !! i = Some b) as Hi by (intros; apply lookup_insert_eq).
  destruct s as [ts|ts ss|data|id name js]; cbn [block_script wire_run wire_step opened_block kept_of kept_events].
  - rewrite wire_run_app, (wire_texts _ _ (show_N i)) by apply Hi. cbn [wire_run wire_step]. rewrite Hi. cbn. by rewrite delete_insert_eq.
  - rewrite wire_run_app, (wire_thoughts _ _ (show_N i) [] None) by apply Hi.
    rewrite wire_run_app, (wire_signatures _ _ (show_N i) [] None) by apply Hi. cbn [wire_run wire_step].
    cbn [with_open dc_open]. rewrite lookup_insert_eq. cbn. by rewrite delete_insert_eq, delete_insert_eq.
  - rewrite Hi. cbn. by rewrite delete_insert_eq.
  - rewrite wire_run_app, (wire_fragments _ _ id name []) by apply Hi. cbn [wire_run wire_step].
    cbn [with_open dc_open]. rewrite lookup_insert_eq. cbn. by rewrite delete_insert_eq, delete_insert_eq.
Qed.
Lemma wire_blocks d i said : dc_open d = ∅ → wire_run d (blocks_script i said) = (all_events (all_kept i said), d).
Proof.
  intros Hd. revert i. induction said as [|s said IH]; intros i; [done|]. cbn [blocks_script all_kept].
  rewrite wire_run_app, wire_block, Hd, delete_empty. assert (with_open ∅ d = d) as -> by (unfold with_open; rewrite <- Hd; by destruct d).
  by rewrite IH.
Qed.
Definition message_events (id model : option str) (usage usage' : option Value) (stop : option str) (said : list Said) : list ModelEvent :=
  response_events id model (all_kept 0 said) (read_usage (read_usage usage_default usage) usage') (finish_reason stop).
Lemma wire_message id model usage usage' stop said :
  (wire_run decoder_new (message_script id model usage usage' stop said)).1 = message_events id model usage usage' stop said.
Proof.
  unfold message_script, message_events, response_events. cbn [wire_run wire_step]. rewrite wire_run_app, wire_blocks by done. cbn.
  by destruct stop.
Qed.
Lemma in_form_block i s : Forall in_form (block_script i s).
Proof.
  assert (∀ kind field ts, (kind, field) ∈ FIELDS → Forall in_form (Adds i kind field <$> ts)) as Ha by (intros; by apply Forall_fmap, Forall_true).
  destruct s; cbn [block_script]; rewrite ?Forall_cons, ?Forall_app, ?Forall_cons; split_and!; try done; apply Ha; unfold FIELDS; repeat first [by left|right].
Qed.
Lemma in_form_message id model usage usage' stop said : Forall in_form (message_script id model usage usage' stop said).
Proof.
  unfold message_script. apply Forall_cons. split; [done|]. apply Forall_app. split; [|by repeat constructor].
  generalize 0%N. induction said as [|s said IH]; intros i; [constructor|]. cbn [blocks_script]. apply Forall_app. split; [apply in_form_block|apply IH].
Qed.
End telling.

(** ** What is kept of it, and what goes back *)

(** The block an API is sent for one it streamed: a thought only if it was signed. *)
Section returning.
Context (parse_json : str → result str Value).
(** The body a block is kept as. *)
Definition body_of (s : Said) : ItemBody := kept_body parse_json (kept_of 0 s).
Lemma body_kept i s : kept_body parse_json (kept_of i s) = body_of s.
Proof. by destruct s. Qed.
Lemma bodies_kept i said : kept_body parse_json <$> all_kept i said = body_of <$> said.
Proof. revert i. induction said as [|s said IH]; intros i; [done|]. cbn. by rewrite body_kept, IH. Qed.
Definition sent_back (s : Said) : list Value :=
  match s with
  | SaidText ts => match concat ts with [] => [] | text => [text_block text] end
  | SaidThought ts ss =>
      match concat ss with
      | [] => []
      | signature => [VObject [(lit "type", VString (lit "thinking")); (lit "thinking", VString (concat ts)); (lit "signature", VString signature)]]
      end
  | SaidHidden data => [VObject [(lit "type", VString (lit "redacted_thinking")); (lit "data", VString data)]]
  | SaidCall id name js =>
      [VObject [(lit "type", VString (lit "tool_use")); (lit "id", VString id); (lit "name", VString name);
                (lit "input", (parse_input parse_json (tool_input (concat js))).1)]]
  end.
Lemma part_sent_back i s : List.flat_map blocks (part_of (kept_body parse_json (kept_of i s))) = sent_back s.
Proof.
  destruct s as [ts|ts ss|data|id name js]; cbn [kept_body kept_of part_of sent_back]; [by destruct (concat ts)| |by vm_compute|by cbn].
  destruct (concat ss) as [|c sg]; [by destruct (concat ts)|]. assert (reasoning_metadata (c :: sg) None = [(PROVIDER, [(lit "signature", VString (c :: sg))])]) as -> by done.
  assert (thinking (concat ts) [(PROVIDER, [(lit "signature", VString (c :: sg))])] =
    Some (VObject [(lit "type", VString (lit "thinking")); (lit "thinking", VString (concat ts)); (lit "signature", VString (c :: sg))])) as Ht by (by vm_compute).
  destruct (concat ts); cbn [List.flat_map blocks]; by rewrite Ht.
Qed.
Lemma parts_sent_back i said : concat ((λ k, List.flat_map blocks (part_of (kept_body parse_json k))) <$> all_kept i said) = concat (sent_back <$> said).
Proof. revert i. induction said as [|s said IH]; intros i; [done|]. cbn [all_kept fmap list_fmap concat]. by rewrite part_sent_back, IH. Qed.
End returning.

(** ** The whole way *)

Section whole.
Context (parse_json : str → result str Value) (hash_order : gmap str Open → list str).
#[local] Instance decoding' : Decode Decoder := anthropic_decode parse_json.

Lemma decoder_hears frames ws id model usage usage' stop said : Forall2 (tells parse_json) frames ws →
  spoken is_other ws = message_script id model usage usage' stop said →
  (decode_all decoder_new frames).1 = (message_events id model usage usage' stop said, None).
Proof.
  intros Hf Hs. rewrite <- (wire_message id model usage usage' stop said).
  apply (script_heard wire_step is_other in_form (tells parse_json) _ frames ws); try done.
  - intros d f w. apply decode_told.
  - by intros d [].
  - by intros [].
  - apply in_form_message.
Qed.
(** C31: A response becomes the message it streamed.  Let a server stream a message: texts,
    thoughts with their signatures, redacted thoughts and calls, each in any fragments,
    with whatever other frames between (pings, events added since).  However the bytes
    are cut, the turn folds them into exactly that message: one item for each block, in
    order, its text the fragments joined, each thought with its signature, each call
    with its arguments parsed once; and the finish reason and the usage are the
    message's last word on them. *)
Theorem a_response_becomes_the_message_it_streamed
    (tools : list (str * (Value → ToolTraits))) (turn : TurnId) (round : N) (t : Transcript) (now : Timestamp)
    (said : list Said) (id model : option str) (usage usage' : option Value) (stop : option str)
    (frames : list SseFrame) (ws : list Wire) (chunks : list bytes)
  (Htold : Forall2 (tells parse_json) frames ws)
  (Hscript : spoken is_other ws = message_script id model usage usage' stop said)
  (Hclean : Forall clean frames) (Hbytes : concat chunks = concat ((λ f, utf8 (render f)) <$> frames)) (Hfits : fits chunks)
  (Hhash : hash_order ∅ = []) :
  ∃ events,
    (∃ n, ∀ fuel, (n ≤ fuel)%nat →
      model_stream fuel (body_new decoder_new) ((brought <$> chunks) ++ [mkWait false (Chunk None)]) = (Ok <$> events, true))
    ∧ ∀ l : list (ItemId * Timestamp * ModelEvent), l.*2 = events → NoDup (ids_at l) →
      ∃ t' f, stream parse_json hash_order tools turn round t ((arrival <$> l) ++ [ArrivedEnd]) false now = (t', SDone f)
        ∧ item_body <$> fs_items f = body_of parse_json <$> said ∧ fs_finish_reason f = Some (finish_reason stop)
        ∧ fs_usage f = read_usage (read_usage usage_default usage) usage' ∧ fs_truncated f = false.
Proof.
  exists (message_events id model usage usage' stop said). split.
  - eapply body_hears; [done..|]. by eapply decoder_hears.
  - intros l Hl Hnd. edestruct (turn_keeps parse_json hash_order tools turn round t now) as (t' & f & Hs & Hb & Hf & Hu & Ht & _); [done..|].
    exists t', f. by rewrite Hb, bodies_kept.
Qed.

(** C32: What the model said goes back as it said it.  Fold the items of a response into the
    messages of the next request: what stands there in the model's name is, block for
    block and in order, what it streamed, each thought under the signature it was signed
    with and nothing unsigned. *)
Theorem what_the_model_said_goes_back (json_text : Value → str)
    (tools : list (str * (Value → ToolTraits))) (turn : TurnId) (round : N) (t t' : Transcript) (now : Timestamp)
    (said : list Said) (id model : option str) (usage usage' : option Value) (stop : option str)
    (frames : list SseFrame) (ws : list Wire) (l : list (ItemId * Timestamp * ModelEvent)) (f : Finished)
  (Htold : Forall2 (tells parse_json) frames ws)
  (Hscript : spoken is_other ws = message_script id model usage usage' stop said)
  (Hevents : (decode_all decoder_new frames).1 = (l.*2, None)) (Hids : NoDup (ids_at l)) (Hhash : hash_order ∅ = [])
  (Hdone : stream parse_json hash_order tools turn round t ((arrival <$> l) ++ [ArrivedEnd]) false now = (t', SDone f)) :
  List.flat_map blocks (said_by_model (fold_items json_text (fs_items f))) = concat (sent_back parse_json <$> said).
Proof.
  rewrite (decoder_hears frames ws id model usage usage' stop said) in Hevents by done. injection Hevents as Hl.
  edestruct (turn_keeps parse_json hash_order tools turn round t now) as (t'' & f' & Hs & Hb & _ & _ & _ & Hx); [done..|].
  rewrite Hs in Hdone. injection Hdone as _ <-. rewrite (said_kept parse_json blocks json_text _ _ Hb Hx). apply parts_sent_back.
Qed.
End whole.

(** ** A response of the tests, by the frame *)

Module Demo.
Definition num (n : N) : Value := VNumber (PosInt n).
Definition word (s : str) : Value := VString s.
Definition obj : list (str * Value) → Value := VObject.
Definition delta (i : N) (kind field text : str) : Value :=
  obj [(lit "index", num i); (lit "delta", obj [(lit "type", word kind); (field, word text)])].
Definition begun (i : N) (fields : list (str * Value)) : Value := obj [(lit "index", num i); (lit "content_block", obj fields)].
(** The frames, their data under a name of its own. *)
Definition sent : list (str * str * Value * Wire) :=
  [(lit "message_start", lit "a", obj [(lit "message", obj [(lit "id", word (lit "msg_1")); (lit "usage", obj [(lit "input_tokens", num 12)])])],
      MessageStarts (Some (lit "msg_1")) None (Some (obj [(lit "input_tokens", num 12)])));
   (lit "ping", lit "b", obj [], Other);
   (lit "content_block_start", lit "c", begun 0 [(lit "type", word (lit "thinking"))], BlockStarts 0 OpensThought);
   (lit "content_block_delta", lit "d", delta 0 (lit "thinking_delta") (lit "thinking") (lit "hm"), Adds 0 (lit "thinking_delta") (lit "thinking") (lit "hm"));
   (lit "content_block_delta", lit "e", delta 0 (lit "signature_delta") (lit "signature") (lit "ErUB"), Adds 0 (lit "signature_delta") (lit "signature") (lit "ErUB"));
   (lit "content_block_stop", lit "f", obj [(lit "index", num 0)], BlockStops 0);
   (lit "content_block_start", lit "g", begun 1 [(lit "type", word (lit "text")); (lit "text", word [])], BlockStarts 1 OpensText);
   (lit "content_block_delta", lit "h", delta 1 (lit "text_delta") (lit "text") (lit "Hel"), Adds 1 (lit "text_delta") (lit "text") (lit "Hel"));
   (lit "content_block_delta", lit "i", delta 1 (lit "text_delta") (lit "text") (lit "lo"), Adds 1 (lit "text_delta") (lit "text") (lit "lo"));
   (lit "content_block_stop", lit "j", obj [(lit "index", num 1)], BlockStops 1);
   (lit "content_block_start", lit "k", begun 2 [(lit "type", word (lit "tool_use")); (lit "id", word (lit "toolu_1")); (lit "name", word (lit "Now"))],
      BlockStarts 2 (OpensCall (lit "toolu_1") (lit "Now")));
   (lit "content_block_stop", lit "l", obj [(lit "index", num 2)], BlockStops 2);
   (lit "message_delta", lit "m", obj [(lit "delta", obj [(lit "stop_reason", word (lit "tool_use"))]); (lit "usage", obj [(lit "output_tokens", num 7)])],
      MessageSays (Some (lit "tool_use")) (Some (obj [(lit "output_tokens", num 7)])));
   (lit "message_stop", lit "n", obj [], MessageStops)].
Definition json : list (str * Value) := (lit "{}", obj []) :: ((λ x, (x.1.1.2, x.1.2)) <$> sent).
Definition parse_json (s : str) : result str Value := match map_get s json with Some v => Ok v | None => Err (lit "expected value") end.
Definition frames : list SseFrame := (λ x, mkSseFrame x.1.1.1 x.1.1.2) <$> sent.
Definition told : list Wire := (λ x, x.2) <$> sent.
Definition said : list Said := [SaidThought [lit "hm"] [lit "ErUB"]; SaidText [lit "Hel"; lit "lo"]; SaidCall (lit "toolu_1") (lit "Now") []].
Definition body : bytes := concat ((λ f, utf8 (render f)) <$> frames).
(** Cut wherever. *)
Definition chunks : list bytes := [take 40 body; take 1 (drop 40 body); []; drop 41 body].
Definition keys (m : gmap str Open) : list str := (map_to_list m).*1.

Lemma frames_told : Forall2 (tells parse_json) frames told.
Proof.
  unfold frames, told, sent. cbn [fmap list_fmap fst snd].
  repeat (apply Forall2_cons; split; [|]); [..|by apply Forall2_nil]; cbn [tells]; unfold reads; cbn [fr_event fr_data];
    first [done|by apply (bool_decide_unpack _); vm_compute|split; [done|]; eexists; split; [by vm_compute|]; cbn [opens];
      first [by vm_compute|by split; by vm_compute|by eexists; split_and!; vm_compute|by split; [by vm_compute|]; eexists; split_and!; vm_compute]].
Qed.
Lemma told_script : spoken is_other told
  = message_script (Some (lit "msg_1")) None (Some (obj [(lit "input_tokens", num 12)])) (Some (obj [(lit "output_tokens", num 7)])) (Some (lit "tool_use")) said.
Proof. by vm_compute. Qed.
Lemma frames_clean : Forall clean frames.
Proof.
  unfold frames, sent. cbn [fmap list_fmap fst snd]. repeat apply Forall_cons_2; [..|by apply Forall_nil]; split; by apply one_line_check; vm_compute.
Qed.
Lemma chunks_body : concat chunks = body.
Proof. by vm_compute. Qed.
Lemma chunks_fit : fits chunks.
Proof. apply fits_short. by vm_compute. Qed.
(** Each event at an id of its own. *)
Fixpoint stamped (k : nat) (events : list ModelEvent) : list (ItemId * Timestamp * ModelEvent) :=
  match events with [] => [] | e :: events => (chr "i" :: show_N (N.of_nat k), Z.of_nat k, e) :: stamped (S k) events end.
Definition events : list ModelEvent :=
  message_events (Some (lit "msg_1")) None (Some (obj [(lit "input_tokens", num 12)])) (Some (obj [(lit "output_tokens", num 7)])) (Some (lit "tool_use")) said.
End Demo.

Lemma a_response_becomes_the_message_it_streamed_witness :
  ∃ events,
    (∃ n, ∀ fuel, (n ≤ fuel)%nat →
      model_stream (H := anthropic_decode Demo.parse_json) fuel (body_new decoder_new) ((brought <$> Demo.chunks) ++ [mkWait false (Chunk None)])
      = (Ok <$> events, true))
    ∧ ∀ l : list (ItemId * Timestamp * ModelEvent), l.*2 = events → NoDup (ids_at l) →
      ∃ t' f, stream Demo.parse_json Demo.keys [] (lit "t1") 0 demo_transcript ((arrival <$> l) ++ [ArrivedEnd]) false 9 = (t', SDone f)
        ∧ item_body <$> fs_items f =
            [BReasoning (lit "hm") [(PROVIDER, [(lit "signature", VString (lit "ErUB"))])]; BAssistant (lit "Hello");
             BToolCall None None None (lit "toolu_1") (lit "Now") (VObject []) None None None false].
Proof.
  destruct (a_response_becomes_the_message_it_streamed Demo.parse_json Demo.keys [] (lit "t1") 0 demo_transcript 9 Demo.said
    (Some (lit "msg_1")) None (Some (Demo.obj [(lit "input_tokens", Demo.num 12)])) (Some (Demo.obj [(lit "output_tokens", Demo.num 7)]))
    (Some (lit "tool_use")) Demo.frames Demo.told Demo.chunks Demo.frames_told Demo.told_script Demo.frames_clean Demo.chunks_body Demo.chunks_fit eq_refl)
    as (events & Hbody & Hturn).
  exists events. split; [exact Hbody|]. intros l Hl Hnd. destruct (Hturn l Hl Hnd) as (t' & f & Hs & Hb & _).
  exists t', f. split; [exact Hs|exact Hb].
Defined.
Lemma what_the_model_said_goes_back_witness :
  match stream Demo.parse_json Demo.keys [] (lit "t1") 0 demo_transcript ((arrival <$> Demo.stamped 0 Demo.events) ++ [ArrivedEnd]) false 9 with
  | (t', SDone f) =>
      List.flat_map blocks (said_by_model (fold_items (λ _, []) (fs_items f))) =
      [VObject [(lit "type", VString (lit "thinking")); (lit "thinking", VString (lit "hm")); (lit "signature", VString (lit "ErUB"))];
       text_block (lit "Hello");
       VObject [(lit "type", VString (lit "tool_use")); (lit "id", VString (lit "toolu_1")); (lit "name", VString (lit "Now")); (lit "input", VObject [])]]
  | _ => False
  end.
Proof.
  destruct (stream Demo.parse_json Demo.keys [] (lit "t1") 0 demo_transcript ((arrival <$> Demo.stamped 0 Demo.events) ++ [ArrivedEnd]) false 9)
    as [t' [f|e d|]] eqn:E; [|vm_compute in E; discriminate..].
  apply (what_the_model_said_goes_back Demo.parse_json Demo.keys (λ _, []) [] (lit "t1") 0 demo_transcript t' 9 Demo.said
    (Some (lit "msg_1")) None (Some (Demo.obj [(lit "input_tokens", Demo.num 12)])) (Some (Demo.obj [(lit "output_tokens", Demo.num 7)]))
    (Some (lit "tool_use")) Demo.frames Demo.told (Demo.stamped 0 Demo.events) f Demo.frames_told Demo.told_script).
  - vm_compute. reflexivity.
  - apply (bool_decide_unpack _). by vm_compute.
  - reflexivity.
  - exact E.
Defined.
