(* ===== verification/RequestLaws.v ===== *)
(** * RequestLaws: the breakpoints of a request

    What [Anthropic.encode] marks for the cache of the Messages API: never more than the
    API takes, only where it may stand, the newest messages first, and nothing else of
    the request is changed by it. *)

From S2P Require Import Prelude Text Model Provider Anthropic.

(** ** Marks, and a request without them *)

Definition MARK : str := lit "cache_control".
Definition is_marked (v : Value) : bool := option_is_some (value_get MARK v).
Fixpoint map_remove (k : str) (m : list (str * Value)) : list (str * Value) :=
  match m with
  | [] => []
  | (k', v) :: m => if bool_decide (k' = k) then map_remove k m else (k', v) :: map_remove k m
  end.
Definition unmark (v : Value) : Value := match v with VObject m => VObject (map_remove MARK m) | other => other end.
Definition content_of (m : Value) : list Value :=
  match value_get (lit "content") m with Some (VArray content) => content | _ => [] end.
Definition unmark_message (m : Value) : Value := set_field (lit "content") (VArray (unmark <$> content_of m)) m.
Definition uncached (caps : EndpointCapabilities) : EndpointCapabilities :=
  mkEndpointCapabilities (ec_images caps) (ec_count_tokens caps) false (ec_context_window caps).

(** ** A block *)

Lemma map_remove_insert k v m : map_get k m = None → map_remove k (map_insert k v m) = m ∧ map_remove k m = m.
Proof.
  unfold map_get. induction m as [|[k' v'] m IH]; cbn; [by rewrite bool_decide_eq_true_2|].
  case_bool_decide as E; [done|]. intros [H1 H2]%IH. cbn. rewrite bool_decide_eq_false_2 by done. by rewrite H1, H2.
Qed.
Lemma unmark_mark v : is_marked v = false → unmark (mark v).2 = v ∧ unmark v = v.
Proof.
  destruct v as [| | | | |m]; try done. unfold is_marked. cbn [value_get mark snd unmark]. intros Hm.
  destruct (map_remove_insert MARK ephemeral m) as [H1 H2]; [by destruct (map_get MARK m)|]. unfold MARK in *. by rewrite H1, H2.
Qed.
Lemma cacheable_object v : is_cacheable v = true → ∃ m, v = VObject m.
Proof. destruct v as [| | | | |m]; try done. by exists m. Qed.
Lemma marked_mark v : is_cacheable v = true → (mark v).1 = true ∧ is_marked (mark v).2 = true ∧ is_cacheable (mark v).2 = true.
Proof.
  intros Hc. destruct (cacheable_object v Hc) as [m ->]. cbn [mark fst snd]. split_and!; [done| |].
  - unfold is_marked, MARK. cbn [value_get]. by rewrite map_get_insert_eq.
  - revert Hc. unfold is_cacheable, str_at. cbn [value_get]. by rewrite map_get_insert_ne by done.
Qed.

(** What parts become carries no mark of its own. *)
Lemma blocks_plain p v : v ∈ blocks p → is_marked v = false.
Proof.
  destruct p as [text|image|id name input|id parts is_error|text meta]; cbn [blocks].
  - intros ->%list_elem_of_singleton. by vm_compute.
  - unfold pictured. intros [->|Hv]%elem_of_cons; [by vm_compute|]. apply list_elem_of_fmap in Hv as (w & -> & _). by vm_compute.
  - intros ->%list_elem_of_singleton. by vm_compute.
  - intros ->%list_elem_of_singleton. unfold tool_result. destruct is_error; by vm_compute.
  - unfold thinking. destruct (metadata_get PROVIDER meta) as [mine|]; [|by intros ?%elem_of_nil]. cbn [mbind option_bind].
    destruct (_ : option str) as [data|]; [intros ->%list_elem_of_singleton; by vm_compute|].
    destruct (map_get (lit "signature") mine) as [signed|]; [|by intros ?%elem_of_nil]. cbn [mbind option_bind].
    destruct (as_str signed); [|by intros ?%elem_of_nil]. intros ->%list_elem_of_singleton. by vm_compute.
Qed.

(** ** A message *)

(** A message as [message] writes it. *)
Definition written (m : Value) (content : list Value) : Prop :=
  ∃ role, m = VObject [(lit "role", role); (lit "content", VArray content)].
Lemma message_written m v : message m = Some v → ∃ content, written v content ∧ Forall (λ b, is_marked b = false) content.
Proof.
  unfold message. intros Hm. exists (List.flat_map blocks (msg_parts m)). split.
  - destruct (List.flat_map blocks (msg_parts m)); [done|]. injection Hm as <-. by eexists.
  - apply Forall_forall. intros b Hb. apply list_elem_of_In, in_flat_map in Hb as (p & _ & Hb). by eapply blocks_plain, list_elem_of_In.
Qed.
Lemma written_content m content : written m content → content_of m = content ∧ value_get (lit "content") m = Some (VArray content)
  ∧ ∀ content', written (set_field (lit "content") (VArray content') m) content'.
Proof. intros [role ->]. split_and!; [done|done|]. intros content'. by exists role. Qed.
Lemma written_unmark m content : written m content → unmark_message m = set_field (lit "content") (VArray (unmark <$> content)) m.
Proof. intros Hw. unfold unmark_message. by rewrite (proj1 (written_content m content Hw)). Qed.
Lemma set_content_twice m content c c' : written m content →
  set_field (lit "content") (VArray c) (set_field (lit "content") (VArray c') m) = set_field (lit "content") (VArray c) m.
Proof. by intros [role ->]. Qed.
Lemma set_content_same m content : written m content → set_field (lit "content") (VArray content) m = m.
Proof. by intros [role ->]. Qed.

Lemma rposition_Some_here {A} (p : A → bool) l i : rposition p l = Some i → ∃ x, l !! i = Some x ∧ p x = true.
Proof.
  revert i. induction l as [|x l IH]; intros i; cbn; [done|]. destruct (rposition p l) as [j|].
  - intros [= <-]. by apply IH.
  - destruct (p x) eqn:E; [|done]. intros [= <-]. by exists x.
Qed.
Lemma rposition_None_all {A} (p : A → bool) l : rposition p l = None → Forall (λ x, p x = false) l.
Proof.
  induction l as [|x l IH]; cbn; [done|]. destruct (rposition p l); [done|]. destruct (p x) eqn:E; [done|]. constructor; auto.
Qed.
Definition marks (l : list Value) : nat := length (retain is_marked l).
Lemma marks_app l k : marks (l ++ k) = (marks l + marks k)%nat.
Proof. unfold marks. by rewrite retain_app, length_app. Qed.
Lemma marks_plain l : Forall (λ b, is_marked b = false) l → marks l = 0%nat.
Proof. intros Hl. unfold marks. rewrite retain_none; [done|]. rewrite Forall_forall in Hl. done. Qed.
Lemma marks_insert l i b x : l !! i = Some x → Forall (λ b, is_marked b = false) l → is_marked b = true → marks (<[i := b]> l) = 1%nat.
Proof.
  intros Hi Hl Hb. rewrite insert_take_drop by (by eapply lookup_lt_Some). rewrite marks_app. unfold marks at 2, retain. cbn [List.filter]. rewrite Hb.
  cbn [length]. fold (retain is_marked (drop (S i) l)). fold (marks (drop (S i) l)). rewrite !marks_plain by (by apply Forall_take || by apply Forall_drop). done.
Qed.

(** What marking a message comes to. *)
Lemma mark_last_spec m content : written m content → Forall (λ b, is_marked b = false) content →
  let '(took, m') := mark_last_cacheable m in
  took = any is_cacheable content ∧ marks (content_of m') = (if took then 1 else 0)%nat ∧ unmark_message m' = m
  ∧ (∃ content', written m' content') ∧ (∀ b, b ∈ content_of m' → is_marked b = true → is_cacheable b = true)
  ∧ any is_cacheable (content_of m') = any is_cacheable content.
Proof.
  intros Hw Hp. destruct (written_content m content Hw) as (Hc & Hv & Hset). unfold mark_last_cacheable. rewrite Hv.
  assert (unmark <$> content = content) as Hsame.
  { rewrite <- (list_fmap_id content) at 2. apply list_fmap_ext. intros i x Hx. apply (unmark_mark x). rewrite Forall_lookup in Hp. by eapply Hp. }
  destruct (rposition is_cacheable content) as [i|] eqn:E.
  - apply rposition_Some_here in E as (x & Hi & Hx). rewrite (nth_lookup_Some _ _ _ _ Hi).
    destruct (marked_mark x Hx) as (H1 & H2 & H3). destruct (mark x) as [took b] eqn:Em. cbn [fst snd] in *. subst took.
    destruct (written_content _ _ (Hset (<[i := b]> content))) as (Hc' & _ & _).
    assert (any is_cacheable content = true) as -> by (apply any_true; exists x; split; [by eapply list_elem_of_lookup_2|done]).
    rewrite Hc'. split_and!; [done|by eapply marks_insert| |by eexists| |].
    + rewrite (written_unmark _ _ (Hset (<[i := b]> content))), (set_content_twice _ _ _ _ Hw).
      rewrite list_fmap_insert, Hsame. assert (unmark b = x) as ->.
      { rewrite Forall_lookup in Hp. pose proof (unmark_mark x (Hp _ _ Hi)) as [Hu _]. by rewrite Em in Hu. }
      rewrite list_insert_id by done. by apply (set_content_same _ _ Hw).
    + intros y Hy Hm. apply list_elem_of_lookup in Hy as [j Hj]. rewrite Forall_lookup in Hp. apply list_lookup_insert_Some in Hj as [(_ & <- & _)|[_ Hj]]; [done|].
      by rewrite (Hp _ _ Hj) in Hm.
    + apply any_true. exists b. split; [|done]. eapply list_elem_of_lookup_2, list_lookup_insert_eq. by eapply lookup_lt_Some.
  - apply rposition_None_all in E. assert (any is_cacheable content = false) as -> by (apply any_false; by apply Forall_forall).
    rewrite Hc. split_and!; [done|by apply marks_plain| |by eexists| |].
    + rewrite (written_unmark _ _ Hw), Hsame. by apply (set_content_same _ _ Hw).
    + intros b Hb Hm. rewrite Forall_forall in Hp. by rewrite (Hp _ Hb) in Hm.
    + apply any_false. by apply Forall_forall.
Qed.

(** ** All of them *)

(** A message with a block that may carry a mark, and one that carries it. *)
Definition markable (m : Value) : bool := any is_cacheable (content_of m).
Definition carries (m : Value) : bool := any is_marked (content_of m).
Definition plain_message (m : Value) : Prop := ∃ content, written m content ∧ Forall (λ b, is_marked b = false) content.

Lemma marks_any l : marks l = 0%nat → any is_marked l = false.
Proof.
  intros Hl. apply any_false. intros x Hx. destruct (is_marked x) eqn:E; [|done]. unfold marks in Hl. apply nil_length_inv in Hl.
  assert (x ∈ retain is_marked l) as Hin by (by apply elem_of_retain). rewrite Hl in Hin. by apply elem_of_nil in Hin.
Qed.
Lemma any_marks l : marks l = 1%nat → any is_marked l = true.
Proof.
  intros Hl. unfold marks in Hl. destruct (retain is_marked l) as [|x k] eqn:E; [done|]. apply any_true. exists x. apply elem_of_retain. rewrite E. by left.
Qed.
(** The messages after [ms] came to carry their marks, out of [budget], [left_] being left. *)
Record newest_marked (ms ms' : list Value) (budget left_ : nat) : Prop := mk_newest_marked {
  nm_spent : (marks (ms' ≫= content_of) + left_ = budget)%nat;
  nm_same : unmark_message <$> ms' = ms;
  nm_where : ∀ b, b ∈ ms' ≫= content_of → is_marked b = true → is_cacheable b = true;
  nm_markable : Forall2 (λ m m', markable m' = markable m) ms ms';
  nm_left : left_ ≠ 0%nat → ∀ m, m ∈ ms' → carries m = markable m;
  nm_newest : ∀ i j mi mj, (i < j)%nat → ms' !! i = Some mi → ms' !! j = Some mj → carries mi = true → carries mj = markable mj;
}.
Lemma mark_newest_spec ms budget : Forall plain_message ms → newest_marked ms (mark_newest ms budget).1 budget (mark_newest ms budget).2.
Proof.
  induction 1 as [|m ms (content & Hw & Hp) _ IH]; [|].
  { split; cbn; [done|done|by intros b ?%elem_of_nil|by constructor|by intros _ m ?%elem_of_nil|]. intros i j mi mj _ Hi. by rewrite lookup_nil in Hi. }
  cbn [mark_newest]. destruct (mark_newest ms budget) as [ms' left_]. cbn [fst snd] in IH. destruct IH as [Hs Hsame Hwhere Hmk Hleft Hnew].
  destruct (written_content m content Hw) as (Hc & _ & _).
  assert (content_of m = content ∧ marks (content_of m) = 0%nat ∧ unmark_message m = m) as (_ & Hm0 & Hmu).
  { split_and!; [done|rewrite Hc; by apply marks_plain|]. rewrite (written_unmark _ _ Hw).
    assert (unmark <$> content = content) as ->; [|by apply (set_content_same _ _ Hw)].
    rewrite <- (list_fmap_id content) at 2. apply list_fmap_ext. intros i x Hx. apply (unmark_mark x). rewrite Forall_lookup in Hp. by eapply Hp. }
  destruct left_ as [|left_]; cbn [fst snd].
  - split; cbn [mbind list_bind fmap list_fmap].
    + rewrite marks_app. lia.
    + by rewrite Hmu, Hsame.
    + intros b [Hb|Hb]%elem_of_app Hmb; [|by apply Hwhere]. pose proof (marks_any _ Hm0) as Ha. rewrite any_false in Ha. by rewrite (Ha b Hb) in Hmb.
    + by constructor.
    + done.
    + intros [|i] [|j] mi mj Hij Hi Hj Hca; try lia; cbn in *.
      * simplify_eq. unfold carries in Hca. by rewrite marks_any in Hca.
      * eapply (Hnew i j); eauto with lia.
  - pose proof (mark_last_spec m content Hw Hp) as Hspec. destruct (mark_last_cacheable m) as [took m'].
    destruct Hspec as (Htook & Hmarks & Hum & (content' & Hw') & Hcach & Hany).
    assert (markable m' = markable m) as Hmk' by (unfold markable; by rewrite Hany, Hc).
    assert (carries m' = markable m') as Hcm.
    { unfold carries, markable. rewrite Hany, <- Htook. destruct took; [by apply any_marks|by apply marks_any]. }
    split; cbn [fst snd mbind list_bind fmap list_fmap].
    + rewrite marks_app. destruct took; lia.
    + by rewrite Hum, Hsame.
    + intros b [Hb|Hb]%elem_of_app Hmb; [by apply Hcach|by apply Hwhere].
    + by constructor.
    + intros _ x [->|Hx]%elem_of_cons; [done|by apply Hleft].
    + intros i [|j] mi mj Hij Hi Hj _; [lia|]. cbn in Hj. apply Hleft; [done|by eapply list_elem_of_lookup_2].
Qed.

(** The blocks of the system prompt. *)
Lemma system_spec system budget : let '(wire, left_) := system_blocks system budget in
  (marks wire + left_ = budget)%nat ∧ unmark <$> wire = text_block <$> (sb_text <$> system)
  ∧ (∀ b, b ∈ wire → is_cacheable b = true).
Proof.
  unfold system_blocks. set (marked := match rposition sb_cache system with Some i => if (0 <? budget)%nat then Some i else None | None => None end).
  assert (∀ t, is_cacheable (text_block t) = true ∧ is_marked (text_block t) = false) as Ht by (intros; split; by vm_compute).
  set (g := λ (i : nat) (b : SystemBlock), if bool_decide (Some i = marked) then (mark (text_block (sb_text b))).2 else text_block (sb_text b)).
  assert (∀ i b, unmark (g i b) = text_block (sb_text b) ∧ is_cacheable (g i b) = true ∧ is_marked (g i b) = bool_decide (Some i = marked)) as Hg.
  { intros i b. destruct (Ht (sb_text b)) as [H1 H2]. unfold g. case_bool_decide; split_and!; try done;
      first [by apply unmark_mark|by apply marked_mark]. }
  assert (marks (imap g system) = match marked with Some _ => 1 | None => 0 end)%nat as Hm.
  { assert (∀ i, marked = Some i → (i < length system)%nat) as Hlt.
    { intros i. unfold marked. destruct (rposition sb_cache system) as [j|] eqn:E; [|done]. destruct (0 <? budget)%nat; [|done]. intros [= <-].
      apply rposition_Some_here in E as (x & Hx & _). by eapply lookup_lt_Some. }
    clear -Hg Hlt. revert Hg Hlt. generalize g. clear g. generalize marked. clear marked. induction system as [|b system IH]; intros marked g Hg Hlt.
    - destruct marked as [i|]; [|done]. specialize (Hlt i eq_refl). cbn in Hlt. lia.
    - cbn [imap]. unfold marks, retain in *. cbn [List.filter]. destruct (Hg 0%nat b) as (_ & _ & ->).
      assert (imap (g ∘ S) system = imap (λ i, g (S i)) system) as -> by done.
      pose proof (IH (match marked with Some (S i) => Some i | _ => None end) (λ i, g (S i))) as IH'.
      destruct marked as [[|i]|]; cbn in *.
      + rewrite bool_decide_eq_true_2 by done. cbn. f_equal. apply IH'; [|done]. intros i b'. destruct (Hg (S i) b') as (H1 & H2 & H3). split_and!; try done.
      + rewrite bool_decide_eq_false_2 by done. apply IH'.
        * intros k b'. destruct (Hg (S k) b') as (H1 & H2 & H3). split_and!; try done. rewrite H3. by repeat case_bool_decide; simplify_eq.
        * intros k [= <-]. specialize (Hlt (S i) eq_refl). cbn in Hlt. lia.
      + rewrite bool_decide_eq_false_2 by done. apply IH'; [|done]. intros k b'. destruct (Hg (S k) b') as (H1 & H2 & H3). split_and!; try done. }
  split_and!.
  - rewrite Hm. unfold marked. destruct (rposition sb_cache system); [|lia]. destruct (Nat.ltb_spec 0 budget); lia.
  - rewrite <- list_fmap_compose. apply list_eq. intros i. rewrite !list_lookup_fmap, list_lookup_imap. destruct (system !! i); [|done]. cbn. f_equal. by apply Hg.
  - intros b Hb. apply elem_of_lookup_imap in Hb as (i & x & -> & _). by apply Hg.
Qed.

Lemma system_uncached system : system_blocks system 0 = (text_block <$> (sb_text <$> system), 0%nat).
Proof.
  unfold system_blocks. assert ((match rposition sb_cache system with Some i => if (0 <? 0)%nat then Some i else None | None => None end) = None) as -> by by case_match.
  f_equal. rewrite <- list_fmap_compose. apply list_eq. intros i. rewrite list_lookup_fmap, list_lookup_imap. by destruct (system !! i).
Qed.
Lemma mark_newest_none ms : mark_newest ms 0 = (ms, 0%nat).
Proof. induction ms as [|m ms IH]; [done|]. cbn. by rewrite IH. Qed.
Lemma messages_plain ms : Forall plain_message (omap message ms).
Proof.
  apply Forall_forall. intros v Hv. apply list_elem_of_omap in Hv as (m & _ & Hv). destruct (message_written m v Hv) as (content & Hw & Hp). by exists content.
Qed.

Lemma not_thought b : is_cacheable b = true →
  is_cacheable b = true ∧ str_at b (lit "type") ≠ Some (lit "thinking") ∧ str_at b (lit "type") ≠ Some (lit "redacted_thinking").
Proof. intros Hb. split; [done|]. unfold is_cacheable in Hb. split; intros E; by rewrite E in Hb. Qed.

(** C35: Breakpoints stay where the API takes them.  A request carries at most four, none
    where the endpoint does not cache, each on a block that may carry one and none on a
    thought; they go to the newest messages that can take them, and none is held back
    while one still can.  Taken off, they leave the request as it is without caching. *)
Theorem breakpoints_stay_where_the_api_takes_them (request : ModelRequest) (caps : EndpointCapabilities) :
  let p := parts_of request caps in
  let q := parts_of request (uncached caps) in
  let all := pt_system p ++ (pt_messages p ≫= content_of) in
  let budget := if ec_caching caps then MAX_BREAKPOINTS else 0%nat in
  (marks all ≤ budget)%nat
  ∧ (∀ b, b ∈ all → is_marked b = true → is_cacheable b = true
       ∧ str_at b (lit "type") ≠ Some (lit "thinking") ∧ str_at b (lit "type") ≠ Some (lit "redacted_thinking"))
  ∧ (∀ i j mi mj, (i < j)%nat → pt_messages p !! i = Some mi → pt_messages p !! j = Some mj → carries mi = true → carries mj = markable mj)
  ∧ ((marks all < budget)%nat → ∀ m, m ∈ pt_messages p → carries m = markable m)
  ∧ unmark <$> pt_system p = pt_system q ∧ unmark_message <$> pt_messages p = pt_messages q ∧ pt_tools p = pt_tools q.
Proof.
  cbn zeta. unfold parts_of, uncached, messages. cbn [ec_caching]. set (budget := if ec_caching caps then MAX_BREAKPOINTS else 0%nat).
  pose proof (system_spec (rq_system request) budget) as Hs. rewrite system_uncached. destruct (system_blocks (rq_system request) budget) as [system left_].
  destruct Hs as (Hspent & Hsame & Hwhere). rewrite mark_newest_none.
  destruct (mark_newest_spec (omap message (rq_messages request)) left_ (messages_plain _)) as [Hs2 Hsame2 Hwhere2 _ Hleft Hnew].
  destruct (mark_newest (omap message (rq_messages request)) left_) as [ms rest]. cbn [fst snd pt_system pt_messages pt_tools] in *.
  rewrite marks_app. split_and!; [lia| |done| |done|done|done].
  - intros b Hb Hm. apply not_thought. apply elem_of_app in Hb as [Hb|Hb]; [by apply Hwhere|by apply Hwhere2].
  - intros Hlt. apply Hleft. lia.
Qed.

(** ** Examples *)

Module Demo.
Definition caps : EndpointCapabilities := mkEndpointCapabilities true true true None.
Definition thought : ContentPart := PReasoning (lit "hm") [(PROVIDER, [(lit "signature", VString (lit "sig"))])].
Definition asked (messages : list Message) : ModelRequest :=
  mkModelRequest (lit "claude") 4096 [mkSystemBlock (lit "identity") true] messages [] None None [].
Definition long : list Message := replicate 40 (message_text RUser (lit "turn")).

Example never_more_than_four :
  let p := parts_of (asked long) caps in marks (pt_system p ++ (pt_messages p ≫= content_of)) = 4%nat.
Proof. by vm_compute. Qed.
Example a_thought_alone_takes_none :
  let p := parts_of (asked [message_text RUser (lit "hi"); message_assistant [thought]]) caps in
  carries <$> pt_messages p = [true; false].
Proof. by vm_compute. Qed.
End Demo.
