(* ===== verification/OpenAI.v ===== *)
(** * OpenAI: the Responses API (bingo-provider-openai)

    A conversation as the flat list of items the wire takes (input.rs, request.rs,
    effort.rs, variant.rs), the stream it answers with as the events of a turn
    (events.rs), what kind of failure a refusal is (error.rs), and the catalogues
    (models.rs).  Parameters: the JSON parser with its error as printed, JSON as text,
    and the arithmetic of floating-point delays. *)

From S2P Require Import Prelude Text Model Stream Sse Provider.

Definition PROVIDER : str := lit "openai".

(** ** Failures *)

Definition OVERFLOW_CODE : str := lit "context_length_exceeded".
Definition OVERFLOW_PHRASES : list str := [OVERFLOW_CODE; lit "maximum context length"].
Definition AUTH_CODES : list str :=
  [lit "invalid_api_key"; lit "invalid_authentication"; lit "authentication_error"; lit "account_deactivated"].
Definition SERVER_CODES : list str := [lit "server_error"; lit "server_is_overloaded"; lit "overloaded_error"].

Definition says_overflow (code : option str) (message : str) : bool :=
  let message := to_ascii_lowercase <$> message in
  bool_decide (code = Some OVERFLOW_CODE) || any (contains_str message) OVERFLOW_PHRASES.
Definition stream_error (code : option str) (message : str) (retry_after_ms : option N) : ProviderError :=
  if says_overflow code message then PeContextOverflow message
  else
    let said := match code with Some code => code ++ lit ": " ++ message | None => message end in
    match code with
    | Some code =>
        if bool_decide (code ∈ AUTH_CODES) then PeAuth said
        else if bool_decide (code ∈ SERVER_CODES) then PeServer 500 said
        else if contains_str code (lit "rate_limit") then PeRateLimited retry_after_ms
        else PeRequest said
    | None => PeRequest said
    end.
Definition code_in (error : Value) : option str :=
  let? v := match value_get (lit "code") error with Some v => Some v | None => value_get (lit "type") error end in as_str v.
Definition code_of (body : Value) : option str := code_in (default body (value_get (lit "error") body)).
Definition field (value : Value) (key : str) : option Value :=
  match value_get key value with
  | Some v => Some v
  | None => let? error := value_get (lit "error") value in value_get key error
  end.

(** The floating-point numbers of a delay: read from a number and from a text, whether
    finite, whether below zero, and rounded to milliseconds at so many a unit. *)
Record Floats := mkFloats {
  f64 : Type;
  of_number : Number -> f64;
  of_text : str -> option f64;
  is_finite : f64 -> bool;
  is_negative : f64 -> bool;
  scaled : f64 -> N -> N;
}.
Section delays.
Context (floats : Floats).
Definition as_f64 (v : Value) : option (f64 floats) := match v with VNumber n => Some (of_number floats n) | _ => None end.
Definition millis (value : Value) (unit_ms : N) : option N :=
  let? raw := match as_f64 value with Some raw => Some raw | None => let? text := as_str value in of_text floats (trim text) end in
  if negb (is_finite floats raw) || is_negative floats raw then None else Some (scaled floats raw unit_ms).
Definition body_delay_ms (value : Value) : option N :=
  match (let? delay := field value (lit "retry_after_ms") in millis delay 1) with
  | Some ms => Some ms
  | None => let? delay := field value (lit "retry_after") in millis delay 1000
  end.
Definition classify (parse_json : str -> result str Value) (rfc2822 : str -> option Z) (now : Z)
    (status : N) (body : str) (retry_after : option str) : ProviderError :=
  let value := match parse_json body with Ok v => v | Err _ => VNull end in
  let message := message_of parse_json body in
  if (status =? 400)%N && says_overflow (code_of value) message then PeContextOverflow message
  else if bool_decide (status ∈ [401; 403]%N) then PeAuth message
  else if (status =? 408)%N then PeTimeout
  else if (status =? 429)%N then
    PeRateLimited (option_or (let? v := retry_after in header_delay_ms rfc2822 v now) (body_delay_ms value))
  else if (500 <=? status)%N && (status <? 600)%N then PeServer status message
  else PeRequest message.
End delays.

(** ** The stream *)

Definition NO_ARGUMENTS : str := lit "{}".
Inductive Kind := KText | KReasoning | KTool (name arguments : str).
Record Item := mkItem { it_id : str; it_kind : Kind }.
Record Decoder := mkDecoder { dc_open : gmap N Item; dc_called_a_tool : bool }.
Definition decoder_new : Decoder := mkDecoder ∅ false.

Definition malformed (message : str) : ProviderError := PeStream message.
Definition count_at (v : Value) (key : str) : N := default 0%N (u64_at v key).
Definition output_index (v : Value) : N := count_at v (lit "output_index").
Definition is_tool (k : Kind) : bool := match k with KTool _ _ => true | _ => false end.

Definition id_of (item : Value) (kind : Kind) : result ProviderError str :=
  let key := if is_tool kind then lit "call_id" else lit "id" in
  match str_at item key with
  | Some id => Ok id
  | None => Err (malformed (lit "an output item without a " ++ key))
  end.
(** [Item::open]: none for an item of a type that is not modelled. *)
Definition item_open (item : Value) : result ProviderError (option Item) :=
  match str_at item (lit "type") with
  | None => Err (malformed (lit "an item without a type"))
  | Some type =>
      let named kind := match id_of item kind with Ok id => Ok (Some (mkItem id kind)) | Err e => Err e end in
      if bool_decide (type = lit "message") then named KText
      else if bool_decide (type = lit "reasoning") then named KReasoning
      else if bool_decide (type = lit "function_call") then
        match str_at item (lit "name") with
        | None => Err (malformed (lit "function_call without a name"))
        | Some name => named (KTool name [])
        end
      else Ok None
  end.
Definition item_start (i : Item) : ModelEvent :=
  match it_kind i with
  | KText => TextStart (it_id i)
  | KReasoning => ReasoningStart (it_id i)
  | KTool name _ => ToolInputStart (it_id i) name
  end.
Definition reasoning_metadata (done : option Value) : list (str * list (str * Value)) :=
  match done with
  | None => []
  | Some item =>
      match str_at item (lit "id"), str_at item (lit "encrypted_content") with
      | Some id, Some encrypted =>
          [(PROVIDER, [(lit "id", VString id); (lit "encrypted_content", VString encrypted)])]
      | _, _ => []
      end
  end.
Definition close_tool (id name streamed : str) (done : option Value) : list ModelEvent :=
  let authoritative := default [] (let? item := done in str_at item (lit "arguments")) in
  let input := default NO_ARGUMENTS
    (find_bool (fun text => negb (bool_decide (trim text = []))) [authoritative; streamed; NO_ARGUMENTS]) in
  (if bool_decide (streamed = []) && negb (bool_decide (authoritative = [])) then [ToolInputDelta id authoritative] else [])
  ++ [ToolInputEnd id; ToolCallEvent id name input].
Definition item_close (i : Item) (done : option Value) : list ModelEvent :=
  match it_kind i with
  | KText => [TextEnd (it_id i)]
  | KReasoning => [ReasoningEnd (it_id i) (reasoning_metadata done)]
  | KTool name arguments => close_tool (it_id i) name arguments done
  end.

Definition detail (usage : Value) (details key : str) : N :=
  match value_get details usage with Some inner => count_at inner key | None => 0%N end.
(** The wire counts the cache within the input; the counts are kept apart. *)
Definition usage_of (response : Value) : Usage :=
  let usage := default VNull (value_get (lit "usage") response) in
  let cached := detail usage (lit "input_tokens_details") (lit "cached_tokens") in
  let written := detail usage (lit "input_tokens_details") (lit "cache_write_tokens") in
  mkUsage (count_at usage (lit "input_tokens") - cached - written)%N (count_at usage (lit "output_tokens")) cached written
    (detail usage (lit "output_tokens_details") (lit "reasoning_tokens")).
Definition incomplete_reason (response : Value) : FinishReason :=
  let raw := default (lit "incomplete") (let? d := value_get (lit "incomplete_details") response in str_at d (lit "reason")) in
  mkFinishReason (if bool_decide (raw = lit "max_output_tokens") then FinLength
                  else if bool_decide (raw = lit "content_filter") then FinContentFilter else FinOther) (Some raw).
Definition finish_reason (event : str) (response : Value) (called_a_tool : bool) : FinishReason :=
  if bool_decide (event = lit "response.incomplete") then incomplete_reason response
  else mkFinishReason (if called_a_tool then FinToolCalls else FinStop) (Some (lit "completed")).
Definition finish_event (d : Decoder) (event : str) (value : Value) : ModelEvent :=
  let response := default VNull (value_get (lit "response") value) in
  FinishEvent (usage_of response) (finish_reason event response (dc_called_a_tool d)).
Definition created (value : Value) : list ModelEvent :=
  let response := default VNull (value_get (lit "response") value) in
  [StreamStart []; ResponseMetadata (str_at response (lit "id")) (str_at response (lit "model"))].

Definition item_added (d : Decoder) (value : Value) : result ProviderError (list ModelEvent) * Decoder :=
  match value_get (lit "item") value with
  | None => (Err (malformed (lit "output_item.added without an item")), d)
  | Some item =>
      match item_open item with
      | Err e => (Err e, d)
      | Ok None => (Ok [], d)
      | Ok (Some i) =>
          (Ok [item_start i], mkDecoder (<[output_index value := i]> (dc_open d)) (dc_called_a_tool d || is_tool (it_kind i)))
      end
  end.
Definition item_done (d : Decoder) (value : Value) : list ModelEvent * Decoder :=
  (match dc_open d !! output_index value with Some i => item_close i (value_get (lit "item") value) | None => [] end,
   mkDecoder (delete (output_index value) (dc_open d)) (dc_called_a_tool d)).
Definition delta_target (d : Decoder) (value : Value) (wanted : Kind -> bool) : option (str * str) :=
  let? i := dc_open d !! output_index value in
  if wanted (it_kind i) then (fun delta => (it_id i, delta)) <$> str_at value (lit "delta") else None.
Definition text_delta (d : Decoder) (value : Value) : list ModelEvent :=
  match delta_target d value (fun k => match k with KText => true | _ => false end) with
  | Some (id, delta) => [TextDelta id delta]
  | None => []
  end.
Definition reasoning_delta (d : Decoder) (value : Value) : list ModelEvent :=
  match delta_target d value (fun k => match k with KReasoning => true | _ => false end) with
  | Some (id, delta) => [ReasoningDelta id delta]
  | None => []
  end.
Definition tool_delta (d : Decoder) (value : Value) : list ModelEvent * Decoder :=
  match str_at value (lit "delta"), dc_open d !! output_index value with
  | Some fragment, Some (mkItem id (KTool name arguments)) =>
      ([ToolInputDelta id fragment],
       mkDecoder (<[output_index value := mkItem id (KTool name (arguments ++ fragment))]> (dc_open d)) (dc_called_a_tool d))
  | _, _ => ([], d)
  end.

Section decoding.
Context (floats : Floats) (parse_json : str -> result str Value).

Definition parse (data what : str) : result ProviderError Value :=
  match parse_json data with
  | Ok v => Ok v
  | Err e => Err (malformed (lit "bad " ++ what ++ lit ": " ++ e))
  end.
Definition announced (envelope error : Value) : ProviderError :=
  stream_error (code_in error) (default (lit "the response failed") (str_at error (lit "message"))) (body_delay_ms floats envelope).
Definition failed (value : Value) : ProviderError :=
  let response := default value (value_get (lit "response") value) in
  announced response (default VNull (value_get (lit "error") response)).
Definition error_event (value : Value) : ProviderError := announced value (default value (value_get (lit "error") value)).

(** The event names that are read. *)
Definition REASONING_DELTAS : list str := [lit "response.reasoning_summary_text.delta"; lit "response.reasoning_text.delta"].
Definition ENDS : list str := [lit "response.completed"; lit "response.incomplete"].
Definition NAMED : list str :=
  [lit "response.created"; lit "response.output_item.added"; lit "response.output_item.done"; lit "response.output_text.delta"]
  ++ REASONING_DELTAS ++ [lit "response.function_call_arguments.delta"] ++ ENDS ++ [lit "response.failed"; lit "error"].
Definition decode_value (d : Decoder) (event : str) (v : Value) : result ProviderError (list ModelEvent) * Decoder :=
  if bool_decide (event = lit "response.created") then (Ok (created v), d)
  else if bool_decide (event = lit "response.output_item.added") then item_added d v
  else if bool_decide (event = lit "response.output_item.done") then let '(events, d) := item_done d v in (Ok events, d)
  else if bool_decide (event = lit "response.output_text.delta") then (Ok (text_delta d v), d)
  else if bool_decide (event ∈ REASONING_DELTAS) then (Ok (reasoning_delta d v), d)
  else if bool_decide (event = lit "response.function_call_arguments.delta") then let '(events, d) := tool_delta d v in (Ok events, d)
  else if bool_decide (event ∈ ENDS) then (Ok [finish_event d event v], d)
  else if bool_decide (event = lit "response.failed") then (Err (failed v), d)
  else (Err (error_event v), d).
#[export] Instance openai_decode : Decode Decoder := fun d event data =>
  if bool_decide (event ∈ NAMED) then
    match parse data event with
    | Ok v => decode_value d event v
    | Err e => (Err e, d)
    end
  else (Ok [], d).
End decoding.

(** ** The conversation, as items *)

Definition IMAGE_PLACEHOLDER : str := lit "[image]".
Definition input_text (text : str) : Value := VObject [(lit "type", VString (lit "input_text")); (lit "text", VString text)].
Definition input_image (media data : str) : Value :=
  VObject [(lit "type", VString (lit "input_image")); (lit "image_url", VString (lit "data:" ++ media ++ lit ";base64," ++ data))].
Definition pictured (i : Image) : list Value :=
  input_image (media_type i) (image_data i) :: (input_text <$> option_list (whereabouts i)).
Definition user_message (content : list Value) : Value :=
  VObject [(lit "type", VString (lit "message")); (lit "role", VString (lit "user")); (lit "content", VArray content)].
Definition is_image (p : ContentPart) : bool := match p with PImage _ => true | _ => false end.
Definition images (parts : list ContentPart) : list Value :=
  parts ≫= (fun p => match p with PImage image => pictured image | _ => [] end).
Definition text_of (parts : list ContentPart) : str :=
  let text := join [10%N] (omap part_as_text parts) in
  if bool_decide (text = []) && any is_image parts then IMAGE_PLACEHOLDER else text.
Definition reasoning (meta : list (str * list (str * Value))) : option Value :=
  let? mine := metadata_get PROVIDER meta in
  let? id := (let? v := map_get (lit "id") mine in as_str v) in
  let? encrypted := (let? v := map_get (lit "encrypted_content") mine in as_str v) in
  Some (VObject [(lit "type", VString (lit "reasoning")); (lit "id", VString id); (lit "summary", VArray []);
                 (lit "encrypted_content", VString encrypted)]).

Section requests.
Context (json_text : Value -> str).
Definition output (parts : list ContentPart) (is_error : bool) : str :=
  let text := text_of parts in
  if is_error then json_text (VObject [(lit "is_error", VBool true); (lit "content", VString text)]) else text.
Definition call_output (id : str) (parts : list ContentPart) (is_error : bool) : Value :=
  VObject [(lit "type", VString (lit "function_call_output")); (lit "call_id", VString id);
           (lit "output", VString (output parts is_error))].
Definition assistant_item (p : ContentPart) : option Value :=
  match p with
  | PText (_ :: _ as text) =>
      Some (VObject [(lit "type", VString (lit "message")); (lit "role", VString (lit "assistant"));
                     (lit "content", VArray [VObject [(lit "type", VString (lit "output_text")); (lit "text", VString text)]])])
  | PToolUse id name input =>
      Some (VObject [(lit "type", VString (lit "function_call")); (lit "call_id", VString id); (lit "name", VString name);
                     (lit "arguments", VString (json_text input))])
  | PReasoning _ meta => reasoning meta
  | _ => None
  end.
(** The results of a turn as items of their own, then the one message that closes it. *)
Definition user_part (st : list Value * list Value) (p : ContentPart) : list Value * list Value :=
  match p with
  | PText text => (st.1, st.2 ++ [input_text text])
  | PImage image => (st.1, st.2 ++ pictured image)
  | PToolResult id parts is_error => (st.1 ++ [call_output id parts is_error], st.2 ++ images parts)
  | PToolUse _ _ _ | PReasoning _ _ => st
  end.
Definition user_items (items : list Value) (parts : list ContentPart) : list Value :=
  let '(items, content) := foldl user_part (items, []) parts in
  match content with [] => items | _ => items ++ [user_message content] end.
Definition input_message (items : list Value) (m : Message) : list Value :=
  match msg_role m with
  | RUser => user_items items (msg_parts m)
  | RAssistant => items ++ omap assistant_item (msg_parts m)
  end.
Definition input_items (ms : list Message) : list Value := foldl input_message [] ms.
End requests.

(** ** Effort *)

Definition LADDER : list str := [lit "none"; lit "minimal"; lit "low"; lit "medium"; lit "high"; lit "xhigh"; lit "max"].
Definition NONE : str := lit "none".
Definition UNKNOWN : list str := [lit "low"; lit "medium"; lit "high"].
Definition to_high : list str := [lit "none"; lit "low"; lit "medium"; lit "high"].
Definition to_xhigh : list str := to_high ++ [lit "xhigh"].
Definition from_medium : list str := [lit "medium"; lit "high"; lit "xhigh"].
Definition FAMILIES : list (str * list str) :=
  [(lit "gpt-5", [lit "minimal"; lit "low"; lit "medium"; lit "high"]);
   (lit "gpt-5-pro", [lit "high"]);
   (lit "gpt-5.1", to_high);
   (lit "gpt-5.2", to_xhigh);
   (lit "gpt-5.2-chat", [lit "medium"]);
   (lit "gpt-5.2-pro", from_medium);
   (lit "gpt-5.3-codex", to_xhigh);
   (lit "gpt-5.4", to_xhigh);
   (lit "gpt-5.4-pro", from_medium);
   (lit "gpt-5.5", to_xhigh);
   (lit "gpt-5.5-pro", from_medium);
   (lit "gpt-5.6", to_xhigh ++ [lit "max"]);
   (lit "gpt-6", [lit "low"; lit "medium"; lit "high"; lit "xhigh"; lit "max"]);
   (lit "o1", UNKNOWN); (lit "o3", UNKNOWN); (lit "o4-mini", UNKNOWN)].
(** [max_by_key]: the last of the longest. *)
Definition longest (best : option (str * list str)) (f : str * list str) : option (str * list str) :=
  match best with
  | Some b => if (length b.1 <=? length f.1)%nat then Some f else Some b
  | None => Some f
  end.
Definition accepted_by (model : str) : list str :=
  match foldl longest None (retain (fun f => starts_with model f.1) FAMILIES) with
  | Some (_, values) => values
  | None => UNKNOWN
  end.
Definition rank (value : str) : nat := default (length LADDER) (position (fun l => bool_decide (l = value)) LADDER).
Definition shallowest (accepted : list str) : str :=
  default (lit "low") (find_bool (fun v => negb (bool_decide (v = NONE))) accepted).
Definition effort_for (model : str) (effort : Effort) : str :=
  let accepted := accepted_by model in
  let wanted := rank (effort_label effort) in
  default (shallowest accepted)
    (last (take_while (fun v => (rank v <=? wanted)%nat) (retain (fun v => negb (bool_decide (v = NONE))) accepted))).
Definition efforts (model : str) : list Effort := retain (fun e => bool_decide (effort_for model e = effort_label e)) EFFORTS.

(** ** The request *)

Inductive Variant := VariantDefault | VariantCodex.
Definition variant_path (v : Variant) : str :=
  match v with VariantDefault => lit "/v1/responses" | VariantCodex => lit "/codex/responses" end.
Definition sends_max_output_tokens (v : Variant) : bool := match v with VariantDefault => true | VariantCodex => false end.
Definition provider_id (v : Variant) : str := match v with VariantDefault => lit "openai" | VariantCodex => lit "codex" end.

Definition instructions (system : list SystemBlock) : option str :=
  match system with [] => None | _ => Some (join [10; 10]%N (sb_text <$> system)) end.
Definition tool (spec : ToolSpec) : Value :=
  VObject [(lit "type", VString (lit "function")); (lit "name", VString (sp_name spec));
           (lit "description", VString (sp_description spec)); (lit "parameters", sp_input_schema spec); (lit "strict", VBool false)].
Definition add_tools (tools : list ToolSpec) (body : list (str * Value)) : list (str * Value) :=
  match tools with [] => body | _ => map_insert (lit "tools") (VArray (tool <$> tools)) body end.
Definition ENCRYPTED_REASONING : str := lit "reasoning.encrypted_content".
Definition SUMMARY : str := lit "auto".
Definition add_reasoning (model : str) (effort : Effort) (body : list (str * Value)) : list (str * Value) :=
  map_insert (lit "include") (VArray [VString ENCRYPTED_REASONING])
    (map_insert (lit "reasoning") (VObject [(lit "effort", VString (effort_for model effort)); (lit "summary", VString SUMMARY)]) body).
Definition encode (json_text : Value -> str) (request : ModelRequest) (variant : Variant) : Value :=
  let body := map_insert (lit "model") (VString (rq_model request)) [] in
  let body := map_insert (lit "stream") (VBool true) body in
  let body := map_insert (lit "store") (VBool false) body in
  let body := if sends_max_output_tokens variant
              then map_insert (lit "max_output_tokens") (VNumber (PosInt (rq_max_tokens request))) body else body in
  let body := match instructions (rq_system request) with Some i => map_insert (lit "instructions") (VString i) body | None => body end in
  let body := map_insert (lit "input") (VArray (input_items json_text (rq_messages request))) body in
  let body := add_tools (rq_tools request) body in
  let body := match rq_reasoning request with Some effort => add_reasoning (rq_model request) effort body | None => body end in
  let body := match rq_session request with Some s => map_insert (lit "prompt_cache_key") (VString s) body | None => body end in
  VObject (merge_provider_options body (metadata_get PROVIDER (rq_provider_options request))).

(** ** The catalogues *)

Definition info_le (a b : ModelInfo) : Prop := str_le (mi_id a) (mi_id b).
#[export] Instance info_le_dec : RelDecision info_le := fun a b => str_le_dec (mi_id a) (mi_id b).
Definition model_entries (body : Value) : option (list Value) :=
  as_array (default body (option_or (value_get (lit "data") body) (value_get (lit "models") body))).
Definition model_entry (entry : Value) : option ModelInfo :=
  (fun id => mkModelInfo id None) <$> option_or (str_at entry (lit "id")) (as_str entry).
Definition parse_models (body : Value) : list ModelInfo :=
  match model_entries body with None => [] | Some entries => merge_sort info_le (omap model_entry entries) end.

Definition I64_MAX : Z := (2 ^ 63 - 1)%Z.
Definition as_i64 (v : Value) : option Z :=
  match v with
  | VNumber (PosInt n) => if (Z.of_N n <=? I64_MAX)%Z then Some (Z.of_N n) else None
  | VNumber (NegInt z) => Some z
  | _ => None
  end.
Definition codex_entry (entry : Value) : option (Z * ModelInfo) :=
  if bool_decide (str_at entry (lit "visibility") = Some (lit "hide")) then None
  else
    let? slug := str_at entry (lit "slug") in
    Some (default I64_MAX (let? p := value_get (lit "priority") entry in as_i64 p),
          mkModelInfo slug (str_at entry (lit "display_name"))).
Definition ranked_le (a b : Z * ModelInfo) : Prop := (a.1 < b.1)%Z ∨ a.1 = b.1 ∧ info_le a.2 b.2.
#[export] Instance ranked_le_dec : RelDecision ranked_le.
Proof. intros a b. unfold ranked_le. apply _. Defined.
Definition codex_models (body : Value) : list ModelInfo :=
  match (let? models := value_get (lit "models") body in as_array models) with
  | None => []
  | Some entries => (merge_sort ranked_le (omap codex_entry entries)).*2
  end.
Definition CODEX_FALLBACK : list str :=
  [lit "gpt-5.6-sol"; lit "gpt-5.6-sol-wm"; lit "gpt-5.6-terra"; lit "gpt-5.6-luna"; lit "gpt-5.5"; lit "gpt-5.4";
   lit "gpt-5.4-mini"; lit "gpt-5.3-codex-spark"; lit "codex-auto-review"].
Definition codex_fallback : list ModelInfo := (fun id => mkModelInfo id None) <$> CODEX_FALLBACK.
