(* ===== verification/OpenAILaws.v ===== *)
(** * OpenAILaws: a response of items is the message it streamed

    What the Responses API streams, item by item, is what the turn keeps, and what was
    kept goes back on the next request; an effort is always one the model takes. *)

From S2P Require Import Prelude Text Utf8 Model Interaction Event Transcript Context Stream Sse SseLaws Kept Provider OpenAI.

(** ** A response, as the API streams it *)

(** An output item, by the fragments it came in and the whole item it ended with. *)
Inductive Said :=
| SaidText (id : str) (texts : list str) (done : option Value)
| SaidThought (id : str) (texts : list str) (done : option Value)
| SaidCall (id name : str) (fragments : list str) (done : option Value).
Inductive Wire :=
| Created (id model : option str)
| ItemAdded (i : N) (opened : Item)
| Delta (i : N) (event text : str)
| ItemDone (i : N) (done : option Value)
| Completed (event : str) (response : Value)
| Other.

Definition TEXT_DELTA : str := lit "response.output_text.delta".
Definition THOUGHT_DELTA : str := lit "response.reasoning_summary_text.delta".
Definition CALL_DELTA : str := lit "response.function_call_arguments.delta".
Definition item_script (i : N) (s : Said) : list Wire :=
  match s with
  | SaidText id ts done => ItemAdded i (mkItem id KText) :: (Delta i TEXT_DELTA <$> ts) ++ [ItemDone i done]
  | SaidThought id ts done => ItemAdded i (mkItem id KReasoning) :: (Delta i THOUGHT_DELTA <$> ts) ++ [ItemDone i done]
  | SaidCall id name js done => ItemAdded i (mkItem id (KTool name [])) :: (Delta i CALL_DELTA <$> js) ++ [ItemDone i done]
  end.
Fixpoint items_script (i : N) (said : list Said) : list Wire :=
  match said with [] => [] | s :: said => item_script i s ++ items_script (i + 1) said end.
Definition response_script (id model : option str) (said : list Said) (event : str) (response : Value) : list Wire :=
  Created id model :: items_script 0 said ++ [Completed event response].
Definition is_other (w : Wire) : bool := match w with Other => true | _ => false end.
Definition calls_a_tool (said : list Said) : bool := any (λ s, match s with SaidCall _ _ _ _ => true | _ => false end) said.

(** The arguments a call ends with: those the item reports, else the fragments, else none. *)
Definition reported (done : option Value) : str := default [] (let? item := done in str_at item (lit "arguments")).
Definition arguments_of (js : list str) (done : option Value) : str :=
  if bool_decide (trim (reported done) = []) then (if bool_decide (trim (concat js) = []) then NO_ARGUMENTS else concat js) else reported done.
Definition shown (js : list str) (done : option Value) : list str :=
  js ++ (if bool_decide (concat js = []) && negb (bool_decide (reported done = [])) then [reported done] else []).
Definition kept_of (s : Said) : Kept :=
  match s with
  | SaidText id ts _ => KeptText id ts
  | SaidThought id ts done => KeptThought id ts (reasoning_metadata done)
  | SaidCall id name js done => KeptCall id name (shown js done) (arguments_of js done)
  end.

Section telling.
Context (floats : Floats) (parse_json : str → result str Value).
#[local] Instance decoding : Decode Decoder := openai_decode floats parse_json.

Definition opens (item : Value) (i : Item) : Prop :=
  match it_kind i with
  | KText => str_at item (lit "type") = Some (lit "message") ∧ str_at item (lit "id") = Some (it_id i)
  | KReasoning => str_at item (lit "type") = Some (lit "reasoning") ∧ str_at item (lit "id") = Some (it_id i)
  | KTool name arguments => str_at item (lit "type") = Some (lit "function_call") ∧ str_at item (lit "call_id") = Some (it_id i)
      ∧ str_at item (lit "name") = Some name ∧ arguments = []
  end.
(** That the data of a frame reads so, whatever more it says. *)
Definition reads (f : SseFrame) (event : str) (P : Value → Prop) : Prop :=
  fr_event f = event ∧ ∃ v, parse_json (fr_data f) = Ok v ∧ P v.
Definition tells (f : SseFrame) (w : Wire) : Prop :=
  match w with
  | Created id model => reads f (lit "response.created") (λ v, ∃ r, value_get (lit "response") v = Some r
      ∧ str_at r (lit "id") = id ∧ str_at r (lit "model") = model)
  | ItemAdded i opened => reads f (lit "response.output_item.added") (λ v, output_index v = i ∧ ∃ item, value_get (lit "item") v = Some item
      ∧ opens item opened)
  | Delta i event text => reads f event (λ v, output_index v = i ∧ str_at v (lit "delta") = Some text)
  | ItemDone i done => reads f (lit "response.output_item.done") (λ v, output_index v = i ∧ value_get (lit "item") v = done)
  | Completed event response => reads f event (λ v, value_get (lit "response") v = Some response)
  | Other => fr_event f ∉ NAMED
  end.
Definition in_form (w : Wire) : Prop :=
  match w with
  | Delta _ event _ => event ∈ [TEXT_DELTA; THOUGHT_DELTA; CALL_DELTA]
  | Completed event _ => event ∈ ENDS
  | _ => True
  end.

Definition wire_step (d : Decoder) (w : Wire) : list ModelEvent * Decoder :=
  match w with
  | Created id model => ([StreamStart []; ResponseMetadata id model], d)
  | ItemAdded i opened => ([item_start opened], mkDecoder (<[i := opened]> (dc_open d)) (dc_called_a_tool d || is_tool (it_kind opened)))
  | Delta i event text =>
      match dc_open d !! i with
      | Some (mkItem id KText) => (if bool_decide (event = TEXT_DELTA) then [TextDelta id text] else [], d)
      | Some (mkItem id KReasoning) => (if bool_decide (event = THOUGHT_DELTA) then [ReasoningDelta id text] else [], d)
      | Some (mkItem id (KTool name arguments)) =>
          if bool_decide (event = CALL_DELTA)
          then ([ToolInputDelta id text], mkDecoder (<[i := mkItem id (KTool name (arguments ++ text))]> (dc_open d)) (dc_called_a_tool d))
          else ([], d)
      | None => ([], d)
      end
  | ItemDone i done => (match dc_open d !! i with Some item => item_close item done | None => [] end, mkDecoder (delete i (dc_open d)) (dc_called_a_tool d))
  | Completed event response => ([FinishEvent (usage_of response) (finish_reason event response (dc_called_a_tool d))], d)
  | Other => ([], d)
  end.

Lemma items_told d f w : in_form w → tells f w → decode d (fr_event f) (fr_data f) = let '(events, d) := wire_step d w in (Ok events, d).
Proof.
  intros Hw Hf. unfold decode, decoding, openai_decode. destruct w as [id model|i opened|i event text|i done_|event response|]; cbn [tells in_form] in *; unfold reads in Hf.
  - destruct Hf as (-> & v & Hv & r & Hr & <- & <-). rewrite bool_decide_eq_true_2 by (apply (bool_decide_unpack _); by vm_compute).
    unfold parse. rewrite Hv. unfold decode_value, created. by rewrite bool_decide_eq_true_2, Hr by done.
  - destruct Hf as (-> & v & Hv & <- & item & Hi & Ho). rewrite bool_decide_eq_true_2 by (apply (bool_decide_unpack _); by vm_compute).
    unfold parse. rewrite Hv. unfold decode_value. rewrite bool_decide_eq_false_2, bool_decide_eq_true_2 by done.
    unfold item_added, item_open. rewrite Hi. destruct opened as [id [| |name arguments]]; cbn [opens it_kind it_id] in Ho.
    + destruct Ho as [-> Hid]. unfold id_of. cbn [is_tool]. rewrite Hid. by repeat case_bool_decide.
    + destruct Ho as [-> Hid]. unfold id_of. cbn [is_tool]. rewrite Hid. by repeat case_bool_decide.
    + destruct Ho as (-> & Hid & Hn & ->). unfold id_of. cbn [is_tool]. rewrite Hn, Hid. by repeat case_bool_decide.
  - destruct Hf as (-> & v & Hv & <- & Ht). unfold parse.
    repeat (apply elem_of_cons in Hw as [->|Hw]); [..|by apply elem_of_nil in Hw];
      (rewrite bool_decide_eq_true_2 by (apply (bool_decide_unpack _); by vm_compute)); rewrite Hv; cbn [decode_value wire_step];
      unfold decode_value; cbn -[output_index]; unfold text_delta, reasoning_delta, tool_delta, delta_target; rewrite ?Ht; cbn -[output_index];
      destruct (dc_open d !! output_index v) as [[id [| |name arguments]]|]; cbn -[output_index]; rewrite ?Ht; done.
  - destruct Hf as (-> & v & Hv & <- & <-). rewrite bool_decide_eq_true_2 by (apply (bool_decide_unpack _); by vm_compute).
    unfold parse. by rewrite Hv.
  - destruct Hf as (-> & v & Hv & Hr). unfold parse.
    repeat (apply elem_of_cons in Hw as [->|Hw]); [..|by apply elem_of_nil in Hw];
      (rewrite bool_decide_eq_true_2 by (apply (bool_decide_unpack _); by vm_compute)); rewrite Hv; unfold decode_value; cbn; unfold finish_event; by rewrite Hr.
  - by rewrite bool_decide_eq_false_2.
Qed.


(** ** What the decoder makes of it *)

Abbreviation wire_run := (SseLaws.wire_run wire_step) (only parsing).
Lemma item_texts d i id ts : dc_open d !! i = Some (mkItem id KText) → wire_run d (Delta i TEXT_DELTA <$> ts) = (TextDelta id <$> ts, d).
Proof.
  intros Hi. induction ts as [|t ts IH]; [done|]. cbn [fmap list_fmap SseLaws.wire_run wire_step]. by rewrite Hi, bool_decide_eq_true_2, IH by done.
Qed.
Lemma item_thoughts d i id ts : dc_open d !! i = Some (mkItem id KReasoning) → wire_run d (Delta i THOUGHT_DELTA <$> ts) = (ReasoningDelta id <$> ts, d).
Proof.
  intros Hi. induction ts as [|t ts IH]; [done|]. cbn [fmap list_fmap SseLaws.wire_run wire_step]. by rewrite Hi, bool_decide_eq_true_2, IH by done.
Qed.
Lemma item_fragments d i id name arguments js : dc_open d !! i = Some (mkItem id (KTool name arguments)) →
  wire_run d (Delta i CALL_DELTA <$> js) =
  (ToolInputDelta id <$> js, mkDecoder (<[i := mkItem id (KTool name (arguments ++ concat js))]> (dc_open d)) (dc_called_a_tool d)).
Proof.
  revert d arguments. induction js as [|t js IH]; intros d arguments Hi; cbn [fmap list_fmap SseLaws.wire_run wire_step concat].
  - rewrite app_nil_r, insert_id by done. by destruct d.
  - rewrite Hi, bool_decide_eq_true_2 by done. rewrite (IH _ (arguments ++ t)) by apply lookup_insert_eq. cbn. by rewrite insert_insert_eq, <- app_assoc.
Qed.
Lemma close_tool_kept id name js done : close_tool id name (concat js) done =
  (if bool_decide (concat js = []) && negb (bool_decide (reported done = [])) then [ToolInputDelta id (reported done)] else [])
  ++ [ToolInputEnd id; ToolCallEvent id name (arguments_of js done)].
Proof.
  unfold close_tool, arguments_of. fold (reported done). do 2 f_equal. f_equal. f_equal. unfold find_bool. cbn [find_map].
  destruct (bool_decide (trim (reported done) = [])); cbn [negb]; [|done]. by destruct (bool_decide (trim (concat js) = [])).
Qed.
Lemma wire_item d i s : wire_run d (item_script i s) =
  (kept_events (kept_of s), mkDecoder (delete i (dc_open d)) (dc_called_a_tool d || calls_a_tool [s])).
Proof.
  assert (∀ x b, dc_open (mkDecoder (<[i := x]> (dc_open d)) b) !! i = Some x) as Hi by (intros; apply lookup_insert_eq).
  destruct s as [id ts done|id ts done|id name js done]; cbn [item_script SseLaws.wire_run wire_step kept_of kept_events];
    unfold calls_a_tool, any; cbn [existsb it_kind is_tool].
  - rewrite wire_run_app, (item_texts _ _ id) by apply Hi. cbn [SseLaws.wire_run wire_step]. rewrite Hi. cbn. by rewrite delete_insert_eq.
  - rewrite wire_run_app, (item_thoughts _ _ id) by apply Hi. cbn [SseLaws.wire_run wire_step]. rewrite Hi. cbn. by rewrite delete_insert_eq.
  - rewrite wire_run_app, (item_fragments _ _ id name []) by apply Hi. cbn [SseLaws.wire_run wire_step dc_open].
    rewrite lookup_insert_eq. cbn [item_close it_kind it_id app]. rewrite close_tool_kept. cbn [dc_open dc_called_a_tool].
    rewrite !delete_insert_eq. unfold shown. rewrite fmap_app, <- !app_assoc, app_nil_r. cbn [app]. do 3 f_equal.
    by destruct (bool_decide (concat js = []) && negb (bool_decide (reported done = []))).
Qed.
Lemma wire_items d i said : dc_open d = ∅ → wire_run d (items_script i said) = (all_events (kept_of <$> said), mkDecoder ∅ (dc_called_a_tool d || calls_a_tool said)).
Proof.
  revert d i. induction said as [|s said IH]; intros d i Hd; cbn [items_script].
  - cbn. destruct d as [o b]. cbn in *. by rewrite Hd, orb_false_r.
  - rewrite wire_run_app, wire_item, Hd, delete_empty. rewrite IH by done. cbn [dc_called_a_tool]. rewrite <- orb_assoc.
    unfold calls_a_tool, any. cbn [existsb]. by rewrite orb_false_r.
Qed.
Lemma wire_response id model said event response :
  (wire_run decoder_new (response_script id model said event response)).1 =
  response_events id model (kept_of <$> said) (usage_of response) (finish_reason event response (calls_a_tool said)).
Proof.
  unfold response_script, response_events. cbn [SseLaws.wire_run wire_step]. by rewrite wire_run_app, wire_items.
Qed.
Lemma in_form_response id model said event response : event ∈ ENDS → Forall in_form (response_script id model said event response).
Proof.
  intros He. unfold response_script. apply Forall_cons. split; [done|]. apply Forall_app. split; [|by apply Forall_singleton].
  assert (∀ i event ts, event ∈ [TEXT_DELTA; THOUGHT_DELTA; CALL_DELTA] → Forall in_form (Delta i event <$> ts)) as Hd by (intros; by apply Forall_fmap, Forall_true).
  generalize 0%N. induction said as [|s said IH]; intros i; [constructor|]. cbn [items_script]. apply Forall_app. split; [|apply IH].
  destruct s; cbn [item_script]; rewrite Forall_cons, Forall_app; split_and!; try done; try (apply Hd; repeat first [by left|right]); by repeat constructor.
Qed.

(** ** The whole way *)

Context (hash_order : gmap str Open → list str) (json_text : Value → str).

(** The item the API is sent for one it streamed: a thought only with the state it handed over. *)
Definition sent_back (s : Said) : list Value :=
  match s with
  | SaidText _ ts _ => option_list (assistant_item json_text (PText (concat ts)))
  | SaidThought _ _ done =>
      match (let? item := done in str_at item (lit "id")), (let? item := done in str_at item (lit "encrypted_content")) with
      | Some id, Some encrypted =>
          [VObject [(lit "type", VString (lit "reasoning")); (lit "id", VString id); (lit "summary", VArray []); (lit "encrypted_content", VString encrypted)]]
      | _, _ => []
      end
  | SaidCall id name js done =>
      [VObject [(lit "type", VString (lit "function_call")); (lit "call_id", VString id); (lit "name", VString name);
                (lit "arguments", VString (json_text (parse_input parse_json (arguments_of js done)).1))]]
  end.
Definition sends (p : ContentPart) : list Value := option_list (assistant_item json_text p).
Lemma item_sent_back s : List.flat_map sends (part_of (kept_body parse_json (kept_of s))) = sent_back s.
Proof.
  destruct s as [id ts done|id ts done|id name js done]; cbn [kept_of kept_body part_of sent_back]; [by destruct (concat ts)| |by cbn].
  unfold reasoning_metadata. destruct done as [item|]; [|by destruct (concat ts)]. cbn [mbind option_bind].
  destruct (str_at item (lit "id")) as [rid|]; [|by destruct (concat ts)]. destruct (str_at item (lit "encrypted_content")) as [enc|]; [|by destruct (concat ts)].
  assert (∀ text, sends (PReasoning text [(PROVIDER, [(lit "id", VString rid); (lit "encrypted_content", VString enc)])]) =
    [VObject [(lit "type", VString (lit "reasoning")); (lit "id", VString rid); (lit "summary", VArray []); (lit "encrypted_content", VString enc)]]) as Hs by (intros; by vm_compute).
  destruct (concat ts); cbn [List.flat_map]; by rewrite Hs.
Qed.

End telling.

(** ** Effort *)

Lemma longest_in best l : (∀ b, best = Some b → b ∈ FAMILIES) → l ⊆ FAMILIES → ∀ b, foldl longest best l = Some b → b ∈ FAMILIES.
Proof.
  revert best. induction l as [|f l IH]; intros best Hb Hl b; [apply Hb|]. cbn [foldl]. apply IH; [|set_solver].
  intros b' Hb'. unfold longest in Hb'. destruct best as [c|]; [|by simplify_eq; apply Hl; left].
  destruct (length c.1 <=? length f.1)%nat; simplify_eq; [apply Hl; by left|by apply Hb].
Qed.
Lemma accepted_listed model : accepted_by model ∈ UNKNOWN :: FAMILIES.*2.
Proof.
  unfold accepted_by. destruct (foldl longest None (retain (λ f, starts_with model f.1) FAMILIES)) as [[p values]|] eqn:E; [|by left].
  apply longest_in in E; [|done|intros x Hx; by apply elem_of_retain in Hx as [? _]]. right. by apply (list_elem_of_fmap_2 snd) in E.
Qed.
(** What is sent of an effort a model of these levels is asked for. *)
Definition clamped (accepted : list str) (wanted : nat) : str :=
  default (shallowest accepted) (last (take_while (λ v, (rank v <=? wanted)%nat) (retain (λ v, negb (bool_decide (v = NONE))) accepted))).
Definition well_clamped (accepted : list str) (wanted : nat) (v : str) : Prop :=
  v ∈ accepted ∧ v ≠ NONE
  ∧ Forall (λ w, w = NONE ∨ (rank w ≤ wanted → rank w ≤ rank v)%nat) accepted
  ∧ ((rank v ≤ wanted)%nat ∨ Forall (λ w, w = NONE ∨ (wanted < rank w ∧ rank v ≤ rank w)%nat) accepted).
#[local] Instance well_clamped_dec accepted wanted v : base.Decision (well_clamped accepted wanted v).
Proof. unfold well_clamped. apply _. Defined.

(** An effort is one the model takes: the deepest of its levels that is no deeper than
    what was asked, or its shallowest where all are deeper; never the level that turns
    thinking off. *)
Theorem an_effort_is_one_the_model_takes (model : str) (effort : Effort) :
  well_clamped (accepted_by model) (rank (effort_label effort)) (effort_for model effort).
Proof.
  assert (Forall (λ accepted, Forall (λ e, well_clamped accepted (rank (effort_label e)) (clamped accepted (rank (effort_label e)))) EFFORTS)
    (UNKNOWN :: FAMILIES.*2)) as Hall by (apply (bool_decide_unpack _); by vm_compute).
  rewrite Forall_forall in Hall. specialize (Hall _ (accepted_listed model)). rewrite Forall_forall in Hall. apply (Hall effort).
  destruct effort; repeat first [by left|right].
Qed.

(** ** A response of the tests, by the frame *)

Module Demo.
Definition num (n : N) : Value := VNumber (PosInt n).
Definition word (s : str) : Value := VString s.
Definition obj : list (str * Value) → Value := VObject.
Definition at_ (i : N) (fields : list (str * Value)) : Value := obj ((lit "output_index", num i) :: fields).
Definition thought : Value := obj [(lit "id", word (lit "rs_1")); (lit "type", word (lit "reasoning")); (lit "encrypted_content", word (lit "gAAA"))].
Definition called : Value := obj [(lit "id", word (lit "fc_1")); (lit "type", word (lit "function_call")); (lit "call_id", word (lit "call_1"));
                                  (lit "name", word (lit "Now")); (lit "arguments", word (lit "{}"))].
Definition ended : Value := obj [(lit "usage", obj [(lit "input_tokens", num 3012); (lit "output_tokens", num 7);
                                   (lit "input_tokens_details", obj [(lit "cached_tokens", num 2048)])])].
(** The frames, their data under a name of its own. *)
Definition sent : list (str * str * Value * Wire) :=
  [(lit "response.created", lit "a", obj [(lit "response", obj [(lit "id", word (lit "resp_1"))])], Created (Some (lit "resp_1")) None);
   (lit "response.in_progress", lit "b", obj [], Other);
   (lit "response.output_item.added", lit "c", at_ 0 [(lit "item", thought)], ItemAdded 0 (mkItem (lit "rs_1") KReasoning));
   (THOUGHT_DELTA, lit "d", at_ 0 [(lit "delta", word (lit "hm"))], Delta 0 THOUGHT_DELTA (lit "hm"));
   (lit "response.output_item.done", lit "e", at_ 0 [(lit "item", thought)], ItemDone 0 (Some thought));
   (lit "response.output_item.added", lit "f", at_ 1 [(lit "item", called)], ItemAdded 1 (mkItem (lit "call_1") (KTool (lit "Now") [])));
   (lit "response.output_item.done", lit "g", at_ 1 [(lit "item", called)], ItemDone 1 (Some called));
   (lit "response.completed", lit "h", obj [(lit "response", ended)], Completed (lit "response.completed") ended)].
Definition json : list (str * Value) := (lit "{}", obj []) :: ((λ x, (x.1.1.2, x.1.2)) <$> sent).
Definition parse_json (s : str) : result str Value := match map_get s json with Some v => Ok v | None => Err (lit "expected value") end.
Definition json_text (v : Value) : str := match v with VObject [] => lit "{}" | _ => lit "?" end.
(** Whole numbers are floats enough here. *)
Definition floats : Floats :=
  mkFloats N (λ n, match n with PosInt n => n | _ => 0%N end) parse_u64 (λ _, true) (λ _, false) N.mul.
Definition frames : list SseFrame := (λ x, mkSseFrame x.1.1.1 x.1.1.2) <$> sent.
Definition told : list Wire := (λ x, x.2) <$> sent.
Definition said : list Said := [SaidThought (lit "rs_1") [lit "hm"] (Some thought); SaidCall (lit "call_1") (lit "Now") [] (Some called)].
Definition body : bytes := concat ((λ f, utf8 (render f)) <$> frames).
Definition chunks : list bytes := [take 100 body; drop 100 body].
Definition keys (m : gmap str Open) : list str := (map_to_list m).*1.

Lemma response_told : Forall2 (tells parse_json) frames told.
Proof.
  unfold frames, told, sent. cbn [fmap list_fmap fst snd].
  repeat (apply Forall2_cons; split; [|]); [..|by apply Forall2_nil]; cbn [tells]; unfold reads; cbn [fr_event fr_data];
    first [by apply (bool_decide_unpack _); vm_compute|split; [done|]; eexists; split; [by vm_compute|]; unfold opens; cbn [it_kind it_id];
      first [by vm_compute|by split; by vm_compute|by eexists; split_and!; vm_compute|by split; [by vm_compute|]; eexists; split_and!; vm_compute]].
Qed.
Lemma response_scripted : spoken is_other told = response_script (Some (lit "resp_1")) None said (lit "response.completed") ended.
Proof. by vm_compute. Qed.
Lemma items_clean : Forall clean frames.
Proof.
  unfold frames, sent. cbn [fmap list_fmap fst snd]. repeat apply Forall_cons_2; [..|by apply Forall_nil]; split; by apply one_line_check; vm_compute.
Qed.
Lemma pieces_body : concat chunks = body.
Proof. by vm_compute. Qed.
Lemma pieces_fit : fits chunks.
Proof. apply fits_short. by vm_compute. Qed.

(** A server error whose code is null is taken for a bad request, its type unread, and so
    is not tried again; without the field it is. *)
Example a_null_code_hides_the_type :
  error_event floats (obj [(lit "type", word (lit "server_error")); (lit "code", VNull); (lit "message", word (lit "busy"))])
    = PeRequest (lit "busy")
  ∧ error_event floats (obj [(lit "type", word (lit "server_error")); (lit "message", word (lit "busy"))])
    = PeServer 500 (lit "server_error: busy").
Proof. split; by vm_compute. Qed.
End Demo.

